(* ===== verification/_CoqProject ===== *)
-Q . S2P
Prelude.v
Bytes.v
LinkedList.v
PortList.v
IpHdr.v
IpCksum.v
TcpOptions.v
Packet.v
Reass.v
Frag.v
Rfc791.v
Queue.v
Heap.v
PTree.v
PExchange.v
PPlaces.v
RbTree.v
RbOps.v
RbDelete.v
RbRemove.v
AvlTree.v
AvlOps.v
AvlRemove.v
Timers.v
LinkHeap.v
LinkHeapOps.v
LinkHeapSpec.v
LinkHeapRemove.v
LinkTimers.v
TreeTimers.v
CString.v
Dns.v
DnsNames.v
DnsPut.v
DnsSafe.v
DnsHdr.v
DnsResolve.v
Rfc815.v
Rfc815List.v
Rfc815Add.v
Rfc815Spec.v
Combo.v
Hashes.v
SipSpec.v
DataBuf.v
IpHash.v
IpHashSpec.v
Pcap.v
PcapSpec.v
HashTable.v
HashTableSpec.v
HashTableRun.v
HashTableHistory.v
TimerWheel.v
TimerWheelSpec.v
TimerWheelRun.v
SlabAlloc.v
SlabAllocSpec.v
SlabAllocRun.v
SlabAllocThreads.v
SlabAllocCaches.v
RandomMt.v
SkipList.v
SkipListSpec.v
SkipListRun.v
SkipListOps.v
SkipListHistory.v
