(* ===== verification/Prelude.v ===== *)
(** * Verification of pptk, a packet processing toolkit

    ** The program

    pptk is a set of C libraries for programs that receive, rewrite and send
    packets.  At the bottom are byte access ([misc/hdr.h]) and the accessors of
    the protocol headers ([iphdr/iphdr.h]); on them stand the checksum code and
    the header rewriting of a NAT or a TCP proxy ([iphdr/ipcksum.h],
    [iphdr/ipcksum.c]) and the TCP option scanners ([iphdr/iphdr.c]).  IPv4
    fragmentation ([ipfrag/ipfrag.c]) and several reassemblers
    ([ipfrag/ipreass.c], [ipfrag/rfc791.c], ...) use both, with packets
    ([packet/packet.h]) from an allocator behind function pointers
    ([alloc/allocif.h]).  Containers (lists, trees, heaps, hash tables, queues,
    byte buffers) serve all of them.

    ** Files and what they model

    - [Prelude]: outcomes of C code (a value, [abort()], undefined behaviour, a
      loop still running at its bound), the loop combinators and their rules,
      machine integers.
    - [Bytes]: [misc/hdr.h] and [misc/byteswap.h] over a byte memory ([gmap Z Z]);
      the host's byte order is the class [Host] with a little- and a big-endian
      instance.  An access outside the memory is [Undef].
    - [LinkedList], [PortList]: [linkedlist/linkedlist.h] on a heap of nodes, and
      the port pool of [portlist/portlist.h] on top of it.
    - [IpHdr]: [iphdr/iphdr.h], every accessor and the IPv6 extension header walk.
    - [IpCksum]: [iphdr/ipcksum.c] and the parts of [iphdr/ipcksum.h] for whole
      checksums, addresses, ports and TTL.
    - [TcpOptions]: [iphdr/iphdr.c] and the option rewriting of [iphdr/ipcksum.h].
    - [Packet]: [struct packet] and the allocator interface (classes [Allocif] and
      [AllocifLaws]).
    - [Reass]: [ipfrag/ipreass.c], the abstract specification of reassembly (which
      bytes the fragments cover, when a datagram is complete), and the interface
      ([Reassembler], [ReassemblerLaws]) a reassembler offers its clients.
    - [Frag]: [ipfrag/ipfrag.c], and fragmentation composed with any reassembler.
    - [Rfc791]: [ipfrag/rfc791.c], a second instance of the interface.
    - [Queue]: [queue/queue.c] and [queue/queue.h], a ring buffer with a mutex and
      two condition variables as a step machine over threads.
    - [Heap], [PTree], [PExchange], [PPlaces]: programs on a heap of cells, their
      weakest preconditions in separation logic, and what the two kinds of tree
      share: nodes with parent pointers, the paths to them, the search loops, the
      exchange of two nodes, unlinking, comparison functions.
    - [RbTree], [RbOps], [RbDelete], [RbRemove]: [rbtree/rbtree.h] and
      [rbtree/rbtree.c]; the programs are in [RbTree].
    - [AvlTree], [AvlOps], [AvlRemove]: [avltree/avltree.h] and
      [avltree/avltree.c]; the programs are in [AvlTree].
    - [Timers]: what a timer library promises, a map from timers to times, as a
      class with laws.  [LinkHeap] has the programs of
      [timerlinkheap/timerlink.h] and [timerlinkheap/timerlink.c];
      [LinkHeapOps], [LinkHeapSpec] and [LinkHeapRemove] are their proofs and
      [LinkTimers] the instance.  [TreeTimers] has [timerrb/] and [timeravl/]
      and their instances, proved against an interface of search trees.
    - [Rfc815]: [ipfrag/rfc815.h] and [ipfrag/rfc815.c]; [Rfc815List] and
      [Rfc815Add] relate the links in the buffer to a list of holes,
      [Rfc815Spec] is the history of a context.
    - [Combo]: [ipfrag/combo.h] and [ipfrag/combo.c], which move from the context
      of [Reass] to that of [Rfc815].
    - [Hashes]: [misc/siphash.h], [misc/murmur.h] and [misc/chacha.h], and
      [SipSpec] the definition of SipHash-2-4 and the test vectors.
    - [DataBuf]: [databuf/] and [dynarr/].
    - [IpHash]: [iphash/], a client of the timer interface and of [Hashes];
      [IpHashSpec] is its specification as token buckets.
    - [Pcap]: [mypcap/mypcap.h] and [mypcap/mypcap.c]; [PcapSpec] is what a file
      holds and the proofs.
    - [HashTable]: [hashlist/] and [hashtable/] on a memory of words with mutexes;
      [HashTableSpec] and [HashTableRun] describe lists and tables in separation
      logic, [HashTableHistory] the histories of a table.
    - [TimerWheel]: [timerwheel/], on the lists of [HashTable]; [TimerWheelSpec]
      says what a wheel holds and [TimerWheelRun] its histories.
    - [SlabAlloc]: the allocators of [alloc/] over a class of caches;
      [SlabAllocSpec] accounts for the blocks, [SlabAllocRun] has whole calls,
      [SlabAllocThreads] calls in steps that interleave, with the mutex, and
      [SlabAllocCaches] the three caches.
    - [RandomMt]: [random/random_mt.h] and [random/random_mt.c], and MT19937.
    - [SkipList]: [timerskiplist/timerskiplist.h] and
      [timerskiplist/timerskiplist.c]; [SkipListSpec], [SkipListRun] and
      [SkipListOps] are the lists at the levels and what searching, adding,
      removing and cutting does to them, [SkipListHistory] the histories against
      a list of jobs sorted by time.
    - [CString]: [strlen], [strchr] and [strcmp] on blocks.  [Dns] has the
      programs of [iphdr/dnshdr.h] and [iphdr/dnshdr.c]; [DnsNames] says what a
      name in a message is and proves the reader, [DnsPut] the writers,
      [DnsSafe] the reader on arbitrary bytes, [DnsHdr] the header fields and
      [DnsResolve] the CNAME follower.

    Function and field names are those of the source; a loop body that is a
    definition of its own is named after its function.

    ** What the theorems show

    - Headers: setters and getters form a lens per field; the IPv6 walk stays in
      the packet and finds the header RFC 8200 asks for, and where it does not end.
    - Checksums: the word-wise host-order code equals the RFC 1071 reference on
      both byte orders; a stored checksum verifies; every incremental update keeps
      a verifying packet verifying.
    - TCP options: the scanners decode what is encoded and are safe on arbitrary
      bytes; rewriting keeps checksums valid at even and odd offsets; where the
      scanners and the rewriting do not end.
    - Fragments: the hole list is exact; fragmentation and reassembly are inverse
      for every order and repetition; the bitmap agrees with the hole list, and
      where it does not; behaviour on allocation failure.
    - Lists and queues: pointer code refines lists; the blocking queue is safe,
      first-in first-out and loses no wake-up under every interleaving.
    - Trees: on any heap that holds a valid red-black or AVL tree, insertion and
      deletion return, keep the discipline and the order, and change no cell
      outside the tree; search, the ends and the validity checks return what the
      order and the shape say.
    - Timers: every sequence of additions, removals, changes and questions that
      the interface allows returns on the link heap and on both trees, with the
      answers of the map.
    - RFC 815: the hole list in the buffer is the hole list of [Reass], data never
      overwrites it, and the context promises what the other reassemblers do.
    - The combined reassembler keeps the same promise across its move from one
      context to the other and gives every packet back once.
    - Rate limiting: over any timer library the table is a set of token buckets,
      so what a network may send is bounded, by the tokens of the bucket its
      masked address hashes to; SipHash is the published function.
    - Buffers: what is written to a byte buffer is read back, also when the
      allocator refuses some of it; arrays hold what was pushed.
    - Hash tables and the timer wheel: every history of operations returns, with
      locks or without, with the answers of a finite collection and of a list of
      timers with ticks.  The table must have at least as many buckets as a mutex
      is for, and the functions of the wheel's timers leave the wheel alone.
    - Slab allocators: with threads whose calls interleave, every block is in one
      place, large enough for who has it, and none is left behind or freed twice.
    - Skip list timers: every history of starting, stopping and running timers
      answers like a list of jobs sorted by time, also when the functions of the
      timers start and stop timers.
    - Random numbers: the generator is the Mersenne Twister.
    - Capture files: what one host writes, every host reads; on arbitrary bytes
      the reader stays in its buffers.
    - DNS: what the compressing writers write, the readers read back; the reader
      of names stays in bounds on arbitrary bytes but for names that are read as
      the empty string, such as the root; it does not end on a self-referring label that starts with a zero byte; the
      resolver follows the list of answers.

    ** Bounds and fuel

    A [while] loop is [iter n body]: [n] bounds the number of passes and the
    result [OutOfFuel] is distinct from every result of the code.  Theorems state
    that the call returns ([Ret] or [returns]), so the bounds are proved enough:
    the size of the heap for lists, 41 passes for TCP options, the packet
    length for extension headers.  Non-termination is proved for every bound.
    Integers are [Z]; where C stores a result the model wraps it with [u8] to
    [u64].

    ** Not modelled

    Drivers and I/O ([ldp], [netmap], [mypcap], [tuntap], [ports]), logging, the
    hash seed and random sources, and the test and benchmark programs: they are
    calls into the kernel or into libraries that are not part of the sources.
    The other reassemblers ([iprb815], [iprbexplicit],
    [rbcombo], [linux]), TCP reassembly, the wheels of heaps and trees
    and the ARP cache are not modelled.  [rb_tree_replace] is not called by any function. *)
From stdpp Require Export base numbers list gmap option.
From Stdlib Require Export ZArith Lia.

Open Scope Z_scope.

(** ** Outcomes of C code

    A call either returns a value, stops the process through [abort()],
    performs an operation the C standard leaves undefined (a read or a write
    outside every object, a dereference of [NULL], a shift by the width), or
    is still running when the iteration bound of one of its loops is used
    up. *)
Inductive outcome (A : Type) : Type :=
  | Ret (a : A)
  | Abort
  | Undef
  | OutOfFuel.
Arguments Ret {A} _.
Arguments Abort {A}.
Arguments Undef {A}.
Arguments OutOfFuel {A}.

#[export] Instance outcome_ret : MRet outcome := fun A a => Ret a.

#[export] Instance outcome_bind : MBind outcome := fun A B f o =>
  match o with
  | Ret a => f a
  | Abort => Abort
  | Undef => Undef
  | OutOfFuel => OutOfFuel
  end.

#[export] Instance outcome_fmap : FMap outcome := fun A B f o =>
  match o with
  | Ret a => Ret (f a)
  | Abort => Abort
  | Undef => Undef
  | OutOfFuel => OutOfFuel
  end.

#[export] Instance outcome_eq_dec {A} `{EqDecision A} : EqDecision (outcome A).
Proof. solve_decision. Defined.

(** A read that fails is undefined behaviour. *)
Definition of_option {A} (o : option A) : outcome A :=
  match o with Some a => Ret a | None => Undef end.

(** [returns o P]: the call returns, and its value satisfies [P]. *)
Definition returns {A} (o : outcome A) (P : A -> Prop) : Prop :=
  exists a, o = Ret a /\ P a.

Section outcome_laws.
Context {A B C : Type}.

Lemma bind_ret (a : A) (f : A -> outcome B) : (Ret a ≫= f) = f a.
Proof. reflexivity. Qed.

Lemma bind_ret_r (o : outcome A) : (o ≫= Ret) = o.
Proof. by destruct o. Qed.

Lemma bind_assoc (o : outcome A) (f : A -> outcome B) (g : B -> outcome C) :
  ((o ≫= f) ≫= g) = (o ≫= fun a => f a ≫= g).
Proof. by destruct o. Qed.

Lemma bind_Ret_inv (o : outcome A) (f : A -> outcome B) b :
  (o ≫= f) = Ret b -> exists a, o = Ret a /\ f a = Ret b.
Proof. destruct o; naive_solver. Qed.

Lemma returns_bind (o : outcome A) (f : A -> outcome B) (P : A -> Prop) (Q : B -> Prop) :
  returns o P -> (forall a, P a -> returns (f a) Q) -> returns (o ≫= f) Q.
Proof. intros (a & -> & HP) Hf. by apply Hf. Qed.

Lemma returns_impl (o : outcome A) (P Q : A -> Prop) :
  returns o P -> (forall a, P a -> Q a) -> returns o Q.
Proof. intros (a & -> & HP) H. exists a. auto. Qed.

Lemma returns_ret (a : A) (P : A -> Prop) : P a -> returns (Ret a) P.
Proof. by exists a. Qed.
End outcome_laws.

(** ** Loops

    [iter n body s] runs the body of a [while] or [for(;;)] loop from state
    [s]: [inl s'] is one more iteration, [inr r] is a [break] or a [return].
    The bound [n] is on the number of times the body is entered. *)
Fixpoint iter {S R : Type} (n : nat) (body : S -> outcome (S + R)) (s : S)
    : outcome R :=
  match n with
  | O => OutOfFuel
  | Datatypes.S n =>
      x ← body s;
      match x with
      | inl s' => iter n body s'
      | inr r => Ret r
      end
  end.

Section iter_laws.
Context {S R : Type} (body : S -> outcome (S + R)).

Lemma iter_inl n s s' : body s = Ret (inl s') -> iter (Datatypes.S n) body s = iter n body s'.
Proof. intros E. simpl. by rewrite E. Qed.

Lemma iter_inr n s r : body s = Ret (inr r) -> iter (Datatypes.S n) body s = Ret r.
Proof. intros E. simpl. by rewrite E. Qed.

(** Total correctness of a loop: an invariant, a measure, and one pass of
    the body that keeps the invariant and decreases the measure or leaves
    the loop with the postcondition. *)
Lemma iter_total (I : S -> Prop) (μ : S -> nat) (Q : R -> Prop) :
  (forall s, I s ->
    returns (body s) (fun x =>
      match x with
      | inl s' => I s' /\ (μ s' < μ s)%nat
      | inr r => Q r
      end)) ->
  forall n s, I s -> (μ s < n)%nat -> returns (iter n body s) Q.
Proof.
  intros Hbody n. induction n as [|n IH]; intros s HI Hμ; [lia|].
  simpl. destruct (Hbody s HI) as ([s'|r] & -> & Hx); simpl.
  - destruct Hx as [HI' Hlt]. apply IH; [done|lia].
  - by exists r.
Qed.

(** A loop whose body always asks for one more iteration never returns. *)
Lemma iter_diverges (I : S -> Prop) :
  (forall s, I s -> exists s', body s = Ret (inl s') /\ I s') ->
  forall n s, I s -> iter n body s = OutOfFuel.
Proof.
  intros Hbody n. induction n as [|n IH]; intros s HI; [done|].
  simpl. destruct (Hbody s HI) as (s' & -> & HI'). simpl. by apply IH.
Qed.

(** More fuel does not change a result. *)
Lemma iter_mono n m s r :
  (n <= m)%nat -> iter n body s = Ret r -> iter m body s = Ret r.
Proof.
  revert m s. induction n as [|n IH]; intros m s Hle Hr; [done|].
  destruct m as [|m]; [lia|]. simpl in *.
  destruct (body s) as [[s'|r']| | |]; simpl in *; try done.
  apply IH; [lia|done].
Qed.
End iter_laws.

(** [for (i = a; i < b; i++)] with a body that cannot leave the loop. *)
Fixpoint for_loop {S : Type} (n : nat) (a : Z) (body : Z -> S -> outcome S) (s : S) : outcome S :=
  match n with
  | O => Ret s
  | Datatypes.S n => s ← body a s; for_loop n (a + 1) body s
  end.
Definition for_range {S : Type} (a b : Z) (body : Z -> S -> outcome S) (s : S) : outcome S :=
  for_loop (Z.to_nat (b - a)) a body s.

(** An invariant indexed by the loop variable. *)
Lemma for_range_inv {S : Type} (I : Z -> S -> Prop) a b body s :
  a <= b -> I a s ->
  (forall i s, a <= i < b -> I i s -> returns (body i s) (I (i + 1))) ->
  returns (for_range a b body s) (I b).
Proof.
  intros Hab HI Hstep. unfold for_range. remember (Z.to_nat (b - a)) as n eqn:Hn.
  revert a s Hab HI Hstep Hn. induction n as [|n IH]; intros a s Hab HI Hstep Hn; simpl.
  - exists s. split; [done|]. by replace b with a by lia.
  - destruct (Hstep a s ltac:(lia) HI) as (s' & -> & HI'). simpl.
    apply (IH (a + 1)); [lia|done| |lia]. intros. apply Hstep; [lia|done].
Qed.

Lemma for_range_empty {S : Type} a b (body : Z -> S -> outcome S) s :
  b <= a -> for_range a b body s = Ret s.
Proof. intros. unfold for_range. by replace (Z.to_nat (b - a)) with 0%nat by lia. Qed.

(** ** Machine integers

    A [w]-bit unsigned integer is a [Z] in [0, 2^w); arithmetic that leaves
    the range is wrapped where the C code stores the result. *)
Definition u8 (x : Z) : Z := x mod 256.
Definition u16 (x : Z) : Z := x mod 65536.
Definition u32 (x : Z) : Z := x mod 4294967296.
Definition u64 (x : Z) : Z := x mod 18446744073709551616.

(** The C value of a comparison or of [!!x]. *)
Definition b2z (b : bool) : Z := if b then 1 else 0.

Ltac Zify.zify_post_hook ::= Z.div_mod_to_equations.

Lemma u8_range x : 0 <= u8 x < 256.
Proof. unfold u8. lia. Qed.
Lemma u16_range x : 0 <= u16 x < 65536.
Proof. unfold u16. lia. Qed.
Lemma u32_range x : 0 <= u32 x < 4294967296.
Proof. unfold u32. lia. Qed.
Lemma u64_range x : 0 <= u64 x < 18446744073709551616.
Proof. unfold u64. lia. Qed.

Lemma u8_small x : 0 <= x < 256 -> u8 x = x.
Proof. apply Z.mod_small. Qed.
Lemma u16_small x : 0 <= x < 65536 -> u16 x = x.
Proof. apply Z.mod_small. Qed.
Lemma u32_small x : 0 <= x < 4294967296 -> u32 x = x.
Proof. apply Z.mod_small. Qed.
Lemma u64_small x : 0 <= x < 18446744073709551616 -> u64 x = x.
Proof. apply Z.mod_small. Qed.
