(* ===== verification/Bytes.v ===== *)
(** Byte memory and the header accessors of misc/hdr.h and misc/byteswap.h.

    A block of C memory is a finite map from addresses to byte values.  An
    address outside the map is not part of any object: reading or writing it
    is undefined behaviour.  Multi-byte accesses go through [memcpy] in the C
    code, so they follow the byte order of the host, which is a parameter
    ([Host]); [ntohs], [htons], [ntohl] and [htonl] swap bytes on a
    little-endian host and do nothing on a big-endian one. *)
From S2P Require Import Prelude.

Abbreviation mem := (gmap Z Z).

Class Host := { host_big_endian : bool }.
Definition little_endian_host : Host := {| host_big_endian := false |}.
Definition big_endian_host : Host := {| host_big_endian := true |}.

(** ** Memory *)

Definition load8 (m : mem) (p : Z) : outcome Z := of_option (m !! p).

Definition store8 (m : mem) (p v : Z) : outcome mem :=
  match m !! p with
  | Some _ => Ret (<[p := u8 v]> m)
  | None => Undef
  end.

(** [n] bytes starting at [p], lowest address first. *)
Fixpoint loadn (m : mem) (p : Z) (n : nat) : outcome (list Z) :=
  match n with
  | O => Ret []
  | S n => b ← load8 m p; bs ← loadn m (p + 1) n; Ret (b :: bs)
  end.

Fixpoint storen (m : mem) (p : Z) (bs : list Z) : outcome mem :=
  match bs with
  | [] => Ret m
  | b :: bs => m ← store8 m p b; storen m (p + 1) bs
  end.

(** [memcpy(dst, src, n)] within a block, between blocks, and [memset]. *)
Definition memcpy_from (mdst : mem) (dst : Z) (msrc : mem) (src n : Z) : outcome mem :=
  bs ← loadn msrc src (Z.to_nat n); storen mdst dst bs.

Definition memcpy (m : mem) (dst src n : Z) : outcome mem := memcpy_from m dst m src n.

Definition memset (m : mem) (p c n : Z) : outcome mem :=
  storen m p (replicate (Z.to_nat n) (u8 c)).

(** ** Byte order *)

Definition be_decode (bs : list Z) : Z := foldl (fun a b => a * 256 + b) 0 bs.

Fixpoint le_encode (n : nat) (v : Z) : list Z :=
  match n with
  | O => []
  | S n => v mod 256 :: le_encode n (v / 256)
  end.

Section byte_order.
Context `{Host}.

(** The integer an object of the host has, from its bytes, and back. *)
Definition host_decode (bs : list Z) : Z :=
  be_decode (if host_big_endian then bs else reverse bs).

Definition host_encode (n : nat) (v : Z) : list Z :=
  if host_big_endian then reverse (le_encode n v) else le_encode n v.

Definition byteswap16 (x : Z) : Z :=
  Z.lor (Z.shiftl (Z.land x 255) 8) (Z.land (Z.shiftr x 8) 255).

Definition byteswap32 (x : Z) : Z :=
  Z.lor (Z.shiftl (Z.land x 255) 24)
    (Z.lor (Z.shiftl (Z.land (Z.shiftr x 8) 255) 16)
      (Z.lor (Z.shiftl (Z.land (Z.shiftr x 16) 255) 8)
        (Z.land (Z.shiftr x 24) 255))).

Definition ntohs (x : Z) : Z := if host_big_endian then x else byteswap16 x.
Definition htons (x : Z) : Z := ntohs x.
Definition ntohl (x : Z) : Z := if host_big_endian then x else byteswap32 x.
Definition htonl (x : Z) : Z := ntohl x.

(** ** misc/hdr.h *)

Definition hdr_get64h (m : mem) (buf : Z) : outcome Z :=
  bs ← loadn m buf 8; Ret (host_decode bs).
Definition hdr_get32h (m : mem) (buf : Z) : outcome Z :=
  bs ← loadn m buf 4; Ret (host_decode bs).
Definition hdr_get16h (m : mem) (buf : Z) : outcome Z :=
  bs ← loadn m buf 2; Ret (host_decode bs).
Definition hdr_get8h (m : mem) (buf : Z) : outcome Z := load8 m buf.

Definition hdr_set64h (m : mem) (buf val : Z) : outcome mem :=
  storen m buf (host_encode 8 val).
Definition hdr_set32h (m : mem) (buf val : Z) : outcome mem :=
  storen m buf (host_encode 4 val).
Definition hdr_set16h (m : mem) (buf val : Z) : outcome mem :=
  storen m buf (host_encode 2 val).
Definition hdr_set8h (m : mem) (buf val : Z) : outcome mem := store8 m buf val.

Definition hdr_get32n (m : mem) (buf : Z) : outcome Z :=
  v ← hdr_get32h m buf; Ret (ntohl v).
Definition hdr_get16n (m : mem) (buf : Z) : outcome Z :=
  v ← hdr_get16h m buf; Ret (ntohs v).
Definition hdr_set32n (m : mem) (buf val : Z) : outcome mem :=
  hdr_set32h m buf (htonl val).
Definition hdr_set16n (m : mem) (buf val : Z) : outcome mem :=
  hdr_set16h m buf (htons val).
End byte_order.

(** ** Reading memory as a specification

    [rd] is the total reading of a byte; [valid m p n] says the [n] bytes
    from [p] belong to the block, and [bytes_ok] that every stored value is a
    byte. *)
Definition rd (m : mem) (p : Z) : Z := default 0 (m !! p).
Definition valid (m : mem) (p n : Z) : Prop :=
  forall i, p <= i < p + n -> is_Some (m !! i).
Definition bytes_ok (m : mem) : Prop := forall p b, m !! p = Some b -> 0 <= b < 256.

Definition be16 (m : mem) (p : Z) : Z := rd m p * 256 + rd m (p + 1).
Definition be32 (m : mem) (p : Z) : Z := be16 m p * 65536 + be16 m (p + 2).

Definition wr8 (m : mem) (p v : Z) : mem := <[p := v mod 256]> m.
Definition wr16 (m : mem) (p v : Z) : mem := wr8 (wr8 m p (v / 256)) (p + 1) v.
Definition wr32 (m : mem) (p v : Z) : mem := wr16 (wr16 m p (v / 65536)) (p + 2) v.

(** A block laid out from a list of bytes, for concrete inputs. *)
Fixpoint mem_of (p : Z) (bs : list Z) : mem :=
  match bs with
  | [] => ∅
  | b :: bs => <[p := b]> (mem_of (p + 1) bs)
  end.

(** ** Lemmas: one byte *)

Lemma rd_wr8_eq m p v : rd (wr8 m p v) p = v mod 256.
Proof. unfold rd, wr8. by rewrite lookup_insert_eq. Qed.

Lemma rd_wr8_ne m p q v : p <> q -> rd (wr8 m p v) q = rd m q.
Proof. intros. unfold rd, wr8. by rewrite lookup_insert_ne. Qed.

Lemma valid_sub m p n q k : valid m p n -> p <= q -> q + k <= p + n -> valid m q k.
Proof. intros Hv ?? i Hi. apply Hv. lia. Qed.

Lemma valid_app m p a b : valid m p a -> valid m (p + a) b -> valid m p (a + b).
Proof.
  intros Ha Hb i Hi. destruct (decide (i < p + a)); [apply Ha|apply Hb]; lia.
Qed.

Lemma valid_wr8 m p v q n : valid m q n -> valid (wr8 m p v) q n.
Proof.
  intros Hv i Hi. unfold wr8. destruct (decide (p = i)) as [->|].
  - rewrite lookup_insert_eq. eauto.
  - rewrite lookup_insert_ne by done. by apply Hv.
Qed.

Lemma valid_wr16 m p v q n : valid m q n -> valid (wr16 m p v) q n.
Proof. intros. by do 2 apply valid_wr8. Qed.

Lemma valid_wr32 m p v q n : valid m q n -> valid (wr32 m p v) q n.
Proof. intros. by do 2 apply valid_wr16. Qed.

Lemma bytes_ok_insert m p b : bytes_ok m -> 0 <= b < 256 -> bytes_ok (<[p := b]> m).
Proof. intros Hm Hb q c [[_ <-]|[_ Hq]]%lookup_insert_Some; [done|by eapply Hm]. Qed.

Lemma bytes_ok_wr8 m p v : bytes_ok m -> bytes_ok (wr8 m p v).
Proof. intros. apply bytes_ok_insert; [done|lia]. Qed.

Lemma bytes_ok_wr16 m p v : bytes_ok m -> bytes_ok (wr16 m p v).
Proof. intros. by do 2 apply bytes_ok_wr8. Qed.

Lemma bytes_ok_wr32 m p v : bytes_ok m -> bytes_ok (wr32 m p v).
Proof. intros. by do 2 apply bytes_ok_wr16. Qed.

Lemma rd_range m p : bytes_ok m -> 0 <= rd m p < 256.
Proof.
  intros Hm. unfold rd. destruct (m !! p) eqn:E; simpl; [by eapply Hm|lia].
Qed.

Lemma be16_range m p : bytes_ok m -> 0 <= be16 m p < 65536.
Proof.
  intros Hm. unfold be16. pose proof (rd_range m p Hm). pose proof (rd_range m (p + 1) Hm). lia.
Qed.

Lemma be32_range m p : bytes_ok m -> 0 <= be32 m p < 4294967296.
Proof.
  intros Hm. unfold be32. pose proof (be16_range m p Hm). pose proof (be16_range m (p + 2) Hm). lia.
Qed.

Lemma lookup_rd m p : valid m p 1 -> m !! p = Some (rd m p).
Proof. intros Hv. destruct (Hv p) as [b E]; [lia|]. unfold rd. by rewrite E. Qed.

Lemma load8_ok m p : valid m p 1 -> load8 m p = Ret (rd m p).
Proof. intros Hv. unfold load8. by rewrite (lookup_rd _ _ Hv). Qed.

Lemma store8_ok m p v : valid m p 1 -> store8 m p v = Ret (wr8 m p v).
Proof. intros Hv. unfold store8. by rewrite (lookup_rd _ _ Hv). Qed.

Create HintDb mem.
#[export] Hint Resolve valid_wr8 valid_wr16 valid_wr32 : mem.
#[export] Hint Resolve bytes_ok_wr8 bytes_ok_wr16 bytes_ok_wr32 : mem.
#[export] Hint Resolve rd_range be16_range be32_range : mem.

(** [solve_valid] closes [valid] goals: through writes, then inside a range
    that the context knows to be valid. *)
Ltac solve_valid :=
  repeat (first [apply valid_wr8 | apply valid_wr16 | apply valid_wr32]);
  first [ assumption
        | match goal with
          | H : valid ?m ?p ?n |- valid ?m ?q ?k =>
              apply (valid_sub m p n q k H); lia
          end ].

(** [rd_simpl] evaluates reads of written bytes when the addresses decide by
    linear arithmetic. *)
Ltac rd_simpl_core :=
  match goal with
  | |- context [rd (wr8 ?m ?p ?v) ?q] =>
      first [ replace (rd (wr8 m p v) q) with (v mod 256)
                by (replace q with p by lia; symmetry; apply rd_wr8_eq)
            | rewrite (rd_wr8_ne m p q v) by lia ]
  end.
Ltac rd_simpl := unfold wr32, wr16, be32, be16 in *; repeat rd_simpl_core.

(** ** Lemmas: several bytes *)

Lemma loadn_ok m p n :
  valid m p (Z.of_nat n) ->
  loadn m p n = Ret ((fun i => rd m (p + i)) <$> seqZ 0 (Z.of_nat n)).
Proof.
  revert p. induction n as [|n IH]; intros p Hv; [done|].
  cbn [loadn]. rewrite load8_ok by (eapply valid_sub; [exact Hv|lia|lia]).
  cbn [mbind outcome_bind].
  rewrite IH by (eapply valid_sub; [exact Hv|lia|lia]).
  rewrite (seqZ_cons 0 (Z.of_nat (S n))) by lia. cbn [mbind outcome_bind].
  rewrite fmap_cons, Z.add_0_r. do 2 f_equal.
  replace (Z.pred (Z.of_nat (S n))) with (Z.of_nat n) by lia.
  rewrite <- (fmap_add_seqZ 1 0), <- list_fmap_compose.
  apply list_fmap_ext. intros i x _. simpl. f_equal. lia.
Qed.

Lemma loadn2_ok m p : valid m p 2 -> loadn m p 2 = Ret [rd m p; rd m (p + 1)].
Proof.
  intros Hv. cbn [loadn]. rewrite load8_ok by solve_valid. cbn.
  by rewrite load8_ok by solve_valid.
Qed.

Lemma loadn4_ok m p :
  valid m p 4 -> loadn m p 4 = Ret [rd m p; rd m (p + 1); rd m (p + 2); rd m (p + 3)].
Proof.
  intros Hv. cbn [loadn]. replace (p + 1 + 1 + 1) with (p + 3) by lia. replace (p + 1 + 1) with (p + 2) by lia.
  rewrite !load8_ok by solve_valid. done.
Qed.

(** Bit-level definitions of the byte swaps as arithmetic. *)
Lemma land_255 x : Z.land x 255 = x mod 256.
Proof. apply (Z.land_ones x 8). lia. Qed.

Lemma shiftr_div x n : 0 <= n -> Z.shiftr x n = x / 2 ^ n.
Proof. apply Z.shiftr_div_pow2. Qed.

(** [a·2^n | b] is a sum when [b] fits below bit [n]. *)
Lemma lor_shift_add a b n :
  0 <= n -> 0 <= b < 2 ^ n -> Z.lor (Z.shiftl a n) b = a * 2 ^ n + b.
Proof.
  intros Hn Hb. rewrite Z.shiftl_mul_pow2 by done. symmetry. apply Z.add_nocarry_lor.
  apply Z.bits_inj'. intros i Hi. rewrite Z.land_spec, Z.bits_0.
  destruct (decide (i < n)).
  - by rewrite Z.mul_pow2_bits_low.
  - rewrite <- (Z.mod_small b (2 ^ n)) by done.
    rewrite Z.mod_pow2_bits_high by lia. apply andb_false_r.
Qed.

Lemma byteswap16_arith x : byteswap16 x = x mod 256 * 256 + x / 256 mod 256.
Proof.
  unfold byteswap16. rewrite !land_255, shiftr_div by lia.
  rewrite lor_shift_add by lia. lia.
Qed.

Lemma byteswap32_arith x :
  byteswap32 x = x mod 256 * 16777216 + x / 256 mod 256 * 65536
                 + x / 65536 mod 256 * 256 + x / 16777216 mod 256.
Proof.
  unfold byteswap32. rewrite !land_255, !shiftr_div by lia.
  change (2 ^ 8) with 256. change (2 ^ 16) with 65536. change (2 ^ 24) with 16777216.
  rewrite (lor_shift_add _ (x / 16777216 mod 256) 8) by lia.
  rewrite (lor_shift_add _ _ 16) by lia. rewrite (lor_shift_add _ _ 24) by lia. lia.
Qed.

(** ** Facts about single bytes, by exhaustion *)

Lemma byte_forall (P : Z -> bool) :
  forallb P (seqZ 0 256) = true -> forall b, 0 <= b < 256 -> P b = true.
Proof.
  intros Hall b Hb. rewrite forallb_forall in Hall. apply Hall.
  apply list_elem_of_In, elem_of_seqZ. lia.
Qed.

Lemma byte_forall2 (n : Z) (P : Z -> Z -> bool) :
  forallb (fun b => forallb (P b) (seqZ 0 n)) (seqZ 0 256) = true ->
  forall b c, 0 <= b < 256 -> 0 <= c < n -> P b c = true.
Proof.
  intros Hall b c Hb Hc. pose proof (byte_forall _ Hall b Hb) as Hrow.
  rewrite forallb_forall in Hrow. apply Hrow, list_elem_of_In, elem_of_seqZ. lia.
Qed.

(** [byte_brute b] proves an equation between integers about the byte [b];
    [byte_brute2 b c n] about the byte [b] and a value [c] below [n]. *)
Ltac byte_brute b :=
  apply Z.eqb_eq;
  match goal with
  | |- ?e = true =>
      match eval pattern b in e with
      | ?P _ => refine (byte_forall P _ b _); [vm_compute; reflexivity|lia]
      end
  end.
Ltac byte_brute2 b c n :=
  apply Z.eqb_eq;
  match goal with
  | |- ?e = true =>
      match eval pattern b, c in e with
      | ?P _ _ => refine (byte_forall2 n P _ b c _ _); [vm_compute; reflexivity|lia|lia]
      end
  end.

(** ** Deciding the side conditions on concrete blocks *)

Definition validb (m : mem) (p n : Z) : bool :=
  forallb (fun i => bool_decide (is_Some (m !! i))) (seqZ p n).
Definition bytes_okb (m : mem) : bool :=
  forallb (fun '(_, b) => (0 <=? b) && (b <? 256)) (map_to_list m).

Lemma validb_valid m p n : validb m p n = true -> valid m p n.
Proof.
  unfold validb. rewrite forallb_forall. intros Hall i Hi.
  apply (bool_decide_eq_true_1 _), Hall, list_elem_of_In, elem_of_seqZ. lia.
Qed.

Lemma bytes_okb_ok m : bytes_okb m = true -> bytes_ok m.
Proof.
  unfold bytes_okb. rewrite forallb_forall. intros Hall p b Hb.
  apply elem_of_map_to_list, list_elem_of_In, Hall in Hb. simpl in Hb. lia.
Qed.

Lemma mem_of_lookup p bs i : 0 <= i -> mem_of p bs !! (p + i) = bs !! Z.to_nat i.
Proof.
  revert p i. induction bs as [|b bs IH]; intros p i Hi; [done|]. cbn [mem_of].
  destruct (decide (i = 0)) as [->|].
  - by rewrite Z.add_0_r, lookup_insert_eq.
  - rewrite lookup_insert_ne by lia. replace (p + i) with (p + 1 + (i - 1)) by lia.
    rewrite IH by lia. by replace (Z.to_nat i) with (S (Z.to_nat (i - 1))) by lia.
Qed.

Lemma rd_mem_of bs i : 0 <= i -> rd (mem_of 0 bs) i = default 0 (bs !! Z.to_nat i).
Proof. intros Hi. unfold rd. by rewrite <- (mem_of_lookup 0) by done. Qed.

Lemma mem_of_valid p bs : valid (mem_of p bs) p (Z.of_nat (length bs)).
Proof.
  intros i Hi. replace i with (p + (i - p)) by lia. rewrite mem_of_lookup by lia.
  apply lookup_lt_is_Some. lia.
Qed.

Lemma mem_of_bytes_ok p bs : Forall (fun b => 0 <= b < 256) bs -> bytes_ok (mem_of p bs).
Proof.
  intros Hbs. revert p. induction Hbs as [|b bs Hb _ IH]; intros p.
  - intros q c Hc. cbn [mem_of] in Hc. by rewrite lookup_empty in Hc.
  - by apply bytes_ok_insert.
Qed.

(** A block of [n] bytes given by a function of the offset. *)
Definition mem_fun (n : Z) (f : Z -> Z) : mem := list_to_map ((fun i => (i, f i)) <$> seqZ 0 n).

Lemma mem_fun_lookup n f i : 0 <= i < n -> mem_fun n f !! i = Some (f i).
Proof.
  intros Hi. apply elem_of_list_to_map_1.
  - rewrite <- list_fmap_compose. rewrite (list_fmap_ext _ id) by done.
    rewrite list_fmap_id. apply NoDup_seqZ.
  - apply list_elem_of_fmap. exists i. split; [done|]. apply elem_of_seqZ. lia.
Qed.

Lemma mem_fun_Some n f i b : mem_fun n f !! i = Some b -> 0 <= i < n /\ b = f i.
Proof.
  intros Hb%elem_of_list_to_map_2. apply list_elem_of_fmap in Hb as (j & [= -> ->] & Hj).
  apply elem_of_seqZ in Hj. split; [lia|done].
Qed.

Lemma rd_mem_fun n f i : 0 <= i < n -> rd (mem_fun n f) i = f i.
Proof. intros Hi. unfold rd. by rewrite mem_fun_lookup. Qed.

Lemma mem_fun_valid n f : valid (mem_fun n f) 0 n.
Proof. intros i Hi. rewrite mem_fun_lookup by lia. eauto. Qed.

Lemma mem_fun_bytes_ok n f : (forall i, 0 <= f i < 256) -> bytes_ok (mem_fun n f).
Proof. intros Hf i b [_ ->]%mem_fun_Some. apply Hf. Qed.

Section hdr_lemmas.
Context `{Host}.

(** Network order is big-endian on every host. *)
Lemma ntohs_decode a b :
  0 <= a < 256 -> 0 <= b < 256 -> ntohs (host_decode [a; b]) = a * 256 + b.
Proof.
  intros. unfold ntohs, host_decode. destruct host_big_endian; cbn; [lia|].
  rewrite byteswap16_arith. lia.
Qed.

Lemma ntohl_decode a b c d :
  0 <= a < 256 -> 0 <= b < 256 -> 0 <= c < 256 -> 0 <= d < 256 ->
  ntohl (host_decode [a; b; c; d]) = (a * 256 + b) * 65536 + (c * 256 + d).
Proof.
  intros. unfold ntohl, host_decode. destruct host_big_endian; cbn; [lia|].
  rewrite byteswap32_arith. lia.
Qed.

Lemma htons_encode v : host_encode 2 (htons v) = [v / 256 mod 256; v mod 256].
Proof.
  unfold htons, ntohs, host_encode. destruct host_big_endian; cbn; [done|].
  rewrite byteswap16_arith.
  pose proof (Z.mod_pos_bound v 256). pose proof (Z.mod_pos_bound (v / 256) 256).
  generalize dependent (v mod 256). generalize dependent (v / 256 mod 256).
  intros b Hb a Ha. f_equal; [lia|f_equal; lia].
Qed.

Lemma htonl_encode v :
  host_encode 4 (htonl v) =
    [v / 16777216 mod 256; v / 65536 mod 256; v / 256 mod 256; v mod 256].
Proof.
  unfold htonl, ntohl, host_encode.
  destruct host_big_endian; cbn; [by rewrite !Z.div_div by lia|].
  rewrite byteswap32_arith, !Z.div_div by lia.
  pose proof (Z.mod_pos_bound v 256). pose proof (Z.mod_pos_bound (v / 256) 256).
  pose proof (Z.mod_pos_bound (v / 65536) 256).
  pose proof (Z.mod_pos_bound (v / 16777216) 256).
  generalize dependent (v mod 256). generalize dependent (v / 256 mod 256).
  generalize dependent (v / 65536 mod 256). generalize dependent (v / 16777216 mod 256).
  intros d Hd c Hc b Hb a Ha. f_equal; [lia|]. f_equal; [lia|]. f_equal; [lia|]. f_equal; lia.
Qed.

Lemma hdr_get8h_ok m p : valid m p 1 -> hdr_get8h m p = Ret (rd m p).
Proof. apply load8_ok. Qed.

Lemma hdr_set8h_ok m p v : valid m p 1 -> hdr_set8h m p v = Ret (wr8 m p v).
Proof. apply store8_ok. Qed.

Lemma hdr_get16n_ok m p :
  bytes_ok m -> valid m p 2 -> hdr_get16n m p = Ret (be16 m p).
Proof.
  intros Hm Hv. unfold hdr_get16n, hdr_get16h. rewrite loadn2_ok by done. cbn.
  by rewrite ntohs_decode by auto with mem.
Qed.

Lemma hdr_get32n_ok m p :
  bytes_ok m -> valid m p 4 -> hdr_get32n m p = Ret (be32 m p).
Proof.
  intros Hm Hv. unfold hdr_get32n, hdr_get32h. rewrite loadn4_ok by done. cbn.
  rewrite ntohl_decode by auto with mem. unfold be32, be16.
  by replace (p + 2 + 1) with (p + 3) by lia.
Qed.

Lemma hdr_set16n_ok m p v : valid m p 2 -> hdr_set16n m p v = Ret (wr16 m p v).
Proof.
  intros Hv. unfold hdr_set16n, hdr_set16h. rewrite htons_encode. cbn [storen].
  rewrite store8_ok by solve_valid. cbn. rewrite store8_ok by solve_valid. cbn.
  unfold wr16, wr8. by rewrite !Z.mod_mod by lia.
Qed.

Lemma hdr_set32n_ok m p v : valid m p 4 -> hdr_set32n m p v = Ret (wr32 m p v).
Proof.
  intros Hv. unfold hdr_set32n, hdr_set32h. rewrite htonl_encode. cbn [storen].
  replace (p + 1 + 1 + 1) with (p + 3) by lia. replace (p + 1 + 1) with (p + 2) by lia.
  do 4 (rewrite store8_ok by solve_valid; cbn).
  unfold wr32, wr16, wr8. rewrite !Z.mod_mod by lia.
  rewrite Z.div_div by lia. by replace (p + 2 + 1) with (p + 3) by lia.
Qed.
End hdr_lemmas.

#[export] Hint Rewrite @hdr_get8h_ok @hdr_set8h_ok @hdr_set16n_ok @hdr_set32n_ok
  @load8_ok @store8_ok using solve_valid : hdr.
#[export] Hint Rewrite @hdr_get16n_ok @hdr_get32n_ok using (first [solve_valid | auto with mem]) : hdr.

(** [hdr_run] executes header accesses whose addresses are in range. *)
Ltac hdr_run := repeat (autorewrite with hdr; cbn [mbind outcome_bind mret outcome_ret fmap outcome_fmap]).

(** ** Sequences of bytes in memory *)

(** The bytes [bs] are at [p]. *)
Definition bytes_at (m : mem) (p : Z) (bs : list Z) : Prop :=
  forall i b, bs !! i = Some b -> m !! (p + Z.of_nat i) = Some b.

Lemma bytes_at_cons m p b bs :
  bytes_at m p (b :: bs) <-> m !! p = Some b /\ bytes_at m (p + 1) bs.
Proof.
  split.
  - intros Hb. split.
    + rewrite <- (Hb 0%nat b eq_refl). f_equal. lia.
    + intros i c Hi. rewrite <- (Hb (S i) c Hi). f_equal. lia.
  - intros [H0 Hs] [|i] c Hi; simpl in Hi.
    + injection Hi as ->. by rewrite Z.add_0_r.
    + rewrite <- (Hs i c Hi). f_equal. lia.
Qed.

Lemma bytes_at_app m p bs cs :
  bytes_at m p (bs ++ cs) <-> bytes_at m p bs /\ bytes_at m (p + Z.of_nat (length bs)) cs.
Proof.
  revert p. induction bs as [|b bs IH]; intros p.
  - rewrite Z.add_0_r. split; [intros Hc; split; [done|exact Hc]|by intros [_ ?]].
  - rewrite <- app_comm_cons, !bytes_at_cons, IH. cbn [length].
    replace (p + 1 + Z.of_nat (length bs)) with (p + Z.of_nat (S (length bs))) by lia. tauto.
Qed.

Lemma bytes_at_rd m p b bs : bytes_at m p (b :: bs) -> rd m p = b /\ valid m p 1.
Proof.
  intros [Hb _]%bytes_at_cons. split; [unfold rd; by rewrite Hb|].
  intros i Hi. replace i with p by lia. by rewrite Hb.
Qed.

Lemma bytes_at_decode m p d :
  bytes_ok m -> bytes_at m p d ->
  (length d = 1%nat -> rd m p = be_decode d /\ valid m p 1) /\
  (length d = 2%nat -> be16 m p = be_decode d /\ valid m p 2) /\
  (length d = 4%nat -> be32 m p = be_decode d /\ valid m p 4).
Proof.
  intros Hm Hd.
  assert (valid m p (Z.of_nat (length d))) as Hv.
  { intros i Hi. destruct (lookup_lt_is_Some_2 d (Z.to_nat (i - p)) ltac:(lia)) as [b Hb].
    exists b. rewrite <- (Hd _ _ Hb). f_equal. lia. }
  split; [|split]; intros E; (split; [|by rewrite E in Hv]); destruct d as [|a [|b [|c [|e [|]]]]]; try discriminate E.
  all: repeat match goal with
    | Hb : bytes_at _ _ (_ :: _) |- _ =>
        let E := fresh "E" in pose proof (proj1 (bytes_at_rd _ _ _ _ Hb)) as E;
        apply bytes_at_cons in Hb as [_ Hb] end.
  all: unfold be32, be16, be_decode; cbn [foldl];
    replace (p + 2) with (p + 1 + 1) by lia; rewrite ?E0, ?E1, ?E2, ?E3; lia.
Qed.

Lemma bytes_at_valid m p bs : bytes_at m p bs -> valid m p (Z.of_nat (length bs)).
Proof.
  intros Hb i Hi. destruct (lookup_lt_is_Some_2 bs (Z.to_nat (i - p)) ltac:(lia)) as [b Eb].
  exists b. rewrite <- (Hb _ _ Eb). f_equal. lia.
Qed.

(** Only the bytes themselves matter. *)
Lemma bytes_at_agree m m' p bs :
  (forall q, p <= q < p + Z.of_nat (length bs) -> m' !! q = m !! q) -> bytes_at m p bs -> bytes_at m' p bs.
Proof. intros E Hb i b Hi. rewrite E; [by apply Hb|]. apply lookup_lt_Some in Hi. lia. Qed.

Lemma loadn_bytes_at m p bs : bytes_at m p bs -> loadn m p (length bs) = Ret bs.
Proof.
  revert p. induction bs as [|b bs IH]; intros p; [done|]. intros [Hb Hbs]%bytes_at_cons.
  cbn [loadn length]. unfold load8. rewrite Hb. simpl. by rewrite (IH _ Hbs).
Qed.
