(* ===== verification/LinkedList.v ===== *)
(** Intrusive circular doubly linked lists of linkedlist/linkedlist.h.

    A node is an address; the heap maps it to its two links.  The head of a
    list is a node too, and an empty list is a head linked to itself.  [NULL]
    is address 0, which holds no node. *)
From S2P Require Import Prelude.

Record linked_list_node := { prev : Z; next : Z }.
Abbreviation heap := (gmap Z linked_list_node).

(** ** Reading and writing links *)
Definition get_node (H : heap) (p : Z) : outcome linked_list_node := of_option (H !! p).
Definition set_next (H : heap) (p v : Z) : outcome heap :=
  nd ← get_node H p; Ret (<[p := {| prev := prev nd; next := v |}]> H).
Definition set_prev (H : heap) (p v : Z) : outcome heap :=
  nd ← get_node H p; Ret (<[p := {| prev := v; next := next nd |}]> H).

(** ** Operations *)
Definition linked_list_node_init (H : heap) (node : Z) : outcome heap :=
  H ← set_prev H node 0; set_next H node 0.

Definition linked_list_head_init (H : heap) (head : Z) : outcome heap :=
  H ← set_prev H head head; set_next H head head.

Definition linked_list_add_tail (H : heap) (node head : Z) : outcome heap :=
  H ← set_next H node head;
  hd ← get_node H head;
  H ← set_prev H node (prev hd);
  hd ← get_node H head;
  H ← set_next H (prev hd) node;
  set_prev H head node.

Definition linked_list_add_head (H : heap) (node head : Z) : outcome heap :=
  H ← set_prev H node head;
  hd ← get_node H head;
  H ← set_next H node (next hd);
  hd ← get_node H head;
  H ← set_prev H (next hd) node;
  set_next H head node.

Definition linked_list_add_before (H : heap) (newnode oldnode : Z) : outcome heap :=
  o ← get_node H oldnode;
  H ← set_prev H newnode (prev o);
  H ← set_next H newnode oldnode;
  o ← get_node H oldnode;
  H ← set_next H (prev o) newnode;
  set_prev H oldnode newnode.

Definition linked_list_add_after (H : heap) (newnode oldnode : Z) : outcome heap :=
  H ← set_prev H newnode oldnode;
  o ← get_node H oldnode;
  H ← set_next H newnode (next o);
  o ← get_node H oldnode;
  H ← set_prev H (next o) newnode;
  set_next H oldnode newnode.

Definition linked_list_is_empty (H : heap) (head : Z) : outcome bool :=
  hd ← get_node H head; Ret (next hd =? head).

Definition linked_list_delete (H : heap) (node : Z) : outcome heap :=
  nd ← get_node H node;
  H ← set_next H (prev nd) (next nd);
  nd ← get_node H node;
  H ← set_prev H (next nd) (prev nd);
  H ← set_prev H node 0;
  set_next H node 0.

(** [LINKED_LIST_FOR_EACH]: the nodes it visits.  A list has no more nodes
    than the heap. *)
Definition for_each_step (H : heap) (head : Z) (s : Z * list Z) : outcome (Z * list Z + list Z) :=
  let '(iter, seen) := s in
  if iter =? head then Ret (inr seen)
  else nd ← get_node H iter; Ret (inl (next nd, seen ++ [iter])).
Definition linked_list_for_each (H : heap) (head : Z) : outcome (list Z) :=
  hd ← get_node H head;
  iter (S (size H)) (for_each_step H head) (next hd, []).

Definition for_each_reverse_step (H : heap) (head : Z) (s : Z * list Z)
    : outcome (Z * list Z + list Z) :=
  let '(iter, seen) := s in
  if iter =? head then Ret (inr seen)
  else nd ← get_node H iter; Ret (inl (prev nd, seen ++ [iter])).
Definition linked_list_for_each_reverse (H : heap) (head : Z) : outcome (list Z) :=
  hd ← get_node H head;
  iter (S (size H)) (for_each_reverse_step H head) (prev hd, []).

Definition size_step (H : heap) (head : Z) (s : Z * Z) : outcome (Z * Z + Z) :=
  let '(node, sz) := s in
  if node =? head then Ret (inr sz)
  else nd ← get_node H node; Ret (inl (next nd, u64 (sz + 1))).
Definition linked_list_size (H : heap) (head : Z) : outcome Z :=
  hd ← get_node H head;
  iter (S (size H)) (size_step H head) (next hd, 0).

(** ** The list a head represents *)

Definition nxt (H : heap) (p : Z) : option Z := next <$> H !! p.
Definition prv (H : heap) (p : Z) : option Z := prev <$> H !! p.
Definition link (H : heap) (x y : Z) : Prop := nxt H x = Some y /\ prv H y = Some x.

(** From [x] through [l] to [z]. *)
Fixpoint seg (H : heap) (x : Z) (l : list Z) (z : Z) : Prop :=
  match l with
  | [] => link H x z
  | y :: l => link H x y /\ seg H y l z
  end.

Definition dll (H : heap) (head : Z) (l : list Z) : Prop := NoDup (head :: l) /\ seg H head l head.

(** Outside [l] and the nodes [ps] the heaps agree. *)
Definition same_but (ps : list Z) (H H' : heap) : Prop := forall q, q ∉ ps -> H' !! q = H !! q.

Lemma set_next_ok H p v :
  is_Some (H !! p) ->
  exists H', set_next H p v = Ret H' /\
    (forall q, nxt H' q = if decide (q = p) then Some v else nxt H q) /\
    (forall q, prv H' q = prv H q) /\ same_but [p] H H' /\
    (forall q, is_Some (H !! q) -> is_Some (H' !! q)).
Proof.
  intros [nd E]. unfold set_next, get_node. rewrite E. eexists. split; [done|].
  unfold nxt, prv. split; [|split; [|split]].
  - intros q. destruct (decide (q = p)) as [->|]; [by rewrite lookup_insert_eq|].
    by rewrite lookup_insert_ne.
  - intros q. destruct (decide (q = p)) as [->|]; [by rewrite lookup_insert_eq, E|].
    by rewrite lookup_insert_ne.
  - intros q Hq. rewrite lookup_insert_ne; [done|]. intros ->. apply Hq. by left.
  - intros q Hq. apply lookup_insert_is_Some'. by right.
Qed.

Lemma set_prev_ok H p v :
  is_Some (H !! p) ->
  exists H', set_prev H p v = Ret H' /\
    (forall q, prv H' q = if decide (q = p) then Some v else prv H q) /\
    (forall q, nxt H' q = nxt H q) /\ same_but [p] H H' /\
    (forall q, is_Some (H !! q) -> is_Some (H' !! q)).
Proof.
  intros [nd E]. unfold set_prev, get_node. rewrite E. eexists. split; [done|].
  unfold nxt, prv. split; [|split; [|split]].
  - intros q. destruct (decide (q = p)) as [->|]; [by rewrite lookup_insert_eq|].
    by rewrite lookup_insert_ne.
  - intros q. destruct (decide (q = p)) as [->|]; [by rewrite lookup_insert_eq, E|].
    by rewrite lookup_insert_ne.
  - intros q Hq. rewrite lookup_insert_ne; [done|]. intros ->. apply Hq. by left.
  - intros q Hq. apply lookup_insert_is_Some'. by right.
Qed.

Lemma nxt_node H p v : nxt H p = Some v -> exists nd, get_node H p = Ret nd /\ next nd = v.
Proof. unfold nxt, get_node. destruct (H !! p) as [nd|]; [|done]. intros [= <-]. by exists nd. Qed.
Lemma prv_node H p v : prv H p = Some v -> exists nd, get_node H p = Ret nd /\ prev nd = v.
Proof. unfold prv, get_node. destruct (H !! p) as [nd|]; [|done]. intros [= <-]. by exists nd. Qed.
Lemma nxt_some H p : is_Some (nxt H p) <-> is_Some (H !! p).
Proof. unfold nxt. by rewrite fmap_is_Some. Qed.
Lemma prv_some H p : is_Some (prv H p) <-> is_Some (H !! p).
Proof. unfold prv. by rewrite fmap_is_Some. Qed.

(** ** Segments *)

Lemma seg_app H x l1 y l2 z : seg H x (l1 ++ y :: l2) z <-> seg H x l1 y /\ seg H y l2 z.
Proof. revert x. induction l1 as [|a l1 IH]; intros x; simpl; [tauto|]. rewrite IH. tauto. Qed.

(** The last node before [z]. *)
Fixpoint last_from (x : Z) (l : list Z) : Z :=
  match l with [] => x | y :: l => last_from y l end.

Lemma last_from_in x l : last_from x l ∈ x :: l.
Proof. revert x. induction l as [|y l IH]; intros x; simpl; [by left|]. right. apply IH. Qed.

Lemma seg_last H x l z : seg H x l z -> link H (last_from x l) z.
Proof. revert x. induction l as [|y l IH]; intros x; simpl; [done|]. intros [_ Hs]. by apply IH. Qed.

(** A segment only looks at the forward links of [x :: l] and the backward
    links of [l] and its end. *)
Lemma seg_redirect H H' x l z n :
  seg H x l z -> NoDup (x :: l) ->
  (forall q, q ∈ l -> prv H' q = prv H q) ->
  (forall q, q ∈ x :: l -> q <> last_from x l -> nxt H' q = nxt H q) ->
  link H' (last_from x l) n -> seg H' x l n.
Proof.
  revert x. induction l as [|y l IH]; intros x Hs Hnd Hp Hn Hl; simpl in *; [done|].
  destruct Hs as [[Hxy Hyx] Hs]. inversion Hnd as [|? ? Hx Hnd']; subst. split.
  - split.
    + rewrite Hn; [done|by left|]. intros E. apply Hx. rewrite E. apply last_from_in.
    + rewrite Hp; [done|by left].
  - apply IH; [done|done| | |done].
    + intros q Hq. apply Hp. by right.
    + intros q Hq. apply Hn. by right.
Qed.

Lemma seg_frame H H' x l z :
  seg H x l z ->
  (forall q, q ∈ l -> prv H' q = prv H q) -> prv H' z = prv H z ->
  (forall q, q ∈ x :: l -> nxt H' q = nxt H q) -> seg H' x l z.
Proof.
  revert x. induction l as [|y l IH]; intros x Hs Hp Hz Hn; simpl in *.
  - destruct Hs as [? ?]. split; [rewrite Hn by (by left); done|congruence].
  - destruct Hs as [[? ?] Hs]. split.
    + split; [rewrite Hn by (by left); done|rewrite Hp by (by left); done].
    + apply IH; [done| |done|]; intros q Hq; [apply Hp|apply Hn]; by right.
Qed.

Lemma seg_nodes H x l z q : seg H x l z -> q ∈ x :: l -> is_Some (H !! q).
Proof.
  revert x. induction l as [|y l IH]; intros x Hs Hq; simpl in *.
  - apply list_elem_of_singleton in Hq as ->. apply nxt_some. by rewrite (proj1 Hs).
  - destruct Hs as [[Hxy _] Hs]. apply elem_of_cons in Hq as [->|Hq]; [|by eapply IH].
    apply nxt_some. by rewrite Hxy.
Qed.

(** ** Splicing a node in and out *)

(** [n] linked between [p], the end of the first part, and [o]. *)
Definition spliced_in (H H' : heap) (p n o : Z) : Prop :=
  (forall q, nxt H' q = if decide (q = n) then Some o else
                        if decide (q = p) then Some n else nxt H q) /\
  (forall q, prv H' q = if decide (q = n) then Some p else
                        if decide (q = o) then Some n else prv H q) /\
  same_but [n; p; o] H H'.

Definition spliced_out (H H' : heap) (p n o : Z) : Prop :=
  (forall q, nxt H' q = if decide (q = n) then Some 0 else
                        if decide (q = p) then Some o else nxt H q) /\
  (forall q, prv H' q = if decide (q = n) then Some 0 else
                        if decide (q = o) then Some p else prv H q) /\
  same_but [n; p; o] H H'.

(** The node after [l1] when [l2] follows in a list with head [h]. *)
Definition first_of (l2 : list Z) (h : Z) : Z := match l2 with [] => h | y :: _ => y end.


Lemma dll_links H h l1 l2 : dll H h (l1 ++ l2) -> link H (last_from h l1) (first_of l2 h).
Proof.
  intros [_ Hs]. destruct l2 as [|y l2]; simpl.
  - rewrite app_nil_r in Hs. by apply seg_last.
  - apply seg_app in Hs as [Hs _]. by apply seg_last.
Qed.

Lemma nodup_middle (h n : Z) l1 l2 :
  NoDup (h :: l1 ++ n :: l2) <-> n ∉ h :: l1 ++ l2 /\ NoDup (h :: l1 ++ l2).
Proof.
  change (h :: l1 ++ n :: l2) with ((h :: l1) ++ n :: l2).
  rewrite <- Permutation_middle, list.NoDup_cons. done.
Qed.

(** What holds of the four neighbours [l1], [p], [o] and [l2] of a place in a
    list without repetitions. *)
Lemma nodup_place h l1 l2 :
  NoDup (h :: l1 ++ l2) ->
  NoDup (h :: l1) /\ (forall q, q ∈ l1 -> q <> first_of l2 h) /\
  (forall y l, l2 = y :: l -> forall q, q ∈ y :: l -> q <> last_from h l1) /\
  (forall y l, l2 = y :: l -> h <> y /\ y ∉ l).
Proof.
  rewrite app_comm_cons, list.NoDup_app. intros (H1 & Hd & H2).
  pose proof (last_from_in h l1) as Hlast.
  split; [done|]. split; [|split].
  - intros q Hq ->. destruct l2 as [|y l]; simpl in *.
    + by apply list.NoDup_cons in H1 as [? _].
    + apply (Hd y); [by right|by left].
  - intros y l -> q Hq ->. by apply (Hd _ Hlast).
  - intros y l ->. split.
    + intros ->. apply (Hd y); by left.
    + by apply list.NoDup_cons in H2 as [? _].
Qed.

Lemma dll_insert H H' h l1 l2 n :
  dll H h (l1 ++ l2) -> n ∉ h :: l1 ++ l2 ->
  spliced_in H H' (last_from h l1) n (first_of l2 h) -> dll H' h (l1 ++ n :: l2).
Proof.
  intros [Hnd Hs] Hn (Hnx & Hpv & _). pose proof (last_from_in h l1) as Hlast.
  split; [by apply nodup_middle|]. apply seg_app.
  destruct (nodup_place _ _ _ Hnd) as (Hnd1 & Hl1 & Hl2 & Hy).
  assert (forall q, q ∈ h :: l1 -> q <> n) as Hn1.
  { intros q Hq ->. apply Hn. rewrite app_comm_cons. apply elem_of_app. by left. }
  assert (forall q, q ∈ l2 -> q <> n) as Hn2.
  { intros q Hq ->. apply Hn. right. apply elem_of_app. by right. }
  assert (first_of l2 h <> n) as Hon.
  { destruct l2; simpl; [apply Hn1; by left|apply Hn2; by left]. }
  assert (seg H h l1 (first_of l2 h)) as Hs1.
  { destruct l2; simpl; [by rewrite app_nil_r in Hs|by apply seg_app in Hs as [? _]]. }
  split.
  - apply (seg_redirect H H' h l1 _ n Hs1 Hnd1).
    + intros q Hq. rewrite Hpv. rewrite !decide_False; [done|by apply Hl1|apply Hn1; by right].
    + intros q Hq Hne. rewrite Hnx. rewrite !decide_False; [done|done|by apply Hn1].
    + split; [rewrite Hnx, decide_False, decide_True|rewrite Hpv, decide_True]; auto.
  - assert (link H' n (first_of l2 h)) as Hlink.
    { split; [rewrite Hnx, decide_True|rewrite Hpv, decide_False, decide_True]; auto. }
    destruct l2 as [|y l2]; simpl in *; [done|]. split; [done|].
    destruct (Hy _ _ eq_refl) as [Hhy Hyl]. apply seg_app in Hs as [_ Hs2].
    apply (seg_frame H H' y l2 h Hs2).
    + intros q Hq. rewrite Hpv. rewrite !decide_False; [done|by intros ->|apply Hn2; by right].
    + rewrite Hpv. rewrite !decide_False; [done|done|apply Hn1; by left].
    + intros q Hq. rewrite Hnx. rewrite !decide_False; [done|by eapply Hl2|by apply Hn2].
Qed.

Lemma dll_remove H H' h l1 l2 n :
  dll H h (l1 ++ n :: l2) ->
  spliced_out H H' (last_from h l1) n (first_of l2 h) -> dll H' h (l1 ++ l2).
Proof.
  intros [Hnd Hs] (Hnx & Hpv & _). pose proof (last_from_in h l1) as Hlast.
  apply nodup_middle in Hnd as [Hn Hnd]. split; [done|].
  destruct (nodup_place _ _ _ Hnd) as (Hnd1 & Hl1 & Hl2 & Hy).
  assert (forall q, q ∈ h :: l1 -> q <> n) as Hn1.
  { intros q Hq ->. apply Hn. rewrite app_comm_cons. apply elem_of_app. by left. }
  assert (forall q, q ∈ l2 -> q <> n) as Hn2.
  { intros q Hq ->. apply Hn. right. apply elem_of_app. by right. }
  assert (first_of l2 h <> n) as Hon.
  { destruct l2; simpl; [apply Hn1; by left|apply Hn2; by left]. }
  apply seg_app in Hs as [Hs1 Hs2].
  assert (seg H' h l1 (first_of l2 h)) as Hs1'.
  { apply (seg_redirect H H' h l1 n _ Hs1 Hnd1).
    - intros q Hq. rewrite Hpv. rewrite !decide_False; [done|by apply Hl1|apply Hn1; by right].
    - intros q Hq Hne. rewrite Hnx. rewrite !decide_False; [done|done|by apply Hn1].
    - split; [rewrite Hnx, decide_False, decide_True|rewrite Hpv, decide_False, decide_True]; auto. }
  destruct l2 as [|y l2]; simpl in *; [by rewrite app_nil_r|].
  apply seg_app. split; [done|]. destruct Hs2 as [_ Hs2]. destruct (Hy _ _ eq_refl) as [Hhy Hyl].
  apply (seg_frame H H' y l2 h Hs2).
  - intros q Hq. rewrite Hpv. rewrite !decide_False; [done|by intros ->|apply Hn2; by right].
  - rewrite Hpv. rewrite !decide_False; [done|done|apply Hn1; by left].
  - intros q Hq. rewrite Hnx. rewrite !decide_False; [done|by eapply Hl2|by apply Hn2].
Qed.

(** ** Every operation splices *)

(** One read or write of a link, and what is known of the heap after it. *)
Ltac link_write :=
  match goal with
  | |- context [set_next ?H ?p ?v] =>
      let H' := fresh "H" in let En := fresh "En" in let Ep := fresh "Ep" in
      let Es := fresh "Es" in let Ed := fresh "Ed" in
      destruct (set_next_ok H p v) as (H' & -> & En & Ep & Es & Ed); [by eauto 8|]
  | |- context [set_prev ?H ?p ?v] =>
      let H' := fresh "H" in let En := fresh "En" in let Ep := fresh "Ep" in
      let Es := fresh "Es" in let Ed := fresh "Ed" in
      destruct (set_prev_ok H p v) as (H' & -> & Ep & En & Es & Ed); [by eauto 8|]
  end; cbn [mbind outcome_bind].
Ltac by_links :=
  repeat match goal with
  | E : forall q, nxt ?H q = _ |- context [nxt ?H _] => rewrite E
  | E : forall q, prv ?H q = _ |- context [prv ?H _] => rewrite E
  end;
  repeat match goal with
  | E : forall _ : Z, _ |- _ => clear E
  | E : same_but _ _ _ |- _ => clear E
  end; repeat case_decide; congruence.
Ltac link_prev H p v :=
  let nd := fresh "nd" in let E := fresh "E" in
  destruct (prv_node H p v) as (nd & -> & E); [by_links|]; cbn [mbind outcome_bind]; rewrite ?E.
Ltac link_next H p v :=
  let nd := fresh "nd" in let E := fresh "E" in
  destruct (nxt_node H p v) as (nd & -> & E); [by_links|]; cbn [mbind outcome_bind]; rewrite ?E.
Ltac get_prev v := match goal with |- context [get_node ?H ?p] => link_prev H p v end.
Ltac get_next v := match goal with |- context [get_node ?H ?p] => link_next H p v end.

Lemma link_some H x y : link H x y -> is_Some (H !! x) /\ is_Some (H !! y).
Proof. intros [E1 E2]. split; [apply nxt_some; by rewrite E1|apply prv_some; by rewrite E2]. Qed.

Lemma same_but_one p H H' q : same_but [p] H H' -> q <> p -> H' !! q = H !! q.
Proof. intros E Hq. apply E. by rewrite list_elem_of_singleton. Qed.

Ltac splice_done :=
  eexists; split; [reflexivity|];
  split; [intros q; by_links|]; split; [intros q; by_links|];
  let q := fresh "q" in let Hq := fresh "Hq" in
  intros q Hq; rewrite !not_elem_of_cons in Hq; destruct Hq as (? & ? & ? & _);
  repeat match goal with
  | E : same_but _ _ ?H |- context [?H !! _] => rewrite (same_but_one _ _ _ _ E) by assumption
  end; reflexivity.

Section splices.
Context (H : heap) (p n o : Z).
Hypothesis Hlink : link H p o.
Hypothesis Hnode : is_Some (H !! n).
Hypothesis Hfresh : n <> p /\ n <> o.

Lemma add_tail_splices : exists H', linked_list_add_tail H n o = Ret H' /\ spliced_in H H' p n o.
Proof using All.
  destruct Hfresh as [Hp Ho], Hlink as [E1 E2], (link_some _ _ _ Hlink) as [D1 D2].
  unfold linked_list_add_tail. link_write. get_prev p. link_write. get_prev p. do 2 link_write.
  splice_done.
Qed.

Lemma add_before_splices : exists H', linked_list_add_before H n o = Ret H' /\ spliced_in H H' p n o.
Proof using All.
  destruct Hfresh as [Hp Ho], Hlink as [E1 E2], (link_some _ _ _ Hlink) as [D1 D2].
  unfold linked_list_add_before. get_prev p. do 2 link_write. get_prev p. do 2 link_write.
  splice_done.
Qed.

Lemma add_head_splices : exists H', linked_list_add_head H n p = Ret H' /\ spliced_in H H' p n o.
Proof using All.
  destruct Hfresh as [Hp Ho], Hlink as [E1 E2], (link_some _ _ _ Hlink) as [D1 D2].
  unfold linked_list_add_head. link_write. get_next o. link_write. get_next o. do 2 link_write.
  splice_done.
Qed.

Lemma add_after_splices : exists H', linked_list_add_after H n p = Ret H' /\ spliced_in H H' p n o.
Proof using All.
  destruct Hfresh as [Hp Ho], Hlink as [E1 E2], (link_some _ _ _ Hlink) as [D1 D2].
  unfold linked_list_add_after. link_write. get_next o. link_write. get_next o. do 2 link_write.
  splice_done.
Qed.
End splices.

Lemma delete_splices H p n o :
  link H p n -> link H n o -> n <> p /\ n <> o ->
  exists H', linked_list_delete H n = Ret H' /\ spliced_out H H' p n o.
Proof.
  intros L1 L2 [Hp Ho]. destruct (link_some _ _ _ L1) as [D1 D2], (link_some _ _ _ L2) as [_ D3].
  destruct L1 as [E1 E2], L2 as [E3 E4].
  unfold linked_list_delete.
  destruct (prv_node H n p E2) as (nd & Hnd & Ep). destruct (nxt_node H n o E3) as (nd' & Hnd' & En).
  rewrite Hnd in Hnd' |- *. injection Hnd' as <-. cbn [mbind outcome_bind]. rewrite Ep, En. link_write.
  match goal with |- context [get_node ?H n] =>
    destruct (prv_node H n p ltac:(by_links)) as (nd2 & Hnd2 & Ep2);
    destruct (nxt_node H n o ltac:(by_links)) as (nd2' & Hnd2' & En2) end.
  rewrite Hnd2 in Hnd2' |- *. injection Hnd2' as <-. cbn [mbind outcome_bind]. rewrite Ep2, En2.
  do 3 link_write. splice_done.
Qed.

(** ** Iteration *)

Lemma nodup_size (H : heap) l : NoDup l -> (forall q, q ∈ l -> is_Some (H !! q)) -> (length l <= size H)%nat.
Proof.
  intros Hnd Hl. rewrite <- (size_list_to_set (C := gset Z) l Hnd), <- (size_dom (D := gset Z)).
  apply subseteq_size. intros q Hq. apply elem_of_dom, Hl. by apply elem_of_list_to_set in Hq.
Qed.

Lemma dll_size H h l : dll H h l -> (S (length l) <= size H)%nat.
Proof. intros [Hnd Hs]. apply (nodup_size H (h :: l) Hnd). intros q. by eapply seg_nodes. Qed.

Section for_each.
Context (H : heap) (h : Z).

Lemma for_each_steps l x seen n :
  h ∉ l -> seg H x l h -> (length l < n)%nat -> forall y, nxt H x = Some y ->
  iter n (for_each_step H h) (y, seen) = Ret (seen ++ l).
Proof using Type.
  revert x seen n. induction l as [|z l IH]; intros x seen n Hh Hs Hn y Hy; simpl in Hs.
  - destruct Hs as [E _]. rewrite Hy in E. injection E as ->. destruct n; [lia|].
    rewrite app_nil_r. apply iter_inr. unfold for_each_step. by rewrite Z.eqb_refl.
  - destruct Hs as [[E _] Hs]. rewrite Hy in E. injection E as ->. destruct n; [simpl in Hn; lia|].
    rewrite not_elem_of_cons in Hh. destruct Hh as [Hz Hh].
    destruct (nxt H z) as [w|] eqn:Ew.
    2:{ destruct (seg_nodes _ _ _ _ z Hs ltac:(by left)) as [nd E].
        unfold nxt in Ew. by rewrite E in Ew. }
    destruct (nxt_node _ _ _ Ew) as (nd & End & Enx).
    rewrite (iter_inl _ _ _ (w, seen ++ [z])).
    + rewrite (IH z); [by rewrite <- app_assoc|done|done|simpl in Hn; lia|done].
    + unfold for_each_step. destruct (Z.eqb_spec z h); [congruence|]. rewrite End. simpl. by rewrite Enx.
Qed.

Lemma size_steps l x sz n :
  h ∉ l -> seg H x l h -> (length l < n)%nat -> forall y, nxt H x = Some y ->
  0 <= sz -> sz + Z.of_nat (length l) < 2 ^ 64 ->
  iter n (size_step H h) (y, sz) = Ret (sz + Z.of_nat (length l)).
Proof using Type.
  revert x sz n. induction l as [|z l IH]; intros x sz n Hh Hs Hn y Hy H0 Hmax; simpl in Hs.
  - destruct Hs as [E _]. rewrite Hy in E. injection E as ->. destruct n; [lia|].
    rewrite Z.add_0_r. apply iter_inr. unfold size_step. by rewrite Z.eqb_refl.
  - destruct Hs as [[E _] Hs]. rewrite Hy in E. injection E as ->. destruct n; [simpl in Hn; lia|].
    rewrite not_elem_of_cons in Hh. destruct Hh as [Hz Hh].
    destruct (nxt H z) as [w|] eqn:Ew.
    2:{ destruct (seg_nodes _ _ _ _ z Hs ltac:(by left)) as [nd E].
        unfold nxt in Ew. by rewrite E in Ew. }
    destruct (nxt_node _ _ _ Ew) as (nd & End & Enx). cbn [length] in *.
    rewrite (iter_inl _ _ _ (w, sz + 1)).
    + rewrite (IH z); [f_equal; lia|done|done|lia|done|lia|lia].
    + unfold size_step. destruct (Z.eqb_spec z h); [congruence|]. rewrite End. simpl.
      rewrite Enx, u64_small; [done|]. change (2 ^ 64) with 18446744073709551616 in Hmax. lia.
Qed.

Lemma dll_next l : dll H h l -> exists hd, get_node H h = Ret hd /\ nxt H h = Some (next hd) /\
  next hd = first_of l h.
Proof using Type.
  intros D. destruct (dll_links H h [] l D) as [E _]. simpl in E.
  destruct (nxt_node _ _ _ E) as (hd & ? & E'). exists hd. by rewrite E'.
Qed.

Lemma for_each_ok l : dll H h l -> linked_list_for_each H h = Ret l.
Proof using Type.
  intros D. destruct (dll_next l D) as (hd & E & En & _). unfold linked_list_for_each. rewrite E.
  cbn [mbind outcome_bind]. pose proof (dll_size _ _ _ D). destruct D as [Hnd Hs].
  apply list.NoDup_cons in Hnd as [Hh _]. by rewrite (for_each_steps l h []) by (done || lia).
Qed.

Lemma size_ok l :
  dll H h l -> Z.of_nat (length l) < 2 ^ 64 -> linked_list_size H h = Ret (Z.of_nat (length l)).
Proof using Type.
  intros D Hl. destruct (dll_next l D) as (hd & E & En & _). unfold linked_list_size. rewrite E.
  cbn [mbind outcome_bind]. pose proof (dll_size _ _ _ D). destruct D as [Hnd Hs].
  apply list.NoDup_cons in Hnd as [Hh _]. by rewrite (size_steps l h 0) by (done || lia).
Qed.

Lemma is_empty_ok l : dll H h l -> linked_list_is_empty H h = Ret (bool_decide (l = [])).
Proof using Type.
  intros D. destruct (dll_next l D) as (hd & E & _ & En). unfold linked_list_is_empty. rewrite E.
  cbn [mbind outcome_bind]. rewrite En. f_equal. destruct D as [Hnd _]. destruct l as [|y l]; simpl.
  - by rewrite Z.eqb_refl.
  - apply Z.eqb_neq. intros ->.
    apply list.NoDup_cons in Hnd as [Hh _]. apply Hh. by left.
Qed.
End for_each.

(** ** Refinement: programs over one list *)

Inductive list_op : Type :=
  | AddTail (n : Z)
  | AddHead (n : Z)
  | AddBefore (n o : Z)
  | AddAfter (n o : Z)
  | Delete (n : Z).

Definition op_exec (h : Z) (H : heap) (op : list_op) : outcome heap :=
  match op with
  | AddTail n => linked_list_add_tail H n h
  | AddHead n => linked_list_add_head H n h
  | AddBefore n o => linked_list_add_before H n o
  | AddAfter n o => linked_list_add_after H n o
  | Delete n => linked_list_delete H n
  end.
Fixpoint ops_exec (h : Z) (H : heap) (ops : list list_op) : outcome heap :=
  match ops with
  | [] => Ret H
  | op :: ops => H ← op_exec h H op; ops_exec h H ops
  end.

(** The same on a list of nodes.  A node is added once, and what is deleted or
    stands for a place is in the list. *)
Fixpoint insert_before (n o : Z) (l : list Z) : list Z :=
  match l with
  | [] => []
  | x :: l => if decide (x = o) then n :: x :: l else x :: insert_before n o l
  end.
Fixpoint insert_after (n o : Z) (l : list Z) : list Z :=
  match l with
  | [] => []
  | x :: l => if decide (x = o) then x :: n :: l else x :: insert_after n o l
  end.
Fixpoint remove_node (n : Z) (l : list Z) : list Z :=
  match l with
  | [] => []
  | x :: l => if decide (x = n) then l else x :: remove_node n l
  end.
Definition op_spec (h : Z) (l : list Z) (op : list_op) : option (list Z) :=
  match op with
  | AddTail n => if decide (n ∈ h :: l) then None else Some (l ++ [n])
  | AddHead n => if decide (n ∈ h :: l) then None else Some (n :: l)
  | AddBefore n o =>
      if decide (n ∈ h :: l) then None else if decide (o ∈ l) then Some (insert_before n o l) else None
  | AddAfter n o =>
      if decide (n ∈ h :: l) then None else if decide (o ∈ l) then Some (insert_after n o l) else None
  | Delete n => if decide (n ∈ l) then Some (remove_node n l) else None
  end.
Fixpoint ops_spec (h : Z) (l : list Z) (ops : list list_op) : option (list Z) :=
  match ops with
  | [] => Some l
  | op :: ops => l ← op_spec h l op; ops_spec h l ops
  end.
Definition op_node (op : list_op) : Z :=
  match op with AddTail n | AddHead n | AddBefore n _ | AddAfter n _ | Delete n => n end.

Lemma split_first (o : Z) l : o ∈ l -> exists l1 l2, l = l1 ++ o :: l2 /\ o ∉ l1.
Proof.
  intros Ho. destruct (list_elem_of_split_l l o Ho) as (l1 & l2 & -> & ?). by exists l1, l2.
Qed.
Lemma insert_before_split n o l1 l2 : o ∉ l1 -> insert_before n o (l1 ++ o :: l2) = l1 ++ n :: o :: l2.
Proof.
  induction l1 as [|x l1 IH]; simpl; [by rewrite decide_True|].
  rewrite not_elem_of_cons. intros [? ?]. rewrite decide_False by done. by rewrite IH.
Qed.
Lemma insert_after_split n o l1 l2 : o ∉ l1 -> insert_after n o (l1 ++ o :: l2) = l1 ++ o :: n :: l2.
Proof.
  induction l1 as [|x l1 IH]; simpl; [by rewrite decide_True|].
  rewrite not_elem_of_cons. intros [? ?]. rewrite decide_False by done. by rewrite IH.
Qed.
Lemma remove_node_split n l1 l2 : n ∉ l1 -> remove_node n (l1 ++ n :: l2) = l1 ++ l2.
Proof.
  induction l1 as [|x l1 IH]; simpl; [by rewrite decide_True|].
  rewrite not_elem_of_cons. intros [? ?]. rewrite decide_False by done. by rewrite IH.
Qed.

Lemma last_from_snoc x l y : last_from x (l ++ [y]) = y.
Proof. revert x. induction l as [|z l IH]; intros x; simpl; [done|apply IH]. Qed.
Lemma first_of_in l2 h : first_of l2 h ∈ h :: l2.
Proof. destruct l2; simpl; [by left|right; by left]. Qed.

(** A place [l1 | l2] of a list, and a node outside it. *)
Lemma place H h l1 l2 n :
  dll H h (l1 ++ l2) -> n ∉ h :: l1 ++ l2 ->
  link H (last_from h l1) (first_of l2 h) /\ n <> last_from h l1 /\ n <> first_of l2 h.
Proof.
  intros D Hn. pose proof (last_from_in h l1) as Hl. pose proof (first_of_in l2 h) as Hf.
  rewrite elem_of_cons in Hl, Hf. rewrite not_elem_of_cons, not_elem_of_app in Hn.
  split; [by apply dll_links|]. split; intros E; rewrite E in Hn; tauto.
Qed.

Lemma same_but_place n h l1 l2 H H' :
  same_but [n; last_from h l1; first_of l2 h] H H' -> same_but (n :: h :: l1 ++ l2) H H'.
Proof.
  intros E q Hq. apply E. pose proof (last_from_in h l1) as Hl. pose proof (first_of_in l2 h) as Hf.
  rewrite elem_of_cons in Hl, Hf. rewrite !not_elem_of_cons, not_elem_of_app in Hq.
  rewrite !not_elem_of_cons. destruct Hq as (? & ? & ? & ?).
  repeat split; [done|intros ->; tauto|intros ->; tauto|apply not_elem_of_nil].
Qed.

Lemma spliced_in_dom H H' p n o q : spliced_in H H' p n o -> is_Some (H !! q) -> is_Some (H' !! q).
Proof. intros (E & _) Hq. rewrite <- nxt_some, E in *. by repeat case_decide. Qed.
Lemma spliced_out_dom H H' p n o q : spliced_out H H' p n o -> is_Some (H !! q) -> is_Some (H' !! q).
Proof. intros (E & _) Hq. rewrite <- nxt_some, E in *. by repeat case_decide. Qed.

(** The heap after an operation that takes [l] to [l']. *)
Definition refines_to (H H' : heap) (h n : Z) (l l' : list Z) : Prop :=
  dll H' h l' /\ same_but (n :: h :: l) H H' /\ (forall q, is_Some (H !! q) -> is_Some (H' !! q)).

Lemma insert_refines H H' h l1 l2 n :
  dll H h (l1 ++ l2) -> n ∉ h :: l1 ++ l2 -> spliced_in H H' (last_from h l1) n (first_of l2 h) ->
  refines_to H H' h n (l1 ++ l2) (l1 ++ n :: l2).
Proof.
  intros D Hn S. split; [by eapply dll_insert|]. split; [|intros q; by eapply spliced_in_dom].
  destruct S as (_ & _ & S). by apply same_but_place.
Qed.

Lemma remove_refines H H' h l1 l2 n :
  dll H h (l1 ++ n :: l2) -> spliced_out H H' (last_from h l1) n (first_of l2 h) ->
  refines_to H H' h n (l1 ++ n :: l2) (l1 ++ l2).
Proof.
  intros D S. split; [by eapply dll_remove|]. split; [|intros q; by eapply spliced_out_dom].
  destruct S as (_ & _ & S). apply same_but_place in S. intros q Hq. apply S.
  rewrite !not_elem_of_cons, !not_elem_of_app in *. rewrite not_elem_of_cons in Hq. tauto.
Qed.

Lemma delete_refines H h l1 l2 n :
  dll H h (l1 ++ n :: l2) ->
  exists H', linked_list_delete H n = Ret H' /\ refines_to H H' h n (l1 ++ n :: l2) (l1 ++ l2).
Proof.
  intros D. assert (NoDup (h :: l1 ++ n :: l2)) as Hnd by apply D. apply nodup_middle in Hnd as [Hn _].
  assert (link H (last_from h l1) n) as L1 by apply (dll_links H h l1 (n :: l2) D).
  assert (link H n (first_of l2 h)) as L2.
  { rewrite (cons_middle n l1 l2), app_assoc in D. apply dll_links in D. by rewrite last_from_snoc in D. }
  pose proof (last_from_in h l1) as Hl. pose proof (first_of_in l2 h) as Hf.
  rewrite elem_of_cons in Hl, Hf. rewrite not_elem_of_cons, not_elem_of_app in Hn.
  destruct (delete_splices H (last_from h l1) n (first_of l2 h)) as (H' & E & S);
    [done|done|split; intros E; rewrite <- E in *; tauto|].
  exists H'. split; [done|]. by apply remove_refines.
Qed.

Lemma op_refines H h l op l' :
  dll H h l -> is_Some (H !! op_node op) -> op_spec h l op = Some l' ->
  exists H', op_exec h H op = Ret H' /\ refines_to H H' h (op_node op) l l'.
Proof.
  intros D Hd. destruct op as [n|n|n o|n o|n]; simpl in *; intros Hop; repeat case_decide; simplify_eq.
  - rewrite <- (app_nil_r l) in D, H0. destruct (place _ _ _ _ _ D H0) as (L & Hp & Ho).
    destruct (add_tail_splices H _ n _ L Hd (conj Hp Ho)) as (H' & E & S). exists H'. split; [done|].
    rewrite <- (app_nil_r l) at 1. by apply insert_refines.
  - destruct (place H h [] l n D H0) as (L & Hp & Ho).
    destruct (add_head_splices H _ n _ L Hd (conj Hp Ho)) as (H' & E & S). exists H'. split; [done|].
    by apply (insert_refines H H' h [] l).
  - destruct (split_first o l H1) as (l1 & l2 & -> & Ho1). rewrite insert_before_split by done.
    destruct (place _ _ _ _ _ D H0) as (L & Hp & Ho).
    destruct (add_before_splices H _ n _ L Hd (conj Hp Ho)) as (H' & E & S). exists H'. split; [done|].
    by apply insert_refines.
  - destruct (split_first o l H1) as (l1 & l2 & -> & Ho1). rewrite insert_after_split by done.
    rewrite !(cons_middle o l1), !app_assoc in *.
    destruct (place _ _ _ _ _ D H0) as (L & Hp & Ho).
    destruct (add_after_splices H _ n _ L Hd (conj Hp Ho)) as (H' & E & S). rewrite last_from_snoc in E.
    exists H'. split; [done|]. by apply insert_refines.
  - destruct (split_first n l H0) as (l1 & l2 & -> & Hn). rewrite remove_node_split by done.
    by apply delete_refines.
Qed.

(** A list only depends on its own nodes. *)
Lemma dll_frame H H' h l : dll H h l -> (forall q, q ∈ h :: l -> H' !! q = H !! q) -> dll H' h l.
Proof.
  intros [Hnd Hs] E. split; [done|]. apply (seg_frame H H' h l h Hs).
  - intros q Hq. unfold prv. rewrite E; [done|by right].
  - unfold prv. rewrite E; [done|by left].
  - intros q Hq. unfold nxt. by rewrite E.
Qed.

Lemma refines_frame H H' h n l l' h2 l2 :
  refines_to H H' h n l l' -> dll H h2 l2 -> (forall q, q ∈ h2 :: l2 -> q ∉ n :: h :: l) -> dll H' h2 l2.
Proof. intros (_ & S & _) D Hdisj. apply (dll_frame H); auto. Qed.

Lemma op_spec_nodes h l op l' q : op_spec h l op = Some l' -> q ∈ l' -> q = op_node op \/ q ∈ l.
Proof.
  destruct op as [n|n|n o|n o|n]; simpl; intros Hop Hq; repeat case_decide; simplify_eq.
  - apply elem_of_app in Hq as [?|Hq]; [by right|]. apply list_elem_of_singleton in Hq. by left.
  - apply elem_of_cons in Hq. tauto.
  - destruct (split_first o l H0) as (l1 & l2 & -> & ?). rewrite insert_before_split in Hq by done.
    rewrite elem_of_app, !elem_of_cons in *. tauto.
  - destruct (split_first o l H0) as (l1 & l2 & -> & ?). rewrite insert_after_split in Hq by done.
    rewrite elem_of_app, !elem_of_cons in *. tauto.
  - destruct (split_first n l H) as (l1 & l2 & -> & ?). rewrite remove_node_split in Hq by done.
    rewrite elem_of_app, elem_of_cons in *. tauto.
Qed.

Lemma ops_refine H h l ops l' :
  dll H h l -> (forall op, op ∈ ops -> is_Some (H !! op_node op)) -> ops_spec h l ops = Some l' ->
  exists H', ops_exec h H ops = Ret H' /\ dll H' h l' /\
    (forall h2 l2, dll H h2 l2 -> (forall q, q ∈ h2 :: l2 -> q ∉ (op_node <$> ops) ++ h :: l) -> dll H' h2 l2).
Proof.
  revert H l. induction ops as [|op ops IH]; intros H l D Hd Hop; simpl in *.
  - injection Hop as ->. by exists H.
  - destruct (op_spec h l op) as [l1|] eqn:E1; [|done]. simpl in Hop.
    destruct (op_refines H h l op l1 D) as (H1 & -> & R); [apply Hd; by left|done|]. simpl.
    destruct (IH H1 l1) as (H' & E & D' & F);
      [apply R|intros op' ?; apply R, Hd; by right|done|].
    exists H'. split; [done|]. split; [done|]. intros h2 l2 D2 Hdisj. apply F.
    + apply (refines_frame H H1 h (op_node op) l l1 h2 l2 R D2). intros q Hq Hin.
      apply (Hdisj q Hq). rewrite !elem_of_cons, elem_of_app, elem_of_cons in *. tauto.
    + intros q Hq Hin. apply (Hdisj q Hq).
      rewrite elem_of_cons, !elem_of_app, !elem_of_cons in *.
      destruct Hin as [?|[?|Hin]]; [tauto|tauto|].
      apply (op_spec_nodes _ _ _ _ _ E1) in Hin. tauto.
Qed.

(** Walking backwards is walking forwards with the two links exchanged. *)
Definition flip_node (nd : linked_list_node) : linked_list_node := {| prev := next nd; next := prev nd |}.
Definition flip_heap (H : heap) : heap := flip_node <$> H.

Lemma flip_get H p : get_node (flip_heap H) p = flip_node <$> get_node H p.
Proof. unfold get_node, flip_heap. rewrite lookup_fmap. by destruct (H !! p). Qed.
Lemma flip_link H x y : link H x y -> link (flip_heap H) y x.
Proof.
  unfold link, nxt, prv, flip_heap. rewrite !lookup_fmap.
  destruct (H !! x), (H !! y); simpl; naive_solver.
Qed.
Lemma flip_seg H x l z : seg H x l z -> seg (flip_heap H) z (reverse l) x.
Proof.
  revert x. induction l as [|y l IH]; intros x; simpl; [apply flip_link|].
  intros [L Hs]. rewrite reverse_cons. apply seg_app. split; [by apply IH|by apply flip_link].
Qed.
Lemma flip_dll H h l : dll H h l -> dll (flip_heap H) h (reverse l).
Proof.
  intros [Hnd Hs]. split; [|by apply flip_seg].
  apply list.NoDup_cons in Hnd as [Hh Hnd]. apply list.NoDup_cons.
  split; [by rewrite elem_of_reverse|by rewrite reverse_Permutation].
Qed.
Lemma for_each_reverse_flip H h n s :
  iter n (for_each_reverse_step H h) s = iter n (for_each_step (flip_heap H) h) s.
Proof.
  revert s. induction n as [|n IH]; intros [p seen]; [done|]. simpl.
  destruct (p =? h); [done|]. rewrite flip_get. destruct (get_node H p); simpl; [apply IH|done..].
Qed.
Lemma for_each_reverse_ok H h l : dll H h l -> linked_list_for_each_reverse H h = Ret (reverse l).
Proof.
  intros D. apply flip_dll in D. apply for_each_ok in D. unfold linked_list_for_each in D.
  unfold linked_list_for_each_reverse. rewrite flip_get in D.
  destruct (get_node H h); simpl in *; try done. change (size (flip_heap H)) with (size (flip_node <$> H)) in D.
  rewrite map_size_fmap in D. destruct (_ =? h); [done|]. rewrite flip_get in D.
  destruct (get_node H _); simpl in *; try done. by rewrite for_each_reverse_flip.
Qed.

Lemma head_init_ok H h :
  is_Some (H !! h) ->
  exists H', linked_list_head_init H h = Ret H' /\ dll H' h [] /\ same_but [h] H H' /\
    (forall q, is_Some (H !! q) -> is_Some (H' !! q)).
Proof.
  intros Hh. unfold linked_list_head_init. do 2 link_write. eexists. split; [done|]. split; [|split].
  - split; [apply NoDup_singleton|]. split; by_links.
  - intros q Hq. by rewrite Es0, Es.
  - auto.
Qed.

(** C18: for a program that initialises a list head and then adds (at either end, or next to a node of
    the list) and deletes nodes, where only nodes outside the list are added and only members are deleted,
    the pointer code of linkedlist.h runs without a bad access and does what the same program does on a list:
    afterwards forward iteration visits exactly the nodes of that list in order, backward iteration visits
    them in reverse, [linked_list_size] is its length, [linked_list_is_empty] tells whether it is empty, and
    any other list of the heap that shares no node with this one is untouched. *)
Theorem linked_list_refines (H : heap) (h : Z) (ops : list list_op) (l : list Z)
  (Hhead : is_Some (H !! h))
  (Hnodes : forall op, op ∈ ops -> is_Some (H !! op_node op))
  (Hops : ops_spec h [] ops = Some l) :
  exists H', (H ← linked_list_head_init H h; ops_exec h H ops) = Ret H' /\
    linked_list_for_each H' h = Ret l /\
    linked_list_for_each_reverse H' h = Ret (reverse l) /\
    linked_list_is_empty H' h = Ret (bool_decide (l = [])) /\
    (Z.of_nat (length l) < 2 ^ 64 -> linked_list_size H' h = Ret (Z.of_nat (length l))) /\
    (forall h2 l2, dll H h2 l2 -> (forall q, q ∈ h2 :: l2 -> q <> h /\ q ∉ op_node <$> ops) ->
      linked_list_for_each H' h2 = Ret l2).
Proof.
  destruct (head_init_ok H h Hhead) as (H0 & -> & D0 & S0 & Hd). simpl.
  destruct (ops_refine H0 h [] ops l D0) as (H' & E & D & F); [auto|done|].
  exists H'. rewrite (for_each_ok _ _ _ D), (for_each_reverse_ok _ _ _ D), (is_empty_ok _ _ _ D).
  repeat (split; [done|]). split; [by apply size_ok|].
  intros h2 l2 D2 Hdisj. apply for_each_ok, F.
  - apply (refines_frame H H0 h h [] [] h2 l2); [|done|].
    + split; [done|]. split; [|done]. intros q Hq. apply S0. set_solver.
    + intros q Hq. destruct (Hdisj q Hq). set_solver.
  - intros q Hq. destruct (Hdisj q Hq). rewrite not_elem_of_app, list_elem_of_singleton. done.
Qed.

(** Five nodes, and the list 6 <-> 7 beside them. *)
Definition sample_heap : heap :=
  list_to_map ((fun p => (p, {| prev := 0; next := 0 |})) <$> [1; 2; 3; 4; 5])
  ∪ {[ 6 := {| prev := 7; next := 7 |}; 7 := {| prev := 6; next := 6 |} ]}.

Lemma linked_list_refines_witness :
  exists H', (H ← linked_list_head_init sample_heap 1;
      ops_exec 1 H [AddTail 2; AddHead 3; AddBefore 4 2; AddAfter 5 3; Delete 4]) = Ret H' /\
    linked_list_for_each H' 1 = Ret [3; 5; 2] /\
    linked_list_for_each_reverse H' 1 = Ret [2; 5; 3] /\
    linked_list_size H' 1 = Ret 3 /\ linked_list_for_each H' 6 = Ret [7].
Proof.
  destruct (linked_list_refines sample_heap 1 [AddTail 2; AddHead 3; AddBefore 4 2; AddAfter 5 3; Delete 4]
    [3; 5; 2]) as (H' & E & E1 & E2 & _ & E3 & F).
  - by exists {| prev := 0; next := 0 |}.
  - intros op Hop. rewrite !elem_of_cons, elem_of_nil in Hop.
    destruct Hop as [->|[->|[->|[->|[->|[]]]]]]; by exists {| prev := 0; next := 0 |}.
  - reflexivity.
  - exists H'. split; [done|]. split; [done|]. split; [done|]. split; [by apply E3|]. apply F.
    + split; [|repeat split]. apply (bool_decide_unpack _). reflexivity.
    + intros q Hq. rewrite !elem_of_cons, elem_of_nil in Hq.
      destruct Hq as [->|[->|[]]]; (split; [done|]); apply (bool_decide_unpack _); reflexivity.
Defined.
