(* ===== verification/PortList.v ===== *)
(** The pool of port numbers of portlist/portlist.h, a first-in first-out queue
    on an intrusive linked list of malloc'ed entries. *)
From S2P Require Import Prelude LinkedList.

(** An entry is at the address of its list node; [ports] holds its second
    field. *)
Record port_store := { nodes : heap; ports : gmap Z Z }.

(** [malloc] returned a block at [e], with whatever it held before in its
    links. *)
Definition malloc_entry (s : port_store) (e : Z) (junk : linked_list_node) : port_store :=
  {| nodes := <[e := junk]> (nodes s); ports := <[e := 0]> (ports s) |}.
Definition free_entry (s : port_store) (e : Z) : port_store :=
  {| nodes := delete e (nodes s); ports := delete e (ports s) |}.

Definition port_list_init (s : port_store) (list : Z) : outcome port_store :=
  H ← linked_list_head_init (nodes s) list; Ret {| nodes := H; ports := ports s |}.

(** The argument [e] is what [malloc] returns. *)
Definition port_list_add (s : port_store) (list : Z) (e : option (Z * linked_list_node)) (x : Z)
    : outcome port_store :=
  match e with
  | None => Abort
  | Some (e, junk) =>
      if x =? 0 then Abort
      else
        let s := malloc_entry s e junk in
        H ← linked_list_add_tail (nodes s) e list;
        Ret {| nodes := H; ports := <[e := u16 x]> (ports s) |}
  end.

Definition port_list_get (s : port_store) (list : Z) : outcome (port_store * Z) :=
  hd ← get_node (nodes s) list;
  if next hd =? 0 then Ret (s, 0)
  else
    let e := next hd in
    result ← of_option (ports s !! e);
    H ← linked_list_delete (nodes s) e;
    Ret (free_entry {| nodes := H; ports := ports s |} e, result).

Definition port_list_free_step (list : Z) (s : port_store) : outcome (port_store + port_store) :=
  empty ← linked_list_is_empty (nodes s) list;
  if (empty : bool) then Ret (inr s)
  else
    hd ← get_node (nodes s) list;
    let e := next hd in
    H ← linked_list_delete (nodes s) e;
    Ret (inl (free_entry {| nodes := H; ports := ports s |} e)).
Definition port_list_free (s : port_store) (list : Z) : outcome port_store :=
  iter (S (size (nodes s))) (port_list_free_step list) s.

(** ** The queue a port list stands for *)

Definition port_queue (s : port_store) (list : Z) (q : Datatypes.list Z) : Prop :=
  exists l, dll (nodes s) list l /\ Forall2 (fun e x => ports s !! e = Some x) l q /\
    ports s !! list = None /\ 0 ∉ l.

Lemma Forall2_ports_frame (P P' : gmap Z Z) l q :
  Forall2 (fun e x => P !! e = Some x) l q -> (forall e : Z, e ∈ l -> P' !! e = P !! e) ->
  Forall2 (fun e (x : Z) => P' !! e = Some x) l q.
Proof.
  induction 1 as [|e x l q Hex _ IH]; intros Hf; constructor.
  - rewrite Hf; [done|by left].
  - apply IH. intros. apply Hf. by right.
Qed.

(** Taking the first entry off the list and freeing it. *)
Lemma port_pop s list e x l q :
  dll (nodes s) list (e :: l) -> Forall2 (fun e x => ports s !! e = Some x) (e :: l) (x :: q) ->
  ports s !! list = None -> 0 ∉ e :: l ->
  exists H, linked_list_delete (nodes s) e = Ret H /\
    let s' := free_entry {| nodes := H; ports := ports s |} e in
    dll (nodes s') list l /\ Forall2 (fun e x => ports s' !! e = Some x) l q /\
    ports s' !! list = None /\ 0 ∉ l /\ (size (nodes s') < size (nodes s))%nat.
Proof.
  intros D HF Hl H0. inversion HF as [|? ? ? ? Hex HF']; subst.
  assert (NoDup (list :: e :: l)) as Hnd by apply D.
  apply list.NoDup_cons in Hnd as [Hle Hnd]. apply list.NoDup_cons in Hnd as [He Hnd].
  rewrite not_elem_of_cons in Hle, H0. destruct Hle as [Hle Hll], H0 as [_ H0].
  destruct (delete_splices (nodes s) list e (first_of l list)) as (H & E & S).
  { apply (dll_links _ _ [] _ D). } { apply (dll_links _ _ [e] _ D). }
  { split; [congruence|]. destruct l; simpl; [congruence|]. rewrite not_elem_of_cons in He. tauto. }
  exists H. split; [done|]. pose proof (remove_refines _ _ _ [] _ _ D S) as (D' & S' & _).
  simpl. split; [|split; [|split; [|split]]]; [| |by rewrite lookup_delete_ne by congruence|done|].
  - apply (dll_frame H); [done|]. intros q' Hq'. rewrite lookup_delete_ne; [done|].
    intros ->. apply elem_of_cons in Hq' as [?|?]; [congruence|done].
  - apply (Forall2_ports_frame (ports s)); [done|]. intros e' He'. rewrite lookup_delete_ne; [done|].
    by intros ->.
  - assert (dom H ⊆@{gset Z} dom (nodes s)) as Hdom.
    { intros q'. rewrite !elem_of_dom, <- !nxt_some. destruct S as (S & _). rewrite S.
      destruct (link_some _ _ _ (dll_links _ _ [] _ D)) as [D1 D2]. simpl in D1, D2.
      repeat case_decide; subst; rewrite ?nxt_some; done. }
    rewrite <- !(size_dom (D := gset Z)), dom_delete. apply subset_size.
    assert (e ∈@{gset Z} dom (nodes s)) as Hin.
    { apply elem_of_dom. apply (link_some _ _ _ (dll_links _ _ [] _ D)). }
    set_solver.
Qed.

Lemma port_free_loop n s list q :
  port_queue s list q -> (size (nodes s) < n)%nat ->
  exists s', iter n (port_list_free_step list) s = Ret s' /\ port_queue s' list [] /\
    (forall e, ports s' !! e = ports s !! e \/ ports s' !! e = None).
Proof.
  revert s q. induction n as [|n IH]; intros s q (l & D & HF & Hl & H0) Hn; [lia|].
  destruct l as [|e l]; inversion HF as [|? x ? q' Hex HF']; subst.
  - exists s. split; [|split; [by exists []|by left]]. apply iter_inr. unfold port_list_free_step.
    by rewrite (is_empty_ok _ _ _ D).
  - destruct (port_pop _ _ _ _ _ _ D HF Hl H0) as (H & E & D' & HF2 & Hl' & H0' & Hlt).
    destruct (dll_next _ _ _ D) as (hd & Ehd & _ & En).
    destruct (IH (free_entry {| nodes := H; ports := ports s |} e) q') as (s' & E' & Q & F);
      [by exists l|simpl in *; lia|].
    exists s'. split; [|split; [done|]].
    + rewrite <- E'. apply iter_inl. unfold port_list_free_step. rewrite (is_empty_ok _ _ _ D).
      simpl. rewrite Ehd. simpl. rewrite En. simpl. by rewrite E.
    + intros e'. destruct (F e') as [->|?]; [|by right]. simpl.
      destruct (decide (e' = e)) as [->|]; [right; by rewrite lookup_delete_eq|].
      left. by rewrite lookup_delete_ne.
Qed.

(** A port list is a first-in first-out queue.  With ports [q] in it, adding the port [x] (not 0, and
    [malloc] returning a fresh block) makes it [q ++ [x]]; a failed [malloc] or port 0 stops the process;
    taking one returns the oldest port and leaves the rest; freeing it returns and leaves the empty list.  On
    an empty list [port_list_get] does not report 0: its test for [NULL] never holds, and it reads an entry
    that is not there. *)
Theorem port_list_is_fifo (s : port_store) (list : Z) (q : Datatypes.list Z)
  (Hq : port_queue s list q) (Hlist : list <> 0) :
  (forall e junk x, 0 < x < 65536 -> e <> 0 -> nodes s !! e = None ->
    returns (port_list_add s list (Some (e, junk)) x) (fun s' => port_queue s' list (q ++ [x]))) /\
  (forall x, port_list_add s list None x = Abort) /\
  (forall m, port_list_add s list m 0 = Abort) /\
  match q with
  | [] => port_list_get s list = Undef
  | x :: q' => returns (port_list_get s list) (fun '(s', r) => r = x /\ port_queue s' list q')
  end /\
  returns (port_list_free s list) (fun s' => port_queue s' list []).
Proof.
  split; [|split; [done|split; [by intros [[? ?]|]|split]]].
  - intros e junk x Hx He Hfresh. destruct Hq as (l & D & HF & Hl & H0).
    assert (forall p, p ∈ list :: l -> p <> e) as Hne.
    { intros p Hp ->. destruct D as [_ Hs]. destruct (seg_nodes _ _ _ _ _ Hs Hp) as [? E]. congruence. }
    assert (dll (<[e := junk]> (nodes s)) list l) as D1.
    { apply (dll_frame _ _ _ _ D). intros p Hp. rewrite lookup_insert_ne; [done|].
      intros E. by apply (Hne p Hp). }
    destruct (op_refines (<[e := junk]> (nodes s)) list l (AddTail e) (l ++ [e]) D1) as (H & E & D2 & _).
    { simpl. rewrite lookup_insert_eq. by exists junk. }
    { simpl. rewrite decide_False; [done|]. intros Hin. by apply (Hne e Hin). }
    unfold port_list_add. destruct (Z.eqb_spec x 0); [lia|]. simpl in *. rewrite E. simpl.
    apply returns_ret. exists (l ++ [e]). simpl. rewrite u16_small by lia.
    split; [done|]. split; [|split].
    + apply Forall2_app; [|constructor; [by rewrite lookup_insert_eq|constructor]].
      apply (Forall2_ports_frame (ports s)); [done|]. intros p Hp.
      assert (p <> e) by (apply Hne; by right). by rewrite !lookup_insert_ne by congruence.
    + assert (list <> e) by (apply Hne; by left). by rewrite !lookup_insert_ne by congruence.
    + rewrite not_elem_of_app, list_elem_of_singleton. split; [done|congruence].
  - destruct Hq as (l & D & HF & Hl & H0). destruct (dll_next _ _ _ D) as (hd & E & _ & En).
    unfold port_list_get. rewrite E. simpl. rewrite En.
    destruct l as [|e l]; inversion HF as [|? x ? q' Hex HF']; subst; simpl.
    + destruct (Z.eqb_spec list 0); [done|]. by rewrite Hl.
    + destruct (port_pop _ _ _ _ _ _ D HF Hl H0) as (H & E' & D' & HF2 & Hl' & H0' & _).
      rewrite not_elem_of_cons in H0. destruct (Z.eqb_spec e 0) as [->|]; [by destruct H0|].
      rewrite Hex. simpl. rewrite E'. simpl. apply returns_ret. split; [done|]. by exists l.
  - destruct (port_free_loop (S (size (nodes s))) s list q Hq) as (s' & E & Q & _); [lia|].
    by exists s'.
Qed.

Lemma port_list_is_fifo_witness :
  exists s, port_list_init {| nodes := {[ 8 := {| prev := 0; next := 0 |} ]}; ports := ∅ |} 8 = Ret s /\
    port_list_get s 8 = Undef /\
    returns (port_list_add s 8 (Some (16, {| prev := 5; next := 5 |})) 1024)
      (fun s' => port_queue s' 8 [1024]).
Proof.
  eexists. split; [reflexivity|]. set (s := Build_port_store _ _).
  assert (port_queue s 8 []) as Q.
  { exists []. split; [|split; [constructor|split; [done|apply not_elem_of_nil]]].
    split; [apply NoDup_singleton|]. split; reflexivity. }
  destruct (port_list_is_fifo s 8 [] Q) as (A & _ & _ & G & _); [done|].
  split; [exact G|]. apply A; [lia|done|reflexivity].
Defined.
