(* ===== verification/IpHdr.v ===== *)
(** Header accessors of iphdr/iphdr.h: PCP, ICMP, ARP, Ethernet, IPv4, IPv6,
    TCP and UDP fields over byte memory.

    A C pointer into a packet is an address of the block [m]; functions that
    return a pointer return an address.  Setters return the updated block. *)
From S2P Require Import Prelude Bytes.

Section accessors.
Context `{Host}.

(** ** PCP *)

Definition pcp_version (m : mem) (pkt : Z) : outcome Z := load8 m pkt.
Definition pcp_set_version (m : mem) (pkt version : Z) : outcome mem := store8 m pkt version.
Definition pcp_r (m : mem) (pkt : Z) : outcome Z :=
  b ← load8 m (pkt + 1); Ret (Z.shiftr b 7).
Definition pcp_set_r (m : mem) (pkt val : Z) : outcome mem :=
  b ← load8 m (pkt + 1);
  m ← store8 m (pkt + 1) (Z.land b (Z.lnot (Z.shiftl 1 7)));
  b ← load8 m (pkt + 1);
  store8 m (pkt + 1) (Z.lor b (Z.shiftl (b2z (negb (val =? 0))) 7)).
Definition pcp_opcode (m : mem) (pkt : Z) : outcome Z :=
  b ← load8 m (pkt + 1); Ret (Z.land b (Z.lnot (Z.shiftl 1 7))).
Definition pcp_set_opcode (m : mem) (pkt opcode : Z) : outcome mem :=
  b ← load8 m (pkt + 1);
  store8 m (pkt + 1) (Z.lor b (Z.land opcode (Z.lnot (Z.shiftl 1 7)))).
Definition pcp_req_set_reserved (m : mem) (pkt val : Z) : outcome mem :=
  hdr_set16n m (pkt + 2) val.
Definition pcp_resp_set_reserved (m : mem) (pkt val : Z) : outcome mem :=
  store8 m (pkt + 2) val.
Definition pcp_resp_rcode (m : mem) (pkt : Z) : outcome Z := load8 m (pkt + 3).
Definition pcp_resp_set_rcode (m : mem) (pkt rcode : Z) : outcome mem :=
  store8 m (pkt + 3) rcode.
Definition pcp_lifetime (m : mem) (pkt : Z) : outcome Z := hdr_get32n m (pkt + 4).
Definition pcp_set_lifetime (m : mem) (pkt lifetime : Z) : outcome mem :=
  hdr_set32n m (pkt + 4) lifetime.
Definition pcp_req_is_ipv4 (m : mem) (pkt : Z) : outcome bool :=
  bs ← loadn m (pkt + 8) 12;
  Ret (bool_decide (bs = [0;0;0;0;0;0;0;0;0;0;255;255])).
Definition pcp_req_get_ipv4 (m : mem) (pkt : Z) : outcome Z := hdr_get32n m (pkt + (8 + 12)).
Definition pcp_resp_epoch_time (m : mem) (pkt : Z) : outcome Z := hdr_get32n m (pkt + 8).
Definition pcp_resp_set_epoch_time (m : mem) (pkt epoch_time : Z) : outcome mem :=
  hdr_set32n m (pkt + 8) epoch_time.
Definition pcp_resp_zero_reserved2 (m : mem) (pkt : Z) : outcome mem :=
  memset m (pkt + 12) 0 (96 / 8).
Definition pcp_mapreq_nonce (pkt : Z) : Z := pkt + 24.
Definition pcp_mapreq_protocol (m : mem) (pkt : Z) : outcome Z := load8 m (pkt + 36).
Definition pcp_mapreq_int_port (m : mem) (pkt : Z) : outcome Z := hdr_get16n m (pkt + 40).
Definition pcp_mapreq_sugg_ext_port (m : mem) (pkt : Z) : outcome Z :=
  hdr_get16n m (pkt + 42).
Definition pcp_mapreq_sugg_ext_ip (pkt : Z) : Z := pkt + 44.
Definition pcp_mapreq_options (pkt : Z) : Z := pkt + 60.
Definition pcp_mapresp_set_nonce (m : mem) (pkt nonce : Z) : outcome mem :=
  memcpy m (pkt + 24) nonce (96 / 8).
Definition pcp_mapresp_set_protocol (m : mem) (pkt proto : Z) : outcome mem :=
  store8 m (pkt + 36) proto.
Definition pcp_mapresp_zero_reserved (m : mem) (pkt : Z) : outcome mem :=
  m ← store8 m (pkt + 37) 0; hdr_set16n m (pkt + 38) 0.
Definition pcp_mapresp_set_int_port (m : mem) (pkt int_port : Z) : outcome mem :=
  hdr_set16n m (pkt + 40) int_port.
Definition pcp_mapresp_set_ext_port (m : mem) (pkt ext_port : Z) : outcome mem :=
  hdr_set16n m (pkt + 42) ext_port.
Definition pcp_mapresp_set_ext_ipv4 (m : mem) (pkt ext_ipv4 : Z) : outcome mem :=
  m ← memset m (pkt + 44) 0 10;
  m ← memset m (pkt + 54) 255 2;
  hdr_set32n m (pkt + 56) ext_ipv4.
Definition pcp_option_code (m : mem) (pkt : Z) : outcome Z := load8 m pkt.
Definition pcp_option_paylength (m : mem) (pkt : Z) : outcome Z := hdr_get16n m (pkt + 2).

(** ** ICMP *)

Definition icmp_type (m : mem) (pkt : Z) : outcome Z := load8 m pkt.
Definition icmp_code (m : mem) (pkt : Z) : outcome Z := load8 m (pkt + 1).
Definition icmp_checksum (m : mem) (pkt : Z) : outcome Z := hdr_get16n m (pkt + 2).
Definition icmp_header_data (m : mem) (pkt : Z) : outcome Z := hdr_get32n m (pkt + 4).
Definition icmp_echo_identifier (m : mem) (pkt : Z) : outcome Z := hdr_get16n m (pkt + 4).
Definition icmp_set_type (m : mem) (pkt type : Z) : outcome mem := store8 m pkt type.
Definition icmp_set_code (m : mem) (pkt code : Z) : outcome mem := store8 m (pkt + 1) code.
Definition icmp_set_checksum (m : mem) (pkt checksum : Z) : outcome mem :=
  hdr_set16n m (pkt + 2) checksum.
Definition icmp_set_header_data (m : mem) (pkt header_data : Z) : outcome mem :=
  hdr_set32n m (pkt + 4) header_data.
Definition icmp_set_echo_identifier (m : mem) (pkt echo_identifier : Z) : outcome mem :=
  hdr_set16n m (pkt + 4) echo_identifier.
Definition icmp_payload (pkt : Z) : Z := pkt + 8.
Definition icmp_const_payload (pkt : Z) : Z := pkt + 8.

(** ** ARP *)

Definition arp_is_valid_reqresp (m : mem) (pkt : Z) : outcome bool :=
  htype ← hdr_get16n m pkt;
  if negb (htype =? 1) then Ret false else
  ptype ← hdr_get16n m (pkt + 2);
  if negb (ptype =? 0x0800) then Ret false else
  hlen ← load8 m (pkt + 4);
  if negb (hlen =? 6) then Ret false else
  plen ← load8 m (pkt + 5);
  if negb (plen =? 4) then Ret false else
  oper ← hdr_get16n m (pkt + 6);
  if negb (oper =? 1) && negb (oper =? 2) then Ret false else
  Ret true.
Definition arp_is_req (m : mem) (pkt : Z) : outcome bool :=
  oper ← hdr_get16n m (pkt + 6); Ret (oper =? 1).
Definition arp_is_resp (m : mem) (pkt : Z) : outcome bool :=
  oper ← hdr_get16n m (pkt + 6); Ret (oper =? 2).
Definition arp_sha (pkt : Z) : Z := pkt + 8.
Definition arp_tha (pkt : Z) : Z := pkt + 18.
Definition arp_const_sha (pkt : Z) : Z := pkt + 8.
Definition arp_const_tha (pkt : Z) : Z := pkt + 18.
Definition arp_spa (m : mem) (pkt : Z) : outcome Z := hdr_get32n m (pkt + 14).
Definition arp_tpa (m : mem) (pkt : Z) : outcome Z := hdr_get32n m (pkt + 24).
Definition arp_set_spa (m : mem) (pkt addr : Z) : outcome mem := hdr_set32n m (pkt + 14) addr.
Definition arp_set_ether (m : mem) (pkt : Z) : outcome mem :=
  m ← hdr_set16n m pkt 1;
  m ← hdr_set16n m (pkt + 2) 0x0800;
  m ← store8 m (pkt + 4) 6;
  store8 m (pkt + 5) 4.
Definition arp_set_req (m : mem) (pkt : Z) : outcome mem := hdr_set16n m (pkt + 6) 1.
Definition arp_set_resp (m : mem) (pkt : Z) : outcome mem := hdr_set16n m (pkt + 6) 2.
Definition arp_set_tpa (m : mem) (pkt addr : Z) : outcome mem := hdr_set32n m (pkt + 24) addr.

(** ** Ethernet *)

Definition ETHER_HDR_LEN : Z := 14.
Definition ETHER_TYPE_IP : Z := 0x0800.
Definition ETHER_TYPE_ARP : Z := 0x0806.
Definition ETHER_TYPE_IPV6 : Z := 0x86DD.
Definition IP_HDR_MINLEN : Z := 20.

Definition ether_dst (pkt : Z) : Z := pkt.
Definition ether_src (pkt : Z) : Z := pkt + 6.
Definition ether_const_dst (pkt : Z) : Z := pkt.
Definition ether_const_src (pkt : Z) : Z := pkt + 6.
Definition ether_type (m : mem) (pkt : Z) : outcome Z := hdr_get16n m (pkt + 12).
Definition ether_set_type (m : mem) (pkt type : Z) : outcome mem := hdr_set16n m (pkt + 12) type.
Definition ether_payload (pkt : Z) : Z := pkt + 14.
Definition ether_const_payload (pkt : Z) : Z := pkt + 14.

(** ** IPv6 and version-independent accessors *)

Definition ip_version (m : mem) (pkt : Z) : outcome Z :=
  b ← hdr_get8h m pkt; Ret (Z.land (Z.shiftr b 4) 0xF).

Definition ipv6_traffic_class (m : mem) (pkt : Z) : outcome Z :=
  b0 ← hdr_get8h m pkt;
  b1 ← hdr_get8h m (pkt + 1);
  Ret (Z.lor (Z.land b0 0xF) (Z.land (Z.shiftr b1 4) 0xF)).

Definition ipv6_set_traffic_class (m : mem) (pkt cls : Z) : outcome mem :=
  ch ← hdr_get8h m pkt;
  m ← hdr_set8h m pkt (Z.lor (Z.land ch 0xF0) (Z.shiftr cls 4));
  ch ← hdr_get8h m (pkt + 1);
  hdr_set8h m (pkt + 1) (Z.lor (Z.land ch 0x0F) (Z.shiftl (Z.land cls 0xF) 4)).

Definition ipv6_set_flow_label (m : mem) (pkt fl : Z) : outcome mem :=
  ch ← hdr_get8h m (pkt + 1);
  m ← hdr_set8h m (pkt + 1) (Z.lor (Z.land ch 0xF0) (Z.land (Z.shiftr fl 16) 0xF));
  hdr_set16n m (pkt + 2) (Z.land fl 0xFFFF).

(** [if (ip_version(pkt) == 4) ... else if (== 6) ... else abort()] *)
Definition ip46_case {A} (m : mem) (pkt : Z) (v4 v6 : outcome A) : outcome A :=
  v ← ip_version m pkt;
  if v =? 4 then v4 else if v =? 6 then v6 else Abort.

Definition ip46_set_flow_label (m : mem) (pkt fl : Z) : outcome mem :=
  ip46_case m pkt (if negb (fl =? 0) then Abort else Ret m) (ipv6_set_flow_label m pkt fl).

Definition ipv6_set_payload_len (m : mem) (pkt paylen : Z) : outcome mem :=
  hdr_set16n m (pkt + 4) paylen.
Definition ipv6_set_nexthdr (m : mem) (pkt nexthdr : Z) : outcome mem :=
  hdr_set8h m (pkt + 6) nexthdr.
Definition ipv6_set_hop_limit (m : mem) (pkt hl : Z) : outcome mem :=
  hdr_set8h m (pkt + 7) hl.

Definition ipv6_flow_label (m : mem) (pkt : Z) : outcome Z :=
  b1 ← hdr_get8h m (pkt + 1);
  w2 ← hdr_get16n m (pkt + 2);
  Ret (Z.lor (Z.shiftl (Z.land b1 0xF) 16) w2).

Definition ip46_flow_label (m : mem) (pkt : Z) : outcome Z :=
  ip46_case m pkt (Ret 0) (ipv6_flow_label m pkt).

Definition ipv6_payload_len (m : mem) (pkt : Z) : outcome Z := hdr_get16n m (pkt + 4).
Definition ipv6_nexthdr (m : mem) (pkt : Z) : outcome Z := hdr_get8h m (pkt + 6).
Definition ipv6_nexthdr_ptr (pkt : Z) : Z := pkt + 40.
Definition ipv6_nexthdr_const_ptr (pkt : Z) : Z := pkt + 40.
Definition ipv6_hop_limit (m : mem) (pkt : Z) : outcome Z := hdr_get8h m (pkt + 7).
Definition ipv6_src (pkt : Z) : Z := pkt + 8.
Definition ipv6_dst (pkt : Z) : Z := pkt + (8 + 16).
Definition ipv6_const_src (pkt : Z) : Z := pkt + 8.
Definition ipv6_const_dst (pkt : Z) : Z := pkt + (8 + 16).
Definition ip_src_ptr (pkt : Z) : Z := pkt + 12.
Definition ip_dst_ptr (pkt : Z) : Z := pkt + 16.

Definition ip46_src (m : mem) (pkt : Z) : outcome Z :=
  ip46_case m pkt (Ret (ip_src_ptr pkt)) (Ret (ipv6_src pkt)).
Definition ip46_set_src (m : mem) (pkt addr : Z) : outcome mem :=
  ip46_case m pkt (memcpy m (ip_src_ptr pkt) addr 4) (memcpy m (ipv6_src pkt) addr 16).
Definition ip46_dst (m : mem) (pkt : Z) : outcome Z :=
  ip46_case m pkt (Ret (ip_dst_ptr pkt)) (Ret (ipv6_dst pkt)).
Definition ip46_set_dst (m : mem) (pkt addr : Z) : outcome mem :=
  ip46_case m pkt (memcpy m (ip_dst_ptr pkt) addr 4) (memcpy m (ipv6_dst pkt) addr 16).
Definition ip_const_src_ptr (pkt : Z) : Z := pkt + 12.
Definition ip_const_dst_ptr (pkt : Z) : Z := pkt + 16.
Definition ip46_const_src (m : mem) (pkt : Z) : outcome Z :=
  ip46_case m pkt (Ret (ip_const_src_ptr pkt)) (Ret (ipv6_const_src pkt)).
Definition ip46_const_dst (m : mem) (pkt : Z) : outcome Z :=
  ip46_case m pkt (Ret (ip_const_dst_ptr pkt)) (Ret (ipv6_const_dst pkt)).

(** *** Extension header chain *)

Definition ipv6_extlen (nexthdr lenfield : Z) : Z :=
  if nexthdr =? 44 then 8
  else if nexthdr =? 51 then lenfield * 4 + 8
  else lenfield * 8 + 8.

Definition is_ipv6_nexthdr (nexthdr : Z) : bool :=
  (nexthdr =? 0) || (nexthdr =? 60) || (nexthdr =? 43) || (nexthdr =? 44) || (nexthdr =? 51).

Definition ipv6_frag_off (m : mem) (frag : Z) : outcome Z :=
  w ← hdr_get16n m (frag + 2); Ret (Z.land w 0xFFF8).
Definition ipv6_more_frags (m : mem) (frag : Z) : outcome Z :=
  w ← hdr_get16n m (frag + 2); Ret (b2z (negb (Z.land w 1 =? 0))).

(** What the caller gets: the address of the upper-layer header and the
    values stored through the output pointers; the two offsets are written
    only for a fragmented packet. *)
Record proto_hdr := {
  ph_ptr : Z;
  ph_proto : Z;
  ph_is_fragmented : bool;
  ph_frag : option (Z * Z)
}.

(** Loop state: [off], [nexthdr], [is_fragmented], [frag_hdr_off]. *)
Definition ipv6_ext_state : Type := Z * Z * bool * Z.

Definition ipv6_ext_done (ipv6 : Z) (s : ipv6_ext_state) : option proto_hdr :=
  let '(off, nexthdr, is_fragmented, frag_hdr_off) := s in
  Some {| ph_ptr := ipv6 + off; ph_proto := nexthdr;
          ph_is_fragmented := is_fragmented;
          ph_frag := if is_fragmented then Some (frag_hdr_off, u16 (off - frag_hdr_off))
                     else None |}.

(** One pass of [while (is_ipv6_nexthdr(nexthdr))]. *)
Definition ipv6_ext_step (m : mem) (ipv6 tlen : Z) (s : ipv6_ext_state)
    : outcome (ipv6_ext_state + option proto_hdr) :=
  let '(off, nexthdr, is_fragmented, frag_hdr_off) := s in
  if negb (is_ipv6_nexthdr nexthdr) then Ret (inr (ipv6_ext_done ipv6 s)) else
  if off + 8 >? tlen then Ret (inr None) else
  let is_frag := nexthdr =? 44 in
  let is_fragmented := is_fragmented || is_frag in
  let frag_hdr_off := if is_frag then off else frag_hdr_off in
  fo ← (if is_frag then ipv6_frag_off m (ipv6 + off) else Ret 0);
  if fo >? 0 then
    Ret (inr (ipv6_ext_done ipv6 (off, nexthdr, is_fragmented, frag_hdr_off))) else
  nexthdr ← load8 m (ipv6 + off);
  lenfield ← load8 m (ipv6 + (off + 1));
  let extlen := ipv6_extlen nexthdr lenfield in
  if off + extlen >? tlen then Ret (inr None) else
  Ret (inl (u16 (off + extlen), nexthdr, is_fragmented, frag_hdr_off)).

(** Every pass moves [off] forward by at least 8 below 2^16, so 8192 passes
    are enough whenever the total length fits 16 bits. *)
Definition ipv6_ext_fuel : nat := Z.to_nat 8192.

Definition ipv6_proto_hdr_2 (m : mem) (ipv6 : Z) : outcome (option proto_hdr) :=
  plen ← ipv6_payload_len m ipv6;
  let tlen := plen + 40 in
  nexthdr ← ipv6_nexthdr m ipv6;
  iter ipv6_ext_fuel (ipv6_ext_step m ipv6 tlen) (40, nexthdr, false, 0).
Definition ipv6_proto_hdr (m : mem) (ipv6 : Z) : outcome (option (Z * Z)) :=
  r ← ipv6_proto_hdr_2 m ipv6;
  Ret (match r with Some h => Some (ph_ptr h, ph_proto h) | None => None end).
Definition ipv6_const_proto_hdr_2 (m : mem) (ipv6 : Z) : outcome (option proto_hdr) :=
  plen ← ipv6_payload_len m ipv6;
  let tlen := plen + 40 in
  nexthdr ← ipv6_nexthdr m ipv6;
  iter ipv6_ext_fuel (ipv6_ext_step m ipv6 tlen) (40, nexthdr, false, 0).
Definition ipv6_const_proto_hdr (m : mem) (ipv6 : Z) : outcome (option (Z * Z)) :=
  r ← ipv6_const_proto_hdr_2 m ipv6;
  Ret (match r with Some h => Some (ph_ptr h, ph_proto h) | None => None end).

(** ** IPv4 *)

Definition ip_set_version (m : mem) (pkt version : Z) : outcome mem :=
  uch ← load8 m pkt;
  let uch := Z.land uch (Z.lnot 0xF0) in
  let uch := Z.lor uch (Z.shiftl (Z.land version 0xF) 4) in
  store8 m pkt uch.

Definition ip_hdr_len (m : mem) (pkt : Z) : outcome Z :=
  b ← hdr_get8h m pkt; Ret (u8 (Z.land b 0xF * 4)).

Definition ip46_hdr_len (m : mem) (pkt : Z) : outcome Z :=
  ip46_case m pkt (ip_hdr_len m pkt) (Ret 40).

Definition ip_set_hdr_len (m : mem) (pkt hdr_len : Z) : outcome mem :=
  uch ← load8 m pkt;
  if negb (hdr_len mod 4 =? 0) then Abort else
  let hdr_len := hdr_len / 4 in
  let uch := Z.land uch (Z.lnot 0xF) in
  let uch := Z.lor uch (Z.land hdr_len 0xF) in
  store8 m pkt uch.

Definition ip46_set_hdr_len (m : mem) (pkt hdr_len : Z) : outcome mem :=
  ip46_case m pkt (ip_set_hdr_len m pkt hdr_len)
    (if negb (hdr_len =? 40) then Abort else Ret m).
Definition ip46_set_min_hdr_len (m : mem) (pkt : Z) : outcome mem :=
  ip46_case m pkt (ip_set_hdr_len m pkt 20) (Ret m).

Definition ip_total_len (m : mem) (pkt : Z) : outcome Z := hdr_get16n m (pkt + 2).
Definition ip_set_total_len (m : mem) (pkt total_len : Z) : outcome mem :=
  hdr_set16n m (pkt + 2) total_len.
Definition ip46_set_total_len (m : mem) (pkt total_len : Z) : outcome mem :=
  ip46_case m pkt (ip_set_total_len m pkt total_len)
    (if total_len <? 40 then Abort else ipv6_set_payload_len m pkt (total_len - 40)).
Definition ip46_set_payload_len (m : mem) (pkt payload_len : Z) : outcome mem :=
  ip46_case m pkt (ip_set_total_len m pkt (u16 (payload_len + 20)))
    (ipv6_set_payload_len m pkt payload_len).
Definition ip46_total_len (m : mem) (pkt : Z) : outcome Z :=
  ip46_case m pkt (ip_total_len m pkt) (l ← ipv6_payload_len m pkt; Ret (u16 (l + 40))).
Definition ip46_payload_len (m : mem) (pkt : Z) : outcome Z :=
  ip46_case m pkt
    (t ← ip_total_len m pkt; h ← ip_hdr_len m pkt; Ret (u16 (t - h)))
    (ipv6_payload_len m pkt).

(** The flag bits of byte 6: reserved (7), don't fragment (6), more
    fragments (5). *)
Definition ip_more_frags (m : mem) (pkt : Z) : outcome Z :=
  b ← hdr_get8h m (pkt + 6); Ret (Z.land b (Z.shiftl 1 5)).
Definition ip_set_more_frags (m : mem) (pkt bit : Z) : outcome mem :=
  let bit := b2z (negb (bit =? 0)) in
  b ← hdr_get8h m (pkt + 6);
  let b := Z.land b (Z.lnot (Z.shiftl 1 5)) in
  let b := Z.lor b (Z.shiftl bit 5) in
  hdr_set8h m (pkt + 6) b.
Definition ip_dont_frag (m : mem) (pkt : Z) : outcome Z :=
  b ← hdr_get8h m (pkt + 6); Ret (Z.land b (Z.shiftl 1 6)).
Definition ip_set_dont_frag (m : mem) (pkt bit : Z) : outcome mem :=
  let bit := b2z (negb (bit =? 0)) in
  b ← hdr_get8h m (pkt + 6);
  let b := Z.land b (Z.lnot (Z.shiftl 1 6)) in
  let b := Z.lor b (Z.shiftl bit 6) in
  hdr_set8h m (pkt + 6) b.
Definition ip46_set_dont_frag (m : mem) (pkt bit : Z) : outcome mem :=
  ip46_case m pkt (ip_set_dont_frag m pkt bit) (if bit =? 0 then Abort else Ret m).
Definition ip_rsvd_bit (m : mem) (pkt : Z) : outcome Z :=
  b ← hdr_get8h m (pkt + 6); Ret (Z.land b (Z.shiftl 1 7)).
Definition ip_set_rsvd_bit (m : mem) (pkt bit : Z) : outcome mem :=
  let bit := b2z (negb (bit =? 0)) in
  b ← hdr_get8h m (pkt + 6);
  let b := Z.land b (Z.lnot (Z.shiftl 1 7)) in
  let b := Z.lor b (Z.shiftl bit 7) in
  hdr_set8h m (pkt + 6) b.

Definition ip_id (m : mem) (pkt : Z) : outcome Z := hdr_get16n m (pkt + 4).
Definition ip_set_id (m : mem) (pkt id : Z) : outcome mem := hdr_set16n m (pkt + 4) id.
Definition ip46_set_id (m : mem) (pkt ipid : Z) : outcome mem :=
  ip46_case m pkt (ip_set_id m pkt ipid) (if negb (ipid =? 0) then Abort else Ret m).

Definition ip_frag_off (m : mem) (pkt : Z) : outcome Z :=
  w ← hdr_get16n m (pkt + 6); Ret (u16 (Z.land w 0x1FFF * 8)).
Definition ip_set_frag_off (m : mem) (pkt frag_off : Z) : outcome mem :=
  if negb (frag_off mod 8 =? 0) then Abort else
  let frag_off := frag_off / 8 in
  c6 ← load8 m (pkt + 6);
  let c6 := Z.land c6 (Z.lnot 0x1F) in
  let c6 := Z.lor c6 (Z.land (Z.shiftr frag_off 8) 0x1F) in
  m ← store8 m (pkt + 6) c6;
  store8 m (pkt + 7) (Z.land frag_off 0xFF).

Definition ip_ttl (m : mem) (pkt : Z) : outcome Z := hdr_get8h m (pkt + 8).
Definition ip_set_ttl (m : mem) (pkt ttl : Z) : outcome mem := hdr_set8h m (pkt + 8) ttl.
Definition ip_decr_ttl (m : mem) (pkt : Z) : outcome (bool * mem) :=
  ttl ← ip_ttl m pkt;
  if ttl =? 0 then Abort else
  let ttl := ttl - 1 in
  m ← ip_set_ttl m pkt ttl;
  Ret (ttl >? 0, m).
Definition ip_proto (m : mem) (pkt : Z) : outcome Z := hdr_get8h m (pkt + 9).
Definition ip46_proto (m : mem) (pkt : Z) : outcome Z :=
  ip46_case m pkt (ip_proto m pkt) (ipv6_nexthdr m pkt).
Definition ip_set_proto (m : mem) (pkt proto : Z) : outcome mem := hdr_set8h m (pkt + 9) proto.
Definition ip46_set_proto (m : mem) (pkt proto : Z) : outcome mem :=
  ip46_case m pkt (ip_set_proto m pkt proto) (ipv6_set_nexthdr m pkt proto).
Definition ip46_ttl (m : mem) (pkt : Z) : outcome Z :=
  ip46_case m pkt (ip_ttl m pkt) (ipv6_hop_limit m pkt).
Definition ip46_set_ttl (m : mem) (pkt ttl : Z) : outcome mem :=
  ip46_case m pkt (ip_set_ttl m pkt ttl) (ipv6_set_hop_limit m pkt ttl).
Definition ip_hdr_cksum (m : mem) (pkt : Z) : outcome Z := hdr_get16n m (pkt + 10).
Definition ip_set_hdr_cksum (m : mem) (pkt hdr_cksum : Z) : outcome mem :=
  hdr_set16n m (pkt + 10) hdr_cksum.
Definition ip_src (m : mem) (pkt : Z) : outcome Z := hdr_get32n m (pkt + 12).
Definition ip_dst (m : mem) (pkt : Z) : outcome Z := hdr_get32n m (pkt + 16).
Definition ip_set_src (m : mem) (pkt src : Z) : outcome mem := hdr_set32n m (pkt + 12) src.
Definition ip_set_dst (m : mem) (pkt dst : Z) : outcome mem := hdr_set32n m (pkt + 16) dst.
Definition ip_payload (m : mem) (pkt : Z) : outcome Z :=
  l ← ip_hdr_len m pkt; Ret (pkt + l).
Definition ip46_payload (m : mem) (pkt : Z) : outcome Z :=
  l ← ip46_hdr_len m pkt; Ret (pkt + l).
Definition ip_const_payload (m : mem) (pkt : Z) : outcome Z :=
  l ← ip_hdr_len m pkt; Ret (pkt + l).
Definition ip46_const_payload (m : mem) (pkt : Z) : outcome Z :=
  l ← ip46_hdr_len m pkt; Ret (pkt + l).

(** ** TCP and UDP *)

Definition tcp_src_port (m : mem) (pkt : Z) : outcome Z := hdr_get16n m pkt.
Definition tcp_dst_port (m : mem) (pkt : Z) : outcome Z := hdr_get16n m (pkt + 2).
Definition tcp_set_src_port (m : mem) (pkt src_port : Z) : outcome mem :=
  hdr_set16n m pkt src_port.
Definition tcp_set_dst_port (m : mem) (pkt dst_port : Z) : outcome mem :=
  hdr_set16n m (pkt + 2) dst_port.

(** Flags of byte 13: [tcp_flag] is [!!(byte & (1<<n))]. *)
Definition tcp_flag (m : mem) (pkt n : Z) : outcome Z :=
  b ← hdr_get8h m (pkt + 13); Ret (b2z (negb (Z.land b (Z.shiftl 1 n) =? 0))).
Definition tcp_set_flag_on (m : mem) (pkt n : Z) : outcome mem :=
  b ← hdr_get8h m (pkt + 13); hdr_set8h m (pkt + 13) (Z.lor b (Z.shiftl 1 n)).
Definition tcp_ack (m : mem) (pkt : Z) : outcome Z := tcp_flag m pkt 4.
Definition tcp_set_ack_on (m : mem) (pkt : Z) : outcome mem := tcp_set_flag_on m pkt 4.
Definition tcp_set_ack_off (m : mem) (pkt : Z) : outcome mem :=
  b ← hdr_get8h m (pkt + 13);
  hdr_set8h m (pkt + 13) (Z.land b (Z.lnot (Z.shiftl 1 4))).
Definition tcp_rst (m : mem) (pkt : Z) : outcome Z := tcp_flag m pkt 2.
Definition tcp_set_rst_on (m : mem) (pkt : Z) : outcome mem := tcp_set_flag_on m pkt 2.
Definition tcp_syn (m : mem) (pkt : Z) : outcome Z := tcp_flag m pkt 1.
Definition tcp_set_syn_on (m : mem) (pkt : Z) : outcome mem := tcp_set_flag_on m pkt 1.
Definition tcp_fin (m : mem) (pkt : Z) : outcome Z := tcp_flag m pkt 0.
Definition tcp_set_fin_on (m : mem) (pkt : Z) : outcome mem := tcp_set_flag_on m pkt 0.
Definition tcp_cksum (m : mem) (pkt : Z) : outcome Z := hdr_get16n m (pkt + 16).
Definition tcp_set_cksum (m : mem) (pkt checksum : Z) : outcome mem :=
  hdr_set16n m (pkt + 16) checksum.
Definition udp_src_port (m : mem) (pkt : Z) : outcome Z := hdr_get16n m pkt.
Definition udp_dst_port (m : mem) (pkt : Z) : outcome Z := hdr_get16n m (pkt + 2).
Definition udp_set_src_port (m : mem) (pkt src_port : Z) : outcome mem :=
  hdr_set16n m pkt src_port.
Definition udp_set_dst_port (m : mem) (pkt dst_port : Z) : outcome mem :=
  hdr_set16n m (pkt + 2) dst_port.
Definition udp_total_len (m : mem) (pkt : Z) : outcome Z := hdr_get16n m (pkt + 4).
Definition udp_set_total_len (m : mem) (pkt total_len : Z) : outcome mem :=
  hdr_set16n m (pkt + 4) total_len.
Definition udp_cksum (m : mem) (pkt : Z) : outcome Z := hdr_get16n m (pkt + 6).
Definition udp_set_cksum (m : mem) (pkt cksum : Z) : outcome mem :=
  hdr_set16n m (pkt + 6) cksum.
Definition tcp_seq_number (m : mem) (pkt : Z) : outcome Z := hdr_get32n m (pkt + 4).
Definition tcp_ack_number (m : mem) (pkt : Z) : outcome Z := hdr_get32n m (pkt + 8).
Definition tcp_set_seq_number (m : mem) (pkt seq_number : Z) : outcome mem :=
  hdr_set32n m (pkt + 4) seq_number.
Definition tcp_set_ack_number (m : mem) (pkt ack_number : Z) : outcome mem :=
  hdr_set32n m (pkt + 8) ack_number.
Definition tcp_window (m : mem) (pkt : Z) : outcome Z := hdr_get16n m (pkt + 14).
Definition tcp_set_window (m : mem) (pkt window : Z) : outcome mem :=
  hdr_set16n m (pkt + 14) window.
Definition tcp_set_data_offset (m : mem) (pkt data_off : Z) : outcome mem :=
  if negb (data_off mod 4 =? 0) || (data_off >? 60) then Abort else
  val ← hdr_get8h m (pkt + 12);
  let val := Z.land val (Z.lnot 0xF0) in
  let val := Z.lor val (Z.shiftl (data_off / 4) 4) in
  hdr_set8h m (pkt + 12) val.
Definition tcp_data_offset (m : mem) (pkt : Z) : outcome Z :=
  b ← hdr_get8h m (pkt + 12); Ret (u8 (Z.shiftr b 4 * 4)).

Record sack_ts_headers := { sackoff : Z; sacklen : Z; tsoff : Z }.

Definition tcp_tsval (m : mem) (pkt : Z) (hdrs : sack_ts_headers) : outcome Z :=
  if tsoff hdrs <? 20 then Abort else hdr_get32n m (pkt + (tsoff hdrs + 2)).
Definition tcp_tsecho (m : mem) (pkt : Z) (hdrs : sack_ts_headers) : outcome Z :=
  if tsoff hdrs <? 20 then Abort else hdr_get32n m (pkt + (tsoff hdrs + 6)).

Record tcp_information := {
  options_valid : Z;
  wscale : Z;
  mss : Z;
  sack_permitted : Z;
  mssoff : Z;
  ts_present : Z;
  ts : Z;
  tsecho : Z
}.

End accessors.

(** ** The bit fields as arithmetic *)

(** The byte at [q] of a well-formed block, as a variable of the goal. *)
Ltac gen_byte ok q b :=
  match type of ok with
  | bytes_ok ?m =>
      let Hb := fresh "Hb" in
      pose proof (rd_range m q ok) as Hb; generalize dependent (rd m q); intros b Hb
  end.
Ltac gen_below e c n :=
  let Hc := fresh "Hc" in
  assert (0 <= e < n) as Hc by lia; generalize dependent e; intros c Hc.

Section bit_fields.
Context `{Host}.
Context (m : mem) (p : Z).
Hypothesis m_ok : bytes_ok m.

Lemma ip_version_ok : valid m p 1 -> ip_version m p = Ret (rd m p / 16).
Proof.
  intros Hv. unfold ip_version. hdr_run. f_equal. gen_byte m_ok p b. byte_brute b.
Qed.

Lemma ip_hdr_len_ok : valid m p 1 -> ip_hdr_len m p = Ret (rd m p mod 16 * 4).
Proof.
  intros Hv. unfold ip_hdr_len. hdr_run. f_equal. gen_byte m_ok p b. byte_brute b.
Qed.

Lemma ip_set_version_ok v :
  valid m p 1 -> 0 <= v < 16 ->
  ip_set_version m p v = Ret (wr8 m p (v * 16 + rd m p mod 16)).
Proof.
  intros Hv Hr. unfold ip_set_version. hdr_run. f_equal. unfold wr8. f_equal.
  gen_byte m_ok p b.
  byte_brute2 b v 16.
Qed.

Lemma ip_set_hdr_len_ok v :
  valid m p 1 -> 0 <= v < 64 -> v mod 4 = 0 ->
  ip_set_hdr_len m p v = Ret (wr8 m p (rd m p / 16 * 16 + v / 4)).
Proof.
  intros Hv Hr H4. unfold ip_set_hdr_len. hdr_run. rewrite H4. cbn. hdr_run.
  f_equal. unfold wr8. f_equal. gen_byte m_ok p b. gen_below (v / 4) c 16. byte_brute2 b c 16.
Qed.

(** Byte 6 is [r·128 + d·64 + f·32 + (offset high bits)]. *)
Lemma ip_rsvd_bit_ok : valid m (p + 6) 1 -> ip_rsvd_bit m p = Ret (rd m (p + 6) / 128 * 128).
Proof.
  intros Hv. unfold ip_rsvd_bit. hdr_run. f_equal. gen_byte m_ok (p + 6) b. byte_brute b.
Qed.

Lemma ip_dont_frag_ok :
  valid m (p + 6) 1 -> ip_dont_frag m p = Ret (rd m (p + 6) / 64 mod 2 * 64).
Proof.
  intros Hv. unfold ip_dont_frag. hdr_run. f_equal. gen_byte m_ok (p + 6) b. byte_brute b.
Qed.

Lemma ip_more_frags_ok :
  valid m (p + 6) 1 -> ip_more_frags m p = Ret (rd m (p + 6) / 32 mod 2 * 32).
Proof.
  intros Hv. unfold ip_more_frags. hdr_run. f_equal. gen_byte m_ok (p + 6) b. byte_brute b.
Qed.

Definition set_bit6 (b k v : Z) : Z := b - b / 2 ^ k mod 2 * 2 ^ k + b2z (negb (v =? 0)) * 2 ^ k.

Lemma ip_set_more_frags_ok v :
  valid m (p + 6) 1 ->
  ip_set_more_frags m p v = Ret (wr8 m (p + 6) (set_bit6 (rd m (p + 6)) 5 v)).
Proof.
  intros Hv. unfold ip_set_more_frags, set_bit6. hdr_run. f_equal. unfold wr8. f_equal.
  gen_byte m_ok (p + 6) b. destruct (negb (v =? 0)); byte_brute b.
Qed.

Lemma ip_set_dont_frag_ok v :
  valid m (p + 6) 1 ->
  ip_set_dont_frag m p v = Ret (wr8 m (p + 6) (set_bit6 (rd m (p + 6)) 6 v)).
Proof.
  intros Hv. unfold ip_set_dont_frag, set_bit6. hdr_run. f_equal. unfold wr8. f_equal.
  gen_byte m_ok (p + 6) b. destruct (negb (v =? 0)); byte_brute b.
Qed.

Lemma ip_set_rsvd_bit_ok v :
  valid m (p + 6) 1 ->
  ip_set_rsvd_bit m p v = Ret (wr8 m (p + 6) (set_bit6 (rd m (p + 6)) 7 v)).
Proof.
  intros Hv. unfold ip_set_rsvd_bit, set_bit6. hdr_run. f_equal. unfold wr8. f_equal.
  gen_byte m_ok (p + 6) b. destruct (negb (v =? 0)); byte_brute b.
Qed.

Lemma ip_frag_off_ok :
  valid m (p + 6) 2 ->
  ip_frag_off m p = Ret ((rd m (p + 6) mod 32 * 256 + rd m (p + 7)) * 8).
Proof.
  intros Hv. unfold ip_frag_off. hdr_run. f_equal. unfold be16.
  replace (p + 6 + 1) with (p + 7) by lia.
  pose proof (rd_range m (p + 6) m_ok). pose proof (rd_range m (p + 7) m_ok).
  change 0x1FFF with (Z.ones 13). rewrite Z.land_ones by lia.
  change (2 ^ 13) with 8192. unfold u16. lia.
Qed.

Lemma ip_set_frag_off_ok v :
  valid m (p + 6) 2 -> 0 <= v < 65536 -> v mod 8 = 0 ->
  ip_set_frag_off m p v =
    Ret (wr8 (wr8 m (p + 6) (rd m (p + 6) / 32 * 32 + v / 2048)) (p + 7) (v / 8)).
Proof.
  intros Hv Hr H8. unfold ip_set_frag_off. rewrite H8. cbn. hdr_run.
  f_equal. unfold wr8. f_equal; [|f_equal].
  - rewrite land_255. lia.
  - rewrite shiftr_div by lia. change (2 ^ 8) with 256. rewrite Z.div_div by lia.
    change (8 * 256) with 2048. gen_byte m_ok (p + 6) b. gen_below (v / 2048) c 32. byte_brute2 b c 32.
Qed.

Lemma tcp_data_offset_ok :
  valid m (p + 12) 1 -> tcp_data_offset m p = Ret (rd m (p + 12) / 16 * 4).
Proof.
  intros Hv. unfold tcp_data_offset. hdr_run. f_equal. gen_byte m_ok (p + 12) b. byte_brute b.
Qed.

Lemma tcp_set_data_offset_ok v :
  valid m (p + 12) 1 -> 0 <= v <= 60 -> v mod 4 = 0 ->
  tcp_set_data_offset m p v = Ret (wr8 m (p + 12) (v / 4 * 16 + rd m (p + 12) mod 16)).
Proof.
  intros Hv Hr H4. unfold tcp_set_data_offset. rewrite H4. cbn.
  destruct (Z.gtb_spec v 60); [lia|]. hdr_run. f_equal. unfold wr8. f_equal.
  gen_byte m_ok (p + 12) b.
  gen_below (v / 4) c 16.
  byte_brute2 b c 16.
Qed.
End bit_fields.

#[export] Hint Rewrite @ip_version_ok @ip_hdr_len_ok @ip_rsvd_bit_ok @ip_dont_frag_ok
  @ip_more_frags_ok @ip_frag_off_ok @tcp_data_offset_ok
  using (first [solve_valid | auto with mem]) : hdr.
#[export] Hint Rewrite @ip_set_version_ok @ip_set_hdr_len_ok @ip_set_more_frags_ok
  @ip_set_dont_frag_ok @ip_set_rsvd_bit_ok @ip_set_frag_off_ok @tcp_set_data_offset_ok
  using (first [solve_valid | lia | auto with mem]) : hdr.

(** ** The IPv4 header as a record

    [ipv4_view] runs the getters; [ipv4_set] is the setter of a field and
    [ipv4_upd] what it must do to the record. *)
Record ipv4_hdr := {
  v4_version : Z; v4_hdr_len : Z; v4_total_len : Z; v4_id : Z;
  v4_rsvd : bool; v4_df : bool; v4_mf : bool; v4_frag_off : Z;
  v4_ttl : Z; v4_proto : Z; v4_cksum : Z; v4_src : Z; v4_dst : Z
}.

Inductive ipv4_field :=
  | F_version | F_hdr_len | F_total_len | F_id | F_rsvd | F_df | F_mf
  | F_frag_off | F_ttl | F_proto | F_cksum | F_src | F_dst.

Section ipv4_record.
Context `{Host}.

Definition ipv4_view (m : mem) (p : Z) : outcome ipv4_hdr :=
  version ← ip_version m p;
  hdr_len ← ip_hdr_len m p;
  total_len ← ip_total_len m p;
  id ← ip_id m p;
  rsvd ← ip_rsvd_bit m p;
  df ← ip_dont_frag m p;
  mf ← ip_more_frags m p;
  frag_off ← ip_frag_off m p;
  ttl ← ip_ttl m p;
  proto ← ip_proto m p;
  cksum ← ip_hdr_cksum m p;
  src ← ip_src m p;
  dst ← ip_dst m p;
  Ret {| v4_version := version; v4_hdr_len := hdr_len; v4_total_len := total_len;
         v4_id := id; v4_rsvd := negb (rsvd =? 0); v4_df := negb (df =? 0);
         v4_mf := negb (mf =? 0); v4_frag_off := frag_off; v4_ttl := ttl;
         v4_proto := proto; v4_cksum := cksum; v4_src := src; v4_dst := dst |}.

Definition ipv4_set (f : ipv4_field) : mem -> Z -> Z -> outcome mem :=
  match f with
  | F_version => ip_set_version | F_hdr_len => ip_set_hdr_len
  | F_total_len => ip_set_total_len | F_id => ip_set_id
  | F_rsvd => ip_set_rsvd_bit | F_df => ip_set_dont_frag | F_mf => ip_set_more_frags
  | F_frag_off => ip_set_frag_off | F_ttl => ip_set_ttl | F_proto => ip_set_proto
  | F_cksum => ip_set_hdr_cksum | F_src => ip_set_src | F_dst => ip_set_dst
  end.

(** The values a field can carry. *)
Definition ipv4_fits (f : ipv4_field) (v : Z) : Prop :=
  match f with
  | F_version => 0 <= v < 16
  | F_hdr_len => 0 <= v < 64 /\ v mod 4 = 0
  | F_rsvd | F_df | F_mf => True
  | F_frag_off => 0 <= v < 65536 /\ v mod 8 = 0
  | F_ttl | F_proto => 0 <= v < 256
  | F_total_len | F_id | F_cksum => 0 <= v < 65536
  | F_src | F_dst => 0 <= v < 4294967296
  end.

Definition ipv4_upd (f : ipv4_field) (v : Z) (h : ipv4_hdr) : ipv4_hdr :=
  {| v4_version := match f with F_version => v | _ => v4_version h end;
     v4_hdr_len := match f with F_hdr_len => v | _ => v4_hdr_len h end;
     v4_total_len := match f with F_total_len => v | _ => v4_total_len h end;
     v4_id := match f with F_id => v | _ => v4_id h end;
     v4_rsvd := match f with F_rsvd => negb (v =? 0) | _ => v4_rsvd h end;
     v4_df := match f with F_df => negb (v =? 0) | _ => v4_df h end;
     v4_mf := match f with F_mf => negb (v =? 0) | _ => v4_mf h end;
     v4_frag_off := match f with F_frag_off => v | _ => v4_frag_off h end;
     v4_ttl := match f with F_ttl => v | _ => v4_ttl h end;
     v4_proto := match f with F_proto => v | _ => v4_proto h end;
     v4_cksum := match f with F_cksum => v | _ => v4_cksum h end;
     v4_src := match f with F_src => v | _ => v4_src h end;
     v4_dst := match f with F_dst => v | _ => v4_dst h end |}.

(** The record read off the bytes. *)
Definition ipv4_dec (m : mem) (p : Z) : ipv4_hdr :=
  {| v4_version := rd m p / 16; v4_hdr_len := rd m p mod 16 * 4;
     v4_total_len := be16 m (p + 2); v4_id := be16 m (p + 4);
     v4_rsvd := negb (rd m (p + 6) / 128 * 128 =? 0);
     v4_df := negb (rd m (p + 6) / 64 mod 2 * 64 =? 0);
     v4_mf := negb (rd m (p + 6) / 32 mod 2 * 32 =? 0);
     v4_frag_off := (rd m (p + 6) mod 32 * 256 + rd m (p + 7)) * 8;
     v4_ttl := rd m (p + 8); v4_proto := rd m (p + 9); v4_cksum := be16 m (p + 10);
     v4_src := be32 m (p + 12); v4_dst := be32 m (p + 16) |}.

Lemma ipv4_view_dec m p :
  bytes_ok m -> valid m p 20 -> ipv4_view m p = Ret (ipv4_dec m p).
Proof.
  intros Hm Hv.
  unfold ipv4_view, ip_total_len, ip_id, ip_ttl, ip_proto, ip_hdr_cksum, ip_src, ip_dst.
  by hdr_run.
Qed.

(** Each setter writes inside the 20 bytes and changes the record as
    [ipv4_upd] says. *)
Definition ipv4_wr (f : ipv4_field) (m : mem) (p v : Z) : mem :=
  match f with
  | F_version => wr8 m p (v * 16 + rd m p mod 16)
  | F_hdr_len => wr8 m p (rd m p / 16 * 16 + v / 4)
  | F_total_len => wr16 m (p + 2) v
  | F_id => wr16 m (p + 4) v
  | F_rsvd => wr8 m (p + 6) (set_bit6 (rd m (p + 6)) 7 v)
  | F_df => wr8 m (p + 6) (set_bit6 (rd m (p + 6)) 6 v)
  | F_mf => wr8 m (p + 6) (set_bit6 (rd m (p + 6)) 5 v)
  | F_frag_off =>
      wr8 (wr8 m (p + 6) (rd m (p + 6) / 32 * 32 + v / 2048)) (p + 7) (v / 8)
  | F_ttl => wr8 m (p + 8) v
  | F_proto => wr8 m (p + 9) v
  | F_cksum => wr16 m (p + 10) v
  | F_src => wr32 m (p + 12) v
  | F_dst => wr32 m (p + 16) v
  end.

Lemma ipv4_set_wr f m p v :
  bytes_ok m -> valid m p 20 -> ipv4_fits f v -> ipv4_set f m p v = Ret (ipv4_wr f m p v).
Proof.
  intros Hm Hv Hf. destruct f; simpl in Hf; cbn [ipv4_set ipv4_wr];
    unfold ip_set_total_len, ip_set_id, ip_set_ttl, ip_set_proto, ip_set_hdr_cksum,
      ip_set_src, ip_set_dst; by hdr_run.
Qed.

Lemma ipv4_wr_bytes_ok f m p v : bytes_ok m -> bytes_ok (ipv4_wr f m p v).
Proof. intros Hm. destruct f; cbn [ipv4_wr]; auto 10 with mem. Qed.

Lemma ipv4_wr_valid f m p v q n : valid m q n -> valid (ipv4_wr f m p v) q n.
Proof. intros Hm. destruct f; cbn [ipv4_wr]; auto 10 with mem. Qed.

Lemma ipv4_wr_frame f m p v q :
  q < p \/ p + 20 <= q -> ipv4_wr f m p v !! q = m !! q.
Proof.
  intros Hq. destruct f; cbn [ipv4_wr]; unfold wr32, wr16, wr8;
    by rewrite ?lookup_insert_ne by lia.
Qed.

Lemma ipv4_dec_wr f m p v :
  bytes_ok m -> ipv4_fits f v ->
  ipv4_dec (ipv4_wr f m p v) p = ipv4_upd f v (ipv4_dec m p).
Proof.
  intros Hm Hf.
  pose proof (rd_range m p Hm). pose proof (rd_range m (p + 6) Hm).
  pose proof (rd_range m (p + 7) Hm).
  destruct f; simpl in Hf; cbn [ipv4_wr]; unfold ipv4_dec, ipv4_upd; cbn;
    rd_simpl; try (f_equal; lia).
  all: unfold set_bit6;
    change (2 ^ 5) with 32; change (2 ^ 6) with 64; change (2 ^ 7) with 128;
    destruct (negb (v =? 0)); cbn [b2z]; f_equal; lia.
Qed.

End ipv4_record.

(** ** The IPv6 extension header walk *)

(** What RFC 8200 says of the hop-by-hop options (0), routing (43) and
    destination options (60) headers: the first byte is the type of the next
    header, and the second the length in units of eight bytes, not counting
    the first eight.  [ext_chain m base tlen off nh hs o pr]: from a header of
    type [nh] at offset [off], over the headers [hs] of these types, the
    upper-layer header is at offset [o] and has protocol [pr]; [pr] is neither
    one of them nor a fragment (44) or authentication (51) header. *)
Inductive ext_chain (m : mem) (base tlen : Z) : Z -> Z -> list Z -> Z -> Z -> Prop :=
  | ext_chain_end off nh :
      nh ∉ [0; 43; 44; 51; 60] -> ext_chain m base tlen off nh [] off nh
  | ext_chain_step off nh hs o pr :
      nh ∈ [0; 43; 60] ->
      off + (rd m (base + (off + 1)) + 1) * 8 <= tlen ->
      ext_chain m base tlen (off + (rd m (base + (off + 1)) + 1) * 8)
        (rd m (base + off)) hs o pr ->
      ext_chain m base tlen off nh (nh :: hs) o pr.

Section ipv6_walk.
Context `{Host}.

Lemma ipv6_extlen_bounds nh len : 0 <= len < 256 -> 8 <= ipv6_extlen nh len <= 2048.
Proof. unfold ipv6_extlen. repeat case_match; lia. Qed.

Lemma ipv6_extlen_opts nh len :
  nh <> 44 -> nh <> 51 -> ipv6_extlen nh len = len * 8 + 8.
Proof.
  intros. unfold ipv6_extlen.
  destruct (Z.eqb_spec nh 44); [lia|]. by destruct (Z.eqb_spec nh 51).
Qed.

(** One pass of the loop stays inside the packet and moves forward. *)
Lemma ipv6_ext_step_safe m base tlen off nh fr fo :
  bytes_ok m -> valid m base tlen -> 40 <= off <= tlen -> tlen <= 65535 ->
  returns (ipv6_ext_step m base tlen (off, nh, fr, fo)) (fun x =>
    match x with
    | inl (off', _, _, _) => off + 8 <= off' <= tlen
    | inr None => True
    | inr (Some h) => base + 40 <= ph_ptr h <= base + tlen
    end).
Proof.
  intros Hm Hv Hoff Htl. unfold ipv6_ext_step, ipv6_ext_done.
  destruct (is_ipv6_nexthdr nh); cbn [negb]; [|apply returns_ret; simpl; lia].
  destruct (Z.gtb_spec (off + 8) tlen); [by apply returns_ret|].
  apply (returns_bind _ _ (fun _ => True)).
  { destruct (nh =? 44); [|by apply returns_ret].
    unfold ipv6_frag_off. hdr_run. by apply returns_ret. }
  intros z _. destruct (z >? 0); [apply returns_ret; simpl; lia|].
  hdr_run. pose proof (rd_range m (base + (off + 1)) Hm) as Hlen.
  pose proof (ipv6_extlen_bounds (rd m (base + off)) _ Hlen).
  destruct (Z.gtb_spec (off + ipv6_extlen (rd m (base + off)) (rd m (base + (off + 1)))) tlen);
    apply returns_ret; [done|]. rewrite u16_small by lia. lia.
Qed.

(** Along a chain of options and routing headers the code follows RFC 8200. *)
Lemma ext_chain_types m base tlen off nh hs o pr : ext_chain m base tlen off nh hs o pr -> nh <> 44 /\ nh <> 51.
Proof. intros Hc. destruct Hc as [off nh Hn|off nh hs o pr Hn _ _]; [rewrite !not_elem_of_cons in Hn|rewrite !elem_of_cons, elem_of_nil in Hn]; lia. Qed.
Lemma ipv6_ext_iter_chain m base tlen off nh hs o pr n :
  bytes_ok m -> valid m base tlen -> 40 <= off -> tlen <= 65535 ->
  ext_chain m base tlen off nh hs o pr ->
  (length hs < n)%nat ->
  iter n (ipv6_ext_step m base tlen) (off, nh, false, 0) =
    Ret (Some {| ph_ptr := base + o; ph_proto := pr; ph_is_fragmented := false;
                 ph_frag := None |}).
Proof.
  intros Hm Hv Hoff Htl Hc. revert n Hoff.
  induction Hc as [off nh Hnh|off nh hs o pr Hnh Hlen Hc IH];
    intros [|n] Hoff Hn; simpl in Hn; try lia.
  - apply iter_inr. unfold ipv6_ext_step.
    assert (is_ipv6_nexthdr nh = false) as ->; [|done].
    rewrite !not_elem_of_cons in Hnh. unfold is_ipv6_nexthdr. by rewrite !(proj2 (Z.eqb_neq _ _)) by tauto.
  - destruct (ext_chain_types _ _ _ _ _ _ _ _ Hc) as [Hr44 Hr51].
    assert (nh <> 44 /\ is_ipv6_nexthdr nh = true) as [Hn44 Hnh'].
    { rewrite !elem_of_cons, elem_of_nil in Hnh. by destruct Hnh as [->|[->|[->|[]]]]. }
    pose proof (rd_range m (base + (off + 1)) Hm).
    erewrite iter_inl; [apply IH; [lia|lia]|].
    unfold ipv6_ext_step. rewrite Hnh'. cbn [negb].
    destruct (Z.gtb_spec (off + 8) tlen); [lia|].
    destruct (Z.eqb_spec nh 44); [lia|]. cbn [mbind outcome_bind Z.gtb Z.compare].
    hdr_run. rewrite ipv6_extlen_opts by done.
    destruct (Z.gtb_spec (off + (rd m (base + (off + 1)) * 8 + 8)) tlen); [lia|].
    rewrite u16_small by lia. do 5 f_equal. lia.
Qed.

Lemma ext_chain_length m base tlen off nh hs o pr :
  bytes_ok m -> ext_chain m base tlen off nh hs o pr -> off <= tlen ->
  off + 8 * Z.of_nat (length hs) <= tlen.
Proof.
  intros Hm Hc. induction Hc as [|off nh hs o pr Hnh Hlen Hc IH]; intros; simpl; [lia|].
  pose proof (rd_range m (base + (off + 1)) Hm). lia.
Qed.
End ipv6_walk.

(** C24: every setter of the IPv4 header (version, header length, total
    length, identification, the three flag bits, fragment offset, TTL,
    protocol, checksum, addresses), given a value that fits its field, writes
    only inside the 20 header bytes, keeps the block well formed, and changes
    the record the getters read in exactly that field. *)
Theorem ipv4_setter_refines `{Host} f m p v :
  bytes_ok m -> valid m p 20 -> ipv4_fits f v ->
  exists m' h,
    ipv4_set f m p v = Ret m' /\
    bytes_ok m' /\
    (forall q, q < p \/ p + 20 <= q -> m' !! q = m !! q) /\
    ipv4_view m p = Ret h /\
    ipv4_view m' p = Ret (ipv4_upd f v h).
Proof.
  intros Hm Hv Hf. exists (ipv4_wr f m p v), (ipv4_dec m p).
  split; [by apply ipv4_set_wr|].
  split; [by apply ipv4_wr_bytes_ok|].
  split; [intros; by apply ipv4_wr_frame|].
  split; [by apply ipv4_view_dec|].
  rewrite <- ipv4_dec_wr by done.
  apply ipv4_view_dec; [by apply ipv4_wr_bytes_ok|by apply ipv4_wr_valid].
Qed.

Definition sample_ipv4 : mem :=
  mem_of 0 [0x45; 0; 0; 60; 0x1c; 0x46; 0x40; 0; 64; 6; 0xb1; 0xe6;
            172; 16; 10; 99; 172; 16; 10; 12].

Lemma ipv4_setter_refines_witness :
  exists m' h,
    ipv4_set (H := little_endian_host) F_frag_off sample_ipv4 0 1480 = Ret m' /\
    bytes_ok m' /\
    (forall q, q < 0 \/ 0 + 20 <= q -> m' !! q = sample_ipv4 !! q) /\
    ipv4_view (H := little_endian_host) sample_ipv4 0 = Ret h /\
    ipv4_view (H := little_endian_host) m' 0 = Ret (ipv4_upd F_frag_off 1480 h).
Proof.
  apply (@ipv4_setter_refines little_endian_host F_frag_off sample_ipv4 0 1480).
  - apply bytes_okb_ok. vm_compute. reflexivity.
  - apply validb_valid. vm_compute. reflexivity.
  - simpl. lia.
Defined.

(** C31: for an IPv6 packet whose 40 + payload-length bytes are in memory and
    whose total length fits 16 bits, the extension header walk returns after
    finitely many steps without touching a byte outside the packet, and a
    header it reports lies inside the packet. *)
Theorem ipv6_proto_hdr_2_safe `{Host} m ipv6 :
  bytes_ok m -> valid m ipv6 40 ->
  valid m ipv6 (be16 m (ipv6 + 4) + 40) -> be16 m (ipv6 + 4) + 40 <= 65535 ->
  returns (ipv6_proto_hdr_2 m ipv6) (fun r =>
    match r with
    | None => True
    | Some h => ipv6 + 40 <= ph_ptr h <= ipv6 + (be16 m (ipv6 + 4) + 40)
    end).
Proof.
  intros Hm H40 Hv Htl. unfold ipv6_proto_hdr_2, ipv6_payload_len, ipv6_nexthdr. hdr_run.
  pose proof (be16_range m (ipv6 + 4) Hm). set (tlen := be16 m (ipv6 + 4) + 40) in *.
  apply (iter_total _ (fun '(off, _, _, _) => 40 <= off <= tlen)
    (fun '(off, _, _, _) => Z.to_nat ((tlen - off) / 8))).
  - intros [[[off nh] fr] fo] Hoff.
    eapply returns_impl; [by apply ipv6_ext_step_safe|].
    intros [[[[off' nh'] fr'] fo']|[h|]]; [|done|done]. simpl. intros. split; lia.
  - simpl. lia.
  - unfold ipv6_ext_fuel. lia.
Qed.

Definition sample_ipv6 (nh : Z) (ext : list Z) : mem :=
  mem_of 0 ([0x60; 0; 0; 0; 0; Z.of_nat (length ext); nh; 64]
            ++ replicate 32 1 ++ ext).

Lemma ipv6_proto_hdr_2_safe_witness :
  returns (ipv6_proto_hdr_2 (H := little_endian_host) (sample_ipv6 0 [6; 0; 1; 4; 0; 0; 0; 0]) 0)
    (fun r =>
      match r with
      | None => True
      | Some h => 0 + 40 <= ph_ptr h <= 0 + (8 + 40)
      end).
Proof.
  apply (@ipv6_proto_hdr_2_safe little_endian_host (sample_ipv6 0 [6; 0; 1; 4; 0; 0; 0; 0]) 0).
  - apply bytes_okb_ok. vm_compute. reflexivity.
  - apply validb_valid. vm_compute. reflexivity.
  - apply validb_valid. vm_compute. reflexivity.
  - vm_compute. discriminate.
Defined.

(** C25: on a packet whose extension headers are hop-by-hop, destination
    options and routing headers only, and whose total length is at most 65535,
    the walk finds the upper-layer header of RFC 8200: the end of the header
    chain and its protocol.  The chain is the one of the RFC: each of these
    headers has the length its own second byte says. *)
Theorem ipv6_proto_hdr_rfc8200 `{Host} m ipv6 hs o pr :
  bytes_ok m -> valid m ipv6 40 ->
  valid m ipv6 (be16 m (ipv6 + 4) + 40) -> be16 m (ipv6 + 4) + 40 <= 65535 ->
  ext_chain m ipv6 (be16 m (ipv6 + 4) + 40) 40 (rd m (ipv6 + 6)) hs o pr ->
  ipv6_proto_hdr m ipv6 = Ret (Some (ipv6 + o, pr)).
Proof.
  intros Hm H40 Hv Htl Hc. unfold ipv6_proto_hdr, ipv6_proto_hdr_2, ipv6_payload_len,
    ipv6_nexthdr. hdr_run. pose proof (be16_range m (ipv6 + 4) Hm).
  pose proof (ext_chain_length _ _ _ _ _ _ _ _ Hm Hc).
  by rewrite (ipv6_ext_iter_chain m ipv6 _ 40 _ hs o pr)
    by (first [done | lia | unfold ipv6_ext_fuel; lia]).
Qed.

Definition sample_ipv6_opts : mem :=
  sample_ipv6 0 ([43; 0; 1; 4; 0; 0; 0; 0] ++ [17; 1] ++ replicate 14 0).

Lemma ipv6_proto_hdr_rfc8200_witness :
  ipv6_proto_hdr (H := little_endian_host) sample_ipv6_opts 0 = Ret (Some (0 + 64, 17)).
Proof.
  apply (@ipv6_proto_hdr_rfc8200 little_endian_host sample_ipv6_opts 0 [0; 43] 64 17).
  - apply bytes_okb_ok. vm_compute. reflexivity.
  - apply validb_valid. vm_compute. reflexivity.
  - apply validb_valid. vm_compute. reflexivity.
  - vm_compute. discriminate.
  - apply ext_chain_step; [left|vm_compute; discriminate|].
    apply ext_chain_step; [right; left|vm_compute; discriminate|].
    apply (ext_chain_end sample_ipv6_opts 0 64 64 17). apply (bool_decide_unpack _). vm_compute. exact I.
Defined.

(** A 65544-byte packet of hop-by-hop headers, the last of which ends at
    offset 65544: in the 16-bit [off] that is offset 8, where the source
    address holds one more header leading back to offset 40. *)
Definition wrapping_packet : mem :=
  mem_fun 65544 (fun i =>
    if i =? 4 then 255 else if i =? 5 then 224 else if i =? 9 then 3
    else if i <? 40 then 0
    else if (i - 40) mod 2048 =? 1 then (if i <? 63528 then 255 else 251) else 0).

Definition wrapping_offset (off : Z) : Prop :=
  off = 8 \/ exists k, 0 <= k <= 31 /\ off = 40 + 2048 * k.

Lemma wrapping_packet_valid : valid wrapping_packet 0 65544.
Proof. apply mem_fun_valid. Qed.

Lemma wrapping_packet_length : be16 wrapping_packet 4 + 40 = 65544.
Proof. unfold be16, wrapping_packet. by rewrite !rd_mem_fun by lia. Qed.

Lemma wrapping_packet_step `{Host} off :
  wrapping_offset off ->
  exists off', wrapping_offset off' /\
    ipv6_ext_step wrapping_packet 0 65544 (off, 0, false, 0) = Ret (inl (off', 0, false, 0)).
Proof.
  intros Hoff.
  assert (0 <= off /\ off + 2 <= 65544 /\
    rd wrapping_packet (0 + off) = 0 /\
    (off = 8 /\ rd wrapping_packet (0 + (off + 1)) = 3 \/
     (exists k, 0 <= k <= 31 /\ off = 40 + 2048 * k /\
       rd wrapping_packet (0 + (off + 1)) = if decide (k = 31) then 251 else 255)))
    as (Hlo & Hhi & H0 & H1).
  { destruct Hoff as [->|(k & Hk & ->)].
    - unfold wrapping_packet. rewrite !rd_mem_fun by lia.
      split; [lia|]. split; [lia|]. split; [done|]. by left.
    - unfold wrapping_packet. rewrite !rd_mem_fun by lia.
      replace (0 + (40 + 2048 * k)) with (40 + 2048 * k) by lia.
      replace (0 + (40 + 2048 * k + 1)) with (41 + 2048 * k) by lia.
      split; [lia|]. split; [lia|]. split; [repeat case_match; lia|]. right.
      exists k. split; [done|]. split; [done|].
      destruct (decide (k = 31)); repeat case_match; lia. }
  pose proof wrapping_packet_valid as Hv.
  generalize dependent wrapping_packet. intros m H0 H1 Hv.
  unfold ipv6_ext_step. cbn [is_ipv6_nexthdr Z.eqb orb negb].
  destruct (Z.gtb_spec (off + 8) 65544).
  { exfalso. destruct Hoff as [->|(k & Hk & ->)]; lia. }
  cbn [mbind outcome_bind Z.gtb Z.compare]. hdr_run. rewrite H0.
  rewrite ipv6_extlen_opts by lia.
  destruct H1 as [(-> & ->)|(k & Hk & -> & ->)].
  - exists 40. split; [right; exists 0; lia|done].
  - destruct (decide (k = 31)) as [->|].
    + exists 8. split; [by left|done].
    + exists (40 + 2048 * (k + 1)). split; [right; exists (k + 1); lia|].
      destruct (Z.gtb_spec (40 + 2048 * k + (255 * 8 + 8)) 65544); [lia|].
      rewrite u16_small by lia. do 5 f_equal. lia.
Qed.

(** The extension header offset is 16 bits wide, so on a well-formed
    packet of total length 65544 the walk never ends: with any iteration
    bound it is still running. *)
Theorem ipv6_walk_can_loop_forever `{Host} :
  exists m,
    bytes_ok m /\ valid m 0 (be16 m 4 + 40) /\ be16 m 4 + 40 = 65544 /\
    forall n, iter n (ipv6_ext_step m 0 (be16 m 4 + 40)) (40, rd m 6, false, 0) = OutOfFuel.
Proof.
  exists wrapping_packet. rewrite wrapping_packet_length.
  refine (conj _ (conj wrapping_packet_valid (conj eq_refl _))).
  - apply mem_fun_bytes_ok. intros i. repeat case_match; lia.
  - intros n. apply (iter_diverges _ (fun '(off, nh, fr, fo) =>
      wrapping_offset off /\ nh = 0 /\ fr = false /\ fo = 0)).
    + intros [[[off nh] fr] fo] (Hoff & -> & -> & ->).
      destruct (wrapping_packet_step off Hoff) as (off' & Hoff' & E).
      exists (off', 0, false, 0). by repeat split.
    + split; [right; exists 0; lia|]. unfold wrapping_packet. by rewrite rd_mem_fun by lia.
Qed.
