(* ===== verification/IpCksum.v ===== *)
(** Internet checksums of iphdr/ipcksum.h and iphdr/ipcksum.c: the running
    sum, the IPv4, TCP and UDP checksums, and the functions that change a
    header field and update the checksum incrementally. *)
From S2P Require Import Prelude Bytes IpHdr.

Section checksum.
Context `{Host}.

(** ** The running sum: [struct ip_cksum_ctx] is its 32-bit [sum] *)

Definition ip_cksum_ctx : Type := Z.
Definition IP_CKSUM_CTX_INITER : ip_cksum_ctx := 0.

(** [while (sum>>16) sum = (sum & 0xffff) + (sum >> 16);]  Three passes end
    the loop for every 32-bit sum, the fourth sees the condition fail. *)
Definition cksum_fold_step (sum : Z) : outcome (Z + Z) :=
  if Z.shiftr sum 16 =? 0 then Ret (inr sum)
  else Ret (inl (u32 (Z.land sum 0xffff + Z.shiftr sum 16))).
Definition cksum_fold (sum : Z) : outcome Z := iter 4 cksum_fold_step sum.

Definition ip_cksum_postprocess (ctx : ip_cksum_ctx) : outcome Z :=
  sum ← cksum_fold ctx;
  Ret (ntohs (u16 (Z.lnot sum))).

Definition ip_cksum_add16 (ctx : ip_cksum_ctx) (val16 : Z) : ip_cksum_ctx :=
  u32 (ctx + val16).
Definition ip_cksum_add_leftover (ctx : ip_cksum_ctx) (val : Z) : ip_cksum_ctx :=
  u32 (ctx + htons (u16 (Z.shiftl val 8))).

Definition ip_cksum_feed32ptr (ctx : ip_cksum_ctx) (m : mem) (buf : Z) : outcome ip_cksum_ctx :=
  a ← hdr_get16h m buf;
  let ctx := ip_cksum_add16 ctx a in
  b ← hdr_get16h m (buf + 2);
  Ret (ip_cksum_add16 ctx b).

(** [ip_cksum_feed32ptr(&ctx, &u32)] for a local [uint32_t]. *)
Definition feed_u32 (ctx : ip_cksum_ctx) (u : Z) : outcome ip_cksum_ctx :=
  ip_cksum_feed32ptr ctx (mem_of 0 (host_encode 4 u)) 0.

(** [ip_cksum_feed]: sixteen bytes at a time, then two, then the odd one.
    The loop state is the sum, [cbuf] and [sz]. *)
Definition feed16_step (m : mem) (s : ip_cksum_ctx * Z * Z)
    : outcome (ip_cksum_ctx * Z * Z + ip_cksum_ctx * Z * Z) :=
  let '(ctx, cbuf, sz) := s in
  if sz >=? 16 then
    w0 ← hdr_get16h m cbuf; w1 ← hdr_get16h m (cbuf + 2);
    w2 ← hdr_get16h m (cbuf + 4); w3 ← hdr_get16h m (cbuf + 6);
    w4 ← hdr_get16h m (cbuf + 8); w5 ← hdr_get16h m (cbuf + 10);
    w6 ← hdr_get16h m (cbuf + 12); w7 ← hdr_get16h m (cbuf + 14);
    let ctx := foldl ip_cksum_add16 ctx [w0; w1; w2; w3; w4; w5; w6; w7] in
    Ret (inl (ctx, cbuf + 16, sz - 16))
  else Ret (inr s).

Definition feed2_step (m : mem) (s : ip_cksum_ctx * Z * Z)
    : outcome (ip_cksum_ctx * Z * Z + ip_cksum_ctx * Z * Z) :=
  let '(ctx, cbuf, sz) := s in
  if sz >=? 2 then
    w ← hdr_get16h m cbuf;
    Ret (inl (ip_cksum_add16 ctx w, cbuf + 2, sz - 2))
  else Ret (inr s).

Definition ip_cksum_feed (ctx : ip_cksum_ctx) (m : mem) (buf sz : Z) : outcome ip_cksum_ctx :=
  s ← iter (S (Z.to_nat (sz / 16))) (feed16_step m) (ctx, buf, sz);
  s ← iter (S (Z.to_nat (sz / 2))) (feed2_step m) s;
  let '(ctx, cbuf, sz) := s in
  if sz >=? 1 then b ← hdr_get8h m cbuf; Ret (ip_cksum_add_leftover ctx b) else Ret ctx.

(** ** Whole checksums *)

Definition ip_hdr_cksum_calc (m : mem) (iphdr iplen : Z) : outcome Z :=
  ihl ← ip_hdr_len m iphdr;
  if ihl >? iplen then Abort else
  ctx ← ip_cksum_feed IP_CKSUM_CTX_INITER m iphdr ihl;
  ip_cksum_postprocess ctx.

Definition ip46_hdr_cksum_calc (m : mem) (iphdr : Z) : outcome Z :=
  iplen ← ip46_hdr_len m iphdr;
  ip46_case m iphdr (ip_hdr_cksum_calc m iphdr iplen) (Ret 0).

(** The IPv4 pseudo-header, shared text of [tcp_cksum_calc] and
    [udp_cksum_calc]. *)
Definition l4_cksum_calc (proto : Z) (m : mem) (iphdr iplen l4hdr l4len : Z) : outcome Z :=
  if iplen <? 20 then Abort else
  src ← ip_src m iphdr;
  ctx ← feed_u32 IP_CKSUM_CTX_INITER (htonl src);
  dst ← ip_dst m iphdr;
  ctx ← feed_u32 ctx (htonl dst);
  let ctx := ip_cksum_add16 ctx (htons proto) in
  let ctx := ip_cksum_add16 ctx (htons l4len) in
  ctx ← ip_cksum_feed ctx m l4hdr l4len;
  ip_cksum_postprocess ctx.
Definition tcp_cksum_calc : mem -> Z -> Z -> Z -> Z -> outcome Z := l4_cksum_calc 6.
Definition udp_cksum_calc : mem -> Z -> Z -> Z -> Z -> outcome Z := l4_cksum_calc 17.

(** Sixteen address bytes as four [uint32_t], each through
    [htonl(hdr_get32n(...))]. *)
Definition feed_addr6 (ctx : ip_cksum_ctx) (m : mem) (addr : Z) : outcome ip_cksum_ctx :=
  u ← hdr_get32n m addr; ctx ← feed_u32 ctx (htonl u);
  u ← hdr_get32n m (addr + 4); ctx ← feed_u32 ctx (htonl u);
  u ← hdr_get32n m (addr + 8); ctx ← feed_u32 ctx (htonl u);
  u ← hdr_get32n m (addr + 12); feed_u32 ctx (htonl u).
(** The same through [hdr_get32h], as [udp6_cksum_calc] has it. *)
Definition feed_addr6h (ctx : ip_cksum_ctx) (m : mem) (addr : Z) : outcome ip_cksum_ctx :=
  u ← hdr_get32h m addr; ctx ← feed_u32 ctx u;
  u ← hdr_get32h m (addr + 4); ctx ← feed_u32 ctx u;
  u ← hdr_get32h m (addr + 8); ctx ← feed_u32 ctx u;
  u ← hdr_get32h m (addr + 12); feed_u32 ctx u.

Definition tcp6_cksum_calc (m : mem) (iphdr iplen tcphdr tcplen : Z) : outcome Z :=
  if iplen <? 40 then Abort else
  ctx ← feed_addr6 IP_CKSUM_CTX_INITER m (ipv6_const_src iphdr);
  ctx ← feed_addr6 ctx m (ipv6_const_dst iphdr);
  ctx ← feed_u32 ctx (htonl tcplen);
  ctx ← feed_u32 ctx (htonl 6);
  ctx ← ip_cksum_feed ctx m tcphdr tcplen;
  ip_cksum_postprocess ctx.

Definition udp6_cksum_calc (m : mem) (iphdr iplen udphdr udplen : Z) : outcome Z :=
  if iplen <? 40 then Abort else
  ctx ← feed_addr6h IP_CKSUM_CTX_INITER m (ipv6_const_src iphdr);
  ctx ← feed_addr6h ctx m (ipv6_const_dst iphdr);
  ctx ← feed_u32 ctx (htonl udplen);
  ctx ← feed_u32 ctx (htonl 17);
  ctx ← ip_cksum_feed ctx m udphdr udplen;
  ip_cksum_postprocess ctx.

Definition tcp46_cksum_calc (m : mem) (iphdr : Z) : outcome Z :=
  tcplen ← ip46_payload_len m iphdr;
  iplen ← ip46_hdr_len m iphdr;
  tcphdr ← ip46_const_payload m iphdr;
  proto ← ip46_proto m iphdr;
  if negb (proto =? 6) then Abort else
  ip46_case m iphdr (tcp_cksum_calc m iphdr iplen tcphdr tcplen)
    (tcp6_cksum_calc m iphdr iplen tcphdr tcplen).

Definition ip_set_hdr_cksum_calc (m : mem) (iphdr iplen : Z) : outcome mem :=
  if iplen <? 20 then Abort else
  m ← ip_set_hdr_cksum m iphdr 0;
  cksum ← ip_hdr_cksum_calc m iphdr iplen;
  ip_set_hdr_cksum m iphdr cksum.

Definition ip46_set_hdr_cksum_calc (m : mem) (iphdr : Z) : outcome mem :=
  ip46_case m iphdr
    (iplen ← ip_hdr_len m iphdr; ip_set_hdr_cksum_calc m iphdr iplen)
    (Ret m).

Definition tcp_set_cksum_calc (m : mem) (iphdr iplen tcphdr tcplen : Z) : outcome mem :=
  if iplen <? 20 then Abort else
  if tcplen <? 20 then Abort else
  m ← tcp_set_cksum m tcphdr 0;
  cksum ← tcp_cksum_calc m iphdr iplen tcphdr tcplen;
  tcp_set_cksum m tcphdr cksum.

Definition tcp6_set_cksum_calc (m : mem) (iphdr iplen tcphdr tcplen : Z) : outcome mem :=
  if iplen <? 40 then Abort else
  if tcplen <? 20 then Abort else
  m ← tcp_set_cksum m tcphdr 0;
  cksum ← tcp6_cksum_calc m iphdr iplen tcphdr tcplen;
  tcp_set_cksum m tcphdr cksum.

Definition tcp46_set_cksum_calc (m : mem) (iphdr : Z) : outcome mem :=
  tcplen ← ip46_payload_len m iphdr;
  iplen ← ip46_hdr_len m iphdr;
  tcphdr ← ip46_payload m iphdr;
  proto ← ip46_proto m iphdr;
  if negb (proto =? 6) then Abort else
  ip46_case m iphdr (tcp_set_cksum_calc m iphdr iplen tcphdr tcplen)
    (tcp6_set_cksum_calc m iphdr iplen tcphdr tcplen).

Definition udp_set_cksum_calc (m : mem) (iphdr iplen udphdr udplen : Z) : outcome mem :=
  if iplen <? 20 then Abort else
  if udplen <? 8 then Abort else
  m ← udp_set_cksum m udphdr 0;
  cksum ← udp_cksum_calc m iphdr iplen udphdr udplen;
  udp_set_cksum m udphdr cksum.

Definition udp6_set_cksum_calc (m : mem) (iphdr iplen udphdr udplen : Z) : outcome mem :=
  if iplen <? 40 then Abort else
  if udplen <? 8 then Abort else
  m ← udp_set_cksum m udphdr 0;
  cksum ← udp6_cksum_calc m iphdr iplen udphdr udplen;
  udp_set_cksum m udphdr cksum.

(** ** Incremental update (RFC 1624) *)

Definition ip_update_cksum16 (old_cksum16 old16 new16 : Z) : outcome Z :=
  let old_cksum := old_cksum16 in
  let old_cksum := u16 (Z.lnot old_cksum) in
  let old_cksum := u32 (old_cksum + u16 (Z.lnot old16)) in
  let old_cksum := u32 (old_cksum + new16) in
  old_cksum ← cksum_fold old_cksum;
  Ret (u16 (Z.lnot old_cksum)).

Definition ip_update_cksum32 (old_cksum old32 new32 : Z) : outcome Z :=
  let new1 := u16 (Z.shiftr new32 16) in
  let old1 := u16 (Z.shiftr old32 16) in
  let new2 := u16 (Z.land new32 0xFFFF) in
  let old2 := u16 (Z.land old32 0xFFFF) in
  x ← ip_update_cksum16 old_cksum old1 new1;
  ip_update_cksum16 x old2 new2.

(** The transport checksum covers the addresses: TCP always, UDP unless its
    checksum is 0, which means there is none. *)
Definition l4_addr_cksum_update (m : mem) (proto payhdr old_addr addr : Z) : outcome mem :=
  if proto =? 6 then
    old_cksum ← tcp_cksum m payhdr;
    old_cksum ← ip_update_cksum32 old_cksum old_addr addr;
    tcp_set_cksum m payhdr old_cksum
  else if proto =? 17 then
    old_cksum ← udp_cksum m payhdr;
    if negb (old_cksum =? 0) then
      old_cksum ← ip_update_cksum32 old_cksum old_addr addr;
      udp_set_cksum m payhdr old_cksum
    else Ret m
  else Ret m.

Definition ip_set_src_cksum_update (m : mem) (iphdr iplen proto payhdr paylen src : Z)
    : outcome mem :=
  old_src ← ip_src m iphdr;
  old_cksum ← ip_hdr_cksum m iphdr;
  old_cksum ← ip_update_cksum32 old_cksum old_src src;
  m ← ip_set_hdr_cksum m iphdr old_cksum;
  m ← l4_addr_cksum_update m proto payhdr old_src src;
  ip_set_src m iphdr src.

Definition ip_set_dst_cksum_update (m : mem) (iphdr iplen proto payhdr paylen dst : Z)
    : outcome mem :=
  old_dst ← ip_dst m iphdr;
  old_cksum ← ip_hdr_cksum m iphdr;
  old_cksum ← ip_update_cksum32 old_cksum old_dst dst;
  m ← ip_set_hdr_cksum m iphdr old_cksum;
  m ← l4_addr_cksum_update m proto payhdr old_dst dst;
  ip_set_dst m iphdr dst.

Definition tcp_set_src_port_cksum_update (m : mem) (tcphdr tcplen src_port : Z) : outcome mem :=
  old_src_port ← tcp_src_port m tcphdr;
  old_cksum ← tcp_cksum m tcphdr;
  old_cksum ← ip_update_cksum16 old_cksum old_src_port src_port;
  m ← tcp_set_cksum m tcphdr old_cksum;
  tcp_set_src_port m tcphdr src_port.

Definition tcp_set_dst_port_cksum_update (m : mem) (tcphdr tcplen dst_port : Z) : outcome mem :=
  old_dst_port ← tcp_dst_port m tcphdr;
  old_cksum ← tcp_cksum m tcphdr;
  old_cksum ← ip_update_cksum16 old_cksum old_dst_port dst_port;
  m ← tcp_set_cksum m tcphdr old_cksum;
  tcp_set_dst_port m tcphdr dst_port.

Definition icmp_set_echo_identifier_cksum_update (m : mem)
    (icmphdr icmplen echo_identifier : Z) : outcome mem :=
  old_echo_identifier ← icmp_echo_identifier m icmphdr;
  old_cksum ← icmp_checksum m icmphdr;
  old_cksum ← ip_update_cksum16 old_cksum old_echo_identifier echo_identifier;
  m ← icmp_set_checksum m icmphdr old_cksum;
  icmp_set_echo_identifier m icmphdr echo_identifier.

Definition tcp_set_seq_number_cksum_update (m : mem) (tcphdr tcplen seq_number : Z)
    : outcome mem :=
  old_seq_number ← tcp_seq_number m tcphdr;
  old_cksum ← tcp_cksum m tcphdr;
  old_cksum ← ip_update_cksum32 old_cksum old_seq_number seq_number;
  m ← tcp_set_cksum m tcphdr old_cksum;
  tcp_set_seq_number m tcphdr seq_number.

Definition tcp_set_ack_number_cksum_update (m : mem) (tcphdr tcplen ack_number : Z)
    : outcome mem :=
  old_ack_number ← tcp_ack_number m tcphdr;
  old_cksum ← tcp_cksum m tcphdr;
  old_cksum ← ip_update_cksum32 old_cksum old_ack_number ack_number;
  m ← tcp_set_cksum m tcphdr old_cksum;
  tcp_set_ack_number m tcphdr ack_number.

Definition tcp_set_window_cksum_update (m : mem) (tcphdr tcplen window : Z) : outcome mem :=
  old_window ← tcp_window m tcphdr;
  old_cksum ← tcp_cksum m tcphdr;
  old_cksum ← ip_update_cksum16 old_cksum old_window window;
  m ← tcp_set_cksum m tcphdr old_cksum;
  tcp_set_window m tcphdr window.

Definition udp_set_src_port_cksum_update (m : mem) (udphdr udplen src_port : Z) : outcome mem :=
  old_src_port ← udp_src_port m udphdr;
  old_cksum ← udp_cksum m udphdr;
  m ← (if negb (old_cksum =? 0) then
         old_cksum ← ip_update_cksum16 old_cksum old_src_port src_port;
         udp_set_cksum m udphdr old_cksum
       else Ret m);
  udp_set_src_port m udphdr src_port.

Definition udp_set_dst_port_cksum_update (m : mem) (udphdr udplen dst_port : Z) : outcome mem :=
  old_dst_port ← udp_dst_port m udphdr;
  old_cksum ← udp_cksum m udphdr;
  m ← (if negb (old_cksum =? 0) then
         old_cksum ← ip_update_cksum16 old_cksum old_dst_port dst_port;
         udp_set_cksum m udphdr old_cksum
       else Ret m);
  udp_set_dst_port m udphdr dst_port.

Definition ip_decr_ttl_cksum_update (m : mem) (pkt : Z) : outcome (bool * mem) :=
  old_cksum ← ip_hdr_cksum m pkt;
  ttl ← ip_ttl m pkt;
  proto ← ip_proto m pkt;
  if ttl =? 0 then Abort else
  let whole_field_old := u16 (Z.lor (Z.shiftl ttl 8) proto) in
  let ttl := ttl - 1 in
  let whole_field_new := u16 (Z.lor (Z.shiftl ttl 8) proto) in
  old_cksum ← ip_update_cksum16 old_cksum whole_field_old whole_field_new;
  m ← ip_set_hdr_cksum m pkt old_cksum;
  m ← ip_set_ttl m pkt ttl;
  Ret (ttl >? 0, m).

Definition tcp_set_ack_off_cksum_update (m : mem) (pkt : Z) : outcome mem :=
  cksum ← tcp_cksum m pkt;
  whole_field_old ← hdr_get16n m (pkt + 12);
  b ← hdr_get8h m (pkt + 13);
  m ← hdr_set8h m (pkt + 13) (Z.land b (Z.lnot (Z.shiftl 1 4)));
  whole_field_new ← hdr_get16n m (pkt + 12);
  cksum ← ip_update_cksum16 cksum whole_field_old whole_field_new;
  tcp_set_cksum m pkt cksum.

End checksum.

(** ** Reference: one's complement arithmetic (RFC 1071)

    [oc s] is the 16-bit one's complement sum that the integer sum [s] of
    16-bit words stands for; a checksum is its complement. *)
Definition oc (s : Z) : Z := if s =? 0 then 0 else (s - 1) mod 65535 + 1.
Definition rfc1071 (s : Z) : Z := 65535 - oc s.

(** The sum of the big-endian words of [n] bytes, an odd last byte padded
    with zero. *)
Fixpoint bsum (m : mem) (p : Z) (n : nat) : Z :=
  match n with
  | O => 0
  | S O => rd m p * 256
  | S (S n) => be16 m p + bsum m (p + 2) n
  end.

Definition psum32 (x : Z) : Z := x / 65536 + x mod 65536.

Lemma oc_range s : 0 <= s -> 0 <= oc s <= 65535.
Proof. unfold oc. destruct (Z.eqb_spec s 0); lia. Qed.

Lemma oc_unique s x :
  0 <= s -> 0 <= x <= 65535 -> (x = 0 <-> s = 0) -> (x - s) mod 65535 = 0 -> x = oc s.
Proof. intros. unfold oc. destruct (Z.eqb_spec s 0); lia. Qed.

Lemma oc_cong s t : 0 < s -> 0 < t -> (s - t) mod 65535 = 0 -> oc s = oc t.
Proof. intros. unfold oc. destruct (Z.eqb_spec s 0), (Z.eqb_spec t 0); lia. Qed.

Lemma oc_mod s : 0 <= s -> (oc s - s) mod 65535 = 0.
Proof. intros. unfold oc. destruct (Z.eqb_spec s 0); lia. Qed.

Lemma oc_zero s : 0 <= s -> oc s = 0 <-> s = 0.
Proof. intros. unfold oc. destruct (Z.eqb_spec s 0); lia. Qed.

Lemma oc_full s : 0 < s -> oc s = 65535 <-> s mod 65535 = 0.
Proof. intros. unfold oc. destruct (Z.eqb_spec s 0); lia. Qed.

Section fold_lemmas.
Context `{Host}.

(** The carry loop ends on every 32-bit sum, with the one's complement
    value. *)
Lemma cksum_fold_oc s : 0 <= s < 4294967296 -> cksum_fold s = Ret (oc s).
Proof.
  intros Hs. assert (forall x, 0 <= x < 4294967296 ->
    cksum_fold_step x =
      Ret (if x <? 65536 then inr x else inl (x mod 65536 + x / 65536))) as Hstep.
  { intros x Hx. unfold cksum_fold_step. rewrite shiftr_div by lia. change (2 ^ 16) with 65536.
    change 0xffff with (Z.ones 16). rewrite Z.land_ones by lia. change (2 ^ 16) with 65536.
    destruct (Z.eqb_spec (x / 65536) 0), (Z.ltb_spec x 65536); try lia; [done|].
    do 2 f_equal. apply u32_small. lia. }
  unfold cksum_fold. do 3 (cbn [iter]; rewrite Hstep by lia; cbn [mbind outcome_bind];
    match goal with |- context [if ?x <? 65536 then _ else _] => destruct (Z.ltb_spec x 65536) end;
    cbn [mbind outcome_bind];
    [f_equal; apply oc_unique; lia|]).
  exfalso. lia.
Qed.

Lemma lnot_u16 x : 0 <= x <= 65535 -> u16 (Z.lnot x) = 65535 - x.
Proof. intros. unfold u16. replace (Z.lnot x) with (- x - 1) by (unfold Z.lnot; lia). lia. Qed.

Lemma ip_update_cksum16_oc ck old new :
  0 <= ck <= 65535 -> 0 <= old <= 65535 -> 0 <= new <= 65535 ->
  ip_update_cksum16 ck old new = Ret (rfc1071 ((65535 - ck) + (65535 - old) + new)).
Proof.
  intros. unfold ip_update_cksum16. rewrite !lnot_u16 by lia.
  rewrite (u32_small (_ - _ + _)) by lia. rewrite u32_small by lia.
  rewrite cksum_fold_oc by lia. cbn [mbind outcome_bind]. f_equal. apply lnot_u16.
  apply oc_range. lia.
Qed.

(** A valid checksum stays the checksum of the data when a word changes,
    unless the data becomes all zero. *)
Lemma ip_update_cksum16_rest rest ck old new :
  0 <= old <= 65535 -> 0 <= new <= 65535 -> 0 <= rest ->
  ck = rfc1071 (rest + old) -> 0 < rest + new ->
  ip_update_cksum16 ck old new = Ret (rfc1071 (rest + new)).
Proof.
  intros Ho Hn Hr -> Hpos. pose proof (oc_range (rest + old) ltac:(lia)).
  pose proof (oc_zero (rest + old) ltac:(lia)).
  pose proof (oc_mod (rest + old) ltac:(lia)).
  unfold rfc1071 in *. rewrite ip_update_cksum16_oc by lia. unfold rfc1071.
  do 2 f_equal. apply oc_cong; lia.
Qed.
End fold_lemmas.

(** ** Byte order independence (RFC 1071, section 2(B))

    The code adds host-order words and swaps the result once.  [hrel s b]:
    the host-order sum [s] stands for the network-order sum [b]. *)
Section host_order.
Context `{Host}.

Definition hmul : Z := if host_big_endian then 1 else 256.
Definition hrel (s b : Z) : Prop :=
  0 <= s /\ 0 <= b /\ (s = 0 <-> b = 0) /\ (s - hmul * b) mod 65535 = 0.

Definition host16 (m : mem) (p : Z) : Z := host_decode [rd m p; rd m (p + 1)].
Fixpoint hsum (m : mem) (p : Z) (n : nat) : Z :=
  match n with
  | O => 0
  | S O => host_decode [rd m p; 0]
  | S (S n) => host16 m p + hsum m (p + 2) n
  end.

Lemma hrel_zero : hrel 0 0.
Proof. unfold hrel. lia. Qed.

Lemma hrel_add s b t c : hrel s b -> hrel t c -> hrel (s + t) (b + c).
Proof. unfold hrel, hmul. intros Hs Ht. destruct host_big_endian; cbv iota in *; lia. Qed.

Lemma hrel_decode a b :
  0 <= a < 256 -> 0 <= b < 256 ->
  hrel (host_decode [a; b]) (a * 256 + b) /\ host_decode [a; b] <= 65535.
Proof. intros. unfold hrel, hmul, host_decode. destruct host_big_endian; cbn; lia. Qed.

Lemma hrel_host16 m p : bytes_ok m -> hrel (host16 m p) (be16 m p) /\ host16 m p <= 65535.
Proof. intros Hm. apply hrel_decode; auto with mem. Qed.

Lemma hsum_hrel m p n :
  bytes_ok m -> hrel (hsum m p n) (bsum m p n) /\ hsum m p n <= 65535 * ((Z.of_nat n + 1) / 2).
Proof.
  intros Hm. revert p. induction (lt_wf n) as [n _ IH]. intros p.
  destruct n as [|[|n]]; cbn [hsum bsum].
  - split; [apply hrel_zero|lia].
  - pose proof (hrel_decode (rd m p) 0 (rd_range m p Hm) ltac:(lia)) as [Hr Hle].
    rewrite Z.add_0_r in Hr. split; [done|lia].
  - destruct (IH n ltac:(lia) (p + 2)) as [Hr Hle].
    pose proof (hrel_host16 m p Hm) as [Hw Hwle]. split; [by apply hrel_add|]. lia.
Qed.

Lemma ntohs_facts x :
  0 <= x <= 65535 ->
  0 <= ntohs x <= 65535 /\ (ntohs x = 0 <-> x = 0) /\
  (ntohs x - hmul * x) mod 65535 = 0 /\ ntohs (65535 - x) = 65535 - ntohs x.
Proof.
  intros Hx. unfold ntohs, hmul. destruct host_big_endian; cbv iota; [lia|].
  rewrite !byteswap16_arith. lia.
Qed.

(** [htons] of a 16-bit value is the host word of its network bytes. *)
Lemma hrel_htons x : 0 <= x <= 65535 -> hrel (htons x) x /\ htons x <= 65535.
Proof. intros Hx. pose proof (ntohs_facts x Hx). unfold hrel, htons. lia. Qed.

Lemma htons_high b : 0 <= b < 256 -> htons (u16 (Z.shiftl b 8)) = host_decode [b; 0].
Proof.
  intros Hb. rewrite Z.shiftl_mul_pow2 by lia. change (2 ^ 8) with 256.
  rewrite u16_small by lia. unfold htons, ntohs, host_decode.
  destruct host_big_endian; cbn; [lia|]. rewrite byteswap16_arith. lia.
Qed.

Lemma ip_cksum_postprocess_ok s b :
  hrel s b -> s < 4294967296 -> ip_cksum_postprocess s = Ret (rfc1071 b).
Proof.
  intros (Hs & Hb & Hz & Hmod) Hlt. unfold ip_cksum_postprocess.
  rewrite cksum_fold_oc by lia. cbn [mbind outcome_bind]. f_equal.
  pose proof (oc_range s Hs) as Hoc. rewrite lnot_u16 by done.
  pose proof (ntohs_facts (oc s) Hoc) as (Hr & Hn0 & Hnm & ->).
  unfold rfc1071. f_equal. apply oc_unique; [done|done| |].
  - rewrite Hn0, oc_zero by done. done.
  - pose proof (oc_mod s Hs). unfold hmul in *. destruct host_big_endian; cbv iota in *; lia.
Qed.

(** ** Feeding a buffer *)

Lemma hdr_get16h_ok m p : valid m p 2 -> hdr_get16h m p = Ret (host16 m p).
Proof. intros Hv. unfold hdr_get16h. by rewrite loadn2_ok. Qed.

Lemma hsum_step m p sz :
  2 <= sz -> hsum m p (Z.to_nat sz) = host16 m p + hsum m (p + 2) (Z.to_nat (sz - 2)).
Proof.
  intros. replace (Z.to_nat sz) with (S (S (Z.to_nat (sz - 2)))) by lia. done.
Qed.

Lemma hsum_step16 m p sz :
  16 <= sz ->
  hsum m p (Z.to_nat sz) =
    host16 m p + host16 m (p + 2) + host16 m (p + 4) + host16 m (p + 6) + host16 m (p + 8)
    + host16 m (p + 10) + host16 m (p + 12) + host16 m (p + 14)
    + hsum m (p + 16) (Z.to_nat (sz - 16)).
Proof.
  intros Hsz.
  assert (forall k l, 0 <= k <= 14 -> l = k + 2 ->
    hsum m (p + k) (Z.to_nat (sz - k)) =
      host16 m (p + k) + hsum m (p + l) (Z.to_nat (sz - l))) as Hk.
  { intros k l Hk ->. rewrite hsum_step by lia.
    replace (p + k + 2) with (p + (k + 2)) by lia.
    by replace (sz - k - 2) with (sz - (k + 2)) by lia. }
  pose proof (Hk 0 2 ltac:(lia) eq_refl) as E. rewrite Z.add_0_r, Z.sub_0_r in E. rewrite E.
  rewrite (Hk 2 4), (Hk 4 6), (Hk 6 8), (Hk 8 10), (Hk 10 12), (Hk 12 14), (Hk 14 16) by lia.
  lia.
Qed.

Definition feed_inv (m : mem) (total : Z) (s : ip_cksum_ctx * Z * Z) : Prop :=
  let '(ctx, p, sz) := s in
  0 <= sz /\ valid m p sz /\ 0 <= ctx < 4294967296 /\
  u32 (ctx + hsum m p (Z.to_nat sz)) = total.

Lemma u32_add_l a b : u32 (u32 a + b) = u32 (a + b).
Proof. unfold u32. by rewrite Z.add_mod_idemp_l by lia. Qed.

Lemma foldl_add16 ws ctx t :
  u32 (foldl ip_cksum_add16 ctx ws + t) = u32 (ctx + foldr Z.add 0 ws + t).
Proof.
  revert ctx. induction ws as [|w ws IH]; intros ctx; cbn [foldl foldr]; [f_equal; lia|].
  rewrite IH. unfold ip_cksum_add16. rewrite <- Z.add_assoc, u32_add_l. f_equal. lia.
Qed.

Lemma feed2_step_inv m total ctx p sz :
  feed_inv m total (ctx, p, sz) -> 2 <= sz ->
  exists ctx', feed2_step m (ctx, p, sz) = Ret (inl (ctx', p + 2, sz - 2)) /\
    feed_inv m total (ctx', p + 2, sz - 2).
Proof.
  intros (Hsz & Hv & Hctx & Ht) Hge. exists (u32 (ctx + host16 m p)).
  unfold feed2_step. destruct (Z.geb_spec sz 2); [|lia].
  rewrite hdr_get16h_ok by solve_valid. split; [done|].
  split; [lia|]. split; [solve_valid|]. split; [apply u32_range|].
  rewrite u32_add_l, <- Ht, (hsum_step m p sz) by done. f_equal. lia.
Qed.

Lemma feed16_step_inv m total ctx p sz :
  feed_inv m total (ctx, p, sz) -> 16 <= sz ->
  exists ctx', feed16_step m (ctx, p, sz) = Ret (inl (ctx', p + 16, sz - 16)) /\
    feed_inv m total (ctx', p + 16, sz - 16).
Proof.
  intros (Hsz & Hv & Hctx & Ht) Hge. eexists. unfold feed16_step.
  destruct (Z.geb_spec sz 16); [|lia]. rewrite !hdr_get16h_ok by solve_valid.
  split; [done|]. split; [lia|]. split; [solve_valid|].
  split; [apply u32_range|].
  rewrite foldl_add16, <- Ht, (hsum_step16 m p sz) by done. f_equal. cbn [foldr]. lia.
Qed.

(** [ip_cksum_feed] adds the host-order words of the buffer to the sum,
    modulo 2^32. *)
Lemma ip_cksum_feed_ok (ctx : ip_cksum_ctx) m p sz :
  0 <= ctx < 4294967296 -> 0 <= sz -> bytes_ok m -> valid m p sz ->
  ip_cksum_feed ctx m p sz = Ret (u32 (ctx + hsum m p (Z.to_nat sz))).
Proof.
  intros Hctx Hsz Hm Hv. set (total := u32 (ctx + hsum m p (Z.to_nat sz))).
  assert (feed_inv m total (ctx, p, sz)) as HI by done.
  unfold ip_cksum_feed.
  assert (returns (iter (S (Z.to_nat (sz / 16))) (feed16_step m) (ctx, p, sz))
    (fun s => feed_inv m total s /\ snd s <= sz)) as ([[ctx1 p1] sz1] & -> & HI1 & Hsz1).
  { apply (iter_total _ (fun s => feed_inv m total s /\ snd s <= sz)
      (fun s => Z.to_nat (snd s / 16))); simpl; [|split; [done|lia]|lia].
    intros [[c q] z] [HIs Hz]. simpl in Hz. destruct (decide (16 <= z)) as [Hge|].
    - destruct (feed16_step_inv m total c q z HIs Hge) as (c' & -> & HI').
      apply returns_ret. simpl. split; [split; [done|lia]|lia].
    - unfold feed16_step. destruct (Z.geb_spec z 16); [lia|]. by apply returns_ret. }
  cbn [mbind outcome_bind]. simpl in Hsz1.
  assert (returns (iter (S (Z.to_nat (sz / 2))) (feed2_step m) (ctx1, p1, sz1))
    (fun s => feed_inv m total s /\ snd s < 2)) as ([[ctx2 p2] sz2] & -> & HI2 & Hsz2).
  { apply (iter_total _ (feed_inv m total) (fun s => Z.to_nat (snd s / 2)));
      [|done|simpl; destruct HI1; lia].
    intros [[c q] z] HIs. destruct (decide (2 <= z)) as [Hge|].
    - destruct (feed2_step_inv m total c q z HIs Hge) as (c' & -> & HI').
      apply returns_ret. simpl. split; [done|lia].
    - unfold feed2_step. destruct (Z.geb_spec z 2); [lia|]. apply returns_ret. split; [done|simpl; lia]. }
  cbn [mbind outcome_bind]. simpl in Hsz2. destruct HI2 as (Hz & Hv2 & Hc2 & Ht).
  destruct (Z.geb_spec sz2 1).
  - replace sz2 with 1 in * by lia. rewrite hdr_get8h_ok by done. cbn [mbind outcome_bind].
    unfold ip_cksum_add_leftover. rewrite htons_high by auto with mem. by rewrite <- Ht.
  - replace sz2 with 0 in * by lia. rewrite <- Ht. cbn [Z.to_nat hsum].
    by rewrite Z.add_0_r, u32_small.
Qed.

(** The four network-order bytes of a 32-bit value. *)
Lemma feed_u32_ok (ctx : ip_cksum_ctx) x :
  0 <= ctx < 4294967296 -> 0 <= x < 4294967296 ->
  exists d, feed_u32 ctx (htonl x) = Ret (u32 (ctx + d)) /\
    hrel d (psum32 x) /\ d <= 131070.
Proof.
  intros Hctx Hx. unfold feed_u32, ip_cksum_feed32ptr. rewrite htonl_encode.
  set (m := mem_of 0 _).
  assert (bytes_ok m) as Hm by (apply mem_of_bytes_ok; repeat constructor; lia).
  assert (valid m 0 4) as Hv by apply mem_of_valid.
  assert (psum32 x = be16 m 0 + be16 m (0 + 2)) as ->.
  { unfold be16, psum32, m. rewrite !rd_mem_of by lia.
    change (Z.to_nat 0) with 0%nat. change (Z.to_nat (0 + 1)) with 1%nat.
    change (Z.to_nat (0 + 2)) with 2%nat. change (Z.to_nat (0 + 2 + 1)) with 3%nat. simpl.
    change 16777216 with (65536 * 256). rewrite <- (Z.div_div x 65536 256) by lia.
    assert (0 <= x / 65536 < 65536) by lia. assert (x / 256 mod 256 = x mod 65536 / 256) by lia.
    lia. }
  clearbody m.
  rewrite !hdr_get16h_ok by solve_valid. cbn [mbind outcome_bind].
  pose proof (hrel_host16 m 0 Hm) as [H0 ?]. pose proof (hrel_host16 m (0 + 2) Hm) as [H2 ?].
  exists (host16 m 0 + host16 m (0 + 2)). unfold ip_cksum_add16. rewrite u32_add_l.
  split; [do 2 f_equal; lia|]. split; [|lia].
  by apply hrel_add.
Qed.
End host_order.

(** ** Sums over memory *)

Lemma bsum_frame m m' p n :
  (forall i, p <= i < p + Z.of_nat n -> rd m' i = rd m i) -> bsum m' p n = bsum m p n.
Proof.
  revert p. induction (lt_wf n) as [n _ IH]. intros p Hi.
  destruct n as [|[|n]]; cbn [bsum]; [done|by rewrite Hi by lia|].
  unfold be16. rewrite !Hi by lia. rewrite IH; [done|lia|]. intros i ?. apply Hi. lia.
Qed.

Lemma bsum_shift m p m' p' n :
  (forall i, 0 <= i < Z.of_nat n -> rd m' (p' + i) = rd m (p + i)) -> bsum m' p' n = bsum m p n.
Proof.
  revert p p'. induction (lt_wf n) as [n _ IH]. intros p p' Hi.
  pose proof (Hi 0) as E0. rewrite !Z.add_0_r in E0.
  destruct n as [|[|n]]; cbn [bsum]; [done|by rewrite E0 by lia|].
  unfold be16. rewrite E0, (Hi 1) by lia. f_equal. apply IH; [lia|].
  intros i ?. rewrite <- !Z.add_assoc. apply Hi. lia.
Qed.

Lemma bsum_nonneg m p n : bytes_ok m -> 0 <= bsum m p n.
Proof. intros Hm. by destruct (@hsum_hrel little_endian_host m p n Hm) as [(_ & ? & _) _]. Qed.

Lemma bsum_app m p a n :
  bsum m p (2 * a + n) = bsum m p (2 * a) + bsum m (p + 2 * Z.of_nat a) n.
Proof.
  revert p. induction a as [|a IH]; intros p.
  - cbn [bsum Nat.mul Nat.add]. by rewrite Z.mul_0_r, Z.add_0_r.
  - replace (2 * S a + n)%nat with (S (S (2 * a + n))) by lia.
    replace (2 * S a)%nat with (S (S (2 * a))) by lia. cbn [bsum]. rewrite IH.
    replace (p + 2 + 2 * Z.of_nat a) with (p + 2 * Z.of_nat (S a)) by lia. lia.
Qed.

Lemma bsum_split m p k n :
  0 <= k -> k mod 2 = 0 -> k + 2 <= n ->
  bsum m p (Z.to_nat n) =
    bsum m p (Z.to_nat k) + be16 m (p + k) + bsum m (p + k + 2) (Z.to_nat (n - k - 2)).
Proof.
  intros H0 Hk Hn. set (a := Z.to_nat (k / 2)).
  replace (Z.to_nat n) with (2 * a + S (S (Z.to_nat (n - k - 2))))%nat by lia.
  rewrite bsum_app. cbn [bsum]. replace (2 * a)%nat with (Z.to_nat k) by lia.
  replace (p + 2 * Z.of_nat a) with (p + k) by lia. lia.
Qed.

Lemma rd_wr16_out m q v i : i < q \/ q + 2 <= i -> rd (wr16 m q v) i = rd m i.
Proof. intros Hi. rd_simpl. done. Qed.

Lemma rd_wr32_out m q v i : i < q \/ q + 4 <= i -> rd (wr32 m q v) i = rd m i.
Proof. intros Hi. rd_simpl. done. Qed.

Lemma be16_wr16 m q v : be16 (wr16 m q v) q = v mod 65536.
Proof. rd_simpl. lia. Qed.

(** Writing an aligned 16-bit field changes the sum by the difference. *)
Lemma bsum_wr16 m p k n v :
  0 <= k -> k mod 2 = 0 -> k + 2 <= n ->
  bsum (wr16 m (p + k) v) p (Z.to_nat n) =
    bsum m p (Z.to_nat n) - be16 m (p + k) + v mod 65536.
Proof.
  intros H0 Hk Hn. rewrite !(bsum_split _ p k n) by done. rewrite be16_wr16.
  rewrite (bsum_frame m (wr16 m (p + k) v) p), (bsum_frame m (wr16 m (p + k) v) (p + k + 2))
    by (intros; apply rd_wr16_out; lia). lia.
Qed.

Lemma bsum_wr16_out m q v p n :
  q + 2 <= p \/ p + n <= q -> 0 <= n ->
  bsum (wr16 m q v) p (Z.to_nat n) = bsum m p (Z.to_nat n).
Proof. intros. apply bsum_frame. intros. apply rd_wr16_out. lia. Qed.

Lemma wr32_wr16 m q v : wr32 m q v = wr16 (wr16 m q (v / 65536)) (q + 2) v.
Proof. done. Qed.

Lemma be16_wr16_out m q v i : i + 2 <= q \/ q + 2 <= i -> be16 (wr16 m q v) i = be16 m i.
Proof. intros Hi. unfold be16. by rewrite !rd_wr16_out by lia. Qed.

Lemma psum32_be32 m q : bytes_ok m -> psum32 (be32 m q) = be16 m q + be16 m (q + 2).
Proof.
  intros Hm. unfold psum32, be32. pose proof (be16_range m q Hm).
  pose proof (be16_range m (q + 2) Hm). lia.
Qed.

Lemma bsum_wr32 m p k n v :
  bytes_ok m -> 0 <= k -> k mod 2 = 0 -> k + 4 <= n -> 0 <= v < 4294967296 ->
  bsum (wr32 m (p + k) v) p (Z.to_nat n) =
    bsum m p (Z.to_nat n) - psum32 (be32 m (p + k)) + psum32 v.
Proof.
  intros Hm H0 Hk Hn Hv. rewrite wr32_wr16, psum32_be32 by done.
  replace (p + k + 2) with (p + (k + 2)) by lia.
  rewrite bsum_wr16, bsum_wr16, be16_wr16_out by lia. unfold psum32. lia.
Qed.

Lemma bsum_wr32_out m q v p n :
  q + 4 <= p \/ p + n <= q -> 0 <= n ->
  bsum (wr32 m q v) p (Z.to_nat n) = bsum m p (Z.to_nat n).
Proof. intros. apply bsum_frame. intros. apply rd_wr32_out. lia. Qed.

Lemma be32_frame m m' q :
  (forall i, q <= i < q + 4 -> rd m' i = rd m i) -> be32 m' q = be32 m q.
Proof. intros Hi. unfold be32, be16. by rewrite !Hi by lia. Qed.

Lemma be32_wr32 m q v : 0 <= v < 4294967296 -> be32 (wr32 m q v) q = v.
Proof. intros Hv. rd_simpl. lia. Qed.

(** Writing the complement of the sum makes the sum verify. *)
Lemma rfc1071_verifies s : 0 <= s -> rfc1071 (s + rfc1071 s) = 0.
Proof.
  intros Hs. unfold rfc1071. pose proof (oc_range s Hs). pose proof (oc_mod s Hs).
  rewrite (proj2 (oc_full (s + (65535 - oc s)) ltac:(pose proof (oc_zero s Hs); lia))); lia.
Qed.

Lemma rfc1071_zero s : 0 <= s -> rfc1071 s = 0 <-> 0 < s /\ s mod 65535 = 0.
Proof.
  intros Hs. unfold rfc1071. pose proof (oc_zero s Hs).
  destruct (decide (s = 0)) as [->|]; [cbn; lia|].
  pose proof (oc_full s ltac:(lia)). lia.
Qed.

Lemma rfc1071_range s : 0 <= s -> 0 <= rfc1071 s <= 65535.
Proof. intros Hs. unfold rfc1071. pose proof (oc_range s Hs). lia. Qed.

Section calc_lemmas.
Context `{Host}.

Lemma ip_hdr_cksum_calc_ok m p iplen :
  bytes_ok m -> valid m p 20 -> valid m p (rd m p mod 16 * 4) -> rd m p mod 16 * 4 <= iplen ->
  ip_hdr_cksum_calc m p iplen = Ret (rfc1071 (bsum m p (Z.to_nat (rd m p mod 16 * 4)))).
Proof.
  intros Hm Hv20 Hv Hle. unfold ip_hdr_cksum_calc. hdr_run.
  set (ihl := rd m p mod 16 * 4) in *. assert (0 <= ihl <= 60) by lia.
  destruct (Z.gtb_spec ihl iplen); [lia|]. unfold IP_CKSUM_CTX_INITER.
  rewrite ip_cksum_feed_ok by (done || lia). cbn [mbind outcome_bind].
  destruct (hsum_hrel m p (Z.to_nat ihl) Hm) as [Hr Hb]. destruct Hr as (Hr0 & Hr).
  rewrite Z.add_0_l, u32_small by lia. apply ip_cksum_postprocess_ok; [done|lia].
Qed.

Lemma feed_u32_hrel (ctx : ip_cksum_ctx) x b lim :
  hrel ctx b -> ctx <= lim -> 0 <= x < 4294967296 -> lim + 131070 < 4294967296 ->
  exists ctx', feed_u32 ctx (htonl x) = Ret ctx' /\ hrel ctx' (b + psum32 x) /\
    ctx' <= lim + 131070.
Proof.
  intros Hr Hlim Hx Hmax. pose proof Hr as (Hr0 & _).
  destruct (feed_u32_ok ctx x ltac:(lia) Hx) as (d & -> & Hd & Hdl).
  pose proof Hd as (Hd0 & _). exists (ctx + d). rewrite u32_small by lia.
  split; [done|]. split; [by apply hrel_add|lia].
Qed.

Lemma add16_hrel ctx x b lim :
  hrel ctx b -> ctx <= lim -> 0 <= x <= 65535 -> lim + 65535 < 4294967296 ->
  hrel (ip_cksum_add16 ctx (htons x)) (b + x) /\ ip_cksum_add16 ctx (htons x) <= lim + 65535.
Proof.
  intros Hr Hlim Hx Hmax. destruct (hrel_htons x Hx) as [Hh Hle].
  pose proof Hr as (Hr0 & _). pose proof Hh as (Hh0 & _). unfold ip_cksum_add16.
  rewrite u32_small by lia. split; [by apply hrel_add|lia].
Qed.

(** Feeding the transport segment and finishing. *)
Lemma feed_finish (ctx : ip_cksum_ctx) b m p sz :
  bytes_ok m -> valid m p sz -> 0 <= sz <= 65535 -> hrel ctx b -> ctx <= 2000000 ->
  (ctx ← ip_cksum_feed ctx m p sz; ip_cksum_postprocess ctx) =
    Ret (rfc1071 (b + bsum m p (Z.to_nat sz))).
Proof.
  intros Hm Hv Hsz Hr Hle. pose proof Hr as (Hr0 & _).
  rewrite ip_cksum_feed_ok by (done || lia). cbn [mbind outcome_bind].
  destruct (hsum_hrel m p (Z.to_nat sz) Hm) as [Hs Hb]. pose proof Hs as (Hs0 & _).
  rewrite u32_small by lia. apply ip_cksum_postprocess_ok; [by apply hrel_add|lia].
Qed.

Definition pseudo4 (m : mem) (iphdr proto l4len : Z) : Z :=
  psum32 (be32 m (iphdr + 12)) + psum32 (be32 m (iphdr + 16)) + proto + l4len.

Lemma l4_cksum_calc_ok proto m iphdr iplen l4hdr l4len :
  bytes_ok m -> valid m iphdr 20 -> 20 <= iplen -> valid m l4hdr l4len ->
  0 <= l4len <= 65535 -> 0 <= proto <= 65535 ->
  l4_cksum_calc proto m iphdr iplen l4hdr l4len =
    Ret (rfc1071 (pseudo4 m iphdr proto l4len + bsum m l4hdr (Z.to_nat l4len))).
Proof.
  intros Hm Hv Hip Hv4 Hlen Hpr. unfold l4_cksum_calc, ip_src, ip_dst, IP_CKSUM_CTX_INITER.
  destruct (Z.ltb_spec iplen 20); [lia|]. hdr_run.
  destruct (feed_u32_hrel 0 (be32 m (iphdr + 12)) 0 0) as (c1 & -> & Hc1 & Hl1);
    [apply hrel_zero|lia|auto with mem|lia|]. cbn [mbind outcome_bind].
  destruct (feed_u32_hrel c1 (be32 m (iphdr + 16)) _ _ Hc1 Hl1) as (c2 & -> & Hc2 & Hl2);
    [auto with mem|lia|]. cbn [mbind outcome_bind].
  destruct (add16_hrel c2 proto _ _ Hc2 Hl2 Hpr ltac:(lia)) as [Hc3 Hl3].
  destruct (add16_hrel _ l4len _ _ Hc3 Hl3 Hlen ltac:(lia)) as [Hc4 Hl4].
  by apply feed_finish; try lia.
Qed.
End calc_lemmas.

(** ** Incremental updates, modulo 65535

    The new checksum differs from the old one by the difference of the
    words, so a sum that verified still does. *)
Section update_lemmas.
Context `{Host}.

Lemma ip_update_cksum16_mod ck old new :
  0 <= ck <= 65535 -> 0 <= old <= 65535 -> 0 <= new <= 65535 ->
  exists ck', ip_update_cksum16 ck old new = Ret ck' /\ 0 <= ck' <= 65535 /\
    (ck' + new - ck - old) mod 65535 = 0.
Proof.
  intros. rewrite ip_update_cksum16_oc by done. eexists. split; [done|].
  pose proof (oc_range (65535 - ck + (65535 - old) + new) ltac:(lia)).
  pose proof (oc_mod (65535 - ck + (65535 - old) + new) ltac:(lia)).
  unfold rfc1071. lia.
Qed.

Lemma ip_update_cksum32_mod ck old new :
  0 <= ck <= 65535 -> 0 <= old < 4294967296 -> 0 <= new < 4294967296 ->
  exists ck', ip_update_cksum32 ck old new = Ret ck' /\ 0 <= ck' <= 65535 /\
    (ck' + psum32 new - ck - psum32 old) mod 65535 = 0.
Proof.
  intros Hck Ho Hn. unfold ip_update_cksum32.
  rewrite !(Z.land_ones _ 16 : 0 <= 16 -> Z.land _ 0xFFFF = _), !shiftr_div by lia.
  change (2 ^ 16) with 65536. rewrite !u16_small by lia.
  destruct (ip_update_cksum16_mod ck (old / 65536) (new / 65536)) as (x & -> & Hx & Hxm); [lia..|].
  cbn [mbind outcome_bind].
  destruct (ip_update_cksum16_mod x (old mod 65536) (new mod 65536)) as (y & -> & Hy & Hym); [lia..|].
  exists y. split; [done|]. split; [done|]. unfold psum32. lia.
Qed.

Lemma psum32_range x : 0 <= x < 4294967296 -> 0 <= psum32 x.
Proof. unfold psum32. lia. Qed.

(** A verifying transport segment, as a congruence. *)
Lemma l4_verifies proto m iphdr iplen l4hdr l4len :
  bytes_ok m -> valid m iphdr 20 -> 20 <= iplen -> valid m l4hdr l4len ->
  0 <= l4len <= 65535 -> 0 < proto <= 65535 ->
  l4_cksum_calc proto m iphdr iplen l4hdr l4len = Ret 0 <->
  (pseudo4 m iphdr proto l4len + bsum m l4hdr (Z.to_nat l4len)) mod 65535 = 0.
Proof.
  intros Hm Hv Hip Hv4 Hlen Hpr. rewrite l4_cksum_calc_ok by (done || lia).
  pose proof (bsum_nonneg m l4hdr (Z.to_nat l4len) Hm).
  assert (0 < pseudo4 m iphdr proto l4len).
  { unfold pseudo4. pose proof (psum32_range _ (be32_range m (iphdr + 12) Hm)).
    pose proof (psum32_range _ (be32_range m (iphdr + 16) Hm)). lia. }
  split.
  - intros [= E]. rewrite rfc1071_zero in E by lia. tauto.
  - intros E. f_equal. apply rfc1071_zero; [lia|]. split; [lia|done].
Qed.
End update_lemmas.

(** ** The IPv6 pseudo-header *)
Section ipv6_lemmas.
Context `{Host}.

Definition asum6 (m : mem) (a : Z) : Z :=
  psum32 (be32 m a) + psum32 (be32 m (a + 4)) + psum32 (be32 m (a + 8)) + psum32 (be32 m (a + 12)).

Lemma feed_addr6_hrel (ctx : ip_cksum_ctx) m a b lim :
  bytes_ok m -> valid m a 16 -> hrel ctx b -> ctx <= lim -> lim + 524280 < 4294967296 ->
  exists ctx', feed_addr6 ctx m a = Ret ctx' /\ hrel ctx' (b + asum6 m a) /\
    ctx' <= lim + 524280.
Proof.
  intros Hm Hv Hr Hl Hmax. unfold feed_addr6. rewrite !hdr_get32n_ok by (done || solve_valid).
  cbn [mbind outcome_bind].
  destruct (feed_u32_hrel ctx (be32 m a) _ _ Hr Hl) as (c1 & -> & Hc1 & Hl1);
    [auto with mem|lia|]. cbn [mbind outcome_bind].
  destruct (feed_u32_hrel c1 (be32 m (a + 4)) _ _ Hc1 Hl1) as (c2 & -> & Hc2 & Hl2);
    [auto with mem|lia|]. cbn [mbind outcome_bind].
  destruct (feed_u32_hrel c2 (be32 m (a + 8)) _ _ Hc2 Hl2) as (c3 & -> & Hc3 & Hl3);
    [auto with mem|lia|]. cbn [mbind outcome_bind].
  destruct (feed_u32_hrel c3 (be32 m (a + 12)) _ _ Hc3 Hl3) as (c4 & -> & Hc4 & Hl4);
    [auto with mem|lia|].
  exists c4. split; [done|]. split; [|lia]. unfold asum6. by rewrite !Z.add_assoc in *.
Qed.

(** [udp6_cksum_calc] reads the words in host order instead of swapping them
    twice: the same bytes. *)
Lemma hdr_get32h_htonl m p :
  bytes_ok m -> valid m p 4 -> hdr_get32h m p = Ret (htonl (be32 m p)).
Proof.
  intros Hm Hv. unfold hdr_get32h. rewrite loadn4_ok by done. cbn [fmap outcome_fmap mbind outcome_bind].
  f_equal. unfold htonl, ntohl, host_decode, be32, be16.
  replace (p + 2 + 1) with (p + 3) by lia.
  pose proof (rd_range m p Hm). pose proof (rd_range m (p + 1) Hm).
  pose proof (rd_range m (p + 2) Hm). pose proof (rd_range m (p + 3) Hm).
  destruct host_big_endian; cbn; [lia|]. rewrite byteswap32_arith. lia.
Qed.

Lemma feed_addr6h_same (ctx : ip_cksum_ctx) m a :
  bytes_ok m -> valid m a 16 -> feed_addr6h ctx m a = feed_addr6 ctx m a.
Proof.
  intros Hm Hv. unfold feed_addr6h, feed_addr6.
  rewrite !hdr_get32h_htonl, !hdr_get32n_ok by (done || solve_valid). done.
Qed.

(** The common text of [tcp6_cksum_calc] and [udp6_cksum_calc]. *)
Definition pseudo6 (m : mem) (iphdr proto l4len : Z) : Z :=
  asum6 m (iphdr + 8) + asum6 m (iphdr + 24) + psum32 l4len + psum32 proto.

Lemma l46_cksum_calc_ok proto m iphdr l4hdr l4len :
  bytes_ok m -> valid m iphdr 40 -> valid m l4hdr l4len ->
  0 <= l4len <= 65535 -> 0 <= proto <= 65535 ->
  (ctx ← feed_addr6 IP_CKSUM_CTX_INITER m (ipv6_const_src iphdr);
   ctx ← feed_addr6 ctx m (ipv6_const_dst iphdr);
   ctx ← feed_u32 ctx (htonl l4len);
   ctx ← feed_u32 ctx (htonl proto);
   ctx ← ip_cksum_feed ctx m l4hdr l4len;
   ip_cksum_postprocess ctx) =
    Ret (rfc1071 (pseudo6 m iphdr proto l4len + bsum m l4hdr (Z.to_nat l4len))).
Proof.
  intros Hm Hv Hv4 Hlen Hpr. unfold IP_CKSUM_CTX_INITER, ipv6_const_src, ipv6_const_dst.
  change (8 + 16) with 24.
  destruct (feed_addr6_hrel 0 m (iphdr + 8) 0 0 Hm) as (c1 & -> & Hc1 & Hl1);
    [solve_valid|apply hrel_zero|lia..|]. cbn [mbind outcome_bind].
  destruct (feed_addr6_hrel c1 m (iphdr + 24) _ _ Hm ltac:(solve_valid) Hc1 Hl1 ltac:(lia))
    as (c2 & -> & Hc2 & Hl2). cbn [mbind outcome_bind].
  destruct (feed_u32_hrel c2 l4len _ _ Hc2 Hl2 ltac:(lia) ltac:(lia)) as (c3 & -> & Hc3 & Hl3).
  cbn [mbind outcome_bind].
  destruct (feed_u32_hrel c3 proto _ _ Hc3 Hl3 ltac:(lia) ltac:(lia)) as (c4 & -> & Hc4 & Hl4).
  cbn [mbind outcome_bind]. by apply feed_finish; try lia.
Qed.

Lemma tcp6_cksum_calc_ok m iphdr iplen l4hdr l4len :
  bytes_ok m -> valid m iphdr 40 -> 40 <= iplen -> valid m l4hdr l4len -> 0 <= l4len <= 65535 ->
  tcp6_cksum_calc m iphdr iplen l4hdr l4len =
    Ret (rfc1071 (pseudo6 m iphdr 6 l4len + bsum m l4hdr (Z.to_nat l4len))).
Proof.
  intros Hm Hv Hip Hv4 Hlen. unfold tcp6_cksum_calc. destruct (Z.ltb_spec iplen 40); [lia|].
  by apply l46_cksum_calc_ok.
Qed.

Lemma udp6_cksum_calc_ok m iphdr iplen l4hdr l4len :
  bytes_ok m -> valid m iphdr 40 -> 40 <= iplen -> valid m l4hdr l4len -> 0 <= l4len <= 65535 ->
  udp6_cksum_calc m iphdr iplen l4hdr l4len =
    Ret (rfc1071 (pseudo6 m iphdr 17 l4len + bsum m l4hdr (Z.to_nat l4len))).
Proof.
  intros Hm Hv Hip Hv4 Hlen. unfold udp6_cksum_calc. destruct (Z.ltb_spec iplen 40); [lia|].
  rewrite <- (l46_cksum_calc_ok 17) by done.
  rewrite feed_addr6h_same by (unfold ipv6_const_src; done || solve_valid).
  destruct (feed_addr6 _ _ _); cbn [mbind outcome_bind]; [|done..].
  by rewrite feed_addr6h_same by (unfold ipv6_const_dst; done || solve_valid).
Qed.
End ipv6_lemmas.

(** ** Checksum fields and frames *)

Lemma lookup_wr8_out m q v i : i <> q -> wr8 m q v !! i = m !! i.
Proof. intros. unfold wr8. by rewrite lookup_insert_ne. Qed.

Lemma lookup_wr16_out m q v i : i < q \/ q + 2 <= i -> wr16 m q v !! i = m !! i.
Proof. intros. unfold wr16. by rewrite !lookup_wr8_out by lia. Qed.

Lemma lookup_wr32_out m q v i : i < q \/ q + 4 <= i -> wr32 m q v !! i = m !! i.
Proof. intros. unfold wr32. by rewrite !lookup_wr16_out by lia. Qed.

Lemma be16_frame m m' q :
  (forall i, q <= i < q + 2 -> rd m' i = rd m i) -> be16 m' q = be16 m q.
Proof. intros Hi. unfold be16. by rewrite !Hi by lia. Qed.

Lemma pseudo4_frame m m' iphdr proto l :
  (forall i, iphdr + 12 <= i < iphdr + 20 -> rd m' i = rd m i) ->
  pseudo4 m' iphdr proto l = pseudo4 m iphdr proto l.
Proof.
  intros Hi. unfold pseudo4.
  by rewrite (be32_frame m m' (iphdr + 12)), (be32_frame m m' (iphdr + 16))
    by (intros; apply Hi; lia).
Qed.

Lemma pseudo6_frame m m' iphdr proto l :
  (forall i, iphdr + 8 <= i < iphdr + 40 -> rd m' i = rd m i) ->
  pseudo6 m' iphdr proto l = pseudo6 m iphdr proto l.
Proof.
  intros Hi. unfold pseudo6, asum6. by rewrite !(be32_frame m m') by (intros; apply Hi; lia).
Qed.

(** Storing the checksum of a block whose checksum field was zeroed. *)
Lemma bsum_store m p k n b :
  bytes_ok m -> 0 <= b -> 0 <= k -> k mod 2 = 0 -> k + 2 <= n ->
  let m0 := wr16 m (p + k) 0 in
  let c := rfc1071 (b + bsum m0 p (Z.to_nat n)) in
  rfc1071 (b + bsum (wr16 m0 (p + k) c) p (Z.to_nat n)) = 0.
Proof.
  intros Hm Hb Hk He Hn m0 c. rewrite bsum_wr16 by done. unfold m0 at 2. rewrite be16_wr16.
  pose proof (bsum_nonneg m0 p (Z.to_nat n) (bytes_ok_wr16 _ _ _ Hm)).
  pose proof (rfc1071_range (b + bsum m0 p (Z.to_nat n)) ltac:(lia)).
  replace (b + _) with (b + bsum m0 p (Z.to_nat n) + c) by lia.
  apply rfc1071_verifies. lia.
Qed.

Lemma ip_hdr_verifies `{Host} m p iplen :
  bytes_ok m -> valid m p 20 -> valid m p (rd m p mod 16 * 4) ->
  20 <= rd m p mod 16 * 4 <= iplen ->
  ip_hdr_cksum_calc m p iplen = Ret 0 <->
  bsum m p (Z.to_nat (rd m p mod 16 * 4)) mod 65535 = 0.
Proof.
  intros Hm Hv20 Hv Hl. rewrite ip_hdr_cksum_calc_ok by (done || lia).
  set (n := rd m p mod 16 * 4) in *. pose proof (rd_range m p Hm).
  assert (0 < bsum m p (Z.to_nat n)).
  { rewrite (bsum_split m p 0 n) by lia. rewrite Z.add_0_r.
    pose proof (bsum_nonneg m (p + 2) (Z.to_nat (n - 0 - 2)) Hm).
    pose proof (rd_range m (p + 1) Hm). unfold be16. simpl. lia. }
  split.
  - intros [= E]. rewrite rfc1071_zero in E by lia. tauto.
  - intros E. f_equal. apply rfc1071_zero; [lia|]. done.
Qed.

(** Replacing a word of a summed block and moving the checksum with it. *)
Lemma bsum_update16 m p n kc k ck v :
  bytes_ok m -> 0 <= k -> k mod 2 = 0 -> k + 2 <= n ->
  0 <= kc -> kc mod 2 = 0 -> kc + 2 <= n -> k <> kc ->
  0 <= ck <= 65535 -> 0 <= v <= 65535 ->
  bsum (wr16 (wr16 m (p + kc) ck) (p + k) v) p (Z.to_nat n) =
    bsum m p (Z.to_nat n) + (ck + v - be16 m (p + kc) - be16 m (p + k)).
Proof.
  intros Hm **. rewrite bsum_wr16, bsum_wr16, be16_wr16_out by lia. lia.
Qed.

Lemma bsum_update32 m p n kc k ck v :
  bytes_ok m -> 0 <= k -> k mod 2 = 0 -> k + 4 <= n ->
  0 <= kc -> kc mod 2 = 0 -> kc + 2 <= n -> kc + 2 <= k \/ k + 4 <= kc ->
  0 <= ck <= 65535 -> 0 <= v < 4294967296 ->
  bsum (wr32 (wr16 m (p + kc) ck) (p + k) v) p (Z.to_nat n) =
    bsum m p (Z.to_nat n) + (ck + psum32 v - be16 m (p + kc) - psum32 (be32 m (p + k))).
Proof.
  intros Hm **. rewrite bsum_wr32, bsum_wr16 by (auto with mem || lia).
  rewrite (be32_frame m) by (intros; apply rd_wr16_out; lia). lia.
Qed.

Lemma mod_sum_zero a b : a mod 65535 = 0 -> b mod 65535 = 0 -> (a + b) mod 65535 = 0.
Proof. intros Ha Hb. by rewrite Z.add_mod, Ha, Hb by lia. Qed.

(** ** Properties *)

(** On a little-endian and on a big-endian host alike, the header checksum
    computed over host-order words is the RFC 1071 checksum of the header's
    big-endian words, and a header longer than the block aborts. *)
Theorem ip_hdr_cksum_calc_rfc1071 `{Host} m p iplen :
  bytes_ok m -> valid m p 20 ->
  let ihl := rd m p mod 16 * 4 in
  valid m p ihl ->
  ip_hdr_cksum_calc m p iplen =
    if ihl <=? iplen then Ret (rfc1071 (bsum m p (Z.to_nat ihl))) else Abort.
Proof.
  intros Hm Hv20 ihl Hv. destruct (Z.leb_spec ihl iplen); [by apply ip_hdr_cksum_calc_ok|].
  unfold ip_hdr_cksum_calc. hdr_run. by destruct (Z.gtb_spec (rd m p mod 16 * 4) iplen); [|lia].
Qed.

Lemma ip_hdr_cksum_calc_rfc1071_witness :
  ip_hdr_cksum_calc (H := little_endian_host) sample_ipv4 0 20 = Ret 0 /\
  ip_hdr_cksum_calc (H := big_endian_host) sample_ipv4 0 20 = Ret 0.
Proof.
  split; (rewrite ip_hdr_cksum_calc_rfc1071;
    [ vm_compute; reflexivity
    | apply bytes_okb_ok; vm_compute; reflexivity
    | apply validb_valid; vm_compute; reflexivity
    | apply validb_valid; vm_compute; reflexivity ]).
Defined.

(** C16: the TCP and UDP checksums over IPv4 and over IPv6 are the RFC 1071
    checksums of the pseudo-header followed by the segment, where the
    pseudo-header has the addresses of the IP header (with an IPv6 routing header
    the RFC wants the final destination instead), for every segment length a
    16-bit length can have (odd ones included) and for both byte
    orders: the 32-bit running sum never overflows. *)
Theorem transport_cksum_calc_rfc1071 `{Host} m iphdr iplen l4hdr l4len :
  bytes_ok m -> valid m l4hdr l4len -> 0 <= l4len <= 65535 ->
  let seg := bsum m l4hdr (Z.to_nat l4len) in
  (valid m iphdr 20 -> 20 <= iplen ->
    tcp_cksum_calc m iphdr iplen l4hdr l4len = Ret (rfc1071 (pseudo4 m iphdr 6 l4len + seg)) /\
    udp_cksum_calc m iphdr iplen l4hdr l4len = Ret (rfc1071 (pseudo4 m iphdr 17 l4len + seg))) /\
  (valid m iphdr 40 -> 40 <= iplen ->
    tcp6_cksum_calc m iphdr iplen l4hdr l4len = Ret (rfc1071 (pseudo6 m iphdr 6 l4len + seg)) /\
    udp6_cksum_calc m iphdr iplen l4hdr l4len = Ret (rfc1071 (pseudo6 m iphdr 17 l4len + seg))).
Proof.
  intros Hm Hv Hl seg. split; intros Hip Hle; split.
  - by apply l4_cksum_calc_ok.
  - by apply l4_cksum_calc_ok.
  - by apply tcp6_cksum_calc_ok.
  - by apply udp6_cksum_calc_ok.
Qed.

(** An IPv4 header followed by a TCP header with three bytes of payload. *)
Definition sample_tcp4 : mem :=
  mem_of 0 [0x45; 0; 0; 43; 0x1c; 0x46; 0x40; 0; 64; 6; 0xb1; 0xf7;
            172; 16; 10; 99; 172; 16; 10; 12;
            0x04; 0xd2; 0; 80; 1; 2; 3; 4; 5; 6; 7; 8; 0x50; 0x18; 0xff; 0xff; 0x69; 0xa1; 0; 0;
            0x61; 0x62; 0x63].

Ltac mem_check :=
  first [ apply bytes_okb_ok; vm_compute; reflexivity
        | apply validb_valid; vm_compute; reflexivity
        | lia ].

Lemma transport_cksum_calc_rfc1071_witness :
  tcp_cksum_calc (H := little_endian_host) sample_tcp4 0 20 20 23 = Ret 0.
Proof.
  destruct (@transport_cksum_calc_rfc1071 little_endian_host sample_tcp4 0 20 20 23)
    as [[E _] _]; try mem_check.
  rewrite E. vm_compute. reflexivity.
Defined.

(** The header with its checksum field recomputed. *)
Definition with_cksum (m : mem) (p : Z) : mem :=
  wr16 (wr16 m (p + 10) 0) (p + 10)
    (rfc1071 (bsum (wr16 m (p + 10) 0) p (Z.to_nat (rd m p mod 16 * 4)))).

Lemma with_cksum_out m p q : q < p + 10 \/ p + 12 <= q -> with_cksum m p !! q = m !! q.
Proof. intros Hq. unfold with_cksum. by rewrite !lookup_wr16_out by lia. Qed.

Lemma ip_set_hdr_cksum_calc_ok `{Host} m p iplen :
  bytes_ok m -> valid m p (rd m p mod 16 * 4) -> 20 <= rd m p mod 16 * 4 <= iplen ->
  ip_set_hdr_cksum_calc m p iplen = Ret (with_cksum m p) /\
  ip_hdr_cksum_calc (with_cksum m p) p iplen = Ret 0.
Proof.
  intros Hm Hv Hl. unfold ip_set_hdr_cksum_calc, ip_set_hdr_cksum, with_cksum.
  destruct (Z.ltb_spec iplen 20); [lia|]. hdr_run.
  assert (forall v, rd (wr16 m (p + 10) v) p = rd m p) as E
    by (intros; apply rd_wr16_out; lia).
  rewrite ip_hdr_cksum_calc_ok by (rewrite ?E; auto with mem || solve_valid || lia).
  cbn [mbind outcome_bind]. rewrite E. hdr_run. split; [done|].
  rewrite ip_hdr_cksum_calc_ok; rewrite ?rd_wr16_out by lia;
    [|auto with mem|solve_valid|solve_valid|lia].
  f_equal. apply (bsum_store m p 10 (rd m p mod 16 * 4) 0); (done || lia).
Qed.

(** A computed checksum is never 0xffff: some word of a header is not 0. *)
Lemma with_cksum_not_ones m p :
  bytes_ok m -> 20 <= rd m p mod 16 * 4 -> be16 (with_cksum m p) (p + 10) <> 65535.
Proof.
  intros Hm H20. unfold with_cksum. rewrite be16_wr16. set (n := rd m p mod 16 * 4) in *.
  set (m0 := wr16 m (p + 10) 0). assert (bytes_ok m0) as Hm0 by (unfold m0; auto with mem).
  assert (0 < bsum m0 p (Z.to_nat n)) as Hpos.
  { rewrite (bsum_split m0 p 0 n) by lia. rewrite Z.add_0_r.
    pose proof (bsum_nonneg m0 (p + 2) (Z.to_nat (n - 0 - 2)) Hm0).
    pose proof (rd_range m0 (p + 1) Hm0). pose proof (rd_range m p Hm). unfold be16.
    replace (rd m0 p) with (rd m p) by (symmetry; apply rd_wr16_out; lia). simpl. lia. }
  pose proof (rfc1071_range _ (Z.lt_le_incl _ _ Hpos)). unfold rfc1071 in *.
  pose proof (oc_zero _ (Z.lt_le_incl _ _ Hpos)). lia.
Qed.

(** [ip_set_hdr_cksum_calc] stores a checksum that verifies, and changes no
    other byte of memory. *)
Theorem ip_set_hdr_cksum_calc_verifies `{Host} m p iplen :
  bytes_ok m -> valid m p (rd m p mod 16 * 4) -> 20 <= rd m p mod 16 * 4 <= iplen ->
  returns (ip_set_hdr_cksum_calc m p iplen) (fun m' =>
    ip_hdr_cksum_calc m' p iplen = Ret 0 /\
    forall q, q < p + 10 \/ p + 12 <= q -> m' !! q = m !! q).
Proof.
  intros Hm Hv Hl. destruct (ip_set_hdr_cksum_calc_ok m p iplen Hm Hv Hl) as [-> H0].
  apply returns_ret. split; [done|]. intros q Hq. by apply with_cksum_out.
Qed.

Lemma ip_set_hdr_cksum_calc_verifies_witness :
  returns (ip_set_hdr_cksum_calc (H := little_endian_host) (wr16 sample_ipv4 10 0) 0 20) (fun m' =>
    ip_hdr_cksum_calc (H := little_endian_host) m' 0 20 = Ret 0 /\
    forall q, q < 0 + 10 \/ 0 + 12 <= q -> m' !! q = wr16 sample_ipv4 10 0 !! q).
Proof.
  apply (@ip_set_hdr_cksum_calc_verifies little_endian_host);
    [mem_check|mem_check|vm_compute; split; discriminate].
Defined.

Lemma pseudo4_nonneg m iphdr proto l :
  bytes_ok m -> 0 <= proto -> 0 <= l -> 0 <= pseudo4 m iphdr proto l.
Proof.
  intros Hm Hp Hl. unfold pseudo4. pose proof (psum32_range _ (be32_range m (iphdr + 12) Hm)).
  pose proof (psum32_range _ (be32_range m (iphdr + 16) Hm)). lia.
Qed.

Lemma pseudo6_nonneg m iphdr proto l :
  bytes_ok m -> 0 <= proto -> 0 <= l -> 0 <= pseudo6 m iphdr proto l.
Proof.
  intros Hm Hp Hl. unfold pseudo6, asum6.
  assert (forall q, 0 <= psum32 (be32 m q)) by (intros; apply psum32_range; auto with mem).
  assert (forall x, 0 <= x -> 0 <= psum32 x) as Hx by (unfold psum32; intros; lia).
  pose proof (Hx proto Hp). pose proof (Hx l Hl).
  repeat match goal with |- context [psum32 (be32 m ?q)] =>
    let r := fresh in pose proof (H q) as r; revert r; generalize (psum32 (be32 m q)) end.
  intros. lia.
Qed.

(** The four transports: which checksum function, where its field is. *)
Inductive transport := TCP4 | UDP4 | TCP6 | UDP6.
Definition l4_set_calc `{Host} (t : transport) : mem -> Z -> Z -> Z -> Z -> outcome mem :=
  match t with
  | TCP4 => tcp_set_cksum_calc | UDP4 => udp_set_cksum_calc
  | TCP6 => tcp6_set_cksum_calc | UDP6 => udp6_set_cksum_calc
  end.
Definition l4_calc `{Host} (t : transport) : mem -> Z -> Z -> Z -> Z -> outcome Z :=
  match t with
  | TCP4 => tcp_cksum_calc | UDP4 => udp_cksum_calc
  | TCP6 => tcp6_cksum_calc | UDP6 => udp6_cksum_calc
  end.
Definition l4_off (t : transport) : Z := match t with TCP4 | TCP6 => 16 | _ => 6 end.
Definition l4_min (t : transport) : Z := match t with TCP4 | TCP6 => 20 | _ => 8 end.
Definition l3_min (t : transport) : Z := match t with TCP4 | UDP4 => 20 | _ => 40 end.
Definition l4_pseudo (t : transport) (m : mem) (iphdr l4len : Z) : Z :=
  match t with
  | TCP4 => pseudo4 m iphdr 6 l4len | UDP4 => pseudo4 m iphdr 17 l4len
  | TCP6 => pseudo6 m iphdr 6 l4len | UDP6 => pseudo6 m iphdr 17 l4len
  end.

Lemma l4_calc_ok `{Host} t m iphdr iplen l4hdr l4len :
  bytes_ok m -> valid m iphdr (l3_min t) -> l3_min t <= iplen -> valid m l4hdr l4len ->
  0 <= l4len <= 65535 ->
  l4_calc t m iphdr iplen l4hdr l4len =
    Ret (rfc1071 (l4_pseudo t m iphdr l4len + bsum m l4hdr (Z.to_nat l4len))).
Proof.
  intros. destruct t; simpl in *;
    [by apply l4_cksum_calc_ok|by apply l4_cksum_calc_ok|by apply tcp6_cksum_calc_ok
    |by apply udp6_cksum_calc_ok].
Qed.

Lemma l4_pseudo_frame t m m' iphdr l :
  (forall i, iphdr <= i < iphdr + l3_min t -> rd m' i = rd m i) ->
  l4_pseudo t m' iphdr l = l4_pseudo t m iphdr l.
Proof.
  intros Hi. destruct t; simpl in *; (apply pseudo4_frame || apply pseudo6_frame);
    intros; apply Hi; lia.
Qed.

Lemma l4_pseudo_nonneg t m iphdr l : bytes_ok m -> 0 <= l -> 0 <= l4_pseudo t m iphdr l.
Proof. intros. destruct t; simpl; (apply pseudo4_nonneg || apply pseudo6_nonneg); (done || lia). Qed.

Lemma l4_set_calc_eq `{Host} t m iphdr iplen l4hdr l4len :
  l3_min t <= iplen -> l4_min t <= l4len -> valid m l4hdr l4len ->
  l4_set_calc t m iphdr iplen l4hdr l4len =
    (c ← l4_calc t (wr16 m (l4hdr + l4_off t) 0) iphdr iplen l4hdr l4len;
     Ret (wr16 (wr16 m (l4hdr + l4_off t) 0) (l4hdr + l4_off t) c)).
Proof.
  intros Hip Hl Hv.
  assert (forall m', valid m' l4hdr l4len -> forall c,
    hdr_set16n m' (l4hdr + l4_off t) c = Ret (wr16 m' (l4hdr + l4_off t) c)) as Hset.
  { intros. apply hdr_set16n_ok. destruct t; simpl in *; solve_valid. }
  destruct t; cbn [l4_set_calc l4_calc l3_min l4_min l4_off] in *;
    unfold tcp_set_cksum_calc, udp_set_cksum_calc, tcp6_set_cksum_calc, udp6_set_cksum_calc,
      tcp_set_cksum, udp_set_cksum;
    do 2 match goal with |- context [?a <? ?b] => destruct (Z.ltb_spec a b); [lia|] end;
    rewrite Hset by done; cbn [mbind outcome_bind];
    (match goal with |- (?x ≫= _) = _ => destruct x; cbn [mbind outcome_bind]; [|done..] end);
    apply Hset; by apply valid_wr16.
Qed.

(** [tcp_set_cksum_calc], [udp_set_cksum_calc] and their IPv6 versions
    store a checksum with which the segment verifies, and change nothing but
    the checksum field. *)
Theorem transport_set_cksum_calc_verifies `{Host} t m iphdr iplen l4hdr l4len :
  bytes_ok m -> valid m iphdr (l3_min t) -> l3_min t <= iplen ->
  valid m l4hdr l4len -> l4_min t <= l4len <= 65535 -> iphdr + l3_min t <= l4hdr ->
  returns (l4_set_calc t m iphdr iplen l4hdr l4len) (fun m' =>
    l4_calc t m' iphdr iplen l4hdr l4len = Ret 0 /\
    forall q, q < l4hdr + l4_off t \/ l4hdr + l4_off t + 2 <= q -> m' !! q = m !! q).
Proof.
  intros Hm Hvi Hip Hv Hl Hd.
  assert (8 <= l4len /\ l4_off t + 2 <= l4len /\ l4_off t mod 2 = 0 /\ 0 <= l4_off t) as Ho
    by (destruct t; simpl in *; lia).
  rewrite l4_set_calc_eq by (done || lia).
  rewrite l4_calc_ok by (auto with mem || lia). cbn [mbind outcome_bind].
  eapply returns_ret. split.
  - rewrite l4_calc_ok by (auto with mem || lia). f_equal.
    set (m0 := wr16 m (l4hdr + l4_off t) 0).
    rewrite (l4_pseudo_frame t m0 (wr16 m0 _ _)) by (intros; apply rd_wr16_out; lia).
    apply (bsum_store m l4hdr (l4_off t) l4len); try lia; [done|].
    apply l4_pseudo_nonneg; [by apply bytes_ok_wr16|lia].
  - intros q Hq. by rewrite !lookup_wr16_out by lia.
Qed.

Lemma transport_set_cksum_calc_verifies_witness :
  returns (l4_set_calc (H := little_endian_host) TCP4 sample_tcp4 0 20 20 23) (fun m' =>
    l4_calc (H := little_endian_host) TCP4 m' 0 20 20 23 = Ret 0 /\
    forall q, q < 20 + l4_off TCP4 \/ 20 + l4_off TCP4 + 2 <= q -> m' !! q = sample_tcp4 !! q).
Proof.
  apply (@transport_set_cksum_calc_verifies little_endian_host); cbn [l3_min l4_min]; mem_check.
Defined.

(** Rewriting bytes of a header other than its first keeps the header
    length. *)
Lemma ip_hdr_verifies_update `{Host} m m' p iplen :
  bytes_ok m -> bytes_ok m' -> rd m' p = rd m p ->
  valid m p (rd m p mod 16 * 4) -> valid m' p (rd m p mod 16 * 4) ->
  20 <= rd m p mod 16 * 4 <= iplen ->
  (bsum m' p (Z.to_nat (rd m p mod 16 * 4)) - bsum m p (Z.to_nat (rd m p mod 16 * 4))) mod 65535 = 0 ->
  ip_hdr_cksum_calc m p iplen = Ret 0 -> ip_hdr_cksum_calc m' p iplen = Ret 0.
Proof.
  intros Hm Hm' E Hv Hv' Hl Hd H0.
  apply ip_hdr_verifies in H0; [|done|solve_valid|done|done].
  apply ip_hdr_verifies; rewrite ?E; [done|solve_valid|done|done|].
  replace (bsum m' _ _) with (bsum m p (Z.to_nat (rd m p mod 16 * 4)) +
    (bsum m' p (Z.to_nat (rd m p mod 16 * 4)) - bsum m p (Z.to_nat (rd m p mod 16 * 4)))) by lia.
  by apply mod_sum_zero.
Qed.

(** The TTL and protocol bytes are one 16-bit word of the header. *)
Lemma ttl_word a b : 0 <= a < 256 -> 0 <= b < 256 -> u16 (Z.lor (Z.shiftl a 8) b) = a * 256 + b.
Proof.
  intros Ha Hb. rewrite lor_shift_add by (simpl; lia). change (2 ^ 8) with 256.
  apply u16_small. lia.
Qed.

Lemma bsum_wr8_high m p k n v :
  bytes_ok m -> 0 <= k -> k mod 2 = 0 -> k + 2 <= n -> 0 <= v < 256 ->
  bsum (wr8 m (p + k) v) p (Z.to_nat n) =
    bsum m p (Z.to_nat n) - be16 m (p + k) + (v * 256 + rd m (p + k + 1)).
Proof.
  intros Hm H0 Hk Hn Hv.
  rewrite (bsum_frame (wr16 m (p + k) (v * 256 + rd m (p + k + 1)))).
  - rewrite bsum_wr16 by done. pose proof (rd_range m (p + k + 1) Hm). lia.
  - intros i Hi. pose proof (rd_range m (p + k + 1) Hm).
    destruct (decide (i = p + k)) as [->|]; [rd_simpl; lia|].
    destruct (decide (i = p + k + 1)) as [->|]; [rd_simpl; lia|].
    rewrite rd_wr16_out by lia. by apply rd_wr8_ne.
Qed.

(** Forwarding a packet.  When the header verifies and the TTL is not 0,
    [ip_decr_ttl_cksum_update] returns whether the new TTL is positive, the
    header still verifies, the TTL is one less and only it and the checksum
    change; with TTL 0 the call aborts. *)
Theorem ip_decr_ttl_cksum_update_verifies `{Host} m p iplen :
  bytes_ok m -> valid m p (rd m p mod 16 * 4) -> 20 <= rd m p mod 16 * 4 <= iplen ->
  ip_hdr_cksum_calc m p iplen = Ret 0 ->
  if rd m (p + 8) =? 0 then ip_decr_ttl_cksum_update m p = Abort
  else returns (ip_decr_ttl_cksum_update m p) (fun '(alive, m') =>
    alive = (rd m (p + 8) >? 1) /\
    ip_hdr_cksum_calc m' p iplen = Ret 0 /\
    rd m' (p + 8) = rd m (p + 8) - 1 /\
    forall q, q <> p + 8 -> q <> p + 10 -> q <> p + 11 -> m' !! q = m !! q).
Proof.
  intros Hm Hv Hl H0. unfold ip_decr_ttl_cksum_update, ip_hdr_cksum, ip_ttl, ip_proto,
    ip_set_hdr_cksum, ip_set_ttl. hdr_run.
  destruct (Z.eqb_spec (rd m (p + 8)) 0) as [|Hnz]; [done|].
  pose proof (rd_range m (p + 8) Hm) as Ht. pose proof (rd_range m (p + 9) Hm) as Hp.
  pose proof (be16_range m (p + 10) Hm) as Hc.
  rewrite !ttl_word by lia.
  destruct (ip_update_cksum16_mod (be16 m (p + 10)) (rd m (p + 8) * 256 + rd m (p + 9))
    ((rd m (p + 8) - 1) * 256 + rd m (p + 9))) as (ck & -> & Hck & Hmod); [lia..|].
  hdr_run. eapply returns_ret. split; [|split; [|split]].
  - destruct (Z.gtb_spec (rd m (p + 8) - 1) 0), (Z.gtb_spec (rd m (p + 8)) 1); (done || lia).
  - eapply (ip_hdr_verifies_update m); [done|auto with mem| |done|solve_valid|done| |done].
    + rewrite rd_wr8_ne, rd_wr16_out by lia. done.
    + rewrite bsum_wr8_high, bsum_wr16, be16_wr16_out by (auto with mem || lia).
      rewrite rd_wr16_out by lia. rewrite <- Hmod. f_equal. unfold be16.
      replace (p + 8 + 1) with (p + 9) by lia. lia.
  - rewrite rd_wr8_eq. lia.
  - intros q ???. by rewrite lookup_wr8_out, lookup_wr16_out by lia.
Qed.

Lemma ip_decr_ttl_cksum_update_verifies_witness :
  returns (ip_decr_ttl_cksum_update (H := little_endian_host) sample_ipv4 0) (fun '(alive, m') =>
    alive = (rd sample_ipv4 (0 + 8) >? 1) /\
    ip_hdr_cksum_calc (H := little_endian_host) m' 0 20 = Ret 0 /\
    rd m' (0 + 8) = rd sample_ipv4 (0 + 8) - 1 /\
    forall q, q <> 0 + 8 -> q <> 0 + 10 -> q <> 0 + 11 -> m' !! q = sample_ipv4 !! q).
Proof.
  apply (@ip_decr_ttl_cksum_update_verifies little_endian_host sample_ipv4 0 20);
    [mem_check|mem_check|vm_compute; split; discriminate|vm_compute; reflexivity].
Defined.

(** ** Address and field rewriting *)

Inductive tcp_field := TF_src_port | TF_dst_port | TF_seq | TF_ack | TF_window.
Definition tcp_field_update `{Host} (f : tcp_field) : mem -> Z -> Z -> Z -> outcome mem :=
  match f with
  | TF_src_port => tcp_set_src_port_cksum_update
  | TF_dst_port => tcp_set_dst_port_cksum_update
  | TF_seq => tcp_set_seq_number_cksum_update
  | TF_ack => tcp_set_ack_number_cksum_update
  | TF_window => tcp_set_window_cksum_update
  end.
Definition tcp_field_get `{Host} (f : tcp_field) : mem -> Z -> outcome Z :=
  match f with
  | TF_src_port => tcp_src_port | TF_dst_port => tcp_dst_port | TF_seq => tcp_seq_number
  | TF_ack => tcp_ack_number | TF_window => tcp_window
  end.
Definition tcp_field_off (f : tcp_field) : Z :=
  match f with
  | TF_src_port => 0 | TF_dst_port => 2 | TF_seq => 4 | TF_ack => 8 | TF_window => 14
  end.
Definition tcp_field_wide (f : tcp_field) : bool :=
  match f with TF_seq | TF_ack => true | _ => false end.
Definition tcp_field_size (f : tcp_field) : Z := if tcp_field_wide f then 4 else 2.

(** What an update writes: the new checksum, then the field. *)
Definition tcp_field_wr (f : tcp_field) (m : mem) (t ck v : Z) : mem :=
  if tcp_field_wide f then wr32 (wr16 m (t + 16) ck) (t + tcp_field_off f) v
  else wr16 (wr16 m (t + 16) ck) (t + tcp_field_off f) v.

Lemma tcp_field_update_eq `{Host} f m t tcplen v :
  bytes_ok m -> valid m t 20 -> 0 <= v < 256 ^ tcp_field_size f ->
  exists ck, tcp_field_update f m t tcplen v = Ret (tcp_field_wr f m t ck v) /\
    0 <= ck <= 65535 /\
    forall n, 20 <= n ->
      (bsum (tcp_field_wr f m t ck v) t (Z.to_nat n) - bsum m t (Z.to_nat n)) mod 65535 = 0.
Proof.
  intros Hm Hv Hr. pose proof (be16_range m (t + 16) Hm).
  unfold tcp_field_wr. destruct f; cbn [tcp_field_update tcp_field_wide tcp_field_size tcp_field_off] in *;
    unfold tcp_field_size in Hr; cbn [tcp_field_wide] in Hr;
    unfold tcp_set_src_port_cksum_update, tcp_set_dst_port_cksum_update,
      tcp_set_seq_number_cksum_update, tcp_set_ack_number_cksum_update,
      tcp_set_window_cksum_update, tcp_src_port, tcp_dst_port, tcp_seq_number, tcp_ack_number,
      tcp_window, tcp_cksum, tcp_set_cksum, tcp_set_src_port, tcp_set_dst_port,
      tcp_set_seq_number, tcp_set_ack_number, tcp_set_window; hdr_run.
  all: match goal with
  | |- context [ip_update_cksum16 ?c ?o ?n] =>
      pose proof (be16_range m t Hm); pose proof (be16_range m (t + 2) Hm);
      pose proof (be16_range m (t + 14) Hm);
      destruct (ip_update_cksum16_mod c o n) as (ck & -> & Hck & Hmod); [lia..|]
  | |- context [ip_update_cksum32 ?c ?o ?n] =>
      destruct (ip_update_cksum32_mod c o n) as (ck & -> & Hck & Hmod);
        [lia|auto with mem|lia|]
  end; hdr_run; exists ck; rewrite ?Z.add_0_r; (split; [done|]); (split; [done|]); intros n Hn.
  - pose proof (bsum_update16 m t n 16 0 ck v Hm) as E. rewrite Z.add_0_r in E.
    rewrite E, <- Hmod by lia. f_equal. lia.
  - rewrite bsum_update16, <- Hmod by (done || lia). f_equal. lia.
  - rewrite bsum_update32, <- Hmod by (done || lia). f_equal. lia.
  - rewrite bsum_update32, <- Hmod by (done || lia). f_equal. lia.
  - rewrite bsum_update16, <- Hmod by (done || lia). f_equal. lia.
Qed.

Lemma tcp_field_get_wr `{Host} f m t ck v :
  bytes_ok m -> valid m t 20 -> 0 <= v < 256 ^ tcp_field_size f ->
  tcp_field_get f (tcp_field_wr f m t ck v) t = Ret v.
Proof.
  intros Hm Hv Hr. unfold tcp_field_wr, tcp_field_size in *.
  destruct f; cbn [tcp_field_get tcp_field_wide tcp_field_off] in *;
    unfold tcp_src_port, tcp_dst_port, tcp_seq_number, tcp_ack_number, tcp_window;
    rewrite ?Z.add_0_r; hdr_run; rewrite ?be16_wr16, ?be32_wr32 by lia; f_equal; lia.
Qed.

Lemma tcp_field_wr_frame f m t ck v q :
  q < t + 16 \/ t + 18 <= q ->
  q < t + tcp_field_off f \/ t + tcp_field_off f + tcp_field_size f <= q ->
  tcp_field_wr f m t ck v !! q = m !! q.
Proof.
  intros Hc Hq. unfold tcp_field_wr, tcp_field_size in *.
  destruct f; cbn [tcp_field_wide tcp_field_off] in *;
    by rewrite ?lookup_wr32_out, ?lookup_wr16_out by lia.
Qed.

Lemma tcp_field_wr_ok f m t ck v :
  bytes_ok m -> bytes_ok (tcp_field_wr f m t ck v) /\
    forall q n, valid m q n -> valid (tcp_field_wr f m t ck v) q n.
Proof. intros Hm. unfold tcp_field_wr. destruct (tcp_field_wide f); split; auto with mem. Qed.

Lemma rd_lookup m m' q : m' !! q = m !! q -> rd m' q = rd m q.
Proof. unfold rd. by intros ->. Qed.

(** C26: rewriting the source port, destination port, sequence number,
    acknowledgement number or window of a TCP segment that verifies leaves a
    segment that verifies, whose field has the new value and whose other bytes
    are the old ones. *)
Theorem tcp_field_update_verifies `{Host} f m iphdr iplen t tcplen v :
  bytes_ok m -> valid m iphdr 20 -> 20 <= iplen -> valid m t tcplen ->
  20 <= tcplen <= 65535 -> iphdr + 20 <= t -> 0 <= v < 256 ^ tcp_field_size f ->
  tcp_cksum_calc m iphdr iplen t tcplen = Ret 0 ->
  returns (tcp_field_update f m t tcplen v) (fun m' =>
    tcp_cksum_calc m' iphdr iplen t tcplen = Ret 0 /\
    tcp_field_get f m' t = Ret v /\
    forall q, q < t + 16 \/ t + 18 <= q ->
      q < t + tcp_field_off f \/ t + tcp_field_off f + tcp_field_size f <= q -> m' !! q = m !! q).
Proof.
  intros Hm Hvi Hip Hv Hl Hd Hr H0.
  destruct (tcp_field_update_eq f m t tcplen v Hm ltac:(solve_valid) Hr) as (ck & -> & Hck & Hs).
  apply returns_ret. destruct (tcp_field_wr_ok f m t ck v Hm) as [Hm' Hv'].
  split; [|split].
  - apply l4_verifies in H0; [|done|done|done|done|lia|lia].
    apply l4_verifies; [done|by apply Hv'|done|by apply Hv'|lia|lia|].
    rewrite (pseudo4_frame m).
    + rewrite <- (mod_sum_zero _ _ H0 (Hs tcplen ltac:(lia))). f_equal. lia.
    + intros i Hi. apply rd_lookup, tcp_field_wr_frame; [lia|]. destruct f; simpl; lia.
  - apply tcp_field_get_wr; [done|solve_valid|done].
  - intros q ??. by apply tcp_field_wr_frame.
Qed.

Lemma tcp_field_update_verifies_witness :
  returns (tcp_field_update (H := little_endian_host) TF_seq sample_tcp4 20 23 0xdeadbeef) (fun m' =>
    tcp_cksum_calc (H := little_endian_host) m' 0 20 20 23 = Ret 0 /\
    tcp_field_get (H := little_endian_host) TF_seq m' 20 = Ret 0xdeadbeef /\
    forall q, q < 20 + 16 \/ 20 + 18 <= q ->
      q < 20 + tcp_field_off TF_seq \/ 20 + tcp_field_off TF_seq + tcp_field_size TF_seq <= q ->
      m' !! q = sample_tcp4 !! q).
Proof.
  apply (@tcp_field_update_verifies little_endian_host TF_seq sample_tcp4 0 20 20 23 0xdeadbeef);
    try mem_check; [vm_compute; split; [discriminate|reflexivity]|vm_compute; reflexivity].
Defined.

Inductive addr_field := AF_src | AF_dst.
Definition addr_off (a : addr_field) : Z := match a with AF_src => 12 | AF_dst => 16 end.
Definition ip_set_addr_cksum_update `{Host} (a : addr_field)
    : mem -> Z -> Z -> Z -> Z -> Z -> Z -> outcome mem :=
  match a with AF_src => ip_set_src_cksum_update | AF_dst => ip_set_dst_cksum_update end.
Definition l4_proto (t : transport) : Z := match t with TCP4 | TCP6 => 6 | _ => 17 end.

Lemma l4_addr_cksum_update_ok `{Host} t m payhdr old new :
  bytes_ok m -> valid m payhdr (l4_min t) ->
  0 <= old < 4294967296 -> 0 <= new < 4294967296 ->
  (l4_proto t = 17 -> be16 m (payhdr + l4_off t) <> 0) ->
  exists ck, l4_addr_cksum_update m (l4_proto t) payhdr old new =
      Ret (wr16 m (payhdr + l4_off t) ck) /\ 0 <= ck <= 65535 /\
    (ck + psum32 new - be16 m (payhdr + l4_off t) - psum32 old) mod 65535 = 0.
Proof.
  intros Hm Hv Ho Hn Hnz. pose proof (be16_range m (payhdr + l4_off t) Hm).
  destruct (ip_update_cksum32_mod (be16 m (payhdr + l4_off t)) old new) as (ck & E & Hck & Hmod);
    [lia..|].
  exists ck. split; [|done]. unfold l4_addr_cksum_update, tcp_cksum, udp_cksum, tcp_set_cksum,
    udp_set_cksum. destruct t; cbn [l4_proto l4_off l4_min] in *; simpl (_ =? _);
    cbv iota; hdr_run; rewrite ?(proj2 (Z.eqb_neq _ _) (Hnz eq_refl)); cbn [negb];
    rewrite E; cbn [mbind outcome_bind]; apply hdr_set16n_ok; solve_valid.
Qed.

(** What an address rewrite writes. *)
Definition addr_wr (a : addr_field) (t : transport) (m : mem) (ip pay ck1 ck2 v : Z) : mem :=
  wr32 (wr16 (wr16 m (ip + 10) ck1) (pay + l4_off t) ck2) (ip + addr_off a) v.

Lemma ip_set_addr_cksum_update_ok `{Host} a t m ip iplen pay paylen v :
  bytes_ok m -> valid m ip 20 -> valid m pay (l4_min t) -> ip + 20 <= pay ->
  0 <= v < 4294967296 -> (l4_proto t = 17 -> be16 m (pay + l4_off t) <> 0) ->
  exists ck1 ck2,
    ip_set_addr_cksum_update a m ip iplen (l4_proto t) pay paylen v =
      Ret (addr_wr a t m ip pay ck1 ck2 v) /\
    0 <= ck1 <= 65535 /\ 0 <= ck2 <= 65535 /\
    (ck1 + psum32 v - be16 m (ip + 10) - psum32 (be32 m (ip + addr_off a))) mod 65535 = 0 /\
    (ck2 + psum32 v - be16 m (pay + l4_off t) - psum32 (be32 m (ip + addr_off a))) mod 65535 = 0.
Proof.
  intros Hm Hv Hvp Hd Hr Hnz. set (old := be32 m (ip + addr_off a)).
  assert (0 <= l4_off t) as Hoff by (destruct t; simpl; lia).
  assert (0 <= old < 4294967296) as Ho by (apply be32_range; done).
  pose proof (be16_range m (ip + 10) Hm).
  destruct (ip_update_cksum32_mod (be16 m (ip + 10)) old v) as (ck1 & E1 & Hck1 & Hmod1); [lia..|].
  destruct (l4_addr_cksum_update_ok t (wr16 m (ip + 10) ck1) pay old v) as (ck2 & E2 & Hck2 & Hmod2);
    [auto with mem|auto with mem|done|done| |].
  { by rewrite be16_wr16_out by lia. }
  rewrite be16_wr16_out in Hmod2 by lia.
  exists ck1, ck2. split; [|done].
  destruct a; cbn [ip_set_addr_cksum_update addr_off] in *;
    unfold ip_set_src_cksum_update, ip_set_dst_cksum_update, ip_src, ip_dst, ip_hdr_cksum,
      ip_set_hdr_cksum, ip_set_src, ip_set_dst; hdr_run; fold old; rewrite E1;
    cbn [mbind outcome_bind]; hdr_run; rewrite E2; cbn [mbind outcome_bind]; by hdr_run.
Qed.

Lemma addr_offs a t :
  0 <= l4_off t /\ l4_off t + 2 <= l4_min t /\ l4_off t mod 2 = 0 /\
  12 <= addr_off a <= 16 /\ addr_off a mod 2 = 0.
Proof. destruct t, a; simpl; lia. Qed.

Section addr_rewrite.
Context `{Host} (a : addr_field) (t : transport) (m : mem) (ip pay ck1 ck2 v : Z).
Context (Hm : bytes_ok m) (Hv : 0 <= v < 4294967296) (Ht : t = TCP4 \/ t = UDP4).
Context (Hck1 : 0 <= ck1 <= 65535) (Hck2 : 0 <= ck2 <= 65535).
Let m' := addr_wr a t m ip pay ck1 ck2 v.

Lemma addr_wr_ok : bytes_ok m' /\ forall q n, valid m q n -> valid m' q n.
Proof using Hm. unfold m', addr_wr. split; auto with mem. Qed.

Lemma addr_wr_bsum_ip ihl :
  20 <= ihl -> ip + ihl <= pay ->
  bsum m' ip (Z.to_nat ihl) - bsum m ip (Z.to_nat ihl) =
    ck1 + psum32 v - be16 m (ip + 10) - psum32 (be32 m (ip + addr_off a)).
Proof using Hm Hv Hck1.
  intros. pose proof (addr_offs a t). unfold m', addr_wr.
  rewrite bsum_wr32 by (auto with mem || lia). rewrite bsum_wr16_out, bsum_wr16 by lia.
  rewrite (be32_frame m) by (intros; by rewrite !rd_wr16_out by lia). lia.
Qed.

Lemma addr_wr_bsum_l4 paylen :
  ip + 20 <= pay -> l4_min t <= paylen ->
  bsum m' pay (Z.to_nat paylen) =
    bsum m pay (Z.to_nat paylen) - be16 m (pay + l4_off t) + ck2.
Proof using Hm Hv Hck2.
  intros. pose proof (addr_offs a t). unfold m', addr_wr.
  rewrite bsum_wr32_out, bsum_wr16, be16_wr16_out, bsum_wr16_out by lia. lia.
Qed.

Lemma addr_wr_pseudo proto l :
  ip + 20 <= pay ->
  pseudo4 m' ip proto l =
    pseudo4 m ip proto l - psum32 (be32 m (ip + addr_off a)) + psum32 v.
Proof using Hm Hv.
  intros Hd. pose proof (addr_offs a t).
  assert (forall q, ip + 12 <= q -> q + 4 <= ip + 20 ->
    q + 4 <= ip + addr_off a \/ ip + addr_off a + 4 <= q -> be32 m' q = be32 m q) as Hfr.
  { intros q ???. apply be32_frame. intros. unfold m', addr_wr.
    by rewrite rd_wr32_out, !rd_wr16_out by lia. }
  assert (be32 m' (ip + addr_off a) = v) as Hself by (apply be32_wr32; done).
  unfold pseudo4. destruct a; simpl in *; rewrite Hself;
    [rewrite (Hfr (ip + 16)) by lia|rewrite (Hfr (ip + 12)) by lia]; lia.
Qed.

Lemma addr_wr_l4_verifies iplen paylen :
  valid m ip 20 -> 20 <= iplen -> ip + 20 <= pay -> valid m pay paylen ->
  l4_min t <= paylen <= 65535 ->
  (ck2 + psum32 v - be16 m (pay + l4_off t) - psum32 (be32 m (ip + addr_off a))) mod 65535 = 0 ->
  l4_calc t m ip iplen pay paylen = Ret 0 -> l4_calc t m' ip iplen pay paylen = Ret 0.
Proof using Hm Hv Ht Hck2.
  intros Hvi Hip Hd Hvp Hpl Hmod. pose proof (addr_offs a t).
  destruct addr_wr_ok as [Hm' Hv'].
  assert (forall mm, l4_calc t mm ip iplen pay paylen =
            l4_cksum_calc (l4_proto t) mm ip iplen pay paylen) as Ec
    by (destruct Ht as [-> | ->]; done).
  assert (0 < l4_proto t <= 65535) as Hpr by (destruct t; simpl; lia).
  rewrite !Ec. intros Hz. apply l4_verifies in Hz; [|done|done|lia|done|lia|done].
  apply l4_verifies; [done|by apply Hv'|lia|by apply Hv'|lia|done|].
  rewrite <- (mod_sum_zero _ _ Hz Hmod). f_equal.
  rewrite addr_wr_bsum_l4, addr_wr_pseudo by lia. lia.
Qed.
End addr_rewrite.

(** C17: network address translation.  Rewriting the source or destination
    address of a packet whose IPv4 header and TCP (or, when it carries a
    checksum, UDP) segment verify leaves a packet whose header and segment
    both verify and whose address is the new one. *)
Theorem ip_set_addr_cksum_update_verifies `{Host} a t m ip iplen pay paylen v :
  let ihl := rd m ip mod 16 * 4 in
  bytes_ok m -> valid m ip ihl -> 20 <= ihl <= iplen -> ip + ihl <= pay ->
  t = TCP4 \/ t = UDP4 -> valid m pay paylen -> l4_min t <= paylen <= 65535 ->
  0 <= v < 4294967296 -> (t = UDP4 -> be16 m (pay + 6) <> 0) ->
  ip_hdr_cksum_calc m ip iplen = Ret 0 -> l4_calc t m ip iplen pay paylen = Ret 0 ->
  returns (ip_set_addr_cksum_update a m ip iplen (l4_proto t) pay paylen v) (fun m' =>
    ip_hdr_cksum_calc m' ip iplen = Ret 0 /\
    l4_calc t m' ip iplen pay paylen = Ret 0 /\
    be32 m' (ip + addr_off a) = v).
Proof.
  intros ihl Hm Hv Hihl Hpay Ht Hvp Hpl Hr Hnz Hip0 Hl40.
  destruct (ip_set_addr_cksum_update_ok a t m ip iplen pay paylen v)
    as (ck1 & ck2 & -> & Hck1 & Hck2 & Hmod1 & Hmod2); [done|solve_valid|solve_valid|lia|done| |].
  { destruct Ht as [-> | ->]; simpl; [lia|auto]. }
  apply returns_ret. destruct (addr_wr_ok a t m ip pay ck1 ck2 v Hm) as [Hm' Hv'].
  pose proof (addr_offs a t). split; [|split].
  - apply (ip_hdr_verifies_update m); [done|done| |done|by apply Hv'|done| |done].
    + unfold addr_wr. by rewrite rd_wr32_out, !rd_wr16_out by lia.
    + by rewrite addr_wr_bsum_ip by (done || lia).
  - apply addr_wr_l4_verifies; try done; [solve_valid|lia|lia].
  - by apply be32_wr32.
Qed.

Lemma ip_set_addr_cksum_update_verifies_witness :
  returns (ip_set_addr_cksum_update (H := little_endian_host) AF_src sample_tcp4 0 20 6 20 23 0x0a000001)
    (fun m' =>
      ip_hdr_cksum_calc (H := little_endian_host) m' 0 20 = Ret 0 /\
      l4_calc (H := little_endian_host) TCP4 m' 0 20 20 23 = Ret 0 /\
      be32 m' (0 + addr_off AF_src) = 0x0a000001).
Proof.
  apply (@ip_set_addr_cksum_update_verifies little_endian_host AF_src TCP4 sample_tcp4 0 20 20 23);
    first [ mem_check | vm_compute; reflexivity | left; reflexivity | discriminate
          | vm_compute; split; discriminate ].
Defined.
