(* ===== verification/TcpOptions.v ===== *)
(** TCP options: the option scanners of iphdr/iphdr.c and the functions of
    iphdr/ipcksum.h that rewrite an option and the checksum with it. *)
From S2P Require Import Prelude Bytes IpHdr IpCksum.

Section options.
Context `{Host}.

(** The scanners read an option length as
    [len = dataoff - curoff; if (curoff + 1 < dataoff && cpkt[curoff + 1] < len) len = cpkt[curoff + 1];] *)
Definition opt_lenval (m : mem) (pkt dataoff curoff : Z) : outcome Z :=
  if curoff + 1 <? dataoff then
    l ← hdr_get8h m (pkt + (curoff + 1));
    Ret (if l <? dataoff - curoff then l else dataoff - curoff)
  else Ret (dataoff - curoff).

(** ** [tcp_parse_options] *)

Definition tcp_information_init : tcp_information :=
  {| options_valid := 0; wscale := 0; mss := 536; sack_permitted := 0; mssoff := 0;
     ts_present := 0; ts := 0; tsecho := 0 |}.
Definition set_options_valid (i : tcp_information) : tcp_information :=
  {| options_valid := 1; wscale := wscale i; mss := mss i; sack_permitted := sack_permitted i;
     mssoff := mssoff i; ts_present := ts_present i; ts := ts i; tsecho := tsecho i |}.
Definition set_wscale (v : Z) (i : tcp_information) : tcp_information :=
  {| options_valid := options_valid i; wscale := v; mss := mss i;
     sack_permitted := sack_permitted i;
     mssoff := mssoff i; ts_present := ts_present i; ts := ts i; tsecho := tsecho i |}.
Definition set_mss (v off : Z) (i : tcp_information) : tcp_information :=
  {| options_valid := options_valid i; wscale := wscale i; mss := v;
     sack_permitted := sack_permitted i;
     mssoff := u8 off; ts_present := ts_present i; ts := ts i; tsecho := tsecho i |}.
Definition set_sack_permitted (i : tcp_information) : tcp_information :=
  {| options_valid := options_valid i; wscale := wscale i; mss := mss i; sack_permitted := 1;
     mssoff := mssoff i; ts_present := ts_present i; ts := ts i; tsecho := tsecho i |}.
Definition set_ts (v e : Z) (i : tcp_information) : tcp_information :=
  {| options_valid := options_valid i; wscale := wscale i; mss := mss i;
     sack_permitted := sack_permitted i;
     mssoff := mssoff i; ts_present := 1; ts := v; tsecho := e |}.

(** One pass of the loop: [inl] is [continue], [inr] is [return]. *)
Definition parse_options_step (m : mem) (pkt dataoff : Z) (s : Z * tcp_information)
    : outcome (Z * tcp_information + tcp_information) :=
  let '(curoff, info) := s in
  if curoff <? dataoff then
    k ← hdr_get8h m (pkt + curoff);
    if k =? 0 then Ret (inr (set_options_valid info)) else
    if k =? 1 then Ret (inl (curoff + 1, info)) else
    if k =? 8 then
      tslenval ← opt_lenval m pkt dataoff curoff;
      if tslenval <? 2 then Ret (inr info) else
      if negb (tslenval =? 10) then Ret (inl (curoff + tslenval, info)) else
      v ← hdr_get32n m (pkt + (curoff + 2));
      e ← hdr_get32n m (pkt + (curoff + 6));
      Ret (inl (curoff + tslenval, set_ts v e info))
    else if k =? 3 then
      wscalelenval ← opt_lenval m pkt dataoff curoff;
      if wscalelenval <? 2 then Ret (inr info) else
      if negb (wscalelenval =? 3) then Ret (inl (curoff + wscalelenval, info)) else
      v ← hdr_get8h m (pkt + (curoff + 2));
      Ret (inl (curoff + wscalelenval, set_wscale v info))
    else if k =? 2 then
      msslenval ← opt_lenval m pkt dataoff curoff;
      if msslenval <? 2 then Ret (inr info) else
      if negb (msslenval =? 4) then Ret (inl (curoff + msslenval, info)) else
      v ← hdr_get16n m (pkt + (curoff + 2));
      Ret (inl (curoff + msslenval, set_mss v curoff info))
    else if k =? 4 then
      sacklenval ← opt_lenval m pkt dataoff curoff;
      if sacklenval <? 2 then Ret (inr info) else
      if negb (sacklenval =? 2) then Ret (inl (curoff + sacklenval, info)) else
      Ret (inl (curoff + sacklenval, set_sack_permitted info))
    else
      if curoff + 1 >=? dataoff then Ret (inr info) else
      curoptlen ← opt_lenval m pkt dataoff curoff;
      if curoptlen <? 2 then Ret (inr info) else
      Ret (inl (curoff + curoptlen, info))
  else Ret (inr (set_options_valid info)).

(** A TCP header has at most 60 bytes, hence at most 40 one-byte options. *)
Definition options_fuel : nat := 41.

Definition tcp_parse_options (m : mem) (pkt : Z) : outcome tcp_information :=
  dataoff ← tcp_data_offset m pkt;
  iter options_fuel (parse_options_step m pkt dataoff) (20, tcp_information_init).

(** ** [tcp_find_sack_ts_headers] *)

Definition sack_ts_headers_init : sack_ts_headers := {| sackoff := 0; sacklen := 0; tsoff := 0 |}.

Definition find_sack_ts_step (m : mem) (pkt dataoff : Z) (s : Z * sack_ts_headers)
    : outcome (Z * sack_ts_headers + sack_ts_headers) :=
  let '(curoff, hdrs) := s in
  if curoff <? dataoff then
    k ← hdr_get8h m (pkt + curoff);
    if k =? 0 then Ret (inr hdrs) else
    if k =? 1 then Ret (inl (curoff + 1, hdrs)) else
    if k =? 5 then
      sacklenval ← opt_lenval m pkt dataoff curoff;
      Ret (inl (curoff + sacklenval,
        {| sackoff := u8 curoff; sacklen := u8 sacklenval; tsoff := tsoff hdrs |}))
    else if k =? 8 then
      tslenval ← opt_lenval m pkt dataoff curoff;
      if negb (tslenval =? 10) then Ret (inl (curoff + tslenval, hdrs)) else
      Ret (inl (curoff + tslenval,
        {| sackoff := sackoff hdrs; sacklen := sacklen hdrs; tsoff := u8 curoff |}))
    else
      if curoff + 1 >=? dataoff then Ret (inr hdrs) else
      curoptlen ← opt_lenval m pkt dataoff curoff;
      if curoptlen <? 2 then Ret (inr hdrs) else
      Ret (inl (curoff + curoptlen, hdrs))
  else Ret (inr hdrs).

Definition tcp_find_sack_ts_headers (fuel : nat) (m : mem) (pkt : Z) : outcome sack_ts_headers :=
  dataoff ← tcp_data_offset m pkt;
  iter fuel (find_sack_ts_step m pkt dataoff) (20, sack_ts_headers_init).

(** ** [tcp_find_sack_header]: the pointer with [*sacklen] and
    [*sixteen_bit_align], or [NULL] *)

Definition find_sack_step (m : mem) (pkt dataoff : Z) (curoff : Z)
    : outcome (Z + option (Z * Z * bool)) :=
  if curoff <? dataoff then
    k ← hdr_get8h m (pkt + curoff);
    if k =? 0 then Ret (inr None) else
    if k =? 1 then Ret (inl (curoff + 1)) else
    if k =? 5 then
      sacklenval ← opt_lenval m pkt dataoff curoff;
      Ret (inr (Some (pkt + curoff, sacklenval, curoff mod 2 =? 0)))
    else
      if curoff + 1 >=? dataoff then Ret (inr None) else
      curoptlen ← opt_lenval m pkt dataoff curoff;
      if curoptlen <? 2 then Ret (inr None) else
      Ret (inl (curoff + curoptlen))
  else Ret (inr None).

Definition tcp_find_sack_header (m : mem) (pkt : Z) : outcome (option (Z * Z * bool)) :=
  dataoff ← tcp_data_offset m pkt;
  iter options_fuel (find_sack_step m pkt dataoff) 20.

(** ** Rewriting options with the checksum *)

(** Loop state: memory, [cksum], [curoff]. *)
Definition disable_sack_aligned_step (chdr sacklen : Z) (s : mem * Z * Z)
    : outcome (mem * Z * Z + mem * Z * Z) :=
  let '(m, cksum, curoff) := s in
  if curoff + 2 <=? sacklen then
    old_val ← hdr_get16n m (chdr + curoff);
    let new_val := 0x0101 in
    cksum ← ip_update_cksum16 cksum old_val new_val;
    m ← hdr_set16n m (chdr + curoff) new_val;
    Ret (inl (m, cksum, curoff + 2))
  else Ret (inr s).

(** [hdr_set16n] in the middle of two checksummed words. *)
Definition set16_straddling (m : mem) (p cksum new_val : Z) : outcome (mem * Z) :=
  old_val1 ← hdr_get16n m (p - 1);
  old_val2 ← hdr_get16n m (p + 1);
  m ← hdr_set16n m p new_val;
  new_val1 ← hdr_get16n m (p - 1);
  new_val2 ← hdr_get16n m (p + 1);
  cksum ← ip_update_cksum16 cksum old_val1 new_val1;
  cksum ← ip_update_cksum16 cksum old_val2 new_val2;
  Ret (m, cksum).

Definition disable_sack_unaligned_step (chdr sacklen : Z) (s : mem * Z * Z)
    : outcome (mem * Z * Z + mem * Z * Z) :=
  let '(m, cksum, curoff) := s in
  if curoff + 2 <=? sacklen then
    r ← set16_straddling m (chdr + curoff) cksum 0x0101;
    let '(m, cksum) := r in
    Ret (inl (m, cksum, curoff + 2))
  else Ret (inr s).

Definition tcp_disable_sack_cksum_update (m : mem) (pkt sackhdr sacklen : Z)
    (sixteen_bit_align : bool) : outcome mem :=
  let chdr := sackhdr in
  let fuel := S (Z.to_nat (sacklen / 2)) in
  cksum ← tcp_cksum m pkt;
  r ← (if sixteen_bit_align then
    s ← iter fuel (disable_sack_aligned_step chdr sacklen) (m, cksum, 0);
    let '(m, cksum, curoff) := s in
    if curoff + 1 =? sacklen then
      old_val ← hdr_get16n m (chdr + curoff);
      let new_val := u16 (Z.lor (Z.land old_val 0xFF) 0x0100) in
      cksum ← ip_update_cksum16 cksum old_val new_val;
      m ← hdr_set16n m (chdr + curoff) new_val;
      Ret (m, cksum)
    else Ret (m, cksum)
  else
    s ← iter fuel (disable_sack_unaligned_step chdr sacklen) (m, cksum, 0);
    let '(m, cksum, curoff) := s in
    if curoff + 1 =? sacklen then
      old_val ← hdr_get16n m (chdr + curoff);
      let new_val := u16 (Z.lor (Z.land old_val 0xFF) 0x0100) in
      set16_straddling m (chdr + curoff) cksum new_val
    else Ret (m, cksum));
  let '(m, cksum) := r in
  tcp_set_cksum m pkt cksum.

Definition tcp_set_mss_cksum_update (m : mem) (pkt : Z) (opts : tcp_information) (mss : Z)
    : outcome mem :=
  cksum ← tcp_cksum m pkt;
  r ← (if mssoff opts mod 2 =? 0 then
    old_mss ← hdr_get16n m (pkt + (mssoff opts + 2));
    cksum ← ip_update_cksum16 cksum old_mss mss;
    m ← hdr_set16n m (pkt + (mssoff opts + 2)) mss;
    Ret (m, cksum)
  else set16_straddling m (pkt + (mssoff opts + 2)) cksum mss);
  let '(m, cksum) := r in
  tcp_set_cksum m pkt cksum.

(** SACK blocks: pairs of sequence numbers from offset 2 of the option. *)
Definition adjust_sack_aligned_step (chdr sacklen adjustment : Z) (s : mem * Z * Z)
    : outcome (mem * Z * Z + mem * Z) :=
  let '(m, cksum, curoff) := s in
  if curoff + 8 <=? sacklen then
    old_start ← hdr_get32n m (chdr + curoff);
    old_end ← hdr_get32n m (chdr + (curoff + 4));
    let new_start := u32 (old_start + adjustment) in
    let new_end := u32 (old_end + adjustment) in
    cksum ← ip_update_cksum32 cksum old_start new_start;
    cksum ← ip_update_cksum32 cksum old_end new_end;
    m ← hdr_set32n m (chdr + curoff) new_start;
    m ← hdr_set32n m (chdr + (curoff + 4)) new_end;
    Ret (inl (m, cksum, curoff + 8))
  else Ret (inr (m, cksum)).

(** The branch for an odd option offset does not advance [curoff]. *)
Definition adjust_sack_unaligned_step (chdr sacklen adjustment : Z) (s : mem * Z * Z)
    : outcome (mem * Z * Z + mem * Z) :=
  let '(m, cksum, curoff) := s in
  if curoff + 8 <=? sacklen then
    old_val1 ← hdr_get16n m (chdr + (curoff - 1));
    old_val2 ← hdr_get32n m (chdr + (curoff + 1));
    old_val3 ← hdr_get32n m (chdr + (curoff + 5));
    old_start ← hdr_get32n m (chdr + curoff);
    old_end ← hdr_get32n m (chdr + (curoff + 4));
    let new_start := u32 (old_start + adjustment) in
    let new_end := u32 (old_end + adjustment) in
    m ← hdr_set32n m (chdr + curoff) new_start;
    m ← hdr_set32n m (chdr + (curoff + 4)) new_end;
    new_val1 ← hdr_get16n m (chdr + (curoff - 1));
    new_val2 ← hdr_get32n m (chdr + (curoff + 1));
    new_val3 ← hdr_get32n m (chdr + (curoff + 5));
    cksum ← ip_update_cksum16 cksum old_val1 new_val1;
    cksum ← ip_update_cksum32 cksum old_val2 new_val2;
    cksum ← ip_update_cksum32 cksum old_val3 new_val3;
    Ret (inl (m, cksum, curoff))
  else Ret (inr (m, cksum)).

Definition tcp_adjust_sack_cksum_update (fuel : nat) (m : mem) (pkt sackhdr sacklen : Z)
    (sixteen_bit_align : bool) (adjustment : Z) : outcome mem :=
  cksum ← tcp_cksum m pkt;
  r ← iter fuel ((if sixteen_bit_align then adjust_sack_aligned_step
                  else adjust_sack_unaligned_step) sackhdr sacklen adjustment) (m, cksum, 2);
  let '(m, cksum) := r in
  tcp_set_cksum m pkt cksum.

(** [tcp_adjust_tsval_cksum_update] and [tcp_adjust_tsecho_cksum_update] have
    the same text with the value 2 or 6 bytes into the option. *)
Definition adjust_ts_cksum_update (field : Z) (m : mem) (pkt : Z) (hdrs : sack_ts_headers)
    (adjustment : Z) : outcome mem :=
  cksum ← tcp_cksum m pkt;
  if tsoff hdrs =? 0 then Ret m else
  let p := pkt + (tsoff hdrs + field) in
  r ← (if tsoff hdrs mod 2 =? 0 then
    oldval ← hdr_get32n m p;
    let newval := u32 (oldval + adjustment) in
    m ← hdr_set32n m p newval;
    cksum ← ip_update_cksum32 cksum oldval newval;
    Ret (m, cksum)
  else
    oldval1 ← hdr_get16n m (p - 1);
    oldval2 ← hdr_get16n m (p + 1);
    oldval3 ← hdr_get16n m (p + 3);
    oldval ← hdr_get32n m p;
    let newval := u32 (oldval + adjustment) in
    m ← hdr_set32n m p newval;
    newval1 ← hdr_get16n m (p - 1);
    newval2 ← hdr_get16n m (p + 1);
    newval3 ← hdr_get16n m (p + 3);
    cksum ← ip_update_cksum16 cksum oldval1 newval1;
    cksum ← ip_update_cksum16 cksum oldval2 newval2;
    cksum ← ip_update_cksum16 cksum oldval3 newval3;
    Ret (m, cksum));
  let '(m, cksum) := r in
  tcp_set_cksum m pkt cksum.
Definition tcp_adjust_tsval_cksum_update : mem -> Z -> sack_ts_headers -> Z -> outcome mem :=
  adjust_ts_cksum_update 2.
Definition tcp_adjust_tsecho_cksum_update : mem -> Z -> sack_ts_headers -> Z -> outcome mem :=
  adjust_ts_cksum_update 6.

Definition tcp_adjust_sack_cksum_update_2 (fuel : nat) (m : mem) (pkt : Z)
    (hdrs : sack_ts_headers) (adjustment : Z) : outcome mem :=
  if sackoff hdrs =? 0 then Ret m else
  tcp_adjust_sack_cksum_update fuel m pkt (pkt + sackoff hdrs) (sacklen hdrs)
    (sackoff hdrs mod 2 =? 0) adjustment.
End options.

(** ** Reference: the option list of RFC 9293, section 3.1

    The option area is a list of no-operations and of [kind; length; data]
    options, then either its end or an end-of-list byte and padding. *)
Inductive tcp_opt := ONop | OOpt (kind : Z) (data : list Z).

Definition encode_opt (o : tcp_opt) : list Z :=
  match o with ONop => [1] | OOpt k d => k :: Z.of_nat (length d) + 2 :: d end.
Definition encode_opts (os : list tcp_opt) : list Z := mjoin (encode_opt <$> os).

Definition opt_size (o : tcp_opt) : Z :=
  match o with ONop => 1 | OOpt _ d => Z.of_nat (length d) + 2 end.
Definition opt_wf (o : tcp_opt) : Prop :=
  match o with ONop => True | OOpt k d => 2 <= k < 256 end.

Inductive options_tail : list Z -> Prop :=
  | tail_end : options_tail []
  | tail_eol pad : options_tail (0 :: pad).

(** What an option at offset [off] tells the connection. *)
Definition apply_opt (off : Z) (o : tcp_opt) (i : tcp_information) : tcp_information :=
  match o with
  | ONop => i
  | OOpt k d =>
      if (k =? 8) && (length d =? 8)%nat then set_ts (be_decode (take 4 d)) (be_decode (drop 4 d)) i
      else if (k =? 3) && (length d =? 1)%nat then set_wscale (be_decode d) i
      else if (k =? 2) && (length d =? 2)%nat then set_mss (be_decode d) off i
      else if (k =? 4) && (length d =? 0)%nat then set_sack_permitted i
      else i
  end.
Definition apply_sack_ts (off : Z) (o : tcp_opt) (h : sack_ts_headers) : sack_ts_headers :=
  match o with
  | ONop => h
  | OOpt k d =>
      if k =? 5 then {| sackoff := u8 off; sacklen := u8 (Z.of_nat (length d) + 2); tsoff := tsoff h |}
      else if (k =? 8) && (length d =? 8)%nat then
        {| sackoff := sackoff h; sacklen := sacklen h; tsoff := u8 off |}
      else h
  end.

Fixpoint apply_opts {A} (f : Z -> tcp_opt -> A -> A) (off : Z) (os : list tcp_opt) (a : A) : A :=
  match os with
  | [] => a
  | o :: os => apply_opts f (off + opt_size o) os (f off o a)
  end.

Lemma encode_opt_length o : Z.of_nat (length (encode_opt o)) = opt_size o.
Proof. destruct o as [|k d]; cbn [encode_opt length opt_size]; lia. Qed.

Lemma encode_opts_cons o os : encode_opts (o :: os) = encode_opt o ++ encode_opts os.
Proof. done. Qed.

(** A scanner that does the right thing on one option does it on the list. *)
Section scan.
Context {A : Type} (m : mem) (pkt dataoff : Z) (body : Z * A -> outcome (Z * A + A)).
Context (apf : Z -> tcp_opt -> A -> A) (fin : A -> A).
Context (Hend : forall a, body (dataoff, a) = Ret (inr (fin a))).
Context (Heol : forall off a pad, off < dataoff -> bytes_at m (pkt + off) (0 :: pad) ->
  body (off, a) = Ret (inr (fin a))).
Context (Hopt : forall off o a rest, opt_wf o -> 20 <= off -> off + opt_size o <= dataoff ->
  bytes_at m (pkt + off) (encode_opt o ++ rest) ->
  body (off, a) = Ret (inl (off + opt_size o, apf off o a))).

Lemma scan_options os tail off a n :
  Forall opt_wf os -> options_tail tail -> 20 <= off ->
  bytes_at m (pkt + off) (encode_opts os ++ tail) ->
  off + Z.of_nat (length (encode_opts os ++ tail)) = dataoff ->
  (Z.to_nat (dataoff - off) < n)%nat ->
  iter n body (off, a) = Ret (fin (apply_opts apf off os a)).
Proof using Hend Heol Hopt.
  revert off a n. induction os as [|o os IH]; intros off a n Hwf Ht H20 Hb Hlen Hn;
    (destruct n as [|n]; [lia|]).
  - cbn [encode_opts fmap list_fmap mjoin list_join app] in *. apply iter_inr.
    destruct Ht as [|pad].
    + cbn in Hlen. replace off with dataoff by lia. apply Hend.
    + apply (Heol off a pad); [|done]. cbn in Hlen. lia.
  - inversion Hwf as [|x l Ho Hos]; subst x l.
    rewrite encode_opts_cons, <- (assoc_L (++)) in *.
    rewrite length_app in Hlen. pose proof (encode_opt_length o) as Hsz.
    assert (1 <= opt_size o) by (destruct o; simpl; lia).
    rewrite (iter_inl body n (off, a) _ (Hopt off o a _ Ho H20 ltac:(lia) Hb)).
    apply bytes_at_app in Hb as [_ Hb]. rewrite Hsz in Hb. rewrite <- Z.add_assoc in Hb.
    apply IH; [done|done|lia|done|lia|lia].
Qed.
End scan.

(** ** One option, one pass *)
Section steps.
Context `{Host} (m : mem) (pkt dataoff : Z) (Hm : bytes_ok m).

Lemma opt_lenval_encoded off k d rest :
  20 <= off -> off + (Z.of_nat (length d) + 2) <= dataoff ->
  bytes_at m (pkt + off) (encode_opt (OOpt k d) ++ rest) ->
  hdr_get8h m (pkt + off) = Ret k /\
  opt_lenval m pkt dataoff off = Ret (Z.of_nat (length d) + 2) /\
  bytes_at m (pkt + (off + 2)) d.
Proof using Type.
  intros H20 Hle Hb. cbn [encode_opt app] in Hb.
  destruct (bytes_at_rd _ _ _ _ Hb) as [E1 V1]. apply bytes_at_cons in Hb as [_ Hb].
  destruct (bytes_at_rd _ _ _ _ Hb) as [E2 V2]. apply bytes_at_cons in Hb as [_ Hb].
  apply bytes_at_app in Hb as [Hb _].
  rewrite <- Z.add_assoc in E2, V2. rewrite <- !Z.add_assoc in Hb.
  split; [by rewrite hdr_get8h_ok, E1 by done|]. split; [|done].
  unfold opt_lenval. destruct (Z.ltb_spec (off + 1) dataoff); [|lia].
  rewrite hdr_get8h_ok, E2 by done. cbn [mbind outcome_bind]. f_equal.
  destruct (Z.ltb_spec (Z.of_nat (length d) + 2) (dataoff - off)); lia.
Qed.

Lemma nop_read off rest :
  bytes_at m (pkt + off) (encode_opt ONop ++ rest) -> hdr_get8h m (pkt + off) = Ret 1.
Proof using Type.
  intros Hb. destruct (bytes_at_rd _ _ _ _ Hb) as [E V]. by rewrite hdr_get8h_ok, E by done.
Qed.

Lemma eol_read off pad :
  bytes_at m (pkt + off) (0 :: pad) -> hdr_get8h m (pkt + off) = Ret 0.
Proof using Type.
  intros Hb. destruct (bytes_at_rd _ _ _ _ Hb) as [E V]. by rewrite hdr_get8h_ok, E by done.
Qed.

Lemma nat_len_eqb {A} (d : list A) n :
  (Z.of_nat (length d) + 2 =? Z.of_nat n + 2) = (length d =? n)%nat.
Proof using Type.
  destruct (Z.eqb_spec (Z.of_nat (length d) + 2) (Z.of_nat n + 2)), (Nat.eqb_spec (length d) n);
    (done || lia).
Qed.

Lemma parse_options_step_opt off o a rest :
  opt_wf o -> 20 <= off -> off + opt_size o <= dataoff ->
  bytes_at m (pkt + off) (encode_opt o ++ rest) ->
  parse_options_step m pkt dataoff (off, a) = Ret (inl (off + opt_size o, apply_opt off o a)).
Proof using Hm.
  intros Hwf H20 Hle Hb. unfold parse_options_step. destruct o as [|k d].
  { cbn [opt_size] in *. destruct (Z.ltb_spec off dataoff); [|lia].
    by rewrite (nop_read _ _ Hb). }
  cbn [opt_size opt_wf] in *. destruct (Z.ltb_spec off dataoff); [|lia].
  destruct (opt_lenval_encoded off k d rest H20 Hle Hb) as (-> & -> & Hd).
  cbn [mbind outcome_bind]. unfold apply_opt.
  destruct (Z.eqb_spec k 0); [lia|]. destruct (Z.eqb_spec k 1); [lia|].
  destruct (Z.ltb_spec (Z.of_nat (length d) + 2) 2); [lia|].
  pose proof (nat_len_eqb d 8) as L8. pose proof (nat_len_eqb d 1) as L1.
  pose proof (nat_len_eqb d 2) as L2. pose proof (nat_len_eqb d 0) as L0.
  change (Z.of_nat 8 + 2) with 10 in L8. change (Z.of_nat 1 + 2) with 3 in L1.
  change (Z.of_nat 2 + 2) with 4 in L2. change (Z.of_nat 0 + 2) with 2 in L0. rewrite L8, L1, L2, L0.
  destruct (bytes_at_decode m _ d Hm Hd) as (D1 & D2 & _).
  destruct (Z.eqb_spec k 8) as [->|].
  { destruct (Nat.eqb_spec (length d) 8) as [L|]; cbn [negb andb]; [|done].
    rewrite <- (take_drop 4 d) in Hd. apply bytes_at_app in Hd as [Ht Hdr].
    rewrite length_take_le in Hdr by lia.
    destruct (bytes_at_decode m _ _ Hm Ht) as (_ & _ & [E1 V1]);
      [rewrite length_take; lia|].
    destruct (bytes_at_decode m _ _ Hm Hdr) as (_ & _ & [E2 V2]);
      [rewrite length_drop; lia|].
    rewrite <- !Z.add_assoc in E2, V2. change (2 + Z.of_nat 4) with 6 in E2, V2.
    rewrite !hdr_get32n_ok by done. cbn [mbind outcome_bind]. by rewrite E1, E2. }
  destruct (Z.eqb_spec k 3) as [->|].
  { destruct (Nat.eqb_spec (length d) 1) as [L|]; cbn [negb andb]; [|done].
    destruct (D1 L) as [E V]. rewrite hdr_get8h_ok by done. cbn [mbind outcome_bind]. by rewrite E. }
  destruct (Z.eqb_spec k 2) as [->|].
  { destruct (Nat.eqb_spec (length d) 2) as [L|]; cbn [negb andb]; [|done].
    destruct (D2 L) as [E V]. rewrite hdr_get16n_ok by done. cbn [mbind outcome_bind]. by rewrite E. }
  destruct (Z.eqb_spec k 4) as [->|]; [by destruct (Nat.eqb_spec (length d) 0)|].
  by destruct (Z.geb_spec (off + 1) dataoff); [lia|].
Qed.

Lemma find_sack_ts_step_opt off o a rest :
  opt_wf o -> 20 <= off -> off + opt_size o <= dataoff ->
  bytes_at m (pkt + off) (encode_opt o ++ rest) ->
  find_sack_ts_step m pkt dataoff (off, a) = Ret (inl (off + opt_size o, apply_sack_ts off o a)).
Proof using Type.
  intros Hwf H20 Hle Hb. unfold find_sack_ts_step. destruct o as [|k d].
  { cbn [opt_size] in *. destruct (Z.ltb_spec off dataoff); [|lia].
    by rewrite (nop_read _ _ Hb). }
  cbn [opt_size opt_wf] in *. destruct (Z.ltb_spec off dataoff); [|lia].
  destruct (opt_lenval_encoded off k d rest H20 Hle Hb) as (-> & -> & Hd).
  cbn [mbind outcome_bind]. unfold apply_sack_ts.
  destruct (Z.eqb_spec k 0); [lia|]. destruct (Z.eqb_spec k 1); [lia|].
  destruct (Z.ltb_spec (Z.of_nat (length d) + 2) 2); [lia|].
  pose proof (nat_len_eqb d 8) as L8. change (Z.of_nat 8 + 2) with 10 in L8. rewrite L8.
  destruct (Z.eqb_spec k 5); [done|].
  destruct (Z.eqb_spec k 8); [by destruct (Nat.eqb_spec (length d) 8)|].
  by destruct (Z.geb_spec (off + 1) dataoff); [lia|].
Qed.
End steps.

(** The option area of the TCP header at [pkt] holds [os]. *)
Definition options_at (m : mem) (pkt : Z) (os : list tcp_opt) : Prop :=
  let dataoff := rd m (pkt + 12) / 16 * 4 in
  exists tail, options_tail tail /\ Forall opt_wf os /\
    bytes_at m (pkt + 20) (encode_opts os ++ tail) /\
    20 + Z.of_nat (length (encode_opts os ++ tail)) = dataoff.

(** C27: parsing what RFC 9293 lets a sender write: on a header whose option
    area encodes the list [os], [tcp_parse_options] marks the options valid
    and returns the information the options carry, later options overriding
    earlier ones and options of an unexpected length being skipped. *)
Theorem tcp_parse_options_correct `{Host} m pkt os :
  bytes_ok m -> valid m (pkt + 12) 1 -> options_at m pkt os ->
  tcp_parse_options m pkt =
    Ret (set_options_valid (apply_opts apply_opt 20 os tcp_information_init)).
Proof.
  intros Hm Hv (tail & Ht & Hwf & Hb & Hlen). unfold tcp_parse_options.
  rewrite tcp_data_offset_ok by done. cbn [mbind outcome_bind].
  pose proof (rd_range m (pkt + 12) Hm).
  eapply scan_options; [| | |done|exact Ht|lia|exact Hb|exact Hlen|unfold options_fuel; lia].
  - intros a. unfold parse_options_step. by rewrite Z.ltb_irrefl.
  - intros off a pad Hlt Hpad. unfold parse_options_step.
    destruct (Z.ltb_spec off (rd m (pkt + 12) / 16 * 4)); [|lia].
    by rewrite (eol_read _ _ _ _ Hpad).
  - intros. by eapply parse_options_step_opt.
Qed.

(** MSS 1460, SACK permitted, timestamps, NOP, window scale 7, as Linux sends. *)
Definition sample_syn : mem :=
  mem_of 0 [0x8e; 0x32; 0; 80; 1; 2; 3; 4; 0; 0; 0; 0; 0xa0; 0x02; 0xfa; 0xf0; 0; 0; 0; 0;
            2; 4; 5; 0xb4; 4; 2; 8; 10; 0; 1; 2; 3; 0; 0; 0; 9; 1; 3; 3; 7].
Definition sample_syn_options : list tcp_opt :=
  [OOpt 2 [5; 0xb4]; OOpt 4 []; OOpt 8 [0; 1; 2; 3; 0; 0; 0; 9]; ONop; OOpt 3 [7]].

Lemma sample_syn_options_at : options_at sample_syn 0 sample_syn_options.
Proof.
  exists []. split; [constructor|]. split; [repeat constructor; simpl; lia|].
  split; [|reflexivity].
  intros i b Hi. pose proof (lookup_lt_Some _ _ _ Hi) as Hlt. cbn in Hlt.
  do 20 (destruct i as [|i]; [injection Hi as <-; reflexivity|]). lia.
Qed.

Lemma tcp_parse_options_correct_witness :
  tcp_parse_options (H := little_endian_host) sample_syn 0 =
    Ret {| options_valid := 1; wscale := 7; mss := 1460; sack_permitted := 1; mssoff := 20;
           ts_present := 1; ts := 66051; tsecho := 9 |}.
Proof.
  rewrite (@tcp_parse_options_correct little_endian_host sample_syn 0 sample_syn_options);
    [vm_compute; reflexivity|mem_check|mem_check|apply sample_syn_options_at].
Defined.

(** [tcp_find_sack_ts_headers] on a well-formed option list: it returns
    the offset and length of the last SACK option and the offset of the last
    10-byte timestamp option. *)
Theorem tcp_find_sack_ts_headers_correct m pkt os fuel :
  bytes_ok m -> valid m (pkt + 12) 1 -> options_at m pkt os -> (options_fuel <= fuel)%nat ->
  tcp_find_sack_ts_headers fuel m pkt = Ret (apply_opts apply_sack_ts 20 os sack_ts_headers_init).
Proof.
  intros Hm Hv (tail & Ht & Hwf & Hb & Hlen) Hf. unfold tcp_find_sack_ts_headers, options_fuel in *.
  rewrite tcp_data_offset_ok by done. cbn [mbind outcome_bind].
  pose proof (rd_range m (pkt + 12) Hm).
  set (dataoff := rd m (pkt + 12) / 16 * 4) in *.
  apply (scan_options m pkt dataoff (find_sack_ts_step m pkt dataoff) apply_sack_ts (fun h => h)) with tail;
    try done; [| | |lia].
  - intros a. unfold find_sack_ts_step. by rewrite Z.ltb_irrefl.
  - intros off a pad Hlt Hpad. unfold find_sack_ts_step.
    destruct (Z.ltb_spec off dataoff); [|lia]. by rewrite (eol_read _ _ _ _ Hpad).
  - intros. by eapply find_sack_ts_step_opt.
Qed.

Lemma tcp_find_sack_ts_headers_correct_witness :
  tcp_find_sack_ts_headers 41 sample_syn 0 =
    Ret {| sackoff := 0; sacklen := 0; tsoff := 26 |}.
Proof.
  rewrite (tcp_find_sack_ts_headers_correct sample_syn 0 sample_syn_options 41);
    [vm_compute; reflexivity|mem_check|mem_check|apply sample_syn_options_at|vm_compute; lia].
Defined.

(** ** Safety on arbitrary packets *)

(** What the rest of the code may rely on: a recorded MSS offset is that of an
    MSS option whose four bytes are in the header.  Its length field is 4, or
    larger if these bytes are the last ones: the code cuts a length that runs past
    the header. *)
Definition mss_recorded (m : mem) (pkt dataoff : Z) (i : tcp_information) : Prop :=
  (mssoff i = 0 /\ mss i = 536) \/
  (20 <= mssoff i /\ mssoff i + 4 <= dataoff /\ rd m (pkt + mssoff i) = 2 /\
   (rd m (pkt + mssoff i + 1) = 4 \/ 4 < rd m (pkt + mssoff i + 1) /\ mssoff i + 4 = dataoff) /\
   mss i = be16 m (pkt + (mssoff i + 2))).

Lemma opt_lenval_total m pkt dataoff off :
  bytes_ok m -> valid m pkt dataoff -> 20 <= off -> off < dataoff ->
  exists l, opt_lenval m pkt dataoff off = Ret l /\ 0 <= l <= dataoff - off /\
    (l = rd m (pkt + off + 1) \/ l = dataoff - off /\ (1 < l -> l < rd m (pkt + off + 1))).
Proof.
  intros Hm Hv H20 Hlt. unfold opt_lenval. destruct (Z.ltb_spec (off + 1) dataoff).
  - rewrite hdr_get8h_ok by solve_valid. eexists. split; [done|].
    pose proof (rd_range m (pkt + (off + 1)) Hm).
    replace (pkt + off + 1) with (pkt + (off + 1)) by lia.
    destruct (Z.ltb_spec (rd m (pkt + (off + 1))) (dataoff - off)); [lia|].
    destruct (Z.eq_dec (rd m (pkt + (off + 1))) (dataoff - off)); lia.
  - eexists. split; [done|]. split; [lia|]. right. lia.
Qed.

Lemma parse_options_step_total `{Host} m pkt dataoff off i :
  bytes_ok m -> valid m pkt dataoff -> dataoff <= 60 -> 20 <= off -> off <= dataoff ->
  mss_recorded m pkt dataoff i ->
  returns (parse_options_step m pkt dataoff (off, i)) (fun x =>
    match x with
    | inl (off', i') => off < off' <= dataoff /\ mss_recorded m pkt dataoff i'
    | inr i' => mss_recorded m pkt dataoff i'
    end).
Proof.
  intros Hm Hv H60 H20 Hle Hi. unfold parse_options_step.
  destruct (Z.ltb_spec off dataoff) as [Hlt|]; [|by apply returns_ret].
  rewrite (hdr_get8h_ok m (pkt + off)) by solve_valid. cbn [mbind outcome_bind].
  destruct (opt_lenval_total m pkt dataoff off Hm Hv H20 Hlt) as (l & -> & Hl & Hlen).
  cbn [mbind outcome_bind].
  destruct (Z.ltb_spec l 2);
    repeat match goal with
      | |- context [?a =? ?b] => destruct (Z.eqb_spec a b); cbn [negb]
      | |- context [?a >=? ?b] => destruct (Z.geb_spec a b)
      end;
    rewrite ?hdr_get32n_ok, ?hdr_get16n_ok, ?hdr_get8h_ok by (done || solve_valid);
    cbn [mbind outcome_bind]; apply returns_ret; try done; try (split; [lia|done]).
  split; [lia|]. right. cbn [mssoff mss set_mss].
  rewrite u8_small by lia. repeat split; (done || lia).
Qed.

(** C28: on a packet with arbitrary option bytes, [tcp_parse_options] returns
    after at most 41 passes, reads only the [dataoff] bytes of the header, and
    an MSS offset it records is that of an MSS option with the MSS it reports:
    kind 2, its four bytes in the header, and the length field 4 (or one that
    runs past the header, when the four bytes are the last of the header). *)
Theorem tcp_parse_options_safe `{Host} m pkt :
  bytes_ok m -> valid m pkt 20 -> valid m pkt (rd m (pkt + 12) / 16 * 4) ->
  returns (tcp_parse_options m pkt) (mss_recorded m pkt (rd m (pkt + 12) / 16 * 4)).
Proof.
  intros Hm Hv20 Hv. unfold tcp_parse_options. pose proof (rd_range m (pkt + 12) Hm).
  rewrite tcp_data_offset_ok by (done || solve_valid). cbn [mbind outcome_bind].
  set (dataoff := rd m (pkt + 12) / 16 * 4) in *.
  destruct (decide (dataoff < 20)).
  { unfold options_fuel. cbn [iter]. unfold parse_options_step.
    destruct (Z.ltb_spec 20 dataoff); [lia|]. apply returns_ret. by left. }
  apply (iter_total _ (fun '(off, i) => 20 <= off <= dataoff /\ mss_recorded m pkt dataoff i)
    (fun '(off, _) => Z.to_nat (dataoff - off))).
  - intros [off i] [Hoff Hi]. eapply returns_impl; [apply parse_options_step_total; done || lia|].
    intros [[off' i']|i']; [|done]. intros [? ?]. split; [split; [lia|done]|lia].
  - split; [lia|by left].
  - unfold options_fuel. lia.
Qed.

(** Options that run past the header: MSS with length 200, cut off at 24. *)
Definition sample_bad_options : mem :=
  mem_of 0 [0; 1; 0; 2; 0; 0; 0; 0; 0; 0; 0; 0; 0x60; 0x02; 0; 0; 0; 0; 0; 0; 2; 200; 5; 0xb4].

Lemma tcp_parse_options_safe_witness :
  returns (tcp_parse_options (H := little_endian_host) sample_bad_options 0)
    (mss_recorded sample_bad_options 0 24).
Proof.
  apply (@tcp_parse_options_safe little_endian_host sample_bad_options 0); mem_check.
Defined.

(** A SACK (5) or timestamp (8) option whose length byte is 0, at [off], the first
    one after some NOPs. *)
Definition zero_option (m : mem) (pkt dataoff off : Z) : Prop :=
  20 <= off /\ off + 2 <= dataoff /\ (forall q, 20 <= q < off -> rd m (pkt + q) = 1) /\
  (rd m (pkt + off) = 5 \/ rd m (pkt + off) = 8) /\ rd m (pkt + off + 1) = 0.

Section zero_option.
Context `{Host} (m : mem) (pkt dataoff off : Z).
Context (Hm : bytes_ok m) (Hv : valid m pkt dataoff) (Ho : zero_option m pkt dataoff off).

Lemma zero_option_lenval : opt_lenval m pkt dataoff off = Ret 0.
Proof.
  destruct Ho as (H20 & Hle & _ & _ & Hl). unfold opt_lenval. destruct (Z.ltb_spec (off + 1) dataoff); [|lia].
  rewrite hdr_get8h_ok by solve_valid. replace (pkt + (off + 1)) with (pkt + off + 1) by lia. rewrite Hl.
  cbn [mbind outcome_bind]. by destruct (Z.ltb_spec 0 (dataoff - off)); [|lia].
Qed.
Lemma zero_option_find h c : 20 <= c <= off -> exists c' h', 20 <= c' <= off /\ find_sack_ts_step m pkt dataoff (c, h) = Ret (inl (c', h')).
Proof.
  destruct Ho as (H20 & Hle & Hnop & Hk & _). intros Hc. unfold find_sack_ts_step. destruct (Z.ltb_spec c dataoff); [|lia].
  rewrite (hdr_get8h_ok m (pkt + c)) by solve_valid. cbn [mbind outcome_bind]. destruct (decide (c = off)) as [->|].
  - destruct Hk as [-> | ->]; cbn [Z.eqb Pos.eqb negb]; rewrite zero_option_lenval; cbn [mbind outcome_bind Z.eqb negb]; rewrite Z.add_0_r; by eexists off, _.
  - rewrite Hnop by lia. exists (c + 1), h. split; [lia|done].
Qed.
Lemma zero_option_parse k : forall n i, (k < n)%nat -> 20 <= off - Z.of_nat k -> iter n (parse_options_step m pkt dataoff) (off - Z.of_nat k, i) = Ret i.
Proof.
  pose proof Ho as (H20 & Hle & Hnop & Hk & _). induction k as [|k IH]; intros [|n] i Hn Hlo; try lia.
  - apply iter_inr. rewrite Z.sub_0_r. unfold parse_options_step. destruct (Z.ltb_spec off dataoff); [|lia].
    rewrite (hdr_get8h_ok m (pkt + off)) by solve_valid. cbn [mbind outcome_bind].
    destruct Hk as [-> | ->]; cbn [Z.eqb Pos.eqb negb]; [destruct (Z.geb_spec (off + 1) dataoff); [lia|]|]; by rewrite zero_option_lenval.
  - rewrite (iter_inl _ n _ (off - Z.of_nat k, i)); [apply IH; lia|]. unfold parse_options_step. destruct (Z.ltb_spec (off - Z.of_nat (S k)) dataoff); [|lia].
    rewrite (hdr_get8h_ok m (pkt + (off - Z.of_nat (S k)))) by solve_valid. rewrite (Hnop (off - Z.of_nat (S k))) by lia. cbn [mbind outcome_bind Z.eqb Pos.eqb]. do 3 f_equal. lia.
Qed.
End zero_option.

(** C29: a SACK or timestamp option whose length byte is 0, as the first option
    or after any number of NOPs, keeps [tcp_find_sack_ts_headers] in its loop
    for ever: no number of passes is enough, while [tcp_parse_options] stops at
    the same option and returns what it starts with. *)
Theorem tcp_find_sack_ts_headers_diverges `{Host} m pkt off fuel :
  bytes_ok m -> valid m pkt 20 -> valid m pkt (rd m (pkt + 12) / 16 * 4) ->
  zero_option m pkt (rd m (pkt + 12) / 16 * 4) off ->
  tcp_find_sack_ts_headers fuel m pkt = OutOfFuel /\
  tcp_parse_options m pkt = Ret tcp_information_init.
Proof.
  intros Hm H20 Hv Ho. unfold tcp_find_sack_ts_headers, tcp_parse_options. pose proof (rd_range m (pkt + 12) Hm).
  rewrite tcp_data_offset_ok by (done || solve_valid). cbn [mbind outcome_bind].
  set (dataoff := rd m (pkt + 12) / 16 * 4) in *. pose proof Ho as (Hlo & Hhi & _). split.
  - apply (iter_diverges _ (fun s => 20 <= s.1 <= off)); [|simpl; lia].
    intros [c h] Hc. destruct (zero_option_find m pkt dataoff off Hv Ho h c Hc) as (c' & h' & Hc' & E). by exists (c', h').
  - rewrite <- (zero_option_parse m pkt dataoff off Hv Ho (Z.to_nat (off - 20)) options_fuel tcp_information_init); [|unfold options_fuel; lia|lia].
    do 2 f_equal. lia.
Qed.

Definition sample_zero_option : mem :=
  mem_of 0 [0; 1; 0; 2; 0; 0; 0; 0; 0; 0; 0; 0; 0x60; 0x02; 0; 0; 0; 0; 0; 0; 1; 1; 5; 0].

Lemma tcp_find_sack_ts_headers_diverges_witness :
  tcp_find_sack_ts_headers 1000000 sample_zero_option 0 = OutOfFuel /\
  tcp_parse_options (H := little_endian_host) sample_zero_option 0 = Ret tcp_information_init.
Proof.
  apply (@tcp_find_sack_ts_headers_diverges little_endian_host sample_zero_option 0 22 1000000); [mem_check|mem_check|mem_check|].
  split; [lia|]. split; [vm_compute; discriminate|]. split; [|split; [by left|reflexivity]].
  intros q Hq. assert (q = 20 \/ q = 21) as [-> | ->] by lia; reflexivity.
Defined.

(** ** Rewriting options under the checksum

    [upd p n lo hi (m, ck) (m', ck')]: from [m] to [m'] only bytes of
    [lo, hi) change, and the sum of the [n]-byte segment at [p] plus the
    checksum carried along stays the same modulo 65535. *)
Record upd (p n lo hi : Z) (m : mem) (ck : Z) (m' : mem) (ck' : Z) : Prop := {
  upd_bytes : bytes_ok m';
  upd_ck : 0 <= ck' <= 65535;
  upd_valid q k : valid m q k -> valid m' q k;
  upd_frame q : q < lo \/ hi <= q -> m' !! q = m !! q;
  upd_sum : (bsum m' p (Z.to_nat n) + ck' - bsum m p (Z.to_nat n) - ck) mod 65535 = 0
}.

Lemma upd_refl p n lo hi m ck : bytes_ok m -> 0 <= ck <= 65535 -> upd p n lo hi m ck m ck.
Proof. intros. split; [done|done|done|done|]. by replace (_ - ck) with 0 by lia. Qed.

Lemma upd_trans p n lo hi m1 c1 m2 c2 m3 c3 :
  upd p n lo hi m1 c1 m2 c2 -> upd p n lo hi m2 c2 m3 c3 -> upd p n lo hi m1 c1 m3 c3.
Proof.
  intros [B1 C1 V1 F1 S1] [B2 C2 V2 F2 S2]. split; [done|done|auto| |].
  - intros q Hq. by rewrite F2, F1.
  - rewrite <- (mod_sum_zero _ _ S1 S2). f_equal. lia.
Qed.

Lemma upd_weaken p n lo hi lo' hi' m ck m' ck' :
  lo' <= lo -> hi <= hi' -> upd p n lo hi m ck m' ck' -> upd p n lo' hi' m ck m' ck'.
Proof. intros ?? [B C V F S]. split; try done. intros q Hq. apply F. lia. Qed.

Lemma bsum_two m q : bsum m q 4 = be16 m q + be16 m (q + 2).
Proof. cbn [bsum]. lia. Qed.

Lemma bsum_three m q : bsum m q 6 = be16 m q + be16 m (q + 2) + be16 m (q + 4).
Proof. cbn [bsum]. replace (q + 2 + 2) with (q + 4) by lia. lia. Qed.

(** Changing an aligned part of a block changes its sum by as much. *)
Lemma bsum_local m m' p k l n :
  0 <= k -> k mod 2 = 0 -> 0 <= l -> l mod 2 = 0 -> k + l <= n ->
  (forall q, q < p + k \/ p + k + l <= q -> m' !! q = m !! q) ->
  bsum m' p (Z.to_nat n) - bsum m p (Z.to_nat n) =
    bsum m' (p + k) (Z.to_nat l) - bsum m (p + k) (Z.to_nat l).
Proof.
  intros Hk Hke Hl Hle Hn Hf.
  assert (forall x, bsum x p (Z.to_nat n) = bsum x p (Z.to_nat k) + bsum x (p + k) (Z.to_nat l)
    + bsum x (p + k + l) (Z.to_nat (n - k - l))) as Hs.
  { intros x. replace (Z.to_nat n) with (2 * Z.to_nat (k / 2) + (2 * Z.to_nat (l / 2)
      + Z.to_nat (n - k - l)))%nat by lia.
    rewrite !bsum_app.
    replace (2 * Z.to_nat (k / 2))%nat with (Z.to_nat k) by lia.
    replace (2 * Z.to_nat (l / 2))%nat with (Z.to_nat l) by lia.
    replace (2 * Z.of_nat (Z.to_nat (k / 2))) with k by lia.
    replace (2 * Z.of_nat (Z.to_nat (l / 2))) with l by lia. lia. }
  rewrite !Hs, (bsum_frame m m' p), (bsum_frame m m' (p + k + l))
    by (intros; apply rd_lookup, Hf; lia). lia.
Qed.

Section option_updates.
Context `{Host} (p n : Z).

Lemma upd_set16 m ck k v :
  bytes_ok m -> 0 <= ck <= 65535 -> 0 <= v <= 65535 ->
  0 <= k -> k mod 2 = 0 -> k + 2 <= n -> valid m (p + k) 2 ->
  exists ck', ip_update_cksum16 ck (be16 m (p + k)) v = Ret ck' /\
    upd p n (p + k) (p + k + 2) m ck (wr16 m (p + k) v) ck'.
Proof using Type.
  intros Hm Hck Hv Hk Hke Hn Hval. pose proof (be16_range m (p + k) Hm).
  destruct (ip_update_cksum16_mod ck (be16 m (p + k)) v) as (ck' & -> & Hck' & Hmod); [lia..|].
  exists ck'. split; [done|]. split; [auto with mem|done|auto with mem| |].
  - intros q Hq. apply lookup_wr16_out. lia.
  - rewrite bsum_wr16 by done. rewrite <- Hmod. f_equal. lia.
Qed.

(** A 16-bit write at an odd offset, through the two words it touches. *)
Lemma upd_straddling m ck k v :
  bytes_ok m -> 0 <= ck <= 65535 -> 0 <= v <= 65535 ->
  1 <= k -> k mod 2 = 1 -> k + 3 <= n -> valid m (p + k - 1) 4 ->
  exists ck', set16_straddling m (p + k) ck v = Ret (wr16 m (p + k) v, ck') /\
    upd p n (p + k) (p + k + 2) m ck (wr16 m (p + k) v) ck'.
Proof using Type.
  intros Hm Hck Hv Hk Hko Hn Hval. unfold set16_straddling. hdr_run.
  set (m' := wr16 m (p + k) v). assert (bytes_ok m') as Hm' by (unfold m'; auto with mem).
  pose proof (be16_range m (p + k - 1) Hm). pose proof (be16_range m (p + k + 1) Hm).
  pose proof (be16_range m' (p + k - 1) Hm'). pose proof (be16_range m' (p + k + 1) Hm').
  destruct (ip_update_cksum16_mod ck (be16 m (p + k - 1)) (be16 m' (p + k - 1)))
    as (c1 & -> & Hc1 & M1); [lia..|]. cbn [mbind outcome_bind].
  destruct (ip_update_cksum16_mod c1 (be16 m (p + k + 1)) (be16 m' (p + k + 1)))
    as (c2 & -> & Hc2 & M2); [lia..|]. cbn [mbind outcome_bind].
  exists c2. split; [done|]. split; [done|done|unfold m'; auto with mem| |].
  - intros q Hq. apply lookup_wr16_out. lia.
  - rewrite <- (mod_sum_zero _ _ M1 M2). f_equal.
    pose proof (bsum_local m m' p (k - 1) 4 n) as Hl. change (Z.to_nat 4) with 4%nat in Hl.
    rewrite !bsum_two, Z.add_sub_assoc in Hl. replace (p + k - 1 + 2) with (p + k + 1) in Hl by lia.
    enough (bsum m' p (Z.to_nat n) - bsum m p (Z.to_nat n) =
      be16 m' (p + k - 1) + be16 m' (p + k + 1) - (be16 m (p + k - 1) + be16 m (p + k + 1))) by lia.
    apply Hl; try lia. intros q Hq. apply lookup_wr16_out. lia.
Qed.

(** Writing back the carried checksum. *)
Lemma upd_finish lo hi m m' ck' iphdr iplen :
  bytes_ok m -> valid m iphdr 20 -> 20 <= iplen -> valid m p n -> 20 <= n <= 65535 ->
  iphdr + 20 <= p -> p + 20 <= lo ->
  upd p n lo hi m (be16 m (p + 16)) m' ck' ->
  tcp_cksum_calc m iphdr iplen p n = Ret 0 ->
  tcp_cksum_calc (wr16 m' (p + 16) ck') iphdr iplen p n = Ret 0.
Proof using Type.
  intros Hm Hvi Hip Hv Hn Hd Hlo [B C V F S] H0.
  apply l4_verifies in H0; [|done|done|done|done|lia|lia].
  apply l4_verifies; [auto with mem|auto with mem|done|auto with mem|lia|lia|].
  rewrite (pseudo4_frame m) by (intros; rewrite rd_wr16_out by lia; apply rd_lookup, F; lia).
  rewrite bsum_wr16 by lia.
  rewrite (be16_frame m m') by (intros; apply rd_lookup, F; lia).
  rewrite <- (mod_sum_zero _ _ H0 S). f_equal. lia.
Qed.
End option_updates.

(** [tcp_set_mss_cksum_update] on a segment that verifies, with an MSS
    offset as [tcp_parse_options] records it, even or odd: the segment still
    verifies, the option holds the new MSS, and only the option value and the
    checksum change. *)
Theorem tcp_set_mss_cksum_update_verifies `{Host} m iphdr iplen pkt tcplen opts v :
  bytes_ok m -> valid m iphdr 20 -> 20 <= iplen -> valid m pkt tcplen -> tcplen <= 65535 ->
  iphdr + 20 <= pkt -> 0 <= v <= 65535 ->
  20 <= mssoff opts -> mssoff opts + 4 <= rd m (pkt + 12) / 16 * 4 <= tcplen ->
  tcp_cksum_calc m iphdr iplen pkt tcplen = Ret 0 ->
  returns (tcp_set_mss_cksum_update m pkt opts v) (fun m' =>
    tcp_cksum_calc m' iphdr iplen pkt tcplen = Ret 0 /\
    be16 m' (pkt + (mssoff opts + 2)) = v /\
    forall q, q <> pkt + 16 -> q <> pkt + 17 ->
      q <> pkt + mssoff opts + 2 -> q <> pkt + mssoff opts + 3 -> m' !! q = m !! q).
Proof.
  intros Hm Hvi Hip Hv Hl Hd Hr Ho Hdo H0. set (k := mssoff opts + 2).
  pose proof (be16_range m (pkt + 16) Hm).
  assert (exists ck', tcp_set_mss_cksum_update m pkt opts v =
      Ret (wr16 (wr16 m (pkt + k) v) (pkt + 16) ck') /\
    upd pkt tcplen (pkt + k) (pkt + k + 2) m (be16 m (pkt + 16)) (wr16 m (pkt + k) v) ck')
    as (ck' & -> & Hu).
  { unfold tcp_set_mss_cksum_update, tcp_cksum, tcp_set_cksum. fold k.
    rewrite (hdr_get16n_ok m (pkt + 16)) by (done || solve_valid). cbn [mbind outcome_bind].
    destruct (Z.eqb_spec (mssoff opts mod 2) 0).
    - destruct (upd_set16 pkt tcplen m (be16 m (pkt + 16)) k v) as (ck' & E & Hu);
        [done|lia..|solve_valid|].
      exists ck'. split; [|done]. hdr_run. rewrite E. cbn [mbind outcome_bind].
      by hdr_run.
    - destruct (upd_straddling pkt tcplen m (be16 m (pkt + 16)) k v) as (ck' & E & Hu);
        [done|lia..|solve_valid|].
      exists ck'. split; [|done]. rewrite E. cbn [mbind outcome_bind].
      by rewrite hdr_set16n_ok by solve_valid. }
  apply returns_ret. split; [|split].
  - apply (upd_finish pkt tcplen (pkt + k) (pkt + k + 2) m); try done; lia.
  - rewrite be16_wr16_out, be16_wr16 by lia. lia.
  - intros q ????. by rewrite !lookup_wr16_out by lia.
Qed.

(** A SYN in an IPv4 packet whose MSS option sits at an odd offset. *)
Definition sample_odd_mss : mem :=
  mem_of 0 ([0x45; 0; 0; 48; 0x1c; 0x46; 0x40; 0; 64; 6; 0xb1; 0xf2;
             172; 16; 10; 99; 172; 16; 10; 12] ++
            [0x04; 0xd2; 0; 80; 1; 2; 3; 4; 5; 6; 7; 8; 0x70; 0x02; 0xff; 0xff; 0x54; 0x0c; 0; 0;
             1; 2; 4; 5; 0xb4; 1; 1; 0]).
Definition sample_odd_mss_info : tcp_information :=
  {| options_valid := 1; wscale := 0; mss := 1460; sack_permitted := 0; mssoff := 21;
     ts_present := 0; ts := 0; tsecho := 0 |}.

Lemma tcp_set_mss_cksum_update_verifies_witness :
  returns (tcp_set_mss_cksum_update (H := little_endian_host) sample_odd_mss 20 sample_odd_mss_info 1360)
    (fun m' =>
      tcp_cksum_calc (H := little_endian_host) m' 0 20 20 28 = Ret 0 /\
      be16 m' (20 + (mssoff sample_odd_mss_info + 2)) = 1360 /\
      forall q, q <> 20 + 16 -> q <> 20 + 17 ->
        q <> 20 + mssoff sample_odd_mss_info + 2 -> q <> 20 + mssoff sample_odd_mss_info + 3 ->
        m' !! q = sample_odd_mss !! q).
Proof.
  apply (@tcp_set_mss_cksum_update_verifies little_endian_host sample_odd_mss 0 20 20 28);
    first [ mem_check | vm_compute; reflexivity | vm_compute; discriminate
          | vm_compute; split; discriminate ].
Defined.

(** ** Overwriting an option with no-operations *)
Section disable_sack.
Context `{Host} (m0 : mem) (pkt tcplen off sacklen : Z).
Context (Hm0 : bytes_ok m0) (Hv0 : valid m0 pkt tcplen) (H20 : 20 <= off) (Hs : 0 <= sacklen).
Context (Hfit : off + sacklen + 1 <= tcplen \/ off + sacklen <= tcplen /\ (off + sacklen) mod 2 = 0).
Let chdr := pkt + off.
Let ck0 := be16 m0 (pkt + 16).

(** After [curoff] bytes. *)
Definition disable_inv (s : mem * Z * Z) : Prop :=
  let '(m, ck, curoff) := s in
  upd pkt tcplen chdr (chdr + sacklen) m0 ck0 m ck /\
  0 <= curoff <= sacklen /\ curoff mod 2 = 0 /\
  forall q, chdr <= q < chdr + curoff -> rd m q = 1.

Lemma wr16_nops m c :
  0 <= c -> (forall q, chdr <= q < chdr + c -> rd m q = 1) ->
  forall q, chdr <= q < chdr + (c + 2) -> rd (wr16 m (chdr + c) 0x0101) q = 1.
Proof.
  intros Hc Hq q Hr. unfold chdr in *. destruct (decide (q = pkt + off + c)) as [->|].
  { rd_simpl. reflexivity. }
  destruct (decide (q = pkt + off + c + 1)) as [->|].
  { rd_simpl. reflexivity. }
  rewrite rd_wr16_out by lia. apply Hq. lia.
Qed.

Lemma disable_inv_step m ck c m' ck' :
  disable_inv (m, ck, c) -> c + 2 <= sacklen ->
  upd pkt tcplen (chdr + c) (chdr + c + 2) m ck (wr16 m (chdr + c) 0x0101) ck' ->
  m' = wr16 m (chdr + c) 0x0101 ->
  disable_inv (m', ck', c + 2).
Proof.
  intros (Hu & Hc & He & Hq) Hle Hu' ->. split; [|split; [lia|split; [lia|]]].
  - eapply upd_trans; [exact Hu|]. eapply upd_weaken; [| |exact Hu']; lia.
  - by apply wr16_nops; [lia|].
Qed.

Lemma disable_aligned_inv m ck c :
  off mod 2 = 0 -> disable_inv (m, ck, c) -> c + 2 <= sacklen ->
  exists m' ck', disable_sack_aligned_step chdr sacklen (m, ck, c) = Ret (inl (m', ck', c + 2)) /\
    disable_inv (m', ck', c + 2).
Proof.
  intros He Hi Hle. pose proof Hi as (Hu & Hc & Hce & Hq). pose proof Hu as [B C V F S].
  pose proof (V _ _ Hv0) as Hv.
  destruct (upd_set16 pkt tcplen m ck (off + c) 0x0101) as (ck' & E & Hu');
    [done|done|lia..|solve_valid|].
  rewrite !Z.add_assoc in E, Hu'. fold chdr in E, Hu'.
  exists (wr16 m (chdr + c) 0x0101), ck'. split; [|by eapply disable_inv_step].
  unfold disable_sack_aligned_step, chdr in *. destruct (Z.leb_spec (c + 2) sacklen); [|lia].
  rewrite hdr_get16n_ok by (done || solve_valid). cbn [mbind outcome_bind].
  rewrite E. cbn [mbind outcome_bind]. by rewrite hdr_set16n_ok by solve_valid.
Qed.

Lemma disable_unaligned_inv m ck c :
  off mod 2 = 1 -> disable_inv (m, ck, c) -> c + 2 <= sacklen ->
  exists m' ck', disable_sack_unaligned_step chdr sacklen (m, ck, c) = Ret (inl (m', ck', c + 2)) /\
    disable_inv (m', ck', c + 2).
Proof.
  intros He Hi Hle. pose proof Hi as (Hu & Hc & Hce & Hq). pose proof Hu as [B C V F S].
  pose proof (V _ _ Hv0) as Hv.
  destruct (upd_straddling pkt tcplen m ck (off + c) 0x0101) as (ck' & E & Hu');
    [done|done|lia..|solve_valid|].
  rewrite !Z.add_assoc in E, Hu'. fold chdr in E, Hu'.
  exists (wr16 m (chdr + c) 0x0101), ck'. split; [|by eapply disable_inv_step].
  unfold disable_sack_unaligned_step. destruct (Z.leb_spec (c + 2) sacklen); [|lia].
  rewrite E. done.
Qed.

(** The byte loop, for either alignment. *)
Lemma disable_loop body :
  (forall m ck c, disable_inv (m, ck, c) -> c + 2 <= sacklen ->
    exists m' ck', body (m, ck, c) = Ret (inl (m', ck', c + 2)) /\ disable_inv (m', ck', c + 2)) ->
  (forall m ck c, sacklen < c + 2 -> body (m, ck, c) = Ret (inr (m, ck, c))) ->
  returns (iter (S (Z.to_nat (sacklen / 2))) body (m0, ck0, 0)) (fun s =>
    disable_inv s /\ sacklen < snd s + 2).
Proof.
  intros Hstep Hend.
  apply (iter_total _ disable_inv (fun s => Z.to_nat ((sacklen - snd s) / 2))).
  - intros [[m ck] c] Hi. destruct (decide (c + 2 <= sacklen)).
    + destruct (Hstep m ck c Hi) as (m' & ck' & -> & Hi'); [done|]. apply returns_ret.
      split; [done|]. simpl. destruct Hi as (_ & ? & _). lia.
    + rewrite Hend by lia. apply returns_ret. split; [done|]. simpl. lia.
  - split; [|split; [lia|split; [done|lia]]]. apply upd_refl; [done|].
    pose proof (be16_range m0 (pkt + 16) Hm0). unfold ck0. lia.
  - simpl. rewrite Z.sub_0_r. lia.
Qed.

(** The odd last byte is set through the word it starts, whose second byte
    keeps its value. *)
Lemma last_nop m q : bytes_ok m ->
  u16 (Z.lor (Z.land (be16 m q) 0xFF) 0x0100) = 256 + rd m (q + 1).
Proof.
  intros Hm. rewrite land_255. pose proof (rd_range m q Hm). pose proof (rd_range m (q + 1) Hm).
  replace (be16 m q mod 256) with (rd m (q + 1)) by (unfold be16; lia).
  rewrite Z.lor_comm, (lor_shift_add 1 _ 8 : _ -> _ -> Z.lor 0x0100 _ = _) by (simpl; lia).
  apply u16_small. simpl. lia.
Qed.

Lemma disable_last m ck ck' :
  disable_inv (m, ck, sacklen - 1) ->
  let m' := wr16 m (chdr + (sacklen - 1)) (256 + rd m (chdr + (sacklen - 1) + 1)) in
  upd pkt tcplen (chdr + (sacklen - 1)) (chdr + (sacklen - 1) + 2) m ck m' ck' ->
  valid m (chdr + (sacklen - 1) + 1) 1 ->
  upd pkt tcplen chdr (chdr + sacklen) m0 ck0 m' ck' /\
  forall q, chdr <= q < chdr + sacklen -> rd m' q = 1.
Proof.
  intros (Hu & Hc & _ & Hq) m' Hu' Hval.
  pose proof (rd_range m (chdr + (sacklen - 1) + 1) (upd_bytes _ _ _ _ _ _ _ _ Hu)) as Hb.
  split.
  - eapply upd_trans; [exact Hu|]. destruct Hu' as [B C V F S]. split; [done|done|done| |done].
    intros q Hq'. destruct (decide (q = chdr + sacklen)) as [->|]; [|apply F; lia].
    unfold m', wr16, wr8. replace (chdr + sacklen) with (chdr + (sacklen - 1) + 1) by lia.
    rewrite lookup_insert_eq, (lookup_rd _ _ Hval). f_equal. lia.
  - intros q Hr. unfold m'. destruct (decide (q = chdr + (sacklen - 1))) as [->|].
    + rd_simpl. lia.
    + rewrite rd_wr16_out by lia. apply Hq. lia.
Qed.
End disable_sack.

(** The region of the option that the rewrite touches lies in the segment:
    one byte more when the option ends at an odd offset, two more when both
    its offset and its length are odd. *)
Definition disable_room (off sacklen tcplen : Z) : Prop :=
  if off mod 2 =? 0 then off + sacklen + sacklen mod 2 <= tcplen
  else off + sacklen + 1 + sacklen mod 2 <= tcplen.

Section disable_whole.
Context `{Host} (m : mem) (pkt tcplen off sacklen : Z).
Context (Hm : bytes_ok m) (Hv : valid m pkt tcplen) (H20 : 20 <= off) (Hs : 0 <= sacklen).
Context (Hroom : disable_room off sacklen tcplen).

Lemma disable_room_fit :
  off + sacklen + 1 <= tcplen \/ off + sacklen <= tcplen /\ (off + sacklen) mod 2 = 0.
Proof using Hroom Hs. unfold disable_room in Hroom. destruct (Z.eqb_spec (off mod 2) 0); lia. Qed.

Lemma disable_loop_aligned :
  off mod 2 = 0 ->
  returns (iter (S (Z.to_nat (sacklen / 2))) (disable_sack_aligned_step (pkt + off) sacklen)
    (m, be16 m (pkt + 16), 0)) (fun s => disable_inv m pkt tcplen off sacklen s /\ sacklen < snd s + 2).
Proof using All.
  intros He. apply disable_loop; [done|done| |].
  - intros m' ck c Hi Hle. eapply (disable_aligned_inv m pkt tcplen off sacklen); try done.
    apply disable_room_fit.
  - intros m' ck c Hlt. unfold disable_sack_aligned_step.
    by destruct (Z.leb_spec (c + 2) sacklen); [lia|].
Qed.

Lemma disable_loop_unaligned :
  off mod 2 = 1 ->
  returns (iter (S (Z.to_nat (sacklen / 2))) (disable_sack_unaligned_step (pkt + off) sacklen)
    (m, be16 m (pkt + 16), 0)) (fun s => disable_inv m pkt tcplen off sacklen s /\ sacklen < snd s + 2).
Proof using All.
  intros He. apply disable_loop; [done|done| |].
  - intros m' ck c Hi Hle. eapply (disable_unaligned_inv m pkt tcplen off sacklen); try done.
    apply disable_room_fit.
  - intros m' ck c Hlt. unfold disable_sack_unaligned_step.
    by destruct (Z.leb_spec (c + 2) sacklen); [lia|].
Qed.

(** Memory and checksum when the option is gone and the checksum not yet
    stored. *)
Definition disabled (m' : mem) (ck' : Z) : Prop :=
  upd pkt tcplen (pkt + off) (pkt + off + sacklen) m (be16 m (pkt + 16)) m' ck' /\
  forall q, pkt + off <= q < pkt + off + sacklen -> rd m' q = 1.

Lemma disable_last_aligned m' ck c :
  off mod 2 = 0 -> disable_inv m pkt tcplen off sacklen (m', ck, c) -> c + 1 = sacklen ->
  exists ck', ip_update_cksum16 ck (be16 m' (pkt + off + c)) (256 + rd m' (pkt + off + c + 1)) = Ret ck' /\
    disabled (wr16 m' (pkt + off + c) (256 + rd m' (pkt + off + c + 1))) ck'.
Proof using All.
  intros He Hi Hc. replace c with (sacklen - 1) in * by lia.
  pose proof Hi as (Hu & _ & Hce & _). pose proof Hu as [B C V F S]. pose proof (V _ _ Hv) as Hv'.
  unfold disable_room in Hroom. destruct (Z.eqb_spec (off mod 2) 0); [|lia].
  pose proof (rd_range m' (pkt + off + (sacklen - 1) + 1) B).
  destruct (upd_set16 pkt tcplen m' ck (off + (sacklen - 1))
    (256 + rd m' (pkt + off + (sacklen - 1) + 1))) as (ck' & E & Hu'); [done|done|lia..|solve_valid|].
  rewrite !Z.add_assoc in E, Hu'. exists ck'. split; [done|].
  eapply disable_last; [..|exact Hi|exact Hu'|solve_valid]; (done || lia).
Qed.

Lemma disable_last_unaligned m' ck c :
  off mod 2 = 1 -> disable_inv m pkt tcplen off sacklen (m', ck, c) -> c + 1 = sacklen ->
  exists ck', set16_straddling m' (pkt + off + c) ck (256 + rd m' (pkt + off + c + 1)) =
      Ret (wr16 m' (pkt + off + c) (256 + rd m' (pkt + off + c + 1)), ck') /\
    disabled (wr16 m' (pkt + off + c) (256 + rd m' (pkt + off + c + 1))) ck'.
Proof using All.
  intros He Hi Hc. replace c with (sacklen - 1) in * by lia.
  pose proof Hi as (Hu & _ & Hce & _). pose proof Hu as [B C V F S]. pose proof (V _ _ Hv) as Hv'.
  unfold disable_room in Hroom. destruct (Z.eqb_spec (off mod 2) 0); [lia|].
  pose proof (rd_range m' (pkt + off + (sacklen - 1) + 1) B).
  destruct (upd_straddling pkt tcplen m' ck (off + (sacklen - 1))
    (256 + rd m' (pkt + off + (sacklen - 1) + 1))) as (ck' & E & Hu'); [done|done|lia..|solve_valid|].
  rewrite !Z.add_assoc in E, Hu'. exists ck'. split; [done|].
  eapply disable_last; [..|exact Hi|exact Hu'|solve_valid]; (done || lia).
Qed.

Lemma disable_sack_ok :
  exists m' ck', tcp_disable_sack_cksum_update m pkt (pkt + off) sacklen (off mod 2 =? 0) =
      Ret (wr16 m' (pkt + 16) ck') /\ disabled m' ck'.
Proof using All.
  pose proof disable_room_fit as Hfit. unfold tcp_disable_sack_cksum_update, tcp_cksum, tcp_set_cksum.
  rewrite (hdr_get16n_ok m (pkt + 16)) by (done || solve_valid). cbn [mbind outcome_bind].
  assert (forall m' ck' (Hd : disabled m' ck'), hdr_set16n m' (pkt + 16) ck' =
    Ret (wr16 m' (pkt + 16) ck')) as Hset.
  { intros m' ck' [[B C V F S] _]. pose proof (V _ _ Hv). apply hdr_set16n_ok. solve_valid. }
  destruct (Z.eqb_spec (off mod 2) 0) as [He|He].
  - destruct (disable_loop_aligned He) as ([[m' ck] c] & -> & Hi & Hc). cbn [mbind outcome_bind].
    simpl in Hc. pose proof Hi as (Hu & Hcr & Hce & Hq). pose proof Hu as [B C V F S].
    pose proof (V _ _ Hv) as Hv'. destruct (Z.eqb_spec (c + 1) sacklen) as [Hl|].
    + destruct (disable_last_aligned m' ck c He Hi Hl) as (ck' & E & Hd).
      unfold disable_room in Hroom. destruct (Z.eqb_spec (off mod 2) 0); [|lia].
      rewrite hdr_get16n_ok by (done || solve_valid). cbn [mbind outcome_bind].
      rewrite last_nop, E by done. cbn [mbind outcome_bind].
      rewrite hdr_set16n_ok by solve_valid. cbn [mbind outcome_bind].
      eexists _, ck'. split; [by apply Hset|done].
    + assert (disabled m' ck) as Hd by (split; [done|intros; apply Hq; lia]).
      cbn [mbind outcome_bind]. eexists _, ck. split; [by apply Hset|done].
  - destruct (disable_loop_unaligned ltac:(lia)) as ([[m' ck] c] & -> & Hi & Hc).
    cbn [mbind outcome_bind].
    simpl in Hc. pose proof Hi as (Hu & Hcr & Hce & Hq). pose proof Hu as [B C V F S].
    pose proof (V _ _ Hv) as Hv'. destruct (Z.eqb_spec (c + 1) sacklen) as [Hl|].
    + destruct (disable_last_unaligned m' ck c ltac:(lia) Hi Hl) as (ck' & E & Hd).
      unfold disable_room in Hroom. destruct (Z.eqb_spec (off mod 2) 0); [lia|].
      rewrite hdr_get16n_ok by (done || solve_valid). cbn [mbind outcome_bind].
      rewrite last_nop, E by done. cbn [mbind outcome_bind].
      eexists _, ck'. split; [by apply Hset|done].
    + assert (disabled m' ck) as Hd by (split; [done|intros; apply Hq; lia]).
      cbn [mbind outcome_bind]. eexists _, ck. split; [by apply Hset|done].
Qed.
End disable_whole.

(** [tcp_disable_sack_cksum_update] on a segment that verifies, at an even
    or an odd option offset and for even and odd option lengths: every byte of
    the option becomes a no-operation, the segment still verifies, and nothing
    else but the checksum changes. *)
Theorem tcp_disable_sack_cksum_update_verifies `{Host} m iphdr iplen pkt tcplen off sacklen :
  bytes_ok m -> valid m iphdr 20 -> 20 <= iplen -> valid m pkt tcplen -> tcplen <= 65535 ->
  iphdr + 20 <= pkt -> 20 <= off -> 0 <= sacklen -> disable_room off sacklen tcplen ->
  tcp_cksum_calc m iphdr iplen pkt tcplen = Ret 0 ->
  returns (tcp_disable_sack_cksum_update m pkt (pkt + off) sacklen (off mod 2 =? 0)) (fun m' =>
    tcp_cksum_calc m' iphdr iplen pkt tcplen = Ret 0 /\
    (forall q, pkt + off <= q < pkt + off + sacklen -> rd m' q = 1) /\
    (forall q, q < pkt + 16 \/ pkt + 18 <= q -> q < pkt + off \/ pkt + off + sacklen <= q ->
      m' !! q = m !! q)).
Proof.
  intros Hm Hvi Hip Hv Hl Hd H20 Hs Hroom H0.
  pose proof (disable_room_fit tcplen off sacklen Hs Hroom).
  destruct (disable_sack_ok m pkt tcplen off sacklen Hm Hv H20 Hs Hroom)
    as (m' & ck' & -> & Hu & Hq). apply returns_ret. split; [|split].
  - apply (upd_finish pkt tcplen (pkt + off) (pkt + off + sacklen) m); try done; lia.
  - intros q Hr. rewrite rd_wr16_out by lia. by apply Hq.
  - intros q ??. rewrite lookup_wr16_out by lia. by apply (upd_frame _ _ _ _ _ _ _ _ Hu).
Qed.

Lemma tcp_disable_sack_cksum_update_verifies_witness :
  returns (tcp_disable_sack_cksum_update (H := little_endian_host) sample_odd_mss 20 (20 + 21) 4 (21 mod 2 =? 0))
    (fun m' =>
      tcp_cksum_calc (H := little_endian_host) m' 0 20 20 28 = Ret 0 /\
      (forall q, 20 + 21 <= q < 20 + 21 + 4 -> rd m' q = 1) /\
      (forall q, q < 20 + 16 \/ 20 + 18 <= q -> q < 20 + 21 \/ 20 + 21 + 4 <= q ->
        m' !! q = sample_odd_mss !! q)).
Proof.
  apply (@tcp_disable_sack_cksum_update_verifies little_endian_host sample_odd_mss 0 20 20 28 21 4);
    first [ mem_check | vm_compute; reflexivity | vm_compute; discriminate ].
Defined.

(** ** Shifting timestamps and SACK blocks *)
Section adjust.
Context `{Host} (p n : Z).

Lemma upd_set32 m ck k v :
  bytes_ok m -> 0 <= ck <= 65535 -> 0 <= v < 4294967296 ->
  0 <= k -> k mod 2 = 0 -> k + 4 <= n -> valid m (p + k) 4 ->
  exists ck', ip_update_cksum32 ck (be32 m (p + k)) v = Ret ck' /\
    upd p n (p + k) (p + k + 4) m ck (wr32 m (p + k) v) ck'.
Proof.
  intros Hm Hck Hv Hk Hke Hn Hval. pose proof (be32_range m (p + k) Hm).
  destruct (ip_update_cksum32_mod ck (be32 m (p + k)) v) as (ck' & -> & Hck' & Hmod); [lia..|].
  exists ck'. split; [done|]. split; [auto with mem|done|auto with mem| |].
  - intros q Hq. apply lookup_wr32_out. lia.
  - rewrite bsum_wr32 by done. rewrite <- Hmod. f_equal. lia.
Qed.

(** A 32-bit write at an odd offset, through the three words it touches. *)
Lemma upd_straddling32 m ck k v :
  bytes_ok m -> 0 <= ck <= 65535 -> 0 <= v < 4294967296 ->
  1 <= k -> k mod 2 = 1 -> k + 5 <= n -> valid m (p + k - 1) 6 ->
  let m' := wr32 m (p + k) v in
  exists ck',
    (c ← ip_update_cksum16 ck (be16 m (p + k - 1)) (be16 m' (p + k - 1));
     c ← ip_update_cksum16 c (be16 m (p + k + 1)) (be16 m' (p + k + 1));
     ip_update_cksum16 c (be16 m (p + k + 3)) (be16 m' (p + k + 3))) = Ret ck' /\
    upd p n (p + k) (p + k + 4) m ck m' ck'.
Proof.
  intros Hm Hck Hv Hk Hko Hn Hval m'. assert (bytes_ok m') as Hm' by (unfold m'; auto with mem).
  pose proof (be16_range m (p + k - 1) Hm). pose proof (be16_range m (p + k + 1) Hm).
  pose proof (be16_range m (p + k + 3) Hm). pose proof (be16_range m' (p + k + 3) Hm').
  pose proof (be16_range m' (p + k - 1) Hm'). pose proof (be16_range m' (p + k + 1) Hm').
  destruct (ip_update_cksum16_mod ck (be16 m (p + k - 1)) (be16 m' (p + k - 1)))
    as (c1 & -> & Hc1 & M1); [lia..|]. cbn [mbind outcome_bind].
  destruct (ip_update_cksum16_mod c1 (be16 m (p + k + 1)) (be16 m' (p + k + 1)))
    as (c2 & -> & Hc2 & M2); [lia..|]. cbn [mbind outcome_bind].
  destruct (ip_update_cksum16_mod c2 (be16 m (p + k + 3)) (be16 m' (p + k + 3)))
    as (c3 & -> & Hc3 & M3); [lia..|].
  exists c3. split; [done|]. split; [done|done|unfold m'; auto with mem| |].
  - intros q Hq. apply lookup_wr32_out. lia.
  - rewrite <- (mod_sum_zero _ _ (mod_sum_zero _ _ M1 M2) M3). f_equal.
    pose proof (bsum_local m m' p (k - 1) 6 n) as Hl. change (Z.to_nat 6) with 6%nat in Hl.
    rewrite !bsum_three, Z.add_sub_assoc in Hl.
    replace (p + k - 1 + 2) with (p + k + 1) in Hl by lia.
    replace (p + k - 1 + 4) with (p + k + 3) in Hl by lia.
    enough (bsum m' p (Z.to_nat n) - bsum m p (Z.to_nat n) =
      be16 m' (p + k - 1) + be16 m' (p + k + 1) + be16 m' (p + k + 3)
      - (be16 m (p + k - 1) + be16 m (p + k + 1) + be16 m (p + k + 3))) by lia.
    apply Hl; try lia. intros q Hq. apply lookup_wr32_out. lia.
Qed.

Lemma adjust_ts_ok m field hdrs adj :
  bytes_ok m -> valid m p n -> field = 2 \/ field = 6 -> 20 <= tsoff hdrs ->
  tsoff hdrs + 10 + tsoff hdrs mod 2 <= n ->
  let k := tsoff hdrs + field in
  let m' := wr32 m (p + k) (u32 (be32 m (p + k) + adj)) in
  exists ck', adjust_ts_cksum_update field m p hdrs adj = Ret (wr16 m' (p + 16) ck') /\
    upd p n (p + k) (p + k + 4) m (be16 m (p + 16)) m' ck'.
Proof.
  intros Hm Hv Hf H20 Hn k m'. unfold adjust_ts_cksum_update, tcp_cksum, tcp_set_cksum. fold k.
  pose proof (be16_range m (p + 16) Hm). pose proof (u32_range (be32 m (p + k) + adj)).
  rewrite (hdr_get16n_ok m (p + 16)) by (done || solve_valid). cbn [mbind outcome_bind].
  destruct (Z.eqb_spec (tsoff hdrs) 0); [lia|].
  destruct (Z.eqb_spec (tsoff hdrs mod 2) 0).
  - destruct (upd_set32 m (be16 m (p + 16)) k (u32 (be32 m (p + k) + adj))) as (ck' & E & Hu);
      [done|lia|lia|lia|lia|lia|solve_valid|].
    exists ck'. split; [|done]. rewrite (hdr_get32n_ok m (p + k)) by (done || solve_valid).
    cbn [mbind outcome_bind]. rewrite hdr_set32n_ok by solve_valid. cbn [mbind outcome_bind].
    rewrite E. cbn [mbind outcome_bind]. by rewrite hdr_set16n_ok by solve_valid.
  - destruct (upd_straddling32 m (be16 m (p + 16)) k (u32 (be32 m (p + k) + adj))) as (ck' & E & Hu);
      [done|lia|lia|lia|lia|lia|solve_valid|].
    exists ck'. split; [|done]. rewrite !hdr_get16n_ok by (done || solve_valid).
    cbn [mbind outcome_bind]. rewrite (hdr_get32n_ok m (p + k)) by (done || solve_valid).
    cbn [mbind outcome_bind]. rewrite hdr_set32n_ok by solve_valid. cbn [mbind outcome_bind].
    fold m' in E |- *. assert (bytes_ok m') by (unfold m'; auto with mem).
    assert (valid m' p n) by (unfold m'; auto with mem). clearbody m'.
    rewrite !hdr_get16n_ok by (done || solve_valid). cbn [mbind outcome_bind].
    apply bind_Ret_inv in E as (c1 & -> & E). cbn [mbind outcome_bind].
    apply bind_Ret_inv in E as (c2 & -> & E). cbn [mbind outcome_bind].
    rewrite E. cbn [mbind outcome_bind].
    by rewrite hdr_set16n_ok by solve_valid.
Qed.
End adjust.

(** [tcp_adjust_tsval_cksum_update] and [tcp_adjust_tsecho_cksum_update]
    add the adjustment to the timestamp value or echo modulo 2^32, at an even
    or an odd option offset, and a segment that verified still does. *)
Theorem tcp_adjust_ts_cksum_update_verifies `{Host} (echo : bool) m iphdr iplen pkt tcplen hdrs adj :
  let field := if echo then 6 else 2 in
  bytes_ok m -> valid m iphdr 20 -> 20 <= iplen -> valid m pkt tcplen -> tcplen <= 65535 ->
  iphdr + 20 <= pkt -> 20 <= tsoff hdrs ->
  tsoff hdrs + 10 + tsoff hdrs mod 2 <= tcplen ->
  tcp_cksum_calc m iphdr iplen pkt tcplen = Ret 0 ->
  returns ((if echo then tcp_adjust_tsecho_cksum_update else tcp_adjust_tsval_cksum_update)
             m pkt hdrs adj) (fun m' =>
    tcp_cksum_calc m' iphdr iplen pkt tcplen = Ret 0 /\
    (if echo then tcp_tsecho else tcp_tsval) m' pkt hdrs =
      Ret (u32 (be32 m (pkt + (tsoff hdrs + field)) + adj)) /\
    forall q, q < pkt + 16 \/ pkt + 18 <= q ->
      q < pkt + (tsoff hdrs + field) \/ pkt + (tsoff hdrs + field) + 4 <= q -> m' !! q = m !! q).
Proof.
  intros field Hm Hvi Hip Hv Hl Hd H20 Hn H0.
  assert (field = 2 \/ field = 6) as Hf by (unfold field; destruct echo; auto).
  destruct (adjust_ts_ok pkt tcplen m field hdrs adj Hm Hv Hf H20 Hn) as (ck' & E & Hu).
  replace ((if echo then _ else _) m pkt hdrs adj) with (adjust_ts_cksum_update field m pkt hdrs adj)
    by (unfold field; by destruct echo).
  rewrite E. apply returns_ret. split; [|split].
  - eapply upd_finish; [exact Hm|exact Hvi|exact Hip|exact Hv|..|exact Hu|exact H0]; lia.
  - pose proof (u32_range (be32 m (pkt + (tsoff hdrs + field)) + adj)).
    pose proof (be32_wr32 m (pkt + (tsoff hdrs + field)) _ H1) as Hw.
    rewrite <- (be32_frame _ (wr16 (wr32 m (pkt + (tsoff hdrs + field))
      (u32 (be32 m (pkt + (tsoff hdrs + field)) + adj))) (pkt + 16) ck')) in Hw
      by (intros; apply rd_wr16_out; lia).
    destruct echo; unfold tcp_tsecho, tcp_tsval; (destruct (Z.ltb_spec (tsoff hdrs) 20); [lia|]);
      unfold field in *; rewrite hdr_get32n_ok by (auto with mem || solve_valid); by f_equal.
  - intros q ??. by rewrite lookup_wr16_out, lookup_wr32_out by lia.
Qed.

(** Timestamps after a single no-operation, hence at an odd offset. *)
Definition sample_odd_ts : mem :=
  mem_of 0 ([0x45; 0; 0; 52; 0x1c; 0x46; 0x40; 0; 64; 6; 0xb1; 0xee;
             172; 16; 10; 99; 172; 16; 10; 12] ++
            [0x04; 0xd2; 0; 80; 1; 2; 3; 4; 5; 6; 7; 8; 0x80; 0x10; 0xff; 0xff; 0xe4; 0xf9; 0; 0;
             1; 8; 10; 0; 0; 0; 5; 0; 0; 0; 9; 1]).

Lemma tcp_adjust_ts_cksum_update_verifies_witness :
  let hdrs := {| sackoff := 0; sacklen := 0; tsoff := 21 |} in
  returns (tcp_adjust_tsval_cksum_update (H := little_endian_host) sample_odd_ts 20 hdrs 0xfffffffe)
    (fun m' =>
      tcp_cksum_calc (H := little_endian_host) m' 0 20 20 32 = Ret 0 /\
      tcp_tsval (H := little_endian_host) m' 20 hdrs = Ret (u32 (be32 sample_odd_ts (20 + (21 + 2)) + 0xfffffffe)) /\
      forall q, q < 20 + 16 \/ 20 + 18 <= q ->
        q < 20 + (21 + 2) \/ 20 + (21 + 2) + 4 <= q -> m' !! q = sample_odd_ts !! q).
Proof.
  intros hdrs.
  apply (@tcp_adjust_ts_cksum_update_verifies little_endian_host false sample_odd_ts 0 20 20 32 hdrs);
    first [ mem_check | vm_compute; reflexivity | vm_compute; discriminate ].
Defined.

(** ** SACK blocks at an even offset *)
Section adjust_sack.
Context `{Host} (m0 : mem) (pkt tcplen off sacklen adj : Z).
Context (Hm0 : bytes_ok m0) (Hv0 : valid m0 pkt tcplen) (H20 : 20 <= off) (Heven : off mod 2 = 0).
Context (Hs : 2 <= sacklen) (Hfit : off + sacklen <= tcplen).

(** After [curoff] bytes: the edges before [curoff] are shifted, those after
    it untouched. *)
Definition sack_inv (s : mem * Z * Z) : Prop :=
  let '(m, ck, c) := s in
  upd pkt tcplen (pkt + off + 2) (pkt + off + c) m0 (be16 m0 (pkt + 16)) m ck /\
  2 <= c <= sacklen /\ (c - 2) mod 8 = 0 /\
  forall i, 0 <= i -> 2 + 4 * i < c ->
    be32 m (pkt + off + 2 + 4 * i) = u32 (be32 m0 (pkt + off + 2 + 4 * i) + adj).

Lemma sack_edges m k v w i :
  0 <= i -> 2 + 4 * i < k -> (k - 2) mod 4 = 0 ->
  be32 (wr32 (wr32 m (pkt + off + k) v) (pkt + off + (k + 4)) w) (pkt + off + 2 + 4 * i) =
    be32 m (pkt + off + 2 + 4 * i).
Proof.
  intros Hi Hk Hk4. apply be32_frame. intros q Hq. by rewrite !rd_wr32_out by lia.
Qed.

Lemma sack_inv_step m ck c :
  sack_inv (m, ck, c) -> c + 8 <= sacklen ->
  exists m' ck', adjust_sack_aligned_step (pkt + off) sacklen adj (m, ck, c) =
      Ret (inl (m', ck', c + 8)) /\ sack_inv (m', ck', c + 8).
Proof.
  intros (Hu & Hc & Hc8 & Hq) Hle. pose proof Hu as [B C V F S]. pose proof (V _ _ Hv0) as Hv.
  set (ns := u32 (be32 m (pkt + off + c) + adj)). set (ne := u32 (be32 m (pkt + off + (c + 4)) + adj)).
  pose proof (u32_range (be32 m (pkt + off + c) + adj)).
  pose proof (u32_range (be32 m (pkt + off + (c + 4)) + adj)).
  destruct (upd_set32 pkt tcplen m ck (off + c) ns) as (c1 & E1 & U1);
    [done|done|unfold ns; lia|lia|lia|lia|solve_valid|].
  rewrite !Z.add_assoc in E1, U1. pose proof U1 as [B1 C1 V1 _ _].
  destruct (upd_set32 pkt tcplen (wr32 m (pkt + off + c) ns) c1 (off + (c + 4)) ne) as (c2 & E2 & U2);
    [done|done|unfold ne; lia|lia|lia|lia|solve_valid|].
  replace (pkt + (off + (c + 4))) with (pkt + off + (c + 4)) in E2, U2 by lia.
  rewrite (be32_frame m) in E2 by (intros; apply rd_wr32_out; lia).
  exists (wr32 (wr32 m (pkt + off + c) ns) (pkt + off + (c + 4)) ne), c2. split.
  - unfold adjust_sack_aligned_step. destruct (Z.leb_spec (c + 8) sacklen); [|lia].
    rewrite !hdr_get32n_ok by (done || solve_valid). cbn [mbind outcome_bind].
    fold ns ne. rewrite E1. cbn [mbind outcome_bind]. rewrite E2. cbn [mbind outcome_bind].
    rewrite hdr_set32n_ok by solve_valid. cbn [mbind outcome_bind].
    by rewrite hdr_set32n_ok by solve_valid.
  - split; [|split; [lia|split; [lia|]]].
    + eapply upd_trans; [eapply upd_weaken; [| |exact Hu]; lia|].
      eapply upd_trans; [eapply upd_weaken; [| |exact U1]; lia|].
      eapply upd_weaken; [| |exact U2]; lia.
    + intros i Hi Hlt. destruct (decide (2 + 4 * i < c)); [rewrite sack_edges by lia; by apply Hq|].
      assert (forall q, pkt + off + c <= q -> rd m q = rd m0 q) as Fr
        by (intros; apply rd_lookup, F; lia).
      destruct (decide (2 + 4 * i = c)).
      * replace (pkt + off + 2 + 4 * i) with (pkt + off + c) by lia.
        rewrite (be32_frame (wr32 m (pkt + off + c) ns)) by (intros; apply rd_wr32_out; lia).
        rewrite be32_wr32 by (unfold ns; lia). unfold ns. do 2 f_equal.
        apply be32_frame. intros; apply Fr; lia.
      * replace (pkt + off + 2 + 4 * i) with (pkt + off + (c + 4)) by lia.
        rewrite be32_wr32 by (unfold ne; lia). unfold ne. do 2 f_equal.
        apply be32_frame. intros; apply Fr; lia.
Qed.

Lemma adjust_sack_ok fuel :
  (Z.to_nat (sacklen / 8) < fuel)%nat ->
  exists m' ck', tcp_adjust_sack_cksum_update fuel m0 pkt (pkt + off) sacklen true adj =
      Ret (wr16 m' (pkt + 16) ck') /\
    exists c, sack_inv (m', ck', c) /\ sacklen < c + 8.
Proof.
  intros Hf. unfold tcp_adjust_sack_cksum_update, tcp_cksum, tcp_set_cksum.
  rewrite (hdr_get16n_ok m0 (pkt + 16)) by (done || solve_valid). cbn [mbind outcome_bind].
  pose proof (be16_range m0 (pkt + 16) Hm0).
  destruct (iter_total (adjust_sack_aligned_step (pkt + off) sacklen adj) sack_inv
    (fun s => Z.to_nat ((sacklen - snd s) / 8))
    (fun '(m', ck') => exists c, sack_inv (m', ck', c) /\ sacklen < c + 8))
    with (n := fuel) (s := (m0, be16 m0 (pkt + 16), 2)) as ([m' ck'] & -> & c & Hi & Hc).
  - intros [[m ck] c] Hi. destruct (decide (c + 8 <= sacklen)).
    + destruct (sack_inv_step m ck c Hi) as (m' & ck' & -> & Hi'); [done|]. apply returns_ret.
      split; [done|]. simpl. destruct Hi as (_ & ? & _). lia.
    + unfold adjust_sack_aligned_step. destruct (Z.leb_spec (c + 8) sacklen); [lia|].
      apply returns_ret. exists c. split; [done|lia].
  - split; [by apply upd_refl; [|lia]|]. split; [lia|]. split; [done|]. intros. lia.
  - simpl. lia.
  - cbn [mbind outcome_bind]. exists m', ck'. split; [|by exists c].
    destruct Hi as ([B C V F S] & _). pose proof (V _ _ Hv0). apply hdr_set16n_ok. solve_valid.
Qed.
End adjust_sack.

(** C30: at an even option offset [tcp_adjust_sack_cksum_update] adds the
    adjustment modulo 2^32 to both edges of every SACK block, keeps a valid
    checksum valid and changes nothing else; at an odd offset with at least
    one block its loop never ends, because [curoff] is not advanced. *)
Theorem tcp_adjust_sack_cksum_update_spec `{Host} fuel m iphdr iplen pkt tcplen off sacklen adj :
  bytes_ok m -> valid m iphdr 20 -> 20 <= iplen -> valid m pkt tcplen -> tcplen <= 65535 ->
  iphdr + 20 <= pkt -> 20 <= off -> 10 <= sacklen -> off + sacklen + off mod 2 <= tcplen ->
  (Z.to_nat (sacklen / 8) < fuel)%nat ->
  tcp_cksum_calc m iphdr iplen pkt tcplen = Ret 0 ->
  if off mod 2 =? 0 then
    returns (tcp_adjust_sack_cksum_update fuel m pkt (pkt + off) sacklen true adj) (fun m' =>
      tcp_cksum_calc m' iphdr iplen pkt tcplen = Ret 0 /\
      (forall b e, 0 <= b < (sacklen - 2) / 8 -> e = 0 \/ e = 4 ->
        be32 m' (pkt + off + 2 + 8 * b + e) = u32 (be32 m (pkt + off + 2 + 8 * b + e) + adj)) /\
      (forall q, q < pkt + 16 \/ pkt + 18 <= q -> q < pkt + off + 2 \/ pkt + off + sacklen <= q ->
        m' !! q = m !! q))
  else tcp_adjust_sack_cksum_update fuel m pkt (pkt + off) sacklen false adj = OutOfFuel.
Proof.
  intros Hm Hvi Hip Hv Hl Hd H20 Hs Hfit Hf H0.
  destruct (Z.eqb_spec (off mod 2) 0) as [He|He].
  - destruct (adjust_sack_ok m pkt tcplen off sacklen adj Hm Hv H20 He ltac:(lia) ltac:(lia) fuel Hf)
      as (m' & ck' & -> & c & (Hu & Hc & Hc8 & Hq) & Hend).
    apply returns_ret. split; [|split].
    + eapply upd_finish; [exact Hm|exact Hvi|exact Hip|exact Hv|..|exact Hu|exact H0]; lia.
    + intros b e Hb He4.
      rewrite (be32_frame m') by (intros; apply rd_wr16_out; lia).
      replace (pkt + off + 2 + 8 * b + e) with (pkt + off + 2 + 4 * (2 * b + e / 4)) by lia.
      apply Hq; lia.
    + intros q ??. rewrite lookup_wr16_out by lia.
      apply (upd_frame _ _ _ _ _ _ _ _ Hu). lia.
  - unfold tcp_adjust_sack_cksum_update, tcp_cksum.
    rewrite hdr_get16n_ok by (done || solve_valid). cbn [mbind outcome_bind].
    pose proof (be16_range m (pkt + 16) Hm) as Hck.
    rewrite (iter_diverges _ (fun '(m', ck, c) => c = 2 /\ bytes_ok m' /\ valid m' pkt tcplen /\
      0 <= ck <= 65535)); [done| |split; [done|split; [done|split; [done|lia]]]].
    intros [[m' ck] c] (-> & Hm' & Hv' & Hck'). unfold adjust_sack_unaligned_step.
    destruct (Z.leb_spec (2 + 8) sacklen); [|lia].
    rewrite !hdr_get16n_ok, !hdr_get32n_ok by (done || solve_valid). cbn [mbind outcome_bind].
    rewrite hdr_set32n_ok by solve_valid. cbn [mbind outcome_bind].
    rewrite hdr_set32n_ok by solve_valid. cbn [mbind outcome_bind].
    match goal with |- context [hdr_get16n ?x _] => set (m2 := x) end.
    assert (bytes_ok m2 /\ valid m2 pkt tcplen) as [Hm2 Hv2] by (unfold m2; auto with mem).
    clearbody m2.
    rewrite !hdr_get16n_ok, !hdr_get32n_ok by (done || solve_valid). cbn [mbind outcome_bind].
    edestruct (ip_update_cksum16_mod ck) as (c1 & -> & Hc1 & _); [lia| | |cbn [mbind outcome_bind]].
    { pose proof (be16_range m' (pkt + off + (2 - 1)) Hm'). lia. }
    { pose proof (be16_range m2 (pkt + off + (2 - 1)) Hm2). lia. }
    edestruct (ip_update_cksum32_mod c1) as (c2 & -> & Hc2 & _); [lia|auto with mem..|cbn [mbind outcome_bind]].
    edestruct (ip_update_cksum32_mod c2) as (c3 & -> & Hc3 & _); [lia|auto with mem..|cbn [mbind outcome_bind]].
    eexists. split; [done|]. done.
Qed.

(** One SACK block that wraps around the sequence space. *)
Definition sample_sack : mem :=
  mem_of 0 ([0x45; 0; 0; 52; 0x1c; 0x46; 0x40; 0; 64; 6; 0xb1; 0xee;
             172; 16; 10; 99; 172; 16; 10; 12] ++
            [0x04; 0xd2; 0; 80; 1; 2; 3; 4; 5; 6; 7; 8; 0x80; 0x10; 0xff; 0xff; 0xf7; 0xfd; 0; 0;
             1; 1; 5; 10; 0xff; 0xff; 0xff; 0xf0; 0; 0; 0; 9]).

Lemma tcp_adjust_sack_cksum_update_spec_witness :
  returns (tcp_adjust_sack_cksum_update (H := little_endian_host) 2 sample_sack 20 (20 + 22) 10 true 32)
    (fun m' =>
      tcp_cksum_calc (H := little_endian_host) m' 0 20 20 32 = Ret 0 /\
      (forall b e, 0 <= b < (10 - 2) / 8 -> e = 0 \/ e = 4 ->
        be32 m' (20 + 22 + 2 + 8 * b + e) = u32 (be32 sample_sack (20 + 22 + 2 + 8 * b + e) + 32)) /\
      (forall q, q < 20 + 16 \/ 20 + 18 <= q -> q < 20 + 22 + 2 \/ 20 + 22 + 10 <= q ->
        m' !! q = sample_sack !! q)).
Proof.
  apply (@tcp_adjust_sack_cksum_update_spec little_endian_host 2 sample_sack 0 20 20 32 22 10 32);
    first [ mem_check | vm_compute; reflexivity | vm_compute; discriminate | vm_compute; lia ].
Defined.
