(* ===== verification/Packet.v ===== *)
(** Packets of packet/packet.h, the allocator interface of alloc/allocif.h,
    and copies between blocks. *)
From S2P Require Import Prelude Bytes IpHdr IpCksum.

(** ** Copies between blocks

    [copied m' m dst msrc src n]: [m'] is [m] with [n] bytes of [msrc] from
    [src] at [dst]. *)
Definition copied (m' m : mem) (dst : Z) (msrc : mem) (src n : Z) : Prop :=
  forall q, m' !! q = if decide (dst <= q < dst + n) then msrc !! (src + (q - dst)) else m !! q.

Lemma storen_ok m p bs :
  valid m p (Z.of_nat (length bs)) -> Forall (fun b => 0 <= b < 256) bs ->
  exists m', storen m p bs = Ret m' /\
    forall q, m' !! q = if decide (p <= q < p + Z.of_nat (length bs))
                        then bs !! Z.to_nat (q - p) else m !! q.
Proof.
  revert m p. induction bs as [|b bs IH]; intros m p Hv Hb.
  - exists m. split; [done|]. intros q. simpl. by destruct (decide _); [lia|].
  - inversion Hb as [|? ? Hb0 Hbs]; subst. cbn [storen length].
    rewrite store8_ok by (eapply valid_sub; [exact Hv|lia|simpl; lia]). cbn [mbind outcome_bind].
    destruct (IH (wr8 m p b) (p + 1)) as (m' & -> & Hm'); [|done|].
    { apply valid_wr8. eapply valid_sub; [exact Hv|lia|simpl; lia]. }
    exists m'. split; [done|]. intros q. rewrite Hm'.
    destruct (decide (p + 1 <= q < p + 1 + Z.of_nat (length bs))).
    + destruct (decide _); [|lia]. replace (Z.to_nat (q - p)) with (S (Z.to_nat (q - (p + 1)))) by lia.
      done.
    + destruct (decide (q = p)) as [->|].
      * destruct (decide _); [|lia]. rewrite Z.sub_diag. unfold wr8.
        rewrite lookup_insert_eq. simpl. f_equal. lia.
      * destruct (decide _); [lia|]. by apply lookup_wr8_out.
Qed.

Lemma storen_app m p a b : storen m p (a ++ b) = (m ← storen m p a; storen m (p + Z.of_nat (length a)) b).
Proof.
  revert m p. induction a as [|x a IH]; intros m p; cbn [storen app length].
  - cbn [mbind outcome_bind]. f_equal. lia.
  - rewrite bind_assoc. destruct (store8 m p x); [|done..]. cbn [mbind outcome_bind]. rewrite IH.
    replace (p + 1 + Z.of_nat (length a)) with (p + Z.of_nat (S (length a))) by lia. done.
Qed.
Lemma encode_length (hw : Host) n v : length (host_encode n v) = n.
Proof.
  assert (length (le_encode n v) = n) as E by (revert v; induction n; intros v; simpl; auto).
  unfold host_encode. destruct (host_big_endian); [|done]. by rewrite length_reverse.
Qed.
Lemma encode_byte_list (hw : Host) n v : Forall (fun b => 0 <= b < 256) (host_encode n v).
Proof.
  assert (Forall (fun b => 0 <= b < 256) (le_encode n v)) as E by (revert v; induction n; intros v; simpl; constructor; auto; lia).
  unfold host_encode. destruct host_big_endian; [|done]. by apply Forall_reverse.
Qed.

Lemma memcpy_from_ok mdst dst msrc src n :
  bytes_ok msrc -> 0 <= n -> valid mdst dst n -> valid msrc src n ->
  exists m', memcpy_from mdst dst msrc src n = Ret m' /\ copied m' mdst dst msrc src n.
Proof.
  intros Hm Hn Hd Hs. unfold memcpy_from. rewrite loadn_ok by (rewrite Z2Nat.id by done; exact Hs).
  cbn [mbind outcome_bind]. rewrite Z2Nat.id by done.
  destruct (storen_ok mdst dst ((fun i => rd msrc (src + i)) <$> seqZ 0 n)) as (m' & -> & Hm').
  - by rewrite length_fmap, length_seqZ, Z2Nat.id by done.
  - apply Forall_fmap, Forall_forall. intros i _. simpl. auto with mem.
  - exists m'. split; [done|]. intros q. rewrite Hm', length_fmap, length_seqZ, Z2Nat.id by done.
    destruct (decide _) as [Hq|]; [|done].
    rewrite list_lookup_fmap, lookup_seqZ_lt by lia. simpl.
    rewrite (lookup_rd msrc); [do 2 f_equal; lia|]. intros i Hi. apply Hs. lia.
Qed.

Section copied_lemmas.
Context {m' m : mem} {dst : Z} {msrc : mem} {src n : Z} (Hc : copied m' m dst msrc src n).

Lemma copied_bytes_ok : bytes_ok m -> bytes_ok msrc -> bytes_ok m'.
Proof. intros Hm Hs q b. rewrite Hc. destruct (decide _); [apply Hs|apply Hm]. Qed.

Lemma copied_valid q k : valid msrc src n -> valid m q k -> valid m' q k.
Proof.
  intros Hs Hm i Hi. rewrite Hc. destruct (decide _) as [|]; [apply Hs; lia|by apply Hm].
Qed.

Lemma copied_in q : dst <= q < dst + n -> rd m' q = rd msrc (src + (q - dst)).
Proof. intros Hq. unfold rd. rewrite Hc. by destruct (decide _); [|lia]. Qed.

Lemma copied_out q : q < dst \/ dst + n <= q -> m' !! q = m !! q.
Proof. intros Hq. rewrite Hc. by destruct (decide _); [lia|]. Qed.

Lemma copied_rd_out q : q < dst \/ dst + n <= q -> rd m' q = rd m q.
Proof. intros Hq. unfold rd. by rewrite copied_out. Qed.
End copied_lemmas.

(** Sequences of bytes that are stored or copied. *)
Lemma bytes_at_ok b p bs : bytes_ok b -> bytes_at b p bs -> Forall (fun c => 0 <= c < 256) bs.
Proof. intros Hb Hbs. apply Forall_lookup. intros i c Hi. eapply Hb. by apply Hbs in Hi. Qed.

Lemma store_bytes b p bs :
  valid b p (Z.of_nat (length bs)) -> Forall (fun c => 0 <= c < 256) bs ->
  exists b', storen b p bs = Ret b' /\ bytes_at b' p bs /\
    (forall q, q < p \/ p + Z.of_nat (length bs) <= q -> b' !! q = b !! q) /\
    forall q n, valid b q n -> valid b' q n.
Proof.
  intros Hv Hc. destruct (storen_ok b p bs Hv Hc) as (b' & E & Hb'). exists b'. split; [done|]. split; [|split].
  - intros i c Hi. rewrite Hb'. apply lookup_lt_Some in Hi as Hlt. destruct (decide _); [|lia].
    by replace (Z.to_nat (p + Z.of_nat i - p)) with i by lia.
  - intros q Hq. rewrite Hb'. by destruct (decide _); [lia|].
  - intros q n Hq i Hi. rewrite Hb'. destruct (decide _) as [Hin|]; [|by apply Hq].
    apply lookup_lt_is_Some_2. lia.
Qed.
Lemma memcpy_bytes b p m src bs :
  bytes_at m src bs -> memcpy_from b p m src (Z.of_nat (length bs)) = storen b p bs.
Proof. intros Hb. unfold memcpy_from. rewrite Nat2Z.id, (loadn_bytes_at _ _ _ Hb). done. Qed.

(** ** [struct packet]

    The block that holds a packet is its own [mem]; [pkt_data] is the address
    of the frame in it.  The list node and the union that the reassembly
    algorithms use are modelled where they are used. *)
Record packet := {
  pkt_mem : mem;
  pkt_data : Z;
  pkt_sz : Z;
  pkt_direction : Z
}.

(** [sizeof(struct packet)] with 64-bit pointers. *)
Definition sizeof_packet : Z := 80.
Definition packet_size (sz : Z) : Z := sz + sizeof_packet.
Definition packet_calc_data (pkt : Z) : Z := pkt + sizeof_packet.
Definition packet_const_data (pkt : packet) : Z := pkt_data pkt.

(** The frame of a packet is in memory. *)
Definition packet_ok (p : packet) : Prop :=
  bytes_ok (pkt_mem p) /\ 0 <= pkt_sz p /\ valid (pkt_mem p) (pkt_data p) (pkt_sz p).

(** ** [struct allocif]: an allocator behind function pointers

    [A] is the state behind [userdata].  A block of [n] bytes is a memory
    whose addresses start at 0; its contents are whatever the allocator left
    there. *)
Class Allocif (A : Type) := {
  allocif_alloc : A -> Z -> A * option mem;
  allocif_free : A -> mem -> A
}.

(** What every caller relies on: a block is as large as asked for. *)
Class AllocifLaws (A : Type) `{Allocif A} : Prop :=
  alloc_block a n a' m : allocif_alloc a n = (a', Some m) -> valid m 0 n /\ bytes_ok m.

(** An allocator that hands out zeroed blocks while a byte budget lasts. *)
#[export] Instance budget_allocif : Allocif Z := {|
  allocif_alloc a n := if n <=? a then (a - n, Some (mem_fun n (fun _ => 0))) else (a, None);
  allocif_free a m := a + Z.of_nat (size m)
|}.
#[export] Instance budget_allocif_laws : AllocifLaws Z.
Proof.
  intros a n a' m. simpl. destruct (n <=? a); [|done]. intros [= <- <-].
  split; [apply mem_fun_valid|apply mem_fun_bytes_ok; lia].
Qed.
