(* ===== verification/Reass.v ===== *)
(** Reassembly of IPv4 fragments.

    This file holds what the algorithms of ipfrag/ share: how a fragment is
    read and judged, how the packets kept are put together, and the abstract
    specification of a reassembler; then the hole-list algorithm of
    ipfrag/ipreass.h and ipreass.c. *)
From S2P Require Import Prelude Bytes IpHdr IpCksum Packet.

Section shared.
Context `{Host}.

(** ** Reading a fragment

    The test at the head of every [*_add] function and the bytes of the
    datagram the fragment covers: first, last, and the more-fragments bit. *)
Definition frag_range (pkt : packet) : outcome (option (Z * Z * bool)) :=
  let m := pkt_mem pkt in
  let ip := ether_const_payload (pkt_data pkt) in
  if pkt_sz pkt <? 34 then Ret None else
  total_len ← ip_total_len m ip;
  hdr_len ← ip_hdr_len m ip;
  if total_len <=? hdr_len then Ret None else
  if total_len + 14 >? pkt_sz pkt then Ret None else
  data_first ← ip_frag_off m ip;
  if total_len - (hdr_len + 1) + data_first >? 65535 then Ret None else
  more ← ip_more_frags m ip;
  Ret (Some (data_first, u16 (total_len - (hdr_len + 1) + data_first), negb (more =? 0))).

(** ** Putting the packets together

    The text that [reassctx_reassemble], [rfc791ctx_reassemble] and
    [rb_explicit_reassctx_reassemble] share. *)

(** One pass of the copying loop into [pay2]; [wrap] is the type of
    [1U + most_restricting_last - first]. *)
Definition reassemble_copy (wrap : Z -> Z) (mrl pay2 : Z) (m2 : mem) (pktorig : packet)
    : outcome mem :=
  let m := pkt_mem pktorig in
  let iporig := ether_const_payload (pkt_data pktorig) in
  payorig ← ip_const_payload m iporig;
  first ← ip_frag_off m iporig;
  total_len ← ip_total_len m iporig;
  hdr_len ← ip_hdr_len m iporig;
  let len := u16 (total_len - hdr_len) in
  if first + len - 1 >? mrl then
    memcpy_from m2 (pay2 + first) m payorig (wrap (1 + mrl - first))
  else memcpy_from m2 (pay2 + first) m payorig len.

Fixpoint reassemble_copies (wrap : Z -> Z) (mrl pay2 : Z) (m2 : mem) (l : list packet)
    : outcome mem :=
  match l with
  | [] => Ret m2
  | p :: l => m2 ← reassemble_copy wrap mrl pay2 m2 p; reassemble_copies wrap mrl pay2 m2 l
  end.

Definition reassemble_packets {A} `{Allocif A} (wrap : Z -> Z) (loc : A) (packet_list : list packet)
    (mrl : Z) : outcome (A * option packet) :=
  match packet_list with
  | [] => Abort
  | first_packet :: _ =>
      let ether := pkt_data first_packet in
      let ip := ether_const_payload ether in
      hdr_len ← ip_hdr_len (pkt_mem first_packet) ip;
      let sz := ETHER_HDR_LEN + hdr_len + mrl + 1 in
      let '(loc, blk) := allocif_alloc loc (packet_size sz) in
      match blk with
      | None => Ret (loc, None)
      | Some m2 =>
          let ether2 := packet_calc_data 0 in
          m2 ← memcpy_from m2 ether2 (pkt_mem first_packet) ether (ETHER_HDR_LEN + hdr_len);
          let ip2 := ether_payload ether2 in
          m2 ← ip_set_frag_off m2 ip2 0;
          m2 ← ip_set_more_frags m2 ip2 0;
          m2 ← ip_set_total_len m2 ip2 (u16 (hdr_len + mrl + 1));
          m2 ← ip_set_hdr_cksum_calc m2 ip2 hdr_len;
          pay2 ← ip_payload m2 ip2;
          m2 ← reassemble_copies wrap mrl pay2 m2 packet_list;
          Ret (loc, Some {| pkt_mem := m2; pkt_data := ether2; pkt_sz := sz;
                            pkt_direction := pkt_direction first_packet |})
      end
  end.
End shared.

(** ** [struct hole] and [struct reassctx] *)
Record hole := { hole_first : Z; hole_last : Z }.

Record reassctx := {
  packet_list : list packet;
  hole_list : list hole;
  most_restricting_last : Z
}.

Definition reassctx_init : reassctx :=
  {| packet_list := []; hole_list := [{| hole_first := 0; hole_last := 65535 |}];
     most_restricting_last := 65535 |}.

Definition reassctx_complete (ctx : reassctx) : bool :=
  match hole_list ctx with [] => true | _ => false end.

(** The loop that drops and cuts holes past [most_restricting_last]. *)
Fixpoint restrict_holes (mrl : Z) (hs : list hole) : list hole :=
  match hs with
  | [] => []
  | h :: hs =>
      if hole_first h >? mrl then restrict_holes mrl hs
      else if hole_last h >? mrl then
        {| hole_first := hole_first h; hole_last := mrl |} :: restrict_holes mrl hs
      else h :: restrict_holes mrl hs
  end.

(** The loop that takes [data_first .. data_last] out of the holes. *)
Fixpoint cut_holes (data_first data_last : Z) (hs : list hole) : list hole :=
  match hs with
  | [] => []
  | h :: hs' =>
      if data_last =? hole_last h then
        if data_first <=? hole_first h then hs'
        else {| hole_first := hole_first h; hole_last := u16 (data_first - 1) |} :: hs'
      else if data_last <? hole_last h then
        if data_first <=? hole_first h then
          if data_last + 1 >? hole_first h then
            {| hole_first := u16 (data_last + 1); hole_last := hole_last h |} :: hs'
          else hs
        else
          {| hole_first := hole_first h; hole_last := u16 (data_first - 1) |} ::
          {| hole_first := u16 (data_last + 1); hole_last := hole_last h |} :: hs'
      else
        if data_first <=? hole_first h then cut_holes data_first data_last hs'
        else
          (if hole_last h >? data_first - 1 then
             {| hole_first := hole_first h; hole_last := u16 (data_first - 1) |}
           else h) :: cut_holes data_first data_last hs'
  end.

Section reassctx_ops.
Context `{Host}.

Definition reassctx_add (ctx : reassctx) (pkt : packet) : outcome reassctx :=
  let pl := packet_list ctx ++ [pkt] in
  r ← frag_range pkt;
  match r with
  | None => Ret {| packet_list := pl; hole_list := hole_list ctx;
                   most_restricting_last := most_restricting_last ctx |}
  | Some (data_first, data_last, more) =>
      let '(mrl, hs) :=
        if negb more && (most_restricting_last ctx >? data_last)
        then (data_last, restrict_holes data_last (hole_list ctx))
        else (most_restricting_last ctx, hole_list ctx) in
      Ret {| packet_list := pl; hole_list := cut_holes data_first data_last hs;
             most_restricting_last := mrl |}
  end.

Definition reassctx_reassemble {A} `{Allocif A} (loc : A) (ctx : reassctx)
    : outcome (A * option packet) :=
  reassemble_packets u32 loc (packet_list ctx) (most_restricting_last ctx).

(** Every packet of the list is unlinked and freed. *)
Definition reassctx_free {A} `{Allocif A} (loc : A) (ctx : reassctx) : A * reassctx :=
  (foldl (fun loc p => allocif_free loc (pkt_mem p)) loc (packet_list ctx),
   {| packet_list := []; hole_list := hole_list ctx;
      most_restricting_last := most_restricting_last ctx |}).
End reassctx_ops.

(** ** Reference: what a reassembler must know

    A fragment as its first and last byte in the datagram and the
    more-fragments bit; the bytes covered by a history of fragments, the last
    byte of the datagram as the fragments without the bit claim it (the
    smallest claim), and when the datagram is complete. *)
Definition frag : Type := Z * Z * bool.

Definition covers (f : frag) (i : Z) : Prop := let '(a, b, _) := f in a <= i <= b.
Definition covered (fs : list frag) (i : Z) : Prop := exists f, f ∈ fs /\ covers f i.
Definition last_step (l : Z) (f : frag) : Z :=
  let '(_, b, more) := f in if negb more && (l >? b) then b else l.
Definition last_of (fs : list frag) : Z := foldl last_step 65535 fs.
Definition frag_ok (f : frag) : Prop := let '(a, b, _) := f in 0 <= a <= b /\ b <= 65535.
Definition datagram_complete (fs : list frag) : Prop :=
  forall i, 0 <= i <= last_of fs -> covered fs i.

#[export] Instance covers_dec f i : Decision (covers f i).
Proof. destruct f as [[a b] more]. simpl. apply _. Defined.
#[export] Instance covered_dec fs i : Decision (covered fs i).
Proof.
  refine (cast_if (decide (Exists (fun f => covers f i) fs)));
    unfold covered; by rewrite <- list.Exists_exists.
Defined.

(** A packet as the accessors see it. *)
Definition p_ip (p : packet) : Z := pkt_data p + 14.
Definition p_hl (p : packet) : Z := rd (pkt_mem p) (p_ip p) mod 16 * 4.
Definition p_tl (p : packet) : Z := be16 (pkt_mem p) (p_ip p + 2).
Definition p_off (p : packet) : Z :=
  (rd (pkt_mem p) (p_ip p + 6) mod 32 * 256 + rd (pkt_mem p) (p_ip p + 7)) * 8.
Definition p_more (p : packet) : bool := negb (rd (pkt_mem p) (p_ip p + 6) / 32 mod 2 * 32 =? 0).
(** Byte [i] of the datagram, as this fragment has it. *)
Definition p_byte (p : packet) (i : Z) : Z := rd (pkt_mem p) (p_ip p + p_hl p + (i - p_off p)).

Definition frag_of (p : packet) : option frag :=
  if pkt_sz p <? 34 then None else
  if p_tl p <=? p_hl p then None else
  if p_tl p + 14 >? pkt_sz p then None else
  if p_tl p - (p_hl p + 1) + p_off p >? 65535 then None else
  Some (p_off p, p_tl p - (p_hl p + 1) + p_off p, p_more p).

(** The fragments among a list of packets. *)
Definition frags_of (ps : list packet) : list frag := omap frag_of ps.

Lemma p_off_range p : bytes_ok (pkt_mem p) -> 0 <= p_off p <= 65528 /\ p_off p mod 8 = 0.
Proof.
  intros Hm. unfold p_off. pose proof (rd_range (pkt_mem p) (p_ip p + 6) Hm).
  pose proof (rd_range (pkt_mem p) (p_ip p + 7) Hm). lia.
Qed.

Lemma frag_range_ok `{Host} p : packet_ok p -> frag_range p = Ret (frag_of p).
Proof.
  intros (Hm & Hs & Hv). unfold frag_range, frag_of, ether_const_payload. fold (p_ip p).
  destruct (Z.ltb_spec (pkt_sz p) 34); [done|]. assert (valid (pkt_mem p) (p_ip p) 20).
  { unfold p_ip. solve_valid. }
  unfold ip_total_len. rewrite hdr_get16n_ok by (done || solve_valid). cbn [mbind outcome_bind].
  rewrite ip_hdr_len_ok by (done || solve_valid). cbn [mbind outcome_bind].
  fold (p_tl p) (p_hl p). destruct (Z.leb_spec (p_tl p) (p_hl p)); [done|].
  destruct (Z.gtb_spec (p_tl p + 14) (pkt_sz p)); [done|].
  rewrite ip_frag_off_ok by (done || solve_valid). cbn [mbind outcome_bind]. fold (p_off p).
  destruct (Z.gtb_spec (p_tl p - (p_hl p + 1) + p_off p) 65535); [done|].
  rewrite ip_more_frags_ok by (done || solve_valid). cbn [mbind outcome_bind]. fold (p_more p).
  pose proof (p_off_range p Hm). by rewrite u16_small by lia.
Qed.

Lemma frag_of_ok p f : bytes_ok (pkt_mem p) -> frag_of p = Some f -> frag_ok f.
Proof.
  intros Hm. unfold frag_of. pose proof (p_off_range p Hm).
  destruct (pkt_sz p <? 34); [done|]. destruct (Z.leb_spec (p_tl p) (p_hl p)); [done|].
  destruct (p_tl p + 14 >? pkt_sz p); [done|].
  destruct (Z.gtb_spec (p_tl p - (p_hl p + 1) + p_off p) 65535); [done|].
  intros [= <-]. simpl. lia.
Qed.

Lemma frags_of_ok ps : Forall packet_ok ps -> Forall frag_ok (frags_of ps).
Proof.
  intros Hps. apply list.Forall_forall. intros f (p & Hp & Hf)%list_elem_of_omap.
  rewrite list.Forall_forall in Hps. destruct (Hps p Hp) as [Hm _]. by eapply frag_of_ok.
Qed.

Lemma last_step_range l f : frag_ok f -> 0 <= l <= 65535 -> 0 <= last_step l f <= l.
Proof.
  destruct f as [[a b] more]. simpl. intros. destruct more; simpl; [lia|].
  destruct (Z.gtb_spec l b); lia.
Qed.

Lemma last_of_app fs f : last_of (fs ++ [f]) = last_step (last_of fs) f.
Proof. unfold last_of. by rewrite foldl_app. Qed.

Lemma last_of_range fs : Forall frag_ok fs -> 0 <= last_of fs <= 65535.
Proof.
  induction fs as [|f fs IH] using rev_ind; intros Hf; [done|].
  apply Forall_app in Hf as [Hfs Hf]. inversion Hf; subst. rewrite last_of_app.
  pose proof (last_step_range (last_of fs) f). lia.
Qed.

(** Never more than any final fragment claims, and claimed by one unless it is
    still the initial 65535. *)
Lemma last_of_le fs a b : (a, b, false) ∈ fs -> last_of fs <= b.
Proof.
  induction fs as [|[[c d] more] fs IH] using rev_ind; intros Hin; [by apply elem_of_nil in Hin|].
  rewrite last_of_app. simpl. apply elem_of_app in Hin as [Hin|Hin%list_elem_of_singleton].
  - specialize (IH Hin). destruct more; simpl; [done|]. destruct (Z.gtb_spec (last_of fs) d); lia.
  - injection Hin as -> -> <-. simpl. destruct (Z.gtb_spec (last_of fs) d); lia.
Qed.

Lemma last_of_claimed fs : last_of fs = 65535 \/ exists a, (a, last_of fs, false) ∈ fs.
Proof.
  induction fs as [|[[c d] more] fs IH] using rev_ind; [by left|].
  rewrite last_of_app. simpl.
  destruct (negb more && (last_of fs >? d)) eqn:E.
  - right. exists c. apply andb_true_iff in E as [E _]. apply negb_true_iff in E as ->.
    apply elem_of_app. right. by apply list_elem_of_singleton.
  - destruct IH as [?|[a Ha]]; [by left|]. right. exists a. apply elem_of_app. by left.
Qed.

(** ** Holes *)

Fixpoint holes_sorted (lo : Z) (hs : list hole) : Prop :=
  match hs with
  | [] => True
  | h :: hs => lo <= hole_first h <= hole_last h /\ hole_last h <= 65535 /\ holes_sorted (hole_last h + 1) hs
  end.
Definition in_holes (hs : list hole) (i : Z) : Prop :=
  exists h, h ∈ hs /\ hole_first h <= i <= hole_last h.

Lemma in_holes_cons h hs i :
  in_holes (h :: hs) i <-> hole_first h <= i <= hole_last h \/ in_holes hs i.
Proof. unfold in_holes. setoid_rewrite elem_of_cons. naive_solver. Qed.

Lemma in_holes_nil i : in_holes [] i <-> False.
Proof. unfold in_holes. split; [|done]. by intros (h & Hh%elem_of_nil & _). Qed.

Lemma holes_sorted_weaken lo lo' hs : lo' <= lo -> holes_sorted lo hs -> holes_sorted lo' hs.
Proof. destruct hs; simpl; [done|]. intuition lia. Qed.

Lemma in_holes_lower lo hs i : holes_sorted lo hs -> in_holes hs i -> lo <= i <= 65535.
Proof.
  revert lo. induction hs as [|h hs IH]; intros lo Hs; [by rewrite in_holes_nil|].
  rewrite in_holes_cons. destruct Hs as (? & ? & Hs). intros [?|Hi]; [lia|].
  specialize (IH _ Hs Hi). lia.
Qed.

Lemma holes_empty lo hs : holes_sorted lo hs -> (hs = [] <-> forall i, ~ in_holes hs i).
Proof.
  intros Hs. split; [intros ->; by intros i ?%in_holes_nil|].
  destruct hs as [|h hs]; [done|]. intros Hn. destruct (Hn (hole_first h)).
  apply in_holes_cons. left. destruct Hs. lia.
Qed.

Lemma restrict_holes_spec mrl lo hs :
  holes_sorted lo hs ->
  holes_sorted lo (restrict_holes mrl hs) /\
  forall i, in_holes (restrict_holes mrl hs) i <-> in_holes hs i /\ i <= mrl.
Proof.
  revert lo. induction hs as [|h hs IH]; intros lo Hs; simpl.
  { split; [done|]. intros i. rewrite in_holes_nil. tauto. }
  destruct Hs as (Hh & Hh' & Hs). destruct (IH _ Hs) as [Hr Hi].
  assert (forall i, in_holes hs i -> hole_last h + 1 <= i) as Hlow.
  { intros i Hin. pose proof (in_holes_lower _ _ _ Hs Hin). lia. }
  destruct (Z.gtb_spec (hole_first h) mrl); [|destruct (Z.gtb_spec (hole_last h) mrl)]; split.
  - eapply holes_sorted_weaken; [|exact Hr]. lia.
  - intros i. rewrite Hi, in_holes_cons. specialize (Hlow i). intuition lia.
  - simpl. split; [lia|]. split; [lia|]. eapply holes_sorted_weaken; [|exact Hr]. lia.
  - intros i. rewrite !in_holes_cons, Hi. simpl. specialize (Hlow i). intuition lia.
  - simpl. split; [lia|]. split; [lia|done].
  - intros i. rewrite !in_holes_cons, Hi. specialize (Hlow i). intuition lia.
Qed.

(** Taking a range out of sorted holes: exactly that range goes. *)
Lemma cut_holes_spec df dl lo hs :
  0 <= df <= dl + 1 -> dl <= 65535 -> 0 <= lo -> holes_sorted lo hs ->
  holes_sorted lo (cut_holes df dl hs) /\
  forall i, in_holes (cut_holes df dl hs) i <-> in_holes hs i /\ ~ (df <= i <= dl).
Proof.
  intros Hd Hdl. revert lo. induction hs as [|h hs IH]; intros lo Hlo Hs; cbn [cut_holes].
  { split; [done|]. intros i. rewrite in_holes_nil. tauto. }
  destruct Hs as (Hh & Hh' & Hs). destruct (IH (hole_last h + 1) ltac:(lia) Hs) as [Hr Hi]. clear IH.
  assert (forall i, in_holes hs i -> hole_last h + 1 <= i) as Hlow.
  { intros i Hin. pose proof (in_holes_lower _ _ _ Hs Hin). lia. }
  repeat match goal with
    | |- context [?a =? ?b] => destruct (Z.eqb_spec a b)
    | |- context [?a <? ?b] => destruct (Z.ltb_spec a b)
    | |- context [?a <=? ?b] => destruct (Z.leb_spec a b)
    | |- context [?a >? ?b] => destruct (Z.gtb_spec a b)
    end; rewrite ?u16_small by lia;
  (split; [cbn [holes_sorted hole_first hole_last];
           repeat split; try lia; try done; try (eapply holes_sorted_weaken; [|eassumption]; lia)
          |intros i; rewrite ?in_holes_cons, ?Hi; cbn [hole_first hole_last];
           specialize (Hlow i); intuition lia]).
Qed.

(** ** The interface of a reassembler

    What the code that receives fragments uses of a reassembly context, and
    what the context promises: after any history of packets it has kept the
    packets, knows the end of the datagram as far as it is known, and reports
    completion exactly when every byte has arrived.  [dom] is the set of
    histories the promise covers. *)
Class Reassembler (C : Type) := {
  ra_init : C;
  ra_add : C -> packet -> outcome C;
  ra_complete : C -> outcome bool;
  ra_packets : C -> list packet;
  ra_last : C -> Z
}.

Fixpoint ra_add_all {C} `{Reassembler C} (c : C) (ps : list packet) : outcome C :=
  match ps with
  | [] => Ret c
  | p :: ps => c ← ra_add c p; ra_add_all c ps
  end.

Class ReassemblerLaws (C : Type) `{Reassembler C} (dom : list frag -> Prop) : Prop :=
  ra_history ps :
    Forall packet_ok ps -> dom (frags_of ps) ->
    returns (ra_add_all ra_init ps) (fun c =>
      ra_packets c = ps /\ ra_last c = last_of (frags_of ps) /\
      returns (ra_complete c) (fun b => b = true <-> datagram_complete (frags_of ps))).

(** A context invariant that [ra_add] extends by one packet holds of the
    whole history. *)
Lemma ra_add_all_inv {C} `{Reassembler C} (I : list packet -> C -> Prop) :
  (forall qs c p, I qs c -> packet_ok p -> returns (ra_add c p) (I (qs ++ [p]))) ->
  forall ps qs c, I qs c -> Forall packet_ok ps -> returns (ra_add_all c ps) (I (qs ++ ps)).
Proof.
  intros Hstep ps. induction ps as [|p ps IH]; intros qs c HI Hps; simpl.
  - rewrite app_nil_r. by apply returns_ret.
  - inversion Hps as [|? ? Hp Hps']; subst. eapply returns_bind; [by apply Hstep|].
    intros c' HI'. rewrite cons_middle, (assoc_L (++)). by apply IH.
Qed.

Lemma frags_of_snoc ps p :
  frags_of (ps ++ [p]) =
    match frag_of p with Some f => frags_of ps ++ [f] | None => frags_of ps end.
Proof.
  unfold frags_of. rewrite omap_app. change (omap frag_of [p]) with
    (match frag_of p with Some f => [f] | None => [] end).
  destruct (frag_of p); [done|apply app_nil_r].
Qed.

Lemma covered_app fs f i : covered (fs ++ [f]) i <-> covered fs i \/ covers f i.
Proof.
  unfold covered. setoid_rewrite elem_of_app. setoid_rewrite list_elem_of_singleton. naive_solver.
Qed.

(** ** The hole list tracks the missing bytes *)
Section reassctx_inv.
Context `{Host}.

Definition reassctx_inv (ps : list packet) (ctx : reassctx) : Prop :=
  packet_list ctx = ps /\
  most_restricting_last ctx = last_of (frags_of ps) /\
  0 <= last_of (frags_of ps) <= 65535 /\
  holes_sorted 0 (hole_list ctx) /\
  forall i, in_holes (hole_list ctx) i <->
    0 <= i <= last_of (frags_of ps) /\ ~ covered (frags_of ps) i.

Lemma reassctx_init_inv : reassctx_inv [] reassctx_init.
Proof.
  split; [done|]. split; [done|]. split; [done|]. split; [simpl; lia|].
  intros i. simpl. rewrite in_holes_cons, in_holes_nil. cbn [hole_first hole_last].
  change (last_of (frags_of [])) with 65535. split; [|tauto].
  intros [?|[]]. split; [done|]. by intros (f & Hf%elem_of_nil & _).
Qed.

Lemma reassctx_add_inv ps ctx p :
  reassctx_inv ps ctx -> packet_ok p -> returns (reassctx_add ctx p) (reassctx_inv (ps ++ [p])).
Proof.
  intros (Hpl & Hmrl & Hr & Hs & Hi) Hp. unfold reassctx_add.
  rewrite frag_range_ok by done. cbn [mbind outcome_bind]. rewrite Hpl.
  unfold reassctx_inv. rewrite frags_of_snoc.
  destruct (frag_of p) as [f|] eqn:Ef; [|by apply returns_ret].
  pose proof (frag_of_ok p f (proj1 Hp) Ef) as Hf. rewrite last_of_app.
  pose proof (last_step_range _ f Hf Hr) as Hr'.
  destruct f as [[df dl] more]. rewrite Hmrl. simpl in Hf, Hr'.
  cbn [last_step covers] in *.
  destruct (negb more && (last_of (frags_of ps) >? dl)) eqn:E; apply returns_ret;
    cbn [packet_list most_restricting_last hole_list];
    (split; [done|]); (split; [done|]); (split; [lia|]).
  - destruct (restrict_holes_spec dl 0 (hole_list ctx) Hs) as [Hs1 Hi1].
    destruct (cut_holes_spec df dl 0 _ ltac:(lia) ltac:(lia) ltac:(lia) Hs1) as [Hs2 Hi2].
    split; [done|]. intros i. rewrite covered_app, Hi2, Hi1, Hi. simpl. intuition lia.
  - destruct (cut_holes_spec df dl 0 _ ltac:(lia) ltac:(lia) ltac:(lia) Hs) as [Hs2 Hi2].
    split; [done|]. intros i. rewrite covered_app, Hi2, Hi. simpl. intuition lia.
Qed.

#[export] Instance reassctx_reassembler : Reassembler reassctx := {|
  ra_init := reassctx_init; ra_add := reassctx_add; ra_complete ctx := Ret (reassctx_complete ctx);
  ra_packets := packet_list; ra_last := most_restricting_last |}.

Lemma reassctx_complete_spec ps ctx :
  reassctx_inv ps ctx -> reassctx_complete ctx = true <-> datagram_complete (frags_of ps).
Proof.
  intros (_ & _ & _ & Hs & Hi). unfold reassctx_complete, datagram_complete.
  transitivity (hole_list ctx = []); [by destruct (hole_list ctx)|].
  rewrite (holes_empty _ _ Hs). setoid_rewrite Hi. split.
  - intros Hn i Hr. destruct (decide (covered (frags_of ps) i)); [done|]. by destruct (Hn i).
  - intros Hc i [Hr Hn]. by apply Hn, Hc.
Qed.

#[export] Instance reassctx_laws : ReassemblerLaws reassctx (fun _ => True).
Proof.
  intros ps Hps _. eapply returns_impl;
    [apply (ra_add_all_inv reassctx_inv) with (qs := []);
      [exact reassctx_add_inv|exact reassctx_init_inv|exact Hps]|].
  intros ctx Hinv. pose proof Hinv as (Hpl & Hmrl & _).
  split; [done|]. split; [done|]. apply returns_ret. by apply reassctx_complete_spec.
Qed.
End reassctx_inv.

(** ** Merging the packets *)

(** Byte [i] of the datagram after the copies: the last packet that has it. *)
Definition merge_step (i : Z) (acc : option Z) (p : packet) : option Z :=
  if decide (p_off p <= i < p_off p + (p_tl p - p_hl p)) then Some (p_byte p i) else acc.
Definition merged (ps : list packet) (i : Z) : option Z := foldl (merge_step i) None ps.

(** A packet the copying loop can take: its header and payload are inside the
    frame and it does not start past the end of the datagram. *)
Definition mergeable (mrl : Z) (p : packet) : Prop :=
  packet_ok p /\ 34 <= pkt_sz p /\ p_hl p <= p_tl p /\ p_tl p + 14 <= pkt_sz p /\
  (p_off p <= mrl \/ p_tl p = p_hl p /\ p_off p <= mrl + 1).

Section merging.
Context `{Host} (wrap : Z -> Z) (mrl pay2 : Z).
Context (Hwrap : forall x, 0 <= x <= 65536 -> wrap x = x) (Hmrl : 0 <= mrl <= 65535).

Lemma reassemble_copy_ok m2 p :
  mergeable mrl p -> bytes_ok m2 -> valid m2 pay2 (mrl + 1) ->
  exists m2', reassemble_copy wrap mrl pay2 m2 p = Ret m2' /\
    bytes_ok m2' /\ (forall q n, valid m2 q n -> valid m2' q n) /\
    (forall q, q < pay2 \/ pay2 + mrl < q -> m2' !! q = m2 !! q) /\
    forall i, 0 <= i <= mrl ->
      rd m2' (pay2 + i) = default (rd m2 (pay2 + i)) (merge_step i None p).
Proof.
  intros ((Hm & Hs0 & Hv) & Hsz & Hhl & Htl & Hoff) Hm2 Hv2.
  pose proof (p_off_range p Hm) as [Hor _].
  assert (0 <= p_hl p) as Hhl0 by (unfold p_hl; lia).
  assert (0 <= p_tl p < 65536) as Htlr by (unfold p_tl; auto with mem).
  assert (valid (pkt_mem p) (p_ip p) 20) as Hvip by (unfold p_ip; solve_valid).
  assert (forall n, 0 <= n <= p_tl p - p_hl p -> p_off p + n <= mrl + 1 ->
    (forall i, 0 <= i <= mrl -> p_off p <= i < p_off p + (p_tl p - p_hl p) -> i < p_off p + n) ->
    exists m2', memcpy_from m2 (pay2 + p_off p) (pkt_mem p) (p_ip p + p_hl p) n = Ret m2' /\
    bytes_ok m2' /\ (forall q n, valid m2 q n -> valid m2' q n) /\
    (forall q, q < pay2 \/ pay2 + mrl < q -> m2' !! q = m2 !! q) /\
    forall i, 0 <= i <= mrl ->
      rd m2' (pay2 + i) = default (rd m2 (pay2 + i)) (merge_step i None p)) as Hcopy.
  { intros n Hn Hfit Hall.
    assert (valid (pkt_mem p) (p_ip p + p_hl p) n) as Hvs by (unfold p_ip; solve_valid).
    destruct (memcpy_from_ok m2 (pay2 + p_off p) (pkt_mem p) (p_ip p + p_hl p) n)
      as (m2' & -> & Hc); [done|lia|solve_valid|done|].
    exists m2'. split; [done|]. split; [by eapply copied_bytes_ok|].
    split; [intros; by eapply copied_valid|].
    split; [intros q Hq; apply (copied_out Hc); lia|].
    intros i Hi. unfold merge_step. destruct (decide _) as [Hin|Hout]; simpl.
    - specialize (Hall i Hi Hin). rewrite (copied_in Hc) by lia. unfold p_byte. f_equal. lia.
    - apply (copied_rd_out Hc). lia. }
  unfold reassemble_copy, ether_const_payload, ip_const_payload, ip_total_len. fold (p_ip p).
  rewrite !ip_hdr_len_ok by (done || solve_valid). cbn [mbind outcome_bind fmap outcome_fmap].
  rewrite ip_frag_off_ok by (done || solve_valid). cbn [mbind outcome_bind].
  rewrite hdr_get16n_ok by (done || solve_valid). cbn [mbind outcome_bind].
  fold (p_tl p) (p_hl p) (p_off p). rewrite u16_small by lia.
  destruct (Z.gtb_spec (p_off p + (p_tl p - p_hl p) - 1) mrl).
  - rewrite Hwrap by lia. apply Hcopy; lia.
  - apply Hcopy; lia.
Qed.

Lemma merge_default ps i (acc : option Z) x :
  default x (foldl (merge_step i) acc ps) =
    default (default x acc) (foldl (merge_step i) None ps).
Proof.
  revert acc x. induction ps as [|p ps IH]; intros acc x; simpl; [done|].
  rewrite IH, (IH (merge_step i None p)). unfold merge_step. by destruct (decide _).
Qed.

Lemma reassemble_copies_ok ps m2 :
  Forall (mergeable mrl) ps -> bytes_ok m2 -> valid m2 pay2 (mrl + 1) ->
  exists m2', reassemble_copies wrap mrl pay2 m2 ps = Ret m2' /\
    bytes_ok m2' /\ (forall q n, valid m2 q n -> valid m2' q n) /\
    (forall q, q < pay2 \/ pay2 + mrl < q -> m2' !! q = m2 !! q) /\
    forall i, 0 <= i <= mrl -> rd m2' (pay2 + i) = default (rd m2 (pay2 + i)) (merged ps i).
Proof.
  revert m2. induction ps as [|p ps IH]; intros m2 Hps Hm2 Hv2; simpl.
  { exists m2. auto. }
  inversion Hps as [|? ? Hp Hps']; subst.
  destruct (reassemble_copy_ok m2 p Hp Hm2 Hv2) as (m3 & -> & Hm3 & Hv3 & Ho3 & Hr3).
  cbn [mbind outcome_bind].
  destruct (IH m3 Hps' Hm3 (Hv3 _ _ Hv2)) as (m4 & -> & Hm4 & Hv4 & Ho4 & Hr4).
  exists m4. split; [done|]. split; [done|]. split; [auto|].
  split; [intros q Hq; by rewrite Ho4, Ho3|].
  intros i Hi. rewrite Hr4, Hr3 by done. unfold merged. simpl.
  by rewrite (merge_default ps i (merge_step i None p)).
Qed.
End merging.

(** ** Editing the header of a frame

    Fragmentation and reassembly both copy a header, set the fragment offset,
    the more-fragments bit and the total length, and recompute the
    checksum. *)
Definition header_edits (m : mem) (ip off more total : Z) : mem :=
  let m := wr8 (wr8 m (ip + 6) (rd m (ip + 6) / 32 * 32 + off / 2048)) (ip + 7) (off / 8) in
  let m := wr8 m (ip + 6) (set_bit6 (rd m (ip + 6)) 5 more) in
  with_cksum (wr16 m (ip + 2) total) ip.

Lemma header_edits_out m ip off more total q :
  q <> ip + 2 -> q <> ip + 3 -> q <> ip + 6 -> q <> ip + 7 -> q <> ip + 10 -> q <> ip + 11 ->
  header_edits m ip off more total !! q = m !! q.
Proof.
  intros. unfold header_edits.
  by rewrite with_cksum_out, lookup_wr16_out, !lookup_wr8_out by lia.
Qed.

Lemma header_edits_in m ip off more total :
  bytes_ok m -> 0 <= off < 65536 ->
  be16 (header_edits m ip off more total) (ip + 2) = u16 total /\
  rd (header_edits m ip off more total) (ip + 6) =
    rd m (ip + 6) / 64 * 64 + b2z (negb (more =? 0)) * 32 + off / 2048 /\
  rd (header_edits m ip off more total) (ip + 7) = off / 8 mod 256.
Proof.
  intros Hm Hoff. unfold header_edits. set (m3 := wr8 (wr8 (wr8 _ _ _) _ _) _ _).
  assert (forall q, q < ip + 10 -> rd (with_cksum (wr16 m3 (ip + 2) total) ip) q =
    rd (wr16 m3 (ip + 2) total) q) as Hc.
  { intros q Hq. apply rd_lookup, with_cksum_out. lia. }
  split; [|split].
  - rewrite <- (be16_wr16 m3 (ip + 2) total : _ = u16 total). apply be16_frame. intros. apply Hc. lia.
  - rewrite Hc, rd_wr16_out by lia. unfold m3. rewrite rd_wr8_eq, rd_wr8_ne, rd_wr8_eq by lia.
    unfold set_bit6. pose proof (rd_range m (ip + 6) Hm). change (2 ^ 5) with 32.
    destruct (negb (more =? 0)); simpl; lia.
  - rewrite Hc, rd_wr16_out by lia. unfold m3. by rewrite rd_wr8_ne, rd_wr8_eq by lia.
Qed.

Lemma header_edits_ok `{Host} m ip hl off more total :
  bytes_ok m -> valid m ip hl -> rd m ip mod 16 * 4 = hl -> 20 <= hl -> 0 <= total < 65536 ->
  0 <= off < 65536 -> off mod 8 = 0 ->
  let m' := header_edits m ip off more total in
  (m ← ip_set_frag_off m ip off;
   m ← ip_set_more_frags m ip more;
   m ← ip_set_total_len m ip total;
   ip_set_hdr_cksum_calc m ip hl) = Ret m' /\
  bytes_ok m' /\
  (forall q n, valid m q n -> valid m' q n) /\
  ip_hdr_cksum_calc m' ip hl = Ret 0 /\
  be16 m' (ip + 10) <> 65535.
Proof.
  intros Hm Hv Hhl H20 Ht Hoff H8 m'. subst m'. unfold header_edits.
  rewrite ip_set_frag_off_ok by (done || lia || solve_valid). cbn [mbind outcome_bind].
  set (m1 := wr8 (wr8 m _ _) _ _).
  assert (bytes_ok m1 /\ valid m1 ip hl) as [Hm1 Hv1] by (unfold m1; auto with mem).
  rewrite ip_set_more_frags_ok by (done || solve_valid). cbn [mbind outcome_bind].
  set (m2 := wr8 m1 _ _).
  assert (bytes_ok m2 /\ valid m2 ip hl) as [Hm2 Hv2] by (unfold m2; auto with mem).
  unfold ip_set_total_len. rewrite hdr_set16n_ok by solve_valid. cbn [mbind outcome_bind].
  assert (rd (wr16 m2 (ip + 2) total) ip = rd m ip) as E.
  { unfold m2, m1. by rewrite rd_wr16_out, !rd_wr8_ne by lia. }
  destruct (ip_set_hdr_cksum_calc_ok (wr16 m2 (ip + 2) total) ip hl) as [-> Hck0];
    [auto with mem|rewrite E, Hhl; auto with mem|rewrite E; lia|].
  split; [done|]. split; [unfold with_cksum; auto with mem|].
  split; [intros q n Hq; unfold with_cksum, m2, m1; auto 10 with mem|]. split; [done|].
  apply with_cksum_not_ones; [auto with mem|]. rewrite E. lia.
Qed.

(** [m2], whose frame starts at 80 (after [struct packet]), has a copy of the
    [14 + hl] header bytes at [src] with the edits made. *)
Record header_copied `{Host} (blk msrc : mem) (src hl off more total : Z) (m2 : mem) : Prop := {
  hc_bytes : bytes_ok m2;
  hc_valid q n : valid blk q n -> valid m2 q n;
  hc_hdr_len : rd m2 94 mod 16 * 4 = hl;
  hc_same q : 0 <= q < 14 + hl ->
    q <> 16 -> q <> 17 -> q <> 20 -> q <> 21 -> q <> 24 -> q <> 25 ->
    rd m2 (80 + q) = rd msrc (src + q);
  hc_total : be16 m2 96 = u16 total;
  hc_flags : rd m2 100 = rd msrc (src + 20) / 64 * 64 + b2z (negb (more =? 0)) * 32 + off / 2048;
  hc_off : rd m2 101 = off / 8 mod 256;
  hc_cksum : ip_hdr_cksum_calc m2 94 hl = Ret 0;
  hc_cksum_val : be16 m2 104 <> 65535
}.

Lemma copy_header_ok `{Host} blk msrc src hl off more total :
  bytes_ok blk -> bytes_ok msrc -> valid blk 80 (14 + hl) -> valid msrc src (14 + hl) ->
  rd msrc (src + 14) mod 16 * 4 = hl -> 20 <= hl -> 0 <= total < 65536 ->
  0 <= off < 65536 -> off mod 8 = 0 ->
  exists m1 x1 x2 x3 m2,
    memcpy_from blk 80 msrc src (14 + hl) = Ret m1 /\ ip_set_frag_off m1 94 off = Ret x1 /\
    ip_set_more_frags x1 94 more = Ret x2 /\ ip_set_total_len x2 94 total = Ret x3 /\
    ip_set_hdr_cksum_calc x3 94 hl = Ret m2 /\
    header_copied blk msrc src hl off more total m2.
Proof.
  intros Hmb Hms Hvb Hvs Hhl H20 Ht Hoff H8.
  destruct (memcpy_from_ok blk 80 msrc src (14 + hl)) as (m1 & E0 & Hc); [done|lia|done..|].
  assert (bytes_ok m1) as Hm1 by (by eapply copied_bytes_ok).
  assert (forall q n, valid blk q n -> valid m1 q n) as Hv1 by (intros; by eapply copied_valid).
  assert (forall q, 0 <= q < 14 + hl -> rd m1 (80 + q) = rd msrc (src + q)) as Hq1.
  { intros q Hq. rewrite (copied_in Hc) by lia. f_equal. lia. }
  assert (rd m1 94 mod 16 * 4 = hl) as Hhl1.
  { change 94 with (80 + 14). by rewrite Hq1 by lia. }
  pose proof (Hv1 _ _ Hvb) as Hv1'.
  destruct (header_edits_ok m1 94 hl off more total)
    as (E & Hm2 & Hv2 & Hck & Hck1); [done|solve_valid|done..|].
  destruct (header_edits_in m1 94 off more total Hm1 Hoff) as (Htot & Hfl & Hfo).
  pose proof (header_edits_out m1 94 off more total) as Hout.
  set (m2 := header_edits m1 94 off more total) in *. clearbody m2.
  apply bind_Ret_inv in E as (x1 & E1 & E). apply bind_Ret_inv in E as (x2 & E2 & E).
  apply bind_Ret_inv in E as (x3 & E3 & E4).
  exists m1, x1, x2, x3, m2. do 5 (split; [done|]). split; try done.
  - auto.
  - rewrite <- Hhl1. do 2 f_equal. apply rd_lookup, Hout; lia.
  - intros q Hq ??????. rewrite <- Hq1 by lia. apply rd_lookup, Hout; lia.
  - rewrite <- Hq1 by lia. exact Hfl.
Qed.

(** ** The reassembled frame *)
Section reassembled.
Context `{Host} {A : Type} `{AllocifLaws A}.

(** Frame [r] is the datagram of the fragments [p0 :: _], the end of the
    datagram being [mrl]. *)
Record reassembled (p0 : packet) (mrl : Z) (r : packet) : Prop := {
  re_ok : packet_ok r;
  re_sz : pkt_sz r = 14 + p_hl p0 + mrl + 1;
  re_direction : pkt_direction r = pkt_direction p0;
  re_header q : 0 <= q < 14 + p_hl p0 ->
    q <> 16 -> q <> 17 -> q <> 20 -> q <> 21 -> q <> 24 -> q <> 25 ->
    rd (pkt_mem r) (pkt_data r + q) = rd (pkt_mem p0) (pkt_data p0 + q);
  re_total_len : p_tl r = u16 (p_hl p0 + mrl + 1);
  re_flags : rd (pkt_mem r) (p_ip r + 6) = rd (pkt_mem p0) (p_ip p0 + 6) / 64 * 64;
  re_frag_off : rd (pkt_mem r) (p_ip r + 7) = 0;
  re_cksum : ip_hdr_cksum_calc (pkt_mem r) (p_ip r) (p_hl p0) = Ret 0;
  re_cksum_val : be16 (pkt_mem r) (p_ip r + 10) <> 65535
}.

Lemma reassemble_packets_ok (wrap : Z -> Z) loc loc' blk p0 ps mrl :
  (forall x, 0 <= x <= 65536 -> wrap x = x) -> 0 <= mrl <= 65535 ->
  Forall (mergeable mrl) (p0 :: ps) -> 20 <= p_hl p0 ->
  allocif_alloc loc (packet_size (14 + p_hl p0 + mrl + 1)) = (loc', Some blk) ->
  returns (reassemble_packets wrap loc (p0 :: ps) mrl) (fun '(l, o) =>
    l = loc' /\ exists r, o = Some r /\ reassembled p0 mrl r /\
    forall i b, 0 <= i <= mrl -> merged (p0 :: ps) i = Some b ->
      rd (pkt_mem r) (p_ip r + p_hl p0 + i) = b).
Proof.
  intros Hwrap Hmrl Hps H20 Ha. inversion Hps as [|? ? Hp0 _]; subst.
  pose proof Hp0 as (Hok & Hsz & Hhl & Htl & _). pose proof Hok as (Hm0 & _ & Hv0).
  destruct (alloc_block _ _ _ _ Ha) as [Hvb Hmb]. unfold packet_size, sizeof_packet in *.
  unfold reassemble_packets, ether_const_payload. fold (p_ip p0).
  rewrite ip_hdr_len_ok by (done || (unfold p_ip; solve_valid)). cbn [mbind outcome_bind].
  fold (p_hl p0). unfold ETHER_HDR_LEN, packet_size, sizeof_packet. rewrite Ha.
  unfold packet_calc_data, sizeof_packet, ether_payload. change (0 + 80) with 80. change (80 + 14) with 94.
  set (total := u16 (p_hl p0 + mrl + 1)).
  destruct (copy_header_ok blk (pkt_mem p0) (pkt_data p0) (p_hl p0) 0 0 total)
    as (m1 & x1 & x2 & x3 & m2 & -> & E1 & E2 & E3 & E4 & [Hm2 Hv2 Hhl2 Hsame Htot Hfl Hfo Hck Hck1]);
    [done|done|solve_valid|solve_valid|done|done|apply u16_range|lia|done|].
  cbn [mbind outcome_bind]. rewrite E1. cbn [mbind outcome_bind]. rewrite E2.
  cbn [mbind outcome_bind]. rewrite E3. cbn [mbind outcome_bind]. rewrite E4.
  cbn [mbind outcome_bind]. specialize (Hv2 _ _ Hvb). unfold ip_payload.
  rewrite ip_hdr_len_ok by (done || solve_valid). cbn [mbind outcome_bind fmap outcome_fmap].
  rewrite Hhl2.
  destruct (reassemble_copies_ok wrap mrl (94 + p_hl p0)) with (ps := p0 :: ps) (m2 := m2)
    as (m3 & -> & Hm3 & Hv3 & Ho3 & Hr3); try done; [solve_valid|].
  cbn [mbind outcome_bind]. apply returns_ret. split; [done|]. eexists. split; [done|].
  assert (forall q, q < 94 + p_hl p0 -> rd m3 q = rd m2 q) as Hfr
    by (intros; apply rd_lookup, Ho3; lia).
  split.
  - split; unfold p_tl, p_ip; cbn [pkt_mem pkt_data pkt_sz pkt_direction];
      try change (80 + 14) with 94; try done.
    + split; [done|]. split; [simpl; lia|]. apply Hv3. simpl. solve_valid.
    + intros q Hq ??????. rewrite Hfr by lia. by apply Hsame.
    + rewrite (be16_frame m2) by (intros; apply Hfr; lia).
      change (94 + 2) with 96. rewrite Htot. apply u16_small, u16_range.
    + rewrite Hfr by lia. change (94 + 6) with 100. rewrite Hfl.
      replace (pkt_data p0 + 14 + 6) with (pkt_data p0 + 20) by lia.
      change (0 / 2048) with 0. cbn [negb Z.eqb b2z]. lia.
    + rewrite Hfr by lia. change (94 + 7) with 101. by rewrite Hfo.
    + eapply (ip_hdr_verifies_update m2); [done|done|apply Hfr; lia|..|exact Hck];
        rewrite Hhl2; [solve_valid|apply Hv3; solve_valid|lia|].
      rewrite (bsum_frame m2 m3) by (intros; apply Hfr; lia). by rewrite Z.sub_diag.
    + by rewrite (be16_frame m2) by (intros; apply Hfr; lia).
  - intros i b Hi Hb. unfold p_ip. cbn [pkt_mem pkt_data]. change (80 + 14) with 94. rewrite Hr3 by done.
    by rewrite Hb.
Qed.
End reassembled.

(** ** Clients of the interface *)

Lemma frag_of_covers p f i :
  frag_of p = Some f -> covers f i -> p_off p <= i < p_off p + (p_tl p - p_hl p).
Proof.
  unfold frag_of. repeat (destruct (_ : bool); [done|]). intros [= <-]. simpl. lia.
Qed.

Lemma merge_step_mono i acc p : is_Some acc -> is_Some (merge_step i acc p).
Proof. intros. unfold merge_step. by destruct (decide _). Qed.

Lemma merged_snoc ps p i : merged (ps ++ [p]) i = merge_step i (merged ps i) p.
Proof. unfold merged. by rewrite foldl_app. Qed.

Lemma covered_merged ps i : covered (frags_of ps) i -> is_Some (merged ps i).
Proof.
  induction ps as [|p ps IH] using rev_ind; [by intros (f & Hf%elem_of_nil & _)|].
  rewrite frags_of_snoc, merged_snoc. destruct (frag_of p) as [f|] eqn:Ef.
  - rewrite covered_app. intros [Hc|Hc]; [by apply merge_step_mono, IH|].
    pose proof (frag_of_covers p f i Ef Hc). unfold merge_step. by destruct (decide _).
  - intros Hc. by apply merge_step_mono, IH.
Qed.

(** Packets that all carry parts of one datagram [D] merge to it. *)
Definition carries (D : Z -> Z) (p : packet) : Prop :=
  forall i, p_off p <= i < p_off p + (p_tl p - p_hl p) -> p_byte p i = D i.

Lemma merged_carries D ps i b : Forall (carries D) ps -> merged ps i = Some b -> b = D i.
Proof.
  induction ps as [|p ps IH] using rev_ind; [done|].
  intros [Hps Hp]%Forall_app. rewrite merged_snoc. unfold merge_step.
  destruct (decide _) as [Hi|]; [|by apply IH]. intros [= <-].
  apply (Forall_inv Hp). done.
Qed.

(** Any reassembler that keeps its promise delivers the datagram: fed with
    fragments of [D] that complete it, what is put together from its packets
    has the header of the first packet and the bytes of [D]. *)
Lemma reassembler_delivers `{Host} {A} `{AllocifLaws A} {C} `{Reassembler C} dom
    `{!ReassemblerLaws C dom} (wrap : Z -> Z) loc loc' blk D p0 ps :
  (forall x, 0 <= x <= 65536 -> wrap x = x) ->
  let all := p0 :: ps in
  let last := last_of (frags_of all) in
  dom (frags_of all) -> Forall (mergeable last) all -> Forall (carries D) all -> 20 <= p_hl p0 ->
  datagram_complete (frags_of all) ->
  allocif_alloc loc (packet_size (14 + p_hl p0 + last + 1)) = (loc', Some blk) ->
  returns (ra_add_all ra_init all) (fun c =>
    ra_complete c = Ret true /\
    returns (reassemble_packets wrap loc (ra_packets c) (ra_last c)) (fun '(l, o) =>
      l = loc' /\ exists r, o = Some r /\ reassembled p0 last r /\
      forall i, 0 <= i <= last -> rd (pkt_mem r) (p_ip r + p_hl p0 + i) = D i)).
Proof.
  intros Hwrap all last Hdom Hmg Hca H20 Hcomp Ha.
  assert (Forall packet_ok all) as Hok by (eapply Forall_impl; [|exact Hmg]; by intros p [? _]).
  eapply returns_impl; [by apply ra_history|]. intros c (-> & -> & cb & Hcb & Hc).
  apply Hc in Hcomp as Hbt. rewrite Hcb, Hbt. split; [done|]. fold last.
  pose proof (last_of_range _ (frags_of_ok all Hok)).
  eapply returns_impl; [eapply reassemble_packets_ok; try done; lia|].
  intros [l o] (-> & r & -> & Hre & Hby). split; [done|]. exists r. split; [done|]. split; [done|].
  intros i Hi. destruct (covered_merged all i) as [b Hb]; [by apply Hcomp|].
  rewrite (Hby i b Hi Hb). by eapply merged_carries.
Qed.

(** ** Properties *)

(** C2: the hole list of [reassctx] is exact.  After adding any packets,
    well-formed or not, overlapping or not, in any order, it holds the
    packets, the smallest end any final fragment claims, and holes that are
    sorted, disjoint and cover exactly the bytes up to that end that no
    fragment has brought; [reassctx_complete] is true exactly when there is
    none. *)
Theorem reassctx_tracks_missing_bytes `{Host} ps :
  Forall packet_ok ps ->
  returns (ra_add_all reassctx_init ps) (fun ctx =>
    packet_list ctx = ps /\
    most_restricting_last ctx = last_of (frags_of ps) /\
    holes_sorted 0 (hole_list ctx) /\
    (forall i, in_holes (hole_list ctx) i <->
       0 <= i <= last_of (frags_of ps) /\ ~ covered (frags_of ps) i) /\
    (reassctx_complete ctx = true <-> datagram_complete (frags_of ps))).
Proof.
  intros Hps. eapply returns_impl;
    [apply (ra_add_all_inv reassctx_inv) with (qs := []);
      [exact reassctx_add_inv|exact reassctx_init_inv|exact Hps]|].
  intros ctx Hinv. pose proof (reassctx_complete_spec ps ctx Hinv).
  by destruct Hinv as (? & ? & _ & ? & ?).
Qed.

(** A frame with a 20-byte header and [n] payload bytes at offset [off]. *)
Definition sample_frag (off n : Z) (more : bool) (D : Z -> Z) : packet :=
  let hdr := [0; 0; 0; 0; 0; 1; 0; 0; 0; 0; 0; 2; 8; 0;
              0x45; 0; (20 + n) / 256; (20 + n) mod 256; 0x12; 0x34;
              (if more then 32 else 0) + off / 2048; off / 8 mod 256; 64; 17; 0; 0;
              10; 0; 0; 1; 10; 0; 0; 2] in
  {| pkt_mem := mem_of 0 (hdr ++ ((fun i => D (off + i)) <$> seqZ 0 n)); pkt_data := 0;
     pkt_sz := 34 + n; pkt_direction := 0 |}.
Definition sample_data (i : Z) : Z := (7 * i + 3) mod 256.
Definition sample_frags : list packet :=
  [sample_frag 16 5 false sample_data; sample_frag 0 8 true sample_data;
   sample_frag 0 16 true sample_data].

Lemma packet_ok_check p :
  bytes_okb (pkt_mem p) && (0 <=? pkt_sz p) && validb (pkt_mem p) (pkt_data p) (pkt_sz p) = true ->
  packet_ok p.
Proof.
  rewrite !andb_true_iff, Z.leb_le. intros ((Hm & Hs) & Hv).
  split; [by apply bytes_okb_ok|]. split; [done|]. by apply validb_valid.
Qed.

Lemma reassctx_tracks_missing_bytes_witness :
  returns (ra_add_all (H := reassctx_reassembler (H := little_endian_host))
             reassctx_init sample_frags) (fun ctx =>
    packet_list ctx = sample_frags /\
    most_restricting_last ctx = last_of (frags_of sample_frags) /\
    holes_sorted 0 (hole_list ctx) /\
    (forall i, in_holes (hole_list ctx) i <->
       0 <= i <= last_of (frags_of sample_frags) /\ ~ covered (frags_of sample_frags) i) /\
    (reassctx_complete ctx = true <-> datagram_complete (frags_of sample_frags))).
Proof.
  apply (@reassctx_tracks_missing_bytes little_endian_host).
  do 3 (apply Forall_cons; [apply packet_ok_check; vm_compute; reflexivity|]). apply Forall_nil.
Defined.
