(* ===== verification/Frag.v ===== *)
(** Fragmentation: [fragment4] of ipfrag/ipfrag.c, and that reassembling its
    fragments gives back the frame. *)
From S2P Require Import Prelude Bytes IpHdr IpCksum Packet Reass.

(** [struct fragment]: the range the caller asks for and the packet made. *)
Record fragment := { datastart : Z; datalen : Z; frag_pkt : option packet }.

Section fragment4.
Context `{Host} {A : Type} `{Allocif A}.

(** The checks on one request. *)
Definition fragment_check (datamax : Z) (f : fragment) : bool :=
  (datastart f mod 8 =? 0) && (datastart f <=? datamax) &&
  (datastart f + datalen f <=? datamax) &&
  match frag_pkt f with None => true | Some _ => false end.

(** The allocation loop: [frags[i].pkt->data] is written before [pkt] is
    compared with [NULL], so a failed allocation is a null dereference. *)
Fixpoint fragment_alloc (loc : A) (iphdrlen : Z) (frags : list fragment)
    : outcome (A * list (fragment * mem)) :=
  match frags with
  | [] => Ret (loc, [])
  | f :: frags =>
      match allocif_alloc loc (packet_size (ETHER_HDR_LEN + iphdrlen + datalen f)) with
      | (_, None) => Undef
      | (loc, Some blk) =>
          r ← fragment_alloc loc iphdrlen frags;
          let '(loc, l) := r in Ret (loc, (f, blk) :: l)
      end
  end.

(** One pass of the loop that fills the packets.  The direction field keeps
    what the block held. *)
Definition fragment_fill (m : mem) (ether cpay iphdrlen datamax : Z) (f : fragment) (blk : mem)
    : outcome fragment :=
  let ether2 := packet_calc_data 0 in
  m2 ← memcpy_from blk ether2 m ether (ETHER_HDR_LEN + iphdrlen);
  let ip2 := ether_payload ether2 in
  m2 ← ip_set_frag_off m2 ip2 (datastart f);
  m2 ← ip_set_more_frags m2 ip2 (b2z (datastart f + datalen f <? datamax));
  m2 ← ip_set_total_len m2 ip2 (u16 (iphdrlen + datalen f));
  m2 ← ip_set_hdr_cksum_calc m2 ip2 iphdrlen;
  pay2 ← ip_payload m2 ip2;
  m2 ← memcpy_from m2 pay2 m (cpay + datastart f) (datalen f);
  Ret {| datastart := datastart f; datalen := datalen f;
         frag_pkt := Some {| pkt_mem := m2; pkt_data := ether2;
           pkt_sz := ETHER_HDR_LEN + iphdrlen + datalen f;
           pkt_direction := host_decode [rd blk 56; rd blk 57; rd blk 58; rd blk 59] |} |}.

Fixpoint fragment_fill_all (m : mem) (ether cpay iphdrlen datamax : Z)
    (l : list (fragment * mem)) : outcome (list fragment) :=
  match l with
  | [] => Ret []
  | (f, blk) :: l =>
      f ← fragment_fill m ether cpay iphdrlen datamax f blk;
      fs ← fragment_fill_all m ether cpay iphdrlen datamax l;
      Ret (f :: fs)
  end.

(** [fragment4(loc, pkt, sz, frags, fragnum)]: the frame is at [pkt] in [m]. *)
Definition fragment4 (loc : A) (m : mem) (pkt sz : Z) (frags : list fragment)
    : outcome (A * list fragment * Z) :=
  let ether := pkt in
  let ip := ether_const_payload ether in
  ty ← ether_type m ether;
  if negb (ty =? ETHER_TYPE_IP) then Abort else
  version ← ip_version m ip;
  if negb (version =? 4) then Abort else
  iphdrlen ← ip_hdr_len m ip;
  if iphdrlen <? IP_HDR_MINLEN then Abort else
  if ETHER_HDR_LEN + iphdrlen >? sz then Abort else
  df ← ip_dont_frag m ip;
  if negb (df =? 0) then Abort else
  mf ← ip_more_frags m ip;
  if negb (mf =? 0) then Abort else
  off ← ip_frag_off m ip;
  if negb (off =? 0) then Abort else
  cksum ← ip_hdr_cksum_calc m ip iphdrlen;
  if negb (cksum =? 0) then Abort else
  cpay ← ip_const_payload m ip;
  let datamax := u16 (sz - ETHER_HDR_LEN - iphdrlen) in
  if negb (forallb (fragment_check datamax) frags) then Abort else
  r ← fragment_alloc loc iphdrlen frags;
  let '(loc, l) := r in
  frags ← fragment_fill_all m ether cpay iphdrlen datamax l;
  Ret (loc, frags, 0).
End fragment4.

(** ** A frame that can be fragmented *)
Section frame.
Context `{Host} (m : mem) (pkt sz : Z).
Let ip := pkt + 14.

Definition hdrlen : Z := rd m (pkt + 14) mod 16 * 4.
Definition datamax : Z := sz - 14 - hdrlen.
(** Byte [i] of the datagram. *)
Definition payload (i : Z) : Z := rd m (pkt + 14 + hdrlen + i).

Record unfragmented : Prop := {
  uf_bytes : bytes_ok m;
  uf_valid : valid m pkt sz;
  uf_sz : 34 <= sz <= 65535;
  uf_type : be16 m (pkt + 12) = 2048;
  uf_version : rd m (pkt + 14) / 16 = 4;
  uf_hdrlen : 20 <= hdrlen /\ 14 + hdrlen <= sz;
  uf_total : be16 m (pkt + 14 + 2) = sz - 14;
  uf_flags : rd m (pkt + 14 + 6) mod 128 = 0 /\ rd m (pkt + 14 + 7) = 0;
  uf_cksum : ip_hdr_cksum_calc m (pkt + 14) hdrlen = Ret 0
}.

(** A request [fragment4] accepts. *)
Definition request_ok (f : fragment) : Prop :=
  0 <= datastart f /\ 0 <= datalen f /\ datastart f mod 8 = 0 /\
  datastart f + datalen f <= datamax /\ frag_pkt f = None.

(** A packet that is the fragment of this frame that [f] asks for. *)
Record is_fragment (f : fragment) (p : packet) : Prop := {
  if_ok : packet_ok p;
  if_sz : pkt_sz p = 14 + hdrlen + datalen f;
  if_hl : p_hl p = hdrlen;
  if_tl : p_tl p = hdrlen + datalen f;
  if_off : p_off p = datastart f;
  if_more : p_more p = (datastart f + datalen f <? datamax);
  if_header q : 0 <= q < 14 + hdrlen ->
    q <> 16 -> q <> 17 -> q <> 20 -> q <> 21 -> q <> 24 -> q <> 25 ->
    rd (pkt_mem p) (pkt_data p + q) = rd m (pkt + q);
  if_flags : rd (pkt_mem p) (p_ip p + 6) / 64 * 64 = rd m (pkt + 14 + 6);
  if_bytes : carries payload p;
  if_cksum : ip_hdr_cksum_calc (pkt_mem p) (p_ip p) hdrlen = Ret 0
}.
End frame.

Section fragment_lemmas.
Context `{Host} {A : Type} `{AllocifLaws A} (m : mem) (pkt sz : Z).
Context (Huf : unfragmented m pkt sz).

Lemma fragment_check_ok f :
  request_ok m pkt sz f -> fragment_check (u16 (sz - ETHER_HDR_LEN - hdrlen m pkt)) f = true.
Proof.
  intros (H0' & Hl & H8 & Hle & Hp). destruct Huf. unfold datamax, ETHER_HDR_LEN in *.
  rewrite u16_small by lia. unfold fragment_check. rewrite Hp, H8.
  rewrite !andb_true_iff, !Z.leb_le. split; [split; [split|]|]; (done || lia).
Qed.

(** What the accessors see of a filled packet. *)
Lemma fragment_view f blk m2 m3 dir :
  let hl := hdrlen m pkt in
  request_ok m pkt sz f ->
  header_copied blk m pkt hl (datastart f)
    (b2z (datastart f + datalen f <? sz - 14 - hl)) (hl + datalen f) m2 ->
  copied m3 m2 (94 + hl) m (pkt + 14 + hl + datastart f) (datalen f) ->
  bytes_ok m3 -> valid m3 0 (14 + hl + datalen f + 80) ->
  is_fragment m pkt sz f
    {| pkt_mem := m3; pkt_data := 80; pkt_sz := 14 + hl + datalen f; pkt_direction := dir |}.
Proof.
  intros hl (Hs & Hl & H8 & Hle & Hp) [Hm2 Hv2 Hhl2 Hsame Htot Hfl2 Hfo2 Hck Hck1] Hc Hm3 Hv3.
  destruct Huf as [Hm Hv Hsz _ _ [H20 Hhl] _ [Hfl Hfo] _]. unfold datamax in *. fold hl in H20, Hhl, Hle.
  assert (forall q, q < 94 + hl -> rd m3 q = rd m2 q) as Hfr
    by (intros; apply (copied_rd_out Hc); lia).
  replace (pkt + 14 + 6) with (pkt + 20) in Hfl by lia.
  pose proof (rd_range m (pkt + 20) Hm) as H20r.
  assert (rd m3 100 = rd m (pkt + 20) + b2z (datastart f + datalen f <? sz - 14 - hl) * 32
    + datastart f / 2048) as H100.
  { rewrite Hfr, Hfl2 by lia. destruct (_ <? _); simpl; lia. }
  assert (p_hl {| pkt_mem := m3; pkt_data := 80; pkt_sz := 14 + hl + datalen f;
                  pkt_direction := dir |} = hl) as Hphl.
  { unfold p_hl, p_ip. cbn [pkt_mem pkt_data]. change (80 + 14) with 94. by rewrite Hfr by lia. }
  assert (p_off {| pkt_mem := m3; pkt_data := 80; pkt_sz := 14 + hl + datalen f;
                  pkt_direction := dir |} = datastart f) as Hpoff.
  { unfold p_off, p_ip. cbn [pkt_mem pkt_data]. change (80 + 14 + 6) with 100.
    change (80 + 14 + 7) with 101. rewrite H100, Hfr, Hfo2 by lia. destruct (_ <? _); simpl; lia. }
  split; try done; unfold p_tl, p_more, p_ip; cbn [pkt_mem pkt_data pkt_sz pkt_direction];
    try change (80 + 14 + 6) with 100; try change (80 + 14) with 94; fold hl.
  - split; [done|]. cbn [pkt_mem pkt_data pkt_sz]. split; [lia|solve_valid].
  - rewrite (be16_frame m2) by (intros; apply Hfr; lia). change (94 + 2) with 96. rewrite Htot.
    apply u16_small. lia.
  - rewrite H100. unfold datamax. fold hl. destruct (_ <? _); cbn [b2z]; [apply negb_true_iff, Z.eqb_neq|apply negb_false_iff, Z.eqb_eq]; lia.
  - intros q Hq ??????. rewrite Hfr by lia. by apply Hsame.
  - rewrite H100. replace (pkt + 14 + 6) with (pkt + 20) by lia. destruct (_ <? _); simpl; lia.
  - intros i. rewrite Hphl, Hpoff. unfold p_byte, p_tl, p_ip. rewrite Hphl, Hpoff.
    cbn [pkt_mem pkt_data]. change (80 + 14) with 94. rewrite (be16_frame m2) by (intros; apply Hfr; lia).
    change (94 + 2) with 96. rewrite Htot, u16_small by lia. intros Hi.
    rewrite (copied_in Hc) by lia. unfold payload. fold hl. f_equal. lia.
  - eapply (ip_hdr_verifies_update m2); [done|done|apply Hfr; lia|..|exact Hck];
      rewrite Hhl2; [|solve_valid|lia|].
    + intros q Hq. destruct (Hv3 q) as [b Hb]; [lia|]. rewrite (copied_out Hc) in Hb by lia. by exists b.
    + rewrite (bsum_frame m2 m3) by (intros; apply Hfr; lia). by rewrite Z.sub_diag.
Qed.

Lemma fragment_fill_ok f blk :
  request_ok m pkt sz f -> bytes_ok blk -> valid blk 0 (packet_size (14 + hdrlen m pkt + datalen f)) ->
  returns (fragment_fill m pkt (pkt + 14 + hdrlen m pkt) (hdrlen m pkt) (datamax m pkt sz) f blk)
    (fun f' => exists p, frag_pkt f' = Some p /\ is_fragment m pkt sz f p).
Proof.
  intros Hreq Hmb Hvb. pose proof Hreq as (Hs & Hl & H8 & Hle & Hp). destruct Huf as [Hm Hv Hsz _ _ [H20 Hhl] _ [Hfl Hfo] _].
  set (hl := hdrlen m pkt) in *. unfold datamax in *. fold hl in Hle |- *.
  unfold fragment_fill, ETHER_HDR_LEN, packet_calc_data, ether_payload, packet_size, sizeof_packet in *.
  change (0 + 80) with 80. change (80 + 14) with 94.
  set (more := b2z (datastart f + datalen f <? sz - 14 - hl)). rewrite u16_small by lia.
  destruct (copy_header_ok blk m pkt hl (datastart f) more (hl + datalen f))
    as (m1 & x1 & x2 & x3 & m2 & -> & E1 & E2 & E3 & E4 & Hhc);
    [done|done|solve_valid|solve_valid|done|done|lia|lia|done|].
  pose proof Hhc as [Hm2 Hv2 Hhl2 _ _ _ _ _ _].
  cbn [mbind outcome_bind]. rewrite E1. cbn [mbind outcome_bind]. rewrite E2.
  cbn [mbind outcome_bind]. rewrite E3. cbn [mbind outcome_bind]. rewrite E4.
  cbn [mbind outcome_bind]. specialize (Hv2 _ _ Hvb). unfold ip_payload.
  rewrite ip_hdr_len_ok by (done || solve_valid). cbn [mbind outcome_bind fmap outcome_fmap].
  rewrite Hhl2.
  destruct (memcpy_from_ok m2 (94 + hl) m (pkt + 14 + hl + datastart f) (datalen f)) as (m3 & -> & Hc3);
    [done|lia|solve_valid|solve_valid|]. cbn [mbind outcome_bind].
  apply returns_ret. eexists. split; [done|].
  eapply (fragment_view f blk m2 m3); [done|done|done|by eapply copied_bytes_ok|].
  eapply copied_valid; [done|solve_valid|done].
Qed.

Lemma fragment_alloc_blocks frags loc loc' l :
  fragment_alloc loc (hdrlen m pkt) frags = Ret (loc', l) ->
  fst <$> l = frags /\
  Forall (fun '(f, blk) => bytes_ok blk /\
    valid blk 0 (packet_size (14 + hdrlen m pkt + datalen f))) l.
Proof.
  revert loc l. induction frags as [|f frags IH]; intros loc l; simpl.
  - intros [= _ <-]. by split.
  - destruct (allocif_alloc _ _) as [loc1 [blk|]] eqn:Ea; [|done].
    intros ([loc2 l2] & E & E')%bind_Ret_inv. injection E' as -> <-.
    destruct (IH _ _ E) as [<- Hl].
    destruct (alloc_block _ _ _ _ Ea) as [Hv Hm]. split; [done|]. by constructor.
Qed.

Lemma fragment_fill_all_ok l :
  Forall (request_ok m pkt sz) (fst <$> l) ->
  Forall (fun '(f, blk) => bytes_ok blk /\
    valid blk 0 (packet_size (14 + hdrlen m pkt + datalen f))) l ->
  returns (fragment_fill_all m pkt (pkt + 14 + hdrlen m pkt) (hdrlen m pkt) (datamax m pkt sz) l)
    (fun frags' => Forall2 (fun f f' => exists p, frag_pkt f' = Some p /\ is_fragment m pkt sz f p)
      (fst <$> l) frags').
Proof.
  induction l as [|[f blk] l IH]; intros Hr Hb; simpl.
  - apply returns_ret. constructor.
  - inversion Hr as [|? ? Hf Hr']; subst. inversion Hb as [|? ? Hfb Hb']; subst. destruct Hfb as [Hmb Hvb].
    eapply returns_bind; [by apply fragment_fill_ok|]. intros f' Hf'.
    eapply returns_bind; [by apply IH|]. intros fs Hfs. apply returns_ret. by constructor.
Qed.

(** Every check passes; what is left is the allocation and the copies. *)
Lemma fragment4_checked (loc : A) frags :
  Forall (request_ok m pkt sz) frags ->
  fragment4 loc m pkt sz frags =
    (r ← fragment_alloc loc (hdrlen m pkt) frags;
     let '(loc, l) := r in
     frags ← fragment_fill_all m pkt (pkt + 14 + hdrlen m pkt) (hdrlen m pkt) (datamax m pkt sz) l;
     Ret (loc, frags, 0)).
Proof.
  intros Hr. pose proof Huf as [Hm Hv Hsz Hty Hver [H20 Hhl] _ [Hfl Hfo] Hck].
  unfold fragment4, ether_type, ether_const_payload, ip_const_payload.
  rewrite hdr_get16n_ok by (done || solve_valid). cbn [mbind outcome_bind]. rewrite Hty.
  cbn [negb Z.eqb]. change (negb (2048 =? ETHER_TYPE_IP)) with false. cbv iota.
  rewrite ip_version_ok by (done || solve_valid). cbn [mbind outcome_bind]. rewrite Hver.
  change (negb (4 =? 4)) with false. cbv iota.
  rewrite !ip_hdr_len_ok by (done || solve_valid). cbn [mbind outcome_bind fmap outcome_fmap].
  fold (hdrlen m pkt). unfold IP_HDR_MINLEN, ETHER_HDR_LEN at 1.
  destruct (Z.ltb_spec (hdrlen m pkt) 20); [lia|].
  destruct (Z.gtb_spec (14 + hdrlen m pkt) sz); [lia|].
  rewrite ip_dont_frag_ok, ip_more_frags_ok, ip_frag_off_ok by (done || solve_valid).
  cbn [mbind outcome_bind]. pose proof (rd_range m (pkt + 14 + 6) Hm).
  replace (rd m (pkt + 14 + 6) / 64 mod 2 * 64) with 0 by lia.
  replace (rd m (pkt + 14 + 6) / 32 mod 2 * 32) with 0 by lia.
  replace ((rd m (pkt + 14 + 6) mod 32 * 256 + rd m (pkt + 14 + 7)) * 8) with 0 by lia.
  cbn [negb Z.eqb]. rewrite Hck. cbn [mbind outcome_bind negb Z.eqb].
  rewrite (proj2 (forallb_forall _ _)).
  2:{ intros f Hf. apply fragment_check_ok. rewrite Forall_forall in Hr. by apply Hr. }
  cbn [negb]. rewrite u16_small by (unfold ETHER_HDR_LEN; lia). done.
Qed.

Lemma fragment4_ok loc loc' frags l :
  Forall (request_ok m pkt sz) frags ->
  fragment_alloc loc (hdrlen m pkt) frags = Ret (loc', l) ->
  returns (fragment4 loc m pkt sz frags) (fun '(a, frags', rc) =>
    a = loc' /\ rc = 0 /\
    Forall2 (fun f f' => exists p, frag_pkt f' = Some p /\ is_fragment m pkt sz f p) frags frags').
Proof.
  intros Hr Ha. rewrite fragment4_checked, Ha by done. cbn [mbind outcome_bind].
  destruct (fragment_alloc_blocks _ _ _ _ Ha) as [<- Hbl].
  eapply returns_bind; [by apply fragment_fill_all_ok|]. intros fs Hfs. by apply returns_ret.
Qed.

(** ** The fragments cover the datagram *)

Lemma frag_of_fragment f p :
  request_ok m pkt sz f -> is_fragment m pkt sz f p ->
  frag_of p = if datalen f =? 0 then None
    else Some (datastart f, datastart f + datalen f - 1, datastart f + datalen f <? datamax m pkt sz).
Proof.
  intros (Hs & Hl & H8 & Hle & Hp) [(Hm & _ & _) Hz Hhl Htl Hoff Hmore _ _ _ _].
  pose proof Huf as [_ _ Hsz _ _ [H20 _] _ _ _]. unfold frag_of, datamax in *.
  rewrite Hz, Hhl, Htl, Hoff, Hmore.
  destruct (Z.ltb_spec (14 + hdrlen m pkt + datalen f) 34); [lia|].
  destruct (Z.eqb_spec (datalen f) 0).
  - by destruct (Z.leb_spec (hdrlen m pkt + datalen f) (hdrlen m pkt)); [|lia].
  - destruct (Z.leb_spec (hdrlen m pkt + datalen f) (hdrlen m pkt)); [lia|].
    destruct (Z.gtb_spec (hdrlen m pkt + datalen f + 14) (14 + hdrlen m pkt + datalen f)); [lia|].
    match goal with |- context [?x >? 65535] => destruct (Z.gtb_spec x 65535); [lia|] end.
    do 3 f_equal. lia.
Qed.

(** [ps] are fragments made for [frags], each request answered. *)
Definition answers (frags : list fragment) (ps : list packet) : Prop :=
  (forall p, p ∈ ps -> exists f, f ∈ frags /\ is_fragment m pkt sz f p) /\
  (forall f, f ∈ frags -> exists p, p ∈ ps /\ is_fragment m pkt sz f p).
Definition requests_cover (frags : list fragment) : Prop :=
  forall i, 0 <= i < datamax m pkt sz ->
    exists f, f ∈ frags /\ datastart f <= i < datastart f + datalen f.

Lemma answers_of_Forall2 frags frags' ps :
  Forall2 (fun f f' => exists p, frag_pkt f' = Some p /\ is_fragment m pkt sz f p) frags frags' ->
  (forall p, p ∈ ps <-> Some p ∈ frag_pkt <$> frags') -> answers frags ps.
Proof.
  intros H2 Hps. split.
  - intros p Hp. apply Hps, list_elem_of_fmap in Hp as (f' & E & Hf').
    apply list_elem_of_lookup in Hf' as [i Hi].
    destruct (Forall2_lookup_r _ _ _ _ _ H2 Hi) as (f & Hf & p' & E' & Hp').
    exists f. split; [by eapply list_elem_of_lookup_2|]. congruence.
  - intros f Hf. apply list_elem_of_lookup in Hf as [i Hi].
    destruct (Forall2_lookup_l _ _ _ _ _ H2 Hi) as (f' & Hf' & p & E & Hp).
    exists p. split; [|done]. apply Hps, list_elem_of_fmap. exists f'. split; [done|].
    by eapply list_elem_of_lookup_2.
Qed.

Section answered.
Context (frags : list fragment) (ps : list packet).
Context (Hreq : Forall (request_ok m pkt sz) frags) (Hans : answers frags ps).
Context (Hcov : requests_cover frags) (Hpos : 0 < datamax m pkt sz).

Lemma answered_covered i : 0 <= i < datamax m pkt sz ->
  exists a b, (a, b, b + 1 <? datamax m pkt sz) ∈ frags_of ps /\ a <= i <= b.
Proof.
  intros Hi. destruct (Hcov i Hi) as (f & Hf & Hr). destruct (proj2 Hans f Hf) as (p & Hp & Hfp).
  rewrite list.Forall_forall in Hreq.
  pose proof (frag_of_fragment f p (Hreq f Hf) Hfp) as E.
  destruct (Z.eqb_spec (datalen f) 0); [lia|].
  exists (datastart f), (datastart f + datalen f - 1). split; [|lia].
  apply list_elem_of_omap. exists p. split; [done|]. rewrite E. do 2 f_equal.
  by replace (datastart f + datalen f - 1 + 1) with (datastart f + datalen f) by lia.
Qed.

Lemma answered_last : last_of (frags_of ps) = datamax m pkt sz - 1.
Proof.
  pose proof Huf as [_ _ Hsz _ _ [H20 _] _ _ _].
  assert (last_of (frags_of ps) <= datamax m pkt sz - 1) as Hle.
  { destruct (answered_covered (datamax m pkt sz - 1)) as (a & b & Hin & Hab); [lia|].
    destruct (Z.ltb_spec (b + 1) (datamax m pkt sz)); [lia|].
    pose proof (last_of_le _ _ _ Hin).
    apply list_elem_of_omap in Hin as (p & Hp & E). destruct (proj1 Hans p Hp) as (f & Hf & Hfp).
    rewrite list.Forall_forall in Hreq. pose proof (Hreq f Hf) as (_ & _ & _ & ? & _).
    rewrite (frag_of_fragment f p (Hreq f Hf) Hfp) in E. destruct (datalen f =? 0); [done|].
    injection E as E1 E2 _. lia. }
  destruct (last_of_claimed (frags_of ps)) as [E|[a Ha]]; [unfold datamax in *; lia|].
  apply list_elem_of_omap in Ha as (p & Hp & E). destruct (proj1 Hans p Hp) as (f & Hf & Hfp).
  rewrite list.Forall_forall in Hreq. pose proof (Hreq f Hf) as (_ & _ & _ & ? & _).
  rewrite (frag_of_fragment f p (Hreq f Hf) Hfp) in E. destruct (datalen f =? 0); [done|].
  injection E as _ E1 E2. apply Z.ltb_ge in E2. lia.
Qed.

Lemma answered_complete : datagram_complete (frags_of ps).
Proof.
  intros i Hi. rewrite answered_last in Hi.
  destruct (answered_covered i) as (a & b & Hin & Hab); [lia|]. eexists. split; [exact Hin|]. done.
Qed.

Lemma answered_mergeable : Forall (mergeable (datamax m pkt sz - 1)) ps.
Proof.
  apply list.Forall_forall. intros p Hp. destruct (proj1 Hans p Hp) as (f & Hf & Hfp).
  rewrite list.Forall_forall in Hreq. pose proof (Hreq f Hf) as (Hs & Hl & H8 & Hle & _).
  destruct Hfp as [Hok Hz Hhl Htl Hoff _ _ _ _ _]. pose proof Huf as [_ _ Hsz _ _ [H20 _] _ _ _].
  split; [done|]. rewrite Hz, Hhl, Htl, Hoff. split; [lia|]. split; [lia|]. split; [lia|].
  destruct (decide (datalen f = 0)); [right|left]; lia.
Qed.

Lemma answered_carries : Forall (carries (payload m pkt)) ps.
Proof.
  apply list.Forall_forall. intros p Hp. by destruct (proj1 Hans p Hp) as (f & _ & []).
Qed.
End answered.
End fragment_lemmas.

(** ** The reassembled frame is the original *)

(** Two headers that verify and agree but for the checksum agree on it too,
    unless it is the other representation of zero. *)
Lemma same_cksum `{Host} m p m' p' hl :
  bytes_ok m -> bytes_ok m' -> valid m p hl -> valid m' p' hl -> 20 <= hl ->
  rd m p mod 16 * 4 = hl -> rd m' p' mod 16 * 4 = hl ->
  (forall q, 0 <= q < hl -> q <> 10 -> q <> 11 -> rd m' (p' + q) = rd m (p + q)) ->
  ip_hdr_cksum_calc m p hl = Ret 0 -> ip_hdr_cksum_calc m' p' hl = Ret 0 ->
  be16 m (p + 10) <> 65535 -> be16 m' (p' + 10) <> 65535 ->
  be16 m' (p' + 10) = be16 m (p + 10).
Proof.
  intros Hm Hm' Hv Hv' H20 Hl Hl' Hq Hc Hc' Hn Hn'.
  apply ip_hdr_verifies in Hc; [|done|solve_valid|by rewrite Hl|lia].
  apply ip_hdr_verifies in Hc'; [|done|solve_valid|by rewrite Hl'|lia].
  rewrite Hl in Hc. rewrite Hl' in Hc'. pose proof (be16_range m (p + 10) Hm).
  pose proof (be16_range m' (p' + 10) Hm').
  assert (forall k n, 0 <= k -> 0 <= n -> k + n <= 10 \/ 12 <= k /\ k + n <= hl ->
    bsum m' (p' + k) (Z.to_nat n) = bsum m (p + k) (Z.to_nat n)) as Hb.
  { intros k n Hk Hn0 Hr. apply bsum_shift. intros i Hi.
    rewrite <- !Z.add_assoc. apply Hq; lia. }
  rewrite (bsum_split m p 10 hl) in Hc by lia. rewrite (bsum_split m' p' 10 hl) in Hc' by lia.
  pose proof (Hb 0 10) as E1. pose proof (Hb 12 (hl - 10 - 2)) as E2.
  rewrite !Z.add_0_r in E1. rewrite E1 in Hc' by lia.
  replace (p + 10 + 2) with (p + 12) in Hc by lia. replace (p' + 10 + 2) with (p' + 12) in Hc' by lia.
  rewrite E2 in Hc' by lia.
  pose proof (mod_sum_zero _ (- (bsum m p (Z.to_nat 10) + be16 m (p + 10)
    + bsum m (p + 12) (Z.to_nat (hl - 10 - 2)))) Hc') as Hd.
  rewrite Z.mod_opp_l_z in Hd by (done || lia). specialize (Hd eq_refl). lia.
Qed.

Lemma reassembled_same `{Host} m pkt sz f p0 r :
  unfragmented m pkt sz -> be16 m (pkt + 14 + 10) <> 65535 ->
  is_fragment m pkt sz f p0 -> reassembled p0 (datamax m pkt sz - 1) r -> 0 < datamax m pkt sz ->
  (forall i, 0 <= i <= datamax m pkt sz - 1 ->
    rd (pkt_mem r) (p_ip r + p_hl p0 + i) = payload m pkt i) ->
  pkt_sz r = sz /\ forall q, 0 <= q < sz -> rd (pkt_mem r) (pkt_data r + q) = rd m (pkt + q).
Proof.
  intros Huf Hnf [Hok Hz Hhl _ _ _ Hhdr Hfl _ _] [Hrok Hrsz _ Hrh Hrt Hrf Hro Hrc Hrcv] Hpos Hpay.
  pose proof Huf as [Hm Hv Hsz _ _ [H20 Hfit] Htot [_ Hfo] Hck].
  rewrite Hhl in *. unfold datamax in *. unfold p_tl, p_ip in *.
  split; [lia|].
  assert (forall q, 0 <= q < 14 + hdrlen m pkt -> q <> 24 -> q <> 25 ->
    rd (pkt_mem r) (pkt_data r + q) = rd m (pkt + q)) as Hh.
  { intros q Hq H24 H25. rewrite u16_small in Hrt by lia.
    assert (be16 (pkt_mem r) (pkt_data r + 14 + 2) = be16 m (pkt + 14 + 2)) as Et by lia.
    unfold be16 in Et. rewrite <- !Z.add_assoc in Et. change (14 + (2 + 1)) with 17 in Et.
    change (14 + 2) with 16 in Et. destruct Hrok as [Hmr _].
    pose proof (rd_range _ (pkt_data r + 16) Hmr). pose proof (rd_range _ (pkt_data r + 17) Hmr).
    pose proof (rd_range m (pkt + 16) Hm). pose proof (rd_range m (pkt + 17) Hm).
    destruct (decide (q = 16)) as [->|]; [lia|]. destruct (decide (q = 17)) as [->|]; [lia|].
    replace (pkt_data r + 14 + 6) with (pkt_data r + 20) in Hrf by lia.
    replace (pkt_data r + 14 + 7) with (pkt_data r + 21) in Hro by lia.
    replace (pkt + 14 + 6) with (pkt + 20) in Hfl by lia.
    replace (pkt + 14 + 7) with (pkt + 21) in Hfo by lia.
    destruct (decide (q = 20)) as [->|]; [congruence|].
    destruct (decide (q = 21)) as [->|]; [congruence|].
    rewrite Hrh by lia. by apply Hhdr. }
  assert (be16 (pkt_mem r) (pkt_data r + 14 + 10) = be16 m (pkt + 14 + 10)) as Hcs.
  { destruct Hrok as (Hmr & _ & Hvr). apply (same_cksum _ _ _ _ (hdrlen m pkt)); try done.
    - solve_valid.
    - solve_valid.
    - rewrite Hh by lia. done.
    - intros q Hq ??. rewrite <- !Z.add_assoc. apply Hh; lia. }
  intros q Hq. destruct (decide (q < 14 + hdrlen m pkt)).
  - unfold be16 in Hcs. rewrite <- !Z.add_assoc in Hcs. change (14 + (10 + 1)) with 25 in Hcs.
    change (14 + 10) with 24 in Hcs. destruct Hrok as [Hmr _].
    pose proof (rd_range _ (pkt_data r + 24) Hmr). pose proof (rd_range _ (pkt_data r + 25) Hmr).
    pose proof (rd_range m (pkt + 24) Hm). pose proof (rd_range m (pkt + 25) Hm).
    destruct (decide (q = 24)) as [->|]; [lia|]. destruct (decide (q = 25)) as [->|]; [lia|].
    apply Hh; lia.
  - specialize (Hpay (q - 14 - hdrlen m pkt) ltac:(lia)). unfold payload in Hpay.
    replace (pkt_data r + 14 + hdrlen m pkt + (q - 14 - hdrlen m pkt)) with (pkt_data r + q) in Hpay by lia.
    by replace (pkt + 14 + hdrlen m pkt + (q - 14 - hdrlen m pkt)) with (pkt + q) in Hpay by lia.
Qed.

(** ** Properties *)

(** [fragment4] on a frame it accepts makes, for every request, a packet
    in memory with a verifying header that carries exactly the requested bytes:
    the requested offset, the more-fragments bit unless the request reaches the
    end, the right total length, every other header byte and the payload
    copied. *)
Theorem fragment4_makes_fragments `{Host} {A} `{AllocifLaws A} m pkt sz (loc loc' : A) frags :
  unfragmented m pkt sz -> Forall (request_ok m pkt sz) frags ->
  returns (fragment_alloc loc (hdrlen m pkt) frags) (fun '(a, _) => a = loc') ->
  returns (fragment4 loc m pkt sz frags) (fun '(a, frags', rc) =>
    a = loc' /\ rc = 0 /\
    Forall2 (fun f f' => exists p, frag_pkt f' = Some p /\ is_fragment m pkt sz f p) frags frags').
Proof. intros Huf Hr ([a l] & Ha & ->). by eapply fragment4_ok. Qed.

(** When the allocator fails, [fragment4] does not return [-ENOMEM]: it
    writes through the null pointer first. *)
Theorem fragment4_alloc_failure `{Host} {A} `{AllocifLaws A} m pkt sz (loc loc' : A) f frags :
  unfragmented m pkt sz -> Forall (request_ok m pkt sz) (f :: frags) ->
  allocif_alloc loc (packet_size (14 + hdrlen m pkt + datalen f)) = (loc', None) ->
  fragment4 loc m pkt sz (f :: frags) = Undef.
Proof.
  intros Huf Hr Ha. rewrite (fragment4_checked m pkt sz) by done.
  cbn [fragment_alloc]. unfold ETHER_HDR_LEN. by rewrite Ha.
Qed.

(** C1: fragmentation and reassembly are inverse.  Take a frame whose IPv4
    header verifies (and does not use the checksum 0xffff), fragment it by any
    requests that cover its payload, and deliver the resulting packets to
    [reassctx] in any order, any of them any number of times but each at least
    once: the context reports completion, and the reassembled frame is byte
    for byte the original. *)
Theorem fragment_reassemble_roundtrip `{Host} {A} `{AllocifLaws A} m pkt sz (loc loc' : A) frags :
  unfragmented m pkt sz -> be16 m (pkt + 24) <> 65535 -> 0 < datamax m pkt sz ->
  Forall (request_ok m pkt sz) frags -> requests_cover m pkt sz frags ->
  returns (fragment_alloc loc (hdrlen m pkt) frags) (fun '(a, _) => a = loc') ->
  snd (allocif_alloc loc' (packet_size sz)) <> None ->
  returns (fragment4 loc m pkt sz frags) (fun '(a, frags', rc) =>
    a = loc' /\ rc = 0 /\
    forall ps, (forall p, p ∈ ps <-> Some p ∈ frag_pkt <$> frags') ->
    returns (ra_add_all reassctx_init ps) (fun ctx =>
      reassctx_complete ctx = true /\
      returns (reassctx_reassemble loc' ctx) (fun '(_, o) =>
        exists r, o = Some r /\ pkt_sz r = sz /\
          forall q, 0 <= q < sz -> rd (pkt_mem r) (pkt_data r + q) = rd m (pkt + q)))).
Proof.
  intros Huf Hnf Hpos Hreq Hcov ([loc1 l] & Ha & ->) Hblk0.
  destruct (allocif_alloc loc' (packet_size sz)) as [loc2 [blk|]] eqn:Hblk; [|done]. clear Hblk0.
  eapply returns_impl; [by eapply fragment4_ok|]. intros [[a frags'] rc] (-> & -> & H2).
  split; [done|]. split; [done|]. intros ps Hps.
  pose proof (answers_of_Forall2 m pkt sz frags frags' ps H2 Hps) as Hans.
  destruct ps as [|p0 ps'].
  { destruct (Hcov 0 ltac:(lia)) as (f & Hf & _). destruct (proj2 Hans f Hf) as (p & Hp & _).
    by apply elem_of_nil in Hp. }
  destruct (proj1 Hans p0 (list_elem_of_here _ _)) as (f0 & Hf0 & Hp0).
  pose proof (answered_last m pkt sz Huf _ _ Hreq Hans Hcov Hpos) as Hlast.
  pose proof Hp0 as [_ _ Hhl _ _ _ _ _ _ _]. pose proof Huf as [_ _ _ _ _ [H20 _] _ _ _].
  pose proof (reassembler_delivers (C := reassctx) (fun _ => True) u32 loc' loc2 blk
    (payload m pkt) p0 ps') as Hd. cbv zeta in Hd. rewrite Hlast, Hhl in Hd.
  replace (14 + hdrlen m pkt + (datamax m pkt sz - 1) + 1) with sz in Hd by (unfold datamax; lia).
  eapply returns_impl; [apply Hd|].
  - intros x Hx. apply u32_small. lia.
  - done.
  - by eapply answered_mergeable.
  - by eapply answered_carries.
  - done.
  - by eapply answered_complete.
  - exact Hblk.
  - intros ctx [[= Hc] Hre]. split; [done|]. eapply returns_impl; [exact Hre|].
    intros [l' o] (_ & r & -> & Hr & Hby). exists r. split; [done|].
    rewrite <- Hhl in Hby. eapply reassembled_same; try done.
    by replace (pkt + 14 + 10) with (pkt + 24) by lia.
Qed.

(** ** A concrete frame: 21 bytes of UDP payload in three fragments *)
Definition sample_frame : mem :=
  mem_of 0 ([0; 0; 0; 0; 0; 1; 0; 0; 0; 0; 0; 2; 8; 0;
             0x45; 0; 0; 41; 0x12; 0x34; 0; 0; 64; 17; 0x54; 0x8e; 10; 0; 0; 1; 10; 0; 0; 2]
            ++ (sample_data <$> seqZ 0 21)).
Definition sample_requests : list fragment :=
  [{| datastart := 16; datalen := 5; frag_pkt := None |};
   {| datastart := 0; datalen := 16; frag_pkt := None |};
   {| datastart := 8; datalen := 8; frag_pkt := None |}].
(** The budget allocator serves requests that fit its budget. *)
Lemma budget_fragment_alloc hl frags (loc : Z) :
  Forall (fun f => 0 <= datalen f) frags -> 0 <= hl ->
  foldr (fun f n => packet_size (14 + hl + datalen f) + n) 0 frags <= loc ->
  returns (fragment_alloc loc hl frags) (fun '(a, _) =>
    a = loc - foldr (fun f n => packet_size (14 + hl + datalen f) + n) 0 frags).
Proof.
  revert loc. induction frags as [|f frags IH]; intros loc Hl Hh Hb; cbn [foldr fragment_alloc] in *.
  - apply returns_ret. lia.
  - inversion Hl as [|? ? Hf Hl']; subst. unfold ETHER_HDR_LEN. simpl (allocif_alloc _ _).
    assert (0 <= foldr (fun f n => packet_size (14 + hl + datalen f) + n) 0 frags).
    { clear IH Hb Hl Hf. induction Hl'; simpl; [done|]. unfold packet_size, sizeof_packet in *. lia. }
    destruct (Z.leb_spec (packet_size (14 + hl + datalen f)) loc); [|lia].
    eapply returns_bind; [apply IH; [done|done|lia]|]. intros [a l] ->. apply returns_ret. lia.
Qed.

Lemma sample_unfragmented `{Host} :
  ip_hdr_cksum_calc sample_frame 14 20 = Ret 0 -> unfragmented sample_frame 0 55.
Proof.
  intros Hck. split; [mem_check|mem_check|lia|reflexivity|reflexivity| |reflexivity| |exact Hck].
  - vm_compute. split; discriminate.
  - vm_compute. split; reflexivity.
Qed.

Lemma sample_requests_ok :
  Forall (request_ok sample_frame 0 55) sample_requests /\
  requests_cover sample_frame 0 55 sample_requests /\ datamax sample_frame 0 55 = 21.
Proof.
  assert (datamax sample_frame 0 55 = 21) as E by (vm_compute; reflexivity).
  split; [|split; [|done]].
  - repeat (apply Forall_cons; [unfold request_ok; rewrite E; cbn [datastart datalen frag_pkt];
      repeat split; (lia || done)|]). apply Forall_nil.
  - intros i Hi. rewrite E in Hi. unfold sample_requests. setoid_rewrite elem_of_cons.
    destruct (decide (i < 16)); eexists; (split; [|]);
      [right; left; reflexivity|simpl; lia|left; reflexivity|simpl; lia].
Qed.

Lemma sample_alloc : returns (fragment_alloc 1000 (hdrlen sample_frame 0) sample_requests)
    (fun '(a, _) => a = 629).
Proof.
  assert (hdrlen sample_frame 0 = 20) as -> by (vm_compute; reflexivity).
  apply (budget_fragment_alloc 20 sample_requests 1000); [|lia|vm_compute; discriminate].
  repeat (apply Forall_cons; [simpl; lia|]). apply Forall_nil.
Qed.

Lemma fragment4_makes_fragments_witness :
  returns (fragment4 (H := little_endian_host) 1000 sample_frame 0 55 sample_requests)
    (fun '(a, frags', rc) => a = 629 /\ rc = 0 /\
      Forall2 (fun f f' => exists p, frag_pkt f' = Some p /\
        is_fragment (H := little_endian_host) sample_frame 0 55 f p) sample_requests frags').
Proof.
  apply (@fragment4_makes_fragments little_endian_host Z _ _ sample_frame 0 55 1000 629).
  - apply sample_unfragmented. vm_compute. reflexivity.
  - apply sample_requests_ok.
  - apply sample_alloc.
Defined.

Lemma fragment4_alloc_failure_witness :
  fragment4 (H := little_endian_host) 100 sample_frame 0 55 sample_requests = Undef.
Proof.
  eapply (@fragment4_alloc_failure little_endian_host Z _ _ sample_frame 0 55 100 100).
  - apply sample_unfragmented. vm_compute. reflexivity.
  - apply sample_requests_ok.
  - assert (hdrlen sample_frame 0 = 20) as -> by (vm_compute; reflexivity). reflexivity.
Defined.

Lemma fragment_reassemble_roundtrip_witness :
  returns (fragment4 (H := little_endian_host) 1000 sample_frame 0 55 sample_requests)
    (fun '(a, frags', rc) => a = 629 /\ rc = 0 /\
    forall ps, (forall p, p ∈ ps <-> Some p ∈ frag_pkt <$> frags') ->
    returns (ra_add_all (H := reassctx_reassembler (H := little_endian_host)) reassctx_init ps) (fun ctx =>
      reassctx_complete ctx = true /\
      returns (reassctx_reassemble (H := little_endian_host) 629 ctx) (fun '(_, o) =>
        exists r, o = Some r /\ pkt_sz r = 55 /\
          forall q, 0 <= q < 55 -> rd (pkt_mem r) (pkt_data r + q) = rd sample_frame (0 + q)))).
Proof.
  destruct sample_requests_ok as (Hreq & Hcov & Hmax).
  apply (@fragment_reassemble_roundtrip little_endian_host Z _ _ sample_frame 0 55 1000 629
    sample_requests); [|vm_compute; discriminate|by rewrite Hmax|exact Hreq|exact Hcov|..].
  - apply sample_unfragmented. vm_compute. reflexivity.
  - apply sample_alloc.
  - discriminate.
Defined.
