(* ===== verification/Rfc791.v ===== *)
(** The bitmap reassembly of ipfrag/rfc791.h and rfc791.c: one bit for every
    eight bytes of the datagram, as RFC 791 describes it. *)
From S2P Require Import Prelude Bytes IpHdr IpCksum Packet Reass.

(** ** [struct rfc791ctx] *)
Record rfc791ctx := {
  r_last : Z;
  r_packets : list packet;
  r_bits : list Z
}.

Definition UINT64_MAX : Z := 18446744073709551615.

Definition rfc791ctx_init : rfc791ctx :=
  {| r_last := 65535; r_packets := []; r_bits := replicate 128 0 |}.

(** [bits[k]] and [bits[k] = v]. *)
Definition get_word (bits : list Z) (k : Z) : outcome Z :=
  if decide (0 <= k) then of_option (bits !! Z.to_nat k) else Undef.
Definition set_word (k v : Z) (bits : list Z) : outcome (list Z) :=
  _ ← get_word bits k; Ret (<[Z.to_nat k := v]> bits).

(** [ctx->bits[i/64] |= 1ULL<<(i%64)] *)
Definition set_bit (i : Z) (bits : list Z) : outcome (list Z) :=
  w ← get_word bits (i / 64);
  set_word (i / 64) (Z.lor w (u64 (Z.shiftl 1 (i mod 64)))) bits.

Definition rfc791_mark (data_first data_last : Z) (bits : list Z) : outcome (list Z) :=
  let firsttotal := (data_first + 8 * 64 - 1) / (8 * 64) in
  let onepastlasttotal := (data_last + 1) / (8 * 64) in
  let firstmaxbit := firsttotal * 64 in
  let secondminbit := onepastlasttotal * 64 in
  let firstmaxbit :=
    if firstmaxbit >? (data_last + 1) / 8 then (data_last + 1) / 8 else firstmaxbit in
  let secondminbit :=
    if secondminbit <? data_first / 8 then data_first / 8 else secondminbit in
  bits ← for_range (data_first / 8) firstmaxbit set_bit bits;
  bits ← for_range firsttotal onepastlasttotal (fun i => set_word i UINT64_MAX) bits;
  for_range secondminbit ((data_last + 1) / 8) set_bit bits.

(** [ffsll(x)]: one plus the index of the lowest set bit, 0 if there is none. *)
Definition ffsll (x : Z) : Z :=
  match list_find (fun i => Z.testbit x i = true) (seqZ 0 64) with
  | Some (_, i) => i + 1
  | None => 0
  end.

Section rfc791_ops.
Context `{Host}.

Definition rfc791ctx_add (ctx : rfc791ctx) (pkt : packet) : outcome rfc791ctx :=
  let pl := r_packets ctx ++ [pkt] in
  r ← frag_range pkt;
  match r with
  | None => Ret {| r_last := r_last ctx; r_packets := pl; r_bits := r_bits ctx |}
  | Some (data_first, data_last, more) =>
      let last := if negb more && (r_last ctx >? data_last) then data_last else r_last ctx in
      bits ← rfc791_mark data_first data_last (r_bits ctx);
      Ret {| r_last := last; r_packets := pl; r_bits := bits |}
  end.

(** The loop over the words before the last. *)
Fixpoint words_full (n : nat) (k : Z) (bits : list Z) : outcome bool :=
  match n with
  | O => Ret true
  | S n =>
      w ← get_word bits k;
      if negb (w =? UINT64_MAX) then Ret false else words_full n (k + 1) bits
  end.

Definition rfc791ctx_complete (ctx : rfc791ctx) : outcome bool :=
  let last_bit := r_last ctx / 8 in
  let bitidx := last_bit / 64 in
  let bitoff := last_bit mod 64 in
  if r_last ctx =? 65535 then Ret false else
  full ← words_full (Z.to_nat bitidx) 0 (r_bits ctx);
  if negb full then Ret false else
  w ← get_word (r_bits ctx) bitidx;
  Ret (ffsll (u64 (Z.lnot w)) =? bitoff + 1).

Definition rfc791ctx_reassemble {A} `{Allocif A} (loc : A) (ctx : rfc791ctx)
    : outcome (A * option packet) :=
  reassemble_packets u32 loc (r_packets ctx) (r_last ctx).

Definition rfc791ctx_free {A} `{Allocif A} (loc : A) (ctx : rfc791ctx) : A * rfc791ctx :=
  (foldl (fun loc p => allocif_free loc (pkt_mem p)) loc (r_packets ctx),
   {| r_last := r_last ctx; r_packets := []; r_bits := r_bits ctx |}).
End rfc791_ops.

(** ** The bitmap as a set of block numbers *)

Definition bits_ok (bits : list Z) : Prop :=
  length bits = 128%nat /\ Forall (fun w => 0 <= w < 18446744073709551616) bits.
Definition bit (bits : list Z) (i : Z) : bool :=
  Z.testbit (default 0 (bits !! Z.to_nat (i / 64))) (i mod 64).

Lemma get_word_ok bits k :
  bits_ok bits -> 0 <= k < 128 ->
  exists w, bits !! Z.to_nat k = Some w /\ get_word bits k = Ret w /\ 0 <= w < 18446744073709551616.
Proof.
  intros [Hl Hw] Hk. destruct (lookup_lt_is_Some_2 bits (Z.to_nat k)) as [w E]; [lia|].
  exists w. unfold get_word. destruct (decide (0 <= k)); [|lia]. rewrite E. split; [done|].
  split; [done|]. by apply (Forall_lookup_1 _ _ _ _ Hw E).
Qed.

Lemma set_word_ok bits k v :
  bits_ok bits -> 0 <= k < 128 -> 0 <= v < 18446744073709551616 ->
  exists bits', set_word k v bits = Ret bits' /\ bits_ok bits' /\
    forall i, 0 <= i -> bit bits' i = if i / 64 =? k then Z.testbit v (i mod 64) else bit bits i.
Proof.
  intros Hb Hk Hv. destruct (get_word_ok bits k Hb Hk) as (w & E & Eg & _).
  unfold set_word. rewrite Eg. cbn [mbind outcome_bind]. eexists. split; [done|].
  destruct Hb as [Hl Hf]. split.
  - split; [by rewrite length_insert|]. by apply Forall_insert.
  - intros i Hi. unfold bit. destruct (Z.eqb_spec (i / 64) k) as [->|].
    + rewrite list_lookup_insert_eq by lia. done.
    + rewrite list_lookup_insert_ne by lia. done.
Qed.

Lemma testbit_one_shift j n : 0 <= j < 64 -> 0 <= n < 64 ->
  Z.testbit (u64 (Z.shiftl 1 j)) n = (n =? j).
Proof.
  intros Hj Hn. rewrite Z.shiftl_1_l. unfold u64. change 18446744073709551616 with (2 ^ 64).
  rewrite Z.mod_small by (split; [lia|apply Z.pow_lt_mono_r; lia]).
  rewrite Z.pow2_bits_eqb by lia. apply Z.eqb_sym.
Qed.

Lemma set_bit_ok bits j :
  bits_ok bits -> 0 <= j < 8192 ->
  exists bits', set_bit j bits = Ret bits' /\ bits_ok bits' /\
    forall i, 0 <= i -> bit bits' i = bit bits i || (i =? j).
Proof.
  intros Hb Hj. destruct (get_word_ok bits (j / 64) Hb ltac:(lia)) as (w & E & Eg & Hw).
  unfold set_bit. rewrite Eg. cbn [mbind outcome_bind].
  pose proof (u64_range (Z.shiftl 1 (j mod 64))) as Hu.
  destruct (set_word_ok bits (j / 64) (Z.lor w (u64 (Z.shiftl 1 (j mod 64))))) as (b' & -> & Hb' & Hi);
    [done|lia| |].
  { change 18446744073709551616 with (2 ^ 64) in *.
    assert (0 <= Z.lor w (u64 (Z.shiftl 1 (j mod 64)))) by (apply Z.lor_nonneg; lia).
    split; [done|]. apply Z.bounded_iff_bits_nonneg; [done|done|]. intros l Hl.
    rewrite Z.lor_spec. apply orb_false_iff.
    split; (apply (Z.bounded_iff_bits_nonneg 64); [done| | |done]; lia). }
  exists b'. split; [done|]. split; [done|]. intros i Hi0. rewrite Hi by done.
  unfold bit. destruct (Z.eqb_spec (i / 64) (j / 64)) as [Eq|].
  - rewrite Z.lor_spec, testbit_one_shift, Eq, E by lia. simpl. f_equal.
    destruct (Z.eqb_spec (i mod 64) (j mod 64)), (Z.eqb_spec i j); (done || lia).
  - destruct (Z.eqb_spec i j); [subst; done|]. by rewrite orb_false_r.
Qed.

(** A loop that sets the bits of [a, b). *)
Lemma set_bits_ok bits a b :
  bits_ok bits -> 0 <= a -> b <= 8192 ->
  exists bits', for_range a b set_bit bits = Ret bits' /\ bits_ok bits' /\
    forall i, 0 <= i -> bit bits' i = bit bits i || (a <=? i) && (i <? b).
Proof.
  intros Hb Ha Hbm. destruct (decide (a <= b)) as [Hab|].
  2:{ exists bits. rewrite for_range_empty by lia. split; [done|]. split; [done|].
      intros i Hi. destruct (Z.leb_spec a i), (Z.ltb_spec i b); simpl; try lia; by rewrite orb_false_r. }
  destruct (for_range_inv (fun k bs => bits_ok bs /\
    forall i, 0 <= i -> bit bs i = bit bits i || (a <=? i) && (i <? k)) a b set_bit bits)
    as (bs & -> & Hbs & Hi); [done| | |by exists bs].
  - split; [done|]. intros i Hi.
    destruct (Z.leb_spec a i), (Z.ltb_spec i a); simpl; try lia; by rewrite orb_false_r.
  - intros k bs Hk [Hbs Hi]. destruct (set_bit_ok bs k Hbs ltac:(lia)) as (bs' & -> & Hbs' & Hi').
    apply returns_ret. split; [done|]. intros i Hi0. rewrite Hi', Hi by done.
    destruct (bit bits i); simpl; [done|].
    destruct (Z.leb_spec a i), (Z.ltb_spec i k), (Z.eqb_spec i k), (Z.ltb_spec i (k + 1)); simpl; lia || done.
Qed.

(** A loop that fills the words of [a, b). *)
Lemma set_words_ok bits a b :
  bits_ok bits -> 0 <= a -> b <= 128 ->
  exists bits', for_range a b (fun i => set_word i UINT64_MAX) bits = Ret bits' /\ bits_ok bits' /\
    forall i, 0 <= i -> bit bits' i = bit bits i || (a * 64 <=? i) && (i <? b * 64).
Proof.
  intros Hb Ha Hbm. destruct (decide (a <= b)) as [Hab|].
  2:{ exists bits. rewrite for_range_empty by lia. split; [done|]. split; [done|].
      intros i Hi. destruct (Z.leb_spec (a * 64) i), (Z.ltb_spec i (b * 64)); simpl; try lia;
        by rewrite orb_false_r. }
  destruct (for_range_inv (fun k bs => bits_ok bs /\
    forall i, 0 <= i -> bit bs i = bit bits i || (a * 64 <=? i) && (i <? k * 64)) a b
    (fun i => set_word i UINT64_MAX) bits) as (bs & -> & Hbs & Hi); [done| | |by exists bs].
  - split; [done|]. intros i Hi.
    destruct (Z.leb_spec (a * 64) i), (Z.ltb_spec i (a * 64)); simpl; try lia; by rewrite orb_false_r.
  - intros k bs Hk [Hbs Hi].
    destruct (set_word_ok bs k UINT64_MAX Hbs) as (bs' & -> & Hbs' & Hi');
      [lia|unfold UINT64_MAX; lia|].
    apply returns_ret. split; [done|]. intros i Hi0. rewrite Hi' by done.
    destruct (Z.eqb_spec (i / 64) k) as [Hq|Hq].
    + unfold UINT64_MAX. change 18446744073709551615 with (Z.ones 64).
      rewrite Z.ones_spec_low by lia.
      destruct (Z.leb_spec (a * 64) i), (Z.ltb_spec i ((k + 1) * 64)); simpl; try lia.
    + rewrite Hi by done. f_equal. f_equal.
      destruct (Z.ltb_spec i (k * 64)), (Z.ltb_spec i ((k + 1) * 64)); (done || lia).
Qed.

(** The three loops together mark the whole blocks of the fragment. *)
Lemma rfc791_mark_ok bits df dl :
  bits_ok bits -> 0 <= df <= dl -> dl <= 65535 ->
  exists bits', rfc791_mark df dl bits = Ret bits' /\ bits_ok bits' /\
    forall i, 0 <= i -> bit bits' i = bit bits i || (df / 8 <=? i) && (i <? (dl + 1) / 8).
Proof.
  intros Hb Hd Hl. unfold rfc791_mark. change (8 * 64) with 512.
  set (ft := (df + 512 - 1) / 512). set (op := (dl + 1) / 512).
  set (fm := if ft * 64 >? (dl + 1) / 8 then (dl + 1) / 8 else ft * 64).
  set (sm := if op * 64 <? df / 8 then df / 8 else op * 64).
  assert (fm <= 8192 /\ 0 <= sm /\ 0 <= ft /\ op <= 128 /\ (dl + 1) / 8 <= 8192) as Hr.
  { unfold fm, sm, ft, op. destruct (Z.gtb_spec ((df + 512 - 1) / 512 * 64) ((dl + 1) / 8)),
      (Z.ltb_spec ((dl + 1) / 512 * 64) (df / 8)); lia. }
  destruct (set_bits_ok bits (df / 8) fm) as (b1 & -> & Hb1 & H1); [done|lia|lia|].
  cbn [mbind outcome_bind].
  destruct (set_words_ok b1 ft op) as (b2 & -> & Hb2 & H2); [done|lia|lia|].
  cbn [mbind outcome_bind].
  destruct (set_bits_ok b2 sm ((dl + 1) / 8)) as (b3 & -> & Hb3 & H3); [done|lia|lia|].
  exists b3. split; [done|]. split; [done|]. intros i Hi. rewrite H3, H2, H1 by done.
  destruct (bit bits i); simpl; [done|].
  assert ((df / 8 <= i < fm \/ ft * 64 <= i < op * 64 \/ sm <= i < (dl + 1) / 8) <->
          df / 8 <= i < (dl + 1) / 8) as Hiff.
  { unfold fm, sm, ft, op. destruct (Z.gtb_spec ((df + 512 - 1) / 512 * 64) ((dl + 1) / 8)),
      (Z.ltb_spec ((dl + 1) / 512 * 64) (df / 8)); lia. }
  apply Bool.eq_iff_eq_true. rewrite !orb_true_iff, !andb_true_iff, !Z.leb_le, !Z.ltb_lt. lia.
Qed.

(** ** When the bitmap is complete *)

Lemma bit_word bits k w n :
  bits !! Z.to_nat k = Some w -> 0 <= k -> 0 <= n < 64 -> bit bits (k * 64 + n) = Z.testbit w n.
Proof.
  intros E Hk Hn. unfold bit. replace ((k * 64 + n) / 64) with k by lia.
  replace ((k * 64 + n) mod 64) with n by lia. by rewrite E.
Qed.

Lemma word_full w : 0 <= w < 18446744073709551616 ->
  w = UINT64_MAX <-> forall n, 0 <= n < 64 -> Z.testbit w n = true.
Proof.
  intros Hw. split.
  - intros -> n Hn. unfold UINT64_MAX. change 18446744073709551615 with (Z.ones 64).
    apply Z.ones_spec_low. lia.
  - intros Hn. unfold UINT64_MAX. change 18446744073709551615 with (Z.ones 64).
    apply Z.bits_inj'. intros n Hn0. destruct (decide (n < 64)).
    + rewrite Hn, Z.ones_spec_low by lia. done.
    + rewrite Z.ones_spec_high by lia. apply (Z.bounded_iff_bits_nonneg 64 w); lia.
Qed.

Lemma words_full_ok bits n k :
  bits_ok bits -> 0 <= k -> k + Z.of_nat n <= 128 ->
  exists b, words_full n k bits = Ret b /\
    (b = true <-> forall i, k * 64 <= i < (k + Z.of_nat n) * 64 -> bit bits i = true).
Proof.
  intros Hb. revert k. induction n as [|n IH]; intros k Hk Hn; cbn [words_full].
  { exists true. split; [done|]. split; [lia|done]. }
  destruct (get_word_ok bits k Hb ltac:(lia)) as (w & E & -> & Hw). cbn [mbind outcome_bind].
  destruct (Z.eqb_spec w UINT64_MAX) as [Ew|Ew]; cbn [negb].
  - destruct (IH (k + 1) ltac:(lia) ltac:(lia)) as (b & -> & Hbi). exists b. split; [done|].
    rewrite Hbi. rewrite word_full in Ew by done. split; intros Hi i Hr; [|apply Hi; lia].
    destruct (decide (i < (k + 1) * 64)); [|apply Hi; lia].
    replace i with (k * 64 + (i - k * 64)) by lia. rewrite (bit_word bits k w) by (done || lia).
    apply Ew. lia.
  - exists false. split; [done|]. split; [done|]. intros Hi. destruct Ew. apply word_full; [done|].
    intros j Hj. rewrite <- (bit_word bits k w j) by done. apply Hi. lia.
Qed.

(** [ffsll(~w) == n + 1]: bits below [n] are set and bit [n] is not. *)
Lemma ffsll_lnot w n :
  0 <= w < 18446744073709551616 -> 0 <= n < 64 ->
  ffsll (u64 (Z.lnot w)) = n + 1 <->
  Z.testbit w n = false /\ forall j, 0 <= j < n -> Z.testbit w j = true.
Proof.
  intros Hw Hn.
  assert (forall j, 0 <= j < 64 -> Z.testbit (u64 (Z.lnot w)) j = negb (Z.testbit w j)) as Hbit.
  { intros j Hj. unfold u64. change 18446744073709551616 with (2 ^ 64).
    rewrite Z.mod_pow2_bits_low by lia. apply Z.lnot_spec. lia. }
  unfold ffsll. set (P := fun i => Z.testbit (u64 (Z.lnot w)) i = true).
  assert (forall j x, seqZ 0 64 !! j = Some x <-> x = Z.of_nat j /\ 0 <= x < 64) as Hseq.
  { intros j x. rewrite lookup_seqZ. lia. }
  destruct (list_find P (seqZ 0 64)) as [[j x]|] eqn:E.
  - apply list_find_Some in E as (Hx & HP & Hmin). apply Hseq in Hx as [-> Hx].
    unfold P in HP. rewrite Hbit, negb_true_iff in HP by done.
    assert (forall k, 0 <= k < Z.of_nat j -> Z.testbit w k = true) as Hlow.
    { intros k Hk. specialize (Hmin (Z.to_nat k) k). unfold P in Hmin. rewrite Hbit in Hmin by lia.
      destruct (Z.testbit w k); [done|]. destruct Hmin; [apply Hseq; lia|lia|done]. }
    split.
    + intros Hjn. replace n with (Z.of_nat j) by lia. done.
    + intros [Hf Hall]. destruct (decide (Z.of_nat j < n)); [by rewrite Hall in HP by lia|].
      destruct (decide (n < Z.of_nat j)); [by rewrite Hlow in Hf by lia|]. lia.
  - apply list_find_None in E. split; [lia|]. intros [Hf _].
    rewrite list.Forall_forall in E. destruct (E n).
    + apply list_elem_of_lookup. exists (Z.to_nat n). apply Hseq. lia.
    + unfold P. by rewrite Hbit, Hf by done.
Qed.

Section rfc791_inv.
Context `{Host}.

Definition marked (fs : list frag) (i : Z) : Prop :=
  exists f, f ∈ fs /\ let '(a, b, _) := f in a / 8 <= i < (b + 1) / 8.

Definition rfc791_inv (ps : list packet) (ctx : rfc791ctx) : Prop :=
  r_packets ctx = ps /\ r_last ctx = last_of (frags_of ps) /\ bits_ok (r_bits ctx) /\
  forall i, 0 <= i -> bit (r_bits ctx) i = true <-> marked (frags_of ps) i.

Lemma marked_snoc fs a b more i :
  marked (fs ++ [(a, b, more)]) i <-> marked fs i \/ a / 8 <= i < (b + 1) / 8.
Proof.
  unfold marked. setoid_rewrite elem_of_app. setoid_rewrite list_elem_of_singleton.
  split; [naive_solver|]. intros [(f & Hf & Hi)|Hi]; [|by exists (a, b, more); auto].
  exists f. auto.
Qed.

Lemma rfc791_init_inv : rfc791_inv [] rfc791ctx_init.
Proof.
  split; [done|]. split; [done|]. split; [split; [done|by apply Forall_replicate]|].
  intros i Hi. split; [|by intros (f & Hf%elem_of_nil & _)].
  unfold bit, rfc791ctx_init. cbn [r_bits].
  assert (forall k, default 0 (replicate 128 0 !! k) = 0) as ->; [|by rewrite Z.testbit_0_l].
  intros k. destruct (replicate 128 0 !! k) eqn:E; [|done]. by apply lookup_replicate in E as [-> _].
Qed.

Lemma rfc791_add_inv ps ctx p :
  rfc791_inv ps ctx -> packet_ok p -> returns (rfc791ctx_add ctx p) (rfc791_inv (ps ++ [p])).
Proof.
  intros (Hpl & Hl & Hb & Hi) Hp. unfold rfc791ctx_add.
  rewrite frag_range_ok by done. cbn [mbind outcome_bind]. rewrite Hpl.
  unfold rfc791_inv. rewrite frags_of_snoc.
  destruct (frag_of p) as [f|] eqn:Ef; [|by apply returns_ret].
  pose proof (frag_of_ok p f (proj1 Hp) Ef) as Hf. destruct f as [[df dl] more]. simpl in Hf.
  destruct (rfc791_mark_ok (r_bits ctx) df dl Hb) as (bits' & -> & Hb' & Hi'); [lia|lia|].
  cbn [mbind outcome_bind]. apply returns_ret. cbn [r_packets r_last r_bits].
  split; [done|]. split; [by rewrite last_of_app, Hl|]. split; [done|].
  intros i Hi0. rewrite Hi', marked_snoc, <- Hi by done.
  rewrite orb_true_iff, andb_true_iff, Z.leb_le, Z.ltb_lt. done.
Qed.

(** What completion tests: every block before that of the last byte, and not
    that block itself. *)
Lemma rfc791_complete_bits ctx :
  bits_ok (r_bits ctx) -> 0 <= r_last ctx <= 65535 ->
  exists b, rfc791ctx_complete ctx = Ret b /\
    (b = true <-> r_last ctx <> 65535 /\ bit (r_bits ctx) (r_last ctx / 8) = false /\
      forall i, 0 <= i < r_last ctx / 8 -> bit (r_bits ctx) i = true).
Proof.
  intros Hb Hr. unfold rfc791ctx_complete. set (lb := r_last ctx / 8).
  destruct (Z.eqb_spec (r_last ctx) 65535) as [->|Hne].
  { exists false. split; [done|]. naive_solver. }
  assert (0 <= lb < 8192) as Hlb by (unfold lb; lia). clearbody lb.
  destruct (words_full_ok (r_bits ctx) (Z.to_nat (lb / 64)) 0 Hb) as (full & -> & Hfull); [lia|lia|].
  cbn [mbind outcome_bind]. rewrite Z2Nat.id, Z.mul_0_l, Z.add_0_l in Hfull by lia.
  destruct (get_word_ok (r_bits ctx) (lb / 64) Hb) as (w & E & -> & Hw); [lia|].
  assert (forall n, 0 <= n < 64 -> bit (r_bits ctx) (lb / 64 * 64 + n) = Z.testbit w n) as Hbw.
  { intros n Hn. apply bit_word; [done|lia|done]. }
  destruct full; cbn [negb mbind outcome_bind].
  - eexists. split; [done|]. rewrite Z.eqb_eq, ffsll_lnot by (done || lia).
    assert (bit (r_bits ctx) lb = Z.testbit w (lb mod 64)) as ->.
    { rewrite <- Hbw by lia. f_equal. lia. }
    split.
    + intros [Hf Hall]. split; [done|]. split; [done|]. intros i Hi.
      destruct (decide (i < lb / 64 * 64)); [apply (proj1 Hfull eq_refl); lia|].
      replace i with (lb / 64 * 64 + (i - lb / 64 * 64)) by lia. rewrite Hbw by lia. apply Hall. lia.
    + intros (_ & Hf & Hall). split; [done|]. intros j Hj. rewrite <- Hbw by lia. apply Hall. lia.
  - exists false. split; [done|]. split; [done|]. intros (_ & _ & Hall).
    apply Hfull. intros i Hi. apply Hall. lia.
Qed.

#[export] Instance rfc791_reassembler : Reassembler rfc791ctx := {|
  ra_init := rfc791ctx_init; ra_add := rfc791ctx_add; ra_complete := rfc791ctx_complete;
  ra_packets := r_packets; ra_last := r_last |}.

(** Histories the bitmap is made for: the datagram does not end on a block
    boundary, no fragment reaches past its end, and every fragment starts on
    a block boundary and ends on one or at the end of the datagram. *)
Definition blocks_fit (fs : list frag) : Prop :=
  (last_of fs + 1) mod 8 <> 0 /\
  forall a b more, (a, b, more) ∈ fs ->
    a mod 8 = 0 /\ b <= last_of fs /\ ((b + 1) mod 8 = 0 \/ b = last_of fs).

Lemma blocks_fit_complete fs :
  Forall frag_ok fs -> blocks_fit fs ->
  (last_of fs <> 65535 /\ ~ marked fs (last_of fs / 8) /\
   forall i, 0 <= i < last_of fs / 8 -> marked fs i) <-> datagram_complete fs.
Proof.
  intros Hok [Hm Hfit]. pose proof (last_of_range fs Hok) as Hr.
  assert (last_of fs <> 65535) as Hne by lia.
  destruct (last_of_claimed fs) as [|[a0 Ha0]]; [done|].
  destruct (Hfit _ _ _ Ha0) as (H8 & _). rewrite list.Forall_forall in Hok.
  assert (~ marked fs (last_of fs / 8)) as Hnm.
  { intros ([[a b] more] & Hin & Hi). destruct (Hfit _ _ _ Hin) as (? & ? & ?). lia. }
  split.
  - intros (_ & _ & Hall) i Hi. destruct (decide (i < last_of fs / 8 * 8)).
    + destruct (Hall (i / 8)) as ([[a b] more] & Hin & Hb); [lia|].
      destruct (Hfit _ _ _ Hin) as (? & ? & ?). exists (a, b, more). split; [done|]. simpl. lia.
    + exists (a0, last_of fs, false). split; [done|].
      pose proof (Hok _ Ha0) as Hoka. simpl in *. lia.
  - intros Hc. split; [done|]. split; [done|]. intros i Hi.
    destruct (Hc (i * 8)) as ([[a b] more] & Hin & Hb); [lia|].
    destruct (Hfit _ _ _ Hin) as (? & ? & ?). exists (a, b, more). split; [done|]. simpl in Hb. lia.
Qed.

Lemma rfc791_complete_spec ps ctx :
  rfc791_inv ps ctx -> Forall packet_ok ps -> blocks_fit (frags_of ps) ->
  returns (rfc791ctx_complete ctx) (fun b => b = true <-> datagram_complete (frags_of ps)).
Proof.
  intros (_ & Hl & Hb & Hi) Hps Hfit. pose proof (frags_of_ok ps Hps) as Hok.
  pose proof (last_of_range _ Hok) as Hr.
  destruct (rfc791_complete_bits ctx Hb) as (b & -> & Hiff); [by rewrite Hl|].
  apply returns_ret. rewrite Hiff, Hl, <- blocks_fit_complete by done.
  rewrite <- (Hi (last_of (frags_of ps) / 8)) by lia. rewrite not_true_iff_false.
  split; intros (? & ? & Hall); (split; [done|]); (split; [done|]); intros i Hi0;
    [apply Hi; [lia|auto]|apply Hi; [lia|auto]].
Qed.

#[export] Instance rfc791_laws : ReassemblerLaws rfc791ctx blocks_fit.
Proof.
  intros ps Hps Hfit. eapply returns_impl;
    [apply (ra_add_all_inv rfc791_inv) with (qs := []);
      [exact rfc791_add_inv|exact rfc791_init_inv|exact Hps]|].
  intros ctx Hinv. pose proof Hinv as (Hpl & Hl & _).
  split; [done|]. split; [done|]. by apply (rfc791_complete_spec ps).
Qed.
End rfc791_inv.

(** ** Properties *)

(** C32: the bitmap and the hole list agree.  On every history of packets of which
    the datagram's length is not a multiple of eight, every fragment starts on a
    block of eight bytes, none goes past the end of the datagram and those that do
    not reach it end with a block, the bitmap context reports completion exactly
    when the hole-list context does, and reassembles to the same frame. *)
Theorem rfc791_agrees_with_hole_list `{Host} {A} `{Allocif A} ps (loc : A) :
  Forall packet_ok ps -> blocks_fit (frags_of ps) ->
  returns (ra_add_all rfc791ctx_init ps) (fun c =>
    returns (ra_add_all reassctx_init ps) (fun ctx =>
      rfc791ctx_complete c = Ret (reassctx_complete ctx) /\
      rfc791ctx_reassemble loc c = reassctx_reassemble loc ctx)).
Proof.
  intros Hps Hfit.
  eapply returns_impl; [exact (ra_history (C := rfc791ctx) (dom := blocks_fit) ps Hps Hfit)|].
  intros c (Hp1 & Hl1 & b1 & Hb1 & Hc1).
  eapply returns_impl; [exact (ra_history (C := reassctx) (dom := fun _ => True) ps Hps I)|].
  intros ctx (Hp2 & Hl2 & b2 & Hb2 & Hc2). simpl in *. injection Hb2 as <-.
  split; [|unfold rfc791ctx_reassemble, reassctx_reassemble; congruence].
  rewrite Hb1. f_equal. apply Bool.eq_iff_eq_true. tauto.
Qed.

Lemma blocks_fit_check fs :
  negb ((last_of fs + 1) mod 8 =? 0) &&
  forallb (fun '(a, b, _) => (a mod 8 =? 0) && (b <=? last_of fs) &&
    (((b + 1) mod 8 =? 0) || (b =? last_of fs))) fs = true -> blocks_fit fs.
Proof.
  rewrite andb_true_iff, negb_true_iff, Z.eqb_neq. intros [Hm Hall]. split; [done|].
  intros a b more Hin%list_elem_of_In. rewrite forallb_forall in Hall.
  specialize (Hall _ Hin). simpl in Hall.
  rewrite !andb_true_iff, orb_true_iff, !Z.eqb_eq, Z.leb_le in Hall. tauto.
Qed.

Lemma rfc791_agrees_with_hole_list_witness :
  returns (ra_add_all (H := rfc791_reassembler (H := little_endian_host)) rfc791ctx_init sample_frags)
    (fun c => returns (ra_add_all (H := reassctx_reassembler (H := little_endian_host))
                         reassctx_init sample_frags) (fun ctx =>
      rfc791ctx_complete c = Ret (reassctx_complete ctx) /\
      rfc791ctx_reassemble (H := little_endian_host) 1000 c =
        reassctx_reassemble (H := little_endian_host) 1000 ctx)).
Proof.
  apply (@rfc791_agrees_with_hole_list little_endian_host Z _ sample_frags 1000).
  - do 3 (apply Forall_cons; [apply packet_ok_check; vm_compute; reflexivity|]). apply Forall_nil.
  - apply blocks_fit_check. vm_compute. reflexivity.
Defined.

(** C33: a datagram whose length is a multiple of eight is never reported
    complete by the bitmap context, whatever has arrived: the test asks that
    the block of the last byte is not marked, and the final fragment marks
    it. *)
Theorem rfc791_misses_whole_blocks `{Host} ps :
  Forall packet_ok ps -> (last_of (frags_of ps) + 1) mod 8 = 0 ->
  returns (ra_add_all rfc791ctx_init ps) (fun c => rfc791ctx_complete c = Ret false).
Proof.
  intros Hps H8. eapply returns_impl;
    [apply (ra_add_all_inv rfc791_inv) with (qs := []);
      [exact rfc791_add_inv|exact rfc791_init_inv|exact Hps]|].
  intros c (_ & Hl & Hb & Hi). pose proof (frags_of_ok ps Hps) as Hok.
  pose proof (last_of_range _ Hok) as Hr.
  destruct (rfc791_complete_bits c Hb) as ([|] & -> & Hiff); [by rewrite Hl| |done].
  destruct (proj1 Hiff eq_refl) as (Hne & Hf & _). rewrite Hl in Hne, Hf.
  destruct (last_of_claimed (frags_of ps)) as [|[a Ha]]; [done|].
  rewrite list.Forall_forall in Hok. pose proof (Hok _ Ha) as Hoka. simpl in Hoka, Hf.
  assert (bit (r_bits c) (last_of (frags_of ps) / 8) = true) as Ht; [|by rewrite Hf in Ht].
  apply Hi; [lia|]. exists (a, last_of (frags_of ps), false). split; [done|]. lia.
Qed.

(** All sixteen bytes are there. *)
Definition whole_block_frags : list packet :=
  [sample_frag 0 8 true sample_data; sample_frag 8 8 false sample_data].

Lemma rfc791_misses_whole_blocks_witness :
  last_of (frags_of whole_block_frags) = 15 /\
  returns (ra_add_all (H := rfc791_reassembler (H := little_endian_host)) rfc791ctx_init
             whole_block_frags) (fun c => rfc791ctx_complete c = Ret false).
Proof.
  split; [vm_compute; reflexivity|].
  apply (@rfc791_misses_whole_blocks little_endian_host whole_block_frags).
  - do 2 (apply Forall_cons; [apply packet_ok_check; vm_compute; reflexivity|]). apply Forall_nil.
  - vm_compute. reflexivity.
Defined.
