(* ===== verification/Queue.v ===== *)
(** The blocking ring buffer of queue/queue.h and queue/queue.c.

    The buffer and its index arithmetic are plain functions; the threads that
    call the queue are a step machine.  A step is one statement group of the
    source: a lock, a test of the loop condition with the wait or the transfer
    it leads to, a broadcast, an unlock.  [pthread_cond_wait] releases the
    mutex and blocks in one step, may wake up spuriously, and takes the mutex
    again before it returns. *)
From S2P Require Import Prelude.

(** ** The ring *)

(** Items are pointers; [NULL] is 0. *)
Record queue := { buf : list Z; bufsiz : Z; start : Z; end_ : Z }.

Definition queue_is_empty (q : queue) : bool := start q =? end_ q.

Definition queue_is_full (q : queue) : bool :=
  let end_plus_1 := u64 (end_ q + 1) in
  let end_plus_1 := if end_plus_1 >=? bufsiz q then 0 else end_plus_1 in
  start q =? end_plus_1.

Definition buf_get (b : list Z) (i : Z) : outcome Z := of_option (b !! Z.to_nat i).
Definition buf_set (b : list Z) (i x : Z) : outcome (list Z) :=
  if (0 <=? i) && (i <? Z.of_nat (length b)) then Ret (<[Z.to_nat i := x]> b) else Undef.

(** [queue->buf[queue->end++] = item], with the wrap-around. *)
Definition queue_put (q : queue) (item : Z) : outcome queue :=
  b ← buf_set (buf q) (end_ q) item;
  let e := u64 (end_ q + 1) in
  Ret {| buf := b; bufsiz := bufsiz q; start := start q;
         end_ := if e >=? bufsiz q then 0 else e |}.

(** [item = queue->buf[queue->start]; queue->buf[queue->start++] = NULL], with
    the wrap-around. *)
Definition queue_take (q : queue) : outcome (queue * Z) :=
  item ← buf_get (buf q) (start q);
  b ← buf_set (buf q) (start q) 0;
  let s := u64 (start q + 1) in
  Ret ({| buf := b; bufsiz := bufsiz q; start := if s >=? bufsiz q then 0 else s; end_ := end_ q |}, item).

(** The results of [malloc] and of the three pthread initialisers are
    arguments.  The result of [malloc] is not tested: with [None] the queue
    has no buffer, and every access to it is out of range. *)
Definition queue_init (bufsz : Z) (malloc : option (list Z)) (mtx_init cond1_init cond2_init : Z)
    : queue * Z :=
  let b := default [] malloc in
  let failed := ({| buf := []; bufsiz := 0; start := 0; end_ := 0 |}, -12) in
  if negb (mtx_init =? 0) then failed
  else if negb (cond1_init =? 0) then failed
  else if negb (cond2_init =? 0) then failed
  else ({| buf := b; bufsiz := bufsz; start := 0; end_ := 0 |}, 0).

(** ** Threads *)

Inductive cond := Full | Empty.
#[export] Instance cond_eq_dec : EqDecision cond.
Proof. solve_decision. Defined.

Inductive call : Type :=
  | queue_enq_one (item : Z)
  | queue_deq_one
  | queue_enq_many (items : list Z)
  | queue_deq_many (sz : Z)
  | queue_timeddeq_many (sz : Z).

(** Where a thread is in a call. *)
Inductive pc : Type :=
  | Lock (c : call)                              (** before taking the mutex *)
  | Check (c : call)                             (** at the [while] loop that tests the queue *)
  | Wait (cv : cond) (c : call)                  (** inside [pthread_cond_wait] *)
  | TimedOut                                     (** [pthread_cond_timedwait] takes the mutex back *)
  | Taking (was_full : bool) (out : list Z) (sz : Z)   (** the transfer loop of a [deq_many] *)
  | Broadcast (cv : cond) (k : pc)
  | Unlock (r : list Z)
  | Idle.

Record thread := { th_pc : pc; th_todo : list call; th_out : list (list Z) }.

(** [puts] and [takes] record who transferred which item, in order. *)
Record state := {
  st_queue : queue;
  owner : option nat;
  threads : gmap nat thread;
  puts : list (nat * Z);
  takes : list (nat * Z)
}.

Definition set_pc (p : pc) (th : thread) : thread :=
  {| th_pc := p; th_todo := th_todo th; th_out := th_out th |}.
Definition goto (t : nat) (p : pc) (s : state) : state :=
  {| st_queue := st_queue s; owner := owner s; threads := alter (set_pc p) t (threads s);
     puts := puts s; takes := takes s |}.
Definition set_owner (o : option nat) (s : state) : state :=
  {| st_queue := st_queue s; owner := o; threads := threads s; puts := puts s; takes := takes s |}.

(** [pthread_cond_broadcast]: every waiting thread goes for the mutex. *)
Definition wake (cv : cond) (th : thread) : thread :=
  match th_pc th with
  | Wait cv' c => if decide (cv = cv') then set_pc (Lock c) th else th
  | _ => th
  end.
Definition cond_broadcast (cv : cond) (s : state) : state :=
  {| st_queue := st_queue s; owner := owner s; threads := wake cv <$> threads s;
     puts := puts s; takes := takes s |}.

(** [pthread_cond_wait]: gives the mutex back and blocks. *)
Definition cond_wait (t : nat) (cv : cond) (c : call) (s : state) : state :=
  set_owner None (goto t (Wait cv c) s).

(** One item in, with the broadcast when the queue was empty; then [k]. *)
Definition enq (t : nat) (item : Z) (k : pc) (s : state) : outcome state :=
  let was_empty := queue_is_empty (st_queue s) in
  q ← queue_put (st_queue s) item;
  Ret (goto t (if was_empty then Broadcast Empty k else k)
    {| st_queue := q; owner := owner s; threads := threads s;
       puts := puts s ++ [(t, item)]; takes := takes s |}).

Definition take_one (t : nat) (k : Z -> pc) (s : state) : outcome state :=
  r ← queue_take (st_queue s);
  let '(q, item) := (r : queue * Z) in
  Ret (goto t (k item)
    {| st_queue := q; owner := owner s; threads := threads s;
       puts := puts s; takes := takes s ++ [(t, item)] |}).

(** The statements at the head of each call, with the mutex held. *)
Definition check (t : nat) (c : call) (s : state) : outcome state :=
  let full := queue_is_full (st_queue s) in
  let empty := queue_is_empty (st_queue s) in
  match c with
  | queue_enq_one item =>
      if full then Ret (cond_wait t Full c s) else enq t item (Unlock []) s
  | queue_enq_many [] => Ret (goto t (Unlock []) s)
  | queue_enq_many (item :: items) =>
      if full then Ret (cond_wait t Full c s)
      else enq t item (Check (queue_enq_many items)) s
  | queue_deq_one =>
      if empty then Ret (cond_wait t Empty c s)
      else take_one t (fun item =>
        if full then Broadcast Full (Unlock [item]) else Unlock [item]) s
  | queue_deq_many sz | queue_timeddeq_many sz =>
      if empty then Ret (cond_wait t Empty c s) else Ret (goto t (Taking full [] sz) s)
  end.

Definition taking (t : nat) (was_full : bool) (out : list Z) (sz : Z) (s : state) : outcome state :=
  if negb (queue_is_empty (st_queue s)) && (Z.of_nat (length out) <? sz)
  then take_one t (fun item => Taking was_full (out ++ [item]) sz) s
  else Ret (goto t (if was_full then Broadcast Full (Unlock out) else Unlock out) s).

(** The call returns [r]; the thread goes on with its next call. *)
Definition return_ (r : list Z) (th : thread) : thread :=
  match th_todo th with
  | [] => {| th_pc := Idle; th_todo := []; th_out := th_out th ++ [r] |}
  | c :: cs => {| th_pc := Lock c; th_todo := cs; th_out := th_out th ++ [r] |}
  end.
Definition unlock (t : nat) (r : list Z) (s : state) : state :=
  {| st_queue := st_queue s; owner := None; threads := alter (return_ r) t (threads s);
     puts := puts s; takes := takes s |}.

(** What the scheduler may pick for a thread: its next statement, a wake-up
    without a broadcast, the expiry of a timed wait, or a pthread function
    that reports an error. *)
Inductive event := Run | Spurious | Timeout | Error.

Definition calls_pthread (p : pc) : bool :=
  match p with Lock _ | Wait _ _ | TimedOut | Broadcast _ _ | Unlock _ => true | _ => false end.

(** [None]: the thread cannot do that now. *)
Definition step (s : state) (t : nat) (e : event) : option (outcome state) :=
  th ← threads s !! t;
  match e, th_pc th with
  | Run, Lock c => if decide (owner s = None) then Some (Ret (set_owner (Some t) (goto t (Check c) s))) else None
  | Run, TimedOut =>
      if decide (owner s = None) then Some (Ret (set_owner (Some t) (goto t (Unlock []) s))) else None
  | Run, Check c => Some (check t c s)
  | Run, Taking was_full out sz => Some (taking t was_full out sz s)
  | Run, Broadcast cv k => Some (Ret (goto t k (cond_broadcast cv s)))
  | Run, Unlock r => Some (Ret (unlock t r s))
  | Spurious, Wait _ c => Some (Ret (goto t (Lock c) s))
  | Timeout, Wait _ (queue_timeddeq_many _) => Some (Ret (goto t TimedOut s))
  | Error, p => if calls_pthread p then Some Abort else None
  | _, _ => None
  end.

(** The states a program can reach: each thread runs a list of calls. *)
Definition thread_init (cs : list call) : thread :=
  match cs with
  | [] => {| th_pc := Idle; th_todo := []; th_out := [] |}
  | c :: cs => {| th_pc := Lock c; th_todo := cs; th_out := [] |}
  end.
Definition state_init (q : queue) (prog : gmap nat (list call)) : state :=
  {| st_queue := q; owner := None; threads := thread_init <$> prog; puts := []; takes := [] |}.

Inductive reachable (q : queue) (prog : gmap nat (list call)) : state -> Prop :=
  | reach_init : reachable q prog (state_init q prog)
  | reach_step s t e s' :
      reachable q prog s -> step s t e = Some (Ret s') -> reachable q prog s'.

(** A schedule, for running programs. *)
Fixpoint run (s : state) (sched : list (nat * event)) : option (outcome state) :=
  match sched with
  | [] => Some (Ret s)
  | (t, e) :: sched => o ← step s t e; match o with Ret s => run s sched | o => Some o end
  end.

(** ** What the ring holds *)

Definition queue_wf (q : queue) : Prop :=
  1 <= bufsiz q < 2 ^ 64 /\ Z.of_nat (length (buf q)) = bufsiz q /\
  0 <= start q < bufsiz q /\ 0 <= end_ q < bufsiz q.

(** The slot [i] places after the first item. *)
Definition slot (q : queue) (i : Z) : Z := (start q + i) mod bufsiz q.
Definition count (q : queue) : Z := (end_ q - start q) mod bufsiz q.
Definition contents (q : queue) : list Z :=
  (fun i => buf q !!! Z.to_nat (slot q i)) <$> seqZ 0 (count q).

Section ring.
Context (q : queue) (Hwf : queue_wf q).

Lemma wrap_next x : 0 <= x < bufsiz q ->
  (if u64 (x + 1) >=? bufsiz q then 0 else u64 (x + 1)) = (x + 1) mod bufsiz q.
Proof using Hwf.
  intros Hx. destruct Hwf as (H1 & _). change (2 ^ 64) with 18446744073709551616 in H1.
  rewrite u64_small by lia. rewrite Z.geb_leb. destruct (Z.leb_spec (bufsiz q) (x + 1)).
  - replace (x + 1) with (bufsiz q) by lia. by rewrite Z_mod_same_full.
  - symmetry. apply Z.mod_small. lia.
Qed.

Lemma count_range : 0 <= count q < bufsiz q.
Proof using Hwf. destruct Hwf as (H1 & _). apply Z.mod_pos_bound. lia. Qed.

Lemma length_contents : Z.of_nat (length (contents q)) = count q.
Proof using Hwf. unfold contents. rewrite length_fmap, length_seqZ. pose proof count_range. lia. Qed.

(** The distance between the two indices, with the wrap written out. *)
Lemma count_cases :
  count q = if start q <=? end_ q then end_ q - start q else end_ q - start q + bufsiz q.
Proof using Hwf.
  destruct Hwf as (H1 & _ & H2 & H3). unfold count. destruct (Z.leb_spec (start q) (end_ q)).
  - apply Z.mod_small. lia.
  - rewrite <- (Z_mod_plus_full _ 1). rewrite Z.mul_1_l. apply Z.mod_small. lia.
Qed.

Lemma mod_cases x n : 0 < n -> 0 <= x < 2 * n -> x mod n = if x <? n then x else x - n.
Proof using Type.
  intros Hn Hx. destruct (Z.ltb_spec x n); [apply Z.mod_small; lia|].
  replace x with (x - n + 1 * n) at 1 by lia. rewrite Z_mod_plus_full. apply Z.mod_small. lia.
Qed.

Lemma is_empty_count : queue_is_empty q = (count q =? 0).
Proof using Hwf.
  unfold queue_is_empty. rewrite count_cases. destruct Hwf as (H1 & _ & H2 & H3).
  destruct (Z.leb_spec (start q) (end_ q)), (Z.eqb_spec (start q) (end_ q)); symmetry;
    rewrite ?Z.eqb_eq, ?Z.eqb_neq; lia.
Qed.

Lemma is_full_count : queue_is_full q = (count q =? bufsiz q - 1).
Proof using Hwf.
  unfold queue_is_full. destruct Hwf as (H1 & _ & H2 & H3). rewrite wrap_next by done.
  rewrite count_cases, mod_cases by lia.
  destruct (Z.leb_spec (start q) (end_ q)), (Z.ltb_spec (end_ q + 1) (bufsiz q));
    [destruct (Z.eqb_spec (start q) (end_ q + 1))|destruct (Z.eqb_spec (start q) (end_ q + 1 - bufsiz q))
    |destruct (Z.eqb_spec (start q) (end_ q + 1))|destruct (Z.eqb_spec (start q) (end_ q + 1 - bufsiz q))];
    symmetry; rewrite ?Z.eqb_eq, ?Z.eqb_neq; lia.
Qed.

Lemma slot_range i : 0 <= slot q i < bufsiz q.
Proof using Hwf. destruct Hwf as (H1 & _). apply Z.mod_pos_bound. lia. Qed.

Lemma put_ok x :
  queue_is_full q = false ->
  exists q', queue_put q x = Ret q' /\ queue_wf q' /\ bufsiz q' = bufsiz q /\
    contents q' = contents q ++ [x].
Proof using Hwf.
  rewrite is_full_count, Z.eqb_neq. intros Hfull. pose proof count_range as Hc.
  destruct Hwf as (H1 & Hlen & H2 & H3). unfold queue_put, buf_set.
  destruct (Z.leb_spec 0 (end_ q)); [|lia]. destruct (Z.ltb_spec (end_ q) (Z.of_nat (length (buf q)))); [|lia].
  cbn [andb mbind outcome_bind]. rewrite wrap_next by done. eexists. split; [reflexivity|].
  assert (slot q (count q) = end_ q) as Hslot.
  { unfold slot, count. rewrite Z.add_mod_idemp_r by lia.
    replace (start q + (end_ q - start q)) with (end_ q) by lia. by apply Z.mod_small. }
  set (q' := Build_queue _ _ _ _).
  assert (count q' = count q + 1) as Hcount.
  { unfold count, q'; simpl. rewrite Zminus_mod_idemp_l.
    replace (end_ q + 1 - start q) with (end_ q - start q + 1) by lia.
    rewrite <- Zplus_mod_idemp_l. apply Z.mod_small. unfold count in *. lia. }
  split; [|split; [done|]].
  - unfold queue_wf, q'; simpl. rewrite length_insert. repeat split; try lia;
      apply Z.mod_pos_bound; lia.
  - unfold contents. rewrite Hcount, seqZ_app, fmap_app by lia. f_equal.
    + apply list_fmap_ext. intros i y Hi. apply lookup_seqZ in Hi as [-> Hi]. rewrite Z.add_0_l.
      change (slot q' (Z.of_nat i)) with (slot q (Z.of_nat i)). unfold q'; simpl.
      rewrite list_lookup_total_insert_ne; [done|]. pose proof (slot_range (Z.of_nat i)).
      intros E. apply (f_equal Z.of_nat) in E. rewrite !Z2Nat.id in E by lia.
      rewrite <- Hslot in E. unfold slot in E. pose proof Hc.
      rewrite !mod_cases in E by lia.
      destruct (Z.ltb_spec (start q + count q) (bufsiz q)), (Z.ltb_spec (start q + Z.of_nat i) (bufsiz q)); lia.
    + change (buf q' !!! Z.to_nat (slot q (0 + count q)) :: [] = [x]). rewrite Z.add_0_l, Hslot.
      unfold q'; simpl. rewrite list_lookup_total_insert_eq by lia. done.
Qed.

Lemma take_ok :
  queue_is_empty q = false ->
  exists q' x, queue_take q = Ret (q', x) /\ queue_wf q' /\ bufsiz q' = bufsiz q /\
    contents q = x :: contents q'.
Proof using Hwf.
  rewrite is_empty_count, Z.eqb_neq. intros Hempty. pose proof count_range as Hc.
  destruct Hwf as (H1 & Hlen & H2 & H3). unfold queue_take, buf_get, buf_set.
  destruct (lookup_lt_is_Some_2 (buf q) (Z.to_nat (start q))) as [x Hx]; [lia|]. rewrite Hx.
  cbn [of_option mbind outcome_bind].
  destruct (Z.leb_spec 0 (start q)); [|lia]. destruct (Z.ltb_spec (start q) (Z.of_nat (length (buf q)))); [|lia].
  cbn [andb mbind outcome_bind]. rewrite wrap_next by done. eexists _, x. split; [reflexivity|].
  set (q' := Build_queue _ _ _ _).
  assert (slot q 0 = start q) as Hslot.
  { unfold slot. rewrite Z.add_0_r. by apply Z.mod_small. }
  assert (forall i, slot q' i = slot q (i + 1)) as Hslot'.
  { intros i. unfold slot, q'; simpl. rewrite Zplus_mod_idemp_l. f_equal. lia. }
  assert (count q' = count q - 1) as Hcount.
  { unfold count, q'; simpl. rewrite Zminus_mod_idemp_r.
    replace (end_ q - (start q + 1)) with (end_ q - start q - 1) by lia.
    rewrite <- Zminus_mod_idemp_l. apply Z.mod_small. unfold count in *. lia. }
  split; [|split; [done|]].
  - unfold queue_wf, q'; simpl. rewrite length_insert. repeat split; try lia;
      apply Z.mod_pos_bound; lia.
  - unfold contents. rewrite Hcount. rewrite (seqZ_cons 0 (count q)) by lia. rewrite fmap_cons. f_equal.
    + rewrite Hslot. by apply list_lookup_total_correct.
    + change (Z.succ 0) with (1 + 0). rewrite <- Z.sub_1_r.
      rewrite <- (fmap_add_seqZ 1 0), <- list_fmap_compose.
      apply list_fmap_ext. intros i y Hi. apply lookup_seqZ in Hi as [-> Hi]. rewrite Z.add_0_l.
      cbn [compose]. rewrite Hslot', (Z.add_comm (Z.of_nat i)). unfold q'; simpl.
      rewrite list_lookup_total_insert_ne; [done|]. pose proof (slot_range (1 + Z.of_nat i)).
      intros E. apply (f_equal Z.of_nat) in E. rewrite !Z2Nat.id in E by lia.
      rewrite <- Hslot in E. unfold slot in E. rewrite !mod_cases in E by lia.
      destruct (Z.ltb_spec (start q + 0) (bufsiz q)), (Z.ltb_spec (start q + (1 + Z.of_nat i)) (bufsiz q)); lia.
Qed.
End ring.

(** ** The invariant *)

Definition holds_mutex (p : pc) : bool :=
  match p with Check _ | Taking _ _ _ | Broadcast _ _ | Unlock _ => true | _ => false end.

Definition cond_holds (cv : cond) (q : queue) : bool :=
  match cv with Full => queue_is_full q | Empty => queue_is_empty q end.

(** The thread is past the change of the queue and before the broadcast. *)
Definition will_broadcast (cv : cond) (p : pc) : bool :=
  match p with
  | Broadcast cv' _ => bool_decide (cv = cv')
  | Taking was_full _ _ => was_full && bool_decide (cv = Full)
  | _ => false
  end.

Definition waits_on (cv : cond) (p : pc) : bool :=
  match p with Wait cv' _ => bool_decide (cv = cv') | _ => false end.

(** The items a call puts in, and what it may return. *)
Definition call_items (c : call) : list Z :=
  match c with queue_enq_one x => [x] | queue_enq_many l => l | _ => [] end.
Definition result_ok (c : call) (r : list Z) : Prop :=
  match c with
  | queue_enq_one _ | queue_enq_many _ => r = []
  | queue_deq_one => length r = 1%nat
  | queue_deq_many sz => Z.of_nat (length r) <= Z.max 0 sz /\ (1 <= sz -> r <> [])
  | queue_timeddeq_many sz => Z.of_nat (length r) <= Z.max 0 sz
  end.

(** Items still to be put in, and items taken but not returned yet. *)
Fixpoint pending (p : pc) : list Z :=
  match p with
  | Lock c | Check c | Wait _ c => call_items c
  | Broadcast _ k => pending k
  | _ => []
  end.
Fixpoint taken (p : pc) : list Z :=
  match p with
  | Taking _ out _ => out
  | Unlock r => r
  | Broadcast _ k => taken k
  | _ => []
  end.

(** [p] is a place in the call [c]; [c'] is what is left of it. *)
Definition rest_of (c c' : call) : Prop :=
  c' = c \/ exists l l', c = queue_enq_many l /\ c' = queue_enq_many l'.
Definition waits_for (cv : cond) (c : call) : Prop :=
  match cv, c with
  | Full, queue_enq_one _ | Full, queue_enq_many (_ :: _) => True
  | Empty, queue_deq_one | Empty, queue_deq_many _ | Empty, queue_timeddeq_many _ => True
  | _, _ => False
  end.
Definition at_call (c : call) (p : pc) : Prop :=
  match p with
  | Lock c' | Check c' => rest_of c c'
  | Wait cv c' => rest_of c c' /\ waits_for cv c'
  | TimedOut => exists sz, c = queue_timeddeq_many sz
  | Taking _ out sz =>
      (c = queue_deq_many sz \/ c = queue_timeddeq_many sz) /\ Z.of_nat (length out) <= Z.max 0 sz
  | Broadcast _ k =>
      match k with Check c' => rest_of c c' /\ exists l, c = queue_enq_many l
                 | Unlock r => result_ok c r | _ => False end
  | Unlock r => result_ok c r
  | Idle => False
  end.

Definition by_thread (t : nat) (l : list (nat * Z)) : list Z := snd <$> filter (fun x => x.1 = t) l.

(** What a thread has done of its program. *)
Definition progress (prog : list call) (th : thread) : Prop :=
  exists done_ cur, prog = done_ ++ cur ++ th_todo th /\ Forall2 result_ok done_ (th_out th) /\
    match cur with
    | [] => th_pc th = Idle /\ th_todo th = []
    | [c] => at_call c (th_pc th)
    | _ => False
    end.

Definition accounts (prog : list call) (pu ta : list Z) (th : thread) : Prop :=
  pu ++ pending (th_pc th) ++ concat (call_items <$> th_todo th) = concat (call_items <$> prog) /\
  ta = concat (th_out th) ++ taken (th_pc th).

Definition thread_inv (prog : list call) (pu ta : list Z) (th : thread) : Prop :=
  progress prog th /\ accounts prog pu ta th.

(** A transfer starts on a queue with items and remembers whether it was full. *)
Definition taking_ok (was_full : bool) (out : list Z) (q : queue) : Prop :=
  (out = [] -> queue_is_empty q = false) /\ (queue_is_full q = true -> was_full = true).

Record invariant (N : Z) (prog : gmap nat (list call)) (s : state) : Prop := {
  inv_wf : queue_wf (st_queue s);
  inv_size : bufsiz (st_queue s) = N;
  inv_owner t : owner s = Some t -> is_Some (threads s !! t);
  inv_mutex t th : threads s !! t = Some th -> holds_mutex (th_pc th) = true <-> owner s = Some t;
  inv_wakeup t th cv : threads s !! t = Some th -> waits_on cv (th_pc th) = true ->
    cond_holds cv (st_queue s) = true \/
    exists t' th', threads s !! t' = Some th' /\ will_broadcast cv (th_pc th') = true;
  inv_taking t th w out sz : threads s !! t = Some th -> th_pc th = Taking w out sz ->
    taking_ok w out (st_queue s);
  inv_fifo : snd <$> puts s = (snd <$> takes s) ++ contents (st_queue s);
  inv_thread t th : threads s !! t = Some th -> exists cs, prog !! t = Some cs /\
    thread_inv cs (by_thread t (puts s)) (by_thread t (takes s)) th;
  inv_dom t : is_Some (prog !! t) -> is_Some (threads s !! t)
}.

Section preservation.
Context (N : Z) (prog : gmap nat (list call)) (s : state) (HI : invariant N prog s).
Context (t : nat) (th : thread) (Ht : threads s !! t = Some th).

(** Thread [t] moves; the other threads stay where they are. *)
Lemma inv_update th' q' o' pu ta :
  queue_wf q' -> bufsiz q' = N ->
  o' = (if holds_mutex (th_pc th') then Some t else if holds_mutex (th_pc th) then None else owner s) ->
  (holds_mutex (th_pc th') = true -> holds_mutex (th_pc th) = true \/ owner s = None) ->
  (q' = st_queue s \/ holds_mutex (th_pc th) = true) ->
  (forall cv, (exists t2 th2, t2 <> t /\ threads s !! t2 = Some th2 /\ waits_on cv (th_pc th2) = true) ->
    cond_holds cv (st_queue s) = true \/ will_broadcast cv (th_pc th) = true ->
    cond_holds cv q' = true \/ will_broadcast cv (th_pc th') = true) ->
  (forall cv, waits_on cv (th_pc th') = true -> cond_holds cv q' = true) ->
  (forall w out sz, th_pc th' = Taking w out sz -> taking_ok w out q') ->
  snd <$> pu = (snd <$> ta) ++ contents q' ->
  (exists cs, prog !! t = Some cs /\ thread_inv cs (by_thread t pu) (by_thread t ta) th') ->
  (forall t2, t2 <> t -> by_thread t2 pu = by_thread t2 (puts s) /\ by_thread t2 ta = by_thread t2 (takes s)) ->
  invariant N prog {| st_queue := q'; owner := o'; threads := <[t := th']> (threads s); puts := pu; takes := ta |}.
Proof using HI Ht.
  intros Hwf HN Ho Hh Hq Hc Hc' Htk Hf Hth Hby. destruct HI as [I1 I2 I3 I4 I5 I6 I7 I8 I9].
  pose proof (I4 t th Ht) as Hmt. split; simpl; try done.
  - intros t2. rewrite lookup_insert_is_Some'. subst o'.
    destruct (holds_mutex (th_pc th')); [intros [= <-]; by left|].
    destruct (holds_mutex (th_pc th)); [done|]. intros E. right. by apply I3.
  - intros t2 th2. rewrite lookup_insert_Some. intros [[<- <-]|[Hne E]].
    + subst o'. destruct (holds_mutex (th_pc th')); [done|]. split; [done|].
      destruct (holds_mutex (th_pc th)); [done|]. intros E. apply Hmt in E. done.
    + rewrite (I4 t2 th2 E). subst o'.
      destruct (holds_mutex (th_pc th')), (holds_mutex (th_pc th)).
      * rewrite (proj1 Hmt eq_refl). done.
      * destruct (Hh eq_refl) as [?| ->]; [done|]. naive_solver.
      * rewrite (proj1 Hmt eq_refl). naive_solver.
      * done.
  - intros t2 th2 cv. rewrite lookup_insert_Some. intros [[<- <-]|[Hne E]] Hw; [left; by apply Hc'|].
    assert (cond_holds cv (st_queue s) = true \/ will_broadcast cv (th_pc th) = true \/
      exists t3 th3, t3 <> t /\ threads s !! t3 = Some th3 /\ will_broadcast cv (th_pc th3) = true) as Hj.
    { destruct (I5 t2 th2 cv E Hw) as [?|(t3 & th3 & E3 & Hb)]; [by left|].
      destruct (decide (t3 = t)) as [->|]; [right; left; congruence|right; right; by exists t3, th3]. }
    destruct Hj as [?|[?|(t3 & th3 & ? & ? & ?)]].
    + destruct (Hc cv) as [?|?]; [by exists t2, th2|by left|by left|].
      right. exists t, th'. by rewrite lookup_insert_eq.
    + destruct (Hc cv) as [?|?]; [by exists t2, th2|by right|by left|].
      right. exists t, th'. by rewrite lookup_insert_eq.
    + right. exists t3, th3. by rewrite lookup_insert_ne by congruence.
  - intros t2 th2 w out sz. rewrite lookup_insert_Some. intros [[<- <-]|[Hne E]] Hpc; [by eapply Htk|].
    destruct Hq as [->|Hq]; [by eapply I6|]. apply Hmt in Hq.
    assert (owner s = Some t2) by (apply (I4 t2 th2 E); by rewrite Hpc). congruence.
  - intros t2 th2. rewrite lookup_insert_Some. intros [[<- <-]|[Hne E]]; [done|].
    destruct (Hby t2) as [-> ->]; [done|]. by apply I8.
  - intros t2 H2. rewrite lookup_insert_is_Some'. right. by apply I9.
Qed.
End preservation.

Lemma by_thread_snoc_eq t l x : by_thread t (l ++ [(t, x)]) = by_thread t l ++ [x].
Proof. unfold by_thread. rewrite list.filter_app, fmap_app. f_equal. by rewrite filter_cons_True. Qed.
Lemma by_thread_snoc_ne t t2 l x : t2 <> t -> by_thread t2 (l ++ [(t, x)]) = by_thread t2 l.
Proof.
  intros. unfold by_thread. rewrite list.filter_app, fmap_app, filter_cons_False by (simpl; congruence).
  by rewrite filter_nil, app_nil_r.
Qed.

Lemma alter_known {A} (m : gmap nat A) t f x : m !! t = Some x -> alter f t m = <[t := f x]> m.
Proof.
  intros E. apply map_eq. intros i. destruct (decide (i = t)) as [->|].
  - by rewrite lookup_alter_eq, lookup_insert_eq, E.
  - by rewrite lookup_alter_ne, lookup_insert_ne.
Qed.

(** The thread [t] after [goto] and friends, as one insertion. *)
Lemma goto_insert s t p th :
  threads s !! t = Some th ->
  goto t p s = {| st_queue := st_queue s; owner := owner s; threads := <[t := set_pc p th]> (threads s);
                  puts := puts s; takes := takes s |}.
Proof. intros E. unfold goto. f_equal. by apply alter_known. Qed.

(** A thread inside a call moves to [p], putting in the first items of what is
    pending and taking [x] out. *)
Lemma thread_moves cs pu ta th p pu' x :
  thread_inv cs pu ta th -> th_pc th <> Idle -> (forall c, at_call c (th_pc th) -> at_call c p) ->
  pu' ++ pending p = pu ++ pending (th_pc th) -> taken p = taken (th_pc th) ++ x ->
  thread_inv cs pu' (ta ++ x) (set_pc p th).
Proof.
  intros [(dn & cur & Ecs & Hout & Hcur) [Hpu Hta]] Hidle Hat Hp Hx. split.
  - exists dn, cur. split; [done|]. split; [done|]. destruct cur as [|c [|]]; simpl in *; [|auto|done].
    by destruct Hcur.
  - split; simpl; [|by rewrite Hx, Hta, app_assoc].
    rewrite app_assoc, Hp, <- app_assoc. done.
Qed.

Section moves.
Context (N : Z) (prog : gmap nat (list call)) (s : state) (HI : invariant N prog s).
Context (t : nat) (th : thread) (Ht : threads s !! t = Some th) (Hidle : th_pc th <> Idle).

(** A step that leaves the queue alone. *)
Lemma inv_goto p o' :
  (forall c, at_call c (th_pc th) -> at_call c p) ->
  pending p = pending (th_pc th) -> taken p = taken (th_pc th) ->
  o' = (if holds_mutex p then Some t else if holds_mutex (th_pc th) then None else owner s) ->
  (holds_mutex p = true -> holds_mutex (th_pc th) = true \/ owner s = None) ->
  (forall cv, (exists t2 th2, t2 <> t /\ threads s !! t2 = Some th2 /\ waits_on cv (th_pc th2) = true) ->
    will_broadcast cv (th_pc th) = true ->
    cond_holds cv (st_queue s) = true \/ will_broadcast cv p = true) ->
  (forall cv, waits_on cv p = true -> cond_holds cv (st_queue s) = true) ->
  (forall w out sz, p = Taking w out sz -> taking_ok w out (st_queue s)) ->
  invariant N prog (set_owner o' (goto t p s)).
Proof using All.
  intros Hat Hpe Hta Ho Hh Hb Hw Htk. rewrite (goto_insert s t p th Ht). unfold set_owner; simpl.
  apply (inv_update N prog s HI t th Ht); simpl; try done; try (eapply inv_wf, HI); try (eapply inv_size, HI); try (eapply inv_fifo, HI).
  - by left.
  - intros cv Hcv [?|?]; [by left|by apply Hb].
  - destruct (inv_thread _ _ _ HI t th Ht) as (cs & Ecs & Hth). exists cs. split; [done|].
    rewrite <- (app_nil_r (by_thread t (takes s))).
    apply (thread_moves cs (by_thread t (puts s))); [done|done|done|by rewrite Hpe|by rewrite app_nil_r].
Qed.

(** One item in. *)
Lemma inv_enq item k c' :
  th_pc th = Check c' -> queue_is_full (st_queue s) = false ->
  call_items c' = item :: pending k -> taken k = [] ->
  (forall c, rest_of c c' -> at_call c k /\ at_call c (Broadcast Empty k)) ->
  holds_mutex k = true -> (forall w out sz, k <> Taking w out sz) ->
  exists s', enq t item k s = Ret s' /\ invariant N prog s'.
Proof using All.
  intros Hpc Hfull Hitems Htaken Hat Hk Hnt. unfold enq.
  destruct (put_ok _ (inv_wf _ _ _ HI) item Hfull) as (q' & -> & Hwf & HN & Hcont).
  cbn [mbind outcome_bind]. eexists. split; [reflexivity|].
  set (p := if queue_is_empty (st_queue s) then Broadcast Empty k else k).
  rewrite (goto_insert _ t p th) by done. simpl.
  assert (pending p = pending k /\ taken p = taken k /\ holds_mutex p = true) as (Ep & Et & Eh)
    by (unfold p; by destruct (queue_is_empty _)).
  apply (inv_update N prog s HI t th Ht); simpl; try done.
  - by rewrite HN, (inv_size _ _ _ HI).
  - rewrite Eh. apply (inv_mutex _ _ _ HI t th Ht). by rewrite Hpc.
  - rewrite Hpc. by left.
  - rewrite Hpc. by right.
  - rewrite Hpc. intros [|] _ [Hc|?]; try done; simpl in *; [congruence|].
    right. unfold p. by rewrite Hc.
  - intros cv. unfold p. destruct (queue_is_empty (st_queue s)); [done|]. by destruct k.
  - intros w out sz. unfold p. destruct (queue_is_empty (st_queue s)); [done|]. intros E. by destruct (Hnt w out sz).
  - rewrite fmap_app, (inv_fifo _ _ _ HI), Hcont. by rewrite <- app_assoc.
  - destruct (inv_thread _ _ _ HI t th Ht) as (cs & Ecs & Hth). exists cs. split; [done|].
    rewrite <- (app_nil_r (by_thread t (takes s))), by_thread_snoc_eq.
    apply (thread_moves cs (by_thread t (puts s))); [done|done| | |].
    + rewrite Hpc. simpl. intros c Hc. destruct (Hat c Hc). unfold p. by destruct (queue_is_empty _).
    + rewrite Hpc, Ep. simpl. rewrite Hitems. by rewrite <- app_assoc.
    + by rewrite Hpc, Et, Htaken.
  - intros t2 Hne. split; [by apply by_thread_snoc_ne|done].
Qed.

(** One item out. *)
Lemma inv_take k :
  queue_is_empty (st_queue s) = false -> holds_mutex (th_pc th) = true -> pending (th_pc th) = [] ->
  will_broadcast Empty (th_pc th) = false ->
  (forall x, holds_mutex (k x) = true /\ pending (k x) = [] /\ taken (k x) = taken (th_pc th) ++ [x]) ->
  (forall c x, at_call c (th_pc th) -> at_call c (k x)) ->
  (forall x, queue_is_full (st_queue s) = true \/ will_broadcast Full (th_pc th) = true ->
    will_broadcast Full (k x) = true) ->
  (forall x w out sz, k x = Taking w out sz -> out <> []) ->
  exists s', take_one t k s = Ret s' /\ invariant N prog s'.
Proof using All.
  intros Hempty Hh Hpe Hwb Hk Hat Hb Hnt. unfold take_one.
  destruct (take_ok _ (inv_wf _ _ _ HI) Hempty) as (q' & x & -> & Hwf & HN & Hcont).
  cbn [mbind outcome_bind]. eexists. split; [reflexivity|]. destruct (Hk x) as (K1 & K2 & K3).
  rewrite (goto_insert _ t (k x) th) by done. simpl.
  assert (queue_is_full q' = false) as Hnf.
  { rewrite is_full_count by done. apply Z.eqb_neq. rewrite HN, <- length_contents by done.
    pose proof (count_range _ (inv_wf _ _ _ HI)) as Hc.
    rewrite <- length_contents, Hcont in Hc by apply HI. simpl in Hc. lia. }
  apply (inv_update N prog s HI t th Ht); simpl; try done.
  - by rewrite HN, (inv_size _ _ _ HI).
  - rewrite K1. by apply (inv_mutex _ _ _ HI t th Ht).
  - rewrite Hh. by left.
  - rewrite Hh. by right.
  - intros [|] _ Hcv; [right; by apply Hb|]. simpl in Hcv. destruct Hcv; congruence.
  - intros cv. by destruct (k x).
  - intros w out sz E. split; [|by rewrite Hnf]. intros ->. by destruct (Hnt x w [] sz).
  - rewrite fmap_app, (inv_fifo _ _ _ HI), Hcont. simpl. by rewrite <- app_assoc.
  - destruct (inv_thread _ _ _ HI t th Ht) as (cs & Ecs & Hth). exists cs. split; [done|].
    rewrite by_thread_snoc_eq. apply (thread_moves cs (by_thread t (puts s))); [done|done| | |done].
    + intros c. apply Hat.
    + by rewrite Hpe, K2.
  - intros t2 Hne. split; [done|by apply by_thread_snoc_ne].
Qed.
End moves.

(** ** Broadcasts *)

Lemma wake_same cv th :
  holds_mutex (th_pc (wake cv th)) = holds_mutex (th_pc th) /\
  (forall cv', will_broadcast cv' (th_pc (wake cv th)) = will_broadcast cv' (th_pc th)) /\
  (forall w out sz, th_pc (wake cv th) = Taking w out sz -> th_pc th = Taking w out sz) /\
  (forall cv', waits_on cv' (th_pc (wake cv th)) = true -> waits_on cv' (th_pc th) = true /\ cv' <> cv) /\
  (forall cs pu ta, thread_inv cs pu ta th -> thread_inv cs pu ta (wake cv th)).
Proof.
  unfold wake. destruct (th_pc th) as [| |cv' c| | | | |] eqn:E; try (rewrite !E; naive_solver).
  destruct (decide (cv = cv')) as [<-|Hne]; simpl.
  - split; [done|]. split; [done|]. split; [done|]. split; [done|].
    intros cs pu ta Hth. rewrite <- (app_nil_r ta).
    apply (thread_moves cs pu); [done|by rewrite E| |by rewrite E|by rewrite E].
    rewrite E. by intros c' [? _].
  - rewrite !E. split; [done|]. split; [done|]. split; [done|]. split; [|done].
    intros cv2. simpl. rewrite bool_decide_eq_true. intros ->. split; congruence.
Qed.

Lemma inv_broadcast N prog s cv : invariant N prog s -> invariant N prog (cond_broadcast cv s).
Proof.
  intros [I1 I2 I3 I4 I5 I6 I7 I8 I9].
  assert (forall t th', (wake cv <$> threads s) !! t = Some th' ->
    exists th, threads s !! t = Some th /\ th' = wake cv th) as Hl.
  { intros t th'. rewrite lookup_fmap_Some. naive_solver. }
  split; simpl; try done.
  - intros t Ho. rewrite lookup_fmap, fmap_is_Some. by apply I3.
  - intros t th' (th & E & ->)%Hl. destruct (wake_same cv th) as (-> & _). by apply I4.
  - intros t th' cv' (th & E & ->)%Hl Hw. destruct (wake_same cv th) as (_ & _ & _ & W & _).
    apply W in Hw as [Hw _]. destruct (I5 t th cv' E Hw) as [?|(t2 & th2 & E2 & Hb)]; [by left|].
    right. exists t2, (wake cv th2). rewrite lookup_fmap, E2. split; [done|].
    destruct (wake_same cv th2) as (_ & -> & _). done.
  - intros t th' w out sz (th & E & ->)%Hl Hpc. destruct (wake_same cv th) as (_ & _ & W & _). eauto.
  - intros t th' (th & E & ->)%Hl. destruct (I8 t th E) as (cs & Ecs & Hth). exists cs. split; [done|].
    by apply wake_same.
  - intros t Hp. rewrite lookup_fmap, fmap_is_Some. by apply I9.
Qed.

Lemma broadcast_no_waiter cv s t th :
  threads (cond_broadcast cv s) !! t = Some th -> waits_on cv (th_pc th) = false.
Proof.
  simpl. rewrite lookup_fmap_Some. intros (th0 & <- & _).
  destruct (waits_on cv (th_pc (wake cv th0))) eqn:E; [|done].
  destruct (wake_same cv th0) as (_ & _ & _ & W & _). by apply W in E as [_ ?].
Qed.

(** ** Every step keeps the invariant *)

Lemma inv_unlock N prog s t th r :
  invariant N prog s -> threads s !! t = Some th -> th_pc th = Unlock r ->
  invariant N prog (unlock t r s).
Proof.
  intros HI Ht Hpc. unfold unlock. rewrite (alter_known _ _ _ th Ht).
  assert (forall p, th_pc (return_ r th) = p -> p = Idle \/ exists c, p = Lock c) as Hret.
  { unfold return_. destruct (th_todo th); simpl; intros p <-; [by left|right; by eexists]. }
  specialize (Hret _ eq_refl).
  apply (inv_update N prog s HI t th Ht); try (by eapply inv_wf); try (by eapply inv_size);
    try (by eapply inv_fifo); try done.
  - rewrite Hpc. destruct Hret as [->|[c ->]]; done.
  - destruct Hret as [->|[c ->]]; done.
  - by left.
  - rewrite Hpc. intros cv _ [?|?]; [by left|done].
  - destruct Hret as [->|[c ->]]; done.
  - destruct Hret as [->|[c ->]]; done.
  - destruct (inv_thread _ _ _ HI t th Ht) as (cs & Ecs & (dn & cur & -> & Hout & Hcur) & Hpu & Hta).
    eexists. split; [exact Ecs|]. rewrite Hpc in Hcur, Hpu, Hta.
    destruct cur as [|c [|]]; [by destruct Hcur| |done].
    assert (Forall2 result_ok (dn ++ [c]) (th_out th ++ [r])) as Hout' by (apply Forall2_app; auto).
    split.
    + unfold progress, return_. destruct (th_todo th) as [|c' cs'] eqn:Etd; simpl.
      * exists (dn ++ [c]), []. rewrite !app_nil_r. done.
      * exists (dn ++ [c]), [c']. rewrite <- app_assoc. split; [done|]. split; [done|]. by left.
    + unfold accounts, return_. rewrite Hta. destruct (th_todo th) as [|c' cs'] eqn:Etd; simpl in *;
        rewrite ?concat_app; simpl; rewrite ?app_nil_r; [by rewrite app_nil_r in Hpu|done].
Qed.

Lemma set_owner_same s : set_owner (owner s) s = s.
Proof. by destruct s. Qed.

Section steps.
Context (N : Z) (prog : gmap nat (list call)) (s : state) (HI : invariant N prog s).
Context (t : nat) (th : thread) (Ht : threads s !! t = Some th).

Lemma check_deq_many c0 sz :
  th_pc th = Check c0 -> call_items c0 = [] -> waits_for Empty c0 ->
  (forall c, rest_of c c0 -> c = queue_deq_many sz \/ c = queue_timeddeq_many sz) ->
  exists s', (if queue_is_empty (st_queue s) then Ret (cond_wait t Empty c0 s)
    else Ret (goto t (Taking (queue_is_full (st_queue s)) [] sz) s)) = Ret s' /\ invariant N prog s'.
Proof using All.
  intros Hpc Hitems Hw Hc. assert (th_pc th <> Idle) as Hidle by (by rewrite Hpc).
  assert (owner s = Some t) as Ho by (apply (inv_mutex _ _ _ HI t th Ht); by rewrite Hpc).
  destruct (queue_is_empty (st_queue s)) eqn:He; (eexists; split; [done|]).
  - apply (inv_goto N prog s HI t th Ht Hidle); rewrite ?Hpc; try done.
    intros cv E. simpl in E. apply bool_decide_eq_true in E as ->. done.
  - rewrite <- (set_owner_same (goto _ _ s)).
    apply (inv_goto N prog s HI t th Ht Hidle); rewrite ?Hpc; try done.
    + intros c Hrest. split; [by apply Hc|simpl; lia].
    + by left.
    + intros w out sz' [= <- <- _]. split; [done|]. done.
Qed.

Lemma check_preserves c :
  th_pc th = Check c -> exists s', check t c s = Ret s' /\ invariant N prog s'.
Proof using All.
  intros Hpc. assert (th_pc th <> Idle) as Hidle by (by rewrite Hpc).
  assert (owner s = Some t) as Ho by (apply (inv_mutex _ _ _ HI t th Ht); by rewrite Hpc).
  assert (forall cv, cond_holds cv (st_queue s) = true -> waits_for cv c ->
    invariant N prog (cond_wait t cv c s)) as Hwait.
  { intros cv Hc Hw. unfold cond_wait. apply (inv_goto N prog s HI t th Ht Hidle); rewrite ?Hpc; try done.
    intros cv' E. simpl in E. apply bool_decide_eq_true in E as ->. done. }
  unfold check. destruct c as [x| |[|x xs]|sz|sz].
  - destruct (queue_is_full (st_queue s)) eqn:Hf; [eexists; split; [done|by apply Hwait]|].
    apply (inv_enq N prog s HI t th Ht Hidle x _ (queue_enq_one x)); try done.
    intros c [<-|(l & l' & -> & ?)]; done.
  - destruct (queue_is_empty (st_queue s)) eqn:He; [eexists; split; [done|by apply Hwait]|].
    apply (inv_take N prog s HI t th Ht Hidle); rewrite ?Hpc; try done.
    + intros x. by destruct (queue_is_full _).
    + intros c x [<-|(l & l' & -> & ?)]; [|done]. by destruct (queue_is_full _).
    + intros x [->|?]; done.
    + intros x w out sz. by destruct (queue_is_full _).
  - eexists. split; [done|]. rewrite <- (set_owner_same (goto t (Unlock []) s)).
    apply (inv_goto N prog s HI t th Ht Hidle); rewrite ?Hpc; try done.
    + intros c [<-|(l & l' & -> & ?)]; done.
    + by left.
  - destruct (queue_is_full (st_queue s)) eqn:Hf; [eexists; split; [done|by apply Hwait]|].
    apply (inv_enq N prog s HI t th Ht Hidle x _ (queue_enq_many (x :: xs))); try done.
    intros c Hc. assert (exists l, c = queue_enq_many l) as [l ->].
    { destruct Hc as [<-|(l & l' & -> & _)]; eauto. }
    split; [right; eauto|]. split; [right; eauto|eauto].
  - apply check_deq_many; try done. intros c [<-|(l & l' & -> & ?)]; [by left|done].
  - apply check_deq_many; try done. intros c [<-|(l & l' & -> & ?)]; [by right|done].
Qed.

Lemma taking_preserves w out sz :
  th_pc th = Taking w out sz -> exists s', taking t w out sz s = Ret s' /\ invariant N prog s'.
Proof using All.
  intros Hpc. assert (th_pc th <> Idle) as Hidle by (by rewrite Hpc).
  assert (owner s = Some t) as Ho by (apply (inv_mutex _ _ _ HI t th Ht); by rewrite Hpc).
  destruct (inv_taking _ _ _ HI t th w out sz Ht Hpc) as [Hne Hfull]. unfold taking.
  destruct (negb (queue_is_empty (st_queue s)) && (Z.of_nat (length out) <? sz)) eqn:Hcond.
  - apply andb_true_iff in Hcond as [He Hlt]. apply negb_true_iff in He. apply Z.ltb_lt in Hlt.
    apply (inv_take N prog s HI t th Ht Hidle); rewrite ?Hpc; try done; simpl.
    + by destruct w.
    + intros c x [Hc Hl]. split; [done|]. rewrite length_app. simpl. lia.
    + intros x [->%Hfull|?]; [done|]. done.
    + intros x w' out' sz' [= _ <- _]. by destruct out.
  - eexists. split; [done|]. rewrite <- (set_owner_same (goto _ _ s)).
    apply (inv_goto N prog s HI t th Ht Hidle); rewrite ?Hpc; try (by destruct w).
    + intros c [Hc Hl]. assert (result_ok c out) as Hr; [|by destruct w].
      destruct Hc as [->| ->]; simpl; [|done]. split; [done|]. intros Hsz ->.
      rewrite Hne in Hcond by done. simpl in Hcond. apply Z.ltb_ge in Hcond. lia.
    + by left.
    + intros [|] _; simpl; destruct w; simpl; auto.
Qed.

Lemma broadcast_preserves cv k :
  th_pc th = Broadcast cv k -> invariant N prog (goto t k (cond_broadcast cv s)).
Proof using All.
  intros Hpc. pose proof (inv_broadcast N prog s cv HI) as HI'.
  assert (threads (cond_broadcast cv s) !! t = Some th) as Ht'.
  { simpl. rewrite lookup_fmap, Ht. simpl. unfold wake. by rewrite Hpc. }
  assert (th_pc th <> Idle) as Hidle by (by rewrite Hpc).
  assert (owner s = Some t) as Ho by (apply (inv_mutex _ _ _ HI t th Ht); by rewrite Hpc).
  assert (holds_mutex k = true /\ (forall cv, waits_on cv k = true -> False) /\
    forall w out sz, k <> Taking w out sz) as (Hk1 & Hk2 & Hk3).
  { destruct (inv_thread _ _ _ HI t th Ht) as (cs & _ & (dn & cur & _ & _ & Hcur) & _).
    rewrite Hpc in Hcur. destruct cur as [|c [|]]; [by destruct Hcur| |done].
    by destruct k. }
  rewrite <- (set_owner_same (goto _ _ _)).
  apply (inv_goto N prog _ HI' t th Ht' Hidle); rewrite ?Hpc, ?Hk1; try done.
  - intros c. destruct k; try done. by intros [? _].
  - by left.
  - intros cv' (t2 & th2 & _ & E2 & Hw) Hb. simpl in Hb. apply bool_decide_eq_true in Hb as ->.
    by rewrite (broadcast_no_waiter cv s t2 th2 E2) in Hw.
  - intros cv' Hw. by destruct (Hk2 cv').
  - intros w out sz ->. by destruct (Hk3 w out sz).
Qed.

Lemma step_preserves e o :
  step s t e = Some o -> o = Abort \/ exists s', o = Ret s' /\ invariant N prog s'.
Proof using All.
  unfold step. rewrite Ht. cbn [mbind option_bind].
  destruct (th_pc th) as [c|c|cv c| |w out sz|cv k|r|] eqn:Hpc, e; simpl; try done;
    try (intros [= <-]; by left).
  - case_decide as Ho; [|done]. intros [= <-]. right. eexists. split; [done|].
    apply (inv_goto N prog s HI t th Ht); rewrite ?Hpc; try done. by right.
  - intros [= <-]. right. by apply check_preserves.
  - intros [= <-]. right. eexists. split; [done|]. rewrite <- (set_owner_same (goto _ _ _)).
    apply (inv_goto N prog s HI t th Ht); rewrite ?Hpc; try done. by intros c' [? _].
  - destruct c; try done. intros [= <-]. right. eexists. split; [done|].
    rewrite <- (set_owner_same (goto _ _ _)).
    apply (inv_goto N prog s HI t th Ht); rewrite ?Hpc; try done.
    intros c [[<-|(l & l' & -> & ?)] ?]; [by exists sz|done].
  - case_decide as Ho; [|done]. intros [= <-]. right. eexists. split; [done|].
    apply (inv_goto N prog s HI t th Ht); rewrite ?Hpc; try done; [|by right].
    intros c [sz ->]. simpl. lia.
  - intros [= <-]. right. by apply taking_preserves.
  - intros [= <-]. right. eexists. split; [done|]. by apply broadcast_preserves.
  - intros [= <-]. right. eexists. split; [done|]. by apply (inv_unlock N prog s t th).
Qed.
End steps.

(** ** Reachable states *)

Section reachable_states.
Context (bufsz : Z) (b : list Z) (Hsz : 1 <= bufsz < 2 ^ 64) (Hb : Z.of_nat (length b) = bufsz).
Context (prog : gmap nat (list call)).
Let q0 : queue := (queue_init bufsz (Some b) 0 0 0).1.

Lemma init_wf : queue_wf q0 /\ contents q0 = [].
Proof using Hsz Hb.
  split; [|reflexivity].
  unfold queue_wf, q0. simpl. lia.
Qed.

Lemma init_invariant : invariant bufsz prog (state_init q0 prog).
Proof using Hsz Hb.
  destruct init_wf as [Hwf Hc]. assert (forall t th, threads (state_init q0 prog) !! t = Some th ->
    exists cs, prog !! t = Some cs /\ th = thread_init cs) as Hl.
  { intros t th. simpl. rewrite lookup_fmap_Some. naive_solver. }
  assert (forall cs p, th_pc (thread_init cs) = p -> p = Idle \/ exists c, p = Lock c) as Hp.
  { intros [|c cs] p <-; simpl; eauto. }
  split; simpl; try done.
  - intros t th (cs & E & ->)%Hl. destruct (Hp cs _ eq_refl) as [->|[c ->]]; done.
  - intros t th cv (cs & E & ->)%Hl. destruct (Hp cs _ eq_refl) as [->|[c ->]]; done.
  - intros t th w out sz (cs & E & ->)%Hl. destruct (Hp cs _ eq_refl) as [->|[c ->]]; done.
  - intros t th (cs & E & ->)%Hl. exists cs. split; [done|]. split.
    + destruct cs as [|c cs]; simpl; [by exists [], []|]. exists [], [c]. split; [done|].
      split; [constructor|]. by left.
    + by destruct cs.
  - intros t [cs E]. rewrite lookup_fmap, E. by eexists.
Qed.

Lemma reachable_invariant s : reachable q0 prog s -> invariant bufsz prog s.
Proof using Hsz Hb.
  induction 1 as [|s t e s' _ IH Hstep]; [apply init_invariant|].
  destruct (threads s !! t) as [th|] eqn:Ht; [|unfold step in Hstep; by rewrite Ht in Hstep].
  destruct (step_preserves _ _ s IH t th Ht e _ Hstep) as [?|(s'' & [= <-] & ?)]; done.
Qed.
End reachable_states.

Lemma step_no_thread s t e : threads s !! t = None -> step s t e = None.
Proof. intros E. unfold step. by rewrite E. Qed.

Lemma accounts_spec cs pu ta th :
  thread_inv cs pu ta th ->
  pu `prefix_of` concat (call_items <$> cs) /\ concat (th_out th) `prefix_of` ta /\
  Forall2 result_ok (take (length (th_out th)) cs) (th_out th) /\
  (th_pc th = Idle -> pu = concat (call_items <$> cs) /\ ta = concat (th_out th) /\ length (th_out th) = length cs).
Proof.
  intros [(dn & cur & Ecs & Hout & Hcur) [Hpu Hta]]. pose proof (list.Forall2_length _ _ _ Hout) as Hlen.
  split; [by eexists|]. split; [by eexists|]. split.
  - rewrite Ecs, <- Hlen, take_app_length. done.
  - intros Hidle. rewrite Hidle in *. destruct cur as [|c [|]]; [|done|done].
    destruct Hcur as [_ Etd]. rewrite Etd in *. simpl in *. rewrite !app_nil_r in *. by subst.
Qed.

(** C14: the queue under concurrency.  From a queue made by [queue_init], whatever calls the threads make
    and however their statements interleave (spurious wake-ups and time-outs included): no buffer access is
    out of range and a step can only fail by the [abort()] on a pthread error; one thread at most is inside
    the mutex; the items that went in, in order, are the items that came out, in order, followed by the
    contents, of which there are at most [bufsiz - 1]; every thread's items go in in program order, and what
    its finished calls returned is what it took out: one item from [deq_one], between one and [sz] from
    [deq_many], at most [sz] from the timed version. *)
Theorem queue_is_fifo (bufsz : Z) (b : list Z) (q : queue) (prog : gmap nat (list call)) (s : state)
  (Hsz : 1 <= bufsz < 2 ^ 64) (Hb : Z.of_nat (length b) = bufsz)
  (Hq : queue_init bufsz (Some b) 0 0 0 = (q, 0)) (Hs : reachable q prog s) :
  (forall t e o, step s t e = Some o -> o = Abort \/ exists s', o = Ret s') /\
  (forall t t' th th', threads s !! t = Some th -> threads s !! t' = Some th' ->
    holds_mutex (th_pc th) = true -> holds_mutex (th_pc th') = true -> t = t') /\
  snd <$> puts s = (snd <$> takes s) ++ contents (st_queue s) /\
  Z.of_nat (length (contents (st_queue s))) <= bufsz - 1 /\
  (forall t cs th, prog !! t = Some cs -> threads s !! t = Some th ->
    by_thread t (puts s) `prefix_of` concat (call_items <$> cs) /\
    concat (th_out th) `prefix_of` by_thread t (takes s) /\
    Forall2 result_ok (take (length (th_out th)) cs) (th_out th) /\
    (th_pc th = Idle ->
      by_thread t (puts s) = concat (call_items <$> cs) /\ by_thread t (takes s) = concat (th_out th) /\
      length (th_out th) = length cs)).
Proof.
  assert (q = (queue_init bufsz (Some b) 0 0 0).1) as -> by (by rewrite Hq).
  pose proof (reachable_invariant bufsz b Hsz Hb prog s Hs) as HI.
  split; [|split; [|split; [by apply (inv_fifo _ _ _ HI)|split]]].
  - intros t e o Hstep. destruct (threads s !! t) as [th|] eqn:Ht.
    + destruct (step_preserves _ _ s HI t th Ht e o Hstep) as [?|(s' & ? & _)]; eauto.
    + by rewrite step_no_thread in Hstep.
  - intros t t' th th' Ht Ht' H1 H2. apply (inv_mutex _ _ _ HI t th Ht) in H1.
    apply (inv_mutex _ _ _ HI t' th' Ht') in H2. congruence.
  - pose proof (inv_wf _ _ _ HI) as Hwf. rewrite length_contents by done.
    pose proof (count_range _ Hwf). rewrite (inv_size _ _ _ HI) in *. lia.
  - intros t cs th Hcs Ht. destruct (inv_thread _ _ _ HI t th Ht) as (cs' & Ecs & Hth).
    rewrite Hcs in Ecs. injection Ecs as <-. by apply accounts_spec.
Qed.

(** C15: no wake-up is lost.  With room for at least one item ([bufsiz] of 2 or more), if no thread can go on
    without a spurious wake-up or a time-out, then every thread has finished its program or all the others
    wait on the same condition, which holds: consumers on an empty queue, or producers on a full one.  A
    producer and a consumer are never stuck together. *)
Theorem queue_no_lost_wakeup (bufsz : Z) (b : list Z) (q : queue) (prog : gmap nat (list call)) (s : state)
  (Hsz : 2 <= bufsz < 2 ^ 64) (Hb : Z.of_nat (length b) = bufsz)
  (Hq : queue_init bufsz (Some b) 0 0 0 = (q, 0)) (Hs : reachable q prog s)
  (Hstuck : forall t, step s t Run = None) :
  exists cv, forall t th, threads s !! t = Some th ->
    th_pc th = Idle \/
    (exists c, th_pc th = Wait cv c /\ waits_for cv c) /\ cond_holds cv (st_queue s) = true.
Proof.
  assert (q = (queue_init bufsz (Some b) 0 0 0).1) as -> by (by rewrite Hq).
  pose proof (reachable_invariant bufsz b ltac:(lia) Hb prog s Hs) as HI.
  assert (owner s = None) as Ho.
  { destruct (owner s) as [t|] eqn:E; [|done]. destruct (inv_owner _ _ _ HI t E) as [th Ht].
    apply (inv_mutex _ _ _ HI t th Ht) in E. specialize (Hstuck t). unfold step in Hstuck.
    rewrite Ht in Hstuck. simpl in Hstuck. by destruct (th_pc th). }
  assert (forall t th, threads s !! t = Some th -> th_pc th = Idle \/
    exists cv c, th_pc th = Wait cv c /\ waits_for cv c /\ cond_holds cv (st_queue s) = true) as Hall.
  { intros t th Ht. pose proof (Hstuck t) as Hst. unfold step in Hst. rewrite Ht, Ho in Hst. simpl in Hst.
    destruct (th_pc th) as [| |cv c| | | | |] eqn:Hpc; try done; [right|by left].
    exists cv, c. split; [done|]. split.
    - destruct (inv_thread _ _ _ HI t th Ht) as (cs & _ & (dn & cur & _ & _ & Hcur) & _).
      rewrite Hpc in Hcur. destruct cur as [|c' [|]]; [by destruct Hcur|apply Hcur|done].
    - destruct (inv_wakeup _ _ _ HI t th cv Ht) as [?|(t' & th' & Ht' & Hb')];
        [rewrite Hpc; simpl; by apply bool_decide_eq_true|done|].
      assert (holds_mutex (th_pc th') = true) as Hh by (by destruct (th_pc th')).
      apply (inv_mutex _ _ _ HI t' th' Ht') in Hh. congruence. }
  pose proof (inv_wf _ _ _ HI) as Hwf. pose proof (inv_size _ _ _ HI) as HN.
  exists (if queue_is_full (st_queue s) then Full else Empty). intros t th Ht.
  destruct (Hall t th Ht) as [?|(cv & c & Hpc & Hw & Hc)]; [by left|right].
  destruct cv; simpl in Hc; [rewrite Hc; eauto|].
  destruct (queue_is_full (st_queue s)) eqn:Hf; [|by eauto]. exfalso.
  rewrite is_empty_count, Z.eqb_eq in Hc by done. rewrite is_full_count, Z.eqb_eq in Hf by done. lia.
Qed.

(** A producer of three items, a consumer of single items and one of batches,
    on a queue with room for two. *)
Definition sample_prog : gmap nat (list call) :=
  {[ 0%nat := [queue_enq_many [5; 6; 7]]; 1%nat := [queue_deq_one]; 2%nat := [queue_deq_many 8; queue_deq_one] ]}.
Definition sample_queue : queue := (queue_init 3 (Some [0; 0; 0]) 0 0 0).1.
(** The consumers block first, the producer fills the queue and blocks, and so on. *)
Definition sample_sched : list (nat * event) :=
  (fun t => (t, Run)) <$> ([1; 1; 0; 0; 0; 0; 0; 1; 1; 1; 1; 2; 2; 2; 2; 2; 2; 2; 0; 0; 0; 0; 0; 2; 2; 2])%nat.

Lemma run_reachable q prog s sched s' :
  reachable q prog s -> run s sched = Some (Ret s') -> reachable q prog s'.
Proof.
  revert s. induction sched as [|[t e] sched IH]; intros s Hs; simpl; [by intros [= <-]|].
  destruct (step s t e) as [[s1| | |]|] eqn:E; simpl; try done. apply IH. by eapply reach_step.
Qed.

Lemma queue_is_fifo_witness :
  exists s, run (state_init sample_queue sample_prog) sample_sched = Some (Ret s) /\
    snd <$> puts s = [5; 6; 7] /\ by_thread 2%nat (takes s) = [6; 7] /\
    snd <$> puts s = (snd <$> takes s) ++ contents (st_queue s).
Proof.
  destruct (run (state_init sample_queue sample_prog) sample_sched) as [[s| | |]|] eqn:E;
    try (vm_compute in E; discriminate).
  exists s. split; [done|].
  assert (reachable sample_queue sample_prog s) as Hs by (eapply run_reachable, E; apply reach_init).
  destruct (queue_is_fifo 3 [0; 0; 0] sample_queue sample_prog s) as (_ & _ & F & _);
    [lia|reflexivity|reflexivity|done|].
  split; [|split; [|exact F]]; revert E; vm_compute; by intros [= <-].
Defined.

(** Two consumers and one item: one of them is left waiting. *)
Definition short_prog : gmap nat (list call) :=
  {[ 0%nat := [queue_enq_one 4]; 1%nat := [queue_deq_one]; 2%nat := [queue_timeddeq_many 2] ]}.
Definition short_sched : list (nat * event) :=
  (fun t => (t, Run)) <$> ([1; 1; 0; 0; 0; 0; 1; 1; 1; 2; 2])%nat.

Lemma stuck_check s :
  bool_decide (map_Forall (fun t _ => step s t Run = None) (threads s)) = true ->
  forall t, step s t Run = None.
Proof.
  rewrite bool_decide_eq_true. intros Hall t. destruct (threads s !! t) as [th|] eqn:E.
  - by apply (Hall t th).
  - by apply step_no_thread.
Qed.

Lemma queue_no_lost_wakeup_witness :
  exists s cv, run (state_init sample_queue short_prog) short_sched = Some (Ret s) /\
    forall t th, threads s !! t = Some th -> th_pc th = Idle \/
      (exists c, th_pc th = Wait cv c /\ waits_for cv c) /\ cond_holds cv (st_queue s) = true.
Proof.
  destruct (run (state_init sample_queue short_prog) short_sched) as [[s| | |]|] eqn:E;
    try (vm_compute in E; discriminate).
  destruct (queue_no_lost_wakeup 3 [0; 0; 0] sample_queue short_prog s) as [cv Hcv].
  - lia.
  - reflexivity.
  - reflexivity.
  - eapply run_reachable, E. apply reach_init.
  - apply stuck_check. vm_compute in E. injection E as <-. vm_compute. reflexivity.
  - by exists s, cv.
Defined.

(** ** [struct queue_cache]: a buffer of one producer *)

Record queue_cache := { cache_buf : list Z; capacity : Z; cache_size : Z }.

(** The buffer, or nothing when [malloc] fails. *)
Definition queue_cache_init (cap : Z) (malloc : option (list Z)) : queue_cache * Z :=
  match malloc with
  | None => ({| cache_buf := []; capacity := 0; cache_size := 0 |}, -12)
  | Some b => ({| cache_buf := b; capacity := cap; cache_size := 0 |}, 0)
  end.

(** The items handed to [queue_enq_many], and the cache after the [memset]. *)
Definition queue_cache_flush (c : queue_cache) : queue_cache * list Z :=
  let n := Z.to_nat (cache_size c) in
  ({| cache_buf := replicate n 0 ++ drop n (cache_buf c); capacity := capacity c; cache_size := 0 |},
   take n (cache_buf c)).

(** The batches it hands to [queue_enq_many], at most one. *)
Definition queue_cache_enq_one (c : queue_cache) (item : Z) : outcome (queue_cache * list (list Z)) :=
  let '(c, calls) :=
    if cache_size c >=? capacity c
    then let '(c, batch) := queue_cache_flush c in (c, [batch]) else (c, []) in
  b ← buf_set (cache_buf c) (cache_size c) item;
  Ret ({| cache_buf := b; capacity := capacity c; cache_size := u64 (cache_size c + 1) |}, calls).

Fixpoint cache_enq_all (c : queue_cache) (items : list Z) : outcome (queue_cache * list (list Z)) :=
  match items with
  | [] => Ret (c, [])
  | x :: items =>
      r ← queue_cache_enq_one c x;
      let '(c, calls) := (r : queue_cache * list (list Z)) in
      r ← cache_enq_all c items;
      let '(c, calls') := (r : queue_cache * list (list Z)) in Ret (c, calls ++ calls')
  end.

Definition cache_wf (c : queue_cache) : Prop :=
  1 <= capacity c < 2 ^ 64 /\ Z.of_nat (length (cache_buf c)) = capacity c /\
  0 <= cache_size c <= capacity c.
Definition cached (c : queue_cache) : list Z := take (Z.to_nat (cache_size c)) (cache_buf c).

Lemma cache_flush_ok c :
  cache_wf c -> cache_wf (queue_cache_flush c).1 /\ cached (queue_cache_flush c).1 = [] /\
    capacity (queue_cache_flush c).1 = capacity c /\ (queue_cache_flush c).2 = cached c.
Proof.
  intros (H1 & H2 & H3). split; [|done]. unfold cache_wf; simpl. rewrite length_app, length_replicate, length_drop.
  lia.
Qed.

Lemma cache_put_ok c x :
  cache_wf c -> cache_size c < capacity c ->
  exists b, buf_set (cache_buf c) (cache_size c) x = Ret b /\
    let c' := {| cache_buf := b; capacity := capacity c; cache_size := u64 (cache_size c + 1) |} in
    cache_wf c' /\ cached c' = cached c ++ [x].
Proof.
  intros (H1 & H2 & H3) Hlt. change (2 ^ 64) with 18446744073709551616 in H1. unfold buf_set.
  destruct (Z.leb_spec 0 (cache_size c)); [|lia].
  destruct (Z.ltb_spec (cache_size c) (Z.of_nat (length (cache_buf c)))); [|lia].
  eexists. split; [done|]. unfold cache_wf, cached; simpl. rewrite u64_small, length_insert by lia.
  split; [change (2 ^ 64) with 18446744073709551616; lia|].
  replace (Z.to_nat (cache_size c + 1)) with (S (Z.to_nat (cache_size c))) by lia.
  rewrite (take_S_r _ _ x) by (apply list_lookup_insert_eq; lia).
  by rewrite take_insert_ge by lia.
Qed.

Lemma cache_enq_one_ok c x :
  cache_wf c ->
  exists c' calls, queue_cache_enq_one c x = Ret (c', calls) /\ cache_wf c' /\
    capacity c' = capacity c /\
    cached c ++ [x] = concat calls ++ cached c' /\
    Forall (fun batch => Z.of_nat (length batch) <= capacity c) calls.
Proof.
  intros Hwf. unfold queue_cache_enq_one. rewrite Z.geb_leb.
  destruct (Z.leb_spec (capacity c) (cache_size c)).
  - destruct (cache_flush_ok c Hwf) as (Hwf' & Hc & Hcap & Hb).
    destruct (queue_cache_flush c) as [c1 batch] eqn:E. simpl in *.
    destruct (cache_put_ok c1 x Hwf') as (b & -> & Hwf2 & Hc2).
    { injection E as <- _. simpl. destruct Hwf as (? & ? & ?). lia. }
    simpl in *. eexists _, _. split; [reflexivity|]. split; [done|]. split; [done|]. split.
    + rewrite Hc2, Hc. simpl. rewrite app_nil_r. by subst batch.
    + constructor; [|constructor]. subst batch. unfold cached. rewrite length_take.
      destruct Hwf as (? & ? & ?). lia.
  - destruct (cache_put_ok c x Hwf) as (b & -> & Hwf2 & Hc2); [lia|].
    simpl in *. eexists _, _. split; [reflexivity|]. split; [done|]. split; [done|]. split; [done|constructor].
Qed.

Lemma cache_enq_all_ok items c :
  cache_wf c ->
  exists c' calls, cache_enq_all c items = Ret (c', calls) /\ cache_wf c' /\
    capacity c' = capacity c /\
    cached c ++ items = concat calls ++ cached c' /\
    Forall (fun batch => Z.of_nat (length batch) <= capacity c) calls.
Proof.
  revert c. induction items as [|x items IH]; intros c Hwf; simpl.
  - exists c, []. rewrite app_nil_r. repeat split; try done; try apply Hwf; constructor.
  - destruct (cache_enq_one_ok c x Hwf) as (c1 & calls1 & -> & Hwf1 & Hcap1 & E1 & F1). simpl.
    destruct (IH c1 Hwf1) as (c2 & calls2 & -> & Hwf2 & Hcap2 & E2 & F2). simpl.
    exists c2, (calls1 ++ calls2). split; [done|]. split; [done|]. split; [congruence|]. split.
    + rewrite (cons_middle x), app_assoc, E1, <- app_assoc, E2, concat_app. by rewrite app_assoc.
    + rewrite Forall_app. rewrite Hcap1 in F2. done.
Qed.

(** The producer's cache neither loses, repeats nor reorders items.  With a capacity of at least 1 and the
    buffer that size, enqueuing [items] through an empty cache and flushing it at the end hands
    [queue_enq_many] batches of at most [capacity] items whose concatenation is [items], without a write
    outside the buffer; with capacity 0 the first item is written outside it. *)
Theorem queue_cache_keeps_order (cap : Z) (b items : list Z) (c : queue_cache)
  (Hcap : 0 <= cap < 2 ^ 64) (Hb : Z.of_nat (length b) = cap)
  (Hc : queue_cache_init cap (Some b) = (c, 0)) :
  if cap =? 0 then forall x, queue_cache_enq_one c x = Undef
  else exists c' calls, cache_enq_all c items = Ret (c', calls) /\
    concat calls ++ (queue_cache_flush c').2 = items /\
    cache_size (queue_cache_flush c').1 = 0 /\
    Forall (fun batch => Z.of_nat (length batch) <= cap) (calls ++ [(queue_cache_flush c').2]).
Proof.
  injection Hc as <-. destruct (Z.eqb_spec cap 0) as [->|Hne].
  - destruct b; [done|simpl in Hb; lia].
  - destruct (cache_enq_all_ok items {| cache_buf := b; capacity := cap; cache_size := 0 |})
      as (c' & calls & E & Hwf & Hcap' & Eq & F); [split; simpl; lia|].
    exists c', calls. split; [done|]. destruct (cache_flush_ok c' Hwf) as (_ & _ & _ & Hfl).
    rewrite Hfl. split; [by rewrite <- Eq|]. split; [done|]. rewrite Forall_app. split; [done|].
    constructor; [|constructor]. unfold cached. rewrite length_take. simpl in Hcap'.
    destruct Hwf as (? & ? & ?). lia.
Qed.

Lemma queue_cache_keeps_order_witness :
  exists c' calls, cache_enq_all (queue_cache_init 2 (Some [0; 0])).1 [1; 2; 3; 4; 5] = Ret (c', calls) /\
    calls = [[1; 2]; [3; 4]] /\ concat calls ++ (queue_cache_flush c').2 = [1; 2; 3; 4; 5].
Proof.
  destruct (queue_cache_keeps_order 2 [0; 0] [1; 2; 3; 4; 5] (queue_cache_init 2 (Some [0; 0])).1)
    as (c' & calls & E & Eq & _); [lia|done|done|].
  exists c', calls. split; [exact E|]. split; [|exact Eq]. vm_compute in E. by injection E.
Defined.
