(* ===== verification/Heap.v ===== *)
(** Code on a heap of nodes, and a separation logic for it.

    The pointer structures of the sources (trees, heaps) are programs in a
    state monad over a heap [gmap Z V]; [NULL] is address 0.  Their proofs use
    the Iris proof mode: [wp c Φ] says that [c] returns, on every heap that the
    owned cells are part of, with a result and cells that satisfy [Φ].
    [wp_sound] turns such a proof into a statement about the heap. *)
From iris.proofmode Require Import proofmode.
From iris.base_logic.lib Require Import gen_heap.
From S2P Require Import Prelude.

(** ** Programs *)
Definition prog (V A : Type) : Type := gmap Z V -> outcome (A * gmap Z V).

#[export] Instance prog_ret V : MRet (prog V) := fun A a H => Ret (a, H).
#[export] Instance prog_bind V : MBind (prog V) := fun A B f c H =>
  r ← c H; let '(a, H') := (r : A * gmap Z V) in f a H'.

Section programs.
Context {V : Type}.

(** A read or write of an address that holds no node is undefined. *)
Definition load (p : Z) : prog V V := fun H => v ← of_option (H !! p); Ret (v, H).
Definition store (p : Z) (v : V) : prog V unit := fun H =>
  _ ← of_option (H !! p); Ret (tt, <[p := v]> H).
Definition modify (p : Z) (f : V -> V) : prog V unit := v ← load p; store p (f v).
Definition abort {A} : prog V A := fun _ => Abort.
Definition undef {A} : prog V A := fun _ => Undef.

(** A loop with its bound, as [iter]. *)
Fixpoint loop {S R : Type} (n : nat) (body : S -> prog V (S + R)) (s : S) : prog V R :=
  match n with
  | O => fun _ => OutOfFuel
  | Datatypes.S n =>
      x ← body s;
      match x with
      | inl s' => loop n body s'
      | inr r => mret r
      end
  end.
End programs.

Lemma prog_assoc {V A B C} (c : prog V A) (f : A -> prog V B) (g : B -> prog V C) H :
  ((c ≫= f) ≫= g) H = (c ≫= fun a => f a ≫= g) H.
Proof. unfold mbind, prog_bind. by destruct (c H) as [[? ?]| | |]. Qed.
Lemma prog_ext {V A B} (c : prog V A) (f g : A -> prog V B) H :
  (forall a H', f a H' = g a H') -> (c ≫= f) H = (c ≫= g) H.
Proof. intros E. unfold mbind, prog_bind. destruct (c H) as [[a H']| | |]; [apply E|done..]. Qed.

(** ** Weakest preconditions *)

Section logic.
Context {V : Type} `{!gen_heapGS Z V Σ}.

Definition wp {A} (c : prog V A) (Φ : A -> iProp Σ) : iProp Σ :=
  ∀ H, gen_heap_interp H ==∗ ∃ a H', ⌜c H = Ret (a, H')⌝ ∗ gen_heap_interp H' ∗ Φ a.

(** Programs that do the same on every heap have the same specifications. *)
Lemma wp_proper {A} (c c' : prog V A) Φ : (forall H, c H = c' H) -> wp c Φ ⊢ wp c' Φ.
Proof.
  iIntros (Heq) "Hc". iIntros (H) "HI". iMod ("Hc" with "HI") as (a H') "(%E & HI & HΦ)". iModIntro.
  iExists a, H'. iFrame. iPureIntro. by rewrite -Heq.
Qed.

Lemma wp_ret {A} (a : A) Φ : Φ a ⊢ wp (mret a) Φ.
Proof. iIntros "HΦ" (H) "HI !>". iExists a, H. by iFrame. Qed.

Lemma wp_bind {A B} (c : prog V A) (f : A -> prog V B) Φ : wp c (fun a => wp (f a) Φ) ⊢ wp (c ≫= f) Φ.
Proof.
  iIntros "Hc" (H) "HI". iMod ("Hc" with "HI") as (a H') "(%E & HI & Hf)".
  iMod ("Hf" with "HI") as (b H'') "(%E' & HI & HΦ)". iModIntro. iExists b, H''.
  iFrame. iPureIntro. rewrite /mbind /prog_bind E. simpl. by rewrite E'.
Qed.

Lemma wp_wand {A} (c : prog V A) Φ Ψ : wp c Φ -∗ (∀ a, Φ a -∗ Ψ a) -∗ wp c Ψ.
Proof.
  iIntros "Hc HΦ" (H) "HI". iMod ("Hc" with "HI") as (a H') "(%E & HI & Ha)".
  iModIntro. iExists a, H'. iFrame. iSplit; [done|]. by iApply "HΦ".
Qed.

Lemma wp_load (p : Z) v Φ : pointsto p (DfracOwn 1) v -∗ (pointsto p (DfracOwn 1) v -∗ Φ v) -∗ wp (load p) Φ.
Proof.
  iIntros "Hp HΦ" (H) "HI". iDestruct (gen_heap_valid with "HI Hp") as %E.
  iModIntro. iExists v, H. iFrame. iSplit; [iPureIntro; by rewrite /load E|]. by iApply "HΦ".
Qed.

Lemma wp_store (p : Z) v w Φ :
  pointsto p (DfracOwn 1) v -∗ (pointsto p (DfracOwn 1) w -∗ Φ tt) -∗ wp (store p w) Φ.
Proof.
  iIntros "Hp HΦ" (H) "HI". iDestruct (gen_heap_valid with "HI Hp") as %E.
  iMod (gen_heap_update with "HI Hp") as "[HI Hp]". iModIntro. iExists tt, _.
  iFrame "HI". iSplit; [iPureIntro; by rewrite /store E|]. by iApply "HΦ".
Qed.

Lemma wp_modify (p : Z) v f Φ :
  pointsto p (DfracOwn 1) v -∗ (pointsto p (DfracOwn 1) (f v) -∗ Φ tt) -∗ wp (modify p f) Φ.
Proof.
  iIntros "Hp HΦ". iApply wp_bind. iApply (wp_load with "Hp"). iIntros "Hp".
  by iApply (wp_store with "Hp").
Qed.

(** The last statement of a program, made a bind. *)
Lemma wp_last (c : prog V unit) Φ : wp (c ≫= fun _ => mret tt) Φ ⊢ wp c Φ.
Proof.
  apply wp_proper. intros H. rewrite /mbind /prog_bind. by destruct (c H) as [[[] ?]| | |].
Qed.

Lemma wp_bind_ret {A} (c : prog V A) Φ : wp (c ≫= mret) Φ ⊢ wp c Φ.
Proof.
  apply wp_proper. intros H. rewrite /mbind /prog_bind. by destruct (c H) as [[? ?]| | |].
Qed.

Lemma wp_assoc {A B D} (c : prog V A) (f : A -> prog V B) (g : B -> prog V D) Φ :
  wp (c ≫= fun a => f a ≫= g) Φ ⊢ wp ((c ≫= f) ≫= g) Φ.
Proof.
  apply wp_proper. intros H. rewrite /mbind /prog_bind. by destruct (c H) as [[? ?]| | |].
Qed.
Lemma wp_ret_bind {A B} (a : A) (f : A -> prog V B) Φ : wp (f a) Φ ⊢ wp (mret a ≫= f) Φ.
Proof. by apply wp_proper. Qed.

(** Two owned cells are at different addresses. *)
Lemma cells_differ (p q : Z) (v w : V) : pointsto p (DfracOwn 1) v -∗ pointsto q (DfracOwn 1) w -∗ ⌜p <> q⌝.
Proof.
  iIntros "Hp Hq" (->). iDestruct (pointsto_valid_2 with "Hp Hq") as %[E _]. done.
Qed.
End logic.

(** ** Soundness *)

Section soundness.
Context {V : Type}.

(** Owning the cells [m]. *)
Definition owns `{!gen_heapGS Z V Σ} (m : gmap Z V) : iProp Σ := [∗ map] p ↦ v ∈ m, pointsto p (DfracOwn 1) v.

Lemma owns_valid `{!gen_heapGS Z V Σ} H m : gen_heap_interp H -∗ owns m -∗ ⌜m ⊆ H⌝.
Proof.
  iIntros "HI Hm". rewrite map_subseteq_spec. iIntros (p v E).
  iDestruct (big_sepM_lookup with "Hm") as "Hp"; [exact E|].
  by iDestruct (gen_heap_valid with "HI Hp") as %?.
Qed.

(** A specification that holds in the logic holds of the code: run on a heap
    made of the cells [m] and others, [c] returns, its result satisfies the
    postcondition with some cells [m'], and the others are as before. *)
Lemma wp_sound {A} (c : prog V A) (m rest : gmap Z V) (Q : A -> gmap Z V -> Prop) :
  m ##ₘ rest ->
  (forall Σ `{!gen_heapGS Z V Σ}, owns m ⊢ wp c (fun a => ∃ m', ⌜Q a m'⌝ ∗ owns m')) ->
  exists a m' H', c (m ∪ rest) = Ret (a, H') /\ Q a m' /\ m' ##ₘ rest /\ m' ∪ rest ⊆ H'.
Proof.
  intros Hd Hwp. set (Σ := gen_heapΣ Z V).
  apply (pure_soundness (PROP := iProp Σ)). apply uPred.bupd_soundness; [apply _|].
  iMod (gen_heap_init (Σ := Σ) (m ∪ rest)) as (HG) "(HI & Hm & _)".
  rewrite big_sepM_union //. iDestruct "Hm" as "[Hm Hrest]".
  iMod (Hwp Σ HG with "Hm HI") as (a H') "(%E & HI & %m' & %HQ & Hm')".
  iAssert ⌜m' ##ₘ rest⌝%I as %Hd'.
  { rewrite map_disjoint_spec. iIntros (p v w E1 E2).
    iDestruct (big_sepM_lookup with "Hm'") as "H1"; [exact E1|].
    iDestruct (big_sepM_lookup with "Hrest") as "H2"; [exact E2|].
    by iDestruct (cells_differ with "H1 H2") as %?. }
  iAssert (owns (m' ∪ rest)) with "[Hm' Hrest]" as "Hm".
  { rewrite /owns big_sepM_union //. iFrame. }
  iDestruct (owns_valid with "HI Hm") as %Hsub. iModIntro. iPureIntro. eauto 10.
Qed.
End soundness.

#[global] Opaque wp.
