(* ===== verification/PTree.v ===== *)
(** Binary trees with parent pointers: what rbtree/rbtree.c and
    avltree/avltree.c have in common.

    The two sources have the same node up to its first field ([is_black] or
    [balance]), the same search loops and the same exchange of two nodes; the
    definitions here take the type of that field as a parameter.  A tree is
    described by the [tree] of its addresses; [rep] owns its nodes and
    [frames_rep] those of a path from a subtree to the root. *)
From iris.proofmode Require Import coq_tactics reduction proofmode.
From iris.base_logic.lib Require Import gen_heap.
From S2P Require Import Prelude Heap.

(** ** Nodes and programs *)

Record tree_node (C : Type) := mkNode { payload : C; nleft : Z; nright : Z; nparent : Z }.
Arguments mkNode {C} _ _ _ _.
Arguments payload {C} _.
Arguments nleft {C} _.
Arguments nright {C} _.
Arguments nparent {C} _.

(** A heap cell is a node or a word of a header: the root field of a tree, or
    a size. *)
Inductive cell (C : Type) := Node (n : tree_node C) | Root (root : Z).
Arguments Node {C} _.
Arguments Root {C} _.

Section tree_programs.
Context {C : Type}.

Definition get_node (p : Z) : prog (cell C) (tree_node C) :=
  c ← load p; match c with Node n => mret n | Root _ => undef end.
Definition field {A} (f : tree_node C -> A) (p : Z) : prog (cell C) A := n ← get_node p; mret (f n).
Definition set_node (p : Z) (g : tree_node C -> tree_node C) : prog (cell C) unit :=
  n ← get_node p; store p (Node (g n)).

Definition set_payload (p : Z) (c : C) := set_node p (fun n => mkNode c (nleft n) (nright n) (nparent n)).
Definition set_left (p v : Z) := set_node p (fun n => mkNode (payload n) v (nright n) (nparent n)).
Definition set_right (p v : Z) := set_node p (fun n => mkNode (payload n) (nleft n) v (nparent n)).
Definition set_parent (p v : Z) := set_node p (fun n => mkNode (payload n) (nleft n) (nright n) v).

Definition get_root (tree : Z) : prog (cell C) Z :=
  c ← load tree; match c with Root r => mret r | Node _ => undef end.
Definition set_root (tree v : Z) : prog (cell C) unit := _ ← get_root tree; store tree (Root v).

(** [if (a) a->parent = p;] *)
Definition link_child (a p : Z) : prog (cell C) unit := if a =? 0 then mret tt else set_parent a p.

(** [if (p->left == old) p->left = new; else if (p->right == old) p->right = new; else abort();] *)
Definition replace_child (p old new : Z) : prog (cell C) unit :=
  l ← field nleft p;
  if l =? old then set_left p new
  else
    r ← field nright p;
    if r =? old then set_right p new else abort.

(** Short-circuit conjunction and disjunction. *)
Definition andM {V} (a b : prog V bool) : prog V bool := x ← a; if (x : bool) then b else mret false.
Definition orM {V} (a b : prog V bool) : prog V bool := x ← a; if (x : bool) then mret true else b.

Definition leftmost_step (node : Z) : prog (cell C) (Z + Z) :=
  l ← field nleft node; if l =? 0 then mret (inr node) else mret (inl l).
Definition rightmost_step (node : Z) : prog (cell C) (Z + Z) :=
  r ← field nright node; if r =? 0 then mret (inr node) else mret (inl r).

(** Two nodes swap places; their first fields stay where they are. *)
Fixpoint exchange (fuel : nat) (tree n1 n2 : Z) : prog (cell C) unit :=
  match fuel with
  | O => fun _ => OutOfFuel
  | S fuel =>
  n1_parent ← field nparent n1;
  n1_left ← field nleft n1;
  n1_right ← field nright n1;
  n1_payload ← field payload n1;
  n2_parent ← field nparent n2;
  n2_left ← field nleft n2;
  n2_right ← field nright n2;
  n2_payload ← field payload n2;
  if (n2_parent =? n1) && (n1_left =? n2) then
    _ ← set_left n1 n2_left;
    _ ← set_right n1 n2_right;
    _ ← set_parent n1 n2;
    _ ← link_child n2_left n1;
    _ ← link_child n2_right n1;
    _ ← set_left n2 n1;
    _ ← set_right n2 n1_right;
    _ ← set_parent n2 n1_parent;
    _ ← link_child n1_right n2;
    _ ← (if n1_parent =? 0 then set_root tree n2 else replace_child n1_parent n1 n2);
    _ ← set_payload n1 n2_payload;
    set_payload n2 n1_payload
  else if (n2_parent =? n1) && (n1_right =? n2) then
    _ ← set_left n1 n2_left;
    _ ← set_right n1 n2_right;
    _ ← set_parent n1 n2;
    _ ← link_child n2_left n1;
    _ ← link_child n2_right n1;
    _ ← set_left n2 n1_left;
    _ ← set_right n2 n1;
    _ ← set_parent n2 n1_parent;
    _ ← link_child n1_left n2;
    _ ← (if n1_parent =? 0 then set_root tree n2 else replace_child n1_parent n1 n2);
    _ ← set_payload n1 n2_payload;
    set_payload n2 n1_payload
  else if n1_parent =? n2 then exchange fuel tree n2 n1
  else
    _ ← (if n1_parent =? 0 then mret tt else replace_child n1_parent n1 n2);
    _ ← (if n2_parent =? 0 then mret tt else replace_child n2_parent n2 n1);
    _ ← set_parent n2 n1_parent;
    _ ← set_left n2 n1_left;
    _ ← set_right n2 n1_right;
    _ ← set_parent n1 n2_parent;
    _ ← set_left n1 n2_left;
    _ ← set_right n1 n2_right;
    _ ← link_child n2_left n1;
    _ ← link_child n2_right n1;
    _ ← link_child n1_left n2;
    _ ← link_child n1_right n2;
    _ ← (if n2_parent =? 0 then
           if n1_parent =? 0 then abort else set_root tree n1
         else mret tt);
    _ ← (if n1_parent =? 0 then set_root tree n2 else mret tt);
    _ ← set_payload n1 n2_payload;
    set_payload n2 n1_payload
  end.
End tree_programs.

(** ** Trees of addresses *)

Inductive tree (C : Type) := Leaf | Br (c : C) (l : tree C) (x : Z) (r : tree C).
Arguments Leaf {C}.
Arguments Br {C} _ _ _ _.

(** A step on the way up: the subtree is the left or the right child of [x]. *)
Inductive frame (C : Type) := FL (c : C) (x : Z) (r : tree C) | FR (c : C) (l : tree C) (x : Z).
Arguments FL {C} _ _ _.
Arguments FR {C} _ _ _.

Section trees.
Context {C : Type}.
Implicit Types (t l r : tree C) (K : list (frame C)).

Definition ptr t : Z := match t with Leaf => 0 | Br _ _ x _ => x end.
Fixpoint inorder t : list Z := match t with Leaf => [] | Br _ l x r => inorder l ++ x :: inorder r end.
Fixpoint tsize t : nat := match t with Leaf => 0 | Br _ l _ r => S (tsize l + tsize r) end.

Definition frame_addr (f : frame C) : Z := match f with FL _ x _ => x | FR _ _ x => x end.
Definition frame_pl (f : frame C) : C := match f with FL c _ _ => c | FR c _ _ => c end.
Definition frame_sib (f : frame C) : tree C := match f with FL _ _ r => r | FR _ l _ => l end.
(** The children of the frame's node, given the pointer to the subtree. *)
Definition fleft (f : frame C) (hole : Z) : Z := match f with FL _ _ _ => hole | FR _ l _ => ptr l end.
Definition fright (f : frame C) (hole : Z) : Z := match f with FL _ _ r => ptr r | FR _ _ _ => hole end.
Definition fill1 (f : frame C) t : tree C := match f with FL c x r => Br c t x r | FR c l x => Br c l x t end.
(** The innermost frame comes first. *)
Fixpoint plug K t : tree C := match K with [] => t | f :: K => plug K (fill1 f t) end.

(** The parent of a subtree below [K], when [top] is the parent of the whole,
    and the pointer to the whole. *)
Definition inptr K (top : Z) : Z := match K with [] => top | f :: _ => frame_addr f end.
Fixpoint outptr K (hole : Z) : Z := match K with [] => hole | f :: K => outptr K (frame_addr f) end.

(** What stands before and after the subtree. *)
Fixpoint before K : list Z :=
  match K with [] => [] | FL _ _ _ :: K => before K | FR _ l x :: K => before K ++ inorder l ++ [x] end.
Fixpoint after K : list Z :=
  match K with [] => [] | FL _ x r :: K => x :: inorder r ++ after K | FR _ _ _ :: K => after K end.

Lemma inorder_plug K t : inorder (plug K t) = before K ++ inorder t ++ after K.
Proof.
  revert t. induction K as [|[c x r|c l x] K IH]; intros t; simpl.
  - by rewrite app_nil_r.
  - rewrite IH. simpl. by rewrite <- app_assoc.
  - rewrite IH. simpl. by rewrite <- !app_assoc.
Qed.

Lemma plug_app K1 K2 t : plug (K1 ++ K2) t = plug K2 (plug K1 t).
Proof. revert t. induction K1 as [|f K1 IH]; intros t; simpl; [done|apply IH]. Qed.

Lemma ptr_plug K t : ptr (plug K t) = outptr K (ptr t).
Proof.
  revert t. induction K as [|f K IH]; intros t; [done|]. simpl. rewrite IH. by destruct f.
Qed.
End trees.

(** ** Ownership *)

Section ownership.
Context {C : Type} `{!gen_heapGS Z (cell C) Σ}.
Implicit Types (t : tree C) (K : list (frame C)).

Definition node (p : Z) (c : C) (l r par : Z) : iProp Σ :=
  pointsto p (DfracOwn 1) (Node (mkNode c l r par)).

(** A node with whatever is in its fields. *)
Definition some_node (p : Z) : iProp Σ := ∃ c l r par, node p c l r par.

Fixpoint rep (par : Z) t : iProp Σ :=
  match t with
  | Leaf => emp
  | Br c l x r => ⌜x <> 0⌝ ∗ node x c (ptr l) (ptr r) par ∗ rep x l ∗ rep x r
  end.

Definition frame_rep (f : frame C) (hole par : Z) : iProp Σ :=
  ⌜frame_addr f <> 0⌝ ∗ node (frame_addr f) (frame_pl f) (fleft f hole) (fright f hole) par ∗
  rep (frame_addr f) (frame_sib f).
Fixpoint frames_rep K (hole top : Z) : iProp Σ :=
  match K with
  | [] => emp
  | f :: K => frame_rep f hole (inptr K top) ∗ frames_rep K (frame_addr f) top
  end.

(** A path from the root field to a subtree whose pointer is [hole]. *)
Definition path (tree : Z) K (hole : Z) : iProp Σ :=
  frames_rep K hole 0 ∗ pointsto tree (DfracOwn 1) (Root (outptr K hole)).
(** The whole structure. *)
Definition tree_rep (tree : Z) t : iProp Σ := path tree [] (ptr t) ∗ rep 0 t.

Lemma rep_br par c (l r : PTree.tree C) x :
  rep par (Br c l x r) ⊣⊢ ⌜x <> 0⌝ ∗ node x c (ptr l) (ptr r) par ∗ rep x l ∗ rep x r.
Proof. done. Qed.

Lemma rep_fill1 f t top :
  rep top (fill1 f t) ⊣⊢ frame_rep f (ptr t) top ∗ rep (frame_addr f) t.
Proof.
  rewrite /frame_rep. destruct f as [c x r|c l x]; simpl.
  - by rewrite -!assoc (comm _ (rep x t)).
  - by rewrite -!assoc.
Qed.

Lemma rep_plug K t top : rep top (plug K t) ⊣⊢ frames_rep K (ptr t) top ∗ rep (inptr K top) t.
Proof.
  revert t. induction K as [|f K IH]; intros t; simpl; [by rewrite left_id|].
  rewrite IH rep_fill1 assoc (comm _ (frames_rep _ _ _)). by destruct f.
Qed.

Lemma tree_rep_plug tree K t : tree_rep tree (plug K t) ⊣⊢ path tree K (ptr t) ∗ rep (inptr K 0) t.
Proof.
  rewrite /tree_rep rep_plug /path /= ptr_plug left_id.
  iSplit; [iIntros "(? & ? & ?)"|iIntros "[[? ?] ?]"]; iFrame.
Qed.

Lemma path_cons tree f K hole :
  path tree (f :: K) hole ⊣⊢ frame_rep f hole (inptr K 0) ∗ path tree K (frame_addr f).
Proof. rewrite /path /=. by rewrite -assoc. Qed.

Lemma inptr_app (K1 K2 : list (frame C)) top : inptr (K1 ++ K2) top = inptr K1 (inptr K2 top).
Proof. by destruct K1. Qed.
Lemma frames_rep_app K1 K2 hole top :
  frames_rep (K1 ++ K2) hole top ⊣⊢ frames_rep K1 hole (inptr K2 top) ∗ frames_rep K2 (outptr K1 hole) top.
Proof.
  revert hole. induction K1 as [|f K1 IH]; intros hole; simpl; [by rewrite left_id|].
  by rewrite IH inptr_app assoc.
Qed.
Lemma outptr_app (K1 K2 : list (frame C)) hole : outptr (K1 ++ K2) hole = outptr K2 (outptr K1 hole).
Proof. revert hole. induction K1 as [|f K1 IH]; intros hole; simpl; [done|apply IH]. Qed.
Lemma path_app tree K1 K2 hole :
  path tree (K1 ++ K2) hole ⊣⊢ frames_rep K1 hole (inptr K2 0) ∗ path tree K2 (outptr K1 hole).
Proof. by rewrite /path frames_rep_app outptr_app assoc. Qed.

(** ** Stepping through a program *)

Lemma wp_field {A} (f : tree_node C -> A) p c l r par Φ :
  node p c l r par -∗ (node p c l r par -∗ Φ (f (mkNode c l r par))) -∗ wp (field f p) Φ.
Proof.
  iIntros "Hp HΦ". iApply wp_bind. iApply wp_bind. iApply (wp_load with "Hp"). iIntros "Hp".
  iApply wp_ret. iApply wp_ret. by iApply "HΦ".
Qed.

Lemma wp_set_node g p c l r par Φ :
  node p c l r par -∗
  (pointsto p (DfracOwn 1) (Node (g (mkNode c l r par))) -∗ Φ tt) -∗ wp (set_node p g) Φ.
Proof.
  iIntros "Hp HΦ". iApply wp_bind. iApply wp_bind. iApply (wp_load with "Hp"). iIntros "Hp".
  iApply wp_ret. by iApply (wp_store with "Hp").
Qed.

Lemma wp_get_root tree v Φ :
  pointsto tree (DfracOwn 1) (Root v) -∗ (pointsto tree (DfracOwn 1) (Root v) -∗ Φ v) -∗ wp (get_root tree) Φ.
Proof.
  iIntros "Hp HΦ". iApply wp_bind. iApply (wp_load with "Hp"). iIntros "Hp".
  iApply wp_ret. by iApply "HΦ".
Qed.

Lemma wp_set_root tree v w Φ :
  pointsto tree (DfracOwn 1) (Root v) -∗ (pointsto tree (DfracOwn 1) (Root w) -∗ Φ tt) -∗
  wp (set_root tree w) Φ.
Proof.
  iIntros "Hp HΦ". iApply wp_bind. iApply (wp_get_root with "Hp"). iIntros "Hp".
  by iApply (wp_store with "Hp").
Qed.

Lemma tac_field {A B} Δ i (f : tree_node C -> A) (k : A -> prog (cell C) B) p c l r par Φ :
  envs_lookup i Δ = Some (false, node p c l r par)%I ->
  envs_entails Δ (wp (k (f (mkNode c l r par))) Φ) -> envs_entails Δ (wp (field f p ≫= k) Φ).
Proof.
  rewrite envs_entails_unseal => Hi Hk. rewrite envs_lookup_split //=. iIntros "[Hp Hrest]".
  iApply wp_bind. iApply (wp_field with "Hp"). iIntros "Hp". iApply Hk. by iApply "Hrest".
Qed.

Lemma tac_set_node {B} Δ Δ' i g (k : unit -> prog (cell C) B) p c l r par c' l' r' par' Φ :
  envs_lookup i Δ = Some (false, node p c l r par)%I ->
  g (mkNode c l r par) = mkNode c' l' r' par' ->
  envs_simple_replace i false (Esnoc Enil i (node p c' l' r' par')) Δ = Some Δ' ->
  envs_entails Δ' (wp (k tt) Φ) -> envs_entails Δ (wp (set_node p g ≫= k) Φ).
Proof.
  rewrite envs_entails_unseal => Hi Hg HΔ Hk. rewrite envs_simple_replace_sound //=.
  iIntros "[Hp Hrest]". iApply wp_bind. iApply (wp_set_node with "Hp"). rewrite Hg. iIntros "Hp".
  iApply Hk. iApply "Hrest". by iFrame.
Qed.

Lemma tac_get_root {B} Δ i (k : Z -> prog (cell C) B) tree v Φ :
  envs_lookup i Δ = Some (false, pointsto tree (DfracOwn 1) (Root v))%I ->
  envs_entails Δ (wp (k v) Φ) -> envs_entails Δ (wp (get_root tree ≫= k) Φ).
Proof.
  rewrite envs_entails_unseal => Hi Hk. rewrite envs_lookup_split //=. iIntros "[Hp Hrest]".
  iApply wp_bind. iApply (wp_get_root with "Hp"). iIntros "Hp". iApply Hk. by iApply "Hrest".
Qed.

Lemma tac_set_root {B} Δ Δ' i (k : unit -> prog (cell C) B) tree v w Φ :
  envs_lookup i Δ = Some (false, pointsto tree (DfracOwn 1) (Root v))%I ->
  envs_simple_replace i false (Esnoc Enil i (pointsto tree (DfracOwn 1) (Root w))) Δ = Some Δ' ->
  envs_entails Δ' (wp (k tt) Φ) -> envs_entails Δ (wp (set_root tree w ≫= k) Φ).
Proof.
  rewrite envs_entails_unseal => Hi HΔ Hk. rewrite envs_simple_replace_sound //=.
  iIntros "[Hp Hrest]". iApply wp_bind. iApply (wp_set_root with "Hp"). iIntros "Hp".
  iApply Hk. iApply "Hrest". by iFrame.
Qed.
End ownership.

(** [wp_step]: one read or write of a field whose node is owned. *)
Ltac wp_norm := cbn [payload nleft nright nparent ptr].
Ltac wp_field_step := eapply tac_field; [iAssumptionCore|wp_norm].
Ltac wp_set_step :=
  eapply tac_set_node; [iAssumptionCore|wp_norm; reflexivity|reflexivity|].
Ltac wp_root_step := eapply tac_get_root; [iAssumptionCore|].
Ltac wp_set_root_step := eapply tac_set_root; [iAssumptionCore|reflexivity|].
Ltac wp_step :=
  cbv beta; lazymatch goal with
  | |- envs_entails _ (wp (field _ _ ≫= _) _) => wp_field_step
  | |- envs_entails _ (wp (set_left _ _ ≫= _) _) => wp_set_step
  | |- envs_entails _ (wp (set_right _ _ ≫= _) _) => wp_set_step
  | |- envs_entails _ (wp (set_parent _ _ ≫= _) _) => wp_set_step
  | |- envs_entails _ (wp (set_payload _ _ ≫= _) _) => wp_set_step
  | |- envs_entails _ (wp (get_root _ ≫= _) _) => wp_root_step
  | |- envs_entails _ (wp (set_root _ _ ≫= _) _) => wp_set_root_step
  | |- envs_entails _ (wp (mret _ ≫= _) _) => iApply wp_ret_bind
  | |- envs_entails _ (wp ((_ ≫= _) ≫= _) _) => iApply wp_assoc
  end.
Ltac wp_steps := repeat wp_step; cbv beta.

Section child_links.
Context {C : Type} `{!gen_heapGS Z (cell C) Σ}.
Implicit Types (t : tree C) (K : list (frame C)).

(** The subtree [t] gets a new parent. *)
Lemma wp_link_child {B} t a p par (k : unit -> prog (cell C) B) Φ :
  ptr t = a -> rep par t -∗ (rep p t -∗ wp (k tt) Φ) -∗ wp (link_child a p ≫= k) Φ.
Proof.
  iIntros (<-) "Ht HΦ". rewrite /link_child. destruct t as [|c l x r]; simpl.
  - iApply wp_ret_bind. by iApply "HΦ".
  - iDestruct "Ht" as "(%Hx & Hn & Hl & Hr)". destruct (Z.eqb_spec x 0); [done|].
    wp_step. iApply "HΦ". by iFrame.
Qed.

(** The pointer to a subtree is not that of an owned node. *)
Lemma rep_ptr_ne par t p (v : cell C) : p <> 0 -> rep par t -∗ pointsto p (DfracOwn 1) v -∗ ⌜ptr t <> p⌝.
Proof.
  iIntros (Hp) "Ht Hp". destruct t as [|c l x r]; simpl; [iPureIntro; congruence|].
  iDestruct "Ht" as "(_ & Hn & _)". iApply (cells_differ with "Hn Hp").
Qed.

Lemma wp_replace_child {B} f old new par v (k : unit -> prog (cell C) B) Φ :
  old <> 0 -> pointsto old (DfracOwn 1) v -∗ frame_rep f old par -∗
  (pointsto old (DfracOwn 1) v -∗ frame_rep f new par -∗ wp (k tt) Φ) -∗
  wp (replace_child (frame_addr f) old new ≫= k) Φ.
Proof.
  iIntros (Hold) "Hv Hf HΦ". rewrite /replace_child. iApply wp_assoc.
  rewrite /frame_rep. destruct f as [c x r|c l x]; simpl; iDestruct "Hf" as "(%Hx & Hn & Hs)"; wp_step.
  - rewrite Z.eqb_refl. wp_step. iApply ("HΦ" with "Hv"). by iFrame.
  - iDestruct (rep_ptr_ne with "Hs Hv") as %Hne; [done|].
    destruct (Z.eqb_spec (ptr l) old); [done|]. wp_steps. rewrite Z.eqb_refl. wp_step.
    iApply ("HΦ" with "Hv"). by iFrame.
Qed.

(** The sibling of a subtree below [f]. *)
Lemma wp_sibling_test {B} f hole par (k : Z -> prog (cell C) B) Φ :
  hole <> ptr (frame_sib f) ->
  frame_rep f hole par -∗ (frame_rep f hole par -∗ wp (k (ptr (frame_sib f))) Φ) -∗
  wp ((l ← field nleft (frame_addr f);
       if hole =? l then field nright (frame_addr f) else field nleft (frame_addr f)) ≫= k) Φ.
Proof.
  iIntros (Hne) "(%Hf & Hn & Hs) HΦ". wp_steps.
  destruct f as [c x r|c l x]; simpl in *.
  - rewrite Z.eqb_refl. wp_step. iApply "HΦ". by iFrame.
  - destruct (Z.eqb_spec hole (ptr l)); [done|]. wp_step. iApply "HΦ". by iFrame.
Qed.
End child_links.

(** ** Sequences in the order of a comparison function *)

Definition cmp_fun : Type := Z -> Z -> Z.

(** What the trees expect of it. *)
Class CmpLaws (cmp : cmp_fun) : Prop := {
  cmp_flip a b : cmp a b < 0 <-> 0 < cmp b a;
  cmp_trans a b c : cmp a b <= 0 -> cmp b c <= 0 -> cmp a c <= 0
}.

Section ordered.
Context (cmp : cmp_fun) `{!CmpLaws cmp}.

(** In order, equal nodes allowed. *)
Fixpoint ordered (xs : list Z) : Prop :=
  match xs with [] => True | x :: xs => (forall y, y ∈ xs -> cmp x y <= 0) /\ ordered xs end.

(** [x] goes after the nodes that are not greater. *)
Fixpoint insert_sorted (x : Z) (xs : list Z) : list Z :=
  match xs with [] => [x] | y :: ys => if cmp x y <? 0 then x :: y :: ys else y :: insert_sorted x ys end.

Lemma ordered_app xs ys :
  ordered (xs ++ ys) <-> ordered xs /\ ordered ys /\ forall x y, x ∈ xs -> y ∈ ys -> cmp x y <= 0.
Proof.
  induction xs as [|a xs IH]; simpl.
  - split; [|tauto]. intros H. repeat split; [done|]. intros x y Hx. by apply elem_of_nil in Hx.
  - rewrite IH. setoid_rewrite elem_of_app. setoid_rewrite elem_of_cons. split.
    + intros (Ha & Hxs & Hys & Hxy). repeat split; [auto|done|done|]. intros x y [->|Hx] Hy; auto.
    + intros ((Ha & Hxs) & Hys & Hxy). repeat split; [|done|done|auto]. intros y [?|?]; auto.
Qed.

Lemma cmp_self a : cmp a a = 0.
Proof using All. destruct (cmp_flip a a) as [H1 H2]. lia. Qed.
Lemma cmp_ge_flip a b : 0 <= cmp a b -> cmp b a <= 0.
Proof using All. intros H. destruct (Z.le_gt_cases (cmp b a) 0) as [?|H']; [done|]. apply cmp_flip in H'. lia. Qed.
Lemma cmp_le_flip a b : cmp a b <= 0 -> 0 <= cmp b a.
Proof using All. intros H. destruct (Z.le_gt_cases 0 (cmp b a)) as [?|H']; [done|]. apply cmp_flip in H'. lia. Qed.
Lemma cmp_lt_le a b c : cmp a b < 0 -> cmp b c <= 0 -> cmp a c < 0.
Proof using All.
  intros Hab Hbc. destruct (Z.lt_ge_cases (cmp a c) 0) as [?|H']; [done|]. apply cmp_ge_flip in H'.
  assert (cmp b a <= 0) by (eapply cmp_trans; eauto). apply cmp_flip in Hab. lia.
Qed.

Lemma insert_sorted_elem x xs y : y ∈ insert_sorted x xs <-> y = x \/ y ∈ xs.
Proof.
  induction xs as [|z xs IH]; simpl; [set_solver|].
  destruct (cmp x z <? 0); rewrite !elem_of_cons ?IH; tauto.
Qed.

Lemma insert_sorted_ordered x xs : ordered xs -> ordered (insert_sorted x xs).
Proof using All.
  induction xs as [|y xs IH]; simpl; [by intros _; split; [intros z Hz; by apply elem_of_nil in Hz|]|].
  intros [Hy Hxs]. destruct (Z.ltb_spec (cmp x y) 0).
  - split; [|by split]. intros z [->|Hz]%elem_of_cons; [lia|].
    assert (cmp x z < 0) by (eapply cmp_lt_le; eauto). lia.
  - split; [|by apply IH]. intros z [->|Hz]%insert_sorted_elem; [by apply cmp_ge_flip|by apply Hy].
Qed.

(** Insertion into the left or the right part of a sequence. *)
Lemma insert_sorted_left x ls y rs :
  cmp x y < 0 -> insert_sorted x (ls ++ y :: rs) = insert_sorted x ls ++ y :: rs.
Proof.
  intros Hxy. induction ls as [|z ls IH]; simpl.
  - destruct (Z.ltb_spec (cmp x y) 0); [done|lia].
  - destruct (cmp x z <? 0); [done|]. by rewrite IH.
Qed.
Lemma insert_sorted_right x ls y rs :
  ordered (ls ++ y :: rs) -> 0 <= cmp x y ->
  insert_sorted x (ls ++ y :: rs) = ls ++ y :: insert_sorted x rs.
Proof using All.
  intros Ho Hxy. apply ordered_app in Ho as (_ & _ & Hly).
  assert (forall z, z ∈ ls -> 0 <= cmp x z) as Hls.
  { intros z Hz. apply cmp_le_flip, cmp_trans with y; [apply Hly; [done|by left]|by apply cmp_ge_flip]. }
  clear Hly. induction ls as [|z ls IH]; simpl.
  - destruct (Z.ltb_spec (cmp x y) 0); [lia|done].
  - assert (0 <= cmp x z) by (apply Hls; by left). destruct (Z.ltb_spec (cmp x z) 0); [lia|].
    rewrite IH; [done|]. intros w Hw. apply Hls. by right.
Qed.

(** A node equal to [x] is in the part the comparison points to. *)
Lemma equal_left x ls y rs : ordered (ls ++ y :: rs) -> cmp x y < 0 ->
  forall z, z ∈ ls ++ y :: rs -> cmp x z = 0 -> z ∈ ls.
Proof using All.
  intros Ho Hxy z [?|Hz]%elem_of_app H0; [done|]. exfalso. apply ordered_app in Ho as (_ & Ho & _).
  simpl in Ho. destruct Ho as [Hy _]. apply elem_of_cons in Hz as [->|Hz]; [lia|].
  assert (cmp x z < 0) by (eapply cmp_lt_le; eauto). lia.
Qed.
Lemma equal_right x ls y rs : ordered (ls ++ y :: rs) -> 0 < cmp x y ->
  forall z, z ∈ ls ++ y :: rs -> cmp x z = 0 -> z ∈ rs.
Proof using All.
  intros Ho Hxy z Hz H0. apply ordered_app in Ho as (_ & _ & Hly).
  apply elem_of_app in Hz as [Hz|[->|?]%elem_of_cons]; [|lia|done]. exfalso.
  assert (cmp z y <= 0) by (apply Hly; [done|by left]).
  assert (cmp x y <= 0) by (apply cmp_trans with z; [lia|done]). lia.
Qed.
End ordered.

(** ** From ownership to heaps *)

Section tree_heaps.
Context {C : Type}.
Implicit Types (t l r : tree C) (c : C) (H : gmap Z (cell C)).

Fixpoint cells (par : Z) t : gmap Z (cell C) :=
  match t with
  | Leaf => ∅
  | Br c l x r => <[x := Node (mkNode c (ptr l) (ptr r) par)]> (cells x l ∪ cells x r)
  end.
Definition tree_cells (tree : Z) t : gmap Z (cell C) := <[tree := Root (ptr t)]> (cells 0 t).

(** The heap [H] holds the tree [t], rooted at the [root] field at [tree]. *)
Definition is_tree H (tree : Z) t : Prop :=
  tree_cells tree t ⊆ H /\ NoDup (inorder t) /\ 0 ∉ inorder t /\ tree ∉ inorder t.

Lemma cells_dom par t p : is_Some (cells par t !! p) <-> p ∈ inorder t.
Proof.
  revert par. induction t as [|c l IHl x r IHr]; intros par; simpl.
  - rewrite lookup_empty elem_of_nil. split; [by intros []|done].
  - rewrite lookup_insert_is_Some' lookup_union_is_Some IHl IHr elem_of_app elem_of_cons.
    split; intros; destruct_or?; subst; auto.
Qed.
Lemma cells_none par t p : p ∉ inorder t -> cells par t !! p = None.
Proof. rewrite -(cells_dom par) -eq_None_not_Some. done. Qed.

Lemma nodup_br c l x r :
  NoDup (inorder (Br c l x r)) ->
  NoDup (inorder l) /\ NoDup (inorder r) /\ x ∉ inorder l /\ x ∉ inorder r /\
  forall p, p ∈ inorder l -> p ∉ inorder r.
Proof.
  simpl. rewrite list.NoDup_app list.NoDup_cons. setoid_rewrite elem_of_cons.
  intros (Hl & Hd & Hx & Hr). repeat split; [done|done| |done|].
  - intros Hxl. apply (Hd x Hxl). by left.
  - intros p Hp Hpr. apply (Hd p Hp). by right.
Qed.

Lemma cells_disjoint par par' l r :
  (forall p, p ∈ inorder l -> p ∉ inorder r) -> cells par l ##ₘ cells par' r.
Proof.
  intros Hd. rewrite map_disjoint_spec. intros p v w E1 E2.
  apply (Hd p); [apply (cells_dom par)|apply (cells_dom par')]; by eexists.
Qed.

Section ownership_of_cells.
Context `{!gen_heapGS Z (cell C) Σ}.

Lemma owns_insert p v (m : gmap Z (cell C)) :
  m !! p = None -> owns (<[p := v]> m) ⊣⊢ pointsto p (DfracOwn 1) v ∗ owns m.
Proof. intros E. rewrite /owns big_sepM_insert //. Qed.
Lemma owns_union (m1 m2 : gmap Z (cell C)) : m1 ##ₘ m2 -> owns (m1 ∪ m2) ⊣⊢ owns m1 ∗ owns m2.
Proof. intros E. rewrite /owns big_sepM_union //. Qed.

Lemma owns_cells par t : NoDup (inorder t) -> 0 ∉ inorder t -> owns (cells par t) ⊣⊢ rep par t.
Proof.
  revert par. induction t as [|c l IHl x r IHr]; intros par Hnd H0; [by rewrite /= /owns big_sepM_empty|].
  apply nodup_br in Hnd as (Hl & Hr & Hxl & Hxr & Hd).
  simpl in *. rewrite not_elem_of_app not_elem_of_cons in H0. destruct H0 as (? & ? & ?).
  rewrite owns_insert; last first.
  { apply lookup_union_None. split; by apply cells_none. }
  rewrite owns_union; [|by apply cells_disjoint]. rewrite IHl // IHr //.
  iSplit; [iIntros "($ & $ & $)"; iPureIntro; congruence|iIntros "(_ & $ & $ & $)"].
Qed.

(** An owned tree has distinct addresses. *)
Lemma rep_no_addr par t p v : rep par t -∗ pointsto p (DfracOwn 1) v -∗ ⌜p ∉ inorder t⌝.
Proof.
  iIntros "Ht Hp". iInduction t as [|c l IHl x r IHr] forall (par); simpl; [iPureIntro; apply not_elem_of_nil|].
  iDestruct "Ht" as "(_ & Hx & Hl & Hr)". iDestruct (cells_differ with "Hp Hx") as %Hne.
  iDestruct ("IHl" with "Hl Hp") as %?. iDestruct ("IHr" with "Hr Hp") as %?. iPureIntro.
  by rewrite not_elem_of_app not_elem_of_cons.
Qed.
Lemma rep_disjoint par l par' r : rep par l -∗ rep par' r -∗ ⌜forall p, p ∈ inorder l -> p ∉ inorder r⌝.
Proof.
  iIntros "Hl Hr". iInduction l as [|c l1 IH1 x l2 IH2] forall (par); simpl.
  { iPureIntro. intros p Hp. by apply elem_of_nil in Hp. }
  iDestruct "Hl" as "(_ & Hx & H1 & H2)". iDestruct (rep_no_addr with "Hr Hx") as %?.
  iDestruct ("IH1" with "H1 Hr") as %?. iDestruct ("IH2" with "H2 Hr") as %?. iPureIntro.
  intros p [?|[->|?]%elem_of_cons]%elem_of_app; auto.
Qed.
Lemma rep_addrs par t : rep par t -∗ ⌜NoDup (inorder t) /\ 0 ∉ inorder t⌝.
Proof.
  iIntros "Ht". iInduction t as [|c l IHl x r IHr] forall (par); simpl.
  { iPureIntro. split; [constructor|apply not_elem_of_nil]. }
  iDestruct "Ht" as "(%Hx & Hx & Hl & Hr)".
  iDestruct (rep_no_addr with "Hl Hx") as %?. iDestruct (rep_no_addr with "Hr Hx") as %?.
  iDestruct (rep_disjoint with "Hl Hr") as %Hd.
  iDestruct ("IHl" with "Hl") as %[? ?]. iDestruct ("IHr" with "Hr") as %[? ?]. iPureIntro.
  rewrite list.NoDup_app list.NoDup_cons not_elem_of_app not_elem_of_cons. repeat split; try done.
  intros p Hp [->|?]%elem_of_cons; [done|by apply (Hd p)].
Qed.

Lemma owns_tree tree t :
  NoDup (inorder t) -> 0 ∉ inorder t -> tree ∉ inorder t -> owns (tree_cells tree t) ⊣⊢ tree_rep tree t.
Proof.
  intros. rewrite /tree_cells owns_insert; [|by apply cells_none]. rewrite owns_cells // /tree_rep /path /=.
  by rewrite left_id.
Qed.
Lemma tree_rep_addrs tree t : tree_rep tree t -∗ ⌜NoDup (inorder t) /\ 0 ∉ inorder t /\ tree ∉ inorder t⌝.
Proof.
  iIntros "[[_ Hroot] Ht]". iDestruct (rep_no_addr with "Ht Hroot") as %?.
  by iDestruct (rep_addrs with "Ht") as %[? ?].
Qed.
End ownership_of_cells.

(** A specification in the logic, read as a statement about heaps. *)
Lemma tree_sound {A} (code : prog (cell C) A) H tree (m : gmap Z (cell C)) (Q : A -> PTree.tree C -> Prop) :
  m ⊆ H ->
  (forall Σ `{!gen_heapGS Z (cell C) Σ}, owns m ⊢ wp code (fun a => ∃ t', ⌜Q a t'⌝ ∗ tree_rep tree t')) ->
  exists a t' H', code H = Ret (a, H') /\ Q a t' /\ is_tree H' tree t' /\
    forall p v, m !! p = None -> H !! p = Some v -> H' !! p = Some v.
Proof.
  intros Hm Hwp.
  destruct (wp_sound code m (H ∖ m) (fun a m' => exists t', Q a t' /\ m' = tree_cells tree t' /\
    NoDup (inorder t') /\ 0 ∉ inorder t' /\ tree ∉ inorder t')) as (a & m' & H' & E & HQ & Hd & Hsub).
  - apply map_disjoint_difference_r1. done.
  - intros Σ HΣ. iIntros "Hm". iDestruct (Hwp Σ with "Hm") as "Hwp". iApply (wp_wand with "Hwp").
    iIntros (a) "(%t' & %HQ & Ht)". iDestruct (tree_rep_addrs with "Ht") as %(? & ? & ?).
    iExists (tree_cells tree t'). rewrite owns_tree //. iFrame. iPureIntro. eauto 10.
  - destruct HQ as (t' & HQ & -> & ? & ? & ?). rewrite map_difference_union in E; [|done].
    exists a, t', H'. split; [done|]. split; [done|]. split.
    + split; [|done]. etrans; [|exact Hsub]. apply map_union_subseteq_l.
    + intros p v Hp Hv. eapply lookup_weaken; [|exact Hsub]. apply lookup_union_Some_r; [done|].
      apply lookup_difference_Some. done.
Qed.
End tree_heaps.
