(* ===== verification/PExchange.v ===== *)
(** The exchange of two nodes in a tree with parent pointers
    ([rb_tree_exchange] and [avl_tree_exchange]): the node [x] and a node [y]
    below it swap places, and the first fields keep theirs. *)
From iris.proofmode Require Import coq_tactics reduction proofmode.
From iris.base_logic.lib Require Import gen_heap.
From S2P Require Import Prelude Heap PTree.

(** The owned nodes and known addresses make up the goal. *)
Ltac own := simpl; iFrame "∗ %"; try done.

Section exchange.
Context {C : Type} `{!gen_heapGS Z (cell C) Σ}.
Implicit Types (K : list (frame C)) (l r : tree C).

(** The subtree that starts with the outermost frame gets a new parent. *)
Lemma wp_link_frames {B} f K hole top p (k : unit -> prog (cell C) B) Φ :
  frames_rep (f :: K) hole top -∗ (frames_rep (f :: K) hole p -∗ wp (k tt) Φ) -∗
  wp (link_child (outptr (f :: K) hole) p ≫= k) Φ.
Proof.
  revert f hole. induction K as [|g K IH]; intros f hole.
  - iIntros "[(%Hf & Hf & Hs) _] HΦ". rewrite /link_child. simpl outptr.
    destruct (Z.eqb_spec (frame_addr f) 0); [done|]. simpl inptr. wp_steps. iApply "HΦ". own.
  - iIntros "[Hf HK] HΦ". change (outptr (f :: g :: K) hole) with (outptr (g :: K) (frame_addr f)).
    iApply (IH g (frame_addr f) with "HK"). iIntros "HK". iApply "HΦ". own.
Qed.

Lemma frames_addr_ne f K hole top p v : frames_rep (f :: K) hole top -∗ pointsto p (DfracOwn 1) v -∗ ⌜frame_addr f <> p⌝.
Proof. iIntros "[(_ & Hf & _) _] Hp". iApply (cells_differ with "Hf Hp"). Qed.

Lemma path_parent_ne tree K hole p v :
  p <> 0 -> path tree K hole -∗ pointsto p (DfracOwn 1) v -∗ ⌜inptr K 0 <> p⌝.
Proof.
  iIntros (Hp) "[HK _] Hp". destruct K as [|f K]; [iPureIntro; simpl; congruence|].
  iApply (frames_addr_ne with "HK Hp").
Qed.

(** [if (n1_parent) { replace n1 by n2 below it }] for the nodes of a path;
    the root field is written later. *)
Definition path_but_root (tree : Z) K (hole : Z) (root : Z) : iProp Σ :=
  frames_rep K hole 0 ∗ pointsto tree (DfracOwn 1) (Root root).

Lemma wp_replace_in_path {B} tree K old new v (k : unit -> prog (cell C) B) Φ :
  old <> 0 -> pointsto old (DfracOwn 1) v -∗ path tree K old -∗
  (pointsto old (DfracOwn 1) v -∗ path_but_root tree K new (outptr K old) -∗ wp (k tt) Φ) -∗
  wp ((if inptr K 0 =? 0 then mret tt else replace_child (inptr K 0) old new) ≫= k) Φ.
Proof.
  iIntros (Hold) "Hv [HK Hroot] HΦ". destruct K as [|f K]; simpl.
  - wp_steps. iApply ("HΦ" with "Hv"). own.
  - iDestruct "HK" as "[Hf HK]". iAssert ⌜frame_addr f <> 0⌝%I as %Hf0; [by iDestruct "Hf" as "[% _]"|].
    destruct (Z.eqb_spec (frame_addr f) 0); [done|].
    iApply (wp_replace_child with "Hv Hf"); [done|]. iIntros "Hv Hf". iApply ("HΦ" with "Hv"). own.
Qed.

(** The write of the root field, in either form the code has. *)
Lemma wp_fix_root {B} tree K old new (k : unit -> prog (cell C) B) Φ :
  path_but_root tree K new (outptr K old) -∗ (path tree K new -∗ wp (k tt) Φ) -∗
  wp ((if inptr K 0 =? 0 then set_root tree new else mret tt) ≫= k) Φ.
Proof.
  iIntros "[HK Hroot] HΦ". destruct K as [|f K]; simpl.
  - wp_steps. iApply "HΦ". own.
  - iAssert ⌜frame_addr f <> 0⌝%I as %Hf0; [by iDestruct "HK" as "[[% _] _]"|].
    destruct (Z.eqb_spec (frame_addr f) 0); [done|]. wp_steps. iApply "HΦ". own.
Qed.

Lemma wp_replace_or_root {B} tree K old new v (k : unit -> prog (cell C) B) Φ :
  old <> 0 -> pointsto old (DfracOwn 1) v -∗ path tree K old -∗
  (pointsto old (DfracOwn 1) v -∗ path tree K new -∗ wp (k tt) Φ) -∗
  wp ((if inptr K 0 =? 0 then set_root tree new else replace_child (inptr K 0) old new) ≫= k) Φ.
Proof.
  iIntros (Hold) "Hv HK HΦ". destruct K as [|f K]; simpl inptr.
  - iDestruct "HK" as "[_ Hroot]". simpl. wp_steps. iApply ("HΦ" with "Hv"). own.
  - rewrite path_cons. iDestruct "HK" as "[Hf HK]".
    iAssert ⌜frame_addr f <> 0⌝%I as %Hf0; [by iDestruct "Hf" as "[% _]"|].
    destruct (Z.eqb_spec (frame_addr f) 0); [done|].
    iApply (wp_replace_child with "Hv Hf"); [done|]. iIntros "Hv Hf". iApply ("HΦ" with "Hv").
    rewrite path_cons. own.
Qed.

Lemma wp_exchange_left {B} fuel tree K c1 K2 c2 l2 y r2 x R (k : unit -> prog (cell C) B) Φ :
  path tree K x -∗ rep (inptr K 0) (Br c1 (plug K2 (Br c2 l2 y r2)) x R) -∗
  (path tree K y -∗ rep (inptr K 0) (Br c1 (plug K2 (Br c2 l2 x r2)) y R) -∗ wp (k tt) Φ) -∗
  wp (exchange (S fuel) tree x y ≫= k) Φ.
Proof.
  rewrite !rep_br !rep_plug !ptr_plug !rep_br. iIntros "HK (%Hx & Hx & HL & HR) HΦ". cbn [exchange].
  iDestruct "HL" as "[HK2 (%Hy & Hy & Hl2 & Hr2)]". wp_steps.
  iDestruct (path_parent_ne with "HK Hy") as %Hpy; [done|].
  destruct K2 as [|f K2]; simpl inptr; simpl outptr.
  - rewrite !Z.eqb_refl. cbn [andb]. wp_steps.
    iApply (wp_link_child with "Hl2"); [done|]. iIntros "Hl2". wp_steps.
    iApply (wp_link_child with "Hr2"); [done|]. iIntros "Hr2". wp_steps.
    iApply (wp_link_child with "HR"); [done|]. iIntros "HR". wp_steps.
    iApply (wp_replace_or_root with "Hx HK"); [done|]. iIntros "Hx HK". wp_steps.
    iApply ("HΦ" with "HK"). own.
  - iDestruct (frames_addr_ne with "HK2 Hx") as %Hfx.
    destruct (Z.eqb_spec (frame_addr f) x); [done|]. cbn [andb].
    destruct (Z.eqb_spec (inptr K 0) y); [done|]. wp_steps.
    iApply (wp_replace_in_path with "Hx HK"); [done|]. iIntros "Hx HK". wp_steps.
    iDestruct "HK2" as "[Hf HK2]". iAssert ⌜frame_addr f <> 0⌝%I as %Hf0; [by iDestruct "Hf" as "[% _]"|].
    destruct (Z.eqb_spec (frame_addr f) 0); [done|].
    iApply (wp_replace_child with "Hy Hf"); [done|]. iIntros "Hy Hf". wp_steps.
    iApply (wp_link_child with "Hl2"); [done|]. iIntros "Hl2". wp_steps.
    iApply (wp_link_child with "Hr2"); [done|]. iIntros "Hr2". wp_steps.
    change (outptr K2 (frame_addr f)) with (outptr (f :: K2) x).
    iApply (wp_link_frames f K2 x x y with "[Hf HK2]"); [own|]. iIntros "HK2". wp_steps.
    iApply (wp_link_child with "HR"); [done|]. iIntros "HR". wp_steps.
    iApply (wp_fix_root with "HK"). iIntros "HK". wp_steps.
    iApply ("HΦ" with "HK"). own.
Qed.

Lemma wp_exchange_right {B} fuel tree K c1 K2 c2 l2 y r2 x L (k : unit -> prog (cell C) B) Φ :
  path tree K x -∗ rep (inptr K 0) (Br c1 L x (plug K2 (Br c2 l2 y r2))) -∗
  (path tree K y -∗ rep (inptr K 0) (Br c1 L y (plug K2 (Br c2 l2 x r2))) -∗ wp (k tt) Φ) -∗
  wp (exchange (S fuel) tree x y ≫= k) Φ.
Proof.
  rewrite !rep_br !rep_plug !ptr_plug !rep_br. iIntros "HK (%Hx & Hx & HL & HR) HΦ". cbn [exchange].
  iDestruct "HR" as "[HK2 (%Hy & Hy & Hl2 & Hr2)]". wp_steps.
  iDestruct (path_parent_ne with "HK Hy") as %Hpy; [done|].
  iDestruct (rep_ptr_ne with "HL Hy") as %HLy; [done|].
  destruct K2 as [|f K2]; simpl inptr; simpl outptr.
  - rewrite !Z.eqb_refl. destruct (Z.eqb_spec (ptr L) y); [done|]. cbn [andb]. wp_steps.
    iApply (wp_link_child with "Hl2"); [done|]. iIntros "Hl2". wp_steps.
    iApply (wp_link_child with "Hr2"); [done|]. iIntros "Hr2". wp_steps.
    iApply (wp_link_child with "HL"); [done|]. iIntros "HL". wp_steps.
    iApply (wp_replace_or_root with "Hx HK"); [done|]. iIntros "Hx HK". wp_steps.
    iApply ("HΦ" with "HK"). own.
  - iDestruct (frames_addr_ne with "HK2 Hx") as %Hfx.
    destruct (Z.eqb_spec (frame_addr f) x); [done|]. cbn [andb].
    destruct (Z.eqb_spec (inptr K 0) y); [done|]. wp_steps.
    iApply (wp_replace_in_path with "Hx HK"); [done|]. iIntros "Hx HK". wp_steps.
    iDestruct "HK2" as "[Hf HK2]". iAssert ⌜frame_addr f <> 0⌝%I as %Hf0; [by iDestruct "Hf" as "[% _]"|].
    destruct (Z.eqb_spec (frame_addr f) 0); [done|].
    iApply (wp_replace_child with "Hy Hf"); [done|]. iIntros "Hy Hf". wp_steps.
    iApply (wp_link_child with "Hl2"); [done|]. iIntros "Hl2". wp_steps.
    iApply (wp_link_child with "Hr2"); [done|]. iIntros "Hr2". wp_steps.
    iApply (wp_link_child with "HL"); [done|]. iIntros "HL". wp_steps.
    change (outptr K2 (frame_addr f)) with (outptr (f :: K2) x).
    iApply (wp_link_frames f K2 x x y with "[Hf HK2]"); [own|]. iIntros "HK2". wp_steps.
    iApply (wp_fix_root with "HK"). iIntros "HK". wp_steps.
    iApply ("HΦ" with "HK"). own.
Qed.
End exchange.
