(* ===== verification/PPlaces.v ===== *)
(** Binary trees with parent pointers, continued: places in a tree, the loops
    that go to an end of it, unlinking a node, and the statements about heaps
    that both kinds of tree use. *)
From iris.proofmode Require Import coq_tactics reduction proofmode.
From iris.base_logic.lib Require Import gen_heap.
From S2P Require Import Prelude Heap PTree PExchange.

(** Two ways to write the same sequence of nodes. *)
Ltac inorder_eq := simpl; repeat (rewrite -!app_assoc; simpl); reflexivity.
(** ** Places in a tree *)

Section places.
Context {C : Type}.
Implicit Types (t l r : tree C) (K : list (frame C)).

Lemma before_app K1 K2 : before (K1 ++ K2) = before K2 ++ before K1.
Proof.
  induction K1 as [|[c x r|c l x] K1 IH]; simpl; [by rewrite app_nil_r|done|]. rewrite IH. by rewrite -app_assoc.
Qed.
Lemma after_app K1 K2 : after (K1 ++ K2) = after K1 ++ after K2.
Proof.
  induction K1 as [|[c x r|c l x] K1 IH]; simpl; [done| |done]. rewrite IH. by rewrite -app_assoc.
Qed.
Lemma tsize_plug K t : (length K + tsize t <= tsize (plug K t))%nat.
Proof.
  revert t. induction K as [|f K IH]; intros t; simpl; [lia|]. specialize (IH (fill1 f t)).
  destruct f; simpl in *; lia.
Qed.

Lemma tsize_plug_eq K t s : tsize t = tsize s -> tsize (plug K t) = tsize (plug K s).
Proof. revert t s. induction K as [|f K IH]; intros t s E; [done|]. simpl. apply IH. destruct f; simpl; lia. Qed.

(** The last node of a tree. *)
Lemma rightmost_place t :
  t <> Leaf -> exists K c l y, t = plug K (Br c l y Leaf) /\ after K = [].
Proof.
  induction t as [|c l IHl y r IHr]; [done|]. intros _. destruct r as [|c' l' z r'].
  - by exists [], c, l, y.
  - destruct IHr as (K & c2 & l2 & w & E & Ha); [done|]. exists (K ++ [FR c l y]), c2, l2, w.
    rewrite plug_app -E after_app Ha. done.
Qed.

(** The first node of a tree. *)
Lemma leftmost_place t :
  t <> Leaf -> exists K c y r, t = plug K (Br c Leaf y r) /\ before K = [].
Proof.
  induction t as [|c l IHl y r IHr]; [done|]. intros _. destruct l as [|c' l' z r'].
  - by exists [], c, y, r.
  - destruct IHl as (K & c2 & w & r2 & E & Hb); [done|]. exists (K ++ [FL c y r]), c2, w, r2.
    rewrite plug_app -E before_app Hb. done.
Qed.

(** A node of a tree and the path to it. *)
Lemma node_place t x : x ∈ inorder t -> exists K c l r, t = plug K (Br c l x r).
Proof.
  induction t as [|c l IHl y r IHr]; simpl; [by intros Hx%elem_of_nil|].
  intros [Hx|[->|Hx]%elem_of_cons]%elem_of_app.
  - destruct (IHl Hx) as (K & c2 & l2 & r2 & E). exists (K ++ [FL c y r]), c2, l2, r2.
    by rewrite plug_app -E.
  - by exists [], c, l, r.
  - destruct (IHr Hx) as (K & c2 & l2 & r2 & E). exists (K ++ [FR c l y]), c2, l2, r2.
    by rewrite plug_app -E.
Qed.
End places.

Fixpoint theight {C} (t : tree C) : nat := match t with Leaf => 0 | Br _ l _ r => S (Nat.max (theight l) (theight r)) end.


(** The height is at most twice the logarithm of the size. *)
Definition balanced {C} (t : tree C) : Prop := 2 ^ Z.of_nat (theight t) <= (Z.of_nat (tsize t) + 1) * (Z.of_nat (tsize t) + 1).

(** A node occurs once in a list without repetitions. *)
Lemma nodup_split_unique (x : Z) ls rs ls' rs' :
  NoDup (ls ++ x :: rs) -> ls ++ x :: rs = ls' ++ x :: rs' -> ls = ls' /\ rs = rs'.
Proof.
  revert ls'. induction ls as [|y ls IH]; intros [|y' ls'] Hnd E; simpl in *.
  - by injection E as ->.
  - injection E as <- ->. apply list.NoDup_cons in Hnd as [Hx _]. destruct Hx.
    rewrite elem_of_app elem_of_cons. auto.
  - injection E as -> <-. apply list.NoDup_cons in Hnd as [Hx _]. destruct Hx.
    rewrite elem_of_app elem_of_cons. auto.
  - injection E as -> E. apply list.NoDup_cons in Hnd as [_ Hnd]. destruct (IH ls' Hnd E) as [-> ->]. done.
Qed.

(** The place of the node [x], and what is left without it. *)
Lemma delete_place {C} (t : tree C) x ls rs :
  NoDup (inorder t) -> inorder t = ls ++ x :: rs ->
  exists K c l r, t = plug K (Br c l x r) /\ before K ++ (inorder l ++ inorder r) ++ after K = ls ++ rs.
Proof.
  intros Hnd Hx. destruct (node_place t x) as (K & c & l & r & ->).
  { rewrite Hx elem_of_app elem_of_cons. auto. }
  exists K, c, l, r. split; [done|]. rewrite inorder_plug /= in Hx. rewrite inorder_plug /= in Hnd.
  assert (before K ++ (inorder l ++ x :: inorder r) ++ after K =
    (before K ++ inorder l) ++ x :: (inorder r ++ after K)) as E by inorder_eq.
  rewrite E in Hx Hnd. destruct (nodup_split_unique x _ _ _ _ Hnd Hx) as [<- <-]. inorder_eq.
Qed.

(** Nodes compared by their address. *)
Definition addr_cmp : cmp_fun := fun a b => a - b.
#[export] Instance addr_cmp_laws : CmpLaws addr_cmp.
Proof. split; unfold addr_cmp; lia. Qed.

Section ends_of_trees.
Context {C : Type} `{!gen_heapGS Z (cell C) Σ}.
Implicit Types (t : tree C) (K : list (frame C)).

Lemma wp_leftmost_loop {B} lf par t (k : Z -> prog (cell C) B) Φ :
  (tsize t <= lf)%nat -> t <> Leaf ->
  rep par t -∗ (∀ y ys, ⌜inorder t = y :: ys⌝ -∗ rep par t -∗ wp (k y) Φ) -∗
  wp (loop lf leftmost_step (ptr t) ≫= k) Φ.
Proof.
  iInduction t as [|c l IHl y r IHr] forall (lf par); iIntros (Hlf Hne) "Ht HΦ"; [done|]. simpl in Hlf.
  destruct lf as [|lf]; [lia|]. cbn [loop]; rewrite /leftmost_step; cbn [ptr].
  iDestruct "Ht" as "(%Hy & Hy & Hl & Hr)". wp_steps. destruct l as [|c' l' z r'] eqn:El; simpl ptr.
  - rewrite Z.eqb_refl. wp_steps. iApply "HΦ"; [done|own].
  - iAssert ⌜z <> 0⌝%I as %Hz; [by iDestruct "Hl" as "[% _]"|]. destruct (Z.eqb_spec z 0); [done|]. wp_steps.
    iApply ("IHl" with "[] [] Hl"); [iPureIntro; simpl in *; lia|done|].
    iIntros (w ws Hw) "Hl". iApply ("HΦ" $! w (ws ++ y :: inorder r)); [iPureIntro|own].
    simpl in *. by rewrite Hw.
Qed.

Lemma wp_rightmost_loop {B} lf par t (k : Z -> prog (cell C) B) Φ :
  (tsize t <= lf)%nat -> t <> Leaf ->
  rep par t -∗ (∀ y ys, ⌜inorder t = ys ++ [y]⌝ -∗ rep par t -∗ wp (k y) Φ) -∗
  wp (loop lf rightmost_step (ptr t) ≫= k) Φ.
Proof.
  iInduction t as [|c l IHl y r IHr] forall (lf par); iIntros (Hlf Hne) "Ht HΦ"; [done|]. simpl in Hlf.
  destruct lf as [|lf]; [lia|]. cbn [loop]; rewrite /rightmost_step; cbn [ptr].
  iDestruct "Ht" as "(%Hy & Hy & Hl & Hr)". wp_steps. destruct r as [|c' l' z r'] eqn:Er; simpl ptr.
  - rewrite Z.eqb_refl. wp_steps. iApply "HΦ"; [done|own].
  - iAssert ⌜z <> 0⌝%I as %Hz; [by iDestruct "Hr" as "[% _]"|]. destruct (Z.eqb_spec z 0); [done|]. wp_steps.
    iApply ("IHr" with "[] [] Hr"); [iPureIntro; simpl in *; lia|done|].
    iIntros (w ws Hw) "Hr". iApply ("HΦ" $! w (inorder l ++ y :: ws)); [iPureIntro|own].
    simpl in *. by rewrite Hw -app_assoc.
Qed.
Lemma tree_rep_root tree t : tree_rep tree t ⊣⊢ pointsto tree (DfracOwn 1) (Root (ptr t)) ∗ rep 0 t.
Proof. rewrite /tree_rep /path /=. by rewrite left_id. Qed.

Lemma rep_ptr_null par t : rep par t -∗ ⌜ptr t = 0 <-> t = Leaf⌝.
Proof. iIntros "Ht". destruct t; simpl; [done|]. iDestruct "Ht" as "[%Hx _]". iPureIntro. done. Qed.

(** The child [ch] takes the place of [x]. *)
Lemma wp_unlink {B} tree K x v ch (k : unit -> prog (cell C) B) Φ :
  x <> 0 -> pointsto x (DfracOwn 1) v -∗ path tree K x -∗ rep x ch -∗
  (pointsto x (DfracOwn 1) v -∗ path tree K (ptr ch) -∗ rep (inptr K 0) ch -∗ wp (k tt) Φ) -∗
  wp ((if inptr K 0 =? 0 then _ ← set_root tree (ptr ch); link_child (ptr ch) 0
       else
         pl ← field nleft (inptr K 0);
         if pl =? x then _ ← set_left (inptr K 0) (ptr ch); link_child (ptr ch) (inptr K 0)
         else
           pr ← field nright (inptr K 0);
           if pr =? x then _ ← set_right (inptr K 0) (ptr ch); link_child (ptr ch) (inptr K 0)
           else mret tt) ≫= k) Φ.
Proof.
  iIntros (Hx) "Hx HK Hch HΦ". destruct K as [|f K]; simpl inptr.
  - iDestruct "HK" as "[_ Hroot]". simpl outptr. rewrite Z.eqb_refl. wp_steps.
    iApply (wp_link_child with "Hch"); [done|]. iIntros "Hch". iApply ("HΦ" with "Hx [Hroot] Hch"). own.
  - rewrite path_cons. iDestruct "HK" as "[(%Hf & Hf & Hs) HK]". destruct (Z.eqb_spec (frame_addr f) 0); [done|].
    wp_steps. destruct f as [c p r|c l p]; simpl in *.
    + rewrite Z.eqb_refl. wp_steps. iApply (wp_link_child with "Hch"); [done|]. iIntros "Hch".
      iApply ("HΦ" with "Hx [Hf Hs HK] Hch"). rewrite path_cons. own.
    + iDestruct (rep_ptr_ne with "Hs Hx") as %Hne; [done|]. destruct (Z.eqb_spec (ptr l) x); [done|]. wp_steps.
      rewrite Z.eqb_refl. wp_steps. iApply (wp_link_child with "Hch"); [done|]. iIntros "Hch".
      iApply ("HΦ" with "Hx [Hf Hs HK] Hch"). rewrite path_cons. own.
Qed.

(** The first and the last node, or [NULL]. *)
Lemma wp_tree_ends fuel tree t :
  (tsize t < fuel)%nat ->
  (tree_rep tree t ⊢ wp (node ← get_root tree; if node =? 0 then mret 0 else loop fuel leftmost_step node)
    (fun y => ∃ t', ⌜t' = t /\ y = default 0 (list.head (inorder t))⌝ ∗ tree_rep tree t')) /\
  (tree_rep tree t ⊢ wp (node ← get_root tree; if node =? 0 then mret 0 else loop fuel rightmost_step node)
    (fun y => ∃ t', ⌜t' = t /\ y = default 0 (list.last (inorder t))⌝ ∗ tree_rep tree t')).
Proof.
  intros Hf. split; rewrite tree_rep_root; iIntros "[Hroot Ht]"; iApply wp_bind_ret; wp_steps;
    iDestruct (rep_ptr_null with "Ht") as %Hnull; destruct (Z.eqb_spec (ptr t) 0) as [E|E].
  - apply Hnull in E as ->. wp_steps. iApply wp_ret. iExists Leaf. rewrite tree_rep_root. by iFrame.
  - iApply (wp_leftmost_loop with "Ht"); [lia|tauto|]. iIntros (y ys Hy) "Ht". iApply wp_ret.
    iExists t. rewrite tree_rep_root Hy. by iFrame.
  - apply Hnull in E as ->. wp_steps. iApply wp_ret. iExists Leaf. rewrite tree_rep_root. by iFrame.
  - iApply (wp_rightmost_loop with "Ht"); [lia|tauto|]. iIntros (y ys Hy) "Ht". iApply wp_ret.
    iExists t. rewrite tree_rep_root Hy last_snoc. by iFrame.
Qed.
End ends_of_trees.

(** ** Statements about heaps *)

(** A tree in the heap and a node outside it. *)
Lemma tree_and_node {C} (H : gmap Z (cell C)) tree t x nd :
  is_tree H tree t -> H !! x = Some (Node nd) -> x ∉ inorder t ->
  <[x := Node nd]> (tree_cells tree t) ⊆ H /\ tree_cells tree t !! x = None /\
  forall p, p <> tree -> p <> x -> p ∉ inorder t -> <[x := Node nd]> (tree_cells tree t) !! p = None.
Proof.
  intros (Hsub & Hnd & H0 & Htr) Hx Hnew. assert (x <> tree) as Hxt.
  { intros ->. apply (lookup_weaken (tree_cells tree t) H tree (Root (ptr t))) in Hsub;
      [congruence|apply lookup_insert_eq]. }
  split; [by apply insert_subseteq_l|]. unfold tree_cells. split.
  - rewrite lookup_insert_ne //. by apply cells_none.
  - intros p ? ? ?. rewrite !lookup_insert_ne //. by apply cells_none.
Qed.

(** Reading programs: the specification above as a statement about heaps. *)
Lemma tree_read {C A} (code : prog (cell C) A) H tree (t : PTree.tree C) (Q : A -> Prop) :
  is_tree H tree t ->
  (forall Σ `{!gen_heapGS Z (cell C) Σ}, tree_rep tree t ⊢ wp code (fun a => ∃ t', ⌜t' = t /\ Q a⌝ ∗ tree_rep tree t')) ->
  exists a H', code H = Ret (a, H') /\ Q a /\ is_tree H' tree t.
Proof.
  intros (Hsub & Hnd & H0 & Htr) Hwp.
  destruct (tree_sound code H tree (tree_cells tree t) (fun a t' => t' = t /\ Q a))
    as (a & t' & H' & E & [-> HQ] & Ht' & _); [done| |by exists a, H'].
  intros Σ HΣ. rewrite owns_tree //.
Qed.

(** A word of a header is not a node. *)
Lemma cells_node {C} par (u : tree C) p c : cells par u !! p = Some c -> exists n, c = Node n.
Proof.
  revert par. induction u as [|b l IHl x r IHr]; intros par; simpl; [by rewrite lookup_empty|].
  intros [[_ <-]|[_ [Hl|[_ Hr]]%lookup_union_Some_raw]]%lookup_insert_Some; eauto.
Qed.
Lemma tree_cells_word {C} (H : gmap Z (cell C)) (a : Z) (u : tree C) (w v : Z) :
  is_tree H a u -> H !! w = Some (Root v) -> w <> a -> tree_cells a u !! w = None.
Proof.
  intros (Hsub & _) Hw Hne. destruct (tree_cells a u !! w) as [c|] eqn:E; [|done]. exfalso.
  pose proof (lookup_weaken _ _ _ _ E Hsub) as E'. rewrite Hw in E'. injection E' as <-.
  unfold tree_cells in E. rewrite lookup_insert_ne // in E. by apply cells_node in E as [n [=]].
Qed.

(** A tree and one more word of its header. *)
Lemma tree_word_sound {C A} (code : prog (cell C) A) H a w (cs : gmap Z (cell C)) (Q : A -> tree C -> Z -> Prop) :
  cs ⊆ H ->
  (forall Σ `{!gen_heapGS Z (cell C) Σ},
    owns cs ⊢ wp code (fun y => ∃ t' v, ⌜Q y t' v⌝ ∗ tree_rep a t' ∗ pointsto w (DfracOwn 1) (Root v))) ->
  exists y t' v H', code H = Ret (y, H') /\ Q y t' v /\ is_tree H' a t' /\ H' !! w = Some (Root v).
Proof.
  intros Hm Hwp.
  destruct (wp_sound code cs (H ∖ cs) (fun y m' => exists t' v, Q y t' v /\ m' = <[w := Root v]> (tree_cells a t') /\
    NoDup (inorder t') /\ 0 ∉ inorder t' /\ a ∉ inorder t' /\ tree_cells a t' !! w = None))
    as (y & m' & H' & E & (t' & v & HQ & -> & Hnd & H0 & Ha & Hnone) & Hd & Hsub).
  - apply map_disjoint_difference_r1. done.
  - intros Σ HΣ. iIntros "Hm". iDestruct (Hwp Σ with "Hm") as "Hwp". iApply (wp_wand with "Hwp").
    iIntros (y) "(%t' & %v & %HQ & HT & Hw)". iDestruct (tree_rep_addrs with "HT") as %(? & ? & ?).
    iExists (<[w := Root v]> (tree_cells a t')). iAssert ⌜tree_cells a t' !! w = None⌝%I as %Hnone.
    { rewrite tree_rep_root. iDestruct "HT" as "[Hroot HT]". iDestruct (cells_differ with "Hroot Hw") as %?.
      iDestruct (rep_no_addr with "HT Hw") as %?. iPureIntro. rewrite /tree_cells lookup_insert_ne //. by apply cells_none. }
    rewrite owns_insert // owns_tree //. iFrame. iPureIntro. eauto 15.
  - rewrite map_difference_union in E; [|done]. exists y, t', v, H'. split; [done|]. split; [done|].
    assert (<[w := Root v]> (tree_cells a t') ⊆ H') as Hsub' by (etrans; [|exact Hsub]; apply map_union_subseteq_l).
    split; [split; [|done]|].
    + etrans; [|exact Hsub']. by apply insert_subseteq.
    + eapply lookup_weaken; [|exact Hsub']. apply lookup_insert_eq.
Qed.
