(* ===== verification/RbTree.v ===== *)
(** Red-black trees of rbtree/rbtree.h and rbtree/rbtree.c.

    [is_black] is the first field of a node.  The operations take a bound on
    the number of steps up or down the tree. *)
From iris.proofmode Require Import coq_tactics reduction proofmode.
From iris.base_logic.lib Require Import gen_heap.
From S2P Require Import Prelude Heap PTree PExchange PPlaces.

Abbreviation rb_cell := (cell bool).
Definition is_black (p : Z) : prog rb_cell bool := field payload p.
Definition set_black (p : Z) (b : bool) : prog rb_cell unit := set_payload p b.

(** [!p || p->is_black] *)
Definition null_or_black (p : Z) : prog rb_cell bool := orM (mret (p =? 0)) (is_black p).
(** [p && p->is_black == 0] *)
Definition is_red (p : Z) : prog rb_cell bool := andM (mret (negb (p =? 0))) (b ← is_black p; mret (negb b)).

(** ** Validity checks *)

Fixpoint rb_subtree_ptrs_valid (fuel : nat) (node : Z) : prog rb_cell Z :=
  match fuel with
  | O => fun _ => OutOfFuel
  | S fuel =>
  let side (child : Z) : prog rb_cell Z :=
    if child =? 0 then mret 1
    else
      p ← field nparent child;
      if negb (p =? node) then mret 0 else rb_subtree_ptrs_valid fuel child in
  l ← field nleft node;
  resultl ← side l;
  if resultl =? 0 then mret 0
  else
    r ← field nright node;
    resultr ← side r;
    if resultr =? 0 then mret 0 else mret 1
  end.

Fixpoint rb_subtree_height (fuel : nat) (node : Z) : prog rb_cell Z :=
  match fuel with
  | O => fun _ => OutOfFuel
  | S fuel =>
  let side (child : Z) : prog rb_cell Z :=
    if child =? 0 then mret 0
    else
      p ← field nparent child;
      if negb (p =? node) then mret (-1) else rb_subtree_height fuel child in
  l ← field nleft node;
  resultl ← side l;
  if resultl <? 0 then mret (-1)
  else
    r ← field nright node;
    resultr ← side r;
    if resultr <? 0 then mret (-1)
    else if negb (resultl =? resultr) then mret (-1)
    else
      b ← is_black node;
      mret (if (b : bool) then 1 + resultr else resultr)
  end.

Definition rb_tree_nocmp_ptrs_valid (fuel : nat) (tree : Z) : prog rb_cell Z :=
  root ← get_root tree;
  if root =? 0 then mret 1
  else
    p ← field nparent root;
    if negb (p =? 0) then mret 0
    else
      v ← rb_subtree_ptrs_valid fuel root;
      mret (if v =? 0 then 0 else 1).

Definition rb_tree_nocmp_valid (fuel : nat) (tree : Z) : prog rb_cell Z :=
  root ← get_root tree;
  if root =? 0 then mret 1
  else
    p ← field nparent root;
    if negb (p =? 0) then mret 0
    else
      h ← rb_subtree_height fuel root;
      mret (if h <? 0 then 0 else 1).

(** ** Searching *)

Definition rb_tree_nocmp_init (tree : Z) : prog rb_cell unit := set_root tree 0.
Definition rb_tree_nocmp_root (tree : Z) : prog rb_cell Z := get_root tree.

Definition rb_tree_nocmp_leftmost (fuel : nat) (tree : Z) : prog rb_cell Z :=
  node ← get_root tree;
  if node =? 0 then mret 0 else loop fuel leftmost_step node.

Definition rb_tree_nocmp_rightmost (fuel : nat) (tree : Z) : prog rb_cell Z :=
  node ← get_root tree;
  if node =? 0 then mret 0 else loop fuel rightmost_step node.

Definition find_step (cmp : cmp_fun) (tofind node : Z) : prog rb_cell (Z + Z) :=
  if node =? 0 then mret (inr node)
  else
    let res := cmp tofind node in
    if res <? 0 then l ← field nleft node; mret (inl l)
    else if res >? 0 then r ← field nright node; mret (inl r)
    else mret (inr node).
Definition rb_tree_nocmp_find (fuel : nat) (tree : Z) (cmp : cmp_fun) (tofind : Z) : prog rb_cell Z :=
  node ← get_root tree;
  loop fuel (find_step cmp tofind) node.

(** ** Rotations *)

Definition sibling (node : Z) : prog rb_cell Z :=
  p ← field nparent node;
  if p =? 0 then mret 0
  else
    l ← field nleft p;
    if node =? l then field nright p else field nleft p.

Definition sibling_parent (node p : Z) : prog rb_cell Z :=
  if p =? 0 then mret 0
  else
    l ← field nleft p;
    if node =? l then field nright p else field nleft p.

Definition uncle (node : Z) : prog rb_cell Z :=
  p ← field nparent node;
  g ← field nparent p;
  if g =? 0 then mret 0 else sibling p.

Definition rotate_left (tree p : Z) : prog rb_cell unit :=
  parent ← field nparent p;
  q ← field nright p;
  a ← field nleft p;
  b ← field nleft q;
  c ← field nright q;
  _ ← set_left p a;
  _ ← link_child a p;
  _ ← set_right p b;
  _ ← link_child b p;
  _ ← set_left q p;
  _ ← set_parent p q;
  _ ← set_right q c;
  _ ← link_child c q;
  if parent =? 0 then
    _ ← set_root tree q;
    set_parent q 0
  else
    _ ← replace_child parent p q;
    set_parent q parent.

Definition rotate_right (tree q : Z) : prog rb_cell unit :=
  parent ← field nparent q;
  p ← field nleft q;
  a ← field nleft p;
  b ← field nright p;
  c ← field nright q;
  _ ← set_left p a;
  _ ← link_child a p;
  _ ← set_right p q;
  _ ← set_parent q p;
  _ ← set_left q b;
  _ ← link_child b q;
  _ ← set_right q c;
  _ ← link_child c q;
  if parent =? 0 then
    _ ← set_root tree p;
    set_parent p 0
  else
    _ ← replace_child parent q p;
    set_parent p parent.

(** ** Insertion *)

(** The case of a red parent and a black uncle. *)
Definition insert_rotate (tree node p : Z) : prog rb_cell unit :=
  g ← field nparent p;
  gl ← field nleft g;
  inner_l ← andM (mret (negb (gl =? 0))) (x ← field nright gl; mret (node =? x));
  node ← (if (inner_l : bool) then
            _ ← rotate_left tree p; field nleft node
          else
            gr ← field nright g;
            inner_r ← andM (mret (negb (gr =? 0))) (x ← field nleft gr; mret (node =? x));
            if (inner_r : bool) then
              _ ← rotate_right tree p; field nright node
            else mret node);
  p ← field nparent node;
  g ← field nparent p;
  pl ← field nleft p;
  _ ← (if node =? pl then rotate_right tree g else rotate_left tree g);
  _ ← set_black p true;
  set_black g false.

Fixpoint rb_tree_nocmp_insert_repair (fuel : nat) (tree node : Z) : prog rb_cell unit :=
  match fuel with
  | O => fun _ => OutOfFuel
  | S fuel =>
  p ← field nparent node;
  if p =? 0 then set_black node true
  else
    pb ← is_black p;
    if (pb : bool) then mret tt
    else
      u ← uncle node;
      ured ← is_red u;
      if (ured : bool) then
        _ ← set_black p true;
        u ← uncle node;
        _ ← set_black u true;
        g ← field nparent p;
        _ ← set_black g false;
        rb_tree_nocmp_insert_repair fuel tree g
      else
        insert_rotate tree node p
  end.

Definition init_node (node : Z) : prog rb_cell unit :=
  _ ← set_black node false;
  _ ← set_left node 0;
  set_right node 0.

Definition insert_step (fuel : nat) (tree : Z) (cmp : cmp_fun) (node node2 : Z) : prog rb_cell (Z + unit) :=
  if cmp node node2 <? 0 then
    l ← field nleft node2;
    if l =? 0 then
      _ ← set_left node2 node;
      _ ← set_parent node node2;
      _ ← rb_tree_nocmp_insert_repair fuel tree node;
      mret (inr tt)
    else mret (inl l)
  else
    r ← field nright node2;
    if r =? 0 then
      _ ← set_right node2 node;
      _ ← set_parent node node2;
      _ ← rb_tree_nocmp_insert_repair fuel tree node;
      mret (inr tt)
    else mret (inl r).

Definition rb_tree_insert (fuel : nat) (tree : Z) (cmp : cmp_fun) (node : Z) : prog rb_cell unit :=
  _ ← init_node node;
  root ← get_root tree;
  if root =? 0 then
    _ ← set_root tree node;
    _ ← set_parent node 0;
    rb_tree_nocmp_insert_repair fuel tree node
  else loop fuel (insert_step fuel tree cmp node) root.

(** [-EEXIST] is -17. *)
Definition insert_nonexist_step (fuel : nat) (tree : Z) (cmp : cmp_fun) (toinsert node : Z)
    : prog rb_cell (Z + Z) :=
  let res := cmp toinsert node in
  if res <? 0 then
    l ← field nleft node;
    if l =? 0 then
      _ ← set_left node toinsert;
      _ ← set_parent toinsert node;
      _ ← rb_tree_nocmp_insert_repair fuel tree toinsert;
      mret (inr 0)
    else mret (inl l)
  else if res >? 0 then
    r ← field nright node;
    if r =? 0 then
      _ ← set_right node toinsert;
      _ ← set_parent toinsert node;
      _ ← rb_tree_nocmp_insert_repair fuel tree toinsert;
      mret (inr 0)
    else mret (inl r)
  else mret (inr (-17)).

Definition rb_tree_nocmp_insert_nonexist (fuel : nat) (tree : Z) (cmp : cmp_fun) (toinsert : Z)
    : prog rb_cell Z :=
  node ← get_root tree;
  _ ← init_node toinsert;
  if node =? 0 then
    _ ← set_root tree toinsert;
    _ ← set_parent toinsert 0;
    _ ← rb_tree_nocmp_insert_repair fuel tree toinsert;
    mret 0
  else loop fuel (insert_nonexist_step fuel tree cmp toinsert) node.

(** ** Deletion *)

Definition rb_tree_delete_case6 (tree n parent : Z) : prog rb_cell unit :=
  s ← sibling_parent n parent;
  pb ← is_black parent;
  _ ← set_black s pb;
  _ ← set_black parent true;
  pl ← field nleft parent;
  if n =? pl then
    sr ← field nright s;
    _ ← set_black sr true;
    rotate_left tree parent
  else
    sl ← field nleft s;
    _ ← set_black sl true;
    rotate_right tree parent.

Definition rb_tree_delete_case5 (tree n parent : Z) : prog rb_cell unit :=
  s ← sibling_parent n parent;
  sb ← is_black s;
  _ ← (if (sb : bool) then
         c1 ← andM (pl ← field nleft parent; mret (n =? pl))
                (andM (sr ← field nright s; null_or_black sr) (sl ← field nleft s; is_red sl));
         if (c1 : bool) then
           _ ← set_black s false;
           sl ← field nleft s;
           _ ← set_black sl true;
           rotate_right tree s
         else
           c2 ← andM (pr ← field nright parent; mret (n =? pr))
                  (andM (sl ← field nleft s; null_or_black sl) (sr ← field nright s; is_red sr));
           if (c2 : bool) then
             _ ← set_black s false;
             sr ← field nright s;
             _ ← set_black sr true;
             rotate_left tree s
           else mret tt
       else mret tt);
  rb_tree_delete_case6 tree n parent.

Definition rb_tree_delete_case4 (tree n parent : Z) : prog rb_cell unit :=
  s ← sibling_parent n parent;
  c ← andM (b ← is_black parent; mret (negb b))
        (andM (null_or_black s)
           (andM (sl ← field nleft s; null_or_black sl) (sr ← field nright s; null_or_black sr)));
  if (c : bool) then
    _ ← set_black s false;
    set_black parent true
  else rb_tree_delete_case5 tree n parent.

(** [case1] is the recursive call. *)
Definition rb_tree_delete_case3 (case1 : Z -> Z -> prog rb_cell unit) (tree n parent : Z) : prog rb_cell unit :=
  s ← sibling_parent n parent;
  c ← andM (null_or_black parent)
        (andM (null_or_black s)
           (andM (sl ← field nleft s; null_or_black sl) (sr ← field nright s; null_or_black sr)));
  if (c : bool) then
    _ ← set_black s false;
    pp ← field nparent parent;
    case1 parent pp
  else rb_tree_delete_case4 tree n parent.

Definition rb_tree_delete_case2 (case1 : Z -> Z -> prog rb_cell unit) (tree n parent : Z) : prog rb_cell unit :=
  s ← sibling_parent n parent;
  c ← is_red s;
  _ ← (if (c : bool) then
         _ ← set_black parent false;
         _ ← set_black s true;
         pl ← field nleft parent;
         if n =? pl then rotate_left tree parent else rotate_right tree parent
       else mret tt);
  rb_tree_delete_case3 case1 tree n parent.

Fixpoint rb_tree_delete_case1 (fuel : nat) (tree node parent : Z) : prog rb_cell unit :=
  match fuel with
  | O => fun _ => OutOfFuel
  | S fuel =>
      if parent =? 0 then mret tt
      else rb_tree_delete_case2 (rb_tree_delete_case1 fuel tree) tree node parent
  end.

Definition rb_tree_exchange (fuel : nat) (tree n1 n2 : Z) : prog rb_cell unit := exchange fuel tree n1 n2.

Definition rb_tree_delete_one_child (fuel : nat) (tree node : Z) : prog rb_cell unit :=
  r ← field nright node;
  l ← field nleft node;
  let child := if r =? 0 then l else r in
  parent ← field nparent node;
  _ ← (if parent =? 0 then
         _ ← set_root tree child; link_child child 0
       else
         pl ← field nleft parent;
         if pl =? node then
           _ ← set_left parent child; link_child child parent
         else
           pr ← field nright parent;
           if pr =? node then
             _ ← set_right parent child; link_child child parent
           else mret tt);
  nb ← is_black node;
  if (nb : bool) then
    cred ← is_red child;
    if (cred : bool) then set_black child true
    else
      parent ← field nparent node;
      rb_tree_delete_case1 fuel tree child parent
  else mret tt.

Definition rb_tree_nocmp_delete (fuel : nat) (tree node : Z) : prog rb_cell unit :=
  l ← field nleft node;
  r ← field nright node;
  if negb (l =? 0) && negb (r =? 0) then
    node2 ← loop fuel rightmost_step l;
    _ ← rb_tree_exchange fuel tree node node2;
    rb_tree_delete_one_child fuel tree node
  else rb_tree_delete_one_child fuel tree node.

(** ** The red-black discipline *)

Abbreviation rbt := (tree bool).

Definition blk (t : rbt) : bool := match t with Br false _ _ _ => false | _ => true end.

(** Every path has [n] black nodes and no two red nodes in a row. *)
Fixpoint rb (t : rbt) (n : nat) : Prop :=
  match t with
  | Leaf => n = O
  | Br true l _ r => exists m, n = S m /\ rb l m /\ rb r m
  | Br false l _ r => blk l = true /\ blk r = true /\ rb l n /\ rb r n
  end.
Definition rb_valid (t : rbt) : Prop := blk t = true /\ exists n, rb t n.

(** A path into which a subtree of black height [n] fits.  The frame at the
    root is black. *)
Abbreviation frame_black f := (frame_pl (C := bool) f).
Definition head_black (K : list (frame bool)) : bool := match K with [] => false | f :: _ => frame_black f end.
Fixpoint rbK (K : list (frame bool)) (n : nat) : Prop :=
  match K with
  | [] => True
  | f :: K => rb (frame_sib f) n /\ (frame_black f = false -> blk (frame_sib f) = true /\ head_black K = true) /\
      rbK K (if frame_black f then S n else n)
  end.

Lemma rb_plug K t n : rbK K n -> rb t n -> (blk t = true \/ head_black K = true) -> rb_valid (plug K t).
Proof.
  revert t n. induction K as [|f K IH]; intros t n HK Ht Hb; simpl in *.
  - destruct Hb; [|done]. by split; [|exists n].
  - destruct HK as (Hs & Hred & HK). apply (IH _ (if frame_black f then S n else n)); [done| |].
    + destruct f as [c x r|c l x], c; simpl in *; try (by exists n);
        destruct (Hred eq_refl); destruct Hb; done.
    + destruct f as [c x r|c l x], c; simpl in *; try (by left); right; by apply Hred.
Qed.

Section rb_proofs.
Context `{!gen_heapGS Z rb_cell Σ}.
Implicit Types (t : rbt) (K : list (frame bool)).

Lemma wp_is_black {B} p c l r par (k : bool -> prog rb_cell B) Φ :
  node p c l r par -∗ (node p c l r par -∗ wp (k c) Φ) -∗ wp (is_black p ≫= k) Φ.
Proof. iIntros "Hn HΦ". rewrite /is_black. wp_step. by iApply "HΦ". Qed.

(** The colour tests on a subtree. *)
Lemma wp_is_red {B} t p par (k : bool -> prog rb_cell B) Φ :
  ptr t = p -> rep par t -∗ (rep par t -∗ wp (k (negb (blk t))) Φ) -∗ wp (is_red p ≫= k) Φ.
Proof.
  iIntros (<-) "Ht HΦ". rewrite /is_red /andM. destruct t as [|c l x r]; simpl; wp_steps.
  - by iApply "HΦ".
  - iDestruct "Ht" as "(%Hx & Hn & Hl & Hr)". destruct (Z.eqb_spec x 0); [done|]. simpl.
    rewrite /is_black. wp_steps. destruct c; (iApply "HΦ"; by iFrame).
Qed.

Lemma wp_null_or_black {B} t p par (k : bool -> prog rb_cell B) Φ :
  ptr t = p -> rep par t -∗ (rep par t -∗ wp (k (blk t)) Φ) -∗ wp (null_or_black p ≫= k) Φ.
Proof.
  iIntros (<-) "Ht HΦ". rewrite /null_or_black /orM. destruct t as [|c l x r]; simpl; wp_steps.
  - by iApply "HΦ".
  - iDestruct "Ht" as "(%Hx & Hn & Hl & Hr)". destruct (Z.eqb_spec x 0); [done|]. simpl.
    rewrite /is_black. wp_steps. destruct c; (iApply "HΦ"; by iFrame).
Qed.

(** The end of a rotation: [q] takes the place of [p] below [K]. *)
Lemma wp_relink {B} tree K p q cq lq rq v (k : unit -> prog rb_cell B) Φ :
  p <> 0 -> pointsto p (DfracOwn 1) v -∗ node q cq lq rq p -∗ path tree K p -∗
  (pointsto p (DfracOwn 1) v -∗ node q cq lq rq (inptr K 0) -∗ path tree K q -∗ wp (k tt) Φ) -∗
  wp ((if inptr K 0 =? 0 then _ ← set_root tree q; set_parent q 0
       else _ ← replace_child (inptr K 0) p q; set_parent q (inptr K 0)) ≫= k) Φ.
Proof.
  iIntros (Hp) "Hp Hq Hpath HΦ". destruct K as [|f K]; simpl.
  - iDestruct "Hpath" as "[_ Hroot]". simpl. wp_steps. iApply ("HΦ" with "Hp Hq"). by iFrame.
  - rewrite path_cons. iDestruct "Hpath" as "[Hf HK]".
    iAssert ⌜frame_addr f <> 0⌝%I as %Hf0; [by iDestruct "Hf" as "[% _]"|].
    destruct (Z.eqb_spec (frame_addr f) 0); [done|]. wp_step.
    iApply (wp_replace_child with "Hp Hf"); [done|]. iIntros "Hp Hf". wp_steps.
    iApply ("HΦ" with "Hp Hq"). rewrite path_cons. iFrame.
Qed.

Lemma wp_rotate_left {B} tree K cp a p cq b q c (k : unit -> prog rb_cell B) Φ :
  path tree K p -∗ rep (inptr K 0) (Br cp a p (Br cq b q c)) -∗
  (path tree K q -∗ rep (inptr K 0) (Br cq (Br cp a p b) q c) -∗ wp (k tt) Φ) -∗
  wp (rotate_left tree p ≫= k) Φ.
Proof.
  iIntros "Hpath (%Hp & Hp & Ha & %Hq & Hq & Hb & Hc) HΦ". rewrite /rotate_left. wp_steps.
  iApply (wp_link_child with "Ha"); [done|]. iIntros "Ha". wp_steps.
  iApply (wp_link_child with "Hb"); [done|]. iIntros "Hb". wp_steps.
  iApply (wp_link_child with "Hc"); [done|]. iIntros "Hc".
  iApply (wp_relink with "Hp Hq Hpath"); [done|]. iIntros "Hp Hq Hpath".
  iApply ("HΦ" with "Hpath"). simpl. by iFrame.
Qed.

Lemma wp_rotate_right {B} tree K cp a p cq b q c (k : unit -> prog rb_cell B) Φ :
  path tree K q -∗ rep (inptr K 0) (Br cq (Br cp a p b) q c) -∗
  (path tree K p -∗ rep (inptr K 0) (Br cp a p (Br cq b q c)) -∗ wp (k tt) Φ) -∗
  wp (rotate_right tree q ≫= k) Φ.
Proof.
  iIntros "Hpath (%Hq & Hq & (%Hp & Hp & Ha & Hb) & Hc) HΦ". rewrite /rotate_right. wp_steps.
  iApply (wp_link_child with "Ha"); [done|]. iIntros "Ha". wp_steps.
  iApply (wp_link_child with "Hb"); [done|]. iIntros "Hb". wp_steps.
  iApply (wp_link_child with "Hc"); [done|]. iIntros "Hc".
  iApply (wp_relink with "Hq Hp Hpath"); [done|]. iIntros "Hq Hp Hpath".
  iApply ("HΦ" with "Hpath"). simpl. by iFrame.
Qed.

(** ** Insertion *)

(** [uncle] of the subtree below the frames [f] and [g]. *)
Lemma wp_uncle {B} x c l r f g par (k : Z -> prog rb_cell B) Φ :
  node x c l r (frame_addr f) -∗ frame_rep f x (frame_addr g) -∗ frame_rep g (frame_addr f) par -∗
  (node x c l r (frame_addr f) -∗ frame_rep f x (frame_addr g) -∗ frame_rep g (frame_addr f) par -∗
    wp (k (ptr (frame_sib g))) Φ) -∗
  wp (uncle x ≫= k) Φ.
Proof.
  iIntros "Hx (%Hf & Hf & Hfs) (%Hg & Hg & Hgs) HΦ". rewrite /uncle /sibling. wp_steps.
  destruct (Z.eqb_spec (frame_addr g) 0); [done|]. wp_steps.
  destruct (Z.eqb_spec (frame_addr g) 0); [done|].
  iDestruct (rep_ptr_ne with "Hgs Hf") as %Hne; [done|].
  iApply (wp_sibling_test g (frame_addr f) par with "[Hg Hgs]"); [done|by iFrame|].
  iIntros "Hg". iApply ("HΦ" with "Hx [Hf Hfs] Hg"). by iFrame.
Qed.

(** [x] is not a child of the subtree [t]. *)
Lemma wp_not_child {B} t p par x v (sel : tree_node bool -> Z) (k : bool -> prog rb_cell B) Φ :
  ptr t = p -> x <> 0 -> (sel = nleft \/ sel = nright) ->
  pointsto x (DfracOwn 1) v -∗ rep par t -∗
  (pointsto x (DfracOwn 1) v -∗ rep par t -∗ wp (k false) Φ) -∗
  wp (andM (mret (negb (p =? 0))) (y ← field sel p; mret (x =? y)) ≫= k) Φ.
Proof.
  iIntros (<- Hx Hsel) "Hx Ht HΦ". rewrite /andM. destruct t as [|c l y r]; simpl; wp_steps.
  - by iApply ("HΦ" with "Hx").
  - iDestruct "Ht" as "(%Hy & Hn & Hl & Hr)". destruct (Z.eqb_spec y 0); [done|]. cbn [negb].
    wp_steps. iDestruct (rep_ptr_ne with "Hl Hx") as %Hl; [done|].
    iDestruct (rep_ptr_ne with "Hr Hx") as %Hr; [done|].
    destruct Hsel as [-> | ->]; wp_norm;
      [destruct (Z.eqb_spec x (ptr l)); [done|]|destruct (Z.eqb_spec x (ptr r)); [done|]];
      wp_steps; iApply ("HΦ" with "Hx"); by iFrame.
Qed.
End rb_proofs.

Ltac rb_step :=
  cbv beta; lazymatch goal with
  | |- envs_entails _ (wp (is_black _ ≫= _) _) => wp_field_step
  | |- envs_entails _ (wp (set_black _ _ ≫= _) _) => wp_set_step
  | |- _ => wp_step
  end.
Ltac rb_steps := repeat rb_step; cbv beta.

(** The shape after the rotations of an insertion: a black [m] over two red
    nodes, the same four subtrees, the same order. *)
Definition rotated (f g : frame bool) (L : rbt) (x : Z) (R : rbt) (A : rbt) (a : Z) (B : rbt) (m : Z)
    (D : rbt) (d : Z) (E : rbt) : Prop :=
  (forall P : rbt -> Prop, P L -> P R -> P (frame_sib f) -> P (frame_sib g) -> P A /\ P B /\ P D /\ P E) /\
  inorder (Br true (Br false A a B) m (Br false D d E)) = inorder (fill1 g (fill1 f (Br false L x R))).

Section rb_insertion.
Context `{!gen_heapGS Z rb_cell Σ}.
Implicit Types (t : rbt) (K : list (frame bool)).

Lemma wp_insert_rotate {B} tree K f g L x R (k : unit -> prog rb_cell B) Φ :
  frame_pl f = false -> path tree K (frame_addr g) -∗ frame_rep g (frame_addr f) (inptr K 0) -∗
  frame_rep f x (frame_addr g) -∗ rep (frame_addr f) (Br false L x R) -∗
  (∀ A a B' m D d E, ⌜rotated f g L x R A a B' m D d E⌝ -∗ path tree K m -∗
    rep (inptr K 0) (Br true (Br false A a B') m (Br false D d E)) -∗ wp (k tt) Φ) -∗
  wp (insert_rotate tree x (frame_addr f) ≫= k) Φ.
Proof.
  iIntros (Hred) "HK (%Hg & Hg & Hgs) (%Hf & Hf & Hfs) (%Hx & Hx & HL & HR) HΦ". rewrite /insert_rotate. rb_steps.
  iDestruct (rep_ptr_ne with "Hfs Hx") as %Hfx; [done|].
  iDestruct (rep_ptr_ne with "HL Hf") as %HLf; [done|].
  destruct g as [cg g r|cg l g], f as [cf p r'|cf l' p]; simpl in *; subst cf.
  - (* left, left *)
    rewrite /andM. rb_steps. destruct (Z.eqb_spec p 0); [done|]. cbn [negb]. rb_steps.
    destruct (Z.eqb_spec x (ptr r')); [congruence|]. rb_steps.
    iApply (wp_not_child with "Hx Hgs"); [done|done|by left|]. iIntros "Hx Hgs". rb_steps.
    rewrite Z.eqb_refl.
    iApply (wp_rotate_right tree K false (Br false L x R) p cg r' g r with "HK [Hg Hgs Hf Hfs Hx HL HR]").
    { own. }
    iIntros "HK (_ & Hp & (_ & Hx & HL & HR) & _ & Hg & Hfs & Hgs)". rb_steps.
    iApply ("HΦ" $! L x R p r' g r with "[] HK"); [iPureIntro|own].
    split; [intros P; simpl; tauto|]. inorder_eq.
  - (* left, then right *)
    rewrite /andM. rb_steps. destruct (Z.eqb_spec p 0); [done|]. cbn [negb]. rb_steps.
    rewrite Z.eqb_refl. rb_steps.
    iApply (wp_rotate_left tree (FL cg g r :: K) false l' p false L x R with "[HK Hg Hgs] [Hf Hfs Hx HL HR]").
    { rewrite path_cons. own. }
    { own. }
    iIntros "Hpath (_ & Hx & (_ & Hp & Hfs & HL) & HR)". rewrite path_cons.
    iDestruct "Hpath" as "[(_ & Hg & Hgs) HK]". simpl. rb_steps. rewrite Z.eqb_refl.
    iApply (wp_rotate_right tree K false (Br false l' p L) x cg R g r with "HK [Hg Hgs Hp Hfs Hx HL HR]").
    { own. }
    iIntros "HK (_ & Hx & (_ & Hp & Hfs & HL) & _ & Hg & HR & Hgs)". rb_steps.
    iApply ("HΦ" $! l' p L x R g r with "[] HK"); [iPureIntro|own].
    split; [intros P; simpl; tauto|]. inorder_eq.
  - (* right, then left *)
    iApply (wp_not_child with "Hx Hgs"); [done|done|by right|]. iIntros "Hx Hgs". rb_steps.
    rewrite /andM. rb_steps. destruct (Z.eqb_spec p 0); [done|]. cbn [negb]. rb_steps.
    rewrite Z.eqb_refl. rb_steps.
    iApply (wp_rotate_right tree (FR cg l g :: K) false L x false R p r' with "[HK Hg Hgs] [Hf Hfs Hx HL HR]").
    { rewrite path_cons. own. }
    { own. }
    iIntros "Hpath (_ & Hx & HL & (_ & Hp & HR & Hfs))". rewrite path_cons.
    iDestruct "Hpath" as "[(_ & Hg & Hgs) HK]". simpl. rb_steps.
    destruct (Z.eqb_spec p (ptr L)); [congruence|].
    iApply (wp_rotate_left tree K cg l g false L x (Br false R p r') with "HK [Hg Hgs Hp Hfs Hx HL HR]").
    { own. }
    iIntros "HK (_ & Hx & (_ & Hg & Hgs & HL) & (_ & Hp & HR & Hfs))". rb_steps.
    iApply ("HΦ" $! l g L x R p r' with "[] HK"); [iPureIntro|own].
    split; [intros P; simpl; tauto|]. inorder_eq.
  - (* right, right *)
    iApply (wp_not_child with "Hx Hgs"); [done|done|by right|]. iIntros "Hx Hgs". rb_steps.
    rewrite /andM. rb_steps. destruct (Z.eqb_spec p 0); [done|]. cbn [negb]. rb_steps.
    destruct (Z.eqb_spec x (ptr l')); [congruence|]. rb_steps.
    destruct (Z.eqb_spec x (ptr l')); [congruence|].
    iApply (wp_rotate_left tree K cg l g false l' p (Br false L x R) with "HK [Hg Hgs Hf Hfs Hx HL HR]").
    { own. }
    iIntros "HK (_ & Hp & (_ & Hg & Hgs & Hfs) & (_ & Hx & HL & HR))". rb_steps.
    iApply ("HΦ" $! l g l' p L x R with "[] HK"); [iPureIntro|own].
    split; [intros P; simpl; tauto|]. inorder_eq.
Qed.

(** What every operation leaves: a valid tree over the addresses [xs]. *)
Definition valid_tree (tree : Z) (xs : list Z) : iProp Σ :=
  ∃ t, ⌜rb_valid t /\ inorder t = xs⌝ ∗ tree_rep tree t.

Lemma valid_plug tree K t n xs :
  rbK K n -> rb t n -> (blk t = true \/ head_black K = true) -> xs = before K ++ inorder t ++ after K ->
  path tree K (ptr t) -∗ rep (inptr K 0) t -∗ valid_tree tree xs.
Proof.
  iIntros (HK Ht Hb ->) "HK Ht". iExists (plug K t). rewrite tree_rep_plug inorder_plug. iFrame.
  iPureIntro. split; [by eapply rb_plug|done].
Qed.

Lemma valid_tree_eq tree xs ys : xs = ys -> valid_tree tree xs -∗ valid_tree tree ys.
Proof. iIntros (->) "$". Qed.

Lemma wp_insert_repair {B} fuel tree K L x R n (k : unit -> prog rb_cell B) Φ :
  (length K < fuel)%nat -> rbK K n -> rb L n -> rb R n -> blk L = true -> blk R = true ->
  path tree K x -∗ rep (inptr K 0) (Br false L x R) -∗
  (valid_tree tree (before K ++ (inorder L ++ x :: inorder R) ++ after K) -∗ wp (k tt) Φ) -∗
  wp (rb_tree_nocmp_insert_repair fuel tree x ≫= k) Φ.
Proof.
  iInduction fuel as [|fuel IH] forall (K L x R n); iIntros (Hfuel HK HL HR HbL HbR) "HK HT HΦ"; [lia|].
  cbn [rb_tree_nocmp_insert_repair].
  iDestruct "HT" as "(%Hx & Hx & HL & HR)". rb_steps.
  destruct K as [|f K]; simpl inptr.
  { rewrite Z.eqb_refl. rb_steps. iApply "HΦ".
    iApply (valid_plug tree [] (Br true L x R) (S n) with "HK [Hx HL HR]");
      [done|by exists n|by left|done|own]. }
  rewrite path_cons. iDestruct "HK" as "[(%Hf & Hf & Hfs) HK]". destruct HK as (Hsib & Hfr & HK).
  destruct (Z.eqb_spec (frame_addr f) 0); [done|]. rb_steps.
  destruct (frame_pl f) eqn:Hcf.
  { rb_steps. iApply "HΦ". iApply (valid_plug tree (f :: K) (Br false L x R) n with "[HK Hf Hfs] [Hx HL HR]");
      [simpl; by rewrite Hcf|done|simpl; by right|done| |own].
    rewrite path_cons /frame_rep Hcf. own. }
  destruct (Hfr eq_refl) as [Hbsib Hhead]. destruct K as [|g K]; [done|]. simpl in Hhead.
  rewrite path_cons. iDestruct "HK" as "[Hg HK]". destruct HK as (Hgsib & _ & HK). rewrite Hhead in HK.
  rb_steps. iApply (wp_uncle with "Hx [Hf Hfs] Hg"); [rewrite /frame_rep Hcf; own|]. iIntros "Hx Hf (%Hg & Hg & Hgs)".
  rb_steps. iApply (wp_is_red with "Hgs"); [done|]. iIntros "Hgs". rb_steps. destruct (blk (frame_sib g)) eqn:Hbg; cbn [negb].
  - (* black uncle *)
    iApply (wp_insert_rotate tree K f g L x R with "HK [Hg Hgs] Hf [Hx HL HR]"); [done|own|own|].
    iIntros (A a B' m D d E [Hparts Hin]) "HK HT". iApply "HΦ".
    destruct (Hparts (fun t => rb t n /\ blk t = true)) as ([? ?] & [? ?] & [? ?] & [? ?]); [done..|].
    iApply (valid_plug tree K (Br true (Br false A a B') m (Br false D d E)) (S n) with "HK HT"); [done| |by left|].
    + exists n. simpl. done.
    + rewrite Hin. destruct f, g; inorder_eq.
  - (* red uncle *)
    iDestruct "Hf" as "(_ & Hf & Hfs)". rewrite Hcf.
    destruct (frame_sib g) as [|[] UL u UR] eqn:Hu; [done|done|]. destruct Hgsib as (HbUL & HbUR & HUL & HUR).
    destruct g as [cg g r|cg l g], f as [cf p r'|cf l' p]; simpl in *; subst; rb_steps;
    [iApply (wp_uncle x _ _ _ (FL true p r') (FL true g (Br false UL u UR)) with "Hx [Hf Hfs] [Hg Hgs]")
    |iApply (wp_uncle x _ _ _ (FR true l' p) (FL true g (Br false UL u UR)) with "Hx [Hf Hfs] [Hg Hgs]")
    |iApply (wp_uncle x _ _ _ (FL true p r') (FR true (Br false UL u UR) g) with "Hx [Hf Hfs] [Hg Hgs]")
    |iApply (wp_uncle x _ _ _ (FR true l' p) (FR true (Br false UL u UR) g) with "Hx [Hf Hfs] [Hg Hgs]")];
    [own|own| |own|own| |own|own| |own|own| ]; simpl;
    iIntros "Hx (_ & Hf & Hfs) (_ & Hg & %Hu0 & Hu & HUL & HUR)"; rb_steps;
    [iApply ("IH" $! K (Br true (Br false L x R) p r') g (Br true UL u UR) (S n)
       with "[] [] [] [] [] [] HK [Hg Hf Hfs Hx HL HR Hu HUL HUR]")
    |iApply ("IH" $! K (Br true l' p (Br false L x R)) g (Br true UL u UR) (S n)
       with "[] [] [] [] [] [] HK [Hg Hf Hfs Hx HL HR Hu HUL HUR]")
    |iApply ("IH" $! K (Br true UL u UR) g (Br true (Br false L x R) p r') (S n)
       with "[] [] [] [] [] [] HK [Hg Hf Hfs Hx HL HR Hu HUL HUR]")
    |iApply ("IH" $! K (Br true UL u UR) g (Br true l' p (Br false L x R)) (S n)
       with "[] [] [] [] [] [] HK [Hg Hf Hfs Hx HL HR Hu HUL HUR]")];
    try (iPureIntro; first [done | lia | exists n; done]); try own;
    iIntros "HT"; iApply "HΦ"; (iApply (valid_tree_eq with "HT"); inorder_eq).
Qed.
End rb_insertion.

(** ** Descending *)

(** A frame added on the way down from a tree that fits below [K]. *)
Definition fits (K : list (frame bool)) (t : rbt) (n : nat) : Prop :=
  rbK K n /\ rb t n /\ (blk t = true \/ head_black K = true).

Lemma fits_left K c l y r n : fits K (Br c l y r) n -> exists m, fits (FL c y r :: K) l m.
Proof.
  intros (HK & Ht & Hb). destruct c; simpl in Ht.
  - destruct Ht as (m & -> & Hl & Hr). exists m. unfold fits. simpl. intuition done.
  - destruct Ht as (Hbl & Hbr & Hl & Hr). destruct Hb; [done|]. exists n. unfold fits. simpl. intuition done.
Qed.
Lemma fits_right K c l y r n : fits K (Br c l y r) n -> exists m, fits (FR c l y :: K) r m.
Proof.
  intros (HK & Ht & Hb). destruct c; simpl in Ht.
  - destruct Ht as (m & -> & Hl & Hr). exists m. unfold fits. simpl. intuition done.
  - destruct Ht as (Hbl & Hbr & Hl & Hr). destruct Hb; [done|]. exists n. unfold fits. simpl. intuition done.
Qed.

Lemma fits_root t n : rb_valid t -> rb t n -> fits [] t n.
Proof. intros [Hb _] Ht. split; [done|]. by split; [|left]. Qed.

Section rb_search.
Context `{!gen_heapGS Z rb_cell Σ}.
Context (cmp : cmp_fun) `{!CmpLaws cmp}.
Implicit Types (t : rbt) (K : list (frame bool)).

(** The node [x], a red leaf below [K], enters the tree. *)
Lemma wp_attach {B} fuel tree K x n (k : unit -> prog rb_cell B) Φ :
  (length K < fuel)%nat -> fits K Leaf n -> x <> 0 ->
  path tree K x -∗ node x false 0 0 (inptr K 0) -∗
  (valid_tree tree (before K ++ x :: after K) -∗ wp (k tt) Φ) -∗
  wp (rb_tree_nocmp_insert_repair fuel tree x ≫= k) Φ.
Proof.
  iIntros (Hf (HK & Hn & _) Hx) "HK Hx HΦ". simpl in Hn.
  iApply (wp_insert_repair fuel tree K Leaf x Leaf n with "HK [Hx]"); [done..|own|].
  iIntros "HT". by iApply "HΦ".
Qed.

Lemma wp_insert_loop {B} lf fuel tree x p0 K t n (k : unit -> prog rb_cell B) Φ :
  (tsize t <= lf)%nat -> (length K + tsize t < fuel)%nat -> fits K t n -> t <> Leaf -> x <> 0 ->
  ordered cmp (inorder t) ->
  path tree K (ptr t) -∗ rep (inptr K 0) t -∗ node x false 0 0 p0 -∗
  (valid_tree tree (before K ++ insert_sorted cmp x (inorder t) ++ after K) -∗ wp (k tt) Φ) -∗
  wp (loop lf (insert_step fuel tree cmp x) (ptr t) ≫= k) Φ.
Proof using All.
  iInduction lf as [|lf IH] forall (K t n); iIntros (Hlf Hfuel Hfit Hne Hx Ho) "HK Ht Hx HΦ";
    destruct t as [|c l y r]; try done; simpl in Hlf; [lia|].
  cbn [loop]. rewrite /insert_step. cbn [ptr]. simpl in Hfuel, Ho.
  iDestruct "Ht" as "(%Hy & Hy & Hl & Hr)". wp_step.
  destruct (Z.ltb_spec (cmp x y) 0) as [Hlt|Hge].
  - destruct (fits_left _ _ _ _ _ _ Hfit) as (m & Hfit'). simpl inorder.
    rewrite insert_sorted_left //. wp_steps. destruct l as [|c' l' z r']; simpl ptr.
    + rewrite Z.eqb_refl. wp_steps.
      iApply (wp_attach fuel tree (FL c y r :: K) x m with "[HK Hy Hr] Hx"); [simpl in *; lia|done|done| |].
      { rewrite path_cons. own. }
      iIntros "HT". wp_steps. iApply "HΦ". iApply (valid_tree_eq with "HT"). simpl. inorder_eq.
    + iDestruct "Hl" as "(%Hz & Hl)". destruct (Z.eqb_spec z 0); [done|]. wp_steps.
      iApply ("IH" $! (FL c y r :: K) (Br c' l' z r') m with "[] [] [] [] [] [] [HK Hy Hr] [Hl] Hx");
        try (iPureIntro; first [done | simpl in *; lia]).
      { iPureIntro. by apply ordered_app in Ho as (? & _). } { rewrite path_cons. own. } { own. }
      iIntros "HT". iApply "HΦ". iApply (valid_tree_eq with "HT"). simpl. inorder_eq.
  - destruct (fits_right _ _ _ _ _ _ Hfit) as (m & Hfit'). simpl inorder.
    rewrite insert_sorted_right //. wp_steps. destruct r as [|c' l' z r']; simpl ptr.
    + rewrite Z.eqb_refl. wp_steps.
      iApply (wp_attach fuel tree (FR c l y :: K) x m with "[HK Hy Hl] Hx"); [simpl in *; lia|done|done| |].
      { rewrite path_cons. own. }
      iIntros "HT". wp_steps. iApply "HΦ". iApply (valid_tree_eq with "HT"). simpl. inorder_eq.
    + iDestruct "Hr" as "(%Hz & Hr)". destruct (Z.eqb_spec z 0); [done|]. wp_steps.
      iApply ("IH" $! (FR c l y :: K) (Br c' l' z r') m with "[] [] [] [] [] [] [HK Hy Hl] [Hr] Hx");
        try (iPureIntro; first [done | simpl in *; lia]).
      { iPureIntro. apply ordered_app in Ho as (_ & [_ ?] & _). done. } { rewrite path_cons. own. } { own. }
      iIntros "HT". iApply "HΦ". iApply (valid_tree_eq with "HT"). simpl. inorder_eq.
Qed.
End rb_search.
