(* ===== verification/RbOps.v ===== *)
(** Red-black trees: insertion, search and the validity checks as statements
    about heaps. *)
From iris.proofmode Require Import coq_tactics reduction proofmode.
From iris.base_logic.lib Require Import gen_heap.
From S2P Require Import Prelude Heap PTree PExchange PPlaces RbTree.

(** ** Searching *)

(** [y] is a node equal to [x], or [NULL] when there is none. *)
Definition find_result (cmp : cmp_fun) (x : Z) (xs : list Z) (y : Z) : Prop :=
  (y ∈ xs /\ cmp x y = 0) \/ (y = 0 /\ forall z, z ∈ xs -> cmp x z <> 0).

Section rb_read.
Context `{!gen_heapGS Z rb_cell Σ}.
Implicit Types (t : rbt).

Section find.
Context (cmp : cmp_fun) `{!CmpLaws cmp}.

Lemma wp_find_loop {B} lf x par t (k : Z -> prog rb_cell B) Φ :
  (tsize t < lf)%nat -> ordered cmp (inorder t) ->
  rep par t -∗ (∀ y, ⌜find_result cmp x (inorder t) y⌝ -∗ rep par t -∗ wp (k y) Φ) -∗
  wp (loop lf (find_step cmp x) (ptr t) ≫= k) Φ.
Proof using All.
  iInduction t as [|c l IHl y r IHr] forall (lf par); iIntros (Hlf Ho) "Ht HΦ"; destruct lf as [|lf]; try lia;
    cbn [loop]; rewrite /find_step; cbn [ptr].
  { rewrite Z.eqb_refl. wp_steps. iApply "HΦ"; [iPureIntro|done]. right. split; [done|].
    intros z Hz. by apply elem_of_nil in Hz. }
  iDestruct "Ht" as "(%Hy & Hy & Hl & Hr)". destruct (Z.eqb_spec y 0); [done|]. simpl in Hlf, Ho.
  rewrite Z.gtb_ltb. destruct (Z.ltb_spec (cmp x y) 0) as [Hlt|Hge].
  - wp_steps. iApply ("IHl" with "[] [] Hl"); [iPureIntro; lia| |].
    { iPureIntro. by apply ordered_app in Ho as (? & _). }
    iIntros (z Hz) "Hl". iApply "HΦ"; [iPureIntro|by iFrame]. simpl.
    destruct Hz as [[Hz Hz0]|[-> Hn]]; [left; rewrite elem_of_app; tauto|right]. split; [done|].
    intros z Hz Hz0. apply (Hn z); [|done]. by apply (equal_left cmp x _ _ _ Ho Hlt).
  - destruct (Z.ltb_spec 0 (cmp x y)).
    + wp_steps. iApply ("IHr" with "[] [] Hr"); [iPureIntro; lia| |].
      { iPureIntro. by apply ordered_app in Ho as (_ & [_ ?] & _). }
      iIntros (z Hz) "Hr". iApply "HΦ"; [iPureIntro|by iFrame]. simpl.
      destruct Hz as [[Hz Hz0]|[-> Hn]]; [left; rewrite elem_of_app elem_of_cons; tauto|right].
      split; [done|]. intros z Hz Hz0. apply (Hn z); [|done]. by apply (equal_right cmp x _ _ _ Ho).
    + wp_steps. iApply "HΦ"; [iPureIntro|by iFrame]. left. split; [|lia].
      simpl. rewrite elem_of_app elem_of_cons. tauto.
Qed.
End find.

End rb_read.

(** ** The validity checks *)

(** The number of black nodes on every path, if it is the same. *)
Fixpoint bheight (t : rbt) : option Z :=
  match t with
  | Leaf => Some 0
  | Br c l _ r =>
      a ← bheight l; b ← bheight r;
      if decide (a = b) then Some (if c then 1 + b else b) else None
  end.

Lemma bheight_range t h : bheight t = Some h -> 0 <= h.
Proof.
  revert h. induction t as [|c l IHl x r IHr]; intros h; simpl; [by intros [= <-]|].
  destruct (bheight l) as [a|], (bheight r) as [b|]; simpl; try done.
  case_decide; [|done]. intros [= <-]. specialize (IHr b eq_refl). destruct c; lia.
Qed.

Lemma rb_bheight t n : rb t n -> bheight t = Some (Z.of_nat n).
Proof.
  revert n. induction t as [|[] l IHl x r IHr]; intros n; simpl.
  - by intros ->.
  - intros (m & -> & Hl & Hr). rewrite (IHl m) // (IHr m) //. simpl. rewrite decide_True //. f_equal. lia.
  - intros (_ & _ & Hl & Hr). rewrite (IHl n) // (IHr n) //. simpl. rewrite decide_True //.
Qed.

Section rb_check.
Context `{!gen_heapGS Z rb_cell Σ}.
Implicit Types (t : rbt).

Lemma wp_subtree_height {B} fuel par t (k : Z -> prog rb_cell B) Φ :
  (tsize t <= fuel)%nat -> t <> Leaf ->
  rep par t -∗ (rep par t -∗ wp (k (default (-1) (bheight t))) Φ) -∗
  wp (rb_subtree_height fuel (ptr t) ≫= k) Φ.
Proof.
  revert par t k Φ. induction fuel as [|fuel IH]; iIntros (par t k Φ Hf Hne) "Ht HΦ";
    (destruct t as [|c l y r]; [done|]); simpl in Hf; [lia|]. cbn [rb_subtree_height]. cbn [ptr].
  iDestruct "Ht" as "(%Hy & Hy & Hl & Hr)".
  assert (forall s (k : Z -> prog rb_cell B) Φ, (tsize s <= fuel)%nat ->
      rep y s -∗ (rep y s -∗ wp (k (default (-1) (bheight s))) Φ) -∗
      wp ((if ptr s =? 0 then mret 0 else
             p ← field nparent (ptr s);
             if negb (p =? y) then mret (-1) else rb_subtree_height fuel (ptr s)) ≫= k) Φ) as Hside.
  { iIntros (s k' Φ' Hs) "Hs HΦ". destruct s as [|cs ls z rs]; simpl ptr.
    - rewrite Z.eqb_refl. wp_steps. by iApply "HΦ".
    - iDestruct "Hs" as "(%Hz & Hz & Hls)". destruct (Z.eqb_spec z 0); [done|]. wp_steps.
      rewrite Z.eqb_refl. cbn [negb].
      iApply (IH y (Br cs ls z rs) with "[Hz Hls]"); [done|done|own|done]. }
  rb_steps. iApply (Hside l with "Hl"); [lia|]. iIntros "Hl". cbn [bheight].
  destruct (bheight l) as [a|] eqn:El; cbn [default from_option id mbind option_bind].
  2:{ rb_steps. cbn. rb_steps. iApply "HΦ". own. }
  pose proof (bheight_range l a El). destruct (Z.ltb_spec a 0); [lia|]. rb_steps.
  iApply (Hside r with "Hr"); [lia|]. iIntros "Hr".
  destruct (bheight r) as [b|] eqn:Er; cbn [default from_option id mbind option_bind].
  2:{ rb_steps. cbn. rb_steps. iApply "HΦ". own. }
  pose proof (bheight_range r b Er). destruct (Z.ltb_spec b 0); [lia|].
  destruct (Z.eqb_spec a b) as [->|Hab]; cbn [negb].
  - rewrite decide_True //. rb_steps. iApply "HΦ". own.
  - rewrite decide_False //. rb_steps. iApply "HΦ". own.
Qed.

Lemma wp_rb_valid {B} fuel tree t (k : Z -> prog rb_cell B) Φ :
  (tsize t <= fuel)%nat ->
  tree_rep tree t -∗ (tree_rep tree t -∗ wp (k (b2z (bool_decide (is_Some (bheight t))))) Φ) -∗
  wp (rb_tree_nocmp_valid fuel tree ≫= k) Φ.
Proof.
  iIntros (Hf) "[[_ Hroot] Ht] HΦ". rewrite /rb_tree_nocmp_valid. simpl outptr. rb_steps.
  destruct t as [|c l y r]; simpl ptr.
  - rewrite Z.eqb_refl. rb_steps. simpl. iApply "HΦ". by iFrame.
  - iAssert ⌜y <> 0⌝%I as %Hy; [by iDestruct "Ht" as "[% _]"|]. destruct (Z.eqb_spec y 0); [done|].
    iDestruct "Ht" as "(_ & Hy & Hlr)". rb_steps. rewrite Z.eqb_refl. cbn [negb]. rb_steps.
    iApply (wp_subtree_height fuel 0 (Br c l y r) with "[Hy Hlr]"); [done|done|own|]. iIntros "Ht". rb_steps.
    destruct (bheight (Br c l y r)) as [h|] eqn:Eh; simpl default.
    + pose proof (bheight_range _ _ Eh). destruct (Z.ltb_spec h 0); [lia|]. rewrite bool_decide_true //.
      iApply "HΦ". by iFrame.
    + rewrite bool_decide_false; [|by intros [? ?]]. iApply "HΦ". by iFrame.
Qed.
End rb_check.

(** ** Height *)

Lemma rb_height t n : rb t n -> (theight t <= 2 * n + (if blk t then 0 else 1))%nat.
Proof.
  revert n. induction t as [|[] l IHl x r IHr]; intros n; simpl; [lia| |].
  - intros (m & -> & Hl & Hr). specialize (IHl m Hl). specialize (IHr m Hr).
    destruct (blk l), (blk r); lia.
  - intros (Hbl & Hbr & Hl & Hr). specialize (IHl n Hl). specialize (IHr n Hr).
    rewrite Hbl in IHl. rewrite Hbr in IHr. lia.
Qed.

Lemma rb_size t n : rb t n -> 2 ^ Z.of_nat n <= Z.of_nat (tsize t) + 1.
Proof.
  revert n. induction t as [|[] l IHl x r IHr]; intros n; simpl.
  - by intros ->.
  - intros (m & -> & Hl & Hr). specialize (IHl m Hl). specialize (IHr m Hr).
    rewrite Nat2Z.inj_succ Z.pow_succ_r; lia.
  - intros (_ & _ & Hl & Hr). specialize (IHl n Hl). specialize (IHr n Hr). lia.
Qed.

Lemma rb_valid_balanced t : rb_valid t -> balanced t.
Proof.
  intros [Hb [n Hn]]. pose proof (rb_height t n Hn) as Hh. pose proof (rb_size t n Hn) as Hs. rewrite Hb in Hh.
  unfold balanced. transitivity (2 ^ (Z.of_nat n + Z.of_nat n)); [apply Z.pow_le_mono_r; lia|].
  rewrite Z.pow_add_r; [|lia|lia]. apply Z.mul_le_mono_nonneg; lia.
Qed.

(** ** Insertion *)

Section rb_insert_spec.
Context `{!gen_heapGS Z rb_cell Σ}.
Context (cmp : cmp_fun) `{!CmpLaws cmp}.
Implicit Types (t : rbt).

Lemma valid_tree_rep tree xs :
  valid_tree tree xs ⊢ ∃ t, ⌜rb_valid t /\ inorder t = xs⌝ ∗ tree_rep tree t.
Proof. done. Qed.

Lemma wp_init_node {B} x c l r p (k : unit -> prog rb_cell B) Φ :
  node x c l r p -∗ (node x false 0 0 p -∗ wp (k tt) Φ) -∗ wp (init_node x ≫= k) Φ.
Proof. iIntros "Hx HΦ". rewrite /init_node. rb_steps. by iApply "HΦ". Qed.

Lemma wp_rb_tree_insert {B} fuel tree x c l r p t (k : unit -> prog rb_cell B) Φ :
  (tsize t < fuel)%nat -> rb_valid t -> ordered cmp (inorder t) -> x <> 0 ->
  tree_rep tree t -∗ node x c l r p -∗
  (valid_tree tree (insert_sorted cmp x (inorder t)) -∗ wp (k tt) Φ) -∗
  wp (rb_tree_insert fuel tree cmp x ≫= k) Φ.
Proof using All.
  iIntros (Hf Hv Ho Hx) "[[_ Hroot] Ht] Hx HΦ". rewrite /rb_tree_insert. rb_steps.
  iApply (wp_init_node with "Hx"). iIntros "Hx". rb_steps. destruct Hv as [Hb [n Hn]].
  assert (fits [] t n) as Hfit by (split; [done|]; by split; [|left]).
  destruct t as [|c' l' y r']; simpl ptr; simpl outptr.
  - rewrite Z.eqb_refl. rb_steps.
    iApply (wp_attach fuel tree [] x n with "[Hroot] Hx"); [simpl; lia|done|done|own|].
    iIntros "HT". iApply "HΦ". by iApply (valid_tree_eq with "HT").
  - iAssert ⌜y <> 0⌝%I as %Hy; [by iDestruct "Ht" as "[% _]"|]. destruct (Z.eqb_spec y 0); [done|].
    iApply (wp_insert_loop cmp fuel fuel tree x p [] (Br c' l' y r') n with "[Hroot] Ht Hx");
      [lia|simpl in *; lia|done|done|done|done|own|].
    iIntros "HT". iApply "HΦ". iApply (valid_tree_eq with "HT"). simpl. by rewrite app_nil_r.
Qed.
End rb_insert_spec.

(** C34: inserting into a red-black tree.  Take a heap that holds a valid tree in the order of a comparison
    function and, outside it, a node.  [rb_tree_insert] returns, with a bound on its loops of the size of the
    tree plus one, and the heap then holds a valid red-black tree (so of height at most twice the logarithm of its size)
    whose nodes are those of before with the new one in its place, after the nodes equal to it; every other
    cell of the heap is unchanged. *)
Theorem rb_tree_insert_correct (cmp : cmp_fun) (fuel : nat) (H : gmap Z rb_cell) (tree x : Z) (t : rbt) nd
  (Hcmp : CmpLaws cmp) (Htree : is_tree H tree t) (Hv : rb_valid t) (Ho : ordered cmp (inorder t))
  (Hx : H !! x = Some (Node nd)) (Hnew : x ∉ inorder t) (Hx0 : x <> 0) (Hfuel : (tsize t < fuel)%nat) :
  exists t' H', rb_tree_insert fuel tree cmp x H = Ret (tt, H') /\
    is_tree H' tree t' /\ rb_valid t' /\ balanced t' /\
    inorder t' = insert_sorted cmp x (inorder t) /\ ordered cmp (inorder t') /\
    (forall p v, p <> tree -> p <> x -> p ∉ inorder t -> H !! p = Some v -> H' !! p = Some v).
Proof.
  destruct (tree_and_node H tree t x nd Htree Hx Hnew) as (Hsub & Hxm & Hout).
  destruct Htree as (_ & Hnd & H0 & Htr).
  destruct (tree_sound (rb_tree_insert fuel tree cmp x) H tree (<[x := Node nd]> (tree_cells tree t))
    (fun _ t' => rb_valid t' /\ inorder t' = insert_sorted cmp x (inorder t)))
    as ([] & t' & H' & E & [Hv' Hin] & Ht' & Hframe).
  - done.
  - intros Σ HΣ. rewrite owns_insert // owns_tree //. iIntros "[Hx HT]". destruct nd as [c l r p].
    iApply wp_last. iApply (wp_rb_tree_insert cmp fuel tree x c l r p t with "HT Hx"); [done..|].
    iIntros "HT". wp_steps. iApply wp_ret. by iApply valid_tree_rep.
  - exists t', H'. repeat (split; [done|]). split; [by apply rb_valid_balanced|]. split; [done|].
    split; [rewrite Hin; by apply insert_sorted_ordered|].
    intros p v Hp1 Hp2 Hp3. by apply Hframe, Hout.
Qed.

(** ** Insertion of a node that must be new *)

(** What [rb_tree_nocmp_insert_nonexist] does for a node [x] and a tree [t]. *)
Definition nonexist_result (cmp : cmp_fun) (x : Z) (t : rbt) (rc : Z) (t' : rbt) : Prop :=
  (rc = 0 /\ (forall z, z ∈ inorder t -> cmp x z <> 0) /\ rb_valid t' /\
     inorder t' = insert_sorted cmp x (inorder t)) \/
  (rc = -17 /\ (exists z, z ∈ inorder t /\ cmp x z = 0) /\ t' = t).

Section rb_nonexist.
Context `{!gen_heapGS Z rb_cell Σ}.
Context (cmp : cmp_fun) `{!CmpLaws cmp}.
Implicit Types (t : rbt) (K : list (frame bool)).

Lemma wp_nonexist_loop {B} lf fuel tree x p0 K t n (k : Z -> prog rb_cell B) Φ :
  (tsize t <= lf)%nat -> (length K + tsize t < fuel)%nat -> fits K t n -> t <> Leaf -> x <> 0 ->
  ordered cmp (inorder t) ->
  path tree K (ptr t) -∗ rep (inptr K 0) t -∗ node x false 0 0 p0 -∗
  (∀ rc, (⌜rc = 0 /\ forall z, z ∈ inorder t -> cmp x z <> 0⌝ ∗
            valid_tree tree (before K ++ insert_sorted cmp x (inorder t) ++ after K)) ∨
         (⌜rc = -17 /\ exists z, z ∈ inorder t /\ cmp x z = 0⌝ ∗ tree_rep tree (plug K t)) -∗ wp (k rc) Φ) -∗
  wp (loop lf (insert_nonexist_step fuel tree cmp x) (ptr t) ≫= k) Φ.
Proof using All.
  iInduction lf as [|lf IH] forall (K t n); iIntros (Hlf Hfuel Hfit Hne Hx Ho) "HK Ht Hx HΦ";
    destruct t as [|c l y r]; try done; simpl in Hlf; [lia|].
  cbn [loop]. rewrite /insert_nonexist_step Z.gtb_ltb. cbn [ptr]. simpl in Hfuel, Ho.
  iDestruct "Ht" as "(%Hy & Hy & Hl & Hr)". wp_step.
  destruct (Z.ltb_spec (cmp x y) 0) as [Hlt|Hge]; [|destruct (Z.ltb_spec 0 (cmp x y)) as [Hgt|Hle]].
  - destruct (fits_left _ _ _ _ _ _ Hfit) as (m & Hfit'). simpl inorder.
    rewrite insert_sorted_left //. wp_steps. destruct l as [|c' l' z r']; simpl ptr.
    + rewrite Z.eqb_refl. wp_steps.
      iApply (wp_attach fuel tree (FL c y r :: K) x m with "[HK Hy Hr] Hx"); [simpl in *; lia|done|done| |].
      { rewrite path_cons. own. }
      iIntros "HT". wp_steps. iApply "HΦ". iLeft. iSplit.
      * iPureIntro. split; [done|]. intros z Hz Hz0.
        apply (equal_left cmp x [] y (inorder r) Ho Hlt) in Hz; [by apply elem_of_nil in Hz|done].
      * iApply (valid_tree_eq with "HT"). simpl. inorder_eq.
    + iDestruct "Hl" as "(%Hz & Hl)". destruct (Z.eqb_spec z 0); [done|]. wp_steps.
      iApply ("IH" $! (FL c y r :: K) (Br c' l' z r') m with "[] [] [] [] [] [] [HK Hy Hr] [Hl] Hx");
        try (iPureIntro; first [done | simpl in *; lia]).
      { iPureIntro. by apply ordered_app in Ho as (? & _). } { rewrite path_cons. own. } { own. }
      iIntros (rc) "[[%HT HT]|[%HT HT]]"; iApply "HΦ"; [iLeft|iRight].
      * iSplit; [iPureIntro|iApply (valid_tree_eq with "HT"); simpl; inorder_eq].
        split; [by apply HT|]. intros w Hw Hw0. apply (proj2 HT w); [|done].
        by apply (equal_left cmp x _ y _ Ho Hlt).
      * iFrame. iPureIntro. destruct HT as (-> & w & Hw & Hw0). split; [done|]. exists w.
        split; [rewrite elem_of_app; tauto|done].
  - destruct (fits_right _ _ _ _ _ _ Hfit) as (m & Hfit'). simpl inorder.
    rewrite insert_sorted_right //. wp_steps. destruct r as [|c' l' z r']; simpl ptr.
    + rewrite Z.eqb_refl. wp_steps.
      iApply (wp_attach fuel tree (FR c l y :: K) x m with "[HK Hy Hl] Hx"); [simpl in *; lia|done|done| |].
      { rewrite path_cons. own. }
      iIntros "HT". wp_steps. iApply "HΦ". iLeft. iSplit.
      * iPureIntro. split; [done|]. intros z Hz Hz0.
        apply (equal_right cmp x _ y [] Ho Hgt) in Hz; [by apply elem_of_nil in Hz|done].
      * iApply (valid_tree_eq with "HT"). simpl. inorder_eq.
    + iDestruct "Hr" as "(%Hz & Hr)". destruct (Z.eqb_spec z 0); [done|]. wp_steps.
      iApply ("IH" $! (FR c l y :: K) (Br c' l' z r') m with "[] [] [] [] [] [] [HK Hy Hl] [Hr] Hx");
        try (iPureIntro; first [done | simpl in *; lia]).
      { iPureIntro. by apply ordered_app in Ho as (_ & [_ ?] & _). } { rewrite path_cons. own. } { own. }
      iIntros (rc) "[[%HT HT]|[%HT HT]]"; iApply "HΦ"; [iLeft|iRight].
      * iSplit; [iPureIntro|iApply (valid_tree_eq with "HT"); simpl; inorder_eq].
        split; [by apply HT|]. intros w Hw Hw0. apply (proj2 HT w); [|done].
        by apply (equal_right cmp x _ y _ Ho Hgt).
      * iFrame. iPureIntro. destruct HT as (-> & w & Hw & Hw0). split; [done|]. exists w.
        split; [rewrite elem_of_app elem_of_cons; tauto|done].
  - wp_steps. iApply "HΦ". iRight. rewrite tree_rep_plug. iSplit.
    + iPureIntro. split; [done|]. exists y. simpl. rewrite elem_of_app elem_of_cons. split; [tauto|lia].
    + own.
Qed.

Lemma wp_rb_nonexist {B} fuel tree x c l r p t (k : Z -> prog rb_cell B) Φ :
  (tsize t < fuel)%nat -> rb_valid t -> ordered cmp (inorder t) -> x <> 0 ->
  tree_rep tree t -∗ node x c l r p -∗
  (∀ rc t', ⌜nonexist_result cmp x t rc t'⌝ -∗ tree_rep tree t' -∗ wp (k rc) Φ) -∗
  wp (rb_tree_nocmp_insert_nonexist fuel tree cmp x ≫= k) Φ.
Proof using All.
  iIntros (Hf Hv Ho Hx) "[[_ Hroot] Ht] Hx HΦ". rewrite /rb_tree_nocmp_insert_nonexist. rb_steps.
  iApply (wp_init_node with "Hx"). iIntros "Hx". rb_steps. destruct Hv as [Hb [n Hn]].
  assert (fits [] t n) as Hfit by (split; [done|]; by split; [|left]).
  destruct t as [|c' l' y r']; simpl ptr; simpl outptr.
  - rewrite Z.eqb_refl. rb_steps.
    iApply (wp_attach fuel tree [] x n with "[Hroot] Hx"); [simpl; lia|done|done|own|].
    iIntros "(%t' & [%Hv' %Hin] & HT)". rb_steps. iApply ("HΦ" with "[] HT"). iPureIntro. left.
    repeat split; [|by apply Hv'|by apply Hv'|done]. intros z Hz. by apply elem_of_nil in Hz.
  - iAssert ⌜y <> 0⌝%I as %Hy; [by iDestruct "Ht" as "[% _]"|]. destruct (Z.eqb_spec y 0); [done|].
    iApply (wp_nonexist_loop fuel fuel tree x p [] (Br c' l' y r') n with "[Hroot] Ht Hx");
      [lia|simpl in *; lia|done|done|done|done|own|].
    iIntros (rc) "[[%Hrc (%t' & [%Hv' %Hin] & HT)]|[%Hrc HT]]".
    + iApply ("HΦ" with "[] HT"). iPureIntro. left. simpl in Hin. rewrite app_nil_r in Hin. tauto.
    + iApply ("HΦ" with "[] HT"). iPureIntro. right. tauto.
Qed.
End rb_nonexist.

(** C36: inserting unless it exists.  On a heap with a valid ordered tree and a node outside it,
    [rb_tree_nocmp_insert_nonexist] returns 0 exactly when no node of the tree compares equal, and then the
    new tree is valid and has the node in its place; otherwise it returns [-EEXIST] and the tree is as before. *)
Theorem rb_tree_nocmp_insert_nonexist_correct (cmp : cmp_fun) (fuel : nat) (H : gmap Z rb_cell) (tree x : Z)
  (t : rbt) nd
  (Hcmp : CmpLaws cmp) (Htree : is_tree H tree t) (Hv : rb_valid t) (Ho : ordered cmp (inorder t))
  (Hx : H !! x = Some (Node nd)) (Hnew : x ∉ inorder t) (Hx0 : x <> 0) (Hfuel : (tsize t < fuel)%nat) :
  exists rc t' H', rb_tree_nocmp_insert_nonexist fuel tree cmp x H = Ret (rc, H') /\
    is_tree H' tree t' /\ rb_valid t' /\ ordered cmp (inorder t') /\
    ((rc = 0 /\ (forall z, z ∈ inorder t -> cmp x z <> 0) /\ inorder t' = insert_sorted cmp x (inorder t)) \/
     (rc = -17 /\ (exists z, z ∈ inorder t /\ cmp x z = 0) /\ t' = t)).
Proof.
  destruct (tree_and_node H tree t x nd Htree Hx Hnew) as (Hsub & Hxm & _).
  destruct Htree as (_ & Hnd & H0 & Htr).
  destruct (tree_sound (rb_tree_nocmp_insert_nonexist fuel tree cmp x) H tree (<[x := Node nd]> (tree_cells tree t))
    (nonexist_result cmp x t)) as (rc & t' & H' & E & HQ & Ht' & _); [done| |].
  - intros Σ HΣ. rewrite owns_insert // owns_tree //. iIntros "[Hx HT]". destruct nd as [c l r p].
    iApply wp_bind_ret. iApply (wp_rb_nonexist cmp fuel tree x c l r p t with "HT Hx"); [done..|].
    iIntros (rc t' HQ) "HT". iApply wp_ret. iExists t'. by iFrame.
  - exists rc, t', H'. split; [done|]. split; [done|]. destruct HQ as [(-> & Hz & Hv' & Hin)|(-> & Hz & ->)].
    + rewrite Hin. split; [done|]. split; [by apply insert_sorted_ordered|]. by left.
    + split; [done|]. split; [done|]. by right.
Qed.

Section rb_search_spec.
Context `{!gen_heapGS Z rb_cell Σ}.
Implicit Types (t : rbt).

Lemma wp_rb_find (cmp : cmp_fun) `{!CmpLaws cmp} fuel tree x t :
  (tsize t < fuel)%nat -> ordered cmp (inorder t) ->
  tree_rep tree t ⊢ wp (rb_tree_nocmp_find fuel tree cmp x)
    (fun y => ∃ t', ⌜t' = t /\ find_result cmp x (inorder t) y⌝ ∗ tree_rep tree t').
Proof.
  rewrite tree_rep_root. iIntros (Hf Ho) "[Hroot Ht]". iApply wp_bind_ret. rewrite /rb_tree_nocmp_find. wp_steps.
  iApply (wp_find_loop cmp fuel x 0 t with "Ht"); [done|done|]. iIntros (y Hy) "Ht". iApply wp_ret.
  iExists t. rewrite tree_rep_root. by iFrame.
Qed.

Lemma wp_rb_check fuel tree t :
  (tsize t <= fuel)%nat ->
  tree_rep tree t ⊢ wp (rb_tree_nocmp_valid fuel tree)
    (fun y => ∃ t', ⌜t' = t /\ y = b2z (bool_decide (is_Some (bheight t)))⌝ ∗ tree_rep tree t').
Proof.
  iIntros (Hf) "HT". iApply wp_bind_ret. iApply (wp_rb_valid with "HT"); [done|]. iIntros "HT".
  iApply wp_ret. iExists t. by iFrame.
Qed.
End rb_search_spec.

(** Reading a tree.  On a heap that holds a tree in order: [rb_tree_nocmp_find] returns a node that
    compares equal to its argument if there is one and [NULL] otherwise; [rb_tree_nocmp_leftmost] and
    [rb_tree_nocmp_rightmost] return the first and the last node in order, [NULL] for the empty tree; and
    [rb_tree_nocmp_valid] returns 1 exactly when all paths have the same number of black nodes.  The tree is
    the same afterwards. *)
Theorem rb_tree_reads_correct (cmp : cmp_fun) (fuel : nat) (H : gmap Z rb_cell) (tree x : Z) (t : rbt)
  (Hcmp : CmpLaws cmp) (Htree : is_tree H tree t) (Ho : ordered cmp (inorder t))
  (Hfuel : (tsize t < fuel)%nat) :
  (exists y H', rb_tree_nocmp_find fuel tree cmp x H = Ret (y, H') /\
     find_result cmp x (inorder t) y /\ is_tree H' tree t) /\
  (exists y H', rb_tree_nocmp_leftmost fuel tree H = Ret (y, H') /\
     y = default 0 (list.head (inorder t)) /\ is_tree H' tree t) /\
  (exists y H', rb_tree_nocmp_rightmost fuel tree H = Ret (y, H') /\
     y = default 0 (list.last (inorder t)) /\ is_tree H' tree t) /\
  (exists v H', rb_tree_nocmp_valid fuel tree H = Ret (v, H') /\
     v = b2z (bool_decide (is_Some (bheight t))) /\ is_tree H' tree t).
Proof.
  split; [|split; [|split]]; apply tree_read; try done; intros Σ HΣ.
  - by apply wp_rb_find.
  - by apply wp_tree_ends.
  - by apply wp_tree_ends.
  - apply wp_rb_check. lia.
Qed.
