(* ===== verification/RbDelete.v ===== *)
(** Red-black trees: deletion. *)
From iris.proofmode Require Import coq_tactics reduction proofmode.
From iris.base_logic.lib Require Import gen_heap.
From S2P Require Import Prelude Heap PTree PExchange PPlaces RbTree.

Section rb_deletion.
Context `{!gen_heapGS Z rb_cell Σ}.
Implicit Types (t a b : rbt) (K : list (frame bool)).

Lemma rep_ptr_ne_br par t par' c l x r : rep par t -∗ rep par' (Br c l x r) -∗ ⌜ptr t <> x⌝.
Proof.
  rewrite rep_br. iIntros "Ht (%Hx & Hn & _)". by iApply (rep_ptr_ne with "Ht Hn").
Qed.

(** ** Case 6: the sibling's outer child is red *)

Lemma wp_case6_left {B} tree K c t p sc sl s zc a z b (k : unit -> prog rb_cell B) Φ :
  path tree K p -∗ rep (inptr K 0) (Br c t p (Br sc sl s (Br zc a z b))) -∗
  (path tree K s -∗ rep (inptr K 0) (Br c (Br true t p sl) s (Br true a z b)) -∗ wp (k tt) Φ) -∗
  wp (rb_tree_delete_case6 tree (ptr t) p ≫= k) Φ.
Proof.
  rewrite !rep_br. iIntros "HK (%Hp & Hp & Ht & %Hs & Hs & Hsl & %Hz & Hz & Ha & Hb) HΦ".
  rewrite /rb_tree_delete_case6 /sibling_parent. destruct (Z.eqb_spec p 0); [done|]. rb_steps.
  rewrite Z.eqb_refl. rb_steps. rewrite Z.eqb_refl. rb_steps.
  iApply (wp_rotate_left tree K true t p c sl s (Br true a z b) with "HK [Hp Ht Hs Hsl Hz Ha Hb]"); [own|].
  rewrite !rep_br. iIntros "HK HT". iApply ("HΦ" with "HK HT").
Qed.

Lemma wp_case6_right {B} tree K c t p sc sr s zc a z b (k : unit -> prog rb_cell B) Φ :
  path tree K p -∗ rep (inptr K 0) (Br c (Br sc (Br zc a z b) s sr) p t) -∗
  (path tree K s -∗ rep (inptr K 0) (Br c (Br true a z b) s (Br true sr p t)) -∗ wp (k tt) Φ) -∗
  wp (rb_tree_delete_case6 tree (ptr t) p ≫= k) Φ.
Proof.
  rewrite !rep_br. iIntros "HK (%Hp & Hp & (%Hs & Hs & (%Hz & Hz & Ha & Hb) & Hsr) & Ht) HΦ".
  iDestruct (rep_ptr_ne with "Ht Hs") as %Hne; [done|].
  rewrite /rb_tree_delete_case6 /sibling_parent. destruct (Z.eqb_spec p 0); [done|]. rb_steps.
  destruct (Z.eqb_spec (ptr t) s); [done|]. rb_steps. destruct (Z.eqb_spec (ptr t) s); [done|]. rb_steps.
  iApply (wp_rotate_right tree K c (Br true a z b) s true sr p t with "HK [Hp Ht Hs Hsr Hz Ha Hb]"); [own|].
  rewrite !rep_br. iIntros "HK HT". iApply ("HΦ" with "HK HT").
Qed.

(** ** Case 5: a child of the black sibling is red *)

Lemma wp_case5_left {B} tree K c t p sl s sr (k : unit -> prog rb_cell B) Φ :
  blk sl && blk sr = false ->
  path tree K p -∗ rep (inptr K 0) (Br c t p (Br true sl s sr)) -∗
  (∀ A m D d E, ⌜(forall n, rb sl n -> rb sr n -> rb A n /\ rb D n /\ rb E n) /\
      inorder A ++ m :: inorder D ++ d :: inorder E = inorder sl ++ s :: inorder sr⌝ -∗
    path tree K m -∗ rep (inptr K 0) (Br c (Br true t p A) m (Br true D d E)) -∗ wp (k tt) Φ) -∗
  wp (rb_tree_delete_case5 tree (ptr t) p ≫= k) Φ.
Proof.
  iIntros (Hred) "HK HT HΦ". rewrite !rep_br. iDestruct "HT" as "(%Hp & Hp & Ht & %Hs & Hs & Hsl & Hsr)".
  iDestruct (rep_ptr_ne with "Ht Hs") as %Hts; [done|].
  rewrite /rb_tree_delete_case5 /sibling_parent /andM. destruct (Z.eqb_spec p 0); [done|]. rb_steps.
  rewrite Z.eqb_refl. rb_steps. rewrite Z.eqb_refl. rb_steps.
  iApply (wp_null_or_black with "Hsr"); [done|]. iIntros "Hsr". rb_steps.
  destruct (blk sr) eqn:Hbr.
  - (* the inner child is red *)
    rewrite andb_true_r in Hred. rb_steps. iApply (wp_is_red with "Hsl"); [done|]. iIntros "Hsl". rb_steps.
    rewrite Hred. cbn [negb]. destruct sl as [|[] a z b]; try done. destruct sr as [|[] a' z' b'] eqn:Esr; try done;
    rewrite !rep_br; iDestruct "Hsl" as "(%Hz & Hz & Ha & Hb)"; rb_steps; simpl ptr;
    [iApply (wp_rotate_right tree (FR c t p :: K) true a z false b s Leaf with "[HK Hp Ht] [Hs Hz Ha Hb Hsr]")
    |iApply (wp_rotate_right tree (FR c t p :: K) true a z false b s (Br true a' z' b') with "[HK Hp Ht] [Hs Hz Ha Hb Hsr]")];
    [rewrite path_cons; own|own| |rewrite path_cons; own|own| ];
    rewrite path_cons; iIntros "[(_ & Hp & Ht) HK] HS"; rb_steps; simpl frame_addr;
    [iApply (wp_case6_left tree K c t p true a z false b s Leaf with "HK [Hp Ht HS]")
    |iApply (wp_case6_left tree K c t p true a z false b s (Br true a' z' b') with "HK [Hp Ht HS]")];
    [own| |own| ]; iIntros "HK HT";
    iApply ("HΦ" with "[] HK HT"); iPureIntro; (split; [simpl; naive_solver|inorder_eq]).
  - rb_steps. destruct (Z.eqb_spec (ptr t) s); [done|]. rb_steps.
    destruct sr as [|[] a z b]; try done.
    iApply (wp_case6_left tree K c t p true sl s false a z b with "HK [Hp Ht Hs Hsl Hsr]"); [own|].
    iIntros "HK HT". iApply ("HΦ" with "[] HK HT"). iPureIntro. split; [|done].
    intros ? Hsl (_ & _ & Ha & Hb). done.
Qed.

Lemma wp_case5_right {B} tree K c t p sl s sr (k : unit -> prog rb_cell B) Φ :
  blk sl && blk sr = false ->
  path tree K p -∗ rep (inptr K 0) (Br c (Br true sl s sr) p t) -∗
  (∀ A m D d E, ⌜(forall n, rb sl n -> rb sr n -> rb A n /\ rb D n /\ rb E n) /\
      inorder D ++ d :: inorder E ++ m :: inorder A = inorder sl ++ s :: inorder sr⌝ -∗
    path tree K m -∗ rep (inptr K 0) (Br c (Br true D d E) m (Br true A p t)) -∗ wp (k tt) Φ) -∗
  wp (rb_tree_delete_case5 tree (ptr t) p ≫= k) Φ.
Proof.
  iIntros (Hred) "HK HT HΦ". rewrite !rep_br. iDestruct "HT" as "(%Hp & Hp & (%Hs & Hs & Hsl & Hsr) & Ht)".
  iDestruct (rep_ptr_ne with "Ht Hs") as %Hts; [done|].
  rewrite /rb_tree_delete_case5 /sibling_parent /andM. destruct (Z.eqb_spec p 0); [done|]. rb_steps.
  destruct (Z.eqb_spec (ptr t) s); [done|]. rb_steps. destruct (Z.eqb_spec (ptr t) s); [done|]. rb_steps.
  rewrite Z.eqb_refl. rb_steps.
  iApply (wp_null_or_black with "Hsl"); [done|]. iIntros "Hsl". rb_steps.
  destruct (blk sl) eqn:Hbl.
  - (* the inner child is red *)
    cbn [andb] in Hred. rb_steps. iApply (wp_is_red with "Hsr"); [done|]. iIntros "Hsr". rb_steps.
    rewrite Hred. cbn [negb]. destruct sr as [|[] a z b]; try done. destruct sl as [|[] a' z' b'] eqn:Esl; try done;
    rewrite !rep_br; iDestruct "Hsr" as "(%Hz & Hz & Ha & Hb)"; rb_steps; simpl ptr;
    [iApply (wp_rotate_left tree (FL c p t :: K) false Leaf s true a z b with "[HK Hp Ht] [Hs Hz Ha Hb Hsl]")
    |iApply (wp_rotate_left tree (FL c p t :: K) false (Br true a' z' b') s true a z b with "[HK Hp Ht] [Hs Hz Ha Hb Hsl]")];
    [rewrite path_cons; own|own| |rewrite path_cons; own|own| ];
    rewrite path_cons; iIntros "[(_ & Hp & Ht) HK] HS"; rb_steps; simpl frame_addr;
    [iApply (wp_case6_right tree K c t p true b z false Leaf s a with "HK [Hp Ht HS]")
    |iApply (wp_case6_right tree K c t p true b z false (Br true a' z' b') s a with "HK [Hp Ht HS]")];
    [own| |own| ]; iIntros "HK HT";
    iApply ("HΦ" with "[] HK HT"); iPureIntro; (split; [simpl; naive_solver|inorder_eq]).
  - rb_steps. destruct sl as [|[] a z b]; try done.
    iApply (wp_case6_right tree K c t p true sr s false a z b with "HK [Hp Ht Hs Hsl Hsr]"); [own|].
    iIntros "HK HT". iApply ("HΦ" with "[] HK HT"). iPureIntro. split; [|inorder_eq].
    intros ? (_ & _ & Ha & Hb) Hsr. done.
Qed.

(** ** Cases 4 to 1 *)

Lemma wp_null_or_black_node {B} p c l r par (k : bool -> prog rb_cell B) Φ :
  p <> 0 -> node p c l r par -∗ (node p c l r par -∗ wp (k c) Φ) -∗ wp (null_or_black p ≫= k) Φ.
Proof.
  iIntros (Hp) "Hn HΦ". rewrite /null_or_black /orM. destruct (Z.eqb_spec p 0); [done|]. rb_steps.
  by iApply "HΦ".
Qed.

(** A path that misses one black node: below [K] and a node of colour [c]. *)
Definition expects (K : list (frame bool)) (c : bool) (n : nat) : Prop :=
  rbK K (if c then S (S n) else S n) /\ (c = false -> head_black K = true).

(** The rotated subtree has its black height back. *)
Lemma expects_plug tree K c u v n xs :
  expects K c n -> blk u = true -> blk v = true -> rb u (S n) -> rb v (S n) ->
  forall m, xs = before K ++ inorder (Br c u m v) ++ after K ->
  path tree K m -∗ rep (inptr K 0) (Br c u m v) -∗ valid_tree tree xs.
Proof.
  iIntros ([HK Hc] Hbu Hbv Hu Hv m ->) "HK HT".
  iApply (valid_plug tree K (Br c u m v) (if c then S (S n) else S n) with "HK HT"); [done| | |done].
  - destruct c; simpl; [by exists (S n)|done].
  - destruct c; [by left|right; by apply Hc].
Qed.

Lemma wp_case4_left {B} tree K c t p sl s sr n (k : unit -> prog rb_cell B) Φ :
  expects K c n -> rb t n -> rb sl n -> rb sr n -> c && (blk sl && blk sr) = false ->
  path tree K p -∗ rep (inptr K 0) (Br c t p (Br true sl s sr)) -∗
  (valid_tree tree (before K ++ inorder (Br c t p (Br true sl s sr)) ++ after K) -∗ wp (k tt) Φ) -∗
  wp (rb_tree_delete_case4 tree (ptr t) p ≫= k) Φ.
Proof.
  iIntros (HK Ht Hsl Hsr Hcol) "HK HT HΦ".
  destruct (c || negb (blk sl && blk sr)) eqn:Hcase.
  - (* on to case 5 *)
    assert (blk sl && blk sr = false) as Hred by (destruct c; simpl in *; [done|by apply negb_true_iff]).
    iAssert (rep (inptr K 0) (Br c t p (Br true sl s sr)) -∗ path tree K p -∗
      wp (rb_tree_delete_case5 tree (ptr t) p ≫= k) Φ)%I with "[HΦ]" as "H5".
    { iIntros "HT HK". iApply (wp_case5_left with "HK HT"); [done|].
      iIntros (A m D d E [Hrb Hin]) "HK HT". destruct (Hrb n Hsl Hsr) as (HA & HD & HE). iApply "HΦ".
      iApply (expects_plug with "HK HT"); [done|done|done|by exists n|by exists n|].
      simpl. rewrite -Hin. inorder_eq. }
    rewrite !rep_br. iDestruct "HT" as "(%Hp & Hp & Ht & %Hs & Hs & Hsl & Hsr)".
    rewrite /rb_tree_delete_case4 /sibling_parent /andM. destruct (Z.eqb_spec p 0); [done|]. rb_steps.
    rewrite Z.eqb_refl. rb_steps. destruct c; cbn [negb]; rb_steps.
    { iApply ("H5" with "[Hp Ht Hs Hsl Hsr] HK"). own. }
    iApply (wp_null_or_black_node with "Hs"); [done|]. iIntros "Hs". rb_steps.
    iApply (wp_null_or_black with "Hsl"); [done|]. iIntros "Hsl". rb_steps.
    destruct (blk sl) eqn:Hbl; rb_steps; [|by iApply ("H5" with "[Hp Ht Hs Hsl Hsr] HK"); own].
    iApply (wp_null_or_black with "Hsr"); [done|]. iIntros "Hsr". rb_steps.
    destruct (blk sr) eqn:Hbr; [done|]. iApply ("H5" with "[Hp Ht Hs Hsl Hsr] HK"). own.
  - apply orb_false_iff in Hcase as [-> Hb]. apply negb_false_iff, andb_true_iff in Hb as [Hbl Hbr].
    rewrite !rep_br. iDestruct "HT" as "(%Hp & Hp & Ht & %Hs & Hs & Hsl & Hsr)".
    rewrite /rb_tree_delete_case4 /sibling_parent /andM. destruct (Z.eqb_spec p 0); [done|]. rb_steps.
    rewrite Z.eqb_refl. rb_steps. cbn [negb]. rb_steps.
    iApply (wp_null_or_black_node with "Hs"); [done|]. iIntros "Hs". rb_steps.
    iApply (wp_null_or_black with "Hsl"); [done|]. iIntros "Hsl". rewrite Hbl. rb_steps.
    iApply (wp_null_or_black with "Hsr"); [done|]. iIntros "Hsr". rewrite Hbr. rb_steps.
    iApply "HΦ". destruct HK as [HK _].
    iApply (valid_plug tree K (Br true t p (Br false sl s sr)) (S n) with "HK [Hp Ht Hs Hsl Hsr]");
      [done|exists n; simpl; done|by left|done|own].
Qed.
Lemma wp_case4_right {B} tree K c t p sl s sr n (k : unit -> prog rb_cell B) Φ :
  expects K c n -> rb t n -> rb sl n -> rb sr n -> c && (blk sl && blk sr) = false ->
  path tree K p -∗ rep (inptr K 0) (Br c (Br true sl s sr) p t) -∗
  (valid_tree tree (before K ++ inorder (Br c (Br true sl s sr) p t) ++ after K) -∗ wp (k tt) Φ) -∗
  wp (rb_tree_delete_case4 tree (ptr t) p ≫= k) Φ.
Proof.
  iIntros (HK Ht Hsl Hsr Hcol) "HK HT HΦ".
  destruct (c || negb (blk sl && blk sr)) eqn:Hcase.
  - (* on to case 5 *)
    assert (blk sl && blk sr = false) as Hred by (destruct c; simpl in *; [done|by apply negb_true_iff]).
    iAssert (rep (inptr K 0) (Br c (Br true sl s sr) p t) -∗ path tree K p -∗
      wp (rb_tree_delete_case5 tree (ptr t) p ≫= k) Φ)%I with "[HΦ]" as "H5".
    { iIntros "HT HK". iApply (wp_case5_right with "HK HT"); [done|].
      iIntros (A m D d E [Hrb Hin]) "HK HT". destruct (Hrb n Hsl Hsr) as (HA & HD & HE). iApply "HΦ".
      iApply (expects_plug with "HK HT"); [done|done|done|by exists n|by exists n|].
      simpl. rewrite -Hin. inorder_eq. }
    rewrite !rep_br. iDestruct "HT" as "(%Hp & Hp & (%Hs & Hs & Hsl & Hsr) & Ht)".
    iDestruct (rep_ptr_ne with "Ht Hs") as %Hts; [done|].
    rewrite /rb_tree_delete_case4 /sibling_parent /andM. destruct (Z.eqb_spec p 0); [done|]. rb_steps.
    destruct (Z.eqb_spec (ptr t) s); [done|]. rb_steps. destruct c; cbn [negb]; rb_steps.
    { iApply ("H5" with "[Hp Ht Hs Hsl Hsr] HK"). own. }
    iApply (wp_null_or_black_node with "Hs"); [done|]. iIntros "Hs". rb_steps.
    iApply (wp_null_or_black with "Hsl"); [done|]. iIntros "Hsl". rb_steps.
    destruct (blk sl) eqn:Hbl; rb_steps; [|by iApply ("H5" with "[Hp Ht Hs Hsl Hsr] HK"); own].
    iApply (wp_null_or_black with "Hsr"); [done|]. iIntros "Hsr". rb_steps.
    destruct (blk sr) eqn:Hbr; [done|]. iApply ("H5" with "[Hp Ht Hs Hsl Hsr] HK"). own.
  - apply orb_false_iff in Hcase as [-> Hb]. apply negb_false_iff, andb_true_iff in Hb as [Hbl Hbr].
    rewrite !rep_br. iDestruct "HT" as "(%Hp & Hp & (%Hs & Hs & Hsl & Hsr) & Ht)".
    iDestruct (rep_ptr_ne with "Ht Hs") as %Hts; [done|].
    rewrite /rb_tree_delete_case4 /sibling_parent /andM. destruct (Z.eqb_spec p 0); [done|]. rb_steps.
    destruct (Z.eqb_spec (ptr t) s); [done|]. rb_steps. cbn [negb]. rb_steps.
    iApply (wp_null_or_black_node with "Hs"); [done|]. iIntros "Hs". rb_steps.
    iApply (wp_null_or_black with "Hsl"); [done|]. iIntros "Hsl". rewrite Hbl. rb_steps.
    iApply (wp_null_or_black with "Hsr"); [done|]. iIntros "Hsr". rewrite Hbr. rb_steps.
    iApply "HΦ". destruct HK as [HK _].
    iApply (valid_plug tree K (Br true (Br false sl s sr) p t) (S n) with "HK [Hp Ht Hs Hsl Hsr]");
      [done|exists n; simpl; done|by left|done|own].
Qed.

(** The recursive call of case 3, one node up. *)
Definition case1_ok {B} (tree : Z) (case1 : Z -> Z -> prog rb_cell unit) (K : list (frame bool))
    (k : unit -> prog rb_cell B) (Φ : B -> iProp Σ) : Prop :=
  forall t n, rbK K (S n) -> rb t n -> blk t = true ->
    path tree K (ptr t) -∗ rep (inptr K 0) t -∗
    (valid_tree tree (before K ++ inorder t ++ after K) -∗ wp (k tt) Φ) -∗
    wp (case1 (ptr t) (inptr K 0) ≫= k) Φ.

Lemma wp_case3_left {B} tree case1 K c t p sl s sr n (k : unit -> prog rb_cell B) Φ :
  (c = true -> case1_ok tree case1 K k Φ) -> expects K c n -> rb t n -> rb sl n -> rb sr n ->
  path tree K p -∗ rep (inptr K 0) (Br c t p (Br true sl s sr)) -∗
  (valid_tree tree (before K ++ inorder (Br c t p (Br true sl s sr)) ++ after K) -∗ wp (k tt) Φ) -∗
  wp (rb_tree_delete_case3 case1 tree (ptr t) p ≫= k) Φ.
Proof.
  iIntros (Hc1 HK Ht Hsl Hsr) "HK HT HΦ".
  iAssert (⌜c && (blk sl && blk sr) = false⌝ → rep (inptr K 0) (Br c t p (Br true sl s sr)) -∗ path tree K p -∗
    (valid_tree tree (before K ++ inorder (Br c t p (Br true sl s sr)) ++ after K) -∗ wp (k tt) Φ) -∗
    wp (rb_tree_delete_case4 tree (ptr t) p ≫= k) Φ)%I as "H4".
  { iIntros (Hcol) "HT HK HΦ". by iApply (wp_case4_left with "HK HT"). }
  rewrite (rep_br _ c) (rep_br _ true). iDestruct "HT" as "(%Hp & Hp & Ht & %Hs & Hs & Hsl & Hsr)".
  rewrite /rb_tree_delete_case3 /sibling_parent /andM. destruct (Z.eqb_spec p 0); [done|]. rb_steps.
  rewrite Z.eqb_refl. rb_steps.
  iApply (wp_null_or_black_node with "Hp"); [done|]. iIntros "Hp". rb_steps.
  destruct c; rb_steps; [|by iApply ("H4" with "[] [Hp Ht Hs Hsl Hsr] HK HΦ"); [|own]].
  iApply (wp_null_or_black_node with "Hs"); [done|]. iIntros "Hs". rb_steps.
  iApply (wp_null_or_black with "Hsl"); [done|]. iIntros "Hsl". rb_steps.
  destruct (blk sl) eqn:Hbl; rb_steps; [|by iApply ("H4" with "[] [Hp Ht Hs Hsl Hsr] HK HΦ"); [|own]].
  iApply (wp_null_or_black with "Hsr"); [done|]. iIntros "Hsr". rb_steps.
  destruct (blk sr) eqn:Hbr; rb_steps; [|by iApply ("H4" with "[] [Hp Ht Hs Hsl Hsr] HK HΦ"); [|own]].
  destruct HK as [HK _].
  iApply (Hc1 eq_refl (Br true t p (Br false sl s sr)) (S n) with "HK [Hp Ht Hs Hsl Hsr] HΦ");
    [done|exists n; simpl; done|done|own].
Qed.
Lemma wp_case3_right {B} tree case1 K c t p sl s sr n (k : unit -> prog rb_cell B) Φ :
  (c = true -> case1_ok tree case1 K k Φ) -> expects K c n -> rb t n -> rb sl n -> rb sr n ->
  path tree K p -∗ rep (inptr K 0) (Br c (Br true sl s sr) p t) -∗
  (valid_tree tree (before K ++ inorder (Br c (Br true sl s sr) p t) ++ after K) -∗ wp (k tt) Φ) -∗
  wp (rb_tree_delete_case3 case1 tree (ptr t) p ≫= k) Φ.
Proof.
  iIntros (Hc1 HK Ht Hsl Hsr) "HK HT HΦ".
  iAssert (⌜c && (blk sl && blk sr) = false⌝ → rep (inptr K 0) (Br c (Br true sl s sr) p t) -∗ path tree K p -∗
    (valid_tree tree (before K ++ inorder (Br c (Br true sl s sr) p t) ++ after K) -∗ wp (k tt) Φ) -∗
    wp (rb_tree_delete_case4 tree (ptr t) p ≫= k) Φ)%I as "H4".
  { iIntros (Hcol) "HT HK HΦ". by iApply (wp_case4_right with "HK HT"). }
  rewrite (rep_br _ c) (rep_br _ true). iDestruct "HT" as "(%Hp & Hp & (%Hs & Hs & Hsl & Hsr) & Ht)".
  iDestruct (rep_ptr_ne with "Ht Hs") as %Hts; [done|].
  rewrite /rb_tree_delete_case3 /sibling_parent /andM. destruct (Z.eqb_spec p 0); [done|]. rb_steps.
  destruct (Z.eqb_spec (ptr t) s); [done|]. rb_steps.
  iApply (wp_null_or_black_node with "Hp"); [done|]. iIntros "Hp". rb_steps.
  destruct c; rb_steps; [|by iApply ("H4" with "[] [Hp Ht Hs Hsl Hsr] HK HΦ"); [|own]].
  iApply (wp_null_or_black_node with "Hs"); [done|]. iIntros "Hs". rb_steps.
  iApply (wp_null_or_black with "Hsl"); [done|]. iIntros "Hsl". rb_steps.
  destruct (blk sl) eqn:Hbl; rb_steps; [|by iApply ("H4" with "[] [Hp Ht Hs Hsl Hsr] HK HΦ"); [|own]].
  iApply (wp_null_or_black with "Hsr"); [done|]. iIntros "Hsr". rb_steps.
  destruct (blk sr) eqn:Hbr; rb_steps; [|by iApply ("H4" with "[] [Hp Ht Hs Hsl Hsr] HK HΦ"); [|own]].
  destruct HK as [HK _].
  iApply (Hc1 eq_refl (Br true (Br false sl s sr) p t) (S n) with "HK [Hp Ht Hs Hsl Hsr] HΦ");
    [done|exists n; simpl; done|done|own].
Qed.

Lemma wp_case2_left {B} tree case1 K c t p sib n (k : unit -> prog rb_cell B) Φ :
  case1_ok tree case1 K k Φ -> rbK (FL c p sib :: K) (S n) -> rb t n ->
  path tree K p -∗ rep (inptr K 0) (Br c t p sib) -∗
  (valid_tree tree (before K ++ inorder (Br c t p sib) ++ after K) -∗ wp (k tt) Φ) -∗
  wp (rb_tree_delete_case2 case1 tree (ptr t) p ≫= k) Φ.
Proof.
  iIntros (Hc1 (Hsib & Hfr & HK) Ht) "HK HT HΦ". simpl in Hsib, Hfr, HK.
  destruct sib as [|[] sl s sr]; [done| |].
  - destruct Hsib as (m & [= <-] & Hsl & Hsr).
    rewrite (rep_br _ c) (rep_br _ true). iDestruct "HT" as "(%Hp & Hp & Ht & %Hs & Hs & Hsl & Hsr)".
    rewrite /rb_tree_delete_case2 /sibling_parent. destruct (Z.eqb_spec p 0); [done|]. rb_steps.
    rewrite Z.eqb_refl. rb_steps.
    iApply (wp_is_red (Br true sl s sr) with "[Hs Hsl Hsr]"); [done|own|]. iIntros "HS". cbn [negb blk]. rb_steps.
    iApply (wp_case3_left tree case1 K c t p sl s sr n with "HK [Hp Ht HS] HΦ"); [done| |done|done|done|own].
    split; [done|]. intros ->. by apply Hfr.
  - destruct Hsib as (Hbl & Hbr & Hsl & Hsr). destruct c; [|by destruct (Hfr eq_refl)].
    rewrite (rep_br _ true) (rep_br _ false). iDestruct "HT" as "(%Hp & Hp & Ht & %Hs & Hs & Hsl & Hsr)".
    rewrite /rb_tree_delete_case2 /sibling_parent. destruct (Z.eqb_spec p 0); [done|]. rb_steps.
    rewrite Z.eqb_refl. rb_steps.
    iApply (wp_is_red (Br false sl s sr) with "[Hs Hsl Hsr]"); [done|own|].
    rewrite rep_br. iIntros "(_ & Hs & Hsl & Hsr)". cbn [negb blk]. rb_steps. rewrite Z.eqb_refl.
    iApply (wp_rotate_left tree K false t p true sl s sr with "HK [Hp Ht Hs Hsl Hsr]"); [own|].
    rewrite (rep_br _ true). iIntros "HK (_ & Hs & HT & Hsr)". rb_steps.
    destruct sl as [|[] sll s' slr]; [done| |done]. destruct Hsl as (m & [= <-] & Hsll & Hslr).
    iApply (wp_case3_left tree case1 (FL true s sr :: K) false t p sll s' slr n with "[HK Hs Hsr] HT [HΦ]");
      [done|by repeat split|done|done|done|rewrite path_cons; own|].
    iIntros "HT". iApply "HΦ". iApply (valid_tree_eq with "HT"). inorder_eq.
Qed.

Lemma wp_case2_right {B} tree case1 K c t p sib n (k : unit -> prog rb_cell B) Φ :
  case1_ok tree case1 K k Φ -> rbK (FR c sib p :: K) (S n) -> rb t n ->
  path tree K p -∗ rep (inptr K 0) (Br c sib p t) -∗
  (valid_tree tree (before K ++ inorder (Br c sib p t) ++ after K) -∗ wp (k tt) Φ) -∗
  wp (rb_tree_delete_case2 case1 tree (ptr t) p ≫= k) Φ.
Proof.
  iIntros (Hc1 (Hsib & Hfr & HK) Ht) "HK HT HΦ". simpl in Hsib, Hfr, HK.
  destruct sib as [|[] sl s sr]; [done| |].
  - destruct Hsib as (m & [= <-] & Hsl & Hsr).
    rewrite (rep_br _ c) (rep_br _ true). iDestruct "HT" as "(%Hp & Hp & (%Hs & Hs & Hsl & Hsr) & Ht)".
    iDestruct (rep_ptr_ne with "Ht Hs") as %Hts; [done|].
    rewrite /rb_tree_delete_case2 /sibling_parent. destruct (Z.eqb_spec p 0); [done|]. rb_steps.
    destruct (Z.eqb_spec (ptr t) s); [done|]. rb_steps.
    iApply (wp_is_red (Br true sl s sr) with "[Hs Hsl Hsr]"); [done|own|]. iIntros "HS". cbn [negb blk]. rb_steps.
    iApply (wp_case3_right tree case1 K c t p sl s sr n with "HK [Hp Ht HS] HΦ"); [done| |done|done|done|own].
    split; [done|]. intros ->. by apply Hfr.
  - destruct Hsib as (Hbl & Hbr & Hsl & Hsr). destruct c; [|by destruct (Hfr eq_refl)].
    rewrite (rep_br _ true) (rep_br _ false). iDestruct "HT" as "(%Hp & Hp & (%Hs & Hs & Hsl & Hsr) & Ht)".
    iDestruct (rep_ptr_ne with "Ht Hs") as %Hts; [done|].
    rewrite /rb_tree_delete_case2 /sibling_parent. destruct (Z.eqb_spec p 0); [done|]. rb_steps.
    destruct (Z.eqb_spec (ptr t) s); [done|]. rb_steps.
    iApply (wp_is_red (Br false sl s sr) with "[Hs Hsl Hsr]"); [done|own|].
    rewrite rep_br. iIntros "(_ & Hs & Hsl & Hsr)". cbn [negb blk]. rb_steps.
    destruct (Z.eqb_spec (ptr t) s); [done|].
    iApply (wp_rotate_right tree K true sl s false sr p t with "HK [Hp Ht Hs Hsl Hsr]"); [own|].
    rewrite (rep_br _ true). iIntros "HK (_ & Hs & Hsl & HT)". rb_steps.
    destruct sr as [|[] srl s' srr]; [done| |done]. destruct Hsr as (m & [= <-] & Hsrl & Hsrr).
    iApply (wp_case3_right tree case1 (FR true sl s :: K) false t p srl s' srr n with "[HK Hs Hsl] HT [HΦ]");
      [done|by repeat split|done|done|done|rewrite path_cons; own|].
    iIntros "HT". iApply "HΦ". iApply (valid_tree_eq with "HT"). inorder_eq.
Qed.

(** The subtree [t] is one black node short below [K]. *)
Lemma wp_delete_case1 {B} fuel tree K t n (k : unit -> prog rb_cell B) Φ :
  (length K < fuel)%nat -> rbK K (S n) -> rb t n -> blk t = true ->
  path tree K (ptr t) -∗ rep (inptr K 0) t -∗
  (valid_tree tree (before K ++ inorder t ++ after K) -∗ wp (k tt) Φ) -∗
  wp (rb_tree_delete_case1 fuel tree (ptr t) (inptr K 0) ≫= k) Φ.
Proof.
  revert K t n. induction fuel as [|fuel IH]; iIntros (K t n Hf HK Ht Hb) "HK HT HΦ"; [lia|].
  cbn [rb_tree_delete_case1]. destruct K as [|f K]; simpl inptr.
  { rewrite Z.eqb_refl. rb_steps. iApply "HΦ". iApply (valid_plug tree [] t n with "HK HT"); by [|left]. }
  rewrite path_cons. iDestruct "HK" as "[Hf HK]".
  iAssert ⌜frame_addr f <> 0⌝%I as %Hf0; [by iDestruct "Hf" as "[% _]"|].
  destruct (Z.eqb_spec (frame_addr f) 0); [done|].
  assert (case1_ok tree (rb_tree_delete_case1 fuel tree) K k Φ) as Hc1.
  { intros t' n' ? ? ?. apply (IH K t' n'); [simpl in Hf; lia|done..]. }
  iAssert (rep (inptr K 0) (fill1 f t)) with "[Hf HT]" as "HT"; [rewrite rep_fill1; iFrame|].
  destruct f as [c p sib|c sib p]; simpl frame_addr; simpl fill1.
  - iApply (wp_case2_left with "HK HT"); [done|done|done|]. iIntros "HT". iApply "HΦ".
    iApply (valid_tree_eq with "HT"). inorder_eq.
  - iApply (wp_case2_right with "HK HT"); [done|done|done|]. iIntros "HT". iApply "HΦ".
    iApply (valid_tree_eq with "HT"). inorder_eq.
Qed.
End rb_deletion.
