(* ===== verification/RbRemove.v ===== *)
(** Red-black trees: unlinking a node, and deletion as a statement about
    heaps. *)
From iris.proofmode Require Import coq_tactics reduction proofmode.
From iris.base_logic.lib Require Import gen_heap.
From S2P Require Import Prelude Heap PTree PExchange PPlaces RbTree RbOps RbDelete.

Lemma fits_plug K t n0 : fits [] (plug K t) n0 -> exists n, fits K t n.
Proof.
  revert t. induction K as [|f K IH]; intros t Hfit; [by exists n0|].
  destruct (IH (fill1 f t) Hfit) as (n & Hn). destruct f; simpl in Hn; [by eapply fits_left|by eapply fits_right].
Qed.

(** Addresses do not matter. *)
Lemma fits_relabel K2 K c x y r t n :
  fits (K2 ++ FL c x r :: K) t n -> fits (K2 ++ FL c y r :: K) t n.
Proof.
  intros (HK & Ht & Hb). split; [|split; [done|]]; last first.
  { destruct Hb as [?|Hb]; [by left|right]. by destruct K2. }
  clear Ht Hb. revert n HK. induction K2 as [|f K2 IH]; intros n; simpl; [done|].
  intros (Hs & Hf & HK). split; [done|]. split; [|by apply IH].
  intros Hc. destruct (Hf Hc) as [? Hh]. split; [done|]. by destruct K2.
Qed.

Section rb_unlink.
Context `{!gen_heapGS Z rb_cell Σ}.
Implicit Types (t l r : rbt) (K : list (frame bool)).

Lemma wp_delete_one_child {B} fuel tree K c l x r n (k : unit -> prog rb_cell B) Φ :
  (length K < fuel)%nat -> fits K (Br c l x r) n -> l = Leaf \/ r = Leaf ->
  path tree K x -∗ rep (inptr K 0) (Br c l x r) -∗
  (valid_tree tree (before K ++ (inorder l ++ inorder r) ++ after K) -∗ some_node x -∗ wp (k tt) Φ) -∗
  wp (rb_tree_delete_one_child fuel tree x ≫= k) Φ.
Proof.
  rewrite rep_br. iIntros (Hf (HK & Ht & Hb) Hone) "HK (%Hx & Hx & Hl & Hr) HΦ".
  rewrite /rb_tree_delete_one_child. rb_steps.
  set (ch := match r with Leaf => l | _ => r end).
  iAssert (⌜(if ptr r =? 0 then ptr l else ptr r) = ptr ch /\ inorder l ++ inorder r = inorder ch /\
    (ch = l \/ ch = r)⌝ ∗ rep x ch)%I with "[Hl Hr]" as "[(%Hch & %Hin & %Hor) Hch]".
  { destruct r as [|c' l' y r']; simpl ptr; subst ch; [rewrite /= app_nil_r; iFrame; auto|].
    destruct Hone as [->|?]; [|done]. iAssert ⌜y <> 0⌝%I as %Hy; [by iDestruct "Hr" as "[% _]"|].
    destruct (Z.eqb_spec y 0); [done|]. iFrame. auto. }
  rewrite Hch Hin. iApply (wp_unlink with "Hx HK Hch"); [done|]. iIntros "Hx HK Hch". rb_steps.
  assert (forall m, rb l m -> rb r m -> m = O /\ rb ch O) as Hm.
  { intros m Hl Hr. assert (m = O) as -> by (destruct Hone as [->| ->]; done). by destruct Hor as [->| ->]. }
  destruct c.
  - destruct Ht as (m & -> & Hl & Hr). destruct (Hm m Hl Hr) as [-> Hrb]. rb_steps.
    iApply (wp_is_red with "Hch"); [done|]. iIntros "Hch". rb_steps. destruct (blk ch) eqn:Hbc; cbn [negb].
    + rb_steps. iApply (wp_delete_case1 with "HK Hch [HΦ Hx]"); [done..|].
      iIntros "HT". iApply ("HΦ" with "HT"). iExists _, _, _, _. iFrame.
    + destruct ch as [|[] cl y cr]; [done|done|]. rewrite rep_br. iDestruct "Hch" as "(%Hy & Hy & Hc)". simpl ptr.
      rb_steps. destruct Hrb as (? & ? & ? & ?). iApply ("HΦ" with "[HK Hy Hc] [Hx]"); [|iExists _, _, _, _; iFrame].
      iApply (valid_plug tree K (Br true cl y cr) 1 with "HK [Hy Hc]"); [done|by exists O|by left|done|own].
  - destruct Ht as (Hbl & Hbr & Hl & Hr). destruct (Hm n Hl Hr) as [-> Hrb]. rb_steps.
    iApply ("HΦ" with "[HK Hch] [Hx]"); [|iExists _, _, _, _; iFrame].
    iApply (valid_plug tree K ch O with "HK Hch"); [done|done| |done]. left. by destruct Hor as [->| ->].
Qed.

Lemma wp_rb_delete {B} fuel tree K c l x r n0 (k : unit -> prog rb_cell B) Φ :
  (tsize (plug K (Br c l x r)) < fuel)%nat -> fits [] (plug K (Br c l x r)) n0 ->
  tree_rep tree (plug K (Br c l x r)) -∗
  (valid_tree tree (before K ++ (inorder l ++ inorder r) ++ after K) -∗ some_node x -∗ wp (k tt) Φ) -∗
  wp (rb_tree_nocmp_delete fuel tree x ≫= k) Φ.
Proof.
  iIntros (Hf Hfit) "HT HΦ". rewrite tree_rep_plug. iDestruct "HT" as "[HK HT]". cbn [ptr].
  pose proof (tsize_plug K (Br c l x r)) as Hsz. simpl in Hsz.
  destruct (fits_plug _ _ _ Hfit) as (n & Hn).
  rewrite rep_br. iDestruct "HT" as "(%Hx & Hx & Hl & Hr)". rewrite /rb_tree_nocmp_delete. rb_steps.
  iDestruct (rep_ptr_null with "Hl") as %Hl0. iDestruct (rep_ptr_null with "Hr") as %Hr0.
  destruct (Z.eqb_spec (ptr l) 0) as [El|El]; [|destruct (Z.eqb_spec (ptr r) 0) as [Er|Er]]; cbn [negb andb].
  - iApply (wp_delete_one_child fuel tree K c l x r n with "HK [Hx Hl Hr] HΦ"); [lia|done|left; tauto|own].
  - iApply (wp_delete_one_child fuel tree K c l x r n with "HK [Hx Hl Hr] HΦ"); [lia|done|right; tauto|own].
  - destruct (rightmost_place l) as (K2 & c2 & l2 & y & -> & Ha); [tauto|]. rb_steps.
    iApply (wp_rightmost_loop with "Hl"); [lia|tauto|]. iIntros (y' ys Hy') "Hl". rb_steps.
    assert (y' = y) as ->.
    { rewrite inorder_plug Ha /= app_assoc app_nil_r in Hy'.
      rewrite app_assoc in Hy'. by apply app_inj_tail in Hy' as [_ ->]. }
    destruct fuel as [|fuel]; [lia|]. rewrite /rb_tree_exchange.
    iApply (wp_exchange_left fuel tree K c K2 c2 l2 y Leaf x r with "HK [Hx Hl Hr]"); [own|].
    iIntros "HK HT". rb_steps.
    destruct (fits_plug (K2 ++ FL c x r :: K) (Br c2 l2 y Leaf) n0) as (m & Hm).
    { rewrite plug_app. done. }
    apply (fits_relabel K2 K c x y r) in Hm.
    rewrite (rep_fill1 (FL c y r)) rep_plug. iDestruct "HT" as "[Hf [HK2 HT]]".
    iApply (wp_delete_one_child (S fuel) tree (K2 ++ FL c y r :: K) c2 l2 x Leaf m with "[HK Hf HK2] [HT] [HΦ]").
    + pose proof (tsize_plug K2 (Br c2 l2 y Leaf)). rewrite length_app. simpl in *. lia.
    + done.
    + by right.
    + rewrite path_app path_cons. simpl. rewrite ptr_plug. iFrame.
    + rewrite inptr_app. iFrame.
    + iIntros "HT Hx". iApply ("HΦ" with "[HT] Hx"). iApply (valid_tree_eq with "HT").
      rewrite before_app after_app inorder_plug Ha. inorder_eq.
Qed.
End rb_unlink.

(** C35: deleting from a red-black tree.  On a heap that holds a valid tree with [x] among its nodes,
    [rb_tree_nocmp_delete] returns, with a bound on its loops of the size of the tree plus one, whichever of
    the many cases applies at every level; the heap then holds a valid red-black tree of exactly the other
    nodes in the same order, and every cell outside the tree is unchanged. *)
Theorem rb_tree_nocmp_delete_correct (fuel : nat) (H : gmap Z rb_cell) (tree x : Z) (t : rbt) (ls rs : list Z)
  (Htree : is_tree H tree t) (Hv : rb_valid t) (Hx : inorder t = ls ++ x :: rs) (Hfuel : (tsize t < fuel)%nat) :
  exists t' H', rb_tree_nocmp_delete fuel tree x H = Ret (tt, H') /\
    is_tree H' tree t' /\ rb_valid t' /\ balanced t' /\ inorder t' = ls ++ rs /\
    (forall p v, p <> tree -> p ∉ inorder t -> H !! p = Some v -> H' !! p = Some v).
Proof.
  destruct Htree as (Hsub & Hnd & H0 & Htr).
  destruct (delete_place t x ls rs Hnd Hx) as (K & c & l & r & -> & Hin).
  destruct Hv as [Hb [n0 Hn0]].
  destruct (tree_sound (rb_tree_nocmp_delete fuel tree x) H tree (tree_cells tree (plug K (Br c l x r)))
    (fun _ t' => rb_valid t' /\ inorder t' = ls ++ rs)) as ([] & t' & H' & E & [Hv' Hin'] & Ht' & Hframe); [done| |].
  - intros Σ HΣ. rewrite owns_tree //. iIntros "HT". iApply wp_last.
    iApply (wp_rb_delete fuel tree K c l x r n0 with "HT"); [done|split; [done|]; by split; [|left]|].
    iIntros "HT _". rewrite Hin. wp_steps. iApply wp_ret. by iApply valid_tree_rep.
  - exists t', H'. repeat (split; [done|]). split; [by apply rb_valid_balanced|]. split; [done|].
    intros p v Hp1 Hp2. apply Hframe. unfold tree_cells. rewrite lookup_insert_ne //. by apply cells_none.
Qed.

(** ** A tree of nodes compared by address *)

(** The nodes 10 to 50; 25 stands outside. *)
Definition sample_tree : rbt :=
  Br true (Br true Leaf 10 Leaf) 20 (Br false (Br true Leaf 30 Leaf) 40 (Br true Leaf 50 Leaf)).
Definition sample_rb_heap : gmap Z rb_cell := <[25 := Node (mkNode false 0 0 0)]> (tree_cells 1 sample_tree).

Lemma sample_is_tree : is_tree sample_rb_heap 1 sample_tree.
Proof.
  split; [by apply insert_subseteq|]. split; [apply (bool_decide_unpack _); reflexivity|].
  split; apply (bool_decide_unpack _); reflexivity.
Qed.
Lemma sample_valid : rb_valid sample_tree.
Proof. split; [done|]. exists 2%nat. simpl. naive_solver. Qed.
Lemma sample_ordered : ordered addr_cmp (inorder sample_tree).
Proof.
  simpl. repeat setoid_rewrite elem_of_cons. setoid_rewrite elem_of_nil. unfold addr_cmp. naive_solver lia.
Qed.

Lemma rb_tree_insert_correct_witness :
  exists t' H', rb_tree_insert 6 1 addr_cmp 25 sample_rb_heap = Ret (tt, H') /\
    is_tree H' 1 t' /\ rb_valid t' /\ inorder t' = [10; 20; 25; 30; 40; 50].
Proof.
  destruct (rb_tree_insert_correct addr_cmp 6 sample_rb_heap 1 25 sample_tree (mkNode false 0 0 0))
    as (t' & H' & E & Ht & Hv & _ & Hin & _).
  - exact addr_cmp_laws.
  - exact sample_is_tree.
  - exact sample_valid.
  - exact sample_ordered.
  - reflexivity.
  - apply (bool_decide_unpack _). reflexivity.
  - lia.
  - simpl. lia.
  - exists t', H'. repeat (split; [done|]). exact Hin.
Defined.

Lemma rb_tree_nocmp_insert_nonexist_correct_witness :
  exists rc t' H', rb_tree_nocmp_insert_nonexist 6 1 addr_cmp 25 sample_rb_heap = Ret (rc, H') /\
    is_tree H' 1 t' /\ rb_valid t'.
Proof.
  destruct (rb_tree_nocmp_insert_nonexist_correct addr_cmp 6 sample_rb_heap 1 25 sample_tree (mkNode false 0 0 0))
    as (rc & t' & H' & E & Ht & Hv & _).
  - exact addr_cmp_laws.
  - exact sample_is_tree.
  - exact sample_valid.
  - exact sample_ordered.
  - reflexivity.
  - apply (bool_decide_unpack _). reflexivity.
  - lia.
  - simpl. lia.
  - by exists rc, t', H'.
Defined.

Lemma rb_tree_reads_correct_witness :
  exists y H', rb_tree_nocmp_find 6 1 addr_cmp 30 sample_rb_heap = Ret (y, H') /\
    find_result addr_cmp 30 [10; 20; 30; 40; 50] y.
Proof.
  destruct (rb_tree_reads_correct addr_cmp 6 sample_rb_heap 1 30 sample_tree) as ((y & H' & E & Hy & _) & _).
  - exact addr_cmp_laws.
  - exact sample_is_tree.
  - exact sample_ordered.
  - simpl. lia.
  - exists y, H'. split; [exact E|exact Hy].
Defined.

Lemma rb_tree_nocmp_delete_correct_witness :
  exists t' H', rb_tree_nocmp_delete 6 1 20 sample_rb_heap = Ret (tt, H') /\
    is_tree H' 1 t' /\ rb_valid t' /\ inorder t' = [10; 30; 40; 50].
Proof.
  destruct (rb_tree_nocmp_delete_correct 6 sample_rb_heap 1 20 sample_tree [10] [30; 40; 50])
    as (t' & H' & E & Ht & Hv & _ & Hin & _).
  - exact sample_is_tree.
  - exact sample_valid.
  - reflexivity.
  - simpl. lia.
  - exists t', H'. repeat (split; [done|]). exact Hin.
Defined.
