(* ===== verification/AvlTree.v ===== *)
(** AVL trees of avltree/avltree.h and avltree/avltree.c.

    [balance] is the first field of a node: the height of the right subtree
    minus that of the left one. *)
From iris.proofmode Require Import coq_tactics reduction proofmode.
From iris.base_logic.lib Require Import gen_heap.
From S2P Require Import Prelude Heap PTree PExchange.

Abbreviation avl_cell := (cell Z).
Definition balance (p : Z) : prog avl_cell Z := field payload p.
Definition set_balance (p : Z) (b : Z) : prog avl_cell unit := set_payload p b.

(** ** Validity checks *)

Fixpoint avl_subtree_ptrs_valid (fuel : nat) (node : Z) : prog avl_cell Z :=
  match fuel with
  | O => fun _ => OutOfFuel
  | S fuel =>
  let side (child : Z) : prog avl_cell Z :=
    if child =? 0 then mret 1
    else
      p ← field nparent child;
      if negb (p =? node) then mret 0 else avl_subtree_ptrs_valid fuel child in
  l ← field nleft node;
  resultl ← side l;
  if resultl =? 0 then mret 0
  else
    r ← field nright node;
    resultr ← side r;
    if resultr =? 0 then mret 0 else mret 1
  end.

Fixpoint avl_subtree_height (fuel : nat) (node : Z) : prog avl_cell Z :=
  match fuel with
  | O => fun _ => OutOfFuel
  | S fuel =>
  let side (child : Z) : prog avl_cell Z :=
    if child =? 0 then mret 0
    else
      p ← field nparent child;
      if negb (p =? node) then mret (-1) else avl_subtree_height fuel child in
  l ← field nleft node;
  resultl ← side l;
  if resultl <? 0 then mret (-1)
  else
    r ← field nright node;
    resultr ← side r;
    if resultr <? 0 then mret (-1)
    else
      b ← balance node;
      if (b <? -1) || (b >? 1) then mret (-1)
      else if (resultl <? resultr - 1) || (resultl - 1 >? resultr) then mret (-1)
      else if negb (resultr - resultl =? b) then mret (-1)
      else mret (if resultr >? resultl then 1 + resultr else 1 + resultl)
  end.

Definition avl_tree_ptrs_valid (fuel : nat) (tree : Z) : prog avl_cell Z :=
  root ← get_root tree;
  if root =? 0 then mret 1
  else
    p ← field nparent root;
    if negb (p =? 0) then mret 0
    else
      v ← avl_subtree_ptrs_valid fuel root;
      mret (if v =? 0 then 0 else 1).

Definition avl_tree_valid (fuel : nat) (tree : Z) : prog avl_cell Z :=
  root ← get_root tree;
  if root =? 0 then mret 1
  else
    p ← field nparent root;
    if negb (p =? 0) then mret 0
    else
      h ← avl_subtree_height fuel root;
      mret (if h <? 0 then 0 else 1).

Definition avl_tree_init (tree : Z) : prog avl_cell unit := set_root tree 0.

Definition avl_tree_leftmost (fuel : nat) (tree : Z) : prog avl_cell Z :=
  node ← get_root tree;
  if node =? 0 then mret 0 else loop fuel leftmost_step node.

Definition avl_tree_rightmost (fuel : nat) (tree : Z) : prog avl_cell Z :=
  node ← get_root tree;
  if node =? 0 then mret 0 else loop fuel rightmost_step node.

(** ** Rotations: they return the new top, whose parent the caller sets *)

Definition avl_rotate_left (x z : Z) : prog avl_cell Z :=
  t23 ← field nleft z;
  _ ← set_right x t23;
  _ ← link_child t23 x;
  _ ← set_left z x;
  _ ← set_parent x z;
  zb ← balance z;
  _ ← (if zb =? 0 then _ ← set_balance x 1; set_balance z (-1)
       else _ ← set_balance x 0; set_balance z 0);
  mret z.

Definition avl_rotate_right (x z : Z) : prog avl_cell Z :=
  t23 ← field nright z;
  _ ← set_left x t23;
  _ ← link_child t23 x;
  _ ← set_right z x;
  _ ← set_parent x z;
  zb ← balance z;
  _ ← (if zb =? 0 then _ ← set_balance x (-1); set_balance z 1
       else _ ← set_balance x 0; set_balance z 0);
  mret z.

Definition avl_rotate_rightleft (x z : Z) : prog avl_cell Z :=
  y ← field nleft z;
  t3 ← field nright y;
  _ ← set_left z t3;
  _ ← link_child t3 z;
  _ ← set_right y z;
  _ ← set_parent z y;
  t2 ← field nleft y;
  _ ← set_right x t2;
  _ ← link_child t2 x;
  _ ← set_left y x;
  _ ← set_parent x y;
  yb ← balance y;
  _ ← (if yb >? 0 then _ ← set_balance x (-1); set_balance z 0
       else if yb =? 0 then _ ← set_balance x 0; set_balance z 0
       else _ ← set_balance x 0; set_balance z 1);
  _ ← set_balance y 0;
  mret y.

Definition avl_rotate_leftright (x z : Z) : prog avl_cell Z :=
  y ← field nright z;
  t3 ← field nleft y;
  _ ← set_right z t3;
  _ ← link_child t3 z;
  _ ← set_left y z;
  _ ← set_parent z y;
  t2 ← field nright y;
  _ ← set_left x t2;
  _ ← link_child t2 x;
  _ ← set_right y x;
  _ ← set_parent x y;
  yb ← balance y;
  _ ← (if yb <? 0 then _ ← set_balance x 1; set_balance z 0
       else if yb =? 0 then _ ← set_balance x 0; set_balance z 0
       else _ ← set_balance x 0; set_balance z (-1));
  _ ← set_balance y 0;
  mret y.

(** [N->parent = G], and [N] takes the place of [X] below [G] or at the root. *)
Definition avl_relink (tree x n g : Z) : prog avl_cell unit :=
  _ ← set_parent n g;
  if negb (g =? 0) then
    gl ← field nleft g;
    if x =? gl then set_left g n else set_right g n
  else set_root tree n.

(** ** Insertion *)

Definition insert_repair_step (tree z : Z) : prog avl_cell (Z + unit) :=
  x ← field nparent z;
  if x =? 0 then mret (inr tt)
  else
    xr ← field nright x;
    xb ← balance x;
    if z =? xr then
      if xb >? 0 then
        g ← field nparent x;
        zb ← balance z;
        n ← (if zb <? 0 then avl_rotate_rightleft x z else avl_rotate_left x z);
        _ ← avl_relink tree x n g;
        mret (inr tt)
      else if xb <? 0 then _ ← set_balance x 0; mret (inr tt)
      else _ ← set_balance x 1; mret (inl x)
    else
      if xb <? 0 then
        g ← field nparent x;
        zb ← balance z;
        n ← (if zb >? 0 then avl_rotate_leftright x z else avl_rotate_right x z);
        _ ← avl_relink tree x n g;
        mret (inr tt)
      else if xb >? 0 then _ ← set_balance x 0; mret (inr tt)
      else _ ← set_balance x (-1); mret (inl x).
Definition avl_tree_insert_repair (fuel : nat) (tree z : Z) : prog avl_cell unit :=
  loop fuel (insert_repair_step tree) z.

Definition avl_insert_step (fuel : nat) (tree : Z) (cmp : cmp_fun) (node node2 : Z) : prog avl_cell (Z + unit) :=
  if cmp node node2 <? 0 then
    l ← field nleft node2;
    if l =? 0 then
      _ ← set_left node2 node;
      _ ← set_parent node node2;
      _ ← avl_tree_insert_repair fuel tree node;
      mret (inr tt)
    else mret (inl l)
  else
    r ← field nright node2;
    if r =? 0 then
      _ ← set_right node2 node;
      _ ← set_parent node node2;
      _ ← avl_tree_insert_repair fuel tree node;
      mret (inr tt)
    else mret (inl r).

Definition avl_tree_insert (fuel : nat) (tree : Z) (cmp : cmp_fun) (node : Z) : prog avl_cell unit :=
  _ ← set_balance node 0;
  _ ← set_left node 0;
  _ ← set_right node 0;
  root ← get_root tree;
  if root =? 0 then
    _ ← set_root tree node;
    set_parent node 0
  else loop fuel (avl_insert_step fuel tree cmp node) root.

(** ** Deletion *)

Definition avl_tree_exchange (fuel : nat) (tree n1 n2 : Z) : prog avl_cell unit := exchange fuel tree n1 n2.

(** The loop state is [N] and [X]. *)
Definition delete_repair_step (tree : Z) (s : Z * Z) : prog avl_cell (Z * Z + unit) :=
  let '(n, x) := s in
  if x =? 0 then mret (inr tt)
  else
    g ← field nparent x;
    xl ← field nleft x;
    xb ← balance x;
    if n =? xl then
      if xb >? 0 then
        z ← field nright x;
        b ← balance z;
        n ← (if b <? 0 then avl_rotate_rightleft x z else avl_rotate_left x z);
        _ ← avl_relink tree x n g;
        if negb (g =? 0) && (b =? 0) then mret (inr tt) else mret (inl (n, g))
      else if xb =? 0 then _ ← set_balance x 1; mret (inr tt)
      else _ ← set_balance x 0; mret (inl (x, g))
    else
      if xb <? 0 then
        z ← field nleft x;
        b ← balance z;
        n ← (if b >? 0 then avl_rotate_leftright x z else avl_rotate_right x z);
        _ ← avl_relink tree x n g;
        if negb (g =? 0) && (b =? 0) then mret (inr tt) else mret (inl (n, g))
      else if xb =? 0 then _ ← set_balance x (-1); mret (inr tt)
      else _ ← set_balance x 0; mret (inl (x, g)).
Definition avl_tree_delete_repair (fuel : nat) (tree n : Z) : prog avl_cell unit :=
  x ← field nparent n;
  loop fuel (delete_repair_step tree) (n, x).

Definition avl_tree_delete_one_child (fuel : nat) (tree node : Z) : prog avl_cell unit :=
  _ ← avl_tree_delete_repair fuel tree node;
  r ← field nright node;
  l ← field nleft node;
  let child := if r =? 0 then l else r in
  parent ← field nparent node;
  if parent =? 0 then
    _ ← set_root tree child; link_child child 0
  else
    pl ← field nleft parent;
    if pl =? node then
      _ ← set_left parent child; link_child child parent
    else
      pr ← field nright parent;
      if pr =? node then
        _ ← set_right parent child; link_child child parent
      else mret tt.

Definition avl_tree_delete (fuel : nat) (tree node : Z) : prog avl_cell unit :=
  l ← field nleft node;
  r ← field nright node;
  if negb (l =? 0) && negb (r =? 0) then
    node2 ← loop fuel leftmost_step r;
    _ ← avl_tree_exchange fuel tree node node2;
    avl_tree_delete_one_child fuel tree node
  else avl_tree_delete_one_child fuel tree node.
