(* ===== verification/AvlOps.v ===== *)
(** AVL trees: the balance discipline, the rotations, insertion and the
    validity check as statements about heaps. *)
From iris.proofmode Require Import coq_tactics reduction proofmode.
From iris.base_logic.lib Require Import gen_heap.
From S2P Require Import Prelude Heap PTree PExchange PPlaces AvlTree.

Abbreviation avlt := (tree Z).

Fixpoint hgt {C} (t : tree C) : Z := match t with Leaf => 0 | Br _ l _ r => 1 + Z.max (hgt l) (hgt r) end.

(** Every balance field is the difference of the heights, and small. *)
Fixpoint avl (t : avlt) : Prop :=
  match t with
  | Leaf => True
  | Br b l _ r => avl l /\ avl r /\ b = hgt r - hgt l /\ -1 <= b <= 1
  end.

(** The balance of a frame around a subtree of height [h]. *)
Definition frame_bal (f : frame Z) (h : Z) : Z :=
  match f with FL _ _ r => hgt r - h | FR _ l _ => h - hgt l end.

(** A path into which an AVL subtree of height [h] fits. *)
Fixpoint avlK (K : list (frame Z)) (h : Z) : Prop :=
  match K with
  | [] => True
  | f :: K => avl (frame_sib f) /\ frame_pl f = frame_bal f h /\ -1 <= frame_pl f <= 1 /\
      avlK K (1 + Z.max h (hgt (frame_sib f)))
  end.

Lemma hgt_nonneg {C} (t : tree C) : 0 <= hgt t.
Proof. induction t; simpl; lia. Qed.
Lemma hgt_zero {C} (t : tree C) : hgt t = 0 -> t = Leaf.
Proof. destruct t as [|c l x r]; [done|]. simpl. pose proof (hgt_nonneg l). lia. Qed.
Lemma hgt_fill1 {C} (f : frame C) t : hgt (fill1 f t) = 1 + Z.max (hgt t) (hgt (frame_sib f)).
Proof. destruct f; simpl; lia. Qed.
Lemma hgt_theight {C} (t : tree C) : hgt t = Z.of_nat (theight t).
Proof. induction t; simpl; lia. Qed.

Lemma avl_plug K t : avlK K (hgt t) /\ avl t <-> avl (plug K t).
Proof.
  revert t. induction K as [|f K IH]; intros t; simpl; [tauto|].
  rewrite -IH hgt_fill1. destruct f; simpl; tauto.
Qed.
(** Addresses do not matter. *)
Lemma avlK_relabel K2 K c x y l h : avlK (K2 ++ FR c l x :: K) h -> avlK (K2 ++ FR c l y :: K) h.
Proof. revert h. induction K2 as [|f K2 IH]; intros h; simpl; [done|]. naive_solver. Qed.

(** The height is at most twice the logarithm of the size. *)
Lemma avl_size t : avl t -> 2 ^ hgt t <= (Z.of_nat (tsize t) + 1) * (Z.of_nat (tsize t) + 1).
Proof.
  induction t as [|b l IHl x r IHr]; [done|]. intros (Hl & Hr & Hb & Hb').
  specialize (IHl Hl). specialize (IHr Hr). pose proof (hgt_nonneg l) as Hl0. pose proof (hgt_nonneg r) as Hr0.
  cbn [hgt tsize]. set (sl := Z.of_nat (tsize l)) in *. set (sr := Z.of_nat (tsize r)) in *.
  assert (Z.of_nat (S (tsize l + tsize r)) = 1 + sl + sr) as -> by lia.
  assert (0 <= sl /\ 0 <= sr) as [Hsl Hsr] by lia. clearbody sl sr.
  assert (2 ^ (1 + Z.max (hgt l) (hgt r)) <= 4 * 2 ^ hgt l /\ 2 ^ (1 + Z.max (hgt l) (hgt r)) <= 4 * 2 ^ hgt r) as [H1 H2].
  { change 4 with (2 ^ 2). rewrite -!Z.pow_add_r; [|lia..]. split; apply Z.pow_le_mono_r; lia. }
  destruct (Z.le_gt_cases sl sr); nia.
Qed.
Lemma avl_balanced t : avl t -> balanced t.
Proof. intros H. unfold balanced. rewrite -hgt_theight. by apply avl_size. Qed.

Ltac avl_step :=
  cbv beta; lazymatch goal with
  | |- envs_entails _ (wp (balance _ ≫= _) _) => wp_field_step
  | |- envs_entails _ (wp (set_balance _ _ ≫= _) _) => wp_set_step
  | |- _ => wp_step
  end.
Ltac avl_steps := repeat avl_step; cbv beta.

(** ** Rotations *)

(** The balances after a single rotation of [z], which had balance [b], and
    after a double one over the balance [b] of the node that rises. *)
Definition single_x (d b : Z) : Z := if b =? 0 then d else 0.
Definition double_x (d b : Z) : Z := if d * b >? 0 then - d else 0.
Definition double_z (d b : Z) : Z := if d * b <? 0 then d else 0.

Section avl_rotations.
Context `{!gen_heapGS Z avl_cell Σ}.
Implicit Types (t : avlt) (K : list (frame Z)).

(** [z] rises over [x]; [A], on the other side of [x], is not touched. *)
Lemma wp_avl_rotate_left {R} x bx a p z bz B (D : avlt) (k : Z -> prog avl_cell R) Φ :
  node x bx a z p -∗ node z bz (ptr B) (ptr D) x -∗ rep z B -∗
  (node x (single_x 1 bz) a (ptr B) z -∗ node z (single_x (-1) bz) x (ptr D) x -∗ rep x B -∗ wp (k z) Φ) -∗
  wp (avl_rotate_left x z ≫= k) Φ.
Proof.
  iIntros "Hx Hz HB HΦ". rewrite /avl_rotate_left /single_x. avl_steps.
  iApply (wp_link_child with "HB"); [done|]. iIntros "HB". avl_steps.
  destruct (bz =? 0); avl_steps; iApply ("HΦ" with "Hx Hz HB").
Qed.
Lemma wp_avl_rotate_right {R} x bx a p z bz B (D : avlt) (k : Z -> prog avl_cell R) Φ :
  node x bx z a p -∗ node z bz (ptr D) (ptr B) x -∗ rep z B -∗
  (node x (single_x (-1) bz) (ptr B) a z -∗ node z (single_x 1 bz) (ptr D) x x -∗ rep x B -∗ wp (k z) Φ) -∗
  wp (avl_rotate_right x z ≫= k) Φ.
Proof.
  iIntros "Hx Hz HB HΦ". rewrite /avl_rotate_right /single_x. avl_steps.
  iApply (wp_link_child with "HB"); [done|]. iIntros "HB". avl_steps.
  destruct (bz =? 0); avl_steps; iApply ("HΦ" with "Hx Hz HB").
Qed.

Lemma wp_avl_rotate_rightleft {R} x bx a p z bz y by_ B D (E : avlt) (k : Z -> prog avl_cell R) Φ :
  node x bx a z p -∗ node z bz y (ptr E) x -∗ node y by_ (ptr B) (ptr D) z -∗ rep y B -∗ rep y D -∗
  (node x (double_x 1 by_) a (ptr B) y -∗ node z (double_z 1 by_) (ptr D) (ptr E) y -∗ node y 0 x z z -∗
   rep x B -∗ rep z D -∗ wp (k y) Φ) -∗
  wp (avl_rotate_rightleft x z ≫= k) Φ.
Proof.
  iIntros "Hx Hz Hy HB HD HΦ". rewrite /avl_rotate_rightleft /double_x /double_z. avl_steps.
  iApply (wp_link_child with "HD"); [done|]. iIntros "HD". avl_steps.
  iApply (wp_link_child with "HB"); [done|]. iIntros "HB". avl_steps.
  rewrite !Z.mul_1_l. destruct (Z.gtb_spec by_ 0), (Z.eqb_spec by_ 0), (Z.ltb_spec by_ 0); try lia; avl_steps;
    iApply ("HΦ" with "Hx Hz Hy HB HD").
Qed.
Lemma wp_avl_rotate_leftright {R} x bx a p z bz y by_ B D (E : avlt) (k : Z -> prog avl_cell R) Φ :
  node x bx z a p -∗ node z bz (ptr E) y x -∗ node y by_ (ptr D) (ptr B) z -∗ rep y B -∗ rep y D -∗
  (node x (double_x (-1) by_) (ptr B) a y -∗ node z (double_z (-1) by_) (ptr E) (ptr D) y -∗ node y 0 z x z -∗
   rep x B -∗ rep z D -∗ wp (k y) Φ) -∗
  wp (avl_rotate_leftright x z ≫= k) Φ.
Proof.
  iIntros "Hx Hz Hy HB HD HΦ". rewrite /avl_rotate_leftright /double_x /double_z. avl_steps.
  iApply (wp_link_child with "HD"); [done|]. iIntros "HD". avl_steps.
  iApply (wp_link_child with "HB"); [done|]. iIntros "HB". avl_steps.
  destruct (Z.gtb_spec (-1 * by_) 0), (Z.eqb_spec by_ 0), (Z.ltb_spec by_ 0), (Z.ltb_spec (-1 * by_) 0); try lia; avl_steps;
    iApply ("HΦ" with "Hx Hz Hy HB HD").
Qed.

(** [n] takes the place of [x] below [K]. *)
Lemma wp_avl_relink {R} tree K x v n bn ln rn pn (k : unit -> prog avl_cell R) Φ :
  x <> 0 -> pointsto x (DfracOwn 1) v -∗ node n bn ln rn pn -∗ path tree K x -∗
  (pointsto x (DfracOwn 1) v -∗ node n bn ln rn (inptr K 0) -∗ path tree K n -∗ wp (k tt) Φ) -∗
  wp (avl_relink tree x n (inptr K 0) ≫= k) Φ.
Proof.
  iIntros (Hx) "Hx Hn HK HΦ". rewrite /avl_relink. avl_steps. destruct K as [|f K]; simpl inptr.
  - rewrite Z.eqb_refl. cbn [negb]. iDestruct "HK" as "[_ Hroot]". simpl outptr. avl_steps.
    iApply ("HΦ" with "Hx Hn"). own.
  - rewrite path_cons. iDestruct "HK" as "[(%Hf & Hf & Hs) HK]". destruct (Z.eqb_spec (frame_addr f) 0); [done|].
    cbn [negb]. avl_steps. destruct f as [c p r|c l p]; simpl.
    + rewrite Z.eqb_refl. avl_steps. iApply ("HΦ" with "Hx Hn"). rewrite path_cons. own.
    + iDestruct (rep_ptr_ne with "Hs Hx") as %Hne; [done|]. destruct (Z.eqb_spec x (ptr l)); [done|]. avl_steps.
      iApply ("HΦ" with "Hx Hn"). rewrite path_cons. own.
Qed.
End avl_rotations.

Lemma avlK_eq K h h' : avlK K h -> h = h' -> avlK K h'.
Proof. by intros ? <-. Qed.

(** The heights and balances of a rotated tree. *)
Ltac split_balances :=
  unfold single_x, double_x, double_z in *;
  repeat match goal with
  | |- context [?a =? ?b] => destruct (Z.eqb_spec a b)
  | |- context [?a <? ?b] => destruct (Z.ltb_spec a b)
  | |- context [?a >? ?b] => destruct (Z.gtb_spec a b)
  end.
Ltac avl_shape := simpl in *; destruct_and?; split_balances; repeat split; try done; lia.

(** ** Insertion *)

Section avl_insertion.
Context `{!gen_heapGS Z avl_cell Σ}.
Implicit Types (t l r : avlt) (K : list (frame Z)).

(** What every operation leaves: an AVL tree over the addresses [xs]. *)
Definition avl_tree_of (tree : Z) (xs : list Z) : iProp Σ := ∃ t, ⌜avl t /\ inorder t = xs⌝ ∗ tree_rep tree t.

Lemma avl_tree_plug tree K t h xs :
  avlK K h -> hgt t = h -> avl t -> xs = before K ++ inorder t ++ after K ->
  path tree K (ptr t) -∗ rep (inptr K 0) t -∗ avl_tree_of tree xs.
Proof.
  iIntros (HK <- Ht ->) "HK Ht". iExists (plug K t). rewrite tree_rep_plug inorder_plug. iFrame.
  iPureIntro. split; [by apply avl_plug|done].
Qed.
Lemma avl_tree_of_eq tree xs ys : xs = ys -> avl_tree_of tree xs -∗ avl_tree_of tree ys.
Proof. iIntros (->) "$". Qed.

(** The rotations of an insertion, when the subtree at [z] has become two
    higher than its sibling. *)
Lemma wp_insert_rotate_left_child {B} tree K c x s b l z r h (k : Z + unit -> prog avl_cell B) Φ :
  avlK K (h + 1) -> avl s -> hgt s = h - 1 -> avl (Br b l z r) -> hgt (Br b l z r) = h + 1 -> b <> 0 \/ h = 0 ->
  path tree K x -∗ rep (inptr K 0) (Br c (Br b l z r) x s) -∗
  (avl_tree_of tree (before K ++ inorder (Br c (Br b l z r) x s) ++ after K) -∗ wp (k (inr tt)) Φ) -∗
  wp ((g ← field nparent x; zb ← balance z;
       n ← (if zb >? 0 then avl_rotate_leftright x z else avl_rotate_right x z);
       _ ← avl_relink tree x n g; mret (inr tt)) ≫= k) Φ.
Proof.
  iIntros (HK Hs Hhs Ht Hh Hb) "HK HT HΦ". pose proof (hgt_nonneg s). rewrite (rep_br _ c) (rep_br _ b).
  iDestruct "HT" as "(%Hx & Hx & (%Hz & Hz & Hl & Hr) & Hs)". simpl ptr. avl_steps. destruct (Z.gtb_spec b 0).
  - destruct r as [|by_ D y E]; [simpl in *; lia|]. rewrite rep_br. iDestruct "Hr" as "(%Hy & Hy & HD & HE)".
    simpl ptr. avl_steps.
    iApply (wp_avl_rotate_leftright with "Hx Hz Hy HE HD"). iIntros "Hx Hz Hy HE HD". avl_steps.
    iApply (wp_avl_relink with "Hx Hy HK"); [done|]. iIntros "Hx Hy HK". avl_steps. iApply "HΦ".
    iApply (avl_tree_plug tree K (Br 0 (Br (double_z (-1) by_) l z D) y (Br (double_x (-1) by_) E x s)) (h + 1)
      with "HK [Hx Hz Hy HE HD Hl Hs]"); [done|avl_shape|avl_shape|inorder_eq|own].
  - avl_steps. iApply (wp_avl_rotate_right with "Hx Hz Hr"). iIntros "Hx Hz Hr". avl_steps.
    iApply (wp_avl_relink with "Hx Hz HK"); [done|]. iIntros "Hx Hz HK". avl_steps. iApply "HΦ".
    iApply (avl_tree_plug tree K (Br (single_x 1 b) l z (Br (single_x (-1) b) r x s)) (h + 1)
      with "HK [Hx Hz Hr Hl Hs]"); [done|avl_shape|avl_shape|inorder_eq|own].
Qed.
Lemma wp_insert_rotate_right_child {B} tree K c x s b l z r h (k : Z + unit -> prog avl_cell B) Φ :
  avlK K (h + 1) -> avl s -> hgt s = h - 1 -> avl (Br b l z r) -> hgt (Br b l z r) = h + 1 -> b <> 0 \/ h = 0 ->
  path tree K x -∗ rep (inptr K 0) (Br c s x (Br b l z r)) -∗
  (avl_tree_of tree (before K ++ inorder (Br c s x (Br b l z r)) ++ after K) -∗ wp (k (inr tt)) Φ) -∗
  wp ((g ← field nparent x; zb ← balance z;
       n ← (if zb <? 0 then avl_rotate_rightleft x z else avl_rotate_left x z);
       _ ← avl_relink tree x n g; mret (inr tt)) ≫= k) Φ.
Proof.
  iIntros (HK Hs Hhs Ht Hh Hb) "HK HT HΦ". pose proof (hgt_nonneg s). rewrite (rep_br _ c) (rep_br _ b).
  iDestruct "HT" as "(%Hx & Hx & Hs & %Hz & Hz & Hl & Hr)". simpl ptr. avl_steps. destruct (Z.ltb_spec b 0).
  - destruct l as [|by_ D y E]; [simpl in *; lia|]. rewrite rep_br. iDestruct "Hl" as "(%Hy & Hy & HD & HE)".
    simpl ptr. avl_steps.
    iApply (wp_avl_rotate_rightleft with "Hx Hz Hy HD HE"). iIntros "Hx Hz Hy HD HE". avl_steps.
    iApply (wp_avl_relink with "Hx Hy HK"); [done|]. iIntros "Hx Hy HK". avl_steps. iApply "HΦ".
    iApply (avl_tree_plug tree K (Br 0 (Br (double_x 1 by_) s x D) y (Br (double_z 1 by_) E z r)) (h + 1)
      with "HK [Hx Hz Hy HE HD Hr Hs]"); [done|avl_shape|avl_shape|inorder_eq|own].
  - avl_steps. iApply (wp_avl_rotate_left with "Hx Hz Hl"). iIntros "Hx Hz Hl". avl_steps.
    iApply (wp_avl_relink with "Hx Hz HK"); [done|]. iIntros "Hx Hz HK". avl_steps. iApply "HΦ".
    iApply (avl_tree_plug tree K (Br (single_x (-1) b) (Br (single_x 1 b) s x l) z r) (h + 1)
      with "HK [Hx Hz Hr Hl Hs]"); [done|avl_shape|avl_shape|inorder_eq|own].
Qed.

(** The subtree at [z] is one higher than its place expects. *)
Lemma wp_avl_insert_repair {B} fuel tree K b l z r h (k : unit -> prog avl_cell B) Φ :
  (length K < fuel)%nat -> avlK K h -> avl (Br b l z r) -> hgt (Br b l z r) = h + 1 -> b <> 0 \/ h = 0 ->
  path tree K z -∗ rep (inptr K 0) (Br b l z r) -∗
  (avl_tree_of tree (before K ++ inorder (Br b l z r) ++ after K) -∗ wp (k tt) Φ) -∗
  wp (avl_tree_insert_repair fuel tree z ≫= k) Φ.
Proof.
  rewrite /avl_tree_insert_repair. revert K b l z r h.
  induction fuel as [|fuel IH]; intros K b l z r h; iIntros (Hfuel HK Ht Hh Hb) "HK HT HΦ"; [lia|].
  cbn [loop]. rewrite {2}/insert_repair_step. rewrite rep_br. iDestruct "HT" as "(%Hz & Hz & Hl & Hr)". avl_steps.
  destruct K as [|f K]; simpl inptr.
  { rewrite Z.eqb_refl. avl_steps. iApply "HΦ".
    iApply (avl_tree_plug tree [] (Br b l z r) (h + 1) with "HK [Hz Hl Hr]"); [done..|own]. }
  rewrite path_cons. iDestruct "HK" as "[(%Hf & Hf & Hs) HK]". destruct HK as (Hsib & Hfb & Hfr & HK).
  destruct (Z.eqb_spec (frame_addr f) 0); [done|]. avl_steps.
  pose proof (hgt_nonneg (frame_sib f)) as Hs0.
  destruct f as [c x r'|c l' x]; simpl in *.
  - iDestruct (rep_ptr_ne with "Hs Hz") as %Hne; [done|]. destruct (Z.eqb_spec z (ptr r')); [done|].
    destruct (Z.ltb_spec c 0); [|rewrite Z.gtb_ltb; destruct (Z.ltb_spec 0 c)].
    + iApply (wp_insert_rotate_left_child tree K c x r' b l z r h with "HK [Hf Hs Hz Hl Hr]");
        [apply (avlK_eq _ _ _ HK); lia|done|lia|done|done|done|own|].
      iIntros "HT". avl_steps. iApply "HΦ". iApply (avl_tree_of_eq with "HT"). inorder_eq.
    + avl_steps. iApply "HΦ".
      iApply (avl_tree_plug tree K (Br 0 (Br b l z r) x r') (h + 2) with "HK [Hf Hz Hr Hl Hs]");
        [apply (avlK_eq _ _ _ HK); lia|avl_shape|avl_shape|inorder_eq|own].
    + avl_steps. iApply (IH K (-1) (Br b l z r) x r' (h + 1) with "HK [Hf Hz Hr Hl Hs]");
        [lia|apply (avlK_eq _ _ _ HK); lia|avl_shape|avl_shape|by left|own|].
      iIntros "HT". iApply "HΦ". iApply (avl_tree_of_eq with "HT"). inorder_eq.
  - rewrite Z.eqb_refl. rewrite {1}Z.gtb_ltb; destruct (Z.ltb_spec 0 c); [|destruct (Z.ltb_spec c 0)].
    + iApply (wp_insert_rotate_right_child tree K c x l' b l z r h with "HK [Hf Hs Hz Hl Hr]");
        [apply (avlK_eq _ _ _ HK); lia|done|lia|done|done|done|own|].
      iIntros "HT". avl_steps. iApply "HΦ". iApply (avl_tree_of_eq with "HT"). inorder_eq.
    + avl_steps. iApply "HΦ".
      iApply (avl_tree_plug tree K (Br 0 l' x (Br b l z r)) (h + 2) with "HK [Hf Hz Hr Hl Hs]");
        [apply (avlK_eq _ _ _ HK); lia|avl_shape|avl_shape|inorder_eq|own].
    + avl_steps. iApply (IH K 1 l' x (Br b l z r) (h + 1) with "HK [Hf Hz Hr Hl Hs]");
        [lia|apply (avlK_eq _ _ _ HK); lia|avl_shape|avl_shape|by left|own|].
      iIntros "HT". iApply "HΦ". iApply (avl_tree_of_eq with "HT"). inorder_eq.
Qed.
End avl_insertion.

Section avl_search.
Context `{!gen_heapGS Z avl_cell Σ}.
Context (cmp : cmp_fun) `{!CmpLaws cmp}.
Implicit Types (t : avlt) (K : list (frame Z)).

(** The node [x], a leaf below [K], enters the tree. *)
Lemma wp_avl_attach {B} fuel tree K x (k : unit -> prog avl_cell B) Φ :
  (length K < fuel)%nat -> avlK K 0 -> x <> 0 ->
  path tree K x -∗ node x 0 0 0 (inptr K 0) -∗
  (avl_tree_of tree (before K ++ x :: after K) -∗ wp (k tt) Φ) -∗
  wp (avl_tree_insert_repair fuel tree x ≫= k) Φ.
Proof.
  iIntros (Hf HK Hx) "HK Hx HΦ".
  iApply (wp_avl_insert_repair fuel tree K 0 Leaf x Leaf 0 with "HK [Hx]"); [done..|by right|own|done].
Qed.

Lemma wp_avl_insert_loop {B} lf fuel tree x p0 K t (k : unit -> prog avl_cell B) Φ :
  (tsize t <= lf)%nat -> (length K + tsize t < fuel)%nat -> avlK K (hgt t) -> avl t -> t <> Leaf -> x <> 0 ->
  ordered cmp (inorder t) ->
  path tree K (ptr t) -∗ rep (inptr K 0) t -∗ node x 0 0 0 p0 -∗
  (avl_tree_of tree (before K ++ insert_sorted cmp x (inorder t) ++ after K) -∗ wp (k tt) Φ) -∗
  wp (loop lf (avl_insert_step fuel tree cmp x) (ptr t) ≫= k) Φ.
Proof using All.
  revert K t. induction lf as [|lf IH]; intros K t; iIntros (Hlf Hfuel HK Ht Hne Hx Ho) "HK Ht Hx HΦ";
    destruct t as [|c l y r]; try done; simpl in Hlf; [lia|].
  cbn [loop]. rewrite {2}/avl_insert_step. cbn [ptr]. simpl in Hfuel, Ho.
  rewrite rep_br. iDestruct "Ht" as "(%Hy & Hy & Hl & Hr)". simpl in HK. destruct Ht as (Hl & Hr & Hc & Hcr). wp_step.
  destruct (Z.ltb_spec (cmp x y) 0) as [Hlt|Hge]; simpl inorder;
    [rewrite insert_sorted_left //|rewrite insert_sorted_right //]; wp_steps.
  - assert (avlK (FL c y r :: K) (hgt l)) as HK' by (simpl; repeat split; try done; lia).
    destruct l as [|c' l' z r']; simpl ptr.
    + rewrite Z.eqb_refl. wp_steps.
      iApply (wp_avl_attach fuel tree (FL c y r :: K) x with "[HK Hy Hr] Hx"); [simpl in *; lia|done|done| |].
      { rewrite path_cons. own. }
      iIntros "HT". wp_steps. iApply "HΦ". iApply (avl_tree_of_eq with "HT"). simpl. inorder_eq.
    + iAssert ⌜z <> 0⌝%I as %Hz; [by iDestruct "Hl" as "[% _]"|]. destruct (Z.eqb_spec z 0); [done|]. wp_steps.
      iApply (IH (FL c y r :: K) (Br c' l' z r') with "[HK Hy Hr] Hl Hx"); try done; [simpl in *; lia|simpl in *; lia| | |].
      { by apply ordered_app in Ho as (? & _). } { rewrite path_cons. own. }
      iIntros "HT". iApply "HΦ". iApply (avl_tree_of_eq with "HT"). simpl. inorder_eq.
  - assert (avlK (FR c l y :: K) (hgt r)) as HK'.
    { simpl. repeat split; try done; try lia. apply (avlK_eq _ _ _ HK). lia. }
    destruct r as [|c' l' z r']; simpl ptr.
    + rewrite Z.eqb_refl. wp_steps.
      iApply (wp_avl_attach fuel tree (FR c l y :: K) x with "[HK Hy Hl] Hx"); [simpl in *; lia|done|done| |].
      { rewrite path_cons. own. }
      iIntros "HT". wp_steps. iApply "HΦ". iApply (avl_tree_of_eq with "HT"). simpl. inorder_eq.
    + iAssert ⌜z <> 0⌝%I as %Hz; [by iDestruct "Hr" as "[% _]"|]. destruct (Z.eqb_spec z 0); [done|]. wp_steps.
      iApply (IH (FR c l y :: K) (Br c' l' z r') with "[HK Hy Hl] Hr Hx"); try done; [simpl in *; lia|simpl in *; lia| | |].
      { by apply ordered_app in Ho as (_ & [_ ?] & _). } { rewrite path_cons. own. }
      iIntros "HT". iApply "HΦ". iApply (avl_tree_of_eq with "HT"). simpl. inorder_eq.
Qed.

Lemma wp_avl_tree_insert {B} fuel tree x c l r p t (k : unit -> prog avl_cell B) Φ :
  (tsize t < fuel)%nat -> avl t -> ordered cmp (inorder t) -> x <> 0 ->
  tree_rep tree t -∗ node x c l r p -∗
  (avl_tree_of tree (insert_sorted cmp x (inorder t)) -∗ wp (k tt) Φ) -∗
  wp (avl_tree_insert fuel tree cmp x ≫= k) Φ.
Proof using All.
  rewrite tree_rep_root. iIntros (Hf Hv Ho Hx) "[Hroot Ht] Hx HΦ". rewrite /avl_tree_insert. avl_steps.
  destruct t as [|c' l' y r']; simpl ptr.
  - rewrite Z.eqb_refl. avl_steps. iApply "HΦ".
    iApply (avl_tree_plug tree [] (Br 0 Leaf x Leaf) 1 with "[Hroot] [Hx]"); [done|done|done|done|own|own].
  - iAssert ⌜y <> 0⌝%I as %Hy; [by iDestruct "Ht" as "[% _]"|]. destruct (Z.eqb_spec y 0); [done|].
    iApply (wp_avl_insert_loop fuel fuel tree x p [] (Br c' l' y r') with "[Hroot] Ht Hx");
      [lia|simpl in *; lia|done|done|done|done|done|own|].
    iIntros "HT". iApply "HΦ". iApply (avl_tree_of_eq with "HT"). simpl. by rewrite app_nil_r.
Qed.
End avl_search.

(** C37: inserting into an AVL tree.  Take a heap that holds an AVL tree in the order of a comparison function
    and, outside it, a node.  [avl_tree_insert] returns, with a bound on its loops of the size of the tree plus
    one, and the heap then holds an AVL tree (every balance field the difference of the heights, at most 1, so
    the height at most twice the logarithm of the size) whose nodes are those of before with the new one in its
    place, after the nodes equal to it; every other cell is unchanged. *)
Theorem avl_tree_insert_correct (cmp : cmp_fun) (fuel : nat) (H : gmap Z avl_cell) (tree x : Z) (t : avlt) nd
  (Hcmp : CmpLaws cmp) (Htree : is_tree H tree t) (Hv : avl t) (Ho : ordered cmp (inorder t))
  (Hx : H !! x = Some (Node nd)) (Hnew : x ∉ inorder t) (Hx0 : x <> 0) (Hfuel : (tsize t < fuel)%nat) :
  exists t' H', avl_tree_insert fuel tree cmp x H = Ret (tt, H') /\
    is_tree H' tree t' /\ avl t' /\ balanced t' /\
    inorder t' = insert_sorted cmp x (inorder t) /\ ordered cmp (inorder t') /\
    (forall p v, p <> tree -> p <> x -> p ∉ inorder t -> H !! p = Some v -> H' !! p = Some v).
Proof.
  destruct (tree_and_node H tree t x nd Htree Hx Hnew) as (Hsub & Hxm & Hout).
  destruct Htree as (_ & Hnd & H0 & Htr).
  destruct (tree_sound (avl_tree_insert fuel tree cmp x) H tree (<[x := Node nd]> (tree_cells tree t))
    (fun _ t' => avl t' /\ inorder t' = insert_sorted cmp x (inorder t)))
    as ([] & t' & H' & E & [Hv' Hin] & Ht' & Hframe); [done| |].
  - intros Σ HΣ. rewrite owns_insert // owns_tree //. iIntros "[Hx HT]". destruct nd as [c l r p].
    iApply wp_last. iApply (wp_avl_tree_insert cmp fuel tree x c l r p t with "HT Hx"); [done..|].
    iIntros "HT". wp_steps. by iApply wp_ret.
  - exists t', H'. repeat (split; [done|]). split; [by apply avl_balanced|]. split; [done|].
    split; [rewrite Hin; by apply insert_sorted_ordered|].
    intros p v Hp1 Hp2 Hp3. by apply Hframe, Hout.
Qed.

(** ** The validity check *)

(** The height, if the balances are right. *)
Fixpoint avl_height (t : avlt) : option Z :=
  match t with
  | Leaf => Some 0
  | Br b l _ r =>
      hl ← avl_height l; hr ← avl_height r;
      if decide (b = hr - hl /\ -1 <= b <= 1) then Some (1 + Z.max hl hr) else None
  end.
Lemma avl_height_spec t h : avl_height t = Some h <-> avl t /\ h = hgt t.
Proof.
  revert h. induction t as [|b l IHl x r IHr]; intros h; simpl; [naive_solver|].
  assert (forall (t : avlt) o, (forall h, o = Some h <-> avl t /\ h = hgt t) -> o = None -> ~ avl t) as Hno.
  { intros t o Ht -> Ha. specialize (proj2 (Ht (hgt t)) (conj Ha eq_refl)). done. }
  destruct (avl_height l) as [hl|] eqn:El; simpl.
  2:{ pose proof (Hno l None IHl eq_refl). split; [done|]. tauto. }
  destruct (IHl hl) as [[? ->] _]; [done|].
  destruct (avl_height r) as [hr|] eqn:Er; simpl.
  2:{ pose proof (Hno r None IHr eq_refl). split; [done|]. tauto. }
  destruct (IHr hr) as [[? ->] _]; [done|]. case_decide.
  - split; [by intros [= <-]|by intros [_ ->]].
  - split; [done|tauto].
Qed.

Section avl_check.
Context `{!gen_heapGS Z avl_cell Σ}.
Implicit Types (t : avlt).

Lemma wp_avl_subtree_height {B} fuel par t (k : Z -> prog avl_cell B) Φ :
  (tsize t <= fuel)%nat -> t <> Leaf ->
  rep par t -∗ (rep par t -∗ wp (k (default (-1) (avl_height t))) Φ) -∗
  wp (avl_subtree_height fuel (ptr t) ≫= k) Φ.
Proof.
  revert par t k Φ. induction fuel as [|fuel IH]; iIntros (par t k Φ Hf Hne) "Ht HΦ";
    (destruct t as [|c l y r]; [done|]); simpl in Hf; [lia|]. cbn [avl_subtree_height]. cbn [ptr].
  rewrite rep_br. iDestruct "Ht" as "(%Hy & Hy & Hl & Hr)".
  assert (forall s (k : Z -> prog avl_cell B) Φ, (tsize s <= fuel)%nat ->
      rep y s -∗ (rep y s -∗ wp (k (default (-1) (avl_height s))) Φ) -∗
      wp ((if ptr s =? 0 then mret 0 else
             p ← field nparent (ptr s);
             if negb (p =? y) then mret (-1) else avl_subtree_height fuel (ptr s)) ≫= k) Φ) as Hside.
  { iIntros (s k' Φ' Hs) "Hs HΦ". destruct s as [|cs ls z rs]; simpl ptr.
    - rewrite Z.eqb_refl. wp_steps. by iApply "HΦ".
    - iDestruct "Hs" as "(%Hz & Hz & Hls)". destruct (Z.eqb_spec z 0); [done|]. wp_steps.
      rewrite Z.eqb_refl. cbn [negb].
      iApply (IH y (Br cs ls z rs) with "[Hz Hls]"); [done|done|own|done]. }
  avl_steps. iApply (Hside l with "Hl"); [lia|]. iIntros "Hl". cbn [avl_height].
  destruct (avl_height l) as [a|] eqn:El; cbn [default from_option id mbind option_bind].
  2:{ cbn. avl_steps. iApply "HΦ". own. }
  apply avl_height_spec in El as [_ ->]. pose proof (hgt_nonneg l). destruct (Z.ltb_spec (hgt l) 0); [lia|]. avl_steps.
  iApply (Hside r with "Hr"); [lia|]. iIntros "Hr".
  destruct (avl_height r) as [b|] eqn:Er; cbn [default from_option id mbind option_bind].
  2:{ cbn. avl_steps. iApply "HΦ". own. }
  apply avl_height_spec in Er as [_ ->]. pose proof (hgt_nonneg r). destruct (Z.ltb_spec (hgt r) 0); [lia|]. avl_steps.
  case_decide as Hd.
  - destruct Hd as [-> Hd]. destruct (Z.ltb_spec (hgt r - hgt l) (-1)); [lia|].
    destruct (Z.gtb_spec (hgt r - hgt l) 1); [lia|]. destruct (Z.ltb_spec (hgt l) (hgt r - 1)); [lia|].
    destruct (Z.gtb_spec (hgt l - 1) (hgt r)); [lia|]. rewrite Z.eqb_refl. cbn [orb negb default from_option id].
    avl_steps.
    replace (if hgt r >? hgt l then 1 + hgt r else 1 + hgt l) with (1 + Z.max (hgt l) (hgt r))
      by (destruct (Z.gtb_spec (hgt r) (hgt l)); lia).
    iApply "HΦ". own.
  - destruct (Z.ltb_spec c (-1)), (Z.gtb_spec c 1), (Z.ltb_spec (hgt l) (hgt r - 1)), (Z.gtb_spec (hgt l - 1) (hgt r)),
      (Z.eqb_spec (hgt r - hgt l) c); cbn [orb negb]; try (exfalso; lia); avl_steps; iApply "HΦ"; own.
Qed.

Lemma wp_avl_valid fuel tree t :
  (tsize t <= fuel)%nat ->
  tree_rep tree t ⊢ wp (avl_tree_valid fuel tree)
    (fun y => ∃ t', ⌜t' = t /\ y = b2z (bool_decide (is_Some (avl_height t)))⌝ ∗ tree_rep tree t').
Proof.
  rewrite tree_rep_root. iIntros (Hf) "[Hroot Ht]". iApply wp_bind_ret. rewrite /avl_tree_valid. avl_steps.
  destruct t as [|c l y r]; simpl ptr.
  - rewrite Z.eqb_refl. avl_steps. iApply wp_ret. iExists Leaf. rewrite tree_rep_root. by iFrame.
  - iAssert ⌜y <> 0⌝%I as %Hy; [by iDestruct "Ht" as "[% _]"|]. destruct (Z.eqb_spec y 0); [done|].
    iDestruct "Ht" as "(_ & Hy & Hlr)". avl_steps. rewrite Z.eqb_refl. cbn [negb]. avl_steps.
    iApply (wp_avl_subtree_height fuel 0 (Br c l y r) with "[Hy Hlr]"); [done|done|own|]. iIntros "Ht". avl_steps.
    iApply wp_ret. iExists (Br c l y r). rewrite tree_rep_root. iFrame. iPureIntro. split; [done|].
    destruct (avl_height (Br c l y r)) as [h|] eqn:Eh; simpl default.
    + apply avl_height_spec in Eh as [_ ->]. pose proof (hgt_nonneg (Br c l y r)).
      destruct (Z.ltb_spec (hgt (Br c l y r)) 0); [lia|]. by rewrite bool_decide_true.
    + by rewrite bool_decide_false; [|intros [? ?]].
Qed.
End avl_check.

(** Reading an AVL tree.  On a heap that holds a tree, [avl_tree_leftmost] and [avl_tree_rightmost] return
    the first and the last node in order, [NULL] for the empty tree, and [avl_tree_valid] decides the AVL
    discipline: it returns 1 exactly when every balance field is the difference of the heights and at most 1.
    The tree is the same afterwards. *)
Theorem avl_tree_reads_correct (fuel : nat) (H : gmap Z avl_cell) (tree : Z) (t : avlt)
  (Htree : is_tree H tree t) (Hfuel : (tsize t < fuel)%nat) :
  (exists y H', avl_tree_leftmost fuel tree H = Ret (y, H') /\
     y = default 0 (list.head (inorder t)) /\ is_tree H' tree t) /\
  (exists y H', avl_tree_rightmost fuel tree H = Ret (y, H') /\
     y = default 0 (list.last (inorder t)) /\ is_tree H' tree t) /\
  (exists v H', avl_tree_valid fuel tree H = Ret (v, H') /\
     ((v = 1 /\ avl t) \/ (v = 0 /\ ~ avl t)) /\ is_tree H' tree t).
Proof.
  split; [|split]; apply tree_read; try done; intros Σ HΣ; [by apply wp_tree_ends..|].
  rewrite (wp_avl_valid fuel tree t); [|lia]. iIntros "Hwp". iApply (wp_wand with "Hwp").
  iIntros (v) "(%t' & [-> ->] & HT)". iExists t. iFrame. iPureIntro. split; [done|].
  destruct (bool_decide_reflect (is_Some (avl_height t))) as [[h Hs]|Hs]; [left|right]; (split; [done|]).
  - by apply avl_height_spec in Hs as [? _].
  - intros Ha. apply Hs. exists (hgt t). by apply avl_height_spec.
Qed.
