(* ===== verification/AvlRemove.v ===== *)
(** AVL trees: deletion as a statement about heaps.

    [avl_tree_delete_repair] runs before the node is unlinked: it treats the
    subtree of the node as one lower than it is.  In the proof the path from
    the node to the root is kept apart from the node and its child. *)
From iris.proofmode Require Import coq_tactics reduction proofmode.
From iris.base_logic.lib Require Import gen_heap.
From S2P Require Import Prelude Heap PTree PExchange PPlaces AvlTree AvlOps.

(** The frames [fs] stand for [f]: around any AVL tree of height [h] they make
    an AVL tree of height [h'] with the same nodes in the same order. *)
Definition reshaped (f : frame Z) (fs : list (frame Z)) (h h' : Z) : Prop :=
  (forall t, avl t -> hgt t = h -> avl (plug fs t) /\ hgt (plug fs t) = h') /\
  (forall top, inptr fs top = frame_addr f) /\ before fs = before [f] /\ after fs = after [f].

(** The height a frame makes of a subtree of height [h + 1]. *)
Definition frame_hgt (f : frame Z) (h : Z) : Z := 1 + Z.max (h + 1) (hgt (frame_sib f)).

Ltac reshape := split; [intros t0 Ht0 Hh0; split; avl_shape|split; [done|split; inorder_eq]].

Section avl_repair.
Context `{!gen_heapGS Z avl_cell Σ}.
Implicit Types (t : avlt) (K : list (frame Z)).

(** What one iteration of the repair leaves, for the frame [f] around a
    subtree that has become [h] high. *)
Definition repair_post {B} tree (f : frame Z) K (n h : Z) (k : Z * Z + unit -> prog avl_cell B) Φ : iProp Σ :=
  ∀ fs (stop : bool) h',
    ⌜reshaped f fs h h' /\ (h' = (if stop then frame_hgt f h else frame_hgt f h - 1) \/ K = [])⌝ -∗
    path tree (fs ++ K) n -∗ wp (k (if stop then inr tt else inl (outptr fs n, inptr K 0))) Φ.

Lemma wp_delete_rotate_left_hole {B} tree K c x s n h (k : Z * Z + unit -> prog avl_cell B) Φ :
  avl s -> hgt s = h + 2 -> 0 <= h ->
  path tree (FL c x s :: K) n -∗ repair_post tree (FL c x s) K n h k Φ -∗
  wp ((z ← field nright x; b ← balance z;
       n ← (if b <? 0 then avl_rotate_rightleft x z else avl_rotate_left x z);
       _ ← avl_relink tree x n (inptr K 0);
       if negb (inptr K 0 =? 0) && (b =? 0) then mret (inr tt) else mret (inl (n, inptr K 0))) ≫= k) Φ.
Proof.
  rewrite path_cons. iIntros (Hs Hhs Hh) "[(%Hx & Hx & Hs) HK] HΦ". simpl in *. unfold frame_hgt; simpl.
  destruct s as [|b l z r]; [simpl in *; lia|]. rewrite rep_br. iDestruct "Hs" as "(%Hz & Hz & Hl & Hr)".
  simpl ptr. avl_steps. destruct (Z.ltb_spec b 0).
  - destruct l as [|by_ D y E]; [simpl in *; lia|]. rewrite rep_br. iDestruct "Hl" as "(%Hy & Hy & HD & HE)".
    simpl ptr. avl_steps.
    iApply (wp_avl_rotate_rightleft with "Hx Hz Hy HD HE"). iIntros "Hx Hz Hy HD HE". avl_steps.
    iApply (wp_avl_relink with "Hx Hy HK"); [done|]. iIntros "Hx Hy HK". avl_steps.
    destruct (Z.eqb_spec b 0); [lia|]. rewrite andb_false_r. avl_steps.
    iApply ("HΦ" $! [FL (double_x 1 by_) x D; FL 0 y (Br (double_z 1 by_) E z r)] false (h + 2) with "[]").
    { iPureIntro. split; [reshape|left; unfold frame_hgt; avl_shape]. }
    rewrite /= !path_cons /=. own.
  - avl_steps. iApply (wp_avl_rotate_left with "Hx Hz Hl"). iIntros "Hx Hz Hl". avl_steps.
    iApply (wp_avl_relink with "Hx Hz HK"); [done|]. iIntros "Hx Hz HK". avl_steps.
    iAssert ⌜inptr K 0 = 0 -> K = []⌝%I as %HK0.
    { destruct K as [|g K]; [done|]. rewrite path_cons. iDestruct "HK" as "[[%Hg _] _]". iPureIntro. done. }
    iSpecialize ("HΦ" $! [FL (single_x 1 b) x l; FL (single_x (-1) b) z r]
      (negb (inptr K 0 =? 0) && (b =? 0)) (if b =? 0 then h + 3 else h + 2)).
    iAssert (path tree ([FL (single_x 1 b) x l; FL (single_x (-1) b) z r] ++ K) n) with "[Hx Hz Hl Hr HK]" as "HK".
    { rewrite /= !path_cons /=. own. }
    iDestruct ("HΦ" with "[] HK") as "HΦ".
    { iPureIntro. split; [reshape|]. unfold frame_hgt. simpl in *.
      destruct (Z.eqb_spec (inptr K 0) 0); [right; by apply HK0|left]. destruct (Z.eqb_spec b 0); simpl; lia. }
    destruct (inptr K 0 =? 0), (b =? 0); cbn [negb andb]; avl_steps; iExact "HΦ".
Qed.

Lemma wp_delete_rotate_right_hole {B} tree K c x s n h (k : Z * Z + unit -> prog avl_cell B) Φ :
  avl s -> hgt s = h + 2 -> 0 <= h ->
  path tree (FR c s x :: K) n -∗ repair_post tree (FR c s x) K n h k Φ -∗
  wp ((z ← field nleft x; b ← balance z;
       n ← (if b >? 0 then avl_rotate_leftright x z else avl_rotate_right x z);
       _ ← avl_relink tree x n (inptr K 0);
       if negb (inptr K 0 =? 0) && (b =? 0) then mret (inr tt) else mret (inl (n, inptr K 0))) ≫= k) Φ.
Proof.
  rewrite path_cons. iIntros (Hs Hhs Hh) "[(%Hx & Hx & Hs) HK] HΦ". simpl in *. unfold frame_hgt; simpl.
  destruct s as [|b l z r]; [simpl in *; lia|]. rewrite rep_br. iDestruct "Hs" as "(%Hz & Hz & Hl & Hr)".
  simpl ptr. avl_steps. destruct (Z.gtb_spec b 0).
  - destruct r as [|by_ D y E]; [simpl in *; lia|]. rewrite rep_br. iDestruct "Hr" as "(%Hy & Hy & HD & HE)".
    simpl ptr. avl_steps.
    iApply (wp_avl_rotate_leftright with "Hx Hz Hy HE HD"). iIntros "Hx Hz Hy HE HD". avl_steps.
    iApply (wp_avl_relink with "Hx Hy HK"); [done|]. iIntros "Hx Hy HK". avl_steps.
    destruct (Z.eqb_spec b 0); [lia|]. rewrite andb_false_r. avl_steps.
    iApply ("HΦ" $! [FR (double_x (-1) by_) E x; FR 0 (Br (double_z (-1) by_) l z D) y] false (h + 2) with "[]").
    { iPureIntro. split; [reshape|left; unfold frame_hgt; avl_shape]. }
    rewrite /= !path_cons /=. own.
  - avl_steps. iApply (wp_avl_rotate_right with "Hx Hz Hr"). iIntros "Hx Hz Hr". avl_steps.
    iApply (wp_avl_relink with "Hx Hz HK"); [done|]. iIntros "Hx Hz HK". avl_steps.
    iAssert ⌜inptr K 0 = 0 -> K = []⌝%I as %HK0.
    { destruct K as [|g K]; [done|]. rewrite path_cons. iDestruct "HK" as "[[%Hg _] _]". iPureIntro. done. }
    iSpecialize ("HΦ" $! [FR (single_x (-1) b) r x; FR (single_x 1 b) l z]
      (negb (inptr K 0 =? 0) && (b =? 0)) (if b =? 0 then h + 3 else h + 2)).
    iAssert (path tree ([FR (single_x (-1) b) r x; FR (single_x 1 b) l z] ++ K) n) with "[Hx Hz Hl Hr HK]" as "HK".
    { rewrite /= !path_cons /=. own. }
    iDestruct ("HΦ" with "[] HK") as "HΦ".
    { iPureIntro. split; [reshape|]. unfold frame_hgt. simpl in *.
      destruct (Z.eqb_spec (inptr K 0) 0); [right; by apply HK0|left]. destruct (Z.eqb_spec b 0); simpl; lia. }
    destruct (inptr K 0 =? 0), (b =? 0); cbn [negb andb]; avl_steps; iExact "HΦ".
Qed.

(** One iteration, for a subtree at [n] that has become [h] high. *)
Lemma wp_delete_repair_step {B} tree K f n h (k : Z * Z + unit -> prog avl_cell B) Φ :
  avlK [f] (h + 1) -> 0 <= h -> n <> ptr (frame_sib f) ->
  path tree (f :: K) n -∗ repair_post tree f K n h k Φ -∗
  wp (delete_repair_step tree (n, frame_addr f) ≫= k) Φ.
Proof.
  iIntros ((Hs & Hfb & Hfr & _) Hh Hne) "HK HΦ". rewrite /delete_repair_step path_cons.
  iDestruct "HK" as "[(%Hx & Hx & Hs) HK]". destruct (Z.eqb_spec (frame_addr f) 0); [done|]. avl_steps.
  destruct f as [c x s|c s x]; simpl in *.
  - rewrite Z.eqb_refl. destruct (Z.gtb_spec c 0); [|destruct (Z.eqb_spec c 0)].
    + iApply (wp_delete_rotate_left_hole with "[Hx Hs HK] HΦ"); [done|lia|done|]. rewrite path_cons. own.
    + avl_steps. iApply ("HΦ" $! [FL 1 x s] true (h + 2) with "[]"); [iPureIntro|rewrite /= path_cons; own].
      split; [reshape|left; unfold frame_hgt; avl_shape].
    + avl_steps. iApply ("HΦ" $! [FL 0 x s] false (h + 1) with "[]"); [iPureIntro|rewrite /= path_cons; own].
      split; [reshape|left; unfold frame_hgt; avl_shape].
  - destruct (Z.eqb_spec n (ptr s)); [done|]. destruct (Z.ltb_spec c 0); [|destruct (Z.eqb_spec c 0)].
    + iApply (wp_delete_rotate_right_hole with "[Hx Hs HK] HΦ"); [done|lia|done|]. rewrite path_cons. own.
    + avl_steps. iApply ("HΦ" $! [FR (-1) s x] true (h + 2) with "[]"); [iPureIntro|rewrite /= path_cons; own].
      split; [reshape|left; unfold frame_hgt; avl_shape].
    + avl_steps. iApply ("HΦ" $! [FR 0 s x] false (h + 1) with "[]"); [iPureIntro|rewrite /= path_cons; own].
      split; [reshape|left; unfold frame_hgt; avl_shape].
Qed.

(** The top of a path that starts below an owned node is not in another subtree. *)
Lemma outptr_ne K d v top par t :
  d <> 0 -> frames_rep K d top -∗ pointsto d (DfracOwn 1) v -∗ rep par t -∗ ⌜outptr K d <> ptr t⌝.
Proof.
  revert d v. induction K as [|f K IH]; intros d v; iIntros (Hd) "HK Hd Ht"; simpl.
  - iDestruct (rep_ptr_ne with "Ht Hd") as %?; [done|]. iPureIntro. congruence.
  - iDestruct "HK" as "[(%Hf & Hf & _) HK]". iApply (IH with "HK Hf Ht"). done.
Qed.

(** The path [K'] has the nodes of [K] around its hole, below the same parent,
    and makes an AVL tree of [ch]. *)
Definition repaired (ch : avlt) K K' : Prop :=
  avl (plug K' ch) /\ inptr K' 0 = inptr K 0 /\ before K' = before K /\ after K' = after K.

Lemma wp_delete_repair_loop {B} fuel tree K1 K d v ch (k : unit -> prog avl_cell B) Φ :
  (length K < fuel)%nat -> d <> 0 -> avl (plug K1 ch) -> avlK K (hgt (plug K1 ch) + 1) ->
  pointsto d (DfracOwn 1) v -∗ path tree (K1 ++ K) d -∗
  (∀ K', ⌜repaired ch (K1 ++ K) K'⌝ -∗ pointsto d (DfracOwn 1) v -∗ path tree K' d -∗ wp (k tt) Φ) -∗
  wp (loop fuel (delete_repair_step tree) (outptr K1 d, inptr K 0) ≫= k) Φ.
Proof.
  revert K1 K. induction fuel as [|fuel IH]; intros K1 K; iIntros (Hf Hd Hch HK) "Hd HK HΦ"; [lia|]. cbn [loop].
  destruct K as [|f K].
  { rewrite {2}/delete_repair_step. simpl inptr. rewrite Z.eqb_refl. avl_steps.
    iApply ("HΦ" with "[] Hd HK"). rewrite app_nil_r. iPureIntro. done. }
  rewrite path_app. iDestruct "HK" as "[HK1 HK]". destruct HK as (Hs & Hfb & Hfr & HK). simpl inptr.
  rewrite path_cons. iDestruct "HK" as "[(%Hf0 & Hx & Hs) HK]".
  iDestruct (outptr_ne with "HK1 Hd Hs") as %Hne; [done|]. avl_step.
  iApply (wp_delete_repair_step tree K f _ (hgt (plug K1 ch)) with "[Hx Hs HK]");
    [done|apply hgt_nonneg|done|rewrite path_cons; own|].
  iIntros (fs stop h' [(Hshape & Hin & Hbf & Haf) Hh']) "HK".
  destruct (Hshape (plug K1 ch)) as [Havl Hhgt]; [done|done|].
  iAssert (path tree (K1 ++ fs ++ K) d) with "[HK1 HK]" as "HK".
  { rewrite (path_app _ K1) inptr_app Hin. iFrame. }
  assert (forall K', repaired ch (K1 ++ fs ++ K) K' -> repaired ch (K1 ++ f :: K) K') as Hrep.
  { intros K' (? & Hp & Hb & Ha). split; [done|]. rewrite Hp Hb Ha !inptr_app Hin /=. split; [done|].
    rewrite !before_app !after_app Hbf Haf. destruct f; simpl; rewrite -?app_assoc ?app_nil_r; simpl; by rewrite -?app_assoc. }
  destruct stop; avl_steps.
  - iApply ("HΦ" with "[] Hd HK"). iPureIntro. apply Hrep. split; [|done].
    rewrite !plug_app. apply avl_plug. split; [|done]. rewrite Hhgt. destruct Hh' as [->| ->]; [|done]. done.
  - rewrite -outptr_app. iApply (IH (K1 ++ fs) K with "Hd [HK] [HΦ]").
    + simpl in Hf. lia.
    + done.
    + by rewrite plug_app.
    + rewrite plug_app Hhgt. destruct Hh' as [->| ->]; [|done]. apply (avlK_eq _ _ _ HK). unfold frame_hgt. lia.
    + by rewrite -app_assoc.
    + iIntros (K' HK'). iApply "HΦ". iPureIntro. apply Hrep. by rewrite app_assoc.
Qed.

Lemma wp_avl_delete_one_child {B} fuel tree K c l x r (k : unit -> prog avl_cell B) Φ :
  (length K < fuel)%nat -> avl (plug K (Br c l x r)) -> l = Leaf \/ r = Leaf ->
  path tree K x -∗ rep (inptr K 0) (Br c l x r) -∗
  (avl_tree_of tree (before K ++ (inorder l ++ inorder r) ++ after K) -∗ some_node x -∗ wp (k tt) Φ) -∗
  wp (avl_tree_delete_one_child fuel tree x ≫= k) Φ.
Proof.
  rewrite rep_br. iIntros (Hf [HK (Hl & Hr & Hc & Hcr)]%avl_plug Hone) "HK (%Hx & Hx & Hl & Hr) HΦ".
  set (ch := match r with Leaf => l | _ => r end).
  iAssert (⌜(if ptr r =? 0 then ptr l else ptr r) = ptr ch /\ inorder l ++ inorder r = inorder ch /\ avl ch /\
    (hgt (Br c l x r) = hgt ch + 1)%Z⌝ ∗ rep x ch)%I with "[Hl Hr]" as "[(%Hch & %Hin & %Havl & %Hh) Hch]".
  { pose proof (hgt_nonneg l). pose proof (hgt_nonneg r). destruct r as [|c' l' y r']; simpl ptr; subst ch.
    - rewrite /= app_nil_r. iFrame. iPureIntro. do 3 (split; [done|]). simpl. lia.
    - destruct Hone as [->|?]; [|done]. iAssert ⌜y <> 0⌝%I as %Hy; [by iDestruct "Hr" as "[% _]"|].
      destruct (Z.eqb_spec y 0); [done|]. iFrame. iPureIntro. do 3 (split; [done|]). cbn [hgt] in *. lia. }
  rewrite /avl_tree_delete_one_child /avl_tree_delete_repair. avl_steps.
  iApply (wp_delete_repair_loop fuel tree [] K x _ ch with "Hx HK"); [done|done|done|simpl; by rewrite -Hh|].
  iIntros (K' (HK' & Hp & Hb & Ha)) "Hx HK". simpl in Hp, Hb, Ha. rewrite -Hp. avl_steps. rewrite Hch Hin.
  iApply (wp_unlink with "Hx HK Hch"); [done|]. iIntros "Hx HK Hch".
  apply avl_plug in HK' as [HK' _]. iApply ("HΦ" with "[HK Hch] [Hx]"); [|iExists _, _, _, _; iFrame].
  iApply (avl_tree_plug tree K' ch (hgt ch) with "HK Hch"); [done|done|done|]. by rewrite Hb Ha.
Qed.

Lemma wp_avl_delete {B} fuel tree K c l x r (k : unit -> prog avl_cell B) Φ :
  (tsize (plug K (Br c l x r)) < fuel)%nat -> avl (plug K (Br c l x r)) ->
  tree_rep tree (plug K (Br c l x r)) -∗
  (avl_tree_of tree (before K ++ (inorder l ++ inorder r) ++ after K) -∗ some_node x -∗ wp (k tt) Φ) -∗
  wp (avl_tree_delete fuel tree x ≫= k) Φ.
Proof.
  iIntros (Hf Hfit) "HT HΦ". rewrite tree_rep_plug. iDestruct "HT" as "[HK HT]". cbn [ptr].
  pose proof (tsize_plug K (Br c l x r)) as Hsz. simpl in Hsz.
  rewrite rep_br. iDestruct "HT" as "(%Hx & Hx & Hl & Hr)". rewrite /avl_tree_delete. avl_steps.
  iDestruct (rep_ptr_null with "Hl") as %Hl0. iDestruct (rep_ptr_null with "Hr") as %Hr0.
  destruct (Z.eqb_spec (ptr l) 0) as [El|El]; [|destruct (Z.eqb_spec (ptr r) 0) as [Er|Er]]; cbn [negb andb].
  - iApply (wp_avl_delete_one_child fuel tree K c l x r with "HK [Hx Hl Hr] HΦ"); [lia|done|left; tauto|own].
  - iApply (wp_avl_delete_one_child fuel tree K c l x r with "HK [Hx Hl Hr] HΦ"); [lia|done|right; tauto|own].
  - destruct (leftmost_place r) as (K2 & c2 & y & r2 & -> & Hb); [tauto|]. avl_steps.
    iApply (wp_leftmost_loop with "Hr"); [lia|tauto|]. iIntros (y' ys Hy') "Hr". avl_steps.
    assert (y' = y) as ->.
    { rewrite inorder_plug Hb /= in Hy'. by injection Hy' as -> _. }
    destruct fuel as [|fuel]; [lia|]. rewrite /avl_tree_exchange.
    iApply (wp_exchange_right fuel tree K c K2 c2 Leaf y r2 x l with "HK [Hx Hl Hr]"); [own|].
    iIntros "HK HT". avl_steps.
    rewrite (rep_fill1 (FR c l y)) rep_plug. iDestruct "HT" as "[Hf [HK2 HT]]".
    iApply (wp_avl_delete_one_child (S fuel) tree (K2 ++ FR c l y :: K) c2 Leaf x r2 with "[HK Hf HK2] [HT] [HΦ]").
    + pose proof (tsize_plug K2 (Br c2 Leaf y r2)). rewrite length_app. simpl in *. lia.
    + change (plug K (Br c l x (plug K2 (Br c2 Leaf y r2)))) with
        (plug (FR c l x :: K) (plug K2 (Br c2 Leaf y r2))) in Hfit.
      rewrite -plug_app in Hfit. apply avl_plug in Hfit as [HKs Ht]. apply avl_plug. split; [|done].
      by eapply avlK_relabel.
    + by left.
    + rewrite path_app path_cons. simpl. rewrite ptr_plug. iFrame.
    + rewrite inptr_app. iFrame.
    + iIntros "HT Hx". iApply ("HΦ" with "[HT] Hx"). iApply (avl_tree_of_eq with "HT").
      rewrite before_app after_app inorder_plug Hb. inorder_eq.
Qed.
End avl_repair.

(** C38: deleting from an AVL tree.  On a heap that holds an AVL tree with [x] among its nodes,
    [avl_tree_delete] returns, with a bound on its loops of the size of the tree plus one; the heap then holds
    an AVL tree of exactly the other nodes in the same order, and every cell outside the tree is unchanged. *)
Theorem avl_tree_delete_correct (fuel : nat) (H : gmap Z avl_cell) (tree x : Z) (t : avlt) (ls rs : list Z)
  (Htree : is_tree H tree t) (Hv : avl t) (Hx : inorder t = ls ++ x :: rs) (Hfuel : (tsize t < fuel)%nat) :
  exists t' H', avl_tree_delete fuel tree x H = Ret (tt, H') /\
    is_tree H' tree t' /\ avl t' /\ balanced t' /\ inorder t' = ls ++ rs /\
    (forall p v, p <> tree -> p ∉ inorder t -> H !! p = Some v -> H' !! p = Some v).
Proof.
  destruct Htree as (Hsub & Hnd & H0 & Htr).
  destruct (delete_place t x ls rs Hnd Hx) as (K & c & l & r & -> & Hin).
  destruct (tree_sound (avl_tree_delete fuel tree x) H tree (tree_cells tree (plug K (Br c l x r)))
    (fun _ t' => avl t' /\ inorder t' = ls ++ rs)) as ([] & t' & H' & E & [Hv' Hin'] & Ht' & Hframe); [done| |].
  - intros Σ HΣ. rewrite owns_tree //. iIntros "HT". iApply wp_last.
    iApply (wp_avl_delete fuel tree K c l x r with "HT"); [done|done|].
    iIntros "HT _". rewrite Hin. wp_steps. by iApply wp_ret.
  - exists t', H'. repeat (split; [done|]). split; [by apply avl_balanced|]. split; [done|].
    intros p v Hp1 Hp2. apply Hframe. unfold tree_cells. rewrite lookup_insert_ne //. by apply cells_none.
Qed.

(** ** A sample *)

(** The nodes 5 to 60; 25 stands outside. *)
Definition sample_avl : avlt :=
  Br 1 (Br (-1) (Br 0 Leaf 5 Leaf) 10 Leaf) 20 (Br (-1) (Br 1 Leaf 30 (Br 0 Leaf 40 Leaf)) 50 (Br 0 Leaf 60 Leaf)).
Definition sample_avl_heap : gmap Z avl_cell := <[25 := Node (mkNode 0 0 0 0)]> (tree_cells 1 sample_avl).

Lemma sample_avl_is_tree : is_tree sample_avl_heap 1 sample_avl.
Proof.
  split; [by apply insert_subseteq|]. split; [apply (bool_decide_unpack _); reflexivity|].
  split; apply (bool_decide_unpack _); reflexivity.
Qed.
Lemma sample_avl_valid : avl sample_avl.
Proof. simpl. repeat split; lia. Qed.
Lemma sample_avl_ordered : ordered addr_cmp (inorder sample_avl).
Proof.
  simpl. repeat setoid_rewrite elem_of_cons. setoid_rewrite elem_of_nil. unfold addr_cmp. naive_solver lia.
Qed.

Lemma avl_tree_insert_correct_witness :
  exists t' H', avl_tree_insert 8 1 addr_cmp 25 sample_avl_heap = Ret (tt, H') /\
    is_tree H' 1 t' /\ avl t' /\ inorder t' = [5; 10; 20; 25; 30; 40; 50; 60].
Proof.
  destruct (avl_tree_insert_correct addr_cmp 8 sample_avl_heap 1 25 sample_avl (mkNode 0 0 0 0))
    as (t' & H' & E & Ht & Hv & _ & Hin & _).
  - exact addr_cmp_laws.
  - exact sample_avl_is_tree.
  - exact sample_avl_valid.
  - exact sample_avl_ordered.
  - reflexivity.
  - apply (bool_decide_unpack _). reflexivity.
  - lia.
  - simpl. lia.
  - exists t', H'. repeat (split; [done|]). exact Hin.
Defined.

Lemma avl_tree_reads_correct_witness :
  exists y H', avl_tree_leftmost 8 1 sample_avl_heap = Ret (y, H') /\ y = 5.
Proof.
  destruct (avl_tree_reads_correct 8 sample_avl_heap 1 sample_avl) as ((y & H' & E & Hy & _) & _).
  - exact sample_avl_is_tree.
  - simpl. lia.
  - exists y, H'. split; [exact E|exact Hy].
Defined.

Lemma avl_tree_delete_correct_witness :
  exists t' H', avl_tree_delete 8 1 20 sample_avl_heap = Ret (tt, H') /\
    is_tree H' 1 t' /\ avl t' /\ inorder t' = [5; 10; 30; 40; 50; 60].
Proof.
  destruct (avl_tree_delete_correct 8 sample_avl_heap 1 20 sample_avl [5; 10] [30; 40; 50; 60])
    as (t' & H' & E & Ht & Hv & _ & Hin & _).
  - exact sample_avl_is_tree.
  - exact sample_avl_valid.
  - reflexivity.
  - simpl. lia.
  - exists t', H'. repeat (split; [done|]). exact Hin.
Defined.
