(* ===== verification/Timers.v ===== *)
(** What a timer library promises, and the programs that use it.

    The sources have several timer libraries with the same operations: a heap
    of linked nodes, a red-black tree and an AVL tree.  Their specification is
    a map from the timers that are set to their times; [TimerQueue] is the
    interface and [TimerQueueLaws] what an implementation has to prove: every
    operation returns and does what it does on the map. *)
From stdpp Require Import fin_maps.
From S2P Require Import Prelude Heap PTree.

Definition UINT64_MAX : Z := 18446744073709551615.

(** The operations of a client.  [TAdd x c] stores [c] in [x->time64] and adds
    [x]; [TModify x c] stores [c] and calls the modify function; [TNext] asks
    for the next timer and its time. *)
Inductive timer_op := TAdd (x c : Z) | TRemove (x : Z) | TModify (x c : Z) | TNext.

(** The operations on the map.  The answer of [TNext] is a timer that is set
    and not after any other, or [NULL] and [UINT64_MAX]. *)
Inductive qstep (m : gmap Z Z) : timer_op -> Z * Z -> gmap Z Z -> Prop :=
  | q_add x c : m !! x = None -> qstep m (TAdd x c) (0, 0) (<[x := c]> m)
  | q_remove x c : m !! x = Some c -> qstep m (TRemove x) (0, 0) (delete x m)
  | q_modify x c c' : m !! x = Some c -> qstep m (TModify x c') (0, 0) (<[x := c']> m)
  | q_empty : m = ∅ -> qstep m TNext (0, UINT64_MAX) m
  | q_next x c : m !! x = Some c -> (forall y d, m !! y = Some d -> c <= d) -> qstep m TNext (x, c) m.

Inductive qrun : gmap Z Z -> list timer_op -> list (Z * Z) -> gmap Z Z -> Prop :=
  | qrun_nil m : qrun m [] [] m
  | qrun_cons m op o m' ops os m'' : qstep m op o m' -> qrun m' ops os m'' -> qrun m (op :: ops) (o :: os) m''.

(** What the client may do: the timers it has are [P]. *)
Definition allowed (P : gset Z) (m : gmap Z Z) (op : timer_op) : Prop :=
  match op with
  | TAdd x c => x ∈ P /\ m !! x = None /\ 0 <= c <= UINT64_MAX
  | TRemove x => is_Some (m !! x)
  | TModify x c => is_Some (m !! x) /\ 0 <= c <= UINT64_MAX
  | TNext => True
  end.
#[export] Instance allowed_dec P m op : Decision (allowed P m op).
Proof. destruct op; simpl; apply _. Defined.
Definition after_op (m : gmap Z Z) (op : timer_op) : gmap Z Z :=
  match op with TAdd x c | TModify x c => <[x := c]> m | TRemove x => delete x m | TNext => m end.
Fixpoint allowed_run (P : gset Z) (m : gmap Z Z) (ops : list timer_op) : Prop :=
  match ops with [] => True | op :: ops => allowed P m op /\ allowed_run P (after_op m op) ops end.

Lemma qstep_after m op o m' : qstep m op o m' -> m' = after_op m op.
Proof. by destruct 1. Qed.

(** ** The interface *)

Class TimerQueue (S : Type) := {
  tq_do : timer_op -> S -> outcome (Z * Z * S);
  (** The state holds the timers of the map, of those in the set. *)
  tq_rep : gset Z -> gmap Z Z -> S -> Prop
}.
Class TimerQueueLaws (S : Type) `{TimerQueue S} : Prop :=
  tq_step P m s op : tq_rep P m s -> allowed P m op ->
    exists o m' s', tq_do op s = Ret (o, s') /\ qstep m op o m' /\ tq_rep P m' s'.

Fixpoint tq_run {S} `{TimerQueue S} (ops : list timer_op) (s : S) : outcome (list (Z * Z) * S) :=
  match ops with
  | [] => Ret ([], s)
  | op :: ops =>
      r ← tq_do op s; let '(o, s) := r in
      r ← tq_run ops s; let '(os, s) := r in
      Ret (o :: os, s)
  end.

Lemma tq_run_refines {S} `{TimerQueueLaws S} ops P m s :
  tq_rep P m s -> allowed_run P m ops ->
  exists os m' s', tq_run ops s = Ret (os, s') /\ qrun m ops os m' /\ tq_rep P m' s'.
Proof.
  revert m s. induction ops as [|op ops IH]; intros m s Hs Ha; simpl in *.
  - exists [], m, s. split; [done|]. split; [constructor|done].
  - destruct Ha as [Ha1 Ha2]. destruct (tq_step P m s op Hs Ha1) as (o & m1 & s1 & E1 & Hq & Hs1).
    pose proof (qstep_after _ _ _ _ Hq) as E. rewrite <- E in Ha2.
    destruct (IH m1 s1 Hs1 Ha2) as (os & m' & s' & E2 & Hr & Hs'). exists (o :: os), m', s'.
    rewrite E1. simpl. rewrite E2. split; [done|]. split; [by econstructor|done].
Qed.

(** ** Nodes stay nodes *)

(** A program on a heap of nodes and header words does not free a node or make
    it something else. *)
Class KeepsNodes {C A} (code : prog (cell C) A) : Prop :=
  keeps_nodes H a H' p n : code H = Ret (a, H') -> H !! p = Some (Node n) -> exists n', H' !! p = Some (Node n').

Section keeps.
Context {C : Type}.

Lemma keeps_ret {A} (a : A) : KeepsNodes (C := C) (mret a).
Proof. intros H a' H' p n [= <- <-]. eauto. Qed.
Lemma keeps_bind {A B} (c : prog (cell C) A) (f : A -> prog (cell C) B) :
  KeepsNodes c -> (forall a, KeepsNodes (f a)) -> KeepsNodes (c ≫= f).
Proof.
  intros Hc Hf H b H' p n. unfold mbind, prog_bind. destruct (c H) as [[a H1]| | |] eqn:E; simpl; try done.
  intros E' Hp. destruct (Hc _ _ _ _ _ E Hp) as [n1 Hp1]. by eapply Hf.
Qed.
Lemma keeps_abort {A} : KeepsNodes (C := C) (A := A) abort.
Proof. intros ? ? ? ? ? [=]. Qed.
Lemma keeps_undef {A} : KeepsNodes (C := C) (A := A) undef.
Proof. intros ? ? ? ? ? [=]. Qed.
Lemma keeps_fuel {A} : KeepsNodes (C := C) (A := A) (fun _ => OutOfFuel).
Proof. intros ? ? ? ? ? [=]. Qed.
Lemma keeps_if {A} (b : bool) (c d : prog (cell C) A) :
  KeepsNodes c -> KeepsNodes d -> KeepsNodes (if b then c else d).
Proof. by destruct b. Qed.
Lemma keeps_field {A} (f : tree_node C -> A) p : KeepsNodes (field f p).
Proof.
  intros H a H' q n. unfold field, get_node, load, mbind, prog_bind.
  destruct (H !! p) as [[]|] eqn:E; simpl; try done. intros [= _ <-]. eauto.
Qed.
Lemma keeps_set_node p g : KeepsNodes (C := C) (set_node p g).
Proof.
  intros H a H' q n. unfold set_node, get_node, load, store, mbind, prog_bind.
  destruct (H !! p) as [[n0|]|] eqn:E; simpl; try done. rewrite E. simpl. intros [= _ <-] Hq.
  destruct (decide (p = q)) as [->|]; [rewrite lookup_insert_eq|rewrite lookup_insert_ne by done]; eauto.
Qed.
Lemma keeps_get_root p : KeepsNodes (C := C) (get_root p).
Proof.
  intros H a H' q n. unfold get_root, load, mbind, prog_bind.
  destruct (H !! p) as [[]|] eqn:E; simpl; try done. intros [= _ <-]. eauto.
Qed.
Lemma keeps_set_root p v : KeepsNodes (C := C) (set_root p v).
Proof.
  intros H a H' q n. unfold set_root, get_root, load, store, mbind, prog_bind.
  destruct (H !! p) as [[|]|] eqn:E; simpl; try done. rewrite E. simpl. intros [= _ <-] Hq.
  rewrite lookup_insert_ne; [eauto|]. congruence.
Qed.
Lemma keeps_loop {S R} n (body : S -> prog (cell C) (S + R)) s :
  (forall s, KeepsNodes (body s)) -> KeepsNodes (loop n body s).
Proof.
  intros Hb. revert s. induction n as [|n IH]; intros s; simpl; [apply keeps_fuel|].
  apply keeps_bind; [apply Hb|]. intros [s'|r]; [apply IH|apply keeps_ret].
Qed.
End keeps.

(** The facts about the functions of the libraries. *)
Create HintDb keeps_db discriminated.
#[export] Hint Constants Opaque : keeps_db.

(** By the structure of the program. *)
Ltac keeps :=
  repeat (cbv beta zeta; lazymatch goal with
  | |- forall _, _ => intros ?
  | |- KeepsNodes (_ ≫= _) => apply keeps_bind
  | |- KeepsNodes (mret _) => apply keeps_ret
  | |- KeepsNodes (field _ _) => apply keeps_field
  | |- KeepsNodes (set_left _ _) => apply keeps_set_node
  | |- KeepsNodes (set_right _ _) => apply keeps_set_node
  | |- KeepsNodes (set_parent _ _) => apply keeps_set_node
  | |- KeepsNodes (set_payload _ _) => apply keeps_set_node
  | |- KeepsNodes (get_root _) => apply keeps_get_root
  | |- KeepsNodes (set_root _ _) => apply keeps_set_root
  | |- KeepsNodes (loop _ _ _) => apply keeps_loop
  | |- KeepsNodes (if _ then _ else _) => apply keeps_if
  | |- KeepsNodes (match ?x with _ => _ end) => destruct x
  | |- KeepsNodes abort => apply keeps_abort
  | |- KeepsNodes undef => apply keeps_undef
  | |- KeepsNodes (fun _ => OutOfFuel) => apply keeps_fuel
  | |- KeepsNodes _ => first [assumption | solve [auto 1 with keeps_db nocore] | match goal with IH : forall _, _ |- _ => simple apply IH end]
  end).
Lemma keeps_link {C} p q : KeepsNodes (C := C) (link_child p q).
Proof. unfold link_child. keeps. Qed.
#[export] Hint Resolve keeps_link : keeps_db.
Lemma keeps_replace {C} p q r : KeepsNodes (C := C) (replace_child p q r).
Proof. unfold replace_child. keeps. Qed.
#[export] Hint Resolve keeps_replace : keeps_db.
Lemma keeps_exchange {C} fuel a x y : KeepsNodes (C := C) (exchange fuel a x y).
Proof. revert x y. induction fuel as [|fuel IH]; intros x y; cbn [exchange]; keeps. Qed.
#[export] Hint Resolve keeps_exchange : keeps_db.
Lemma keeps_leftmost_step {C} x : KeepsNodes (C := C) (leftmost_step x).
Proof. unfold leftmost_step. keeps. Qed.
#[export] Hint Resolve keeps_leftmost_step : keeps_db.
Lemma keeps_rightmost_step {C} x : KeepsNodes (C := C) (rightmost_step x).
Proof. unfold rightmost_step. keeps. Qed.
#[export] Hint Resolve keeps_rightmost_step : keeps_db.
