(* ===== verification/LinkHeap.v ===== *)
(** The timer heap of timerlinkheap/timerlink.h and timerlinkheap/timerlink.c:
    a binary heap of linked nodes.

    A timer is a node whose first field is [time64]; [fn] and [userdata] are
    not used by the heap.  The header is two words: [root] at the address of
    the heap and [size] after it. *)
From iris.proofmode Require Import coq_tactics reduction proofmode.
From iris.base_logic.lib Require Import gen_heap.
From S2P Require Import Prelude Heap PTree PExchange PPlaces Timers.

Abbreviation timer_cell := (cell Z).
Definition time64 (p : Z) : prog timer_cell Z := field payload p.

(** [&heap->size] *)
Definition size_field (heap : Z) : Z := heap + 8.

Definition timer_linkheap_init (heap : Z) : prog timer_cell unit :=
  _ ← set_root heap 0; set_root (size_field heap) 0.

Definition timer_linkheap_free (heap : Z) : prog timer_cell unit :=
  root ← get_root heap;
  size ← get_root (size_field heap);
  if negb (root =? 0) || negb (size =? 0) then abort else mret tt.

Definition timer_linkheap_next_expiry_time (heap : Z) : prog timer_cell Z :=
  root ← get_root heap;
  if root =? 0 then mret UINT64_MAX else time64 root.

Definition timer_linkheap_next_expiry_timer (heap : Z) : prog timer_cell Z :=
  root ← get_root heap;
  if root =? 0 then mret 0 else get_root heap.

(** ** Nodes by their number *)

Definition timer_linkheap_parent (i : Z) : Z := u64 (i - 1) / 2.

(** One pass of the loop that fills [path], the last entry first: the array
    has 64 entries. *)
Definition nth_path_step (s : Z * list bool) : prog timer_cell (Z * list bool + list bool) :=
  let '(n, path) := s in
  if n =? 0 then mret (inr path)
  else if Z.of_nat (length path) <? 64 then mret (inl (timer_linkheap_parent n, (n mod 2 =? 0) :: path))
  else undef.

(** The loop that follows [path]. *)
Fixpoint nth_walk (path : list bool) (link : Z) : prog timer_cell Z :=
  match path with
  | [] => mret link
  | b :: path => link ← (if (b : bool) then field nright link else field nleft link); nth_walk path link
  end.

Definition timer_linkheap_nth (fuel : nat) (heap n : Z) : prog timer_cell Z :=
  path ← loop fuel nth_path_step (n, []);
  link ← get_root heap;
  nth_walk path link.

Definition timer_linkheap_last (fuel : nat) (heap : Z) : prog timer_cell Z :=
  size ← get_root (size_field heap);
  timer_linkheap_nth fuel heap (u64 (size - 1)).

Definition timer_linkheap_last_plus_one_parent (fuel : nat) (heap : Z) : prog timer_cell Z :=
  size ← get_root (size_field heap);
  timer_linkheap_nth fuel heap (timer_linkheap_parent size).

(** ** Swapping nodes *)

(** [if (x->parent == NULL) heap->root = x; else] replace [old] by [x] below it. *)
Definition relink_parent (heap parent old x : Z) : prog timer_cell unit :=
  if parent =? 0 then set_root heap x else replace_child parent old x.

Definition timer_linkheap_swap_parentchild (heap parent child : Z) : prog timer_cell unit :=
  cp ← field nparent child;
  if negb (cp =? parent) then abort
  else
    pl ← field nleft parent;
    if pl =? child then
      parent_right ← field nright parent;
      parent_parent ← field nparent parent;
      child_left ← field nleft child;
      child_right ← field nright child;
      _ ← set_parent child parent_parent;
      _ ← set_left child parent;
      _ ← set_right child parent_right;
      _ ← set_left parent child_left;
      _ ← set_right parent child_right;
      _ ← set_parent parent child;
      _ ← link_child child_left parent;
      _ ← link_child child_right parent;
      _ ← link_child parent_right child;
      relink_parent heap parent_parent parent child
    else
      pr ← field nright parent;
      if pr =? child then
        parent_left ← field nleft parent;
        parent_parent ← field nparent parent;
        child_left ← field nleft child;
        child_right ← field nright child;
        _ ← set_parent child parent_parent;
        _ ← set_left child parent_left;
        _ ← set_right child parent;
        _ ← set_left parent child_left;
        _ ← set_right parent child_right;
        _ ← set_parent parent child;
        _ ← link_child child_left parent;
        _ ← link_child child_right parent;
        _ ← link_child parent_left child;
        relink_parent heap parent_parent parent child
      else abort.

Definition timer_linkheap_swap (heap x1 x2 : Z) : prog timer_cell unit :=
  p1 ← field nparent x1;
  if p1 =? x2 then timer_linkheap_swap_parentchild heap x2 x1
  else
    p2 ← field nparent x2;
    if p2 =? x1 then timer_linkheap_swap_parentchild heap x1 x2
    else
      left1 ← field nleft x1;
      right1 ← field nright x1;
      parent1 ← field nparent x1;
      left2 ← field nleft x2;
      right2 ← field nright x2;
      parent2 ← field nparent x2;
      _ ← set_left x1 left2;
      _ ← set_right x1 right2;
      _ ← set_parent x1 parent2;
      _ ← set_left x2 left1;
      _ ← set_right x2 right1;
      _ ← set_parent x2 parent1;
      _ ← (if parent1 =? parent2 then
             tmp ← field nleft parent1;
             r ← field nright parent1;
             _ ← set_left parent1 r;
             set_right parent1 tmp
           else
             _ ← relink_parent heap parent1 x1 x2;
             relink_parent heap parent2 x2 x1);
      _ ← link_child left2 x1;
      _ ← link_child right2 x1;
      _ ← link_child left1 x2;
      link_child right1 x2.

(** ** Restoring the order *)

Definition siftdown_step (heap link : Z) : prog timer_cell (Z + unit) :=
  fc ← field nleft link;
  sc ← field nright link;
  if fc =? 0 then mret (inr tt)
  else if sc =? 0 then
    tf ← time64 fc;
    tl ← time64 link;
    if tf <? tl then _ ← timer_linkheap_swap_parentchild heap link fc; mret (inl link)
    else mret (inr tt)
  else
    tf ← time64 fc;
    ts ← time64 sc;
    let minlink := if tf <? ts then fc else sc in
    tm ← time64 minlink;
    tl ← time64 link;
    if tm <? tl then _ ← timer_linkheap_swap_parentchild heap link minlink; mret (inl link)
    else mret (inr tt).
Definition timer_linkheap_siftdown (fuel : nat) (heap link : Z) : prog timer_cell unit :=
  loop fuel (siftdown_step heap) link.

Definition siftup_step (heap link : Z) : prog timer_cell (Z + unit) :=
  parent ← field nparent link;
  if parent =? 0 then mret (inr tt)
  else
    tp ← time64 parent;
    tl ← time64 link;
    if tp >? tl then _ ← timer_linkheap_swap_parentchild heap parent link; mret (inl link)
    else mret (inr tt).
Definition timer_linkheap_siftup (fuel : nat) (heap link : Z) : prog timer_cell unit :=
  loop fuel (siftup_step heap) link.

(** ** The operations *)

(** The end of a removal and of a modification. *)
Definition sift (fuel : nat) (heap timer : Z) : prog timer_cell unit :=
  parent ← field nparent timer;
  if parent =? 0 then timer_linkheap_siftdown fuel heap timer
  else
    parent ← field nparent timer;
    tt_ ← time64 timer;
    tp ← time64 parent;
    if tt_ <? tp then timer_linkheap_siftup fuel heap timer
    else timer_linkheap_siftdown fuel heap timer.

Definition decr_size (heap : Z) : prog timer_cell unit :=
  size ← get_root (size_field heap); set_root (size_field heap) (u64 (size - 1)).
Definition incr_size (heap : Z) : prog timer_cell unit :=
  size ← get_root (size_field heap); set_root (size_field heap) (u64 (size + 1)).

Definition timer_linkheap_remove (fuel : nat) (heap timer : Z) : prog timer_cell unit :=
  last ← timer_linkheap_last fuel heap;
  if last =? 0 then abort
  else
    ll ← field nleft last;
    lr ← field nright last;
    if negb (ll =? 0) || negb (lr =? 0) then abort
    else if timer =? last then
      parent ← field nparent timer;
      _ ← (if negb (parent =? 0) then replace_child parent timer 0 else set_root heap 0);
      decr_size heap
    else
      _ ← timer_linkheap_swap heap timer last;
      parent ← field nparent timer;
      pl ← field nleft parent;
      _ ← (if pl =? timer then
             pr ← field nright parent;
             if negb (pr =? 0) then abort else set_left parent 0
           else
             pr ← field nright parent;
             if pr =? timer then set_right parent 0 else abort);
      _ ← set_parent timer 0;
      tl ← field nleft timer;
      tr ← field nright timer;
      if negb (tl =? 0) || negb (tr =? 0) then abort
      else
        _ ← decr_size heap;
        sift fuel heap last.

Definition timer_linkheap_modify (fuel : nat) (heap timer : Z) : prog timer_cell unit := sift fuel heap timer.

Definition timer_linkheap_add (fuel : nat) (heap timer : Z) : prog timer_cell unit :=
  _ ← set_left timer 0;
  _ ← set_right timer 0;
  root ← get_root heap;
  if root =? 0 then
    _ ← incr_size heap;
    _ ← set_parent timer 0;
    set_root heap timer
  else
    new_parent ← timer_linkheap_last_plus_one_parent fuel heap;
    _ ← set_parent timer new_parent;
    l ← field nleft new_parent;
    _ ← (if l =? 0 then
           _ ← set_left new_parent timer;
           r ← field nright new_parent;
           if negb (r =? 0) then abort else mret tt
         else
           r ← field nright new_parent;
           if r =? 0 then set_right new_parent timer else abort);
    _ ← incr_size heap;
    timer_linkheap_siftup fuel heap timer.

Fixpoint timer_linkheap_verify_tree (fuel : nat) (link : Z) : prog timer_cell Z :=
  match fuel with
  | O => fun _ => OutOfFuel
  | S fuel =>
  let side (child : Z) (k : prog timer_cell Z) : prog timer_cell Z :=
    p ← field nparent child;
    if negb (p =? link) then mret 0
    else
      v ← timer_linkheap_verify_tree fuel child;
      if v =? 0 then mret 0 else k in
  parent ← field nparent link;
  low ← (if negb (parent =? 0) then tl ← time64 link; tp ← time64 parent; mret (tl <? tp) else mret false);
  if (low : bool) then mret 0
  else
    let rest : prog timer_cell Z :=
      r ← field nright link;
      if negb (r =? 0) then
        l ← field nleft link;
        if l =? 0 then mret 0 else side r (mret 1)
      else mret 1 in
    l ← field nleft link;
    if negb (l =? 0) then side l rest else rest
  end.

Definition timer_linkheap_verify (fuel : nat) (heap : Z) : prog timer_cell Z :=
  root ← get_root heap;
  if root =? 0 then mret 1
  else
    v ← timer_linkheap_verify_tree fuel root;
    mret (if v =? 0 then 0 else 1).
