(* ===== verification/LinkHeapOps.v ===== *)
(** The link heap: complete trees in heap order, and sifting. *)
From iris.proofmode Require Import coq_tactics reduction proofmode.
From iris.base_logic.lib Require Import gen_heap.
From S2P Require Import Prelude Heap PTree PExchange PPlaces LinkHeap.

Abbreviation theap := (tree Z).
Implicit Types (t l r s : theap) (K : list (frame Z)) (f : frame Z).

(** ** Heap order *)

(** No timer of [t] is before [lb], nor before the timer above it. *)
Fixpoint heap_ok (lb : Z) t : Prop :=
  match t with Leaf => True | Br c l _ r => lb <= c /\ heap_ok c l /\ heap_ok c r end.
Definition heap_ordered t : Prop := exists lb, heap_ok lb t.

(** The same for the nodes around a subtree; [above K c]: a timer [c] may stand
    below [K]. *)
Definition above K (c : Z) : Prop := match K with [] => True | f :: _ => frame_pl f <= c end.
Fixpoint heapK K : Prop :=
  match K with
  | [] => True
  | f :: K => heap_ok (frame_pl f) (frame_sib f) /\ above K (frame_pl f) /\ heapK K
  end.

Lemma heap_ok_mono lb lb' t : lb' <= lb -> heap_ok lb t -> heap_ok lb' t.
Proof. destruct t; simpl; [done|]. intuition lia. Qed.

Lemma above_mono K lb c : lb <= c -> above K lb -> above K c.
Proof. destruct K; simpl; [done|lia]. Qed.

Lemma heap_fill1 lb f t :
  heap_ok lb (fill1 f t) <-> lb <= frame_pl f /\ heap_ok (frame_pl f) (frame_sib f) /\ heap_ok (frame_pl f) t.
Proof. destruct f; simpl; tauto. Qed.

Lemma heap_plug_intro K t lb : heapK K -> above K lb -> heap_ok lb t -> heap_ordered (plug K t).
Proof.
  revert t lb. induction K as [|f K IH]; intros t lb HK Ha Ht; simpl in *; [by exists lb|].
  destruct HK as (Hs & Hf & HK). apply (IH _ (frame_pl f)); [done|done|]. apply heap_fill1.
  split; [lia|]. split; [done|]. by eapply heap_ok_mono.
Qed.
Lemma heap_plug_elim K t : heap_ordered (plug K t) -> heapK K /\ exists lb, above K lb /\ heap_ok lb t.
Proof.
  revert t. induction K as [|f K IH]; intros t; simpl; [intros [lb ?]; split; [done|]; by exists lb|].
  intros Hp. destruct (IH _ Hp) as (HK & lb & Ha & (Hlb & Hs & Ht)%heap_fill1).
  split; [|by exists (frame_pl f)]. split; [done|]. split; [|done]. destruct K; simpl in *; [done|lia].
Qed.

(** ** Contents and shape *)

(** The timers of a tree with their times, in no particular order. *)
Fixpoint entries t : list (Z * Z) :=
  match t with Leaf => [] | Br c l x r => (x, c) :: entries l ++ entries r end.
Fixpoint entriesK K : list (Z * Z) :=
  match K with [] => [] | f :: K => (frame_addr f, frame_pl f) :: entries (frame_sib f) ++ entriesK K end.

Lemma entries_plug K t : entries (plug K t) ≡ₚ entries t ++ entriesK K.
Proof.
  revert t. induction K as [|f K IH]; intros t; simpl; [by rewrite app_nil_r|]. rewrite IH.
  destruct f; simpl; solve_Permutation.
Qed.
Lemma inorder_entries t : inorder t ≡ₚ (entries t).*1.
Proof.
  induction t as [|c l IHl x r IHr]; [done|]. cbn [entries inorder]. rewrite fmap_cons fmap_app IHl IHr /=.
  solve_Permutation.
Qed.

(** The number of a place: the root is 1, the children of [p] are [2p] and
    [2p + 1].  [complete n t]: the nodes of [t] are at the numbers 1 to [n]. *)
Fixpoint occ (n p : Z) t : Prop :=
  match t with Leaf => n < p | Br _ l _ r => p <= n /\ occ n (2 * p) l /\ occ n (2 * p + 1) r end.
Definition complete (n : Z) t : Prop := occ n 1 t.
Fixpoint posK K : Z :=
  match K with [] => 1 | FL _ _ _ :: K => 2 * posK K | FR _ _ _ :: K => 2 * posK K + 1 end.
Definition sib_pos f (p : Z) : Z := match f with FL _ _ _ => 2 * p + 1 | FR _ _ _ => 2 * p end.
Fixpoint occK (n : Z) K : Prop :=
  match K with [] => True | f :: K => posK K <= n /\ occ n (sib_pos f (posK K)) (frame_sib f) /\ occK n K end.

Lemma posK_pos K : 1 <= posK K.
Proof. induction K as [|[] K IH]; simpl; lia. Qed.
Lemma posK_length K : 2 ^ Z.of_nat (length K) <= posK K.
Proof.
  induction K as [|f K IH]; simpl length; simpl posK; [done|].
  rewrite Nat2Z.inj_succ Z.pow_succ_r; [|lia]. destruct f; lia.
Qed.

Lemma occ_plug n K t : complete n (plug K t) <-> occK n K /\ occ n (posK K) t.
Proof.
  unfold complete. revert t. induction K as [|f K IH]; intros t; simpl; [tauto|]. rewrite IH. destruct f; simpl; tauto.
Qed.

(** The completeness of a tree depends on its shape only. *)
Fixpoint same_shape t s : Prop :=
  match t, s with
  | Leaf, Leaf => True
  | Br _ l _ r, Br _ l' _ r' => same_shape l l' /\ same_shape r r'
  | _, _ => False
  end.
Lemma same_shape_refl t : same_shape t t.
Proof. by induction t. Qed.
Lemma same_shape_plug K t s : same_shape t s -> same_shape (plug K t) (plug K s).
Proof.
  revert t s. induction K as [|f K IH]; intros t s H; [done|]. simpl. apply IH.
  destruct f; simpl; (split; [|]); done || apply same_shape_refl.
Qed.
Lemma occ_shape n p t s : same_shape t s -> occ n p t -> occ n p s.
Proof. revert p s. induction t as [|c l IHl x r IHr]; intros p [|]; simpl; naive_solver. Qed.
Lemma same_shape_trans t s r : same_shape t s -> same_shape s r -> same_shape t r.
Proof. revert s r. induction t as [|c l IHl x r' IHr]; intros [|] [|]; simpl; naive_solver. Qed.

(** The numbers above [m] are [m / 2 ^ k]. *)
Lemma occ_succ n p t :
  (forall k, 0 <= k -> (n + 1) / 2 ^ k <> p) -> occ n p t <-> occ (n + 1) p t.
Proof.
  revert p. induction t as [|c l IHl x r IHr]; intros p Hp; simpl.
  - specialize (Hp 0 ltac:(lia)). rewrite Z.pow_0_r Z.div_1_r in Hp. lia.
  - assert (n + 1 <> p) by (specialize (Hp 0 ltac:(lia)); by rewrite Z.pow_0_r Z.div_1_r in Hp).
    assert (forall b k, 0 <= b < 2 -> 0 <= k -> (n + 1) / 2 ^ k <> 2 * p + b) as Hc.
    { intros b k Hb Hk E. apply (Hp (k + 1)); [lia|].
      rewrite Z.pow_add_r; [|lia|lia]. rewrite -Z.div_div; [|lia|lia]. rewrite E. lia. }
    rewrite IHl; [rewrite IHr|].
    + split; intros (? & ? & ?); (split; [lia|done]).
    + intros k Hk. apply (Hc 1); lia.
    + intros k Hk E. apply (Hc 0 k); lia.
Qed.

Lemma ancestor_div m p b k j :
  1 <= p -> 0 <= k < j -> 0 <= b < 2 -> m / 2 ^ k = 2 * p + b -> m / 2 ^ j <= p.
Proof.
  intros Hp Hk Hb. assert (2 ^ j = 2 ^ k * (2 * 2 ^ (j - k - 1))) as ->.
  { rewrite -Z.pow_succ_r; [|lia]. rewrite -Z.pow_add_r; [f_equal; lia|lia|lia]. }
  assert (0 < 2 ^ k) by (apply Z.pow_pos_nonneg; lia).
  assert (0 < 2 ^ (j - k - 1)) by (apply Z.pow_pos_nonneg; lia).
  rewrite -Z.div_div; [|lia|lia]. intros ->. rewrite -Z.div_div; [|lia|lia].
  replace ((2 * p + b) / 2) with p by lia. apply Z.div_le_upper_bound; nia.
Qed.
Lemma sibling_not_above m p b k j :
  1 <= p -> 0 <= k -> 0 <= j -> 0 <= b < 2 -> m / 2 ^ k = 2 * p + b -> m / 2 ^ j <> 2 * p + (1 - b).
Proof.
  intros Hp Hk Hj Hb Ek Ej. destruct (Z.lt_trichotomy k j) as [H|[->|H]].
  - pose proof (ancestor_div m p b k j Hp ltac:(lia) Hb Ek). rewrite Ej in H0. lia.
  - rewrite Ek in Ej. lia.
  - pose proof (ancestor_div m p (1 - b) j k Hp ltac:(lia) ltac:(lia) Ej). rewrite Ek in H0. lia.
Qed.

(** One more or one less node at a place that is [n + 1] or above it. *)
Lemma occK_succ n K k : 0 <= k -> 0 <= n -> (n + 1) / 2 ^ k = posK K -> occK n K <-> occK (n + 1) K.
Proof.
  revert k. induction K as [|f K IH]; intros k Hk Hn E; [done|]. pose proof (posK_pos K) as Hp.
  assert (exists b, 0 <= b < 2 /\ posK (f :: K) = 2 * posK K + b /\ sib_pos f (posK K) = 2 * posK K + (1 - b))
    as (b & Hb & Ep & Es) by (destruct f; [exists 0|exists 1]; simpl; lia).
  assert ((n + 1) / 2 ^ (k + 1) = posK K) as E'.
  { rewrite Z.pow_add_r; [|lia|lia]. assert (0 < 2 ^ k) by (apply Z.pow_pos_nonneg; lia). rewrite -Z.div_div; [|lia|lia].
    rewrite E Ep Z.pow_1_r. clear E. lia. }
  assert (posK (f :: K) <= n + 1).
  { rewrite -E. assert (0 < 2 ^ k) by (apply Z.pow_pos_nonneg; lia). apply Z.div_le_upper_bound; nia. }
  simpl occK. rewrite (IH (k + 1)) // ; [|lia]. rewrite Es (occ_succ n).
  - split; intros (? & ? & ?); (split; [lia|done]).
  - intros j Hj. apply (sibling_not_above _ (posK K) b k j); [lia..|]. by rewrite E Ep.
Qed.

(** The node [n + 1] comes or goes. *)
Lemma complete_grow n K c x : 0 <= n -> posK K = n + 1 ->
  complete n (plug K Leaf) <-> complete (n + 1) (plug K (Br c Leaf x Leaf)).
Proof.
  intros Hn E. rewrite !occ_plug E /=. rewrite (occK_succ n K 0) //; [|by rewrite Z.pow_0_r Z.div_1_r].
  split; intros (? & ?); (split; [done|lia]).
Qed.

(** Every number up to [n] has its place. *)
Lemma complete_place n t q : complete n t -> 1 <= q <= n ->
  exists K c l x r, t = plug K (Br c l x r) /\ posK K = q.
Proof.
  intros Ht. pattern q. revert q. apply (well_founded_ind (Z.lt_wf 1)). intros q IH Hq.
  destruct (decide (q = 1)) as [->|Hq1].
  - destruct t as [|c l x r]; [unfold complete in Ht; simpl in Ht; lia|]. by exists [], c, l, x, r.
  - destruct (IH (q / 2)) as (K & c & l & x & r & -> & E); [lia|lia|].
    apply occ_plug in Ht as (HK & _ & Hl & Hr). rewrite E in Hl, Hr.
    destruct (decide (q mod 2 = 0)).
    + destruct l as [|c' l' y r']; [simpl in Hl; lia|]. exists (FL c x r :: K), c', l', y, r'. simpl. split; [done|lia].
    + destruct r as [|c' l' y r']; [simpl in Hr; lia|]. exists (FR c l x :: K), c', l', y, r'. simpl. split; [done|lia].
Qed.

(** A node with a right child has a left one. *)
Fixpoint left_first t : Prop :=
  match t with Leaf => True | Br _ l _ r => (l = Leaf -> r = Leaf) /\ left_first l /\ left_first r end.
Lemma occ_left_first n p t : 1 <= p -> occ n p t -> left_first t.
Proof.
  revert p. induction t as [|c l IHl x r IHr]; intros p Hp; simpl; [done|]. intros (Hn & Hl & Hr).
  split; [|split; [apply (IHl (2 * p))|apply (IHr (2 * p + 1))]; (lia || done)].
  intros ->. simpl in Hl. destruct r as [|c' l' y r']; [done|]. simpl in Hr. lia.
Qed.

(** ** Swapping a node with its parent *)

(** The frame of another node at the same place. *)
Definition frame_with f (c x : Z) : frame Z := match f with FL _ _ r => FL c x r | FR _ l _ => FR c l x end.

Ltac heap_step :=
  cbv beta; lazymatch goal with
  | |- envs_entails _ (wp (time64 _ ≫= _) _) => wp_field_step
  | |- _ => wp_step
  end.
Ltac heap_steps := repeat heap_step; cbv beta.

Section linkheap_sift.
Context `{!gen_heapGS Z timer_cell Σ}.

Lemma wp_relink_parent {B} heap K old new v (k : unit -> prog timer_cell B) Φ :
  old <> 0 -> pointsto old (DfracOwn 1) v -∗ path heap K old -∗
  (pointsto old (DfracOwn 1) v -∗ path heap K new -∗ wp (k tt) Φ) -∗
  wp (relink_parent heap (inptr K 0) old new ≫= k) Φ.
Proof. apply wp_replace_or_root. Qed.

Lemma wp_swap_parentchild {B} heap K f c l x r (k : unit -> prog timer_cell B) Φ :
  path heap (f :: K) x -∗ rep (frame_addr f) (Br c l x r) -∗
  (path heap K x -∗ rep (inptr K 0) (fill1 (frame_with f c x) (Br (frame_pl f) l (frame_addr f) r)) -∗ wp (k tt) Φ) -∗
  wp (timer_linkheap_swap_parentchild heap (frame_addr f) x ≫= k) Φ.
Proof.
  rewrite path_cons rep_br. iIntros "[(%Hf & Hf & Hs) HK] (%Hx & Hx & Hl & Hr) HΦ".
  rewrite /timer_linkheap_swap_parentchild. heap_steps. rewrite Z.eqb_refl. cbn [negb]. heap_steps.
  iDestruct (rep_ptr_ne with "Hs Hx") as %Hne; [done|].
  destruct f as [cp p s|cp s p]; simpl.
  - rewrite Z.eqb_refl. heap_steps.
    iApply (wp_link_child with "Hl"); [done|]. iIntros "Hl". heap_steps.
    iApply (wp_link_child with "Hr"); [done|]. iIntros "Hr". heap_steps.
    iApply (wp_link_child with "Hs"); [done|]. iIntros "Hs". heap_steps.
    iApply (wp_relink_parent with "Hf HK"); [done|]. iIntros "Hf HK". iApply ("HΦ" with "HK"). own.
  - destruct (Z.eqb_spec (ptr s) x); [done|]. heap_steps. rewrite Z.eqb_refl. heap_steps.
    iApply (wp_link_child with "Hl"); [done|]. iIntros "Hl". heap_steps.
    iApply (wp_link_child with "Hr"); [done|]. iIntros "Hr". heap_steps.
    iApply (wp_link_child with "Hs"); [done|]. iIntros "Hs". heap_steps.
    iApply (wp_relink_parent with "Hf HK"); [done|]. iIntros "Hf HK". iApply ("HΦ" with "HK"). own.
Qed.

(** A heap with the shape of [t0] and the timers [es]. *)
Definition heap_like (heap : Z) (t0 : theap) (es : list (Z * Z)) : iProp Σ :=
  ∃ t', ⌜heap_ordered t' /\ same_shape t0 t' /\ entries t' ≡ₚ es⌝ ∗ tree_rep heap t'.

Lemma heap_like_plug heap K t lb t0 es :
  heapK K -> above K lb -> heap_ok lb t -> same_shape t0 (plug K t) -> es ≡ₚ entries (plug K t) ->
  path heap K (ptr t) -∗ rep (inptr K 0) t -∗ heap_like heap t0 es.
Proof.
  iIntros (HK Ha Ht Hs He) "HK Ht". iExists (plug K t). rewrite tree_rep_plug. iFrame. iPureIntro.
  split; [by eapply heap_plug_intro|]. by split.
Qed.

(** Only [x] may be before its parent. *)
Lemma wp_siftup {B} fuel heap K c l x r t0 es (k : unit -> prog timer_cell B) Φ :
  (length K < fuel)%nat -> heapK K -> heap_ok c l -> heap_ok c r ->
  (forall f K', K = f :: K' -> heap_ok (frame_pl f) l /\ heap_ok (frame_pl f) r) ->
  same_shape t0 (plug K (Br c l x r)) -> es ≡ₚ entries (plug K (Br c l x r)) ->
  path heap K x -∗ rep (inptr K 0) (Br c l x r) -∗ (heap_like heap t0 es -∗ wp (k tt) Φ) -∗
  wp (timer_linkheap_siftup fuel heap x ≫= k) Φ.
Proof.
  rewrite /timer_linkheap_siftup. revert K l r.
  induction fuel as [|fuel IH]; intros K l r; iIntros (Hf HK Hl Hr Hg Hsh Hes) "HK HT HΦ"; [lia|].
  cbn [loop]. rewrite {2}/siftup_step. rewrite rep_br. iDestruct "HT" as "(%Hx & Hx & Hl & Hr)". heap_steps.
  destruct K as [|f K]; simpl inptr.
  { rewrite Z.eqb_refl. heap_steps. iApply "HΦ".
    iApply (heap_like_plug heap [] (Br c l x r) c with "HK [Hx Hl Hr]"); [done|done|simpl; split_and!; [lia|done..]|done|done|own]. }
  rewrite path_cons. iDestruct "HK" as "[(%Hf0 & Hf & Hs) HK]". destruct (Z.eqb_spec (frame_addr f) 0); [done|]. heap_steps.
  destruct (Hg f K eq_refl) as [Hgl Hgr]. destruct HK as (Hsib & Hab & HK).
  rewrite Z.gtb_ltb. destruct (Z.ltb_spec c (frame_pl f)).
  - heap_steps. iApply (wp_swap_parentchild heap K f c l x r with "[Hf Hs HK] [Hx Hl Hr]");
      [rewrite path_cons /frame_rep; own|own|]. iIntros "HK HT". heap_steps.
    destruct f as [cp p s|cp s p]; simpl in *.
    + iApply (IH K (Br cp l p r) s with "HK HT HΦ"); [lia|done|simpl; split_and!; [lia|done..]
        |by eapply heap_ok_mono; [|exact Hsib]; lia| | | ].
      * intros g K' ->. simpl in Hab. split; [simpl; split_and!; done|by eapply heap_ok_mono].
      * eapply same_shape_trans; [exact Hsh|]. apply same_shape_plug. simpl. auto using same_shape_refl.
      * rewrite Hes !entries_plug /=. solve_Permutation.
    + iApply (IH K s (Br cp l p r) with "HK HT HΦ"); [lia|done|by eapply heap_ok_mono; [|exact Hsib]; lia
        |simpl; split_and!; [lia|done..]| | | ].
      * intros g K' ->. simpl in Hab. split; [by eapply heap_ok_mono|simpl; split_and!; done].
      * eapply same_shape_trans; [exact Hsh|]. apply same_shape_plug. simpl. auto using same_shape_refl.
      * rewrite Hes !entries_plug /=. solve_Permutation.
  - heap_steps. iApply "HΦ".
    iApply (heap_like_plug heap (f :: K) (Br c l x r) c with "[HK Hf Hs] [Hx Hl Hr]");
      [done|done|simpl; split_and!; [lia|done..]|done|done|rewrite path_cons /frame_rep; own|own].
Qed.

(** A child [m] of [x] that is before [x] and not after its sibling rises. *)
Lemma wp_sift_child {B} heap K f c m l x r (k : unit -> prog timer_cell B) Φ :
  frame_addr f = x -> frame_pl f = c -> forall y,
  path heap K x -∗ rep (inptr K 0) (fill1 f (Br m l y r)) -∗
  (path heap (frame_with f m y :: K) x -∗ rep y (Br c l x r) -∗ wp (k tt) Φ) -∗
  wp (timer_linkheap_swap_parentchild heap x y ≫= k) Φ.
Proof.
  iIntros (<- <- y) "HK HT HΦ". rewrite rep_fill1. iDestruct "HT" as "[Hf HT]".
  iApply (wp_swap_parentchild heap K f m l y r with "[HK Hf] HT"); [rewrite path_cons; iFrame|].
  iIntros "HK HT". rewrite rep_fill1 path_cons. iDestruct "HT" as "[Hf HT]".
  replace (frame_addr (frame_with f m y)) with y by (by destruct f). iApply ("HΦ" with "[HK Hf] HT"). iFrame.
Qed.

(** Only the children of [x] may be before it. *)
Lemma wp_siftdown {B} fuel heap K c l x r lb t0 es (k : unit -> prog timer_cell B) Φ :
  (tsize (Br c l x r) <= fuel)%nat -> heapK K -> above K lb -> lb <= c -> heap_ok lb l -> heap_ok lb r ->
  left_first (Br c l x r) ->
  same_shape t0 (plug K (Br c l x r)) -> es ≡ₚ entries (plug K (Br c l x r)) ->
  path heap K x -∗ rep (inptr K 0) (Br c l x r) -∗ (heap_like heap t0 es -∗ wp (k tt) Φ) -∗
  wp (timer_linkheap_siftdown fuel heap x ≫= k) Φ.
Proof.
  rewrite /timer_linkheap_siftdown. revert K l r lb.
  induction fuel as [|fuel IH]; intros K l r lb; iIntros (Hf HK Ha Hc Hl Hr (Hlf & Hlfl & Hlfr) Hsh Hes) "HK HT HΦ";
    simpl in Hf; [lia|].
  cbn [loop]. rewrite {2}/siftdown_step. rewrite rep_br. iDestruct "HT" as "(%Hx & Hx & Hl & Hr)". heap_steps.
  destruct l as [|cl ll y lr].
  { rewrite (Hlf eq_refl) /=. heap_steps. iApply "HΦ". rewrite (Hlf eq_refl) in Hsh Hes.
    iApply (heap_like_plug heap K (Br c Leaf x Leaf) c with "HK [Hx]"); [done|by apply (above_mono _ lb)|done|done|done|own]. }
  rewrite rep_br. iDestruct "Hl" as "(%Hy & Hy & Hll & Hlr)". simpl ptr. destruct (Z.eqb_spec y 0); [done|].
  destruct Hl as (Hlb & Hll & Hlr). simpl in Hlfl, Hf. destruct r as [|cr rl z rr].
  - simpl ptr. rewrite Z.eqb_refl. heap_steps. destruct (Z.ltb_spec cl c).
    + heap_steps. iApply (wp_sift_child heap K (FL c x Leaf) c cl ll x lr with "HK [Hx Hy Hll Hlr]"); [done|done|own|].
      iIntros "HK HT". heap_steps. iApply (IH (FL cl y Leaf :: K) ll lr cl with "HK HT HΦ");
        [simpl; lia|split_and!; [done|by apply (above_mono _ lb)|done]|simpl; lia|lia|done|done|simpl; tauto| |].
      * by eapply same_shape_trans; [exact Hsh|apply (same_shape_plug K); simpl; auto using same_shape_refl].
      * rewrite Hes !entries_plug /=. solve_Permutation.
    + heap_steps. iApply "HΦ".
      iApply (heap_like_plug heap K (Br c (Br cl ll y lr) x Leaf) c with "HK [Hx Hy Hll Hlr]");
        [done|by apply (above_mono _ lb)|done|done|done|own].
  - rewrite rep_br. iDestruct "Hr" as "(%Hz & Hz & Hrl & Hrr)". simpl ptr. destruct (Z.eqb_spec z 0); [done|].
    destruct Hr as (Hrb & Hrl & Hrr). simpl in Hlfr, Hf. heap_steps. destruct (Z.ltb_spec cl cr).
    + heap_steps. destruct (Z.ltb_spec cl c).
      * heap_steps. iApply (wp_sift_child heap K (FL c x (Br cr rl z rr)) c cl ll x lr with "HK [Hx Hy Hll Hlr Hz Hrl Hrr]");
          [done|done|own|].
        iIntros "HK HT". heap_steps. iApply (IH (FL cl y (Br cr rl z rr) :: K) ll lr cl with "HK HT HΦ");
          [simpl; lia|split_and!; [simpl; split_and!; [lia|done..]|by apply (above_mono _ lb)|done]
          |simpl; lia|lia|done|done|simpl; tauto| |].
        -- by eapply same_shape_trans; [exact Hsh|apply (same_shape_plug K); simpl; auto using same_shape_refl].
        -- rewrite Hes !entries_plug /=. solve_Permutation.
      * heap_steps. iApply "HΦ".
        iApply (heap_like_plug heap K (Br c (Br cl ll y lr) x (Br cr rl z rr)) c with "HK [Hx Hy Hll Hlr Hz Hrl Hrr]");
          [done|by apply (above_mono _ lb)|simpl; split_and!; (lia || done)|done|done|own].
    + heap_steps. destruct (Z.ltb_spec cr c).
      * heap_steps. iApply (wp_sift_child heap K (FR c (Br cl ll y lr) x) c cr rl x rr with "HK [Hx Hy Hll Hlr Hz Hrl Hrr]");
          [done|done|own|].
        iIntros "HK HT". heap_steps. iApply (IH (FR cr (Br cl ll y lr) z :: K) rl rr cr with "HK HT HΦ");
          [simpl; lia|split_and!; [simpl; split_and!; [lia|done..]|by apply (above_mono _ lb)|done]
          |simpl; lia|lia|done|done|simpl; tauto| |].
        -- by eapply same_shape_trans; [exact Hsh|apply (same_shape_plug K); simpl; auto using same_shape_refl].
        -- rewrite Hes !entries_plug /=. solve_Permutation.
      * heap_steps. iApply "HΦ".
        iApply (heap_like_plug heap K (Br c (Br cl ll y lr) x (Br cr rl z rr)) c with "HK [Hx Hy Hll Hlr Hz Hrl Hrr]");
          [done|by apply (above_mono _ lb)|simpl; split_and!; (lia || done)|done|done|own].
Qed.
End linkheap_sift.
