(* ===== verification/LinkHeapSpec.v ===== *)
(** The link heap: numbered nodes, adding, removing and modifying timers as
    statements about heaps. *)
From iris.proofmode Require Import coq_tactics reduction proofmode.
From iris.base_logic.lib Require Import gen_heap.
From S2P Require Import Prelude Heap PTree PExchange PPlaces LinkHeap LinkHeapOps.

Implicit Types (t l r s : theap) (K : list (frame Z)) (f : frame Z).

(** ** Nodes by their number *)

Definition is_right f : bool := match f with FL _ _ _ => false | FR _ _ _ => true end.
(** The turns from the root to the hole of [K]. *)
Definition turns K : list bool := rev (map is_right K).

Lemma nth_path_ok fuel K acc H :
  (length K < fuel)%nat -> Z.of_nat (length K + length acc) <= 64 -> posK K <= 18446744073709551616 ->
  loop fuel nth_path_step (posK K - 1, acc) H = Ret (turns K ++ acc, H).
Proof.
  revert K acc. induction fuel as [|fuel IH]; intros K acc Hf Hl Hp; [lia|]. cbn [loop].
  rewrite /mbind /prog_bind /nth_path_step. destruct K as [|f K].
  - done.
  - pose proof (posK_pos K). simpl length in *.
    assert (0 <= b2z (is_right f)) by (by destruct f).
    assert (posK (f :: K) = 2 * posK K + b2z (is_right f)) as E by (destruct f; simpl; lia). rewrite E in Hp |- *.
    destruct (Z.eqb_spec (2 * posK K + b2z (is_right f) - 1) 0); [destruct f; simpl in *; lia|].
    destruct (Z.ltb_spec (Z.of_nat (length acc)) 64); [|lia]. simpl.
    assert (timer_linkheap_parent (2 * posK K + b2z (is_right f) - 1) = posK K - 1) as ->.
    { unfold timer_linkheap_parent, u64. clear E. destruct f; simpl in *; rewrite Z.mod_small; lia. }
    assert (((2 * posK K + b2z (is_right f) - 1) mod 2 =? 0) = is_right f) as ->.
    { clear E. destruct f; simpl in *; [apply Z.eqb_neq|apply Z.eqb_eq]; lia. }
    rewrite IH; [|lia|simpl; lia|lia]. unfold turns. simpl. by rewrite -app_assoc.
Qed.

Lemma nth_walk_app p q link H :
  nth_walk (p ++ q) link H = (nth_walk p link ≫= nth_walk q) H.
Proof.
  revert link H. induction p as [|b p IH]; intros link H; simpl; [done|]. unfold mbind, prog_bind in *.
  destruct ((if b then field nright link else field nleft link) H) as [[y H']| | |]; simpl; [|done..]. apply IH.
Qed.

Section linkheap_numbers.
Context `{!gen_heapGS Z timer_cell Σ}.

Lemma wp_nth_walk {B} top K t (k : Z -> prog timer_cell B) Φ :
  rep top (plug K t) -∗ (rep top (plug K t) -∗ wp (k (ptr t)) Φ) -∗
  wp (nth_walk (turns K) (ptr (plug K t)) ≫= k) Φ.
Proof.
  revert t k. induction K as [|f K IH]; intros t k; iIntros "HT HΦ"; [iApply wp_ret_bind; by iApply "HΦ"|].
  iApply (wp_proper (nth_walk (turns K) (ptr (plug K (fill1 f t))) ≫= fun x => nth_walk [is_right f] x ≫= k)).
  { intros H. unfold mbind, prog_bind. unfold turns. simpl map. cbn [rev]. rewrite nth_walk_app. unfold mbind, prog_bind.
    destruct (nth_walk _ _ H) as [[y H']| | |]; simpl; done. }
  iApply (IH with "HT"). iIntros "HT". cbn [nth_walk]. iEval (rewrite (rep_plug K) rep_fill1) in "HT".
  iDestruct "HT" as "[HK [(%Hf & Hf & Hs) Ht]]".
  destruct f as [c x r|c l x]; simpl; wp_steps; (iApply "HΦ"; rewrite (rep_plug K) /=; own).
Qed.

(** The node with the number of [K]'s hole. *)
Lemma wp_nth {B} fuel heap K t n (k : Z -> prog timer_cell B) Φ :
  (length K < fuel)%nat -> posK K <= 18446744073709551616 -> n = posK K - 1 ->
  tree_rep heap (plug K t) -∗ (tree_rep heap (plug K t) -∗ wp (k (ptr t)) Φ) -∗
  wp (timer_linkheap_nth fuel heap n ≫= k) Φ.
Proof.
  iIntros (Hf Hp ->) "HT HΦ". rewrite /timer_linkheap_nth. iApply wp_assoc.
  iApply (wp_proper ((link ← get_root heap; nth_walk (turns K) link) ≫= k)).
  { intros H. unfold mbind at 3, prog_bind at 3. rewrite nth_path_ok; [by rewrite app_nil_r|done| |done].
    rewrite Nat.add_0_r. assert (2 ^ Z.of_nat (length K) <= 2 ^ 64) by (etrans; [apply posK_length|done]).
    apply Z.pow_le_mono_r_iff in H0; lia. }
  rewrite tree_rep_root. iDestruct "HT" as "[Hroot HT]". wp_steps.
  iApply (wp_nth_walk with "HT"). iIntros "HT". iApply "HΦ". iFrame.
Qed.
End linkheap_numbers.

(** ** Adding and modifying *)

Section linkheap_ops.
Context `{!gen_heapGS Z timer_cell Σ}.

(** The heap at [heap] has the timers [es]. *)
Definition heap_of (heap n : Z) (es : list (Z * Z)) : iProp Σ :=
  ∃ t, ⌜heap_ordered t /\ complete n t /\ entries t ≡ₚ es⌝ ∗ tree_rep heap t ∗
    pointsto (size_field heap) (DfracOwn 1) (Root n).

Lemma heap_like_of heap n t es :
  complete n t -> heap_like heap t es -∗ pointsto (size_field heap) (DfracOwn 1) (Root n) -∗ heap_of heap n es.
Proof.
  iIntros (Hc) "(%t' & (%Ho & %Hs & %He) & HT) Hn". iExists t'. iFrame. iPureIntro.
  split; [done|]. split; [by eapply occ_shape|done].
Qed.

Lemma wp_incr_size {B} heap n (k : unit -> prog timer_cell B) Φ :
  0 <= n < 18446744073709551615 -> pointsto (size_field heap) (DfracOwn 1) (Root n) -∗
  (pointsto (size_field heap) (DfracOwn 1) (Root (n + 1)) -∗ wp (k tt) Φ) -∗ wp (incr_size heap ≫= k) Φ.
Proof.
  iIntros (Hn) "Hn HΦ". rewrite /incr_size. wp_steps. rewrite /u64 Z.mod_small; [|lia]. by iApply "HΦ".
Qed.
Lemma wp_decr_size {B} heap n (k : unit -> prog timer_cell B) Φ :
  1 <= n < 18446744073709551616 -> pointsto (size_field heap) (DfracOwn 1) (Root n) -∗
  (pointsto (size_field heap) (DfracOwn 1) (Root (n - 1)) -∗ wp (k tt) Φ) -∗ wp (decr_size heap ≫= k) Φ.
Proof.
  iIntros (Hn) "Hn HΦ". rewrite /decr_size. wp_steps. rewrite /u64 Z.mod_small; [|lia]. by iApply "HΦ".
Qed.

(** The new timer is linked below [K]. *)
Lemma wp_add_sift {B} fuel heap K x c n (k : unit -> prog timer_cell B) Φ :
  (length K < fuel)%nat -> heap_ordered (plug K Leaf) -> complete n (plug K Leaf) -> posK K = n + 1 ->
  0 <= n < 18446744073709551615 -> x <> 0 ->
  path heap K x -∗ node x c 0 0 (inptr K 0) -∗ pointsto (size_field heap) (DfracOwn 1) (Root n) -∗
  (heap_of heap (n + 1) ((x, c) :: entries (plug K Leaf)) -∗ wp (k tt) Φ) -∗
  wp (incr_size heap ≫= fun _ => timer_linkheap_siftup fuel heap x ≫= k) Φ.
Proof.
  iIntros (Hf Ho Hc Hp Hn Hx) "HK Hx Hn HΦ". wp_steps. iApply (wp_incr_size with "Hn"); [done|]. iIntros "Hn". wp_steps.
  apply heap_plug_elim in Ho as [HK _].
  iApply (wp_siftup fuel heap K c Leaf x Leaf (plug K (Br c Leaf x Leaf)) ((x, c) :: entries (plug K Leaf)) with "HK [Hx]");
    [done|done|done|done|done|apply same_shape_refl|by rewrite !entries_plug|own|].
  iIntros "HT". iApply "HΦ". iApply (heap_like_of with "HT Hn"). by apply complete_grow; [lia|..].
Qed.

Lemma wp_linkheap_add {B} fuel heap t n x c (pl pr pp : Z) (k : unit -> prog timer_cell B) Φ :
  (S (tsize t) < fuel)%nat -> heap_ordered t -> complete n t -> 0 <= n < 18446744073709551615 -> x <> 0 ->
  tree_rep heap t -∗ pointsto (size_field heap) (DfracOwn 1) (Root n) -∗ node x c pl pr pp -∗
  (heap_of heap (n + 1) ((x, c) :: entries t) -∗ wp (k tt) Φ) -∗
  wp (timer_linkheap_add fuel heap x ≫= k) Φ.
Proof.
  iIntros (Hf Ho Hc Hn Hx) "HT Hn Hx HΦ". rewrite /timer_linkheap_add tree_rep_root. iDestruct "HT" as "[Hroot HT]". wp_steps.
  destruct t as [|cr lr root rr].
  { simpl ptr. rewrite Z.eqb_refl. wp_steps. iApply (wp_incr_size with "Hn"); [done|]. iIntros "Hn". wp_steps.
    iApply "HΦ". iExists (Br c Leaf x Leaf). iSplit; [iPureIntro|rewrite tree_rep_root; own].
    split; [by exists c|]. split; [by apply (complete_grow n []); [lia|unfold complete in *; simpl in *; lia|]|done]. }
  iAssert ⌜root <> 0⌝%I as %Hroot; [by iDestruct "HT" as "[% _]"|]. simpl ptr. destruct (Z.eqb_spec root 0); [done|].
  assert (1 <= n) by (unfold complete in Hc; simpl in Hc; lia).
  destruct (complete_place n _ ((n + 1) / 2) Hc) as (K & c' & l & y & r & E & Hpos); [lia|].
  assert (length K <= tsize (Br cr lr root rr))%nat as Hlen.
  { pose proof (tsize_plug K (Br c' l y r)) as Hsz. rewrite -E in Hsz. lia. }
  iAssert (tree_rep heap (plug K (Br c' l y r))) with "[Hroot HT]" as "HT"; [rewrite -E tree_rep_root; iFrame|].
  rewrite E in Ho, Hc |- *. clear E.
  rewrite /timer_linkheap_last_plus_one_parent. wp_steps.
  iApply (wp_nth fuel heap K (Br c' l y r) with "HT"); [lia|lia|unfold timer_linkheap_parent, u64; rewrite Z.mod_small; lia|].
  iIntros "HT". wp_steps. rewrite tree_rep_plug rep_br. iDestruct "HT" as "[HK (%Hy & Hy & Hl & Hr)]". simpl ptr. wp_steps.
  pose proof Hc as (HoK & Hq & Hol & Hor)%occ_plug. rewrite Hpos in Hq, Hol, Hor.
  iDestruct (rep_ptr_null with "Hl") as %Hl0. iDestruct (rep_ptr_null with "Hr") as %Hr0.
  destruct (Z.eqb_spec (ptr l) 0) as [E|E].
  - assert (l = Leaf) as -> by tauto. simpl in Hol. assert (r = Leaf) as ->.
    { destruct r; [done|]. simpl in Hor. lia. }
    simpl ptr. wp_steps. rewrite Z.eqb_refl. cbn [negb]. wp_steps. iApply (wp_add_sift fuel heap (FL c' y Leaf :: K) x c n with "[HK Hy] Hx Hn HΦ");
      [simpl; lia|done|done|simpl; lia|done|done|rewrite path_cons; own].
  - destruct l as [|cl ll yl lr']; [done|]. simpl in Hol. assert (r = Leaf) as ->.
    { destruct r; [done|]. simpl in Hor. lia. }
    simpl ptr. wp_steps. rewrite Z.eqb_refl. wp_steps.
    iApply (wp_add_sift fuel heap (FR c' (Br cl ll yl lr') y :: K) x c n with "[HK Hy Hl] Hx Hn HΦ");
      [simpl; lia|done|done|simpl; lia|done|done|rewrite path_cons; own].
Qed.

(** The timer [x] may be before its parent or after a child. *)
Lemma wp_heap_sift {B} fuel heap K c l x r lb t0 es (k : unit -> prog timer_cell B) Φ :
  (tsize (plug K (Br c l x r)) < fuel)%nat -> heapK K -> above K lb -> heap_ok lb l -> heap_ok lb r ->
  left_first (Br c l x r) -> same_shape t0 (plug K (Br c l x r)) -> es ≡ₚ entries (plug K (Br c l x r)) ->
  path heap K x -∗ rep (inptr K 0) (Br c l x r) -∗ (heap_like heap t0 es -∗ wp (k tt) Φ) -∗
  wp (sift fuel heap x ≫= k) Φ.
Proof.
  iIntros (Hf HK Ha Hl Hr Hlf Hs He) "HK HT HΦ". rewrite /sift. pose proof (tsize_plug K (Br c l x r)) as Hsz.
  rewrite rep_br. iDestruct "HT" as "(%Hx & Hx & Hl & Hr)". heap_steps.
  assert (heap_ok (Z.min lb c) l /\ heap_ok (Z.min lb c) r) as [Hl' Hr'].
  { split; (eapply heap_ok_mono; [|done]; lia). }
  destruct K as [|f K]; simpl inptr.
  - rewrite Z.eqb_refl.
    iApply (wp_siftdown fuel heap [] c l x r (Z.min lb c) with "HK [Hx Hl Hr] HΦ"); [simpl in *; lia|done|done|lia|done..|own].
  - iAssert ⌜frame_addr f <> 0⌝%I as %Hf0; [rewrite path_cons; by iDestruct "HK" as "[[% _] _]"|].
    destruct (Z.eqb_spec (frame_addr f) 0); [done|]. rewrite path_cons. iDestruct "HK" as "[(_ & Hf & Hsib) HK]". heap_steps.
    iAssert (path heap (f :: K) x) with "[Hf Hsib HK]" as "HK"; [rewrite path_cons /frame_rep; own|].
    simpl in Ha. destruct (Z.ltb_spec c (frame_pl f)).
    + iApply (wp_siftup fuel heap (f :: K) c l x r with "HK [Hx Hl Hr] HΦ");
        [simpl in *; lia|done|by eapply heap_ok_mono; [|exact Hl]; lia|by eapply heap_ok_mono; [|exact Hr]; lia| |done|done|own].
      intros f' K' [= <- <-]. split; [by eapply heap_ok_mono, Hl|by eapply heap_ok_mono, Hr].
    + iApply (wp_siftdown fuel heap (f :: K) c l x r (Z.min lb c) with "HK [Hx Hl Hr] HΦ");
        [simpl in *; lia|done|simpl; lia|lia|done..|own].
Qed.

(** The client changes the time of a timer and calls [timer_linkheap_modify]. *)
Lemma wp_linkheap_modify {B} fuel heap K c c' l x r n (k : unit -> prog timer_cell B) Φ :
  (tsize (plug K (Br c l x r)) < fuel)%nat -> heap_ordered (plug K (Br c l x r)) -> complete n (plug K (Br c l x r)) ->
  tree_rep heap (plug K (Br c l x r)) -∗ pointsto (size_field heap) (DfracOwn 1) (Root n) -∗
  (heap_of heap n (entries (plug K (Br c' l x r))) -∗ wp (k tt) Φ) -∗
  wp ((_ ← set_payload x c'; timer_linkheap_modify fuel heap x) ≫= k) Φ.
Proof.
  iIntros (Hf Ho Hc) "HT Hn HΦ". rewrite tree_rep_plug rep_br. iDestruct "HT" as "[HK (%Hx & Hx & Hl & Hr)]". simpl ptr.
  wp_steps. apply heap_plug_elim in Ho as (HoK & lb & Ha & Hlb & Hl & Hr).
  assert (same_shape (plug K (Br c l x r)) (plug K (Br c' l x r))) as Hsh.
  { apply same_shape_plug. simpl. auto using same_shape_refl. }
  iApply (wp_heap_sift fuel heap K c' l x r c with "HK [Hx Hl Hr]"); try done.
  - pose proof (tsize_plug_eq K (Br c l x r) (Br c' l x r) eq_refl). lia.
  - by apply (above_mono _ lb).
  - apply occ_plug in Hc as [_ Hc]. apply (occ_left_first n (posK K) (Br c' l x r)); [apply posK_pos|done].
  - own.
  - iIntros "HT". iApply "HΦ". by iApply (heap_like_of with "HT Hn").
Qed.
End linkheap_ops.
