(* ===== verification/LinkHeapRemove.v ===== *)
(** The link heap: swapping two nodes anywhere in the tree, and removal. *)
From iris.proofmode Require Import coq_tactics reduction proofmode.
From iris.base_logic.lib Require Import gen_heap.
From S2P Require Import Prelude Heap PTree PExchange PPlaces LinkHeap LinkHeapOps LinkHeapSpec.

Implicit Types (t l r s : theap) (K : list (frame Z)) (f : frame Z).

(** ** Two places in one tree *)

(** The frame of the same node with the hole on the other side. *)
Definition mirror f t : frame Z := match f with FL c x _ => FR c t x | FR c _ x => FL c x t end.

Lemma fill1_mirror f t : fill1 (mirror f t) (frame_sib f) = fill1 f t.
Proof. by destruct f. Qed.

Lemma snoc_cases {A} (xs : list A) : xs = [] \/ exists ys y, xs = ys ++ [y].
Proof. destruct xs as [|y ys _] using rev_ind; [by left|right; by exists ys, y]. Qed.

(** Two subtrees of a tree are one below the other or on two sides of a node. *)
Lemma plug_compare t K s Kz s' :
  t = plug K s -> t = plug Kz s' ->
  (exists K2, K = K2 ++ Kz /\ s' = plug K2 s) \/
  (exists K2, Kz = K2 ++ K /\ s = plug K2 s') \/
  (exists K1 f K2 K0, K = K1 ++ f :: K0 /\ Kz = K2 ++ mirror f (plug K1 s) :: K0 /\ frame_sib f = plug K2 s').
Proof.
  revert K Kz. induction t as [|c l IHl x r IHr]; intros K Kz E E';
    (destruct (snoc_cases Kz) as [->|(Kz' & f' & ->)]; [left; exists K; rewrite app_nil_r -E; simpl in E'; by rewrite -E'|]);
    (destruct (snoc_cases K) as [->|(K' & f & ->)]; [right; left; exists (Kz' ++ [f']); rewrite app_nil_r -E'; simpl in E; by rewrite -E|]);
    rewrite plug_app in E; rewrite plug_app in E'; simpl in E, E'.
  { by destruct f. }
  destruct f as [cf xf rf|cf lf xf], f' as [cf' xf' rf'|cf' lf' xf']; simpl in E, E';
    injection E as <- El <- Er; injection E' as <- El' <- Er'; subst.
  - destruct (IHl K' Kz' eq_refl El') as [(K2 & -> & ->)|[(K2 & -> & Es)|(K1 & f & K2 & K0 & -> & -> & Es)]].
    + left. exists K2. by rewrite app_assoc.
    + right; left. exists K2. by rewrite app_assoc.
    + right; right. exists K1, f, K2. eexists (K0 ++ [_]). by rewrite -!app_assoc.
  - right; right. exists K', (FL c x (plug Kz' s')), Kz', []. done.
  - right; right. exists K', (FR c (plug Kz' s') x), Kz', []. done.
  - destruct (IHr K' Kz' eq_refl Er') as [(K2 & -> & ->)|[(K2 & -> & Es)|(K1 & f & K2 & K0 & -> & -> & Es)]].
    + left. exists K2. by rewrite app_assoc.
    + right; left. exists K2. by rewrite app_assoc.
    + right; right. exists K1, f, K2. eexists (K0 ++ [_]). by rewrite -!app_assoc.
Qed.

(** A node has one place. *)
Lemma nodup_plug K t : NoDup (inorder (plug K t)) -> NoDup (inorder t).
Proof. rewrite inorder_plug. intros (_ & _ & (? & _)%list.NoDup_app)%list.NoDup_app. done. Qed.
Lemma nodup_fill1 f t p :
  NoDup (inorder (fill1 f t)) -> p ∈ inorder t -> p <> frame_addr f /\ p ∉ inorder (frame_sib f).
Proof.
  destruct f as [c x r|c l x]; cbn [fill1 frame_addr frame_sib]; intros (? & ? & ? & ? & Hd)%nodup_br Hp.
  - split; [congruence|by apply Hd].
  - split; [congruence|]. intros Hl. by apply (Hd p).
Qed.
Lemma in_plug p K t : p ∈ inorder t -> p ∈ inorder (plug K t).
Proof. rewrite inorder_plug !elem_of_app. auto. Qed.
Lemma place_unique K c l x r Kz cz lz rz :
  NoDup (inorder (plug K (Br c l x r))) -> plug K (Br c l x r) = plug Kz (Br cz lz x rz) ->
  K = Kz /\ c = cz /\ l = lz /\ r = rz.
Proof.
  intros Hnd E. assert (forall c l r, x ∈ inorder (Br c l x r)) as Hin.
  { intros. simpl. rewrite elem_of_app elem_of_cons. auto. }
  destruct (plug_compare _ K (Br c l x r) Kz (Br cz lz x rz) eq_refl E)
    as [(K2 & -> & E2)|[(K2 & -> & E2)|(K1 & f & K2 & K0 & -> & -> & Hs)]].
  - destruct (snoc_cases K2) as [->|(K2' & f & ->)]; [simpl in E2; naive_solver|]. exfalso.
    rewrite plug_app plug_app in Hnd. apply nodup_plug in Hnd. rewrite plug_app in E2. simpl in Hnd, E2.
    destruct (nodup_fill1 f _ x Hnd) as [Hne _]; [by apply in_plug|]. destruct f; simpl in *; naive_solver.
  - destruct (snoc_cases K2) as [->|(K2' & f & ->)]; [simpl in E2; naive_solver|]. exfalso.
    apply nodup_plug in Hnd. rewrite E2 plug_app in Hnd. rewrite plug_app in E2. simpl in Hnd, E2.
    destruct (nodup_fill1 f _ x Hnd) as [Hne _]; [by apply in_plug|]. destruct f; simpl in *; naive_solver.
  - exfalso. rewrite plug_app in Hnd. simpl in Hnd. apply nodup_plug in Hnd.
    destruct (nodup_fill1 f _ x Hnd) as [_ Hn]; [by apply in_plug|]. apply Hn. rewrite Hs. by apply in_plug.
Qed.

(** ** Swapping a node with a leaf *)

Section linkheap_swap.
Context `{!gen_heapGS Z timer_cell Σ}.

(** The children of a frame's node, linked to a new parent. *)
Lemma wp_link_sides {B} f g K hole old new (k : unit -> prog timer_cell B) Φ :
  frames_rep (g :: K) hole old -∗ rep old (frame_sib f) -∗
  (frames_rep (g :: K) hole new -∗ rep new (frame_sib f) -∗ wp (k tt) Φ) -∗
  wp (link_child (fleft f (outptr (g :: K) hole)) new ≫=
      fun _ => link_child (fright f (outptr (g :: K) hole)) new ≫= k) Φ.
Proof.
  iIntros "HK Hs HΦ". destruct f as [c x r|c l x]; simpl fleft; simpl fright; simpl frame_sib.
  - change (outptr K (frame_addr g)) with (outptr (g :: K) hole).
    iApply (wp_link_frames with "HK"). iIntros "HK". iApply (wp_link_child with "Hs"); [done|]. iIntros "Hs".
    iApply ("HΦ" with "HK Hs").
  - change (outptr K (frame_addr g)) with (outptr (g :: K) hole).
    iApply (wp_link_child with "Hs"); [done|]. iIntros "Hs". iApply (wp_link_frames with "HK"). iIntros "HK".
    iApply ("HΦ" with "HK Hs").
Qed.

Lemma wp_link_null {B} p (k : unit -> prog timer_cell B) Φ : wp (k tt) Φ ⊢ wp (link_child 0 p ≫= k) Φ.
Proof. iIntros "H". rewrite /link_child /=. by wp_steps. Qed.

(** [z] is a leaf below [x], on the side of the hole of [f]. *)
Lemma wp_swap_below {B} heap K f K2 cz z (k : unit -> prog timer_cell B) Φ :
  path heap K (frame_addr f) -∗ rep (inptr K 0) (fill1 f (plug K2 (Br cz Leaf z Leaf))) -∗
  (path heap (K2 ++ frame_with f cz z :: K) (frame_addr f) -∗
   node (frame_addr f) (frame_pl f) 0 0 (inptr (K2 ++ frame_with f cz z :: K) 0) -∗ wp (k tt) Φ) -∗
  wp (timer_linkheap_swap heap (frame_addr f) z ≫= k) Φ.
Proof.
  iIntros "HK HT HΦ". rewrite /timer_linkheap_swap. destruct K2 as [|g K2].
  - iEval (rewrite rep_fill1) in "HT". iDestruct "HT" as "[(%Hf & Hf & Hs) (%Hz & Hz & _)]". wp_steps.
    iDestruct (path_parent_ne with "HK Hz") as %Hpz; [done|]. destruct (Z.eqb_spec (inptr K 0) z); [done|]. wp_steps.
    rewrite Z.eqb_refl.
    iApply (wp_sift_child heap K f (frame_pl f) cz Leaf (frame_addr f) Leaf with "HK [Hf Hs Hz]"); [done|done| |].
    { rewrite rep_fill1 rep_br /frame_rep /=. own. }
    iIntros "HK HT". rewrite rep_br. iDestruct "HT" as "(_ & Hx & _)". iApply ("HΦ" with "HK").
    by destruct f.
  - iEval (rewrite rep_fill1 rep_plug rep_br ptr_plug) in "HT".
    iDestruct "HT" as "[(%Hf & Hf & Hs) [HK2 (%Hz & Hz & _)]]". simpl inptr. wp_steps.
    iDestruct (path_parent_ne with "HK Hz") as %Hpz; [done|]. destruct (Z.eqb_spec (inptr K 0) z); [done|]. wp_steps.
    iDestruct (frames_addr_ne with "HK2 Hf") as %Hgf. destruct (Z.eqb_spec (frame_addr g) (frame_addr f)); [done|]. wp_steps.
    iDestruct "HK2" as "[(%Hg & Hg & Hgs) HK2]". iDestruct (path_parent_ne with "HK Hg") as %Hpg; [done|].
    destruct (Z.eqb_spec (inptr K 0) (frame_addr g)); [done|]. wp_steps.
    iApply (wp_relink_parent with "Hf HK"); [done|]. iIntros "Hf HK".
    rewrite {1}/relink_parent. destruct (Z.eqb_spec (frame_addr g) 0); [done|].
    iApply (wp_replace_child g with "Hz [Hg Hgs]"); [done|by iFrame|]. iIntros "Hz Hg".
    wp_steps. iApply wp_link_null. wp_steps. iApply wp_link_null. wp_steps.
    change (outptr (g :: K2) (ptr (Br cz Leaf z Leaf))) with (outptr (g :: K2) (frame_addr f)).
    iApply (wp_link_sides f g K2 (frame_addr f) (frame_addr f) z with "[Hg HK2] Hs"); [by iFrame|].
    iIntros "HK2 Hs". iApply ("HΦ" with "[HK HK2 Hz Hs]"); [|by iFrame].
    rewrite path_app path_cons. destruct f as [c x r|c l x]; simpl; own.
Qed.

(** The node of a frame, given the pointers on the side of the hole and on the
    other side. *)
Definition fnode f (h o par : Z) : iProp Σ :=
  node (frame_addr f) (frame_pl f) (if is_right f then o else h) (if is_right f then h else o) par.
Lemma fnode_mirror f u h o par : fnode (mirror f u) o h par = fnode f h o par.
Proof. by destruct f. Qed.

(** A node below the frame [f] is replaced. *)
Lemma wp_replace_below {B} heap f K old new o par v (k : unit -> prog timer_cell B) Φ :
  old <> 0 -> (K = [] -> o <> old) -> frame_addr f <> 0 -> pointsto old (DfracOwn 1) v -∗
  fnode f (outptr K old) o par -∗ frames_rep K old (frame_addr f) -∗
  (pointsto old (DfracOwn 1) v -∗ fnode f (outptr K new) o par -∗ frames_rep K new (frame_addr f) -∗ wp (k tt) Φ) -∗
  wp (relink_parent heap (inptr K (frame_addr f)) old new ≫= k) Φ.
Proof.
  iIntros (Hold Hs Hf) "Hv Hf HK HΦ". rewrite /relink_parent /fnode. destruct K as [|g K]; simpl inptr.
  - destruct (Z.eqb_spec (frame_addr f) 0); [done|]. rewrite /replace_child. wp_steps. destruct f as [c x r|c l x]; simpl.
    + rewrite Z.eqb_refl. wp_steps. iApply ("HΦ" with "Hv Hf HK").
    + destruct (Z.eqb_spec o old); [by destruct Hs|]. wp_steps. rewrite Z.eqb_refl. wp_steps. iApply ("HΦ" with "Hv Hf HK").
  - iDestruct "HK" as "[Hg HK]". iAssert ⌜frame_addr g <> 0⌝%I as %Hg; [by iDestruct "Hg" as "[% _]"|].
    destruct (Z.eqb_spec (frame_addr g) 0); [done|].
    iApply (wp_replace_child g with "Hv Hg"); [done|]. iIntros "Hv Hg". iApply ("HΦ" with "Hv Hf"). by iFrame.
Qed.

(** The parents of two holes below one frame differ unless both holes are its
    children. *)
Lemma parents_differ K1 K2 x z a v :
  K1 <> [] \/ K2 <> [] -> pointsto a (DfracOwn 1) v -∗ frames_rep K1 x a -∗ frames_rep K2 z a -∗
  ⌜inptr K1 a <> inptr K2 a⌝.
Proof.
  iIntros (Hne) "Ha H1 H2". destruct K1 as [|f1 K1], K2 as [|f2 K2]; simpl inptr.
  - by destruct Hne.
  - iDestruct (frames_addr_ne with "H2 Ha") as %?. iPureIntro. congruence.
  - iApply (frames_addr_ne with "H1 Ha").
  - iDestruct "H2" as "[(_ & Hf & _) _]". iApply (frames_addr_ne with "H1 Hf").
Qed.

(** The parent pointers of [x] and [z] and the pointers to them. *)
Lemma wp_swap_pointers {B} heap f K1 K2 x z v w par (k : unit -> prog timer_cell B) Φ :
  x <> 0 -> z <> 0 -> frame_addr f <> 0 -> outptr K1 x <> z -> outptr K2 z <> x ->
  pointsto x (DfracOwn 1) v -∗ pointsto z (DfracOwn 1) w -∗ fnode f (outptr K1 x) (outptr K2 z) par -∗
  frames_rep K1 x (frame_addr f) -∗ frames_rep K2 z (frame_addr f) -∗
  (pointsto x (DfracOwn 1) v -∗ pointsto z (DfracOwn 1) w -∗ fnode f (outptr K1 z) (outptr K2 x) par -∗
   frames_rep K1 z (frame_addr f) -∗ frames_rep K2 x (frame_addr f) -∗ wp (k tt) Φ) -∗
  wp ((if inptr K1 (frame_addr f) =? inptr K2 (frame_addr f) then
         tmp ← field nleft (inptr K1 (frame_addr f));
         r ← field nright (inptr K1 (frame_addr f));
         _ ← set_left (inptr K1 (frame_addr f)) r;
         set_right (inptr K1 (frame_addr f)) tmp
       else
         _ ← relink_parent heap (inptr K1 (frame_addr f)) x z;
         relink_parent heap (inptr K2 (frame_addr f)) z x) ≫= k) Φ.
Proof.
  iIntros (Hx Hz Hf Hxz Hzx) "Hx Hz Hf HK1 HK2 HΦ".
  destruct (decide (K1 <> [] \/ K2 <> [])) as [Hne|Hne].
  - iDestruct (parents_differ K1 K2 with "Hf HK1 HK2") as %Hp; [done|].
    destruct (Z.eqb_spec (inptr K1 (frame_addr f)) (inptr K2 (frame_addr f))); [done|]. wp_steps.
    iApply (wp_replace_below with "Hx Hf HK1"); [done|done|done|]. iIntros "Hx Hf HK1".
    rewrite -(fnode_mirror f Leaf (outptr K1 z) (outptr K2 z)).
    replace (frame_addr f) with (frame_addr (mirror f Leaf)) by (by destruct f).
    iApply (wp_replace_below heap (mirror f Leaf) with "Hz Hf HK2"); [done| |by destruct f|].
    { intros ->. destruct K1 as [|g K1]; [by destruct Hne|done]. }
    iIntros "Hz Hf HK2". rewrite fnode_mirror. replace (frame_addr (mirror f Leaf)) with (frame_addr f) by (by destruct f).
    iApply ("HΦ" with "Hx Hz Hf HK1 HK2").
  - assert (K1 = [] /\ K2 = []) as [-> ->] by (destruct K1, K2; naive_solver). simpl.
    rewrite Z.eqb_refl /fnode. wp_steps. destruct f; simpl; iApply ("HΦ" with "Hx Hz Hf"); done.
Qed.

(** The first and the last node of a path are not an owned node outside it. *)
Lemma inptr_ne K x a v q w :
  pointsto a (DfracOwn 1) v -∗ frames_rep K x a -∗ pointsto q (DfracOwn 1) w -∗ ⌜inptr K a <> q⌝.
Proof.
  iIntros "Ha HK Hq". destruct K as [|f K]; [iApply (cells_differ with "Ha Hq")|iApply (frames_addr_ne with "HK Hq")].
Qed.
Lemma outptr_cell_ne K x v top q w :
  pointsto x (DfracOwn 1) v -∗ frames_rep K x top -∗ pointsto q (DfracOwn 1) w -∗ ⌜outptr K x <> q⌝.
Proof.
  revert x v. induction K as [|f K IH]; intros x v; iIntros "Hx HK Hq"; [iApply (cells_differ with "Hx Hq")|].
  simpl. iDestruct "HK" as "[(_ & Hf & _) HK]". iApply (IH with "Hf HK Hq").
Qed.

(** [x] and the leaf [z] are on two sides of [f]. *)
Lemma wp_swap_apart {B} heap K0 f K1 K2 c l x r cz z (k : unit -> prog timer_cell B) Φ :
  frame_sib f = plug K2 (Br cz Leaf z Leaf) ->
  path heap (K1 ++ f :: K0) x -∗ rep (inptr (K1 ++ f :: K0) 0) (Br c l x r) -∗
  (path heap (K2 ++ mirror f (plug K1 (Br cz l z r)) :: K0) x -∗
   node x c 0 0 (inptr (K2 ++ mirror f (plug K1 (Br cz l z r)) :: K0) 0) -∗ wp (k tt) Φ) -∗
  wp (timer_linkheap_swap heap x z ≫= k) Φ.
Proof.
  iIntros (Hs) "HK HT HΦ". rewrite !path_app !path_cons !inptr_app. simpl inptr.
  replace (frame_addr (mirror f _)) with (frame_addr f) by (by destruct f).
  iDestruct "HK" as "[HK1 [(%Hf & Hf & Hs) HK]]". rewrite Hs. iEval (rewrite rep_plug rep_br) in "Hs".
  iDestruct "Hs" as "[HK2 (%Hz & Hz & _)]". rewrite rep_br. iDestruct "HT" as "(%Hx & Hx & Hl & Hr)". simpl ptr.
  iAssert (fnode f (outptr K1 x) (outptr K2 z) (inptr K0 0)) with "[Hf]" as "Hf".
  { rewrite /fnode. destruct f; simpl in *; rewrite Hs ptr_plug; by iFrame. }
  iDestruct (inptr_ne K1 with "Hf HK1 Hz") as %Hp1. iDestruct (inptr_ne K2 with "Hf HK2 Hx") as %Hp2.
  iDestruct (outptr_cell_ne K1 with "Hx HK1 Hz") as %Ho1. iDestruct (outptr_cell_ne K2 with "Hz HK2 Hx") as %Ho2.
  rewrite /timer_linkheap_swap. wp_steps. destruct (Z.eqb_spec (inptr K1 (frame_addr f)) z); [done|]. wp_steps.
  destruct (Z.eqb_spec (inptr K2 (frame_addr f)) x); [done|]. wp_steps.
  iApply (wp_swap_pointers with "Hx Hz Hf HK1 HK2"); [done..|]. iIntros "Hx Hz Hf HK1 HK2". wp_steps.
  iApply wp_link_null. wp_steps. iApply wp_link_null. wp_steps.
  iApply (wp_link_child with "Hl"); [done|]. iIntros "Hl". wp_steps.
  iApply (wp_link_child with "Hr"); [done|]. iIntros "Hr". iApply ("HΦ" with "[HK HK1 HK2 Hf Hz Hl Hr] Hx").
  iFrame "HK2 HK". iAssert (rep (frame_addr f) (plug K1 (Br cz l z r))) with "[HK1 Hz Hl Hr]" as "HT".
  { rewrite rep_plug rep_br. own. }
  rewrite /fnode /frame_rep. destruct f; simpl; rewrite ptr_plug; own.
Qed.
End linkheap_swap.

(** ** Without the last node *)

Definition with_sib f s : frame Z := match f with FL c x _ => FL c x s | FR c _ x => FR c s x end.

Lemma heap_ok_prune lb K t : heap_ok lb (plug K t) -> heap_ok lb (plug K Leaf).
Proof.
  revert lb. induction K as [|f K IH] using rev_ind; intros lb; [done|]. rewrite !plug_app. simpl.
  rewrite !heap_fill1. intros (? & ? & ?). auto.
Qed.
Lemma entries_length t : length (entries t) = tsize t.
Proof. induction t as [|c l IHl x r IHr]; simpl; [done|]. rewrite length_app. lia. Qed.
Lemma entries_fill1 f t : entries (fill1 f t) ≡ₚ (frame_addr f, frame_pl f) :: entries t ++ entries (frame_sib f).
Proof. destruct f; simpl; solve_Permutation. Qed.
Lemma same_shape_fill1 f f' t s :
  is_right f = is_right f' -> same_shape (frame_sib f) (frame_sib f') -> same_shape t s -> same_shape (fill1 f t) (fill1 f' s).
Proof. destruct f, f'; simpl; done. Qed.
Lemma tsize_fill1 f t : tsize (fill1 f t) = S (tsize t + tsize (frame_sib f)).
Proof. destruct f; simpl; lia. Qed.
Lemma tsize_prune K c x : tsize (plug K (Br c Leaf x Leaf)) = S (tsize (plug K Leaf)).
Proof.
  induction K as [|f K IH] using rev_ind; [done|]. rewrite !plug_app /= !tsize_fill1 IH. lia.
Qed.
Lemma same_shape_sym t s : same_shape t s -> same_shape s t.
Proof. revert s. induction t as [|c l IHl x r IHr]; intros [|]; simpl; naive_solver. Qed.
Lemma posK_app K2 f f' K : is_right f = is_right f' -> posK (K2 ++ f :: K) = posK (K2 ++ f' :: K).
Proof. intros E. induction K2 as [|[] K2 IH]; simpl; [by destruct f, f'|by rewrite IH..]. Qed.
Lemma heapK_with_sib K1 f s K0 :
  heap_ok (frame_pl f) s -> heapK (K1 ++ f :: K0) -> heapK (K1 ++ with_sib f s :: K0).
Proof.
  intros Hs. assert (frame_pl (with_sib f s) = frame_pl f) as E by (by destruct f).
  induction K1 as [|g K1 IH]; simpl.
  - rewrite E. intros (_ & ? & ?). split_and!; try done. by destruct f.
  - intros (? & Ha & ?). split_and!; [done| |by apply IH]. destruct K1; simpl in *; by rewrite ?E.
Qed.
Lemma above_with_sib K1 f s K0 c : above (K1 ++ f :: K0) c -> above (K1 ++ with_sib f s :: K0) c.
Proof. destruct K1; simpl; [by destruct f|done]. Qed.

Lemma leaf_plug K cz z c l x r : Br cz Leaf z Leaf = plug K (Br c l x r) -> K = [] /\ c = cz /\ x = z /\ l = Leaf /\ r = Leaf.
Proof.
  destruct (snoc_cases K) as [->|(K' & f & ->)]; [simpl; naive_solver|].
  assert (forall K' t', plug K' (Br c l x r) <> Leaf) as Hne.
  { intros K2 _ E. apply (f_equal tsize) in E. pose proof (tsize_plug K2 (Br c l x r)). simpl in *. lia. }
  rewrite plug_app. destruct f as [cf xf rf|cf lf xf]; simpl; intros E; injection E; intros.
  - destruct (Hne K' Leaf). done.
  - destruct (Hne K' Leaf). done.
Qed.

(** What the swap makes of the tree: [x] stands at the last place, and without
    it the tree is in order up to [z], which stands where [x] was. *)
Definition swapped t n x c z cz (es : list (Z * Z)) Kx : Prop :=
  Kx <> [] /\ posK Kx = n /\ complete n (plug Kx (Br c Leaf x Leaf)) /\ entries (plug Kx Leaf) ≡ₚ es /\
  tsize (plug Kx Leaf) = pred (tsize t) /\
  exists K4 l4 r4, plug Kx Leaf = plug K4 (Br cz l4 z r4) /\ heapK K4 /\ above K4 c /\ heap_ok c l4 /\ heap_ok c r4.

Lemma swapped_intro t n x c z cz es Kx K4 l4 r4 :
  Kx <> [] -> posK Kx = n -> complete n t -> same_shape t (plug Kx (Br c Leaf x Leaf)) ->
  entries t ≡ₚ (x, c) :: es -> entries t ≡ₚ (x, c) :: entries (plug Kx Leaf) ->
  plug Kx Leaf = plug K4 (Br cz l4 z r4) -> heapK K4 -> above K4 c -> heap_ok c l4 -> heap_ok c r4 ->
  swapped t n x c z cz es Kx.
Proof.
  intros Hne Hp Hc Hs He He' E HK Ha Hl Hr. split; [done|]. split; [done|]. split; [by eapply occ_shape|].
  split; [|split; [|by exists K4, l4, r4]].
  - rewrite He in He'. by apply Permutation_cons_inv in He'.
  - apply Permutation_length in He'. simpl in He'. rewrite !entries_length in He'. lia.
Qed.

Lemma swapped_below n K f K2 cz z es :
  heap_ordered (plug K (fill1 f (plug K2 (Br cz Leaf z Leaf)))) ->
  complete n (plug K (fill1 f (plug K2 (Br cz Leaf z Leaf)))) -> posK (K2 ++ f :: K) = n ->
  entries (plug K (fill1 f (plug K2 (Br cz Leaf z Leaf)))) ≡ₚ (frame_addr f, frame_pl f) :: es ->
  swapped (plug K (fill1 f (plug K2 (Br cz Leaf z Leaf)))) n (frame_addr f) (frame_pl f) z cz es
    (K2 ++ frame_with f cz z :: K).
Proof.
  intros Ho Hc Hp He. apply heap_plug_elim in Ho as (HK & lb & Ha & (Hlb & Hs & Ht)%heap_fill1).
  apply heap_ok_prune in Ht.
  assert (plug (K2 ++ frame_with f cz z :: K) Leaf = plug K (fill1 (frame_with f cz z) (plug K2 Leaf))) as E.
  { by rewrite plug_app. }
  apply (swapped_intro _ _ _ _ _ _ _ _ K (if is_right f then frame_sib f else plug K2 Leaf)
    (if is_right f then plug K2 Leaf else frame_sib f)); try done.
  - by destruct K2.
  - rewrite -Hp. apply posK_app. by destruct f.
  - rewrite plug_app. simpl. apply same_shape_plug, same_shape_fill1; [by destruct f|destruct f; apply same_shape_refl|].
    by apply same_shape_plug.
  - rewrite E !entries_plug !entries_fill1 !entries_plug /=. destruct f; simpl; solve_Permutation.
  - rewrite E. by destruct f.
  - by apply (above_mono _ lb).
  - by destruct f.
  - by destruct f.
Qed.

Lemma swapped_apart n K0 f K1 K2 c l x r cz z es :
  frame_sib f = plug K2 (Br cz Leaf z Leaf) ->
  heap_ordered (plug (K1 ++ f :: K0) (Br c l x r)) -> complete n (plug (K1 ++ f :: K0) (Br c l x r)) ->
  posK (K2 ++ mirror f (plug K1 (Br c l x r)) :: K0) = n ->
  entries (plug (K1 ++ f :: K0) (Br c l x r)) ≡ₚ (x, c) :: es ->
  swapped (plug (K1 ++ f :: K0) (Br c l x r)) n x c z cz es (K2 ++ mirror f (plug K1 (Br cz l z r)) :: K0).
Proof.
  intros Hsib Ho Hc Hp He. apply heap_plug_elim in Ho as (HK & lb & Ha & Hlb & Hl & Hr).
  assert (plug (K2 ++ mirror f (plug K1 (Br cz l z r)) :: K0) Leaf =
    plug (K1 ++ with_sib f (plug K2 Leaf) :: K0) (Br cz l z r)) as E.
  { rewrite !plug_app. simpl. by destruct f. }
  assert (heap_ok (frame_pl f) (frame_sib f)) as Hs.
  { clear -HK. induction K1 as [|g K1 IH]; simpl in HK; [tauto|]. apply IH. tauto. }
  apply (swapped_intro _ _ _ _ _ _ _ _ (K1 ++ with_sib f (plug K2 Leaf) :: K0) l r); try done.
  - by destruct K2.
  - rewrite -Hp. apply posK_app. by destruct f.
  - rewrite !plug_app. simpl. apply same_shape_plug.
    assert (same_shape (plug K1 (Br c l x r)) (plug K1 (Br cz l z r)) /\
      same_shape (plug K2 (Br cz Leaf z Leaf)) (plug K2 (Br c Leaf x Leaf))) as [? ?].
    { split; apply same_shape_plug; simpl; auto using same_shape_refl. }
    destruct f; simpl in *; subst; done.
  - rewrite E !plug_app. simpl. rewrite !entries_plug !entries_fill1 !entries_plug Hsib !entries_plug /=.
    destruct f; simpl; rewrite entries_plug /=; solve_Permutation.
  - apply heapK_with_sib; [|done]. rewrite Hsib in Hs. by apply heap_ok_prune in Hs.
  - apply above_with_sib. by apply (above_mono _ lb).
Qed.

(** ** Removal *)

Section linkheap_remove.
Context `{!gen_heapGS Z timer_cell Σ}.

(** The pointer to the last node is cleared. *)
Lemma wp_unlink_last {B} heap Kx x c n (k : unit -> prog timer_cell B) Φ :
  x <> 0 -> Kx <> [] -> posK Kx = n -> complete n (plug Kx (Br c Leaf x Leaf)) ->
  path heap Kx x -∗ node x c 0 0 (inptr Kx 0) -∗
  (tree_rep heap (plug Kx Leaf) -∗ node x c 0 0 (inptr Kx 0) -∗ wp (k tt) Φ) -∗
  wp ((pl ← field nleft (inptr Kx 0);
       if pl =? x then pr ← field nright (inptr Kx 0); if negb (pr =? 0) then abort else set_left (inptr Kx 0) 0
       else pr ← field nright (inptr Kx 0); if pr =? x then set_right (inptr Kx 0) 0 else abort) ≫= k) Φ.
Proof.
  iIntros (Hx Hne Hp Hc) "HK Hx HΦ". destruct Kx as [|g K]; [done|]. simpl inptr. rewrite tree_rep_plug path_cons.
  iDestruct "HK" as "[(%Hg & Hg & Hs) HK]". apply occ_plug in Hc as [(Hq & Hsib & _) _]. wp_steps.
  destruct g as [cg y s|cg s y]; simpl in *.
  - rewrite Z.eqb_refl. wp_steps. assert (s = Leaf) as -> by (destruct s; [done|]; simpl in Hsib; lia).
    simpl ptr. rewrite Z.eqb_refl. cbn [negb]. wp_steps. iApply ("HΦ" with "[Hg HK] Hx"). rewrite path_cons. own.
  - iDestruct (rep_ptr_ne with "Hs Hx") as %Hsx; [done|]. destruct (Z.eqb_spec (ptr s) x); [done|]. wp_steps.
    rewrite Z.eqb_refl. wp_steps. iApply ("HΦ" with "[Hg HK Hs] Hx"). rewrite path_cons. own.
Qed.

Lemma wp_remove_tail {B} fuel heap t n x c z cz es Kx (k : unit -> prog timer_cell B) Φ :
  (tsize t < fuel)%nat -> x <> 0 -> 1 <= n < 18446744073709551616 -> swapped t n x c z cz es Kx ->
  path heap Kx x -∗ node x c 0 0 (inptr Kx 0) -∗ pointsto (size_field heap) (DfracOwn 1) (Root n) -∗
  (heap_of heap (n - 1) es -∗ wp (k tt) Φ) -∗
  wp ((parent ← field nparent x;
       pl ← field nleft parent;
       _ ← (if pl =? x then pr ← field nright parent; if negb (pr =? 0) then abort else set_left parent 0
            else pr ← field nright parent; if pr =? x then set_right parent 0 else abort);
       _ ← set_parent x 0;
       tl ← field nleft x;
       tr ← field nright x;
       if negb (tl =? 0) || negb (tr =? 0) then abort
       else _ ← decr_size heap; sift fuel heap z) ≫= k) Φ.
Proof.
  iIntros (Hf Hx Hn (Hne & Hp & Hc & He & Hsz & K4 & l4 & r4 & E & HK & Ha & Hl & Hr)) "HK Hx Hn HΦ".
  assert (complete (n - 1) (plug Kx Leaf)) as Hc'.
  { apply (complete_grow (n - 1) Kx c x); [lia|lia|]. by replace (n - 1 + 1) with n by lia. }
  iApply wp_assoc. wp_step. iApply wp_assoc.
  iApply (wp_proper (((pl ← field nleft (inptr Kx 0);
     if pl =? x then pr ← field nright (inptr Kx 0); if negb (pr =? 0) then abort else set_left (inptr Kx 0) 0
     else pr ← field nright (inptr Kx 0); if pr =? x then set_right (inptr Kx 0) 0 else abort) ≫= fun _ =>
       (_ ← set_parent x 0; tl ← field nleft x; tr ← field nright x;
        if negb (tl =? 0) || negb (tr =? 0) then abort
        else _ ← decr_size heap; sift fuel heap z) ≫= k))).
  { intros H. rewrite prog_assoc. apply prog_ext. intros pl H'. by rewrite prog_assoc. }
  iApply (wp_unlink_last heap Kx x c n with "HK Hx"); [done..|]. iIntros "HT Hx". wp_steps. cbn [Z.eqb negb orb]. wp_steps.
  iApply (wp_decr_size with "Hn"); [done|]. iIntros "Hn". wp_steps. rewrite E tree_rep_plug. iDestruct "HT" as "[HK HT]".
  iApply (wp_heap_sift fuel heap K4 cz l4 z r4 c (plug Kx Leaf) es with "HK HT"); try done.
  - rewrite -E. lia.
  - rewrite E in Hc'. apply occ_plug in Hc' as [_ Hc']. by apply (occ_left_first (n - 1) (posK K4)); [apply posK_pos|].
  - rewrite E. apply same_shape_refl.
  - by rewrite -He E.
  - iIntros "HT". iApply "HΦ". iApply (heap_like_of with "HT Hn"). done.
Qed.

(** The timer is the last one. *)
Lemma wp_remove_last {B} heap K c x n (k : unit -> prog timer_cell B) Φ :
  heap_ordered (plug K (Br c Leaf x Leaf)) -> complete n (plug K (Br c Leaf x Leaf)) -> posK K = n ->
  1 <= n < 18446744073709551616 ->
  path heap K x -∗ rep (inptr K 0) (Br c Leaf x Leaf) -∗ pointsto (size_field heap) (DfracOwn 1) (Root n) -∗
  (heap_of heap (n - 1) (entriesK K) -∗ wp (k tt) Φ) -∗
  wp ((parent ← field nparent x;
       _ ← (if negb (parent =? 0) then replace_child parent x 0 else set_root heap 0);
       decr_size heap) ≫= k) Φ.
Proof.
  iIntros (Ho Hc Hp Hn) "HK HT Hn HΦ". rewrite rep_br. iDestruct "HT" as "(%Hx & Hx & _)". wp_steps.
  iAssert (path heap K 0 -∗ pointsto (size_field heap) (DfracOwn 1) (Root (n - 1)) -∗ wp (k tt) Φ)%I with "[HΦ]" as "HΦ".
  { iIntros "HK Hn". iApply "HΦ". iExists (plug K Leaf). rewrite tree_rep_plug. iFrame. iPureIntro.
    split; [|split; [|by rewrite entries_plug]].
    - apply heap_plug_elim in Ho as (HK & lb & Ha & _). by eapply heap_plug_intro.
    - apply (complete_grow (n - 1) K c x); [lia|lia|]. by replace (n - 1 + 1) with n by lia. }
  destruct K as [|g K]; simpl inptr.
  - cbn [Z.eqb negb]. iDestruct "HK" as "[HK Hroot]". simpl outptr. wp_steps.
    iApply (wp_decr_size with "Hn"); [done|]. iIntros "Hn". iApply ("HΦ" with "[HK Hroot] Hn"). own.
  - rewrite path_cons. iDestruct "HK" as "[Hg HK]". iAssert ⌜frame_addr g <> 0⌝%I as %Hg; [by iDestruct "Hg" as "[% _]"|].
    destruct (Z.eqb_spec (frame_addr g) 0); [done|]. cbn [negb]. wp_steps.
    iApply (wp_replace_child with "Hx Hg"); [done|]. iIntros "Hx Hg". wp_steps.
    iApply (wp_decr_size with "Hn"); [done|]. iIntros "Hn". iApply ("HΦ" with "[HK Hg] Hn"). rewrite path_cons. iFrame.
Qed.

(** The swap with the last node, wherever the two are. *)
Lemma wp_swap_last {B} heap K c l x r Kz cz z n (k : unit -> prog timer_cell B) Φ :
  plug K (Br c l x r) = plug Kz (Br cz Leaf z Leaf) -> x <> z -> posK Kz = n ->
  heap_ordered (plug K (Br c l x r)) -> complete n (plug K (Br c l x r)) ->
  tree_rep heap (plug K (Br c l x r)) -∗
  (∀ Kx, ⌜swapped (plug K (Br c l x r)) n x c z cz (entries l ++ entries r ++ entriesK K) Kx⌝ -∗
    path heap Kx x -∗ node x c 0 0 (inptr Kx 0) -∗ wp (k tt) Φ) -∗
  wp (timer_linkheap_swap heap x z ≫= k) Φ.
Proof.
  iIntros (E Hxz Hp Ho Hc) "HT HΦ".
  assert (entries (plug K (Br c l x r)) ≡ₚ (x, c) :: entries l ++ entries r ++ entriesK K) as He.
  { rewrite entries_plug /=. by rewrite -app_assoc. }
  destruct (plug_compare _ K (Br c l x r) Kz (Br cz Leaf z Leaf) eq_refl E)
    as [(K2 & _ & E2)|[(K2 & -> & E2)|(K1 & f & K2 & K0 & -> & -> & Hs)]].
  - apply leaf_plug in E2 as (_ & _ & -> & _). done.
  - destruct (snoc_cases K2) as [->|(K2' & f & ->)]; [simpl in E2; by injection E2 as _ _ -> _|].
    rewrite plug_app in E2. simpl in E2. rewrite -app_assoc in Hp. simpl in Hp.
    assert (frame_addr f = x /\ frame_pl f = c) as [<- <-] by (destruct f; simpl in E2; by injection E2 as -> _ -> _).
    rewrite E2 in Ho, Hc, He |- *. rewrite tree_rep_plug. iDestruct "HT" as "[HK HT]".
    replace (ptr (fill1 f _)) with (frame_addr f) by (by destruct f).
    iApply (wp_swap_below with "HK HT"). iIntros "HK Hx". iApply ("HΦ" with "[%] HK Hx"). by apply swapped_below.
  - rewrite tree_rep_plug. iDestruct "HT" as "[HK HT]".
    iApply (wp_swap_apart with "HK HT"); [done|]. iIntros "HK Hx". iApply ("HΦ" with "[%] HK Hx"). by apply swapped_apart.
Qed.

Lemma wp_linkheap_remove {B} fuel heap K c l x r n (k : unit -> prog timer_cell B) Φ :
  (tsize (plug K (Br c l x r)) < fuel)%nat -> heap_ordered (plug K (Br c l x r)) -> complete n (plug K (Br c l x r)) ->
  n < 18446744073709551616 ->
  tree_rep heap (plug K (Br c l x r)) -∗ pointsto (size_field heap) (DfracOwn 1) (Root n) -∗
  (heap_of heap (n - 1) (entries l ++ entries r ++ entriesK K) -∗ wp (k tt) Φ) -∗
  wp (timer_linkheap_remove fuel heap x ≫= k) Φ.
Proof.
  iIntros (Hf Ho Hc Hn) "HT Hn HΦ". rewrite /timer_linkheap_remove /timer_linkheap_last. wp_steps.
  iDestruct (tree_rep_addrs with "HT") as %(Hnd & H0 & _).
  assert (x <> 0) as Hx.
  { intros ->. apply H0, in_plug. simpl. rewrite elem_of_app elem_of_cons. auto. }
  assert (1 <= n) as Hn1.
  { pose proof Hc as [_ [Hq _]]%occ_plug. pose proof (posK_pos K). lia. }
  destruct (complete_place n _ n Hc) as (Kz & cz & lz & z & rz & E & Hp); [lia|].
  pose proof Hc as Hcz. rewrite E in Hcz. apply occ_plug in Hcz as (_ & _ & Hlz & Hrz). rewrite Hp in Hlz, Hrz.
  assert (lz = Leaf /\ rz = Leaf) as [-> ->].
  { destruct lz, rz; simpl in Hlz, Hrz; (split; [done || lia|done || lia]). }
  assert (length Kz < fuel)%nat.
  { pose proof (tsize_plug Kz (Br cz Leaf z Leaf)) as Hsz. rewrite -E in Hsz. lia. }
  rewrite {1}E. iApply (wp_nth fuel heap Kz with "HT"); [done|lia|rewrite /u64 Z.mod_small; lia|].
  iIntros "HT". simpl ptr. rewrite tree_rep_plug. iDestruct "HT" as "[HK HT]".
  rewrite rep_br. iDestruct "HT" as "(%Hz & Hz & _)". destruct (Z.eqb_spec z 0); [done|]. wp_steps. cbn [ptr Z.eqb negb orb].
  destruct (Z.eqb_spec x z) as [->|Hxz].
  - destruct (place_unique _ _ _ _ _ _ _ _ _ Hnd E) as (-> & -> & -> & ->).
    iApply (wp_remove_last heap Kz cz z n with "HK [Hz] Hn"); [done..|lia|own|]. done.
  - iAssert (tree_rep heap (plug K (Br c l x r))) with "[HK Hz]" as "HT".
    { rewrite E tree_rep_plug rep_br. own. }
    wp_steps. iApply (wp_swap_last heap K c l x r Kz cz z n with "HT"); [done..|]. iIntros (Kx Hsw) "HK Hx".
    cbv beta. iApply (wp_remove_tail fuel heap _ n x c z cz _ Kx with "HK Hx Hn HΦ"); done.
Qed.
End linkheap_remove.
