(* ===== verification/LinkTimers.v ===== *)
(** The link heap as a timer library: its operations refine those on the map
    of the timers that are set. *)
From iris.proofmode Require Import coq_tactics reduction proofmode.
From iris.base_logic.lib Require Import gen_heap.
From S2P Require Import Prelude Heap PTree PExchange PPlaces Timers LinkHeap LinkHeapOps LinkHeapSpec LinkHeapRemove.

Implicit Types (t l r s : theap) (K : list (frame Z)) (f : frame Z) (H : gmap Z timer_cell).

(** ** The operations keep nodes *)

Lemma keeps_relink heap p x y : KeepsNodes (relink_parent heap p x y).
Proof. unfold relink_parent. keeps. Qed.
#[export] Hint Resolve keeps_relink : keeps_db.
Lemma keeps_swap_parentchild heap p c : KeepsNodes (timer_linkheap_swap_parentchild heap p c).
Proof. unfold timer_linkheap_swap_parentchild, time64. keeps. Qed.
#[export] Hint Resolve keeps_swap_parentchild : keeps_db.
Lemma keeps_sift fuel heap x : KeepsNodes (sift fuel heap x).
Proof.
  unfold sift, timer_linkheap_siftdown, timer_linkheap_siftup, siftdown_step, siftup_step, time64. keeps.
Qed.
#[export] Hint Resolve keeps_sift : keeps_db.
Lemma keeps_nth fuel heap n : KeepsNodes (timer_linkheap_nth fuel heap n).
Proof.
  assert (forall p x, KeepsNodes (nth_walk p x)) as Hw.
  { induction p as [|b p IH]; intros x; simpl; keeps. }
  unfold timer_linkheap_nth. apply keeps_bind; [|keeps].
  apply keeps_loop. intros [k q]. unfold nth_path_step. keeps.
Qed.
#[export] Hint Resolve keeps_nth : keeps_db.
Lemma keeps_add fuel heap x : KeepsNodes (timer_linkheap_add fuel heap x).
Proof.
  unfold timer_linkheap_add, timer_linkheap_last_plus_one_parent, incr_size, timer_linkheap_siftup, siftup_step, time64.
  keeps.
Qed.
#[export] Hint Resolve keeps_add : keeps_db.
Lemma keeps_remove fuel heap x : KeepsNodes (timer_linkheap_remove fuel heap x).
Proof.
  unfold timer_linkheap_remove, timer_linkheap_last, timer_linkheap_swap, decr_size. keeps.
Qed.
#[export] Hint Resolve keeps_remove : keeps_db.

(** ** Heaps in memory *)

(** The memory holds a heap whose timers are the nodes of [t]. *)
Definition is_linkheap H (heap : Z) t : Prop :=
  is_tree H heap t /\ H !! size_field heap = Some (Root (Z.of_nat (tsize t))) /\
  heap_ordered t /\ complete (Z.of_nat (tsize t)) t.

Lemma complete_size n t : 0 <= n -> complete n t -> Z.of_nat (tsize t) = n.
Proof.
  intros Hn. revert t. pattern n. apply natlike_ind; [| |done].
  - intros [|c l x r]; [done|]. unfold complete. simpl. lia.
  - clear n Hn. intros n Hn IH t Hc. destruct (complete_place (Z.succ n) t (Z.succ n) Hc) as (K & c & l & x & r & -> & Hp); [lia|].
    pose proof Hc as (_ & _ & Hl & Hr)%occ_plug. rewrite Hp in Hl Hr.
    assert (l = Leaf /\ r = Leaf) as [-> ->].
    { destruct l, r; simpl in Hl, Hr; (split; [done || lia|done || lia]). }
    apply (complete_grow n K c x) in Hc; [|lia|lia]. rewrite tsize_prune. specialize (IH _ Hc). lia.
Qed.

(** The cells of a heap. *)
Definition linkheap_cells (heap : Z) t (n : Z) : gmap Z timer_cell := <[size_field heap := Root n]> (tree_cells heap t).

(** A specification of a heap operation, read as a statement about memory. *)
Lemma linkheap_sound {A} (code : prog timer_cell A) H heap (cs : gmap Z timer_cell) n es (P : A -> Prop) :
  0 <= n -> cs ⊆ H ->
  (forall Σ `{!gen_heapGS Z timer_cell Σ}, owns cs ⊢ wp code (fun a => ⌜P a⌝ ∗ heap_of heap n es)) ->
  exists a t' H', code H = Ret (a, H') /\ P a /\ is_linkheap H' heap t' /\ entries t' ≡ₚ es.
Proof.
  intros Hn Hm Hwp.
  destruct (tree_word_sound code H heap (size_field heap) cs (fun a t' v =>
    P a /\ v = n /\ heap_ordered t' /\ complete n t' /\ entries t' ≡ₚ es))
    as (a & t' & v & H' & E & (HP & -> & Ho & Hc & He) & Ht & Hv); [done| |].
  - intros Σ HΣ. iIntros "Hm". iDestruct (Hwp Σ with "Hm") as "Hwp". iApply (wp_wand with "Hwp").
    iIntros (a) "(%HP & %t' & (%Ho & %Hc & %He) & HT & Hn)". iExists t', n. by iFrame.
  - exists a, t', H'. unfold is_linkheap. rewrite (complete_size n t') //.
Qed.

(** ** The library *)

Section library.
Context (fuel : nat) (heap : Z).

Definition link_do (op : timer_op) : prog timer_cell (Z * Z) :=
  match op with
  | TAdd x c => _ ← set_payload x c; _ ← timer_linkheap_add fuel heap x; mret (0, 0)
  | TRemove x => _ ← timer_linkheap_remove fuel heap x; mret (0, 0)
  | TModify x c => _ ← set_payload x c; _ ← timer_linkheap_modify fuel heap x; mret (0, 0)
  | TNext => x ← timer_linkheap_next_expiry_timer heap; c ← timer_linkheap_next_expiry_time heap; mret (x, c)
  end.

(** Memory with a heap of the timers of [m]; the nodes in [P] are allocated. *)
Definition link_rep (P : gset Z) (m : gmap Z Z) H : Prop :=
  Z.of_nat (size P) < UINT64_MAX /\ (size P + 2 < fuel)%nat /\ dom m ⊆ P /\
  (forall x, x ∈ P -> x <> 0 /\ exists nd, H !! x = Some (Node nd)) /\
  exists t, is_linkheap H heap t /\ entries t ≡ₚ map_to_list m.

Lemma keeps_link_do op : KeepsNodes (link_do op).
Proof.
  destruct op; simpl; unfold timer_linkheap_modify, timer_linkheap_next_expiry_timer, timer_linkheap_next_expiry_time,
    time64; keeps.
Qed.

Lemma heap_sizes P m H t :
  link_rep P m H -> entries t ≡ₚ map_to_list m -> tsize t = size m /\ (size m <= size P)%nat.
Proof.
  intros (_ & _ & Hd & _) He. split.
  - rewrite -entries_length He length_map_to_list //.
  - rewrite -size_dom. by apply subseteq_size.
Qed.

(** A timer that is set is a node of the tree. *)
Lemma timer_place m t x c : entries t ≡ₚ map_to_list m -> m !! x = Some c -> exists K l r, t = plug K (Br c l x r).
Proof.
  intros He Hx. assert ((x, c) ∈ entries t) as Hin by (rewrite He; by apply elem_of_map_to_list).
  clear He Hx. induction t as [|b l IHl y r IHr]; simpl in Hin; [by apply elem_of_nil in Hin|].
  apply elem_of_cons in Hin as [[= <- <-]|[Hin|Hin]%elem_of_app].
  - by exists [], l, r.
  - destruct (IHl Hin) as (K & l' & r' & ->). exists (K ++ [FL b y r]), l', r'. by rewrite plug_app.
  - destruct (IHr Hin) as (K & l' & r' & ->). exists (K ++ [FR b l y]), l', r'. by rewrite plug_app.
Qed.

(** The cells of the heap in memory. *)
Lemma linkheap_cells_sub H t n :
  is_linkheap H heap t -> n = Z.of_nat (tsize t) ->
  linkheap_cells heap t n ⊆ H /\ tree_cells heap t !! size_field heap = None.
Proof.
  intros (Ht & Hn & _) ->. split.
  - apply insert_subseteq_l; [done|]. by destruct Ht.
  - eapply tree_cells_word; [done|done|]. unfold size_field. lia.
Qed.

Lemma owns_linkheap `{!gen_heapGS Z timer_cell Σ} H t n :
  is_linkheap H heap t -> tree_cells heap t !! size_field heap = None ->
  owns (linkheap_cells heap t n) ⊢ tree_rep heap t ∗ pointsto (size_field heap) (DfracOwn 1) (Root n).
Proof.
  intros ((_ & Hnd & H0 & Hh) & _) Hnone. rewrite /linkheap_cells owns_insert // owns_tree //. iIntros "[$ $]".
Qed.

(** After an operation on the timers of [m]. *)
Lemma link_rep_after P m m' H H' op o t' :
  link_rep P m H -> link_do op H = Ret (o, H') -> dom m' ⊆ P -> is_linkheap H' heap t' -> entries t' ≡ₚ map_to_list m' ->
  link_rep P m' H'.
Proof.
  intros (Hs & Hf & _ & HP & _) E Hd Ht He. repeat (split; [done|]). split; [|by exists t'].
  intros x Hx. destruct (HP x Hx) as [? [nd Hnd]]. split; [done|]. by eapply (keeps_link_do op).
Qed.

Lemma link_add_step P m H x c :
  link_rep P m H -> allowed P m (TAdd x c) ->
  exists H', link_do (TAdd x c) H = Ret ((0, 0), H') /\ link_rep P (<[x := c]> m) H'.
Proof.
  intros HR (HxP & Hnew & Hc). pose proof HR as (Hs & Hf & Hd & HP & t & Ht & He).
  destruct (HP x HxP) as (Hx0 & nd & Hx). destruct (heap_sizes P m H t HR He) as [Hsz HsP].
  destruct (linkheap_cells_sub H t _ Ht eq_refl) as [Hsub Hnone].
  assert (x ∉ inorder t) as Hxt.
  { rewrite inorder_entries He. intros ([y d] & -> & Hy%elem_of_map_to_list)%list_elem_of_fmap. simpl in Hnew. congruence. }
  assert (linkheap_cells heap t (Z.of_nat (tsize t)) !! x = None) as Hxn.
  { destruct (linkheap_cells heap t _ !! x) as [w|] eqn:E; [|done]. exfalso.
    pose proof (lookup_weaken _ _ _ _ E Hsub) as E'. rewrite Hx in E'. injection E' as <-.
    unfold linkheap_cells, tree_cells in E. apply lookup_insert_Some in E as [[_ [=]]|[_ E]].
    apply lookup_insert_Some in E as [[_ [=]]|[_ E]]. by rewrite cells_none in E. }
  destruct (linkheap_sound (link_do (TAdd x c)) H heap (<[x := Node nd]> (linkheap_cells heap t (Z.of_nat (tsize t))))
    (Z.of_nat (tsize t) + 1) ((x, c) :: entries t) (fun o => o = (0, 0))) as (o & t' & H' & E & -> & Ht' & He');
    [lia|by apply insert_subseteq_l| |].
  - intros Σ HΣ. rewrite owns_insert // (owns_linkheap H) //. iIntros "(Hx & HT & Hn)". destruct nd as [c0 l0 r0 p0].
    iApply wp_bind_ret. simpl. wp_steps. destruct Ht as (_ & _ & Ho & Hcm).
    iApply (wp_linkheap_add fuel heap t with "HT Hn Hx"); [lia|done|done|unfold UINT64_MAX in *; lia|done|].
    iIntros "HT". wp_steps. iApply wp_ret. by iFrame.
  - exists H'. split; [done|]. eapply link_rep_after; [done|done| |done|].
    + rewrite dom_insert. set_solver.
    + by rewrite He' map_to_list_insert // He.
Qed.

Lemma link_remove_step P m H x c :
  link_rep P m H -> m !! x = Some c ->
  exists H', link_do (TRemove x) H = Ret ((0, 0), H') /\ link_rep P (delete x m) H'.
Proof.
  intros HR Hx. pose proof HR as (Hs & Hf & Hd & HP & t & Ht & He).
  destruct (heap_sizes P m H t HR He) as [Hsz HsP]. destruct (linkheap_cells_sub H t _ Ht eq_refl) as [Hsub Hnone].
  destruct (timer_place m t x c He Hx) as (K & l & r & ->). pose proof (tsize_plug K (Br c l x r)) as Hpl. simpl in Hpl.
  set (t := plug K (Br c l x r)) in *.
  destruct (linkheap_sound (link_do (TRemove x)) H heap (linkheap_cells heap t (Z.of_nat (tsize t)))
    (Z.of_nat (tsize t) - 1) (entries l ++ entries r ++ entriesK K) (fun o => o = (0, 0)))
    as (o & t' & H' & E & -> & Ht' & He'); [lia|done| |].
  - intros Σ HΣ. rewrite (owns_linkheap H) //. iIntros "(HT & Hn)".
    iApply wp_bind_ret. simpl. wp_steps. destruct Ht as (_ & _ & Ho & Hcm).
    iApply (wp_linkheap_remove fuel heap K c l x r with "HT Hn"); [subst t; lia|done|done|unfold UINT64_MAX in *; lia|].
    iIntros "HT". wp_steps. iApply wp_ret. by iFrame.
  - exists H'. split; [done|]. eapply link_rep_after; [done|done| |done|].
    + rewrite dom_delete. set_solver.
    + rewrite He'. apply (Permutation_cons_inv (a := (x, c))). rewrite map_to_list_delete // -He.
      subst t. rewrite entries_plug /=. by rewrite -app_assoc.
Qed.

Lemma link_modify_step P m H x c c' :
  link_rep P m H -> m !! x = Some c ->
  exists H', link_do (TModify x c') H = Ret ((0, 0), H') /\ link_rep P (<[x := c']> m) H'.
Proof.
  intros HR Hx. pose proof HR as (Hs & Hf & Hd & HP & t & Ht & He).
  destruct (heap_sizes P m H t HR He) as [Hsz HsP]. destruct (linkheap_cells_sub H t _ Ht eq_refl) as [Hsub Hnone].
  destruct (timer_place m t x c He Hx) as (K & l & r & ->). set (t := plug K (Br c l x r)) in *.
  destruct (linkheap_sound (link_do (TModify x c')) H heap (linkheap_cells heap t (Z.of_nat (tsize t)))
    (Z.of_nat (tsize t)) (entries (plug K (Br c' l x r))) (fun o => o = (0, 0)))
    as (o & t' & H' & E & -> & Ht' & He'); [lia|done| |].
  - intros Σ HΣ. rewrite (owns_linkheap H) //. iIntros "(HT & Hn)".
    iApply wp_bind_ret. simpl. destruct Ht as (_ & _ & Ho & Hcm).
    iApply (wp_proper ((_ ← set_payload x c'; timer_linkheap_modify fuel heap x) ≫= fun _ => mret (0, 0) ≫= mret)).
    { intros H1. rewrite !(prog_assoc (set_payload x c')). apply prog_ext. intros [] H2. by rewrite (prog_assoc (timer_linkheap_modify fuel heap x)). }
    iApply (wp_linkheap_modify fuel heap K c c' l x r with "HT Hn"); [subst t; lia|done|done|].
    iIntros "HT". wp_steps. iApply wp_ret. by iFrame.
  - exists H'. split; [done|]. eapply link_rep_after; [done|done| |done|].
    + rewrite dom_insert. assert (x ∈ dom m) by (by apply elem_of_dom). set_solver.
    + rewrite He' -insert_delete_eq map_to_list_insert ?lookup_delete_eq // entries_plug /= -app_assoc. constructor.
      apply (Permutation_cons_inv (a := (x, c))). rewrite map_to_list_delete // -He. subst t.
      rewrite entries_plug /=. by rewrite -app_assoc.
Qed.

(** The root is the next timer. *)
Lemma link_next_step P m H :
  link_rep P m H -> exists o H', link_do TNext H = Ret (o, H') /\ qstep m TNext o m /\ link_rep P m H'.
Proof.
  intros HR. pose proof HR as (Hs & Hf & Hd & HP & t & Ht & He). pose proof Ht as ((Hsub & Hnd & H0 & _) & Hn & Ho & Hc).
  assert (H !! heap = Some (Root (ptr t))) as Hroot.
  { eapply lookup_weaken; [|exact Hsub]. apply lookup_insert_eq. }
  simpl. unfold timer_linkheap_next_expiry_timer, timer_linkheap_next_expiry_time, get_root, load, mbind, prog_bind.
  destruct t as [|c l x r]; simpl in Hroot.
  - repeat (rewrite Hroot; simpl). eexists _, H. split; [done|]. split; [|done]. apply q_empty, map_to_list_empty_iff. symmetry. by apply Permutation_nil_l.
  - simpl in H0. rewrite not_elem_of_app not_elem_of_cons in H0. destruct (Z.eqb_spec x 0); [destruct H0 as (_ & ? & _); congruence|].
    assert (H !! x = Some (Node (mkNode c (ptr l) (ptr r) 0))) as Hx.
    { eapply lookup_weaken; [|exact Hsub]. unfold tree_cells. rewrite lookup_insert_ne; [simpl; apply lookup_insert_eq|].
      intros ->. destruct Ht as ((_ & _ & _ & Hh) & _). apply Hh. simpl. rewrite elem_of_app elem_of_cons. auto. }
    assert ((x =? 0) = false) as Ex by (by apply Z.eqb_neq). repeat (rewrite ?Hroot ?Ex; simpl). unfold time64, field, get_node, load, mbind, prog_bind. rewrite Hx. simpl.
    eexists _, H. split; [done|]. split; [|done]. apply q_next.
    + apply elem_of_map_to_list. rewrite -He. simpl. by left.
    + intros y d Hy%elem_of_map_to_list. rewrite -He in Hy. destruct Ho as [lb Hok].
      assert (heap_ok c (Br c l x r)) as Hok' by (destruct Hok as (_ & ? & ?); by split).
      clear -Hy Hok'. revert Hok' Hy. generalize (Br c l x r). intros t. generalize c. clear.
      induction t as [|b l IHl x r IHr]; intros c; simpl; [by intros _ ?%elem_of_nil|].
      intros (Hc & Hl & Hr) [[= -> ->]|[Hy|Hy]%elem_of_app]%elem_of_cons; [done|etrans; [exact Hc|]; eauto..].
Qed.

Definition link_timers : TimerQueue (gmap Z timer_cell) :=
  {| tq_do := link_do; tq_rep := link_rep |}.
#[export] Instance link_timers_laws : TimerQueueLaws (gmap Z timer_cell) (H := link_timers).
Proof.
  intros P m H op HR Ha. destruct op as [x c|x|x c|]; simpl in *.
  - destruct (link_add_step P m H x c HR Ha) as (H' & E & HR'). eexists _, _, H'. split; [done|]. split; [|done].
    constructor. tauto.
  - destruct Ha as [c Hx]. destruct (link_remove_step P m H x c HR Hx) as (H' & E & HR').
    eexists _, _, H'. split; [done|]. split; [|done]. by econstructor.
  - destruct Ha as [[c0 Hx] _]. destruct (link_modify_step P m H x c0 c HR Hx) as (H' & E & HR').
    eexists _, _, H'. split; [done|]. split; [|done]. by econstructor.
  - destruct (link_next_step P m H HR) as (o & H' & E & Hq & HR'). by exists o, m, H'.
Qed.

(** [timer_linkheap_init] makes an empty heap. *)
Lemma link_init P H w1 w2 :
  Z.of_nat (size P) < UINT64_MAX -> (size P + 2 < fuel)%nat ->
  (forall x, x ∈ P -> x <> 0 /\ exists nd, H !! x = Some (Node nd)) ->
  H !! heap = Some (Root w1) -> H !! size_field heap = Some (Root w2) ->
  exists H', timer_linkheap_init heap H = Ret (tt, H') /\ link_rep P ∅ H'.
Proof.
  intros Hs Hf HP Hr Hn. unfold timer_linkheap_init, set_root, get_root, load, store, mbind, prog_bind.
  rewrite Hr. simpl. rewrite Hr. simpl. rewrite lookup_insert_ne; [|unfold size_field; lia]. rewrite Hn. simpl.
  rewrite lookup_insert_ne; [|unfold size_field; lia]. rewrite Hn. simpl. eexists. split; [done|].
  split; [done|]. split; [done|]. split; [set_solver|]. split.
  - intros x Hx. destruct (HP x Hx) as (? & nd & Hnd). split; [done|]. exists nd.
    rewrite !lookup_insert_ne //; congruence.
  - exists Leaf. rewrite map_to_list_empty. split; [|done]. split; [|split; [apply lookup_insert_eq|split; [by exists 0|done]]].
    split; [|split; [constructor|split; apply not_elem_of_nil]]. unfold tree_cells. simpl.
    apply insert_subseteq_l; [|apply map_empty_subseteq]. rewrite lookup_insert_ne; [|unfold size_field; lia]. apply lookup_insert_eq.
Qed.
End library.

(** C39: the link heap is a timer queue.  Take memory with a heap header and the client's timers [P], initialise
    the heap, and run any sequence of operations the interface allows: adding timers that are not set, removing
    and changing timers that are, and asking for the next one.  Every call returns (no [abort()], no access
    outside a node, every loop ends within the number of timers), and the answers are those of a map from
    timers to times: the next timer is one with the least time, or [NULL] and [UINT64_MAX]. *)
Theorem timer_linkheap_refines (fuel : nat) (heap : Z) (P : gset Z) (H : gmap Z timer_cell) (w1 w2 : Z) ops
  (HP : forall x, x ∈ P -> x <> 0 /\ exists nd, H !! x = Some (Node nd))
  (Hroot : H !! heap = Some (Root w1)) (Hsize : H !! size_field heap = Some (Root w2))
  (Hmax : Z.of_nat (size P) < UINT64_MAX) (Hfuel : (size P + 2 < fuel)%nat)
  (Hops : allowed_run P ∅ ops) :
  exists H0 os m H', timer_linkheap_init heap H = Ret (tt, H0) /\
    tq_run (H := link_timers fuel heap) ops H0 = Ret (os, H') /\ qrun ∅ ops os m /\
    exists t, is_linkheap H' heap t /\ entries t ≡ₚ map_to_list m.
Proof.
  destruct (link_init fuel heap P H w1 w2 Hmax Hfuel HP Hroot Hsize) as (H0 & E0 & HR).
  destruct (tq_run_refines (H := link_timers fuel heap) ops P ∅ H0 HR Hops) as (os & m & H' & E & Hq & HR').
  exists H0, os, m, H'. split; [done|]. split; [done|]. split; [done|]. by destruct HR' as (_ & _ & _ & _ & ?).
Qed.

Definition sample_timers : gmap Z timer_cell :=
  <[1 := Root 7]> (<[9 := Root 7]> (<[20 := Node (mkNode 0 0 0 0)]> (<[30 := Node (mkNode 0 0 0 0)]>
    (<[40 := Node (mkNode 0 0 0 0)]> ∅)))).

Lemma timer_linkheap_refines_witness :
  exists H0 os m H', timer_linkheap_init 1 sample_timers = Ret (tt, H0) /\
    tq_run (H := link_timers 6 1) [TAdd 20 5; TAdd 30 3; TNext; TModify 30 9; TNext; TRemove 20; TNext] H0 = Ret (os, H') /\
    qrun ∅ [TAdd 20 5; TAdd 30 3; TNext; TModify 30 9; TNext; TRemove 20; TNext] os m.
Proof.
  destruct (timer_linkheap_refines 6 1 {[20; 30; 40]} sample_timers 7 7
    [TAdd 20 5; TAdd 30 3; TNext; TModify 30 9; TNext; TRemove 20; TNext]) as (H0 & os & m & H' & E0 & E & Hq & _).
  - intros x Hx. repeat (apply elem_of_union in Hx as [Hx|Hx]); apply elem_of_singleton in Hx as ->;
      (split; [done|eexists; reflexivity]).
  - reflexivity.
  - reflexivity.
  - vm_compute. reflexivity.
  - vm_compute. lia.
  - simpl. repeat split; try (apply (bool_decide_unpack _); reflexivity); try (eexists; reflexivity); try lia; reflexivity.
  - by exists H0, os, m, H'.
Defined.
