(* ===== verification/TreeTimers.v ===== *)
(** Timers on search trees: timerrb/timerrb.h, timerrb/timerrb.c,
    timeravl/timeravl.h and timeravl/timeravl.c.

    The two libraries are the same code on the two kinds of tree.  The trees
    are behind an interface, [SearchTree] with [SearchTreeLaws]; the timers are
    proved against it and both trees discharge it.  A timer contains the tree
    node, so it is named by the address of the node; [time64], which the trees
    reach through the comparison function only, is a map [times] of the
    client's memory. *)
From iris.proofmode Require Import coq_tactics reduction proofmode.
From iris.base_logic.lib Require Import gen_heap.
From S2P Require Import Prelude Heap PTree PExchange PPlaces Timers RbTree RbOps RbDelete RbRemove AvlTree AvlOps AvlRemove.

(** ** The interface of a search tree *)

Class SearchTree (C : Type) := {
  st_init : Z -> prog (cell C) unit;
  st_insert : nat -> Z -> cmp_fun -> Z -> prog (cell C) unit;
  st_delete : nat -> Z -> Z -> prog (cell C) unit;
  st_leftmost : nat -> Z -> prog (cell C) Z;
  (** The discipline of the tree. *)
  st_ok : tree C -> Prop
}.

(** A tree in order with the nodes [xs]. *)
Definition st_tree `{SearchTree C} `{!gen_heapGS Z (cell C) Σ} (a : Z) (xs : list Z) : iProp Σ :=
  ∃ t, ⌜st_ok t /\ inorder t = xs⌝ ∗ tree_rep a t.

Class SearchTreeLaws (C : Type) `{SearchTree C} : Prop := {
  st_ok_leaf : st_ok Leaf;
  st_init_is a : st_init a = set_root a 0;
  wp_st_insert `{!gen_heapGS Z (cell C) Σ} {B} (cmp : cmp_fun) `{!CmpLaws cmp} fuel a x xs (k : unit -> prog (cell C) B) Φ :
    (length xs < fuel)%nat -> ordered cmp xs -> x <> 0 ->
    st_tree a xs -∗ some_node x -∗ (st_tree a (insert_sorted cmp x xs) -∗ wp (k tt) Φ) -∗
    wp (st_insert fuel a cmp x ≫= k) Φ;
  wp_st_delete `{!gen_heapGS Z (cell C) Σ} {B} fuel a x ls rs (k : unit -> prog (cell C) B) Φ :
    (length (ls ++ x :: rs) < fuel)%nat ->
    st_tree a (ls ++ x :: rs) -∗ (st_tree a (ls ++ rs) -∗ some_node x -∗ wp (k tt) Φ) -∗
    wp (st_delete fuel a x ≫= k) Φ;
  wp_st_leftmost `{!gen_heapGS Z (cell C) Σ} {B} fuel a xs (k : Z -> prog (cell C) B) Φ :
    (length xs < fuel)%nat ->
    st_tree a xs -∗ (st_tree a xs -∗ wp (k (default 0 (list.head xs))) Φ) -∗ wp (st_leftmost fuel a ≫= k) Φ;
  keeps_st_insert fuel a cmp x : KeepsNodes (st_insert fuel a cmp x);
  keeps_st_delete fuel a x : KeepsNodes (st_delete fuel a x);
  keeps_st_leftmost fuel a : KeepsNodes (st_leftmost fuel a)
}.

Lemma tsize_inorder {C} (t : tree C) : tsize t = length (inorder t).
Proof. induction t as [|c l IHl x r IHr]; simpl; [done|]. rewrite length_app /=. lia. Qed.

(** ** Both trees keep nodes *)

Lemma keeps_rotate_left a p : KeepsNodes (rotate_left a p).
Proof. unfold rotate_left. keeps. Qed.
#[export] Hint Resolve keeps_rotate_left : keeps_db.
Lemma keeps_rotate_right a p : KeepsNodes (rotate_right a p).
Proof. unfold rotate_right. keeps. Qed.
#[export] Hint Resolve keeps_rotate_right : keeps_db.
Lemma keeps_rb_insert_repair fuel a x : KeepsNodes (rb_tree_nocmp_insert_repair fuel a x).
Proof.
  revert x. induction fuel as [|fuel IH]; intros x; cbn [rb_tree_nocmp_insert_repair];
    [keeps|].
  unfold insert_rotate, uncle, sibling, is_red, null_or_black, is_black, set_black, andM, orM. keeps.
Qed.
#[export] Hint Resolve keeps_rb_insert_repair : keeps_db.
Lemma keeps_rb_insert fuel a cmp x : KeepsNodes (rb_tree_insert fuel a cmp x).
Proof. unfold rb_tree_insert, insert_step, init_node, set_black. keeps. Qed.
#[export] Hint Resolve keeps_rb_insert : keeps_db.
Lemma keeps_rb_delete_case1 fuel a x p : KeepsNodes (rb_tree_delete_case1 fuel a x p).
Proof.
  revert x p. induction fuel as [|fuel IH]; intros x p; cbn [rb_tree_delete_case1];
    [keeps|].
  unfold rb_tree_delete_case2, rb_tree_delete_case3, rb_tree_delete_case4, rb_tree_delete_case5, rb_tree_delete_case6,
    sibling_parent, is_red, null_or_black, is_black, set_black, andM, orM. keeps.
Qed.
#[export] Hint Resolve keeps_rb_delete_case1 : keeps_db.
Lemma keeps_rb_delete fuel a x : KeepsNodes (rb_tree_nocmp_delete fuel a x).
Proof.
  unfold rb_tree_nocmp_delete, rb_tree_exchange, rb_tree_delete_one_child, is_red, is_black, set_black, andM. keeps.
Qed.
#[export] Hint Resolve keeps_rb_delete : keeps_db.

Lemma keeps_avl_repair fuel a x : KeepsNodes (avl_tree_insert_repair fuel a x).
Proof.
  unfold avl_tree_insert_repair. apply keeps_loop. intros y. unfold insert_repair_step, avl_relink, avl_rotate_left,
    avl_rotate_right, avl_rotate_leftright, avl_rotate_rightleft, balance, set_balance. keeps.
Qed.
#[export] Hint Resolve keeps_avl_repair : keeps_db.
Lemma keeps_avl_insert fuel a cmp x : KeepsNodes (avl_tree_insert fuel a cmp x).
Proof. unfold avl_tree_insert, avl_insert_step, set_balance. keeps. Qed.
#[export] Hint Resolve keeps_avl_insert : keeps_db.
Lemma keeps_avl_delete_repair fuel a x : KeepsNodes (avl_tree_delete_repair fuel a x).
Proof.
  unfold avl_tree_delete_repair. apply keeps_bind;
    [keeps|]. intros p. apply keeps_loop. intros [y q].
  unfold delete_repair_step, avl_relink, avl_rotate_left, avl_rotate_right, avl_rotate_leftright, avl_rotate_rightleft,
    balance, set_balance. keeps.
Qed.
#[export] Hint Resolve keeps_avl_delete_repair : keeps_db.
Lemma keeps_avl_delete fuel a x : KeepsNodes (avl_tree_delete fuel a x).
Proof. unfold avl_tree_delete, avl_tree_exchange, avl_tree_delete_one_child. keeps. Qed.
#[export] Hint Resolve keeps_avl_delete : keeps_db.

(** ** Both trees discharge the interface *)

#[export] Instance rb_search : SearchTree bool := {|
  st_init := rb_tree_nocmp_init; st_insert := rb_tree_insert; st_delete := rb_tree_nocmp_delete;
  st_leftmost := rb_tree_nocmp_leftmost; st_ok := rb_valid |}.
#[export] Instance avl_search : SearchTree Z := {|
  st_init := avl_tree_init; st_insert := avl_tree_insert; st_delete := avl_tree_delete;
  st_leftmost := avl_tree_leftmost; st_ok := avl |}.

Lemma wp_leftmost_of {C B} `{!gen_heapGS Z (cell C) Σ} fuel a (t : tree C) (k : Z -> prog (cell C) B) Φ :
  (tsize t < fuel)%nat ->
  tree_rep a t -∗ (tree_rep a t -∗ wp (k (default 0 (list.head (inorder t)))) Φ) -∗
  wp ((x ← get_root a; if x =? 0 then mret 0 else loop fuel leftmost_step x) ≫= k) Φ.
Proof.
  iIntros (Hf) "HT HΦ". destruct (wp_tree_ends fuel a t Hf) as [Hl _]. iApply wp_bind.
  iApply (wp_wand with "[HT]"); [by iApply Hl|]. iIntros (y) "(%t' & [-> ->] & HT)". by iApply "HΦ".
Qed.

#[export] Instance rb_search_laws : SearchTreeLaws bool.
Proof.
  split; [..|apply keeps_rb_insert|apply keeps_rb_delete|unfold st_leftmost, rb_search, rb_tree_nocmp_leftmost; keeps].
  - split; [done|by exists O].
  - done.
  - iIntros (Σ HΣ B cmp Hcmp fuel a x xs k Φ Hf Ho Hx) "(%t & [%Hok <-] & HT) (%c & %l & %r & %p & Hx) HΦ".
    iApply (wp_rb_tree_insert cmp with "HT Hx HΦ"); [by rewrite tsize_inorder|done..].
  - iIntros (Σ HΣ B fuel a x ls rs k Φ Hf) "(%t & [[%Hb %Hok] %Hin] & HT) HΦ". destruct Hok as [n Hok].
    iDestruct (tree_rep_addrs with "HT") as %(Hnd & _ & _).
    destruct (delete_place t x ls rs Hnd Hin) as (K & c & l & r & -> & <-).
    iApply (wp_rb_delete fuel a K c l x r n with "HT HΦ"); [by rewrite tsize_inorder Hin|].
    split; [done|]. split; [done|]. by left.
  - iIntros (Σ HΣ B fuel a xs k Φ Hf) "(%t & [%Hok <-] & HT) HΦ".
    iApply (wp_leftmost_of with "HT"); [by rewrite tsize_inorder|]. iIntros "HT". iApply "HΦ". iExists t. by iFrame.
Qed.
#[export] Instance avl_search_laws : SearchTreeLaws Z.
Proof.
  split; [..|apply keeps_avl_insert|apply keeps_avl_delete|unfold st_leftmost, avl_search, avl_tree_leftmost; keeps].
  - done.
  - done.
  - iIntros (Σ HΣ B cmp Hcmp fuel a x xs k Φ Hf Ho Hx) "(%t & [%Hok <-] & HT) (%c & %l & %r & %p & Hx) HΦ".
    iApply (wp_avl_tree_insert cmp with "HT Hx HΦ"); [by rewrite tsize_inorder|done..].
  - iIntros (Σ HΣ B fuel a x ls rs k Φ Hf) "(%t & [%Hok %Hin] & HT) HΦ".
    iDestruct (tree_rep_addrs with "HT") as %(Hnd & _ & _).
    destruct (delete_place t x ls rs Hnd Hin) as (K & c & l & r & -> & <-).
    iApply (wp_avl_delete fuel a K c l x r with "HT HΦ"); [by rewrite tsize_inorder Hin|done].
  - iIntros (Σ HΣ B fuel a xs k Φ Hf) "(%t & [%Hok <-] & HT) HΦ".
    iApply (wp_leftmost_of with "HT"); [by rewrite tsize_inorder|]. iIntros "HT". iApply "HΦ". iExists t. by iFrame.
Qed.

(** ** The timer functions *)

(** [struct timerrb] and [struct timeravl] are a tree (24 bytes) and [next]. *)
Definition next_field (tr : Z) : Z := tr + 24.

(** The client's memory: [time64] of each timer. *)
Definition times : Type := Z -> Z.

(** timerrb/timerrb.c and timerrb/timerrb.h *)
Definition timerrb_cmp (time64 : times) : cmp_fun := fun n1 n2 =>
  if time64 n1 <? time64 n2 then -1 else if time64 n2 <? time64 n1 then 1 else 0.
Definition timerrb_verify (fuel : nat) (rb : Z) : prog rb_cell Z := rb_tree_nocmp_valid fuel rb.
Definition timerrb_next_expiry_time (time64 : times) (rb : Z) : prog rb_cell Z :=
  next ← get_root (next_field rb);
  if next =? 0 then mret UINT64_MAX else mret (time64 next).
Definition timerrb_init (rb : Z) : prog rb_cell unit := rb_tree_nocmp_init rb.
Definition timerrb_update_next (fuel : nat) (rb : Z) : prog rb_cell unit :=
  node ← rb_tree_nocmp_leftmost fuel rb;
  if node =? 0 then set_root (next_field rb) 0 else set_root (next_field rb) node.
Definition timerrb_add (fuel : nat) (time64 : times) (rb timer : Z) : prog rb_cell unit :=
  _ ← rb_tree_insert fuel rb (timerrb_cmp time64) timer;
  timerrb_update_next fuel rb.
Definition timerrb_remove (fuel : nat) (rb timer : Z) : prog rb_cell unit :=
  _ ← rb_tree_nocmp_delete fuel rb timer;
  timerrb_update_next fuel rb.
Definition timerrb_modify (fuel : nat) (time64 : times) (rb timer : Z) : prog rb_cell unit :=
  _ ← rb_tree_nocmp_delete fuel rb timer;
  _ ← rb_tree_insert fuel rb (timerrb_cmp time64) timer;
  timerrb_update_next fuel rb.
Definition timerrb_next_expiry_timer (rb : Z) : prog rb_cell Z := get_root (next_field rb).

(** timeravl/timeravl.c and timeravl/timeravl.h *)
Definition timeravl_cmp (time64 : times) : cmp_fun := fun n1 n2 =>
  if time64 n1 <? time64 n2 then -1 else if time64 n2 <? time64 n1 then 1 else 0.
Definition timeravl_verify (fuel : nat) (avl : Z) : prog avl_cell Z := avl_tree_valid fuel avl.
Definition timeravl_next_expiry_time (time64 : times) (avl : Z) : prog avl_cell Z :=
  next ← get_root (next_field avl);
  if next =? 0 then mret UINT64_MAX else mret (time64 next).
Definition timeravl_init (avl : Z) : prog avl_cell unit := avl_tree_init avl.
Definition timeravl_update_next (fuel : nat) (avl : Z) : prog avl_cell unit :=
  node ← avl_tree_leftmost fuel avl;
  if node =? 0 then set_root (next_field avl) 0 else set_root (next_field avl) node.
Definition timeravl_add (fuel : nat) (time64 : times) (avl timer : Z) : prog avl_cell unit :=
  _ ← avl_tree_insert fuel avl (timeravl_cmp time64) timer;
  timeravl_update_next fuel avl.
Definition timeravl_remove (fuel : nat) (avl timer : Z) : prog avl_cell unit :=
  _ ← avl_tree_delete fuel avl timer;
  timeravl_update_next fuel avl.
Definition timeravl_modify (fuel : nat) (time64 : times) (avl timer : Z) : prog avl_cell unit :=
  _ ← avl_tree_delete fuel avl timer;
  _ ← avl_tree_insert fuel avl (timeravl_cmp time64) timer;
  timeravl_update_next fuel avl.
Definition timeravl_next_expiry_timer (avl : Z) : prog avl_cell Z := get_root (next_field avl).

(** ** The client's operations *)

(** A state is the memory of the tree and the client's times.  [TAdd] and
    [TModify] store the time first. *)
Definition on_tree {C A} (code : prog (cell C) A) (T : times) (H : gmap Z (cell C)) :
    outcome (A * (gmap Z (cell C) * times)) :=
  r ← code H; let '(a, H') := r in Ret (a, (H', T)).

Definition timerrb_do (fuel : nat) (rb : Z) (op : timer_op) (s : gmap Z rb_cell * times) :
    outcome (Z * Z * (gmap Z rb_cell * times)) :=
  let '(H, T) := s in
  match op with
  | TAdd x c => let T := <[x := c]> T in on_tree (_ ← timerrb_add fuel T rb x; mret (0, 0)) T H
  | TRemove x => on_tree (_ ← timerrb_remove fuel rb x; mret (0, 0)) T H
  | TModify x c => let T := <[x := c]> T in on_tree (_ ← timerrb_modify fuel T rb x; mret (0, 0)) T H
  | TNext => on_tree (x ← timerrb_next_expiry_timer rb; c ← timerrb_next_expiry_time T rb; mret (x, c)) T H
  end.
Definition timeravl_do (fuel : nat) (avl : Z) (op : timer_op) (s : gmap Z avl_cell * times) :
    outcome (Z * Z * (gmap Z avl_cell * times)) :=
  let '(H, T) := s in
  match op with
  | TAdd x c => let T := <[x := c]> T in on_tree (_ ← timeravl_add fuel T avl x; mret (0, 0)) T H
  | TRemove x => on_tree (_ ← timeravl_remove fuel avl x; mret (0, 0)) T H
  | TModify x c => let T := <[x := c]> T in on_tree (_ ← timeravl_modify fuel T avl x; mret (0, 0)) T H
  | TNext => on_tree (x ← timeravl_next_expiry_timer avl; c ← timeravl_next_expiry_time T avl; mret (x, c)) T H
  end.

(** ** The proofs, on either tree *)

(** The functions above read the tree through the interface only. *)
Section library.
Context {C : Type} {ST : SearchTree C} {STL : SearchTreeLaws C} (fuel : nat) (tr : Z).
Implicit Types (H : gmap Z (cell C)) (T : times) (t : tree C) (xs : list Z) (m : gmap Z Z) (P : gset Z).

Definition tree_update_next : prog (cell C) unit :=
  node ← st_leftmost fuel tr;
  if node =? 0 then set_root (next_field tr) 0 else set_root (next_field tr) node.
Definition tree_op (T : times) (op : timer_op) : prog (cell C) (Z * Z) :=
  match op with
  | TAdd x _ => _ ← (_ ← st_insert fuel tr (timerrb_cmp T) x; tree_update_next); mret (0, 0)
  | TRemove x => _ ← (_ ← st_delete fuel tr x; tree_update_next); mret (0, 0)
  | TModify x _ =>
      _ ← (_ ← st_delete fuel tr x; _ ← st_insert fuel tr (timerrb_cmp T) x; tree_update_next); mret (0, 0)
  | TNext =>
      x ← get_root (next_field tr);
      c ← (next ← get_root (next_field tr); if next =? 0 then mret UINT64_MAX else mret (T next));
      mret (x, c)
  end.
Definition new_times (op : timer_op) T : times :=
  match op with TAdd x c | TModify x c => <[x := c]> T | _ => T end.
Definition tree_do (op : timer_op) (s : gmap Z (cell C) * times) : outcome (Z * Z * (gmap Z (cell C) * times)) :=
  let T := new_times op s.2 in on_tree (tree_op T op) T s.1.

#[local] Instance timer_cmp_laws T : CmpLaws (timerrb_cmp T).
Proof.
  split; unfold timerrb_cmp; intros.
  - destruct (Z.ltb_spec (T a) (T b)), (Z.ltb_spec (T b) (T a)); lia.
  - destruct (Z.ltb_spec (T a) (T b)), (Z.ltb_spec (T b) (T a)), (Z.ltb_spec (T b) (T c)), (Z.ltb_spec (T c) (T b)),
      (Z.ltb_spec (T a) (T c)), (Z.ltb_spec (T c) (T a)); lia.
Qed.
Lemma timer_cmp_le T x y : timerrb_cmp T x y <= 0 <-> T x <= T y.
Proof. unfold timerrb_cmp. destruct (Z.ltb_spec (T x) (T y)), (Z.ltb_spec (T y) (T x)); lia. Qed.

(** The times of other timers do not matter. *)
Lemma ordered_times T T' xs :
  (forall x, x ∈ xs -> T' x = T x) -> ordered (timerrb_cmp T) xs -> ordered (timerrb_cmp T') xs.
Proof.
  induction xs as [|x xs IH]; simpl; [done|]. intros HT [Hx Ho]. split.
  - intros y Hy. specialize (Hx y Hy). rewrite timer_cmp_le !HT; [|by right|by left]. by apply timer_cmp_le.
  - apply IH; [|done]. intros y Hy. apply HT. by right.
Qed.
Lemma ordered_remove (cmp : cmp_fun) ls x rs : ordered cmp (ls ++ x :: rs) -> ordered cmp (ls ++ rs).
Proof.
  rewrite !ordered_app. simpl. intros (Hl & (_ & Hr) & Hlr). repeat split; [done..|].
  intros y z Hy Hz. apply Hlr; [done|by right].
Qed.
Lemma length_insert_sorted (cmp : cmp_fun) x xs : length (insert_sorted cmp x xs) = S (length xs).
Proof. induction xs as [|y xs IH]; simpl; [done|]. destruct (cmp x y <? 0); simpl; by rewrite ?IH. Qed.
Lemma length_below xs P : NoDup xs -> (forall x, x ∈ xs -> x ∈ P) -> (length xs <= size P)%nat.
Proof.
  intros Hnd Hsub. rewrite -(size_list_to_set (C := gset Z) xs Hnd). apply subseteq_size. intros x Hx.
  apply Hsub. by apply elem_of_list_to_set in Hx.
Qed.

(** Memory with a tree of the timers [xs] and with [next] as it is, and with
    [next] set. *)
Definition timers_in H xs v : Prop := exists t, is_tree H tr t /\ st_ok t /\ inorder t = xs /\ H !! next_field tr = Some (Root v).
Definition timers_at H xs : Prop := timers_in H xs (default 0 (list.head xs)).
Definition rep_with (at_ : gmap Z (cell C) -> list Z -> Prop) P m (s : gmap Z (cell C) * times) : Prop :=
  (size P + 2 < fuel)%nat /\ dom m ⊆ P /\
  (forall x, x ∈ P -> x <> 0 /\ exists nd, s.1 !! x = Some (Node nd)) /\
  (forall x c, m !! x = Some c -> s.2 x = c) /\
  exists xs, at_ s.1 xs /\ ordered (timerrb_cmp s.2) xs /\ forall x, x ∈ xs <-> x ∈ dom m.
Definition tree_rep_of := rep_with timers_at.
(** Whatever [next] is. *)
Definition tree_rep_any := rep_with (fun H xs => exists v, timers_in H xs v).
Lemma tree_rep_weaken P m s : tree_rep_of P m s -> tree_rep_any P m s.
Proof. intros (Hf & Hd & HP & HT & xs & Hxs & Ho). split; [done|]. split; [done|]. split; [done|]. split; [done|]. exists xs. split; [by eexists|done]. Qed.

Lemma keeps_tree_op T op : KeepsNodes (tree_op T op).
Proof.
  assert (KeepsNodes tree_update_next) as Hu.
  { unfold tree_update_next. apply keeps_bind; [apply keeps_st_leftmost|]. keeps. }
  destruct op; unfold tree_op;
    repeat (first [apply Hu|apply keeps_st_insert|apply keeps_st_delete|apply keeps_get_root|
      apply keeps_bind; [|intros ?]|apply keeps_ret|apply keeps_if]).
Qed.

Lemma wp_update_next `{!gen_heapGS Z (cell C) Σ} {B} xs v (k : unit -> prog (cell C) B) Φ :
  (length xs < fuel)%nat ->
  st_tree tr xs -∗ pointsto (next_field tr) (DfracOwn 1) (Root v) -∗
  (st_tree tr xs -∗ pointsto (next_field tr) (DfracOwn 1) (Root (default 0 (list.head xs))) -∗ wp (k tt) Φ) -∗
  wp (tree_update_next ≫= k) Φ.
Proof.
  iIntros (Hf) "HT Hn HΦ". unfold tree_update_next. iApply wp_assoc. iApply (wp_st_leftmost with "HT"); [done|].
  iIntros "HT". destruct (Z.eqb_spec (default 0 (list.head xs)) 0) as [E|E]; [rewrite E|]; wp_steps; iApply ("HΦ" with "HT Hn").
Qed.

(** A specification of an operation, read as a statement about memory. *)
Lemma timers_sound (code : prog (cell C) (Z * Z)) H (cs : gmap Z (cell C)) xs :
  cs ⊆ H ->
  (forall Σ `{!gen_heapGS Z (cell C) Σ}, owns cs ⊢ wp code (fun o => ⌜o = (0, 0)⌝ ∗ st_tree tr xs ∗
    pointsto (next_field tr) (DfracOwn 1) (Root (default 0 (list.head xs))))) ->
  exists H', code H = Ret ((0, 0), H') /\ timers_at H' xs.
Proof.
  intros Hsub Hwp.
  destruct (tree_word_sound code H tr (next_field tr) cs (fun o t v => o = (0, 0) /\ st_ok t /\ inorder t = xs /\
    v = default 0 (list.head xs))) as (o & t & v & H' & E & (-> & Hok & Hin & ->) & Ht & Hv); [done| |].
  - intros Σ HΣ. iIntros "Hm". iDestruct (Hwp Σ with "Hm") as "Hwp". iApply (wp_wand with "Hwp").
    iIntros (o) "(-> & (%t & [%Hok %Hin] & HT) & Hn)". iExists t, _. iFrame. done.
  - exists H'. split; [done|]. by exists t.
Qed.

(** The cells of the tree and of [next]. *)
Lemma timers_cells H xs v :
  timers_in H xs v -> exists cs : gmap Z (cell C), cs ⊆ H /\ NoDup xs /\
    (forall x nd, H !! x = Some (Node nd) -> x ∉ xs -> cs !! x = None) /\
    forall Σ `{!gen_heapGS Z (cell C) Σ}, owns cs ⊢ st_tree tr xs ∗
      pointsto (next_field tr) (DfracOwn 1) (Root v).
Proof.
  intros (t & Ht & Hok & <- & Hn). pose proof Ht as (Hsub & Hnd & H0' & Htr).
  assert (tree_cells tr t !! next_field tr = None) as Hnone
    by (eapply tree_cells_word; [done|done|unfold next_field; lia]).
  exists (<[next_field tr := Root v]> (tree_cells tr t)).
  split; [by apply insert_subseteq_l|]. split; [done|]. split.
  - intros x nd Hx Hxt. unfold tree_cells in *. rewrite lookup_insert_ne; [|congruence].
    rewrite lookup_insert_ne; [by apply cells_none|]. intros <-. assert (H !! tr = Some (Root (ptr t))) as E.
    { eapply lookup_weaken; [|exact Hsub]. apply lookup_insert_eq. } congruence.
  - intros Σ HΣ. rewrite owns_insert // owns_tree //. iIntros "[$ HT]". iExists t. by iFrame.
Qed.

(** The operation returned and left the timers [xs] of [m'] in memory. *)
Lemma tree_rep_after P m m' H T op xs H' :
  tree_rep_any P m (H, T) -> tree_op (new_times op T) op H = Ret ((0, 0), H') -> timers_at H' xs ->
  m' = after_op m op -> dom m' ⊆ P -> ordered (timerrb_cmp (new_times op T)) xs -> (forall x, x ∈ xs <-> x ∈ dom m') ->
  tree_do op (H, T) = Ret ((0, 0), (H', new_times op T)) /\ tree_rep_of P m' (H', new_times op T).
Proof.
  intros (Hf & _ & HP & HT & _) E Ht -> Hd Ho Hxs. split.
  { unfold tree_do, on_tree. cbn [fst snd]. by rewrite E. }
  split; [done|]. split; [done|]. split; [|split; [|by exists xs]].
  - intros x Hx. destruct (HP x Hx) as [? [nd Hnd]]. split; [done|]. by eapply (keeps_tree_op (new_times op T) op).
  - cbn [snd] in *. destruct op as [x c|x|x c|]; simpl; intros y d.
    + intros [[<- <-]|[Hne Hy]]%lookup_insert_Some; [by rewrite fn_lookup_insert|rewrite fn_lookup_insert_ne; auto].
    + intros [_ Hy]%lookup_delete_Some. auto.
    + intros [[<- <-]|[Hne Hy]]%lookup_insert_Some; [by rewrite fn_lookup_insert|rewrite fn_lookup_insert_ne; auto].
    + auto.
Qed.

Lemma tree_add_step P m H T x c :
  tree_rep_any P m (H, T) -> allowed P m (TAdd x c) ->
  exists s', tree_do (TAdd x c) (H, T) = Ret ((0, 0), s') /\ tree_rep_of P (<[x := c]> m) s'.
Proof.
  intros HR (HxP & Hnew & Hc). pose proof HR as (Hf & Hd & HP & HT & xs & [v Hxs] & Ho & Hin). cbn [fst snd] in *.
  destruct (HP x HxP) as (Hx0 & nd & Hx). destruct (timers_cells H xs v Hxs) as (cs & Hsub & Hnd & Hno & Hcs).
  assert (x ∉ xs) as Hxx by (rewrite Hin; by apply not_elem_of_dom).
  assert (length xs <= size P)%nat as Hlen by (apply length_below; [done|intros y ?%Hin; set_solver]).
  set (T' := new_times (TAdd x c) T).
  assert (ordered (timerrb_cmp T') xs) as Ho'.
  { eapply ordered_times; [|exact Ho]. intros y Hy. apply fn_lookup_insert_ne. intros ->. done. }
  destruct (timers_sound (tree_op T' (TAdd x c)) H (<[x := Node nd]> cs) (insert_sorted (timerrb_cmp T') x xs))
    as (H' & E & Ht'); [by apply insert_subseteq_l| |].
  - intros Σ HΣ. rewrite owns_insert; [|by eapply Hno]. rewrite Hcs. iIntros "(Hx & HT & Hn)". unfold tree_op.
    iApply wp_assoc. iApply (wp_st_insert with "HT [Hx]"); [lia|done|done|..].
    { destruct nd. iExists _, _, _, _. iFrame. } iIntros "HT".
    iApply (wp_update_next with "HT Hn").
    { rewrite (length_insert_sorted (timerrb_cmp T') x xs). lia. }
    iIntros "HT Hn". iApply wp_ret. by iFrame.
  - eexists. apply (tree_rep_after P m _ H T (TAdd x c) _ H' HR E Ht'); [done|..].
    + rewrite dom_insert. set_solver.
    + by apply insert_sorted_ordered; [apply _|].
    + intros y. rewrite insert_sorted_elem. rewrite dom_insert. set_solver.
Qed.

Lemma tree_remove_step P m H T x :
  tree_rep_of P m (H, T) -> x ∈ dom m ->
  exists s', tree_do (TRemove x) (H, T) = Ret ((0, 0), s') /\ tree_rep_of P (delete x m) s'.
Proof.
  intros HR Hx. pose proof HR as (Hf & Hd & HP & HT & xs & Hxs & Ho & Hin). cbn [fst snd] in *.
  destruct (timers_cells H xs _ Hxs) as (cs & Hsub & Hnd & Hno & Hcs).
  assert (length xs <= size P)%nat as Hlen by (apply length_below; [done|intros y ?%Hin; set_solver]).
  apply Hin, list_elem_of_split in Hx as (ls & rs & ->). rewrite length_app /= in Hlen.
  destruct (timers_sound (tree_op T (TRemove x)) H cs (ls ++ rs)) as (H' & E & Ht'); [done| |].
  - intros Σ HΣ. rewrite Hcs. iIntros "(HT & Hn)". unfold tree_op.
    iApply wp_assoc. iApply (wp_st_delete with "HT"); [rewrite length_app /=; lia|]. iIntros "HT Hx".
    iApply (wp_update_next with "HT Hn"); [rewrite length_app; lia|]. iIntros "HT Hn". iApply wp_ret. by iFrame.
  - eexists. apply (tree_rep_after P m _ H T (TRemove x) _ H' (tree_rep_weaken _ _ _ HR) E Ht'); [done|..].
    + rewrite dom_delete. set_solver.
    + by eapply ordered_remove.
    + intros y. apply list.NoDup_app in Hnd as (_ & Hdis & Hr). apply list.NoDup_cons in Hr as [Hxr _].
      rewrite dom_delete elem_of_difference -Hin !elem_of_app elem_of_cons elem_of_singleton.
      specialize (Hdis y). rewrite elem_of_cons in Hdis. naive_solver.
Qed.

Lemma tree_modify_step P m H T x c :
  tree_rep_of P m (H, T) -> x ∈ dom m ->
  exists s', tree_do (TModify x c) (H, T) = Ret ((0, 0), s') /\ tree_rep_of P (<[x := c]> m) s'.
Proof.
  intros HR Hx. pose proof HR as (Hf & Hd & HP & HT & xs & Hxs & Ho & Hin). cbn [fst snd] in *.
  destruct (timers_cells H xs _ Hxs) as (cs & Hsub & Hnd & Hno & Hcs).
  assert (length xs <= size P)%nat as Hlen by (apply length_below; [done|intros y ?%Hin; set_solver]).
  pose proof (HP x (Hd x Hx)) as [Hx0 _]. pose proof Hx as Hxm.
  apply Hin, list_elem_of_split in Hx as (ls & rs & ->). rewrite length_app /= in Hlen.
  set (T' := new_times (TModify x c) T).
  assert (x ∉ ls ++ rs) as Hxx by (rewrite -Permutation_middle in Hnd; by apply list.NoDup_cons in Hnd as [? _]).
  assert (ordered (timerrb_cmp T') (ls ++ rs)) as Ho'.
  { eapply ordered_times; [|by eapply ordered_remove]. intros y Hy. apply fn_lookup_insert_ne. intros ->. done. }
  destruct (timers_sound (tree_op T' (TModify x c)) H cs (insert_sorted (timerrb_cmp T') x (ls ++ rs)))
    as (H' & E & Ht'); [done| |].
  - intros Σ HΣ. rewrite Hcs. iIntros "(HT & Hn)". unfold tree_op.
    iApply wp_assoc. iApply (wp_st_delete with "HT"); [rewrite length_app /=; lia|]. iIntros "HT Hx".
    iApply wp_assoc. iApply (wp_st_insert with "HT Hx"); [rewrite length_app; lia|done|done|]. iIntros "HT".
    iApply (wp_update_next with "HT Hn"); [rewrite length_insert_sorted length_app; lia|]. iIntros "HT Hn".
    iApply wp_ret. by iFrame.
  - eexists. apply (tree_rep_after P m _ H T (TModify x c) _ H' (tree_rep_weaken _ _ _ HR) E Ht'); [done|..].
    + rewrite dom_insert. set_solver.
    + by apply insert_sorted_ordered; [apply _|].
    + intros y. rewrite insert_sorted_elem dom_insert elem_of_union elem_of_singleton -Hin !elem_of_app elem_of_cons.
      tauto.
Qed.

(** [next] is the first timer of the tree. *)
Lemma tree_next_step P m H T :
  tree_rep_of P m (H, T) -> exists o, tree_do TNext (H, T) = Ret (o, (H, T)) /\ qstep m TNext o m.
Proof.
  intros (Hf & Hd & HP & HT & xs & (t & Ht & Hok & Hxt & Hn) & Ho & Hin). cbn [fst snd] in *.
  unfold tree_do, on_tree, tree_op, get_root, load, new_times, mbind, prog_bind. cbn [fst snd].
  destruct xs as [|x xs]; simpl in Hn.
  - repeat (rewrite Hn; simpl). eexists. split; [done|]. apply q_empty. apply dom_empty_iff_L.
    apply elem_of_equiv_empty_L. intros x. rewrite -Hin. apply not_elem_of_nil.
  - assert (x ∈ dom m) as Hx by (apply Hin; by left). destruct (HP x (Hd x Hx)) as [Hx0 _].
    apply Z.eqb_neq in Hx0. repeat (rewrite ?Hn ?Hx0; simpl). eexists. split; [done|].
    apply elem_of_dom in Hx as [c Hx]. rewrite (HT x c Hx). apply q_next; [done|].
    intros y d Hy. rewrite -(HT x c Hx) -(HT y d Hy). assert (y ∈ x :: xs) as Hys.
    { apply Hin. by apply elem_of_dom. }
    apply elem_of_cons in Hys as [->|Hys]; [done|]. destruct Ho as [Ho _]. by apply timer_cmp_le, Ho.
Qed.

Definition tree_timers : TimerQueue (gmap Z (cell C) * times) := {| tq_do := tree_do; tq_rep := tree_rep_of |}.
#[export] Instance tree_timers_laws : TimerQueueLaws (gmap Z (cell C) * times) (H := tree_timers).
Proof.
  intros P m [H T] op HR Ha. destruct op as [x c|x|x c|]; simpl in *.
  - destruct (tree_add_step P m H T x c (tree_rep_weaken _ _ _ HR) Ha) as (s' & E & HR'). eexists _, _, s'. split; [done|]. split; [|done].
    constructor. tauto.
  - apply elem_of_dom in Ha as Hx. destruct (tree_remove_step P m H T x HR Hx) as (s' & E & HR'). destruct Ha as [c Ha].
    eexists _, _, s'. split; [done|]. split; [|done]. by econstructor.
  - destruct Ha as [Ha _]. apply elem_of_dom in Ha as Hx.
    destruct (tree_modify_step P m H T x c HR Hx) as (s' & E & HR'). destruct Ha as [c0 Ha].
    eexists _, _, s'. split; [done|]. split; [|done]. by econstructor.
  - destruct (tree_next_step P m H T HR) as (o & E & Hq). by exists o, m, (H, T).
Qed.

(** Memory that the client sets up: the timers are nodes, and the two words of
    the header are there. *)
Definition client_memory P H : Prop :=
  (forall x, x ∈ P -> x <> 0 /\ exists nd, H !! x = Some (Node nd)) /\
  (exists w, H !! tr = Some (Root w)) /\ exists v, H !! next_field tr = Some (Root v).
(** Initialising does not set [next]: it is [NULL] already, or the first operation
    is an addition. *)
Definition next_unread H (ops : list timer_op) : Prop :=
  H !! next_field tr = Some (Root 0) \/ exists x c ops', ops = TAdd x c :: ops'.

(** Initialising makes an empty tree and leaves [next]. *)
Lemma tree_init P H T :
  (size P + 2 < fuel)%nat -> client_memory P H ->
  exists H', st_init tr H = Ret (tt, H') /\ tree_rep_any P ∅ (H', T) /\ (H !! next_field tr = Some (Root 0) -> tree_rep_of P ∅ (H', T)).
Proof.
  intros Hf (HP & [w Hr] & [v Hn]). rewrite st_init_is. unfold set_root, get_root, load, store, mbind, prog_bind.
  rewrite Hr. simpl. rewrite Hr. simpl. eexists. split; [done|].
  assert (forall at_ : gmap Z (cell C) -> list Z -> Prop, at_ (<[tr:=Root 0]> H) [] -> rep_with at_ P ∅ (<[tr:=Root 0]> H, T)) as Hrep.
  { intros at_ Hat. split; [done|]. split; [set_solver|]. split.
    - intros x Hx. destruct (HP x Hx) as (? & nd & Hnd). split; [done|]. exists nd. simpl. rewrite lookup_insert_ne //; congruence.
    - split; [done|]. exists []. split; [done|]. split; [done|]. intros x. rewrite dom_empty_L. set_solver. }
  assert (timers_in (<[tr:=Root 0]> H) [] v) as Hin.
  { exists Leaf. split; [|split; [apply st_ok_leaf|split; [done|]]].
    - split; [|split; [constructor|split; apply not_elem_of_nil]]. unfold tree_cells. simpl.
      apply insert_subseteq_l; [|apply map_empty_subseteq]. apply lookup_insert_eq.
    - rewrite lookup_insert_ne //. unfold next_field. lia. }
  split; [apply Hrep; by exists v|]. intros Hn0. apply Hrep. unfold timers_at. simpl. by replace v with 0 in Hin by congruence.
Qed.

Lemma tree_timers_run P H T ops :
  (size P + 2 < fuel)%nat -> client_memory P H -> next_unread H ops -> allowed_run P ∅ ops ->
  exists H0 os m s, st_init tr H = Ret (tt, H0) /\ tq_run (H := tree_timers) ops (H0, T) = Ret (os, s) /\
    qrun ∅ ops os m /\ exists xs, timers_at s.1 xs /\ forall x, x ∈ xs <-> x ∈ dom m.
Proof.
  intros Hf Hm Hnext Hops. destruct (tree_init P H T Hf Hm) as (H0 & E0 & Hany & HR).
  assert (exists os m s, tq_run (H := tree_timers) ops (H0, T) = Ret (os, s) /\ qrun ∅ ops os m /\ tree_rep_of P m s) as (os & m & s & E & Hq & HR').
  { destruct Hnext as [Hn|(x & c & ops' & ->)]; [by apply (tq_run_refines (H := tree_timers) ops P ∅ (H0, T) (HR Hn))|].
    destruct Hops as [Ha Hops]. destruct (tree_add_step P ∅ H0 T x c Hany Ha) as (s1 & E1 & HR1).
    destruct (tq_run_refines (H := tree_timers) ops' P _ s1 HR1 Hops) as (os & m & s & E & Hq & HR').
    exists ((0, 0) :: os), m, s. split; [|split; [|done]].
    - simpl. rewrite E1. simpl. by rewrite E.
    - econstructor; [constructor; apply lookup_empty|done]. }
  exists H0, os, m, s. split; [done|]. split; [done|]. split; [done|].
  destruct HR' as (_ & _ & _ & _ & xs & ? & _ & ?). by exists xs.
Qed.
End library.

(** The functions of timerrb and of timeravl are those of the section. *)
Lemma timerrb_do_is fuel rb op s : timerrb_do fuel rb op s = tree_do fuel rb op s.
Proof. destruct s, op; reflexivity. Qed.
Lemma timeravl_do_is fuel avl op s : timeravl_do fuel avl op s = tree_do fuel avl op s.
Proof. destruct s, op; reflexivity. Qed.
Lemma tq_run_ext {S} (Q Q' : TimerQueue S) ops s :
  (forall op s, tq_do (TimerQueue := Q) op s = tq_do (TimerQueue := Q') op s) ->
  tq_run (H := Q) ops s = tq_run (H := Q') ops s.
Proof.
  intros E. revert s. induction ops as [|op ops IH]; intros s; simpl; [done|]. rewrite E.
  destruct (tq_do op s) as [[o s']| | |]; simpl; [|done..]. by rewrite IH.
Qed.

Definition timerrb_queue (fuel : nat) (rb : Z) : TimerQueue (gmap Z rb_cell * times) :=
  {| tq_do := timerrb_do fuel rb; tq_rep := tree_rep_of fuel rb |}.
Definition timeravl_queue (fuel : nat) (avl : Z) : TimerQueue (gmap Z avl_cell * times) :=
  {| tq_do := timeravl_do fuel avl; tq_rep := tree_rep_of fuel avl |}.

(** C40: the timers on red-black trees and those on AVL trees are timer queues.  Take memory with a header and the
    client's timers [P], initialise the tree and run any sequence of operations the interface allows and that does
    not ask for the next timer before the first addition, unless [next] was [NULL] before: initialising does not
    set it.  Every call returns (no [abort()], no access outside a node, every loop ends), the answers
    are those of a map from timers to times, in particular [next] is a timer with the least time after every
    operation, and the tree in memory at the end is valid and holds the timers of the map. *)
Theorem tree_timers_refine (fuel : nat) (tr : Z) (P : gset Z) (Hrb : gmap Z rb_cell) (Havl : gmap Z avl_cell)
  (T : times) ops (Hfuel : (size P + 2 < fuel)%nat) (Hmrb : client_memory tr P Hrb) (Hmavl : client_memory tr P Havl)
  (Hnrb : next_unread tr Hrb ops) (Hnavl : next_unread tr Havl ops)
  (Hops : allowed_run P ∅ ops) :
  (exists H0 os m s, timerrb_init tr Hrb = Ret (tt, H0) /\
    tq_run (H := timerrb_queue fuel tr) ops (H0, T) = Ret (os, s) /\ qrun ∅ ops os m /\
    exists xs, timers_at tr s.1 xs /\ forall x, x ∈ xs <-> x ∈ dom m) /\
  (exists H0 os m s, timeravl_init tr Havl = Ret (tt, H0) /\
    tq_run (H := timeravl_queue fuel tr) ops (H0, T) = Ret (os, s) /\ qrun ∅ ops os m /\
    exists xs, timers_at tr s.1 xs /\ forall x, x ∈ xs <-> x ∈ dom m).
Proof.
  split.
  - destruct (tree_timers_run fuel tr P Hrb T ops Hfuel Hmrb Hnrb Hops) as (H0 & os & m & s & E0 & E & Hrest).
    exists H0, os, m, s. split; [done|]. split; [|done].
    rewrite (tq_run_ext (timerrb_queue fuel tr) (tree_timers fuel tr)) //. apply timerrb_do_is.
  - destruct (tree_timers_run fuel tr P Havl T ops Hfuel Hmavl Hnavl Hops) as (H0 & os & m & s & E0 & E & Hrest).
    exists H0, os, m, s. split; [done|]. split; [|done].
    rewrite (tq_run_ext (timeravl_queue fuel tr) (tree_timers fuel tr)) //. apply timeravl_do_is.
Qed.

Definition sample_rb_timers : gmap Z rb_cell :=
  <[1 := Root 7]> (<[25 := Root 50]> (<[40 := Node (mkNode false 0 0 0)]> (<[50 := Node (mkNode false 0 0 0)]> ∅))).
Definition sample_avl_timers : gmap Z avl_cell :=
  <[1 := Root 7]> (<[25 := Root 50]> (<[40 := Node (mkNode 0 0 0 0)]> (<[50 := Node (mkNode 0 0 0 0)]> ∅))).
Definition sample_ops : list timer_op := [TAdd 40 5; TAdd 50 3; TNext; TModify 50 9; TNext; TRemove 40; TNext].

Lemma tree_timers_refine_witness :
  (exists H0 os m s, timerrb_init 1 sample_rb_timers = Ret (tt, H0) /\
    tq_run (H := timerrb_queue 6 1) sample_ops (H0, fun _ => 0) = Ret (os, s) /\ qrun ∅ sample_ops os m) /\
  (exists H0 os m s, timeravl_init 1 sample_avl_timers = Ret (tt, H0) /\
    tq_run (H := timeravl_queue 6 1) sample_ops (H0, fun _ => 0) = Ret (os, s) /\ qrun ∅ sample_ops os m).
Proof.
  destruct (tree_timers_refine 6 1 {[40; 50]} sample_rb_timers sample_avl_timers (fun _ => 0) sample_ops)
    as [(H0 & os & m & s & E0 & E & Hq & _) (H0' & os' & m' & s' & E0' & E' & Hq' & _)].
  - vm_compute. lia.
  - split; [|split; [by eexists|by eexists]]. intros x Hx. apply elem_of_union in Hx as [Hx|Hx];
      apply elem_of_singleton in Hx as ->; (split; [done|eexists; reflexivity]).
  - split; [|split; [by eexists|by eexists]]. intros x Hx. apply elem_of_union in Hx as [Hx|Hx];
      apply elem_of_singleton in Hx as ->; (split; [done|eexists; reflexivity]).
  - right. by eexists _, _, _.
  - right. by eexists _, _, _.
  - simpl. repeat split; try (apply (bool_decide_unpack _); reflexivity); try (eexists; reflexivity); try lia; reflexivity.
  - split; [by exists H0, os, m, s|by exists H0', os', m', s'].
Defined.
(** A header that was not cleared: the next timer is one that was never added. *)
Example next_of_a_fresh_header :
  (r ← timerrb_init 1 sample_rb_timers; let '(_, H) := r in r ← timerrb_next_expiry_timer 1 H; Ret r.1) = Ret 50 /\
  (r ← timeravl_init 1 sample_avl_timers; let '(_, H) := r in r ← timeravl_next_expiry_timer 1 H; Ret r.1) = Ret 50.
Proof. split; reflexivity. Qed.
