(* ===== verification/CString.v ===== *)
(** C strings: [strlen], [strchr] and the strings of names.

    A string is a block with a NUL byte; a search that reaches the end of the
    block is undefined. *)
From S2P Require Import Prelude Bytes Packet.

(** The bound on the searches is the size of the block: a search that goes on
    longer has left it. *)
Fixpoint strlen_from (n : nat) (b : mem) (p : Z) : outcome Z :=
  match n with
  | O => Undef
  | S n => c ← load8 b p; if c =? 0 then Ret 0 else l ← strlen_from n b (p + 1); Ret (1 + l)
  end.
Definition strlen (b : mem) (p : Z) : outcome Z := strlen_from (S (size b)) b p.

(** [strchr(p, c)]: the address of the first [c], or [NULL]. *)
Fixpoint strchr_from (n : nat) (b : mem) (p c : Z) : outcome (option Z) :=
  match n with
  | O => Undef
  | S n => x ← load8 b p; if x =? c then Ret (Some p) else if x =? 0 then Ret None else strchr_from n b (p + 1) c
  end.
Definition strchr (b : mem) (p c : Z) : outcome (option Z) := strchr_from (S (size b)) b p c.

(** [s] is the string at [p]. *)
Definition cstring (b : mem) (p : Z) (s : list Z) : Prop := Forall (fun c => c <> 0) s /\ bytes_at b p (s ++ [0]).

(** [strcmp] of two strings is zero. *)
Fixpoint strcmp_from (n : nat) (a b : mem) (p q : Z) : outcome bool :=
  match n with
  | O => Undef
  | S n =>
      x ← load8 a p; y ← load8 b q;
      if negb (x =? y) then Ret false else if x =? 0 then Ret true else strcmp_from n a b (p + 1) (q + 1)
  end.
Definition strcmp_eq (a b : mem) (p q : Z) : outcome bool := strcmp_from (S (size a)) a b p q.

Lemma bytes_at_size b p bs : bytes_at b p bs -> (length bs <= size b)%nat.
Proof.
  intros Hb. assert (list_to_set (seqZ p (Z.of_nat (length bs))) ⊆ dom b) as Hsub.
  { intros q Hq. apply elem_of_list_to_set, elem_of_seqZ in Hq. apply elem_of_dom.
    by apply (bytes_at_valid _ _ _ Hb). }
  apply subseteq_size in Hsub. rewrite (size_dom (D := gset Z) b), size_list_to_set, length_seqZ in Hsub by apply NoDup_seqZ.
  lia.
Qed.

Lemma cstring_cons b p c s : cstring b p (c :: s) <-> c <> 0 /\ b !! p = Some c /\ cstring b (p + 1) s.
Proof. unfold cstring. rewrite list.Forall_cons. simpl. rewrite bytes_at_cons. tauto. Qed.
Lemma cstring_nil b p : cstring b p [] <-> b !! p = Some 0.
Proof.
  unfold cstring. simpl. rewrite bytes_at_cons. split; [tauto|]. intros ?. split; [constructor|].
  split; [done|]. intros i c Hi. by rewrite lookup_nil in Hi.
Qed.
Lemma cstring_app b p s s' : cstring b p (s ++ s') <-> Forall (fun c => c <> 0) s /\ bytes_at b p s /\ cstring b (p + Z.of_nat (length s)) s'.
Proof. unfold cstring. rewrite list.Forall_app, <- app_assoc, bytes_at_app. tauto. Qed.
Lemma cstring_size b p s : cstring b p s -> (length s < size b)%nat.
Proof. intros [_ Hb]. apply bytes_at_size in Hb. rewrite length_app in Hb. simpl in Hb. lia. Qed.

Lemma strlen_from_ok n b p s : cstring b p s -> (length s < n)%nat -> strlen_from n b p = Ret (Z.of_nat (length s)).
Proof.
  revert n p. induction s as [|c s IH]; intros [|n] p Hs Hn; simpl in Hn; try lia; cbn [strlen_from]; unfold load8.
  - apply cstring_nil in Hs. by rewrite Hs.
  - apply cstring_cons in Hs as (Hc & Hp & Hs). rewrite Hp. cbn [of_option mbind outcome_bind].
    destruct (Z.eqb_spec c 0); [done|]. rewrite (IH n) by (done || lia). simpl. f_equal. lia.
Qed.
Lemma strlen_ok b p s : cstring b p s -> strlen b p = Ret (Z.of_nat (length s)).
Proof. intros Hs. apply strlen_from_ok; [done|]. apply cstring_size in Hs. lia. Qed.

Lemma strchr_from_ok n b p c s : cstring b p s -> (length s < n)%nat -> c ∉ s -> c <> 0 -> strchr_from n b p c = Ret None.
Proof.
  revert n p. induction s as [|d s IH]; intros [|n] p Hs Hn Hc H0; simpl in Hn; try lia; cbn [strchr_from]; unfold load8.
  - apply cstring_nil in Hs. rewrite Hs. cbn [of_option mbind outcome_bind]. by destruct (Z.eqb_spec 0 c); [subst|].
  - apply cstring_cons in Hs as (Hd & Hp & Hs). rewrite Hp. cbn [of_option mbind outcome_bind].
    apply not_elem_of_cons in Hc as [Hcd Hc]. destruct (Z.eqb_spec d c); [subst; done|].
    destruct (Z.eqb_spec d 0); [done|]. apply IH; [done|lia|done|done].
Qed.
Lemma strchr_from_found n b p c s s' :
  cstring b p (s ++ c :: s') -> (length s < n)%nat -> c ∉ s -> strchr_from n b p c = Ret (Some (p + Z.of_nat (length s))).
Proof.
  revert n p. induction s as [|d s IH]; intros [|n] p Hs Hn Hc; simpl in Hn; try lia; cbn [strchr_from]; unfold load8.
  - apply cstring_cons in Hs as (Hd & Hp & Hs). rewrite Hp. cbn [of_option mbind outcome_bind]. rewrite Z.eqb_refl.
    do 2 f_equal. simpl. lia.
  - simpl in Hs. apply cstring_cons in Hs as (Hd & Hp & Hs). rewrite Hp. cbn [of_option mbind outcome_bind].
    apply not_elem_of_cons in Hc as [Hcd Hc]. destruct (Z.eqb_spec d c); [subst; done|].
    destruct (Z.eqb_spec d 0); [done|]. rewrite (IH n) by (done || lia). do 2 f_equal. simpl. lia.
Qed.
Lemma strchr_none b p c s : cstring b p s -> c ∉ s -> c <> 0 -> strchr b p c = Ret None.
Proof. intros Hs Hc H0. eapply strchr_from_ok; [done| |done|done]. apply cstring_size in Hs. lia. Qed.
Lemma strchr_some b p c s s' :
  cstring b p (s ++ c :: s') -> c ∉ s -> strchr b p c = Ret (Some (p + Z.of_nat (length s))).
Proof.
  intros Hs Hc. eapply strchr_from_found; [done| |done]. apply cstring_size in Hs. rewrite length_app in Hs. lia.
Qed.

Lemma strcmp_from_ok n a b p q s s' :
  cstring a p s -> cstring b q s' -> (length s < n)%nat -> strcmp_from n a b p q = Ret (bool_decide (s = s')).
Proof.
  revert n p q s'. induction s as [|c s IH]; intros [|n] p q s' Hs Hs' Hn; simpl in Hn; try lia;
    cbn [strcmp_from]; unfold load8.
  - apply cstring_nil in Hs. rewrite Hs. destruct s' as [|d s'].
    + apply cstring_nil in Hs'. by rewrite Hs'.
    + apply cstring_cons in Hs' as (Hd & Hq & Hs'). rewrite Hq. cbn [of_option mbind outcome_bind].
      destruct (Z.eqb_spec 0 d); [lia|]. done.
  - apply cstring_cons in Hs as (Hc & Hp & Hs). rewrite Hp. destruct s' as [|d s'].
    + apply cstring_nil in Hs'. rewrite Hs'. cbn [of_option mbind outcome_bind]. by destruct (Z.eqb_spec c 0).
    + apply cstring_cons in Hs' as (Hd & Hq & Hs'). rewrite Hq. cbn [of_option mbind outcome_bind].
      destruct (Z.eqb_spec c d) as [->|Hcd]; cbn [negb].
      * destruct (Z.eqb_spec d 0); [done|]. rewrite (IH n _ _ s') by (done || lia). f_equal.
        apply bool_decide_ext. naive_solver.
      * f_equal. symmetry. apply bool_decide_eq_false. congruence.
Qed.
Lemma strcmp_ok a b p q s s' : cstring a p s -> cstring b q s' -> strcmp_eq a b p q = Ret (bool_decide (s = s')).
Proof. intros Hs Hs'. eapply strcmp_from_ok; [done|done|]. apply cstring_size in Hs. lia. Qed.
