(* ===== verification/Dns.v ===== *)
(** DNS messages: iphdr/dnshdr.h and iphdr/dnshdr.c.

    The message, the name buffers and the data buffer are blocks of their own.
    The loop that reads a name is written three times in the source, in
    [dns_next], for the owner name in [dns_next_an_ask] and for the data of a
    CNAME record there; it is [dns_label_step] here.  The loop that writes a
    name with compression is written twice, in [dns_put_next] and
    [dns_put_next_qr]; it is [dns_put_step].  [uint16_t] arithmetic is kept at
    its width. *)
From S2P Require Import Prelude Bytes Packet CString.

Definition ENOENT : Z := 2.
Definition EFAULT : Z := 14.

(** ** Header fields *)

Section accessors.
Context `{Host}.

Definition dns_id (m : mem) (dns : Z) : outcome Z := hdr_get16n m dns.
Definition dns_set_id (m : mem) (dns id : Z) : outcome mem := hdr_set16n m dns id.

(** One bit of a byte of the header: [!!(c & (1<<n))], and the statements that
    clear and set it. *)
Definition get_bit (m : mem) (p n : Z) : outcome Z :=
  c ← load8 m p; Ret (b2z (negb (Z.land c (Z.shiftl 1 n) =? 0))).
Definition put_bit (m : mem) (p n bit : Z) : outcome mem :=
  c ← load8 m p;
  m ← store8 m p (Z.land c (Z.lnot (Z.shiftl 1 n)));
  c ← load8 m p;
  store8 m p (Z.lor c (Z.shiftl (b2z (negb (bit =? 0))) n)).

Definition dns_qr (m : mem) (dns : Z) : outcome Z := get_bit m (dns + 2) 7.
Definition dns_set_qr (m : mem) (dns bit : Z) : outcome mem := put_bit m (dns + 2) 7 bit.
Definition dns_opcode (m : mem) (dns : Z) : outcome Z :=
  c ← load8 m (dns + 2); Ret (Z.shiftr (Z.land c 0x78) 3).
Definition dns_set_opcode (m : mem) (dns bits : Z) : outcome mem :=
  c ← load8 m (dns + 2);
  m ← store8 m (dns + 2) (Z.land c (Z.lnot 0x78));
  c ← load8 m (dns + 2);
  store8 m (dns + 2) (Z.lor c (Z.shiftl (Z.land bits 0xF) 3)).
Definition dns_aa (m : mem) (dns : Z) : outcome Z := get_bit m (dns + 2) 2.
Definition dns_set_aa (m : mem) (dns bit : Z) : outcome mem := put_bit m (dns + 2) 2 bit.
Definition dns_tc (m : mem) (dns : Z) : outcome Z := get_bit m (dns + 2) 1.
Definition dns_set_tc (m : mem) (dns bit : Z) : outcome mem := put_bit m (dns + 2) 1 bit.
Definition dns_rd (m : mem) (dns : Z) : outcome Z := get_bit m (dns + 2) 0.
Definition dns_set_rd (m : mem) (dns bit : Z) : outcome mem := put_bit m (dns + 2) 0 bit.
Definition dns_ra (m : mem) (dns : Z) : outcome Z := get_bit m (dns + 3) 7.
Definition dns_set_ra (m : mem) (dns bit : Z) : outcome mem := put_bit m (dns + 3) 7 bit.
Definition dns_z (m : mem) (dns : Z) : outcome Z :=
  c ← load8 m (dns + 3); Ret (Z.shiftr (Z.land c 0x70) 4).
Definition dns_set_z (m : mem) (dns : Z) : outcome mem :=
  c ← load8 m (dns + 3); store8 m (dns + 3) (Z.land c (Z.lnot 0x70)).
Definition dns_rcode (m : mem) (dns : Z) : outcome Z :=
  c ← load8 m (dns + 3); Ret (Z.land c 0x0F).
Definition dns_set_rcode (m : mem) (dns bits : Z) : outcome mem :=
  c ← load8 m (dns + 3);
  m ← store8 m (dns + 3) (Z.land c (Z.lnot 0x0F));
  c ← load8 m (dns + 3);
  store8 m (dns + 3) (Z.lor c (Z.land bits 0x0F)).

(** The getters of the counts return [uint8_t]. *)
Definition dns_qdcount (m : mem) (dns : Z) : outcome Z := v ← hdr_get16n m (dns + 4); Ret (u8 v).
Definition dns_ancount (m : mem) (dns : Z) : outcome Z := v ← hdr_get16n m (dns + 6); Ret (u8 v).
Definition dns_nscount (m : mem) (dns : Z) : outcome Z := v ← hdr_get16n m (dns + 8); Ret (u8 v).
Definition dns_arcount (m : mem) (dns : Z) : outcome Z := v ← hdr_get16n m (dns + 10); Ret (u8 v).
Definition dns_set_qdcount (m : mem) (dns val : Z) : outcome mem := hdr_set16n m (dns + 4) val.
Definition dns_set_ancount (m : mem) (dns val : Z) : outcome mem := hdr_set16n m (dns + 6) val.
Definition dns_set_nscount (m : mem) (dns val : Z) : outcome mem := hdr_set16n m (dns + 8) val.
Definition dns_set_arcount (m : mem) (dns val : Z) : outcome mem := hdr_set16n m (dns + 10) val.

(** The writers' initialisers; the first one also resets the offset. *)
Definition dns_next_init_an (m : mem) (dns remcnt : Z) : outcome (mem * Z) :=
  m ← dns_set_ancount m dns remcnt; Ret (m, 12).
Definition dns_next_init_ns (m : mem) (dns remcnt : Z) : outcome mem := dns_set_nscount m dns remcnt.
Definition dns_next_init_ar (m : mem) (dns remcnt : Z) : outcome mem := dns_set_arcount m dns remcnt.

(** The readers': the new offset and count, or the count for the offset. *)
Definition dns_next_init_qd (m : mem) (dns plen : Z) : outcome (Z * Z) :=
  if plen <? 12 then Abort else remcnt ← dns_qdcount m dns; Ret (12, remcnt).
Definition dns_next_init_an_ask (m : mem) (dns off plen : Z) : outcome Z :=
  if plen <? off then Abort else dns_ancount m dns.

(** ** Reading names *)

Record label_state := LabelState { l_off : Z; l_laboff : Z; l_jmp : bool; l_buf : mem }.

(** The end of the loop body: [labsiz] bytes from [laboff] and a dot are
    appended to the string in the buffer.  [false] is [return -EFAULT]. *)
Definition append_label (m : mem) (dns plen bufsiz : Z) (s : label_state) (labsiz : Z)
    : outcome (label_state + bool * label_state) :=
  if l_laboff s + labsiz >=? plen then Ret (inr (false, s)) else
  strlentmp ← strlen (l_buf s) 0;
  if labsiz + strlentmp + 2 >? bufsiz then Ret (inr (false, s)) else
  buf ← memcpy_from (l_buf s) strlentmp m (dns + l_laboff s) labsiz;
  buf ← storen buf (strlentmp + labsiz) [46; 0];
  Ret (inl (LabelState (l_off s) (u16 (l_laboff s + labsiz)) (l_jmp s) buf)).

(** [while ( *off < plen && *remcnt) { ... }]; [inr (true, s)] leaves the loop. *)
Definition dns_label_step (m : mem) (dns plen remcnt bufsiz : Z) (s : label_state)
    : outcome (label_state + bool * label_state) :=
  let '(LabelState off laboff jmp buf) := s in
  if negb ((off <? plen) && negb (remcnt =? 0)) then Ret (inr (true, s)) else
  labsiz ← load8 m (dns + laboff);
  let laboff := u16 (laboff + 1) in
  let off := if jmp then off else u16 (off + 1) in
  if labsiz =? 0 then Ret (inr (true, LabelState off laboff jmp buf)) else
  if Z.land labsiz 0xc0 =? 0xc0 then
    let labsiz := u16 (Z.shiftl (Z.land labsiz (Z.lnot 0xc0)) 8) in
    if laboff >=? plen then Ret (inr (false, LabelState off laboff jmp buf)) else
    c ← load8 m (dns + laboff);
    let labsiz := Z.lor labsiz c in
    let laboff := u16 (laboff + 1) in
    let off := if jmp then off else u16 (off + 1) in
    if labsiz >=? plen then Ret (inr (false, LabelState off laboff jmp buf)) else
    let laboff := u16 (labsiz + 1) in
    labsiz ← load8 m (dns + (laboff - 1));
    append_label m dns plen bufsiz (LabelState off laboff true buf) labsiz
  else
    let off := if jmp then off else u16 (off + labsiz) in
    append_label m dns plen bufsiz (LabelState off laboff jmp buf) labsiz.

(** What the readers leave behind: the arguments they update.  [q_ttl],
    [q_dat] and [q_datlen] are those of [dns_next_an_ask] only. *)
Record answer := Answer {
  q_off : Z; q_remcnt : Z; q_buf : mem; q_type : Z; q_class : Z; q_ttl : Z; q_dat : mem; q_datlen : Z
}.
Definition set_name (off : Z) (buf : mem) (a : answer) : answer :=
  Answer off (q_remcnt a) buf (q_type a) (q_class a) (q_ttl a) (q_dat a) (q_datlen a).
Definition set_dat (off : Z) (dat : mem) (datlen : Z) (a : answer) : answer :=
  Answer off (q_remcnt a) (q_buf a) (q_type a) (q_class a) (q_ttl a) dat datlen.
Definition decr_remcnt (a : answer) : answer :=
  Answer (q_off a) (u16 (q_remcnt a - 1)) (q_buf a) (q_type a) (q_class a) (q_ttl a) (q_dat a) (q_datlen a).

Definition dns_next (fuel : nat) (m : mem) (dns plen bufsiz : Z) (a : answer) : outcome (Z * answer) :=
  buf ← store8 (q_buf a) 0 0;
  let a := set_name (q_off a) buf a in
  if q_remcnt a =? 0 then Ret (- ENOENT, a) else
  r ← iter fuel (dns_label_step m dns plen (q_remcnt a) bufsiz) (LabelState (q_off a) (q_off a) false buf);
  let '(ok, s) := r in
  let off := l_off s in
  let buf := l_buf s in
  let a := set_name off buf a in
  if negb ok then Ret (- EFAULT, a) else
  if off + 4 >? plen then Ret (- EFAULT, a) else
  qtype ← hdr_get16n m (dns + off);
  qclass ← hdr_get16n m (dns + (off + 2));
  let off := u16 (off + 4) in
  strlentmp ← strlen buf 0;
  buf ← store8 buf (strlentmp - 1) 0;
  Ret (0, decr_remcnt (Answer off (q_remcnt a) buf qtype qclass (q_ttl a) (q_dat a) (q_datlen a))).

(** The loop on the data of a CNAME record also leaves when there is no data,
    and tests the space against the size of the other buffer. *)
Definition dns_cname_step (m : mem) (dns plen remcnt bufsiz datrem : Z) (s : label_state)
    : outcome (label_state + bool * label_state) :=
  if negb ((l_off s <? plen) && negb (remcnt =? 0)) then Ret (inr (true, s)) else
  if datrem =? 0 then Ret (inr (false, s)) else
  dns_label_step m dns plen remcnt bufsiz s.

Definition dns_next_an_ask (fuel : nat) (m : mem) (dns plen bufsiz datbufsiz : Z) (a : answer)
    : outcome (Z * answer) :=
  buf ← store8 (q_buf a) 0 0;
  datbuf ← store8 (q_dat a) 0 0;
  let a := set_dat (q_off a) datbuf (q_datlen a) (set_name (q_off a) buf a) in
  if q_remcnt a =? 0 then Ret (- ENOENT, a) else
  r ← iter fuel (dns_label_step m dns plen (q_remcnt a) bufsiz) (LabelState (q_off a) (q_off a) false buf);
  let '(ok, s) := r in
  let off := l_off s in
  let a := set_name off (l_buf s) a in
  if negb ok then Ret (- EFAULT, a) else
  if off + 10 >? plen then Ret (- EFAULT, a) else
  qtype ← hdr_get16n m (dns + off);
  qclass ← hdr_get16n m (dns + (off + 2));
  ttl ← hdr_get32n m (dns + (off + 4));
  datrem ← hdr_get16n m (dns + (off + 8));
  let off := u16 (off + 10) in
  let a := Answer off (q_remcnt a) (q_buf a) qtype qclass ttl datbuf (q_datlen a) in
  if negb (qtype =? 5) then
    if datrem + 2 >? datbufsiz then Ret (- EFAULT, a) else
    datbuf ← memcpy_from datbuf 0 m (dns + off) datrem;
    Ret (0, decr_remcnt (set_dat off datbuf datrem a))
  else
    r ← iter fuel (dns_cname_step m dns plen (q_remcnt a) bufsiz datrem) (LabelState off off false datbuf);
    let '(ok, s) := r in
    let off := l_off s in
    let datbuf := l_buf s in
    if negb ok then Ret (- EFAULT, set_dat off datbuf (q_datlen a) a) else
    strlentmp ← strlen datbuf 0;
    datbuf ← store8 datbuf (strlentmp - 1) 0;
    Ret (0, decr_remcnt (set_dat off datbuf strlentmp a)).

(** ** Writing names *)

(** [chr = strchr(p, '.'); if (chr == NULL) chr = p + strlen(p);] *)
Definition label_end (name : mem) (p : Z) : outcome Z :=
  chr ← strchr name p 46;
  match chr with Some c => Ret c | None => l ← strlen name p; Ret (p + l) end.
(** [if ( *chr == '\0') p = chr; else p = chr + 1;] *)
Definition next_label (name : mem) (chr : Z) : outcome Z :=
  c ← load8 name chr; Ret (if c =? 0 then chr else chr + 1).

(** One pass of the inner loop of [memdns]: is the name from [dnsbuf] on at
    offset [j] of the message?  [inr] is the answer. *)
Definition memdns_step (m : mem) (dns off : Z) (name : mem) (s : Z * Z) : outcome (Z * Z + bool) :=
  let '(j, dnsbuf) := s in
  chr ← label_end name dnsbuf;
  if j >=? off then Ret (inr false) else
  c ← load8 m (dns + j);
  jump ← (if Z.land c 0xC0 =? 0xC0 then
            let newj := Z.shiftl (Z.land c 0x3F) 8 in
            let j := j + 1 in
            if j >=? off then Ret None else
            c ← load8 m (dns + j);
            Ret (Some (newj + Z.land c 0xFF))
          else Ret (Some j));
  match jump with
  | None => Ret (inr false)
  | Some j =>
      let n := u8 (chr - dnsbuf) in
      if j >=? off then Ret (inr false) else
      c ← load8 m (dns + j);
      let j := j + 1 in
      if negb (c =? n) then Ret (inr false) else
      if chr =? dnsbuf then Ret (inr true) else
      if j + n >=? off then Ret (inr false) else
      a ← loadn m (dns + j) (Z.to_nat n);
      b ← loadn name dnsbuf (Z.to_nat n);
      if negb (bool_decide (a = b)) then Ret (inr false) else
      dnsbuf ← next_label name chr;
      Ret (inl (j + n, dnsbuf))
  end.

(** The inner loop goes at most once over the labels of the name, the outer
    one over the offsets up to [off]. *)
Definition memdns (m : mem) (dns off : Z) (name : mem) (p : Z) : outcome Z :=
  cstrlen ← strlen name p;
  let dnsstrlen := if cstrlen =? 0 then 1 else cstrlen + 2 in
  if dnsstrlen >? off then Ret (-1) else
  iter (Z.to_nat off + 2) (fun i =>
    if i >? off then Ret (inr (-1)) else
    found ← iter (Z.to_nat cstrlen + 2) (memdns_step m dns off name) (i, p);
    Ret (if (found : bool) then inr i else inl (i + 1))) 0.

(** One label of the name that is written: the state is the message, the
    offset and the rest of the name. *)
Definition dns_put_step (dns plen : Z) (name : mem) (s : mem * Z * Z) : outcome (mem * Z * Z + bool * mem * Z) :=
  let '(m, off, buf) := s in
  chr ← label_end name buf;
  matchoff ← memdns m dns off name buf;
  if negb (chr =? buf) && (matchoff >=? 0) && (matchoff <? 0x4000) && (off + 2 <=? plen) then
    m ← store8 m (dns + off) (Z.lor 0xc0 (Z.shiftr matchoff 8));
    let off := u16 (off + 1) in
    m ← store8 m (dns + off) matchoff;
    let off := u16 (off + 1) in
    Ret (inr (true, m, off))
  else
  if off + 1 + (chr - buf) >? plen then Ret (inr (false, m, off)) else
  m ← store8 m (dns + off) (chr - buf);
  let off := u16 (off + 1) in
  m ← memcpy_from m (dns + off) name buf (chr - buf);
  let off := u16 (off + (chr - buf)) in
  if chr =? buf then Ret (inr (true, m, off)) else
  buf ← next_label name chr;
  Ret (inl (m, off, buf)).

(** [remcnt] is an argument of both writers that they do not use. *)
Definition dns_put_next_qr (m : mem) (dns off plen : Z) (name : mem) (p qtype qclass : Z) : outcome (Z * mem * Z) :=
  l ← strlen name p;
  if off + l + 2 + 4 >? plen then Ret (- EFAULT, m, off) else
  r ← iter (Z.to_nat l + 2) (dns_put_step dns plen name) (m, off, p);
  let '(ok, m, off) := r in
  if negb ok then Ret (- EFAULT, m, off) else
  if off + 4 >? plen then Ret (- EFAULT, m, off) else
  m ← hdr_set16n m (dns + off) qtype;
  m ← hdr_set16n m (dns + (off + 2)) qclass;
  Ret (0, m, u16 (off + 4)).

Definition dns_put_next (m : mem) (dns off plen : Z) (name : mem) (p qtype qclass ttl rdlength : Z) (rdata : mem)
    : outcome (Z * mem * Z) :=
  l ← strlen name p;
  if off + l + 2 + 10 + rdlength >? plen then Ret (- EFAULT, m, off) else
  r ← iter (Z.to_nat l + 2) (dns_put_step dns plen name) (m, off, p);
  let '(ok, m, off) := r in
  if negb ok then Ret (- EFAULT, m, off) else
  if off + 10 + rdlength >? plen then Ret (- EFAULT, m, off) else
  m ← hdr_set16n m (dns + off) qtype;
  m ← hdr_set16n m (dns + (off + 2)) qclass;
  m ← hdr_set32n m (dns + (off + 4)) ttl;
  m ← hdr_set16n m (dns + (off + 8)) rdlength;
  m ← memcpy_from m (dns + (off + 10)) rdata 0 rdlength;
  Ret (0, m, u16 (off + 10 + rdlength)).

(** ** Following a name to its data *)

(** [snprintf(dst, size, "%s.", src)] *)
Definition snprintf_dot (dst : mem) (size : Z) (src : mem) (p : Z) : outcome mem :=
  l ← strlen src p;
  s ← loadn src p (Z.to_nat l);
  storen dst 0 (take (Z.to_nat (size - 1)) (s ++ [46]) ++ [0]).

(** How the inner loop of [recursive_resolve] ends: [return -ENOENT], a CNAME
    record of the wanted name ([break]), or another record of it. *)
Inductive resolve_exit := RNoEntry (a : answer) | RCname (a : answer) | RFound (a : answer).

Definition resolve_step (fuel : nat) (m : mem) (pkt plen qclassexp databufsiz : Z) (nextbuf : mem) (a : answer)
    : outcome (answer + resolve_exit) :=
  let a := set_dat (q_off a) (q_dat a) 0 a in
  r ← dns_next_an_ask fuel m pkt plen 8192 databufsiz a;
  let '(rc, a) := r in
  if negb (rc =? 0) then Ret (inr (RNoEntry a)) else
  same ← strcmp_eq (q_buf a) nextbuf 0 0;
  if negb same then Ret (inl a) else
  if negb (q_class a =? qclassexp) then Ret (inr (RNoEntry a)) else
  if q_type a =? 5 then Ret (inr (RCname a)) else Ret (inr (RFound a)).

(** One pass of the outer loop: the answers are read from the first one. *)
Definition resolve_round (fuel : nat) (m : mem) (pkt plen qclassexp databufsiz answer_aoff : Z)
    (s : Z * mem * answer) : outcome (Z * mem * answer + Z * option (Z * Z) * mem) :=
  let '(i, nextbuf, a) := s in
  if negb (i <? 100) then Ret (inr (- ENOENT, None, q_dat a)) else
  remcnt ← dns_next_init_an_ask m pkt answer_aoff plen;
  let a := Answer answer_aoff remcnt (q_buf a) (q_type a) (q_class a) (q_ttl a) (q_dat a) (q_datlen a) in
  r ← iter fuel (resolve_step fuel m pkt plen qclassexp databufsiz nextbuf) a;
  match r with
  | RNoEntry a => Ret (inr (- ENOENT, None, q_dat a))
  | RCname a => nextbuf ← snprintf_dot nextbuf 8192 (q_dat a) 0; Ret (inl (i + 1, nextbuf, a))
  | RFound a => Ret (inr (0, Some (q_type a, q_datlen a), q_dat a))
  end.

(** [nambuf], [nextbuf] and [databuf] are the two local arrays and the caller's
    buffer.  The answer is the return value, what is stored in [*qtypeptr] and
    [*datalen], and the buffer.  [recvd] is passed on as a [uint16_t]. *)
Definition recursive_resolve (fuel : nat) (m : mem) (pkt recvd : Z) (name : mem) (p qclassexp databufsiz : Z)
    (nambuf nextbuf databuf : mem) : outcome (Z * option (Z * Z) * mem) :=
  let plen := u16 recvd in
  r ← dns_next_init_qd m pkt plen;
  let '(aoff, remcnt) := r in
  r ← dns_next fuel m pkt plen 8192 (Answer aoff remcnt nambuf 0 0 0 databuf 0);
  let '(rc, a) := r in
  if negb (rc =? 0) then Ret (- ENOENT, None, databuf) else
  same ← strcmp_eq (q_buf a) name 0 p;
  if negb same then Ret (- ENOENT, None, databuf) else
  nextbuf ← snprintf_dot nextbuf 8192 name p;
  r ← dns_next fuel m pkt plen 8192 a;
  let '(rc, a) := r in
  if rc =? 0 then Ret (- EFAULT, None, databuf) else
  let answer_aoff := q_off a in
  _ ← dns_next_init_an_ask m pkt answer_aoff plen;
  iter 101 (resolve_round fuel m pkt plen qclassexp databufsiz answer_aoff) (0, nextbuf, a).
End accessors.
