(* ===== verification/DnsNames.v ===== *)
(** Names in DNS messages: what a name in a message is, and the loop that
    reads it. *)
From S2P Require Import Prelude Bytes Packet CString Dns.

(** ** Names *)

(** The length byte and the bytes of a label. *)
Definition label_at (m : mem) (p : Z) (l : list Z) : Prop :=
  (1 <= length l <= 63)%nat /\ Forall (fun c => 1 <= c < 256) l /\ bytes_at m p (Z.of_nat (length l) :: l).

(** The labels of the name at offset [o]; it ends before the offset [e], and
    all its bytes are before [lim].  A compression pointer leads to a label. *)
Inductive name_at (m : mem) (dns lim : Z) : Z -> list (list Z) -> Z -> Prop :=
  | na_root o : 0 <= o < lim -> m !! (dns + o) = Some 0 -> name_at m dns lim o [] (o + 1)
  | na_label o l ls e :
      0 <= o -> label_at m (dns + o) l -> o + 1 + Z.of_nat (length l) < lim ->
      name_at m dns lim (o + 1 + Z.of_nat (length l)) ls e -> name_at m dns lim o (l :: ls) e
  | na_pointer o a b t l ls e :
      0 <= o -> o + 1 < lim -> bytes_at m (dns + o) [a; b] -> 192 <= a < 256 -> 0 <= b < 256 ->
      t = (a - 192) * 256 + b -> label_at m (dns + t) l -> t + 1 + Z.of_nat (length l) < lim ->
      name_at m dns lim (t + 1 + Z.of_nat (length l)) ls e -> name_at m dns lim o (l :: ls) (o + 2).

(** The string of a name, as the callers write it and with a dot after every
    label. *)
Fixpoint name_str (ls : list (list Z)) : list Z :=
  match ls with [] => [] | [l] => l | l :: ls => l ++ 46 :: name_str ls end.
Definition name_dots (ls : list (list Z)) : list Z := concat ((fun l => l ++ [46]) <$> ls).
(** The size of a name in a message, without compression. *)
Definition name_size (ls : list (list Z)) : Z := Z.of_nat (length (name_dots ls)) + 1.

Lemma name_dots_cons l ls : name_dots (l :: ls) = l ++ [46] ++ name_dots ls.
Proof. unfold name_dots. simpl. by rewrite <- app_assoc. Qed.
Lemma name_str_cons l ls : ls <> [] -> name_str (l :: ls) = l ++ 46 :: name_str ls.
Proof. by destruct ls. Qed.
Lemma name_str_dots ls : ls <> [] -> name_str ls ++ [46] = name_dots ls.
Proof.
  induction ls as [|l [|l' ls] IH]; intros Hls; [done|by rewrite name_dots_cons|].
  rewrite name_str_cons, name_dots_cons, <- IH by done. by rewrite <- app_assoc.
Qed.

Section agree.
Context (m m' : mem) (dns : Z).

(** A name depends on the bytes before the limit only. *)
Lemma label_at_agree p l :
  (forall q, p <= q <= p + Z.of_nat (length l) -> m' !! q = m !! q) -> label_at m p l -> label_at m' p l.
Proof.
  intros E (Hl & Hc & Hb). split; [done|]. split; [done|]. eapply bytes_at_agree; [|exact Hb].
  intros q Hq. simpl in Hq. apply E. lia.
Qed.
Lemma name_at_agree lim lim' o ls e :
  lim <= lim' -> (forall q, dns <= q < dns + lim -> m' !! q = m !! q) -> name_at m dns lim o ls e -> name_at m' dns lim' o ls e.
Proof.
  intros Hlim E Hn. induction Hn as [o Ho Hz|o l ls e Ho Hl Hlt _ IH|o a b t l ls e Ho Hlt Hb Ha Hb' Ht Hl Hlt' _ IH].
  - constructor; [lia|]. rewrite E by lia. done.
  - constructor; [done| |lia|done]. eapply label_at_agree; [|exact Hl]. intros q Hq. apply E. lia.
  - eapply na_pointer; [done|lia| |done|done|done| |lia|exact IH].
    + eapply bytes_at_agree; [|exact Hb]. intros q Hq. simpl in Hq. apply E. lia.
    + eapply label_at_agree; [|exact Hl]. intros q Hq. apply E. lia.
Qed.
Lemma name_at_ends lim o ls e : name_at m dns lim o ls e -> 0 <= o /\ o < e <= lim.
Proof. induction 1; lia. Qed.
End agree.

(** ** Buffers *)

(** Some string is in the block, and ends where the first NUL is. *)
Lemma some_cstring b p x : bytes_at b p (x ++ [0]) -> exists s, cstring b p s /\ (length s <= length x)%nat.
Proof.
  revert p. induction x as [|c x IH]; intros p Hb; simpl in Hb; apply bytes_at_cons in Hb as [Hp Hb].
  - exists []. split; [by apply cstring_nil|done].
  - destruct (decide (c = 0)) as [->|Hc]; [exists []; split; [by apply cstring_nil|simpl; lia]|].
    destruct (IH _ Hb) as (s & Hs & Hle). exists (c :: s). split; [by apply cstring_cons|simpl; lia].
Qed.

(** A buffer of the caller: [bufsiz] bytes and a string in them. *)
Definition buffer (bufsiz : Z) (b : mem) (s : list Z) : Prop :=
  valid b 0 bufsiz /\ cstring b 0 s /\ Z.of_nat (length s) < bufsiz.

(** ** Reading *)

(** The two high bits of a length byte, and the value of a pointer. *)
Lemma land_c0 a : 0 <= a < 256 -> (Z.land a 0xc0 =? 0xc0) = (192 <=? a).
Proof.
  intros Ha. apply eqb_prop.
  refine (byte_forall (fun a => Bool.eqb (Z.land a 0xc0 =? 0xc0) (192 <=? a)) _ a Ha). vm_compute. reflexivity.
Qed.
Lemma pointer_value a b :
  192 <= a < 256 -> 0 <= b < 256 -> Z.lor (u16 (Z.shiftl (Z.land a (Z.lnot 0xc0)) 8)) b = (a - 192) * 256 + b.
Proof.
  intros Ha Hb. assert (Z.land a (Z.lnot 0xc0) = a - 192) as ->.
  { apply Z.eqb_eq. assert ((a <? 192) || (Z.land a (Z.lnot 192) =? a - 192) = true) as Hbit.
    - refine (byte_forall (fun a => (a <? 192) || (Z.land a (Z.lnot 192) =? a - 192)) _ a _); [vm_compute; reflexivity|lia].
    - destruct (Z.ltb_spec a 192); [lia|done]. }
  rewrite Z.shiftl_mul_pow2 by lia. rewrite u16_small by lia. rewrite <- Z.shiftl_mul_pow2 by lia.
  rewrite lor_shift_add by lia. done.
Qed.

Section read.
Context (m : mem) (dns plen remcnt bufsiz : Z) (Hm : bytes_ok m) (Hplen : 0 <= plen <= 65535) (Hrem : remcnt <> 0).

(** Appending any bytes of the message. *)
Lemma append_label_bytes st s bs :
  buffer bufsiz (l_buf st) s -> bytes_at m (dns + l_laboff st) bs ->
  l_laboff st + Z.of_nat (length bs) < plen -> Z.of_nat (length s + length bs) + 2 <= bufsiz ->
  exists buf', append_label m dns plen bufsiz st (Z.of_nat (length bs)) =
    Ret (inl (LabelState (l_off st) (u16 (l_laboff st + Z.of_nat (length bs))) (l_jmp st) buf')) /\
    valid buf' 0 bufsiz /\ bytes_at buf' 0 (s ++ bs ++ [46; 0]) /\
    forall q, q < 0 \/ bufsiz <= q -> buf' !! q = l_buf st !! q.
Proof using Hm.
  intros (Hv & Hs & Hlen) Hb Hlt Hfit. unfold append_label.
  destruct (Z.geb_spec (l_laboff st + Z.of_nat (length bs)) plen); [lia|].
  rewrite (strlen_ok _ _ _ Hs). cbn [mbind outcome_bind].
  destruct (Z.gtb_spec (Z.of_nat (length bs) + Z.of_nat (length s) + 2) bufsiz); [lia|].
  rewrite memcpy_bytes by done.
  destruct (store_bytes (l_buf st) (Z.of_nat (length s)) bs) as (b1 & -> & Hb1 & Ho1 & Hv1).
  { eapply valid_sub; [exact Hv|lia|lia]. }
  { by eapply bytes_at_ok. }
  cbn [mbind outcome_bind].
  destruct (store_bytes b1 (Z.of_nat (length s) + Z.of_nat (length bs)) [46; 0]) as (b2 & -> & Hb2 & Ho2 & Hv2).
  { apply Hv1. eapply valid_sub; [exact Hv|lia|simpl; lia]. }
  { repeat constructor; lia. }
  cbn [mbind outcome_bind]. exists b2. split; [done|]. split; [by apply Hv2, Hv1|]. split.
  - rewrite bytes_at_app, bytes_at_app. destruct Hs as [_ Hs]. apply bytes_at_app in Hs as [Hs _]. split; [|split].
    + eapply bytes_at_agree; [|exact Hs]. intros q Hq. rewrite Ho2, Ho1 by lia. done.
    + eapply bytes_at_agree; [|exact Hb1]. intros q Hq. rewrite Ho2 by lia. done.
    + replace (0 + Z.of_nat (length s) + Z.of_nat (length bs)) with (Z.of_nat (length s) + Z.of_nat (length bs)) by lia. done.
  - intros q Hq. simpl in Ho2. rewrite Ho2, Ho1 by lia. done.
Qed.

Lemma append_label_ok st s l p :
  buffer bufsiz (l_buf st) s -> label_at m p l -> p = dns + l_laboff st - 1 ->
  l_laboff st + Z.of_nat (length l) < plen -> 0 <= l_laboff st -> Z.of_nat (length s + length l) + 2 <= bufsiz ->
  exists buf', append_label m dns plen bufsiz st (Z.of_nat (length l)) =
    Ret (inl (LabelState (l_off st) (l_laboff st + Z.of_nat (length l)) (l_jmp st) buf')) /\
    buffer bufsiz buf' (s ++ l ++ [46]) /\ forall q, q < 0 \/ bufsiz <= q -> buf' !! q = l_buf st !! q.
Proof using Hm Hplen.
  intros Hbuf (Hl & Hc & Hb) -> Hlt H0 Hfit. apply bytes_at_cons in Hb as [_ Hb].
  replace (dns + l_laboff st - 1 + 1) with (dns + l_laboff st) in Hb by lia.
  destruct (append_label_bytes st s l Hbuf Hb Hlt Hfit) as (b' & -> & Hv & Hb' & Ho). exists b'.
  rewrite u16_small by lia. split; [done|]. split; [|done]. split; [done|]. split.
  - split.
    + destruct Hbuf as (_ & [Hs _] & _). apply Forall_app. split; [done|]. apply Forall_app. split; [|by repeat constructor].
      eapply list.Forall_impl; [exact Hc|]. simpl. lia.
    + by rewrite <- !app_assoc.
  - rewrite !length_app. simpl. lia.
Qed.

Lemma load_byte p b : m !! p = Some b -> load8 m p = Ret b.
Proof. unfold load8. by intros ->. Qed.

(** The loop body at the three kinds of bytes. *)
Lemma step_root off o jmp buf :
  off < plen -> m !! (dns + o) = Some 0 ->
  exists laboff, dns_label_step m dns plen remcnt bufsiz (LabelState off o jmp buf) =
    Ret (inr (true, LabelState (if jmp then off else u16 (off + 1)) laboff jmp buf)).
Proof using Hrem.
  intros Hoff Hz. unfold dns_label_step. destruct (Z.ltb_spec off plen); [|lia].
  destruct (Z.eqb_spec remcnt 0); [done|]. cbn [negb andb]. rewrite (load_byte _ _ Hz). simpl. by eexists.
Qed.
Lemma step_label off o jmp buf s l :
  off < plen -> (jmp = false -> off = o) -> 0 <= o -> label_at m (dns + o) l -> o + 1 + Z.of_nat (length l) < plen ->
  buffer bufsiz buf s -> Z.of_nat (length s + length l) + 2 <= bufsiz ->
  exists buf', dns_label_step m dns plen remcnt bufsiz (LabelState off o jmp buf) =
    Ret (inl (LabelState (if jmp then off else o + 1 + Z.of_nat (length l)) (o + 1 + Z.of_nat (length l)) jmp buf')) /\
    buffer bufsiz buf' (s ++ l ++ [46]) /\ forall q, q < 0 \/ bufsiz <= q -> buf' !! q = buf !! q.
Proof using Hm Hplen Hrem.
  intros Hoff Hj Ho Hl Hlt Hbuf Hfit. unfold dns_label_step. destruct (Z.ltb_spec off plen); [|lia].
  destruct (Z.eqb_spec remcnt 0); [done|]. cbn [negb andb]. pose proof Hl as (Hlen & _ & [Hb _]%bytes_at_cons).
  rewrite (load_byte _ _ Hb). cbn [mbind outcome_bind]. destruct (Z.eqb_spec (Z.of_nat (length l)) 0); [lia|].
  rewrite land_c0 by lia. destruct (Z.leb_spec 192 (Z.of_nat (length l))); [lia|].
  rewrite (u16_small (o + 1)) by lia.
  destruct (append_label_ok (LabelState (if jmp then off else u16 (u16 (off + 1) + Z.of_nat (length l))) (o + 1) jmp buf)
    s l (dns + o)) as (b' & E & Hb' & Hout); simpl; try done; try lia.
  simpl in E. exists b'. destruct jmp; rewrite E; simpl; (split; [|done]); [done|].
  rewrite Hj by done. by rewrite (u16_small (o + 1)), u16_small by lia.
Qed.
Lemma step_pointer off o jmp buf s l a b t :
  off < plen -> (jmp = false -> off = o) -> 0 <= o -> o + 1 < plen -> bytes_at m (dns + o) [a; b] ->
  192 <= a < 256 -> 0 <= b < 256 -> t = (a - 192) * 256 + b -> label_at m (dns + t) l -> t + 1 + Z.of_nat (length l) < plen ->
  buffer bufsiz buf s -> Z.of_nat (length s + length l) + 2 <= bufsiz ->
  exists buf', dns_label_step m dns plen remcnt bufsiz (LabelState off o jmp buf) =
    Ret (inl (LabelState (if jmp then off else o + 2) (t + 1 + Z.of_nat (length l)) true buf')) /\
    buffer bufsiz buf' (s ++ l ++ [46]) /\ forall q, q < 0 \/ bufsiz <= q -> buf' !! q = buf !! q.
Proof using Hm Hplen Hrem.
  intros Hoff Hj Ho Hlt Hb Ha Hb' Ht Hl Hlt' Hbuf Hfit. unfold dns_label_step. destruct (Z.ltb_spec off plen); [|lia].
  destruct (Z.eqb_spec remcnt 0); [done|]. cbn [negb andb].
  apply bytes_at_cons in Hb as [Hba [Hbb _]%bytes_at_cons]. rewrite <- Z.add_assoc in Hbb.
  rewrite (load_byte _ _ Hba). cbn [mbind outcome_bind]. destruct (Z.eqb_spec a 0); [lia|].
  rewrite land_c0 by lia. destruct (Z.leb_spec 192 a); [|lia].
  rewrite (u16_small (o + 1)) by lia. destruct (Z.geb_spec (o + 1) plen); [lia|].
  rewrite (load_byte _ _ Hbb). cbn [mbind outcome_bind]. rewrite pointer_value, <- Ht by lia.
  destruct (Z.geb_spec t plen); [lia|]. rewrite (u16_small (t + 1)) by lia. replace (t + 1 - 1) with t by lia.
  pose proof Hl as (Hlen & _ & [Hbt _]%bytes_at_cons). rewrite (load_byte _ _ Hbt). cbn [mbind outcome_bind].
  destruct (append_label_ok (LabelState (if jmp then if jmp then off else u16 (off + 1) else
    u16 ((if jmp then off else u16 (off + 1)) + 1)) (t + 1) true buf) s l (dns + t)) as (b' & E & Hbuf' & Hout);
    simpl; try done; try lia.
  simpl in E. exists b'. rewrite E. simpl. split; [|done]. destruct jmp; [done|].
  rewrite Hj by done. rewrite (u16_small (o + 1)), u16_small by lia. by replace (o + 1 + 1) with (o + 2) by lia.
Qed.

(** The loop on a name: it appends the labels to the string, and the offset
    moves behind the name. *)
Lemma read_name o ls e :
  name_at m dns plen o ls e -> forall fuel off jmp buf s,
  (length ls < fuel)%nat -> off < plen -> (jmp = false -> off = o /\ e < plen) -> buffer bufsiz buf s ->
  Z.of_nat (length s + length (name_dots ls)) < bufsiz ->
  exists laboff jmp' buf', iter fuel (dns_label_step m dns plen remcnt bufsiz) (LabelState off o jmp buf) =
    Ret (true, LabelState (if jmp then off else e) laboff jmp' buf') /\
    buffer bufsiz buf' (s ++ name_dots ls) /\ forall q, q < 0 \/ bufsiz <= q -> buf' !! q = buf !! q.
Proof using Hm Hplen Hrem.
  intros Hn. induction Hn as [o Ho Hz|o l ls e Ho Hl Hlt Hn IH|o a b t l ls e Ho Hlt Hb Ha Hb' Ht Hl Hlt' Hn IH];
    intros [|fuel] off jmp buf s Hf Hoff Hj Hbuf Hfit; simpl in Hf; try lia;
    assert (jmp = false -> off = o) as Hj' by (intros E; by apply Hj).
  - destruct (step_root off o jmp buf Hoff Hz) as [laboff E]. eexists laboff, jmp, buf. rewrite (iter_inr _ _ _ _ E).
    split; [|split; [by rewrite app_nil_r|done]]. do 3 f_equal. destruct jmp; [done|].
    destruct (Hj eq_refl) as [-> ?]. rewrite u16_small; lia.
  - rewrite name_dots_cons, !length_app in Hfit. simpl in Hfit.
    destruct (step_label off o jmp buf s l) as (b1 & E & Hb1 & Ho1); try done; try lia.
    apply name_at_ends in Hn as Hends. rewrite (iter_inl _ _ _ _ E).
    destruct (IH fuel (if jmp then off else o + 1 + Z.of_nat (length l)) jmp b1 (s ++ l ++ [46]))
      as (laboff & jmp' & b2 & E2 & Hb2 & Ho2); [lia|by destruct jmp|intros ->; split; [done|by apply Hj]|done|rewrite !length_app; simpl; lia|].
    exists laboff, jmp', b2. rewrite E2. split; [by destruct jmp|].
    split; [|intros q Hq; by rewrite Ho2, Ho1]. rewrite name_dots_cons. by rewrite <- !app_assoc in Hb2.
  - rewrite name_dots_cons, !length_app in Hfit. simpl in Hfit.
    destruct (step_pointer off o jmp buf s l a b t) as (b1 & E & Hb1 & Ho1); try done; try lia.
    rewrite (iter_inl _ _ _ _ E).
    destruct (IH fuel (if jmp then off else o + 2) true b1 (s ++ l ++ [46]))
      as (laboff & jmp' & b2 & E2 & Hb2 & Ho2); [lia|destruct jmp; [done|by apply Hj]|done|done|rewrite !length_app; simpl; lia|].
    exists laboff, jmp', b2. rewrite E2. split; [by destruct jmp|].
    split; [|intros q Hq; by rewrite Ho2, Ho1]. rewrite name_dots_cons. by rewrite <- !app_assoc in Hb2.
Qed.
End read.
