(* ===== verification/DnsPut.v ===== *)
(** Writing names with compression, and the round trips of questions and
    records. *)
From S2P Require Import Prelude Bytes Packet CString Dns DnsNames.

(** ** The labels of the callers *)

(** A label that can be written: no dot, and no byte that looks like the first
    one of a compression pointer. *)
Definition label_ok (l : list Z) : Prop := (1 <= length l <= 63)%nat /\ Forall (fun c => 1 <= c < 192 /\ c <> 46) l.

Lemma label_ok_label_at m p l : label_ok l -> bytes_at m p (Z.of_nat (length l) :: l) -> label_at m p l.
Proof.
  intros [Hl Hc] Hb. split; [done|]. split; [|done]. eapply list.Forall_impl; [exact Hc|]. simpl. lia.
Qed.
Lemma label_ok_no_dot l : label_ok l -> 46 ∉ l.
Proof. intros [_ Hc] Hin. rewrite Forall_forall in Hc. by apply list_elem_of_In, Hc in Hin as [_ ?]. Qed.
Lemma name_str_length ls : Forall label_ok ls -> (length ls <= length (name_str ls))%nat.
Proof.
  induction ls as [|l ls IH]; intros Hls; [done|]. apply list.Forall_cons in Hls as [[Hl _] Hls]. specialize (IH Hls).
  destruct ls as [|l' ls]; [simpl in *; lia|]. rewrite name_str_cons, length_app by done. cbn [length] in *. lia.
Qed.
Lemma name_size_cons l ls : name_size (l :: ls) = Z.of_nat (length l) + 1 + name_size ls.
Proof. unfold name_size. rewrite name_dots_cons, !length_app. simpl. lia. Qed.
Lemma name_size_str ls : ls <> [] -> name_size ls = Z.of_nat (length (name_str ls)) + 2.
Proof. intros Hls. unfold name_size. rewrite <- name_str_dots by done. rewrite length_app. simpl. lia. Qed.

Section names.
Context (name : mem).

Lemma label_end_nil q : cstring name q [] -> label_end name q = Ret q.
Proof.
  intros Hs. unfold label_end. rewrite (strchr_none _ _ _ _ Hs) by (done || apply not_elem_of_nil). simpl.
  rewrite (strlen_ok _ _ _ Hs). simpl. f_equal. lia.
Qed.
Lemma label_end_cons q l ls :
  label_ok l -> cstring name q (name_str (l :: ls)) ->
  label_end name q = Ret (q + Z.of_nat (length l)) /\ bytes_at name q l /\
  exists q', next_label name (q + Z.of_nat (length l)) = Ret q' /\ cstring name q' (name_str ls).
Proof.
  intros Hl Hs. apply label_ok_no_dot in Hl as Hdot. destruct ls as [|l' ls].
  - simpl in Hs. unfold label_end. rewrite (strchr_none _ _ _ _ Hs) by done. simpl. rewrite (strlen_ok _ _ _ Hs). simpl.
    split; [done|]. pose proof Hs as [_ Hb]. apply bytes_at_app in Hb as [Hb Hz]. split; [done|].
    exists (q + Z.of_nat (length l)). apply bytes_at_cons in Hz as [Hz _]. unfold next_label, load8. rewrite Hz. simpl.
    split; [done|]. by apply cstring_nil.
  - rewrite name_str_cons in Hs by done. unfold label_end. rewrite (strchr_some _ _ _ _ _ Hs) by done. simpl.
    split; [done|]. apply cstring_app in Hs as (_ & Hb & (Hd & Hz & Hs)%cstring_cons). split; [done|].
    eexists. unfold next_label, load8. rewrite Hz. simpl. by split.
Qed.
End names.

(** ** Searching an earlier occurrence *)

(** In the first [off] bytes of a message, what looks like a compression
    pointer points back, and not to the root. *)
Definition pointers_ok (m : mem) (dns off : Z) : Prop :=
  forall j a, 0 <= j < off -> m !! (dns + j) = Some a -> 192 <= a ->
  j + 1 < off /\ forall b, m !! (dns + (j + 1)) = Some b ->
    (a - 192) * 256 + b < j /\ m !! (dns + ((a - 192) * 256 + b)) <> Some 0.

Lemma land_3f a : 192 <= a < 256 -> Z.shiftl (Z.land a 0x3F) 8 = (a - 192) * 256.
Proof.
  intros Ha. rewrite Z.shiftl_mul_pow2 by lia. change (2 ^ 8) with 256. f_equal.
  change 0x3F with (Z.ones 6). rewrite Z.land_ones by lia. change (2 ^ 6) with 64. lia.
Qed.

Lemma pointer_high r : 0 <= r < 0x4000 -> Z.lor 192 (Z.shiftr r 8) mod 256 = 192 + r / 256.
Proof.
  intros Hr. rewrite shiftr_div by lia. change (2 ^ 8) with 256. assert (0 <= r / 256 < 64) as Hq by lia.
  generalize dependent (r / 256). intros k Hk. rewrite Z.lor_comm.
  apply Z.eqb_eq. assert ((64 <=? k) || (Z.lor k 192 mod 256 =? 192 + k) = true) as Hbit.
  - refine (byte_forall (fun k => (64 <=? k) || (Z.lor k 192 mod 256 =? 192 + k)) _ k _); [vm_compute; reflexivity|lia].
  - destruct (Z.leb_spec 64 k); [lia|done].
Qed.

Section search.
Context (m : mem) (dns off : Z) (name : mem).
Context (Hm : bytes_ok m) (Hv : valid m dns off).

Lemma load_ok j : 0 <= j < off -> exists a, m !! (dns + j) = Some a /\ load8 m (dns + j) = Ret a /\ 0 <= a < 256.
Proof using Hm Hv.
  intros Hj. destruct (Hv (dns + j)) as [a Ha]; [lia|]. exists a. split; [done|]. split; [by apply load_byte|by eapply Hm].
Qed.

(** A byte that is not a pointer. *)
Lemma memdns_step_direct j q ls a :
  0 <= j < off -> m !! (dns + j) = Some a -> a < 192 -> cstring name q (name_str ls) -> Forall label_ok ls ->
  memdns_step m dns off name (j, q) = Ret (inr false) \/
  (ls = [] /\ memdns_step m dns off name (j, q) = Ret (inr true) /\ a = 0) \/
  exists l ls' q', ls = l :: ls' /\ label_at m (dns + j) l /\ j + 1 + Z.of_nat (length l) < off /\
    memdns_step m dns off name (j, q) = Ret (inl (j + 1 + Z.of_nat (length l), q')) /\ cstring name q' (name_str ls').
Proof using Hm Hv.
  intros Hj Ha Hlt Hs Hls. assert (0 <= a < 256) as Hbyte by (by eapply Hm). unfold memdns_step.
  destruct ls as [|l ls].
  - rewrite (label_end_nil name q Hs). cbn [mbind outcome_bind]. destruct (Z.geb_spec j off); [lia|].
    rewrite (load_byte _ _ _ Ha). cbn [mbind outcome_bind]. rewrite land_c0 by lia.
    destruct (Z.leb_spec 192 a); [lia|]. cbn [mbind outcome_bind]. destruct (Z.geb_spec j off); [lia|].
    rewrite (load_byte _ _ _ Ha). cbn [mbind outcome_bind]. rewrite Z.sub_diag, Z.eqb_refl. change (u8 0) with 0.
    destruct (Z.eqb_spec a 0); simpl; [right; left|left]; done.
  - apply list.Forall_cons in Hls as [Hl Hls].
    destruct (label_end_cons name q l ls Hl Hs) as (-> & Hb & q' & Hn & Hs').
    pose proof Hl as [Hlen Hchars]. cbn [mbind outcome_bind]. destruct (Z.geb_spec j off); [lia|].
    rewrite (load_byte _ _ _ Ha). cbn [mbind outcome_bind]. rewrite land_c0 by lia.
    destruct (Z.leb_spec 192 a); [lia|]. cbn [mbind outcome_bind]. destruct (Z.geb_spec j off); [lia|].
    rewrite (load_byte _ _ _ Ha). cbn [mbind outcome_bind].
    replace (q + Z.of_nat (length l) - q) with (Z.of_nat (length l)) by lia. rewrite u8_small by lia.
    destruct (Z.eqb_spec a (Z.of_nat (length l))) as [->|]; [|by left]. cbn [negb].
    destruct (Z.eqb_spec (q + Z.of_nat (length l)) q); [lia|].
    destruct (Z.geb_spec (j + 1 + Z.of_nat (length l)) off); [by left|]. rewrite Nat2Z.id.
    rewrite (loadn_bytes_at _ _ _ Hb). rewrite loadn_ok by (eapply valid_sub; [exact Hv|lia|lia]).
    cbn [mbind outcome_bind]. case_bool_decide as Hsame; [|by left]. cbn [negb]. rewrite Hn. cbn [mbind outcome_bind].
    right. right. exists l, ls, q'. split; [done|]. split; [|done]. apply label_ok_label_at; [done|].
    apply bytes_at_cons. split; [done|]. intros i c Hi. rewrite <- Hsame in Hi.
    apply list_lookup_fmap_Some in Hi as (k & -> & Hk). apply lookup_seqZ in Hk as [-> Hk].
    replace (dns + j + 1 + Z.of_nat i) with (dns + (j + 1) + (0 + Z.of_nat i)) by lia. apply lookup_rd.
    eapply valid_sub; [exact Hv|lia|lia].
Qed.

(** A pointer behaves like the byte it points to. *)
Lemma memdns_step_pointer j q ls a :
  0 <= j < off -> m !! (dns + j) = Some a -> 192 <= a -> cstring name q (name_str ls) -> Forall label_ok ls ->
  memdns_step m dns off name (j, q) = Ret (inr false) \/
  exists b c, j + 1 < off /\ m !! (dns + (j + 1)) = Some b /\ (a - 192) * 256 + b < off /\
    m !! (dns + ((a - 192) * 256 + b)) = Some c /\ c < 192 /\
    memdns_step m dns off name (j, q) = memdns_step m dns off name ((a - 192) * 256 + b, q).
Proof using Hm Hv.
  intros Hj Ha Hge Hs Hls. assert (0 <= a < 256) as Hbyte by (by eapply Hm).
  assert (exists chr, label_end name q = Ret chr /\ 0 <= chr - q <= 63) as (chr & Hchr & Hsmall).
  { destruct ls as [|l ls]; [exists q; split; [by apply label_end_nil|lia]|]. apply list.Forall_cons in Hls as [Hl Hls].
    destruct (label_end_cons name q l ls Hl Hs) as (-> & _). pose proof Hl as [Hlen _]. eexists. split; [done|]. lia. }
  unfold memdns_step. rewrite Hchr. cbn [mbind outcome_bind]. destruct (Z.geb_spec j off); [lia|].
  rewrite (load_byte _ _ _ Ha). cbn [mbind outcome_bind]. rewrite land_c0 by lia.
  destruct (Z.leb_spec 192 a); [|lia]. destruct (Z.geb_spec (j + 1) off); [by left|].
  destruct (load_ok (j + 1)) as (b & Hb & -> & Hbb); [lia|]. cbn [mbind outcome_bind].
  rewrite land_3f, land_255, (Z.mod_small b) by lia.
  destruct (Z.geb_spec ((a - 192) * 256 + b) off); [by left|].
  destruct (load_ok ((a - 192) * 256 + b)) as (c & Hc & -> & Hcc); [lia|]. cbn [mbind outcome_bind].
  rewrite (u8_small (chr - q)) by lia. destruct (Z.leb_spec 192 c).
  - left. by destruct (Z.eqb_spec c (chr - q)); [lia|].
  - right. exists b, c. repeat (split; [done || lia|]).
    destruct (Z.geb_spec ((a - 192) * 256 + b) off); [lia|]. rewrite (load_byte _ _ _ Hc). cbn [mbind outcome_bind].
    rewrite land_c0 by lia. destruct (Z.leb_spec 192 c); [lia|]. cbn [mbind outcome_bind].
    destruct (Z.geb_spec ((a - 192) * 256 + b) off); [lia|]. rewrite (load_byte _ _ _ Hc). done.
Qed.

Context (Hp : pointers_ok m dns off).
Abbreviation look := (memdns_step m dns off name).

(** The inner loop ends, and finds names only. *)
Lemma look_name ls : forall j q fuel,
  Forall label_ok ls -> cstring name q (name_str ls) -> 0 <= j -> (length ls < fuel)%nat ->
  exists found : bool, iter fuel look (j, q) = Ret found /\ (found = true -> exists e, name_at m dns off j ls e).
Proof using Hm Hv Hp.
  induction ls as [|l ls IH]; intros j q [|fuel] Hls Hs Hj Hf; simpl in Hf; try lia.
  all: destruct (Z.lt_ge_cases j off) as [Hlt|Hge];
    [|exists false; split; [|done]; apply iter_inr; unfold memdns_step;
      first [rewrite (label_end_nil name q Hs)|
        rewrite (proj1 (label_end_cons name q l ls (Forall_inv Hls) Hs))];
      cbn [mbind outcome_bind]; by destruct (Z.geb_spec j off); [|lia]].
  all: destruct (load_ok j) as (a & Ha & _ & Hbyte); [done|];
    destruct (Z.lt_ge_cases a 192) as [Hdir|Hptr].
  - destruct (memdns_step_direct j q [] a) as [E|[(_ & E & ->)|(l & ls' & q' & ? & _)]]; try done;
      eexists; rewrite (iter_inr _ _ _ _ E); (split; [done|]); [done|]. intros _. eexists. by apply na_root.
  - destruct (memdns_step_pointer j q [] a) as [E|(b & c & Hj1 & Hb & Ht & Hc & Hc2 & E)]; try done.
    { exists false. by rewrite (iter_inr _ _ _ _ E). }
    destruct (Hp j a) as [_ Hpp]; [done..|]. destruct (Hpp b Hb) as [_ Hroot].
    assert (0 <= b < 256) by (by eapply Hm). cbn [iter]. rewrite E.
    destruct (memdns_step_direct ((a - 192) * 256 + b) q [] c) as [->|[(_ & E2 & ->)|(l & ls' & q' & ? & _)]]; try done; try lia.
    by exists false.
  - destruct (memdns_step_direct j q (l :: ls) a) as [E|[(? & _)|(l' & ls' & q' & [= <- <-] & Hl & Hlt' & E & Hs')]]; try done.
    { exists false. by rewrite (iter_inr _ _ _ _ E). }
    rewrite (iter_inl _ _ _ _ E). apply list.Forall_cons in Hls as [Hlok Hls].
    destruct (IH (j + 1 + Z.of_nat (length l)) q' fuel) as (found & -> & Hf'); [done|done|lia|lia|].
    exists found. split; [done|]. intros (e & He)%Hf'. exists e. by apply na_label.
  - destruct (memdns_step_pointer j q (l :: ls) a) as [E|(b & c & Hj1 & Hb & Ht & Hc & Hc2 & E)]; try done.
    { exists false. by rewrite (iter_inr _ _ _ _ E). }
    assert (0 <= b < 256) by (by eapply Hm). cbn [iter]. rewrite E.
    destruct (memdns_step_direct ((a - 192) * 256 + b) q (l :: ls) c)
      as [->|[(? & _)|(l' & ls' & q' & [= <- <-] & Hl & Hlt' & -> & Hs')]]; try done; try lia; [by exists false|].
    cbn [mbind outcome_bind]. apply list.Forall_cons in Hls as [Hlok Hls].
    destruct (IH ((a - 192) * 256 + b + 1 + Z.of_nat (length l)) q' fuel) as (found & -> & Hf'); [done|done|lia|lia|].
    exists found. split; [done|]. intros (e & He)%Hf'. exists (j + 2).
    eapply (na_pointer _ _ _ j a b); [lia|lia| |lia|done|done|done|done|exact He].
    apply bytes_at_cons. split; [done|]. apply bytes_at_cons. split; [by rewrite <- Z.add_assoc|].
    intros i ? Hi. by rewrite lookup_nil in Hi.
Qed.

(** What is found first is at a label, not at a pointer. *)
Lemma memdns_ok ls q :
  Forall label_ok ls -> cstring name q (name_str ls) -> 0 <= off ->
  exists r, memdns m dns off name q = Ret r /\
    (r = -1 \/ 0 <= r /\ match ls with [] => True | l :: ls =>
       label_at m (dns + r) l /\ r + 1 + Z.of_nat (length l) < off /\
       exists e, name_at m dns off (r + 1 + Z.of_nat (length l)) ls e end).
Proof using Hm Hv Hp.
  intros Hls Hs Hoff. unfold memdns. rewrite (strlen_ok _ _ _ Hs). cbn [mbind outcome_bind].
  set (n := if Z.of_nat (length (name_str ls)) =? 0 then 1 else Z.of_nat (length (name_str ls)) + 2).
  destruct (Z.gtb_spec n off); [exists (-1); by auto|]. rewrite Nat2Z.id. set (fuel := (length (name_str ls) + 2)%nat).
  assert (length ls < fuel)%nat as Hfuel by (pose proof (name_str_length ls Hls); lia).
  eapply (iter_total _ (fun i => 0 <= i <= off + 1 /\ forall i', 0 <= i' < i -> iter fuel look (i', q) = Ret false)
    (fun i => Z.to_nat (off + 1 - i))); [|split; [lia|intros; lia]|lia].
  intros i [Hi Hbefore]. destruct (Z.gtb_spec i off); [eexists; split; [done|by left]|].
  destruct (look_name ls i q fuel Hls Hs ltac:(lia) Hfuel) as ([|] & E & Hfound).
  - rewrite E. cbn [mbind outcome_bind]. eexists. split; [done|]. right. split; [lia|].
    destruct ls as [|l ls]; [done|]. destruct (Hfound eq_refl) as [e He].
    inversion He as [|? ? ? ? ? Hl Hlt Hn|? a b t ? ? e' Ho Hlt Hb Ha Hb' Ht Hl Hlt' Hn]; subst.
    + split; [done|]. split; [done|]. by eexists.
    + exfalso. apply bytes_at_cons in Hb as [Hba [Hbb _]%bytes_at_cons]. rewrite <- Z.add_assoc in Hbb.
      destruct (Hp i a) as [_ Hpp]; [lia|done|lia|]. destruct (Hpp b Hbb) as [Hback _].
      specialize (Hbefore ((a - 192) * 256 + b) ltac:(lia)).
      destruct (memdns_step_pointer i q (l :: ls) a) as [Es|(b0 & c & _ & Hb0 & _ & _ & _ & Es)]; try done; try lia.
      * subst fuel. rewrite Nat.add_succ_r in E. rewrite (iter_inr _ _ _ _ Es) in E. done.
      * replace b0 with b in * by congruence. subst fuel. rewrite Nat.add_succ_r in E, Hbefore.
        cbn [iter] in E, Hbefore. rewrite Es in E. congruence.
  - rewrite E. cbn [mbind outcome_bind]. eexists. split; [done|]. split; [|lia]. split; [lia|].
    intros i' Hi'. destruct (decide (i' = i)) as [->|]; [done|]. apply Hbefore. lia.
Qed.
End search.

(** ** Writing *)

Lemma nil_bytes_at m p : bytes_at m p [].
Proof. intros i c Hi. by rewrite lookup_nil in Hi. Qed.

(** A label that is written keeps the pointers. *)
Lemma pointers_ok_label m m' dns off l :
  pointers_ok m dns off -> 0 <= off -> label_ok l -> label_at m' (dns + off) l ->
  (forall q, q < dns + off -> m' !! q = m !! q) -> pointers_ok m' dns (off + 1 + Z.of_nat (length l)).
Proof.
  intros Hp Hoff [Hlen Hl] (_ & _ & Hb) Eq j a Hj Ha Hge. destruct (Z.lt_ge_cases j off) as [Hlt|Hnew].
  - rewrite Eq in Ha by lia. destruct (Hp j a) as [Hj1 Hpp]; [lia|done|done|]. split; [lia|]. intros b Hb'.
    rewrite Eq in Hb' by lia. destruct (Hpp b Hb') as [Hback Hroot]. split; [done|]. rewrite Eq by lia. done.
  - exfalso. apply bytes_at_cons in Hb as [H0 Hb]. destruct (decide (j = off)) as [->|Hne].
    { rewrite H0 in Ha. injection Ha as <-. lia. }
    destruct (lookup_lt_is_Some_2 l (Z.to_nat (j - off - 1))) as [c Hc]; [lia|].
    pose proof (Hb _ _ Hc) as E. replace (dns + off + 1 + Z.of_nat (Z.to_nat (j - off - 1))) with (dns + j) in E by lia.
    rewrite E in Ha. injection Ha as ->. rewrite Forall_lookup in Hl. apply Hl in Hc. lia.
Qed.

Section write.
Context (dns plen : Z) (name : mem) (Hplen : plen <= 65535).

(** The message after [off] to [e] was written. *)
Definition written (m : mem) (off e : Z) (m' : mem) : Prop :=
  bytes_ok m' /\ (forall p n, valid m p n -> valid m' p n) /\
  forall p, p < dns + off \/ dns + e <= p -> m' !! p = m !! p.

Lemma written_bytes m p bs :
  bytes_ok m -> valid m p (Z.of_nat (length bs)) -> Forall (fun c => 0 <= c < 256) bs ->
  exists m', storen m p bs = Ret m' /\ bytes_at m' p bs /\ written m (p - dns) (p - dns + Z.of_nat (length bs)) m'.
Proof.
  intros Hm Hv Hbs. destruct (storen_ok m p bs Hv Hbs) as (m1 & E1 & H1).
  destruct (store_bytes m p bs Hv Hbs) as (m' & E & Hb & Ho & Hv'). replace m1 with m' in * by congruence.
  exists m'. split; [done|]. split; [done|]. split; [|split; [done|]].
  - intros q b Hq. rewrite H1 in Hq. destruct (decide _); [|by eapply Hm].
    rewrite Forall_lookup in Hbs. by eapply Hbs.
  - intros q Hq. apply Ho. lia.
Qed.
Lemma written_trans m a b m' c d m'' :
  written m a b m' -> written m' c d m'' -> a <= c -> b <= d -> a <= b -> c <= d -> written m a d m''.
Proof.
  intros (_ & Hv1 & Ho1) (Hm2 & Hv2 & Ho2) H1 H2 H3 H4. split; [done|]. split; [auto|]. intros p Hp. rewrite Ho2, Ho1 by lia. done.
Qed.

(** The step for the root, for a label, and for a pointer. *)
Lemma put_root m off q :
  bytes_ok m -> valid m dns plen -> cstring name q [] -> 0 <= off -> off + 1 <= plen -> pointers_ok m dns off ->
  exists m', dns_put_step dns plen name (m, off, q) = Ret (inr (true, m', off + 1)) /\
    m' !! (dns + off) = Some 0 /\ written m off (off + 1) m'.
Proof using Hplen.
  intros Hm Hv Hs Hoff Hle Hp. unfold dns_put_step. rewrite (label_end_nil name q Hs). cbn [mbind outcome_bind].
  assert (valid m dns off) as Hv' by (eapply valid_sub; [exact Hv|lia|lia]).
  destruct (memdns_ok m dns off name Hm Hv' Hp [] q) as (r & -> & _); [constructor|done|done|]. cbn [mbind outcome_bind].
  rewrite Z.eqb_refl, Z.sub_diag, Z.add_0_r. cbn [negb andb]. destruct (Z.gtb_spec (off + 1) plen); [lia|].
  rewrite store8_ok by (eapply valid_sub; [exact Hv|lia|lia]). cbn [mbind outcome_bind memcpy_from].
  rewrite (u16_small (off + 1)), Z.add_0_r, u16_small by lia. eexists. split; [done|]. split; [|split; [|split]].
  - unfold wr8. by rewrite lookup_insert_eq.
  - auto with mem.
  - auto with mem.
  - intros p Hp'. unfold wr8. rewrite lookup_insert_ne by lia. done.
Qed.
Lemma put_label m off q l ls :
  bytes_ok m -> valid m dns plen -> Forall label_ok (l :: ls) -> cstring name q (name_str (l :: ls)) -> 0 <= off ->
  off + 1 + Z.of_nat (length l) + 1 <= plen -> pointers_ok m dns off ->
  exists m', (dns_put_step dns plen name (m, off, q) = Ret (inr (true, m', off + 2)) /\ written m off (off + 2) m' /\
      (forall lim, off + 2 <= lim -> name_at m' dns lim off (l :: ls) (off + 2))) \/
    (exists q', dns_put_step dns plen name (m, off, q) = Ret (inl (m', off + 1 + Z.of_nat (length l), q')) /\
      cstring name q' (name_str ls) /\ label_at m' (dns + off) l /\ written m off (off + 1 + Z.of_nat (length l)) m').
Proof using Hplen.
  intros Hm Hv Hls Hs Hoff Hle Hp. unfold dns_put_step. pose proof (Forall_inv Hls) as Hl. pose proof Hl as [Hlen Hchars].
  destruct (label_end_cons name q l ls Hl Hs) as (-> & Hb & q' & Hn & Hs'). cbn [mbind outcome_bind].
  assert (valid m dns off) as Hv' by (eapply valid_sub; [exact Hv|lia|lia]).
  destruct (memdns_ok m dns off name Hm Hv' Hp (l :: ls) q) as (r & -> & Hr); [done|done|done|]. cbn [mbind outcome_bind].
  replace (q + Z.of_nat (length l) - q) with (Z.of_nat (length l)) by lia.
  destruct (Z.eqb_spec (q + Z.of_nat (length l)) q); [lia|]. cbn [negb andb].
  destruct ((r >=? 0) && (r <? 0x4000) && (off + 2 <=? plen)) eqn:Ec.
  - rewrite !andb_true_iff, Z.geb_le, Z.ltb_lt, Z.leb_le in Ec. destruct Ec as [[Hr0 Hrlt] H2].
    destruct Hr as [->|(_ & Hrl & Hrlim & e & Hne)]; [lia|].
    rewrite store8_ok by (eapply valid_sub; [exact Hv|lia|lia]). cbn [mbind outcome_bind].
    rewrite (u16_small (off + 1)) by lia. rewrite store8_ok by (apply valid_wr8; eapply valid_sub; [exact Hv|lia|lia]).
    cbn [mbind outcome_bind]. rewrite (u16_small (off + 1 + 1)) by lia. replace (off + 1 + 1) with (off + 2) by lia.
    eexists. left. split; [done|]. assert (forall p, p < dns + off \/ dns + (off + 2) <= p ->
      wr8 (wr8 m (dns + off) (Z.lor 192 (Z.shiftr r 8))) (dns + (off + 1)) r !! p = m !! p) as Hout.
    { intros p Hp'. unfold wr8. rewrite !lookup_insert_ne by lia. done. }
    split; [split; [auto with mem|split; [auto with mem|done]]|].
    intros lim Hlim. eapply (na_pointer _ _ _ off (192 + r / 256) (r mod 256) r); [done|lia| |lia|lia|lia| |lia|].
    + apply bytes_at_cons. split; [|apply bytes_at_cons; split; [|apply nil_bytes_at]].
      * unfold wr8. rewrite lookup_insert_ne, lookup_insert_eq by lia. rewrite pointer_high by lia. done.
      * unfold wr8. replace (dns + off + 1) with (dns + (off + 1)) by lia. by rewrite lookup_insert_eq.
    + eapply label_at_agree; [|exact Hrl]. intros p Hp'. apply Hout. lia.
    + eapply name_at_agree; [| |exact Hne]; [lia|]. intros p Hp'. apply Hout. lia.
  - clear Ec Hr. destruct (Z.gtb_spec (off + 1 + Z.of_nat (length l)) plen); [lia|].
    rewrite store8_ok by (eapply valid_sub; [exact Hv|lia|lia]). cbn [mbind outcome_bind].
    rewrite (u16_small (off + 1)) by lia. rewrite memcpy_bytes by done.
    destruct (written_bytes (wr8 m (dns + off) (Z.of_nat (length l))) (dns + (off + 1)) l)
      as (m' & -> & Hb' & Hw); [auto with mem|apply valid_wr8; eapply valid_sub; [exact Hv|lia|lia]| |].
    { eapply list.Forall_impl; [exact Hchars|]. simpl. lia. }
    cbn [mbind outcome_bind]. rewrite u16_small by lia. rewrite Hn. cbn [mbind outcome_bind]. exists m'. right. exists q'.
    split; [done|]. split; [done|]. replace (dns + (off + 1) - dns) with (off + 1) in Hw by lia.
    destruct Hw as (Hm' & Hv2 & Ho). split.
    + apply label_ok_label_at; [done|]. apply bytes_at_cons. split.
      * rewrite Ho by lia. unfold wr8. rewrite lookup_insert_eq, Z.mod_small by lia. done.
      * by replace (dns + off + 1) with (dns + (off + 1)) by lia.
    + split; [done|]. split; [intros p n0 Hp'; by apply Hv2, valid_wr8|].
      intros p Hp'. rewrite Ho by lia. unfold wr8. rewrite lookup_insert_ne by lia. done.
Qed.

Lemma put_name ls : forall m off q fuel,
  bytes_ok m -> valid m dns plen -> pointers_ok m dns off -> Forall label_ok ls -> cstring name q (name_str ls) ->
  0 <= off -> off + name_size ls <= plen -> (length ls < fuel)%nat ->
  exists m' e, iter fuel (dns_put_step dns plen name) (m, off, q) = Ret (true, m', e) /\
    name_at m' dns e off ls e /\ off < e <= off + name_size ls /\ written m off e m'.
Proof using Hplen.
  induction ls as [|l ls IH]; intros m off q [|fuel] Hm Hv Hp Hls Hs Hoff Hle Hf; simpl in Hf; try lia.
  - change (name_size []) with 1 in *. destruct (put_root m off q) as (m' & E & Hz & Hw); try done.
    exists m', (off + 1). rewrite (iter_inr _ _ _ _ E). split; [done|]. split; [constructor; [lia|done]|]. split; [lia|done].
  - rewrite name_size_cons in *. assert (1 <= name_size ls) by (unfold name_size; lia).
    destruct (put_label m off q l ls) as (m1 & [(E & Hw & Hn)|(q' & E & Hs' & Hl & Hw)]); try done; [lia| |].
    + exists m1, (off + 2). rewrite (iter_inr _ _ _ _ E). split; [done|]. split; [apply Hn; lia|]. split; [lia|done].
    + rewrite (iter_inl _ _ _ _ E). apply list.Forall_cons in Hls as [Hlok Hls]. pose proof Hw as (Hm1 & Hv1 & Ho1).
      destruct (IH m1 (off + 1 + Z.of_nat (length l)) q' fuel) as (m' & e & E' & Hn & He & Hw'); try done; try lia; [by apply Hv1| |].
      { apply (pointers_ok_label m m1 dns off l Hp Hoff Hlok Hl). intros p Hp'. apply Ho1. lia. }
      exists m', e. split; [done|]. pose proof Hw' as (Hm' & Hv' & Ho'). split; [|split; [lia|]].
      * apply na_label; [done| |lia|done]. eapply label_at_agree; [|exact Hl]. intros p Hp'. apply Ho'. lia.
      * eapply written_trans; [exact Hw|exact Hw'|lia..].
Qed.
End write.

(** ** Round trips *)

(** The reader's loop on the name that was written. *)
Lemma read_back m dns plen e off ls fuel buf bufsiz remcnt :
  name_at m dns plen off ls e -> bytes_ok m -> e < plen <= 65535 -> remcnt <> 0 -> (length ls < fuel)%nat ->
  valid buf 0 bufsiz -> name_size ls <= bufsiz ->
  exists buf0 laboff jmp buf', store8 buf 0 0 = Ret buf0 /\
    iter fuel (dns_label_step m dns plen remcnt bufsiz) (LabelState off off false buf0) = Ret (true, LabelState e laboff jmp buf') /\
    buffer bufsiz buf' (name_dots ls) /\ forall q, q < 0 \/ bufsiz <= q -> buf' !! q = buf !! q.
Proof.
  intros Hn Hm He Hrem Hf Hv Hfit. pose proof (name_at_ends _ _ _ _ _ _ Hn) as Hends.
  assert (1 <= name_size ls) by (unfold name_size; lia).
  rewrite store8_ok by (eapply valid_sub; [exact Hv|lia|lia]).
  destruct (read_name m dns plen remcnt bufsiz Hm ltac:(lia) Hrem off ls e) with (fuel := fuel) (off := off) (jmp := false)
    (buf := wr8 buf 0 0) (s := @nil Z) as (laboff & jmp & buf' & E & Hb & Ho); try done; try lia.
  - split; [by apply valid_wr8|]. split; [|simpl; lia]. apply cstring_nil. unfold wr8. by rewrite lookup_insert_eq.
  - unfold name_size in Hfit. simpl. lia.
  - eexists _, laboff, jmp, buf'. split; [done|]. split; [done|]. split; [done|]. intros q Hq. rewrite Ho by done.
    unfold wr8. rewrite lookup_insert_ne by lia. done.
Qed.

(** [dns_next] on a question with a name that is not the root. *)
Lemma dns_next_reads `{Host} m dns plen off ls e bufsiz fuel a :
  name_at m dns plen off ls e -> ls <> [] -> bytes_ok m -> valid m dns plen -> e + 4 <= plen <= 65535 -> q_off a = off ->
  0 < q_remcnt a < 65536 -> (length ls < fuel)%nat -> valid (q_buf a) 0 bufsiz -> name_size ls <= bufsiz ->
  exists buf', dns_next fuel m dns plen bufsiz a = Ret (0, Answer (e + 4) (q_remcnt a - 1) buf' (be16 m (dns + e))
      (be16 m (dns + (e + 2))) (q_ttl a) (q_dat a) (q_datlen a)) /\
    valid buf' 0 bufsiz /\ cstring buf' 0 (name_str ls) /\ forall q, q < 0 \/ bufsiz <= q -> buf' !! q = q_buf a !! q.
Proof.
  intros Hn Hne Hm Hv Hplen Ha Hrem Hfuel Hbuf Hfit. pose proof (name_at_ends _ _ _ _ _ _ Hn) as Hends.
  destruct (read_back m dns plen e off ls fuel (q_buf a) bufsiz (q_remcnt a)) as (buf0 & laboff & jmp & buf' & E0 & El & Hb & Ho);
    try done; try lia.
  destruct Hb as (Hbv & Hbs & Hblen). rewrite <- name_str_dots in Hbs by done.
  pose proof Hbs as (Hs1 & Hs2 & Hs3)%cstring_app. apply cstring_cons in Hs3 as (_ & Hdot & _). rewrite Z.add_0_l in Hdot.
  rewrite <- name_str_dots, length_app in Hblen by done. simpl in Hblen.
  unfold dns_next. rewrite E0. cbn [mbind outcome_bind]. cbn [set_name q_remcnt q_off].
  destruct (Z.eqb_spec (q_remcnt a) 0); [lia|]. rewrite Ha, El. cbn [mbind outcome_bind l_off l_buf negb set_name q_remcnt q_ttl q_dat q_datlen].
  destruct (Z.gtb_spec (e + 4) plen); [lia|].
  rewrite !hdr_get16n_ok by (done || (eapply valid_sub; [exact Hv|lia|lia])). cbn [mbind outcome_bind].
  rewrite (strlen_ok _ _ _ Hbs). cbn [mbind outcome_bind]. rewrite length_app. simpl length.
  replace (Z.of_nat (length (name_str ls) + 1) - 1) with (Z.of_nat (length (name_str ls))) by lia.
  rewrite store8_ok by (eapply valid_sub; [exact Hbv|lia|lia]).
  unfold decr_remcnt. cbn [mbind outcome_bind q_off q_remcnt q_buf q_type q_class q_ttl q_dat q_datlen]. rewrite !u16_small by lia.
  eexists. split; [done|]. split; [by apply valid_wr8|]. split.
  - split; [done|]. apply bytes_at_app. split.
    + eapply bytes_at_agree; [|exact Hs2]. intros q Hq. unfold wr8. rewrite lookup_insert_ne by lia. done.
    + apply bytes_at_cons. split; [|apply nil_bytes_at]. unfold wr8. by rewrite lookup_insert_eq.
  - intros q Hq. unfold wr8. rewrite lookup_insert_ne by lia. by apply Ho.
Qed.

(** [dns_next_an_ask] on a record that is not a CNAME record. *)
Lemma an_ask_reads `{Host} m dns plen off ls e bufsiz datbufsiz data fuel a :
  name_at m dns plen off ls e -> bytes_ok m -> valid m dns plen -> e + 10 + Z.of_nat (length data) <= plen <= 65535 ->
  q_off a = off -> 0 < q_remcnt a < 65536 -> (length ls < fuel)%nat -> valid (q_buf a) 0 bufsiz -> name_size ls <= bufsiz ->
  be16 m (dns + e) <> 5 -> be16 m (dns + (e + 8)) = Z.of_nat (length data) -> bytes_at m (dns + (e + 10)) data ->
  valid (q_dat a) 0 datbufsiz -> Z.of_nat (length data) + 2 <= datbufsiz ->
  exists buf' dat', dns_next_an_ask fuel m dns plen bufsiz datbufsiz a = Ret (0, Answer (e + 10) (q_remcnt a - 1) buf'
      (be16 m (dns + e)) (be16 m (dns + (e + 2))) (be32 m (dns + (e + 4))) dat' (Z.of_nat (length data))) /\
    buffer bufsiz buf' (name_dots ls) /\ valid dat' 0 datbufsiz /\ bytes_at dat' 0 data /\
    (forall q, q < 0 \/ bufsiz <= q -> buf' !! q = q_buf a !! q) /\ forall q, q < 0 \/ datbufsiz <= q -> dat' !! q = q_dat a !! q.
Proof.
  intros Hn Hm Hv Hplen Ha Hrem Hfuel Hbuf Hfit Ht Hlen Hqd Hdat Hdatfit. pose proof (name_at_ends _ _ _ _ _ _ Hn) as Hends.
  destruct (read_back m dns plen e off ls fuel (q_buf a) bufsiz (q_remcnt a)) as (buf0 & laboff & jmp & buf' & E0 & El & Hb & Ho);
    try done; try lia.
  destruct (store_bytes (wr8 (q_dat a) 0 0) 0 data) as (dat' & Ed & Hd1 & Hd2 & Hd3);
    [apply valid_wr8; eapply valid_sub; [exact Hdat|lia|lia]|by eapply bytes_at_ok|].
  exists buf', dat'.
  unfold dns_next_an_ask. rewrite E0. cbn [mbind outcome_bind].
  rewrite store8_ok by (eapply valid_sub; [exact Hdat|lia|lia]). cbn [mbind outcome_bind set_name set_dat q_remcnt q_off].
  destruct (Z.eqb_spec (q_remcnt a) 0); [lia|]. rewrite Ha, El.
  cbn [mbind outcome_bind l_off l_buf negb set_name set_dat q_remcnt q_ttl q_dat q_datlen q_buf].
  destruct (Z.gtb_spec (e + 10) plen); [lia|].
  rewrite !hdr_get16n_ok by (done || (eapply valid_sub; [exact Hv|lia|lia])). cbn [mbind outcome_bind].
  rewrite !hdr_get32n_ok by (done || (eapply valid_sub; [exact Hv|lia|lia])). cbn [mbind outcome_bind].
  rewrite Hlen, (u16_small (e + 10)) by lia. destruct (Z.eqb_spec (be16 m (dns + e)) 5); [lia|]. cbn [negb].
  destruct (Z.gtb_spec (Z.of_nat (length data) + 2) datbufsiz); [lia|]. rewrite memcpy_bytes by done. rewrite Ed.
  unfold set_dat, decr_remcnt. cbn [mbind outcome_bind q_off q_remcnt q_buf q_type q_class q_ttl q_dat q_datlen]. rewrite u16_small by lia.
  split; [done|]. split; [done|]. split; [by apply Hd3, valid_wr8|]. split; [done|]. split; [done|].
  intros q Hq. rewrite Hd2 by lia. unfold wr8. rewrite lookup_insert_ne by lia. done.
Qed.

Section round_trip.
Context `{Host} (m : mem) (dns off plen : Z) (name : mem) (p : Z) (ls : list (list Z)).
Context (Hm : bytes_ok m) (Hv : valid m dns plen) (Hp : pointers_ok m dns off) (Hls : Forall label_ok ls) (Hne : ls <> [])
  (Hname : cstring name p (name_str ls)) (Hoff : 0 <= off) (Hplen : plen <= 65535).

Lemma put_qr_ok qtype qclass :
  off + name_size ls + 4 <= plen ->
  exists m' e, dns_put_next_qr m dns off plen name p qtype qclass = Ret (0, m', e + 4) /\ e + 4 <= off + name_size ls + 4 /\
    name_at m' dns e off ls e /\ written dns m off (e + 4) m' /\
    be16 m' (dns + e) = qtype mod 65536 /\ be16 m' (dns + (e + 2)) = qclass mod 65536.
Proof using All.
  intros Hle. unfold dns_put_next_qr. rewrite (strlen_ok _ _ _ Hname). cbn [mbind outcome_bind].
  rewrite (name_size_str ls Hne) in *. destruct (Z.gtb_spec (off + Z.of_nat (length (name_str ls)) + 2 + 4) plen); [lia|].
  rewrite Nat2Z.id.
  destruct (put_name dns plen name Hplen ls m off p (length (name_str ls) + 2)) as (m1 & e & -> & Hn & He & Hw);
    [done..|rewrite (name_size_str ls Hne); lia|pose proof (name_str_length ls Hls); lia|].
  rewrite (name_size_str ls Hne) in He. pose proof Hw as (Hm1 & Hv1 & Ho1). cbn [mbind outcome_bind negb].
  destruct (Z.gtb_spec (e + 4) plen); [lia|]. apply Hv1 in Hv.
  rewrite hdr_set16n_ok by (eapply valid_sub; [exact Hv|lia|lia]). cbn [mbind outcome_bind].
  rewrite hdr_set16n_ok by (apply valid_wr16; eapply valid_sub; [exact Hv|lia|lia]). cbn [mbind outcome_bind].
  rewrite u16_small by lia. eexists _, e. split; [done|]. split; [lia|].
  assert (forall q, q < dns + e \/ dns + (e + 4) <= q ->
    wr16 (wr16 m1 (dns + e) qtype) (dns + (e + 2)) qclass !! q = m1 !! q) as Hout.
  { intros q Hq. unfold wr16, wr8. rewrite !lookup_insert_ne by lia. done. }
  split; [|split; [split; [|split]|split]].
  - eapply name_at_agree; [| |exact Hn]; [lia|]. intros q Hq. apply Hout. lia.
  - auto with mem.
  - intros q n Hq. by apply valid_wr16, valid_wr16, Hv1.
  - intros q Hq. rewrite Hout, Ho1 by lia. done.
  - rd_simpl. lia.
  - rd_simpl. lia.
Qed.

Lemma put_record_ok qtype qclass ttl rdata data :
  off + name_size ls + 10 + Z.of_nat (length data) <= plen -> bytes_at rdata 0 data -> Forall (fun c => 0 <= c < 256) data ->
  exists m' e, dns_put_next m dns off plen name p qtype qclass ttl (Z.of_nat (length data)) rdata =
      Ret (0, m', e + 10 + Z.of_nat (length data)) /\ e <= off + name_size ls /\
    name_at m' dns e off ls e /\ written dns m off (e + 10 + Z.of_nat (length data)) m' /\
    be16 m' (dns + e) = qtype mod 65536 /\ be16 m' (dns + (e + 2)) = qclass mod 65536 /\
    be32 m' (dns + (e + 4)) = ttl mod 4294967296 /\ be16 m' (dns + (e + 8)) = Z.of_nat (length data) /\
    bytes_at m' (dns + (e + 10)) data.
Proof using All.
  intros Hle Hdata Hbytes. unfold dns_put_next. rewrite (strlen_ok _ _ _ Hname). cbn [mbind outcome_bind].
  rewrite (name_size_str ls Hne) in *.
  destruct (Z.gtb_spec (off + Z.of_nat (length (name_str ls)) + 2 + 10 + Z.of_nat (length data)) plen); [lia|].
  rewrite Nat2Z.id.
  destruct (put_name dns plen name Hplen ls m off p (length (name_str ls) + 2)) as (m1 & e & -> & Hn & He & Hw);
    [done..|rewrite (name_size_str ls Hne); lia|pose proof (name_str_length ls Hls); lia|].
  rewrite (name_size_str ls Hne) in He. pose proof Hw as (Hm1 & Hv1 & Ho1). cbn [mbind outcome_bind negb].
  destruct (Z.gtb_spec (e + 10 + Z.of_nat (length data)) plen); [lia|]. apply Hv1 in Hv.
  rewrite hdr_set16n_ok by (eapply valid_sub; [exact Hv|lia|lia]). cbn [mbind outcome_bind].
  rewrite hdr_set16n_ok by (apply valid_wr16; eapply valid_sub; [exact Hv|lia|lia]). cbn [mbind outcome_bind].
  rewrite hdr_set32n_ok by (apply valid_wr16, valid_wr16; eapply valid_sub; [exact Hv|lia|lia]). cbn [mbind outcome_bind].
  rewrite hdr_set16n_ok by (apply valid_wr32, valid_wr16, valid_wr16; eapply valid_sub; [exact Hv|lia|lia]). cbn [mbind outcome_bind].
  rewrite memcpy_bytes by done.
  set (m2 := wr16 (wr32 (wr16 (wr16 m1 (dns + e) qtype) (dns + (e + 2)) qclass) (dns + (e + 4)) ttl) (dns + (e + 8))
    (Z.of_nat (length data))).
  assert (forall q, q < dns + e \/ dns + (e + 10) <= q -> m2 !! q = m1 !! q) as Hout.
  { intros q Hq. subst m2. unfold wr32, wr16, wr8. rewrite !lookup_insert_ne by lia. done. }
  assert (forall q n, valid m1 q n -> valid m2 q n) as Hv2.
  { intros q n Hq. subst m2. auto with mem. }
  destruct (written_bytes dns m2 (dns + (e + 10)) data) as (m' & -> & Hb & Hm' & Hv' & Ho');
    [subst m2; auto with mem|apply Hv2; eapply valid_sub; [exact Hv|lia|lia]|done|].
  replace (dns + (e + 10) - dns) with (e + 10) in Ho' by lia.
  cbn [mbind outcome_bind]. rewrite u16_small by lia. exists m', e. split; [done|]. split; [lia|].
  assert (forall q, q < dns + (e + 10) -> rd m' q = rd m2 q) as Hrd by (intros q Hq; unfold rd; rewrite Ho' by lia; done).
  split; [|split; [split; [done|split]|]].
  - eapply name_at_agree; [| |exact Hn]; [lia|]. intros q Hq. rewrite Ho', Hout by lia. done.
  - intros q n Hq. by apply Hv', Hv2, Hv1.
  - intros q Hq. rewrite Ho', Hout, Ho1 by lia. done.
  - unfold be32, be16. rewrite !Hrd by lia. subst m2. unfold wr32, wr16.
    assert (Z.of_nat (length data) < 65536) as Hdl by lia. clear - Hb Hdl. repeat rd_simpl_core.
    repeat split; lia || done.
Qed.
End round_trip.

(** C19: a question that is written is read back.  Let a message have [off] bytes, the twelve of the header
    included, in which every byte of 192 or more is followed by one with which it is a compression pointer to an
    earlier byte that is not zero, and room for the name, its type and its class; and let the labels of the name
    have 1 to 63 bytes, none of them zero, a dot or 192 or more.  Then
    [dns_put_next_qr] returns 0, writes only behind [off], at most the size of the name without compression, and
    [dns_next] at [off] returns 0 with the same name, type and class, stands behind the question, and writes
    only in its buffer; in particular the pointer that a compressed name ends with leads to the right labels. *)
Theorem dns_question_roundtrip `{Host} m dns off plen name ls qtype qclass bufsiz fuel a
  (Hm : bytes_ok m) (Hv : valid m dns plen) (Hp : pointers_ok m dns off) (Hls : Forall label_ok ls) (Hne : ls <> [])
  (Hname : cstring name 0 (name_str ls)) (Hoff : 0 <= off)
  (Hroom : off + Z.of_nat (length (name_str ls)) + 2 + 4 <= plen) (Hplen : plen <= 65535)
  (Ht : 0 <= qtype < 65536) (Hc : 0 <= qclass < 65536)
  (Ha : q_off a = off) (Hrem : 0 < q_remcnt a < 65536) (Hbuf : valid (q_buf a) 0 bufsiz)
  (Hfit : Z.of_nat (length (name_str ls)) + 2 <= bufsiz) (Hfuel : (length ls < fuel)%nat) :
  exists m' off' a', dns_put_next_qr m dns off plen name 0 qtype qclass = Ret (0, m', off') /\
    off < off' <= off + Z.of_nat (length (name_str ls)) + 2 + 4 /\ written dns m off off' m' /\
    dns_next fuel m' dns plen bufsiz a = Ret (0, a') /\ cstring (q_buf a') 0 (name_str ls) /\
    q_type a' = qtype /\ q_class a' = qclass /\ q_off a' = off' /\ q_remcnt a' = q_remcnt a - 1 /\
    forall q, q < 0 \/ bufsiz <= q -> q_buf a' !! q = q_buf a !! q.
Proof.
  pose proof (name_size_str ls Hne) as Hsize.
  destruct (put_qr_ok m dns off plen name 0 ls Hm Hv Hp Hls Hne Hname Hoff Hplen qtype qclass ltac:(lia))
    as (m' & e & E & He & Hn & Hw & Hqt & Hqc). pose proof Hw as (Hm' & Hv' & _).
  pose proof (name_at_ends _ _ _ _ _ _ Hn) as Hends.
  apply (name_at_agree m' m' dns e plen) in Hn; [|lia|done].
  destruct (dns_next_reads m' dns plen off ls e bufsiz fuel a) as (buf' & E2 & Hbv & Hbs & Ho); try done; try lia; [by apply Hv'|].
  exists m', (e + 4). eexists. split; [done|]. split; [lia|]. split; [done|]. split; [exact E2|]. cbn.
  rewrite Hqt, Hqc, !Z.mod_small by lia. done.
Qed.

(** C22: a resource record that is written is read back, with the conditions of the question on the bytes before
    it and on the labels of the name; the record has a type other than CNAME, a time to live and data, and [dns_next_an_ask] returns 0 with all of them and with the name (a dot
    after its last label) and writes only in its two buffers.  It leaves the offset at the data of the record:
    the writer's offset is behind the data. *)
Theorem dns_record_roundtrip `{Host} m dns off plen name ls qtype qclass ttl rdata data bufsiz datbufsiz fuel a
  (Hm : bytes_ok m) (Hv : valid m dns plen) (Hp : pointers_ok m dns off) (Hls : Forall label_ok ls) (Hne : ls <> [])
  (Hname : cstring name 0 (name_str ls)) (Hoff : 0 <= off)
  (Hdata : bytes_at rdata 0 data) (Hbytes : Forall (fun c => 0 <= c < 256) data)
  (Hroom : off + Z.of_nat (length (name_str ls)) + 2 + 10 + Z.of_nat (length data) <= plen) (Hplen : plen <= 65535)
  (Ht : 0 <= qtype < 65536 /\ qtype <> 5) (Hc : 0 <= qclass < 65536) (Httl : 0 <= ttl < 4294967296)
  (Ha : q_off a = off) (Hrem : 0 < q_remcnt a < 65536) (Hbuf : valid (q_buf a) 0 bufsiz) (Hdat : valid (q_dat a) 0 datbufsiz)
  (Hfit : Z.of_nat (length (name_str ls)) + 2 <= bufsiz) (Hdatfit : Z.of_nat (length data) + 2 <= datbufsiz)
  (Hfuel : (length ls < fuel)%nat) :
  exists m' off' a', dns_put_next m dns off plen name 0 qtype qclass ttl (Z.of_nat (length data)) rdata = Ret (0, m', off') /\
    off < off' <= off + Z.of_nat (length (name_str ls)) + 2 + 10 + Z.of_nat (length data) /\ written dns m off off' m' /\
    dns_next_an_ask fuel m' dns plen bufsiz datbufsiz a = Ret (0, a') /\ cstring (q_buf a') 0 (name_str ls ++ [46]) /\
    q_type a' = qtype /\ q_class a' = qclass /\ q_ttl a' = ttl /\ q_datlen a' = Z.of_nat (length data) /\
    bytes_at (q_dat a') 0 data /\ q_off a' = off' - Z.of_nat (length data) /\ q_remcnt a' = q_remcnt a - 1 /\
    (forall q, q < 0 \/ bufsiz <= q -> q_buf a' !! q = q_buf a !! q) /\
    forall q, q < 0 \/ datbufsiz <= q -> q_dat a' !! q = q_dat a !! q.
Proof.
  pose proof (name_size_str ls Hne) as Hsize.
  destruct (put_record_ok m dns off plen name 0 ls Hm Hv Hp Hls Hne Hname Hoff Hplen qtype qclass ttl rdata data
    ltac:(lia) Hdata Hbytes) as (m' & e & E & He & Hn & Hw & Hqt & Hqc & Hqttl & Hqlen & Hqd).
  pose proof Hw as (Hm' & Hv' & _). pose proof (name_at_ends _ _ _ _ _ _ Hn) as Hends.
  apply (name_at_agree m' m' dns e plen) in Hn; [|lia|done].
  apply Hv' in Hv. assert (be16 m' (dns + e) <> 5) as Ht5 by (rewrite Hqt, Z.mod_small; lia).
  destruct (an_ask_reads m' dns plen off ls e bufsiz datbufsiz data fuel a)
    as (buf' & dat' & E2 & (Hbv & Hbs & _) & _ & Hd & Hob & Hod); try done; try lia.
  exists m', (e + 10 + Z.of_nat (length data)). eexists. split; [done|]. split; [lia|]. split; [done|]. split; [exact E2|]. cbn.
  rewrite Hqt, Hqc, Hqttl, !Z.mod_small, name_str_dots by (done || lia). repeat (split; [done || lia|]). done.
Qed.

Lemma mem_of_bytes_lookup bs (i : nat) b : bs !! i = Some b -> mem_of 0 bs !! (0 + Z.of_nat i) = Some b.
Proof. intros Hi. rewrite mem_of_lookup by lia. by rewrite Nat2Z.id. Qed.

(** A message with a question for www.aa.fi; m.aa.fi is written next and the
    last two labels are shared. *)
Definition sample_name : mem := mem_of 0 [109; 46; 97; 97; 46; 102; 105; 0].
Definition sample_dns : mem :=
  mem_of 0 ([0; 1; 0; 0; 0; 2; 0; 0; 0; 0; 0; 0; 3; 119; 119; 119; 2; 97; 97; 2; 102; 105; 0; 0; 1; 0; 1] ++ replicate 40 0).

Lemma sample_pointers : pointers_ok sample_dns 0 27.
Proof.
  intros j a Hj Ha Hge. exfalso. assert (a < 192); [|lia].
  assert (Forall (fun j => rd sample_dns j < 192) (seqZ 0 27)) as Hall by (apply (bool_decide_unpack _); vm_compute; reflexivity).
  rewrite Forall_forall in Hall. replace a with (rd sample_dns j) by (unfold rd; by rewrite Z.add_0_l in Ha; rewrite Ha).
  apply Hall, list_elem_of_In, elem_of_seqZ. lia.
Qed.

Lemma dns_question_roundtrip_witness :
  let a := Answer 27 1 (mem_of 0 (replicate 20 7)) 0 0 0 ∅ 0 in
  exists m' off' a', dns_put_next_qr (H := little_endian_host) sample_dns 0 27 60 sample_name 0 28 1 = Ret (0, m', off') /\
    27 < off' <= 40 /\ dns_next (H := little_endian_host) 4 m' 0 60 20 a = Ret (0, a') /\ cstring (q_buf a') 0 [109; 46; 97; 97; 46; 102; 105].
Proof.
  intros a.
  destruct (dns_question_roundtrip (H := little_endian_host) sample_dns 0 27 60 sample_name [[109]; [97; 97]; [102; 105]] 28 1 20 4 a)
    as (m' & off' & a' & E & Hoff & Hw & E2 & Hs & _).
  - apply bytes_okb_ok. reflexivity.
  - apply validb_valid. reflexivity.
  - exact sample_pointers.
  - repeat constructor; simpl; lia.
  - done.
  - split; [repeat constructor; lia|]. intros i b Hi. apply mem_of_bytes_lookup. exact Hi.
  - lia.
  - simpl. lia.
  - lia.
  - lia.
  - lia.
  - reflexivity.
  - simpl. lia.
  - apply validb_valid. reflexivity.
  - simpl. lia.
  - simpl. lia.
  - exists m', off', a'. split; [exact E|]. split; [exact Hoff|]. split; [exact E2|exact Hs].
Defined.

Lemma dns_record_roundtrip_witness :
  let a := Answer 27 1 (mem_of 0 (replicate 20 7)) 0 0 0 (mem_of 0 (replicate 10 7)) 0 in
  exists m' off' a', dns_put_next (H := big_endian_host) sample_dns 0 27 60 sample_name 0 1 1 3600 4 (mem_of 0 [10; 0; 0; 1]) = Ret (0, m', off') /\
    dns_next_an_ask (H := big_endian_host) 4 m' 0 60 20 10 a = Ret (0, a') /\ bytes_at (q_dat a') 0 [10; 0; 0; 1].
Proof.
  intros a.
  destruct (dns_record_roundtrip (H := big_endian_host) sample_dns 0 27 60 sample_name [[109]; [97; 97]; [102; 105]] 1 1 3600
    (mem_of 0 [10; 0; 0; 1]) [10; 0; 0; 1] 20 10 4 a)
    as (m' & off' & a' & E & Hoff & Hw & E2 & Hs & _ & _ & _ & _ & Hd & _).
  - apply bytes_okb_ok. reflexivity.
  - apply validb_valid. reflexivity.
  - exact sample_pointers.
  - repeat constructor; simpl; lia.
  - done.
  - split; [repeat constructor; lia|]. intros i b Hi. apply mem_of_bytes_lookup. exact Hi.
  - lia.
  - intros i b Hi. apply mem_of_bytes_lookup. exact Hi.
  - repeat constructor; lia.
  - simpl. lia.
  - lia.
  - lia.
  - lia.
  - lia.
  - reflexivity.
  - simpl. lia.
  - apply validb_valid. reflexivity.
  - apply validb_valid. reflexivity.
  - simpl. lia.
  - simpl. lia.
  - simpl. lia.
  - exists m', off', a'. split; [exact E|]. split; [exact E2|exact Hd].
Defined.

(** The condition on the bytes before is needed: the identifier 0xC00C in the
    header looks like a pointer to the question [aa] behind the header, so the
    name [aa] is written as a pointer to the identifier, and the reader refuses a
    pointer to a pointer. *)
Definition id_dns : mem := mem_of 0 ([0xC0; 12; 0; 0; 0; 2; 0; 0; 0; 0; 0; 0; 2; 97; 97; 0; 0; 1; 0; 1] ++ replicate 40 0).
Example id_as_pointer :
  ('(rc, m, off) ← dns_put_next_qr (H := little_endian_host) id_dns 0 20 60 (mem_of 0 [97; 97; 0]) 0 1 1;
   '(rc', _) ← dns_next (H := little_endian_host) 8 m 0 60 20 (Answer 20 1 (mem_of 0 (replicate 20 7)) 0 0 0 ∅ 0);
   Ret (rc, off, rd m 20, rd m 21, rc')) = Ret (0, 26, 192, 0, -14).
Proof. vm_compute. reflexivity. Qed.
