(* ===== verification/DnsSafe.v ===== *)
(** Reading arbitrary messages: the readers stay inside the message and inside
    their buffers, and what they do with names that no writer makes. *)
From S2P Require Import Prelude Bytes Packet CString Dns DnsNames DnsPut.

(** A loop whose body keeps an invariant, without a bound on its passes. *)
Lemma iter_safe {S R} (body : S -> outcome (S + R)) (I : S -> Prop) (Q : R -> Prop) :
  (forall s, I s -> returns (body s) (fun x => match x with inl s' => I s' | inr r => Q r end)) ->
  forall n s, I s -> iter n body s = OutOfFuel \/ returns (iter n body s) Q.
Proof.
  intros Hb n. induction n as [|n IH]; intros s Hs; [by left|]. simpl.
  destruct (Hb s Hs) as ([s'|r] & -> & Hx); simpl; [by apply IH|]. right. by exists r.
Qed.

Section safe.
Context (m : mem) (dns plen remcnt bufsiz : Z).
Context (Hm : bytes_ok m) (Hv : valid m dns plen) (Hplen : 0 <= plen <= 65535).

(** The bytes of the message as a list. *)
Lemma message_bytes o n : 0 <= o -> 0 <= n -> o + n <= plen -> exists bs, Z.of_nat (length bs) = n /\ bytes_at m (dns + o) bs.
Proof using Hv.
  intros Ho Hn Hle. exists ((fun i => rd m (dns + o + i)) <$> seqZ 0 n). rewrite length_fmap, length_seqZ. split; [lia|].
  intros i b Hi. apply list_lookup_fmap_Some in Hi as (k & -> & Hk). apply lookup_seqZ in Hk as [-> Hk].
  replace (dns + o + Z.of_nat i) with (dns + o + (0 + Z.of_nat i)) by lia. apply lookup_rd.
  eapply valid_sub; [exact Hv|lia|lia].
Qed.

(** The caller's buffer is [buf0]; the one in the state differs from it inside
    [bufsiz] bytes only. *)
Definition same_outside (buf0 buf : mem) : Prop := forall q, q < 0 \/ bufsiz <= q -> buf !! q = buf0 !! q.
Definition loop_ok (buf0 : mem) (st : label_state) : Prop :=
  0 <= l_off st < 65536 /\ (if l_jmp st then 0 <= l_laboff st < plen else l_laboff st = l_off st) /\
  (exists s, buffer bufsiz (l_buf st) s) /\ same_outside buf0 (l_buf st).
Definition exit_ok (buf0 : mem) (r : bool * label_state) : Prop :=
  0 <= l_off r.2 < 65536 /\ (exists s, buffer bufsiz (l_buf r.2) s) /\ same_outside buf0 (l_buf r.2).

Lemma append_safe buf0 st labsiz :
  0 <= l_off st < 65536 -> 0 <= l_laboff st -> 0 <= labsiz < 256 -> (exists s, buffer bufsiz (l_buf st) s) ->
  same_outside buf0 (l_buf st) ->
  (l_jmp st = false -> l_laboff st + labsiz < plen -> l_off st = l_laboff st + labsiz) ->
  returns (append_label m dns plen bufsiz st labsiz) (fun x =>
    match x with inl st' => loop_ok buf0 st' | inr r => exit_ok buf0 r end).
Proof using Hm Hv Hplen.
  intros Hoff Hlab Hsiz (s & Hs) Hsame Hnext. destruct (Z.lt_ge_cases (l_laboff st + labsiz) plen) as [Hlt|Hge].
  - destruct (message_bytes (l_laboff st) labsiz) as (bs & Hlen & Hb); [lia..|].
    destruct (Z.le_gt_cases (Z.of_nat (length s + length bs) + 2) bufsiz) as [Hfit|Hfull].
    + destruct (append_label_bytes m dns plen bufsiz Hm st s bs Hs Hb ltac:(lia) Hfit) as (b' & E & Hv' & Hb' & Ho).
      rewrite <- Hlen, E. eexists. split; [done|]. rewrite Hlen, u16_small by lia. unfold loop_ok. cbn [l_off l_laboff l_jmp l_buf].
      split; [done|]. split; [destruct (l_jmp st); [lia|symmetry; by apply Hnext]|]. split.
      * destruct (some_cstring b' 0 (s ++ bs ++ [46])) as (s' & Hs' & Hle); [by rewrite <- !app_assoc|].
        exists s'. split; [done|]. split; [done|]. rewrite !length_app in Hle. simpl in Hle. lia.
      * intros q Hq. rewrite Ho by done. by apply Hsame.
    + unfold append_label. destruct (Z.geb_spec (l_laboff st + labsiz) plen); [lia|]. destruct Hs as (Hv' & Hcs & Hl).
      rewrite (strlen_ok _ _ _ Hcs). cbn [mbind outcome_bind].
      destruct (Z.gtb_spec (labsiz + Z.of_nat (length s) + 2) bufsiz); [|lia]. eexists. split; [done|].
      split; [done|]. split; [by exists s|done].
  - unfold append_label. destruct (Z.geb_spec (l_laboff st + labsiz) plen); [|lia]. eexists. split; [done|].
    split; [done|]. split; [by exists s|done].
Qed.

Lemma message_byte o : 0 <= o < plen -> exists a, load8 m (dns + o) = Ret a /\ 0 <= a < 256.
Proof using Hm Hv. intros Ho. destruct (load_ok m dns plen Hm Hv o Ho) as (a & _ & ? & ?). by exists a. Qed.

Lemma label_step_safe buf0 st : loop_ok buf0 st ->
  returns (dns_label_step m dns plen remcnt bufsiz st) (fun x => match x with inl st' => loop_ok buf0 st' | inr r => exit_ok buf0 r end).
Proof using Hm Hv Hplen.
  intros (Hoff & Hlab & Hs & Hsame). destruct st as [off laboff jmp buf]. unfold dns_label_step. cbn [l_off l_laboff l_jmp l_buf] in *.
  destruct (Z.ltb_spec off plen) as [Hlt|]; [|eexists; split; [done|]; by split]. destruct (remcnt =? 0); [eexists; split; [done|]; by split|].
  cbn [negb andb]. assert (0 <= laboff < plen) as Hl by (destruct jmp; lia).
  destruct (message_byte laboff Hl) as (a & -> & Ha). cbn [mbind outcome_bind]. rewrite (u16_small (laboff + 1)) by lia.
  assert (0 <= (if jmp then off else u16 (off + 1)) < 65536) as Hoff1 by (destruct jmp; [done|apply u16_range]).
  destruct (Z.eqb_spec a 0); [eexists; split; [done|]; by split|]. rewrite land_c0 by lia. destruct (Z.leb_spec 192 a).
  - destruct (Z.geb_spec (laboff + 1) plen); [eexists; split; [done|]; by split|].
    destruct (message_byte (laboff + 1)) as (b & -> & Hb); [lia|]. cbn [mbind outcome_bind]. rewrite pointer_value by lia.
    set (off2 := if jmp then _ else u16 (_ + 1)).
    assert (0 <= off2 < 65536) as Hoff2 by (subst off2; destruct jmp; [done|apply u16_range]).
    destruct (Z.geb_spec ((a - 192) * 256 + b) plen); [eexists; split; [done|]; by split|].
    rewrite (u16_small ((a - 192) * 256 + b + 1)) by lia.
    destruct (message_byte ((a - 192) * 256 + b + 1 - 1)) as (c & -> & Hc); [lia|]. cbn [mbind outcome_bind].
    apply append_safe; cbn [l_off l_laboff l_jmp l_buf]; try done; lia.
  - apply append_safe; cbn [l_off l_laboff l_jmp l_buf]; try done; try lia; [destruct jmp; [done|apply u16_range]|].
    intros ->. rewrite Hlab. intros Hlt2. rewrite (u16_small (off + 1)) by lia. rewrite u16_small; lia.
Qed.

(** The loop, from the start. *)
Lemma label_loop_safe fuel off buf buf0 :
  0 <= off < 65536 -> valid buf 0 bufsiz -> 1 <= bufsiz -> store8 buf 0 0 = Ret buf0 ->
  iter fuel (dns_label_step m dns plen remcnt bufsiz) (LabelState off off false buf0) = OutOfFuel \/
  returns (iter fuel (dns_label_step m dns plen remcnt bufsiz) (LabelState off off false buf0)) (exit_ok buf).
Proof using Hm Hv Hplen.
  intros Hoff Hb H1 E. rewrite store8_ok in E by (eapply valid_sub; [exact Hb|lia|lia]). injection E as <-.
  apply (iter_safe _ (loop_ok buf)); [apply label_step_safe|]. split; [done|]. split; [done|]. split.
  - exists []. split; [by apply valid_wr8|]. split; [|simpl; lia]. apply cstring_nil. cbn [l_buf]. unfold wr8. by rewrite lookup_insert_eq.
  - intros q Hq. cbn [l_buf]. unfold wr8. rewrite lookup_insert_ne by lia. done.
Qed.
End safe.

(** The states on a label that starts with a zero byte and is followed by a
    pointer to itself: at the label, at the pointer, and at the pointer after
    a jump. *)
Definition self_pointing (m : mem) (dns plen bufsiz o : Z) (st : label_state) : Prop :=
  buffer bufsiz (l_buf st) [] /\
  ((l_off st = o /\ l_laboff st = o /\ l_jmp st = false) \/ (l_off st = o + 2 /\ l_laboff st = o + 2 /\ l_jmp st = false) \/
   (l_off st = o + 4 /\ l_laboff st = o + 2 /\ l_jmp st = true)).

Lemma append_zero m dns plen bufsiz st :
  bytes_ok m -> buffer bufsiz (l_buf st) [] -> bytes_at m (dns + l_laboff st) [0] -> 0 <= l_laboff st -> l_laboff st + 1 < plen ->
  plen <= 65535 -> 3 <= bufsiz ->
  exists buf', append_label m dns plen bufsiz st 1 = Ret (inl (LabelState (l_off st) (l_laboff st + 1) (l_jmp st) buf')) /\
    buffer bufsiz buf' [].
Proof.
  intros Hm Hs Hb Hl Hlt Hp H3.
  destruct (append_label_bytes m dns plen bufsiz Hm st [] [0] Hs Hb) as (buf' & E & Hv & Hb' & _); [simpl; lia..|].
  exists buf'. simpl length in E. change (Z.of_nat 1) with 1 in E. rewrite u16_small in E by lia. split; [done|].
  split; [done|]. split; [|simpl; lia]. apply cstring_nil. by apply bytes_at_cons in Hb' as [? _].
Qed.

Lemma self_pointing_step m dns plen remcnt bufsiz o :
  bytes_ok m -> plen <= 65535 -> 0 <= o < 0x4000 -> remcnt <> 0 -> 3 <= bufsiz -> o + 4 < plen ->
  bytes_at m (dns + o) [1; 0; 192 + o / 256; o mod 256] ->
  forall st, self_pointing m dns plen bufsiz o st ->
  exists st', dns_label_step m dns plen remcnt bufsiz st = Ret (inl st') /\ self_pointing m dns plen bufsiz o st'.
Proof.
  intros Hm Hp Ho Hrem H3 Hlt Hb [off laboff jmp buf] [Hs Hst]. cbn [l_off l_laboff l_jmp l_buf] in *.
  apply bytes_at_cons in Hb as [Hb1 Hb]. apply bytes_at_cons in Hb as [Hb2 Hb]. apply bytes_at_cons in Hb as [Hb3 Hb].
  apply bytes_at_cons in Hb as [Hb4 _]. rewrite <- !Z.add_assoc in *.
  change (1 + 1) with 2 in *. change (1 + 2) with 3 in *.
  assert (bytes_at m (dns + (o + 1)) [0]) as Hz by (apply bytes_at_cons; split; [done|apply nil_bytes_at]).
  unfold dns_label_step. destruct (Z.ltb_spec off plen); [|lia]. destruct (Z.eqb_spec remcnt 0); [done|]. cbn [negb andb].
  assert (laboff = o \/ laboff = o + 2) as [E|E] by lia; subst laboff.
  - rewrite (load_byte _ _ _ Hb1). cbn [mbind outcome_bind]. change (1 =? 0) with false. change (Z.land 1 192 =? 192) with false.
    cbv iota. rewrite (u16_small (o + 1)) by lia. destruct Hst as [(-> & _ & ->)|[(_ & He & _)|(_ & He & _)]]; [|lia|lia].
    rewrite (u16_small (o + 1)), u16_small by lia.
    destruct (append_zero m dns plen bufsiz (LabelState (o + 1 + 1) (o + 1) false buf)) as (buf' & -> & Hb'); try done; try (cbn; lia).
    eexists. split; [done|]. split; [done|]. right. left. cbn. lia.
  - rewrite (load_byte _ _ _ Hb3). cbn [mbind outcome_bind]. destruct (Z.eqb_spec (192 + o / 256) 0); [lia|].
    rewrite land_c0 by lia. destruct (Z.leb_spec 192 (192 + o / 256)); [|lia].
    rewrite (u16_small (o + 2 + 1)) by lia. destruct (Z.geb_spec (o + 2 + 1) plen); [lia|].
    replace (o + 2 + 1) with (o + 3) in * by lia. rewrite (load_byte _ _ _ Hb4). cbn [mbind outcome_bind].
    rewrite pointer_value by lia. replace ((192 + o / 256 - 192) * 256 + o mod 256) with o by lia.
    destruct (Z.geb_spec o plen); [lia|]. rewrite (u16_small (o + 1)) by lia. replace (o + 1 - 1) with o by lia.
    rewrite (load_byte _ _ _ Hb1). cbn [mbind outcome_bind].
    destruct (append_zero m dns plen bufsiz (LabelState (if jmp then if jmp then off else u16 (off + 1) else
      u16 ((if jmp then off else u16 (off + 1)) + 1)) (o + 1) true buf)) as (buf' & -> & Hb'); try done; try (cbn; lia).
    eexists. split; [done|]. split; [done|]. right. right. cbn. destruct jmp; [lia|].
    assert (off = o + 2) as -> by lia. rewrite (u16_small (o + 2 + 1)), u16_small by lia. lia.
Qed.

(** C21: [dns_next] on arbitrary bytes.  Whatever is in the message, as long as it has [plen] bytes and the buffer
    [bufsiz], every read is inside the message and every write inside the buffer, with one exception; if the
    call returns, it returns 0, [-ENOENT] or [-EFAULT], and after 0 it stands inside the message behind the
    question with one question less to read.  The exception is a name for which the buffer holds the empty
    string in the end: the root name, or one whose labels begin with a zero byte; the code then writes the byte
    before the buffer. *)
Theorem dns_next_bounds `{Host} fuel m dns plen bufsiz a
  (Hm : bytes_ok m) (Hv : valid m dns plen) (Hplen : 0 <= plen <= 65535) (Hoff : 0 <= q_off a < 65536)
  (Hrem : 0 <= q_remcnt a < 65536) (Hbuf : valid (q_buf a) 0 bufsiz) (H1 : 1 <= bufsiz)
  (Hblock : q_buf a !! (-1) = None) :
  dns_next fuel m dns plen bufsiz a = OutOfFuel \/
  (exists rc a', dns_next fuel m dns plen bufsiz a = Ret (rc, a') /\ same_outside bufsiz (q_buf a) (q_buf a') /\
    ((rc = 0 /\ q_off a' <= plen /\ q_remcnt a' = q_remcnt a - 1) \/ (rc = - ENOENT /\ q_remcnt a = 0) \/ rc = - EFAULT)) \/
  (dns_next fuel m dns plen bufsiz a = Undef /\ exists buf0 st, store8 (q_buf a) 0 0 = Ret buf0 /\
    iter fuel (dns_label_step m dns plen (q_remcnt a) bufsiz) (LabelState (q_off a) (q_off a) false buf0) = Ret (true, st) /\
    cstring (l_buf st) 0 []).
Proof.
  unfold dns_next. assert (store8 (q_buf a) 0 0 = Ret (wr8 (q_buf a) 0 0)) as E0 by (apply store8_ok; eapply valid_sub; [exact Hbuf|lia|lia]).
  rewrite E0. cbn [mbind outcome_bind]. cbn [set_name q_remcnt q_off].
  destruct (Z.eqb_spec (q_remcnt a) 0).
  { right. left. eexists _, _. split; [done|]. split; [|auto]. intros q Hq. cbn [set_name q_buf]. unfold wr8. rewrite lookup_insert_ne by lia. done. }
  destruct (label_loop_safe m dns plen (q_remcnt a) bufsiz Hm Hv Hplen fuel (q_off a) (q_buf a) _ Hoff Hbuf H1 E0)
    as [->|([ok st] & El & Hso & (s & Hsv & Hss & Hsl) & Hsame)]; [by left|]. rewrite El. right. cbn [mbind outcome_bind].
  cbn [snd] in *. destruct ok; cbn [negb]; [|left; eexists _, _; split; [done|]; by auto].
  destruct (Z.gtb_spec (l_off st + 4) plen); [left; eexists _, _; split; [done|]; by auto|].
  rewrite !hdr_get16n_ok by (done || (eapply valid_sub; [exact Hv|lia|lia])). cbn [mbind outcome_bind].
  rewrite (strlen_ok _ _ _ Hss). cbn [mbind outcome_bind]. destruct (decide (s = [])) as [->|Hne].
  - right. unfold store8. simpl length. change (Z.of_nat 0 - 1) with (-1). rewrite Hsame by lia. rewrite Hblock.
    split; [done|]. by eexists _, st.
  - left. assert (1 <= Z.of_nat (length s)) by (destruct s; [done|simpl; lia]).
    rewrite store8_ok by (eapply valid_sub; [exact Hsv|lia|lia]). cbn [mbind outcome_bind].
    eexists _, _. split; [done|]. cbn [decr_remcnt q_buf q_off q_remcnt]. split.
    + intros q Hq. unfold wr8. rewrite lookup_insert_ne by lia. by apply Hsame.
    + left. split; [done|]. rewrite !u16_small by lia. lia.
Qed.

(** C23: names on which [dns_next] goes wrong.  The root name, a single zero byte, is legal; reading it writes the
    byte before the buffer, whatever the fuel.  A label that starts with a zero byte and is followed by a
    compression pointer back to itself, [01 00 c0 xx], keeps the reader in its loop for ever: the string in
    the buffer stays empty, so the buffer never fills up. *)
Theorem dns_next_hostile_names `{Host} fuel m dns plen bufsiz a o
  (Hm : bytes_ok m) (Hplen : plen <= 65535) (Hoff : q_off a = o) (Ho : 0 <= o < 0x4000) (Hrem : q_remcnt a <> 0)
  (Hbuf : valid (q_buf a) 0 bufsiz) (Hblock : q_buf a !! (-1) = None) (H3 : 3 <= bufsiz) (Hv : valid m dns plen) :
  (m !! (dns + o) = Some 0 -> o + 5 <= plen -> (0 < fuel)%nat -> dns_next fuel m dns plen bufsiz a = Undef) /\
  (bytes_at m (dns + o) [1; 0; 192 + o / 256; o mod 256] -> o + 4 < plen -> dns_next fuel m dns plen bufsiz a = OutOfFuel).
Proof.
  assert (store8 (q_buf a) 0 0 = Ret (wr8 (q_buf a) 0 0)) as E0 by (apply store8_ok; eapply valid_sub; [exact Hbuf|lia|lia]).
  assert (cstring (wr8 (q_buf a) 0 0) 0 []) as Hs0 by (apply cstring_nil; unfold wr8; by rewrite lookup_insert_eq).
  unfold dns_next. rewrite E0. cbn [mbind outcome_bind]. cbn [set_name q_remcnt q_off]. rewrite Hoff.
  destruct (Z.eqb_spec (q_remcnt a) 0); [done|]. split.
  - intros Hz Hle Hf. destruct fuel as [|fuel]; [lia|].
    destruct (step_root m dns plen (q_remcnt a) bufsiz Hrem o o false (wr8 (q_buf a) 0 0) ltac:(lia) Hz) as [laboff E].
    rewrite (iter_inr _ _ _ _ E). cbn [mbind outcome_bind negb l_off l_buf]. rewrite u16_small by lia.
    destruct (Z.gtb_spec (o + 1 + 4) plen); [lia|].
    rewrite !hdr_get16n_ok by (done || (eapply valid_sub; [exact Hv|lia|lia])). cbn [mbind outcome_bind].
    rewrite (strlen_ok _ _ _ Hs0). cbn [mbind outcome_bind]. unfold store8, wr8. simpl length.
    rewrite lookup_insert_ne by lia. change (Z.of_nat 0 - 1) with (-1). by rewrite Hblock.
  - intros Hb Hlt.
    rewrite (iter_diverges _ (self_pointing m dns plen bufsiz o)); [done| |].
    + intros st Hst. by apply self_pointing_step.
    + split; [|by left]. split; [by apply valid_wr8|]. split; [done|simpl; lia].
Qed.

(** A message of 20 bytes: the name at 12 is the label and the pointer. *)
Definition hostile_dns : mem := mem_of 0 [0; 1; 0; 0; 0; 1; 0; 0; 0; 0; 0; 0; 1; 0; 192; 12; 0; 1; 0; 1].

Lemma dns_next_bounds_witness :
  let a := Answer 4 1 (mem_of 0 (replicate 8 7)) 0 0 0 ∅ 0 in
  dns_next (H := little_endian_host) 4 hostile_dns 0 20 8 a = OutOfFuel \/
  (exists rc a', dns_next (H := little_endian_host) 4 hostile_dns 0 20 8 a = Ret (rc, a') /\
    same_outside 8 (q_buf a) (q_buf a')) \/
  dns_next (H := little_endian_host) 4 hostile_dns 0 20 8 a = Undef.
Proof.
  intros a. destruct (dns_next_bounds (H := little_endian_host) 4 hostile_dns 0 20 8 a) as [E|[(rc & a' & E & Hs & _)|[E _]]].
  - apply bytes_okb_ok. reflexivity.
  - apply validb_valid. reflexivity.
  - lia.
  - simpl. lia.
  - simpl. lia.
  - apply validb_valid. reflexivity.
  - lia.
  - reflexivity.
  - left. exact E.
  - right. left. exists rc, a'. split; [exact E|exact Hs].
  - right. right. exact E.
Defined.

Lemma dns_next_hostile_names_witness :
  dns_next (H := little_endian_host) 1000 hostile_dns 0 20 8 (Answer 12 1 (mem_of 0 (replicate 8 7)) 0 0 0 ∅ 0) = OutOfFuel /\
  dns_next (H := little_endian_host) 1000 hostile_dns 0 20 8 (Answer 6 1 (mem_of 0 (replicate 8 7)) 0 0 0 ∅ 0) = Undef.
Proof.
  split.
  - apply (dns_next_hostile_names (H := little_endian_host) 1000 hostile_dns 0 20 8 (Answer 12 1 (mem_of 0 (replicate 8 7)) 0 0 0 ∅ 0) 12);
      [apply bytes_okb_ok; reflexivity|lia|reflexivity|lia|done|apply validb_valid; reflexivity|reflexivity|lia|
       apply validb_valid; reflexivity| |lia].
    intros i b Hi. repeat (destruct i as [|i]; [exact Hi|]). done.
  - apply (dns_next_hostile_names (H := little_endian_host) 1000 hostile_dns 0 20 8 (Answer 6 1 (mem_of 0 (replicate 8 7)) 0 0 0 ∅ 0) 6);
      [apply bytes_okb_ok; reflexivity|lia|reflexivity|lia|done|apply validb_valid; reflexivity|reflexivity|lia|
       apply validb_valid; reflexivity|reflexivity|lia|lia].
Defined.

(** The name [01 00 00], one label that is a zero byte: not the root, but the
    buffer holds the empty string. *)
Example zero_label_writes_before_buffer :
  dns_next (H := little_endian_host) 10 (mem_of 0 [1; 0; 0; 0; 1; 0; 1]) 0 7 20 (Answer 0 1 (mem_of 0 (replicate 20 7)) 0 0 0 ∅ 0) = Undef.
Proof. vm_compute. reflexivity. Qed.
