(* ===== verification/DnsHdr.v ===== *)
(** The fixed header of a DNS message: every setter of iphdr/dnshdr.h changes
    its own field of what the getters return. *)
From S2P Require Import Prelude Bytes Dns.

Inductive dns_field :=
  D_id | D_qr | D_opcode | D_aa | D_tc | D_rd | D_ra | D_z | D_rcode | D_qd | D_an | D_ns | D_ar.

Section header.
Context `{Host}.

(** The getters, in the order of the fields. *)
Definition dns_view (m : mem) (dns : Z) : outcome (list Z) :=
  id ← dns_id m dns; qr ← dns_qr m dns; opcode ← dns_opcode m dns; aa ← dns_aa m dns; tc ← dns_tc m dns;
  rd ← dns_rd m dns; ra ← dns_ra m dns; z ← dns_z m dns; rcode ← dns_rcode m dns;
  qd ← dns_qdcount m dns; an ← dns_ancount m dns; ns ← dns_nscount m dns; ar ← dns_arcount m dns;
  Ret [id; qr; opcode; aa; tc; rd; ra; z; rcode; qd; an; ns; ar].
Definition dns_set (f : dns_field) (m : mem) (dns v : Z) : outcome mem :=
  match f with
  | D_id => dns_set_id m dns v | D_qr => dns_set_qr m dns v | D_opcode => dns_set_opcode m dns v
  | D_aa => dns_set_aa m dns v | D_tc => dns_set_tc m dns v | D_rd => dns_set_rd m dns v
  | D_ra => dns_set_ra m dns v | D_z => dns_set_z m dns | D_rcode => dns_set_rcode m dns v
  | D_qd => dns_set_qdcount m dns v | D_an => dns_set_ancount m dns v
  | D_ns => dns_set_nscount m dns v | D_ar => dns_set_arcount m dns v
  end.
Definition field_index (f : dns_field) : nat :=
  match f with
  | D_id => 0 | D_qr => 1 | D_opcode => 2 | D_aa => 3 | D_tc => 4 | D_rd => 5 | D_ra => 6 | D_z => 7 | D_rcode => 8
  | D_qd => 9 | D_an => 10 | D_ns => 11 | D_ar => 12
  end.
(** The bound on the values of a field; [dns_set_z] can only clear. *)
Definition field_bound (f : dns_field) : Z :=
  match f with
  | D_qr | D_aa | D_tc | D_rd | D_ra => 2
  | D_opcode | D_rcode => 16
  | D_z => 1
  | D_id | D_qd | D_an | D_ns | D_ar => 65536
  end.
(** The value read back: the getters of the counts drop the high byte. *)
Definition field_read (f : dns_field) (v : Z) : Z :=
  match f with D_qd | D_an | D_ns | D_ar => v mod 256 | _ => v end.

(** The two bytes of flags. *)
Definition bit_of (c n : Z) : Z := b2z (negb (Z.land c (Z.shiftl 1 n) =? 0)).
Definition flags2 (c : Z) : list Z := [bit_of c 7; Z.shiftr (Z.land c 0x78) 3; bit_of c 2; bit_of c 1; bit_of c 0].
Definition flags3 (c : Z) : list Z := [bit_of c 7; Z.shiftr (Z.land c 0x70) 4; Z.land c 0x0F].
Definition with_bit (n c v : Z) : Z :=
  Z.lor (Z.land c (Z.lnot (Z.shiftl 1 n)) mod 256) (Z.shiftl (b2z (negb (v =? 0))) n) mod 256.
Definition with_opcode (c v : Z) : Z := Z.lor (Z.land c (Z.lnot 0x78) mod 256) (Z.shiftl (Z.land v 0xF) 3) mod 256.
Definition with_rcode (c v : Z) : Z := Z.lor (Z.land c (Z.lnot 0x0F) mod 256) (Z.land v 0x0F) mod 256.

Section at_header.
Context (m : mem) (dns : Z) (Hm : bytes_ok m) (Hv : valid m dns 12).

Lemma dns_view_ok : dns_view m dns = Ret (be16 m dns :: flags2 (rd m (dns + 2)) ++ flags3 (rd m (dns + 3)) ++
  [u8 (be16 m (dns + 4)); u8 (be16 m (dns + 6)); u8 (be16 m (dns + 8)); u8 (be16 m (dns + 10))]).
Proof using Hm Hv.
  unfold dns_view, dns_id, dns_qr, dns_opcode, dns_aa, dns_tc, dns_rd, dns_ra, dns_z, dns_rcode, dns_qdcount, dns_ancount,
    dns_nscount, dns_arcount, get_bit. hdr_run. done.
Qed.
End at_header.

(** Storing a byte twice is storing it once. *)
Lemma put_bit_ok m p n v : bytes_ok m -> valid m p 1 -> put_bit m p n v = Ret (wr8 m p (with_bit n (rd m p) v)).
Proof.
  intros Hm Hv. unfold put_bit. hdr_run. rewrite rd_wr8_eq. f_equal. unfold wr8, with_bit.
  rewrite insert_insert_eq, Z.mod_mod by lia. done.
Qed.
Lemma dns_set_opcode_ok m dns v :
  bytes_ok m -> valid m dns 12 -> dns_set_opcode m dns v = Ret (wr8 m (dns + 2) (with_opcode (rd m (dns + 2)) v)).
Proof.
  intros Hm Hv. unfold dns_set_opcode. hdr_run. rewrite rd_wr8_eq. f_equal. unfold wr8, with_opcode.
  rewrite insert_insert_eq, Z.mod_mod by lia. done.
Qed.
Lemma dns_set_rcode_ok m dns v :
  bytes_ok m -> valid m dns 12 -> dns_set_rcode m dns v = Ret (wr8 m (dns + 3) (with_rcode (rd m (dns + 3)) v)).
Proof.
  intros Hm Hv. unfold dns_set_rcode. hdr_run. rewrite rd_wr8_eq. f_equal. unfold wr8, with_rcode.
  rewrite insert_insert_eq, Z.mod_mod by lia. done.
Qed.

(** The flags after a bit or a nibble was changed, for every byte. *)
Ltac flags_brute c v k :=
  apply (bool_decide_unpack _);
  match goal with
  | |- Is_true ?b =>
      apply Is_true_true;
      match eval pattern c, v in b with
      | ?P _ _ => refine (byte_forall2 k P _ c v _ _); [vm_compute; reflexivity|lia|lia]
      end
  end.
Lemma flags2_with_bit (i : nat) n c v :
  (i, n) ∈ [(0%nat, 7); (2%nat, 2); (3%nat, 1); (4%nat, 0)] -> 0 <= c < 256 -> 0 <= v < 2 ->
  flags2 (with_bit n c v mod 256) = <[i := v]> (flags2 c).
Proof.
  intros Hi Hc Hv. repeat (apply elem_of_cons in Hi as [[= -> ->]|Hi]); [..|by apply elem_of_nil in Hi]; flags_brute c v 2.
Qed.
Lemma flags3_with_bit c v : 0 <= c < 256 -> 0 <= v < 2 -> flags3 (with_bit 7 c v mod 256) = <[0%nat := v]> (flags3 c).
Proof. intros Hc Hv. flags_brute c v 2. Qed.
Lemma flags2_with_opcode c v : 0 <= c < 256 -> 0 <= v < 16 -> flags2 (with_opcode c v mod 256) = <[1%nat := v]> (flags2 c).
Proof. intros Hc Hv. flags_brute c v 16. Qed.
Lemma flags3_with_rcode c v : 0 <= c < 256 -> 0 <= v < 16 -> flags3 (with_rcode c v mod 256) = <[2%nat := v]> (flags3 c).
Proof. intros Hc Hv. flags_brute c v 16. Qed.
Lemma flags3_no_z c v : 0 <= c < 256 -> 0 <= v < 1 -> flags3 (Z.land c (Z.lnot 0x70) mod 256) = <[1%nat := v]> (flags3 c).
Proof. intros Hc Hv. flags_brute c v 1. Qed.

(** The header after a write of one of its bytes or words. *)
Lemma dns_view_flags2 m dns x : bytes_ok m -> valid m dns 12 ->
  dns_view (wr8 m (dns + 2) x) dns = Ret (be16 m dns :: flags2 (x mod 256) ++ flags3 (rd m (dns + 3)) ++
    [u8 (be16 m (dns + 4)); u8 (be16 m (dns + 6)); u8 (be16 m (dns + 8)); u8 (be16 m (dns + 10))]).
Proof. intros Hm Hv. rewrite dns_view_ok by auto with mem. by rd_simpl. Qed.
Lemma dns_view_flags3 m dns x : bytes_ok m -> valid m dns 12 ->
  dns_view (wr8 m (dns + 3) x) dns = Ret (be16 m dns :: flags2 (rd m (dns + 2)) ++ flags3 (x mod 256) ++
    [u8 (be16 m (dns + 4)); u8 (be16 m (dns + 6)); u8 (be16 m (dns + 8)); u8 (be16 m (dns + 10))]).
Proof. intros Hm Hv. rewrite dns_view_ok by auto with mem. by rd_simpl. Qed.
Lemma dns_view_word m dns k v (i : nat) :
  bytes_ok m -> valid m dns 12 -> (k, i) ∈ [(4, 9%nat); (6, 10%nat); (8, 11%nat); (10, 12%nat)] -> 0 <= v < 65536 ->
  exists h, dns_view m dns = Ret h /\ dns_view (wr16 m (dns + k) v) dns = Ret (<[i := v mod 256]> h).
Proof.
  intros Hm Hv Hk Hr. eexists. split; [by apply dns_view_ok|]. rewrite dns_view_ok by auto with mem. f_equal.
  repeat (apply elem_of_cons in Hk as [[= -> ->]|Hk]); [..|by apply elem_of_nil in Hk]; rd_simpl;
    unfold flags2, flags3; cbn [list_insert app insert]; repeat f_equal; unfold u8; lia.
Qed.
End header.

(** Every setter of the DNS header stays inside the twelve bytes of the header and changes exactly its own
    field of what the getters return; the counts are stored with 16 bits and read back with 8. *)
Theorem dns_setter_refines `{Host} f m dns v
  (Hm : bytes_ok m) (Hv : valid m dns 12) (Hf : 0 <= v < field_bound f) :
  exists m' h, dns_set f m dns v = Ret m' /\ dns_view m dns = Ret h /\
    dns_view m' dns = Ret (<[field_index f := field_read f v]> h) /\
    forall q, q < dns \/ dns + 12 <= q -> m' !! q = m !! q.
Proof.
  assert (forall k, 0 <= k < 12 -> 0 <= rd m (dns + k) < 256) as Hb by auto with mem.
  assert (forall k, 0 <= k < 12 -> valid m (dns + k) 1) as Hv1 by (intros k Hk; solve_valid).
  assert (forall q x k, (q < dns \/ dns + 12 <= q) -> 0 <= k < 12 -> wr8 m (dns + k) x !! q = m !! q) as Hout8.
  { intros q x k Hq Hk. unfold wr8. by rewrite lookup_insert_ne by lia. }
  assert (forall q x k, (q < dns \/ dns + 12 <= q) -> 0 <= k < 11 -> wr16 m (dns + k) x !! q = m !! q) as Hout16.
  { intros q x k Hq Hk. unfold wr16, wr8. by rewrite !lookup_insert_ne by lia. }
  destruct f; cbn [field_bound] in Hf; unfold dns_set, dns_set_id, dns_set_qr, dns_set_aa, dns_set_tc, dns_set_rd, dns_set_ra,
    dns_set_z, dns_set_qdcount, dns_set_ancount, dns_set_nscount, dns_set_arcount;
    rewrite ?put_bit_ok, ?dns_set_opcode_ok, ?dns_set_rcode_ok by (done || (apply Hv1; lia)).
  1: { hdr_run. eexists _, _. split; [done|]. split; [by apply dns_view_ok|]. rewrite dns_view_ok by auto with mem. split.
       - rd_simpl. cbn. do 2 f_equal. lia.
       - intros q Hq. rewrite <- (Z.add_0_r dns) at 1. apply Hout16; lia. }
  7: hdr_run.
  9-12: hdr_run.
  9: destruct (dns_view_word m dns 4 v 9) as (h & E1 & E2); [done|done|by left|done|].
  10: destruct (dns_view_word m dns 6 v 10) as (h & E1 & E2); [done|done|by (right; left)|done|].
  11: destruct (dns_view_word m dns 8 v 11) as (h & E1 & E2); [done|done|by (right; right; left)|done|].
  12: destruct (dns_view_word m dns 10 v 12) as (h & E1 & E2); [done|done|by (right; right; right; left)|done|].
  9-12: eexists _, h; split; [done|]; split; [exact E1|]; split; [exact E2|]; intros q Hq; apply Hout16; lia.
  all: eexists _, _; split; [done|]; cbn [field_read field_index].
  all: split; [by apply dns_view_ok|]; split; [|intros q Hq; apply Hout8; lia].
  - rewrite dns_view_flags2, (flags2_with_bit 0) by (done || (apply Hb; lia) || by left). done.
  - rewrite dns_view_flags2, flags2_with_opcode by (done || (apply Hb; lia)). done.
  - rewrite dns_view_flags2, (flags2_with_bit 2) by (done || (apply Hb; lia) || by (right; left)). done.
  - rewrite dns_view_flags2, (flags2_with_bit 3) by (done || (apply Hb; lia) || by (right; right; left)). done.
  - rewrite dns_view_flags2, (flags2_with_bit 4) by (done || (apply Hb; lia) || by (right; right; right; left)). done.
  - rewrite dns_view_flags3, flags3_with_bit by (done || (apply Hb; lia)). done.
  - rewrite dns_view_flags3, (flags3_no_z _ v) by (done || (apply Hb; lia)). done.
  - rewrite dns_view_flags3, flags3_with_rcode by (done || (apply Hb; lia)). done.
Qed.

Lemma dns_setter_refines_witness :
  exists m' h, dns_set (H := little_endian_host) D_opcode (mem_of 0 [1; 2; 255; 4; 5; 6; 7; 8; 9; 10; 11; 12]) 0 2 = Ret m' /\
    dns_view (H := little_endian_host) m' 0 = Ret (<[2%nat := 2]> h).
Proof.
  destruct (dns_setter_refines (H := little_endian_host) D_opcode (mem_of 0 [1; 2; 255; 4; 5; 6; 7; 8; 9; 10; 11; 12]) 0 2)
    as (m' & h & E1 & _ & E2 & _).
  - apply bytes_okb_ok. reflexivity.
  - apply validb_valid. reflexivity.
  - simpl. lia.
  - exists m', h. split; [exact E1|exact E2].
Defined.
