(* ===== verification/DnsResolve.v ===== *)
(** Following CNAME records: [recursive_resolve] against a specification on
    the list of answers. *)
From S2P Require Import Prelude Bytes Packet CString Dns DnsNames DnsPut.

(** ** Answers *)

(** A CNAME record: the owner, the class and the name it stands for. *)
Record cname := Cname { c_owner : list (list Z); c_class : Z; c_target : list (list Z) }.
(** The last answer, of another type. *)
Record final := Final { f_owner : list (list Z); f_type : Z; f_class : Z; f_data : list Z }.

(** What the answers say about the name [q], written with a dot after each
    label: the first CNAME record of the name leads on, at most [n] times, and
    the last answer is the end. *)
Fixpoint follow (n : nat) (cs : list cname) (f : final) (qclass : Z) (q : list Z) : option (Z * list Z) :=
  match n with
  | O => None
  | S n =>
      match list_find (fun c => name_dots (c_owner c) = q) cs with
      | Some (_, c) => if c_class c =? qclass then follow n cs f qclass (name_dots (c_target c)) else None
      | None =>
          if decide (name_dots (f_owner f) = q) then
            if f_class f =? qclass then Some (f_type f, f_data f) else None
          else None
      end
  end.

(** ** Buffers *)

(** Dropping the last dot of the string in a buffer. *)
Lemma drop_dot b bufsiz ls :
  buffer bufsiz b (name_dots ls) -> ls <> [] ->
  exists b', strlen b 0 = Ret (name_size ls - 1) /\ store8 b (name_size ls - 1 - 1) 0 = Ret b' /\
    (forall q n, valid b q n -> valid b' q n) /\ cstring b' 0 (name_str ls).
Proof.
  intros (Hbv & Hbs & Hlen) Hne. rewrite (strlen_ok _ _ _ Hbs). unfold name_size. pose proof (name_str_dots ls Hne) as Hd.
  rewrite <- Hd in *. rewrite length_app in *. simpl length in *.
  replace (Z.of_nat (length (name_str ls) + 1) + 1 - 1) with (Z.of_nat (length (name_str ls) + 1)) by lia.
  replace (Z.of_nat (length (name_str ls) + 1) - 1) with (Z.of_nat (length (name_str ls))) by lia.
  rewrite store8_ok by (eapply valid_sub; [exact Hbv|lia|lia]). eexists. split; [done|]. split; [done|].
  split; [intros q n Hq; by apply valid_wr8|]. apply cstring_app in Hbs as (Hs1 & Hs2 & _). split; [done|]. apply bytes_at_app. split.
  - eapply bytes_at_agree; [|exact Hs2]. intros q Hq. unfold wr8. rewrite lookup_insert_ne by lia. done.
  - apply bytes_at_cons. split; [|apply nil_bytes_at]. unfold wr8. by rewrite lookup_insert_eq.
Qed.

Lemma iter_same {S R} (b1 b2 : S -> outcome (S + R)) n s : (forall s, b1 s = b2 s) -> iter n b1 s = iter n b2 s.
Proof.
  intros E. revert s. induction n as [|n IH]; intros s; simpl; [done|]. rewrite E.
  destruct (b2 s) as [[s'|r]| | |]; simpl; auto.
Qed.
Lemma snprintf_dot_ok dst src p s :
  valid dst 0 8192 -> Forall (fun c => 0 <= c < 256) s -> cstring src p s -> Z.of_nat (length s) <= 8190 ->
  exists dst', snprintf_dot dst 8192 src p = Ret dst' /\ valid dst' 0 8192 /\ cstring dst' 0 (s ++ [46]).
Proof.
  intros Hd Hsrc Hs Hlen. unfold snprintf_dot. rewrite (strlen_ok _ _ _ Hs). cbn [mbind outcome_bind].
  destruct Hs as [Hnz Hb]. apply bytes_at_app in Hb as [Hb _]. rewrite Nat2Z.id, (loadn_bytes_at _ _ _ Hb). cbn [mbind outcome_bind].
  rewrite take_ge by (rewrite length_app; simpl; lia).
  destruct (store_bytes dst 0 ((s ++ [46]) ++ [0])) as (d' & -> & Hd1 & _ & Hd2).
  - eapply valid_sub; [exact Hd|lia|rewrite !length_app; simpl; lia].
  - rewrite !list.Forall_app. repeat split; [done|repeat constructor; lia..].
  - exists d'. split; [done|]. split; [by apply Hd2|]. split; [|done]. rewrite list.Forall_app. split; [done|]. by repeat constructor.
Qed.

(** The answer of the function for what the specification says. *)
Definition resolved (r : option (Z * list Z)) (out : Z * option (Z * Z) * mem) : Prop :=
  match r with
  | Some (t, d) => exists dat, out = (0, Some (t, Z.of_nat (length d)), dat) /\ bytes_at dat 0 d
  | None => exists dat, out = (- ENOENT, None, dat)
  end.

Section resolve.
Context `{Host} (m : mem) (pkt plen : Z) (fuel : nat).
Context (Hm : bytes_ok m) (Hv : valid m pkt plen) (Hplen : 0 <= plen <= 65535) (Hfuel : 8192 <= Z.of_nat fuel).

(** The names fit the arrays of 8192 bytes. *)
Definition fits (ls : list (list Z)) : Prop := name_size ls <= 8191.

(** The records in the message. *)
Inductive answers_at : Z -> list cname -> final -> Prop :=
  | answers_final o f e :
      name_at m pkt plen o (f_owner f) e -> fits (f_owner f) -> e + 10 + Z.of_nat (length (f_data f)) <= plen ->
      be16 m (pkt + e) = f_type f -> be16 m (pkt + (e + 2)) = f_class f -> f_type f <> 5 ->
      be16 m (pkt + (e + 8)) = Z.of_nat (length (f_data f)) -> bytes_at m (pkt + (e + 10)) (f_data f) ->
      answers_at o [] f
  | answers_cname o c e e2 cs f :
      name_at m pkt plen o (c_owner c) e -> fits (c_owner c) -> e + 10 < plen ->
      be16 m (pkt + e) = 5 -> be16 m (pkt + (e + 2)) = c_class c -> be16 m (pkt + (e + 8)) <> 0 ->
      name_at m pkt plen (e + 10) (c_target c) e2 -> fits (c_target c) -> c_target c <> [] -> e2 < plen ->
      answers_at e2 cs f -> answers_at o (c :: cs) f.

Lemma name_chars o ls e : name_at m pkt plen o ls e -> Forall (fun c => 0 <= c < 256) (name_str ls).
Proof.
  induction 1 as [o Ho Hz|o l ls e Ho (_ & Hl & _) Hlt _ IH|o a b t l ls e Ho Hlt Hb Ha Hb' Ht (_ & Hl & _) Hlt' _ IH]; [constructor|..].
  all: assert (Forall (fun c => 0 <= c < 256) l) by (eapply list.Forall_impl; [exact Hl|simpl; lia]).
  all: destruct ls; [done|]; rewrite name_str_cons by done; rewrite list.Forall_app, list.Forall_cons; repeat split; done || lia.
Qed.
Lemma labels_bound o ls e : name_at m pkt plen o ls e -> fits ls -> (length ls < fuel)%nat.
Proof using Hfuel.
  intros Hn Hf. unfold fits, name_size in Hf. assert (length ls <= length (name_dots ls))%nat; [|lia].
  clear. induction ls as [|l ls IH]; [done|]. rewrite name_dots_cons, !length_app. simpl. lia.
Qed.

Lemma cname_step_is dns remcnt bufsiz datrem st :
  datrem <> 0 -> dns_cname_step m dns plen remcnt bufsiz datrem st = dns_label_step m dns plen remcnt bufsiz st.
Proof.
  intros Hd. unfold dns_cname_step. destruct st as [off laboff jmp buf]. simpl l_off.
  destruct (negb ((off <? plen) && negb (remcnt =? 0))) eqn:E; [unfold dns_label_step; by rewrite E|].
  by destruct (Z.eqb_spec datrem 0).
Qed.

(** The buffers that go from call to call. *)
Definition buffers (datbufsiz : Z) (a : answer) : Prop := valid (q_buf a) 0 8192 /\ valid (q_dat a) 0 datbufsiz.

Lemma an_ask_cname o c e e2 datbufsiz a :
  name_at m pkt plen o (c_owner c) e -> fits (c_owner c) -> e + 10 < plen ->
  be16 m (pkt + e) = 5 -> be16 m (pkt + (e + 8)) <> 0 ->
  name_at m pkt plen (e + 10) (c_target c) e2 -> fits (c_target c) -> c_target c <> [] -> e2 < plen ->
  q_off a = o -> 0 < q_remcnt a < 65536 -> 8192 <= datbufsiz -> buffers datbufsiz a ->
  exists a', dns_next_an_ask fuel m pkt plen 8192 datbufsiz a = Ret (0, a') /\ buffers datbufsiz a' /\
    q_off a' = e2 /\ q_remcnt a' = q_remcnt a - 1 /\ q_type a' = 5 /\ q_class a' = be16 m (pkt + (e + 2)) /\
    cstring (q_buf a') 0 (name_dots (c_owner c)) /\ cstring (q_dat a') 0 (name_str (c_target c)).
Proof using All.
  intros Hn Hf He Ht Hrd Hn2 Hf2 Hne He2 Ha Hrem Hdat [Hb1 Hb2].
  pose proof (name_at_ends _ _ _ _ _ _ Hn) as Hends. pose proof (name_at_ends _ _ _ _ _ _ Hn2) as Hends2.
  destruct (read_back m pkt plen e o (c_owner c) fuel (q_buf a) 8192 (q_remcnt a))
    as (buf0 & laboff & jmp & buf & E0 & El & Hb & _); try done; try lia; [by eapply labels_bound|unfold fits in Hf; lia|].
  destruct (read_back m pkt plen e2 (e + 10) (c_target c) fuel (q_dat a) 8192 (q_remcnt a))
    as (dat0 & laboff2 & jmp2 & dat' & E02 & El2 & Hd & Hdo); try done; try lia; [by eapply labels_bound| |unfold fits in Hf2; lia|].
  { eapply valid_sub; [exact Hb2|lia|lia]. }
  destruct (drop_dot dat' 8192 (c_target c) Hd Hne) as (dat2 & Es1 & Es2 & Hdv & Hds).
  unfold dns_next_an_ask. rewrite E0. cbn [mbind outcome_bind].
  rewrite E02. cbn [mbind outcome_bind set_name set_dat q_remcnt q_off].
  destruct (Z.eqb_spec (q_remcnt a) 0); [lia|]. rewrite Ha, El.
  cbn [mbind outcome_bind l_off l_buf negb set_name set_dat q_remcnt q_ttl q_dat q_datlen q_buf].
  destruct (Z.gtb_spec (e + 10) plen); [lia|].
  rewrite !hdr_get16n_ok by (done || (eapply valid_sub; [exact Hv|lia|lia])). cbn [mbind outcome_bind].
  rewrite !hdr_get32n_ok by (done || (eapply valid_sub; [exact Hv|lia|lia])). cbn [mbind outcome_bind].
  rewrite Ht, (u16_small (e + 10)) by lia. change (5 =? 5) with true. cbn [negb].
  rewrite (iter_same _ (dns_label_step m pkt plen (q_remcnt a) 8192)) by (intros s; by apply cname_step_is). rewrite El2. cbn [mbind outcome_bind negb l_off l_buf].
  rewrite Es1. cbn [mbind outcome_bind]. rewrite Es2. cbn [mbind outcome_bind]. eexists. split; [done|].
  unfold decr_remcnt, set_dat. cbn [q_off q_remcnt q_buf q_type q_class q_dat].
  split; [split; [by destruct Hb|]|]; cbn [q_buf q_dat].
  { apply Hdv. intros i Hi. destruct (Z.lt_ge_cases i 8192); [destruct Hd as (Hd & _); apply Hd; lia|].
    rewrite Hdo by lia. by apply Hb2. }
  split; [done|]. split; [rewrite u16_small; lia|]. split; [done|]. split; [done|].
  split; [by destruct Hb as (_ & ? & _)|done].
Qed.

(** The inner loop: from the first of the answers that are left. *)
Section rounds.
Context (qclass datbufsiz : Z) (Hdat : 8192 <= datbufsiz).

(** How the loop ends for the name [q]. *)
Definition round_ends (f : final) (cs : list cname) (q : list Z) (r : resolve_exit) : Prop :=
  match list_find (fun c => name_dots (c_owner c) = q) cs with
  | Some (_, c) =>
      if c_class c =? qclass
      then exists a, r = RCname a /\ buffers datbufsiz a /\ cstring (q_dat a) 0 (name_str (c_target c)) /\ c_target c <> [] /\ fits (c_target c) /\
             Forall (fun c => 0 <= c < 256) (name_str (c_target c))
      else exists a, r = RNoEntry a
  | None =>
      if decide (name_dots (f_owner f) = q) then
        if f_class f =? qclass
        then exists a, r = RFound a /\ q_type a = f_type f /\ q_datlen a = Z.of_nat (length (f_data f)) /\ bytes_at (q_dat a) 0 (f_data f)
        else exists a, r = RNoEntry a
      else exists a, r = RNoEntry a
  end.

Lemma no_more_answers a nextbuf n :
  buffers datbufsiz a -> q_remcnt a = 0 -> (0 < n)%nat ->
  exists a', iter n (resolve_step fuel m pkt plen qclass datbufsiz nextbuf) a = Ret (RNoEntry a').
Proof using Hdat.
  intros [Hb1 Hb2] Hrem Hn. destruct n as [|n]; [lia|]. eexists. apply iter_inr. unfold resolve_step, dns_next_an_ask.
  cbn [set_dat q_buf q_dat]. rewrite (store8_ok (q_buf a)) by (eapply valid_sub; [exact Hb1|lia|lia]). cbn [mbind outcome_bind].
  rewrite (store8_ok (q_dat a)) by (eapply valid_sub; [exact Hb2|lia|lia]). cbn [mbind outcome_bind set_name set_dat q_remcnt q_off].
  rewrite Hrem. done.
Qed.

Lemma round_ok o cs f nextbuf q :
  answers_at o cs f -> Z.of_nat (length (f_data f)) + 2 <= datbufsiz -> cstring nextbuf 0 q ->
  forall a n, q_off a = o -> q_remcnt a = Z.of_nat (length cs) + 1 -> q_remcnt a < 65536 -> buffers datbufsiz a -> (length cs + 1 < n)%nat ->
  exists r, iter n (resolve_step fuel m pkt plen qclass datbufsiz nextbuf) a = Ret r /\ round_ends f cs q r.
Proof using All.
  intros Han Hdata Hq. induction Han as [o f e Hn Hfit Hle Ht Hc H5 Hlen Hb|o c e e2 cs f Hn Hfit Hlt Ht Hc Hrd Hn2 Hf2 Hne He2 Han IH];
    intros a [|n] Ha Hrem Hmax Hbuf Hfl; simpl in Hfl, Hrem; try lia.
  - destruct Hbuf as [Hb1 Hb2]. unfold fits in Hfit.
    destruct (an_ask_reads m pkt plen o (f_owner f) e 8192 datbufsiz (f_data f) fuel (set_dat (q_off a) (q_dat a) 0 a))
      as (buf & dat' & E & (Hbv & Hbs & _) & Hdv & Hdb & _); try done; try (cbn; lia); [by eapply labels_bound|].
    assert (resolve_step fuel m pkt plen qclass datbufsiz nextbuf a = Ret (if decide (name_dots (f_owner f) = q)
      then inr (if f_class f =? qclass then RFound (Answer (e + 10) (q_remcnt a - 1) buf (f_type f) (f_class f) (be32 m (pkt + (e + 4))) dat' (Z.of_nat (length (f_data f))))
                else RNoEntry (Answer (e + 10) (q_remcnt a - 1) buf (f_type f) (f_class f) (be32 m (pkt + (e + 4))) dat' (Z.of_nat (length (f_data f)))))
      else inl (Answer (e + 10) (q_remcnt a - 1) buf (f_type f) (f_class f) (be32 m (pkt + (e + 4))) dat' (Z.of_nat (length (f_data f)))))) as Es.
    { unfold resolve_step. rewrite E. cbn [mbind outcome_bind q_buf]. change (negb (0 =? 0)) with false. cbv iota.
      rewrite (strcmp_ok _ _ _ _ _ _ Hbs Hq). cbn [mbind outcome_bind]. rewrite Ht, Hc. cbn [set_dat q_remcnt q_class q_type].
      case_bool_decide as Hsame; destruct (decide _); try done. cbn [negb].
      destruct (f_class f =? qclass); [|done]. cbn [negb]. by destruct (Z.eqb_spec (f_type f) 5). }
    unfold round_ends. simpl list_find. cbv iota. destruct (decide (name_dots (f_owner f) = q)).
    + destruct (f_class f =? qclass); rewrite (iter_inr _ _ _ _ Es); (eexists; split; [done|]; eexists; by split).
    + rewrite (iter_inl _ _ _ _ Es). destruct (no_more_answers (Answer (e + 10) (q_remcnt a - 1) buf (f_type f) (f_class f)
        (be32 m (pkt + (e + 4))) dat' (Z.of_nat (length (f_data f)))) nextbuf n) as [a' E']; [by split|cbn; lia|lia|].
      eexists. split; [exact E'|]. by eexists.
  - destruct (an_ask_cname o c e e2 datbufsiz (set_dat (q_off a) (q_dat a) 0 a))
      as (a' & E & Hbuf2 & Hoff & Hrem' & Ht' & Hc' & Hs1 & Hs2); try done; try (cbn; lia).
    assert (resolve_step fuel m pkt plen qclass datbufsiz nextbuf a = Ret (if decide (name_dots (c_owner c) = q)
      then inr (if c_class c =? qclass then RCname a' else RNoEntry a') else inl a')) as Es.
    { unfold resolve_step. rewrite E. cbn [mbind outcome_bind]. change (negb (0 =? 0)) with false. cbv iota.
      rewrite (strcmp_ok _ _ _ _ _ _ Hs1 Hq). cbn [mbind outcome_bind]. rewrite Hc', Ht', Hc.
      case_bool_decide as Hsame; destruct (decide _); try done. cbn [negb]. by destruct (c_class c =? qclass). }
    unfold round_ends. simpl list_find. destruct (decide (name_dots (c_owner c) = q)).
    + destruct (c_class c =? qclass); rewrite (iter_inr _ _ _ _ Es); (eexists; split; [done|]); eexists; [|done].
      split; [done|]. split; [done|]. split; [done|]. split; [done|]. split; [done|]. by eapply name_chars.
    + rewrite (iter_inl _ _ _ _ Es). destruct (IH Hdata a' n) as (r & Er & Hr); try done; try lia.
      { rewrite Hrem'. cbn. lia. } { rewrite Hrem'. cbn. lia. }
      exists r. split; [done|]. unfold round_ends in Hr.
      destruct (list_find (fun c => name_dots (c_owner c) = q) cs) as [[i c']|]; exact Hr.
Qed.

(** One pass of the outer loop: it ends with the answer, or goes on with the
    target of the CNAME record. *)
Lemma one_round o cs f :
  answers_at o cs f -> Z.of_nat (length (f_data f)) + 2 <= datbufsiz -> 12 <= plen -> o <= plen ->
  u8 (be16 m (pkt + 6)) = Z.of_nat (length cs) + 1 -> forall i nextbuf a q,
  i < 100 -> valid nextbuf 0 8192 -> cstring nextbuf 0 q -> buffers datbufsiz a ->
  (exists out, resolve_round fuel m pkt plen qclass datbufsiz o (i, nextbuf, a) = Ret (inr out) /\
    forall k, resolved (follow (S k) cs f qclass q) out) \/
  (exists nb a' c, resolve_round fuel m pkt plen qclass datbufsiz o (i, nextbuf, a) = Ret (inl (i + 1, nb, a')) /\
    valid nb 0 8192 /\ cstring nb 0 (name_dots (c_target c)) /\ buffers datbufsiz a' /\
    forall k, follow (S k) cs f qclass q = follow k cs f qclass (name_dots (c_target c))).
Proof using All.
  intros Han Hdata H12 Ho Hcnt i nextbuf a q Hi Hnv Hns Hbuf.
  assert (Z.of_nat (length cs) < 256) as Hcs by (pose proof (u8_range (be16 m (pkt + 6))); lia). unfold resolve_round.
  destruct (Z.ltb_spec i 100); [|lia]. cbn [negb]. unfold dns_next_init_an_ask, dns_ancount.
  destruct (Z.ltb_spec plen o); [lia|]. rewrite hdr_get16n_ok by (done || (eapply valid_sub; [exact Hv|lia|lia])).
  cbn [mbind outcome_bind]. rewrite Hcnt.
  destruct (round_ok o cs f nextbuf q Han Hdata Hns
    (Answer o (Z.of_nat (length cs) + 1) (q_buf a) (q_type a) (q_class a) (q_ttl a) (q_dat a) (q_datlen a)) fuel) as (r & -> & Hr);
    [done|done|cbn; lia|done|lia|]. cbn [mbind outcome_bind follow]. unfold round_ends in Hr.
  destruct (list_find (fun c => name_dots (c_owner c) = q) cs) as [[j c]|].
  - destruct (c_class c =? qclass).
    + right. destruct Hr as (a' & -> & Hbuf' & Hds & Hne & Hfit & Hch).
      destruct (snprintf_dot_ok nextbuf (q_dat a') 0 (name_str (c_target c))) as (nb & -> & Hnv' & Hns'); try done.
      { unfold fits in Hfit. rewrite name_size_str in Hfit by done. lia. }
      cbn [mbind outcome_bind]. rewrite name_str_dots in Hns' by done. by exists nb, a', c.
    + left. destruct Hr as (a' & ->). eexists. split; [done|]. intros _. by eexists.
  - left. destruct (decide (name_dots (f_owner f) = q)); [destruct (f_class f =? qclass)|].
    + destruct Hr as (a' & -> & Ht & Hl & Hb). rewrite Ht, Hl. eexists. split; [done|]. intros _. by eexists.
    + destruct Hr as (a' & ->). eexists. split; [done|]. intros _. by eexists.
    + destruct Hr as (a' & ->). eexists. split; [done|]. intros _. by eexists.
Qed.

Lemma rounds_ok o cs f :
  answers_at o cs f -> Z.of_nat (length (f_data f)) + 2 <= datbufsiz -> 12 <= plen -> o <= plen ->
  u8 (be16 m (pkt + 6)) = Z.of_nat (length cs) + 1 -> forall k i nextbuf a q,
  i = 100 - Z.of_nat k -> valid nextbuf 0 8192 -> cstring nextbuf 0 q -> buffers datbufsiz a ->
  returns (iter (S k) (resolve_round fuel m pkt plen qclass datbufsiz o) (i, nextbuf, a)) (resolved (follow k cs f qclass q)).
Proof using All.
  intros Han Hdata H12 Ho Hcnt k. induction k as [|k IH]; intros i nextbuf a q Hi Hnv Hns Hbuf.
  - eexists. split; [|by eexists]. apply iter_inr. unfold resolve_round. by destruct (Z.ltb_spec i 100); [lia|].
  - destruct (one_round o cs f Han Hdata H12 Ho Hcnt i nextbuf a q) as [(out & E & Hout)|(nb & a' & c & E & Hnv' & Hns' & Hb' & Hf)];
      [lia|done|done|done|..].
    + eexists. split; [by apply iter_inr|]. apply Hout.
    + rewrite (iter_inl _ _ _ _ E), Hf. apply IH; [lia|done..].
Qed.
End rounds.
End resolve.

(** C20: [recursive_resolve] follows the answers.  Let a message have one question and answers that are CNAME
    records and, at the end, one record of another type, all names within the arrays of 8192 bytes.  Then the
    call returns, and its answer is that of [follow] on the list of answers for the name that was asked: 0 with
    the type and the data of the last record when at most a hundred CNAME steps of the right class lead there,
    and [-ENOENT] otherwise, in particular when the CNAME records form a cycle.  The caller's buffer has to have
    8192 bytes, because the code tests CNAME data against the size of its own array. *)
Theorem recursive_resolve_follows `{Host} fuel m pkt plen name qls e cs f qclass databufsiz nambuf nextbuf databuf
  (Hm : bytes_ok m) (Hv : valid m pkt plen) (Hplen : 12 <= plen <= 65535) (Hfuel : 8192 <= Z.of_nat fuel)
  (Hq : name_at m pkt plen 12 qls e) (Hqne : qls <> []) (Hqfit : fits qls) (Hqe : e + 4 <= plen)
  (Hqd : u8 (be16 m (pkt + 4)) = 1) (Hname : cstring name 0 (name_str qls))
  (Han : answers_at m pkt plen (e + 4) cs f) (Hcnt : u8 (be16 m (pkt + 6)) = Z.of_nat (length cs) + 1)
  (Hnam : valid nambuf 0 8192) (Hnext : valid nextbuf 0 8192) (Hdat : valid databuf 0 databufsiz) (Hsiz : 8192 <= databufsiz)
  (Hdata : Z.of_nat (length (f_data f)) + 2 <= databufsiz) :
  exists out, recursive_resolve fuel m pkt plen name 0 qclass databufsiz nambuf nextbuf databuf = Ret out /\
    resolved (follow 100 cs f qclass (name_str qls ++ [46])) out.
Proof.
  unfold recursive_resolve. rewrite u16_small by lia. unfold dns_next_init_qd. destruct (Z.ltb_spec plen 12); [lia|].
  unfold dns_qdcount. rewrite hdr_get16n_ok by (done || (eapply valid_sub; [exact Hv|lia|lia])). cbn [mbind outcome_bind].
  rewrite Hqd. unfold fits in Hqfit.
  destruct (dns_next_reads m pkt plen 12 qls e 8192 fuel (Answer 12 1 nambuf 0 0 0 databuf 0)) as (buf1 & E1 & Hb1 & Hs1 & _);
    try done; try (cbn; lia); [by eapply (labels_bound m pkt plen)|].
  cbn [q_remcnt q_ttl q_dat q_datlen] in E1. change (1 - 1) with 0 in E1. rewrite E1. cbn [mbind outcome_bind q_buf]. change (negb (0 =? 0)) with false. cbv iota.
  rewrite (strcmp_ok _ _ _ _ _ _ Hs1 Hname). cbn [mbind outcome_bind]. rewrite bool_decide_eq_true_2 by done. cbn [negb].
  destruct (snprintf_dot_ok nextbuf name 0 (name_str qls)) as (nb & -> & Hnv & Hns); try done;
    [by eapply name_chars|rewrite name_size_str in Hqfit by done; lia|]. cbn [mbind outcome_bind].
  unfold dns_next at 1. cbn [q_buf q_off q_remcnt set_name]. rewrite (store8_ok buf1) by (eapply valid_sub; [exact Hb1|lia|lia]).
  cbn [mbind outcome_bind]. change (0 =? 0) with true. cbv iota. cbn [mbind outcome_bind]. change (- ENOENT =? 0) with false. cbv iota.
  cbn [q_off set_name]. unfold dns_next_init_an_ask at 1, dns_ancount. destruct (Z.ltb_spec plen (e + 4)); [lia|].
  rewrite hdr_get16n_ok by (done || (eapply valid_sub; [exact Hv|lia|lia])). cbn [mbind outcome_bind].
  eapply (rounds_ok m pkt plen fuel Hm Hv ltac:(lia) Hfuel qclass databufsiz Hsiz (e + 4) cs f Han Hdata ltac:(lia) Hqe Hcnt 100 0);
    [done|done|done|]. split; cbn; [by apply valid_wr8|done].
Qed.

(** A message with the question a, an alias from a to b, and an address of b. *)
Definition alias_dns : mem :=
  mem_of 0 [0; 1; 0; 0; 0; 1; 0; 2; 0; 0; 0; 0; 1; 97; 0; 0; 1; 0; 1;
            192; 12; 0; 5; 0; 1; 0; 0; 0; 9; 0; 3; 1; 98; 0;
            192; 31; 0; 1; 0; 1; 0; 0; 0; 9; 0; 4; 10; 0; 0; 1].
Definition alias_answers : list cname := [Cname [[97]] 1 [[98]]].
Definition alias_final : final := Final [[98]] 1 1 [10; 0; 0; 1].

(** Bytes of a concrete message, by evaluation. *)
Ltac bytes_eval := let i := fresh in let b := fresh in let Hi := fresh in
  intros i b Hi; repeat (first [discriminate Hi|destruct i as [|i]; [vm_compute in Hi |- *; exact Hi|]]).
Ltac label_eval := split; [simpl; lia|split; [repeat constructor; lia|bytes_eval]].

Lemma alias_answers_at : answers_at alias_dns 0 50 19 alias_answers alias_final.
Proof.
  apply (answers_cname _ _ _ 19 (Cname [[97]] 1 [[98]]) 21 34).
  - eapply (na_pointer _ _ _ 19 192 12 12); try lia; [bytes_eval|label_eval|simpl; lia|]. apply na_root; [simpl; lia|reflexivity].
  - vm_compute. discriminate.
  - lia.
  - reflexivity.
  - reflexivity.
  - vm_compute. discriminate.
  - apply na_label; [lia|label_eval|simpl; lia|]. apply (na_root _ _ _ 33); [simpl; lia|reflexivity].
  - vm_compute. discriminate.
  - done.
  - lia.
  - apply (answers_final _ _ _ 34 alias_final 36).
    + eapply (na_pointer _ _ _ 34 192 31 31 [98]); try lia; [bytes_eval|label_eval|simpl; lia|]. apply na_root; [simpl; lia|reflexivity].
    + vm_compute. discriminate.
    + simpl. lia.
    + reflexivity.
    + reflexivity.
    + discriminate.
    + reflexivity.
    + bytes_eval.
Qed.

Lemma recursive_resolve_follows_witness :
  exists out, recursive_resolve (H := little_endian_host) (Z.to_nat 8192) alias_dns 0 50 (mem_of 0 [97; 0]) 0 1 8192
      (mem_fun 8192 (fun _ => 0)) (mem_fun 8192 (fun _ => 0)) (mem_fun 8192 (fun _ => 0)) = Ret out /\
    resolved (Some (1, [10; 0; 0; 1])) out.
Proof.
  apply (recursive_resolve_follows (H := little_endian_host) (Z.to_nat 8192) alias_dns 0 50 (mem_of 0 [97; 0]) [[97]] 15
    alias_answers alias_final 1 8192 (mem_fun 8192 (fun _ => 0)) (mem_fun 8192 (fun _ => 0)) (mem_fun 8192 (fun _ => 0))).
  - apply bytes_okb_ok. reflexivity.
  - apply validb_valid. reflexivity.
  - lia.
  - lia.
  - apply na_label; [lia|label_eval|simpl; lia|]. apply (na_root _ _ _ 14); [simpl; lia|reflexivity].
  - done.
  - vm_compute. discriminate.
  - lia.
  - reflexivity.
  - split; [repeat constructor; lia|bytes_eval].
  - exact alias_answers_at.
  - reflexivity.
  - apply mem_fun_valid.
  - apply mem_fun_valid.
  - apply mem_fun_valid.
  - lia.
  - simpl. lia.
Defined.
