(* ===== verification/Rfc815.v ===== *)
(** The hole list of RFC 815, kept in the bytes that are still missing:
    ipfrag/rfc815.h and ipfrag/rfc815.c.

    A hole is described in the first eight bytes of the buffer it covers: its
    first and last byte and the offsets of the next and the previous hole, four
    [uint16_t] in the byte order of the host; 65535 is the link of the list
    head.  The data of a fragment is copied over the descriptions. *)
From S2P Require Import Prelude Bytes IpHdr IpCksum Packet Reass.

Record hole815 := Hole815 { h_first : Z; h_last : Z; h_next : Z; h_prev : Z }.

Record rfc815ctx := Ctx815 {
  r_first_hole : Z; r_last_hole : Z; r_mrl : Z; r_hdr_len : Z; r_direction : Z; r_header : mem; r_pkt : mem
}.
Definition set_first_hole (v : Z) (c : rfc815ctx) : rfc815ctx :=
  Ctx815 v (r_last_hole c) (r_mrl c) (r_hdr_len c) (r_direction c) (r_header c) (r_pkt c).
Definition set_last_hole (v : Z) (c : rfc815ctx) : rfc815ctx :=
  Ctx815 (r_first_hole c) v (r_mrl c) (r_hdr_len c) (r_direction c) (r_header c) (r_pkt c).
Definition set_mrl (v : Z) (c : rfc815ctx) : rfc815ctx :=
  Ctx815 (r_first_hole c) (r_last_hole c) v (r_hdr_len c) (r_direction c) (r_header c) (r_pkt c).
Definition set_pkt (m : mem) (c : rfc815ctx) : rfc815ctx :=
  Ctx815 (r_first_hole c) (r_last_hole c) (r_mrl c) (r_hdr_len c) (r_direction c) (r_header c) m.
Definition set_header (l : Z) (m : mem) (c : rfc815ctx) : rfc815ctx :=
  Ctx815 (r_first_hole c) (r_last_hole c) (r_mrl c) l (r_direction c) m (r_pkt c).

Section rfc815.
Context `{Host}.

(** [memcpy] of a [struct rfc815hole] out of and into the buffer. *)
Definition load_hole (m : mem) (idx : Z) : outcome hole815 :=
  f ← hdr_get16h m idx; l ← hdr_get16h m (idx + 2); n ← hdr_get16h m (idx + 4); p ← hdr_get16h m (idx + 6);
  Ret (Hole815 f l n p).
Definition store_hole (m : mem) (idx : Z) (h : hole815) : outcome mem :=
  m ← hdr_set16h m idx (h_first h); m ← hdr_set16h m (idx + 2) (h_last h);
  m ← hdr_set16h m (idx + 4) (h_next h); hdr_set16h m (idx + 6) (h_prev h).

Definition rfc815ctx_complete (ctx : rfc815ctx) : outcome bool :=
  if (r_first_hole ctx =? 65535) && negb (r_last_hole ctx =? 65535) then Abort else
  if negb (r_first_hole ctx =? 65535) && (r_last_hole ctx =? 65535) then Abort else
  Ret (r_first_hole ctx =? 65535).

Definition rfc815ctx_init_fast (ctx : rfc815ctx) : outcome rfc815ctx :=
  m ← store_hole (r_pkt ctx) 0 (Hole815 0 65535 65535 65535);
  Ret (Ctx815 0 0 65535 0 (r_direction ctx) (r_header ctx) m).
Definition rfc815ctx_init (ctx : rfc815ctx) : outcome rfc815ctx :=
  m ← memset (r_pkt ctx) 0 0 65535;
  rfc815ctx_init_fast (set_pkt m ctx).

Definition holenonptr_set_prev (ctx : rfc815ctx) (idx prev : Z) : outcome rfc815ctx :=
  if idx =? 65535 then Ret (set_last_hole prev ctx) else
  h ← load_hole (r_pkt ctx) idx;
  m ← store_hole (r_pkt ctx) idx (Hole815 (h_first h) (h_last h) (h_next h) prev);
  Ret (set_pkt m ctx).
Definition holenonptr_set_next (ctx : rfc815ctx) (idx next : Z) : outcome rfc815ctx :=
  if idx =? 65535 then Ret (set_first_hole next ctx) else
  h ← load_hole (r_pkt ctx) idx;
  m ← store_hole (r_pkt ctx) idx (Hole815 (h_first h) (h_last h) next (h_prev h));
  Ret (set_pkt m ctx).

(** Unlinking: the two calls that take a hole out of the list. *)
Definition unlink_hole (ctx : rfc815ctx) (h : hole815) : outcome rfc815ctx :=
  ctx ← holenonptr_set_next ctx (h_prev h) (h_next h);
  holenonptr_set_prev ctx (h_next h) (h_prev h).

(** The loop that drops and cuts holes past [most_restricting_last]. *)
Definition restrict_step (s : rfc815ctx * Z) : outcome (rfc815ctx * Z + rfc815ctx) :=
  let '(ctx, i) := s in
  if i =? 65535 then Ret (inr ctx) else
  h ← load_hole (r_pkt ctx) i;
  if h_first h >? r_mrl ctx then
    ctx ← unlink_hole ctx h;
    Ret (inl (ctx, h_next h))
  else if h_last h >? r_mrl ctx then
    m ← store_hole (r_pkt ctx) i (Hole815 (h_first h) (r_mrl ctx) (h_next h) (h_prev h));
    Ret (inl (set_pkt m ctx, h_next h))
  else Ret (inl (ctx, h_next h)).

(** The loop that takes [data_first .. data_last] out of the holes; the flag is
    [mod]. *)
Definition cut_step (data_first data_last : Z) (s : rfc815ctx * Z * bool)
    : outcome (rfc815ctx * Z * bool + rfc815ctx * bool) :=
  let '(ctx, i, modified) := s in
  if i =? 65535 then Ret (inr (ctx, modified)) else
  h ← load_hole (r_pkt ctx) i;
  if data_last =? h_last h then
    if data_first <=? h_first h then
      ctx ← unlink_hole ctx h; Ret (inr (ctx, true))
    else
      m ← store_hole (r_pkt ctx) i (Hole815 (h_first h) (u16 (data_first - 1)) (h_next h) (h_prev h));
      Ret (inr (set_pkt m ctx, true))
  else if data_last <? h_last h then
    if data_first <=? h_first h then
      if data_last + 1 >? h_first h then
        let h' := Hole815 (u16 (data_last + 1)) (h_last h) (h_next h) (h_prev h) in
        ctx ← holenonptr_set_next ctx (h_prev h) (u16 (data_last + 1));
        ctx ← holenonptr_set_prev ctx (h_next h) (u16 (data_last + 1));
        m ← store_hole (r_pkt ctx) (data_last + 1) h';
        Ret (inr (set_pkt m ctx, true))
      else Ret (inr (ctx, modified))
    else
      ctx ← holenonptr_set_prev ctx (h_next h) (u16 (data_last + 1));
      m ← store_hole (r_pkt ctx) i (Hole815 (h_first h) (u16 (data_first - 1)) (u16 (data_last + 1)) (h_prev h));
      m ← store_hole m (data_last + 1) (Hole815 (u16 (data_last + 1)) (h_last h) (h_next h) i);
      Ret (inr (set_pkt m ctx, true))
  else
    if data_first <=? h_first h then
      ctx ← unlink_hole ctx h;
      Ret (inl (ctx, h_next h, true))
    else
      if h_last h >? data_first - 1 then
        m ← store_hole (r_pkt ctx) i (Hole815 (h_first h) (u16 (data_first - 1)) (h_next h) (h_prev h));
        Ret (inl (set_pkt m ctx, h_next h, true))
      else Ret (inl (ctx, h_next h, modified)).

(** The list has at most one hole for every eight bytes. *)
Definition holes_fuel : nat := Z.to_nat 8194.

Definition rfc815ctx_add (ctx : rfc815ctx) (pkt : packet) : outcome rfc815ctx :=
  let m := pkt_mem pkt in
  let ether := pkt_data pkt in
  let ip := ether_const_payload ether in
  if pkt_sz pkt <? 34 then Ret ctx else
  total_len ← ip_total_len m ip;
  hdr_len ← ip_hdr_len m ip;
  if total_len <=? hdr_len then Ret ctx else
  if total_len + 14 >? pkt_sz pkt then Ret ctx else
  ctx ← (if r_hdr_len ctx =? 0 then
           hm ← memcpy_from (r_header ctx) 0 m ether (14 + hdr_len);
           Ret (set_header (14 + hdr_len) hm ctx)
         else Ret ctx);
  data_first ← ip_frag_off m ip;
  if total_len - (hdr_len + 1) + data_first >? 65535 then Ret ctx else
  let data_last := u16 (total_len - (hdr_len + 1) + data_first) in
  more ← ip_more_frags m ip;
  r ← (if (more =? 0) && (r_mrl ctx >? data_last) then
         let ctx := set_mrl data_last ctx in
         ctx ← iter holes_fuel restrict_step (ctx, r_first_hole ctx);
         Ret (Some (ctx, data_last))
       else if data_last <? 7 then Ret None
       else Ret (Some (ctx, u16 ((data_last + 1) / 8 * 8 - 1))));
  match r with
  | None => Ret ctx
  | Some (ctx, data_last) =>
      r ← iter holes_fuel (cut_step data_first data_last) (ctx, r_first_hole ctx, false);
      let '(ctx, modified) := r in
      if (modified : bool) then
        payload ← ip_const_payload m ip;
        p ← memcpy_from (r_pkt ctx) data_first m payload (data_last - data_first + 1);
        Ret (set_pkt p ctx)
      else Ret ctx
  end.

Definition rfc815ctx_reassemble {A} `{Allocif A} (loc : A) (ctx : rfc815ctx) : outcome (A * option packet) :=
  let sz := r_hdr_len ctx + r_mrl ctx + 1 in
  let '(loc, blk) := allocif_alloc loc (packet_size sz) in
  match blk with
  | None => Ret (loc, None)
  | Some m2 =>
      let ether2 := packet_calc_data 0 in
      m2 ← memcpy_from m2 ether2 (r_header ctx) 0 (r_hdr_len ctx);
      let ip2 := ether_payload ether2 in
      m2 ← ip_set_frag_off m2 ip2 0;
      m2 ← ip_set_more_frags m2 ip2 0;
      m2 ← ip_set_total_len m2 ip2 (u16 (r_hdr_len ctx - 14 + r_mrl ctx + 1));
      m2 ← ip_set_hdr_cksum_calc m2 ip2 (r_hdr_len ctx - 14);
      let pay2 := ether2 + r_hdr_len ctx in
      m2 ← memcpy_from m2 pay2 (r_pkt ctx) 0 (r_mrl ctx + 1);
      Ret (loc, Some {| pkt_mem := m2; pkt_data := ether2; pkt_sz := sz; pkt_direction := r_direction ctx |})
  end.
End rfc815.
