(* ===== verification/Rfc815List.v ===== *)
(** The holes in the buffer as a doubly linked list: the steps of the two loops
    of [rfc815ctx_add] on the list of holes they keep. *)
From S2P Require Import Prelude Bytes IpHdr IpCksum Packet Reass Rfc815.

Section memory.
Context `{Host}.
Implicit Types (m : mem) (h : hole) (hs pre suf : list hole) (ctx : rfc815ctx).

(** ** Descriptions of holes *)

Lemma host16 v : 0 <= v < 65536 -> host_decode (host_encode 2 v) = v.
Proof.
  intros Hv. unfold host_decode, host_encode, be_decode. destruct host_big_endian; cbn; lia.
Qed.
Lemma set16h_ok m p v : valid m p 2 ->
  exists m', hdr_set16h m p v = Ret m' /\ (0 <= v < 65536 -> hdr_get16h m' p = Ret v) /\
    (forall q, q < p \/ p + 2 <= q -> m' !! q = m !! q) /\ (forall q n, valid m q n -> valid m' q n) /\ (bytes_ok m -> bytes_ok m').
Proof.
  intros Hv. unfold hdr_set16h. pose proof (encode_length _ 2 v) as Hl.
  destruct (store_bytes m p (host_encode 2 v)) as (m' & E & Hb & Ho & Hv'); [by rewrite Hl|apply encode_byte_list|].
  rewrite Hl in Ho. exists m'. split; [done|]. split; [|split; [exact Ho|split; [exact Hv'|]]].
  - intros Hr. unfold hdr_get16h. rewrite <- Hl, (loadn_bytes_at _ _ _ Hb). cbn [mbind outcome_bind]. by rewrite host16.
  - intros Hm q b Hq. destruct (decide (p <= q < p + 2)) as [Hin|Hout]; [|rewrite Ho in Hq by lia; by eapply Hm].
    pose proof (encode_byte_list _ 2 v) as Hbytes. rewrite Forall_lookup in Hbytes.
    destruct (lookup_lt_is_Some_2 (host_encode 2 v) (Z.to_nat (q - p))) as [c Hc]; [lia|].
    pose proof (Hb _ _ Hc) as E'. replace (p + Z.of_nat (Z.to_nat (q - p))) with q in E' by lia.
    replace b with c by congruence. by eapply Hbytes.
Qed.
Lemma get16h_agree m m' p : (forall q, p <= q < p + 2 -> m' !! q = m !! q) -> hdr_get16h m' p = hdr_get16h m p.
Proof.
  intros E. unfold hdr_get16h. cbn [loadn]. unfold load8. rewrite !E by lia. done.
Qed.

Definition fields_ok (x : hole815) : Prop :=
  0 <= h_first x < 65536 /\ 0 <= h_last x < 65536 /\ 0 <= h_next x < 65536 /\ 0 <= h_prev x < 65536.

Lemma store_hole_ok m i x : valid m i 8 -> fields_ok x ->
  exists m', store_hole m i x = Ret m' /\ load_hole m' i = Ret x /\
    (forall q, q < i \/ i + 8 <= q -> m' !! q = m !! q) /\ (forall q n, valid m q n -> valid m' q n) /\ (bytes_ok m -> bytes_ok m').
Proof.
  intros Hv (H1 & H2 & H3 & H4). unfold store_hole.
  destruct (set16h_ok m i (h_first x)) as (m1 & -> & G1 & O1 & V1 & B1); [eapply valid_sub; [exact Hv|lia|lia]|]. cbn [mbind outcome_bind].
  destruct (set16h_ok m1 (i + 2) (h_last x)) as (m2 & -> & G2 & O2 & V2 & B2); [apply V1; eapply valid_sub; [exact Hv|lia|lia]|]. cbn [mbind outcome_bind].
  destruct (set16h_ok m2 (i + 4) (h_next x)) as (m3 & -> & G3 & O3 & V3 & B3); [apply V2, V1; eapply valid_sub; [exact Hv|lia|lia]|]. cbn [mbind outcome_bind].
  destruct (set16h_ok m3 (i + 6) (h_prev x)) as (m4 & -> & G4 & O4 & V4 & B4); [apply V3, V2, V1; eapply valid_sub; [exact Hv|lia|lia]|].
  exists m4. split; [done|]. split; [|split; [|split; auto]].
  - unfold load_hole. rewrite (get16h_agree m1 m4 i), G1 by (done || (intros q Hq; rewrite O4, O3, O2 by lia; done)). cbn [mbind outcome_bind].
    rewrite (get16h_agree m2 m4 (i + 2)), G2 by (done || (intros q Hq; rewrite O4, O3 by lia; done)). cbn [mbind outcome_bind].
    rewrite (get16h_agree m3 m4 (i + 4)), G3 by (done || (intros q Hq; rewrite O4 by lia; done)). cbn [mbind outcome_bind].
    rewrite G4 by done. by destruct x.
  - intros q Hq. rewrite O4, O3, O2, O1 by lia. done.
Qed.
Lemma load_hole_agree m m' i : (forall q, i <= q < i + 8 -> m' !! q = m !! q) -> load_hole m' i = load_hole m i.
Proof. intros E. unfold load_hole. rewrite !(get16h_agree m m') by (intros q Hq; apply E; lia). done. Qed.

(** ** The linked list *)

Definition hd (n : Z) hs : Z := match hs with [] => n | h :: _ => hole_first h end.
Fixpoint lst (p : Z) hs : Z := match hs with [] => p | h :: hs => lst (hole_first h) hs end.
Fixpoint seg m (p : Z) hs (n : Z) : Prop :=
  match hs with
  | [] => True
  | h :: t => load_hole m (hole_first h) = Ret (Hole815 (hole_first h) (hole_last h) (hd n t) p) /\ seg m (hole_first h) t n
  end.

(** The holes are at multiples of eight, in order, and their descriptions are
    in the buffer. *)
Fixpoint placed (lo : Z) hs : Prop :=
  match hs with
  | [] => True
  | h :: t => lo <= hole_first h <= 65520 /\ hole_first h mod 8 = 0 /\ hole_first h <= hole_last h <= 65535 /\ placed (hole_first h + 8) t
  end.
(** [q] is in the description of a hole. *)
Definition in_desc hs (q : Z) : Prop := exists h, h ∈ hs /\ hole_first h <= q < hole_first h + 8.

Lemma in_desc_cons h hs q : in_desc (h :: hs) q <-> hole_first h <= q < hole_first h + 8 \/ in_desc hs q.
Proof. unfold in_desc. setoid_rewrite elem_of_cons. naive_solver. Qed.
Lemma in_desc_nil q : ~ in_desc [] q.
Proof. intros (h & Hh & _). by apply elem_of_nil in Hh. Qed.
Lemma in_desc_app hs hs' q : in_desc (hs ++ hs') q <-> in_desc hs q \/ in_desc hs' q.
Proof. unfold in_desc. setoid_rewrite elem_of_app. naive_solver. Qed.

Lemma lst_app p hs hs' : lst p (hs ++ hs') = lst (lst p hs) hs'.
Proof. revert p. induction hs; simpl; auto. Qed.
Lemma hd_app n hs hs' : hd n (hs ++ hs') = hd (hd n hs') hs.
Proof. by destruct hs. Qed.
Lemma hseg_app m p hs hs' n : seg m p (hs ++ hs') n <-> seg m p hs (hd n hs') /\ seg m (lst p hs) hs' n.
Proof.
  revert p. induction hs as [|h hs IH]; intros p; simpl; [tauto|]. rewrite IH, hd_app. tauto.
Qed.
Lemma placed_app lo hs hs' :
  placed lo (hs ++ hs') <-> placed lo hs /\ placed lo hs' /\ (forall h h', h ∈ hs -> h' ∈ hs' -> hole_first h + 8 <= hole_first h').
Proof.
  revert lo. induction hs as [|h hs IH]; intros lo; simpl.
  - split; [intros Hp; split; [done|split; [done|]]; by intros ? ? ?%elem_of_nil|tauto].
  - rewrite IH. split.
    + intros (H1 & H2 & H3 & H4 & H5 & H6). split; [done|]. split.
      * assert (forall lo lo' hs, lo' <= lo -> placed lo hs -> placed lo' hs) as Hw by (clear; intros ? ? [|? ?]; simpl; intuition lia).
        eapply Hw; [|exact H5]. lia.
      * intros k k' [->|Hk]%elem_of_cons Hk'; [|by apply H6].
        clear - H5 Hk'. revert H5. generalize (hole_first h + 8). induction hs' as [|g hs' IH]; intros lo; [by apply elem_of_nil in Hk'|].
        simpl. intros (? & ? & ? & Hp). apply elem_of_cons in Hk' as [->|Hk']; [lia|]. specialize (IH Hk' _ Hp). lia.
    + intros ((H1 & H2 & H3 & H4) & H5 & H6). split; [done|]. split; [done|]. split; [done|]. split; [done|]. split.
      * destruct hs' as [|g hs']; [done|]. simpl in *. assert (hole_first h + 8 <= hole_first g) by (apply H6; by left). intuition lia.
      * intros k k' Hk Hk'. apply H6; [by right|done].
Qed.
Lemma placed_in lo hs h : placed lo hs -> h ∈ hs -> lo <= hole_first h <= 65520 /\ hole_first h mod 8 = 0 /\ hole_first h <= hole_last h <= 65535.
Proof.
  revert lo. induction hs as [|g hs IH]; intros lo Hp Hh; [by apply elem_of_nil in Hh|]. destruct Hp as (H1 & H2 & H3 & Hp).
  apply elem_of_cons in Hh as [->|Hh]; [done|]. specialize (IH _ Hp Hh). lia.
Qed.
Lemma placed_length lo hs : 0 <= lo -> placed lo hs -> 8 * Z.of_nat (length hs) + lo <= 65528 \/ hs = [].
Proof.
  revert lo. induction hs as [|h hs IH]; intros lo Hlo Hp; [by right|]. left. destruct Hp as (H1 & _ & _ & Hp).
  destruct (IH (hole_first h + 8)) as [Hl| ->]; [lia|done|simpl length; lia|simpl length; lia].
Qed.

(** Only the descriptions matter. *)
Lemma seg_agree m m' p hs n : (forall q, in_desc hs q -> m' !! q = m !! q) -> seg m p hs n -> seg m' p hs n.
Proof.
  revert p. induction hs as [|h hs IH]; intros p E; simpl; [done|]. intros [Hl Hs]. split.
  - rewrite (load_hole_agree m); [done|]. intros q Hq. apply E, in_desc_cons. by left.
  - apply IH; [|done]. intros q Hq. apply E, in_desc_cons. by right.
Qed.

(** The list of a context, and what an operation leaves alone. *)
Definition list_ok ctx hs : Prop :=
  seg (r_pkt ctx) 65535 hs 65535 /\ r_first_hole ctx = hd 65535 hs /\ r_last_hole ctx = lst 65535 hs.
Definition buf_ok ctx : Prop := valid (r_pkt ctx) 0 65535 /\ bytes_ok (r_pkt ctx).
Definition kept (dirty : Z -> Prop) ctx ctx' : Prop :=
  r_mrl ctx' = r_mrl ctx /\ r_hdr_len ctx' = r_hdr_len ctx /\ r_direction ctx' = r_direction ctx /\ r_header ctx' = r_header ctx /\
  (forall q, ~ dirty q -> r_pkt ctx' !! q = r_pkt ctx !! q) /\ (buf_ok ctx -> buf_ok ctx').

Lemma kept_refl D ctx : kept D ctx ctx.
Proof. by do 5 (split; [done|]). Qed.
Lemma kept_trans (D1 D2 D : Z -> Prop) c1 c2 c3 :
  kept D1 c1 c2 -> kept D2 c2 c3 -> (forall q, D1 q -> D q) -> (forall q, D2 q -> D q) -> kept D c1 c3.
Proof.
  intros (A1 & A2 & A3 & A4 & A5 & A6) (B1 & B2 & B3 & B4 & B5 & B6) H1 H2.
  repeat (split; [congruence|]). split; [|tauto]. intros q Hq. rewrite B5, A5; auto.
Qed.
Lemma kept_store ctx m' i :
  (forall q, q < i \/ i + 8 <= q -> m' !! q = r_pkt ctx !! q) -> (forall q n, valid (r_pkt ctx) q n -> valid m' q n) ->
  (bytes_ok (r_pkt ctx) -> bytes_ok m') -> kept (fun q => i <= q < i + 8) ctx (set_pkt m' ctx).
Proof.
  intros Ho Hv Hb. repeat (split; [done|]). split; [intros q Hq; apply Ho; lia|]. intros [? ?]. split; simpl; auto.
Qed.

(** ** The operations on the list *)

Lemma hole_valid ctx i : buf_ok ctx -> 0 <= i <= 65527 -> valid (r_pkt ctx) i 8.
Proof. intros [Hv _] Hi. eapply valid_sub; [exact Hv|lia|lia]. Qed.

Lemma lst_range hs lo : 0 <= lo -> placed lo hs -> 0 <= lst 65535 hs < 65536.
Proof.
  intros Hlo Hp. destruct hs as [|h hs] using rev_ind; [simpl; lia|]. rewrite lst_app. simpl.
  pose proof (placed_in lo _ h Hp) as Hin. destruct Hin; [apply elem_of_app; right; by left|lia].
Qed.
Lemma hd_range hs lo : 0 <= lo -> placed lo hs -> 0 <= hd 65535 hs < 65536.
Proof. intros Hlo. destruct hs; simpl; [lia|]. intros (? & _). lia. Qed.

(** [holenonptr_set_next] on the hole before a position, or on the head. *)
Lemma hole_set_next_ok ctx pre n v :
  buf_ok ctx -> seg (r_pkt ctx) 65535 pre n -> r_first_hole ctx = hd n pre -> placed 0 pre -> 0 <= v < 65536 ->
  exists ctx', holenonptr_set_next ctx (lst 65535 pre) v = Ret ctx' /\ seg (r_pkt ctx') 65535 pre v /\
    r_first_hole ctx' = hd v pre /\ r_last_hole ctx' = r_last_hole ctx /\ kept (in_desc pre) ctx ctx'.
Proof.
  intros Hb Hs Hf Hp Hv. destruct pre as [|h pre _] using rev_ind.
  - exists (set_first_hole v ctx). do 4 (split; [done|]). by do 5 (split; [done|]).
  - rewrite lst_app. simpl. pose proof Hp as (Hp1 & Hp2 & Hsep)%placed_app. destruct Hp2 as (H1 & H2 & H3 & _).
    apply hseg_app in Hs as [Hs1 [Hl _]]. simpl in Hl. unfold holenonptr_set_next.
    destruct (Z.eqb_spec (hole_first h) 65535); [lia|]. rewrite Hl. cbn [mbind outcome_bind h_first h_last h_next h_prev].
    pose proof (lst_range pre 0 ltac:(lia) Hp1).
    destruct (store_hole_ok (r_pkt ctx) (hole_first h) (Hole815 (hole_first h) (hole_last h) v (lst 65535 pre)))
      as (m' & -> & Hl' & Ho & Hv' & Hb'); [apply hole_valid; [done|lia]|unfold fields_ok; simpl; lia|].
    cbn [mbind outcome_bind]. exists (set_pkt m' ctx). split; [done|]. split; [|split; [|split; [done|]]].
    + apply hseg_app. split; [|by split]. eapply seg_agree; [|exact Hs1]. intros q (k & Hk & Hq). apply Ho.
      specialize (Hsep k h Hk ltac:(by left)). lia.
    + simpl. rewrite Hf, !hd_app. done.
    + eapply kept_trans; [by apply kept_store|apply kept_refl| |done]. intros q Hq. apply in_desc_app. right.
      apply in_desc_cons. left. exact Hq.
Qed.

(** [holenonptr_set_prev] on the hole after a position, or on the head. *)
Lemma hole_set_prev_ok ctx lo p suf v :
  buf_ok ctx -> seg (r_pkt ctx) p suf 65535 -> r_last_hole ctx = lst p suf -> 0 <= lo -> placed lo suf -> 0 <= v < 65536 ->
  exists ctx', holenonptr_set_prev ctx (hd 65535 suf) v = Ret ctx' /\ seg (r_pkt ctx') v suf 65535 /\
    r_last_hole ctx' = lst v suf /\ r_first_hole ctx' = r_first_hole ctx /\ kept (in_desc suf) ctx ctx'.
Proof.
  intros Hb Hs Hlast Hlo Hp Hv. destruct suf as [|h suf].
  - exists (set_last_hole v ctx). do 4 (split; [done|]). by do 5 (split; [done|]).
  - destruct Hp as (H1 & H2 & H3 & Hp). destruct Hs as [Hl Hs]. unfold holenonptr_set_prev. simpl hd.
    destruct (Z.eqb_spec (hole_first h) 65535); [lia|]. rewrite Hl. cbn [mbind outcome_bind h_first h_last h_next h_prev].
    pose proof (hd_range suf (hole_first h + 8) ltac:(lia) Hp).
    destruct (store_hole_ok (r_pkt ctx) (hole_first h) (Hole815 (hole_first h) (hole_last h) (hd 65535 suf) v))
      as (m' & -> & Hl' & Ho & Hv' & Hb'); [apply hole_valid; [done|lia]|unfold fields_ok; simpl; lia|].
    cbn [mbind outcome_bind]. exists (set_pkt m' ctx). split; [done|]. split; [|split; [done|split; [done|]]].
    + split; [done|]. eapply seg_agree; [|exact Hs]. intros q (k & Hk & Hq). apply Ho. pose proof (placed_in _ _ _ Hp Hk). lia.
    + eapply kept_trans; [by apply kept_store|apply kept_refl| |done]. intros q Hq. apply in_desc_cons. by left.
Qed.

(** The description of a hole in the list. *)
Lemma list_load ctx pre h suf :
  list_ok ctx (pre ++ h :: suf) ->
  load_hole (r_pkt ctx) (hole_first h) = Ret (Hole815 (hole_first h) (hole_last h) (hd 65535 suf) (lst 65535 pre)).
Proof. intros (Hs & _). apply hseg_app in Hs as [_ [Hl _]]. done. Qed.

(** The two sides of a position keep out of each other's way. *)
Lemma sides ctx ctx' lo pre suf p :
  placed lo (pre ++ suf) -> kept (in_desc pre) ctx ctx' -> seg (r_pkt ctx) p suf 65535 -> seg (r_pkt ctx') p suf 65535.
Proof.
  intros (_ & _ & Hsep)%placed_app (_ & _ & _ & _ & Ho & _) Hs. eapply seg_agree; [|exact Hs].
  intros q (k & Hk & Hq). apply Ho. intros (g & Hg & Hq'). specialize (Hsep g k Hg Hk). lia.
Qed.
Lemma sides_back ctx ctx' lo pre suf p n :
  placed lo (pre ++ suf) -> kept (in_desc suf) ctx ctx' -> seg (r_pkt ctx) p pre n -> seg (r_pkt ctx') p pre n.
Proof.
  intros (_ & _ & Hsep)%placed_app (_ & _ & _ & _ & Ho & _) Hs. eapply seg_agree; [|exact Hs].
  intros q (k & Hk & Hq). apply Ho. intros (g & Hg & Hq'). specialize (Hsep k g Hk Hg). lia.
Qed.
Lemma kept_buf D ctx ctx' : kept D ctx ctx' -> buf_ok ctx -> buf_ok ctx'.
Proof. by intros (_ & _ & _ & _ & _ & ?). Qed.

(** Relinking both sides of a hole to the offset [v], or to each other. *)
Lemma relink_ok ctx lo pre h suf vn vp :
  buf_ok ctx -> list_ok ctx (pre ++ h :: suf) -> 0 <= lo -> placed lo (pre ++ h :: suf) -> 0 <= vn < 65536 -> 0 <= vp < 65536 ->
  exists ctx' ctx'', holenonptr_set_next ctx (lst 65535 pre) vn = Ret ctx' /\
    holenonptr_set_prev ctx' (hd 65535 suf) vp = Ret ctx'' /\
    seg (r_pkt ctx'') 65535 pre vn /\ seg (r_pkt ctx'') vp suf 65535 /\
    r_first_hole ctx'' = hd vn pre /\ r_last_hole ctx'' = lst vp suf /\ kept (in_desc (pre ++ suf)) ctx ctx''.
Proof.
  intros Hb (Hs & Hf & Hl) Hlo Hp Hvn Hvp. apply hseg_app in Hs as [Hs1 [_ Hs2]].
  assert (placed 0 (pre ++ h :: suf)) as Hp0.
  { destruct (pre ++ h :: suf); simpl in *; [done|]. intuition lia. }
  assert (placed 0 (pre ++ suf)) as Hp'.
  { apply placed_app in Hp0 as (Ha & Hc & Hd). apply placed_app. split; [done|]. destruct Hc as (? & ? & ? & Hc). split.
    - destruct suf; simpl in *; intuition lia.
    - intros g k Hg Hk. apply Hd; [done|by right]. }
  apply placed_app in Hp' as Hparts. destruct Hparts as (Hpp & Hps & _). rewrite hd_app in Hf. rewrite lst_app in Hl. simpl in Hl.
  destruct (hole_set_next_ok ctx pre (hole_first h) vn) as (c1 & E1 & Hs1' & Hf1 & Hl1 & Hk1); try done.
  pose proof (sides ctx c1 0 pre suf _ Hp' Hk1 Hs2) as Hs2'.
  destruct (hole_set_prev_ok c1 0 (hole_first h) suf vp) as (c2 & E2 & Hs2'' & Hl2 & Hf2 & Hk2); [by eapply kept_buf|done|congruence|lia|done|done|].
  exists c1, c2. split; [done|]. split; [done|]. split; [by eapply sides_back|]. split; [done|]. split; [congruence|]. split; [done|].
  eapply kept_trans; [exact Hk1|exact Hk2|..]; intros q Hq; apply in_desc_app; auto.
Qed.

(** Storing the description of the hole at a position whose sides are linked to
    it. *)
Lemma place_ok ctx pre h suf :
  buf_ok ctx -> placed 0 (pre ++ h :: suf) -> seg (r_pkt ctx) 65535 pre (hole_first h) -> seg (r_pkt ctx) (hole_first h) suf 65535 ->
  r_first_hole ctx = hd (hole_first h) pre -> r_last_hole ctx = lst (hole_first h) suf ->
  exists m', store_hole (r_pkt ctx) (hole_first h) (Hole815 (hole_first h) (hole_last h) (hd 65535 suf) (lst 65535 pre)) = Ret m' /\
    list_ok (set_pkt m' ctx) (pre ++ h :: suf) /\ kept (fun q => hole_first h <= q < hole_first h + 8) ctx (set_pkt m' ctx).
Proof.
  intros Hb Hp Hs1 Hs2 Hf Hl. apply placed_app in Hp as (Hpp & Hph & Hsep). pose proof (lst_range pre 0 ltac:(lia) Hpp).
  destruct Hph as (H1 & H2 & H3 & Hps). pose proof (hd_range suf (hole_first h + 8) ltac:(lia) Hps).
  destruct (store_hole_ok (r_pkt ctx) (hole_first h) (Hole815 (hole_first h) (hole_last h) (hd 65535 suf) (lst 65535 pre)))
    as (m' & E & Hl' & Ho & Hv' & Hb'); [apply hole_valid; [done|lia]|unfold fields_ok; simpl; lia|].
  exists m'. split; [done|]. split; [|by apply kept_store]. split; [|split].
  - apply hseg_app. split; [|split; [done|]]; (eapply seg_agree; [|eassumption]); intros q (k & Hk & Hq); apply Ho.
    + specialize (Hsep k h Hk ltac:(by left)). lia.
    + pose proof (placed_in _ _ _ Hps Hk). lia.
  - simpl. by rewrite Hf, hd_app.
  - simpl. by rewrite Hl, lst_app.
Qed.

Lemma unlink_ok ctx pre h suf :
  buf_ok ctx -> list_ok ctx (pre ++ h :: suf) -> placed 0 (pre ++ h :: suf) ->
  exists ctx', unlink_hole ctx (Hole815 (hole_first h) (hole_last h) (hd 65535 suf) (lst 65535 pre)) = Ret ctx' /\
    list_ok ctx' (pre ++ suf) /\ kept (in_desc (pre ++ suf)) ctx ctx'.
Proof.
  intros Hb Hl Hp. pose proof Hp as (Hpp & Hph & _)%placed_app. destruct Hph as (? & _ & _ & Hps).
  destruct (relink_ok ctx 0 pre h suf (hd 65535 suf) (lst 65535 pre)) as (c1 & c2 & E1 & E2 & Hs1 & Hs2 & Hf & Hla & Hk);
    [done|done|lia|done|eapply hd_range; [|exact Hps]; lia|by eapply lst_range|].
  exists c2. unfold unlink_hole. cbn [h_next h_prev]. rewrite E1. cbn [mbind outcome_bind]. split; [done|]. split; [|done].
  split; [by apply hseg_app|]. by rewrite hd_app, lst_app.
Qed.

Lemma update_ok ctx pre h suf v :
  buf_ok ctx -> list_ok ctx (pre ++ h :: suf) -> placed 0 (pre ++ h :: suf) -> hole_first h <= v <= 65535 ->
  exists m', store_hole (r_pkt ctx) (hole_first h) (Hole815 (hole_first h) v (hd 65535 suf) (lst 65535 pre)) = Ret m' /\
    list_ok (set_pkt m' ctx) (pre ++ {| hole_first := hole_first h; hole_last := v |} :: suf) /\
    kept (in_desc (pre ++ h :: suf)) ctx (set_pkt m' ctx).
Proof.
  intros Hb (Hs & Hf & Hl) Hp Hv. apply hseg_app in Hs as [Hs1 [_ Hs2]]. rewrite hd_app in Hf. rewrite lst_app in Hl.
  destruct (place_ok ctx pre {| hole_first := hole_first h; hole_last := v |} suf) as (m' & E & Hl' & Hk); try done.
  - apply placed_app in Hp as (Hpp & Hph & Hsep). apply placed_app. split; [done|]. simpl in Hph. split; [simpl; intuition lia|].
    intros g k Hg [->|Hk]%elem_of_cons; [apply (Hsep g h); [done|by left]|apply Hsep; [done|by right]].
  - exists m'. split; [done|]. split; [done|]. eapply kept_trans; [exact Hk|apply (kept_refl (fun _ => False))| |done].
    intros q Hq. apply in_desc_app. right. apply in_desc_cons. by left.
Qed.

(** The rear part of a hole is kept: it moves to [v]. *)
Lemma move_ok ctx pre h suf v :
  let h' := {| hole_first := v; hole_last := hole_last h |} in
  buf_ok ctx -> list_ok ctx (pre ++ h :: suf) -> placed 0 (pre ++ h :: suf) -> placed 0 (pre ++ h' :: suf) ->
  exists c1 c2 m', holenonptr_set_next ctx (lst 65535 pre) v = Ret c1 /\ holenonptr_set_prev c1 (hd 65535 suf) v = Ret c2 /\
    store_hole (r_pkt c2) v (Hole815 v (hole_last h) (hd 65535 suf) (lst 65535 pre)) = Ret m' /\
    list_ok (set_pkt m' c2) (pre ++ h' :: suf) /\ kept (in_desc (pre ++ h' :: suf)) ctx (set_pkt m' c2).
Proof.
  intros h' Hb Hl Hp Hp'. pose proof Hp' as (_ & Hph & _)%placed_app. destruct Hph as (? & _). simpl in *.
  destruct (relink_ok ctx 0 pre h suf v v) as (c1 & c2 & E1 & E2 & Hs1 & Hs2 & Hf & Hla & Hk); [done|done|lia|done|lia|lia|].
  destruct (place_ok c2 pre h' suf) as (m' & E & Hl' & Hk'); try done; [by eapply kept_buf|].
  exists c1, c2, m'. do 4 (split; [done|]). eapply kept_trans; [exact Hk|exact Hk'|..]; intros q Hq; apply in_desc_app.
  - apply in_desc_app in Hq as [Hq|Hq]; [by left|right; apply in_desc_cons; by right].
  - right. apply in_desc_cons. by left.
Qed.

(** Both ends of a hole are kept. *)
Lemma split_ok ctx pre h suf v1 v2 :
  let h1 := {| hole_first := hole_first h; hole_last := v1 |} in
  let h2 := {| hole_first := v2; hole_last := hole_last h |} in
  buf_ok ctx -> list_ok ctx (pre ++ h :: suf) -> placed 0 (pre ++ h1 :: h2 :: suf) ->
  exists c1 m1 m2, holenonptr_set_prev ctx (hd 65535 suf) v2 = Ret c1 /\
    store_hole (r_pkt c1) (hole_first h) (Hole815 (hole_first h) v1 v2 (lst 65535 pre)) = Ret m1 /\
    store_hole m1 v2 (Hole815 v2 (hole_last h) (hd 65535 suf) (hole_first h)) = Ret m2 /\
    list_ok (set_pkt m2 c1) (pre ++ h1 :: h2 :: suf) /\ kept (in_desc (pre ++ h1 :: h2 :: suf)) ctx (set_pkt m2 c1).
Proof.
  intros h1 h2 Hb (Hs & Hf & Hl) Hp. apply hseg_app in Hs as [Hs1 [_ Hs2]]. rewrite hd_app in Hf. rewrite lst_app in Hl.
  pose proof Hp as (Hpp & (G1 & G2 & G3 & G4 & G5 & G6 & G7) & Hsep)%placed_app. simpl in *.
  destruct (hole_set_prev_ok ctx (v2 + 8) (hole_first h) suf v2) as (c1 & E1 & Hs2' & Hl1 & Hf1 & Hk1); [done|done|done|lia|done|lia|].
  pose proof (lst_range pre 0 ltac:(lia) Hpp).
  destruct (store_hole_ok (r_pkt c1) (hole_first h) (Hole815 (hole_first h) v1 v2 (lst 65535 pre)))
    as (m1 & E2 & Hld & Ho & Hv & Hbm); [apply hole_valid; [by eapply kept_buf|lia]|unfold fields_ok; simpl; lia|].
  pose proof (kept_store c1 m1 (hole_first h) Ho Hv Hbm) as Hk2.
  assert (seg m1 65535 pre (hole_first h)) as Hs1'.
  { eapply seg_agree; [|exact Hs1]. destruct Hk1 as (_ & _ & _ & _ & Hk1 & _). intros q (k & Hk & Hq).
    pose proof (Hsep k h1 Hk ltac:(by left)). simpl in *. rewrite Ho by lia. apply Hk1. intros (g & Hg & Hq').
    specialize (Hsep k g Hk). rewrite !elem_of_cons in Hsep. specialize (Hsep ltac:(auto)). lia. }
  destruct (place_ok (set_pkt m1 c1) (pre ++ [h1]) h2 suf) as (m2 & E3 & Hl' & Hk3).
  - eapply kept_buf; [exact Hk2|]. by eapply kept_buf.
  - by rewrite <- (assoc_L (++)).
  - apply hseg_app. split; [done|]. by split.
  - eapply seg_agree; [|exact Hs2']. intros q (k & Hk & Hq). pose proof (placed_in _ _ _ G7 Hk). apply Ho. simpl in *. lia.
  - simpl. by rewrite Hf1, Hf, hd_app.
  - simpl. done.
  - exists c1, m1, m2. split; [done|]. split; [done|]. rewrite lst_app in E3. split; [exact E3|].
    rewrite <- (assoc_L (++)) in Hl'. split; [exact Hl'|].
    eapply (kept_trans _ _ _ ctx (set_pkt m1 c1)); [eapply (kept_trans _ _ (in_desc (pre ++ h1 :: h2 :: suf))); [exact Hk1|exact Hk2|..]|exact Hk3|auto|];
      intros q Hq; rewrite in_desc_app, !in_desc_cons; auto 8.
Qed.
End memory.
