(* ===== verification/Rfc815Add.v ===== *)
(** The two loops of [rfc815ctx_add] compute [restrict_holes] and [cut_holes] of
    the hole list, in the buffer. *)
From S2P Require Import Prelude Bytes IpHdr IpCksum Packet Reass Rfc815 Rfc815List.

(** ** Holes at multiples of eight *)

Definition aligned (h : hole) : Prop := hole_first h mod 8 = 0 /\ hole_first h <= 65520.
Definition good (lo : Z) (hs : list hole) : Prop := holes_sorted lo hs /\ Forall aligned hs.

(** The end of a list of holes that starts after [lo]. *)
Fixpoint hend (lo : Z) (hs : list hole) : Z := match hs with [] => lo | h :: hs => hend (hole_last h + 1) hs end.

Lemma sorted_app lo hs hs' : holes_sorted lo (hs ++ hs') <-> holes_sorted lo hs /\ holes_sorted (hend lo hs) hs'.
Proof. revert lo. induction hs as [|h hs IH]; intros lo; simpl; [tauto|]. rewrite IH. tauto. Qed.
Lemma hend_mono lo lo' hs : lo <= lo' -> hend lo hs <= hend lo' hs.
Proof. by destruct hs. Qed.
Lemma in_holes_app hs hs' i : in_holes (hs ++ hs') i <-> in_holes hs i \/ in_holes hs' i.
Proof. unfold in_holes. setoid_rewrite elem_of_app. naive_solver. Qed.
Lemma in_holes_hend lo hs i : holes_sorted lo hs -> in_holes hs i -> lo <= i < hend lo hs.
Proof.
  revert lo. induction hs as [|h hs IH]; intros lo Hs Hi; [by apply in_holes_nil in Hi|]. simpl. destruct Hs as (H1 & H2 & Hs).
  apply in_holes_cons in Hi as [Hi|Hi].
  - clear IH. assert (forall hs lo, holes_sorted lo hs -> lo <= hend lo hs) as Hle.
    { clear. induction hs as [|g hs IH]; intros lo; simpl; [lia|]. intros (? & ? & Hs). specialize (IH _ Hs). lia. }
    specialize (Hle _ _ Hs). lia.
  - specialize (IH _ Hs Hi). lia.
Qed.

Lemma good_placed lo hs : 0 <= lo -> good lo hs -> placed lo hs.
Proof.
  revert lo. induction hs as [|h hs IH]; intros lo Hlo [Hs Ha]; [done|]. destruct Hs as (H1 & H2 & Hs). inversion Ha as [|? ? [Ha1 Ha2] Ha']; subst.
  simpl. split; [lia|]. split; [done|]. split; [lia|]. assert (placed (hole_last h + 1) hs) as Hp by (apply IH; [lia|by split]).
  destruct hs as [|g hs]; [done|]. simpl in *. inversion Ha' as [|? ? [Hg _] _]; subst. intuition lia.
Qed.

(** [new] is what is left of the hole [h]. *)
Definition part_of (h : hole) (new : list hole) : Prop :=
  holes_sorted (hole_first h) new /\ Forall aligned new /\ hend (hole_first h) new <= hole_last h + 1.

Lemma good_replace lo pre h new suf : good lo (pre ++ h :: suf) -> part_of h new -> good lo (pre ++ new ++ suf).
Proof.
  intros [Hs Ha] (Hn & Han & He). apply sorted_app in Hs as [Hs1 (H1 & H2 & Hs2)]. rewrite list.Forall_app, list.Forall_cons in Ha.
  split; [|rewrite !list.Forall_app; tauto]. rewrite !sorted_app. split; [done|]. split; [eapply holes_sorted_weaken; [|exact Hn]; lia|].
  eapply holes_sorted_weaken; [|exact Hs2]. pose proof (hend_mono (hend lo pre) (hole_first h) new). lia.
Qed.
Lemma part_of_in pre h new suf i : part_of h new -> in_holes (pre ++ new ++ suf) i -> in_holes (pre ++ h :: suf) i.
Proof.
  intros (Hn & _ & He). rewrite !in_holes_app, in_holes_cons. intros [Hi|[Hi|Hi]]; [auto| |auto].
  pose proof (in_holes_hend _ _ _ Hn Hi). right; left. lia.
Qed.
Lemma part_none lo pre h suf : good lo (pre ++ h :: suf) -> part_of h [].
Proof. intros [(_ & ? & _)%sorted_app _]. split; [done|]. split; [constructor|]. simpl. lia. Qed.
Lemma part_front lo pre h suf v :
  good lo (pre ++ h :: suf) -> hole_first h <= v <= hole_last h -> part_of h [{| hole_first := hole_first h; hole_last := v |}].
Proof.
  intros [(_ & H1 & H2 & _)%sorted_app Ha] Hv. rewrite list.Forall_app, list.Forall_cons in Ha. destruct Ha as (_ & Ha & _).
  split; [simpl; lia|]. split; [by repeat constructor; apply Ha|]. simpl. lia.
Qed.

(** The eight-byte blocks the holes touch. *)
Definition blocks (hs : list hole) (q : Z) : Prop := exists i, in_holes hs i /\ i / 8 = q / 8.
Lemma blocks_mono hs hs' q : (forall i, in_holes hs i -> in_holes hs' i) -> blocks hs q -> blocks hs' q.
Proof. intros Hi (i & H1 & H2). exists i. auto. Qed.
Lemma desc_blocks lo hs q : good lo hs -> in_desc hs q -> blocks hs q.
Proof.
  intros [Hs Ha] (h & Hh & Hq). rewrite list.Forall_forall in Ha. destruct (Ha h Hh). exists (hole_first h).
  split; [exists h; split; [done|]|lia]. apply list_elem_of_split in Hh as (l1 & l2 & ->). apply sorted_app in Hs as [_ (? & _)]. lia.
Qed.

Section loops.
Context `{Host}.
Implicit Types (h : hole) (hs pre suf : list hole) (ctx : rfc815ctx).

(** ** One change of the list *)

Definition state ctx hs : Prop := buf_ok ctx /\ list_ok ctx hs /\ good 0 hs.
(** From a list to what is left of it. *)
Definition reduces ctx hs ctx' hs' : Prop := state ctx' hs' /\ kept (blocks hs) ctx ctx' /\ (forall i, in_holes hs' i -> in_holes hs i).

Lemma reduces_trans c1 l1 c2 l2 c3 l3 : reduces c1 l1 c2 l2 -> reduces c2 l2 c3 l3 -> reduces c1 l1 c3 l3.
Proof.
  intros (S1 & K1 & I1) (S2 & K2 & I2). split; [done|]. split; [|auto]. eapply kept_trans; [exact K1|exact K2|auto|].
  intros q. by apply blocks_mono.
Qed.
Lemma reduces_refl ctx hs : state ctx hs -> reduces ctx hs ctx hs.
Proof. intros Hs. split; [done|]. split; [apply kept_refl|auto]. Qed.
Lemma reduces_part ctx ctx' pre h new suf :
  state ctx (pre ++ h :: suf) -> part_of h new -> list_ok ctx' (pre ++ new ++ suf) ->
  kept (blocks (pre ++ h :: suf)) ctx ctx' -> reduces ctx (pre ++ h :: suf) ctx' (pre ++ new ++ suf).
Proof.
  intros (Hb & Hl & Hg) Hn Hl' Hk. split; [|split; [done|intros i; by apply part_of_in]].
  split; [by eapply kept_buf|]. split; [done|]. by eapply good_replace.
Qed.
(** Writing only descriptions of what is left. *)
Lemma kept_part ctx ctx' pre h new suf :
  good 0 (pre ++ h :: suf) -> part_of h new -> kept (in_desc (pre ++ new ++ suf)) ctx ctx' -> kept (blocks (pre ++ h :: suf)) ctx ctx'.
Proof.
  intros Hg Hn Hk. eapply kept_trans; [exact Hk|apply (kept_refl (fun _ => False))| |done].
  intros q Hq. eapply blocks_mono; [intros i; by apply part_of_in|]. eapply desc_blocks; [|exact Hq]. by eapply good_replace.
Qed.

Lemma state_unlink ctx pre h suf : state ctx (pre ++ h :: suf) ->
  exists ctx', unlink_hole ctx (Hole815 (hole_first h) (hole_last h) (hd 65535 suf) (lst 65535 pre)) = Ret ctx' /\
    reduces ctx (pre ++ h :: suf) ctx' (pre ++ suf).
Proof.
  intros Hst. pose proof Hst as (Hb & Hl & Hg). pose proof (part_none _ _ _ _ Hg) as Hn.
  destruct (unlink_ok ctx pre h suf) as (ctx' & E & Hl' & Hk); [done|done|by apply good_placed|].
  exists ctx'. split; [done|]. apply (reduces_part ctx ctx' pre h [] suf); try done. by eapply (kept_part _ _ _ _ []).
Qed.
Lemma state_update ctx pre h suf v : state ctx (pre ++ h :: suf) -> hole_first h <= v <= hole_last h ->
  exists m', store_hole (r_pkt ctx) (hole_first h) (Hole815 (hole_first h) v (hd 65535 suf) (lst 65535 pre)) = Ret m' /\
    reduces ctx (pre ++ h :: suf) (set_pkt m' ctx) (pre ++ {| hole_first := hole_first h; hole_last := v |} :: suf).
Proof.
  intros Hst Hv. pose proof Hst as (Hb & Hl & Hg). pose proof (part_front _ _ _ _ v Hg Hv) as Hn.
  assert (hole_last h <= 65535) by (destruct Hg as [(_ & _ & ? & _)%sorted_app _]; done).
  destruct (update_ok ctx pre h suf v) as (m' & E & Hl' & Hk); [done|done|by apply good_placed|lia|].
  exists m'. split; [done|]. apply (reduces_part ctx _ pre h [_] suf); try done.
  eapply kept_trans; [exact Hk|apply (kept_refl (fun _ => False))| |done]. intros q. by apply (desc_blocks 0).
Qed.
Lemma state_move ctx pre h suf v :
  let h' := {| hole_first := v; hole_last := hole_last h |} in
  state ctx (pre ++ h :: suf) -> part_of h [h'] ->
  exists c1 c2 m', holenonptr_set_next ctx (lst 65535 pre) v = Ret c1 /\ holenonptr_set_prev c1 (hd 65535 suf) v = Ret c2 /\
    store_hole (r_pkt c2) v (Hole815 v (hole_last h) (hd 65535 suf) (lst 65535 pre)) = Ret m' /\
    reduces ctx (pre ++ h :: suf) (set_pkt m' c2) (pre ++ h' :: suf).
Proof.
  intros h' Hst Hn. pose proof Hst as (Hb & Hl & Hg). pose proof (good_replace _ _ _ _ _ Hg Hn) as Hg'.
  destruct (move_ok ctx pre h suf v) as (c1 & c2 & m' & E1 & E2 & E3 & Hl' & Hk); [done|done|by apply good_placed|by apply good_placed|].
  exists c1, c2, m'. do 3 (split; [done|]). apply (reduces_part ctx _ pre h [h'] suf); try done. by eapply (kept_part _ _ _ _ [h']).
Qed.
Lemma state_split ctx pre h suf v1 v2 :
  let h1 := {| hole_first := hole_first h; hole_last := v1 |} in
  let h2 := {| hole_first := v2; hole_last := hole_last h |} in
  state ctx (pre ++ h :: suf) -> part_of h [h1; h2] ->
  exists c1 m1 m2, holenonptr_set_prev ctx (hd 65535 suf) v2 = Ret c1 /\
    store_hole (r_pkt c1) (hole_first h) (Hole815 (hole_first h) v1 v2 (lst 65535 pre)) = Ret m1 /\
    store_hole m1 v2 (Hole815 v2 (hole_last h) (hd 65535 suf) (hole_first h)) = Ret m2 /\
    reduces ctx (pre ++ h :: suf) (set_pkt m2 c1) (pre ++ h1 :: h2 :: suf).
Proof.
  intros h1 h2 Hst Hn. pose proof Hst as (Hb & Hl & Hg). pose proof (good_replace _ _ _ _ _ Hg Hn) as Hg'.
  destruct (split_ok ctx pre h suf v1 v2) as (c1 & m1 & m2 & E1 & E2 & E3 & Hl' & Hk); [done|done|by apply good_placed|].
  exists c1, m1, m2. do 3 (split; [done|]). apply (reduces_part ctx _ pre h [h1; h2] suf); try done. by eapply (kept_part _ _ _ _ [h1; h2]).
Qed.

(** ** The loops *)

Lemma state_here ctx pre h suf : state ctx (pre ++ h :: suf) ->
  load_hole (r_pkt ctx) (hole_first h) = Ret (Hole815 (hole_first h) (hole_last h) (hd 65535 suf) (lst 65535 pre)) /\
  (hole_first h =? 65535) = false /\ 0 <= hole_first h <= hole_last h /\ hole_last h <= 65535 /\ hole_first h <= 65520 /\ hole_first h mod 8 = 0 /\
  holes_sorted (hole_last h + 1) suf.
Proof.
  intros (Hb & Hl & Hg). split; [by apply list_load|]. pose proof (good_placed 0 _ ltac:(lia) Hg) as Hp.
  apply placed_app in Hp as (_ & (H1 & H2 & H3 & _) & _). destruct Hg as [(_ & _ & _ & Hs)%sorted_app _]. split; [lia|]. auto with lia.
Qed.

Lemma restrict_loop suf : forall ctx pre fuel,
  (length suf < fuel)%nat -> state ctx (pre ++ suf) ->
  exists ctx', iter fuel restrict_step (ctx, hd 65535 suf) = Ret ctx' /\
    reduces ctx (pre ++ suf) ctx' (pre ++ restrict_holes (r_mrl ctx) suf).
Proof.
  induction suf as [|h suf IH]; intros ctx pre [|fuel] Hf Hst; simpl in Hf; try lia.
  { exists ctx. split; [done|]. by apply reduces_refl. }
  destruct (state_here _ _ _ _ Hst) as (El & Ene & Hr1 & Hr2 & Hr3 & Hr4 & Hs). cbn [hd restrict_holes].
  assert (forall new ctx', reduces ctx (pre ++ h :: suf) ctx' (pre ++ new ++ suf) ->
    restrict_step (ctx, hole_first h) = Ret (inl (ctx', hd 65535 suf)) ->
    exists ctx'', iter (S fuel) restrict_step (ctx, hole_first h) = Ret ctx'' /\
      reduces ctx (pre ++ h :: suf) ctx'' (pre ++ new ++ restrict_holes (r_mrl ctx) suf)) as Hgo.
  { intros new ctx' Hred E. pose proof Hred as (Hst' & (Hm & _) & _). rewrite (assoc_L (++)) in Hst'.
    destruct (IH ctx' (pre ++ new) fuel ltac:(lia) Hst') as (c & Ec & Hc). exists c. rewrite (iter_inl _ _ _ _ E). split; [done|].
    rewrite <- !(assoc_L (++)), Hm in Hc. by eapply reduces_trans. }
  assert (restrict_step (ctx, hole_first h) =
    (if hole_first h >? r_mrl ctx then
       ctx' ← unlink_hole ctx (Hole815 (hole_first h) (hole_last h) (hd 65535 suf) (lst 65535 pre)); Ret (inl (ctx', hd 65535 suf))
     else if hole_last h >? r_mrl ctx then
       m ← store_hole (r_pkt ctx) (hole_first h) (Hole815 (hole_first h) (r_mrl ctx) (hd 65535 suf) (lst 65535 pre));
       Ret (inl (set_pkt m ctx, hd 65535 suf))
     else Ret (inl (ctx, hd 65535 suf)))) as Estep.
  { unfold restrict_step. rewrite Ene, El. done. }
  destruct (Z.gtb_spec (hole_first h) (r_mrl ctx)); [|destruct (Z.gtb_spec (hole_last h) (r_mrl ctx))].
  - destruct (state_unlink _ _ _ _ Hst) as (c & E & Hred). apply (Hgo [] c); [done|]. rewrite Estep, E. done.
  - destruct (state_update _ _ _ _ (r_mrl ctx) Hst ltac:(lia)) as (m & E & Hred). apply (Hgo [_] (set_pkt m ctx)); [done|]. rewrite Estep, E. done.
  - apply (Hgo [h] ctx); [by apply reduces_refl|done].
Qed.

(** The cut never leaves a hole at an odd place: it ends at a multiple of eight,
    or where the last hole does. *)
Definition cut_fits (dl : Z) hs : Prop := ((dl + 1) mod 8 = 0 /\ dl + 1 <= 65520) \/ Forall (fun h => hole_last h <= dl) hs.

(** What one pass does with the hole [h]: it goes, keeps one of its ends or
    both, and the loop ends or goes on. *)
Definition cut_one (df dl : Z) h : list hole * bool * bool :=
  if dl =? hole_last h then
    if df <=? hole_first h then ([], true, false)
    else ([{| hole_first := hole_first h; hole_last := df - 1 |}], true, false)
  else if dl <? hole_last h then
    if df <=? hole_first h then
      if dl + 1 >? hole_first h then ([{| hole_first := dl + 1; hole_last := hole_last h |}], true, false) else ([h], false, false)
    else ([{| hole_first := hole_first h; hole_last := df - 1 |}; {| hole_first := dl + 1; hole_last := hole_last h |}], true, false)
  else if df <=? hole_first h then ([], true, true)
  else if hole_last h >? df - 1 then ([{| hole_first := hole_first h; hole_last := df - 1 |}], true, true) else ([h], false, true).

Lemma cut_holes_one df dl h hs :
  0 <= df <= dl + 1 -> dl <= 65535 -> 0 <= hole_first h <= hole_last h -> hole_last h <= 65535 ->
  cut_holes df dl (h :: hs) =
    let '(new, _, more) := cut_one df dl h in new ++ (if (more : bool) then cut_holes df dl hs else hs).
Proof.
  intros ? ? ? ?. cbn [cut_holes]. unfold cut_one.
  repeat match goal with
    | |- context [?a =? ?b] => destruct (Z.eqb_spec a b)
    | |- context [?a <? ?b] => destruct (Z.ltb_spec a b)
    | |- context [?a <=? ?b] => destruct (Z.leb_spec a b)
    | |- context [?a >? ?b] => destruct (Z.gtb_spec a b)
    end; rewrite ?u16_small by lia; try done; lia.
Qed.

Lemma cut_step_ok df dl ctx pre h suf f :
  0 <= df <= dl + 1 -> dl <= 65535 -> cut_fits dl (h :: suf) -> state ctx (pre ++ h :: suf) ->
  let '(new, changed, more) := cut_one df dl h in
  exists ctx', cut_step df dl (ctx, hole_first h, f) =
      Ret (if (more : bool) then inl (ctx', hd 65535 suf, f || changed) else inr (ctx', f || changed)) /\
    reduces ctx (pre ++ h :: suf) ctx' (pre ++ new ++ suf) /\ (changed = false -> new = [h]).
Proof.
  intros Hd Hdl Hfit Hst. destruct (state_here _ _ _ _ Hst) as (El & Ene & Hr1 & Hr2 & Hr3 & Hr4 & Hs).
  assert (dl < hole_last h -> (dl + 1) mod 8 = 0 /\ dl + 1 <= 65520) as Hal.
  { destruct Hfit as [?|Hfit]; [done|]. apply list.Forall_cons in Hfit as [? _]. lia. }
  unfold cut_step, cut_one. rewrite Ene, El. cbn [mbind outcome_bind h_first h_last h_next h_prev].
  destruct (Z.eqb_spec dl (hole_last h)); [|destruct (Z.ltb_spec dl (hole_last h))];
    (destruct (Z.leb_spec df (hole_first h)); [|rewrite ?(u16_small (df - 1)) by lia]);
    rewrite ?(u16_small (dl + 1)) by lia.
  - destruct (state_unlink _ _ _ _ Hst) as (c & -> & Hred). exists c. by destruct f.
  - destruct (state_update _ _ _ _ (df - 1) Hst ltac:(lia)) as (m & -> & Hred). exists (set_pkt m ctx). by destruct f.
  - destruct (Z.gtb_spec (dl + 1) (hole_first h)).
    + destruct (state_move ctx pre h suf (dl + 1) Hst) as (c1 & c2 & m & E1 & E2 & E3 & Hred).
      { split; [simpl; lia|]. split; [constructor; [|constructor]; split; simpl; lia|simpl; lia]. }
      rewrite E1. cbn [mbind outcome_bind]. rewrite E2. cbn [mbind outcome_bind]. rewrite E3. exists (set_pkt m c2). by destruct f.
    + exists ctx. split; [by destruct f|]. split; [by apply reduces_refl|done].
  - destruct (state_split ctx pre h suf (df - 1) (dl + 1) Hst) as (c1 & m1 & m2 & E1 & E2 & E3 & Hred).
    { split; [simpl; lia|]. split; [repeat constructor; simpl; lia|simpl; lia]. }
    rewrite E1. cbn [mbind outcome_bind]. rewrite E2. cbn [mbind outcome_bind]. rewrite E3. exists (set_pkt m2 c1). by destruct f.
  - destruct (state_unlink _ _ _ _ Hst) as (c & -> & Hred). exists c. by destruct f.
  - destruct (Z.gtb_spec (hole_last h) (df - 1)).
    + destruct (state_update _ _ _ _ (df - 1) Hst ltac:(lia)) as (m & -> & Hred). exists (set_pkt m ctx). by destruct f.
    + exists ctx. split; [by destruct f|]. split; [by apply reduces_refl|done].
Qed.

Lemma cut_loop df dl suf : 0 <= df <= dl + 1 -> dl <= 65535 -> forall ctx pre fuel f,
  (length suf < fuel)%nat -> cut_fits dl suf -> state ctx (pre ++ suf) ->
  exists ctx' b, iter fuel (cut_step df dl) (ctx, hd 65535 suf, f) = Ret (ctx', b) /\
    reduces ctx (pre ++ suf) ctx' (pre ++ cut_holes df dl suf) /\ (b = false -> f = false /\ cut_holes df dl suf = suf).
Proof.
  intros Hd Hdl. induction suf as [|h suf IH]; intros ctx pre [|fuel] f Hf Hfit Hst; simpl in Hf; try lia.
  { exists ctx, f. split; [done|]. split; [by apply reduces_refl|done]. }
  destruct (state_here _ _ _ _ Hst) as (_ & _ & Hr1 & Hr2 & _). rewrite cut_holes_one by lia.
  pose proof (cut_step_ok df dl ctx pre h suf f Hd Hdl Hfit Hst) as Hstep.
  destruct (cut_one df dl h) as [[new changed] [|]]; destruct Hstep as (c & E & Hred & Hch); cbn [hd].
  - pose proof Hred as (Hst' & _). rewrite (assoc_L (++)) in Hst'. destruct (IH c (pre ++ new) fuel (f || changed)) as (c' & b & Ec & Hred' & Hb); [lia| |done|].
    { destruct Hfit as [?|Hfit]; [by left|]. apply list.Forall_cons in Hfit as [_ ?]. by right. }
    exists c', b. rewrite (iter_inl _ _ _ _ E). split; [done|]. rewrite <- !(assoc_L (++)) in Hred'. split; [by eapply reduces_trans|].
    intros Hbf. destruct (Hb Hbf) as [[? ?]%orb_false_iff ->]. split; [done|]. by rewrite Hch.
  - exists c, (f || changed). rewrite (iter_inr _ _ _ _ E). split; [done|]. split; [done|].
    intros [? ?]%orb_false_iff. split; [done|]. by rewrite Hch.
Qed.
End loops.
