(* ===== verification/Rfc815Spec.v ===== *)
(** What a [struct rfc815ctx] knows after a history of fragments, and the
    datagram it hands out. *)
From S2P Require Import Prelude Bytes IpHdr IpCksum Packet Reass Rfc815 Rfc815List Rfc815Add.

(** ** Holes that end at a block *)

Definition ends8 (h : hole) : Prop := (hole_last h + 1) mod 8 = 0.

Lemma blocks_in hs q : Forall aligned hs -> Forall ends8 hs -> blocks hs q -> in_holes hs q.
Proof.
  rewrite !list.Forall_forall. intros Ha He (i & (h & Hh & Hi) & E). exists h. split; [done|].
  destruct (Ha h Hh) as [? _]. specialize (He h Hh). unfold ends8 in He. lia.
Qed.

Lemma cut_ends8 df dl lo hs :
  0 <= df <= dl + 1 -> dl <= 65535 -> 0 <= lo -> holes_sorted lo hs -> df mod 8 = 0 ->
  Forall (fun h => ends8 h \/ hole_last h = dl) hs -> Forall ends8 (cut_holes df dl hs).
Proof.
  intros Hd Hdl Hlo Hs H8. revert lo Hlo Hs. induction hs as [|h hs IH]; intros lo Hlo Hs He; [constructor|].
  apply list.Forall_cons in He as [Hh He]. destruct Hs as (H1 & H2 & Hs). specialize (IH (hole_last h + 1) ltac:(lia) Hs He).
  assert (dl <= hole_last h -> Forall ends8 hs) as Hrest.
  { intros Hle. rewrite list.Forall_forall in He |- *. intros g Hg. destruct (He g Hg) as [?|Hl]; [done|].
    assert (in_holes hs (hole_last g)) as Hin.
    { exists g. split; [done|]. apply list_elem_of_split in Hg as (l1 & l2 & ->). apply sorted_app in Hs as [_ (? & _)]. lia. }
    pose proof (in_holes_lower _ _ _ Hs Hin). lia. }
  rewrite cut_holes_one by lia. unfold cut_one.
  destruct (Z.eqb_spec dl (hole_last h)); [|destruct (Z.ltb_spec dl (hole_last h))];
    destruct (Z.leb_spec df (hole_first h)); try destruct (_ >? _); simpl; repeat constructor; auto with lia;
    unfold ends8 in *; simpl; lia.
Qed.

Lemma restrict_ends hs mrl lo :
  holes_sorted lo hs -> Forall ends8 hs ->
  Forall (fun h => ends8 h \/ hole_last h = mrl) (restrict_holes mrl hs) /\ Forall (fun h => hole_last h <= mrl) (restrict_holes mrl hs).
Proof.
  revert lo. induction hs as [|h hs IH]; intros lo Hs He; [by split|]. apply list.Forall_cons in He as [Hh He].
  destruct Hs as (H1 & H2 & Hs). destruct (IH _ Hs He) as [IH1 IH2]. simpl.
  destruct (Z.gtb_spec (hole_first h) mrl); [done|]. destruct (Z.gtb_spec (hole_last h) mrl); split; constructor; simpl; auto with lia.
Qed.

Lemma holes_fuel_enough hs : good 0 hs -> (length hs < holes_fuel)%nat.
Proof.
  intros Hg. pose proof (placed_length 0 hs ltac:(lia) (good_placed 0 _ ltac:(lia) Hg)) as [Hl| ->]; unfold holes_fuel; simpl length; lia.
Qed.

#[local] Opaque holes_fuel.

Section rfc815.
Context `{Host}.

(** ** The end of [rfc815ctx_add] *)

(** The second loop and the copy. *)
Definition cut_copy (df dl : Z) (ctx : rfc815ctx) (p : packet) : outcome rfc815ctx :=
  r ← iter holes_fuel (cut_step df dl) (ctx, r_first_hole ctx, false);
  let '(ctx, modified) := r in
  if (modified : bool) then
    payload ← ip_const_payload (pkt_mem p) (p_ip p);
    m ← memcpy_from (r_pkt ctx) df (pkt_mem p) payload (dl - df + 1);
    Ret (set_pkt m ctx)
  else Ret ctx.

Definition same_fields (ctx ctx' : rfc815ctx) : Prop :=
  r_mrl ctx' = r_mrl ctx /\ r_hdr_len ctx' = r_hdr_len ctx /\ r_direction ctx' = r_direction ctx /\ r_header ctx' = r_header ctx.

Lemma kept_fields D ctx ctx' : kept D ctx ctx' -> same_fields ctx ctx'.
Proof. by intros (? & ? & ? & ? & _). Qed.

Lemma cut_copy_ok df dl ctx hs p :
  packet_ok p -> 34 <= pkt_sz p -> valid (pkt_mem p) (p_ip p + p_hl p) (dl - df + 1) -> p_off p = df ->
  0 <= df <= dl + 1 -> dl <= 65519 -> df mod 8 = 0 -> state ctx hs -> cut_fits dl hs ->
  Forall (fun h => ends8 h \/ hole_last h = dl) hs ->
  returns (cut_copy df dl ctx p) (fun ctx' => exists hs',
    state ctx' hs' /\ Forall ends8 hs' /\ same_fields ctx ctx' /\
    (forall i, in_holes hs' i <-> in_holes hs i /\ ~ df <= i <= dl) /\
    forall q, df <= q <= dl /\ rd (r_pkt ctx') q = p_byte p q \/
      ~ (in_holes hs q /\ df <= q <= dl) /\ (~ blocks hs q -> rd (r_pkt ctx') q = rd (r_pkt ctx) q)).
Proof.
  intros (Hm & Hs0 & Hv) Hsz Hvp Hoff Hd Hdl H8 Hst Hfit He. pose proof Hst as (Hb & Hl & Hg).
  destruct (cut_loop df dl hs ltac:(lia) ltac:(lia) ctx [] holes_fuel false) as (c & b & E & (Hst' & Hk & _) & Hch);
    [by apply holes_fuel_enough|done|done|]. simpl in Hst', Hk.
  destruct (cut_holes_spec df dl 0 hs ltac:(lia) ltac:(lia) ltac:(lia) (proj1 Hg)) as [Hs' Hi'].
  pose proof (cut_ends8 df dl 0 hs ltac:(lia) ltac:(lia) ltac:(lia) (proj1 Hg) H8 He) as He'.
  unfold cut_copy. destruct Hl as (_ & Hf & _). rewrite Hf, E. cbn [mbind outcome_bind].
  pose proof Hk as (_ & _ & _ & _ & Ho & _). destruct b.
  - unfold ip_const_payload. rewrite ip_hdr_len_ok by (done || (unfold p_ip; solve_valid)). cbn [fmap outcome_fmap mbind outcome_bind]. fold (p_hl p).
    destruct Hst' as ((Hvb & Hbb) & Hl' & Hg').
    destruct (memcpy_from_ok (r_pkt c) df (pkt_mem p) (p_ip p + p_hl p) (dl - df + 1)) as (m' & -> & Hc); [done|lia|solve_valid|done|].
    cbn [mbind outcome_bind]. apply returns_ret. exists (cut_holes df dl hs). split; [|split; [done|split; [by apply kept_fields in Hk|split; [done|]]]].
    + split; [split; simpl; [eapply copied_valid; [exact Hc|done|done]|by eapply copied_bytes_ok]|]. split; [|done].
      destruct Hl' as (Hseg & Hf' & Hla'). split; [|by split]. simpl. eapply seg_agree; [|exact Hseg].
      intros q Hq%(desc_blocks 0); [|done]. apply blocks_in in Hq; [|by destruct Hg'|done]. apply Hi' in Hq as [_ Hq].
      apply (copied_out Hc). lia.
    + intros q. destruct (decide (df <= q <= dl)) as [Hq|Hq]; [left|right].
      * split; [done|]. simpl. rewrite (copied_in Hc) by lia. unfold p_byte. f_equal. lia.
      * split; [tauto|]. intros Hnb. simpl. rewrite (copied_rd_out Hc) by lia. by apply rd_lookup, Ho.
  - destruct (Hch eq_refl) as [_ Eq]. apply returns_ret. exists (cut_holes df dl hs). split; [done|]. split; [done|].
    split; [by apply kept_fields in Hk|]. split; [done|]. intros q. right. split.
    + intros [Hq Hin]. rewrite <- Eq in Hq. apply Hi' in Hq. tauto.
    + intros Hnb. by apply rd_lookup, Ho.
Qed.

(** ** One fragment *)

(** The fragments the buffer has room for: they start at a multiple of eight,
    end before the last sixteen bytes, and end at a multiple of eight unless they
    are the last of the datagram. *)
Definition fits815 (f : frag) : Prop :=
  let '(a, b, more) := f in a mod 8 = 0 /\ b <= 65519 /\ (more = true -> (b + 1) mod 8 = 0).

(** Everything about the bytes: the holes are what is missing and what is not
    missing is [D]. *)
Definition tracks (D : Z -> Z) (fs : list frag) (ctx : rfc815ctx) : Prop :=
  r_mrl ctx = last_of fs /\
  exists hs, state ctx hs /\ Forall ends8 hs /\
    (forall i, in_holes hs i <-> 0 <= i <= last_of fs /\ ~ covered fs i) /\
    (forall i, 0 <= i <= last_of fs -> covered fs i -> rd (r_pkt ctx) i = D i).

(** A fragment past the end of the datagram: its last, incomplete block has
    already arrived. *)
Lemma last_block_covered fs dl i :
  Forall frag_ok fs -> Forall fits815 fs -> last_of fs <= dl <= 65519 ->
  (dl + 1) / 8 * 8 <= i <= last_of fs -> covered fs i.
Proof.
  intros Hok Hfit Hl Hi. destruct (last_of_claimed fs) as [?|[a Ha]]; [lia|].
  rewrite list.Forall_forall in Hok, Hfit. specialize (Hok _ Ha). specialize (Hfit _ Ha). simpl in Hok, Hfit.
  exists (a, last_of fs, false). split; [done|]. simpl. lia.
Qed.

Definition add_range (ctx : rfc815ctx) (p : packet) (f : frag) : outcome rfc815ctx :=
  let '(df, dl, more) := f in
  r ← (if negb more && (r_mrl ctx >? dl) then
         ctx ← iter holes_fuel restrict_step (set_mrl dl ctx, r_first_hole ctx);
         Ret (Some (ctx, dl))
       else if dl <? 7 then Ret None
       else Ret (Some (ctx, u16 ((dl + 1) / 8 * 8 - 1))));
  match r with
  | None => Ret ctx
  | Some (ctx, dl) => cut_copy df dl ctx p
  end.

Lemma frag_of_inv p f : frag_of p = Some f ->
  34 <= pkt_sz p /\ p_hl p < p_tl p /\ p_tl p + 14 <= pkt_sz p /\ f = (p_off p, p_tl p - (p_hl p + 1) + p_off p, p_more p).
Proof.
  unfold frag_of. destruct (Z.ltb_spec (pkt_sz p) 34); [done|]. destruct (Z.leb_spec (p_tl p) (p_hl p)); [done|].
  destruct (Z.gtb_spec (p_tl p + 14) (pkt_sz p)); [done|]. destruct (_ >? 65535); [done|]. intros [= <-]. auto.
Qed.

Lemma add_range_ok D fs ctx p f :
  packet_ok p -> frag_of p = Some f -> Forall frag_ok fs -> Forall fits815 fs -> fits815 f ->
  (forall i, covers f i -> p_byte p i = D i) -> tracks D fs ctx ->
  returns (add_range ctx p f) (fun ctx' => tracks D (fs ++ [f]) ctx' /\
    r_hdr_len ctx' = r_hdr_len ctx /\ r_direction ctx' = r_direction ctx /\ r_header ctx' = r_header ctx).
Proof.
  intros Hp Ef Hok Hfits Hf HD (Hmrl & hs & Hst & He & Hi & Hby). pose proof (frag_of_ok p f (proj1 Hp) Ef) as Hfok.
  pose proof (last_of_range fs Hok) as Hr. pose proof (last_step_range _ f Hfok Hr) as Hr'. pose proof Hst as (Hb & Hl & Hg).
  apply frag_of_inv in Ef as (Hsz & Hhl & Htl & ->). set (df := p_off p) in *. set (dl := p_tl p - (p_hl p + 1) + df) in *.
  assert (0 <= p_hl p) as Hhl0 by (unfold p_hl; lia). simpl in Hf, Hfok, HD. unfold add_range, tracks. rewrite last_of_app, Hmrl. cbn [last_step] in *.
  destruct Hp as (Hm & Hs0 & Hv). assert (forall e, e <= dl -> df <= e + 1 -> valid (pkt_mem p) (p_ip p + p_hl p) (e - df + 1)) as Hvp
    by (intros; unfold p_ip; solve_valid).
  destruct (negb (p_more p) && (last_of fs >? dl)) eqn:Ec.
  - assert (state (set_mrl dl ctx) hs) as Hst1 by exact Hst. destruct Hl as (_ & Hf1 & _).
    destruct (restrict_loop hs (set_mrl dl ctx) [] holes_fuel (holes_fuel_enough _ Hg) Hst1) as (c & E & (Hstc & Hkc & _)). simpl in *.
    rewrite Hf1, E. cbn [mbind outcome_bind]. destruct (restrict_holes_spec dl 0 hs (proj1 Hg)) as [_ Hi1].
    destruct (restrict_ends hs dl 0 (proj1 Hg) He) as [He1 He2].
    eapply returns_impl; [apply (cut_copy_ok df dl c (restrict_holes dl hs) p); try done; [apply Hvp; lia|lia|lia|lia|by right]|].
    intros c' (hs' & Hst' & He' & (F1 & F2 & F3 & F4) & Hi' & Hq). pose proof Hkc as (K1 & K2 & K3 & K4 & K5 & _). simpl in *.
    split; [|repeat split; congruence]. split; [congruence|]. exists hs'. split; [done|]. split; [done|]. split.
    + intros i. rewrite covered_app, Hi', Hi1, Hi. simpl. intuition lia.
    + intros i Hir. rewrite covered_app. simpl. intros Hcov. destruct (Hq i) as [[? ->]|[Hn Hsame]]; [by apply HD|].
      rewrite Hi1, Hi in Hn. destruct (decide (covered fs i)) as [Hcf|Hcf]; [|destruct Hcov; [done|]; exfalso; apply Hn; repeat split; try done; lia].
      assert (~ in_holes hs i) as Hnin by (rewrite Hi; tauto).
      assert (~ blocks hs i) as Hnb by (intros Hx; apply Hnin; apply blocks_in; [by destruct Hg|done|done]).
      rewrite Hsame; [|intros Hx; apply Hnb; eapply blocks_mono; [|exact Hx]; intros j Hj; apply Hi1 in Hj; tauto].
      transitivity (rd (r_pkt ctx) i); [by apply rd_lookup, K5|]. apply Hby; [lia|done].
  - assert (dl <? 7 = true \/ 7 <= dl) as Hdl7 by (destruct (Z.ltb_spec dl 7); auto).
    set (e := (dl + 1) / 8 * 8 - 1).
    assert (forall i, e < i <= dl -> 0 <= i <= last_of fs -> covered fs i) as Hlast.
    { intros i Hi1 Hi2. destruct (p_more p); [simpl in *; unfold e in *; lia|]. simpl in Ec. destruct (Z.gtb_spec (last_of fs) dl); [done|].
      apply (last_block_covered fs dl); try done; unfold e in *; lia. }
    assert (df <= e + 1) as Hde by (unfold e; lia). assert (e <= dl) as Hedl by (unfold e; lia).
    destruct (Z.ltb_spec dl 7) as [Hlt|Hge]; cbn [mbind outcome_bind].
    + apply returns_ret. split; [|done]. split; [done|]. exists hs. assert (forall i, df <= i <= dl -> 0 <= i <= last_of fs -> covered fs i) as Hall
        by (intros i ? ?; apply Hlast; [unfold e; lia|lia]).
      do 2 (split; [done|]). split; [|intros i ? [?|?]%covered_app; auto].
      intros i. rewrite Hi, covered_app. simpl. specialize (Hall i). intuition lia.
    + rewrite u16_small by lia. fold e.
      eapply returns_impl; [apply (cut_copy_ok df e ctx hs p); try done; [apply Hvp; lia|lia|lia|lia|left; unfold e; lia|]|].
      { eapply list.Forall_impl; [exact He|]. auto. }
      intros c' (hs' & Hst' & He' & (F1 & F2 & F3 & F4) & Hi' & Hq). split; [|done]. split; [congruence|]. exists hs'. do 2 (split; [done|]). split.
      * intros i. rewrite Hi', Hi, covered_app. simpl. specialize (Hlast i).
        split; [|intuition lia]. intros [[Hx Hc] Hn]. split; [done|]. intros [?|Hdi]; [done|]. destruct (decide (e < i)); [apply Hc, Hlast; lia|lia].
      * intros i Hir. rewrite covered_app. simpl. intros Hcov. destruct (Hq i) as [[? ->]|[Hn Hsame]]; [apply HD; lia|].
        rewrite Hi in Hn. specialize (Hlast i). destruct (decide (covered fs i)) as [Hcf|Hcf];
          [|destruct Hcov; [done|]; destruct (decide (e < i)); [exfalso; apply Hcf, Hlast; lia|]; exfalso; apply Hn; repeat split; try done; lia].
        rewrite Hsame; [by apply Hby|]. intros Hnb%blocks_in; [|by destruct Hg|done]. apply Hi in Hnb. tauto.
Qed.

(** ** One packet *)

(** The checks before the header is taken. *)
Definition header_taken (p : packet) : bool :=
  negb (pkt_sz p <? 34) && negb (p_tl p <=? p_hl p) && negb (p_tl p + 14 >? pkt_sz p).

Lemma header_taken_inv p : header_taken p = true -> 34 <= pkt_sz p /\ p_hl p < p_tl p /\ p_tl p + 14 <= pkt_sz p.
Proof. unfold header_taken. lia. Qed.
Lemma header_refused p : header_taken p = false -> frag_of p = None.
Proof.
  unfold header_taken, frag_of. destruct (pkt_sz p <? 34); [done|]. destruct (p_tl p <=? p_hl p); [done|]. by destruct (p_tl p + 14 >? pkt_sz p).
Qed.

Lemma rfc815ctx_add_eq ctx p :
  packet_ok p ->
  rfc815ctx_add ctx p =
    if header_taken p then
      ctx1 ← (if r_hdr_len ctx =? 0 then
                hm ← memcpy_from (r_header ctx) 0 (pkt_mem p) (pkt_data p) (14 + p_hl p);
                Ret (set_header (14 + p_hl p) hm ctx)
              else Ret ctx);
      match frag_of p with None => Ret ctx1 | Some f => add_range ctx1 p f end
    else Ret ctx.
Proof.
  intros (Hm & Hs & Hv). unfold rfc815ctx_add, header_taken, frag_of, ether_const_payload. fold (p_ip p).
  destruct (Z.ltb_spec (pkt_sz p) 34); [done|]. assert (valid (pkt_mem p) (p_ip p) 20) by (unfold p_ip; solve_valid).
  unfold ip_total_len. rewrite hdr_get16n_ok by (done || solve_valid). cbn [mbind outcome_bind].
  rewrite ip_hdr_len_ok by (done || solve_valid). cbn [mbind outcome_bind].
  fold (p_tl p) (p_hl p). destruct (Z.leb_spec (p_tl p) (p_hl p)); [done|].
  destruct (Z.gtb_spec (p_tl p + 14) (pkt_sz p)); [done|]. cbn [negb andb].
  destruct (if r_hdr_len ctx =? 0 then _ else _) as [ctx1| | |]; try done. cbn [mbind outcome_bind].
  rewrite ip_frag_off_ok by (done || solve_valid). cbn [mbind outcome_bind]. fold (p_off p).
  destruct (Z.gtb_spec (p_tl p - (p_hl p + 1) + p_off p) 65535); [done|].
  rewrite ip_more_frags_ok by (done || solve_valid). cbn [mbind outcome_bind].
  pose proof (p_off_range p Hm). rewrite u16_small by lia. unfold add_range, p_more. rewrite negb_involutive.
  destruct (_ && _); done.
Qed.

(** The header kept is that of the first packet whose lengths are right. *)
Definition holds_header (o : option packet) (ctx : rfc815ctx) : Prop :=
  valid (r_header ctx) 0 128 /\ bytes_ok (r_header ctx) /\
  match o with
  | None => r_hdr_len ctx = 0
  | Some p0 => r_hdr_len ctx = 14 + p_hl p0 /\ forall q, 0 <= q < 14 + p_hl p0 -> rd (r_header ctx) q = rd (pkt_mem p0) (pkt_data p0 + q)
  end.

Lemma take_header_ok o ctx p :
  packet_ok p -> header_taken p = true -> holds_header o ctx ->
  exists ctx1, (if r_hdr_len ctx =? 0 then
                  hm ← memcpy_from (r_header ctx) 0 (pkt_mem p) (pkt_data p) (14 + p_hl p);
                  Ret (set_header (14 + p_hl p) hm ctx)
                else Ret ctx) = Ret ctx1 /\
    holds_header (Some (default p o)) ctx1 /\ r_direction ctx1 = r_direction ctx /\
    r_mrl ctx1 = r_mrl ctx /\ r_pkt ctx1 = r_pkt ctx /\ r_first_hole ctx1 = r_first_hole ctx /\ r_last_hole ctx1 = r_last_hole ctx.
Proof.
  intros (Hm & Hs & Hv) (H1 & H2 & H3)%header_taken_inv (Hvh & Hbh & Ho).
  assert (forall x, 0 <= p_hl x <= 60) as Hhl by (intros x; unfold p_hl; lia). pose proof (Hhl p). destruct o as [p0|]; simpl.
  - destruct Ho as [Hl Hq]. pose proof (Hhl p0). destruct (Z.eqb_spec (r_hdr_len ctx) 0); [lia|]. by exists ctx.
  - rewrite Ho. cbn [Z.eqb].
    destruct (memcpy_from_ok (r_header ctx) 0 (pkt_mem p) (pkt_data p) (14 + p_hl p)) as (hm & -> & Hc); [done|lia|solve_valid|solve_valid|].
    eexists. split; [done|]. split; [|done]. split; [eapply copied_valid; [exact Hc|solve_valid|done]|].
    split; [by eapply copied_bytes_ok|]. split; [done|]. intros q Hq. simpl. rewrite (copied_in Hc) by lia. f_equal. lia.
Qed.

(** ** Histories *)

Definition inv815 (D : Z -> Z) (d : Z) (ps : list packet) (ctx : rfc815ctx) : Prop :=
  tracks D (frags_of ps) ctx /\ holds_header (List.find header_taken ps) ctx /\ r_direction ctx = d.

(** A packet of the datagram [D], cut the way the buffer can hold. *)
Definition carries815 (D : Z -> Z) (p : packet) : Prop :=
  packet_ok p /\ forall f, frag_of p = Some f -> fits815 f /\ forall i, covers f i -> p_byte p i = D i.

Lemma carries815_frags D ps : Forall (carries815 D) ps -> Forall frag_ok (frags_of ps) /\ Forall fits815 (frags_of ps).
Proof.
  intros Hps. rewrite !list.Forall_forall in *. split; intros f (p & Hp & Hf)%list_elem_of_omap; destruct (Hps p Hp) as [Hok Hc].
  - eapply frag_of_ok; [apply Hok|done].
  - by apply Hc.
Qed.

Lemma find_snoc {A} (f : A -> bool) l x :
  List.find f (l ++ [x]) = match List.find f l with Some y => Some y | None => if f x then Some x else None end.
Proof. induction l as [|y l IH]; simpl; [done|]. by destruct (f y). Qed.

Lemma add_inv815 D d ps ctx p :
  Forall (carries815 D) ps -> carries815 D p -> inv815 D d ps ctx -> returns (rfc815ctx_add ctx p) (inv815 D d (ps ++ [p])).
Proof.
  intros Hps [Hok Hc] (Ht & Hh & Hd). destruct (carries815_frags D ps Hps) as [Hfok Hfit].
  rewrite rfc815ctx_add_eq by done. unfold inv815. rewrite frags_of_snoc, find_snoc. destruct (header_taken p) eqn:Eh.
  - destruct (take_header_ok _ ctx p Hok Eh Hh) as (c1 & -> & Hh1 & Hd1 & Em & Ep & Ef & El). cbn [mbind outcome_bind].
    assert (tracks D (frags_of ps) c1) as Ht1.
    { destruct Ht as (Hm & hs & ((Hv & Hb) & (Hs & Hf & Hl) & Hg) & Ht). split; [congruence|]. exists hs. split; [|by rewrite Ep].
      split; [by split; rewrite Ep|]. split; [|done]. unfold list_ok. by rewrite Ep, Ef, El. }
    replace (match List.find header_taken ps with Some y => Some y | None => Some p end) with (Some (default p (List.find header_taken ps)))
      by (by destruct (List.find header_taken ps)).
    destruct (frag_of p) as [f|] eqn:Efr; [|apply returns_ret; split; [done|]; split; [done|congruence]].
    destruct (Hc f eq_refl) as [Hff HD]. eapply returns_impl; [by eapply (add_range_ok D (frags_of ps) c1 p f)|].
    intros c' (Ht' & E1 & E2 & E3). split; [done|]. split; [|congruence]. destruct Hh1 as (A1 & A2 & A3). split; [by rewrite E3|].
    split; [by rewrite E3|]. by rewrite E1, E3.
  - rewrite header_refused by done. apply returns_ret. split; [done|]. split; [|done]. by destruct (List.find header_taken ps).
Qed.
End rfc815.

(** ** The context from [rfc815ctx_init] to the reassembled frame *)
Section datagram.
Context `{Host}.

Fixpoint rfc815_add_all (ctx : rfc815ctx) (ps : list packet) : outcome rfc815ctx :=
  match ps with [] => Ret ctx | p :: ps => ctx ← rfc815ctx_add ctx p; rfc815_add_all ctx ps end.

Lemma add_all_inv815 D d ps : forall qs ctx,
  Forall (carries815 D) qs -> Forall (carries815 D) ps -> inv815 D d qs ctx -> returns (rfc815_add_all ctx ps) (inv815 D d (qs ++ ps)).
Proof.
  induction ps as [|p ps IH]; intros qs ctx Hqs Hps Hi; simpl; [rewrite app_nil_r; by apply returns_ret|].
  apply list.Forall_cons in Hps as [Hp Hps]. eapply returns_bind; [exact (add_inv815 D d qs ctx p Hqs Hp Hi)|]. intros c Hc.
  replace (qs ++ p :: ps) with ((qs ++ [p]) ++ ps) by (by rewrite <- (assoc_L (++))).
  apply IH; [|done|done]. apply list.Forall_app. split; [done|]. by constructor.
Qed.

Lemma init_inv815 D ctx :
  valid (r_pkt ctx) 0 65535 -> bytes_ok (r_pkt ctx) -> valid (r_header ctx) 0 128 -> bytes_ok (r_header ctx) ->
  returns (rfc815ctx_init_fast ctx) (inv815 D (r_direction ctx) []).
Proof.
  intros Hv Hb Hvh Hbh. unfold rfc815ctx_init_fast.
  destruct (store_hole_ok (r_pkt ctx) 0 (Hole815 0 65535 65535 65535)) as (m' & -> & Hl & Ho & Hv' & Hb');
    [eapply valid_sub; [exact Hv|lia|lia]|unfold fields_ok; simpl; lia|].
  cbn [mbind outcome_bind]. apply returns_ret. split; [|done]. split; [done|].
  exists [{| hole_first := 0; hole_last := 65535 |}]. split; [split; [split; simpl; auto|split; [by repeat split|]]|split; [by repeat constructor|split]].
  - split; [simpl; lia|]. by repeat constructor.
  - intros i. rewrite in_holes_cons, in_holes_nil. change (last_of (frags_of [])) with 65535. cbn [hole_first hole_last]. split; [|tauto].
    intros [?|[]]. split; [done|]. by intros (f & Hf%elem_of_nil & _).
  - by intros i _ (f & Hf%elem_of_nil & _).
Qed.

Lemma memset_ok m p c n : 0 <= n -> valid m p n -> bytes_ok m ->
  exists m', memset m p c n = Ret m' /\ bytes_ok m' /\ (forall q k, valid m q k -> valid m' q k).
Proof.
  intros Hn Hv Hb. unfold memset. assert (0 <= u8 c < 256) as Hc by (unfold u8; lia).
  destruct (storen_ok m p (replicate (Z.to_nat n) (u8 c))) as (m' & E & Hm'); [rewrite length_replicate, Z2Nat.id by done; done|by apply Forall_replicate|].
  exists m'. split; [done|]. split.
  - intros q b. rewrite Hm'. destruct (decide _); [|apply Hb]. intros [? _]%lookup_replicate. by subst.
  - intros q k Hq i Hi. rewrite Hm'. destruct (decide _) as [Hin|]; [|by apply Hq]. apply lookup_lt_is_Some_2. lia.
Qed.

Lemma init_full815 D ctx :
  valid (r_pkt ctx) 0 65535 -> bytes_ok (r_pkt ctx) -> valid (r_header ctx) 0 128 -> bytes_ok (r_header ctx) ->
  returns (rfc815ctx_init ctx) (inv815 D (r_direction ctx) []).
Proof.
  intros Hv Hb Hvh Hbh. unfold rfc815ctx_init. destruct (memset_ok (r_pkt ctx) 0 0 65535 ltac:(lia) Hv Hb) as (m & -> & Hbm & Hvm).
  cbn [mbind outcome_bind]. apply (init_inv815 D (set_pkt m ctx)); simpl; auto.
Qed.

Lemma complete_inv815 D d ps ctx :
  inv815 D d ps ctx -> returns (rfc815ctx_complete ctx) (fun b => b = true <-> datagram_complete (frags_of ps)).
Proof.
  intros ((_ & hs & (_ & (_ & Hf & Hl) & Hg) & _ & Hi & _) & _). unfold rfc815ctx_complete. rewrite Hf, Hl.
  assert (hs = [] <-> datagram_complete (frags_of ps)) as Hc.
  { rewrite (holes_empty 0 hs (proj1 Hg)). setoid_rewrite Hi. split.
    - intros Hn i Hr. destruct (decide (covered (frags_of ps) i)); [done|]. by destruct (Hn i).
    - intros Hc i [Hr Hn]. by apply Hn, Hc. }
  destruct hs as [|h hs _] using rev_ind; [apply returns_ret; tauto|].
  assert (hd 65535 (hs ++ [h]) <= 65520 /\ lst 65535 (hs ++ [h]) <= 65520) as [H1 H2].
  { destruct Hg as [_ Ha]. rewrite lst_app. simpl. rewrite list.Forall_app, list.Forall_cons in Ha. destruct Ha as (Ha & [_ Hh] & _).
    split; [|done]. destruct hs as [|g hs]; [done|]. apply list.Forall_cons in Ha as [[_ ?] _]. done. }
  destruct (Z.eqb_spec (hd 65535 (hs ++ [h])) 65535); [lia|]. destruct (Z.eqb_spec (lst 65535 (hs ++ [h])) 65535); [lia|].
  apply returns_ret. rewrite <- Hc. split; [done|]. by destruct hs.
Qed.

(** The header and the direction the frame gets. *)
Definition with_direction (d : Z) (p : packet) : packet :=
  {| pkt_mem := pkt_mem p; pkt_data := pkt_data p; pkt_sz := pkt_sz p; pkt_direction := d |}.

Lemma reassemble_inv815 {A} `{AllocifLaws A} (loc loc' : A) blk D d ps p0 ctx :
  inv815 D d ps ctx -> Forall (carries815 D) ps -> List.find header_taken ps = Some p0 -> 20 <= p_hl p0 -> datagram_complete (frags_of ps) ->
  allocif_alloc loc (packet_size (14 + p_hl p0 + last_of (frags_of ps) + 1)) = (loc', Some blk) ->
  returns (rfc815ctx_reassemble loc ctx) (fun '(l, o) =>
    l = loc' /\ exists r, o = Some r /\ reassembled (with_direction d p0) (last_of (frags_of ps)) r /\
    forall i, 0 <= i <= last_of (frags_of ps) -> rd (pkt_mem r) (p_ip r + p_hl p0 + i) = D i).
Proof.
  intros ((Hmrl & hs & ((Hvp & Hbp) & _) & _ & _ & Hby) & (Hvh & Hbh & Hh) & Hd) Hps Hfi H20 Hc Ha. rewrite Hfi in Hh. destruct Hh as [Hl Hq].
  pose proof (last_of_range _ (proj1 (carries815_frags D ps Hps))) as Hr. set (mrl := last_of (frags_of ps)) in *.
  assert (mrl <> 65535) as Hne.
  { intros E. destruct (Hc 65535 ltac:(fold mrl; lia)) as (f & Hf & Hcov). pose proof (proj2 (carries815_frags D ps Hps)) as Hfit.
    rewrite list.Forall_forall in Hfit. specialize (Hfit f Hf). destruct f as [[a b] more]. simpl in *. lia. }
  assert (p_hl p0 <= 60) by (unfold p_hl; lia).
  destruct (alloc_block _ _ _ _ Ha) as [Hvb Hmb]. unfold packet_size, sizeof_packet in *.
  unfold rfc815ctx_reassemble, packet_size, sizeof_packet. rewrite Hl, Hmrl, Ha.
  unfold packet_calc_data, sizeof_packet, ether_payload. change (0 + 80) with 80. change (80 + 14) with 94.
  replace (14 + p_hl p0 - 14) with (p_hl p0) by lia.
  destruct (copy_header_ok blk (r_header ctx) 0 (p_hl p0) 0 0 (u16 (p_hl p0 + mrl + 1)))
    as (m1 & x1 & x2 & x3 & m2 & -> & E1 & E2 & E3 & E4 & [Hm2 Hv2 Hhl2 Hsame Htot Hfl Hfo Hck Hck1]);
    [done|done|solve_valid|solve_valid|rewrite Hq by lia; done|done|apply u16_range|lia|done|].
  cbn [mbind outcome_bind]. rewrite E1. cbn [mbind outcome_bind]. rewrite E2.
  cbn [mbind outcome_bind]. rewrite E3. cbn [mbind outcome_bind]. rewrite E4. cbn [mbind outcome_bind]. specialize (Hv2 _ _ Hvb).
  destruct (memcpy_from_ok m2 (80 + (14 + p_hl p0)) (r_pkt ctx) 0 (mrl + 1)) as (m3 & -> & Hc3); [done|lia|solve_valid|solve_valid|].
  cbn [mbind outcome_bind]. apply returns_ret. split; [done|]. eexists. split; [done|].
  assert (forall q, q < 94 + p_hl p0 -> rd m3 q = rd m2 q) as Hfr by (intros; apply (copied_rd_out Hc3); lia).
  assert (forall q n, valid m2 q n -> valid m3 q n) as Hv3 by (intros; eapply copied_valid; [exact Hc3|solve_valid|done]).
  assert (bytes_ok m3) as Hm3 by (by eapply copied_bytes_ok).
  split.
  - split; unfold p_tl, p_ip; cbn [pkt_mem pkt_data pkt_sz pkt_direction with_direction];
      try change (80 + 14) with 94; try done.
    + split; [done|]. split; [simpl; lia|]. apply Hv3. simpl. solve_valid.
    + intros q Hq' ??????. change (p_hl (with_direction d p0)) with (p_hl p0) in Hq'. rewrite Hfr by lia. rewrite Hsame by lia. by apply Hq.
    + rewrite (be16_frame m2) by (intros; apply Hfr; lia).
      change (94 + 2) with 96. rewrite Htot. apply u16_small, u16_range.
    + rewrite Hfr by lia. change (94 + 6) with 100. rewrite Hfl, Hq by lia.
      replace (pkt_data p0 + 14 + 6) with (pkt_data p0 + (0 + 20)) by lia. change (0 / 2048) with 0. cbn [negb Z.eqb b2z]. lia.
    + rewrite Hfr by lia. change (94 + 7) with 101. by rewrite Hfo.
    + change (p_hl (with_direction d p0)) with (p_hl p0). eapply (ip_hdr_verifies_update m2); [done|done|apply Hfr; lia|..|exact Hck];
        rewrite Hhl2; [solve_valid|apply Hv3; solve_valid|lia|].
      rewrite (bsum_frame m2 m3) by (intros; apply Hfr; lia). by rewrite Z.sub_diag.
    + by rewrite (be16_frame m2) by (intros; apply Hfr; lia).
  - intros i Hi. unfold p_ip. cbn [pkt_mem pkt_data]. change (80 + 14) with 94. rewrite (copied_in Hc3) by lia.
    replace (0 + _) with i by lia. apply Hby; [done|]. by apply Hc.
Qed.
End datagram.

(** C3: a context that keeps its hole list inside the buffer it fills: after
    [rfc815ctx_init] and any sequence of packets of a datagram [D] (in any
    order, duplicated, overlapping, past the end), where every fragment ends at
    byte 65519 or before and every fragment but a last one ends on a multiple of
    eight bytes, the loops end, every access
    is inside the buffer, the end of the datagram is the one the fragments
    claim, completion is reported exactly when every byte has arrived, and
    then [rfc815ctx_reassemble] yields the datagram with the header of the
    first packet taken and the direction the context has. *)
Theorem rfc815_reassembles `{Host} {A} `{AllocifLaws A} ctx D ps :
  valid (r_pkt ctx) 0 65535 -> bytes_ok (r_pkt ctx) -> valid (r_header ctx) 0 128 -> bytes_ok (r_header ctx) ->
  Forall (carries815 D) ps ->
  returns (c ← rfc815ctx_init ctx; rfc815_add_all c ps) (fun c =>
    r_mrl c = last_of (frags_of ps) /\
    returns (rfc815ctx_complete c) (fun b => b = true <-> datagram_complete (frags_of ps)) /\
    forall p0 (loc loc' : A) blk,
      List.find header_taken ps = Some p0 -> 20 <= p_hl p0 -> datagram_complete (frags_of ps) ->
      allocif_alloc loc (packet_size (14 + p_hl p0 + last_of (frags_of ps) + 1)) = (loc', Some blk) ->
      returns (rfc815ctx_reassemble loc c) (fun '(l, o) =>
        l = loc' /\ exists r, o = Some r /\ reassembled (with_direction (r_direction ctx) p0) (last_of (frags_of ps)) r /\
        forall i, 0 <= i <= last_of (frags_of ps) -> rd (pkt_mem r) (p_ip r + p_hl p0 + i) = D i)).
Proof.
  intros Hv Hb Hvh Hbh Hps.
  eapply returns_bind; [by apply (init_full815 D ctx)|]. intros c Hc.
  eapply returns_impl; [exact (add_all_inv815 D _ ps [] c (Forall_nil_2 _) Hps Hc)|]. simpl. intros c' Hc'.
  split; [by destruct Hc' as [[? _] _]|]. split; [by eapply complete_inv815|]. intros p0 loc loc' blk Hf H20 Hcomp Ha.
  by eapply (reassemble_inv815 loc loc' blk D _ ps p0 c').
Qed.

Definition carries815b (D : Z -> Z) (p : packet) : bool :=
  match frag_of p with
  | None => true
  | Some (a, b, more) =>
      (a mod 8 =? 0) && (b <=? 65519) && (negb more || ((b + 1) mod 8 =? 0)) && forallb (fun i => p_byte p i =? D i) (seqZ a (b - a + 1))
  end.
Lemma carries815_check D p :
  bytes_okb (pkt_mem p) && (0 <=? pkt_sz p) && validb (pkt_mem p) (pkt_data p) (pkt_sz p) = true -> carries815b D p = true -> carries815 D p.
Proof.
  intros Hp Hc. split; [by apply packet_ok_check|]. intros [[a b] more] E. unfold carries815b in Hc. rewrite E in Hc.
  rewrite !andb_true_iff, orb_true_iff, negb_true_iff, !Z.eqb_eq, Z.leb_le, forallb_forall in Hc. destruct Hc as (((H1 & H2) & H3) & H4).
  split; [split; [done|split; [done|intros ->; by destruct H3]]|]. intros i Hi. apply Z.eqb_eq, H4, list_elem_of_In, elem_of_seqZ. simpl in Hi. lia.
Qed.
Lemma complete_check fs :
  forallb (fun i => bool_decide (covered fs i)) (seqZ 0 (last_of fs + 1)) = true -> datagram_complete fs.
Proof. rewrite forallb_forall. intros Hc i Hi. apply (bool_decide_unpack _). apply Is_true_true, Hc, list_elem_of_In, elem_of_seqZ. lia. Qed.

Definition sample_815ctx : rfc815ctx := Ctx815 9 9 9 9 1 (mem_fun 128 (fun _ => 0)) (mem_fun 65535 (fun _ => 7)).

Lemma rfc815_reassembles_witness :
  returns (c ← rfc815ctx_init (H := little_endian_host) sample_815ctx; rfc815_add_all (H := little_endian_host) c sample_frags) (fun c =>
    r_mrl c = 20 /\ rfc815ctx_complete c = Ret true /\
    returns (rfc815ctx_reassemble (H := little_endian_host) 1000 c) (fun '(l, o) => l = 865 /\ exists r, o = Some r /\ pkt_direction r = 1 /\
      forall i, 0 <= i <= 20 -> rd (pkt_mem r) (p_ip r + 20 + i) = sample_data i)).
Proof.
  assert (last_of (frags_of sample_frags) = 20) as El by (vm_compute; reflexivity).
  assert (datagram_complete (frags_of sample_frags)) as Hcomp by (apply complete_check; vm_compute; reflexivity).
  eapply returns_impl; [apply (@rfc815_reassembles little_endian_host Z _ _ sample_815ctx sample_data sample_frags)|].
  - apply mem_fun_valid.
  - apply mem_fun_bytes_ok. lia.
  - apply mem_fun_valid.
  - apply mem_fun_bytes_ok. lia.
  - do 3 (apply Forall_cons; [apply carries815_check; vm_compute; reflexivity|]). apply Forall_nil.
  - rewrite El. intros c (Hm & (b & Hb & Hiff) & Hre). split; [exact Hm|]. split; [rewrite Hb; f_equal; apply Hiff, Hcomp|].
    eapply returns_impl; [eapply (Hre (sample_frag 16 5 false sample_data) 1000 865)|].
    + vm_compute. reflexivity.
    + vm_compute. discriminate.
    + exact Hcomp.
    + reflexivity.
    + intros [l o] (Hl & r & Ho & Hr & Hd). split; [exact Hl|]. exists r. split; [exact Ho|]. split; [apply (re_direction _ _ _ Hr)|exact Hd].
Defined.
