(* ===== verification/Combo.v ===== *)
(** The two-stage reassembler of ipfrag/combo.h and ipfrag/combo.c: packets are
    kept in the hole list context of [Reass] until there are too many of them;
    then they are fed into an [rfc815ctx] and freed. *)
From S2P Require Import Prelude Bytes IpHdr IpCksum Packet Reass Rfc815 Rfc815List Rfc815Add Rfc815Spec.

(** [struct comboctx]; the union is read as the member that was written last. *)
Inductive combo_union := URfc (c : rfc815ctx) | UReass (c : reassctx) | UNull.
Record comboctx := Combo { rfc_active : bool; packet_count : Z; combo_u : combo_union }.

Definition u_rfc (ctx : comboctx) : outcome rfc815ctx :=
  match combo_u ctx with URfc c => Ret c | _ => Undef end.
Definition u_reass (ctx : comboctx) : outcome reassctx :=
  match combo_u ctx with UReass c => Ret c | _ => Undef end.

Section combo.
Context `{Host}.

Definition comboctx_init : comboctx := Combo false 0 (UReass reassctx_init).

Definition comboctx_complete (ctx : comboctx) : outcome bool :=
  if rfc_active ctx then c ← u_rfc ctx; rfc815ctx_complete c
  else c ← u_reass ctx; Ret (reassctx_complete c).

(** The loop over the packets kept. *)
Fixpoint feed_packets (newctx : rfc815ctx) (l : list packet) : outcome rfc815ctx :=
  match l with
  | [] => Ret newctx
  | pkt :: l => newctx ← rfc815ctx_add newctx pkt; feed_packets newctx l
  end.

Section alloc.
Context {A : Type} `{Allocif A}.

Definition comboctx_free (loc : A) (ctx : comboctx) : outcome (A * comboctx) :=
  if rfc_active ctx then Ret (loc, Combo (rfc_active ctx) (packet_count ctx) UNull)
  else
    c ← u_reass ctx;
    let '(loc, c) := reassctx_free loc c in
    Ret (loc, Combo (rfc_active ctx) (packet_count ctx) (UReass c)).

(** [new] is what [malloc] returns: a block with some contents, or [NULL]. *)
Definition comboctx_promote (loc : A) (ctx : comboctx) (new : option rfc815ctx) : outcome (A * comboctx) :=
  if rfc_active ctx then Ret (loc, ctx) else
  match new with
  | None => Ret (loc, ctx)
  | Some newctx =>
      newctx ← rfc815ctx_init newctx;
      c ← u_reass ctx;
      newctx ← feed_packets newctx (packet_list c);
      let '(loc, _) := reassctx_free loc c in
      Ret (loc, Combo true (packet_count ctx) (URfc newctx))
  end.

Definition comboctx_add (loc : A) (ctx : comboctx) (pkt : packet) (new : option rfc815ctx) : outcome (A * comboctx) :=
  r ← (if negb (rfc_active ctx) && (packet_count ctx >? 65535 / 1514) then comboctx_promote loc ctx new
       else Ret (loc, ctx));
  let '(loc, ctx) := r in
  if packet_count ctx =? 2147483647 then Undef else
  let ctx := Combo (rfc_active ctx) (packet_count ctx + 1) (combo_u ctx) in
  if rfc_active ctx then
    c ← u_rfc ctx;
    c ← rfc815ctx_add c pkt;
    Ret (allocif_free loc (pkt_mem pkt), Combo (rfc_active ctx) (packet_count ctx) (URfc c))
  else
    c ← u_reass ctx;
    c ← reassctx_add c pkt;
    Ret (loc, Combo (rfc_active ctx) (packet_count ctx) (UReass c)).

Definition comboctx_reassemble (loc : A) (ctx : comboctx) : outcome (A * option packet) :=
  if rfc_active ctx then c ← u_rfc ctx; rfc815ctx_reassemble loc c
  else c ← u_reass ctx; reassctx_reassemble loc c.

(** Packets, each with what [malloc] would return if the context had to be
    promoted before it. *)
Fixpoint combo_add_all (loc : A) (ctx : comboctx) (l : list (packet * option rfc815ctx)) : outcome (A * comboctx) :=
  match l with
  | [] => Ret (loc, ctx)
  | (pkt, new) :: l => '(loc, ctx) ← comboctx_add loc ctx pkt new; combo_add_all loc ctx l
  end.

(** ** The context stands for the packets seen *)

Definition new_ok (new : option rfc815ctx) : Prop :=
  match new with
  | None => True
  | Some n => valid (r_pkt n) 0 65535 /\ bytes_ok (r_pkt n) /\ valid (r_header n) 0 128 /\ bytes_ok (r_header n)
  end.
Definition freed (loc : A) (ps : list packet) : A := foldl (fun loc p => allocif_free loc (pkt_mem p)) loc ps.

(** [malloc] answers one of the packets after the first 44. *)
Definition granted_one (new : option rfc815ctx) : bool := match new with Some _ => true | None => false end.
Definition promotes (l : list (packet * option rfc815ctx)) : bool := existsb (fun x => granted_one x.2) (drop 44 l).
Lemma promotes_snoc l p new : promotes (l ++ [(p, new)]) = promotes l || ((44 <=? length l)%nat && granted_one new).
Proof.
  unfold promotes. destruct (Nat.leb_spec 44 (length l)) as [Hle|Hgt].
  - rewrite drop_app_le by lia. rewrite existsb_app. simpl. by rewrite orb_false_r.
  - rewrite (drop_ge (l ++ _)), (drop_ge l) by (rewrite ?length_app; simpl; lia). done.
Qed.

Definition combo_inv (D : Z -> Z) (loc0 : A) (l : list (packet * option rfc815ctx)) (s : A * comboctx) : Prop :=
  let '(loc, ctx) := s in
  packet_count ctx = Z.of_nat (length l) /\ rfc_active ctx = promotes l /\
  if promotes l then loc = freed loc0 l.*1 /\ exists c d, combo_u ctx = URfc c /\ inv815 D d l.*1 c
  else loc = loc0 /\ exists c, combo_u ctx = UReass c /\ reassctx_inv l.*1 c.

Lemma feed_packets_all c l : feed_packets c l = rfc815_add_all c l.
Proof. revert c. induction l as [|p l IH]; intros c; simpl; [done|]. destruct (rfc815ctx_add c p); simpl; auto. Qed.

(** Before the packet is added. *)
Lemma promote_inv D loc0 l loc ctx new : Forall (carries815 D) l.*1 -> new_ok new -> combo_inv D loc0 l (loc, ctx) ->
  returns (if negb (rfc_active ctx) && (packet_count ctx >? 65535 / 1514) then comboctx_promote loc ctx new else Ret (loc, ctx)) (fun '(loc, ctx) =>
    packet_count ctx = Z.of_nat (length l) /\ rfc_active ctx = promotes l || ((44 <=? length l)%nat && granted_one new) /\
    if rfc_active ctx then loc = freed loc0 l.*1 /\ exists c d, combo_u ctx = URfc c /\ inv815 D d l.*1 c
    else loc = loc0 /\ exists c, combo_u ctx = UReass c /\ reassctx_inv l.*1 c).
Proof.
  intros Hps Hn (Hc & Ha & Hrest). change (65535 / 1514) with 43. rewrite Z.gtb_ltb, Ha, Hc. destruct (promotes l); cbn [negb andb orb].
  { apply returns_ret. rewrite Ha. done. }
  destruct Hrest as (-> & c & Hu & Hi). destruct (Z.ltb_spec 43 (Z.of_nat (length l))) as [H43|H43].
  2: { rewrite (proj2 (Nat.leb_gt 44 (length l))) by lia. apply returns_ret. rewrite Ha. split; [done|]. split; [done|]. split; [done|]. by exists c. }
  rewrite (proj2 (Nat.leb_le 44 (length l))) by lia. unfold comboctx_promote. rewrite Ha. destruct new as [n|]; simpl.
  2: { apply returns_ret. rewrite Ha. split; [done|]. split; [done|]. split; [done|]. by exists c. }
  destruct Hn as (N1 & N2 & N3 & N4).
  eapply returns_bind; [by apply (init_full815 D n)|]. intros n1 Hn1. unfold u_reass. rewrite Hu. cbn [mbind outcome_bind].
  pose proof Hi as (Hpl & _). rewrite Hpl, feed_packets_all.
  eapply returns_bind; [exact (add_all_inv815 D _ l.*1 [] n1 (Forall_nil_2 _) Hps Hn1)|]. simpl. intros n2 Hn2. apply returns_ret.
  split; [done|]. split; [done|]. split; [unfold freed; by rewrite <- Hpl|]. by exists n2, (r_direction n).
Qed.

Lemma combo_add_inv D loc0 l loc ctx p new :
  Forall (carries815 D) l.*1 -> carries815 D p -> new_ok new -> Z.of_nat (length l) < 2147483647 -> combo_inv D loc0 l (loc, ctx) ->
  returns (comboctx_add loc ctx p new) (combo_inv D loc0 (l ++ [(p, new)])).
Proof.
  intros Hps Hp Hn Hlen Hi. unfold comboctx_add. eapply returns_bind; [exact (promote_inv D loc0 l loc ctx new Hps Hn Hi)|].
  clear Hi loc ctx. intros [loc ctx] (Hc & Ha & Hcase). rewrite Hc.
  destruct (Z.eqb_spec (Z.of_nat (length l)) 2147483647); [lia|].
  assert (Z.of_nat (length l) + 1 = Z.of_nat (length (l ++ [(p, new)]))) as E by (rewrite length_app; simpl; lia). rewrite E.
  cbn [rfc_active combo_u packet_count]. unfold combo_inv. rewrite promotes_snoc, fmap_app. cbn [fmap list_fmap fst]. rewrite <- Ha.
  destruct (rfc_active ctx); unfold u_rfc, u_reass; cbn [combo_u].
  - destruct Hcase as (-> & c & d & Hu & Hr). rewrite Hu. cbn [mbind outcome_bind].
    eapply returns_bind; [exact (add_inv815 D d l.*1 c p Hps Hp Hr)|]. intros c' Hc'. apply returns_ret. split; [done|]. split; [done|].
    split; [unfold freed; by rewrite foldl_app|]. by exists c', d.
  - destruct Hcase as (-> & c & Hu & Hr). rewrite Hu. cbn [mbind outcome_bind].
    eapply returns_bind; [apply reassctx_add_inv; [exact Hr|apply Hp]|]. intros c' Hc'. apply returns_ret. split; [done|]. split; [done|].
    split; [done|]. by exists c'.
Qed.

Lemma combo_all_inv D loc0 l : forall l0 loc ctx,
  Forall (carries815 D) l0.*1 -> Forall (carries815 D) l.*1 -> Forall new_ok l.*2 ->
  Z.of_nat (length l0 + length l) <= 2147483647 -> combo_inv D loc0 l0 (loc, ctx) ->
  returns (combo_add_all loc ctx l) (combo_inv D loc0 (l0 ++ l)).
Proof.
  induction l as [|[p new] l IH]; intros l0 loc ctx Hps Hl Hn Hlen Hi; [rewrite app_nil_r; by apply returns_ret|].
  rewrite !fmap_cons in *. cbn [fst snd length combo_add_all] in *. apply list.Forall_cons in Hl as [Hp Hl], Hn as [Hnew Hn].
  eapply returns_bind; [apply (combo_add_inv D loc0 l0); try done; lia|]. intros [loc' ctx'] Hi'.
  replace (l0 ++ (p, new) :: l) with ((l0 ++ [(p, new)]) ++ l) by (by rewrite <- (assoc_L (++))).
  apply IH; try done; [|rewrite length_app; simpl; lia]. rewrite fmap_app. apply list.Forall_app. split; [done|]. by constructor.
Qed.

Lemma combo_complete_ok D loc0 l loc ctx :
  combo_inv D loc0 l (loc, ctx) -> returns (comboctx_complete ctx) (fun b => b = true <-> datagram_complete (frags_of l.*1)).
Proof.
  intros (_ & Ha & Hcase). unfold comboctx_complete, u_rfc, u_reass. rewrite Ha. destruct (promotes l).
  - destruct Hcase as (_ & c & d & Hu & Hr). rewrite Hu. cbn [mbind outcome_bind]. by eapply complete_inv815.
  - destruct Hcase as (_ & c & Hu & Hr). rewrite Hu. cbn [mbind outcome_bind]. apply returns_ret. by apply reassctx_complete_spec.
Qed.
(** Freeing the context gives back what it still holds. *)
Lemma combo_free_ok D loc0 l loc ctx : combo_inv D loc0 l (loc, ctx) ->
  exists ctx', comboctx_free loc ctx = Ret (freed loc0 l.*1, ctx') /\ forall c, combo_u ctx' = UReass c -> packet_list c = [].
Proof.
  intros (_ & Ha & Hcase). unfold comboctx_free, u_reass. rewrite Ha. destruct (promotes l).
  - destruct Hcase as (-> & _). by eexists.
  - destruct Hcase as (-> & c & Hu & (Hpl & _)). rewrite Hu. cbn [mbind outcome_bind]. unfold reassctx_free. rewrite Hpl. eexists. split; [done|]. simpl. by intros ? [= <-].
Qed.

(** A fragment that starts inside a datagram that ends at [mrl]. *)
Definition inside (mrl : Z) (p : packet) : Prop := is_Some (frag_of p) /\ p_off p <= mrl.

Lemma inside_mergeable D mrl p : carries815 D p -> inside mrl p -> mergeable mrl p /\ carries D p.
Proof.
  intros [Hok Hc] [[f Hf] Hoff]. destruct (Hc f Hf) as [_ HD]. apply frag_of_inv in Hf as (H1 & H2 & H3 & ->). split.
  - split; [done|]. split; [done|]. split; [lia|]. split; [done|]. by left.
  - intros i Hi. apply HD. simpl. lia.
Qed.
End alloc.
End combo.

(** C4: the combined context behaves as one reassembler whenever it changes
    over.  Feed it with packets of a datagram [D], each with what [malloc] would
    answer; a fragment does not end after byte 65519, and one that is not the
    last ends on a multiple of eight bytes.  Then completion is reported exactly
    when every byte has arrived.  The context changes over when [malloc] first
    answers after 44 packets: it has then freed every packet, each once and in
    order, and until then it has all of them; freeing the context gives back
    those it has.  Once the datagram is complete and if all fragments start
    inside it, the frame handed out has the header of the first packet and the
    bytes of [D]. *)
Theorem combo_reassembles `{Host} {A} `{AllocifLaws A} D (loc : A) (l : list (packet * option rfc815ctx)) :
  Forall (carries815 D) l.*1 -> Forall new_ok l.*2 -> Z.of_nat (length l) <= 2147483647 ->
  let ps := l.*1 in
  let last := last_of (frags_of ps) in
  returns (combo_add_all loc comboctx_init l) (fun '(loc1, ctx) =>
    returns (comboctx_complete ctx) (fun b => b = true <-> datagram_complete (frags_of ps)) /\
    (if promotes l then loc1 = freed loc ps /\ exists c, combo_u ctx = URfc c
     else loc1 = loc /\ exists c, combo_u ctx = UReass c /\ packet_list c = ps) /\
    (exists ctx', comboctx_free loc1 ctx = Ret (freed loc ps, ctx') /\ forall c, combo_u ctx' = UReass c -> packet_list c = []) /\
    forall p0 rest (loc2 loc3 : A) blk,
      ps = p0 :: rest -> Forall (inside last) ps -> 20 <= p_hl p0 -> datagram_complete (frags_of ps) ->
      allocif_alloc loc2 (packet_size (14 + p_hl p0 + last + 1)) = (loc3, Some blk) ->
      returns (comboctx_reassemble loc2 ctx) (fun '(l', o) =>
        l' = loc3 /\ exists r d, o = Some r /\ reassembled (with_direction d p0) last r /\
        forall i, 0 <= i <= last -> rd (pkt_mem r) (p_ip r + p_hl p0 + i) = D i)).
Proof.
  intros Hl Hn Hlen ps last.
  eapply returns_impl; [apply (combo_all_inv D loc l [] loc comboctx_init); try done|].
  { split; [done|]. split; [done|]. split; [done|]. exists reassctx_init. split; [done|]. apply reassctx_init_inv. }
  simpl. intros [loc1 ctx] Hi. split; [by eapply combo_complete_ok|]. split.
  { destruct Hi as (_ & _ & Hi). destruct (promotes l); [destruct Hi as (-> & c & d & ? & _); eauto|]. destruct Hi as (-> & c & ? & (? & _)). eauto. }
  split; [by eapply combo_free_ok|]. fold ps in Hl |- *.
  intros p0 rest loc2 loc3 blk Hps Hin H20 Hc Hal. destruct Hi as (_ & Ha & Hi). fold ps in Hi. unfold comboctx_reassemble, u_rfc, u_reass. rewrite Ha.
  destruct (promotes l); [destruct Hi as (-> & c & d & Hu & Hr)|destruct Hi as (-> & c & Hu & Hr)]; rewrite Hu; cbn [mbind outcome_bind].
  - assert (List.find header_taken ps = Some p0) as Hf.
    { rewrite Hps in Hin |- *. apply list.Forall_cons in Hin as [[[f Hf] _] _]. simpl.
      destruct (header_taken p0) eqn:E; [done|]. rewrite header_refused in Hf by done. done. }
    eapply returns_impl; [by eapply (reassemble_inv815 loc2 loc3 blk D d ps p0 c)|].
    intros [l' o] (-> & r & -> & Hre & Hby). split; [done|]. by exists r, d.
  - assert (Forall (mergeable last) ps /\ Forall (carries D) ps) as [Hm Hca].
    { rewrite !list.Forall_forall in *. split; intros p Hp; apply (inside_mergeable D last p); auto. }
    destruct Hr as (Hpl & Hlast & Hrange & _). unfold reassctx_reassemble.
    rewrite Hpl, Hlast. fold last. rewrite Hps in Hm, Hca |- *.
    eapply returns_impl; [eapply (reassemble_packets_ok u32 loc2 loc3 blk p0 rest last); try done; intros x Hx; apply u32_small; lia|].
    intros [l' o] (-> & r & -> & Hre & Hby). split; [done|]. exists r, (pkt_direction p0). split; [done|]. split; [by destruct p0|].
    intros i Hi. destruct (covered_merged (p0 :: rest) i) as [b Hb]; [rewrite <- Hps; by apply Hc|].
    rewrite (Hby i b Hi Hb). by eapply merged_carries.
Qed.

Lemma carries815_all D ps :
  forallb (fun p => bytes_okb (pkt_mem p) && (0 <=? pkt_sz p) && validb (pkt_mem p) (pkt_data p) (pkt_sz p) && carries815b D p) ps = true ->
  Forall (carries815 D) ps.
Proof.
  rewrite forallb_forall. intros Hc. apply list.Forall_forall. intros p Hp%list_elem_of_In. specialize (Hc p Hp).
  apply andb_true_iff in Hc as [? ?]. by apply carries815_check.
Qed.
Lemma inside_all mrl ps :
  forallb (fun p => match frag_of p with Some _ => p_off p <=? mrl | None => false end) ps = true -> Forall (inside mrl) ps.
Proof.
  rewrite forallb_forall. intros Hc. apply list.Forall_forall. intros p Hp%list_elem_of_In. specialize (Hc p Hp).
  unfold inside. destruct (frag_of p); [|done]. split; [eauto|lia].
Qed.

(** Forty-eight packets, so that the context is promoted. *)
Definition many_frags : list packet := mjoin (replicate 16 sample_frags).

Lemma combo_reassembles_witness :
  returns (combo_add_all (H := little_endian_host) 1000 comboctx_init ((fun p => (p, Some sample_815ctx)) <$> many_frags)) (fun '(loc1, ctx) =>
    comboctx_complete ctx = Ret true /\
    returns (comboctx_reassemble (H := little_endian_host) 1000 ctx) (fun '(l', o) => l' = 865 /\ exists r, o = Some r /\
      forall i, 0 <= i <= 20 -> rd (pkt_mem r) (p_ip r + 20 + i) = sample_data i)).
Proof.
  assert (((fun p => (p, Some sample_815ctx)) <$> many_frags).*1 = many_frags) as E1 by (rewrite <- list_fmap_compose; apply list_fmap_id).
  assert (last_of (frags_of many_frags) = 20) as El by (vm_compute; reflexivity).
  assert (datagram_complete (frags_of many_frags)) as Hcomp by (apply complete_check; vm_compute; reflexivity).
  eapply returns_impl; [apply (@combo_reassembles little_endian_host Z _ _ sample_data 1000 ((fun p => (p, Some sample_815ctx)) <$> many_frags))|].
  - rewrite E1. apply carries815_all. vm_compute. reflexivity.
  - rewrite <- list_fmap_compose. apply Forall_fmap, list.Forall_forall. intros p _. unfold compose. simpl.
    split; [apply mem_fun_valid|]. split; [apply mem_fun_bytes_ok; lia|]. split; [apply mem_fun_valid|apply mem_fun_bytes_ok; lia].
  - rewrite length_fmap. vm_compute. discriminate.
  - rewrite E1. intros [loc1 ctx] ((b & Hb & Hiff) & _ & _ & Hre). split; [rewrite Hb; f_equal; apply Hiff, Hcomp|].
    eapply returns_impl; [eapply (Hre (sample_frag 16 5 false sample_data) (tail many_frags) 1000 865)|].
    + reflexivity.
    + rewrite El. apply inside_all. vm_compute. reflexivity.
    + vm_compute. discriminate.
    + exact Hcomp.
    + rewrite El. reflexivity.
    + rewrite El. intros [l' o] (Hl & r & d & Ho & Hr & Hd). split; [exact Hl|]. exists r. split; [exact Ho|exact Hd].
Defined.
