(* ===== verification/Hashes.v ===== *)
(** The keyed hash, the unkeyed hash and the stream cipher of misc/: SipHash-2-4
    of misc/siphash.h, the Murmur variant of misc/murmur.h, ChaCha20 of
    misc/chacha.h and misc/chacha.c. *)
From S2P Require Import Prelude Bytes.

(** ** misc/siphash.h *)

Record siphash_ctx := Sip { v0 : Z; v1 : Z; v2 : Z; v3 : Z; inlen : Z; sip_b : Z }.

Definition ROTL (x b : Z) : Z := Z.lor (u64 (Z.shiftl x b)) (Z.shiftr x (64 - b)).

(** The body of the three round loops, in the order of the code. *)
Definition sip_round (c : siphash_ctx) : siphash_ctx :=
  let '(Sip v0 v1 v2 v3 n b) := c in
  let v0 := u64 (v0 + v1) in
  let v1 := ROTL v1 13 in
  let v1 := Z.lxor v1 v0 in
  let v0 := ROTL v0 32 in
  let v2 := u64 (v2 + v3) in
  let v3 := ROTL v3 16 in
  let v3 := Z.lxor v3 v2 in
  let v0 := u64 (v0 + v3) in
  let v3 := ROTL v3 21 in
  let v3 := Z.lxor v3 v0 in
  let v2 := u64 (v2 + v1) in
  let v1 := ROTL v1 17 in
  let v1 := Z.lxor v1 v2 in
  let v2 := ROTL v2 32 in
  Sip v0 v1 v2 v3 n b.
Definition cROUNDS : nat := 2.
Definition dROUNDS : nat := 4.

Section siphash.
Context `{Host}.

Definition siphash_init (m : mem) (k : Z) : outcome siphash_ctx :=
  k0 ← hdr_get64h m k;
  k1 ← hdr_get64h m (k + 8);
  Ret (Sip (Z.lxor 0x736f6d6570736575 k0) (Z.lxor 0x646f72616e646f6d k1)
           (Z.lxor 0x6c7967656e657261 k0) (Z.lxor 0x7465646279746573 k1) 0 0).

Definition siphash_feed_u64 (c : siphash_ctx) (x : Z) : siphash_ctx :=
  let c := Sip (v0 c) (v1 c) (v2 c) (Z.lxor (v3 c) x) (inlen c) (sip_b c) in
  let c := Nat.iter cROUNDS sip_round c in
  Sip (Z.lxor (v0 c) x) (v1 c) (v2 c) (v3 c) (u64 (inlen c + 8)) (sip_b c).

Definition siphash_get (c : siphash_ctx) : Z :=
  let b := Z.lor (sip_b c) (u64 (Z.shiftl (inlen c) 56)) in
  let c := Sip (v0 c) (v1 c) (v2 c) (Z.lxor (v3 c) b) (inlen c) b in
  let c := Nat.iter cROUNDS sip_round c in
  let c := Sip (Z.lxor (v0 c) b) (v1 c) (Z.lxor (v2 c) 0xff) (v3 c) (inlen c) b in
  let c := Nat.iter dROUNDS sip_round c in
  Z.lxor (Z.lxor (Z.lxor (v0 c) (v1 c)) (v2 c)) (v3 c).

Definition siphash64 (m : mem) (key val64 : Z) : outcome Z :=
  c ← siphash_init m key;
  Ret (siphash_get (siphash_feed_u64 c val64)).

(** The switch on the number of remaining bytes: the cases fall through from
    the highest byte to the lowest. *)
Fixpoint remaining_bytes (m : mem) (p : Z) (n : nat) (b : Z) : outcome Z :=
  match n with
  | O => Ret b
  | S n => x ← load8 m (p + Z.of_nat n); remaining_bytes m p n (Z.lor b (Z.shiftl x (8 * Z.of_nat n)))
  end.

Definition siphash_feed_remaining (m : mem) (c : siphash_ctx) (buf remaining : Z) : outcome siphash_ctx :=
  if remaining >=? 8 then Abort else
  if negb (sip_b c =? 0) then Abort else
  b ← remaining_bytes m buf (Z.to_nat remaining) 0;
  Ret (Sip (v0 c) (v1 c) (v2 c) (v3 c) (u64 (inlen c + remaining)) b).

(** The loop over whole words. *)
Definition feed_words_step (m : mem) (s : siphash_ctx * Z * Z) : outcome (siphash_ctx * Z * Z + siphash_ctx * Z * Z) :=
  let '(c, cbuf, buflen) := s in
  if buflen >=? 8 then
    x ← hdr_get64h m cbuf;
    Ret (inl (siphash_feed_u64 c x, cbuf + 8, buflen - 8))
  else Ret (inr (c, cbuf, buflen)).
Definition feed_words_fuel (buflen : Z) : nat := S (Z.to_nat (buflen / 8)).

Definition siphash_feed_buf (m : mem) (c : siphash_ctx) (buf buflen : Z) : outcome siphash_ctx :=
  r ← iter (feed_words_fuel buflen) (feed_words_step m) (c, buf, buflen);
  let '(c, cbuf, buflen) := r in
  b ← remaining_bytes m cbuf (Z.to_nat buflen) 0;
  Ret (siphash_feed_u64 c b).

(** The key and the buffer are in blocks of their own. *)
Definition siphash_buf (mkey : mem) (key : Z) (m : mem) (buf buflen : Z) : outcome Z :=
  c ← siphash_init mkey key;
  r ← iter (feed_words_fuel buflen) (feed_words_step m) (c, buf, buflen);
  let '(c, cbuf, buflen) := r in
  c ← siphash_feed_remaining m c cbuf buflen;
  Ret (siphash_get c).
End siphash.

(** ** misc/murmur.h *)

Record murmurctx := Murmur { mur_hash : Z; mur_len : Z }.
Definition MURMURCTX_INITER (seed : Z) : murmurctx := Murmur seed 0.

Definition murmurctx_feed32 (ctx : murmurctx) (val : Z) : murmurctx :=
  let k := u32 (val * 0xcc9e2d51) in
  let k := Z.lor (u32 (Z.shiftl k 15)) (Z.shiftr k 17) in
  let k := u32 (k * 0x1b873593) in
  let hash := Z.lxor (mur_hash ctx) k in
  let hash := Z.lor (u32 (Z.shiftl hash 13)) (Z.shiftr hash 19) in
  let hash := u32 (hash * 5 + 0xe6546b64) in
  Murmur hash (u32 (mur_len ctx + 4)).

Definition murmurctx_get (ctx : murmurctx) : Z :=
  let hash := Z.lxor (mur_hash ctx) (mur_len ctx) in
  let hash := Z.lxor hash (Z.shiftr hash 16) in
  let hash := u32 (hash * 0x85ebca6b) in
  let hash := Z.lxor hash (Z.shiftr hash 13) in
  let hash := u32 (hash * 0xc2b2ae35) in
  Z.lxor hash (Z.shiftr hash 16).

Definition murmur32 (seed val : Z) : Z := murmurctx_get (murmurctx_feed32 (MURMURCTX_INITER seed) val).

Section murmur.
Context `{Host}.

Definition murmur_words_step (m : mem) (buf sz : Z) (s : murmurctx * Z) : outcome (murmurctx * Z + murmurctx * Z) :=
  let '(ctx, i) := s in
  if i <? sz / 4 * 4 then
    x ← hdr_get32h m (buf + i);
    Ret (inl (murmurctx_feed32 ctx x, i + 4))
  else Ret (inr (ctx, i)).
(** [hdr_get8h] is converted from [uint8_t] to [uint32_t]. *)
Definition murmur_bytes_step (m : mem) (buf sz : Z) (s : murmurctx * Z) : outcome (murmurctx * Z + murmurctx) :=
  let '(ctx, i) := s in
  if i <? sz then
    x ← hdr_get8h m (buf + i);
    Ret (inl (murmurctx_feed32 ctx x, i + 1))
  else Ret (inr ctx).

Definition murmurctx_feed_buf (m : mem) (ctx : murmurctx) (buf sz : Z) : outcome murmurctx :=
  r ← iter (S (Z.to_nat (sz / 4))) (murmur_words_step m buf sz) (ctx, 0);
  iter 4 (murmur_bytes_step m buf sz) r.

Definition murmur_buf (m : mem) (seed buf sz : Z) : outcome Z :=
  ctx ← murmurctx_feed_buf m (MURMURCTX_INITER seed) buf sz;
  Ret (murmurctx_get ctx).
End murmur.

(** ** misc/chacha.h and misc/chacha.c *)

Definition EIO : Z := 5.

Definition rotl32 (x i : Z) : Z := Z.lor (u32 (Z.shiftl x i)) (Z.shiftr x (32 - i)).

(** [state[i]], inside its bounds. *)
Definition st_get (s : list Z) (i : nat) : outcome Z := of_option (s !! i).
Definition st_set (s : list Z) (i : nat) (v : Z) : outcome (list Z) :=
  _ ← of_option (s !! i); Ret (<[i := v]> s).

Definition quarterround (s : list Z) (ai bi ci di : nat) : outcome (list Z) :=
  a ← st_get s ai; b ← st_get s bi; c ← st_get s ci; d ← st_get s di;
  let a := u32 (a + b) in let d := Z.lxor d a in let d := rotl32 d 16 in
  let c := u32 (c + d) in let b := Z.lxor b c in let b := rotl32 b 12 in
  let a := u32 (a + b) in let d := Z.lxor d a in let d := rotl32 d 8 in
  let c := u32 (c + d) in let b := Z.lxor b c in let b := rotl32 b 7 in
  s ← st_set s ai a; s ← st_set s bi b; s ← st_set s ci c; st_set s di d.

Definition innerblock (s : list Z) : outcome (list Z) :=
  s ← quarterround s 0 4 8 12;
  s ← quarterround s 1 5 9 13;
  s ← quarterround s 2 6 10 14;
  s ← quarterround s 3 7 11 15;
  s ← quarterround s 0 5 10 15;
  s ← quarterround s 1 6 11 12;
  s ← quarterround s 2 7 8 13;
  quarterround s 3 4 9 14.

Fixpoint innerblocks (n : nat) (s : list Z) : outcome (list Z) :=
  match n with O => Ret s | S n => s ← innerblock s; innerblocks n s end.

Section chacha.
Context `{Host}.

(** [byteswap32(hdr_get32n(p))] for the words at [p], [p + 4], ... *)
Fixpoint get_words (m : mem) (p : Z) (n : nat) : outcome (list Z) :=
  match n with
  | O => Ret []
  | S n => x ← hdr_get32n m p; l ← get_words m (p + 4) n; Ret (byteswap32 x :: l)
  end.
(** The loop that stores the words. *)
Fixpoint set_words (m : mem) (p : Z) (l : list Z) : outcome mem :=
  match l with
  | [] => Ret m
  | x :: l => m ← hdr_set32n m p (byteswap32 x); set_words m (p + 4) l
  end.

Definition chacha20_block (mkey : mem) (key counter : Z) (mnonce : mem) (nonce : Z) (m : mem) (out : Z) : outcome mem :=
  k ← get_words mkey key 8;
  n ← get_words mnonce nonce 3;
  let state := [0x61707865; 0x3320646e; 0x79622d32; 0x6b206574] ++ k ++ [counter] ++ n in
  w ← innerblocks 10 state;
  set_words m out (zip_with (fun a b => u32 (a + b)) state w).

(** [struct chacha20_ctx]. *)
Record chacha20_ctx := Chacha { cc_key : mem; cc_nonce : mem; cc_counter : Z }.
Definition chacha20_init (ctx : chacha20_ctx) (mkey : mem) (key : Z) (mnonce : mem) (nonce : Z) : outcome chacha20_ctx :=
  k ← memcpy_from (cc_key ctx) 0 mkey key 32;
  n ← memcpy_from (cc_nonce ctx) 0 mnonce nonce 12;
  Ret (Chacha k n 0).
Definition chacha20_init_deterministic (ctx : chacha20_ctx) : outcome chacha20_ctx :=
  let key := mem_of 0 (seqZ 0 32) in
  let nonce := mem_of 0 [0x00; 0x00; 0x00; 0x09; 0x00; 0x00; 0x00; 0x4a; 0x00; 0x00; 0x00; 0x00] in
  k ← memcpy_from (cc_key ctx) 0 key 0 32;
  n ← memcpy_from (cc_nonce ctx) 0 nonce 0 12;
  Ret (Chacha k n 0).
(** [file] is what [fopen] returns: the results of the two [fread]s, [None]
    where one does not read its item. *)
Definition chacha20_init_devrandom (ctx : chacha20_ctx) (file : option (option mem * option mem)) : outcome (Z * chacha20_ctx) :=
  match file with
  | None | Some (None, _) | Some (_, None) => Ret (- EIO, ctx)
  | Some (Some key, Some nonce) =>
      k ← memcpy_from (cc_key ctx) 0 key 0 32;
      n ← memcpy_from (cc_nonce ctx) 0 nonce 0 12;
      Ret (0, Chacha k n 0)
  end.
Definition chacha20_next_block (ctx : chacha20_ctx) (m : mem) (out : Z) : outcome (chacha20_ctx * mem) :=
  m ← chacha20_block (cc_key ctx) 0 (cc_counter ctx) (cc_nonce ctx) 0 m out;
  Ret (Chacha (cc_key ctx) (cc_nonce ctx) (u32 (cc_counter ctx + 1)), m).
End chacha.
