(* ===== verification/SipSpec.v ===== *)
(** SipHash-2-4 as its authors define it, on a list of bytes, and the functions
    of misc/siphash.h against it. *)
From S2P Require Import Prelude Bytes Hashes.

(** ** The reference *)

Definition rotl64 (x b : Z) : Z := (x * 2 ^ b + x / 2 ^ (64 - b)) mod 2 ^ 64.
Definition add64 (x y : Z) : Z := (x + y) mod 2 ^ 64.

Definition sip_state : Type := Z * Z * Z * Z.
(** SipRound: two additions, rotations and exclusive ors side by side, twice. *)
Definition SipRound (s : sip_state) : sip_state :=
  let '(a, b, c, d) := s in
  let a := add64 a b in let c := add64 c d in
  let b := rotl64 b 13 in let d := rotl64 d 16 in
  let b := Z.lxor b a in let d := Z.lxor d c in
  let a := rotl64 a 32 in
  let c := add64 c b in let a := add64 a d in
  let b := rotl64 b 17 in let d := rotl64 d 21 in
  let b := Z.lxor b c in let d := Z.lxor d a in
  let c := rotl64 c 32 in
  (a, b, c, d).
Definition sip_compress (s : sip_state) (x : Z) : sip_state :=
  let '(a, b, c, d) := s in
  let '(a, b, c, d) := Nat.iter 2 SipRound (a, b, c, Z.lxor d x) in
  (Z.lxor a x, b, c, d).
Definition sip_start (k0 k1 : Z) : sip_state :=
  (Z.lxor k0 0x736f6d6570736575, Z.lxor k1 0x646f72616e646f6d, Z.lxor k0 0x6c7967656e657261, Z.lxor k1 0x7465646279746573).
Definition sip_finish (s : sip_state) : Z :=
  let '(a, b, c, d) := s in
  let '(a, b, c, d) := Nat.iter 4 SipRound (a, b, Z.lxor c 0xff, d) in
  Z.lxor (Z.lxor (Z.lxor a b) c) d.

Definition le_decode (bs : list Z) : Z := be_decode (reverse bs).
(** The first [n] words of eight bytes. *)
Fixpoint words (n : nat) (bs : list Z) : list Z :=
  match n with O => [] | S n => le_decode (take 8 bs) :: words n (drop 8 bs) end.
Definition nwords (bs : list Z) : nat := length bs / 8.
Definition rest (bs : list Z) : list Z := drop (8 * nwords bs) bs.
(** The message: whole words, then the remaining bytes with the length in the
    highest byte. *)
Definition sip_message (bs : list Z) : list Z :=
  words (nwords bs) bs ++ [le_decode (rest bs) + Z.of_nat (length bs) mod 256 * 2 ^ 56].
Definition siphash24 (k0 k1 : Z) (bs : list Z) : Z :=
  sip_finish (foldl sip_compress (sip_start k0 k1) (sip_message bs)).

(** ** Words of 64 bits *)

Definition w64 (x : Z) : Prop := 0 <= x < 2 ^ 64.
#[local] Hint Unfold w64 : core.

Lemma below_pow2 x n : 0 <= n -> 0 <= x -> (forall i, n <= i -> Z.testbit x i = false) -> x < 2 ^ n.
Proof.
  intros Hn Hx Hb. destruct (decide (x < 2 ^ n)) as [|Hge]; [done|]. assert (0 < x) by (pose proof (Z.pow_pos_nonneg 2 n); lia).
  assert (n <= Z.log2 x) as Hl by (apply Z.log2_le_pow2; lia). pose proof (Z.bit_log2 x ltac:(lia)) as E. rewrite Hb in E by done. done.
Qed.
Lemma w64_bits x i : w64 x -> 64 <= i -> Z.testbit x i = false.
Proof.
  intros Hx Hi. rewrite <- (Z.mod_small x (2 ^ 64)) by done. apply Z.mod_pow2_bits_high. lia.
Qed.
Lemma w64_lxor x y : w64 x -> w64 y -> w64 (Z.lxor x y).
Proof.
  intros Hx Hy. assert (0 <= Z.lxor x y) by (apply Z.lxor_nonneg; unfold w64 in *; lia). split; [done|]. apply below_pow2; [lia|done|].
  intros i Hi. rewrite Z.lxor_spec, !w64_bits by (done || lia). done.
Qed.
Lemma w64_u64 x : w64 (u64 x).
Proof. apply u64_range. Qed.
Lemma w64_rotl x b : w64 (rotl64 x b).
Proof. unfold w64, rotl64. apply Z.mod_pos_bound. lia. Qed.
Lemma ROTL_rotl64 x b : w64 x -> 0 < b < 64 -> ROTL x b = rotl64 x b.
Proof.
  intros Hx Hb. unfold ROTL, rotl64. rewrite Z.shiftr_div_pow2, Z.shiftl_mul_pow2 by lia.
  assert (2 ^ 64 = 2 ^ b * 2 ^ (64 - b)) as E by (rewrite <- Z.pow_add_r by lia; f_equal; lia).
  assert (0 < 2 ^ b) by (apply Z.pow_pos_nonneg; lia). assert (0 < 2 ^ (64 - b)) by (apply Z.pow_pos_nonneg; lia).
  assert (u64 (x * 2 ^ b) = x mod 2 ^ (64 - b) * 2 ^ b) as Eu.
  { unfold u64. change 18446744073709551616 with (2 ^ 64). rewrite E, Z.mul_comm, Zmult_mod_distr_l. lia. }
  assert (0 <= x / 2 ^ (64 - b) < 2 ^ b) as Hq.
  { split; [apply Z.div_pos; unfold w64 in *; lia|]. apply Z.div_lt_upper_bound; [lia|]. unfold w64 in Hx. lia. }
  rewrite Eu, <- (Z.shiftl_mul_pow2 _ b) by lia. rewrite lor_shift_add by lia.
  pose proof (Z.mod_pos_bound x (2 ^ (64 - b)) ltac:(lia)).
  assert (x * 2 ^ b = x mod 2 ^ (64 - b) * 2 ^ b + x / 2 ^ (64 - b) * 2 ^ 64) as Ex.
  { rewrite E. pose proof (Z.div_mod x (2 ^ (64 - b)) ltac:(lia)). nia. }
  rewrite Ex. replace (_ + _ + _) with (x mod 2 ^ (64 - b) * 2 ^ b + x / 2 ^ (64 - b) + x / 2 ^ (64 - b) * 2 ^ 64) by lia.
  rewrite Z_mod_plus_full. symmetry. apply Z.mod_small. nia.
Qed.

Lemma w64_ROTL x b : w64 x -> 0 < b < 64 -> w64 (ROTL x b).
Proof. intros. rewrite ROTL_rotl64 by done. apply w64_rotl. Qed.

(** ** The rounds *)

Definition proj (c : siphash_ctx) : sip_state := (v0 c, v1 c, v2 c, v3 c).
Definition sip_ok (c : siphash_ctx) : Prop := w64 (v0 c) /\ w64 (v1 c) /\ w64 (v2 c) /\ w64 (v3 c).

Ltac solve_w64 := repeat first [assumption | apply w64_lxor | apply w64_u64 | apply w64_rotl | apply w64_ROTL; [|lia]].

Ltac solve_sip_ok := split; [|split; [|split]]; cbn [v0 v1 v2 v3]; solve_w64.

Lemma sip_round_ok c :
  sip_ok c -> proj (sip_round c) = SipRound (proj c) /\ sip_ok (sip_round c) /\
  inlen (sip_round c) = inlen c /\ sip_b (sip_round c) = sip_b c.
Proof.
  destruct c as [a b c d n x]. intros (Ha & Hb & Hc & Hd). unfold proj, sip_round, SipRound, sip_ok, add64. cbn [v0 v1 v2 v3 inlen sip_b] in *.
  rewrite !ROTL_rotl64 by (lia || solve_w64). split; [reflexivity|]. split; [|by split].
  solve_sip_ok.
Qed.
Lemma sip_rounds_ok k c :
  sip_ok c -> proj (Nat.iter k sip_round c) = Nat.iter k SipRound (proj c) /\ sip_ok (Nat.iter k sip_round c) /\
  inlen (Nat.iter k sip_round c) = inlen c /\ sip_b (Nat.iter k sip_round c) = sip_b c.
Proof.
  intros Hc. induction k as [|k IH]; [done|]. cbn [Nat.iter nat_rect]. destruct IH as (I1 & I2 & I3 & I4).
  destruct (sip_round_ok _ I2) as (R1 & R2 & R3 & R4). unfold Nat.iter in *. rewrite R1, R3, R4, I1, I3, I4. done.
Qed.

#[local] Opaque sip_round SipRound Nat.iter.

Lemma feed_u64_ok c x :
  sip_ok c -> w64 x ->
  proj (siphash_feed_u64 c x) = sip_compress (proj c) x /\ sip_ok (siphash_feed_u64 c x) /\
  inlen (siphash_feed_u64 c x) = u64 (inlen c + 8) /\ sip_b (siphash_feed_u64 c x) = sip_b c.
Proof.
  intros (Ha & Hb & Hc & Hd) Hx. unfold siphash_feed_u64, cROUNDS, sip_compress, proj at 2.
  set (c1 := Sip (v0 c) (v1 c) (v2 c) (Z.lxor (v3 c) x) (inlen c) (sip_b c)). assert (sip_ok c1) as H1 by solve_sip_ok.
  destruct (sip_rounds_ok 2 c1 H1) as (R1 & (S1 & S2 & S3 & S4) & R3 & R4).
  change (proj c1) with (v0 c, v1 c, v2 c, Z.lxor (v3 c) x) in R1.
  set (c2 := Nat.iter 2 sip_round c1) in *. clearbody c2. rewrite <- R1. unfold proj. cbn [v0 v1 v2 v3 inlen sip_b]. rewrite R3, R4.
  split; [done|]. split; [|done]. solve_sip_ok.
Qed.

Lemma last_word b n : 0 <= b < 2 ^ 56 -> Z.lor b (u64 (Z.shiftl n 56)) = b + n mod 256 * 2 ^ 56 /\ w64 (b + n mod 256 * 2 ^ 56).
Proof.
  intros Hb. assert (0 <= n mod 256 < 256) as Hn by (apply Z.mod_pos_bound; lia).
  assert (u64 (Z.shiftl n 56) = n mod 256 * 2 ^ 56) as ->.
  { rewrite Z.shiftl_mul_pow2 by lia. unfold u64. apply (Zmult_mod_distr_r n 256 (2 ^ 56)). }
  rewrite <- Z.shiftl_mul_pow2, Z.lor_comm, lor_shift_add, Z.shiftl_mul_pow2 by lia. unfold w64. lia.
Qed.
Lemma finish_ok c : sip_ok c ->
  let c' := Nat.iter 4 sip_round c in
  Z.lxor (Z.lxor (Z.lxor (v0 c') (v1 c')) (v2 c')) (v3 c') =
  (let '(a, b, c, d) := Nat.iter 4 SipRound (proj c) in Z.lxor (Z.lxor (Z.lxor a b) c) d).
Proof. intros Hc c'. destruct (sip_rounds_ok 4 c Hc) as (R & _). rewrite <- R. done. Qed.

Lemma siphash_get_ok c :
  sip_ok c -> 0 <= sip_b c < 2 ^ 56 ->
  siphash_get c = sip_finish (sip_compress (proj c) (sip_b c + inlen c mod 256 * 2 ^ 56)).
Proof.
  intros (Ha & Hb & Hc & Hd) Hx. destruct (last_word (sip_b c) (inlen c) Hx) as [E Hw].
  unfold siphash_get. rewrite E. clear E Hx. set (b := sip_b c + inlen c mod 256 * 2 ^ 56) in *. clearbody b.
  destruct (sip_rounds_ok cROUNDS (Sip (v0 c) (v1 c) (v2 c) (Z.lxor (v3 c) b) (inlen c) b)) as (R1 & (S1 & S2 & S3 & S4) & _); [solve_sip_ok|].
  unfold sip_compress, proj at 1. unfold proj in R1 at 2. cbn [v0 v1 v2 v3] in R1. unfold cROUNDS in R1 at 2. rewrite <- R1. clear R1.
  revert S1 S2 S3 S4. generalize (Nat.iter cROUNDS sip_round (Sip (v0 c) (v1 c) (v2 c) (Z.lxor (v3 c) b) (inlen c) b)). intros c2 S1 S2 S3 S4.
  pose proof (finish_ok (Sip (Z.lxor (v0 c2) b) (v1 c2) (Z.lxor (v2 c2) 255) (v3 c2) (inlen c2) b)) as F.
  unfold dROUNDS, sip_finish, proj. cbv beta iota. unfold proj in F. cbv zeta in F. cbn [v0 v1 v2 v3] in F. apply F. solve_sip_ok. unfold w64. lia.
Qed.

(** ** Reading the buffer *)

Definition byte_list (bs : list Z) : Prop := Forall (fun b => 0 <= b < 256) bs.

Lemma be_decode_cons b bs : be_decode (b :: bs) = b * 256 ^ Z.of_nat (length bs) + be_decode bs.
Proof.
  unfold be_decode. cbn [foldl]. change (0 * 256 + b) with b. generalize b. clear b.
  assert (forall l a, foldl (fun a b : Z => a * 256 + b) a l = a * 256 ^ Z.of_nat (length l) + foldl (fun a b : Z => a * 256 + b) 0 l) as Hf.
  { induction l as [|x l IH]; intros a; cbn [foldl length]; [lia|]. rewrite IH, (IH (0 * 256 + x)). rewrite Nat2Z.inj_succ, Z.pow_succ_r by lia. ring. }
  intros b. apply Hf.
Qed.
Lemma le_decode_snoc bs b : le_decode (bs ++ [b]) = b * 256 ^ Z.of_nat (length bs) + le_decode bs.
Proof. unfold le_decode. rewrite reverse_snoc, be_decode_cons, length_reverse. done. Qed.
Lemma le_decode_range bs : byte_list bs -> 0 <= le_decode bs < 256 ^ Z.of_nat (length bs).
Proof.
  induction bs as [|b bs IH] using rev_ind; intros Hb; [done|]. apply list.Forall_app in Hb as [Hbs Hb]. apply list.Forall_cons in Hb as [Hb _].
  specialize (IH Hbs). rewrite le_decode_snoc, length_app. cbn [length]. rewrite Nat.add_1_r, Nat2Z.inj_succ, Z.pow_succ_r by lia. nia.
Qed.

Lemma remaining_bytes_ok m p bs b :
  bytes_at m p bs -> byte_list bs -> remaining_bytes m p (length bs) b = Ret (Z.lor b (le_decode bs)).
Proof.
  revert b. induction bs as [|x bs IH] using rev_ind; intros b Hm Hb; [simpl; change (le_decode []) with 0; by rewrite Z.lor_0_r|].
  apply bytes_at_app in Hm as [Hm Hx]. apply list.Forall_app in Hb as [Hbs Hxb].
  rewrite length_app. cbn [length]. rewrite Nat.add_1_r. cbn [remaining_bytes]. apply bytes_at_cons in Hx as [Hx _]. unfold load8. rewrite Hx.
  cbn [of_option mbind outcome_bind]. rewrite IH by done. f_equal. rewrite <- Z.lor_assoc. f_equal. rewrite le_decode_snoc.
  pose proof (le_decode_range bs Hbs) as Hr. change 256 with (2 ^ 8) in Hr |- *. rewrite <- Z.pow_mul_r in Hr |- * by lia.
  rewrite lor_shift_add by lia. done.
Qed.

Section buffers.
Local Existing Instance little_endian_host.

Lemma get64_ok m p bs : bytes_at m p bs -> length bs = 8%nat -> hdr_get64h m p = Ret (le_decode bs).
Proof. intros Hb Hl. unfold hdr_get64h. rewrite <- Hl, (loadn_bytes_at _ _ _ Hb). done. Qed.

Lemma feed_words_ok m (n : nat) : forall bs c p fuel,
  bytes_at m p bs -> byte_list bs -> nwords bs = n -> (n < fuel)%nat -> sip_ok c -> w64 (inlen c) ->
  exists c', iter fuel (feed_words_step m) (c, p, Z.of_nat (length bs)) =
      Ret (c', p + 8 * Z.of_nat n, Z.of_nat (length (rest bs))) /\
    proj c' = foldl sip_compress (proj c) (words n bs) /\ sip_ok c' /\
    inlen c' = u64 (inlen c + 8 * Z.of_nat n) /\ sip_b c' = sip_b c.
Proof.
  induction n as [|n IH]; intros bs c p [|fuel] Hm Hb Hn Hf Hc Hi; try lia; pose proof Hn as Hn'; unfold nwords in Hn'.
  - assert (length bs < 8)%nat as Hl by (apply Nat.div_small_iff in Hn'; lia). exists c.
    rewrite (iter_inr _ _ _ (c, p, Z.of_nat (length bs))) by (unfold feed_words_step; destruct (Z.geb_spec (Z.of_nat (length bs)) 8); [lia|done]).
    unfold rest. rewrite Hn. cbn [Nat.mul drop]. rewrite Z.mul_0_r, !Z.add_0_r. split; [done|]. split; [done|]. split; [done|].
    split; [symmetry; by apply u64_small|done].
  - assert (8 <= length bs)%nat as Hl by (pose proof (Nat.div_mod_eq (length bs) 8); lia).
    rewrite <- (take_drop 8 bs) in Hm. apply bytes_at_app in Hm as [Hm1 Hm2]. rewrite length_take_le in Hm2 by done.
    rewrite <- (take_drop 8 bs) in Hb. apply list.Forall_app in Hb as [Hb1 Hb2].
    pose proof (le_decode_range _ Hb1) as Hr. rewrite length_take_le in Hr by done. change (256 ^ Z.of_nat 8) with (2 ^ 64) in Hr.
    destruct (feed_u64_ok c (le_decode (take 8 bs)) Hc Hr) as (F1 & F2 & F3 & F4).
    assert (nwords (drop 8 bs) = n) as Hn2.
    { unfold nwords. rewrite length_drop. replace (length bs) with (length bs - 8 + 1 * 8)%nat in Hn' by lia. rewrite Nat.div_add in Hn' by lia. lia. }
    destruct (IH (drop 8 bs) (siphash_feed_u64 c (le_decode (take 8 bs))) (p + 8) fuel) as (c' & E & P1 & P2 & P3 & P4);
      [done|done|done|lia|done|rewrite F3; apply w64_u64|].
    exists c'. rewrite (iter_inl _ _ _ (siphash_feed_u64 c (le_decode (take 8 bs)), p + 8, Z.of_nat (length (drop 8 bs)))).
    2:{ unfold feed_words_step. destruct (Z.geb_spec (Z.of_nat (length bs)) 8); [|lia].
        rewrite (get64_ok m p (take 8 bs)) by (done || by apply length_take_le). cbn [mbind outcome_bind]. do 3 f_equal. rewrite length_drop. lia. }
    rewrite E. split.
    { do 2 f_equal; [f_equal; lia|]. unfold rest. rewrite Hn, Hn2, drop_drop. do 2 f_equal. f_equal. lia. }
    split; [cbn [words foldl]; by rewrite P1, F1|]. split; [done|]. split; [|congruence].
    rewrite P3, F3. unfold u64. rewrite Zplus_mod_idemp_l. f_equal. lia.
Qed.

Lemma init_ok mkey key kb :
  bytes_at mkey key kb -> length kb = 16%nat -> byte_list kb ->
  exists c, siphash_init mkey key = Ret c /\ sip_ok c /\ proj c = sip_start (le_decode (take 8 kb)) (le_decode (drop 8 kb)) /\ inlen c = 0 /\ sip_b c = 0.
Proof.
  intros Hm Hl Hb. rewrite <- (take_drop 8 kb) in Hm, Hb. apply bytes_at_app in Hm as [H1 H2]. apply list.Forall_app in Hb as [B1 B2].
  assert (length (take 8 kb) = 8%nat) as L1 by (apply length_take_le; lia). assert (length (drop 8 kb) = 8%nat) as L2 by (rewrite length_drop; lia).
  rewrite L1 in H2. apply le_decode_range in B1, B2. rewrite L1 in B1. rewrite L2 in B2. change (256 ^ Z.of_nat 8) with (2 ^ 64) in B1, B2.
  unfold siphash_init. rewrite (get64_ok mkey key (take 8 kb)) by done. cbn [mbind outcome_bind].
  rewrite (get64_ok mkey (key + 8) (drop 8 kb)) by done. cbn [mbind outcome_bind]. eexists. split; [done|].
  split; [solve_sip_ok; unfold w64; lia|]. split; [|done]. unfold proj, sip_start. cbn [v0 v1 v2 v3].
  by rewrite !(Z.lxor_comm (le_decode _)).
Qed.
Lemma rest_length bs : length (rest bs) = (length bs mod 8)%nat /\ (length bs = 8 * nwords bs + length (rest bs))%nat /\ (length (rest bs) < 8)%nat.
Proof.
  unfold rest, nwords. rewrite length_drop. pose proof (Nat.div_mod_eq (length bs) 8). pose proof (Nat.mod_upper_bound (length bs) 8). lia.
Qed.
Lemma rest_bytes m p bs : bytes_at m p bs -> byte_list bs -> bytes_at m (p + 8 * Z.of_nat (nwords bs)) (rest bs) /\ byte_list (rest bs).
Proof.
  intros Hm Hb. destruct (rest_length bs) as (_ & Hl & _). rewrite <- (take_drop (8 * nwords bs) bs) in Hm, Hb.
  apply bytes_at_app in Hm as [_ Hm]. apply list.Forall_app in Hb as [_ Hb]. rewrite length_take_le in Hm by lia. split; [|done].
  by replace (8 * Z.of_nat (nwords bs)) with (Z.of_nat (8 * nwords bs)) by lia.
Qed.

Lemma le_decode_zeros bs k : le_decode (bs ++ replicate k 0) = le_decode bs.
Proof.
  induction k as [|k IH]; [by rewrite app_nil_r|]. replace (S k) with (k + 1)%nat by lia. rewrite replicate_add, (assoc_L (++)).
  cbn [replicate]. rewrite le_decode_snoc, IH. lia.
Qed.
Lemma words_padded n : forall bs k,
  nwords bs = n -> (length (rest bs) + k = 8)%nat -> words (S n) (bs ++ replicate k 0) = words n bs ++ [le_decode (rest bs)].
Proof.
  induction n as [|n IH]; intros bs k Hn Hk.
  - destruct (rest_length bs) as (_ & Hl & Hlt). assert (rest bs = bs) as Er by (unfold rest; by rewrite Hn). rewrite Er in *.
    cbn [words app]. rewrite take_ge by (rewrite length_app, length_replicate; lia). by rewrite le_decode_zeros.
  - destruct (rest_length bs) as (_ & Hl & Hlt). rewrite Hn in Hl.
    assert (nwords (drop 8 bs) = n) as Hn2.
    { unfold nwords in *. rewrite length_drop. replace (length bs) with (length bs - 8 + 1 * 8)%nat in Hn by lia. rewrite Nat.div_add in Hn by lia. lia. }
    assert (rest (drop 8 bs) = rest bs) as Er. { unfold rest. rewrite Hn, Hn2, drop_drop. f_equal. lia. }
    change (words (S (S n)) (bs ++ replicate k 0)) with (le_decode (take 8 (bs ++ replicate k 0)) :: words (S n) (drop 8 (bs ++ replicate k 0))).
    rewrite take_app_le, drop_app_le by lia. rewrite (IH (drop 8 bs) k) by (done || by rewrite Er). rewrite Er. done.
Qed.
Lemma words_exact n : forall bs, (length bs = 8 * n)%nat -> nwords bs = n /\ rest bs = [].
Proof.
  intros bs Hl. assert (nwords bs = n) as Hn by (unfold nwords; rewrite Hl, Nat.mul_comm; by apply Nat.div_mul). split; [done|].
  unfold rest. rewrite Hn. apply drop_ge. lia.
Qed.

Lemma words_fuel bs : (nwords bs < feed_words_fuel (Z.of_nat (length bs)))%nat.
Proof.
  unfold feed_words_fuel, nwords. change 8 with (Z.of_nat 8). rewrite <- Nat2Z.inj_div, Nat2Z.id. lia.
Qed.

Lemma mod256_u64 x : u64 x mod 256 = x mod 256.
Proof. unfold u64. lia. Qed.

Lemma mod256_sum a b c : a + b = c -> u64 (u64 (0 + a) + b) mod 256 = c mod 256.
Proof. intros <-. rewrite mod256_u64, <- Zplus_mod_idemp_l, mod256_u64, Zplus_mod_idemp_l. done. Qed.

Lemma siphash_buf_ok mkey key kb m buf bs :
  bytes_at mkey key kb -> length kb = 16%nat -> byte_list kb -> bytes_at m buf bs -> byte_list bs ->
  siphash_buf mkey key m buf (Z.of_nat (length bs)) = Ret (siphash24 (le_decode (take 8 kb)) (le_decode (drop 8 kb)) bs).
Proof.
  intros Hk Hkl Hkb Hm Hb. unfold siphash_buf. destruct (init_ok mkey key kb Hk Hkl Hkb) as (c & -> & Hc & Hp & Hi & Hsb). cbn [mbind outcome_bind].
  destruct (feed_words_ok m (nwords bs) bs c buf (feed_words_fuel (Z.of_nat (length bs)))) as (c' & -> & P1 & P2 & P3 & P4);
    [done|done|done|apply words_fuel|done|rewrite Hi; unfold w64; lia|]. cbn [mbind outcome_bind].
  destruct (rest_length bs) as (_ & Hl & Hlt). destruct (rest_bytes m buf bs Hm Hb) as [Hrm Hrb]. unfold siphash_feed_remaining.
  destruct (Z.geb_spec (Z.of_nat (length (rest bs))) 8); [lia|]. rewrite P4, Hsb. cbn [Z.eqb negb]. rewrite Nat2Z.id, remaining_bytes_ok by done.
  cbn [mbind outcome_bind]. rewrite Z.lor_0_l. f_equal. pose proof (le_decode_range _ Hrb) as Hr.
  assert (le_decode (rest bs) < 2 ^ 56) as H56.
  { eapply Z.lt_le_trans; [apply Hr|]. change (2 ^ 56) with (256 ^ 7). apply Z.pow_le_mono_r; lia. }
  rewrite siphash_get_ok by (done || (simpl; lia)). cbn [sip_b inlen]. unfold siphash24, sip_message. rewrite foldl_app. cbn [foldl].
  change (proj (Sip (v0 c') (v1 c') (v2 c') (v3 c') (u64 (inlen c' + Z.of_nat (length (rest bs)))) (le_decode (rest bs)))) with (proj c').
  rewrite P1, Hp. do 3 f_equal. rewrite P3, Hi. f_equal. apply mod256_sum. lia.
Qed.

Lemma siphash64_ok mkey key kb v :
  bytes_at mkey key kb -> length kb = 16%nat -> byte_list kb -> w64 v ->
  siphash64 mkey key v = Ret (siphash24 (le_decode (take 8 kb)) (le_decode (drop 8 kb)) (le_encode 8 v)).
Proof.
  intros Hk Hkl Hkb Hv. unfold siphash64. destruct (init_ok mkey key kb Hk Hkl Hkb) as (c & -> & Hc & Hp & Hi & Hsb). cbn [mbind outcome_bind]. f_equal.
  destruct (feed_u64_ok c v Hc Hv) as (F1 & F2 & F3 & F4). rewrite siphash_get_ok by (done || (rewrite F4, Hsb; lia)). rewrite F1, F3, F4, Hi, Hsb, Hp.
  unfold siphash24, sip_message. assert (le_decode (le_encode 8 v) = v) as Ev.
  { unfold le_decode, be_decode. cbn. unfold w64 in Hv. lia. }
  change (nwords (le_encode 8 v)) with 1%nat. change (rest (le_encode 8 v)) with (@nil Z). cbn [words]. change (take 8 (le_encode 8 v)) with (le_encode 8 v).
  rewrite Ev. done.
Qed.

Lemma siphash_feed_buf_ok mkey key kb m buf bs :
  bytes_at mkey key kb -> length kb = 16%nat -> byte_list kb -> bytes_at m buf bs -> byte_list bs ->
  (c ← siphash_init mkey key; c ← siphash_feed_buf m c buf (Z.of_nat (length bs)); Ret (siphash_get c)) =
    Ret (siphash24 (le_decode (take 8 kb)) (le_decode (drop 8 kb)) (bs ++ replicate (8 - length bs mod 8) 0)).
Proof.
  intros Hk Hkl Hkb Hm Hb. unfold siphash_feed_buf. destruct (init_ok mkey key kb Hk Hkl Hkb) as (c & -> & Hc & Hp & Hi & Hsb). cbn [mbind outcome_bind].
  destruct (feed_words_ok m (nwords bs) bs c buf (feed_words_fuel (Z.of_nat (length bs)))) as (c' & -> & P1 & P2 & P3 & P4);
    [done|done|done|apply words_fuel|done|rewrite Hi; unfold w64; lia|]. cbn [mbind outcome_bind].
  destruct (rest_length bs) as (Hr8 & Hl & Hlt). destruct (rest_bytes m buf bs Hm Hb) as [Hrm Hrb]. rewrite Nat2Z.id, remaining_bytes_ok by done.
  cbn [mbind outcome_bind]. rewrite Z.lor_0_l. f_equal. pose proof (le_decode_range _ Hrb) as Hr.
  assert (w64 (le_decode (rest bs))) as Hw.
  { split; [lia|]. eapply Z.lt_le_trans; [apply Hr|]. change (2 ^ 64) with (256 ^ 8). apply Z.pow_le_mono_r; lia. }
  destruct (feed_u64_ok c' _ P2 Hw) as (F1 & F2 & F3 & F4). rewrite siphash_get_ok by (done || (rewrite F4, P4, Hsb; lia)).
  rewrite F1, F3, F4, P1, P3, P4, Hi, Hsb, Hp, <- Hr8. unfold siphash24, sip_message.
  set (k := (8 - length (rest bs))%nat). assert (length (bs ++ replicate k 0) = (8 * S (nwords bs))%nat) as Lp by (rewrite length_app, length_replicate; lia).
  destruct (words_exact _ _ Lp) as [-> ->]. rewrite (words_padded (nwords bs) bs k) by (done || lia). rewrite !foldl_app. cbn [foldl].
  do 2 f_equal. change (le_decode []) with 0. rewrite Lp. do 2 f_equal. apply mod256_sum. lia.
Qed.
End buffers.

(** C7: on a little-endian host [siphash_buf] is SipHash-2-4 of the bytes of the
    buffer, for every length and every key, and [siphash64] is SipHash-2-4 of
    the eight bytes of the value.  Feeding a buffer to a context is not: it is
    SipHash-2-4 of the buffer with one to eight zero bytes behind it, whether or
    not the length is a multiple of eight. *)
Theorem siphash_is_siphash24 mkey key kb m buf bs :
  bytes_at mkey key kb -> length kb = 16%nat -> byte_list kb -> bytes_at m buf bs -> byte_list bs ->
  let k0 := le_decode (take 8 kb) in
  let k1 := le_decode (drop 8 kb) in
  siphash_buf (H := little_endian_host) mkey key m buf (Z.of_nat (length bs)) = Ret (siphash24 k0 k1 bs) /\
  (forall v, 0 <= v < 2 ^ 64 -> siphash64 (H := little_endian_host) mkey key v = Ret (siphash24 k0 k1 (le_encode 8 v))) /\
  (c ← siphash_init (H := little_endian_host) mkey key; c ← siphash_feed_buf (H := little_endian_host) m c buf (Z.of_nat (length bs)); Ret (siphash_get c)) =
    Ret (siphash24 k0 k1 (bs ++ replicate (8 - length bs mod 8) 0)).
Proof.
  intros Hk Hkl Hkb Hm Hb k0 k1. split; [by apply siphash_buf_ok|]. split; [|by apply siphash_feed_buf_ok].
  intros v Hv. by apply siphash64_ok.
Qed.

(** The first vector of the SipHash paper: the key 0 .. 15 and the message
    0 .. 14. *)
Lemma siphash_is_siphash24_witness :
  let key := mem_fun 16 (fun i => i) in
  let msg := mem_fun 15 (fun i => i) in
  siphash_buf (H := little_endian_host) key 0 msg 0 15 = Ret 0xa129ca6149be45e5 /\
  siphash64 (H := little_endian_host) key 0 5 = Ret (siphash24 0x0706050403020100 0x0f0e0d0c0b0a0908 [5; 0; 0; 0; 0; 0; 0; 0]).
Proof.
  assert (forall n, bytes_at (mem_fun n (fun i => i)) 0 (seqZ 0 n)) as Hat.
  { intros n i b Hi. apply lookup_seqZ in Hi as [-> Hlt]. apply mem_fun_lookup. lia. }
  assert (forall n, 0 <= n <= 256 -> byte_list (seqZ 0 n)) as Hbytes.
  { intros n Hn. apply list.Forall_forall. intros b Hb%elem_of_seqZ. lia. }
  destruct (siphash_is_siphash24 (mem_fun 16 (fun i => i)) 0 (seqZ 0 16) (mem_fun 15 (fun i => i)) 0 (seqZ 0 15)) as (H1 & H2 & _);
    [apply Hat|reflexivity|apply Hbytes; lia|apply Hat|apply Hbytes; lia|].
  split.
  - etransitivity; [exact H1|]. vm_compute. reflexivity.
  - exact (H2 5 ltac:(lia)).
Defined.

(** The vectors of misc/murmurtest.c, misc/siphashtest.c and misc/chachatest.c. *)
Example murmur32_vector : murmur32 1 2 = 3684335244.
Proof. vm_compute. reflexivity. Qed.
Example siphash_vector :
  siphash_buf (H := little_endian_host) (mem_fun 16 (fun _ => 0)) 0 (mem_fun 16 (fun _ => 0)) 0 16 = Ret 0x32caecc280172976.
Proof. vm_compute. reflexivity. Qed.
Example chacha20_vector :
  (let blank n := mem_fun n (fun _ => 0) in
   c ← chacha20_init_deterministic (Chacha (blank 32) (blank 12) 7);
   '(c, _) ← chacha20_next_block (H := little_endian_host) c (blank 64) 0;
   '(_, m) ← chacha20_next_block (H := little_endian_host) c (blank 64) 0;
   loadn m 0 64) =
  Ret [0x10; 0xf1; 0xe7; 0xe4; 0xd1; 0x3b; 0x59; 0x15; 0x50; 0x0f; 0xdd; 0x1f; 0xa3; 0x20; 0x71; 0xc4;
       0xc7; 0xd1; 0xf4; 0xc7; 0x33; 0xc0; 0x68; 0x03; 0x04; 0x22; 0xaa; 0x9a; 0xc3; 0xd4; 0x6c; 0x4e;
       0xd2; 0x82; 0x64; 0x46; 0x07; 0x9f; 0xaa; 0x09; 0x14; 0xc2; 0xd7; 0x05; 0xd9; 0x8b; 0x02; 0xa2;
       0xb5; 0x12; 0x9c; 0xd1; 0xde; 0x16; 0x4e; 0xb9; 0xcb; 0xd0; 0x83; 0xe8; 0xa2; 0x50; 0x3c; 0x4e].
Proof. vm_compute. reflexivity. Qed.
