(* ===== verification/DataBuf.v ===== *)
(** Growing buffers: databuf/databuf.h, databuf/databuf.c, dynarr/dynarr.h and
    dynarr/dynarr.c. *)
From S2P Require Import Prelude Bytes Packet.

Definition ENOMEM : Z := 12.
Definition EFAULT : Z := 14.

(** [realloc] of a block: [fresh] is the new block [malloc] would give, with
    some contents, or none; what fits of the old block is copied into it. *)
Definition realloc (old : mem) (fresh : option mem) : option mem :=
  match fresh with
  | None => None
  | Some b => Some (map_imap (fun p x => Some (default x (old !! p))) b)
  end.

(** ** databuf *)

Record datainbuf := InBuf { in_buf : mem; in_size : Z; in_location : Z; in_errors : Z }.
Record databuf := DataBuf { db_buf : mem; db_capacity : Z; db_size : Z; db_errors : Z }.

Definition datainbuf_init (buf : mem) (sz : Z) : datainbuf := InBuf buf sz 0 0.
(** [NULL] is the block without bytes. *)
Definition databuf_init : databuf := DataBuf ∅ 0 0 0.
Definition databuf_free (buf : databuf) : databuf := DataBuf ∅ 0 0 0.

(** What [malloc] gives for a size. *)
Definition heap_oracle : Type := Z -> option mem.

Definition databuf_extend (malloc : heap_oracle) (buf : databuf) (extend : Z) : Z * databuf :=
  let new_capacity := u64 (db_size buf + extend) in
  let new_capacity := if new_capacity <? u64 (db_capacity buf * 2) then u64 (db_capacity buf * 2) else new_capacity in
  match realloc (db_buf buf) (malloc new_capacity) with
  | None => (- ENOMEM, DataBuf (db_buf buf) (db_capacity buf) (db_size buf) 1)
  | Some new_buf => (0, DataBuf new_buf new_capacity (db_size buf) (db_errors buf))
  end.
Definition databuf_ensure_extend (malloc : heap_oracle) (buf : databuf) (extend : Z) : Z * databuf :=
  if u64 (db_size buf + extend) <=? db_capacity buf then (0, buf) else databuf_extend malloc buf extend.

Definition databuf_add_bytes (malloc : heap_oracle) (buf : databuf) (m : mem) (bytes sz : Z) : outcome (Z * databuf) :=
  let '(result, buf) := databuf_ensure_extend malloc buf sz in
  if negb (result =? 0) then Ret (result, buf) else
  b ← memcpy_from (db_buf buf) (db_size buf) m bytes sz;
  Ret (0, DataBuf b (db_capacity buf) (u64 (db_size buf + sz)) (db_errors buf)).

(** [buf->buf[buf->size++] = (char)((x >> s) & 0xFF)] for each shift. *)
Fixpoint put_shifts (buf : databuf) (x : Z) (shifts : list Z) : outcome databuf :=
  match shifts with
  | [] => Ret buf
  | s :: shifts =>
      b ← store8 (db_buf buf) (db_size buf) (Z.land (Z.shiftr x s) 0xFF);
      put_shifts (DataBuf b (db_capacity buf) (u64 (db_size buf + 1)) (db_errors buf)) x shifts
  end.
Definition databuf_add_u64 (malloc : heap_oracle) (buf : databuf) (x : Z) : outcome (Z * databuf) :=
  let '(result, buf) := databuf_ensure_extend malloc buf 8 in
  if negb (result =? 0) then Ret (result, buf) else
  buf ← put_shifts buf x [56; 48; 40; 32; 24; 16; 8; 0];
  Ret (0, buf).
Definition databuf_add_u32 (malloc : heap_oracle) (buf : databuf) (x : Z) : outcome (Z * databuf) :=
  let '(result, buf) := databuf_ensure_extend malloc buf 4 in
  if negb (result =? 0) then Ret (result, buf) else
  buf ← put_shifts buf x [24; 16; 8; 0];
  Ret (0, buf).

(** [x <<= 8; x |= (uint8_t)buf->buf[buf->location++]], [n] times. *)
Fixpoint get_shifts (wrap : Z -> Z) (buf : datainbuf) (x : Z) (n : nat) : outcome (Z * datainbuf) :=
  match n with
  | O => Ret (x, buf)
  | S n =>
      c ← load8 (in_buf buf) (in_location buf);
      get_shifts wrap (InBuf (in_buf buf) (in_size buf) (u64 (in_location buf + 1)) (in_errors buf)) (Z.lor (wrap (Z.shiftl x 8)) c) n
  end.
(** The results: the return value, what is stored through the pointer if
    anything is, the buffer. *)
Definition datainbuf_get (wrap : Z -> Z) (n : nat) (buf : datainbuf) : outcome (Z * option Z * datainbuf) :=
  if u64 (in_location buf + Z.of_nat n) >? in_size buf then Ret (- EFAULT, None, buf) else
  '(x, buf) ← get_shifts wrap buf 0 n;
  Ret (0, Some x, buf).
Definition datainbuf_get_u64 : datainbuf -> outcome (Z * option Z * datainbuf) := datainbuf_get u64 8.
Definition datainbuf_get_u32 : datainbuf -> outcome (Z * option Z * datainbuf) := datainbuf_get u32 4.
(** The local variable is a [uint32_t], its value fits 16 bits. *)
Definition datainbuf_get_u16 (buf : datainbuf) : outcome (Z * option Z * datainbuf) :=
  '(r, x, buf) ← datainbuf_get u32 2 buf; Ret (r, option_map u16 x, buf).
Definition datainbuf_get_u8 : datainbuf -> outcome (Z * option Z * datainbuf) := datainbuf_get u8 1.
Definition datainbuf_get_bytes (buf : datainbuf) (m : mem) (b sz : Z) : outcome (Z * mem * datainbuf) :=
  if u64 (in_location buf + sz) >? in_size buf then Ret (- EFAULT, m, buf) else
  m ← memcpy_from m b (in_buf buf) (in_location buf) sz;
  Ret (0, m, InBuf (in_buf buf) (in_size buf) (u64 (in_location buf + sz)) (in_errors buf)).
Definition datainbuf_eof (inbuf : datainbuf) : bool := in_size inbuf =? in_location inbuf.

(** ** dynarr *)

(** [DYNARR(x)]: the slots of the block, those not written yet are [None]. *)
Record dynarr (X : Type) := DynArr { da_ar : list (option X); da_capacity : Z; da_size : Z }.
Arguments DynArr {X}. Arguments da_ar {X}. Arguments da_capacity {X}. Arguments da_size {X}.

Section dynarr.
Context {X : Type}.

Definition DYNARR_INIT : dynarr X := DynArr [] 0 0.
Definition DYNARR_FREE (a : dynarr X) : dynarr X := DynArr [] 0 0.
Definition DYNARR_CLEAR (a : dynarr X) : dynarr X := DynArr (da_ar a) (da_capacity a) 0.
Definition DYNARR_SIZE (a : dynarr X) : Z := da_size a.
(** Outside the block, or before anything was stored, a read is undefined. *)
Definition DYNARR_GET (a : dynarr X) (i : Z) : outcome X :=
  if i <? 0 then Undef else of_option (mjoin (da_ar a !! Z.to_nat i)).
Definition DYNARR_SET (a : dynarr X) (i : Z) (x : X) : outcome (dynarr X) :=
  if i <? 0 then Undef else
  _ ← of_option (da_ar a !! Z.to_nat i);
  Ret (DynArr (<[Z.to_nat i := Some x]> (da_ar a)) (da_capacity a) (da_size a)).

(** [ok n]: does [malloc] of [n] bytes succeed?  The new block has room for
    [n / item_size] items. *)
Definition dynarr_realloc_impl (ok : Z -> bool) (old : list (option X)) (size capacity extend item_size : Z)
    : outcome (option (list (option X) * Z)) :=
  let new_capacity := u64 (size + extend) in
  let new_capacity := if new_capacity <? u64 (u64 (capacity * 2) + 1) then u64 (u64 (capacity * 2) + 1) else new_capacity in
  let bytes := u64 (new_capacity * item_size) in
  if negb (ok bytes) then Ret None else
  let room := bytes / item_size in
  if (room <? size) || (Z.of_nat (length old) <? size) then Undef else
  Ret (Some (take (Z.to_nat size) old ++ replicate (Z.to_nat (room - size)) None, new_capacity)).

Definition DYNARR_ENSURE_EXTEND (ok : Z -> bool) (item_size : Z) (a : dynarr X) (extend : Z) : outcome (bool * dynarr X) :=
  if u64 (da_size a + extend) <=? da_capacity a then Ret (true, a) else
  r ← dynarr_realloc_impl ok (da_ar a) (da_size a) (da_capacity a) extend item_size;
  match r with
  | Some (ar, capacity) => Ret (true, DynArr ar capacity (da_size a))
  | None => Ret (false, a)
  end.
Definition DYNARR_PUSH_BACK (ok : Z -> bool) (item_size : Z) (a : dynarr X) (x : X) : outcome (bool * dynarr X) :=
  '(r, a) ← DYNARR_ENSURE_EXTEND ok item_size a 1;
  if (r : bool) then
    let i := da_size a in
    a ← DYNARR_SET (DynArr (da_ar a) (da_capacity a) (u64 (i + 1))) i x;
    Ret (true, a)
  else Ret (false, a).
(** The pointer returned is the index of the slot. *)
Definition DYNARR_PUSH_BACK_RETPTR (ok : Z -> bool) (item_size : Z) (a : dynarr X) : outcome (option Z * dynarr X) :=
  '(r, a) ← DYNARR_ENSURE_EXTEND ok item_size a 1;
  if (r : bool) then Ret (Some (da_size a), DynArr (da_ar a) (da_capacity a) (u64 (da_size a + 1)))
  else Ret (None, a).
End dynarr.

(** ** Reading back *)

(** What a program writes, as bytes. *)
Inductive item := I64 (x : Z) | I32 (x : Z) | IBytes (bs : list Z).
Definition be_bytes (x : Z) (shifts : list Z) : list Z := (fun s => x / 2 ^ s mod 256) <$> shifts.
Definition item_bytes (i : item) : list Z :=
  match i with I64 x => be_bytes x [56; 48; 40; 32; 24; 16; 8; 0] | I32 x => be_bytes x [24; 16; 8; 0] | IBytes bs => bs end.
Definition item_ok (i : item) : Prop :=
  match i with I64 x => 0 <= x < 2 ^ 64 | I32 x => 0 <= x < 2 ^ 32 | IBytes bs => Forall (fun b => 0 <= b < 256) bs end.

(** Bytes are copied from a block that holds just them. *)
Definition put_item (malloc : heap_oracle) (buf : databuf) (i : item) : outcome (Z * databuf) :=
  match i with
  | I64 x => databuf_add_u64 malloc buf x
  | I32 x => databuf_add_u32 malloc buf x
  | IBytes bs => databuf_add_bytes malloc buf (mem_of 0 bs) 0 (Z.of_nat (length bs))
  end.
Fixpoint put_items (malloc : heap_oracle) (buf : databuf) (its : list item) : outcome (list Z * databuf) :=
  match its with
  | [] => Ret ([], buf)
  | i :: its => '(r, buf) ← put_item malloc buf i; '(rs, buf) ← put_items malloc buf its; Ret (r :: rs, buf)
  end.
(** The next item, of the kind (and length) of [i]; bytes go to a block of
    zeros. *)
Definition get_item (buf : datainbuf) (i : item) : outcome (option item * datainbuf) :=
  match i with
  | I64 _ => '(r, x, buf) ← datainbuf_get_u64 buf; Ret (if r =? 0 then option_map I64 x else None, buf)
  | I32 _ => '(r, x, buf) ← datainbuf_get_u32 buf; Ret (if r =? 0 then option_map I32 x else None, buf)
  | IBytes bs =>
      '(r, m, buf) ← datainbuf_get_bytes buf (mem_fun (Z.of_nat (length bs)) (fun _ => 0)) 0 (Z.of_nat (length bs));
      l ← loadn m 0 (length bs);
      Ret (if r =? 0 then Some (IBytes l) else None, buf)
  end.
Fixpoint get_items (buf : datainbuf) (its : list item) : outcome (list (option item) * datainbuf) :=
  match its with
  | [] => Ret ([], buf)
  | i :: its => '(x, buf) ← get_item buf i; '(xs, buf) ← get_items buf its; Ret (x :: xs, buf)
  end.

Definition malloc_ok (malloc : heap_oracle) : Prop := forall n b, malloc n = Some b -> valid b 0 n /\ bytes_ok b.

(** The buffer holds [bs]; [lim] bounds what may ever be written to it. *)
Definition holds (lim : Z) (buf : databuf) (bs : list Z) : Prop :=
  db_size buf = Z.of_nat (length bs) /\ bytes_at (db_buf buf) 0 bs /\ Z.of_nat (length bs) <= db_capacity buf <= 2 * lim /\
  valid (db_buf buf) 0 (db_capacity buf) /\ bytes_ok (db_buf buf).

Lemma realloc_ok old fresh n bs :
  valid fresh 0 n -> bytes_ok fresh -> bytes_at old 0 bs -> bytes_ok old -> Z.of_nat (length bs) <= n ->
  exists b, realloc old (Some fresh) = Some b /\ valid b 0 n /\ bytes_ok b /\ bytes_at b 0 bs.
Proof.
  intros Hv Hb Hat Hob Hl. eexists. split; [done|]. split; [|split].
  - intros i Hi. rewrite map_lookup_imap. destruct (Hv i Hi) as [x ->]. simpl. eauto.
  - intros p b. rewrite map_lookup_imap. destruct (fresh !! p) as [x|] eqn:E; [|done]. simpl. intros [= <-].
    destruct (old !! p) eqn:Eo; simpl; [by eapply Hob|by eapply Hb].
  - intros i b Hi. rewrite map_lookup_imap. apply lookup_lt_Some in Hi as Hlt. destruct (Hv (0 + Z.of_nat i)) as [x E]; [lia|].
    rewrite E. simpl. by rewrite (Hat i b Hi).
Qed.

Lemma ensure_extend_ok malloc lim buf bs e :
  malloc_ok malloc -> lim <= 2 ^ 61 -> 0 <= e -> Z.of_nat (length bs) + e <= lim -> holds lim buf bs ->
  let '(r, buf') := databuf_ensure_extend malloc buf e in
  (r = 0 /\ holds lim buf' bs /\ Z.of_nat (length bs) + e <= db_capacity buf') \/
  (r = - ENOMEM /\ (exists n, malloc n = None) /\ holds lim buf' bs /\ db_buf buf' = db_buf buf /\ db_errors buf' = 1).
Proof.
  intros Hm Hlim He Hfit Hh. pose proof Hh as (Hs & Hat & Hc & Hv & Hb). unfold databuf_ensure_extend. rewrite Hs, u64_small by lia.
  destruct (Z.leb_spec (Z.of_nat (length bs) + e) (db_capacity buf)); [by left|].
  unfold databuf_extend. rewrite Hs, !u64_small by lia.
  set (n := if _ <? _ then _ else _). assert (Z.of_nat (length bs) + e <= n <= 2 * lim) as Hn.
  { unfold n. destruct (Z.ltb_spec (Z.of_nat (length bs) + e) (db_capacity buf * 2)); lia. }
  destruct (malloc n) as [fresh|] eqn:E.
  - destruct (Hm n fresh E) as [Hfv Hfb]. destruct (realloc_ok (db_buf buf) fresh n bs) as (b & -> & B1 & B2 & B3); try done; [lia|].
    left. split; [done|]. split; [|simpl; lia]. split; [done|]. split; [done|]. split; [simpl; lia|]. by split.
  - right. simpl. split; [done|]. split; [by exists n|]. by split.
Qed.

Lemma put_shifts_storen x shifts : forall buf,
  Forall (fun s => 0 <= s) shifts -> 0 <= db_size buf -> db_size buf + Z.of_nat (length shifts) < 2 ^ 64 ->
  put_shifts buf x shifts =
    b ← storen (db_buf buf) (db_size buf) (be_bytes x shifts);
    Ret (DataBuf b (db_capacity buf) (db_size buf + Z.of_nat (length shifts)) (db_errors buf)).
Proof.
  induction shifts as [|s shifts IH]; intros buf Hs H0 Hl; [simpl; rewrite Z.add_0_r; by destruct buf|].
  apply list.Forall_cons in Hs as [Hs Hss]. cbn [put_shifts be_bytes fmap list_fmap storen length] in *.
  change 0xFF with 255. rewrite land_255, shiftr_div by done. destruct (store8 _ _ _) as [b| | |]; [|done..]. cbn [mbind outcome_bind].
  rewrite u64_small by lia. rewrite IH by (simpl; done || lia). cbn [db_buf db_size db_capacity db_errors].
  replace (db_size buf + Z.of_nat (S (length shifts))) with (db_size buf + 1 + Z.of_nat (length shifts)) by lia. done.
Qed.

Lemma append_ok lim buf bs new :
  holds lim buf bs -> Forall (fun b => 0 <= b < 256) new -> Z.of_nat (length bs) + Z.of_nat (length new) <= db_capacity buf ->
  exists b, storen (db_buf buf) (db_size buf) new = Ret b /\
    holds lim (DataBuf b (db_capacity buf) (db_size buf + Z.of_nat (length new)) (db_errors buf)) (bs ++ new).
Proof.
  intros (Hs & Hat & Hc & Hv & Hb) Hn Hfit. rewrite Hs.
  destruct (storen_ok (db_buf buf) (Z.of_nat (length bs)) new) as (b & E & Hb'); [eapply valid_sub; [exact Hv|lia|lia]|done|].
  exists b. split; [done|]. split; [simpl; rewrite length_app; lia|]. split; [|split; [simpl; rewrite length_app; lia|split]]; simpl.
  - apply bytes_at_app. split.
    + intros i x Hi. apply lookup_lt_Some in Hi as Hlt. rewrite Hb'. destruct (decide _); [lia|]. by apply Hat.
    + intros i x Hi. apply lookup_lt_Some in Hi as Hlt. rewrite Hb'. destruct (decide _); [|lia]. rewrite <- Hi. f_equal. lia.
  - intros i Hi. rewrite Hb'. destruct (decide _); [apply lookup_lt_is_Some_2; lia|by apply Hv].
  - intros q x. rewrite Hb'. destruct (decide _); [|apply Hb]. intros Hx. rewrite Forall_lookup in Hn. by eapply Hn.
Qed.

Lemma be_bytes_ok x shifts : Forall (fun b => 0 <= b < 256) (be_bytes x shifts).
Proof. apply Forall_fmap, list.Forall_forall. intros s _. simpl. apply Z.mod_pos_bound. lia. Qed.
Lemma item_bytes_ok i : item_ok i -> Forall (fun b => 0 <= b < 256) (item_bytes i).
Proof. destruct i; intros Hi; [apply be_bytes_ok|apply be_bytes_ok|exact Hi]. Qed.

(** [r] is the return value: the item is written, or nothing is. *)
Lemma put_item_ok malloc lim buf bs i :
  malloc_ok malloc -> lim <= 2 ^ 61 -> item_ok i -> Z.of_nat (length bs) + Z.of_nat (length (item_bytes i)) <= lim -> holds lim buf bs ->
  exists r buf', put_item malloc buf i = Ret (r, buf') /\
    (r = 0 /\ holds lim buf' (bs ++ item_bytes i) \/
     r = - ENOMEM /\ (exists n, malloc n = None) /\ holds lim buf' bs /\ db_errors buf' = 1).
Proof.
  intros Hm Hlim Hi Hfit Hh.
  pose proof (ensure_extend_ok malloc lim buf bs (Z.of_nat (length (item_bytes i))) Hm Hlim ltac:(lia) Hfit Hh) as He.
  assert (forall buf', holds lim buf' bs -> Z.of_nat (length bs) + Z.of_nat (length (item_bytes i)) <= db_capacity buf' ->
    exists b, storen (db_buf buf') (db_size buf') (item_bytes i) = Ret b /\
      holds lim (DataBuf b (db_capacity buf') (db_size buf' + Z.of_nat (length (item_bytes i))) (db_errors buf')) (bs ++ item_bytes i)) as Happ.
  { intros buf' Hh' Hc'. apply append_ok; [done|by apply item_bytes_ok|done]. }
  destruct i as [x|x|new]; cbn [put_item item_bytes] in *; unfold databuf_add_u64, databuf_add_u32, databuf_add_bytes;
    [change (Z.of_nat (length (be_bytes x _))) with 8 in *|change (Z.of_nat (length (be_bytes x _))) with 4 in *|];
    (destruct (databuf_ensure_extend _ _ _) as [r buf']; destruct He as [(-> & Hh' & Hc')|(-> & Hn & Hh' & _ & Herr)];
      [|eexists _, _; split; [reflexivity|right; done]]);
    destruct (Happ buf' Hh' Hc') as (b & E & Hb); pose proof Hh' as (Hs & _); cbn [negb Z.eqb]; eexists 0, _.
  - rewrite put_shifts_storen by (repeat constructor || (simpl; lia)). rewrite E. split; [reflexivity|]. by left.
  - rewrite put_shifts_storen by (repeat constructor || (simpl; lia)). rewrite E. split; [reflexivity|]. by left.
  - rewrite memcpy_bytes by (intros k y Hy; rewrite mem_of_lookup, Nat2Z.id by lia; exact Hy). rewrite E. cbn [mbind outcome_bind]. split; [reflexivity|]. left.
    split; [done|]. by rewrite u64_small by lia.
Qed.

(** The items whose write returned 0. *)
Definition kept_items (its : list item) (rs : list Z) : list item := (filter (fun p => p.2 = 0) (zip its rs)).*1.

Lemma items_cons i its : mjoin (item_bytes <$> i :: its) = item_bytes i ++ mjoin (item_bytes <$> its).
Proof. done. Qed.

Lemma put_items_ok malloc lim its : forall buf bs,
  malloc_ok malloc -> lim <= 2 ^ 61 -> Forall item_ok its ->
  Z.of_nat (length bs) + Z.of_nat (length (mjoin (item_bytes <$> its))) <= lim -> holds lim buf bs ->
  exists rs buf', put_items malloc buf its = Ret (rs, buf') /\ length rs = length its /\
    holds lim buf' (bs ++ mjoin (item_bytes <$> kept_items its rs)) /\
    Forall (fun r => r = 0 \/ r = - ENOMEM) rs /\ ((forall n, is_Some (malloc n)) -> Forall (fun r => r = 0) rs).
Proof.
  induction its as [|i its IH]; intros buf bs Hm Hlim Hi Hfit Hh.
  { exists [], buf. split; [done|]. split; [done|]. split; [by rewrite app_nil_r|]. by split. }
  apply list.Forall_cons in Hi as [Hi His]. rewrite items_cons, length_app in Hfit.
  destruct (put_item_ok malloc lim buf bs i Hm Hlim Hi ltac:(lia) Hh) as (r & buf1 & E & Hcase). cbn [put_items]. rewrite E. cbn [mbind outcome_bind].
  destruct Hcase as [[-> Hh1]|(-> & Hn & Hh1 & _)].
  - destruct (IH buf1 (bs ++ item_bytes i) Hm Hlim His) as (rs & buf2 & E2 & Hl & Hh2 & Hr & Hall); [rewrite length_app; lia|done|].
    rewrite E2. exists (0 :: rs), buf2. split; [done|]. split; [simpl; lia|]. split; [|split; [constructor; auto|intros; constructor; auto]].
    unfold kept_items in *. cbn [zip zip_with]. rewrite filter_cons_True by done. rewrite <- (assoc_L (++)) in Hh2. exact Hh2.
  - destruct (IH buf1 bs Hm Hlim His) as (rs & buf2 & E2 & Hl & Hh2 & Hr & Hall); [lia|done|].
    rewrite E2. exists (- ENOMEM :: rs), buf2. split; [done|]. split; [simpl; lia|]. split; [|split; [constructor; auto|]].
    + unfold kept_items in *. cbn [zip zip_with]. rewrite filter_cons_False by done. exact Hh2.
    + intros Hsome. destruct Hn as [n Hn]. destruct (Hsome n) as [b Hb]. congruence.
Qed.

Lemma be_decode_foldl bs : be_decode bs = foldl (fun a c => a * 256 + c) 0 bs.
Proof. done. Qed.

Lemma get_shifts_ok w bits n : forall bs buf x,
  (forall y, w y = y mod 2 ^ bits) -> length bs = n -> bytes_at (in_buf buf) (in_location buf) bs -> Forall (fun b => 0 <= b < 256) bs ->
  0 <= in_location buf -> in_location buf + Z.of_nat n < 2 ^ 64 ->
  0 <= x -> foldl (fun a c => a * 256 + c) x bs < 2 ^ bits ->
  get_shifts w buf x n = Ret (foldl (fun a c => a * 256 + c) x bs, InBuf (in_buf buf) (in_size buf) (in_location buf + Z.of_nat n) (in_errors buf)).
Proof.
  induction n as [|n IH]; intros bs buf x Hw Hl Hat Hb H0 Hlt Hx Hv; destruct bs as [|b bs]; try done.
  { simpl. rewrite Z.add_0_r. by destruct buf. }
  injection Hl as Hl. apply bytes_at_cons in Hat as [Hc Hat]. apply list.Forall_cons in Hb as [Hb Hbs]. cbn [get_shifts foldl] in *.
  unfold load8. rewrite Hc. cbn [of_option mbind outcome_bind]. rewrite u64_small by lia.
  assert (forall l a, 0 <= a -> Forall (fun b => 0 <= b < 256) l -> a <= foldl (fun a c => a * 256 + c) a l) as Hmono.
  { clear. induction l as [|c l IH]; intros a Ha Hl; simpl; [lia|]. apply list.Forall_cons in Hl as [Hc Hl]. specialize (IH (a * 256 + c) ltac:(lia) Hl). lia. }
  pose proof (Hmono bs (x * 256 + b) ltac:(lia) Hbs) as Hge.
  assert (Z.lor (w (Z.shiftl x 8)) b = x * 256 + b) as ->.
  { rewrite Hw, Z.shiftl_mul_pow2 by lia. change (2 ^ 8) with 256. rewrite Z.mod_small by lia. change 256 with (2 ^ 8) at 1.
    rewrite <- Z.shiftl_mul_pow2, lor_shift_add by lia. done. }
  rewrite (IH bs) by (simpl; done || lia). cbn [in_buf in_size in_location in_errors]. do 3 f_equal. lia.
Qed.

Lemma be_bytes_value x :
  (0 <= x < 2 ^ 64 -> be_decode (be_bytes x [56; 48; 40; 32; 24; 16; 8; 0]) = x) /\ (0 <= x < 2 ^ 32 -> be_decode (be_bytes x [24; 16; 8; 0]) = x).
Proof. split; intros Hx; unfold be_decode, be_bytes; cbn [fmap list_fmap foldl]; lia. Qed.

Lemma get_item_ok buf i bs :
  item_ok i -> bytes_at (in_buf buf) (in_location buf) (item_bytes i ++ bs) -> bytes_ok (in_buf buf) -> 0 <= in_location buf ->
  in_location buf + Z.of_nat (length (item_bytes i)) <= in_size buf < 2 ^ 64 ->
  get_item buf i = Ret (Some i, InBuf (in_buf buf) (in_size buf) (in_location buf + Z.of_nat (length (item_bytes i))) (in_errors buf)).
Proof.
  intros Hi [Hat _]%bytes_at_app Hb H0 Hsz. pose proof (item_bytes_ok i Hi) as Hib. destruct i as [x|x|new]; cbn [get_item item_bytes] in *.
  - unfold datainbuf_get_u64, datainbuf_get. change (Z.of_nat (length (be_bytes x _))) with 8 in *. rewrite u64_small by lia.
    destruct (Z.gtb_spec (in_location buf + Z.of_nat 8) (in_size buf)); [lia|]. destruct (be_bytes_value x) as [Hv _]. specialize (Hv Hi).
    rewrite (get_shifts_ok u64 64 8 (be_bytes x [56; 48; 40; 32; 24; 16; 8; 0])) by (done || lia || (rewrite <- be_decode_foldl, Hv; apply Hi)).
    rewrite <- be_decode_foldl, Hv. done.
  - unfold datainbuf_get_u32, datainbuf_get. change (Z.of_nat (length (be_bytes x _))) with 4 in *. rewrite u64_small by lia.
    destruct (Z.gtb_spec (in_location buf + Z.of_nat 4) (in_size buf)); [lia|]. destruct (be_bytes_value x) as [_ Hv]. specialize (Hv Hi).
    rewrite (get_shifts_ok u32 32 4 (be_bytes x [24; 16; 8; 0])) by (done || lia || (rewrite <- be_decode_foldl, Hv; apply Hi)).
    rewrite <- be_decode_foldl, Hv. done.
  - unfold datainbuf_get_bytes. rewrite u64_small by lia.
    destruct (Z.gtb_spec (in_location buf + Z.of_nat (length new)) (in_size buf)); [lia|].
    rewrite (memcpy_bytes _ _ _ _ new Hat).
    destruct (store_bytes (mem_fun (Z.of_nat (length new)) (fun _ => 0)) 0 new) as (m & -> & Hm & _); [apply mem_fun_valid|done|].
    cbn [mbind outcome_bind]. rewrite (loadn_bytes_at _ _ _ Hm). done.
Qed.

Lemma get_items_ok its : forall buf bs,
  Forall item_ok its -> bytes_at (in_buf buf) (in_location buf) (mjoin (item_bytes <$> its) ++ bs) -> bytes_ok (in_buf buf) -> 0 <= in_location buf ->
  in_location buf + Z.of_nat (length (mjoin (item_bytes <$> its))) <= in_size buf < 2 ^ 64 ->
  get_items buf its = Ret (Some <$> its, InBuf (in_buf buf) (in_size buf) (in_location buf + Z.of_nat (length (mjoin (item_bytes <$> its)))) (in_errors buf)).
Proof.
  induction its as [|i its IH]; intros buf bs Hi Hat Hb H0 Hsz; [simpl; rewrite Z.add_0_r; by destruct buf|].
  apply list.Forall_cons in Hi as [Hi His]. rewrite items_cons in *. rewrite length_app in *.
  rewrite <- (assoc_L (++)) in Hat. cbn [get_items]. rewrite (get_item_ok buf i (mjoin (item_bytes <$> its) ++ bs)) by (done || lia). cbn [mbind outcome_bind].
  apply bytes_at_app in Hat as [_ Hat]. rewrite (IH _ bs) by (simpl; done || lia). cbn [mbind outcome_bind in_buf in_size in_location in_errors].
  rewrite fmap_cons. do 3 f_equal. lia.
Qed.

Lemma kept_items_ok its rs : Forall item_ok its -> Forall item_ok (kept_items its rs).
Proof.
  intros Hi. apply list.Forall_forall. intros i Hin. unfold kept_items in Hin.
  apply list_elem_of_fmap in Hin as ([i' r] & -> & [_ Hin]%list_elem_of_filter). apply elem_of_zip_l in Hin. rewrite list.Forall_forall in Hi. auto.
Qed.

Lemma get_at_end buf i :
  item_bytes i <> [] -> Z.of_nat (length (item_bytes i)) <= 2 ^ 62 -> 0 <= in_location buf <= 2 ^ 62 -> in_size buf = in_location buf ->
  get_item buf i = Ret (None, buf).
Proof.
  intros Hne Hl Hr Hs. destruct i as [x|x|bs]; cbn [get_item item_bytes] in *.
  - unfold datainbuf_get_u64, datainbuf_get. rewrite u64_small by lia. destruct (Z.gtb_spec (in_location buf + Z.of_nat 8) (in_size buf)); [done|lia].
  - unfold datainbuf_get_u32, datainbuf_get. rewrite u64_small by lia. destruct (Z.gtb_spec (in_location buf + Z.of_nat 4) (in_size buf)); [done|lia].
  - assert (0 < length bs)%nat by (destruct bs; [done|simpl; lia]). unfold datainbuf_get_bytes. rewrite u64_small by lia.
    destruct (Z.gtb_spec (in_location buf + Z.of_nat (length bs)) (in_size buf)); [|lia]. cbn [mbind outcome_bind].
    rewrite loadn_ok by apply mem_fun_valid. done.
Qed.

(** C6: what is written to a growing buffer is read back.  Writing any items
    (64-bit and 32-bit integers, byte strings) never leaves the block, whatever
    [malloc] answers; each write returns 0 or -ENOMEM, and 0 always when [malloc]
    succeeds; reading the items whose write returned 0 gives them in order and
    ends at the end of the buffer, where every further read is -EFAULT and
    changes nothing. *)
Theorem databuf_roundtrip malloc its :
  malloc_ok malloc -> Forall item_ok its -> Z.of_nat (length (mjoin (item_bytes <$> its))) <= 2 ^ 61 ->
  exists rs buf, put_items malloc databuf_init its = Ret (rs, buf) /\
    Forall (fun r => r = 0 \/ r = - ENOMEM) rs /\ ((forall n, is_Some (malloc n)) -> kept_items its rs = its) /\
    exists inb, get_items (datainbuf_init (db_buf buf) (db_size buf)) (kept_items its rs) = Ret (Some <$> kept_items its rs, inb) /\
      datainbuf_eof inb = true /\
      forall i, item_bytes i <> [] -> Z.of_nat (length (item_bytes i)) <= 2 ^ 62 -> get_item inb i = Ret (None, inb).
Proof.
  intros Hm Hi Hl. destruct (put_items_ok malloc (2 ^ 61) its databuf_init [] Hm) as (rs & buf & E & Hlen & Hh & Hr & Hall); [lia|done|simpl; lia| |].
  { split; [done|]. split; [intros k b Hk; done|]. split; [simpl; lia|]. split; [intros k Hk; simpl in Hk; lia|]. intros k b Hk. done. }
  exists rs, buf. split; [done|]. split; [done|]. split.
  - intros Hs. specialize (Hall Hs). clear - Hall Hlen. unfold kept_items. revert rs Hall Hlen. induction its as [|i its IH]; intros [|r rs] Hall Hlen; try done.
    apply list.Forall_cons in Hall as [-> Hall]. cbn [zip zip_with]. rewrite filter_cons_True by done. rewrite fmap_cons. f_equal. apply IH; [done|]. simpl in Hlen. lia.
  - destruct Hh as (Hs & Hat & Hc & Hv & Hb). rewrite app_nil_l in Hs, Hat, Hc.
    rewrite (get_items_ok (kept_items its rs) (datainbuf_init (db_buf buf) (db_size buf)) []); unfold datainbuf_init; cbn [in_buf in_size in_location in_errors];
      [|by apply kept_items_ok|by rewrite app_nil_r|done|lia|lia].
    eexists. split; [done|]. split; [unfold datainbuf_eof; simpl; lia|].
    intros i Hne Hli. apply get_at_end; simpl; try done; lia.
Qed.

Definition sample_malloc (n : Z) : option mem := if n <? 40 then Some (mem_fun n (fun _ => 9)) else None.
Lemma databuf_roundtrip_witness :
  exists rs buf, put_items sample_malloc databuf_init [I32 7; IBytes [1; 2; 3]; I64 (2 ^ 63); IBytes (replicate 30 1); I32 8] = Ret (rs, buf) /\
    rs = [0; 0; 0; - ENOMEM; 0] /\
    exists inb, get_items (datainbuf_init (db_buf buf) (db_size buf)) [I32 7; IBytes [1; 2; 3]; I64 (2 ^ 63); I32 8] =
      Ret ([Some (I32 7); Some (IBytes [1; 2; 3]); Some (I64 (2 ^ 63)); Some (I32 8)], inb) /\ datainbuf_eof inb = true.
Proof.
  destruct (databuf_roundtrip sample_malloc [I32 7; IBytes [1; 2; 3]; I64 (2 ^ 63); IBytes (replicate 30 1); I32 8]) as (rs & buf & E & _ & _ & inb & Eg & Heof & _).
  - intros n b. unfold sample_malloc. destruct (n <? 40); [|done]. intros [= <-]. split; [apply mem_fun_valid|apply mem_fun_bytes_ok; lia].
  - repeat constructor; simpl; lia.
  - vm_compute. discriminate.
  - assert (rs = [0; 0; 0; - ENOMEM; 0]) as ->.
    { transitivity (match put_items sample_malloc databuf_init [I32 7; IBytes [1; 2; 3]; I64 (2 ^ 63); IBytes (replicate 30 1); I32 8] with Ret (rs, _) => rs | _ => [] end);
        [rewrite E; reflexivity|vm_compute; reflexivity]. }
    exists [0; 0; 0; - ENOMEM; 0], buf. split; [exact E|]. split; [reflexivity|]. exists inb. split; [exact Eg|exact Heof].
Defined.

(** ** A dynamic array is a list *)
Section dynarr_list.
Context {X : Type} (ok : Z -> bool) (item_size : Z) (Hitem : 1 <= item_size).

Definition array_of (a : dynarr X) (l : list X) : Prop :=
  da_size a = Z.of_nat (length l) /\ Z.of_nat (length (da_ar a)) = da_capacity a /\ Z.of_nat (length l) <= da_capacity a <= 2 * Z.of_nat (length l) + 1 /\
  take (length l) (da_ar a) = Some <$> l.

Lemma array_get a l i x : array_of a l -> l !! i = Some x -> DYNARR_GET a (Z.of_nat i) = Ret x.
Proof.
  intros (_ & _ & _ & Ht) Hi. unfold DYNARR_GET. destruct (Z.ltb_spec (Z.of_nat i) 0); [lia|]. rewrite Nat2Z.id.
  apply lookup_lt_Some in Hi as Hlt. assert (da_ar a !! i = Some (Some x)) as ->; [|done].
  rewrite <- (lookup_take_lt (da_ar a) (length l) i) by done. rewrite Ht, list_lookup_fmap, Hi. done.
Qed.

(** Room is made without losing anything, or [malloc] failed. *)
Lemma array_extend a l :
  array_of a l -> (2 * Z.of_nat (length l) + 3) * item_size < 2 ^ 62 ->
  returns (DYNARR_ENSURE_EXTEND ok item_size a 1) (fun '(r, a') =>
    (r = true /\ array_of a' l /\ Z.of_nat (length l) + 1 <= da_capacity a') \/
    (r = false /\ a' = a /\ exists n, ok n = false)).
Proof.
  intros Ha Hb. pose proof Ha as (Hs & Hl & Hc & Ht). assert (Z.of_nat (length l) < 2 ^ 62) as Hlen by nia.
  unfold DYNARR_ENSURE_EXTEND. rewrite Hs, u64_small by lia.
  destruct (Z.leb_spec (Z.of_nat (length l) + 1) (da_capacity a)); [apply returns_ret; by left|].
  assert (da_capacity a = Z.of_nat (length l)) as Ec by lia. unfold dynarr_realloc_impl.
  rewrite Ec, (u64_small (Z.of_nat (length l) + 1)), (u64_small (Z.of_nat (length l) * 2)) by lia.
  assert ((if Z.of_nat (length l) + 1 <? u64 (Z.of_nat (length l) * 2 + 1) then u64 (Z.of_nat (length l) * 2 + 1) else Z.of_nat (length l) + 1) =
    Z.of_nat (length l) * 2 + 1) as ->.
  { rewrite u64_small by lia. destruct (Z.ltb_spec (Z.of_nat (length l) + 1) (Z.of_nat (length l) * 2 + 1)); lia. }
  rewrite u64_small by nia. destruct (ok _) eqn:Eok; cbn [negb]; [|apply returns_ret; right; eauto].
  rewrite Z.div_mul by lia. destruct (Z.ltb_spec (Z.of_nat (length l) * 2 + 1) (Z.of_nat (length l))); [lia|].
  destruct (Z.ltb_spec (Z.of_nat (length (da_ar a))) (Z.of_nat (length l))); [lia|]. cbn [orb mbind outcome_bind]. apply returns_ret. left.
  split; [done|]. split; [|simpl; lia]. rewrite Nat2Z.id. split; [done|]. cbn [da_ar da_capacity da_size].
  split; [rewrite length_app, length_take_le, length_replicate by lia; lia|]. split; [lia|].
  rewrite take_app_le by (rewrite length_take_le; lia). rewrite take_take, Nat.min_id. done.
Qed.

(** Appending: the array is the list with the new item, or [malloc] failed and
    it is unchanged. *)
Lemma array_push a l x :
  array_of a l -> (2 * Z.of_nat (length l) + 3) * item_size < 2 ^ 62 ->
  returns (DYNARR_PUSH_BACK ok item_size a x) (fun '(r, a') =>
    (r = true /\ array_of a' (l ++ [x])) \/ (r = false /\ a' = a /\ exists n, ok n = false)).
Proof.
  intros Ha Hb. assert (Z.of_nat (length l) < 2 ^ 62) as Hlen by nia. unfold DYNARR_PUSH_BACK. eapply returns_bind; [by apply array_extend|].
  intros [r a'] [(-> & Ha' & Hroom)|(-> & -> & Hn)]; [|apply returns_ret; by right].
  destruct Ha' as (Hs & Hl & Hc & Ht). cbn [da_ar da_capacity da_size] in *. unfold DYNARR_SET. cbn [da_ar da_capacity da_size]. rewrite Hs.
  destruct (Z.ltb_spec (Z.of_nat (length l)) 0); [lia|]. rewrite Nat2Z.id.
  destruct (lookup_lt_is_Some_2 (da_ar a') (length l)) as [y Hy]; [lia|]. rewrite Hy. cbn [of_option mbind outcome_bind]. apply returns_ret. left.
  split; [done|]. unfold array_of. cbn [da_ar da_capacity da_size]. rewrite u64_small by lia. rewrite length_app, length_insert. cbn [length].
  split; [lia|]. split; [done|]. split; [lia|]. replace (length l + 1)%nat with (S (length l)) by lia.
  erewrite take_S_r by (apply list_lookup_insert_eq; lia). rewrite take_insert_ge, Ht, fmap_app by lia. done.
Qed.
End dynarr_list.
