(* ===== verification/IpHash.v ===== *)
(** The rate limiter of iphash/iphash.h and iphash/iphash.c: a table of token
    buckets indexed by a keyed hash of the source network, refilled batch by
    batch from timers.  It is a client of the timer interface of [Timers] and
    of the hash of [Hashes]. *)
From S2P Require Import Prelude Bytes Hashes Heap PTree Timers.

(** [sizeof(struct timer_link)] with 64-bit pointers. *)
Definition sizeof_timer_link : Z := 48.

(** [struct ip_hash]; [ih_times] has the [time64] fields of the timers, the
    hash is the key of all entries of [timerud], whose ranges are
    [ih_timerud]. *)
Record ip_hash := IpHash {
  ih_entries : list Z; ih_timers : Z; ih_times : list Z; ih_timerud : list (Z * Z);
  ih_initial_tokens : Z; ih_timer_period : Z; ih_timer_add : Z; ih_hash_size : Z; ih_batch_size : Z }.

Definition set_entries (l : list Z) (h : ip_hash) : ip_hash :=
  IpHash l (ih_timers h) (ih_times h) (ih_timerud h) (ih_initial_tokens h) (ih_timer_period h) (ih_timer_add h) (ih_hash_size h) (ih_batch_size h).
Definition set_times (l : list Z) (h : ip_hash) : ip_hash :=
  IpHash (ih_entries h) (ih_timers h) l (ih_timerud h) (ih_initial_tokens h) (ih_timer_period h) (ih_timer_add h) (ih_hash_size h) (ih_batch_size h).

Definition timer_addr (h : ip_hash) (i : Z) : Z := ih_timers h + sizeof_timer_link * i.

Definition use_small (h : ip_hash) : bool := (ih_initial_tokens h <=? 65535) && (ih_initial_tokens h >=? 256).
Definition use_tiny (h : ip_hash) : bool := ih_initial_tokens h <=? 255.
(** The type of [tokens] in the entries that are used. *)
Definition entry_wrap (h : ip_hash) (x : Z) : Z :=
  if use_tiny h then u8 x else if use_small h then u16 x else u32 x.

Definition power_of_2 (x : Z) : bool := (x >? 0) && (Z.land x (x - 1) =? 0).

Section client.
Context `{Host} {S : Type} `{TimerQueue S}.

(** A call of the timer library whose result is not used. *)
Definition timer_call (op : timer_op) (heap : S) : outcome S :=
  '(_, heap) ← tq_do op heap; Ret heap.

(** The loop that sets up the timers; [now i] is what [gettime64] returns in
    pass [i]. *)
Definition init_timer_step (h : ip_hash) (timercnt : Z) (now : Z -> Z) (i : Z) (s : list Z * list (Z * Z) * S)
    : outcome (list Z * list (Z * Z) * S) :=
  let '(times, ud, heap) := s in
  let t := u64 (now i + u64 (ih_timer_period h * i) / timercnt) in
  heap ← timer_call (TAdd (timer_addr h i) t) heap;
  Ret (times ++ [t], ud ++ [(ih_batch_size h * i, ih_batch_size h * (i + 1))], heap).

(** [timers] and [entries] are what [malloc] returns for the two arrays: an
    address, contents of the right length, or [NULL], which is dereferenced. *)
Definition ip_hash_init (hash : ip_hash) (heap : S) (now : Z -> Z) (timers : option Z) (entries : option (list Z))
    : outcome (ip_hash * S) :=
  if ih_batch_size hash =? 0 then Undef else
  let timercnt := ih_hash_size hash / ih_batch_size hash in
  if negb (power_of_2 (ih_hash_size hash)) || negb (power_of_2 (ih_batch_size hash)) || (ih_hash_size hash <? ih_batch_size hash)
  then Abort else
  tm ← of_option timers;
  let hash := IpHash (ih_entries hash) tm [] [] (ih_initial_tokens hash) (ih_timer_period hash) (ih_timer_add hash) (ih_hash_size hash) (ih_batch_size hash) in
  r ← for_range 0 timercnt (init_timer_step hash timercnt now) ([], [], heap);
  let '(times, ud, heap) := r in
  _ ← of_option entries;
  let l := replicate (Z.to_nat (ih_hash_size hash)) (entry_wrap hash (ih_initial_tokens hash)) in
  Ret (IpHash l tm times ud (ih_initial_tokens hash) (ih_timer_period hash) (ih_timer_add hash) (ih_hash_size hash) (ih_batch_size hash), heap).

(** The arrays are values of the record here, so [free] of them leaves no
    trace; a freed record is not used again. *)
Definition ip_hash_free (hash : ip_hash) (heap : S) : outcome S :=
  if ih_batch_size hash =? 0 then Undef else
  let timercnt := ih_hash_size hash / ih_batch_size hash in
  if negb (power_of_2 (ih_hash_size hash)) || negb (power_of_2 (ih_batch_size hash)) || (ih_hash_size hash <? ih_batch_size hash)
  then Abort else
  for_range 0 timercnt (fun i heap => timer_call (TRemove (timer_addr hash i)) heap) heap.

(** ** The buckets of the two kinds of address

    [seed] is the block [hash_seed_get] returns, [None] for [NULL]. *)
Definition ipv6_bucket (seed : option mem) (m : mem) (src_ip bits : Z) (hash : ip_hash) : outcome Z :=
  src_net ← memcpy_from (mem_fun 16 (fun _ => 0)) 0 m src_ip 16;
  let toset := u32 (128 - bits) / 8 in
  let tomask := u32 (128 - bits) mod 8 in
  src_net ← memset src_net (16 - toset) 0 toset;
  c ← load8 src_net (16 - toset - 1);
  src_net ← store8 src_net (16 - toset - 1) (Z.land c (Z.lnot (Z.shiftl 1 tomask - 1)));
  sd ← of_option seed;
  x ← siphash_buf sd 0 src_net 0 16;
  Ret (u32 (Z.land x (u32 (ih_hash_size hash - 1)))).

Definition ip_bucket (seed : option mem) (src_ip bits : Z) (hash : ip_hash) : outcome Z :=
  if (32 - bits <? 0) || (32 - bits >=? 32) then Undef else
  let bitmask := Z.land (u32 (Z.lnot (Z.shiftl 1 (32 - bits) - 1))) 0xFFFFFFFF in
  let network := Z.land src_ip bitmask in
  sd ← of_option seed;
  x ← siphash64 sd 0 network;
  Ret (u32 (Z.land x (u32 (ih_hash_size hash - 1)))).

(** Taking a token, and giving one back. *)
Definition take_token (hash : ip_hash) (hashval : Z) : outcome (Z * ip_hash) :=
  t ← of_option (ih_entries hash !! Z.to_nat hashval);
  if t =? 0 then Ret (0, hash) else
  Ret (1, set_entries (<[Z.to_nat hashval := entry_wrap hash (t - 1)]> (ih_entries hash)) hash).
Definition give_token (hash : ip_hash) (hashval : Z) : outcome ip_hash :=
  t ← of_option (ih_entries hash !! Z.to_nat hashval);
  if t >=? ih_initial_tokens hash then Ret hash else
  Ret (set_entries (<[Z.to_nat hashval := entry_wrap hash (t + 1)]> (ih_entries hash)) hash).

Definition ipv6_permitted (seed : option mem) (m : mem) (src_ip bits : Z) (hash : ip_hash) : outcome (Z * ip_hash) :=
  hashval ← ipv6_bucket seed m src_ip bits hash; take_token hash hashval.
Definition ip_permitted (seed : option mem) (src_ip bits : Z) (hash : ip_hash) : outcome (Z * ip_hash) :=
  hashval ← ip_bucket seed src_ip bits hash; take_token hash hashval.
Definition ipv6_increment_one (seed : option mem) (m : mem) (src_ip bits : Z) (hash : ip_hash) : outcome ip_hash :=
  hashval ← ipv6_bucket seed m src_ip bits hash; give_token hash hashval.
Definition ip_increment_one (seed : option mem) (src_ip bits : Z) (hash : ip_hash) : outcome ip_hash :=
  hashval ← ip_bucket seed src_ip bits hash; give_token hash hashval.

(** ** The timer function *)

Definition refill_step (h : ip_hash) (i : Z) (l : list Z) : outcome (list Z) :=
  t ← of_option (l !! Z.to_nat i);
  let tokens := u32 (t + ih_timer_add h) in
  let tokens := if tokens >=? ih_initial_tokens h then ih_initial_tokens h else tokens in
  Ret (<[Z.to_nat i := entry_wrap h tokens]> l).

(** [k] is the index of the timer, so [ud] is [&timerud[k]].  The lock, which
    excludes other threads while the function runs, is left out. *)
Definition batch_timer_fn (hash : ip_hash) (heap : S) (k : Z) : outcome (ip_hash * S) :=
  '(start, end_) ← of_option (ih_timerud hash !! Z.to_nat k);
  l ← for_range start end_ (refill_step hash) (ih_entries hash);
  t ← of_option (ih_times hash !! Z.to_nat k);
  let t := u64 (t + ih_timer_period hash) in
  let hash := set_times (<[Z.to_nat k := t]> (set_entries l hash).(ih_times)) (set_entries l hash) in
  heap ← timer_call (TAdd (timer_addr hash k) t) heap;
  Ret (hash, heap).
End client.
