(* ===== verification/IpHashSpec.v ===== *)
(** The rate limiter as token buckets: how many packets of a network are let
    through, and the timers it keeps set. *)
From S2P Require Import Prelude Bytes Packet Hashes Heap PTree Timers LinkHeap LinkTimers IpHash.

(** ** What a caller does *)

Inductive ih_op :=
  | Permit4 (src_ip bits : Z) | Permit6 (m : mem) (src_ip bits : Z)
  | Inc4 (src_ip bits : Z) | Inc6 (m : mem) (src_ip bits : Z)
  | Fire.
(** What happens to the buckets: a packet that is let through or not, a token
    given back, a batch refilled. *)
Inductive ih_event := EPermit (b : Z) (granted : bool) | EInc (b : Z) | EFill (k : Z).

Section run.
Context `{Host} {S : Type} `{TimerQueue S}.
Variable (seed : option mem).

(** The first timer expires: it is taken out of the heap and its function
    called. *)
Definition fire (hash : ip_hash) (heap : S) : outcome (Z * ip_hash * S) :=
  '(x, _, heap) ← tq_do TNext heap;
  heap ← timer_call (TRemove x) heap;
  let k := (x - ih_timers hash) / sizeof_timer_link in
  '(hash, heap) ← batch_timer_fn hash heap k;
  Ret (k, hash, heap).

Definition ih_do (op : ih_op) (s : ip_hash * S) : outcome (ih_event * (ip_hash * S)) :=
  let '(hash, heap) := s in
  match op with
  | Permit4 ip bits =>
      b ← ip_bucket seed ip bits hash; '(r, hash) ← ip_permitted seed ip bits hash; Ret (EPermit b (negb (r =? 0)), (hash, heap))
  | Permit6 m ip bits =>
      b ← ipv6_bucket seed m ip bits hash; '(r, hash) ← ipv6_permitted seed m ip bits hash; Ret (EPermit b (negb (r =? 0)), (hash, heap))
  | Inc4 ip bits => b ← ip_bucket seed ip bits hash; hash ← ip_increment_one seed ip bits hash; Ret (EInc b, (hash, heap))
  | Inc6 m ip bits => b ← ipv6_bucket seed m ip bits hash; hash ← ipv6_increment_one seed m ip bits hash; Ret (EInc b, (hash, heap))
  | Fire => '(k, hash, heap) ← fire hash heap; Ret (EFill k, (hash, heap))
  end.
Fixpoint ih_run (ops : list ih_op) (s : ip_hash * S) : outcome (list ih_event * (ip_hash * S)) :=
  match ops with
  | [] => Ret ([], s)
  | op :: ops => '(e, s) ← ih_do op s; '(es, s) ← ih_run ops s; Ret (e :: es, s)
  end.
End run.

(** ** Token buckets *)

Section buckets.
Variables (size batch initial add : Z).

(** One bucket under an event. *)
Definition bucket_step (b : Z) (e : ih_event) (t : Z) : Z :=
  match e with
  | EPermit b' true => if b =? b' then t - 1 else t
  | EPermit b' false => t
  | EInc b' => if b =? b' then Z.min initial (t + 1) else t
  | EFill k => if b / batch =? k then Z.min initial (t + add) else t
  end.
(** A packet is let through exactly when there is a token. *)
Definition event_ok (tokens : Z -> Z) (e : ih_event) : Prop :=
  match e with
  | EPermit b granted => 0 <= b < size /\ (granted = true <-> 0 < tokens b)
  | EInc b => 0 <= b < size
  | EFill k => 0 <= k < size / batch
  end.
Inductive buckets_run : (Z -> Z) -> list ih_event -> (Z -> Z) -> Prop :=
  | run_nil f : buckets_run f [] f
  | run_cons f e es g : event_ok f e -> buckets_run (fun b => bucket_step b e (f b)) es g -> buckets_run f (e :: es) g.

Definition count (f : ih_event -> bool) (es : list ih_event) : Z := Z.of_nat (length (List.filter f es)).
(** Packets of bucket [b] let through, tokens given back to it, refills of its
    batch. *)
Definition granted_of (b : Z) : list ih_event -> Z := count (fun e => match e with EPermit b' true => b =? b' | _ => false end).
Definition given_of (b : Z) : list ih_event -> Z := count (fun e => match e with EInc b' => b =? b' | _ => false end).
Definition fills_of (b : Z) : list ih_event -> Z := count (fun e => match e with EFill k => b / batch =? k | _ => false end).

Lemma count_cons f e es : count f (e :: es) = b2z (f e) + count f es.
Proof. unfold count. simpl. destruct (f e); simpl; lia. Qed.

(** The rate: a bucket lets through no more than its first tokens, what the
    refills add and what is given back. *)
Lemma rate_bound f es g b :
  0 <= add -> buckets_run f es g -> 0 <= f b <= initial ->
  0 <= g b <= initial /\ granted_of b es + g b <= f b + add * fills_of b es + given_of b es.
Proof.
  intros Hadd. induction 1 as [f|f e es g Hok Hrun IH]; intros Hf; [unfold granted_of, fills_of, given_of, count; simpl; lia|].
  unfold granted_of, fills_of, given_of in *. rewrite !count_cons.
  assert (0 <= bucket_step b e (f b) <= initial) as Hs.
  { destruct e as [b' []|b'|k]; simpl in *; try lia.
    - destruct (Z.eqb_spec b b') as [<-|]; [|done]. assert (0 < f b) by tauto. lia.
    - destruct (b =? b'); lia.
    - destruct (b / batch =? k); lia. }
  specialize (IH Hs). split; [tauto|]. destruct IH as [_ IH].
  destruct e as [b' []|b'|k]; cbn [bucket_step] in *; [destruct (b =? b')| |destruct (b =? b')|destruct (b / batch =? k)]; cbn [b2z]; lia.
Qed.
End buckets.

(** ** The code on the buckets *)

Lemma land_upper x m : 0 <= m -> 0 <= Z.land x m <= m.
Proof.
  intros Hm. split; [apply Z.land_nonneg; by right|].
  assert (m = Z.land x m + Z.land (Z.lnot x) m) as E.
  { rewrite Z.add_nocarry_lxor.
    - apply Z.bits_inj'. intros i Hi. rewrite Z.lxor_spec, !Z.land_spec, Z.lnot_spec by done. by destruct (Z.testbit x i), (Z.testbit m i).
    - apply Z.bits_inj'. intros i Hi. rewrite !Z.land_spec, Z.lnot_spec, Z.bits_0 by done. by destruct (Z.testbit x i), (Z.testbit m i). }
  assert (0 <= Z.land (Z.lnot x) m) by (apply Z.land_nonneg; by right). lia.
Qed.

(** A table that has been set up. *)
Definition timercnt (h : ip_hash) : Z := ih_hash_size h / ih_batch_size h.
Record table_ok (h : ip_hash) : Prop := {
  to_size : 0 < ih_hash_size h < 2 ^ 32;
  to_batch : 0 < ih_batch_size h /\ ih_hash_size h = ih_batch_size h * timercnt h;
  to_initial : 0 <= ih_initial_tokens h;
  to_add : 0 <= ih_timer_add h /\ ih_initial_tokens h + ih_timer_add h < 2 ^ 32;
  to_entries : Z.of_nat (length (ih_entries h)) = ih_hash_size h /\ Forall (fun t => 0 <= t <= ih_initial_tokens h) (ih_entries h);
  to_ud : ih_timerud h = (fun i => (ih_batch_size h * i, ih_batch_size h * (i + 1))) <$> seqZ 0 (timercnt h);
  to_times : Z.of_nat (length (ih_times h)) = timercnt h
}.
Definition tokens (h : ip_hash) (b : Z) : Z := default 0 (ih_entries h !! Z.to_nat b).

Lemma entry_wrap_small h t : 0 <= t <= ih_initial_tokens h -> ih_initial_tokens h < 2 ^ 32 -> entry_wrap h t = t.
Proof.
  intros Ht Hi. unfold entry_wrap, use_tiny, use_small. destruct (Z.leb_spec (ih_initial_tokens h) 255); [apply u8_small; lia|].
  destruct (Z.leb_spec (ih_initial_tokens h) 65535); cbn [andb]; [|apply u32_small; lia].
  destruct (Z.geb_spec (ih_initial_tokens h) 256); [apply u16_small; lia|lia].
Qed.

Lemma tokens_set h b t b' : table_ok h -> 0 <= b < ih_hash_size h -> 0 <= b' < ih_hash_size h ->
  tokens (set_entries (<[Z.to_nat b := t]> (ih_entries h)) h) b' = if b' =? b then t else tokens h b'.
Proof.
  intros [_ _ _ _ [Hl _] _ _] Hb Hb'. unfold tokens. simpl. destruct (Z.eqb_spec b' b) as [->|].
  - rewrite list_lookup_insert_eq by lia. done.
  - rewrite list_lookup_insert_ne by lia. done.
Qed.
Lemma table_set h b t : table_ok h -> 0 <= t <= ih_initial_tokens h -> table_ok (set_entries (<[Z.to_nat b := t]> (ih_entries h)) h).
Proof.
  intros [? ? ? ? [Hl Hf] ? ?] Ht. split; try done. simpl. rewrite length_insert. split; [done|]. by apply Forall_insert.
Qed.
Lemma tokens_range h b : table_ok h -> 0 <= tokens h b <= ih_initial_tokens h.
Proof.
  intros [_ _ Hi _ [_ Hf] _ _]. unfold tokens. destruct (ih_entries h !! Z.to_nat b) eqn:E; simpl; [|lia]. rewrite Forall_lookup in Hf. by eapply Hf.
Qed.

Lemma tokens_lookup h b : table_ok h -> 0 <= b < ih_hash_size h -> ih_entries h !! Z.to_nat b = Some (tokens h b).
Proof.
  intros [_ _ _ _ [Hl _] _ _] Hb. unfold tokens. destruct (lookup_lt_is_Some_2 (ih_entries h) (Z.to_nat b)) as [t E]; [lia|]. by rewrite E.
Qed.

(** What no operation changes. *)
Definition same_conf (h h' : ip_hash) : Prop :=
  ih_timers h' = ih_timers h /\ ih_initial_tokens h' = ih_initial_tokens h /\ ih_timer_period h' = ih_timer_period h /\
  ih_timer_add h' = ih_timer_add h /\ ih_hash_size h' = ih_hash_size h /\ ih_batch_size h' = ih_batch_size h.

Lemma take_token_ok h b :
  table_ok h -> 0 <= b < ih_hash_size h ->
  exists h', take_token h b = Ret (b2z (0 <? tokens h b), h') /\ table_ok h' /\ same_conf h h' /\ ih_times h' = ih_times h /\
    forall b', 0 <= b' < ih_hash_size h -> tokens h' b' = bucket_step (ih_batch_size h) (ih_initial_tokens h) (ih_timer_add h) b' (EPermit b (0 <? tokens h b)) (tokens h b').
Proof.
  intros Ht Hb. unfold take_token. rewrite tokens_lookup by done. cbn [of_option mbind outcome_bind]. pose proof (tokens_range h b Ht) as Hr.
  destruct (Z.eqb_spec (tokens h b) 0) as [E|].
  - exists h. rewrite E. done.
  - destruct (Z.ltb_spec 0 (tokens h b)); [|lia]. pose proof (to_add h Ht). pose proof (to_initial h Ht).
    rewrite entry_wrap_small by lia. eexists. split; [done|]. split; [apply table_set; [done|lia]|]. split; [done|]. split; [done|].
    intros b' Hb'. rewrite tokens_set by done. cbn [bucket_step]. destruct (Z.eqb_spec b' b) as [->|]; done.
Qed.
Lemma give_token_ok h b :
  table_ok h -> 0 <= b < ih_hash_size h ->
  exists h', give_token h b = Ret h' /\ table_ok h' /\ same_conf h h' /\ ih_times h' = ih_times h /\
    forall b', 0 <= b' < ih_hash_size h -> tokens h' b' = bucket_step (ih_batch_size h) (ih_initial_tokens h) (ih_timer_add h) b' (EInc b) (tokens h b').
Proof.
  intros Ht Hb. unfold give_token. rewrite tokens_lookup by done. cbn [of_option mbind outcome_bind]. pose proof (tokens_range h b Ht) as Hr.
  destruct (Z.geb_spec (tokens h b) (ih_initial_tokens h)).
  - exists h. split; [done|]. split; [done|]. split; [done|]. split; [done|]. intros b' Hb'. cbn [bucket_step]. destruct (Z.eqb_spec b' b) as [->|]; [lia|done].
  - pose proof (to_add h Ht). pose proof (to_initial h Ht). rewrite entry_wrap_small by lia. eexists. split; [done|].
    split; [apply table_set; [done|lia]|]. split; [done|]. split; [done|].
    intros b' Hb'. rewrite tokens_set by done. cbn [bucket_step]. destruct (Z.eqb_spec b' b) as [->|]; [lia|done].
Qed.

(** ** The timer function *)

Lemma ud_lookup h k : table_ok h -> 0 <= k < timercnt h ->
  ih_timerud h !! Z.to_nat k = Some (ih_batch_size h * k, ih_batch_size h * (k + 1)).
Proof.
  intros Ht Hk. rewrite (to_ud h Ht), list_lookup_fmap, lookup_seqZ_lt by lia. simpl. do 3 f_equal; lia.
Qed.

Lemma refill_ok h k :
  table_ok h -> 0 <= k < timercnt h ->
  returns (for_range (ih_batch_size h * k) (ih_batch_size h * (k + 1)) (refill_step h) (ih_entries h)) (fun l =>
    table_ok (set_entries l h) /\
    forall b, 0 <= b < ih_hash_size h ->
      tokens (set_entries l h) b = bucket_step (ih_batch_size h) (ih_initial_tokens h) (ih_timer_add h) b (EFill k) (tokens h b)).
Proof.
  intros Ht Hk. destruct (to_batch h Ht) as [Hb0 Hsz]. destruct (to_add h Ht) as [Ha0 Ha]. pose proof (to_initial h Ht) as Hi0.
  set (n := ih_batch_size h) in *. assert (n * (k + 1) <= ih_hash_size h) as Hend by nia.
  eapply returns_impl; [apply (for_range_inv (fun i l => table_ok (set_entries l h) /\
    forall b, 0 <= b < ih_hash_size h -> tokens (set_entries l h) b =
      if (n * k <=? b) && (b <? i) then Z.min (ih_initial_tokens h) (tokens h b + ih_timer_add h) else tokens h b))|]; [lia| | |].
  - split; [by destruct h|]. intros b Hb. destruct (Z.leb_spec (n * k) b), (Z.ltb_spec b (n * k)); try lia; done.
  - intros i l Hi [Htl Hl]. unfold refill_step. pose proof (tokens_lookup (set_entries l h) i Htl ltac:(simpl; nia)) as E. simpl in E.
    rewrite E. cbn [of_option mbind outcome_bind]. apply returns_ret. rewrite (Hl i) by nia.
    destruct (Z.leb_spec (n * k) i), (Z.ltb_spec i i); try lia. cbn [andb]. pose proof (tokens_range h i Ht). rewrite u32_small by lia.
    set (t := if _ >=? _ then _ else _). assert (t = Z.min (ih_initial_tokens h) (tokens h i + ih_timer_add h)) as ->.
    { unfold t. destruct (Z.geb_spec (tokens h i + ih_timer_add h) (ih_initial_tokens h)); lia. }
    rewrite entry_wrap_small by lia. split; [apply (table_set (set_entries l h)); [done|simpl; lia]|].
    intros b Hb. pose proof (tokens_set (set_entries l h) i (Z.min (ih_initial_tokens h) (tokens h i + ih_timer_add h)) b Htl) as Es. simpl in Es.
    unfold set_entries at 1. simpl. etransitivity; [apply Es; nia|]. rewrite Hl by done.
    destruct (Z.eqb_spec b i) as [->|]; [destruct (Z.leb_spec (n * k) i), (Z.ltb_spec i (i + 1)); try lia; done|].
    destruct (Z.leb_spec (n * k) b), (Z.ltb_spec b i), (Z.ltb_spec b (i + 1)); try lia; done.
  - simpl. intros l [Htl Hl]. split; [done|]. intros b Hb. rewrite Hl by done.
    assert (((n * k <=? b) && (b <? n * (k + 1))) = (b / n =? k)) as ->; [|done].
    destruct (Z.eqb_spec (b / n) k) as [<-|Hne].
    + pose proof (Z.mul_div_le b n Hb0). pose proof (Z.mul_succ_div_gt b n Hb0). destruct (Z.leb_spec (n * (b / n)) b), (Z.ltb_spec b (n * (b / n + 1))); try lia; done.
    + destruct (Z.leb_spec (n * k) b), (Z.ltb_spec b (n * (k + 1))); try done. destruct Hne.
      symmetry. apply (Z.div_unique b n k (b - n * k)); lia.
Qed.

(** ** The timers that are set *)
Section timers.
Context `{Host} {S : Type} `{TimerQueueLaws S}.

Definition timers_in (h : ip_hash) (times : list Z) (m : gmap Z Z) : Prop :=
  forall x t, m !! x = Some t <-> exists i : nat, times !! i = Some t /\ x = timer_addr h (Z.of_nat i).
(** The timers of the table, and the client's. *)
Definition addrs_ok (P : gset Z) (h : ip_hash) : Prop := forall i, 0 <= i < timercnt h -> timer_addr h i ∈ P.

Lemma timer_addr_inj h i j : timer_addr h i = timer_addr h j -> i = j.
Proof. unfold timer_addr, sizeof_timer_link. lia. Qed.
Lemma timers_none h times m i : timers_in h times m -> Z.of_nat (length times) <= i -> m !! timer_addr h i = None.
Proof.
  intros Hm Hi. destruct (m !! timer_addr h i) as [t|] eqn:E; [|done]. apply Hm in E as (j & Hj & E). apply lookup_lt_Some in Hj. apply timer_addr_inj in E. lia.
Qed.
Lemma timers_snoc h times m t : timers_in h times m -> timers_in h (times ++ [t]) (<[timer_addr h (Z.of_nat (length times)) := t]> m).
Proof.
  intros Hm x t'. destruct (decide (x = timer_addr h (Z.of_nat (length times)))) as [->|Hne].
  - rewrite lookup_insert_eq. split.
    + intros [= <-]. exists (length times). split; [|done]. by rewrite lookup_app_r, Nat.sub_diag by lia.
    + intros (i & Hi & E%timer_addr_inj). replace i with (length times) in Hi by lia. by rewrite lookup_app_r, Nat.sub_diag in Hi by lia.
  - rewrite lookup_insert_ne by done. etransitivity; [apply Hm|]. split; intros (i & Hi & ->); exists i; (split; [|done]).
    + apply lookup_app_l_Some. done.
    + apply lookup_app_Some in Hi as [Hi|[Hge Hi]]; [done|]. apply list_lookup_singleton_Some in Hi as [Hz _]. replace i with (length times) in Hne by lia. done.
Qed.
Lemma timers_again h times m i t t' :
  timers_in h times m -> times !! i = Some t ->
  timers_in h (<[i := t']> times) (<[timer_addr h (Z.of_nat i) := t']> (delete (timer_addr h (Z.of_nat i)) m)).
Proof.
  intros Hm Hi x u. pose proof (lookup_lt_Some _ _ _ Hi) as Hlt. destruct (decide (x = timer_addr h (Z.of_nat i))) as [->|Hne].
  - rewrite lookup_insert_eq. split.
    + intros [= <-]. exists i. split; [by apply list_lookup_insert_eq|done].
    + intros (j & Hj & E%timer_addr_inj). replace j with i in Hj by lia. by rewrite list_lookup_insert_eq in Hj.
  - rewrite lookup_insert_ne, lookup_delete_ne by done. etransitivity; [apply Hm|]. split; intros (j & Hj & ->); exists j; (split; [|done]).
    + rewrite list_lookup_insert_ne by congruence. done.
    + rewrite list_lookup_insert_ne in Hj by congruence. done.
Qed.

Lemma timer_call_ok P m s op :
  tq_rep P m s -> allowed P m op -> returns (timer_call op s) (fun s' => tq_rep P (after_op m op) s').
Proof.
  intros Hs Ha. destruct (tq_step P m s op Hs Ha) as (o & m' & s' & E & Hq & Hs'). unfold timer_call. rewrite E. destruct o. simpl. apply returns_ret.
  by rewrite <- (qstep_after _ _ _ _ Hq).
Qed.

Lemma qnext_inv m o m' :
  qstep m TNext o m' -> m <> ∅ -> m' = m /\ m !! o.1 = Some o.2 /\ forall y d, m !! y = Some d -> o.2 <= d.
Proof. inversion 1; subst; done. Qed.

(** The table and the heap together. *)
Definition limiter (P : gset Z) (s : ip_hash * S) : Prop :=
  let '(h, heap) := s in
  table_ok h /\ addrs_ok P h /\ exists m, timers_in h (ih_times h) m /\ tq_rep P m heap.

Lemma fire_ok P h heap :
  limiter P (h, heap) ->
  returns (fire h heap) (fun '(k, h', heap') =>
    0 <= k < timercnt h /\ limiter P (h', heap') /\ same_conf h h' /\
    (forall j t, ih_times h !! j = Some t -> default 0 (ih_times h !! Z.to_nat k) <= t) /\
    ih_times h' = <[Z.to_nat k := u64 (default 0 (ih_times h !! Z.to_nat k) + ih_timer_period h)]> (ih_times h) /\
    forall b, 0 <= b < ih_hash_size h ->
      tokens h' b = bucket_step (ih_batch_size h) (ih_initial_tokens h) (ih_timer_add h) b (EFill k) (tokens h b)).
Proof.
  intros (Ht & HP & m & Hm & Hr). pose proof (to_times h Ht) as Hlen. destruct (to_batch h Ht) as [Hb0 Hsz]. pose proof (to_size h Ht) as Hs0.
  destruct (tq_step P m heap TNext Hr I) as (o & m' & s' & E & Hq & Hr'). unfold fire. rewrite E. destruct o as [x c]. cbn [mbind outcome_bind].
  assert (m' = m /\ m !! x = Some c /\ forall y d, m !! y = Some d -> c <= d) as (Em' & Hx & Hmin).
  { apply (qnext_inv m (x, c) m'); [done|]. intros Em. destruct (lookup_lt_is_Some_2 (ih_times h) 0) as [t Et]; [nia|].
    assert (m !! timer_addr h 0 = Some t) as E0 by (apply Hm; by exists 0%nat). by rewrite Em in E0. }
  subst m'. apply Hm in Hx as (i & Hi & ->). pose proof (lookup_lt_Some _ _ _ Hi) as Hlt.
  eapply returns_bind; [apply (timer_call_ok P m); [done|exists c; apply Hm; by exists i]|]. intros heap2 Hr2. cbn [after_op] in Hr2.
  replace ((timer_addr h (Z.of_nat i) - ih_timers h) / sizeof_timer_link) with (Z.of_nat i) by (unfold timer_addr, sizeof_timer_link; lia).
  unfold batch_timer_fn. rewrite ud_lookup by (done || lia). cbn [of_option mbind outcome_bind].
  destruct (refill_ok h (Z.of_nat i) Ht ltac:(lia)) as (l & -> & Htl & Hl). cbn [mbind outcome_bind]. rewrite Nat2Z.id, Hi. cbn [of_option mbind outcome_bind default].
  set (t' := u64 (c + ih_timer_period h)). set (h' := set_times _ _).
  eapply returns_bind; [eapply returns_bind; [apply (timer_call_ok P (delete (timer_addr h (Z.of_nat i)) m) heap2 (TAdd (timer_addr h (Z.of_nat i)) t')); [done|]|]|].
  - split; [apply HP; lia|]. split; [apply lookup_delete_eq|]. unfold t', UINT64_MAX. pose proof (u64_range (c + ih_timer_period h)). lia.
  - intros heap3 Hr3. apply returns_ret. exact (conj eq_refl Hr3 : (fun '(h0, s0) => h0 = h' /\ tq_rep P _ s0) (h', heap3)).
  - intros [h0 heap3] [-> Hr3]. apply returns_ret. split; [lia|]. split; [|split; [done|]].
    + split; [|split; [done|]].
      * destruct Htl as [T1 T2 T3 T4 T5 T6 T7]. split; try done. simpl. rewrite length_insert. exact T7.
      * eexists. split; [|exact Hr3]. apply (timers_again h (ih_times h) m i c); done.
    + rewrite Nat2Z.id, Hi. simpl. split; [|split; [done|exact Hl]].
      intros j t Hj. apply (Hmin (timer_addr h (Z.of_nat j))). apply Hm. by exists j.
Qed.
End timers.

(** ** Networks

    The network of an address keeps the first [bits] bits of it: a number for
    IPv4, the sixteen bytes for IPv6.  Its bucket is the keyed hash of it, taken
    modulo the size of the table. *)
Inductive net := N4 (network : Z) | N6 (bytes : list Z).
#[global] Instance net_eq_dec : EqDecision net.
Proof. solve_decision. Defined.

Definition ip_net (ip bits : Z) : net := N4 (ip / 2 ^ (32 - bits) * 2 ^ (32 - bits)).
(** The number of bits of byte [i] that are behind the first [bits]. *)
Definition host_bits (bits i : Z) : Z := Z.max 0 (Z.min 8 (8 * (i + 1) - bits)).
Definition net_bytes (m : mem) (src bits : Z) : list Z :=
  (fun i => rd m (src + i) / 2 ^ host_bits bits i * 2 ^ host_bits bits i) <$> seqZ 0 16.
Definition ipv6_net (m : mem) (src bits : Z) : net := N6 (net_bytes m src bits).

Definition net_of (op : ih_op) : option net :=
  match op with
  | Permit4 ip bits | Inc4 ip bits => Some (ip_net ip bits)
  | Permit6 m src bits | Inc6 m src bits => Some (ipv6_net m src bits)
  | Fire => None
  end.

Definition net_bucket `{Host} (seed : mem) (size : Z) (N : net) : outcome Z :=
  x ← match N with N4 n => siphash64 seed 0 n | N6 bs => siphash_buf seed 0 (mem_of 0 bs) 0 16 end;
  Ret (x mod size).

(** The event of an operation is at the bucket of its network. *)
Definition event_at `{Host} (seed : mem) (size : Z) (op : ih_op) (e : ih_event) : Prop :=
  match op, e with
  | Permit4 _ _, EPermit b _ | Permit6 _ _ _, EPermit b _ | Inc4 _ _, EInc b | Inc6 _ _ _, EInc b =>
      exists N, net_of op = Some N /\ net_bucket seed size N = Ret b
  | Fire, EFill _ => True
  | _, _ => False
  end.

(** Packets of a network that are let through. *)
Definition net_granted (N : net) (ops : list ih_op) (es : list ih_event) : Z :=
  Z.of_nat (length (List.filter (fun '(op, e) => bool_decide (net_of op = Some N) && match e with EPermit _ g => g | _ => false end) (zip ops es))).

Lemma net_granted_le `{Host} sd size N b ops es :
  net_bucket sd size N = Ret b -> Forall2 (event_at sd size) ops es -> net_granted N ops es <= granted_of b es.
Proof.
  intros Hb. unfold net_granted, granted_of, count. induction 1 as [|op e ops es He _ IH]; [done|]. cbn [zip zip_with List.filter].
  destruct (bool_decide _ && _) eqn:E.
  - apply andb_true_iff in E as [EN%bool_decide_eq_true Ee]. destruct e as [b' []|b'|k]; try done.
    assert (b' = b) as ->. { destruct op; try done; destruct He as (N' & EN' & E'); congruence. }
    rewrite Z.eqb_refl. cbn [length]. lia.
  - destruct e as [b' []|b'|k]; cbn [length]; try destruct (b =? b'); cbn [length]; lia.
Qed.

(** ** The code on the networks *)

Lemma power_of_2_pow x : power_of_2 x = true -> exists k, 0 <= k /\ x = 2 ^ k.
Proof.
  unfold power_of_2. rewrite andb_true_iff, Z.eqb_eq. intros [Hx Hl]. assert (0 < x) as H0 by lia. exists (Z.log2 x).
  pose proof (Z.log2_nonneg x). pose proof (Z.log2_spec x H0) as [Hle Hlt]. split; [done|]. destruct (decide (x = 2 ^ Z.log2 x)) as [|Hne]; [done|].
  assert (Z.log2 (x - 1) = Z.log2 x) as E by (apply Z.log2_unique; lia). assert (0 < x - 1) as H1 by (pose proof (Z.pow_pos_nonneg 2 (Z.log2 x)); lia).
  pose proof (Z.bit_log2 x H0) as B1. pose proof (Z.bit_log2 (x - 1) H1) as B2. rewrite E in B2.
  assert (Z.testbit (Z.land x (x - 1)) (Z.log2 x) = true) as B by (by rewrite Z.land_spec, B1, B2). rewrite Hl, Z.bits_0 in B. done.
Qed.

Section hashing.
Context `{Host}.

Lemma get64_returns m p : valid m p 8 -> exists x, hdr_get64h m p = Ret x.
Proof. intros Hv. unfold hdr_get64h. rewrite loadn_ok by done. eexists. done. Qed.
Lemma sip_init_returns sd : valid sd 0 16 -> exists c, siphash_init sd 0 = Ret c /\ sip_b c = 0.
Proof.
  intros Hv. destruct (get64_returns sd 0) as [k0 E0]; [solve_valid|]. destruct (get64_returns sd (0 + 8)) as [k1 E1]; [solve_valid|].
  unfold siphash_init. rewrite E0. cbn [mbind outcome_bind]. rewrite E1. eexists. done.
Qed.
Lemma sip_rounds_b n c : sip_b (Nat.iter n sip_round c) = sip_b c.
Proof. induction n as [|n IH]; [done|]. simpl. rewrite <- IH. by destruct (Nat.iter n sip_round c). Qed.
Lemma sip_feed_b c x : sip_b (siphash_feed_u64 c x) = sip_b c.
Proof. unfold siphash_feed_u64. cbn [sip_b]. rewrite sip_rounds_b. done. Qed.

(** A buffer of two words. *)
Lemma siphash16_words sd m x0 x1 :
  valid sd 0 16 -> hdr_get64h m 0 = Ret x0 -> hdr_get64h m (0 + 8) = Ret x1 ->
  exists c, siphash_init sd 0 = Ret c /\ siphash_buf sd 0 m 0 16 =
    Ret (siphash_get (let c := siphash_feed_u64 (siphash_feed_u64 c x0) x1 in Sip (v0 c) (v1 c) (v2 c) (v3 c) (u64 (inlen c + 0)) 0)).
Proof.
  intros Hs E0 E1. destruct (sip_init_returns sd Hs) as (c & Ec & Hb). exists c. split; [done|]. unfold siphash_buf. rewrite Ec. cbn [mbind outcome_bind].
  change (feed_words_fuel 16) with 3%nat.
  rewrite (iter_inl _ _ _ (siphash_feed_u64 c x0, 0 + 8, 16 - 8)) by (unfold feed_words_step; cbn [Z.geb Z.compare Pos.compare Pos.compare_cont]; rewrite E0; done).
  rewrite (iter_inl _ _ _ (siphash_feed_u64 (siphash_feed_u64 c x0) x1, 0 + 8 + 8, 16 - 8 - 8))
    by (unfold feed_words_step; change (16 - 8 >=? 8) with true; rewrite E1; done).
  rewrite (iter_inr _ _ _ (siphash_feed_u64 (siphash_feed_u64 c x0) x1, 0 + 8 + 8, 16 - 8 - 8)) by done. cbn [mbind outcome_bind].
  unfold siphash_feed_remaining. change (16 - 8 - 8 >=? 8) with false. rewrite !sip_feed_b, Hb. cbn [Z.eqb negb]. done.
Qed.
Lemma loadn_agree m m' n : forall p, (forall i, 0 <= i < Z.of_nat n -> m !! (p + i) = m' !! (p + i)) -> loadn m p n = loadn m' p n.
Proof.
  induction n as [|n IH]; intros p Hm; [done|]. cbn [loadn]. unfold load8. pose proof (Hm 0 ltac:(lia)) as E. rewrite Z.add_0_r in E. rewrite E.
  rewrite (IH (p + 1)); [done|]. intros i Hi. rewrite <- !Z.add_assoc. apply Hm. lia.
Qed.
Lemma get64_agree m m' p : (forall i, 0 <= i < 8 -> m !! (p + i) = m' !! (p + i)) -> hdr_get64h m p = hdr_get64h m' p.
Proof. intros Hm. unfold hdr_get64h. by rewrite (loadn_agree m m' 8 p Hm). Qed.
Lemma siphash16_agree sd m m' :
  valid sd 0 16 -> valid m 0 16 -> (forall i, 0 <= i < 16 -> m !! i = m' !! i) ->
  exists x, siphash_buf sd 0 m 0 16 = Ret x /\ siphash_buf sd 0 m' 0 16 = Ret x.
Proof.
  intros Hs Hm Ha. destruct (get64_returns m 0) as [x0 E0]; [solve_valid|]. destruct (get64_returns m (0 + 8)) as [x1 E1]; [solve_valid|].
  destruct (siphash16_words sd m x0 x1 Hs E0 E1) as (c & Ec & E).
  rewrite (get64_agree m m' 0) in E0 by (intros i Hi; apply Ha; lia). rewrite (get64_agree m m' (0 + 8)) in E1 by (intros i Hi; apply Ha; lia).
  destruct (siphash16_words sd m' x0 x1 Hs E0 E1) as (c' & Ec' & E'). rewrite Ec in Ec'. injection Ec' as <-. eexists. split; [exact E|exact E'].
Qed.

Lemma masked_bucket h x : table_ok h -> power_of_2 (ih_hash_size h) = true -> u32 (Z.land x (u32 (ih_hash_size h - 1))) = x mod ih_hash_size h.
Proof.
  intros Ht (k & Hk & E)%power_of_2_pow. pose proof (to_size h Ht). rewrite (u32_small (ih_hash_size h - 1)) by lia.
  replace (ih_hash_size h - 1) with (Z.ones k) by (rewrite E, Z.ones_equiv; lia). rewrite Z.land_ones, <- E by done.
  pose proof (Z.mod_pos_bound x (ih_hash_size h)). apply u32_small. lia.
Qed.

Lemma clear_low x k : 0 <= k -> Z.land x (Z.lnot (Z.shiftl 1 k - 1)) = x / 2 ^ k * 2 ^ k.
Proof.
  intros Hk. rewrite <- Z.ldiff_land. replace (Z.shiftl 1 k - 1) with (Z.ones k) by (rewrite Z.ones_equiv, Z.shiftl_1_l; lia).
  by rewrite Z.ldiff_ones_r, Z.shiftl_mul_pow2, Z.shiftr_div_pow2 by done.
Qed.

Lemma ip_bucket_ok sd h ip bits :
  table_ok h -> power_of_2 (ih_hash_size h) = true -> valid sd 0 16 -> 0 <= ip < 2 ^ 32 -> 1 <= bits <= 32 ->
  exists b, ip_bucket (Some sd) ip bits h = Ret b /\ net_bucket sd (ih_hash_size h) (ip_net ip bits) = Ret b /\ 0 <= b < ih_hash_size h.
Proof.
  intros Ht Hp Hs Hip Hb. destruct (sip_init_returns sd Hs) as (c & Ec & _). unfold ip_bucket.
  destruct (Z.ltb_spec (32 - bits) 0); [lia|]. destruct (Z.geb_spec (32 - bits) 32); [lia|]. cbn [orb of_option mbind outcome_bind].
  assert (Z.land ip (Z.land (u32 (Z.lnot (Z.shiftl 1 (32 - bits) - 1))) 4294967295) = ip / 2 ^ (32 - bits) * 2 ^ (32 - bits)) as ->.
  { rewrite <- clear_low by lia. unfold u32. change 4294967296 with (2 ^ 32). change 4294967295 with (Z.ones 32). rewrite <- Z.land_ones by lia.
    assert (Z.land ip (Z.ones 32) = ip) as Ei by (rewrite Z.land_ones by lia; apply Z.mod_small; lia).
    rewrite <- Ei at 2. apply Z.bits_inj'. intros i _. rewrite !Z.land_spec. destruct (Z.testbit ip i), (Z.testbit (Z.ones 32) i); cbn [andb]; rewrite ?andb_true_r, ?andb_false_r; done. }
  unfold siphash64, net_bucket, ip_net, siphash64. rewrite Ec. cbn [mbind outcome_bind]. rewrite masked_bucket by done. eexists. split; [done|]. split; [done|].
  apply Z.mod_pos_bound, (to_size h Ht).
Qed.

Lemma ipv6_bucket_ok sd h m src bits :
  table_ok h -> power_of_2 (ih_hash_size h) = true -> valid sd 0 16 -> valid m src 16 -> bytes_ok m -> 1 <= bits <= 128 ->
  exists b, ipv6_bucket (Some sd) m src bits h = Ret b /\ net_bucket sd (ih_hash_size h) (ipv6_net m src bits) = Ret b /\ 0 <= b < ih_hash_size h.
Proof.
  intros Ht Hp Hs Hv Hm Hb. unfold ipv6_bucket.
  destruct (memcpy_from_ok (mem_fun 16 (fun _ => 0)) 0 m src 16) as (n1 & -> & Hc); [done|lia|apply mem_fun_valid|done|]. cbn [mbind outcome_bind].
  assert (valid n1 0 16) as Hv1 by (eapply copied_valid; [exact Hc|done|apply mem_fun_valid]).
  rewrite (u32_small (128 - bits)) by lia. set (toset := (128 - bits) / 8). assert (0 <= toset <= 15) as Hto by (unfold toset; lia).
  unfold memset. destruct (storen_ok n1 (16 - toset) (replicate (Z.to_nat toset) (u8 0))) as (n2 & -> & H2);
    [rewrite length_replicate; solve_valid|apply Forall_replicate; done|]. cbn [mbind outcome_bind].
  assert (valid n2 0 16) as Hv2.
  { intros i Hi. rewrite H2. destruct (decide _) as [Hd|]; [apply lookup_lt_is_Some_2; lia|by apply Hv1]. }
  destruct (Hv2 (16 - toset - 1)) as [c Ec]; [lia|]. unfold load8 at 1. rewrite Ec. cbn [of_option mbind outcome_bind].
  rewrite store8_ok by solve_valid. cbn [mbind outcome_bind]. rewrite clear_low by lia.
  set (n3 := wr8 n2 _ _). destruct (siphash16_agree sd n3 (mem_of 0 (net_bytes m src bits)) Hs) as (x & Ex & Ex'); [by apply valid_wr8| |].
  2:{ rewrite Ex. cbn [mbind outcome_bind]. rewrite masked_bucket by done. eexists. split; [done|]. unfold net_bucket, ipv6_net. rewrite Ex'. split; [done|].
      apply Z.mod_pos_bound, (to_size h Ht). }
  intros i Hi. etransitivity; [|symmetry; apply (mem_of_lookup 0); lia]. unfold net_bytes. rewrite list_lookup_fmap, lookup_seqZ_lt by lia. cbn [fmap option_fmap option_map].
  replace (0 + Z.of_nat (Z.to_nat i)) with i by lia. set (q := 16 - toset - 1) in *.
  assert (forall j, 0 <= j <= q -> n2 !! j = Some (rd m (src + j))) as Hlow.
  { intros j Hj. rewrite H2, length_replicate. destruct (decide _); [lia|]. rewrite Hc. destruct (decide _); [|lia].
    rewrite Z.sub_0_r. apply lookup_rd. solve_valid. }
  rewrite Hlow in Ec by lia. injection Ec as <-. unfold n3, wr8. pose proof (rd_range m (src + i) Hm) as Hr.
  destruct (Z.lt_trichotomy i q) as [Hlt|[->|Hgt]].
  - rewrite lookup_insert_ne, Hlow by lia. replace (host_bits bits i) with 0 by (unfold host_bits; lia). by rewrite Z.div_1_r, Z.mul_1_r.
  - rewrite lookup_insert_eq. replace (host_bits bits q) with ((128 - bits) mod 8) by (unfold host_bits; lia). f_equal. apply Z.mod_small.
    assert (0 < 2 ^ ((128 - bits) mod 8)) by (apply Z.pow_pos_nonneg; lia).
    pose proof (Z.mul_div_le (rd m (src + q)) (2 ^ ((128 - bits) mod 8))). pose proof (Z.div_pos (rd m (src + q)) (2 ^ ((128 - bits) mod 8))). nia.
  - rewrite lookup_insert_ne, H2, length_replicate by lia. destruct (decide _); [|lia]. rewrite lookup_replicate_2 by lia.
    replace (host_bits bits i) with 8 by (unfold host_bits; lia). by rewrite Z.div_small.
Qed.
End hashing.

(** ** Setting up and tearing down *)

(** A configuration the limiter accepts. *)
Record conf_ok (h : ip_hash) : Prop := {
  co_size : power_of_2 (ih_hash_size h) = true /\ ih_hash_size h < 2 ^ 32;
  co_batch : power_of_2 (ih_batch_size h) = true /\ ih_batch_size h <= ih_hash_size h;
  co_tokens : 0 <= ih_initial_tokens h /\ 0 <= ih_timer_add h /\ ih_initial_tokens h + ih_timer_add h < 2 ^ 32
}.
Lemma conf_sizes h : conf_ok h -> 0 < ih_batch_size h /\ 0 < ih_hash_size h < 2 ^ 32 /\ 0 < timercnt h /\ ih_hash_size h = ih_batch_size h * timercnt h.
Proof.
  intros [[Hs Hlt] [Hb Hle] _]. apply power_of_2_pow in Hs as (a & Ha & Es), Hb as (b & Hb & Eb). unfold timercnt.
  assert (b <= a) as Hab by (apply (Z.pow_le_mono_r_iff 2); lia). assert (0 < 2 ^ a) by (apply Z.pow_pos_nonneg; lia). assert (0 < 2 ^ b) by (apply Z.pow_pos_nonneg; lia).
  assert (0 < 2 ^ (a - b)) by (apply Z.pow_pos_nonneg; lia).
  assert (2 ^ a = 2 ^ b * 2 ^ (a - b)) as E by (rewrite <- Z.pow_add_r by lia; f_equal; lia).
  rewrite Es, Eb, E, (Z.mul_comm (2 ^ b)), Z.div_mul by lia. lia.
Qed.

Section setup.
Context `{Host} {S : Type} `{TimerQueueLaws S}.

Definition with_timers (tm : Z) (h : ip_hash) : ip_hash :=
  IpHash (ih_entries h) tm [] [] (ih_initial_tokens h) (ih_timer_period h) (ih_timer_add h) (ih_hash_size h) (ih_batch_size h).

Lemma limiter_init_ok P h heap now tm l0 :
  conf_ok h -> tq_rep P ∅ heap -> addrs_ok P (with_timers tm h) ->
  returns (ip_hash_init h heap now (Some tm) (Some l0)) (fun '(h', heap') =>
    limiter P (h', heap') /\ same_conf (with_timers tm h) h' /\ forall b, 0 <= b < ih_hash_size h -> tokens h' b = ih_initial_tokens h).
Proof.
  intros Hco Hr HP. destruct (conf_sizes h Hco) as (Hb0 & Hs0 & Hc0 & Esz). destruct Hco as [[Hs _] [Hb Hle] (Hi & Ha & Hia)].
  unfold ip_hash_init. destruct (Z.eqb_spec (ih_batch_size h) 0); [lia|]. rewrite Hs, Hb. destruct (Z.ltb_spec (ih_hash_size h) (ih_batch_size h)); [lia|].
  cbn [negb orb of_option mbind outcome_bind]. fold (with_timers tm h). fold (timercnt h). set (h0 := with_timers tm h) in *.
  eapply returns_bind; [apply (for_range_inv (fun i '(times, ud, s) => Z.of_nat (length times) = i /\
    ud = (fun j => (ih_batch_size h * j, ih_batch_size h * (j + 1))) <$> seqZ 0 i /\
    exists m, timers_in h0 times m /\ tq_rep P m s))|]; [lia| | |].
  - split; [done|]. split; [done|]. exists ∅. split; [|done]. intros x t. split; [done|]. intros (i & Hi' & _). done.
  - intros i [[times ud] s] Hir (Hlen & -> & m & Hm & Hrm). unfold init_timer_step.
    eapply returns_bind; [apply (timer_call_ok P m s (TAdd (timer_addr h0 i) _)); [done|]|].
    { split; [by apply HP|]. split; [eapply timers_none; [exact Hm|lia]|]. match goal with |- 0 <= u64 ?x <= _ => pose proof (u64_range x) end. unfold UINT64_MAX. lia. }
    intros s' Hs'. apply returns_ret. split; [rewrite length_app; simpl; lia|]. split.
    + replace (i + 1) with (i + Z.of_nat 1) by lia. rewrite seqZ_app by lia. rewrite fmap_app. simpl. repeat f_equal; lia.
    + eexists. split; [|exact Hs']. cbn [after_op]. rewrite <- Hlen. by apply timers_snoc.
  - intros [[times ud] s] (Hlen & -> & m & Hm & Hrm). apply returns_ret.
    assert (entry_wrap h0 (ih_initial_tokens h0) = ih_initial_tokens h) as Ew by (apply entry_wrap_small; simpl; lia). rewrite Ew.
    split; [|split; [done|]].
    + split; [|split; [exact HP|by exists m]]. split; try done; simpl; try lia.
      * split; [by rewrite length_replicate, Z2Nat.id by lia|]. apply Forall_replicate. lia.
    + intros b Hbr. unfold tokens. simpl. rewrite lookup_replicate_2 by lia. done.
Qed.

Lemma free_ok P h heap :
  conf_ok h -> limiter P (h, heap) -> returns (ip_hash_free h heap) (fun heap' => tq_rep P ∅ heap').
Proof.
  intros Hco (Ht & HP & m & Hm & Hr). destruct (conf_sizes h Hco) as (Hb0 & Hs0 & Hc0 & Esz). destruct Hco as [[Hs _] [Hb Hle] _].
  unfold ip_hash_free. destruct (Z.eqb_spec (ih_batch_size h) 0); [lia|]. rewrite Hs, Hb. destruct (Z.ltb_spec (ih_hash_size h) (ih_batch_size h)); [lia|].
  cbn [negb orb]. fold (timercnt h). pose proof (to_times h Ht) as Hlen.
  eapply returns_impl; [apply (for_range_inv (fun i s => exists m', tq_rep P m' s /\
    forall x t, m' !! x = Some t <-> exists j : nat, ih_times h !! j = Some t /\ x = timer_addr h (Z.of_nat j) /\ i <= Z.of_nat j))|]; [lia| | |].
  - exists m. split; [done|]. intros x t. etransitivity; [apply Hm|]. split; intros (j & Hj & E); exists j; intuition lia.
  - intros i s Hi (m' & Hr' & Hm'). destruct (lookup_lt_is_Some_2 (ih_times h) (Z.to_nat i)) as [t Et]; [lia|].
    eapply returns_impl; [apply (timer_call_ok P m' s (TRemove (timer_addr h i))); [done|]|].
    { exists t. apply Hm'. exists (Z.to_nat i). split; [done|]. split; [f_equal; lia|lia]. }
    intros s' Hs'. exists (delete (timer_addr h i) m'). split; [exact Hs'|]. intros x u. destruct (decide (x = timer_addr h i)) as [->|Hne].
    + rewrite lookup_delete_eq. split; [done|]. intros (j & _ & E%timer_addr_inj & Hle'). lia.
    + rewrite lookup_delete_ne by done. etransitivity; [apply Hm'|]. split; intros (j & Hj & -> & Hle'); exists j; (split; [done|]); (split; [done|]); [|lia].
      destruct (decide (Z.of_nat j = i)) as [E|]; [by rewrite E in Hne|lia].
  - intros s (m' & Hr' & Hm'). assert (m' = ∅) as E; [|by rewrite E in Hr']. apply map_empty. intros x. destruct (m' !! x) as [t|] eqn:E; [|done].
    apply Hm' in E as (j & Hj & _ & Hle'). apply lookup_lt_Some in Hj. lia.
Qed.
End setup.

(** ** Runs *)
Section runs.
Context `{Host} {S : Type} `{TimerQueueLaws S}.

Definition op_ok (op : ih_op) : Prop :=
  match op with
  | Permit4 ip bits | Inc4 ip bits => 0 <= ip < 2 ^ 32 /\ 1 <= bits <= 32
  | Permit6 m src bits | Inc6 m src bits => valid m src 16 /\ bytes_ok m /\ 1 <= bits <= 128
  | Fire => True
  end.

Definition stepped (h : ip_hash) (e : ih_event) (h' : ip_hash) : Prop :=
  same_conf h h' /\ event_ok (ih_hash_size h) (ih_batch_size h) (tokens h) e /\
  forall b, 0 <= b < ih_hash_size h -> tokens h' b = bucket_step (ih_batch_size h) (ih_initial_tokens h) (ih_timer_add h) b e (tokens h b).

Lemma limiter_same P h heap h' :
  limiter P (h, heap) -> table_ok h' -> same_conf h h' -> ih_times h' = ih_times h -> limiter P (h', heap).
Proof.
  intros (Ht & HP & m & Hm & Hr) Ht' (E1 & E2 & E3 & E4 & E5 & E6) Et. split; [done|].
  assert (forall i, timer_addr h' i = timer_addr h i) as Ea by (intros i; unfold timer_addr; by rewrite E1). split.
  - intros i Hi. rewrite Ea. apply HP. unfold timercnt in *. by rewrite E5, E6 in Hi.
  - exists m. split; [|done]. rewrite Et. intros x t. setoid_rewrite Ea. apply Hm.
Qed.

Lemma ih_do_ok P sd h heap op :
  limiter P (h, heap) -> power_of_2 (ih_hash_size h) = true -> valid sd 0 16 -> op_ok op ->
  returns (ih_do (Some sd) op (h, heap)) (fun '(e, (h', heap')) => event_at sd (ih_hash_size h) op e /\ limiter P (h', heap') /\ stepped h e h').
Proof.
  intros Hl Hp Hs Hop. pose proof Hl as (Ht & _).
  assert (forall b, 0 <= b < ih_hash_size h -> (forall g, event_at sd (ih_hash_size h) op (EPermit b g)) ->
    returns ('(r, h') ← take_token h b; Ret (EPermit b (negb (r =? 0)), (h', heap)))
      (fun '(e, (h', heap')) => event_at sd (ih_hash_size h) op e /\ limiter P (h', heap') /\ stepped h e h')) as Htake.
  { intros b Hb Hat. destruct (take_token_ok h b Ht Hb) as (h' & -> & Ht' & Hc & Hti & Hst). apply returns_ret. split; [apply Hat|].
    assert (negb (b2z (0 <? tokens h b) =? 0) = (0 <? tokens h b)) as E by (by destruct (0 <? tokens h b)). rewrite E.
    split; [by eapply limiter_same|]. split; [done|]. split; [|exact Hst]. split; [done|]. apply Z.ltb_lt. }
  assert (forall b, 0 <= b < ih_hash_size h -> event_at sd (ih_hash_size h) op (EInc b) ->
    returns (h' ← give_token h b; Ret (EInc b, (h', heap)))
      (fun '(e, (h', heap')) => event_at sd (ih_hash_size h) op e /\ limiter P (h', heap') /\ stepped h e h')) as Hgive.
  { intros b Hb Hat. destruct (give_token_ok h b Ht Hb) as (h' & -> & Ht' & Hc & Hti & Hst). apply returns_ret. split; [done|].
    split; [by eapply limiter_same|]. split; [done|]. split; [done|exact Hst]. }
  destruct op as [ip bits|m src bits|ip bits|m src bits|]; cbn [ih_do op_ok] in *;
    unfold ip_permitted, ipv6_permitted, ip_increment_one, ipv6_increment_one.
  - destruct Hop as (Hip & Hbits). destruct (ip_bucket_ok sd h ip bits Ht Hp Hs Hip Hbits) as (b & E & EN & Hb). rewrite E. apply Htake; [done|by eexists].
  - destruct Hop as (Hv & Hm & Hbits). destruct (ipv6_bucket_ok sd h m src bits Ht Hp Hs Hv Hm Hbits) as (b & E & EN & Hb). rewrite E. apply Htake; [done|by eexists].
  - destruct Hop as (Hip & Hbits). destruct (ip_bucket_ok sd h ip bits Ht Hp Hs Hip Hbits) as (b & E & EN & Hb). rewrite E. apply Hgive; [done|by eexists].
  - destruct Hop as (Hv & Hm & Hbits). destruct (ipv6_bucket_ok sd h m src bits Ht Hp Hs Hv Hm Hbits) as (b & E & EN & Hb). rewrite E. apply Hgive; [done|by eexists].
  - eapply returns_bind; [by apply fire_ok|]. intros [[k h'] heap'] (Hk & Hl' & Hc & _ & _ & Hst). apply returns_ret. split; [done|]. split; [done|]. by split.
Qed.

Lemma ih_run_ok P sd ops : forall h heap f,
  limiter P (h, heap) -> power_of_2 (ih_hash_size h) = true -> valid sd 0 16 -> Forall op_ok ops -> (forall b, 0 <= b < ih_hash_size h -> tokens h b = f b) ->
  returns (ih_run (Some sd) ops (h, heap)) (fun '(es, (h', heap')) => Forall2 (event_at sd (ih_hash_size h)) ops es /\ limiter P (h', heap') /\ same_conf h h' /\
    exists g, buckets_run (ih_hash_size h) (ih_batch_size h) (ih_initial_tokens h) (ih_timer_add h) f es g /\
      forall b, 0 <= b < ih_hash_size h -> tokens h' b = g b).
Proof.
  induction ops as [|op ops IH]; intros h heap f Hl Hp Hs Hops Hf; cbn [ih_run].
  { apply returns_ret. split; [done|]. split; [done|]. split; [done|]. exists f. split; [constructor|done]. }
  apply list.Forall_cons in Hops as [Hop Hops]. eapply returns_bind; [by apply (ih_do_ok P)|]. intros [e [h1 heap1]] (Hat & Hl1 & (Hc & He & Hst)).
  pose proof Hc as (C1 & C2 & C3 & C4 & C5 & C6).
  eapply returns_bind; [apply (IH h1 heap1 (fun b => bucket_step (ih_batch_size h) (ih_initial_tokens h) (ih_timer_add h) b e (f b))); try done|].
  { by rewrite C5. }
  { intros b Hb. rewrite C5 in Hb. rewrite Hst, Hf by done. done. }
  intros [es [h' heap']] (Hats & Hl' & Hc' & g & Hrun & Hg). apply returns_ret. rewrite C2, C4, C5, C6 in Hrun. rewrite C5 in Hats. split; [by constructor|]. split; [done|].
  split; [destruct Hc' as (D1 & D2 & D3 & D4 & D5 & D6); repeat split; congruence|]. exists g. split; [|intros b Hb; apply Hg; by rewrite C5].
  constructor; [|done]. destruct e as [b gr|b|k]; simpl in *; [|done..]. destruct He as [Hb Hgr]. split; [done|]. by rewrite <- Hf.
Qed.
End runs.

(** C5: the rate limiter keeps its promise on any timer library that keeps the
    interface's.  Set up with a power-of-two table and batch, and run on any
    sequence of packets, returned tokens and expiring timers (of IPv4 networks of
    1 to 32 bits and IPv6 networks of 1 to 128), it never leaves the table and
    never aborts; every packet and every returned token counts at the bucket
    whose number is the keyed hash, modulo the size of the table, of the network
    of the address: the address with the bits behind the first [bits] cleared.
    The entries are token buckets: a packet is let through exactly when its
    bucket has a token, an expired timer refills one batch up to the initial
    number and is set again.  So no more packets of a network are let through
    than the initial tokens of its bucket, what the refills of its batch add, and
    what is given back to the bucket; networks with the same bucket share these
    tokens.  Then [ip_hash_free] takes all timers out of the heap. *)
Theorem ip_hash_limits_rate `{Host} {S} `{TimerQueueLaws S} (P : gset Z) hash heap now tm l0 sd ops :
  conf_ok hash -> tq_rep P ∅ heap -> addrs_ok P (with_timers tm hash) -> valid sd 0 16 -> Forall op_ok ops ->
  exists es h heap', (s ← ip_hash_init hash heap now (Some tm) (Some l0); ih_run (Some sd) ops s) = Ret (es, (h, heap')) /\
    Forall2 (event_at sd (ih_hash_size hash)) ops es /\
    (exists g, buckets_run (ih_hash_size hash) (ih_batch_size hash) (ih_initial_tokens hash) (ih_timer_add hash) (fun _ => ih_initial_tokens hash) es g /\
      forall b, 0 <= b < ih_hash_size hash -> tokens h b = g b) /\
    (forall N b, net_bucket sd (ih_hash_size hash) N = Ret b ->
      net_granted N ops es <= granted_of b es <= ih_initial_tokens hash + ih_timer_add hash * fills_of (ih_batch_size hash) b es + given_of b es) /\
    returns (ip_hash_free h heap') (fun heap'' => tq_rep P ∅ heap'').
Proof.
  intros Hco Hr HP Hs Hops. destruct (limiter_init_ok P hash heap now tm l0 Hco Hr HP) as ([h0 heap0] & E0 & Hl0 & Hc0 & Ht0).
  pose proof Hc0 as (C1 & C2 & C3 & C4 & C5 & C6). simpl in *.
  destruct (ih_run_ok P sd ops h0 heap0 (fun _ => ih_initial_tokens hash) Hl0) as ([es [h heap']] & E & Hats & Hl & Hc & g & Hrun & Hg); [|done|done| |].
  { rewrite C5. apply Hco. }
  { intros b Hb. apply Ht0. by rewrite <- C5. }
  rewrite C2, C4, C5, C6 in Hrun. rewrite C5 in Hats. exists es, h, heap'. rewrite E0. cbn [mbind outcome_bind]. split; [exact E|]. split; [exact Hats|].
  split; [exists g; split; [done|]; intros b Hb; apply Hg; by rewrite C5|]. destruct Hco as [K1 K2 (K3 & K4 & K5)]. split.
  - intros N b HN. split; [by eapply net_granted_le|].
    destruct (rate_bound _ _ _ _ _ _ _ b K4 Hrun) as [Hgr Hb]; [lia|]. lia.
  - apply free_ok; [|done]. destruct Hc as (D1 & D2 & D3 & D4 & D5 & D6). split; [by rewrite D5, C5|by rewrite D6, C6, D5, C5|by rewrite D2, D4, C2, C4].
Qed.

(** Four buckets of two tokens in two batches, whose timers are in a link heap. *)
Definition sample_conf : ip_hash := IpHash [] 0 [] [] 2 1000 1 4 2.
Definition sample_memory : gmap Z timer_cell :=
  <[1 := Root 7]> (<[9 := Root 7]> (<[100 := Node (mkNode 0 0 0 0)]> (<[148 := Node (mkNode 0 0 0 0)]> ∅))).

Lemma ip_hash_limits_rate_witness :
  let sd := mem_fun 16 (fun i => i) in
  let ops := [Permit4 0x0a000001 24; Permit4 0x0a000002 24; Permit4 0x0a000003 24; Fire; Fire; Permit4 0x0a000004 24; Inc4 0x0a000005 24] in
  exists heap0 es h heap', timer_linkheap_init 1 sample_memory = Ret (tt, heap0) /\
    (s ← ip_hash_init (H0 := link_timers 6 1) sample_conf heap0 (fun _ => 50) (Some 100) (Some []);
     ih_run (H := little_endian_host) (H0 := link_timers 6 1) (Some sd) ops s) = Ret (es, (h, heap')) /\
    net_of (Permit4 0x0a000003 24) = Some (N4 0x0a000000) /\
    exists b, net_bucket (H := little_endian_host) sd 4 (N4 0x0a000000) = Ret b /\ net_granted (N4 0x0a000000) ops es <= 2 + 1 * fills_of 2 b es + given_of b es.
Proof.
  intros sd ops.
  destruct (link_init 6 1 {[100; 148]} sample_memory 7 7) as (heap0 & E0 & HR).
  { vm_compute. reflexivity. }
  { vm_compute. lia. }
  { intros x Hx. repeat (apply elem_of_union in Hx as [Hx|Hx]); apply elem_of_singleton in Hx as ->; (split; [done|eexists; reflexivity]). }
  { reflexivity. }
  { reflexivity. }
  destruct (ip_hash_limits_rate (H := little_endian_host) (H0 := link_timers 6 1) {[100; 148]} sample_conf heap0 (fun _ => 50) 100 [] sd ops)
    as (es & h & heap' & E & _ & _ & Hb & _).
  - split; [split; [reflexivity|simpl; lia]..|simpl; lia].
  - exact HR.
  - intros i Hi. change (timercnt _) with 2 in Hi. assert (i = 0 \/ i = 1) as [->| ->] by lia; apply (bool_decide_unpack _); reflexivity.
  - intros i Hi. unfold sd. rewrite mem_fun_lookup by lia. by eexists.
  - repeat constructor; simpl; lia.
  - exists heap0, es, h, heap'. split; [exact E0|]. split; [exact E|]. split; [reflexivity|].
    eexists. split; [vm_compute; reflexivity|]. destruct (Hb (N4 0x0a000000) _ ltac:(vm_compute; reflexivity)) as [Hle Hle'].
    etransitivity; [exact Hle|exact Hle'].
Defined.
