(* ===== verification/Pcap.v ===== *)
(** Capture files in the pcap format: mypcap/mypcap.h and mypcap/mypcap.c.

    The C library's files are modelled as far as the code uses them: a file that
    is read is the bytes still to come, and whether the end of them is the end of
    the file or an error; a file that is written is the bytes so far and the room
    that is left. *)
From S2P Require Import Prelude Bytes Packet DataBuf.

Definition EPERM : Z := 1.
Definition ENOENT : Z := 2.
Definition EIO : Z := 5.
Definition EINVAL : Z := 22.

(** ** Files *)

Record rfile := RFile { rf_data : list Z; rf_fails : bool; rf_eof : bool }.
Record wfile := WFile { wf_data : list Z; wf_room : Z; wf_flushes : bool }.

(** [fread(p, n, 1, f)]: the number of items read, 0 or 1; an item of size 0 is
    never read. *)
Definition fread (m : mem) (p n : Z) (f : rfile) : outcome (Z * mem * rfile) :=
  if n =? 0 then Ret (0, m, f) else
  let got := take (Z.to_nat n) (rf_data f) in
  m ← storen m p got;
  if Z.of_nat (length got) =? n then Ret (1, m, RFile (drop (Z.to_nat n) (rf_data f)) (rf_fails f) (rf_eof f))
  else Ret (0, m, RFile [] (rf_fails f) (rf_eof f || negb (rf_fails f))).
Definition feof (f : rfile) : bool := rf_eof f.

(** [fwrite(p, n, 1, f)]: the number of items written. *)
Definition fwrite (m : mem) (p n : Z) (f : wfile) : outcome (Z * wfile) :=
  if n =? 0 then Ret (0, f) else
  bs ← loadn m p (Z.to_nat n);
  if n <=? wf_room f then Ret (1, WFile (wf_data f ++ bs) (wf_room f - n) (wf_flushes f))
  else Ret (0, WFile (wf_data f ++ take (Z.to_nat (wf_room f)) bs) 0 (wf_flushes f)).
Definition fflush (f : wfile) : Z := if wf_flushes f then 0 else -1.

(** A local array; no byte of it is read before it is written. *)
Definition local_array (n : Z) : mem := mem_fun n (fun _ => 0).

(** The signed value of 32 bits. *)
Definition s32 (x : Z) : Z := if x <? 2147483648 then x else x - 4294967296.

(** ** mypcap/mypcap.h *)

Record pcap_in_ctx := PcapIn { pi_f : option rfile; pi_swap : bool; pi_ns : bool; pi_thiszone : Z }.
Record pcap_out_ctx := PcapOut { po_f : option wfile }.

(** What the pointer arguments of the reading function point to; [len], [snap]
    and [time64] may be [NULL]. *)
Record read_args := ReadArgs {
  ra_buf : option mem; ra_bufcapacity : Z; ra_len : option Z; ra_snap : option Z; ra_time64 : option Z }.

(** [if (p) { *p = v; }] *)
Definition set_out (p : option Z) (v : Z) : option Z := (fun _ => v) <$> p.

(** ** mypcap/mypcap.c *)

Definition pcap_in_ctx_free (ctx : pcap_in_ctx) : pcap_in_ctx := PcapIn None (pi_swap ctx) (pi_ns ctx) (pi_thiszone ctx).
Definition pcap_out_ctx_free (ctx : pcap_out_ctx) : pcap_out_ctx := PcapOut None.

Section pcap.
Context `{Host}.

(** A field of a header, with the bytes swapped if the file has the other
    order. *)
Definition get32 (swap : bool) (m : mem) (p : Z) : outcome Z :=
  x ← hdr_get32h m p; Ret (if swap then byteswap32 x else x).
Definition get16 (swap : bool) (m : mem) (p : Z) : outcome Z :=
  x ← hdr_get16h m p; Ret (if swap then byteswap16 x else x).

(** The buffer of [pcap_in_ctx_read]; [None] if [realloc] fails. *)
Definition grow_buf (malloc : heap_oracle) (incl_len : Z) (a : read_args) : option read_args :=
  if (incl_len >? ra_bufcapacity a) || bool_decide (ra_buf a = None) then
    let newcapacity := u64 (2 * ra_bufcapacity a) in
    let newcapacity := if newcapacity <? incl_len then incl_len else newcapacity in
    let newcapacity := if newcapacity <? 1514 then 1514 else newcapacity in
    match realloc (default ∅ (ra_buf a)) (malloc newcapacity) with
    | None => None
    | Some newbuf => Some (ReadArgs (Some newbuf) newcapacity (ra_len a) (ra_snap a) (ra_time64 a))
    end
  else Some a.

Definition pcap_in_ctx_read (malloc : heap_oracle) (ctx : pcap_in_ctx) (a : read_args) : outcome (Z * pcap_in_ctx * read_args) :=
  f ← of_option (pi_f ctx);
  '(n, hdr, f) ← fread (local_array 16) 0 16 f;
  let ctx := PcapIn (Some f) (pi_swap ctx) (pi_ns ctx) (pi_thiszone ctx) in
  if negb (n =? 1) then Ret (if feof f then 0 else - EINVAL, ctx, a) else
  sec ← get32 (pi_swap ctx) hdr 0;
  let sum := s32 sec + pi_thiszone ctx in
  if (sum <? -2147483648) || (sum >? 2147483647) then Undef else
  let sec := u32 sum in
  usec ← get32 (pi_swap ctx) hdr 4;
  let usec := if pi_ns ctx then u32 (usec + 500) / 1000 else usec in
  incl_len ← get32 (pi_swap ctx) hdr 8;
  len ← get32 (pi_swap ctx) hdr 12;
  let a := ReadArgs (ra_buf a) (ra_bufcapacity a) (set_out (ra_len a) len) (set_out (ra_snap a) incl_len) (ra_time64 a) in
  match grow_buf malloc incl_len a with
  | None => Ret (- ENOMEM, ctx, a)
  | Some a =>
      buf ← of_option (ra_buf a);
      '(n, buf, f) ← fread buf 0 incl_len f;
      let ctx := PcapIn (Some f) (pi_swap ctx) (pi_ns ctx) (pi_thiszone ctx) in
      let a := ReadArgs (Some buf) (ra_bufcapacity a) (ra_len a) (ra_snap a) (ra_time64 a) in
      if negb (n =? 1) then Ret (- EINVAL, ctx, a) else
      Ret (1, ctx, ReadArgs (Some buf) (ra_bufcapacity a) (ra_len a) (ra_snap a) (set_out (ra_time64 a) (u64 (u64 (sec * 1000 * 1000) + usec))))
  end.

Definition pcap_file_hdr (hdr : mem) : outcome mem :=
  hdr ← hdr_set32h hdr 0 0xa1b2c3d4;
  hdr ← hdr_set16h hdr 4 2;
  hdr ← hdr_set16h hdr 6 4;
  hdr ← hdr_set32h hdr 8 0;
  hdr ← hdr_set32h hdr 12 0;
  hdr ← hdr_set32h hdr 16 0xFFFFFFFF;
  hdr_set32h hdr 20 1.

(** [f] is what [fopen] returns. *)
Definition pcap_out_ctx_init (ctx : pcap_out_ctx) (f : option wfile) : outcome (Z * pcap_out_ctx) :=
  match f with
  | None => Ret (- EPERM, ctx)
  | Some f =>
      hdr ← pcap_file_hdr (local_array 24);
      '(n, f) ← fwrite hdr 0 24 f;
      if negb (n =? 1) then Ret (- EIO, ctx) else Ret (0, PcapOut (Some f))
  end.

Definition pcap_packet_hdr (hdr : mem) (sec usec size : Z) : outcome mem :=
  hdr ← hdr_set32h hdr 0 sec;
  hdr ← hdr_set32h hdr 4 usec;
  hdr ← hdr_set32h hdr 8 size;
  hdr_set32h hdr 12 size.

(** [now] is what [gettime64] returns. *)
Definition pcap_out_ctx_write (ctx : pcap_out_ctx) (m : mem) (buf size time64 now : Z) : outcome (Z * pcap_out_ctx) :=
  let time64 := if time64 =? 0 then now else time64 in
  let sec := u32 (time64 / 1000 / 1000) in
  let usec := u32 (time64 mod (1000 * 1000)) in
  hdr ← pcap_packet_hdr (local_array 16) sec usec size;
  f ← of_option (po_f ctx);
  '(n, f) ← fwrite hdr 0 16 f;
  if negb (n =? 1) then Ret (- EIO, PcapOut (Some f)) else
  '(n, f) ← fwrite m buf size f;
  if negb (n =? 1) then Ret (- EIO, PcapOut (Some f)) else
  if negb (fflush f =? 0) then Ret (- EIO, PcapOut (Some f)) else
  Ret (0, PcapOut (Some f)).

(** The rest of [pcap_in_ctx_init_file] once the magic number has said which
    kind of file it is.  A file that is closed is gone: [ctx->f] is set only on
    success. *)
Definition start_reading (hdr : mem) (f : rfile) (ctx : pcap_in_ctx) (enforce_ethernet swap ns : bool) : outcome (Z * pcap_in_ctx) :=
  let ctx := PcapIn (pi_f ctx) swap ns (pi_thiszone ctx) in
  version_major ← get16 swap hdr 4;
  version_minor ← get16 swap hdr 6;
  if negb (version_major =? 2) || negb (version_minor =? 4) then Ret (- EINVAL, ctx) else
  thiszonetmp ← hdr_get32h hdr 8;
  if thiszonetmp >? 0 then Ret (- EINVAL, ctx) else
  let thiszonetmp := if swap then byteswap32 thiszonetmp else thiszonetmp in
  let ctx := PcapIn (pi_f ctx) swap ns (s32 thiszonetmp) in
  network ← get32 swap hdr 20;
  if enforce_ethernet && negb (network =? 1) then Ret (- EINVAL, ctx) else
  Ret (0, PcapIn (Some f) swap ns (pi_thiszone ctx)).

Definition pcap_in_ctx_init_file (ctx : pcap_in_ctx) (f : option rfile) (enforce_ethernet : bool) : outcome (Z * pcap_in_ctx) :=
  match f with
  | None => Ret (- ENOENT, ctx)
  | Some f =>
      '(n, hdr, f) ← fread (local_array 24) 0 24 f;
      if negb (n =? 1) then Ret (- EINVAL, ctx) else
      magic ← hdr_get32h hdr 0;
      if magic =? 0xa1b2c3d4 then start_reading hdr f ctx enforce_ethernet false false
      else if magic =? 0xd4c3b2a1 then start_reading hdr f ctx enforce_ethernet true false
      else if magic =? 0xa1b23c4d then start_reading hdr f ctx enforce_ethernet false true
      else if magic =? 0x4d3cb2a1 then start_reading hdr f ctx enforce_ethernet true true
      else Ret (- EINVAL, ctx)
  end.
(** [file] is what [fopen] returns for the name. *)
Definition pcap_in_ctx_init (ctx : pcap_in_ctx) (file : option rfile) (enforce_ethernet : bool) : outcome (Z * pcap_in_ctx) :=
  pcap_in_ctx_init_file ctx file enforce_ethernet.
End pcap.
