(* ===== verification/PcapSpec.v ===== *)
(** Reading capture files back, on the same or on another kind of host, and
    reading arbitrary files. *)
From S2P Require Import Prelude Bytes Packet DataBuf Pcap.

Local Abbreviation byte_list := (Forall (fun b => 0 <= b < 256)).

(** ** Fields in the byte order of one host, read on another *)

Definition other_order (hw hr : Host) : bool := xorb (@host_big_endian hw) (@host_big_endian hr).

Lemma swapped32 (hw hr : Host) v : 0 <= v < 4294967296 ->
  (let x := @host_decode hr (@host_encode hw 4 v) in if other_order hw hr then byteswap32 x else x) = v.
Proof.
  intros Hv. destruct hw as [[]], hr as [[]]; unfold other_order, host_decode, host_encode; simpl host_big_endian; cbv iota;
    cbn [xorb le_encode reverse rev_append]; unfold be_decode; cbn [foldl]; rewrite ?byteswap32_arith; lia.
Qed.
Lemma swapped16 (hw hr : Host) v : 0 <= v < 65536 ->
  (let x := @host_decode hr (@host_encode hw 2 v) in if other_order hw hr then byteswap16 x else x) = v.
Proof.
  intros Hv. destruct hw as [[]], hr as [[]]; unfold other_order, host_decode, host_encode; simpl host_big_endian; cbv iota;
    cbn [xorb le_encode reverse rev_append]; unfold be_decode; cbn [foldl]; rewrite ?byteswap16_arith; lia.
Qed.

Lemma get32_ok (hw hr : Host) m p v :
  bytes_at m p (@host_encode hw 4 v) -> 0 <= v < 4294967296 -> @get32 hr (other_order hw hr) m p = Ret v.
Proof.
  intros Hb Hv. unfold get32, hdr_get32h. pose proof (loadn_bytes_at _ _ _ Hb) as E. rewrite encode_length in E. rewrite E. cbn [mbind outcome_bind].
  f_equal. by apply swapped32.
Qed.
Lemma get16_ok (hw hr : Host) m p v :
  bytes_at m p (@host_encode hw 2 v) -> 0 <= v < 65536 -> @get16 hr (other_order hw hr) m p = Ret v.
Proof.
  intros Hb Hv. unfold get16, hdr_get16h. pose proof (loadn_bytes_at _ _ _ Hb) as E. rewrite encode_length in E. rewrite E. cbn [mbind outcome_bind].
  f_equal. by apply swapped16.
Qed.

(** ** Blocks and files *)

(** Consecutive fields are one list of bytes. *)
Ltac store_fields :=
  unfold hdr_set64h, hdr_set32h, hdr_set16h;
  repeat (rewrite storen_app, encode_length;
    match goal with |- context [storen ?m ?p ?b ≫= _] => destruct (storen m p b); [|reflexivity..] end;
    cbn [mbind outcome_bind];
    match goal with |- context [storen ?m (?p + Z.of_nat ?k) _] =>
      let q := eval vm_compute in (p + Z.of_nat k) in change (p + Z.of_nat k) with q end);
  reflexivity.

Lemma storen_block m p bs :
  valid m p (Z.of_nat (length bs)) -> bytes_ok m -> byte_list bs ->
  exists m', storen m p bs = Ret m' /\ bytes_at m' p bs /\ (forall q n, valid m q n -> valid m' q n) /\ bytes_ok m'.
Proof.
  intros Hv Hm Hb. destruct (storen_ok m p bs Hv Hb) as (m' & E & Hm'). exists m'. split; [done|]. split; [|split].
  - intros i x Hi. apply lookup_lt_Some in Hi as Hlt. rewrite Hm'. destruct (decide _); [|lia]. rewrite <- Hi. f_equal. lia.
  - intros q n Hq i Hi. rewrite Hm'. destruct (decide _); [apply lookup_lt_is_Some_2; lia|by apply Hq].
  - intros q x. rewrite Hm'. destruct (decide _); [|apply Hm]. intros Hx. rewrite Forall_lookup in Hb. by eapply Hb.
Qed.
Lemma local_array_ok n : valid (local_array n) 0 n /\ bytes_ok (local_array n).
Proof. split; [apply mem_fun_valid|apply mem_fun_bytes_ok; lia]. Qed.

Lemma fwrite_ok m p n bs f :
  bytes_at m p bs -> n = Z.of_nat (length bs) -> 0 < n <= wf_room f ->
  fwrite m p n f = Ret (1, WFile (wf_data f ++ bs) (wf_room f - n) (wf_flushes f)).
Proof.
  intros Hb -> Hr. unfold fwrite. destruct (Z.eqb_spec (Z.of_nat (length bs)) 0) as [E|]; [lia|].
  rewrite Nat2Z.id, (loadn_bytes_at _ _ _ Hb). cbn [mbind outcome_bind]. destruct (Z.leb_spec (Z.of_nat (length bs)) (wf_room f)); [done|lia].
Qed.

(** Reading an item returns on every file, and stays inside the item's room. *)
Lemma fread_total m p n f :
  0 <= n -> valid m p n -> bytes_ok m -> byte_list (rf_data f) ->
  exists r m' f', fread m p n f = Ret (r, m', f') /\ (forall q k, valid m q k -> valid m' q k) /\ bytes_ok m' /\
    byte_list (rf_data f') /\ (length (rf_data f') <= length (rf_data f))%nat /\ rf_fails f' = rf_fails f /\
    (r = 1 /\ 0 < n /\ Z.of_nat (length (rf_data f)) = n + Z.of_nat (length (rf_data f')) /\
       rf_data f = take (Z.to_nat n) (rf_data f) ++ rf_data f' /\ bytes_at m' p (take (Z.to_nat n) (rf_data f)) /\ rf_eof f' = rf_eof f \/
     r = 0 /\ (n = 0 \/ Z.of_nat (length (rf_data f)) < n)).
Proof.
  intros Hn Hv Hm Hb. unfold fread. destruct (Z.eqb_spec n 0) as [->|Hn0].
  { eexists _, _, _. split; [done|]. split; [auto|]. split; [done|]. split; [done|]. split; [done|]. split; [done|]. right. auto. }
  set (got := take (Z.to_nat n) (rf_data f)). assert (Z.of_nat (length got) <= n) as Hg by (unfold got; rewrite length_take; lia).
  destruct (storen_block m p got) as (m' & -> & Hat & Hv' & Hm'); [eapply valid_sub; [exact Hv|lia|lia]|done|by apply Forall_take|].
  cbn [mbind outcome_bind]. pose proof (length_take (rf_data f) (Z.to_nat n)) as Hl. fold got in Hl.
  destruct (Z.eqb_spec (Z.of_nat (length got)) n) as [E|E]; eexists _, _, _; (split; [reflexivity|]); (split; [done|]); (split; [done|]); simpl.
  - split; [by apply Forall_drop|]. rewrite length_drop. split; [lia|]. split; [done|]. left. split; [done|]. split; [lia|]. split; [lia|].
    split; [symmetry; apply take_drop|]. by split.
  - split; [constructor|]. split; [lia|]. split; [done|]. right. split; [done|]. right. lia.
Qed.

Lemma fread_ok m p n bs rest fl eof :
  n = Z.of_nat (length bs) -> 0 < n -> valid m p n -> bytes_ok m -> byte_list bs ->
  exists m', fread m p n (RFile (bs ++ rest) fl eof) = Ret (1, m', RFile rest fl eof) /\
    bytes_at m' p bs /\ (forall q k, valid m q k -> valid m' q k) /\ bytes_ok m'.
Proof.
  intros -> Hn Hv Hm Hb. unfold fread. destruct (Z.eqb_spec (Z.of_nat (length bs)) 0) as [E|]; [lia|].
  cbn [rf_data rf_fails rf_eof]. rewrite Nat2Z.id, take_app_length, drop_app_length.
  destruct (storen_block m p bs Hv Hm Hb) as (m' & -> & Hat & Hv' & Hm'). cbn [mbind outcome_bind]. rewrite Z.eqb_refl. by exists m'.
Qed.

(** ** What the files hold *)

(** A packet: its bytes and its time in microseconds. *)
Definition capture : Type := list Z * Z.
Definition capture_ok (c : capture) : Prop :=
  c.1 <> [] /\ byte_list c.1 /\ Z.of_nat (length c.1) < 4294967296 /\ 0 < c.2 < 4294967296 * 1000000.

Section bytes.
Context (hw : Host).

Definition file_hdr_bytes : list Z :=
  host_encode 4 0xa1b2c3d4 ++ host_encode 2 2 ++ host_encode 2 4 ++ host_encode 4 0 ++ host_encode 4 0 ++ host_encode 4 0xFFFFFFFF ++ host_encode 4 1.
Definition packet_hdr_bytes (sec usec size : Z) : list Z :=
  host_encode 4 sec ++ host_encode 4 usec ++ host_encode 4 size ++ host_encode 4 size.
Definition packet_bytes (c : capture) : list Z :=
  packet_hdr_bytes (c.2 / 1000 / 1000) (c.2 mod 1000000) (Z.of_nat (length c.1)) ++ c.1.
Definition file_bytes (cs : list capture) : list Z := file_hdr_bytes ++ mjoin (packet_bytes <$> cs).

Lemma file_hdr_length : length file_hdr_bytes = 24%nat.
Proof. unfold file_hdr_bytes. by rewrite !length_app, !encode_length. Qed.
Lemma packet_hdr_length sec usec size : length (packet_hdr_bytes sec usec size) = 16%nat.
Proof. unfold packet_hdr_bytes. by rewrite !length_app, !encode_length. Qed.
Lemma packet_bytes_length c : length (packet_bytes c) = (16 + length c.1)%nat.
Proof. unfold packet_bytes. by rewrite length_app, packet_hdr_length. Qed.
Lemma file_hdr_bytes_ok : byte_list file_hdr_bytes.
Proof. unfold file_hdr_bytes. rewrite !list.Forall_app. repeat split; apply encode_byte_list. Qed.
Lemma packet_hdr_bytes_ok sec usec size : byte_list (packet_hdr_bytes sec usec size).
Proof. unfold packet_hdr_bytes. rewrite !list.Forall_app. repeat split; apply encode_byte_list. Qed.

Lemma file_hdr_ok : exists m, pcap_file_hdr (local_array 24) = Ret m /\ bytes_at m 0 file_hdr_bytes.
Proof.
  destruct (local_array_ok 24) as [Hv Hm].
  destruct (storen_block (local_array 24) 0 file_hdr_bytes) as (m & E & Hat & _); [by rewrite file_hdr_length|done|apply file_hdr_bytes_ok|].
  exists m. split; [|done]. rewrite <- E. unfold file_hdr_bytes, pcap_file_hdr. store_fields.
Qed.
Lemma packet_hdr_ok sec usec size : exists m, pcap_packet_hdr (local_array 16) sec usec size = Ret m /\ bytes_at m 0 (packet_hdr_bytes sec usec size).
Proof.
  destruct (local_array_ok 16) as [Hv Hm].
  destruct (storen_block (local_array 16) 0 (packet_hdr_bytes sec usec size)) as (m & E & Hat & _); [by rewrite packet_hdr_length|done|apply packet_hdr_bytes_ok|].
  exists m. split; [|done]. rewrite <- E. unfold packet_hdr_bytes, pcap_packet_hdr. store_fields.
Qed.

(** ** Writing *)

Lemma out_init_ok ctx f :
  24 <= wf_room f -> pcap_out_ctx_init ctx (Some f) = Ret (0, PcapOut (Some (WFile (wf_data f ++ file_hdr_bytes) (wf_room f - 24) (wf_flushes f)))).
Proof.
  intros Hr. unfold pcap_out_ctx_init. destruct file_hdr_ok as (m & -> & Hat). cbn [mbind outcome_bind].
  by rewrite (fwrite_ok m 0 24 file_hdr_bytes f Hat) by (rewrite ?file_hdr_length; done || lia).
Qed.

Lemma out_write_ok f c m buf now :
  capture_ok c -> bytes_at m buf c.1 -> 16 + Z.of_nat (length c.1) <= wf_room f -> wf_flushes f = true ->
  pcap_out_ctx_write (PcapOut (Some f)) m buf (Z.of_nat (length c.1)) c.2 now =
    Ret (0, PcapOut (Some (WFile (wf_data f ++ packet_bytes c) (wf_room f - Z.of_nat (length (packet_bytes c))) true))).
Proof.
  intros (Hne & Hb & Hl & Ht) Hat Hr Hf. unfold pcap_out_ctx_write. destruct (Z.eqb_spec c.2 0); [lia|].
  rewrite !u32_small by lia. change (1000 * 1000) with 1000000.
  set (h := packet_hdr_bytes (c.2 / 1000 / 1000) (c.2 mod 1000000) (Z.of_nat (length c.1))).
  destruct (packet_hdr_ok (c.2 / 1000 / 1000) (c.2 mod 1000000) (Z.of_nat (length c.1))) as (hdr & -> & Hhdr). fold h in Hhdr.
  cbn [mbind outcome_bind po_f of_option]. assert (length h = 16%nat) as Hh by apply packet_hdr_length.
  assert (0 < Z.of_nat (length c.1)) by (destruct c.1; [done|simpl; lia]).
  rewrite (fwrite_ok hdr 0 16 h f Hhdr) by (rewrite ?Hh; done || lia). cbn [mbind outcome_bind Z.eqb Pos.eqb negb].
  rewrite (fwrite_ok m buf _ c.1) by (done || (simpl; lia)). cbn [mbind outcome_bind Z.eqb Pos.eqb negb wf_data wf_room wf_flushes].
  unfold fflush. cbn [wf_flushes]. rewrite Hf. cbn [Z.eqb negb]. unfold packet_bytes. fold h. rewrite (assoc_L (++)), length_app, Hh.
  do 5 f_equal. lia.
Qed.
End bytes.

(** The packets are written one by one, each from its own block. *)
Fixpoint write_all `{Host} (ctx : pcap_out_ctx) (cs : list capture) (now : Z) : outcome (list Z * pcap_out_ctx) :=
  match cs with
  | [] => Ret ([], ctx)
  | c :: cs =>
      '(r, ctx) ← pcap_out_ctx_write ctx (mem_of 0 c.1) 0 (Z.of_nat (length c.1)) c.2 now;
      '(rs, ctx) ← write_all ctx cs now;
      Ret (r :: rs, ctx)
  end.

Lemma packets_cons hw c cs : mjoin (packet_bytes hw <$> c :: cs) = packet_bytes hw c ++ mjoin (packet_bytes hw <$> cs).
Proof. done. Qed.

Lemma write_all_ok (hw : Host) now cs : forall f,
  Forall capture_ok cs -> wf_flushes f = true -> Z.of_nat (length (mjoin (packet_bytes hw <$> cs))) <= wf_room f ->
  write_all (PcapOut (Some f)) cs now = Ret (replicate (length cs) 0,
    PcapOut (Some (WFile (wf_data f ++ mjoin (packet_bytes hw <$> cs)) (wf_room f - Z.of_nat (length (mjoin (packet_bytes hw <$> cs)))) true))).
Proof.
  induction cs as [|c cs IH]; intros f Hok Hf Hr; cbn [write_all].
  { simpl in *. rewrite app_nil_r, Z.sub_0_r, <- Hf. by destruct f. }
  apply list.Forall_cons in Hok as [Hc Hcs]. rewrite packets_cons, length_app in *. pose proof (packet_bytes_length hw c) as Hl.
  rewrite (out_write_ok hw f c) by (done || lia || (intros i x Hi; rewrite mem_of_lookup, Nat2Z.id by lia; exact Hi)).
  cbn [mbind outcome_bind]. rewrite IH; [|done|done|cbn [wf_room]; lia].
  cbn [mbind outcome_bind wf_data wf_room length replicate]. rewrite <- (assoc_L (++)). do 5 f_equal. lia.
Qed.

(** ** Reading *)

Definition args_ok (a : read_args) : Prop :=
  0 <= ra_bufcapacity a /\ match ra_buf a with None => True | Some b => valid b 0 (ra_bufcapacity a) /\ bytes_ok b end.

Lemma grow_buf_ok malloc n a :
  malloc_ok malloc -> args_ok a -> 0 <= n ->
  match grow_buf malloc n a with
  | None => exists k, malloc k = None
  | Some a' => exists b, ra_buf a' = Some b /\ n <= ra_bufcapacity a' /\ valid b 0 (ra_bufcapacity a') /\ bytes_ok b /\
      ra_len a' = ra_len a /\ ra_snap a' = ra_snap a /\ ra_time64 a' = ra_time64 a
  end.
Proof.
  intros Hm [Hc Hb] Hn. unfold grow_buf. destruct (_ || _) eqn:Ec.
  - set (k := if _ <? 1514 then _ else _). assert (n <= k /\ 0 <= k) as [Hnk Hk].
    { unfold k. destruct (Z.ltb_spec (u64 (2 * ra_bufcapacity a)) n); match goal with |- context [?x <? 1514] => destruct (Z.ltb_spec x 1514) end; lia. }
    destruct (malloc k) as [fresh|] eqn:Ek; [|by exists k]. destruct (Hm k fresh Ek) as [Hfv Hfb].
    assert (bytes_ok (default ∅ (ra_buf a))) as Hob by (destruct (ra_buf a); [by apply Hb|done]).
    destruct (realloc_ok (default ∅ (ra_buf a)) fresh k []) as (b & -> & Hv & Hbb & _); [done|done|intros i x Hi; done|done|simpl; lia|].
    by exists b.
  - apply orb_false_iff in Ec as [Hgt Hne]. apply bool_decide_eq_false in Hne. destruct (ra_buf a) as [b|]; [|done].
    exists b. split; [done|]. split; [lia|]. by destruct Hb.
Qed.

Lemma get32_total (hr : Host) swap m p : valid m p 4 -> bytes_ok m -> exists v, get32 swap m p = Ret v /\ 0 <= v < 4294967296.
Proof.
  intros Hv Hm. unfold get32, hdr_get32h. rewrite (loadn4_ok m p Hv). cbn [mbind outcome_bind]. eexists. split; [done|].
  pose proof (rd_range m p Hm). pose proof (rd_range m (p + 1) Hm). pose proof (rd_range m (p + 2) Hm). pose proof (rd_range m (p + 3) Hm).
  unfold host_decode. destruct host_big_endian, swap; cbn [reverse rev_append]; unfold be_decode; cbn [foldl]; rewrite ?byteswap32_arith; lia.
Qed.
Lemma get16_total (hr : Host) swap m p : valid m p 2 -> bytes_ok m -> exists v, get16 swap m p = Ret v.
Proof. intros Hv Hm. unfold get16, hdr_get16h. rewrite (loadn2_ok m p Hv). by eexists. Qed.

(** No pointer is [NULL], but for that to the buffer. *)
Definition has_outs (a : read_args) : Prop := is_Some (ra_len a) /\ is_Some (ra_snap a) /\ is_Some (ra_time64 a).
Definition client_args (a : read_args) : Prop := args_ok a /\ has_outs a.

(** A context that [pcap_in_ctx_init_file] has set up. *)
Definition in_ok (ctx : pcap_in_ctx) : Prop :=
  pi_thiszone ctx = 0 /\ exists f, pi_f ctx = Some f /\ byte_list (rf_data f).
Definition left_in (ctx : pcap_in_ctx) : nat := match pi_f ctx with Some f => length (rf_data f) | None => 0 end.

Lemma s32_range x : 0 <= x < 4294967296 -> -2147483648 <= s32 x <= 2147483647 /\ u32 (s32 x) = x.
Proof. intros Hx. unfold s32. destruct (Z.ltb_spec x 2147483648); unfold u32; lia. Qed.

(** One read of an arbitrary file. *)
Lemma in_read_total (hr : Host) malloc ctx a :
  in_ok ctx -> malloc_ok malloc -> args_ok a ->
  exists r ctx' a', pcap_in_ctx_read malloc ctx a = Ret (r, ctx', a') /\ in_ok ctx' /\ args_ok a' /\
    (has_outs a -> has_outs a') /\
    (r = 0 \/ r = - EINVAL \/ r = - ENOMEM /\ (exists k, malloc k = None) \/
     r = 1 /\ exists b n, ra_buf a' = Some b /\ valid b 0 n /\ 0 < n <= ra_bufcapacity a' /\ ra_snap a' = set_out (ra_snap a) n /\
       16 + n + Z.of_nat (left_in ctx') = Z.of_nat (left_in ctx)).
Proof.
  intros (Hz & f & Ef & Hf) Hm Ha. unfold pcap_in_ctx_read. rewrite Ef. cbn [of_option mbind outcome_bind]. destruct (local_array_ok 16) as [Hlv Hlb].
  destruct (fread_total (local_array 16) 0 16 f) as (r1 & hdr & f1 & -> & Hv1 & Hb1 & Hd1 & _ & _ & Hr1); [lia|done|done|done|].
  cbn [mbind outcome_bind]. assert (in_ok (PcapIn (Some f1) (pi_swap ctx) (pi_ns ctx) (pi_thiszone ctx))) as Hok1 by (split; [done|by exists f1]).
  destruct Hr1 as [(-> & _ & Hl1 & _)|(-> & _)]; cbn [Z.eqb Pos.eqb negb].
  2: { eexists _, _, a. split; [done|]. split; [done|]. split; [done|]. split; [done|]. destruct (feof f1); auto. }
  cbn [pi_f pi_swap pi_ns pi_thiszone].
  assert (forall p, 0 <= p <= 12 -> exists v, get32 (pi_swap ctx) hdr p = Ret v /\ 0 <= v < 4294967296) as Hget.
  { intros p Hp. apply get32_total; [|done]. eapply valid_sub; [apply Hv1, Hlv|lia|lia]. }
  destruct (Hget 0 ltac:(lia)) as (sec & -> & Hsec), (Hget 4 ltac:(lia)) as (usec & -> & _), (Hget 8 ltac:(lia)) as (n & -> & Hn), (Hget 12 ltac:(lia)) as (len & -> & _).
  cbn [mbind outcome_bind]. rewrite Hz, Z.add_0_r. destruct (s32_range sec Hsec) as [Hs _].
  destruct (Z.ltb_spec (s32 sec) (-2147483648)); [lia|]. destruct (Z.gtb_spec (s32 sec) 2147483647); [lia|]. simpl orb. cbv iota.
  set (a1 := ReadArgs _ _ _ _ _). assert (args_ok a1) as Ha1 by exact Ha.
  assert (forall o x, is_Some o -> is_Some (set_out o x)) as Hset by (intros [] x []; simpl; eauto; done).
  assert (has_outs a -> has_outs a1) as Hout by (intros (? & ? & ?); repeat split; simpl; auto).
  pose proof (grow_buf_ok malloc n a1 Hm Ha1 ltac:(lia)) as Hg. destruct (grow_buf malloc n a1) as [a2|].
  2: { eexists _, _, a1. split; [done|]. rewrite <- Hz. split; [done|]. split; [done|]. split; [done|]. auto 6. }
  destruct Hg as (b & Eb & Hcap & Hvb & Hbb & El & Es & Et). rewrite Eb. cbn [of_option mbind outcome_bind].
  destruct (fread_total b 0 n f1) as (r2 & b2 & f2 & -> & Hv2 & Hb2 & Hd2 & _ & _ & Hr2); [lia|eapply valid_sub; [exact Hvb|lia|lia]|done|done|].
  cbn [mbind outcome_bind].
  destruct Hr2 as [(-> & Hn0 & Hl2 & _)|(-> & _)]; cbn [Z.eqb Pos.eqb negb]; eexists _, _, _; (split; [reflexivity|]);
    (split; [split; [done|by exists f2]|]); (split; [split; [simpl; lia|split; [by apply Hv2|done]]|]); 
    (split; [intros (? & ? & ?)%Hout; unfold has_outs; cbn [ra_len ra_snap ra_time64]; rewrite El, Es, Et; auto|]); cbn [ra_snap ra_buf ra_bufcapacity].
  - right; right; right. split; [done|]. exists b2, n. split; [done|]. split; [apply Hv2; eapply valid_sub; [exact Hvb|lia|lia]|]. split; [lia|]. split; [by rewrite Es|].
    unfold left_in. rewrite Ef. simpl. lia.
  - auto.
Qed.

(** The loop of a client: packets are read until a call does not return 1.  A
    packet comes as its bytes, its length on the wire and its time. *)
Fixpoint read_all `{Host} (n : nat) (malloc : heap_oracle) (ctx : pcap_in_ctx) (a : read_args) : outcome (list (list Z * Z * Z) * Z) :=
  match n with
  | O => OutOfFuel
  | S n =>
      '(r, ctx, a) ← pcap_in_ctx_read malloc ctx a;
      if negb (r =? 1) then Ret ([], r) else
      buf ← of_option (ra_buf a); snap ← of_option (ra_snap a); len ← of_option (ra_len a); time ← of_option (ra_time64 a);
      bs ← loadn buf 0 (Z.to_nat snap);
      '(l, r) ← read_all n malloc ctx a;
      Ret ((bs, len, time) :: l, r)
  end.

Lemma in_read_ok (hw hr : Host) malloc f rest fl c a zone ns :
  rf_data f = packet_bytes hw c ++ rest -> rf_fails f = fl -> rf_eof f = false -> zone = 0 -> ns = false ->
  capture_ok c -> malloc_ok malloc -> (forall n, is_Some (malloc n)) -> client_args a ->
  exists b a', @pcap_in_ctx_read hr malloc (PcapIn (Some f) (other_order hw hr) ns zone) a =
      Ret (1, PcapIn (Some (RFile rest fl false)) (other_order hw hr) ns zone, a') /\ client_args a' /\
    ra_buf a' = Some b /\ bytes_at b 0 c.1 /\ ra_len a' = Some (Z.of_nat (length c.1)) /\ ra_snap a' = Some (Z.of_nat (length c.1)) /\ ra_time64 a' = Some c.2.
Proof.
  destruct f as [d fl0 e]. cbn [rf_data rf_fails rf_eof]. intros Ed -> -> -> -> (Hne & Hcb & Hcl & Hct) Hm Hall (Ha & [l El] & [s Es] & [t Et]). unfold pcap_in_ctx_read. cbn [pi_f of_option mbind outcome_bind].
  unfold packet_bytes in Ed. rewrite <- (assoc_L (++)) in Ed. set (h := packet_hdr_bytes _ _ _ _) in Ed. set (n := Z.of_nat (length c.1)) in *.
  assert (0 < n) as Hn by (unfold n; destruct c.1; [done|simpl; lia]). destruct (local_array_ok 16) as [Hlv Hlb].
  destruct (fread_ok (local_array 16) 0 16 h (c.1 ++ rest) fl false) as (hdr & E & Hat & _); [by unfold h; rewrite packet_hdr_length|lia|done|done|apply packet_hdr_bytes_ok|].
  rewrite Ed, E.
  cbn [mbind outcome_bind Z.eqb Pos.eqb negb pi_f pi_swap pi_ns pi_thiszone]. unfold h, packet_hdr_bytes in Hat.
  rewrite !bytes_at_app, !encode_length in Hat. destruct Hat as (H0 & H4 & H8 & H12).
  rewrite (get32_ok hw hr hdr 0 _ H0) by lia. cbn [mbind outcome_bind]. rewrite Z.add_0_r.
  destruct (s32_range (c.2 / 1000 / 1000) ltac:(lia)) as [Hs Eu].
  destruct (Z.ltb_spec (s32 (c.2 / 1000 / 1000)) (-2147483648)); [lia|]. destruct (Z.gtb_spec (s32 (c.2 / 1000 / 1000)) 2147483647); [lia|].
  simpl orb. cbv iota. rewrite Eu.
  rewrite (get32_ok hw hr hdr 4 _ H4) by lia. cbn [mbind outcome_bind]. rewrite (get32_ok hw hr hdr 8 _ H8) by lia. cbn [mbind outcome_bind].
  rewrite (get32_ok hw hr hdr 12 _ H12) by lia. cbn [mbind outcome_bind]. set (a1 := ReadArgs _ _ _ _ _).
  pose proof (grow_buf_ok malloc n a1 Hm Ha ltac:(lia)) as Hg. destruct (grow_buf malloc n a1) as [a2|]; [|destruct Hg as [k Hk]; destruct (Hall k); congruence].
  destruct Hg as (b & Eb & Hcap & Hvb & Hbb & E1 & E2 & E3). rewrite Eb. cbn [of_option mbind outcome_bind].
  destruct (fread_ok b 0 n c.1 rest fl false) as (b2 & -> & Hb2 & Hv2 & Hbo); [done|done|eapply valid_sub; [exact Hvb|lia|lia]|done|done|].
  cbn [mbind outcome_bind Z.eqb Pos.eqb negb ra_len ra_snap ra_time64 ra_bufcapacity]. exists b2. eexists. split; [done|].
  cbn [ra_len ra_snap ra_time64 ra_buf]. rewrite E1, E2, E3. unfold a1. cbn [ra_len ra_snap ra_time64]. rewrite El, Es, Et. simpl.
  rewrite (u64_small (c.2 / 1000 / 1000 * 1000 * 1000)) by lia. rewrite u64_small by lia.
  replace (c.2 / 1000 / 1000 * 1000 * 1000 + c.2 mod 1000000) with c.2 by lia.
  split; [|by split]. split; [|repeat split; cbn; eauto]. split; [simpl; lia|]. simpl. split; [by apply Hv2|done].
Qed.

Lemma in_init_ok (hw hr : Host) cin rest fl e :
  @pcap_in_ctx_init_file hr cin (Some (RFile (file_hdr_bytes hw ++ rest) fl false)) e =
    Ret (0, PcapIn (Some (RFile rest fl false)) (other_order hw hr) false 0).
Proof.
  unfold pcap_in_ctx_init_file. destruct (local_array_ok 24) as [Hlv Hlb].
  destruct (fread_ok (local_array 24) 0 24 (file_hdr_bytes hw) rest fl false) as (hdr & -> & Hat & _); [by rewrite file_hdr_length|lia|done|done|apply file_hdr_bytes_ok|].
  cbn [mbind outcome_bind Z.eqb Pos.eqb negb]. unfold file_hdr_bytes in Hat. rewrite !bytes_at_app, !encode_length in Hat.
  destruct Hat as (H0 & H4 & H6 & H8 & _ & _ & H20).
  change (bytes_at hdr 4 (@host_encode hw 2 2)) in H4. change (bytes_at hdr 6 (@host_encode hw 2 4)) in H6.
  change (bytes_at hdr 8 (@host_encode hw 4 0)) in H8. change (bytes_at hdr 20 (@host_encode hw 4 1)) in H20.
  pose proof (loadn_bytes_at _ _ _ H0) as L0. pose proof (loadn_bytes_at _ _ _ H8) as L8. rewrite encode_length in L0, L8.
  assert (@hdr_get32h hr hdr 0 = Ret (@host_decode hr (@host_encode hw 4 0xa1b2c3d4))) as G0 by (unfold hdr_get32h; by rewrite L0).
  assert (@hdr_get32h hr hdr 8 = Ret 0) as G8 by (unfold hdr_get32h; rewrite L8; destruct hw as [[]], hr as [[]]; reflexivity).
  rewrite G0. cbn [mbind outcome_bind].
  assert (forall swap, swap = other_order hw hr -> @host_decode hr (@host_encode hw 4 0xa1b2c3d4) = if swap then 0xd4c3b2a1 else 0xa1b2c3d4) as Emagic
    by (intros swap ->; destruct hw as [[]], hr as [[]]; reflexivity).
  assert (forall A (k : bool -> bool -> outcome A) x, (if (if other_order hw hr then 0xd4c3b2a1 else 0xa1b2c3d4) =? 0xa1b2c3d4 then k false false
    else if (if other_order hw hr then 0xd4c3b2a1 else 0xa1b2c3d4) =? 0xd4c3b2a1 then k true false else x) = k (other_order hw hr) false) as Epick
    by (intros A k x; by destruct (other_order hw hr)).
  rewrite (Emagic _ eq_refl), (Epick _ (start_reading hdr _ cin e)). unfold start_reading.
  rewrite (get16_ok hw hr hdr 4 2 H4), (get16_ok hw hr hdr 6 4 H6) by lia. cbn [mbind outcome_bind Z.eqb Pos.eqb negb orb].
  rewrite G8. cbn [mbind outcome_bind].
  cbn [Z.gtb Z.compare]. rewrite (get32_ok hw hr hdr 20 1 H20) by lia. cbn [mbind outcome_bind Z.eqb Pos.eqb negb]. rewrite andb_false_r.
  cbn [pi_thiszone]. by destruct (other_order hw hr).
Qed.

Lemma in_init_total (hr : Host) cin f e :
  byte_list (rf_data f) ->
  exists r ctx, pcap_in_ctx_init_file cin (Some f) e = Ret (r, ctx) /\
    (r = - EINVAL \/ r = 0 /\ in_ok ctx /\ 24 + Z.of_nat (left_in ctx) = Z.of_nat (length (rf_data f))).
Proof.
  intros Hf. unfold pcap_in_ctx_init_file. destruct (local_array_ok 24) as [Hlv Hlb].
  destruct (fread_total (local_array 24) 0 24 f) as (r1 & hdr & f1 & -> & Hv1 & Hb1 & Hd1 & _ & _ & Hr1); [lia|done|done|done|].
  cbn [mbind outcome_bind]. destruct Hr1 as [(-> & _ & Hl1 & _)|(-> & _)]; cbn [Z.eqb Pos.eqb negb]; [|by eexists _, _; auto].
  assert (forall p k, 0 <= p -> p + k <= 24 -> valid hdr p k) as Hv by (intros p k Hp Hk; eapply valid_sub; [apply Hv1, Hlv|lia|lia]).
  assert (forall swap ns, exists r ctx, start_reading hdr f1 cin e swap ns = Ret (r, ctx) /\
    (r = - EINVAL \/ r = 0 /\ in_ok ctx /\ 24 + Z.of_nat (left_in ctx) = Z.of_nat (length (rf_data f)))) as Hstart.
  { intros swap ns. unfold start_reading. destruct (get16_total hr swap hdr 4) as [x4 ->]; [by apply Hv|done|]. destruct (get16_total hr swap hdr 6) as [x6 ->]; [by apply Hv|done|].
    cbn [mbind outcome_bind]. destruct (_ || _); [eexists _, _; auto|]. destruct (get32_total hr false hdr 8) as (z & Ez & Hz); [by apply Hv|done|].
    unfold get32 in Ez. destruct (hdr_get32h hdr 8) as [z'| | |] eqn:E8; [|done..]. injection Ez as ->. cbn [mbind outcome_bind].
    destruct (Z.gtb_spec z 0); [eexists _, _; auto|]. replace z with 0 by lia. destruct (get32_total hr swap hdr 20) as (x20 & -> & _); [by apply Hv|done|].
    cbn [mbind outcome_bind]. destruct (_ && _); [eexists _, _; auto|]. eexists _, _. split; [done|]. right. split; [done|].
    split; [split; [by destruct swap|by exists f1]|]. unfold left_in. simpl. lia. }
  destruct (get32_total hr false hdr 0) as (x & Ex & _); [by apply Hv|done|]. unfold get32 in Ex. destruct (hdr_get32h hdr 0); [|done..]. cbn [mbind outcome_bind].
  repeat (destruct (_ =? _); [apply Hstart|]). eexists _, _. auto.
Qed.

Lemma read_all_ok (hw hr : Host) malloc cs : forall a,
  Forall capture_ok cs -> malloc_ok malloc -> (forall n, is_Some (malloc n)) -> client_args a ->
  @read_all hr (S (length cs)) malloc (PcapIn (Some (RFile (mjoin (packet_bytes hw <$> cs)) false false)) (other_order hw hr) false 0) a =
    Ret ((fun c => (c.1, Z.of_nat (length c.1), c.2)) <$> cs, 0).
Proof.
  induction cs as [|c cs IH]; intros a Hcs Hm Hall Ha; [done|].
  apply list.Forall_cons in Hcs as [Hc Hcs]. rewrite packets_cons.
  destruct (in_read_ok hw hr malloc (RFile (packet_bytes hw c ++ mjoin (packet_bytes hw <$> cs)) false false) _ false c a 0 false eq_refl eq_refl eq_refl eq_refl eq_refl
    Hc Hm Hall Ha) as (b & a' & E & Ha' & E1 & Hat & E2 & E3 & E4).
  cbn [read_all length]. rewrite E. cbn [mbind outcome_bind Z.eqb Pos.eqb negb]. rewrite E1, E2, E3, E4. cbn [of_option mbind outcome_bind].
  rewrite Nat2Z.id, (loadn_bytes_at _ _ _ Hat). cbn [mbind outcome_bind]. specialize (IH a' Hcs Hm Hall Ha'). cbn [length] in IH.
  cbn [read_all] in IH |- *. rewrite IH. done.
Qed.

Lemma read_all_total (hr : Host) malloc k : forall ctx a,
  (left_in ctx < k)%nat -> in_ok ctx -> malloc_ok malloc -> client_args a ->
  exists l r, read_all k malloc ctx a = Ret (l, r) /\ (r = 0 \/ r = - EINVAL \/ r = - ENOMEM /\ (exists n, malloc n = None)) /\
    Z.of_nat (length (mjoin ((fun x => x.1.1) <$> l))) + 16 * Z.of_nat (length l) <= Z.of_nat (left_in ctx).
Proof.
  induction k as [|k IH]; intros ctx a Hk Hc Hm [Ha Ho]; [lia|].
  destruct (in_read_total hr malloc ctx a Hc Hm Ha) as (r & ctx' & a' & E & Hc' & Ha' & Ho' & Hr). cbn [read_all]. rewrite E. cbn [mbind outcome_bind].
  destruct (Z.eqb_spec r 1) as [->|Hne]; cbn [negb].
  2: { exists [], r. split; [done|]. split; [destruct Hr as [?|[?|[?|[? _]]]]; auto; done|simpl; lia]. }
  destruct Hr as [?|[?|[[? _]|(_ & b & n & Eb & Hv & Hn & Es & Hleft)]]]; [done..|]. pose proof (Ho' Ho) as Houts. pose proof Houts as ([l El] & [s Es'] & [t Et]).
  rewrite Eb, El, Es', Et. cbn [of_option mbind outcome_bind]. destruct Ho as (_ & [s0 E0] & _). rewrite E0 in Es. simpl in Es. replace s with n by congruence.
  rewrite (loadn_ok b 0 (Z.to_nat n)) by (rewrite Z2Nat.id by lia; done). cbn [mbind outcome_bind]. set (bs := _ <$> seqZ _ _).
  assert (length bs = Z.to_nat n) as Hbs by (unfold bs; rewrite length_fmap, length_seqZ; lia). clearbody bs.
  destruct (IH ctx' a') as (l' & r & -> & Hr & Hl); [lia|done|done|by split|]. cbn [mbind outcome_bind]. eexists _, _. split; [done|]. split; [done|].
  change (mjoin ((fun x : list Z * Z * Z => x.1.1) <$> (bs, l, t) :: l')) with (bs ++ mjoin ((fun x : list Z * Z * Z => x.1.1) <$> l')).
  rewrite length_app. cbn [length]. lia.
Qed.

(** C10: what one kind of host writes to a capture file, every kind of host reads.
    Packets of at least one byte (with times that fit the format) are written to a
    new file with room for them, by a host of either byte order; then the reader,
    on a host of either byte order, accepts the file, returns the packets in order
    with their bytes, lengths and times, and reports the end.  And on any file
    whatever, with an allocator that may refuse, the reader never leaves its
    buffers: it rejects the file, or returns packets that are not longer than the
    file until it ends with 0 or an error. *)
Theorem pcap_roundtrip (hw hr : Host) malloc room now (cs : list capture) cin enforce a :
  malloc_ok malloc -> client_args a ->
  (Forall capture_ok cs -> (forall n, is_Some (malloc n)) -> Z.of_nat (length (file_bytes hw cs)) <= room ->
   exists data, (r ← @pcap_out_ctx_init hw (PcapOut None) (Some (WFile [] room true)); @write_all hw r.2 cs now) =
       Ret (replicate (length cs) 0, PcapOut (Some (WFile data (room - Z.of_nat (length data)) true))) /\
     (r ← @pcap_in_ctx_init_file hr cin (Some (RFile data false false)) enforce; @read_all hr (S (length cs)) malloc r.2 a) =
       Ret ((fun c => (c.1, Z.of_nat (length c.1), c.2)) <$> cs, 0)) /\
  (forall data fails, byte_list data ->
   exists r ctx, @pcap_in_ctx_init_file hr cin (Some (RFile data fails false)) enforce = Ret (r, ctx) /\
     (r = - EINVAL \/ r = 0 /\ exists l e, @read_all hr (S (length data)) malloc ctx a = Ret (l, e) /\
        (e = 0 \/ e = - EINVAL \/ e = - ENOMEM /\ (exists n, malloc n = None)) /\
        24 + 16 * Z.of_nat (length l) + Z.of_nat (length (mjoin ((fun x => x.1.1) <$> l))) <= Z.of_nat (length data))).
Proof.
  intros Hm Ha. split.
  - intros Hcs Hall Hr. exists (file_bytes hw cs). unfold file_bytes in *. rewrite length_app, file_hdr_length in *.
    rewrite out_init_ok by (simpl; lia). cbn [mbind outcome_bind snd]. rewrite (write_all_ok hw) by (done || (cbn [wf_room]; lia)).
    cbn [wf_data wf_room app]. split; [do 5 f_equal; lia|]. rewrite in_init_ok. cbn [mbind outcome_bind snd]. by apply read_all_ok.
  - intros data fails Hd. destruct (in_init_total hr cin (RFile data fails false) enforce Hd) as (r & ctx & -> & Hr). exists r, ctx. split; [done|].
    destruct Hr as [->|(-> & Hc & Hl)]; [by left|right]. split; [done|]. cbn [rf_data] in Hl.
    destruct (read_all_total hr malloc (S (length data)) ctx a) as (l & e & -> & He & Hle); [lia|done|done|done|]. exists l, e. split; [done|]. split; [done|]. lia.
Qed.

Definition sample_captures : list capture := [([1; 2; 3; 4; 5], 1500000001); ([255; 0; 17], 1500000002)].
Lemma pcap_roundtrip_witness :
  let malloc n := Some (mem_fun n (fun _ => 0)) in
  exists data, (r ← @pcap_out_ctx_init big_endian_host (PcapOut None) (Some (WFile [] 100 true)); @write_all big_endian_host r.2 sample_captures 7) =
      Ret ([0; 0], PcapOut (Some (WFile data (100 - Z.of_nat (length data)) true))) /\
    (r ← @pcap_in_ctx_init_file little_endian_host (PcapIn None true true 3) (Some (RFile data false false)) true;
     @read_all little_endian_host 3 malloc r.2 (ReadArgs None 0 (Some 0) (Some 0) (Some 0))) =
      Ret ([([1; 2; 3; 4; 5], 5, 1500000001); ([255; 0; 17], 3, 1500000002)], 0).
Proof.
  intros malloc.
  destruct (pcap_roundtrip big_endian_host little_endian_host malloc 100 7 sample_captures (PcapIn None true true 3) true
    (ReadArgs None 0 (Some 0) (Some 0) (Some 0))) as [Hrt _].
  - intros n b [= <-]. split; [apply mem_fun_valid|apply mem_fun_bytes_ok; lia].
  - split; [split; [simpl; lia|exact I]|repeat split; eexists; reflexivity].
  - apply Hrt.
    + repeat constructor; simpl; lia || discriminate.
    + intros n. eexists. reflexivity.
    + vm_compute. discriminate.
Defined.
