(* ===== verification/HashTable.v ===== *)
(** Hash lists and hash tables: hashlist/hashlist.h and hashtable/hashtable.h.

    The memory is words of eight bytes.  A node is two words ([pprev], the address
    of the word that points to the node, and [next]); a list head is one word.
    Blocks that [malloc] returns are arguments: their address (0 for [NULL]); the
    block itself is part of the memory. *)
From S2P Require Import Prelude Heap.

Definition ENOMEM : Z := 12.

(** ** hashlist/hashlist.h *)

(** Addresses of the fields of [struct hash_list_node]; that of the only field of
    [struct hash_list_head] is the address of the head. *)
Definition pprev (node : Z) : Z := node.
Definition next (node : Z) : Z := node + 8.

Definition hash_list_head_init (head : Z) : prog Z unit := store head 0.
Definition hash_list_node_init (node : Z) : prog Z unit :=
  _ ← store (pprev node) 0; store (next node) 0.
Definition hash_list_is_empty (head : Z) : prog Z bool := n ← load head; mret (n =? 0).

Definition hash_list_delete (node : Z) : prog Z unit :=
  pp ← load (pprev node); n ← load (next node);
  _ ← store pp n;
  n ← load (next node);
  _ ← (if negb (n =? 0) then pp ← load (pprev node); store (pprev n) pp else mret tt);
  _ ← store (next node) 0;
  store (pprev node) 0.

Definition hash_list_add_head (node head : Z) : prog Z unit :=
  n ← load head;
  _ ← store (next node) n;
  _ ← store (pprev node) head;
  n ← load head;
  _ ← (if negb (n =? 0) then store (pprev n) (next node) else mret tt);
  store head node.

(** [HASH_LIST_FOR_EACH] and [HASH_LIST_FOR_EACH_SAFE], which reads the next
    node before the body runs.  The body returns [inr] to leave the loop (by
    [return], [break] or [goto]). *)
Section for_each.
Context {S R : Type}.
Variable (body : Z -> S -> prog Z (S + R)).

Definition for_each_step (xs : Z * S) : prog Z (Z * S + (S + R)) :=
  let '(x, s) := xs in
  if x =? 0 then mret (inr (inl s)) else
  r ← body x s;
  match r with
  | inl s => x ← load (next x); mret (inl (x, s))
  | inr r => mret (inr (inr r))
  end.
Definition for_each_safe_step (xs : Z * S) : prog Z (Z * S + (S + R)) :=
  let '(x, s) := xs in
  if x =? 0 then mret (inr (inl s)) else
  n ← load (next x);
  r ← body x s;
  match r with
  | inl s => mret (inl (n, s))
  | inr r => mret (inr (inr r))
  end.
Definition hash_list_for_each (fuel : nat) (head : Z) (s : S) : prog Z (S + R) :=
  x ← load head; loop fuel for_each_step (x, s).
Definition hash_list_for_each_safe (fuel : nat) (head : Z) (s : S) : prog Z (S + R) :=
  x ← load head; loop fuel for_each_safe_step (x, s).
End for_each.

(** ** hashtable/hashtable.h *)

(** [pthread_mutex_t] is 40 bytes; its first word says whether it is locked.
    There is one thread here: a lock it has already would never be given to it,
    and unlocking what is not locked is undefined. *)
Definition sizeof_mutex : Z := 40.
Definition mutex_init (mutex : Z) : prog Z unit := store mutex 0.
Definition mutex_lock (mutex : Z) : prog Z unit :=
  v ← load mutex; if v =? 0 then store mutex 1 else undef.
Definition mutex_unlock (mutex : Z) : prog Z unit :=
  v ← load mutex; if v =? 1 then store mutex 0 else undef.
Definition mutex_destroy (mutex : Z) : prog Z unit :=
  v ← load mutex; if v =? 0 then mret tt else undef.

(** Addresses of the fields of [struct hash_table]. *)
Definition buckets (table : Z) : Z := table.
Definition bucket_mutexes (table : Z) : Z := table + 8.
Definition global_mutex (table : Z) : Z := table + 16.
Definition mutex_shift (table : Z) : Z := table + 56.
Definition bucketcnt (table : Z) : Z := table + 64.
Definition table_fn (table : Z) : Z := table + 72.
Definition fn_userdata (table : Z) : Z := table + 80.
Definition itemcnt (table : Z) : Z := table + 88.

Definition next_highest_power_of_2 (x : Z) : Z :=
  let x := u64 (x - 1) in
  let x := Z.lor x (Z.shiftr x 1) in
  let x := Z.lor x (Z.shiftr x 2) in
  let x := Z.lor x (Z.shiftr x 4) in
  let x := Z.lor x (Z.shiftr x 8) in
  let x := Z.lor x (Z.shiftr x 16) in
  let x := Z.lor x (Z.shiftr x 32) in
  u64 (x + 1).

(** [for (i = a; i < a + n; i++)]. *)
Fixpoint for_n (n : nat) (a : Z) (body : Z -> prog Z unit) : prog Z unit :=
  match n with
  | O => mret tt
  | S n => _ ← body a; for_n n (a + 1) body
  end.

(** The end of the paths that fail. *)
Definition init_fails (table : Z) : prog Z Z :=
  _ ← store (table_fn table) 0;
  _ ← store (fn_userdata table) 0;
  _ ← store (bucketcnt table) 0;
  mret (- ENOMEM).

(** The mutexes from [i - 1] down to 0 are destroyed. *)
Fixpoint destroy_down (i : nat) (mutexes : Z) : prog Z unit :=
  match i with
  | O => mret tt
  | S i => _ ← mutex_destroy (mutexes + sizeof_mutex * Z.of_nat i); destroy_down i mutexes
  end.

(** The loop that initialises [n] mutexes from [i] on; [ok] says where
    [pthread_mutex_init] succeeds. *)
Fixpoint init_mutexes (ok : Z -> bool) (n : nat) (i : nat) (table mutexes : Z) : prog Z (option Z) :=
  match n with
  | O => mret None
  | S n =>
      if ok (Z.of_nat i) then
        _ ← mutex_init (mutexes + sizeof_mutex * Z.of_nat i); init_mutexes ok n (S i) table mutexes
      else
        _ ← destroy_down i mutexes;
        r ← init_fails table;
        _ ← store (buckets table) 0;
        _ ← store (bucket_mutexes table) 0;
        mret (Some r)
  end.

(** The arguments after [shift] are what the calls of the C library return: the
    block for the buckets, whether the global mutex is initialised, the block for
    the mutexes, and which of them are initialised. *)
Definition hash_table_init_impl (table bucketcnt_ fn userdata : Z) (locked : bool) (shift : Z)
    (bs : Z) (global_ok : bool) (ms : Z) (ok : Z -> bool) : prog Z Z :=
  _ ← store (bucket_mutexes table) 0;
  _ ← store (table_fn table) fn;
  _ ← store (fn_userdata table) userdata;
  _ ← store (itemcnt table) 0;
  _ ← store (mutex_shift table) shift;
  _ ← store (bucketcnt table) (next_highest_power_of_2 bucketcnt_);
  _ ← store (buckets table) bs;
  b ← load (buckets table);
  if b =? 0 then init_fails table else
  r ← (if locked then
         if negb global_ok then
           r ← init_fails table; _ ← store (buckets table) 0; mret (Some r)
         else
           _ ← mutex_init (global_mutex table);
           _ ← store (bucket_mutexes table) ms;
           m ← load (bucket_mutexes table);
           if m =? 0 then
             r ← init_fails table; _ ← store (buckets table) 0; _ ← mutex_destroy (global_mutex table); mret (Some r)
           else
             n ← load (bucketcnt table);
             init_mutexes ok (Z.to_nat (Z.shiftr n shift)) 0 table m
       else mret None);
  match r with
  | Some r => mret r
  | None =>
      n ← load (bucketcnt table);
      b ← load (buckets table);
      _ ← for_n (Z.to_nat n) 0 (fun i => hash_list_head_init (b + 8 * i));
      mret 0
  end.
Definition hash_table_init (table bucketcnt_ fn userdata bs : Z) : prog Z Z :=
  hash_table_init_impl table bucketcnt_ fn userdata false 0 bs true 0 (fun _ => true).
Definition hash_table_init_locked (table bucketcnt_ fn userdata shift bs : Z) (global_ok : bool) (ms : Z) (ok : Z -> bool) : prog Z Z :=
  hash_table_init_impl table bucketcnt_ fn userdata true shift bs global_ok ms ok.

(** The blocks that are freed stay in the memory, where nothing points to them. *)
Definition hash_table_free (table : Z) : prog Z unit :=
  c ← load (itemcnt table);
  if negb (c =? 0) then abort else
  m ← load (bucket_mutexes table);
  _ ← (if negb (m =? 0) then
         _ ← mutex_destroy (global_mutex table);
         n ← load (bucketcnt table); sh ← load (mutex_shift table);
         _ ← for_n (Z.to_nat (Z.shiftr n sh)) 0 (fun i => mutex_destroy (m + sizeof_mutex * i));
         store (bucket_mutexes table) 0
       else mret tt);
  _ ← store (buckets table) 0;
  _ ← store (bucketcnt table) 0;
  _ ← store (table_fn table) 0;
  _ ← store (fn_userdata table) 0;
  store (itemcnt table) 0.

(** [&table->bucket_mutexes[(hashval & (table->bucketcnt - 1)) >> table->mutex_shift]] *)
Definition bucket_mutex (table hashval : Z) : prog Z Z :=
  m ← load (bucket_mutexes table);
  n ← load (bucketcnt table);
  sh ← load (mutex_shift table);
  mret (m + sizeof_mutex * Z.shiftr (Z.land hashval (u64 (n - 1))) sh).
(** [&table->buckets[hashval & (table->bucketcnt - 1)]] *)
Definition bucket_head (table hashval : Z) : prog Z Z :=
  b ← load (buckets table);
  n ← load (bucketcnt table);
  mret (b + 8 * Z.land hashval (u64 (n - 1))).

(** [if (table->bucket_mutexes) { ... }] *)
Definition if_locked (table : Z) (c : prog Z unit) : prog Z unit :=
  m ← load (bucket_mutexes table); if negb (m =? 0) then c else mret tt.
Definition lock_mutex_of (table hashval : Z) : prog Z unit := a ← bucket_mutex table hashval; mutex_lock a.
Definition unlock_mutex_of (table hashval : Z) : prog Z unit := a ← bucket_mutex table hashval; mutex_unlock a.

Definition decr_itemcnt (table : Z) : prog Z unit :=
  c ← load (itemcnt table); if c =? 0 then abort else store (itemcnt table) (c - 1).
Definition incr_itemcnt (table : Z) : prog Z unit :=
  c ← load (itemcnt table); store (itemcnt table) (u64 (c + 1)).

(** What the functions do between the locks. *)
Definition put_node (table node hashval : Z) : prog Z unit :=
  head ← bucket_head table hashval;
  _ ← hash_list_add_head node head;
  incr_itemcnt table.
Definition take_node (table node : Z) : prog Z unit :=
  _ ← hash_list_delete node;
  decr_itemcnt table.

Definition hash_table_delete_already_bucket_locked (table node : Z) : prog Z unit :=
  _ ← if_locked table (mutex_lock (global_mutex table));
  _ ← take_node table node;
  if_locked table (mutex_unlock (global_mutex table)).
Definition hash_table_delete (table node hashval : Z) : prog Z unit :=
  _ ← if_locked table (_ ← lock_mutex_of table hashval; mutex_lock (global_mutex table));
  _ ← take_node table node;
  if_locked table (_ ← mutex_unlock (global_mutex table); unlock_mutex_of table hashval).
Definition hash_table_add_nogrow_already_bucket_locked (table node hashval : Z) : prog Z unit :=
  _ ← if_locked table (mutex_lock (global_mutex table));
  _ ← put_node table node hashval;
  if_locked table (mutex_unlock (global_mutex table)).
Definition hash_table_add_nogrow (table node hashval : Z) : prog Z unit :=
  _ ← if_locked table (_ ← lock_mutex_of table hashval; mutex_lock (global_mutex table));
  _ ← put_node table node hashval;
  if_locked table (_ ← mutex_unlock (global_mutex table); unlock_mutex_of table hashval).

Definition hash_table_lock_bucket (table hashval : Z) : prog Z unit := if_locked table (lock_mutex_of table hashval).
Definition hash_table_unlock_bucket (table hashval : Z) : prog Z unit := if_locked table (unlock_mutex_of table hashval).
Definition hash_table_lock_next_bucket (table hashval : Z) : prog Z unit :=
  if_locked table (
    m ← load (bucket_mutexes table);
    n ← load (bucketcnt table);
    sh ← load (mutex_shift table);
    let bucketmutex1 := Z.shiftr (Z.land hashval (u64 (n - 1))) sh in
    let bucketmutex2 := Z.shiftr (Z.land (u32 (hashval + 1)) (u64 (n - 1))) sh in
    if negb (bucketmutex1 =? bucketmutex2) then
      _ ← mutex_unlock (m + sizeof_mutex * bucketmutex1);
      mutex_lock (m + sizeof_mutex * bucketmutex2)
    else mret tt).

(** [HASH_TABLE_FOR_EACH_POSSIBLE], with and without [_SAFE]. *)
Definition hash_table_for_each_possible {S R} (body : Z -> S -> prog Z (S + R)) (fuel : nat) (table hashval : Z) (s : S) : prog Z (S + R) :=
  head ← bucket_head table hashval; hash_list_for_each body fuel head s.
Definition hash_table_for_each_possible_safe {S R} (body : Z -> S -> prog Z (S + R)) (fuel : nat) (table hashval : Z) (s : S) : prog Z (S + R) :=
  head ← bucket_head table hashval; hash_list_for_each_safe body fuel head s.

(** [HASH_TABLE_FOR_EACH] and [HASH_TABLE_FOR_EACH_SAFE]: the outer loop goes on
    while the inner one has come to the end of its list. *)
Definition still_running {A} : prog Z A := fun _ => OutOfFuel.

Section table_for_each.
Context {S R : Type}.
Variable (body : Z -> S -> prog Z (S + R)) (fuel : nat) (table : Z).

Fixpoint hash_table_for_each (n : nat) (bucket : Z) (s : S) : prog Z (S + R) :=
  cnt ← load (bucketcnt table);
  if negb (bucket <? cnt) then mret (inl s) else
  match n with
  | O => still_running
  | Datatypes.S n =>
      b ← load (buckets table);
      r ← hash_list_for_each body fuel (b + 8 * bucket) s;
      match r with inl s => hash_table_for_each n (bucket + 1) s | inr r => mret (inr r) end
  end.
Fixpoint hash_table_for_each_safe (n : nat) (bucket : Z) (s : S) : prog Z (S + R) :=
  cnt ← load (bucketcnt table);
  if negb (bucket <? cnt) then mret (inl s) else
  match n with
  | O => still_running
  | Datatypes.S n =>
      b ← load (buckets table);
      r ← hash_list_for_each_safe body fuel (b + 8 * bucket) s;
      match r with inl s => hash_table_for_each_safe n (bucket + 1) s | inr r => mret (inr r) end
  end.
End table_for_each.
