(* ===== verification/HashTableSpec.v ===== *)
(** Hash tables as finite collections: the lists of nodes behind the words, the
    loops over them, and histories of a table. *)
From iris.proofmode Require Import coq_tactics reduction proofmode.
From iris.base_logic.lib Require Import gen_heap.
From S2P Require Import Prelude Heap HashTable.

(** ** Steps of programs on words *)

Section words.
Context `{!gen_heapGS Z Z Σ}.
Implicit Types (p v w x q : Z) (xs ys : list Z).

Definition word p v : iProp Σ := pointsto p (DfracOwn 1) v.
Definition some_word p : iProp Σ := ∃ v, word p v.

Lemma tac_wload {B} Δ i (k : Z -> prog Z B) p v Φ :
  envs_lookup i Δ = Some (false, word p v)%I ->
  envs_entails Δ (wp (k v) Φ) -> envs_entails Δ (wp (load p ≫= k) Φ).
Proof.
  rewrite envs_entails_unseal => Hi Hk. rewrite envs_lookup_split //=. iIntros "[Hp Hrest]".
  iApply wp_bind. iApply (wp_load with "Hp"). iIntros "Hp". iApply Hk. by iApply "Hrest".
Qed.
Lemma tac_wstore {B} Δ Δ' i (k : unit -> prog Z B) p v w Φ :
  envs_lookup i Δ = Some (false, word p v)%I ->
  envs_simple_replace i false (Esnoc Enil i (word p w)) Δ = Some Δ' ->
  envs_entails Δ' (wp (k tt) Φ) -> envs_entails Δ (wp (store p w ≫= k) Φ).
Proof.
  rewrite envs_entails_unseal => Hi HΔ Hk. rewrite envs_simple_replace_sound //=.
  iIntros "[Hp Hrest]". iApply wp_bind. iApply (wp_store with "Hp"). iIntros "Hp".
  iApply Hk. iApply "Hrest". by iFrame.
Qed.
End words.

Ltac word_step :=
  cbv beta; lazymatch goal with
  | |- envs_entails _ (wp (load _ ≫= _) _) => eapply tac_wload; [iAssumptionCore|]
  | |- envs_entails _ (wp (store _ _ ≫= _) _) => eapply tac_wstore; [iAssumptionCore|reflexivity|]
  | |- envs_entails _ (wp (mret _ ≫= _) _) => iApply wp_ret_bind
  | |- envs_entails _ (wp ((_ ≫= _) ≫= _) _) => iApply wp_assoc
  end.
Ltac word_steps := repeat word_step; cbv beta.

(** ** Lists *)

Section lists.
Context `{!gen_heapGS Z Z Σ}.
Implicit Types (p v w x q : Z) (xs ys : list Z).

(** The word [q] points to the first of the nodes. *)
Fixpoint hlist q xs : iProp Σ :=
  match xs with
  | [] => word q 0
  | x :: xs => ⌜x <> 0⌝ ∗ word q x ∗ word (pprev x) q ∗ hlist (next x) xs
  end.
Definition free_node x : iProp Σ := ⌜x <> 0⌝ ∗ some_word (pprev x) ∗ some_word (next x).

(** The first node, or [NULL]. *)
Definition first xs : Z := default 0 (list.head xs).

Lemma hlist_first q xs : hlist q xs ⊢ word q (first xs) ∗ (word q (first xs) -∗ hlist q xs).
Proof. destruct xs as [|x xs]; simpl; [iIntros "$"; by iIntros "$"|]. iIntros "(%Hx & $ & Hp & Hl)". iIntros "Hq". by iFrame. Qed.
Lemma hlist_split q xs ys : hlist q (xs ++ ys) ⊢ ∃ r, hlist r ys ∗ ∀ zs, hlist r zs -∗ hlist q (xs ++ zs).
Proof.
  revert q. induction xs as [|x xs IH]; intros q; simpl; iIntros "H".
  - iExists q. iFrame. iIntros (zs) "$".
  - iDestruct "H" as "(%Hx & Hq & Hp & H)". iDestruct (IH with "H") as (r) "[Hr Hk]". iExists r. iFrame "Hr". iIntros (zs) "Hz".
    iFrame "%". iFrame. by iApply "Hk".
Qed.

Lemma wp_hash_list_add_head {B} h xs x (k : unit -> prog Z B) Φ :
  hlist h xs -∗ free_node x -∗ (hlist h (x :: xs) -∗ wp (k tt) Φ) -∗ wp (hash_list_add_head x h ≫= k) Φ.
Proof.
  iIntros "Hl (%Hx & (%a & Hp) & (%b & Hn)) HΦ". rewrite /hash_list_add_head. iDestruct (hlist_first with "Hl") as "[Hh Hl]". word_steps.
  destruct xs as [|y ys]; rewrite /first /=.
  - word_steps. iApply "HΦ". iFrame. done.
  - iDestruct ("Hl" with "Hh") as "(%Hy & Hh & Hpy & Hl)". destruct (Z.eqb_spec y 0); [done|]. simpl. word_steps. iApply "HΦ". by iFrame.
Qed.

Lemma wp_hash_list_delete {B} h xs x ys (k : unit -> prog Z B) Φ :
  hlist h (xs ++ x :: ys) -∗ (hlist h (xs ++ ys) -∗ free_node x -∗ wp (k tt) Φ) -∗ wp (hash_list_delete x ≫= k) Φ.
Proof.
  iIntros "Hl HΦ". iDestruct (hlist_split with "Hl") as (q) "[(%Hx & Hq & Hp & Hl) Hk]". rewrite /hash_list_delete.
  iDestruct (hlist_first with "Hl") as "[Hn Hl]". word_steps. destruct ys as [|y ys]; rewrite /first /=.
  - word_steps. iApply ("HΦ" with "[Hk Hq]"); [by iApply "Hk"|]. iSplit; [done|]. iFrame.
  - iDestruct ("Hl" with "Hn") as "(%Hy & Hn & Hpy & Hl)". destruct (Z.eqb_spec y 0); [done|]. simpl. word_steps.
    iApply ("HΦ" with "[Hk Hq Hpy Hl]"); [iApply "Hk"; by iFrame|]. iSplit; [done|]. iFrame.
Qed.

(** ** Loops *)

Section loops.
Context {S R : Type}.
Variable (body : Z -> S -> prog Z (S + R)).

(** A body that leaves the list alone: [I] is kept for the nodes seen so far. *)
Lemma wp_hash_list_for_each {B} fuel h xs s (I : list Z -> S -> iProp Σ) (J : R -> iProp Σ) (k : S + R -> prog Z B) Φ :
  (length xs < fuel)%nat ->
  (forall ys x zs s, xs = ys ++ x :: zs -> I ys s ⊢ wp (body x s) (fun r => match r with inl s => I (ys ++ [x]) s | inr r => J r end)) ->
  hlist h xs -∗ I [] s -∗ (∀ r, hlist h xs -∗ match r with inl s => I xs s | inr r => J r end -∗ wp (k r) Φ) -∗
  wp (hash_list_for_each body fuel h s ≫= k) Φ.
Proof.
  iIntros (Hf Hb) "Hl HI HΦ". rewrite /hash_list_for_each. iApply wp_assoc. iDestruct (hlist_first with "Hl") as "[Hh Hl]". word_step.
  iDestruct ("Hl" with "Hh") as "Hl".
  iAssert (∀ ys zs s n, ⌜xs = ys ++ zs⌝ -∗ ⌜(length zs < n)%nat⌝ -∗ hlist h xs -∗ I ys s -∗
    (∀ r, hlist h xs -∗ match r with inl s => I xs s | inr r => J r end -∗ wp (k r) Φ) -∗ wp (loop n (for_each_step body) (first zs, s) ≫= k) Φ)%I as "Hloop".
  { iIntros (ys zs s' n). iInduction n as [|n IH] forall (ys zs s'); iIntros (-> Hn) "Hl HI HΦ"; [lia|]. simpl loop. iApply wp_assoc.
    destruct zs as [|x zs]; [change (first []) with 0|change (first (x :: zs)) with x]; simpl.
    - word_steps. iApply ("HΦ" with "Hl"). by rewrite app_nil_r.
    - iDestruct (hlist_split with "Hl") as (q) "[(%Hx & Hq & Hp & Hl) Hk]". destruct (Z.eqb_spec x 0); [done|]. word_steps. iApply wp_bind.
      iApply (wp_wand with "[HI]"); [by iApply (Hb ys x zs _ eq_refl)|]. iIntros ([s''|r]) "HI".
      + iDestruct (hlist_first with "Hl") as "[Hn Hl]". word_steps. iDestruct ("Hl" with "Hn") as "Hl".
        iApply ("IH" $! (ys ++ [x]) zs with "[%] [%] [-HI HΦ] HI"); [by rewrite -app_assoc|simpl in Hn; lia| |].
        * iApply "Hk". by iFrame.
        * done.
      + word_steps. iApply ("HΦ" $! (inr r) with "[-HI] HI"). iApply "Hk". by iFrame. }
  iApply ("Hloop" $! [] xs with "[//] [//] Hl HI HΦ").
Qed.

(** A body that may change the nodes up to its own. *)
Lemma wp_hash_list_for_each_safe {B} fuel h xs s (I : list Z -> list Z -> S -> iProp Σ) (J : R -> iProp Σ) (k : S + R -> prog Z B) Φ :
  (length xs < fuel)%nat ->
  (forall ys x zs s, hlist h (ys ++ x :: zs) ∗ I ys (x :: zs) s ⊢
    wp (body x s) (fun r => match r with inl s => ∃ ys', hlist h (ys' ++ zs) ∗ I ys' zs s | inr r => J r end)) ->
  hlist h xs -∗ I [] xs s -∗
  (∀ r, match r with inl s => ∃ ys, hlist h ys ∗ I ys [] s | inr r => J r end -∗ wp (k r) Φ) -∗
  wp (hash_list_for_each_safe body fuel h s ≫= k) Φ.
Proof.
  iIntros (Hf Hb) "Hl HI HΦ". rewrite /hash_list_for_each_safe. iApply wp_assoc. iDestruct (hlist_first with "Hl") as "[Hh Hl]". word_step.
  iDestruct ("Hl" with "Hh") as "Hl".
  iAssert (∀ ys zs s n, ⌜(length zs < n)%nat⌝ -∗ hlist h (ys ++ zs) -∗ I ys zs s -∗
    (∀ r, match r with inl s => ∃ ys, hlist h ys ∗ I ys [] s | inr r => J r end -∗ wp (k r) Φ) -∗ wp (loop n (for_each_safe_step body) (first zs, s) ≫= k) Φ)%I as "Hloop".
  { iIntros (ys zs s' n). iInduction n as [|n IH] forall (ys zs s'); iIntros (Hn) "Hl HI HΦ"; [lia|]. simpl loop. iApply wp_assoc.
    destruct zs as [|x zs]; [change (first []) with 0|change (first (x :: zs)) with x]; simpl.
    - word_steps. iApply "HΦ". iExists ys. rewrite app_nil_r. iFrame.
    - iDestruct (hlist_split with "Hl") as (q) "[(%Hx & Hq & Hp & Hl) Hk]". destruct (Z.eqb_spec x 0); [done|].
      iDestruct (hlist_first with "Hl") as "[Hn Hl]". word_steps. iDestruct ("Hl" with "Hn") as "Hl".
      iDestruct ("Hk" $! (x :: zs) with "[Hq Hp Hl]") as "Hl"; [by iFrame|].
      iApply wp_bind. iApply (wp_wand with "[HI Hl]"); [iApply Hb; iFrame|]. iIntros ([s''|r]) "HI".
      + word_steps. iDestruct "HI" as (ys') "[Hl HI]". iApply ("IH" $! ys' zs with "[%] Hl HI HΦ"). simpl in Hn. lia.
      + word_steps. by iApply ("HΦ" $! (inr r)). }
  iApply ("Hloop" $! [] xs with "[//] Hl HI HΦ").
Qed.
End loops.

(** An array of heads. *)
Definition heads (b n : Z) (F : Z -> list Z) : iProp Σ := [∗ list] i ∈ seqZ 0 n, hlist (b + 8 * i) (F i).

Lemma seqZ_at n i : 0 <= i < n -> seqZ 0 n = seqZ 0 i ++ i :: seqZ (i + 1) (n - i - 1).
Proof.
  intros Hi. replace n with (i + (1 + (n - i - 1))) at 1 by lia. rewrite seqZ_app; [|lia..]. f_equal.
  rewrite seqZ_cons; [|lia]. f_equal. f_equal; lia.
Qed.
Lemma heads_acc b n F i : 0 <= i < n ->
  heads b n F ⊢ hlist (b + 8 * i) (F i) ∗
    (∀ F', ⌜forall j, 0 <= j < n -> j <> i -> F' j = F j⌝ -∗ hlist (b + 8 * i) (F' i) -∗ heads b n F').
Proof.
  intros Hi. rewrite /heads (seqZ_at n i Hi) !big_sepL_app /=. iIntros "(H1 & $ & H2)". iIntros (F' Hsame) "Hi". rewrite big_sepL_app /=. iFrame "Hi".
  iSplitL "H1"; [iApply (big_sepL_impl with "H1")|iApply (big_sepL_impl with "H2")]; iIntros "!>" (k j Hj) "H"; apply lookup_seqZ in Hj; rewrite Hsame; done || lia.
Qed.
End lists.

(** ** The number of buckets *)

Definition smeared (y : Z) (s : Z) (x : Z) : Prop :=
  0 <= x /\ forall i, 0 <= i -> Z.testbit x i = true <-> exists k, 0 <= k < s /\ Z.testbit y (i + k) = true.
Lemma smear_step y s s' x : 0 < s -> s' = 2 * s -> smeared y s x -> smeared y s' (Z.lor x (Z.shiftr x s)).
Proof.
  intros Hs -> [Hx0 Hx]. split; [apply Z.lor_nonneg; split; [done|by apply Z.shiftr_nonneg]|]. intros i Hi.
  rewrite Z.lor_spec Z.shiftr_spec // orb_true_iff Hx // Hx; [|lia]. split.
  - intros [(k & Hk & E)|(k & Hk & E)]; [exists k|exists (s + k)]; (split; [lia|]); [done|]. rewrite -E. f_equal. lia.
  - intros (k & Hk & E). destruct (decide (k < s)); [left; exists k; split; [lia|done]|right]. exists (k - s). split; [lia|]. rewrite -E. f_equal. lia.
Qed.
Lemma smeared_ones y x : 0 < y < 2 ^ 64 -> smeared y 64 x -> x = Z.ones (Z.log2 y + 1).
Proof.
  intros Hy [Hx Hs]. apply Z.bits_inj'. intros i Hi. pose proof (Z.log2_nonneg y). pose proof (Z.log2_lt_pow2 y 64).
  apply eq_true_iff_eq. etransitivity; [by apply Hs|]. rewrite Z.testbit_ones_nonneg; [|lia..]. rewrite Z.ltb_lt. split.
  - intros (k & Hk & E). destruct (decide (Z.log2 y < i + k)); [rewrite Z.bits_above_log2 in E; [done|lia..]|lia].
  - intros Hlt. exists (Z.log2 y - i). split; [lia|]. replace (i + (Z.log2 y - i)) with (Z.log2 y) by lia. apply Z.bit_log2. lia.
Qed.

(** The least power of two that is not less. *)
Lemma next_highest_power_of_2_ok n :
  1 <= n <= 2 ^ 63 -> exists a, 0 <= a <= 63 /\ next_highest_power_of_2 n = 2 ^ a /\ n <= 2 ^ a /\ (forall b, 0 <= b -> n <= 2 ^ b -> a <= b).
Proof.
  intros Hn. unfold next_highest_power_of_2. rewrite (u64_small (n - 1)); [|lia]. cbv zeta. set (y := n - 1).
  assert (smeared y 1 y) as H1.
  { split; [unfold y; lia|]. intros i Hi. split; [intros E; exists 0; rewrite Z.add_0_r; split; [lia|done]|].
    intros (k & Hk & E). by replace (i + k) with i in E by lia. }
  set (x1 := Z.lor y (Z.shiftr y 1)). assert (smeared y 2 x1) as H2 by (by apply (smear_step y 1)). clearbody x1.
  set (x2 := Z.lor x1 (Z.shiftr x1 2)). assert (smeared y 4 x2) as H3 by (by apply (smear_step y 2)). clearbody x2.
  set (x3 := Z.lor x2 (Z.shiftr x2 4)). assert (smeared y 8 x3) as H4 by (by apply (smear_step y 4)). clearbody x3.
  set (x4 := Z.lor x3 (Z.shiftr x3 8)). assert (smeared y 16 x4) as H5 by (by apply (smear_step y 8)). clearbody x4.
  set (x5 := Z.lor x4 (Z.shiftr x4 16)). assert (smeared y 32 x5) as H6 by (by apply (smear_step y 16)). clearbody x5.
  set (x := Z.lor x5 (Z.shiftr x5 32)). assert (smeared y 64 x) as H7 by (by apply (smear_step y 32)).
  clearbody x. destruct (decide (y = 0)) as [Hy|Hy].
  - assert (x = 0) as ->.
    { apply Z.bits_inj'. intros i Hi. rewrite Z.bits_0. apply not_true_iff_false. destruct H7 as [_ H7]. rewrite H7 //. intros (k & _ & E). by rewrite Hy Z.bits_0 in E. }
    exists 0. split; [lia|]. split; [done|]. split; [unfold y in *; lia|intros; lia].
  - rewrite (smeared_ones y x); [|unfold y in *; lia|done]. rewrite Z.ones_equiv. assert (0 <= Z.log2 y < 63) as Hl.
    { split; [apply Z.log2_nonneg|]. apply Z.log2_lt_pow2; unfold y in *; lia. }
    pose proof (Z.log2_spec y ltac:(unfold y in *; lia)) as Hspec. rewrite -Z.add_1_r in Hspec.
    assert (2 ^ (Z.log2 y + 1) <= 2 ^ 63) by (apply Z.pow_le_mono_r; lia).
    exists (Z.log2 y + 1). split; [lia|]. split; [rewrite u64_small; lia|]. split; [unfold y in *; lia|].
    intros b Hb Hle. destruct (decide (Z.log2 y + 1 <= b)); [done|]. assert (2 ^ b <= 2 ^ Z.log2 y) by (apply Z.pow_le_mono_r; lia). unfold y in *. lia.
Qed.
