(* ===== verification/HashTableRun.v ===== *)
(** Histories of a hash table: every operation, with and without locks, does what
    it does on a list of nodes. *)
From iris.proofmode Require Import coq_tactics reduction proofmode.
From iris.base_logic.lib Require Import gen_heap.
From S2P Require Import Prelude Heap HashTable HashTableSpec.

Set Default Proof Using "Type".

(** A table that has been set up: its blocks, the shift and the number of
    buckets. *)
Record table_conf := TableConf { tc_buckets : Z; tc_mutexes : Z; tc_shift : Z; tc_log : Z; tc_fn : Z; tc_userdata : Z }.
Definition tc_count (c : table_conf) : Z := 2 ^ tc_log c.
Definition conf_ok (c : table_conf) : Prop :=
  tc_buckets c <> 0 /\ 0 <= tc_log c <= 63 /\ 0 <= tc_shift c /\ (tc_mutexes c <> 0 -> tc_shift c <= tc_log c).

Section table.
Context `{!gen_heapGS Z Z Σ}.
(** The key of a node and the hash value of a key. *)
Context (key : Z -> Z) (hash : Z -> Z).
Implicit Types (x h : Z) (xs all mu : list Z) (c : table_conf).

Definition slot c h : Z := h mod tc_count c.
Definition slot_of c x : Z := slot c (hash (key x)).
(** The nodes of a bucket, the last one added first. *)
Definition bucket c (i : Z) all : list Z := filter (fun x => slot_of c x = i) all.

Lemma count_pos c : conf_ok c -> 0 < tc_count c < 2 ^ 64.
Proof. intros (_ & Hl & _). unfold tc_count. split; [apply Z.pow_pos_nonneg; lia|apply Z.pow_lt_mono_r; lia]. Qed.
Lemma slot_land c h : conf_ok c -> Z.land h (u64 (tc_count c - 1)) = slot c h.
Proof. clear key hash.
  intros Hc. pose proof (count_pos c Hc). destruct Hc as (_ & Hl & _). rewrite u64_small; [|lia]. unfold slot, tc_count.
  rewrite -Z.land_ones; [|lia]. f_equal. rewrite Z.ones_equiv. lia.
Qed.
Lemma hash_slot_range c h : conf_ok c -> 0 <= slot c h < tc_count c.
Proof. intros Hc. apply Z.mod_pos_bound. by apply count_pos. Qed.

Definition blists c all : iProp Σ :=
  heads (tc_buckets c) (tc_count c) (fun i => bucket c i all).
Definition mutexes c mu : iProp Σ :=
  [∗ list] i ↦ v ∈ mu, word (tc_mutexes c + sizeof_mutex * Z.of_nat i) v.
(** The global mutex is in state [g], those of the buckets in states [mu]. *)
Definition table_rest t c (n g : Z) mu : iProp Σ :=
  ⌜conf_ok c /\ (if tc_mutexes c =? 0 then mu = [] else Z.of_nat (length mu) = Z.shiftr (tc_count c) (tc_shift c))⌝ ∗
  word (buckets t) (tc_buckets c) ∗ word (bucket_mutexes t) (tc_mutexes c) ∗
  (if tc_mutexes c =? 0 then some_word (global_mutex t) else word (global_mutex t) g) ∗
  word (mutex_shift t) (tc_shift c) ∗ word (bucketcnt t) (tc_count c) ∗ word (table_fn t) (tc_fn c) ∗
  word (fn_userdata t) (tc_userdata c) ∗ word (itemcnt t) n ∗ mutexes c mu.
Definition is_table t c all g mu : iProp Σ := table_rest t c (Z.of_nat (length all)) g mu ∗ blists c all.

Lemma blists_acc c i all : 0 <= i < tc_count c ->
  blists c all ⊢ hlist (tc_buckets c + 8 * i) (bucket c i all) ∗
    (∀ all', ⌜forall j, j <> i -> bucket c j all' = bucket c j all⌝ -∗ hlist (tc_buckets c + 8 * i) (bucket c i all') -∗ blists c all').
Proof.
  intros Hi. rewrite /blists. iIntros "H". iDestruct (heads_acc with "H") as "[$ H]"; [done|]. iIntros (all' Hsame) "Hi".
  iApply ("H" with "[%] Hi"). intros j _. apply Hsame.
Qed.

Lemma bucket_app c i xs ys : bucket c i (xs ++ ys) = bucket c i xs ++ bucket c i ys.
Proof. apply list.filter_app. Qed.
Lemma bucket_here c x ys : bucket c (slot_of c x) (x :: ys) = x :: bucket c (slot_of c x) ys.
Proof. by rewrite /bucket filter_cons_True. Qed.
Lemma bucket_elsewhere c x j ys : j <> slot_of c x -> bucket c j (x :: ys) = bucket c j ys.
Proof. intros Hj. rewrite /bucket filter_cons_False; [done|congruence]. Qed.

(** ** Mutexes *)

Definition mutex_slot c h : nat := Z.to_nat (Z.shiftr (slot c h) (tc_shift c)).

Lemma mutexes_acc c i v mu : mu !! i = Some v ->
  mutexes c mu ⊢ word (tc_mutexes c + sizeof_mutex * Z.of_nat i) v ∗ (∀ w, word (tc_mutexes c + sizeof_mutex * Z.of_nat i) w -∗ mutexes c (<[i := w]> mu)).
Proof. intros Hi. apply (big_sepL_insert_acc (fun i v => word (tc_mutexes c + sizeof_mutex * Z.of_nat i) v) mu i v Hi). Qed.

Lemma mutex_slot_lt c h mu : conf_ok c -> tc_mutexes c <> 0 -> Z.of_nat (length mu) = Z.shiftr (tc_count c) (tc_shift c) ->
  (mutex_slot c h < length mu)%nat.
Proof. clear key hash.
  intros Hc Hm Hl. pose proof (hash_slot_range c h Hc) as Hs. destruct Hc as (_ & Hlog & Hsh & Hle). specialize (Hle Hm).
  unfold mutex_slot. rewrite Z.shiftr_div_pow2 in Hl |- *; [|done..]. rewrite Z.shiftr_div_pow2; [|done].
  assert (0 < 2 ^ tc_shift c) by (apply Z.pow_pos_nonneg; lia). apply Nat2Z.inj_lt. rewrite Hl.
  assert (tc_count c = 2 ^ tc_shift c * 2 ^ (tc_log c - tc_shift c)) as E by (unfold tc_count; rewrite -Z.pow_add_r; [f_equal; lia|lia..]).
  rewrite Z2Nat.id; [|apply Z.div_pos; lia]. rewrite E Z.mul_comm Z.div_mul; [|lia]. apply Z.div_lt_upper_bound; lia.
Qed.

(** [h]'s mutex is in state [v], if there are mutexes. *)
Definition mutex_is c h mu (v : Z) : Prop := tc_mutexes c <> 0 -> mu !! mutex_slot c h = Some v.

Lemma wp_if_locked {B} t c n g mu (p : prog Z unit) (k : unit -> prog Z B) (Q : iProp Σ) Φ :
  (forall k', tc_mutexes c <> 0 -> table_rest t c n g mu -∗ (Q -∗ wp (k' tt) Φ) -∗ wp (p ≫= (k' : unit -> prog Z B)) Φ) ->
  (tc_mutexes c = 0 -> table_rest t c n g mu ⊢ Q) ->
  table_rest t c n g mu -∗ (Q -∗ wp (k tt) Φ) -∗ wp (if_locked t p ≫= k) Φ.
Proof.
  iIntros (Hp Hq) "(%Hc & Hb & Hm & Hrest) HΦ". rewrite /if_locked. word_steps.
  iAssert (table_rest t c n g mu) with "[Hb Hm Hrest]" as "Ht"; [by iFrame|]. destruct (Z.eqb_spec (tc_mutexes c) 0) as [E|E]; simpl.
  - word_steps. iApply "HΦ". by iApply Hq.
  - by iApply (Hp with "Ht").
Qed.

Lemma wp_mutex_lock {B} a (k : unit -> prog Z B) Φ : word a 0 -∗ (word a 1 -∗ wp (k tt) Φ) -∗ wp (mutex_lock a ≫= k) Φ.
Proof. iIntros "Ha HΦ". rewrite /mutex_lock. word_steps. simpl. word_steps. by iApply "HΦ". Qed.
Lemma wp_mutex_unlock {B} a (k : unit -> prog Z B) Φ : word a 1 -∗ (word a 0 -∗ wp (k tt) Φ) -∗ wp (mutex_unlock a ≫= k) Φ.
Proof. iIntros "Ha HΦ". rewrite /mutex_unlock. word_steps. simpl. word_steps. by iApply "HΦ". Qed.

Lemma wp_global_lock {B} t c n mu (k : unit -> prog Z B) Φ : tc_mutexes c <> 0 ->
  table_rest t c n 0 mu -∗ (table_rest t c n 1 mu -∗ wp (k tt) Φ) -∗ wp (mutex_lock (global_mutex t) ≫= k) Φ.
Proof.
  iIntros (Hm) "(%Hc & Hb & Hm & Hg & Hrest) HΦ". rewrite /table_rest (proj2 (Z.eqb_neq _ _) Hm) in Hc |- *.
  iApply (wp_mutex_lock with "Hg"). iIntros "Hg". iApply "HΦ". iFrame "%". by iFrame.
Qed.
Lemma wp_global_unlock {B} t c n mu (k : unit -> prog Z B) Φ : tc_mutexes c <> 0 ->
  table_rest t c n 1 mu -∗ (table_rest t c n 0 mu -∗ wp (k tt) Φ) -∗ wp (mutex_unlock (global_mutex t) ≫= k) Φ.
Proof.
  iIntros (Hm) "(%Hc & Hb & Hm & Hg & Hrest) HΦ". rewrite /table_rest (proj2 (Z.eqb_neq _ _) Hm) in Hc |- *.
  iApply (wp_mutex_unlock with "Hg"). iIntros "Hg". iApply "HΦ". iFrame "%". by iFrame.
Qed.
(** Without mutexes the state of the global one does not matter. *)
Lemma table_rest_unlocked t c n g g' mu : tc_mutexes c = 0 -> table_rest t c n g mu ⊢ table_rest t c n g' mu.
Proof. intros E. rewrite /table_rest E /=. done. Qed.

Lemma wp_bucket_mutex {B} t c n g h mu (k : Z -> prog Z B) Φ :
  table_rest t c n g mu -∗ (table_rest t c n g mu -∗ wp (k (tc_mutexes c + sizeof_mutex * Z.of_nat (mutex_slot c h))) Φ) -∗
  wp (bucket_mutex t h ≫= k) Φ.
Proof. clear key hash.
  iIntros "(%Hc & Hb & Hm & Hg & Hsh & Hcnt & Hrest) HΦ". rewrite /bucket_mutex. word_steps. destruct Hc as [Hc Hmu]. rewrite slot_land //.
  pose proof (hash_slot_range c h Hc). pose proof (Z.shiftr_nonneg (slot c h) (tc_shift c)). rewrite /mutex_slot Z2Nat.id; [|lia].
  iApply "HΦ". iFrame "%". by iFrame.
Qed.
Lemma wp_set_mutex {B} t c n g h mu v w (op : Z -> prog Z unit) (k : unit -> prog Z B) Φ :
  (forall a (k' : unit -> prog Z B) Φ, word a v -∗ (word a w -∗ wp (k' tt) Φ) -∗ wp (op a ≫= k') Φ) ->
  tc_mutexes c <> 0 -> mutex_is c h mu v ->
  table_rest t c n g mu -∗ (table_rest t c n g (<[mutex_slot c h := w]> mu) -∗ wp (k tt) Φ) -∗
  wp ((a ← bucket_mutex t h; op a) ≫= k) Φ.
Proof.
  iIntros (Hop Hm Hi) "Ht HΦ". word_steps. iApply (wp_bucket_mutex with "Ht"). iIntros "(%Hc & Hb & Hm & Hg & Hsh & Hcnt & Hfn & Hud & Hn & Hmu)".
  iDestruct (mutexes_acc _ _ _ _ (Hi Hm) with "Hmu") as "[Ha Hmu]". iApply (Hop with "Ha"). iIntros "Ha". iApply "HΦ".
  iFrame "Hb Hm Hg Hsh Hcnt Hfn Hud Hn". iSplit; [|by iApply "Hmu"]. iPureIntro. rewrite length_insert. by destruct (Z.eqb_spec (tc_mutexes c) 0).
Qed.
Lemma wp_lock_mutex_of {B} t c n g h mu (k : unit -> prog Z B) Φ : tc_mutexes c <> 0 -> mutex_is c h mu 0 ->
  table_rest t c n g mu -∗ (table_rest t c n g (<[mutex_slot c h := 1]> mu) -∗ wp (k tt) Φ) -∗ wp (lock_mutex_of t h ≫= k) Φ.
Proof. intros Hm Hi. apply wp_set_mutex with (v := 0); [|done|done]. intros. apply wp_mutex_lock. Qed.
Lemma wp_unlock_mutex_of {B} t c n g h mu (k : unit -> prog Z B) Φ : tc_mutexes c <> 0 -> mutex_is c h mu 1 ->
  table_rest t c n g mu -∗ (table_rest t c n g (<[mutex_slot c h := 0]> mu) -∗ wp (k tt) Φ) -∗ wp (unlock_mutex_of t h ≫= k) Φ.
Proof. intros Hm Hi. apply wp_set_mutex with (v := 1); [|done|done]. intros. apply wp_mutex_unlock. Qed.

(** The states of the mutexes while [h]'s is locked, and after. *)
Definition locked_mu c h mu : list Z := if tc_mutexes c =? 0 then mu else <[mutex_slot c h := 1]> mu.
Lemma locked_mu_is c h mu : mutex_is c h mu 0 -> mutex_is c h (locked_mu c h mu) 1.
Proof.
  intros Hi Hm. rewrite /locked_mu. destruct (Z.eqb_spec (tc_mutexes c) 0); [done|]. apply list_lookup_insert_eq. apply lookup_lt_is_Some. eexists. by apply Hi.
Qed.
Lemma locked_mu_back c h mu : mutex_is c h mu 0 -> tc_mutexes c <> 0 -> <[mutex_slot c h := 0]> (locked_mu c h mu) = mu.
Proof.
  intros Hi Hm. rewrite /locked_mu. destruct (Z.eqb_spec (tc_mutexes c) 0); [done|]. rewrite list_insert_insert_eq. apply list_insert_id. by apply Hi.
Qed.

(** ** The operations *)

Lemma wp_table_lock {B} t c n h mu (k : unit -> prog Z B) Φ : mutex_is c h mu 0 ->
  table_rest t c n 0 mu -∗ (table_rest t c n 1 (locked_mu c h mu) -∗ wp (k tt) Φ) -∗
  wp (if_locked t (_ ← lock_mutex_of t h; mutex_lock (global_mutex t)) ≫= k) Φ.
Proof.
  intros Hi. apply wp_if_locked.
  - iIntros (k' Hm) "Ht HΦ". word_steps. iApply (wp_lock_mutex_of with "Ht"); [done|done|]. iIntros "Ht". iApply (wp_global_lock with "Ht"); [done|].
    rewrite /locked_mu (proj2 (Z.eqb_neq _ _) Hm). done.
  - intros E. rewrite /locked_mu E /=. by apply table_rest_unlocked.
Qed.
Lemma wp_table_unlock {B} t c n h mu (k : unit -> prog Z B) Φ : mutex_is c h mu 0 ->
  table_rest t c n 1 (locked_mu c h mu) -∗ (table_rest t c n 0 mu -∗ wp (k tt) Φ) -∗
  wp (if_locked t (_ ← mutex_unlock (global_mutex t); unlock_mutex_of t h) ≫= k) Φ.
Proof.
  intros Hi. apply wp_if_locked.
  - iIntros (k' Hm) "Ht HΦ". word_steps. iApply (wp_global_unlock with "Ht"); [done|]. iIntros "Ht".
    iApply (wp_unlock_mutex_of with "Ht"); [done|by apply locked_mu_is|]. rewrite locked_mu_back //.
  - intros E. rewrite /locked_mu E /=. by apply table_rest_unlocked.
Qed.
Lemma wp_table_lock_global {B} t c n mu (k : unit -> prog Z B) Φ :
  table_rest t c n 0 mu -∗ (table_rest t c n 1 mu -∗ wp (k tt) Φ) -∗ wp (if_locked t (mutex_lock (global_mutex t)) ≫= k) Φ.
Proof. apply wp_if_locked; [intros; by apply wp_global_lock|intros; by apply table_rest_unlocked]. Qed.
Lemma wp_table_unlock_global {B} t c n mu (k : unit -> prog Z B) Φ :
  table_rest t c n 1 mu -∗ (table_rest t c n 0 mu -∗ wp (k tt) Φ) -∗ wp (if_locked t (mutex_unlock (global_mutex t)) ≫= k) Φ.
Proof. apply wp_if_locked; [intros; by apply wp_global_unlock|intros; by apply table_rest_unlocked]. Qed.

Lemma wp_hash_table_lock_bucket {B} t c n g h mu (k : unit -> prog Z B) Φ : mutex_is c h mu 0 ->
  table_rest t c n g mu -∗ (table_rest t c n g (locked_mu c h mu) -∗ wp (k tt) Φ) -∗ wp (hash_table_lock_bucket t h ≫= k) Φ.
Proof.
  intros Hi. apply wp_if_locked.
  - intros k' Hm. rewrite /locked_mu (proj2 (Z.eqb_neq _ _) Hm). by apply wp_lock_mutex_of.
  - intros E. by rewrite /locked_mu E.
Qed.
Lemma wp_hash_table_unlock_bucket {B} t c n g h mu (k : unit -> prog Z B) Φ : mutex_is c h mu 0 ->
  table_rest t c n g (locked_mu c h mu) -∗ (table_rest t c n g mu -∗ wp (k tt) Φ) -∗ wp (hash_table_unlock_bucket t h ≫= k) Φ.
Proof.
  intros Hi. apply wp_if_locked.
  - intros k' Hm. iIntros "Ht HΦ". iApply (wp_unlock_mutex_of with "Ht"); [done|by apply locked_mu_is|]. rewrite locked_mu_back //.
  - intros E. by rewrite /locked_mu E.
Qed.

Lemma wp_bucket_head {B} t c n g h mu (k : Z -> prog Z B) Φ :
  table_rest t c n g mu -∗ (table_rest t c n g mu -∗ wp (k (tc_buckets c + 8 * slot c h)) Φ) -∗ wp (bucket_head t h ≫= k) Φ.
Proof.
  iIntros "(%Hc & Hb & Hm & Hg & Hsh & Hcnt & Hrest) HΦ". rewrite /bucket_head. word_steps. destruct Hc as [Hc Hmu]. rewrite slot_land //.
  iApply "HΦ". iFrame "%". by iFrame.
Qed.
Lemma table_rest_conf t c n g mu : table_rest t c n g mu ⊢ ⌜conf_ok c⌝.
Proof. iIntros "([%Hc _] & _)". by iPureIntro. Qed.

(** The node is put into its bucket, and the items are counted. *)
Lemma wp_put_node {B} t c all g mu x (k : unit -> prog Z B) Φ : Z.of_nat (length all) + 1 < 2 ^ 64 ->
  is_table t c all g mu -∗ free_node x -∗ (is_table t c (x :: all) g mu -∗ wp (k tt) Φ) -∗
  wp (put_node t x (hash (key x)) ≫= k) Φ.
Proof.
  iIntros (Hn) "[Ht Hl] Hx HΦ". rewrite /put_node. word_steps. iDestruct (table_rest_conf with "Ht") as %Hc. iApply (wp_bucket_head with "Ht"). iIntros "Ht". word_steps.
  iDestruct (blists_acc c (slot_of c x) all with "Hl") as "[Hi Hl]"; [by apply hash_slot_range|].
  iApply (wp_hash_list_add_head with "Hi Hx"). iIntros "Hi". rewrite /incr_itemcnt.
  iDestruct "Ht" as "(%Hp & Hb & Hm & Hg & Hsh & Hcnt & Hfn & Hud & Hn & Hmu)". word_steps. rewrite u64_small; [|lia].
  iApply "HΦ". iSplitR "Hl Hi".
  - replace (Z.of_nat (length (x :: all))) with (Z.of_nat (length all) + 1) by (simpl; lia). iFrame "%". by iFrame.
  - iApply ("Hl" with "[%]"); [intros j Hj; by apply bucket_elsewhere|]. by rewrite bucket_here.
Qed.
(** The node is taken out. *)
Lemma wp_take_node {B} t c l1 x l2 g mu (k : unit -> prog Z B) Φ :
  is_table t c (l1 ++ x :: l2) g mu -∗ (is_table t c (l1 ++ l2) g mu -∗ free_node x -∗ wp (k tt) Φ) -∗
  wp (take_node t x ≫= k) Φ.
Proof.
  iIntros "[Ht Hl] HΦ". rewrite /take_node. word_steps. iDestruct (table_rest_conf with "Ht") as %Hc.
  iDestruct (blists_acc c (slot_of c x) with "Hl") as "[Hi Hl]"; [by apply hash_slot_range|]. rewrite bucket_app bucket_here.
  iApply (wp_hash_list_delete with "Hi"). iIntros "Hi Hx". rewrite /decr_itemcnt.
  iDestruct "Ht" as "(%Hp & Hb & Hm & Hg & Hsh & Hcnt & Hfn & Hud & Hn & Hmu)". word_steps. rewrite length_app /=.
  destruct (Z.eqb_spec (Z.of_nat (length l1 + S (length l2))) 0); [lia|]. word_steps. iApply ("HΦ" with "[-Hx] Hx"). iSplitR "Hl Hi".
  - replace (Z.of_nat (length (l1 ++ l2))) with (Z.of_nat (length l1 + S (length l2)) - 1) by (rewrite length_app; lia). iFrame "%". by iFrame.
  - iApply ("Hl" with "[%]"); [intros j Hj; by rewrite !bucket_app bucket_elsewhere|]. by rewrite bucket_app.
Qed.

Lemma wp_hash_table_add_nogrow {B} t c all mu x (k : unit -> prog Z B) Φ :
  Z.of_nat (length all) + 1 < 2 ^ 64 -> mutex_is c (hash (key x)) mu 0 ->
  is_table t c all 0 mu -∗ free_node x -∗ (is_table t c (x :: all) 0 mu -∗ wp (k tt) Φ) -∗
  wp (hash_table_add_nogrow t x (hash (key x)) ≫= k) Φ.
Proof.
  iIntros (Hn Hi) "[Ht Hl] Hx HΦ". rewrite /hash_table_add_nogrow. word_steps. iApply (wp_table_lock with "Ht"); [done|]. iIntros "Ht". word_steps.
  iApply (wp_put_node with "[Ht Hl] Hx"); [done|by iFrame|]. iIntros "[Ht Hl]". iApply (wp_table_unlock with "Ht"); [done|]. iIntros "Ht".
  iApply "HΦ". by iFrame.
Qed.
Lemma wp_hash_table_add_nogrow_already_bucket_locked {B} t c all mu x (k : unit -> prog Z B) Φ :
  Z.of_nat (length all) + 1 < 2 ^ 64 ->
  is_table t c all 0 mu -∗ free_node x -∗ (is_table t c (x :: all) 0 mu -∗ wp (k tt) Φ) -∗
  wp (hash_table_add_nogrow_already_bucket_locked t x (hash (key x)) ≫= k) Φ.
Proof.
  iIntros (Hn) "[Ht Hl] Hx HΦ". rewrite /hash_table_add_nogrow_already_bucket_locked. word_steps. iApply (wp_table_lock_global with "Ht"). iIntros "Ht". word_steps.
  iApply (wp_put_node with "[Ht Hl] Hx"); [done|by iFrame|]. iIntros "[Ht Hl]". iApply (wp_table_unlock_global with "Ht"). iIntros "Ht".
  iApply "HΦ". by iFrame.
Qed.
Lemma wp_hash_table_delete {B} t c l1 x l2 h mu (k : unit -> prog Z B) Φ : mutex_is c h mu 0 ->
  is_table t c (l1 ++ x :: l2) 0 mu -∗ (is_table t c (l1 ++ l2) 0 mu -∗ free_node x -∗ wp (k tt) Φ) -∗
  wp (hash_table_delete t x h ≫= k) Φ.
Proof.
  iIntros (Hi) "[Ht Hl] HΦ". rewrite /hash_table_delete. word_steps. iApply (wp_table_lock with "Ht"); [done|]. iIntros "Ht". word_steps.
  iApply (wp_take_node with "[Ht Hl]"); [by iFrame|]. iIntros "[Ht Hl] Hx". iApply (wp_table_unlock with "Ht"); [done|]. iIntros "Ht".
  iApply ("HΦ" with "[Ht Hl] Hx"). by iFrame.
Qed.
Lemma wp_hash_table_delete_already_bucket_locked {B} t c l1 x l2 mu (k : unit -> prog Z B) Φ :
  is_table t c (l1 ++ x :: l2) 0 mu -∗ (is_table t c (l1 ++ l2) 0 mu -∗ free_node x -∗ wp (k tt) Φ) -∗
  wp (hash_table_delete_already_bucket_locked t x ≫= k) Φ.
Proof.
  iIntros "[Ht Hl] HΦ". rewrite /hash_table_delete_already_bucket_locked. word_steps. iApply (wp_table_lock_global with "Ht"). iIntros "Ht". word_steps.
  iApply (wp_take_node with "[Ht Hl]"); [by iFrame|]. iIntros "[Ht Hl] Hx". iApply (wp_table_unlock_global with "Ht"). iIntros "Ht".
  iApply ("HΦ" with "[Ht Hl] Hx"). by iFrame.
Qed.

(** ** Loops over the table *)

(** A search for a key, as the clients write it. *)
Definition find_key (fuel : nat) (t kk : Z) : prog Z (unit + Z) :=
  hash_table_for_each_possible (fun x _ => if key x =? kk then mret (inr x) else mret (inl tt)) fuel t (hash kk) tt.
Definition with_key (kk : Z) all : list Z := filter (fun x => key x = kk) all.

Lemma with_key_bucket c kk all : with_key kk (bucket c (slot c (hash kk)) all) = with_key kk all.
Proof. rewrite /with_key /bucket list_filter_filter_l //. intros x Hx. by rewrite /slot_of Hx. Qed.

Lemma wp_find_key {B} fuel t c all g mu kk (k : unit + Z -> prog Z B) Φ : (length all < fuel)%nat ->
  is_table t c all g mu -∗
  (is_table t c all g mu -∗ wp (k (match with_key kk all with [] => inl tt | x :: _ => inr x end)) Φ) -∗
  wp (find_key fuel t kk ≫= k) Φ.
Proof.
  iIntros (Hf) "[Ht Hl] HΦ". iDestruct (table_rest_conf with "Ht") as %Hc. rewrite /find_key /hash_table_for_each_possible. word_steps.
  iApply (wp_bucket_head with "Ht"). iIntros "Ht". iDestruct (blists_acc c (slot c (hash kk)) all with "Hl") as "[Hi Hl]"; [by apply hash_slot_range|].
  iApply (wp_hash_list_for_each _ _ _ _ _ (fun ys _ => ⌜with_key kk ys = []⌝)%I (fun r => ⌜exists l, with_key kk (bucket c (slot c (hash kk)) all) = r :: l⌝)%I with "Hi").
  - pose proof (length_filter (fun x => slot_of c x = slot c (hash kk)) all). rewrite /bucket. lia.
  - intros ys x zs [] E. iIntros (Hys). destruct (Z.eqb_spec (key x) kk) as [Hx|Hx]; iApply wp_ret; iPureIntro; rewrite /with_key in Hys |- *.
    + rewrite E list.filter_app Hys filter_cons_True //. by eexists.
    + rewrite list.filter_app Hys filter_cons_False //.
  - done.
  - iIntros (r) "Hi Hr". iDestruct ("Hl" $! all with "[//] Hi") as "Hl". rewrite -(with_key_bucket c).
    destruct r as [[]|r].
    + iDestruct "Hr" as %->. iApply "HΦ". by iFrame.
    + iDestruct "Hr" as %[l ->]. iApply "HΦ". by iFrame.
Qed.

(** The nodes of all buckets. *)
Lemma buckets_perm c all : conf_ok c -> mjoin ((fun i => bucket c i all) <$> seqZ 0 (tc_count c)) ≡ₚ all.
Proof.
  intros Hc. induction all as [|x all IH].
  - assert (forall l, mjoin ((fun i => bucket c i []) <$> l) = []) as ->; [|done]. intros l. induction l; [done|]. by simpl.
  - pose proof (hash_slot_range c (hash (key x)) Hc) as Hi. fold (slot_of c x) in Hi. set (i := slot_of c x) in *.
    pose proof (seqZ_at (tc_count c) i Hi) as E.
    rewrite E in IH |- *. rewrite !fmap_app !fmap_cons in IH |- *. rewrite !join_app in IH |- *. cbn [mjoin list_join] in IH |- *.
    rewrite bucket_here.
    assert (forall l : list Z, i ∉ l -> (fun j => bucket c j (x :: all)) <$> l = (fun j => bucket c j all) <$> l) as Hsame.
    { intros l Hl. apply list_fmap_ext. intros k j Hj. apply bucket_elsewhere. intros ->. apply Hl. by eapply list_elem_of_lookup_2. }
    rewrite !Hsame; [|rewrite elem_of_seqZ; lia..]. etransitivity; [|by apply perm_skip, IH]. simpl. symmetry. apply Permutation_middle.
Qed.

Definition all_nodes (fuel : nat) (t : Z) (n : nat) : prog Z (list Z + Empty_set) :=
  hash_table_for_each (fun x l => mret (inl (l ++ [x]))) fuel t n 0 [].

Lemma wp_all_nodes {B} fuel t c all g mu n (k : list Z + Empty_set -> prog Z B) Φ : (length all < fuel)%nat -> tc_count c <= Z.of_nat n ->
  is_table t c all g mu -∗ (∀ l, ⌜l ≡ₚ all⌝ -∗ is_table t c all g mu -∗ wp (k (inl l)) Φ) -∗
  wp (all_nodes fuel t n ≫= k) Φ.
Proof.
  iIntros (Hf Hn) "[Ht Hl] HΦ". iDestruct (table_rest_conf with "Ht") as %Hc. rewrite /all_nodes. pose proof (count_pos c Hc) as Hpos.
  iAssert (∀ m i l, ⌜0 <= i <= tc_count c⌝ -∗ ⌜tc_count c - i <= Z.of_nat m⌝ -∗ ⌜l = mjoin ((fun i => bucket c i all) <$> seqZ 0 i)⌝ -∗
    table_rest t c (Z.of_nat (length all)) g mu -∗ blists c all -∗ (∀ l, ⌜l ≡ₚ all⌝ -∗ is_table t c all g mu -∗ wp (k (inl l)) Φ) -∗
    wp (hash_table_for_each (fun x l => mret (inl (l ++ [x]))) fuel t m i l ≫= k) Φ)%I as "Hloop".
  { iIntros (m). iInduction m as [|m IH]; iIntros (i l Hi Hm ->) "(%Hp & Hb & Hm & Hg & Hsh & Hcnt & Hfn & Hud & Hn & Hmu) Hl HΦ"; simpl; word_steps;
      destruct (Z.ltb_spec i (tc_count c)) as [Hlt|Hge]; simpl.
    - lia.
    - word_steps. replace i with (tc_count c) by lia. iApply "HΦ"; [iPureIntro; by apply buckets_perm|]. by iFrame.
    - word_steps. iDestruct (blists_acc c i all with "Hl") as "[Hi Hl]"; [lia|].
      iApply (wp_hash_list_for_each _ _ _ _ _ (fun ys s => ⌜s = mjoin ((fun i => bucket c i all) <$> seqZ 0 i) ++ ys⌝)%I (fun _ => False)%I with "Hi").
      + pose proof (length_filter (fun x => slot_of c x = i) all). rewrite /bucket. lia.
      + intros ys x zs s E. iIntros (->). iApply wp_ret. iPureIntro. by rewrite -app_assoc.
      + by rewrite app_nil_r.
      + iIntros ([s|[]]) "Hi Hs". iDestruct "Hs" as %->. iDestruct ("Hl" $! all with "[//] Hi") as "Hl".
        iApply ("IH" with "[%] [%] [%] [-Hl HΦ] Hl HΦ"); [lia|lia| |by iFrame].
        rewrite seqZ_app; [|lia..]. rewrite fmap_app join_app. f_equal. rewrite (seqZ_cons _ 1); [|lia]. simpl. by rewrite app_nil_r.
    - word_steps. replace i with (tc_count c) by lia. iApply "HΦ"; [iPureIntro; by apply buckets_perm|]. by iFrame. }
  iApply ("Hloop" $! n 0 [] with "[%] [%] [//] Ht Hl HΦ"); lia.
Qed.

(** The loop of a client that empties its table. *)
Definition delete_all (fuel : nat) (t : Z) (n : nat) : prog Z (unit + Empty_set) :=
  hash_table_for_each_safe (fun x _ => _ ← hash_table_delete t x (hash (key x)); mret (inl tt)) fuel t n 0 tt.

Lemma bucket_first c i all x zs : bucket c i all = x :: zs ->
  exists l1 l2, all = l1 ++ x :: l2 /\ bucket c i l1 = [] /\ bucket c i l2 = zs /\ slot_of c x = i.
Proof.
  induction all as [|y all IH]; [done|]. rewrite /bucket filter_cons. destruct (decide (slot_of c y = i)) as [Hy|Hy].
  - intros [= -> <-]. by exists [], all.
  - intros (l1 & l2 & -> & H1 & H2 & H3)%IH. exists (y :: l1), l2. rewrite /bucket filter_cons_False //.
Qed.

(** All mutexes are free. *)
Definition free_mu c : list Z := if tc_mutexes c =? 0 then [] else replicate (Z.to_nat (Z.shiftr (tc_count c) (tc_shift c))) 0.
Lemma free_mu_is c h : conf_ok c -> mutex_is c h (free_mu c) 0.
Proof. clear key hash.
  intros Hc Hm. rewrite /free_mu (proj2 (Z.eqb_neq _ _) Hm). pose proof (count_pos c Hc).
  pose proof (Z.shiftr_nonneg (tc_count c) (tc_shift c)). apply lookup_replicate_2.
  pose proof (mutex_slot_lt c h (replicate (Z.to_nat (Z.shiftr (tc_count c) (tc_shift c))) 0) Hc Hm) as Hlt.
  rewrite length_replicate in Hlt. apply Hlt. lia.
Qed.

Definition free_nodes (l : list Z) : iProp Σ := [∗ list] x ∈ l, free_node x.

Lemma wp_delete_all {B} fuel t c all n (k : unit + Empty_set -> prog Z B) Φ : (length all < fuel)%nat -> tc_count c <= Z.of_nat n ->
  is_table t c all 0 (free_mu c) -∗ (is_table t c [] 0 (free_mu c) -∗ free_nodes all -∗ wp (k (inl tt)) Φ) -∗
  wp (delete_all fuel t n ≫= k) Φ.
Proof.
  iIntros (Hf Hn) "[Ht Hl] HΦ". iDestruct (table_rest_conf with "Ht") as %Hc. rewrite /delete_all. pose proof (count_pos c Hc) as Hpos.
  iAssert (∀ m i l freed, ⌜0 <= i <= tc_count c⌝ -∗ ⌜tc_count c - i <= Z.of_nat m⌝ -∗ ⌜freed ++ l ≡ₚ all⌝ -∗ ⌜forall j, 0 <= j < i -> bucket c j l = []⌝ -∗
    is_table t c l 0 (free_mu c) -∗ free_nodes freed -∗ (is_table t c [] 0 (free_mu c) -∗ free_nodes all -∗ wp (k (inl tt)) Φ) -∗
    wp (hash_table_for_each_safe (fun x _ => _ ← hash_table_delete t x (hash (key x)); mret (inl tt)) fuel t m i tt ≫= k) Φ)%I as "Hloop".
  { assert (forall i l freed, i = tc_count c -> freed ++ l ≡ₚ all -> (forall j, 0 <= j < i -> bucket c j l = []) -> l = [] /\ freed ≡ₚ all) as Hend.
    { intros i l freed -> Hperm Hempty. assert (l = []) as ->; [|split; [done|by rewrite app_nil_r in Hperm]].
      destruct l as [|x l]; [done|]. pose proof (Hempty (slot_of c x) (hash_slot_range c _ Hc)) as E. by rewrite bucket_here in E. }
    iIntros (m). iInduction m as [|m IH]; iIntros (i l freed Hi Hm Hperm Hempty) "[Ht Hl] Hfree HΦ"; simpl;
      iDestruct "Ht" as "(%Hp & Hb & Hm & Hg & Hsh & Hcnt & Hfn & Hud & Hn & Hmu)"; word_steps; destruct (Z.ltb_spec i (tc_count c)) as [Hlt|Hge]; simpl.
    - lia.
    - word_steps. destruct (Hend i l freed ltac:(lia) Hperm Hempty) as [-> Hp']. iApply ("HΦ" with "[-Hfree]"); [by iFrame|]. by rewrite /free_nodes Hp'.
    - word_steps. iDestruct (blists_acc c i l with "Hl") as "[Hi Hl]"; [lia|].
      iApply (wp_hash_list_for_each_safe _ _ _ _ _ (fun ys zs _ => ∃ l' freed', ⌜ys = [] /\ bucket c i l' = zs /\ freed' ++ l' ≡ₚ all /\ (forall j, 0 <= j < i -> bucket c j l' = [])⌝ ∗
          table_rest t c (Z.of_nat (length l')) 0 (free_mu c) ∗ free_nodes freed' ∗
          (∀ l'', ⌜forall j, j <> i -> bucket c j l'' = bucket c j l'⌝ -∗ hlist (tc_buckets c + 8 * i) (bucket c i l'') -∗ blists c l''))%I
        (fun _ => False)%I with "Hi [Hb Hm Hg Hsh Hcnt Hfn Hud Hn Hmu Hfree Hl]").
      + pose proof (length_filter (fun x => slot_of c x = i) l). pose proof (Permutation_length Hperm) as Hl. rewrite length_app in Hl. rewrite /bucket. lia.
      + intros ys x zs []. iIntros "[Hi (%l' & %freed' & %Hpure & Ht & Hfree & Hl)]". destruct Hpure as (-> & E & Hperm' & Hempty'). simpl.
        destruct (bucket_first c i l' x zs E) as (l1 & l2 & -> & E1 & E2 & E3). iDestruct ("Hl" $! (l1 ++ x :: l2) with "[//] [Hi]") as "Hl"; [by rewrite E|].
        iApply (wp_hash_table_delete with "[Ht Hl]"); [by apply free_mu_is|by iFrame|]. iIntros "[Ht Hl] Hx".
        iDestruct (blists_acc c i (l1 ++ l2) with "Hl") as "[Hi Hl]"; [lia|]. iApply wp_ret. iExists []. simpl. rewrite bucket_app E1 E2 /=. iFrame "Hi".
        iExists (l1 ++ l2), (x :: freed'). iFrame. iPureIntro. split; [done|]. split; [by rewrite bucket_app E1 E2|]. split.
        * rewrite -Hperm' /=. rewrite !app_assoc. apply Permutation_middle.
        * intros j Hj. specialize (Hempty' j Hj). rewrite bucket_app in Hempty'. rewrite bucket_elsewhere in Hempty'; [|lia]. by rewrite bucket_app.
      + iExists l, freed. iFrame. done.
      + iIntros ([[]|[]]) "(%ys & Hi & %l' & %freed' & %Hpure & Ht & Hfree & Hl)". destruct Hpure as (-> & E & Hperm' & Hempty').
        iDestruct ("Hl" $! l' with "[//] [Hi]") as "Hl"; [by rewrite E|].
        iApply ("IH" $! (i + 1) l' freed' with "[%] [%] [//] [%] [Ht Hl] Hfree HΦ"); [lia|lia| |by iFrame].
        intros j Hj. destruct (decide (j = i)) as [->|]; [done|]. apply Hempty'. lia.
    - word_steps. destruct (Hend i l freed ltac:(lia) Hperm Hempty) as [-> Hp']. iApply ("HΦ" with "[-Hfree]"); [by iFrame|]. by rewrite /free_nodes Hp'. }
  iApply ("Hloop" $! n 0 all [] with "[%] [%] [//] [%] [Ht Hl] [] HΦ"); [lia|lia|intros; lia|by iFrame|by rewrite /free_nodes /=].
Qed.
End table.
