(* ===== verification/HashTableHistory.v ===== *)
(** Setting up a hash table, using it and freeing it. *)
From iris.proofmode Require Import coq_tactics reduction proofmode.
From iris.base_logic.lib Require Import gen_heap.
From S2P Require Import Prelude Heap HashTable HashTableSpec HashTableRun.

Section setup.
Context `{!gen_heapGS Z Z Σ}.

Lemma wp_for_n {B} (P Q : Z -> iProp Σ) (body : Z -> prog Z unit) n a (k : unit -> prog Z B) Φ :
  (forall i (k' : unit -> prog Z B) Φ, P i -∗ (Q i -∗ wp (k' tt) Φ) -∗ wp (body i ≫= k') Φ) ->
  ([∗ list] i ∈ seqZ a (Z.of_nat n), P i) -∗ (([∗ list] i ∈ seqZ a (Z.of_nat n), Q i) -∗ wp (k tt) Φ) -∗ wp (for_n n a body ≫= k) Φ.
Proof.
  intros Hb. revert a k. induction n as [|n IH]; intros a k; cbn [for_n].
  - iIntros "_ HΦ". iApply wp_ret_bind. by iApply "HΦ".
  - rewrite (seqZ_cons a (Z.of_nat (S n))); [|lia]. replace (Z.pred (Z.of_nat (S n))) with (Z.of_nat n) by lia. rewrite -Z.add_1_r /=.
    iIntros "[Ha Hr] HΦ". iApply wp_assoc. iApply (Hb with "Ha"). iIntros "Ha". iApply (IH with "Hr"). iIntros "Hr". iApply "HΦ". iFrame.
Qed.

(** The mutexes from [j] on. *)
Definition mutex_words (m : Z) (j n : nat) : iProp Σ := [∗ list] i ∈ seqZ (Z.of_nat j) (Z.of_nat n), word (m + sizeof_mutex * i) 0.
Definition mutex_block (m : Z) (j n : nat) : iProp Σ := [∗ list] i ∈ seqZ (Z.of_nat j) (Z.of_nat n), some_word (m + sizeof_mutex * i).

Lemma seqZ_S (j n : nat) : seqZ (Z.of_nat j) (Z.of_nat (S n)) = Z.of_nat j :: seqZ (Z.of_nat (S j)) (Z.of_nat n).
Proof. rewrite seqZ_cons; [|lia]. f_equal. f_equal; lia. Qed.

Lemma mutex_words_S m j : mutex_words m 0 (S j) ⊣⊢ mutex_words m 0 j ∗ word (m + sizeof_mutex * Z.of_nat j) 0.
Proof.
  rewrite /mutex_words. replace (Z.of_nat (S j)) with (Z.of_nat j + 1) by lia. rewrite seqZ_app; [|lia..]. rewrite big_sepL_app (seqZ_cons _ 1); [|lia].
  by rewrite big_sepL_singleton.
Qed.

Lemma mutex_words_mutexes c : conf_ok c -> tc_mutexes c <> 0 ->
  mutex_words (tc_mutexes c) 0 (Z.to_nat (Z.shiftr (tc_count c) (tc_shift c))) ⊣⊢ mutexes c (free_mu c).
Proof.
  intros Hc Hm. rewrite /mutexes /free_mu (proj2 (Z.eqb_neq _ _) Hm) /mutex_words. generalize (Z.to_nat (Z.shiftr (tc_count c) (tc_shift c))). intros n.
  assert (forall j, ([∗ list] i ∈ seqZ (Z.of_nat j) (Z.of_nat n), word (tc_mutexes c + sizeof_mutex * i) 0) ⊣⊢
    ([∗ list] i↦v ∈ replicate n 0, word (tc_mutexes c + sizeof_mutex * Z.of_nat (j + i)) v)) as E; [|by rewrite (E 0%nat)].
  induction n as [|n IH]; intros j; [done|]. rewrite seqZ_S. cbn [replicate]. rewrite !big_sepL_cons IH Nat.add_0_r. f_equiv.
  apply big_sepL_proper. intros i v _. by replace (S j + i)%nat with (j + S i)%nat by lia.
Qed.

Lemma wp_init_mutexes {B} ok t m n j (k : option Z -> prog Z B) Φ :
  (forall i, (j <= i < j + n)%nat -> ok (Z.of_nat i) = true) ->
  mutex_block m j n -∗ (mutex_words m j n -∗ wp (k None) Φ) -∗ wp (init_mutexes ok n j t m ≫= k) Φ.
Proof.
  revert j. induction n as [|n IH]; intros j Hok; cbn [init_mutexes]; iIntros "Hb HΦ".
  - iApply wp_ret_bind. iApply "HΦ". by rewrite /mutex_words.
  - rewrite Hok; [|lia]. rewrite /mutex_block /mutex_words seqZ_S /=. iDestruct "Hb" as "[(%v & Hv) Hb]". rewrite /mutex_init. word_steps.
    iApply (IH with "Hb"); [intros; apply Hok; lia|]. iIntros "Hw". iApply "HΦ". iFrame.
Qed.

(** The table's own words. *)
Definition table_words (t : Z) : iProp Σ :=
  some_word (buckets t) ∗ some_word (bucket_mutexes t) ∗ some_word (global_mutex t) ∗ some_word (mutex_shift t) ∗
  some_word (bucketcnt t) ∗ some_word (table_fn t) ∗ some_word (fn_userdata t) ∗ some_word (itemcnt t).
Definition bucket_block (b n : Z) : iProp Σ := [∗ list] i ∈ seqZ 0 n, some_word (b + 8 * i).

(** The configuration that [hash_table_init_impl] makes. *)
Definition made_conf (n fn ud : Z) (locked : bool) (sh bs ms : Z) : table_conf :=
  TableConf bs (if locked then ms else 0) sh (Z.log2 (next_highest_power_of_2 n)) fn ud.
Definition mutex_count (n sh : Z) (locked : bool) : nat := if locked then Z.to_nat (Z.shiftr (next_highest_power_of_2 n) sh) else 0%nat.

Lemma made_conf_ok n fn ud locked sh bs ms :
  1 <= n <= 2 ^ 63 -> bs <> 0 -> 0 <= sh -> (locked = true -> ms <> 0 /\ 2 ^ sh <= next_highest_power_of_2 n) ->
  conf_ok (made_conf n fn ud locked sh bs ms) /\ tc_count (made_conf n fn ud locked sh bs ms) = next_highest_power_of_2 n.
Proof.
  intros Hn Hb Hsh Hl. destruct (next_highest_power_of_2_ok n Hn) as (a & Ha & E & _). rewrite /conf_ok /tc_count /made_conf E Z.log2_pow2 /=; [|lia].
  split; [|done]. split; [done|]. split; [lia|]. split; [done|]. intros Hm. destruct locked; [|done]. destruct Hl as [_ Hl]; [done|].
  rewrite E in Hl. apply Z.pow_le_mono_r_iff in Hl; lia.
Qed.

Lemma wp_hash_table_init_impl {B} (key hash : Z -> Z) t n fn ud locked sh bs gok ms ok (k : Z -> prog Z B) Φ :
  1 <= n <= 2 ^ 63 -> bs <> 0 -> 0 <= sh -> (locked = true -> ms <> 0 /\ 2 ^ sh <= next_highest_power_of_2 n /\ gok = true /\ forall i, ok i = true) ->
  table_words t -∗ bucket_block bs (next_highest_power_of_2 n) -∗ mutex_block ms 0 (mutex_count n sh locked) -∗
  (is_table key hash t (made_conf n fn ud locked sh bs ms) [] 0 (free_mu (made_conf n fn ud locked sh bs ms)) -∗ wp (k 0) Φ) -∗
  wp (hash_table_init_impl t n fn ud locked sh bs gok ms ok ≫= k) Φ.
Proof.
  iIntros (Hn Hb Hsh Hl) "((%v1 & Hbu) & (%v2 & Hbm) & (%v3 & Hg) & (%v4 & Hms) & (%v5 & Hbc) & (%v6 & Hfn) & (%v7 & Hud) & (%v8 & Hic)) Hblk Hmblk HΦ".
  destruct (made_conf_ok n fn ud locked sh bs ms Hn Hb Hsh) as [Hc Ecnt]; [intros E; specialize (Hl E); tauto|]. set (c := made_conf _ _ _ _ _ _ _) in *.
  pose proof (count_pos c Hc) as Hpos. rewrite Ecnt in Hpos. rewrite /hash_table_init_impl. word_steps.
  destruct (Z.eqb_spec bs 0) as [|_]; [done|].
  iAssert (word (buckets t) bs -∗ word (bucketcnt t) (next_highest_power_of_2 n) -∗
    (blists key hash c [] -∗ word (buckets t) bs -∗ word (bucketcnt t) (next_highest_power_of_2 n) -∗ wp (k 0) Φ) -∗
    wp ((n ← load (bucketcnt t); b ← load (buckets t); _ ← for_n (Z.to_nat n) 0 (fun i => hash_list_head_init (b + 8 * i)); mret 0) ≫= k) Φ)%I with "[Hblk]" as "Hheads".
  { iIntros "Hbu Hbc HΦ". word_steps. iApply (wp_for_n (fun i => some_word (bs + 8 * i)) (fun i => word (bs + 8 * i) 0) with "[Hblk]").
    - iIntros (i k' Φ') "(%v & Hv) HΦ". rewrite /hash_list_head_init. word_steps. by iApply "HΦ".
    - rewrite Z2Nat.id; [|lia]. done.
    - rewrite Z2Nat.id; [|lia]. iIntros "Hblk". word_steps. iApply ("HΦ" with "[Hblk] Hbu Hbc"). rewrite /blists Ecnt. done. }
  destruct locked; cbn [negb].
  - destruct (Hl eq_refl) as (Hm & Hle & -> & Hok). cbn [negb]. rewrite /mutex_init. word_steps. destruct (Z.eqb_spec ms 0) as [|_]; [done|]. word_steps.
    iApply (wp_init_mutexes with "Hmblk"); [intros; apply Hok|]. iIntros "Hmw". cbv beta iota. iApply ("Hheads" with "Hbu Hbc"). iIntros "Hbl Hbu Hbc".
    iApply "HΦ". iFrame "Hbl". rewrite /table_rest Ecnt /=. rewrite (proj2 (Z.eqb_neq _ _) Hm).
    rewrite -(mutex_words_mutexes c) // Ecnt. iFrame. iPureIntro. split; [done|]. rewrite /free_mu /= (proj2 (Z.eqb_neq _ _) Hm) length_replicate Ecnt.
    pose proof (Z.shiftr_nonneg (next_highest_power_of_2 n) sh). lia.
  - do 2 word_step. cbv beta iota. iApply ("Hheads" with "Hbu Hbc"). iIntros "Hbl Hbu Hbc". iApply "HΦ". iFrame "Hbl". rewrite /table_rest Ecnt /=. iFrame.
    rewrite /free_mu /= /mutexes /=. done.
Qed.

(** ** Failures *)

Lemma wp_destroy_down {B} m j (k : unit -> prog Z B) Φ :
  mutex_words m 0 j -∗ (mutex_words m 0 j -∗ wp (k tt) Φ) -∗ wp (destroy_down j m ≫= k) Φ.
Proof.
  revert k. induction j as [|j IH]; intros k; cbn [destroy_down]; iIntros "Hw HΦ"; [iApply wp_ret_bind; by iApply "HΦ"|].
  rewrite mutex_words_S. iDestruct "Hw" as "[Hw Hj]".
  rewrite /mutex_destroy. word_steps. simpl. word_steps. iApply (IH with "Hw"). iIntros "Hw". iApply "HΦ". by iFrame.
Qed.

Lemma wp_init_mutexes_fail {B} ok t m n j (k : option Z -> prog Z B) Φ :
  (exists i, (j <= i < j + n)%nat /\ ok (Z.of_nat i) = false) ->
  mutex_words m 0 j -∗ mutex_block m j n -∗ some_word (table_fn t) -∗ some_word (fn_userdata t) -∗ some_word (bucketcnt t) -∗ some_word (buckets t) -∗
  some_word (bucket_mutexes t) -∗ wp (k (Some (- ENOMEM))) Φ -∗ wp (init_mutexes ok n j t m ≫= k) Φ.
Proof.
  revert j. induction n as [|n IH]; intros j (i & Hi & Hok); cbn [init_mutexes]; iIntros "Hw Hb Hfn Hud Hbc Hbu Hbm HΦ"; [lia|].
  destruct (ok (Z.of_nat j)) eqn:Ej.
  - rewrite /mutex_block seqZ_S /=. iDestruct "Hb" as "[(%v & Hv) Hb]". rewrite /mutex_init. word_steps.
    iApply (IH with "[Hw Hv] Hb Hfn Hud Hbc Hbu Hbm HΦ").
    + exists i. split; [|done]. assert (i <> j) by (intros ->; congruence). lia.
    + rewrite mutex_words_S. iFrame.
  - word_steps. iApply (wp_destroy_down with "Hw"). iIntros "Hw". rewrite /init_fails.
    iDestruct "Hfn" as (a) "Hfn". iDestruct "Hud" as (b) "Hud". iDestruct "Hbc" as (c) "Hbc". iDestruct "Hbu" as (d) "Hbu". iDestruct "Hbm" as (e) "Hbm". by word_steps.
Qed.

(** Any refusal of the C library makes [hash_table_init_impl] return an error. *)
Lemma wp_hash_table_init_impl_fails t n fn ud locked sh bs gok ms ok Φ :
  (bs = 0 \/ locked = true /\ (gok = false \/ ms = 0 \/ exists i, (i < mutex_count n sh locked)%nat /\ ok (Z.of_nat i) = false)) ->
  table_words t -∗ mutex_block ms 0 (mutex_count n sh locked) -∗ Φ (- ENOMEM) -∗
  wp (hash_table_init_impl t n fn ud locked sh bs gok ms ok) Φ.
Proof.
  iIntros (Hfail) "((%v1 & Hbu) & (%v2 & Hbm) & (%v3 & Hg) & (%v4 & Hms) & (%v5 & Hbc) & (%v6 & Hfn) & (%v7 & Hud) & (%v8 & Hic)) Hmblk HΦ".
  iApply wp_bind_ret. rewrite /hash_table_init_impl /init_fails. word_steps. destruct (Z.eqb_spec bs 0) as [|Hbs].
  { word_steps. by iApply wp_ret. }
  destruct Hfail as [|[-> Hfail]]; [done|]. destruct gok; cbn [negb]; [|word_steps; by iApply wp_ret].
  rewrite /mutex_init. word_steps. destruct (Z.eqb_spec ms 0) as [|Hms].
  { rewrite /mutex_destroy. word_steps. simpl. word_steps. by iApply wp_ret. }
  destruct Hfail as [|[|(i & Hi & Ei)]]; [done..|]. word_steps.
  iApply (wp_init_mutexes_fail with "[] Hmblk [Hfn] [Hud] [Hbc] [Hbu] [Hbm]"); [exists i; split; [lia|done]|by rewrite /mutex_words|by iExists _..|].
  word_steps. by iApply wp_ret.
Qed.

(** ** Freeing *)

Lemma wp_hash_table_free {B} (key hash : Z -> Z) t c (k : unit -> prog Z B) Φ :
  is_table key hash t c [] 0 (free_mu c) -∗ (table_words t -∗ wp (k tt) Φ) -∗ wp (hash_table_free t ≫= k) Φ.
Proof.
  iIntros "[(%Hp & Hb & Hm & Hg & Hsh & Hcnt & Hfn & Hud & Hn & Hmu) _] HΦ". destruct Hp as [Hc Hmu]. pose proof (count_pos c Hc) as Hpos.
  pose proof (Z.shiftr_nonneg (tc_count c) (tc_shift c)) as Hnn.
  rewrite /hash_table_free. word_steps. simpl. word_steps. destruct (Z.eqb_spec (tc_mutexes c) 0) as [E|E]; simpl.
  - word_steps. iApply "HΦ". iFrame.
  - rewrite /mutex_destroy. word_steps. simpl. word_steps. rewrite -mutex_words_mutexes //.
    iApply (wp_for_n (fun i => word (tc_mutexes c + sizeof_mutex * i) 0) (fun i => word (tc_mutexes c + sizeof_mutex * i) 0) with "Hmu").
    + iIntros (i k' Φ') "Hw HΦ". word_steps. simpl. word_steps. by iApply "HΦ".
    + iIntros "Hmu". word_steps. iApply "HΦ". iFrame.
Qed.
End setup.

(** ** Histories *)

Inductive ht_op := HAdd (x : Z) | HAddLocked (x : Z) | HDelete (x : Z) | HDeleteLocked (x : Z) | HFind (k : Z) | HAll | HClear.

Section histories.
Context (key : Z -> Z) (hash : Z -> Z) (fuel : nat) (t : Z) (count : nat).

Definition ht_do (op : ht_op) : prog Z (list Z) :=
  match op with
  | HAdd x => _ ← hash_table_add_nogrow t x (hash (key x)); mret []
  | HAddLocked x =>
      _ ← hash_table_lock_bucket t (hash (key x));
      _ ← hash_table_add_nogrow_already_bucket_locked t x (hash (key x));
      _ ← hash_table_unlock_bucket t (hash (key x));
      mret []
  | HDelete x => _ ← hash_table_delete t x (hash (key x)); mret []
  | HDeleteLocked x =>
      _ ← hash_table_lock_bucket t (hash (key x));
      _ ← hash_table_delete_already_bucket_locked t x;
      _ ← hash_table_unlock_bucket t (hash (key x));
      mret []
  | HFind k => r ← find_key key hash fuel t k; mret (match r with inl _ => [] | inr x => [x] end)
  | HAll => r ← all_nodes fuel t count; mret (match r with inl l => l | inr e => match (e : Empty_set) with end end)
  | HClear => _ ← delete_all key hash fuel t count; mret []
  end.
Fixpoint ht_run (ops : list ht_op) : prog Z (list (list Z)) :=
  match ops with
  | [] => mret []
  | op :: ops => o ← ht_do op; os ← ht_run ops; mret (o :: os)
  end.

(** The same on a list of nodes, the last one added first.  A search finds the
    node with the key that was added last. *)
Inductive ht_step (all : list Z) : ht_op -> list Z -> list Z -> Prop :=
  | step_add x : ht_step all (HAdd x) [] (x :: all)
  | step_add_locked x : ht_step all (HAddLocked x) [] (x :: all)
  | step_delete x l1 l2 : all = l1 ++ x :: l2 -> ht_step all (HDelete x) [] (l1 ++ l2)
  | step_delete_locked x l1 l2 : all = l1 ++ x :: l2 -> ht_step all (HDeleteLocked x) [] (l1 ++ l2)
  | step_find k : ht_step all (HFind k) (take 1 (with_key key k all)) all
  | step_all l : l ≡ₚ all -> ht_step all HAll l all
  | step_clear : ht_step all HClear [] [].
Inductive ht_steps : list Z -> list ht_op -> list (list Z) -> list Z -> Prop :=
  | steps_nil all : ht_steps all [] [] all
  | steps_cons all op o all' ops os all'' : ht_step all op o all' -> ht_steps all' ops os all'' -> ht_steps all (op :: ops) (o :: os) all''.

(** A client adds nodes of its own that are not in the table, and deletes nodes
    that are. *)
Definition ht_allowed (P : list Z) (all : list Z) (op : ht_op) : Prop :=
  match op with
  | HAdd x | HAddLocked x => x ∈ P /\ x ∉ all
  | HDelete x | HDeleteLocked x => x ∈ all
  | _ => True
  end.
Definition ht_after (all : list Z) (op : ht_op) : list Z :=
  match op with
  | HAdd x | HAddLocked x => x :: all
  | HDelete x | HDeleteLocked x => filter (fun y => y <> x) all
  | HClear => []
  | _ => all
  end.
Fixpoint ht_allowed_run (P all : list Z) (ops : list ht_op) : Prop :=
  match ops with [] => True | op :: ops => ht_allowed P all op /\ ht_allowed_run P (ht_after all op) ops end.
End histories.

Section refinement.
Context `{!gen_heapGS Z Z Σ}.
Context (key : Z -> Z) (hash : Z -> Z) (fuel : nat) (t : Z) (count : nat) (P : list Z) (c : table_conf).
Context (HP : NoDup P) (HPlen : Z.of_nat (length P) + 1 < 2 ^ 64) (Hfuel : (length P < fuel)%nat) (Hcount : tc_count c <= Z.of_nat count).

(** The table holds [all], the client has the other nodes. *)
Definition ht_state (all : list Z) : iProp Σ :=
  ∃ rest, ⌜rest ++ all ≡ₚ P⌝ ∗ is_table key hash t c all 0 (free_mu c) ∗ free_nodes rest.

Lemma state_nodup rest all : rest ++ all ≡ₚ P -> NoDup all /\ (length all <= length P)%nat.
Proof.
  intros E. assert (NoDup (rest ++ all)) as Hn by (by rewrite E). apply list.NoDup_app in Hn as (_ & _ & Hn). split; [done|].
  apply Permutation_length in E. rewrite length_app in E. lia.
Qed.
Lemma filter_ne_id (x : Z) (l : list Z) : x ∉ l -> filter (fun y => y <> x) l = l.
Proof.
  induction l as [|y l IH]; intros Hn; [done|]. apply not_elem_of_cons in Hn as [Hy Hn]. rewrite filter_cons_True; [by rewrite IH|done].
Qed.
Lemma filter_split (x : Z) l1 l2 : NoDup (l1 ++ x :: l2) -> filter (fun y => y <> x) (l1 ++ x :: l2) = l1 ++ l2.
Proof.
  intros (_ & H1 & (H2 & _)%list.NoDup_cons)%list.NoDup_app. rewrite list.filter_app filter_cons_False; [|by intros []].
  f_equal; apply filter_ne_id; [|done]. intros Hy. apply (H1 x Hy), list_elem_of_here.
Qed.
Lemma state_add rest all x : rest ++ all ≡ₚ P -> x ∈ P -> x ∉ all -> exists rest', rest ≡ₚ x :: rest' /\ rest' ++ x :: all ≡ₚ P.
Proof.
  intros E Hx Hn. rewrite -E in Hx. apply elem_of_app in Hx as [Hx|]; [|done]. apply elem_of_Permutation in Hx as [rest' Hr]. exists rest'. split; [done|].
  rewrite -E Hr. symmetry. apply Permutation_middle.
Qed.

Lemma wp_ht_do {B} op all (k : list Z -> prog Z B) Φ : ht_allowed P all op ->
  ht_state all -∗ (∀ o, ⌜ht_step key all op o (ht_after all op)⌝ -∗ ht_state (ht_after all op) -∗ wp (k o) Φ) -∗
  wp (ht_do key hash fuel t count op ≫= k) Φ.
Proof.
  iIntros (Ha) "(%rest & %Hr & [Ht Hl] & Hf) HΦ". iDestruct (table_rest_conf with "Ht") as %Hc. destruct (state_nodup rest all Hr) as [Hnd Hlen].
  assert (forall h, mutex_is c h (free_mu c) 0) as Hmu by (intros h; by apply free_mu_is).
  destruct op as [x|x|x|x|kk| |]; simpl in Ha; cbn [ht_do ht_after]; word_steps.
  - destruct Ha as [Hx Hn]. destruct (state_add rest all x Hr Hx Hn) as (rest' & E & Hr'). rewrite /free_nodes E /=. iDestruct "Hf" as "[Hx Hf]".
    iApply (wp_hash_table_add_nogrow key hash t c all with "[Ht Hl] Hx"); [lia|apply Hmu|by iFrame|]. iIntros "Ht". word_steps. iApply "HΦ"; [iPureIntro; constructor|].
    iExists rest'. by iFrame.
  - destruct Ha as [Hx Hn]. destruct (state_add rest all x Hr Hx Hn) as (rest' & E & Hr'). rewrite /free_nodes E /=. iDestruct "Hf" as "[Hx Hf]".
    iApply (wp_hash_table_lock_bucket with "Ht"); [apply Hmu|]. iIntros "Ht". word_steps.
    iApply (wp_hash_table_add_nogrow_already_bucket_locked key hash t c all with "[Ht Hl] Hx"); [lia|by iFrame|]. iIntros "[Ht Hl]". word_steps.
    iApply (wp_hash_table_unlock_bucket with "Ht"); [apply Hmu|]. iIntros "Ht". word_steps. iApply "HΦ"; [iPureIntro; constructor|].
    iExists rest'. by iFrame.
  - apply list_elem_of_split in Ha as (l1 & l2 & ->). rewrite filter_split //. iApply (wp_hash_table_delete with "[Ht Hl]"); [apply Hmu|by iFrame|].
    iIntros "Ht Hx". word_steps. iApply "HΦ"; [iPureIntro; by constructor|]. iExists (x :: rest). rewrite /free_nodes /=. iFrame. iPureIntro.
    rewrite -Hr. rewrite !app_assoc. apply Permutation_middle.
  - apply list_elem_of_split in Ha as (l1 & l2 & ->). rewrite filter_split //.
    iApply (wp_hash_table_lock_bucket with "Ht"); [apply Hmu|]. iIntros "Ht". word_steps.
    iApply (wp_hash_table_delete_already_bucket_locked with "[Ht Hl]"); [by iFrame|]. iIntros "[Ht Hl] Hx". word_steps.
    iApply (wp_hash_table_unlock_bucket with "Ht"); [apply Hmu|]. iIntros "Ht". word_steps. iApply "HΦ"; [iPureIntro; by constructor|].
    iExists (x :: rest). rewrite /free_nodes /=. iFrame. iPureIntro. rewrite -Hr. rewrite !app_assoc. apply Permutation_middle.
  - iApply (wp_find_key key hash fuel t c all with "[Ht Hl]"); [lia|by iFrame|]. iIntros "Ht". word_steps.
    replace (match _ with inl _ => [] | inr x => [x] end) with (take 1 (with_key key kk all)) by (by destruct (with_key key kk all)).
    iApply "HΦ"; [iPureIntro; constructor|]. iExists rest. by iFrame.
  - iApply (wp_all_nodes key hash fuel t c all with "[Ht Hl]"); [lia|done|by iFrame|]. iIntros (l Hl) "Ht". word_steps. iApply "HΦ"; [iPureIntro; by constructor|]. iExists rest. by iFrame.
  - iApply (wp_delete_all key hash fuel t c all with "[Ht Hl]"); [lia|done|by iFrame|]. iIntros "Ht Hall". word_steps. iApply "HΦ"; [iPureIntro; constructor|].
    iExists (rest ++ all). rewrite app_nil_r /free_nodes big_sepL_app. by iFrame.
Qed.

Lemma wp_ht_run {B} ops : forall all (k : list (list Z) -> prog Z B) Φ, ht_allowed_run P all ops ->
  ht_state all -∗ (∀ os all', ⌜ht_steps key all ops os all'⌝ -∗ ht_state all' -∗ wp (k os) Φ) -∗
  wp (ht_run key hash fuel t count ops ≫= k) Φ.
Proof.
  induction ops as [|op ops IH]; intros all k Φ Ha; cbn [ht_run]; iIntros "Hs HΦ".
  - iApply wp_ret_bind. iApply ("HΦ" with "[%] Hs"). constructor.
  - destruct Ha as [Ha Hrun]. word_steps. iApply (wp_ht_do with "Hs"); [done|]. iIntros (o Ho) "Hs". word_steps. iApply (IH with "Hs"); [done|].
    iIntros (os all' Hos) "Hs". word_steps. iApply ("HΦ" with "[%] Hs"). by econstructor.
Qed.
End refinement.

(** ** From the memory *)

(** The memory that a table and its nodes occupy. *)
Definition table_addrs (t n sh : Z) (locked : bool) (bs ms : Z) (P : list Z) : list Z :=
  [buckets t; bucket_mutexes t; global_mutex t; mutex_shift t; bucketcnt t; table_fn t; fn_userdata t; itemcnt t] ++
  ((fun i => bs + 8 * i) <$> seqZ 0 (next_highest_power_of_2 n)) ++
  ((fun i => ms + sizeof_mutex * i) <$> seqZ 0 (Z.of_nat (mutex_count n sh locked))) ++ (pprev <$> P) ++ (next <$> P).

(** Words of a memory can be owned. *)
Lemma owns_words (H : gmap Z Z) (addrs : list Z) : NoDup addrs -> Forall (fun a => is_Some (H !! a)) addrs ->
  exists m, m ⊆ H /\ forall Σ `{!gen_heapGS Z Z Σ}, owns m ⊢ [∗ list] a ∈ addrs, some_word a.
Proof.
  intros Hn Hd. exists (list_to_map ((fun a => (a, H !!! a)) <$> addrs)). assert (NoDup ((fun a => (a, H !!! a)) <$> addrs).*1) as Hn'.
  { rewrite -list_fmap_compose /=. by rewrite list_fmap_id. }
  split.
  - apply map_subseteq_spec. intros a v Ha%elem_of_list_to_map_2. apply list_elem_of_fmap in Ha as (a' & [= -> ->] & Ha).
    rewrite list.Forall_forall in Hd. destruct (Hd a' Ha) as [v Hv]. by rewrite /lookup_total /map_lookup_total Hv.
  - intros Σ HG. rewrite /owns big_sepM_list_to_map // big_sepL_fmap. iIntros "H". iApply (big_sepL_impl with "H"). iIntros "!>" (k a _) "Ha". by iExists _.
Qed.

(** Setting up, a history, emptying the table and freeing it. *)
Definition table_program (key hash : Z -> Z) (fuel : nat) (t n fn ud : Z) (locked : bool) (sh bs : Z) (gok : bool) (ms : Z) (ok : Z -> bool) (ops : list ht_op)
    : prog Z (Z * list (list Z)) :=
  let count := Z.to_nat (next_highest_power_of_2 n) in
  r ← hash_table_init_impl t n fn ud locked sh bs gok ms ok;
  os ← ht_run key hash fuel t count ops;
  _ ← ht_do key hash fuel t count HClear;
  _ ← hash_table_free t;
  mret (r, os).

Lemma run_words {A} (c : prog Z A) (H : gmap Z Z) (addrs : list Z) (Q : A -> Prop) :
  NoDup addrs -> Forall (fun a => is_Some (H !! a)) addrs ->
  (forall Σ `{!gen_heapGS Z Z Σ}, ([∗ list] a ∈ addrs, some_word a) ⊢ wp c (fun a => ⌜Q a⌝)) ->
  exists a H', c H = Ret (a, H') /\ Q a.
Proof.
  intros Hn Hd Hwp. destruct (owns_words H addrs Hn Hd) as (m & Hm & Hown).
  destruct (wp_sound c m (H ∖ m) (fun a m' => Q a)) as (a & m' & H' & E & HQ & _).
  - by apply map_disjoint_difference_r1.
  - intros Σ HG. iIntros "Hm". iApply (wp_wand with "[Hm]"); [iApply Hwp; by iApply Hown|]. iIntros (a) "%Ha". iExists ∅. iSplit; [done|].
    by rewrite /owns big_sepM_empty.
  - rewrite map_difference_union in E; [|done]. by exists a, H'.
Qed.

Lemma split_addrs `{!gen_heapGS Z Z Σ} t n sh locked bs ms P :
  Forall (fun x => x <> 0) P ->
  ([∗ list] a ∈ table_addrs t n sh locked bs ms P, some_word a) ⊢
  table_words t ∗ bucket_block bs (next_highest_power_of_2 n) ∗ mutex_block ms 0 (mutex_count n sh locked) ∗ free_nodes P.
Proof.
  intros H0. rewrite /table_addrs !big_sepL_app (big_sepL_fmap (fun i => bs + 8 * i)) (big_sepL_fmap (fun i => ms + sizeof_mutex * i)) (big_sepL_fmap pprev) (big_sepL_fmap next). iIntros "(Ht & Hb & Hm & Hp & Hn)". iDestruct "Ht" as "($ & $ & $ & $ & $ & $ & $ & $ & _)".
  rewrite /bucket_block /mutex_block /free_nodes. iFrame "Hb Hm". iDestruct (big_sepL_sep_2 with "Hp Hn") as "H". iApply (big_sepL_impl with "H").
  iIntros "!>" (k x Hx) "[Hp Hn]". rewrite list.Forall_forall in H0. iFrame. iPureIntro. apply H0. by eapply list_elem_of_lookup_2.
Qed.

(** C8: a hash table is a finite collection.  Take any memory with room for the
    table, its buckets and mutexes and the client's nodes.  When the C library
    grants what the initialisation asks for, the table works, without mutexes or
    with mutexes that are each for [2 ^ mutex_shift] buckets where that is not more
    than the number of buckets (what was asked for, rounded up to a power of two):
    any history of additions, deletions (with the bucket's mutex taken
    by the call or by the caller), searches and loops over all nodes returns, the
    searches find the node with the key that was added last and not deleted, the
    loops visit every node once, and in the end emptying and freeing the table
    succeed: no lock is taken twice or left locked, the count of items is never
    wrong.  When the library refuses anything, the initialisation returns
    [-ENOMEM]. *)
Theorem hash_table_refines (key hash : Z -> Z) (fuel : nat) (H : gmap Z Z) t n fn ud locked sh bs gok ms ok P ops :
  1 <= n <= 2 ^ 63 -> 0 <= sh ->
  NoDup (table_addrs t n sh locked bs ms P) -> Forall (fun a => is_Some (H !! a)) (table_addrs t n sh locked bs ms P) -> Forall (fun x => x <> 0) P ->
  Z.of_nat (length P) + 1 < 2 ^ 64 -> (length P < fuel)%nat ->
  (bs <> 0 -> (locked = true -> ms <> 0 /\ 2 ^ sh <= next_highest_power_of_2 n /\ gok = true /\ forall i, ok i = true) -> ht_allowed_run P [] ops ->
   exists os all H', table_program key hash fuel t n fn ud locked sh bs gok ms ok ops H = Ret ((0, os), H') /\ ht_steps key [] ops os all) /\
  ((bs = 0 \/ locked = true /\ (gok = false \/ ms = 0 \/ exists i, (i < mutex_count n sh locked)%nat /\ ok (Z.of_nat i) = false)) ->
   exists H', hash_table_init_impl t n fn ud locked sh bs gok ms ok H = Ret (- ENOMEM, H')).
Proof.
  intros Hn Hsh Hnd Hd H0 HPlen Hfuel. assert (NoDup P) as HP.
  { unfold table_addrs in Hnd. rewrite !list.NoDup_app in Hnd. destruct Hnd as (_ & _ & _ & _ & _ & _ & Hnd & _). by apply NoDup_fmap_1 in Hnd. }
  split.
  - intros Hbs Hl Ha. destruct (run_words (table_program key hash fuel t n fn ud locked sh bs gok ms ok ops) H (table_addrs t n sh locked bs ms P)
      (fun r => r.1 = 0 /\ exists all, ht_steps key [] ops r.2 all) Hnd Hd) as ([r os] & H' & E & Hr & all & Hs); [|simpl in *; subst r; by exists os, all, H'].
    intros Σ HG. rewrite split_addrs //. iIntros "(Ht & Hb & Hm & Hf)". rewrite /table_program.
    iApply (wp_hash_table_init_impl key hash with "Ht Hb Hm"); [done|done|done|done|]. iIntros "Ht". set (c := made_conf _ _ _ _ _ _ _).
    destruct (made_conf_ok n fn ud locked sh bs ms Hn Hbs Hsh) as [Hc Ecnt]; [intros El; specialize (Hl El); tauto|]. fold c in Hc, Ecnt.
    assert (tc_count c <= Z.of_nat (Z.to_nat (next_highest_power_of_2 n))) as Hcount by (pose proof (count_pos c Hc); lia).
    iApply (wp_ht_run key hash fuel t _ P c with "[Ht Hf]"); [done..| |]; [iExists P; rewrite app_nil_r; by iFrame|]. iIntros (os all Hs) "Hst".
    iApply (wp_ht_do key hash fuel t _ P c with "Hst"); [done..|]. iIntros (o _) "(%rest & _ & Ht & _)". iApply (wp_hash_table_free with "Ht"). iIntros "_".
    iApply wp_ret. iPureIntro. split; [done|]. by exists all.
  - intros Hfail. destruct (run_words (hash_table_init_impl t n fn ud locked sh bs gok ms ok) H (table_addrs t n sh locked bs ms P) (fun r => r = - ENOMEM) Hnd Hd)
      as (r & H' & E & ->); [|by exists H'].
    intros Σ HG. rewrite split_addrs //. iIntros "(Ht & _ & Hm & _)". by iApply (wp_hash_table_init_impl_fails with "Ht Hm").
Qed.

Definition sample_words : gmap Z Z :=
  list_to_map ((fun a => (a, 7)) <$> table_addrs 1000 2 0 true 2000 3000 [100; 200; 300]).
Lemma hash_table_refines_witness :
  let ops := [HAdd 100; HAddLocked 200; HFind 2; HDelete 100; HFind 1; HAdd 300; HAll; HDeleteLocked 300] in
  (exists os all H', table_program (fun x => x / 100) (fun k => k) 4 1000 2 0 0 true 0 2000 true 3000 (fun _ => true) ops sample_words = Ret ((0, os), H') /\
    ht_steps (fun x => x / 100) [] ops os all) /\
  (exists H', hash_table_init_impl 1000 2 0 0 true 0 2000 true 3000 (fun i => negb (i =? 1)) sample_words = Ret (- ENOMEM, H')).
Proof.
  intros ops.
  assert (NoDup (table_addrs 1000 2 0 true 2000 3000 [100; 200; 300])) as Hn by (apply (bool_decide_unpack _); vm_compute; exact I).
  assert (Forall (fun a => is_Some (sample_words !! a)) (table_addrs 1000 2 0 true 2000 3000 [100; 200; 300])) as Hd
    by (apply (bool_decide_unpack _); vm_compute; exact I).
  assert (Forall (fun x => x <> 0) [100; 200; 300]) as H0 by (apply (bool_decide_unpack _); vm_compute; exact I).
  split.
  - apply (hash_table_refines (fun x => x / 100) (fun k => k) 4 sample_words 1000 2 0 0 true 0 2000 true 3000 (fun _ => true) [100; 200; 300] ops); try lia; try assumption.
    + vm_compute. reflexivity.
    + simpl. lia.
    + intros _. split; [lia|]. split; [vm_compute; discriminate|]. split; [reflexivity|reflexivity].
    + simpl. repeat split; try (apply (bool_decide_unpack _); vm_compute; exact I).
  - apply (hash_table_refines (fun x => x / 100) (fun k => k) 4 sample_words 1000 2 0 0 true 0 2000 true 3000 (fun i => negb (i =? 1)) [100; 200; 300] []); try lia; try assumption.
    + vm_compute. reflexivity.
    + simpl. lia.
    + right. split; [reflexivity|]. right. right. exists 1%nat. split; [vm_compute; lia|reflexivity].
Defined.

(** With four buckets to a mutex and two buckets there is no mutex: the
    initialisation succeeds, and the first addition locks one that was never
    initialised. *)
Example too_few_buckets_for_a_mutex :
  mutex_count 2 2 true = 0%nat /\
  match hash_table_init_impl 1000 2 0 0 true 2 2000 true 3000 (fun _ => true) sample_words with Ret (r, _) => r = 0 | _ => False end /\
  table_program (fun x => x / 100) (fun k => k) 4 1000 2 0 0 true 2 2000 true 3000 (fun _ => true) [HAdd 100] sample_words = Undef.
Proof. split; [|split]; vm_compute; reflexivity. Qed.
