(* ===== verification/TimerWheel.v ===== *)
(** The timer wheel: timerwheel/timerwheel.h and timerwheel/timerwheel.c, on the
    hash lists of [HashTable].  The memory and the mutexes are as there;
    [pthread_mutex_lock] and [pthread_mutex_unlock] succeed, so the [abort()] for
    their failure is not reached. *)
From S2P Require Import Prelude Heap HashTable.

(** Addresses of the fields of [struct timer_wheel_task], whose node comes
    first, and of [struct timer_wheel]. *)
Definition task_time64 (task : Z) : Z := task + 16.
Definition rotation_count (task : Z) : Z := task + 24.
Definition task_idx (task : Z) : Z := task + 28.
Definition timers (wheel : Z) : Z := wheel.
Definition locks (wheel : Z) : Z := wheel + 8.
Definition curidx (wheel : Z) : Z := wheel + 16.
Definition wheel_size (wheel : Z) : Z := wheel + 20.
Definition granularity (wheel : Z) : Z := wheel + 24.
Definition next_time64 (wheel : Z) : Z := wheel + 32.

(** The loop that initialises [n] locks from [i] on; [ok] says where
    [pthread_mutex_init] succeeds. *)
Fixpoint init_locks (ok : Z -> bool) (n : nat) (i : nat) (wheel ls : Z) : prog Z (option Z) :=
  match n with
  | O => mret None
  | S n =>
      if ok (Z.of_nat i) then
        _ ← mutex_init (ls + sizeof_mutex * Z.of_nat i); init_locks ok n (S i) wheel ls
      else
        _ ← destroy_down i ls;
        _ ← store (timers wheel) 0;
        _ ← store (locks wheel) 0;
        mret (Some (- ENOMEM))
  end.

(** [ts] and [ls] are the blocks that [malloc] returns for the lists and the
    locks, 0 for [NULL]. *)
Definition timer_wheel_init (wheel gran size next : Z) (locked : bool) (ts ls : Z) (ok : Z -> bool) : prog Z Z :=
  _ ← store (timers wheel) ts;
  t ← load (timers wheel);
  if t =? 0 then mret (- ENOMEM) else
  _ ← for_n (Z.to_nat size) 0 (fun i => hash_list_head_init (t + 8 * i));
  _ ← store (locks wheel) 0;
  r ← (if locked then
         _ ← store (locks wheel) ls;
         l ← load (locks wheel);
         if l =? 0 then _ ← store (timers wheel) 0; mret (Some (- ENOMEM))
         else init_locks ok (Z.to_nat size) 0 wheel l
       else mret None);
  match r with
  | Some r => mret r
  | None =>
      _ ← store (curidx wheel) 0;
      _ ← store (wheel_size wheel) size;
      _ ← store (granularity wheel) gran;
      _ ← store (next_time64 wheel) next;
      mret 0
  end.

(** [if (wheel->locks) { lock or unlock &wheel->locks[idx] }] *)
Definition wheel_lock (wheel idx : Z) : prog Z unit :=
  l ← load (locks wheel); if negb (l =? 0) then mutex_lock (l + sizeof_mutex * idx) else mret tt.
Definition wheel_unlock (wheel idx : Z) : prog Z unit :=
  l ← load (locks wheel); if negb (l =? 0) then mutex_unlock (l + sizeof_mutex * idx) else mret tt.

(** [int64_t] arithmetic that leaves its range is undefined, as is a division by
    zero; the division rounds toward zero. *)
Definition in_int64 (x : Z) : bool := (-9223372036854775808 <=? x) && (x <=? 9223372036854775807).
Definition s64 (x : Z) : Z := if x <? 9223372036854775808 then x else x - 18446744073709551616.

Definition timer_wheel_add (wheel timer : Z) : prog Z unit :=
  t ← load (task_time64 timer);
  nt ← load (next_time64 wheel);
  g ← load (granularity wheel);
  if negb (in_int64 (s64 t - s64 nt)) || (g =? 0) then undef else
  let diff := Z.quot (s64 t - s64 nt) g in
  let diff := if diff <? 0 then 0 else diff in
  cur ← load (curidx wheel);
  size ← load (wheel_size wheel);
  if negb (in_int64 (cur + diff)) || (size =? 0) then undef else
  let idx := u32 (Z.rem (cur + diff) size) in
  _ ← store (task_idx timer) idx;
  _ ← store (rotation_count timer) (u32 (Z.quot diff size));
  _ ← wheel_lock wheel idx;
  ts ← load (timers wheel);
  _ ← hash_list_add_head timer (ts + 8 * idx);
  wheel_unlock wheel idx.

Definition timer_wheel_next_expiry_time (wheel : Z) : prog Z Z := load (next_time64 wheel).

Section process.
Context {S : Type}.
(** The function of a timer; [S] is what it keeps in its userdata and in the
    thread's data. *)
Variable (fn : Z -> S -> prog Z S).

Definition expire_step (task : Z) (s : S) : prog Z (S + Empty_set) :=
  rc ← load (rotation_count task);
  if rc >? 0 then _ ← store (rotation_count task) (rc - 1); mret (inl s)
  else _ ← hash_list_delete task; s ← fn task s; mret (inl s).

Definition process_step (fuel : nat) (wheel curtime64 : Z) (s : S) : prog Z (S + S) :=
  nt ← load (next_time64 wheel);
  if negb (curtime64 >=? nt) then mret (inr s) else
  cur ← load (curidx wheel);
  _ ← wheel_lock wheel cur;
  ts ← load (timers wheel);
  cur ← load (curidx wheel);
  r ← hash_list_for_each_safe expire_step fuel (ts + 8 * cur) s;
  cur ← load (curidx wheel);
  _ ← wheel_unlock wheel cur;
  nt ← load (next_time64 wheel);
  g ← load (granularity wheel);
  _ ← store (next_time64 wheel) (u64 (nt + g));
  cur ← load (curidx wheel);
  _ ← store (curidx wheel) (u32 (cur + 1));
  cur ← load (curidx wheel);
  size ← load (wheel_size wheel);
  _ ← (if cur >=? size then store (curidx wheel) 0 else mret tt);
  match r with inl s => mret (inl s) | inr e => match (e : Empty_set) with end end.
(** [fuel] bounds the tasks in a slot, [n] the passes of the outer loop. *)
Definition timer_wheel_process (n fuel : nat) (wheel curtime64 : Z) (s : S) : prog Z S :=
  loop n (process_step fuel wheel curtime64) s.
End process.

Definition timer_wheel_remove (wheel timer : Z) : prog Z unit :=
  idx ← load (task_idx timer);
  _ ← wheel_lock wheel idx;
  _ ← hash_list_delete timer;
  wheel_unlock wheel idx.
Definition timer_wheel_modify (wheel timer : Z) : prog Z unit :=
  _ ← timer_wheel_remove wheel timer;
  timer_wheel_add wheel timer.
