(* ===== verification/TimerWheelSpec.v ===== *)
(** The timer wheel as a collection of timers with the tick at which each of them
    expires. *)
From iris.proofmode Require Import coq_tactics reduction proofmode.
From iris.base_logic.lib Require Import gen_heap.
From S2P Require Import Prelude Heap HashTable HashTableSpec HashTableHistory TimerWheel.

(** ** Arithmetic of the wheel *)

Section arith.
Variables (size cur : Z).
Hypothesis (Hcur : 0 <= cur < size).

Lemma tick_slot d : ((cur + 1) mod size + (d - 1)) mod size = (cur + d) mod size.
Proof. rewrite Z.add_mod_idemp_l; [|lia]. f_equal. lia. Qed.
Lemma slot_cur d : (cur + d) mod size = cur <-> d mod size = 0.
Proof.
  split; intros E.
  - rewrite Z.mod_eq in E; [|lia]. apply Z.mod_divide; [lia|]. exists ((cur + d) / size). lia.
  - rewrite -Z.add_mod_idemp_r; [|lia]. rewrite E Z.add_0_r. by apply Z.mod_small.
Qed.
Lemma rotation_full d : d mod size = 0 -> 0 < d -> (d - 1) / size = d / size - 1 /\ 0 < d / size.
Proof.
  intros E Hd. pose proof (Z.div_mod d size ltac:(lia)) as Ed. rewrite E in Ed.
  assert (0 < d / size) by (destruct (Z.lt_ge_cases 0 (d / size)); [done|]; nia). split; [|done]. symmetry. apply (Z.div_unique _ _ _ (size - 1)); lia.
Qed.
Lemma rotation_part d : d mod size <> 0 -> (d - 1) / size = d / size.
Proof.
  intros E. pose proof (Z.div_mod d size ltac:(lia)) as Ed. pose proof (Z.mod_pos_bound d size ltac:(lia)).
  symmetry. apply (Z.div_unique _ _ _ (d mod size - 1)); lia.
Qed.
Lemma next_cur : (if cur + 1 >=? size then 0 else cur + 1) = (cur + 1) mod size.
Proof.
  destruct (Z.geb_spec (cur + 1) size).
  - replace (cur + 1) with (0 + 1 * size) by lia. by rewrite Z.mod_add; [|lia].
  - by rewrite Z.mod_small; [|lia].
Qed.
End arith.

(** ** The wheel in memory *)

Record wheel_conf := WheelConf { wc_timers : Z; wc_locks : Z; wc_size : Z; wc_gran : Z }.
Definition wheel_conf_ok (c : wheel_conf) : Prop := wc_timers c <> 0 /\ 0 < wc_size c < 2 ^ 32 /\ 0 < wc_gran c < 2 ^ 32.

(** A timer in the wheel with the tick at which it expires. *)
Abbreviation entry := (Z * Z)%type (only parsing).
(** The ticks that are left. *)
Definition left_ticks c (nt : Z) (p : entry) : Z := (p.2 - nt) / wc_gran c.
Definition slot_at c (cur nt : Z) (p : entry) : Z := (cur + left_ticks c nt p) mod wc_size c.
Definition entry_ok c (nt : Z) (p : entry) : Prop :=
  exists d, 0 <= d /\ p.2 = nt + d * wc_gran c /\ d / wc_size c < 2 ^ 32.

Section wheel.
Context `{!gen_heapGS Z Z Σ}.
Implicit Types (c : wheel_conf) (w x nt cur : Z) (all : list entry) (p : entry).

Definition slot_list c cur nt all (i : Z) : list entry := filter (fun p => slot_at c cur nt p = i) all.
Definition wlocks c (held : option Z) : iProp Σ :=
  if wc_locks c =? 0 then emp%I
  else ([∗ list] i ∈ seqZ 0 (wc_size c), word (wc_locks c + sizeof_mutex * i) (if bool_decide (held = Some i) then 1 else 0))%I.
Definition wheel_rest w c cur nt held : iProp Σ :=
  ⌜wheel_conf_ok c /\ 0 <= cur < wc_size c⌝ ∗
  word (timers w) (wc_timers c) ∗ word (locks w) (wc_locks c) ∗ word (curidx w) cur ∗ word (wheel_size w) (wc_size c) ∗
  word (granularity w) (wc_gran c) ∗ word (next_time64 w) nt ∗ wlocks c held.
(** The fields of a task in the wheel, and of one that is the client's; the
    client keeps [time64], which the wheel only reads. *)
Definition task_in c cur nt p : iProp Σ :=
  word (task_idx p.1) (slot_at c cur nt p) ∗ word (rotation_count p.1) (left_ticks c nt p / wc_size c).
Definition task_fields x : iProp Σ := some_word (task_idx x) ∗ some_word (rotation_count x).
Definition task_free x : iProp Σ := free_node x ∗ task_fields x.

Definition wheel_lists c cur nt all : iProp Σ := heads (wc_timers c) (wc_size c) (fun i => (slot_list c cur nt all i).*1).
Definition is_wheel w c cur nt all : iProp Σ :=
  ⌜Forall (entry_ok c nt) all⌝ ∗ wheel_rest w c cur nt None ∗ wheel_lists c cur nt all ∗ [∗ list] p ∈ all, task_in c cur nt p.

Lemma slot_at_range c cur nt p : wheel_conf_ok c -> 0 <= slot_at c cur nt p < wc_size c.
Proof. intros (_ & Hs & _). apply Z.mod_pos_bound. lia. Qed.
Lemma left_ticks_is c nt p d : wheel_conf_ok c -> p.2 = nt + d * wc_gran c -> left_ticks c nt p = d.
Proof. intros (_ & _ & Hg) E. rewrite /left_ticks E. replace (nt + d * wc_gran c - nt) with (d * wc_gran c) by lia. apply Z.div_mul. lia. Qed.

(** ** Locks *)

Lemma wlocks_acc c i : 0 <= i < wc_size c -> wc_locks c <> 0 ->
  (wlocks c None ⊢ word (wc_locks c + sizeof_mutex * i) 0 ∗ (word (wc_locks c + sizeof_mutex * i) 1 -∗ wlocks c (Some i))) /\
  (wlocks c (Some i) ⊢ word (wc_locks c + sizeof_mutex * i) 1 ∗ (word (wc_locks c + sizeof_mutex * i) 0 -∗ wlocks c None)).
Proof.
  intros Hi Hl. rewrite /wlocks (proj2 (Z.eqb_neq _ _) Hl) (seqZ_at _ i Hi) !big_sepL_app !big_sepL_cons. rewrite (bool_decide_true (Some i = Some i)) // (bool_decide_false (None = Some i)) //.
  assert (forall a n, (i < a \/ a + n <= i) -> ([∗ list] j ∈ seqZ a n, word (wc_locks c + sizeof_mutex * j) (if bool_decide (Some i = Some j) then 1 else 0)) ⊣⊢
    ([∗ list] j ∈ seqZ a n, word (wc_locks c + sizeof_mutex * j) (if bool_decide ((None : option Z) = Some j) then 1 else 0))) as Hsame.
  { intros a n Ha. apply big_sepL_proper. intros k j Hj%lookup_seqZ. rewrite !bool_decide_false //. intros [= ->]. lia. }
  rewrite !Hsame; [|lia..]. split; iIntros "($ & $ & $) $".
Qed.
Lemma wp_wheel_lock {B} w c cur nt i (k : unit -> prog Z B) Φ : 0 <= i < wc_size c ->
  wheel_rest w c cur nt None -∗ (wheel_rest w c cur nt (Some i) -∗ wp (k tt) Φ) -∗ wp (wheel_lock w i ≫= k) Φ.
Proof.
  iIntros (Hi) "(%Hc & Ht & Hl & Hcur & Hs & Hg & Hn & Hlk) HΦ". rewrite /wheel_lock. word_steps. destruct (Z.eqb_spec (wc_locks c) 0) as [E|E]; simpl.
  - word_steps. iApply "HΦ". iFrame. iSplit; [done|]. by rewrite /wlocks E.
  - iDestruct (proj1 (wlocks_acc c i Hi E) with "Hlk") as "[Hw Hlk]". rewrite /mutex_lock. word_steps. simpl. word_steps. iApply "HΦ". iFrame. iSplit; [done|]. by iApply "Hlk".
Qed.
Lemma wp_wheel_unlock {B} w c cur nt i (k : unit -> prog Z B) Φ : 0 <= i < wc_size c ->
  wheel_rest w c cur nt (Some i) -∗ (wheel_rest w c cur nt None -∗ wp (k tt) Φ) -∗ wp (wheel_unlock w i ≫= k) Φ.
Proof.
  iIntros (Hi) "(%Hc & Ht & Hl & Hcur & Hs & Hg & Hn & Hlk) HΦ". rewrite /wheel_unlock. word_steps. destruct (Z.eqb_spec (wc_locks c) 0) as [E|E]; simpl.
  - word_steps. iApply "HΦ". iFrame. iSplit; [done|]. by rewrite /wlocks E.
  - iDestruct (proj2 (wlocks_acc c i Hi E) with "Hlk") as "[Hw Hlk]". rewrite /mutex_unlock. word_steps. simpl. word_steps. iApply "HΦ". iFrame. iSplit; [done|]. by iApply "Hlk".
Qed.

(** ** Adding and removing *)

(** The tick at which a timer for time [t] expires, if the next tick is at
    [nt]. *)
Definition due_tick c (nt t : Z) : Z := nt + (if t <? nt then 0 else (t - nt) / wc_gran c) * wc_gran c.
Definition time_ok c (nt t : Z) : Prop := 0 <= t < 2 ^ 62 /\ 0 <= nt < 2 ^ 62 /\ (t - nt) / wc_gran c / wc_size c < 2 ^ 32.

Lemma due_tick_ok c nt t : wheel_conf_ok c -> time_ok c nt t ->
  entry_ok c nt (0, due_tick c nt t) /\ (nt <= t -> t - wc_gran c < due_tick c nt t <= t) /\ (t < nt -> due_tick c nt t = nt).
Proof.
  intros Hc (Ht & Hn & Hr). destruct Hc as (_ & Hs & Hg). rewrite /due_tick /entry_ok /=. destruct (Z.ltb_spec t nt).
  - split; [|split; lia]. exists 0. rewrite Z.div_0_l; lia.
  - split; [|split; [|lia]].
    + exists ((t - nt) / wc_gran c). split; [apply Z.div_pos; lia|]. split; [done|lia].
    + intros _. pose proof (Z.div_mod (t - nt) (wc_gran c) ltac:(lia)). pose proof (Z.mod_pos_bound (t - nt) (wc_gran c) ltac:(lia)). lia.
Qed.

Lemma slot_list_here c cur nt all p : slot_list c cur nt (p :: all) (slot_at c cur nt p) = p :: slot_list c cur nt all (slot_at c cur nt p).
Proof. by rewrite /slot_list filter_cons_True. Qed.
Lemma slot_list_elsewhere c cur nt all p j : j <> slot_at c cur nt p -> slot_list c cur nt (p :: all) j = slot_list c cur nt all j.
Proof. intros Hj. rewrite /slot_list filter_cons_False; [done|congruence]. Qed.
Lemma slot_list_app c cur nt l1 l2 j : slot_list c cur nt (l1 ++ l2) j = slot_list c cur nt l1 j ++ slot_list c cur nt l2 j.
Proof. apply list.filter_app. Qed.

Lemma wp_timer_wheel_add {B} w c cur nt all x t (k : unit -> prog Z B) Φ : time_ok c nt t ->
  is_wheel w c cur nt all -∗ task_free x -∗ word (task_time64 x) t -∗
  (is_wheel w c cur nt ((x, due_tick c nt t) :: all) -∗ word (task_time64 x) t -∗ wp (k tt) Φ) -∗
  wp (timer_wheel_add w x ≫= k) Φ.
Proof.
  iIntros (Ht) "(%Hall & Hr & Hl & Hin) (Hx & (%v1 & Hi) & (%v2 & Hrot)) Ht HΦ". iDestruct "Hr" as "(%Hc & Htm & Hlk & Hcur & Hs & Hg & Hn & Hls)". destruct Hc as [Hc Hcu].
  destruct (due_tick_ok c nt t Hc Ht) as (Hok & _). pose proof Hc as (_ & Hsz & Hgr). pose proof Ht as (Ht0 & Hn0 & Hrot).
  rewrite /timer_wheel_add. word_steps. assert (s64 t = t) as -> by (rewrite /s64; destruct (Z.ltb_spec t 9223372036854775808); lia).
  assert (s64 nt = nt) as -> by (rewrite /s64; destruct (Z.ltb_spec nt 9223372036854775808); lia).
  assert (in_int64 (t - nt) = true) as -> by (rewrite /in_int64; lia). destruct (Z.eqb_spec (wc_gran c) 0); [lia|]. simpl orb. cbv iota.
  set (d := if t <? nt then 0 else (t - nt) / wc_gran c).
  assert ((if Z.quot (t - nt) (wc_gran c) <? 0 then 0 else Z.quot (t - nt) (wc_gran c)) = d) as ->.
  { rewrite /d. destruct (Z.ltb_spec t nt).
    - pose proof (Z.quot_opp_l (nt - t) (wc_gran c) ltac:(lia)) as E. replace (- (nt - t)) with (t - nt) in E by lia. rewrite E.
      pose proof (Z.quot_pos (nt - t) (wc_gran c) ltac:(lia) ltac:(lia)). destruct (Z.ltb_spec (- Z.quot (nt - t) (wc_gran c)) 0); lia.
    - rewrite Z.quot_div_nonneg; [|lia..]. pose proof (Z.div_pos (t - nt) (wc_gran c) ltac:(lia) ltac:(lia)). destruct (Z.ltb_spec ((t - nt) / wc_gran c) 0); lia. }
  assert (0 <= d < 2 ^ 62 /\ d / wc_size c < 2 ^ 32) as [Hd Hdr].
  { rewrite /d. destruct (Z.ltb_spec t nt); [rewrite Z.div_0_l; lia|]. split; [|done]. split; [apply Z.div_pos; lia|]. apply Z.div_lt_upper_bound; [lia|]. nia. }
  word_steps. assert (in_int64 (cur + d) = true) as -> by (rewrite /in_int64; lia). destruct (Z.eqb_spec (wc_size c) 0); [lia|]. simpl orb. cbv iota.
  rewrite Z.rem_mod_nonneg; [|lia..]. rewrite Z.quot_div_nonneg; [|lia..]. pose proof (Z.mod_pos_bound (cur + d) (wc_size c) ltac:(lia)) as Hm.
  pose proof (Z.div_pos d (wc_size c) ltac:(lia) ltac:(lia)). rewrite !u32_small; [|lia..]. word_steps.
  set (p := (x, due_tick c nt t)). assert (left_ticks c nt p = d) as Ed by (by apply left_ticks_is).
  assert (slot_at c cur nt p = (cur + d) mod wc_size c) as Es by (by rewrite /slot_at Ed). rewrite -Es in Hm |- *.
  iApply (wp_wheel_lock with "[Htm Hlk Hcur Hs Hg Hn Hls]"); [done|by iFrame|]. iIntros "(_ & Htm & Hlk & Hcur & Hs & Hg & Hn & Hls)". word_steps.
  iDestruct (heads_acc _ _ _ (slot_at c cur nt p) with "Hl") as "[Hi' Hl]"; [done|].
  iApply (wp_hash_list_add_head with "Hi' Hx"). iIntros "Hi'". iApply (wp_wheel_unlock with "[Htm Hlk Hcur Hs Hg Hn Hls]"); [done|by iFrame|]. iIntros "Hr".
  iApply ("HΦ" with "[-Ht] Ht"). iFrame "Hr Hin". iSplit; [iPureIntro; constructor; [exact Hok|done]|]. iSplitL "Hl Hi'".
  - iApply ("Hl" with "[%]"); [intros j _ Hj; by rewrite slot_list_elsewhere|]. by rewrite slot_list_here.
  - rewrite /task_in Ed. iFrame.
Qed.

Lemma wp_timer_wheel_remove {B} w c cur nt l1 p l2 (k : unit -> prog Z B) Φ :
  is_wheel w c cur nt (l1 ++ p :: l2) -∗
  (is_wheel w c cur nt (l1 ++ l2) -∗ task_free p.1 -∗ wp (k tt) Φ) -∗
  wp (timer_wheel_remove w p.1 ≫= k) Φ.
Proof.
  iIntros "(%Hall & Hr & Hl & Hin) HΦ". iDestruct "Hr" as "(%Hc & Hr)". destruct Hc as [Hc Hcu]. iAssert (wheel_rest w c cur nt None) with "[Hr]" as "Hr"; [by iFrame|].
  rewrite big_sepL_app big_sepL_cons. iDestruct "Hin" as "(H1 & (Hidx & Hrot) & H2)". pose proof (slot_at_range c cur nt p Hc) as Hm.
  rewrite /timer_wheel_remove. word_steps. iApply (wp_wheel_lock with "Hr"); [done|]. iIntros "Hr". word_steps.
  iDestruct (heads_acc _ _ _ (slot_at c cur nt p) with "Hl") as "[Hi Hl]"; [done|]. rewrite slot_list_app slot_list_here fmap_app fmap_cons.
  iApply (wp_hash_list_delete with "Hi"). iIntros "Hi Hx". iApply (wp_wheel_unlock with "Hr"); [done|]. iIntros "Hr".
  apply list.Forall_app in Hall as [Ha1 Ha2]. apply list.Forall_cons in Ha2 as [_ Ha2].
  iApply ("HΦ" with "[-Hx Hidx Hrot]"); [|iFrame].
  iFrame "Hr". rewrite big_sepL_app. iFrame. iSplit; [iPureIntro; by apply list.Forall_app|].
  iApply ("Hl" with "[%]"); [intros j _ Hj; by rewrite !slot_list_app slot_list_elsewhere|]. by rewrite slot_list_app fmap_app.
Qed.

(** ** One tick *)

Definition expired (nt : Z) all : list entry := filter (fun p => p.2 = nt) all.
Definition pending (nt : Z) all : list entry := filter (fun p => p.2 <> nt) all.

Lemma entry_expired c cur nt p : wheel_conf_ok c -> 0 <= cur < wc_size c -> p.2 = nt -> slot_at c cur nt p = cur /\ left_ticks c nt p = 0.
Proof.
  intros Hc Hcur E. assert (left_ticks c nt p = 0) as El by (apply left_ticks_is; [done|lia]). rewrite /slot_at El Z.add_0_r.
  split; [by apply Z.mod_small|done].
Qed.
Lemma entry_pending c cur nt p : wheel_conf_ok c -> 0 <= cur < wc_size c -> entry_ok c nt p -> p.2 <> nt ->
  entry_ok c (nt + wc_gran c) p /\ slot_at c ((cur + 1) mod wc_size c) (nt + wc_gran c) p = slot_at c cur nt p /\
  (slot_at c cur nt p = cur -> 0 < left_ticks c nt p / wc_size c /\
     left_ticks c (nt + wc_gran c) p / wc_size c = left_ticks c nt p / wc_size c - 1) /\
  (slot_at c cur nt p <> cur -> left_ticks c (nt + wc_gran c) p / wc_size c = left_ticks c nt p / wc_size c).
Proof.
  intros Hc Hcur (d & Hd & E & Hr) Hne. assert (0 < d) by (destruct (decide (d = 0)); [subst; lia|lia]).
  assert (p.2 = (nt + wc_gran c) + (d - 1) * wc_gran c) as E' by lia.
  rewrite /slot_at (left_ticks_is c nt p d Hc E) (left_ticks_is c _ p (d - 1) Hc E'). split; [|split; [by apply tick_slot|split]].
  - exists (d - 1). split; [lia|]. split; [done|]. assert ((d - 1) / wc_size c <= d / wc_size c) by (apply Z.div_le_mono; lia). lia.
  - intros Hs%slot_cur; [|done]. destruct (rotation_full (wc_size c) cur Hcur d Hs); [done|lia].
  - intros Hs. apply (rotation_part (wc_size c) cur Hcur). intros Hm. apply Hs. by apply slot_cur.
Qed.

Section tick.
Context (c : wheel_conf) (cur nt : Z) (Hc : wheel_conf_ok c) (Hcur : 0 <= cur < wc_size c).
Let cur' : Z := (cur + 1) mod wc_size c.
Let nt' : Z := nt + wc_gran c.

Lemma pending_ok all : Forall (entry_ok c nt) all -> Forall (entry_ok c nt') (pending nt all).
Proof.
  rewrite !list.Forall_forall. intros Hall p [Hp Hin]%list_elem_of_filter. by apply (entry_pending c cur nt p Hc Hcur); [apply Hall|].
Qed.
Lemma slot_list_tick all j : Forall (entry_ok c nt) all -> slot_list c cur' nt' (pending nt all) j = pending nt (slot_list c cur nt all j).
Proof.
  induction 1 as [|p all Hp Hall IH]; [done|]. rewrite /pending /slot_list !filter_cons in IH |- *. destruct (decide (p.2 <> nt)) as [Hne|He].
  - destruct (entry_pending c cur nt p Hc Hcur Hp Hne) as (_ & Es & _). rewrite filter_cons. fold cur' nt' in Es. rewrite Es.
    destruct (decide (slot_at c cur nt p = j)); [|done]. rewrite filter_cons decide_True //. by f_equal.
  - destruct (decide (slot_at c cur nt p = j)); [|done]. rewrite filter_cons decide_False //.
Qed.
Lemma slot_list_other all j : j <> cur -> pending nt (slot_list c cur nt all j) = slot_list c cur nt all j.
Proof.
  intros Hj. induction all as [|p all IH]; [done|]. rewrite /pending /slot_list !filter_cons in IH |- *. destruct (decide (slot_at c cur nt p = j)) as [E|]; [|done].
  rewrite filter_cons decide_True; [by f_equal|]. intros E'. destruct (entry_expired c cur nt p Hc Hcur E'). congruence.
Qed.
Lemma expired_slot all : expired nt (slot_list c cur nt all cur) = expired nt all.
Proof.
  induction all as [|p all IH]; [done|]. rewrite /expired /slot_list !filter_cons in IH |- *. destruct (decide (p.2 = nt)) as [E|E].
  - rewrite decide_True; [|by apply entry_expired]. rewrite filter_cons decide_True //. by f_equal.
  - destruct (decide (slot_at c cur nt p = cur)); [rewrite filter_cons decide_False //|done].
Qed.

(** The fields of the tasks in other slots are right for the next tick. *)
Lemma other_tasks_tick all : Forall (entry_ok c nt) all ->
  ([∗ list] p ∈ filter (fun p => slot_at c cur nt p <> cur) all, task_in c cur nt p) ⊢
  [∗ list] p ∈ filter (fun p => slot_at c cur nt p <> cur) all, task_in c cur' nt' p.
Proof.
  intros Hall. apply big_sepL_mono. intros k p [Hs Hin]%list_elem_of_lookup_2%list_elem_of_filter. rewrite list.Forall_forall in Hall.
  destruct (decide (p.2 = nt)) as [E|E]; [by destruct (entry_expired c cur nt p Hc Hcur E)|].
  destruct (entry_pending c cur nt p Hc Hcur (Hall p Hin) E) as (_ & Es & _ & Hr). fold cur' nt' in Es, Hr. by rewrite /task_in Es Hr.
Qed.
Lemma pending_split all : Forall (entry_ok c nt) all ->
  pending nt (slot_list c cur nt all cur) ++ filter (fun p => slot_at c cur nt p <> cur) all ≡ₚ pending nt all.
Proof.
  induction 1 as [|p all Hp Hall IH]; [done|]. rewrite /pending /slot_list !filter_cons in IH |- *. destruct (decide (slot_at c cur nt p = cur)) as [E|E].
  - rewrite (decide_False (P := slot_at c cur nt p <> cur)); [|by intros []]. rewrite filter_cons. destruct (decide (p.2 <> nt)); [|done]. simpl. by f_equiv.
  - rewrite (decide_True (P := slot_at c cur nt p <> cur)) // (decide_True (P := p.2 <> nt)); [|intros E'; by destruct (entry_expired c cur nt p Hc Hcur E')].
    rewrite -Permutation_middle. by f_equiv.
Qed.
End tick.

(** ** Processing *)

(** Timers whose function puts the task on a list of the client. *)
Definition collect (task : Z) (s : list Z) : prog Z (list Z) := mret (s ++ [task]).

Lemma snoc_expired nt qs p : p.2 = nt -> pending nt (qs ++ [p]) = pending nt qs /\ expired nt (qs ++ [p]) = expired nt qs ++ [p].
Proof.
  intros E. rewrite /pending /expired !list.filter_app !filter_cons (decide_False (P := p.2 <> nt)); [|by intros []]. rewrite decide_True //. split; [apply app_nil_r|done].
Qed.
Lemma snoc_pending nt qs p : p.2 <> nt -> pending nt (qs ++ [p]) = pending nt qs ++ [p] /\ expired nt (qs ++ [p]) = expired nt qs.
Proof.
  intros E. rewrite /pending /expired !list.filter_app !filter_cons (decide_True (P := p.2 <> nt)) // decide_False //. split; [done|apply app_nil_r].
Qed.

Lemma wp_expire_slot {B} w c cur nt all fuel s (k : list Z + Empty_set -> prog Z B) Φ :
  wheel_conf_ok c -> 0 <= cur < wc_size c -> Forall (entry_ok c nt) all -> (length all < fuel)%nat ->
  let ps := slot_list c cur nt all cur in
  hlist (wc_timers c + 8 * cur) ps.*1 -∗ ([∗ list] p ∈ ps, task_in c cur nt p) -∗
  (hlist (wc_timers c + 8 * cur) (pending nt ps).*1 -∗ ([∗ list] p ∈ pending nt ps, task_in c ((cur + 1) mod wc_size c) (nt + wc_gran c) p) -∗
   ([∗ list] p ∈ expired nt ps, task_free p.1) -∗ wp (k (inl (s ++ (expired nt ps).*1))) Φ) -∗
  wp (hash_list_for_each_safe (expire_step collect) fuel (wc_timers c + 8 * cur) s ≫= k) Φ.
Proof.
  intros Hc Hcur Hall Hf ps. iIntros "Hl Hin HΦ".
  assert (Forall (fun p => entry_ok c nt p /\ slot_at c cur nt p = cur) ps) as Hps.
  { apply list.Forall_forall. intros p [Hs Hin]%list_elem_of_filter. rewrite list.Forall_forall in Hall. by split; [apply Hall|]. }
  iApply (wp_hash_list_for_each_safe _ _ _ _ _ (fun ys zs s' => ∃ qs rs, ⌜ps = qs ++ rs /\ zs = rs.*1 /\ ys = (pending nt qs).*1 /\ s' = s ++ (expired nt qs).*1⌝ ∗
      ([∗ list] p ∈ rs, task_in c cur nt p) ∗ ([∗ list] p ∈ pending nt qs, task_in c ((cur + 1) mod wc_size c) (nt + wc_gran c) p) ∗
      ([∗ list] p ∈ expired nt qs, task_free p.1))%I (fun _ => False)%I with "Hl [Hin]").
  - rewrite length_fmap. pose proof (length_filter (fun p => slot_at c cur nt p = cur) all) as Hle. rewrite /ps /slot_list. lia.
  - intros ys x zs s'. iIntros "[Hl (%qs & %rs & %Hpure & Hin & Hpen & Hexp)]". destruct Hpure as (Eps & Ers & -> & ->).
    destruct rs as [|p rs]; [done|]. rewrite fmap_cons in Ers. injection Ers as -> ->. rewrite big_sepL_cons. iDestruct "Hin" as "[(Hi & Hr) Hin]".
    rewrite Eps in Hps. apply list.Forall_app in Hps as [_ Hps]. apply list.Forall_cons in Hps as [[Hok Hslot] _].
    rewrite /expire_step. word_steps. destruct (decide (p.2 = nt)) as [E|E].
    + destruct (entry_expired c cur nt p Hc Hcur E) as [_ El]. rewrite El Z.div_0_l; [|destruct Hc; lia]. simpl. iApply (wp_hash_list_delete with "Hl"). iIntros "Hl Hx".
      rewrite /collect. word_steps. iApply wp_ret. iExists (pending nt qs).*1. iFrame "Hl". iExists (qs ++ [p]), rs.
      destruct (snoc_expired nt qs p E) as [-> ->]. rewrite fmap_app big_sepL_app /=. iFrame. iPureIntro. rewrite -!app_assoc. done.
    + destruct (entry_pending c cur nt p Hc Hcur Hok E) as (_ & Es & Hrot & _). destruct (Hrot Hslot) as [Hpos Er].
      destruct (Z.gtb_spec (left_ticks c nt p / wc_size c) 0); [|lia]. word_steps. iApply wp_ret. iExists (pending nt qs ++ [p]).*1.
      rewrite fmap_app /= -app_assoc /=. iFrame "Hl". iExists (qs ++ [p]), rs.
      destruct (snoc_pending nt qs p E) as [-> ->]. rewrite big_sepL_app /= /task_in Es Er. iFrame. iPureIntro. rewrite fmap_app -!app_assoc. done.
  - iExists [], ps. rewrite /expired /pending /=. iFrame. iPureIntro. rewrite app_nil_r. done.
  - iIntros ([s'|[]]) "(%ys & Hl & %qs & %rs & %Hpure & Hin & Hpen & Hexp)". destruct Hpure as (Eps & Ers & -> & ->). destruct rs; [|done]. rewrite app_nil_r in Eps.
    rewrite Eps. iApply ("HΦ" with "Hl Hpen Hexp").
Qed.

Lemma tasks_split c cur nt all (F : entry -> iProp Σ) :
  ([∗ list] p ∈ all, F p) ⊢ ([∗ list] p ∈ slot_list c cur nt all cur, F p) ∗ [∗ list] p ∈ filter (fun p => slot_at c cur nt p <> cur) all, F p.
Proof. rewrite -big_sepL_app. by rewrite /slot_list (filter_app_complement (fun p => slot_at c cur nt p = cur) all). Qed.

Lemma wp_process_step {B} w c cur nt all fuel now s (k : list Z + list Z -> prog Z B) Φ :
  nt <= now -> 0 <= nt -> nt + wc_gran c < 2 ^ 64 -> (length all < fuel)%nat ->
  is_wheel w c cur nt all -∗
  (is_wheel w c ((cur + 1) mod wc_size c) (nt + wc_gran c) (pending nt all) -∗ ([∗ list] p ∈ expired nt all, task_free p.1) -∗
   wp (k (inl (s ++ (expired nt all).*1))) Φ) -∗
  wp (process_step collect fuel w now s ≫= k) Φ.
Proof.
  iIntros (Hnow Hnt Hb Hf) "(%Hall & Hr & Hl & Hin) HΦ". iDestruct "Hr" as "(%Hc & Htm & Hlk & Hcur & Hs & Hg & Hn & Hls)". destruct Hc as [Hc Hcu].
  rewrite /process_step. word_steps. destruct (Z.geb_spec now nt); [|lia]. simpl. word_steps.
  iApply (wp_wheel_lock with "[Htm Hlk Hcur Hs Hg Hn Hls]"); [exact Hcu|by iFrame|]. iIntros "(_ & Htm & Hlk & Hcur & Hs & Hg & Hn & Hls)". word_steps.
  iDestruct (heads_acc _ _ _ cur with "Hl") as "[Hi Hl]"; [done|].
  iDestruct (tasks_split c cur nt all with "Hin") as "[Hin1 Hin2]".
  iDestruct (other_tasks_tick c cur nt Hc Hcu all Hall with "Hin2") as "Hin2".
  iApply (wp_expire_slot with "Hi Hin1"); [exact w|done..|]. iIntros "Hi Hpen Hexp". word_steps.
  iApply (wp_wheel_unlock with "[Htm Hlk Hcur Hs Hg Hn Hls]"); [exact Hcu|by iFrame|]. iIntros "(_ & Htm & Hlk & Hcur & Hs & Hg & Hn & Hls)". word_steps.
  pose proof Hc as (Hc1 & Hsz & Hgr). rewrite u64_small; [|lia]. rewrite u32_small; [|lia].
  iAssert ((word (curidx w) ((cur + 1) mod wc_size c) -∗ wp (mret (inl (s ++ (expired nt (slot_list c cur nt all cur)).*1)) ≫= k) Φ) -∗ word (curidx w) (cur + 1) -∗
    wp ((if cur + 1 >=? wc_size c then store (curidx w) 0 else mret ()) ≫= λ _, mret (inl (s ++ (expired nt (slot_list c cur nt all cur)).*1)) ≫= k) Φ)%I as "Hwrap".
  { iIntros "HΦ Hcur". rewrite -(next_cur (wc_size c) cur Hcu). destruct (cur + 1 >=? wc_size c); word_step; by iApply "HΦ". }
  iApply ("Hwrap" with "[-Hcur] Hcur"). iIntros "Hcur". word_steps. rewrite expired_slot //. iApply ("HΦ" with "[-Hexp] Hexp").
  iSplit; [iPureIntro; by apply (pending_ok c cur nt)|]. iFrame "Htm Hlk Hcur Hs Hg Hn Hls". iSplit; [iPureIntro; split; [done|]; apply Z.mod_pos_bound; lia|]. iSplitL "Hl Hi".
  - iApply ("Hl" with "[%]"); [intros j _ Hj; by rewrite slot_list_tick // slot_list_other|]. by rewrite slot_list_tick.
  - rewrite -(pending_split c cur nt Hc Hcu all Hall) big_sepL_app. iFrame.
Qed.
End wheel.
