(* ===== verification/TimerWheelRun.v ===== *)
(** Histories of a timer wheel: setting up, adding, removing and changing timers,
    and processing. *)
From iris.proofmode Require Import coq_tactics reduction proofmode.
From iris.base_logic.lib Require Import gen_heap.
From Stdlib Require Import Sorting.Sorted.
From S2P Require Import Prelude Heap HashTable HashTableSpec HashTableHistory TimerWheel TimerWheelSpec.

(** ** Processing up to a time *)

(** The next tick after all ticks up to [now]. *)
Definition next_after (g nt now : Z) : Z := if now <? nt then nt else nt + ((now - nt) / g + 1) * g.
Definition due_by (now : Z) (all : list entry) : list entry := filter (fun p => p.2 <= now) all.
Definition due_later (now : Z) (all : list entry) : list entry := filter (fun p => now < p.2) all.
(** The timers that a call reports: those that are due, in the order of their
    ticks. *)
Definition reported (now : Z) (all : list entry) (l : list Z) : Prop :=
  exists fired, l = fired.*1 /\ fired ≡ₚ due_by now all /\ Sorted (fun p q : entry => p.2 <= q.2) fired.

Lemma next_after_step g nt now : 0 < g -> nt <= now -> next_after g nt now = next_after g (nt + g) now.
Proof.
  intros Hg Hn. rewrite /next_after. destruct (Z.ltb_spec now nt); [lia|]. destruct (Z.ltb_spec now (nt + g)).
  - rewrite Z.div_small; lia.
  - replace (now - nt) with ((now - (nt + g)) + 1 * g) by lia. rewrite Z.div_add; lia.
Qed.
Lemma due_by_step nt now all : nt <= now -> due_by now all ≡ₚ expired nt all ++ due_by now (pending nt all).
Proof.
  intros Hn. induction all as [|p all IH]; [done|]. rewrite /due_by /expired /pending !filter_cons in IH |- *. destruct (decide (p.2 = nt)) as [E|E].
  - rewrite (decide_True (P := p.2 <= now)); [|lia]. rewrite (decide_False (P := p.2 <> nt)); [|by intros []]. simpl. by f_equiv.
  - rewrite (decide_True (P := p.2 <> nt)) // filter_cons. destruct (decide (p.2 <= now)); [|done]. rewrite -Permutation_middle. by f_equiv.
Qed.
Lemma due_later_step nt now all : nt <= now -> due_later now (pending nt all) = due_later now all.
Proof. intros Hn. apply list_filter_filter_l. intros p Hp E. lia. Qed.
Lemma due_by_early now all : Forall (fun p => now < p.2) all -> due_by now all = [] /\ due_later now all = all.
Proof.
  induction 1 as [|p all Hp Hall [IH1 IH2]]; [done|]. rewrite /due_by /due_later !filter_cons in IH1, IH2 |- *.
  rewrite decide_False; [|lia]. rewrite decide_True; [|lia]. by rewrite IH1 IH2.
Qed.
Lemma entries_from c nt all : wheel_conf_ok c -> Forall (entry_ok c nt) all -> Forall (fun p => nt <= p.2) all.
Proof. intros (_ & _ & Hg) Hall. eapply list.Forall_impl; [exact Hall|]. intros p (d & Hd & -> & _). nia. Qed.

Lemma reported_step c nt now all l : wheel_conf_ok c -> Forall (entry_ok c nt) all -> Forall (entry_ok c (nt + wc_gran c)) (pending nt all) -> nt <= now ->
  reported now (pending nt all) l -> reported now all ((expired nt all).*1 ++ l).
Proof.
  intros Hc Hall Hpen Hn (fired & -> & Hp & Hs). exists (expired nt all ++ fired). split; [by rewrite fmap_app|]. split; [by rewrite (due_by_step nt) // Hp|].
  assert (Forall (fun p => nt <= p.2) fired) as Hf.
  { rewrite Hp. apply list.Forall_forall. intros p [_ Hin]%list_elem_of_filter. pose proof (entries_from c _ _ Hc Hpen) as Hfrom.
    rewrite list.Forall_forall in Hfrom. specialize (Hfrom p Hin). simpl in Hfrom. destruct Hc as (_ & _ & Hg). lia. }
  assert (Forall (fun p => p.2 = nt) (expired nt all)) as He by (apply list.Forall_forall; by intros p [Hp' _]%list_elem_of_filter).
  revert He. generalize (expired nt all). intros es. induction 1 as [|p es Hpe He IH]; [done|]. simpl. constructor; [done|].
  destruct es as [|q es]; simpl.
  - destruct Hf as [|q fired Hq Hf]; constructor. lia.
  - constructor. apply list.Forall_cons in He as [Hq _]. lia.
Qed.

Section runs.
Context `{!gen_heapGS Z Z Σ}.
Implicit Types (c : wheel_conf) (w x nt cur : Z) (all : list entry) (p : entry).

Lemma wp_timer_wheel_process {B} w c now fuel n : forall cur nt all s (k : list Z -> prog Z B) Φ,
  0 <= nt -> now + wc_gran c < 2 ^ 64 -> (Z.to_nat ((now - nt) / wc_gran c + 1) < n)%nat -> (length all < fuel)%nat ->
  is_wheel w c cur nt all -∗
  (∀ l cur', ⌜reported now all l⌝ -∗ is_wheel w c cur' (next_after (wc_gran c) nt now) (due_later now all) -∗
     ([∗ list] p ∈ due_by now all, task_free p.1) -∗ wp (k (s ++ l)) Φ) -∗
  wp (timer_wheel_process collect n fuel w now s ≫= k) Φ.
Proof.
  rewrite /timer_wheel_process. induction n as [|n IH]; intros cur nt all s k Φ Hnt Hb Hn Hf; iIntros "Hw HΦ"; [lia|]. simpl loop. iApply wp_assoc.
  iDestruct "Hw" as "(%Hall & (%Hc & Hr) & Hw)". destruct Hc as [Hc Hcur]. pose proof Hc as (_ & _ & Hg).
  destruct (Z.le_gt_cases nt now) as [Hle|Hgt].
  - iApply (wp_process_step w c cur nt all fuel now with "[Hr Hw]"); [exact Hle|done|lia|exact Hf|by iFrame|]. iIntros "Hw Hexp". cbv beta iota.
    iAssert ⌜Forall (entry_ok c (nt + wc_gran c)) (pending nt all)⌝%I as %Hpen; [by iDestruct "Hw" as "(%Hp & _)"|].
    iApply (IH _ (nt + wc_gran c) (pending nt all) with "Hw"); [lia|done| | |].
    + replace ((now - nt) / wc_gran c + 1) with ((now - (nt + wc_gran c)) / wc_gran c + 1 + 1) in Hn.
      * pose proof (Z.div_le_lower_bound (now - (nt + wc_gran c)) (wc_gran c) (-1)). lia.
      * replace (now - nt) with ((now - (nt + wc_gran c)) + 1 * wc_gran c) by lia. rewrite Z.div_add; lia.
    + pose proof (length_filter (fun p => p.2 <> nt) all). rewrite /pending. lia.
    + iIntros (l cur' Hl) "Hw Hfree". rewrite -next_after_step; [|lia|done]. rewrite due_later_step // -app_assoc.
      iApply ("HΦ" with "[%] Hw [Hexp Hfree]"); [by eapply reported_step|]. rewrite (due_by_step nt now all) // big_sepL_app. iFrame.
  - iDestruct "Hr" as "(Htm & Hlk & Hcur & Hs & Hg & Hn & Hls)". rewrite /process_step. word_steps. destruct (Z.geb_spec now nt); [lia|]. simpl. word_steps.
    assert (Forall (fun p => now < p.2) all) as Hlater by (eapply list.Forall_impl; [by eapply entries_from|]; intros p; simpl; lia).
    destruct (due_by_early now all Hlater) as [E1 E2]. rewrite E1 E2 /next_after. destruct (Z.ltb_spec now nt); [|lia].
    iEval (rewrite -(app_nil_r s)). iApply ("HΦ" with "[%] [-] [//]"); [exists []; rewrite E1; repeat constructor|]. by iFrame.
Qed.

(** ** Setting up *)

Definition wheel_words (w : Z) : iProp Σ :=
  some_word (timers w) ∗ some_word (locks w) ∗ some_word (curidx w) ∗ some_word (wheel_size w) ∗ some_word (granularity w) ∗ some_word (next_time64 w).

Lemma wp_init_locks {B} ok w ls n j (k : option Z -> prog Z B) Φ :
  (forall i, ok i = true) -> mutex_block ls j n -∗ (mutex_words ls j n -∗ wp (k None) Φ) -∗ wp (init_locks ok n j w ls ≫= k) Φ.
Proof.
  intros Hok. revert j. induction n as [|n IH]; intros j; cbn [init_locks]; iIntros "Hb HΦ".
  - iApply wp_ret_bind. iApply "HΦ". by rewrite /mutex_words.
  - rewrite Hok. rewrite /mutex_block /mutex_words seqZ_S /=. iDestruct "Hb" as "[(%v & Hv) Hb]". rewrite /mutex_init. word_steps.
    iApply (IH with "Hb"). iIntros "Hw". iApply "HΦ". iFrame.
Qed.
Lemma wp_init_locks_fail {B} ok w ls n j (k : option Z -> prog Z B) Φ :
  (exists i, (j <= i < j + n)%nat /\ ok (Z.of_nat i) = false) ->
  mutex_words ls 0 j -∗ mutex_block ls j n -∗ some_word (timers w) -∗ some_word (locks w) -∗
  wp (k (Some (- ENOMEM))) Φ -∗ wp (init_locks ok n j w ls ≫= k) Φ.
Proof.
  revert j. induction n as [|n IH]; intros j (i & Hi & Hok); cbn [init_locks]; iIntros "Hw Hb Ht Hl HΦ"; [lia|]. destruct (ok (Z.of_nat j)) eqn:Ej.
  - rewrite /mutex_block seqZ_S /=. iDestruct "Hb" as "[(%v & Hv) Hb]". rewrite /mutex_init. word_steps. iApply (IH with "[Hw Hv] Hb Ht Hl HΦ").
    + exists i. split; [|done]. assert (i <> j) by (intros ->; congruence). lia.
    + rewrite mutex_words_S. iFrame.
  - word_steps. iApply (wp_destroy_down with "Hw"). iIntros "Hw". iDestruct "Ht" as (a) "Ht". iDestruct "Hl" as (b) "Hl". by word_steps.
Qed.

Definition lock_count (size : Z) (locked : bool) : nat := if locked then Z.to_nat size else 0%nat.

Lemma wp_timer_wheel_init {B} w gran size nt (locked : bool) ts ls ok (k : Z -> prog Z B) Φ :
  0 < size < 2 ^ 32 -> 0 < gran < 2 ^ 32 -> ts <> 0 -> (locked = true -> ls <> 0 /\ forall i, ok i = true) ->
  wheel_words w -∗ bucket_block ts size -∗ mutex_block ls 0 (lock_count size locked) -∗
  (is_wheel w (WheelConf ts (if locked then ls else 0) size gran) 0 nt [] -∗ wp (k 0) Φ) -∗
  wp (timer_wheel_init w gran size nt locked ts ls ok ≫= k) Φ.
Proof.
  iIntros (Hs Hg Hts Hl) "((%v1 & Htm) & (%v2 & Hlk) & (%v3 & Hcur) & (%v4 & Hsz) & (%v5 & Hgr) & (%v6 & Hn)) Hblk Hmblk HΦ".
  rewrite /timer_wheel_init. word_steps. destruct (Z.eqb_spec ts 0) as [|_]; [done|]. word_steps.
  iApply (wp_for_n (fun i => some_word (ts + 8 * i)) (fun i => word (ts + 8 * i) 0) with "[Hblk]").
  { iIntros (i k' Φ') "(%v & Hv) HΦ". rewrite /hash_list_head_init. word_steps. by iApply "HΦ". }
  { rewrite Z2Nat.id; [|lia]. done. }
  rewrite Z2Nat.id; [|lia]. iIntros "Hblk". word_steps.
  set (c := WheelConf _ _ _ _). assert (wheel_conf_ok c /\ 0 <= 0 < wc_size c) as Hc by (split; [done|simpl wc_size; lia]).
  iAssert (wlocks c None -∗ word (timers w) ts -∗ word (locks w) (if locked then ls else 0) -∗ word (curidx w) 0 -∗ word (wheel_size w) size -∗ word (granularity w) gran -∗
    word (next_time64 w) nt -∗ wp (k 0) Φ)%I with "[Hblk HΦ]" as "HΦ".
  { iIntros "Hls Htm Hlk Hcur Hsz Hgr Hn". iApply "HΦ". iSplit; [done|]. iSplitR "Hblk"; [iSplit; [done|]; by iFrame|]. by iFrame. }
  destruct locked.
  - destruct (Hl eq_refl) as [Hls Hok]. word_steps. destruct (Z.eqb_spec ls 0) as [|_]; [done|]. word_steps.
    iApply (wp_init_locks with "Hmblk"); [done|]. iIntros "Hmw". word_steps. iApply ("HΦ" with "[Hmw] Htm Hlk Hcur Hsz Hgr Hn").
    rewrite /wlocks /= (proj2 (Z.eqb_neq _ _) Hls) /mutex_words /lock_count (Z2Nat.id size); [|lia].
    iApply (big_sepL_impl with "Hmw"). iIntros "!>" (i j _) "$".
  - word_steps. iApply ("HΦ" with "[] Htm Hlk Hcur Hsz Hgr Hn"). by rewrite /wlocks.
Qed.
Lemma wp_timer_wheel_init_fails w gran size nt (locked : bool) ts ls ok Φ :
  0 < size -> (ts = 0 \/ locked = true /\ (ls = 0 \/ exists i, (i < Z.to_nat size)%nat /\ ok (Z.of_nat i) = false)) ->
  wheel_words w -∗ bucket_block ts size -∗ mutex_block ls 0 (lock_count size locked) -∗ Φ (- ENOMEM) -∗
  wp (timer_wheel_init w gran size nt locked ts ls ok) Φ.
Proof.
  iIntros (Hs Hfail) "((%v1 & Htm) & (%v2 & Hlk) & _) Hblk Hmblk HΦ". iApply wp_bind_ret. rewrite /timer_wheel_init. word_steps.
  destruct (Z.eqb_spec ts 0) as [|Hts]; [word_steps; by iApply wp_ret|]. destruct Hfail as [|[-> Hfail]]; [done|]. word_steps.
  iApply (wp_for_n (fun i => some_word (ts + 8 * i)) (fun i => word (ts + 8 * i) 0) with "[Hblk]").
  { iIntros (i k' Φ') "(%v & Hv) HΦ". rewrite /hash_list_head_init. word_steps. by iApply "HΦ". }
  { rewrite Z2Nat.id; [|lia]. done. }
  iIntros "_". word_steps. destruct (Z.eqb_spec ls 0) as [|Hls]; [word_steps; by iApply wp_ret|]. destruct Hfail as [|(i & Hi & Ei)]; [done|]. word_steps.
  iApply (wp_init_locks_fail ok w ls (Z.to_nat size) 0 with "[] Hmblk [Htm] [Hlk]"); [exists i; split; [lia|done]|by rewrite /mutex_words|by iExists _..|]. word_steps. by iApply wp_ret.
Qed.
End runs.

(** ** Histories *)

Inductive wheel_op := WAdd (x t : Z) | WRemove (x : Z) | WModify (x t : Z) | WProcess (now : Z) | WNext.

Section histories.
Context (w : Z) (c : wheel_conf) (fuel : nat) (P : list Z).

(** The client sets [time64] and calls; expired tasks are its own again.  The
    bound of the loop of [timer_wheel_process] is the number of ticks up to
    [now]. *)
Definition w_do (op : wheel_op) : prog Z (list Z) :=
  match op with
  | WAdd x t => _ ← store (task_time64 x) t; _ ← timer_wheel_add w x; mret []
  | WRemove x => _ ← timer_wheel_remove w x; mret []
  | WModify x t => _ ← store (task_time64 x) t; _ ← timer_wheel_modify w x; mret []
  | WProcess now => nt ← load (next_time64 w); timer_wheel_process collect (S (Z.to_nat ((now - nt) / wc_gran c + 1))) fuel w now []
  | WNext => t ← timer_wheel_next_expiry_time w; mret [t]
  end.
Fixpoint w_run (ops : list wheel_op) : prog Z (list (list Z)) :=
  match ops with
  | [] => mret []
  | op :: ops => o ← w_do op; os ← w_run ops; mret (o :: os)
  end.

(** The same on the next tick and the timers with their ticks. *)
Definition without (x : Z) (all : list entry) : list entry := filter (fun p => p.1 <> x) all.
Definition w_after (st : Z * list entry) (op : wheel_op) : Z * list entry :=
  let '(nt, all) := st in
  match op with
  | WAdd x t => (nt, (x, due_tick c nt t) :: all)
  | WRemove x => (nt, without x all)
  | WModify x t => (nt, (x, due_tick c nt t) :: without x all)
  | WProcess now => (next_after (wc_gran c) nt now, due_later now all)
  | WNext => st
  end.
Definition w_out (st : Z * list entry) (op : wheel_op) (o : list Z) : Prop :=
  match op with WProcess now => reported now st.2 o | WNext => o = [st.1] | _ => o = [] end.
Fixpoint w_outs (st : Z * list entry) (ops : list wheel_op) (os : list (list Z)) : Prop :=
  match ops, os with
  | [], [] => True
  | op :: ops, o :: os => w_out st op o /\ w_outs (w_after st op) ops os
  | _, _ => False
  end.
(** A client adds tasks of its own, and removes and changes what is in the wheel;
    times stay below 2^62. *)
Definition w_allowed (st : Z * list entry) (op : wheel_op) : Prop :=
  match op with
  | WAdd x t => x ∈ P /\ x ∉ st.2.*1 /\ time_ok c st.1 t
  | WRemove x => x ∈ st.2.*1
  | WModify x t => x ∈ st.2.*1 /\ time_ok c st.1 t
  | WProcess now => 0 <= now /\ now + wc_gran c < 2 ^ 62
  | WNext => True
  end.
Fixpoint w_allowed_run (st : Z * list entry) (ops : list wheel_op) : Prop :=
  match ops with [] => True | op :: ops => w_allowed st op /\ w_allowed_run (w_after st op) ops end.
End histories.

Section refinement.
Context `{!gen_heapGS Z Z Σ}.
Context (w : Z) (c : wheel_conf) (fuel : nat) (P : list Z) (HP : NoDup P) (Hfuel : (length P < fuel)%nat).

Definition times_of (l : list Z) : iProp Σ := [∗ list] x ∈ l, some_word (task_time64 x).
Definition w_state (st : Z * list entry) : iProp Σ :=
  ∃ cur rest, ⌜rest ++ st.2.*1 ≡ₚ P /\ 0 <= st.1⌝ ∗ is_wheel w c cur st.1 st.2 ∗ ([∗ list] x ∈ rest, task_free x) ∗ times_of P.

Lemma times_acc x : x ∈ P -> times_of P ⊢ some_word (task_time64 x) ∗ (some_word (task_time64 x) -∗ times_of P).
Proof. intros [i Hi]%list_elem_of_lookup_1. apply (big_sepL_lookup_acc (fun _ x => some_word (task_time64 x)) P i x Hi). Qed.
Lemma w_state_pure rest (all : list entry) : rest ++ all.*1 ≡ₚ P -> NoDup all.*1 /\ (length all <= length P)%nat /\ forall x, x ∈ all.*1 -> x ∈ P.
Proof.
  intros E. assert (NoDup (rest ++ all.*1)) as Hn by (by rewrite E). apply list.NoDup_app in Hn as (_ & _ & Hn). split; [done|]. split.
  - apply Permutation_length in E. rewrite length_app length_fmap in E. lia.
  - intros x Hx. rewrite -E. apply elem_of_app. by right.
Qed.
Lemma without_id x (all : list entry) : x ∉ all.*1 -> without x all = all.
Proof.
  induction all as [|p all IH]; intros Hn; [done|]. rewrite fmap_cons in Hn. apply not_elem_of_cons in Hn as [Hp Hn].
  rewrite /without filter_cons_True; [|done]. f_equal. by apply IH.
Qed.
Lemma without_split (all : list entry) x : x ∈ all.*1 -> NoDup all.*1 -> exists l1 p l2, all = l1 ++ p :: l2 /\ x = p.1 /\ without x all = l1 ++ l2.
Proof.
  intros (p & -> & (l1 & l2 & ->)%list_elem_of_split)%list_elem_of_fmap Hn. exists l1, p, l2. split; [done|]. split; [done|].
  rewrite fmap_app fmap_cons in Hn. apply list.NoDup_app in Hn as (_ & H1 & (H2 & _)%list.NoDup_cons).
  rewrite /without list.filter_app filter_cons_False; [|by intros []]. f_equal; apply without_id; [|done]. intros Hy. apply (H1 p.1 Hy), list_elem_of_here.
Qed.

Lemma wp_w_do {B} st op (k : list Z -> prog Z B) Φ : w_allowed c P st op ->
  w_state st -∗ (∀ o, ⌜w_out st op o⌝ -∗ w_state (w_after c st op) -∗ wp (k o) Φ) -∗ wp (w_do w c fuel op ≫= k) Φ.
Proof.
  destruct st as [nt all]. iIntros (Ha) "(%cur & %rest & %Hpure & Hw & Hf & Ht) HΦ". cbn [fst snd] in *. destruct Hpure as [Hp Hnt].
  destruct (w_state_pure rest all Hp) as (Hnd & Hlen & Hsub). destruct op as [x t|x|x t|now|]; cbn [w_allowed fst snd] in Ha; cbn [w_do w_after w_out fst snd].
  - destruct Ha as (Hx & Hni & Htime). word_steps. iDestruct (times_acc x Hx with "Ht") as "[(%v & Htx) Ht]". word_steps.
    assert (x ∈ rest) as Hin by (rewrite -Hp in Hx; by apply elem_of_app in Hx as [|]). apply elem_of_Permutation in Hin as [rest' E]. rewrite E /=. iDestruct "Hf" as "[Hx Hf]".
    iApply (wp_timer_wheel_add with "Hw Hx Htx"); [done|]. iIntros "Hw Htx". word_steps. iDestruct ("Ht" with "[Htx]") as "Ht"; [by iExists t|].
    iApply ("HΦ" with "[//]"). iExists cur, rest'. iFrame. iPureIntro. split; [|done]. rewrite fmap_cons -Hp E /=. symmetry. apply Permutation_middle.
  - destruct (without_split all x Ha Hnd) as (l1 & p & l2 & -> & -> & E). word_steps. iApply (wp_timer_wheel_remove with "Hw"). iIntros "Hw Hx". word_steps.
    iApply ("HΦ" with "[//]"). iExists cur, (p.1 :: rest). rewrite E /=. iFrame. iPureIntro. split; [|done]. rewrite -Hp !fmap_app fmap_cons /= !app_assoc. apply Permutation_middle.
  - destruct Ha as (Hx & Htime). pose proof (Hsub x Hx) as HxP. destruct (without_split all x Hx Hnd) as (l1 & p & l2 & -> & -> & E). word_steps.
    iDestruct (times_acc p.1 HxP with "Ht") as "[(%v & Htx) Ht]". word_steps. rewrite /timer_wheel_modify. word_steps.
    iApply (wp_timer_wheel_remove with "Hw"). iIntros "Hw Hx". iApply (wp_timer_wheel_add with "Hw Hx Htx"); [done|]. iIntros "Hw Htx". word_steps.
    iDestruct ("Ht" with "[Htx]") as "Ht"; [by iExists t|]. iApply ("HΦ" with "[//]"). iExists cur, rest. rewrite E. iFrame. iPureIntro. split; [|done].
    rewrite -Hp fmap_cons !fmap_app fmap_cons /=. f_equiv. apply Permutation_middle.
  - destruct Ha as [Hn0 Hb]. word_steps. iDestruct "Hw" as "(%Hall & (%Hc & Htm & Hlk & Hcur & Hs & Hg & Hn & Hls) & Hw)". word_steps. pose proof Hc as [(_ & _ & Hgr) _].
    iApply (wp_timer_wheel_process w c now fuel _ cur nt all [] with "[Htm Hlk Hcur Hs Hg Hn Hls Hw]"); [done|lia|lia|lia|by iFrame|].
    iIntros (l cur' Hl) "Hw Hfree". iApply ("HΦ" with "[//]"). iExists cur', (rest ++ (due_by now all).*1). iFrame "Hw Ht". iSplit.
    + iPureIntro. cbn [fst snd]. split.
      * rewrite -Hp -app_assoc. f_equiv. rewrite -fmap_app. apply fmap_Permutation. rewrite /due_by /due_later.
        rewrite -{3}(filter_app_complement (fun p => p.2 <= now) all). f_equiv. apply reflexive_eq, list_filter_iff. intros q. lia.
      * rewrite /next_after. destruct (Z.ltb_spec now nt); [done|]. pose proof (Z.div_pos (now - nt) (wc_gran c)). nia.
    + rewrite big_sepL_app big_sepL_fmap. iFrame.
  - rewrite /timer_wheel_next_expiry_time. iDestruct "Hw" as "(%Hall & (%Hc & Htm & Hlk & Hcur & Hs & Hg & Hn & Hls) & Hw)". word_steps.
    iApply ("HΦ" with "[//]"). iExists cur, rest. by iFrame.
Qed.
Lemma wp_w_run {B} ops : forall st (k : list (list Z) -> prog Z B) Φ, w_allowed_run c P st ops ->
  w_state st -∗ (∀ os, ⌜w_outs c st ops os⌝ -∗ wp (k os) Φ) -∗ wp (w_run w c fuel ops ≫= k) Φ.
Proof.
  induction ops as [|op ops IH]; intros st k Φ Ha; cbn [w_run]; iIntros "Hs HΦ".
  - iApply wp_ret_bind. by iApply "HΦ".
  - destruct Ha as [Ha Hrun]. word_steps. iApply (wp_w_do with "Hs"); [done|]. iIntros (o Ho) "Hs". word_steps. iApply (IH with "Hs"); [done|].
    iIntros (os Hos) "". word_steps. by iApply ("HΦ" with "[%]").
Qed.
End refinement.

(** ** From the memory *)

Definition wheel_addrs (w size : Z) (locked : bool) (ts ls : Z) (P : list Z) : list Z :=
  [timers w; locks w; curidx w; wheel_size w; granularity w; next_time64 w] ++
  ((fun i => ts + 8 * i) <$> seqZ 0 size) ++ ((fun i => ls + sizeof_mutex * i) <$> seqZ 0 (Z.of_nat (lock_count size locked))) ++
  (pprev <$> P) ++ (next <$> P) ++ (task_time64 <$> P) ++ (rotation_count <$> P) ++ (task_idx <$> P).

Lemma split_wheel_addrs `{!gen_heapGS Z Z Σ} w size locked ts ls P :
  Forall (fun x => x <> 0) P ->
  ([∗ list] a ∈ wheel_addrs w size locked ts ls P, some_word a) ⊢
  wheel_words w ∗ bucket_block ts size ∗ mutex_block ls 0 (lock_count size locked) ∗ ([∗ list] x ∈ P, task_free x) ∗ times_of P.
Proof.
  intros H0. rewrite /wheel_addrs !big_sepL_app (big_sepL_fmap (fun i => ts + 8 * i)) (big_sepL_fmap (fun i => ls + sizeof_mutex * i))
    (big_sepL_fmap pprev) (big_sepL_fmap next) (big_sepL_fmap task_time64) (big_sepL_fmap rotation_count) (big_sepL_fmap task_idx).
  iIntros "(Hw & Hb & Hm & Hp & Hn & Ht & Hr & Hi)". iDestruct "Hw" as "($ & $ & $ & $ & $ & $ & _)". iFrame "Hb Hm". rewrite /times_of. iFrame "Ht".
  iDestruct (big_sepL_sep_2 with "Hp Hn") as "Hn". iDestruct (big_sepL_sep_2 with "Hi Hr") as "Hi". iDestruct (big_sepL_sep_2 with "Hn Hi") as "H".
  iApply (big_sepL_impl with "H"). iIntros "!>" (k x Hx) "[[Hp Hn] [Hi Hr]]". rewrite list.Forall_forall in H0. iFrame. iPureIntro. apply H0.
  by eapply list_elem_of_lookup_2.
Qed.

Definition wheel_program (fuel : nat) (w gran size nt : Z) (locked : bool) (ts ls : Z) (ok : Z -> bool) (ops : list wheel_op) : prog Z (Z * list (list Z)) :=
  r ← timer_wheel_init w gran size nt locked ts ls ok;
  os ← w_run w (WheelConf ts (if locked then ls else 0) size gran) fuel ops;
  mret (r, os).

(** C9: the timer wheel reports every timer once, at its tick.  Take any memory
    with room for the wheel and the client's tasks, and timers whose functions
    leave the wheel alone (here they only note that they were called; what happens
    when one adds its timer again is in the examples below).  When the C library
    grants what the initialisation asks for, any history of additions, removals, changes
    and calls of [timer_wheel_process] returns, with locks or without; a call
    with time [now] reports exactly the timers in the wheel whose tick is not
    after [now], in the order of their ticks, and the next tick is the first one
    after [now].  The tick of a timer is the last one that is not after its time:
    it is reported early by less than the granularity, never late; a time before
    the next tick means the next tick.  When the library refuses anything, the
    initialisation returns [-ENOMEM]. *)
Theorem timer_wheel_refines (fuel : nat) (H : gmap Z Z) w gran size nt (locked : bool) ts ls ok P ops :
  0 < size < 2 ^ 32 -> 0 < gran < 2 ^ 32 -> 0 <= nt -> NoDup (wheel_addrs w size locked ts ls P) ->
  Forall (fun a => is_Some (H !! a)) (wheel_addrs w size locked ts ls P) -> Forall (fun x => x <> 0) P -> (length P < fuel)%nat ->
  let c := WheelConf ts (if locked then ls else 0) size gran in
  (ts <> 0 -> (locked = true -> ls <> 0 /\ forall i, ok i = true) -> w_allowed_run c P (nt, []) ops ->
   exists os H', wheel_program fuel w gran size nt locked ts ls ok ops H = Ret ((0, os), H') /\ w_outs c (nt, []) ops os) /\
  (ts <> 0 -> forall next t, time_ok c next t ->
   (next <= t -> t - gran < due_tick c next t <= t) /\ (t < next -> due_tick c next t = next)) /\
  ((ts = 0 \/ locked = true /\ (ls = 0 \/ exists i, (i < Z.to_nat size)%nat /\ ok (Z.of_nat i) = false)) ->
   exists H', timer_wheel_init w gran size nt locked ts ls ok H = Ret (- ENOMEM, H')).
Proof.
  intros Hs Hg Hnt Hnd Hd H0 Hfuel c. split; [|split].
  - intros Hts Hl Ha. assert (NoDup P) as HP.
    { unfold wheel_addrs in Hnd. rewrite !list.NoDup_app in Hnd. destruct Hnd as (_ & _ & _ & _ & _ & _ & Hnd & _). by apply NoDup_fmap_1 in Hnd. }
    destruct (run_words (wheel_program fuel w gran size nt locked ts ls ok ops) H (wheel_addrs w size locked ts ls P)
      (fun r => r.1 = 0 /\ w_outs c (nt, []) ops r.2) Hnd Hd) as ([r os] & H' & E & Hr & Hos); [|simpl in *; subst r; by exists os, H'].
    intros Σ HG. rewrite split_wheel_addrs //. iIntros "(Hw & Hb & Hm & Hf & Ht)". rewrite /wheel_program.
    iApply (wp_timer_wheel_init with "Hw Hb Hm"); [done..|]. iIntros "Hw".
    iApply (wp_w_run w c fuel P with "[Hw Hf Ht]"); [done..| |]; [iExists 0, P; iFrame; iPureIntro; split; [by rewrite app_nil_r|done]|].
    iIntros (os Hos). iApply wp_ret. by iPureIntro.
  - intros Hts next t Ht. assert (wheel_conf_ok c) as Hc by done. destruct (due_tick_ok c next t Hc Ht) as (_ & H1 & H2). by split.
  - intros Hfail. destruct (run_words (timer_wheel_init w gran size nt locked ts ls ok) H (wheel_addrs w size locked ts ls P) (fun r => r = - ENOMEM) Hnd Hd)
      as (r & H' & E & ->); [|by exists H'].
    intros Σ HG. rewrite split_wheel_addrs //. iIntros "(Hw & Hb & Hm & _)". iApply (wp_timer_wheel_init_fails with "Hw Hb Hm"); [lia|done|done].
Qed.

Definition sample_wheel (locked : bool) : gmap Z Z :=
  list_to_map ((fun a => (a, 7)) <$> wheel_addrs 1000 4 locked 2000 3000 [100; 200]).
Lemma timer_wheel_refines_witness :
  let ops := [WAdd 100 57; WAdd 200 20; WProcess 25; WModify 100 141; WNext; WProcess 139; WProcess 140; WAdd 200 300; WRemove 200] in
  exists os H', wheel_program 3 1000 10 4 5 true 2000 3000 (fun _ => true) ops (sample_wheel true) = Ret ((0, os), H') /\
    w_outs (WheelConf 2000 3000 4 10) (5, []) ops os.
Proof.
  intros ops. apply (timer_wheel_refines 3 (sample_wheel true) 1000 10 4 5 true 2000 3000 (fun _ => true) [100; 200] ops); try lia.
  - apply (bool_decide_unpack _). vm_compute. exact I.
  - apply (bool_decide_unpack _). vm_compute. exact I.
  - apply (bool_decide_unpack _). vm_compute. exact I.
  - simpl. lia.
  - intros _. split; [lia|reflexivity].
  - cbn [ops w_allowed_run w_allowed]. repeat split; try (apply (bool_decide_unpack _); vm_compute; exact I); vm_compute; (reflexivity || (intros Hd; discriminate Hd)).
Defined.

(** A timer whose function adds it again.  During the call the wheel still points
    to the tick that is being processed, so a time in that tick is a whole
    rotation away: the task for time 5 is added again for time 5 at tick 5 and
    waits until tick 45; and with locks the thread waits for a lock that it has. *)
Definition add_again (task : Z) (s : list Z) : prog Z (list Z) := _ ← timer_wheel_add 1000 task; mret (s ++ [task]).
Definition again (locked : bool) (now : Z) : prog Z (list Z) :=
  _ ← timer_wheel_init 1000 10 4 5 locked 2000 3000 (fun _ => true);
  _ ← store (task_time64 100) 5;
  _ ← timer_wheel_add 1000 100;
  timer_wheel_process add_again 10 3 1000 now [].
Example added_again_waits_a_rotation :
  (r ← again false 44 (sample_wheel false); Ret r.1) = Ret [100] /\ (r ← again false 45 (sample_wheel false); Ret r.1) = Ret [100; 100].
Proof. split; vm_compute; reflexivity. Qed.
Example added_again_deadlocks : again true 5 (sample_wheel true) = Undef.
Proof. vm_compute. reflexivity. Qed.
