(* ===== verification/SlabAlloc.v ===== *)
(** The allocators behind [struct allocif]: alloc/asalloc.h, alloc/llalloc.h,
    alloc/rballoc.h, their .c files, and alloc/directalloc.h.

    Three allocators keep blocks of one size in caches, a cache for one thread or
    one per thread and one for all threads.  The cache is a stack in an array
    ([as]), a linked list through the blocks themselves ([ll]) or a ring in an
    array ([rb]); but for that the three pairs of files have the same text.  The
    common text is written once, over the operations on the cache as a class, and
    each allocator is an instance.

    The functions are written here as one thread runs them; [SlabAllocThreads] cuts
    the calls into steps and interleaves the steps of several threads. *)
From S2P Require Import Prelude LinkedList.

Definition ENOMEM : Z := 12.

(** ** malloc and free

    A block is named by its address.  Its first eight bytes are the size that the
    allocators keep there; a block of at least 24 bytes has room for a list node
    after them.  [choose] is the C library: the address of a new block of [n] bytes
    and what its node happens to hold, or nothing. *)
Record block := Block { b_bytes : Z; b_hdr : option Z }.
Record world := World { blocks : gmap Z block; nodes : heap }.
Abbreviation chooser := (world -> Z -> option (Z * linked_list_node)).

Definition malloc (choose : chooser) (w : world) (n : Z) : world * Z :=
  match choose w n with
  | None => (w, 0)
  | Some (p, nd) =>
      (World (<[p := Block n None]> (blocks w)) (if 24 <=? n then <[p + 8 := nd]> (nodes w) else nodes w), p)
  end.
Definition free (w : world) (p : Z) : outcome world :=
  if p =? 0 then Ret w else
  _ ← of_option (blocks w !! p);
  Ret (World (delete p (blocks w)) (delete (p + 8) (nodes w))).

(** [memcpy] of a [size_t] to and from the start of a block. *)
Definition put_size (w : world) (p size : Z) : outcome world :=
  b ← of_option (blocks w !! p);
  if b_bytes b <? 8 then Undef else
  Ret (World (<[p := Block (b_bytes b) (Some size)]> (blocks w)) (nodes w)).
Definition get_size (w : world) (p : Z) : outcome Z :=
  b ← of_option (blocks w !! p); of_option (b_hdr b).

Definition alloc_allocated_block (obj : Z) : Z := obj - 8.

(** ** Operations on a cache

    [c_offset] leads from what the cache holds to the address the caller gets.
    [c_none] and [c_full] are the tests of the allocators, [c_drained] that of the
    loops that free a cache, [c_pop] takes an entry for use and [c_drop] in those
    loops, [c_init] makes the cache of an initialised object (its address is the
    first argument) and [c_release] frees it. *)
Class Cache (C : Type) := {
  c_offset : Z;
  c_native : Z -> Z;
  c_init : chooser -> world -> Z -> Z -> outcome (world * option C);
  c_capacity : C -> Z;
  c_size : C -> Z;
  c_none : C -> bool;
  c_full : C -> bool;
  c_pop : world -> C -> outcome (world * C * Z);
  c_push : world -> C -> Z -> outcome (world * C);
  c_drained : world -> C -> outcome bool;
  c_drop : world -> C -> outcome (world * C * Z);
  c_release : world -> C -> outcome world
}.

(** ** The common text *)

Section allocators.
Context {C : Type} `{Cache C}.
Variable (choose : chooser).

(** The three objects: of one thread on its own, of all threads, of one of them.
    [mtx] tells whether the mutex is locked. *)
Record st_state := St { st_cache : C; st_native : Z }.
Record global_state := Global { g_mtx : bool; g_cache : C; g_native : Z }.
Record local_state := Local { l_cache : C; l_native : Z }.

(** A block from the C library for [size] bytes, with its size in front. *)
Definition fresh_block (w : world) (size : Z) : outcome (world * Z) :=
  let '(w, buf) := malloc choose w (u64 (size + 8)) in
  if buf =? 0 then Ret (w, 0) else
  w ← put_size w buf size;
  Ret (w, buf + 8).

Definition lock_global (g : global_state) : outcome global_state :=
  if g_mtx g then Undef else Ret (Global true (g_cache g) (g_native g)).
Definition unlock_global (g : global_state) : outcome global_state :=
  if g_mtx g then Ret (Global false (g_cache g) (g_native g)) else Undef.

(** One entry from the common cache to the thread's, and back. *)
Definition fill_step (s : world * C * C) : outcome (world * C * C + world * C * C) :=
  let '(w, g, l) := s in
  if (c_size l <? c_capacity l / 2) && negb (c_none g) then
    r ← c_pop w g; let '(w, g, e) := (r : world * C * Z) in
    r ← c_push w l e; let '(w, l) := (r : world * C) in
    Ret (inl (w, g, l))
  else Ret (inr (w, g, l)).
Definition halve_step (s : world * C * C) : outcome (world * C * C + world * C * C) :=
  let '(w, g, l) := s in
  if (c_size l >? c_capacity l / 2) && negb (c_full g) then
    r ← c_pop w l; let '(w, l, e) := (r : world * C * Z) in
    r ← c_push w g e; let '(w, g) := (r : world * C) in
    Ret (inl (w, g, l))
  else Ret (inr (w, g, l)).
(** One entry of the thread's cache is freed. *)
Definition shrink_step (s : world * C) : outcome (world * C + world * C) :=
  let '(w, l) := s in
  if c_size l >? c_capacity l / 2 then
    r ← c_pop w l; let '(w, l, e) := (r : world * C * Z) in
    w ← free w (alloc_allocated_block (e + c_offset (C:=C)));
    Ret (inl (w, l))
  else Ret (inr (w, l)).

Definition alloc_fill (w : world) (g : global_state) (l : local_state) : outcome (world * global_state * local_state) :=
  g ← lock_global g;
  r ← iter (S (Z.to_nat (c_capacity (l_cache l)))) fill_step (w, g_cache g, l_cache l);
  let '(w, gc, lc) := (r : world * C * C) in
  g ← unlock_global (Global (g_mtx g) gc (g_native g));
  Ret (w, g, Local lc (l_native l)).
Definition alloc_halve (w : world) (g : global_state) (l : local_state) : outcome (world * global_state * local_state) :=
  g ← lock_global g;
  r ← iter (S (Z.to_nat (c_size (l_cache l)))) halve_step (w, g_cache g, l_cache l);
  let '(w, gc, lc) := (r : world * C * C) in
  g ← unlock_global (Global (g_mtx g) gc (g_native g));
  r ← iter (S (Z.to_nat (c_size lc))) shrink_step (w, lc);
  let '(w, lc) := (r : world * C) in
  Ret (w, g, Local lc (l_native l)).

Definition alloc_mt (w : world) (g : global_state) (l : local_state) (size : Z) : outcome (world * global_state * local_state * Z) :=
  if size >? l_native l then r ← fresh_block w size; Ret (r.1, g, l, r.2) else
  let size := l_native l in
  r ← (if c_none (l_cache l) then alloc_fill w g l else Ret (w, g, l));
  let '(w, g, l) := (r : world * global_state * local_state) in
  if negb (c_none (l_cache l)) then
    r ← c_pop w (l_cache l); let '(w, lc, e) := (r : world * C * Z) in
    Ret (w, g, Local lc (l_native l), e + c_offset (C:=C))
  else r ← fresh_block w size; Ret (r.1, g, l, r.2).

Definition free_mt (w : world) (g : global_state) (l : local_state) (buf : Z) : outcome (world * global_state * local_state) :=
  if buf =? 0 then Ret (w, g, l) else
  let allocated_block := alloc_allocated_block buf in
  size ← get_size w allocated_block;
  if negb (size =? l_native l) then w ← free w allocated_block; Ret (w, g, l) else
  r ← (if c_full (l_cache l) then alloc_halve w g l else Ret (w, g, l));
  let '(w, g, l) := (r : world * global_state * local_state) in
  r ← c_push w (l_cache l) (buf - c_offset (C:=C)); let '(w, lc) := (r : world * C) in
  Ret (w, g, Local lc (l_native l)).

Definition alloc_st (w : world) (st : st_state) (size : Z) : outcome (world * st_state * Z) :=
  if size >? st_native st then r ← fresh_block w size; Ret (r.1, st, r.2) else
  let size := st_native st in
  if negb (c_none (st_cache st)) then
    r ← c_pop w (st_cache st); let '(w, c, e) := (r : world * C * Z) in
    Ret (w, St c (st_native st), e + c_offset (C:=C))
  else r ← fresh_block w size; Ret (r.1, st, r.2).

Definition free_st (w : world) (st : st_state) (buf : Z) : outcome (world * st_state) :=
  if buf =? 0 then Ret (w, st) else
  let allocated_block := alloc_allocated_block buf in
  size ← get_size w allocated_block;
  if negb (size =? st_native st) || c_full (st_cache st) then w ← free w allocated_block; Ret (w, st) else
  r ← c_push w (st_cache st) (buf - c_offset (C:=C)); let '(w, c) := (r : world * C) in
  Ret (w, St c (st_native st)).

(** [inl] is the error that is returned. *)
Definition alloc_st_init (w : world) (self capacity native_size : Z) : outcome (world * (Z + st_state)) :=
  let native_size := c_native (C:=C) native_size in
  r ← c_init choose w self capacity; let '(w, c) := (r : world * option C) in
  match c with
  | None => Ret (w, inl (- ENOMEM))
  | Some c => Ret (w, inr (St c native_size))
  end.
(** [mutex_ok] tells whether [pthread_mutex_init] succeeds. *)
Definition alloc_global_init (mutex_ok : bool) (w : world) (self capacity native_size : Z) : outcome (world * (Z + global_state)) :=
  let native_size := c_native (C:=C) native_size in
  r ← c_init choose w self capacity; let '(w, c) := (r : world * option C) in
  match c with
  | None => Ret (w, inl (- ENOMEM))
  | Some c =>
      if negb mutex_ok then w ← c_release w c; Ret (w, inl (- ENOMEM)) else
      Ret (w, inr (Global false c native_size))
  end.
Definition alloc_local_init (w : world) (g : global_state) (self capacity : Z) : outcome (world * (Z + local_state)) :=
  r ← c_init choose w self capacity; let '(w, c) := (r : world * option C) in
  match c with
  | None => Ret (w, inl (- ENOMEM))
  | Some c => Ret (w, inr (Local c (g_native g)))
  end.

Definition drain_step (s : world * C) : outcome (world * C + world * C) :=
  let '(w, c) := s in
  b ← c_drained w c;
  if (b : bool) then Ret (inr (w, c)) else
  r ← c_drop w c; let '(w, c, e) := (r : world * C * Z) in
  w ← free w (alloc_allocated_block (e + c_offset (C:=C)));
  Ret (inl (w, c)).
(** The object ends; its fields are cleared. *)
Definition cache_free (w : world) (c : C) : outcome world :=
  r ← iter (S (Z.to_nat (c_size c))) drain_step (w, c); let '(w, c) := (r : world * C) in
  c_release w c.
Definition alloc_st_free (w : world) (st : st_state) : outcome world := cache_free w (st_cache st).
Definition alloc_global_free (w : world) (g : global_state) : outcome world :=
  w ← cache_free w (g_cache g); if g_mtx g then Undef else Ret w.
Definition alloc_local_free (w : world) (l : local_state) : outcome world := cache_free w (l_cache l).
End allocators.
Arguments st_state C : clear implicits.
Arguments global_state C : clear implicits.
Arguments local_state C : clear implicits.

(** ** Arrays of pointers

    [None] is a word that was never written. *)
Definition rd_cell (cells : list (option Z)) (i : Z) : outcome Z :=
  if i <? 0 then Undef else of_option (mjoin (cells !! Z.to_nat i)).
Definition wr_cell (cells : list (option Z)) (i v : Z) : outcome (list (option Z)) :=
  if (0 <=? i) && (i <? Z.of_nat (length cells)) then Ret (<[Z.to_nat i := Some v]> cells) else Undef.
Definition new_cells (capacity : Z) : list (option Z) := replicate (Z.to_nat capacity) None.

(** ** alloc/asalloc: a stack in an array *)
Record as_cache := AsCache { as_array : Z; as_cells : list (option Z); as_capacity : Z; as_size : Z }.

Definition as_init (choose : chooser) (w : world) (_ capacity : Z) : outcome (world * option as_cache) :=
  let '(w, p) := malloc choose w (u64 (8 * capacity)) in
  if p =? 0 then Ret (w, None) else Ret (w, Some (AsCache p (new_cells capacity) capacity 0)).
Definition as_pop (w : world) (c : as_cache) : outcome (world * as_cache * Z) :=
  e ← rd_cell (as_cells c) (u64 (as_size c - 1));
  let size := u64 (as_size c - 1) in
  cells ← wr_cell (as_cells c) size 0;
  Ret (w, AsCache (as_array c) cells (as_capacity c) size, e).
Definition as_drop (w : world) (c : as_cache) : outcome (world * as_cache * Z) :=
  e ← rd_cell (as_cells c) (u64 (as_size c - 1));
  Ret (w, AsCache (as_array c) (as_cells c) (as_capacity c) (u64 (as_size c - 1)), e).
Definition as_push (w : world) (c : as_cache) (e : Z) : outcome (world * as_cache) :=
  cells ← wr_cell (as_cells c) (as_size c) e;
  Ret (w, AsCache (as_array c) cells (as_capacity c) (u64 (as_size c + 1))).

#[export] Instance as_ops : Cache as_cache := {|
  c_offset := 8;
  c_native n := n;
  c_init := as_init;
  c_capacity := as_capacity;
  c_size := as_size;
  c_none c := as_size c =? 0;
  c_full c := as_size c >=? as_capacity c;
  c_pop := as_pop;
  c_push := as_push;
  c_drained _ c := Ret (negb (as_size c >? 0));
  c_drop := as_drop;
  c_release w c := free w (as_array c)
|}.

(** ** alloc/llalloc: a list through the blocks

    The entry is the node, at the address the caller had.  [c_init] sets the
    links of the head and cannot fail. *)
Record ll_cache := LlCache { ll_head : Z; ll_capacity : Z; ll_size : Z }.

Definition sizeof_linked_list_node : Z := 16.
Definition ll_init (_ : chooser) (w : world) (self capacity : Z) : outcome (world * option ll_cache) :=
  H ← linked_list_head_init (nodes w) self;
  Ret (World (blocks w) H, Some (LlCache self capacity 0)).
Definition ll_pop (w : world) (c : ll_cache) : outcome (world * ll_cache * Z) :=
  hd ← get_node (nodes w) (ll_head c);
  let node := next hd in
  H ← linked_list_delete (nodes w) node;
  Ret (World (blocks w) H, LlCache (ll_head c) (ll_capacity c) (u64 (ll_size c - 1)), node).
Definition ll_push (w : world) (c : ll_cache) (node : Z) : outcome (world * ll_cache) :=
  H ← linked_list_add_tail (nodes w) node (ll_head c);
  Ret (World (blocks w) H, LlCache (ll_head c) (ll_capacity c) (u64 (ll_size c + 1))).

#[export] Instance ll_ops : Cache ll_cache := {|
  c_offset := 0;
  c_native n := if n <? sizeof_linked_list_node then sizeof_linked_list_node else n;
  c_init := ll_init;
  c_capacity := ll_capacity;
  c_size := ll_size;
  c_none c := ll_size c =? 0;
  c_full c := ll_size c >=? ll_capacity c;
  c_pop := ll_pop;
  c_push := ll_push;
  c_drained w c := linked_list_is_empty (nodes w) (ll_head c);
  c_drop := ll_pop;
  c_release w _ := Ret w
|}.

(** ** alloc/rballoc: a ring in an array *)
Record rb_cache := RbCache { rb_array : Z; rb_cells : list (option Z); rb_capacity : Z; rb_start : Z; rb_end : Z }.

Definition rb_init (choose : chooser) (w : world) (_ capacity : Z) : outcome (world * option rb_cache) :=
  let '(w, p) := malloc choose w (u64 (8 * capacity)) in
  if p =? 0 then Ret (w, None) else Ret (w, Some (RbCache p (new_cells capacity) capacity 0 0)).
Definition rb_alloc_empty (c : rb_cache) : bool := rb_start c =? rb_end c.
Definition rb_alloc_full (c : rb_cache) : bool :=
  let end_plus_1 := u64 (rb_end c + 1) in
  let end_plus_1 := if end_plus_1 >=? rb_capacity c then 0 else end_plus_1 in
  rb_start c =? end_plus_1.
Definition rb_alloc_local_size (c : rb_cache) : Z :=
  if rb_end c >=? rb_start c then rb_end c - rb_start c else u64 (rb_capacity c + rb_end c - rb_start c).
Definition rb_next (c : rb_cache) (i : Z) : Z :=
  let i := u64 (i + 1) in if i >=? rb_capacity c then 0 else i.
Definition rb_pop (w : world) (c : rb_cache) : outcome (world * rb_cache * Z) :=
  e ← rd_cell (rb_cells c) (rb_start c);
  cells ← wr_cell (rb_cells c) (rb_start c) 0;
  Ret (w, RbCache (rb_array c) cells (rb_capacity c) (rb_next c (rb_start c)) (rb_end c), e).
Definition rb_drop (w : world) (c : rb_cache) : outcome (world * rb_cache * Z) :=
  e ← rd_cell (rb_cells c) (rb_start c);
  Ret (w, RbCache (rb_array c) (rb_cells c) (rb_capacity c) (rb_next c (rb_start c)) (rb_end c), e).
Definition rb_push (w : world) (c : rb_cache) (e : Z) : outcome (world * rb_cache) :=
  cells ← wr_cell (rb_cells c) (rb_end c) e;
  Ret (w, RbCache (rb_array c) cells (rb_capacity c) (rb_start c) (rb_next c (rb_end c))).

#[export] Instance rb_ops : Cache rb_cache := {|
  c_offset := 8;
  c_native n := n;
  c_init := rb_init;
  c_capacity := rb_capacity;
  c_size := rb_alloc_local_size;
  c_none := rb_alloc_empty;
  c_full := rb_alloc_full;
  c_pop := rb_pop;
  c_push := rb_push;
  c_drained _ c := Ret (rb_alloc_empty c);
  c_drop := rb_drop;
  c_release w c := free w (rb_array c)
|}.

(** ** The functions of the three allocators *)
Definition as_alloc_mt := alloc_mt (C := as_cache).
Definition as_free_mt := free_mt (C := as_cache).
Definition as_alloc_st := alloc_st (C := as_cache).
Definition as_free_st := free_st (C := as_cache).
Definition as_alloc_fill := alloc_fill (C := as_cache).
Definition as_alloc_halve := alloc_halve (C := as_cache).
Definition as_alloc_st_init := alloc_st_init (C := as_cache).
Definition as_alloc_st_free := alloc_st_free (C := as_cache).
Definition as_alloc_global_init := alloc_global_init (C := as_cache).
Definition as_alloc_global_free := alloc_global_free (C := as_cache).
Definition as_alloc_local_init := alloc_local_init (C := as_cache).
Definition as_alloc_local_free := alloc_local_free (C := as_cache).

Definition ll_alloc_mt := alloc_mt (C := ll_cache).
Definition ll_free_mt := free_mt (C := ll_cache).
Definition ll_alloc_st := alloc_st (C := ll_cache).
Definition ll_free_st := free_st (C := ll_cache).
Definition ll_alloc_fill := alloc_fill (C := ll_cache).
Definition ll_alloc_halve := alloc_halve (C := ll_cache).
Definition ll_alloc_st_init := alloc_st_init (C := ll_cache).
Definition ll_alloc_st_free := alloc_st_free (C := ll_cache).
Definition ll_alloc_global_init := alloc_global_init (C := ll_cache).
Definition ll_alloc_global_free := alloc_global_free (C := ll_cache).
Definition ll_alloc_local_init := alloc_local_init (C := ll_cache).
Definition ll_alloc_local_free := alloc_local_free (C := ll_cache).

Definition rb_alloc_mt := alloc_mt (C := rb_cache).
Definition rb_free_mt := free_mt (C := rb_cache).
Definition rb_alloc_st := alloc_st (C := rb_cache).
Definition rb_free_st := free_st (C := rb_cache).
Definition rb_alloc_fill := alloc_fill (C := rb_cache).
Definition rb_alloc_halve := alloc_halve (C := rb_cache).
Definition rb_alloc_st_init := alloc_st_init (C := rb_cache).
Definition rb_alloc_st_free := alloc_st_free (C := rb_cache).
Definition rb_alloc_global_init := alloc_global_init (C := rb_cache).
Definition rb_alloc_global_free := alloc_global_free (C := rb_cache).
Definition rb_alloc_local_init := alloc_local_init (C := rb_cache).
Definition rb_alloc_local_free := alloc_local_free (C := rb_cache).

(** ** alloc/directalloc.h: no cache *)
Definition direct_alloc (choose : chooser) (w : world) (sz : Z) : outcome (world * Z) :=
  let '(w, buf) := malloc choose w (u64 (sz + 8)) in
  w ← put_size w buf sz;
  Ret (w, buf + 8).
Definition direct_free (w : world) (obj : Z) : outcome world :=
  if obj =? 0 then Ret w else free w (alloc_allocated_block obj).
