(* ===== verification/SlabAllocSpec.v ===== *)
(** What the slab allocators promise, proved against an interface of caches: the
    blocks that are live are those in the caches, those of the callers and the
    arrays of the caches, each in one place. *)
From S2P Require Import Prelude LinkedList SlabAlloc.

(** ** Blocks and caches *)

(** [b] is what a caller has of a block with room for [s] bytes. *)
Definition hdr (w : world) (b s : Z) : Prop := blocks w !! (b - 8) = Some (Block (s + 8) (Some s)).

(** The C library returns a new block: one that is not live, where nothing is. *)
Definition malloc_ok (choose : chooser) : Prop :=
  forall w n p nd, choose w n = Some (p, nd) -> 0 < p /\ blocks w !! p = None /\ nodes w !! (p + 8) = None.
Definition refuses (choose : chooser) : Prop := exists w n, choose w n = None.

(** Only links of [qs] change. *)
Definition touches (w w' : world) (qs : list Z) : Prop :=
  blocks w' = blocks w /\ same_but qs (nodes w) (nodes w') /\ (forall q, is_Some (nodes w !! q) -> is_Some (nodes w' !! q)).

(** A block for at least 16 bytes has a node. *)
Definition nodes_ok (w : world) : Prop :=
  forall b blk, blocks w !! b = Some blk -> 24 <= b_bytes blk -> is_Some (nodes w !! (b + 8)).

(** What a cache promises.  [rep w c bs]: it holds the blocks of the buffers [bs],
    in any order. *)
Class CacheLaws (C : Type) `{Cache C} := {
  rep : world -> C -> list Z -> Prop;
  heads : C -> list Z;
  array : C -> option Z;
  room : C -> Prop;
  (** capacities that work for the cache of a thread *)
  cap_ok : Z -> Prop;
  same_cache c c' := heads c' = heads c /\ array c' = array c /\ c_capacity c' = c_capacity c;
  took w c bs (r : outcome (world * C * Z)) := exists w' c' e bs', r = Ret (w', c', e) /\ bs ≡ₚ (e + c_offset (C:=C)) :: bs' /\
    rep w' c' bs' /\ same_cache c c' /\ touches w w' (heads c ++ bs);
  rep_size w c bs : rep w c bs -> c_size c = Z.of_nat (length bs) /\ 0 <= c_capacity c;
  rep_none w c bs : rep w c bs -> c_none c = bool_decide (bs = []);
  rep_not_full w c bs : rep w c bs -> c_full c = false -> room c;
  rep_half w c bs : rep w c bs -> cap_ok (c_capacity c) -> c_size c <= c_capacity c / 2 -> room c;
  rep_below_half w c bs : rep w c bs -> c_size c < c_capacity c / 2 -> room c;
  rep_frame w w' c bs : rep w c bs -> (forall q, q ∈ heads c ++ bs -> nodes w' !! q = nodes w !! q) -> rep w' c bs;
  pop_ok w c bs : rep w c bs -> bs <> [] -> took w c bs (c_pop w c);
  drop_ok w c bs : rep w c bs -> bs <> [] -> took w c bs (c_drop w c);
  push_ok w c bs b n : rep w c bs -> room c -> b ∉ heads c ++ bs -> nodes_ok w -> 0 <= n -> hdr w b (c_native (C:=C) n) ->
    exists w' c', c_push w c (b - c_offset (C:=C)) = Ret (w', c') /\ (exists bs', bs' ≡ₚ b :: bs /\ rep w' c' bs') /\
      same_cache c c' /\ touches w w' (b :: heads c ++ bs);
  drained_ok w c bs : rep w c bs -> c_drained w c = Ret (bool_decide (bs = []));
  release_ok w c : c_release w c = match array c with None => Ret w | Some a => free w a end;
  init_ok choose w self cap : malloc_ok choose -> 0 <= cap < 2 ^ 60 -> is_Some (nodes w !! self) ->
    exists w' oc, c_init choose w self cap = Ret (w', oc) /\
      match oc with
      | None => w' = w /\ refuses choose
      | Some c => rep w' c [] /\ c_capacity c = cap /\ (heads c = [] \/ heads c = [self]) /\
          match array c with
          | None => touches w w' [self]
          | Some a => exists n nd, choose w n = Some (a, nd) /\ w' = (malloc choose w n).1
          end
      end
}.

Section accounting.
Context {C : Type} `{CacheLaws C} (choose : chooser) (Hmalloc : malloc_ok choose).
(** The size of the blocks of the caches and the addresses of the objects. *)
Context (n0 : Z) (Hn0 : 0 <= n0 /\ 0 <= c_native (C:=C) n0 < 2 ^ 64 - 8) (statics : list Z).
Abbreviation N := (c_native (C:=C) n0).

Definition all_heads (ks : list (C * list Z)) : list Z := mjoin (heads <$> ks.*1).
Definition all_arrays (ks : list (C * list Z)) : list Z := omap array ks.*1.
Definition all_bufs (ks : list (C * list Z)) (outs : list (Z * Z)) : list Z := mjoin ks.*2 ++ outs.*1.

(** The caches [ks] hold what they should, [outs] are with the callers, and no
    other block is live. *)
Record sep (w : world) (ks : list (C * list Z)) (outs : list (Z * Z)) : Prop := Sep {
  sep_rep : forall k, k ∈ ks -> rep w k.1 k.2 /\ Forall (fun b => hdr w b N) k.2;
  sep_outs : forall o, o ∈ outs -> hdr w o.1 o.2;
  sep_bufs : NoDup (all_bufs ks outs);
  sep_heads : NoDup (all_heads ks) /\ forall h, h ∈ all_heads ks -> h ∈ statics;
  sep_static : forall h, h ∈ statics -> is_Some (nodes w !! h) /\ blocks w !! (h - 8) = None;
  sep_arrays : NoDup (all_arrays ks) /\ forall a, a ∈ all_arrays ks -> exists n, blocks w !! a = Some (Block n None);
  sep_live : forall b, is_Some (blocks w !! b) -> 0 < b /\ (b ∈ all_arrays ks \/ b + 8 ∈ all_bufs ks outs);
  sep_nodes : nodes_ok w
}.

Lemma all_bufs_perm ks ks' outs outs' : ks ≡ₚ ks' -> outs ≡ₚ outs' -> all_bufs ks outs ≡ₚ all_bufs ks' outs'.
Proof. intros E E'. unfold all_bufs. by rewrite E, E'. Qed.
Lemma all_bufs_cons c bs ks outs : all_bufs ((c, bs) :: ks) outs ≡ₚ (bs ++ outs.*1) ++ mjoin ks.*2.
Proof. unfold all_bufs. change (mjoin ((c, bs) :: ks).*2) with (bs ++ mjoin ks.*2). rewrite <- !app_assoc. f_equiv. apply Permutation_app_comm. Qed.
Lemma sep_perm w ks ks' outs outs' : ks ≡ₚ ks' -> outs ≡ₚ outs' -> sep w ks outs -> sep w ks' outs'.
Proof.
  intros E E' [H1 H2 H3 H4 H5 H6 H7 H8].
  assert (all_heads ks ≡ₚ all_heads ks') as Eh by (unfold all_heads; by rewrite E).
  assert (all_arrays ks ≡ₚ all_arrays ks') as Ea by (unfold all_arrays; by rewrite E).
  pose proof (all_bufs_perm _ _ _ _ E E') as Eb. split; try done.
  - intros k Hk. apply H1. by rewrite E.
  - intros o Ho. apply H2. by rewrite E'.
  - by rewrite <- Eb.
  - by setoid_rewrite <- Eh.
  - by setoid_rewrite <- Ea.
  - intros b Hb. rewrite <- Ea, <- Eb. auto.
Qed.

Lemma sep_buf_live w ks outs b : sep w ks outs -> b ∈ all_bufs ks outs -> exists s, hdr w b s.
Proof.
  intros S [Hb|Hb]%elem_of_app.
  - apply list_elem_of_join in Hb as (bs & Hb & ([c l] & -> & Hk)%list_elem_of_fmap). destruct (sep_rep _ _ _ S _ Hk) as [_ Hf].
    rewrite list.Forall_forall in Hf. eauto.
  - apply list_elem_of_fmap in Hb as (o & -> & Ho). exists o.2. by apply (sep_outs _ _ _ S).
Qed.
(** Heads are no buffers. *)
Lemma sep_static_buf w ks outs h : sep w ks outs -> h ∈ statics -> h ∉ all_bufs ks outs.
Proof. intros S Hh Hb. destruct (sep_buf_live _ _ _ _ S Hb) as [s Hs]. destruct (sep_static _ _ _ S h Hh) as [_ E]. unfold hdr in Hs. congruence. Qed.
Lemma sep_head_static w ks outs k h : sep w ks outs -> k ∈ ks -> h ∈ heads k.1 -> h ∈ statics.
Proof.
  intros S Hk Hh. apply (sep_heads _ _ _ S). apply list_elem_of_join. exists (heads k.1). split; [done|].
  apply list_elem_of_fmap_2, list_elem_of_fmap_2, Hk.
Qed.
Lemma sep_cached ks outs k b : k ∈ ks -> b ∈ k.2 -> b ∈ all_bufs ks outs.
Proof. intros Hk Hb. apply elem_of_app. left. apply list_elem_of_join. exists k.2. split; [done|]. by apply list_elem_of_fmap_2. Qed.
(** The links that belong to a cache are those of no other. *)
Lemma sep_foot w c bs ks outs k q : sep w ((c, bs) :: ks) outs -> k ∈ ks -> q ∈ heads k.1 ++ k.2 -> q ∉ heads c ++ bs ++ outs.*1.
Proof.
  intros S Hk Hq Hin. assert (k ∈ (c, bs) :: ks) as Hk' by by right. pose proof (sep_bufs _ _ _ S) as Hnd.
  assert (Hks : forall b, b ∈ k.2 -> b ∈ mjoin ks.*2) by (intros b Hb; apply list_elem_of_join; exists k.2; split; [done|by apply list_elem_of_fmap_2]).
  assert (Hcs : forall b, b ∈ bs ++ outs.*1 -> b ∈ all_bufs ((c, bs) :: ks) outs) by (intros b; unfold all_bufs; simpl; rewrite !elem_of_app; tauto).
  apply elem_of_app in Hq as [Hq|Hq].
  - pose proof (sep_head_static _ _ _ _ _ S Hk' Hq) as Hs. apply elem_of_app in Hin as [Hin|Hin].
    + destruct (sep_heads _ _ _ S) as [Hh _]. unfold all_heads in Hh. simpl in Hh. apply list.NoDup_app in Hh as (_ & Hd & _). apply (Hd q Hin).
      apply list_elem_of_join. exists (heads k.1). split; [done|]. by apply list_elem_of_fmap_2, list_elem_of_fmap_2.
    + by apply (sep_static_buf _ _ _ q S Hs), Hcs.
  - apply elem_of_app in Hin as [Hin|Hin].
    + pose proof (sep_head_static _ _ _ (c, bs) q S ltac:(by left) Hin) as Hs. apply (sep_static_buf _ _ _ q S Hs).
      by apply (sep_cached _ _ k).
    + unfold all_bufs in Hnd. simpl in Hnd. rewrite <- app_assoc in Hnd. apply list.NoDup_app in Hnd as (_ & Hd1 & Hd2).
      apply list.NoDup_app in Hd2 as (_ & Hd2 & _). apply elem_of_app in Hin as [Hin|Hin]; [apply (Hd1 q Hin), elem_of_app; left; auto|by apply (Hd2 q (Hks q Hq))].
Qed.

(** A change of one cache and of what the callers have. *)
Lemma sep_update w w' c c' bs bs' ks outs outs' :
  sep w ((c, bs) :: ks) outs -> touches w w' (heads c ++ bs ++ outs.*1) -> rep w' c' bs' -> same_cache c c' ->
  bs' ++ outs'.*1 ≡ₚ bs ++ outs.*1 -> Forall (fun b => hdr w b N) bs' -> Forall (fun o => hdr w o.1 o.2) outs' ->
  sep w' ((c', bs') :: ks) outs'.
Proof.
  intros S (Eb & Hsame & Hdom) Hrep (Hh & Ha & Hc) Ep Hbs Houts. rewrite list.Forall_forall in Hbs. rewrite list.Forall_forall in Houts.
  assert (Hhdr : forall b s, hdr w b s -> hdr w' b s) by (unfold hdr; by rewrite Eb).
  assert (all_heads ((c', bs') :: ks) = all_heads ((c, bs) :: ks)) as Eh by (unfold all_heads; simpl; by rewrite Hh).
  assert (all_arrays ((c', bs') :: ks) = all_arrays ((c, bs) :: ks)) as Ea by (unfold all_arrays; simpl; by rewrite Ha).
  assert (all_bufs ((c', bs') :: ks) outs' ≡ₚ all_bufs ((c, bs) :: ks) outs) as Ebu.
  { by rewrite !all_bufs_cons, Ep. }
  pose proof S as [H1 H2 H3 H4 H5 H6 H7 H8]. split.
  - intros k [->|Hk]%elem_of_cons.
    + split; [done|]. apply list.Forall_forall. auto.
    + destruct (H1 k ltac:(by right)) as [Hr Hf]. split; [|by eapply list.Forall_impl; [exact Hf|auto]].
      apply (rep_frame w); [done|]. intros q Hq. apply Hsame. by apply (sep_foot w c bs ks outs k).
  - auto.
  - by rewrite Ebu.
  - by rewrite Eh.
  - intros h Hs. rewrite Eb. destruct (H5 h Hs). auto.
  - rewrite Ea, Eb. done.
  - intros b. rewrite Eb, Ea, Ebu. apply H7.
  - intros b blk. rewrite Eb. intros E Hl. apply Hdom. by eapply H8.
Qed.

Lemma touches_weaken w w' qs qs' : touches w w' qs -> (forall q, q ∈ qs -> q ∈ qs') -> touches w w' qs'.
Proof. intros (E & Hs & Hd) Hq. split; [done|]. split; [|done]. intros q Hin. apply Hs. auto. Qed.

Lemma sep_took w c bs ks outs r : sep w ((c, bs) :: ks) outs -> took w c bs r ->
  exists w' c' e bs', r = Ret (w', c', e) /\ sep w' ((c', bs') :: ks) ((e + c_offset (C:=C), N) :: outs) /\
    same_cache c c' /\ length bs = S (length bs').
Proof.
  intros S (w' & c' & e & bs' & -> & Ep & Hrep & Hsc & Ht). exists w', c', e, bs'. split; [done|].
  destruct (sep_rep _ _ _ S (c, bs)) as [_ Hf]; [by left|]. simpl in Hf. rewrite Ep in Hf. apply list.Forall_cons in Hf as [He Hf].
  split; [|split; [done|by rewrite Ep]]. apply (sep_update w w' c c' bs bs' ks outs); [done| |done|done| |done|].
  - eapply touches_weaken; [exact Ht|]. intros q. rewrite !elem_of_app. tauto.
  - rewrite fmap_cons. simpl. by rewrite Ep, <- Permutation_middle.
  - apply list.Forall_cons. split; [done|]. apply list.Forall_forall, (sep_outs _ _ _ S).
Qed.
Lemma sep_pop w c bs ks outs : sep w ((c, bs) :: ks) outs -> bs <> [] ->
  exists w' c' e bs', c_pop w c = Ret (w', c', e) /\ sep w' ((c', bs') :: ks) ((e + c_offset (C:=C), N) :: outs) /\
    same_cache c c' /\ length bs = S (length bs').
Proof. intros S Hne. apply (sep_took w c bs); [done|]. apply pop_ok; [|done]. apply (sep_rep _ _ _ S (c, bs)). by left. Qed.
Lemma sep_drop w c bs ks outs : sep w ((c, bs) :: ks) outs -> bs <> [] ->
  exists w' c' e bs', c_drop w c = Ret (w', c', e) /\ sep w' ((c', bs') :: ks) ((e + c_offset (C:=C), N) :: outs) /\
    same_cache c c' /\ length bs = S (length bs').
Proof. intros S Hne. apply (sep_took w c bs); [done|]. apply drop_ok; [|done]. apply (sep_rep _ _ _ S (c, bs)). by left. Qed.

Lemma sep_push w c bs ks outs b : sep w ((c, bs) :: ks) ((b, N) :: outs) -> room c ->
  exists w' c' bs', c_push w c (b - c_offset (C:=C)) = Ret (w', c') /\ sep w' ((c', bs') :: ks) outs /\ same_cache c c' /\ length bs' = S (length bs).
Proof.
  intros S Hroom. destruct (sep_rep _ _ _ S (c, bs)) as [Hrep Hf]; [by left|]. simpl in Hrep, Hf.
  pose proof (sep_outs _ _ _ S (b, N) ltac:(by left)) as Hb. simpl in Hb. pose proof (sep_bufs _ _ _ S) as Hnd. unfold all_bufs in Hnd. simpl in Hnd.
  destruct (push_ok w c bs b n0 Hrep Hroom) as (w' & c' & E & (bs' & Ep & Hrep') & Hsc & Ht); [|apply S|apply Hn0|done|].
  { intros [Hin|Hin]%elem_of_app.
    - apply (sep_static_buf _ _ _ b S); [by apply (sep_head_static _ _ _ (c, bs) b S); [left|]|]. unfold all_bufs. rewrite elem_of_app. right. by left.
    - rewrite <- app_assoc in Hnd. apply list.NoDup_app in Hnd as (_ & Hd & _). apply (Hd b Hin). rewrite elem_of_app. right. by left. }
  exists w', c', bs'. split; [done|]. split; [|split; [done|by rewrite Ep]].
  apply (sep_update w w' c c' bs bs' ks ((b, N) :: outs)); [done| |done|done| | |].
  - eapply touches_weaken; [exact Ht|]. intros q. rewrite elem_of_cons, !elem_of_app. simpl. rewrite elem_of_cons. tauto.
  - rewrite Ep. simpl. by rewrite Permutation_middle.
  - rewrite Ep. by apply list.Forall_cons.
  - apply list.Forall_forall. intros o Ho. apply (sep_outs _ _ _ S). by right.
Qed.

(** ** Blocks from the C library and back *)

(** A world that differs in one block, with its node. *)
Lemma rep_elsewhere w w' ks outs p : sep w ks outs -> (forall q, q <> p + 8 -> nodes w' !! q = nodes w !! q) ->
  p + 8 ∉ all_bufs ks [] -> p + 8 ∉ statics -> forall k, k ∈ ks -> rep w' k.1 k.2.
Proof.
  intros S Hn Hb Hs k Hk. apply (rep_frame w); [by apply (sep_rep _ _ _ S)|]. intros q Hq. apply Hn. intros ->.
  apply elem_of_app in Hq as [Hq|Hq]; [by apply Hs, (sep_head_static _ _ _ k _ S)|]. by apply Hb, (sep_cached ks [] k).
Qed.
Lemma all_bufs_snd ks outs b : b ∈ all_bufs ks [] -> b ∈ all_bufs ks outs.
Proof. unfold all_bufs. rewrite app_nil_r, elem_of_app. tauto. Qed.

(** What stays when the C library gives out a block. *)
Lemma sep_new w ks outs n p nd h : sep w ks outs -> choose w n = Some (p, nd) ->
  let w' := World (<[p := Block n h]> (blocks w)) (if 24 <=? n then <[p + 8 := nd]> (nodes w) else nodes w) in
  (0 < p /\ p + 8 ∉ all_bufs ks outs /\ p ∉ all_arrays ks) /\
  (forall k, k ∈ ks -> rep w' k.1 k.2 /\ Forall (fun b => hdr w' b N) k.2) /\
  (forall o, o ∈ outs -> hdr w' o.1 o.2) /\
  (forall h, h ∈ statics -> is_Some (nodes w' !! h) /\ blocks w' !! (h - 8) = None) /\
  (forall a, a ∈ all_arrays ks -> exists n, blocks w' !! a = Some (Block n None)) /\
  (forall b, is_Some (blocks w' !! b) -> b = p \/ 0 < b /\ (b ∈ all_arrays ks \/ b + 8 ∈ all_bufs ks outs)) /\
  nodes_ok w'.
Proof.
  intros S E w'. destruct (Hmalloc _ _ _ _ E) as (Hp & Hbl & Hnd).
  assert (Hh : forall b s, hdr w b s -> hdr w' b s).
  { intros b s Hb. unfold hdr, w' in *. simpl. rewrite lookup_insert_ne; [done|]. intros ->. congruence. }
  assert (Hfresh : p + 8 ∉ all_bufs ks outs).
  { intros Hin. destruct (sep_buf_live _ _ _ _ S Hin) as [s Hx]. unfold hdr in Hx. replace (p + 8 - 8) with p in Hx by lia. congruence. }
  assert (Hst : p + 8 ∉ statics).
  { intros Hin. destruct (sep_static _ _ _ S _ Hin) as [[? Hx] _]. congruence. }
  assert (Hnodes : forall q, q <> p + 8 -> nodes w' !! q = nodes w !! q).
  { intros q Hq. unfold w'. simpl. case_match; [|done]. by rewrite lookup_insert_ne. }
  pose proof S as [H1 H2 H3 H4 H5 H6 H7 H8]. destruct H6 as [Hna Ha].
  split; [split; [done|]; split; [done|]; intros Hin; destruct (Ha p Hin); congruence|]. split_and!.
  - intros k Hk. split; [|destruct (H1 k Hk) as [_ Hf]; by eapply list.Forall_impl; [exact Hf|auto]].
    apply (rep_elsewhere w w' ks outs p S); [done| |done|done]. intros Hin. by apply Hfresh, all_bufs_snd.
  - auto.
  - intros x Hxs. destruct (H5 x Hxs) as [Hx Hy]. assert (x <> p + 8) as Hne by (intros ->; done). rewrite Hnodes by done. split; [done|].
    unfold w'. simpl. rewrite lookup_insert_ne by lia. done.
  - intros a Hin. destruct (Ha a Hin) as [m Hx]. exists m. unfold w'. simpl. rewrite lookup_insert_ne; [done|]. intros ->. congruence.
  - intros b Hb. unfold w' in Hb. simpl in Hb. destruct (decide (b = p)) as [->|Hne]; [by left|]. right. rewrite lookup_insert_ne in Hb by done. auto.
  - intros b blk. unfold w'. simpl. destruct (decide (b = p)) as [->|Hne].
    + rewrite lookup_insert_eq. intros [= <-] Hl. simpl in Hl. rewrite (proj2 (Z.leb_le _ _)) by done. by rewrite lookup_insert_eq.
    + rewrite lookup_insert_ne by done. intros Hx Hl. case_match; [|by eapply H8]. rewrite lookup_insert_ne by lia. by eapply H8.
Qed.

Lemma sep_fresh w ks outs size : sep w ks outs -> 0 <= size < 2 ^ 64 - 8 ->
  exists w' p, fresh_block choose w size = Ret (w', p) /\
    ((p = 0 /\ sep w' ks outs /\ refuses choose) \/ (p <> 0 /\ sep w' ks ((p, size) :: outs))).
Proof.
  intros S Hs. unfold fresh_block, malloc. rewrite u64_small by lia. destruct (choose w (size + 8)) as [[p nd]|] eqn:E.
  2: { exists w, 0. split; [done|]. left. split; [done|]. split; [done|]. by exists w, (size + 8). }
  destruct (sep_new w ks outs _ p nd (Some size) S E) as ((Hp & Hf & _) & H1 & H2 & H5 & H6 & H7 & H8). rewrite (proj2 (Z.eqb_neq p 0)) by lia.
  unfold put_size. cbn [blocks nodes]. rewrite lookup_insert_eq. cbn [of_option mbind outcome_bind b_bytes]. rewrite (proj2 (Z.ltb_ge _ _)) by lia.
  rewrite insert_insert_eq. eexists _, _. split; [done|]. right. split; [lia|]. split; [done| | |apply S|done|split; [apply S|done]| |done].
  - intros o [->|Ho]%elem_of_cons; [|auto]. unfold hdr. simpl. replace (p + 8 - 8) with p by lia. by rewrite lookup_insert_eq.
  - unfold all_bufs. rewrite fmap_cons, <- Permutation_middle. apply list.NoDup_cons. split; [done|apply S].
  - intros b Hb. unfold all_bufs. rewrite fmap_cons, <- Permutation_middle, elem_of_cons.
    destruct (H7 b Hb) as [->|[? [?|?]]]; [split; [done|]; right; by left|tauto|]. split; [done|]. right. by right.
Qed.

(** The world after a block is freed. *)
Definition freed (w : world) (p : Z) : world := World (delete p (blocks w)) (delete (p + 8) (nodes w)).
Lemma free_live w p : 0 < p -> is_Some (blocks w !! p) -> free w p = Ret (freed w p).
Proof. intros Hp [b Hb]. unfold free. rewrite (proj2 (Z.eqb_neq p 0)) by lia. by rewrite Hb. Qed.

Lemma sep_freed w ks ks' outs outs' p : sep w ks outs -> is_Some (blocks w !! p) -> p ∉ all_arrays ks' -> p + 8 ∉ all_bufs ks' outs' ->
  (forall k, k ∈ ks' -> k ∈ ks) -> (forall o, o ∈ outs' -> o ∈ outs) -> NoDup (all_bufs ks' outs') -> NoDup (all_heads ks') -> NoDup (all_arrays ks') ->
  (forall b, b <> p -> b ∈ all_arrays ks \/ b + 8 ∈ all_bufs ks outs -> b ∈ all_arrays ks' \/ b + 8 ∈ all_bufs ks' outs') ->
  sep (freed w p) ks' outs'.
Proof.
  intros S Hlive Hpa Hpb Hks Hos Hnb Hnh Hna Hl. pose proof S as [H1 H2 H3 H4 H5 H6 H7 H8].
  assert (Hst : forall h, h ∈ statics -> h <> p + 8).
  { intros h Hh ->. destruct (H5 _ Hh) as [_ Hx]. replace (p + 8 - 8) with p in Hx by lia. rewrite Hx in Hlive. by destruct Hlive. }
  assert (Hh : forall b s, b <> p + 8 -> hdr w b s -> hdr (freed w p) b s).
  { intros b s Hne Hb. unfold hdr, freed in *. simpl. rewrite lookup_delete_ne by lia. done. }
  assert (Hsub : forall h, h ∈ all_heads ks' -> h ∈ all_heads ks).
  { intros h (hs & Hin & (c & -> & (k & -> & Hk)%list_elem_of_fmap)%list_elem_of_fmap)%list_elem_of_join. apply list_elem_of_join. exists (heads k.1). split; [done|].
    apply list_elem_of_fmap_2, list_elem_of_fmap_2. auto. }
  assert (Hsuba : forall a, a ∈ all_arrays ks' -> a ∈ all_arrays ks).
  { intros a (c & (k & -> & Hk)%list_elem_of_fmap & E)%list_elem_of_omap. apply list_elem_of_omap. exists k.1. split; [|done]. apply list_elem_of_fmap_2. auto. }
  split.
  - intros k Hk. destruct (H1 k (Hks k Hk)) as [Hr Hf]. split.
    + apply (rep_frame w); [done|]. intros q Hq. unfold freed. simpl. apply lookup_delete_ne. intros <-. apply elem_of_app in Hq as [Hq|Hq].
      * apply (Hst (p + 8)); [|done]. apply (sep_head_static _ _ _ k _ S); [auto|done].
      * apply Hpb. by apply (sep_cached ks' outs' k).
    + apply list.Forall_forall. intros b Hb. rewrite list.Forall_forall in Hf. apply Hh; [|auto]. intros ->. apply Hpb. by apply (sep_cached ks' outs' k).
  - intros o Ho. apply Hh; [|auto]. intros E. apply Hpb. unfold all_bufs. apply elem_of_app. right. rewrite <- E. by apply list_elem_of_fmap_2.
  - done.
  - split; [done|]. intros h Hin. apply H4. auto.
  - intros h Hhs. destruct (H5 h Hhs) as [Hx Hy]. specialize (Hst h Hhs). unfold freed. simpl. rewrite lookup_delete_ne by done. split; [done|].
    apply lookup_delete_None. by right.
  - split; [done|]. intros a Ha. destruct H6 as [_ H6]. destruct (H6 a (Hsuba a Ha)) as [n Hx]. exists n. unfold freed. simpl. rewrite lookup_delete_ne; [done|]. by intros <-.
  - intros b Hb. unfold freed in Hb. simpl in Hb. destruct (decide (b = p)) as [->|Hne]; [rewrite lookup_delete_eq in Hb; by destruct Hb|].
    rewrite lookup_delete_ne in Hb by done. destruct (H7 b Hb) as [? ?]. auto.
  - intros b blk. unfold freed. simpl. intros (Hne & Hx)%lookup_delete_Some Hlen. rewrite lookup_delete_ne by lia. by eapply H8.
Qed.

(** A block that a caller gives back to the C library. *)
Lemma sep_free w ks outs b s : sep w ks ((b, s) :: outs) -> exists w', free w (alloc_allocated_block b) = Ret w' /\ sep w' ks outs.
Proof.
  intros S. pose proof (sep_outs _ _ _ S (b, s) ltac:(by left)) as Hb. unfold hdr in Hb. simpl in Hb. unfold alloc_allocated_block.
  assert (is_Some (blocks w !! (b - 8))) as Hl by eauto. destruct (sep_live _ _ _ S _ Hl) as [Hpos _].
  rewrite free_live by done. eexists. split; [done|]. pose proof (sep_bufs _ _ _ S) as Hnd. unfold all_bufs in Hnd. rewrite fmap_cons, <- Permutation_middle in Hnd.
  apply list.NoDup_cons in Hnd as [Hni Hnd]. simpl in Hni.
  apply (sep_freed w ks ks ((b, s) :: outs)); [done|done| | |done|by right|done|apply S|apply S|].
  - intros Ha. destruct (sep_arrays _ _ _ S) as [_ HA]. destruct (HA _ Ha) as [n Hx]. congruence.
  - by replace (b - 8 + 8) with b by lia.
  - intros b' Hne [?|Hin]; [by left|]. right. unfold all_bufs in Hin. rewrite fmap_cons, <- Permutation_middle, elem_of_cons in Hin. destruct Hin as [Hin|?]; [|done]. simpl in Hin. lia.
Qed.

(** The cache of an object that ends. *)
Lemma sep_release w c ks outs : sep w ((c, []) :: ks) outs -> exists w', c_release w c = Ret w' /\ sep w' ks outs.
Proof.
  intros S. rewrite release_ok. pose proof S as [H1 H2 H3 H4 H5 H6 H7 H8]. unfold all_heads in H4. simpl in H4. destruct H4 as [H4 H4'].
  apply list.NoDup_app in H4 as (_ & _ & H4). unfold all_arrays in H6, H7. simpl in H6, H7. destruct H6 as [H6 H6']. destruct (array c) as [a|] eqn:Ea.
  - assert (is_Some (blocks w !! a)) as Hl by (destruct (H6' a) as [n Hn]; [by left|eauto]). destruct (H7 a Hl) as [Hpos _].
    apply list.NoDup_cons in H6 as [Hna H6]. rewrite free_live by done. eexists. split; [done|].
    apply (sep_freed w ((c, []) :: ks) ks outs); [done|done|done| |by right|done|done|done|done|].
    + intros Hin. destruct (sep_buf_live _ _ _ (a + 8) S Hin) as [s Hs]. unfold hdr in Hs. replace (a + 8 - 8) with a in Hs by lia. destruct (H6' a) as [n Hn]; [by left|congruence].
    + intros b Hne. unfold all_arrays. simpl. rewrite Ea, elem_of_cons. intros [[?|?]|?]; [done|by left|by right].
  - exists w. split; [done|]. split; try done.
    + intros k Hk. apply H1. by right.
    + split; [done|]. intros h Hh. apply H4'. apply elem_of_app. by right.
Qed.

Lemma sep_init w ks outs self cap : sep w ks outs -> self ∈ statics -> self ∉ all_heads ks -> 0 <= cap < 2 ^ 60 ->
  exists w' oc, c_init choose w self cap = Ret (w', oc) /\
    match oc with None => sep w' ks outs /\ refuses choose | Some c => sep w' ((c, []) :: ks) outs /\ c_capacity c = cap /\ forall h, h ∈ heads c -> h = self end.
Proof.
  intros S Hs Hni Hcap. destruct (sep_static _ _ _ S self Hs) as [Hd _]. destruct (init_ok choose w self cap Hmalloc Hcap Hd) as (w' & oc & -> & Ho).
  eexists _, _. split; [done|]. destruct oc as [c|]; [|by destruct Ho as [-> ?]]. destruct Ho as (Hrep & Hc & Hh & Ha).
  split; [|split; [done|]; intros h Hin; destruct Hh as [Hh|Hh]; rewrite Hh in Hin; [by apply elem_of_nil in Hin|by apply list_elem_of_singleton in Hin]].
  assert (NoDup (all_heads ((c, []) :: ks)) /\ forall h, h ∈ all_heads ((c, []) :: ks) -> h ∈ statics) as Hheads.
  { destruct (sep_heads _ _ _ S) as [Hn Hsub]. unfold all_heads. simpl. destruct Hh as [-> | ->]; simpl; [by split|].
    split; [by apply list.NoDup_cons|]. intros h [->|?]%elem_of_cons; auto. }
  destruct (array c) as [a|] eqn:Ea.
  - destruct Ha as (n & nd & E & ->). destruct (sep_new w ks outs n a nd None S E) as ((Hp & Hf & Hna) & H1 & H2 & H5 & H6 & H7 & H8).
    unfold malloc in *. rewrite E in *. cbn [fst] in *. split; [| done |apply S|done|done| | |done].
    + intros k [->|Hk]%elem_of_cons; [by split|auto].
    + unfold all_arrays. simpl. rewrite Ea. split; [apply list.NoDup_cons; split; [done|apply S]|]. intros x [->|Hx]%elem_of_cons; [|auto].
      exists n. simpl. by rewrite lookup_insert_eq.
    + intros b Hb. unfold all_arrays. simpl. rewrite Ea, elem_of_cons. destruct (H7 b Hb) as [->|[? [?|?]]]; tauto.
  - destruct Ha as (Eb & Hsame & Hdom). pose proof S as [H1 H2 H3 H4 H5 H6 H7 H8]. split; [| |done|done| | | |].
    + intros k [->|Hk]%elem_of_cons; [by split|]. destruct (H1 k Hk) as [Hr Hf]. split; [|by unfold hdr; rewrite Eb]. apply (rep_frame w); [done|].
      intros q Hq. apply Hsame. rewrite list_elem_of_singleton. intros ->. apply elem_of_app in Hq as [Hq|Hq].
      * apply Hni. apply list_elem_of_join. exists (heads k.1). split; [done|]. by apply list_elem_of_fmap_2, list_elem_of_fmap_2.
      * apply (sep_static_buf _ _ _ self S Hs). by apply (sep_cached ks outs k).
    + unfold hdr. by rewrite Eb.
    + rewrite Eb. intros h Hhs. destruct (H5 h Hhs). auto.
    + unfold all_arrays. simpl. by rewrite Ea, Eb.
    + unfold all_arrays. simpl. by rewrite Ea, Eb.
    + intros b blk. rewrite Eb. intros Hx Hl. apply Hdom. by eapply H8.
Qed.
End accounting.
