(* ===== verification/SlabAllocRun.v ===== *)
(** The functions of the slab allocators, each call from its beginning to its end,
    keep the account of [SlabAllocSpec]; the objects of a process begin and end
    with it; and one thread on its own. *)
From stdpp Require Import relations.
From S2P Require Import Prelude LinkedList SlabAlloc SlabAllocSpec.

Section functions.
Context {C : Type} `{CacheLaws C} (choose : chooser) (Hmalloc : malloc_ok choose).
Context (n0 : Z) (Hn0 : 0 <= n0 /\ 0 <= c_native (C:=C) n0 < 2 ^ 64 - 8) (statics : list Z).
Abbreviation N := (c_native (C:=C) n0).
Abbreviation sep := (sep (C:=C) n0 statics).

Lemma sep_rep_head w c bs ks outs : sep w ((c, bs) :: ks) outs -> rep w c bs.
Proof. intros S. apply (sep_rep _ _ _ _ _ S (c, bs)). by left. Qed.
Lemma sep_swap w k1 k2 ks outs : sep w (k1 :: k2 :: ks) outs -> sep w (k2 :: k1 :: ks) outs.
Proof. apply sep_perm; [apply perm_swap|done]. Qed.
Lemma native_ok : 0 <= n0.
Proof. apply Hn0. Qed.

(** ** Between the caches *)

(** The caches of all threads and of one of them, after some moves. *)
Definition both (cg cl : Z) (ks : list (C * list Z)) (outs : list (Z * Z)) (s : world * C * C) : Prop :=
  let '(w, g, l) := s in exists bg bl, sep w ((g, bg) :: (l, bl) :: ks) outs /\ c_capacity g = cg /\ c_capacity l = cl.

Lemma move_entry_ok w a ba b bb ks outs : sep w ((a, ba) :: (b, bb) :: ks) outs -> ba <> [] -> room b ->
  exists w1 a' e w2 b' ba' bb', c_pop w a = Ret (w1, a', e) /\ c_push w1 b e = Ret (w2, b') /\ sep w2 ((a', ba') :: (b', bb') :: ks) outs /\
    c_capacity a' = c_capacity a /\ c_capacity b' = c_capacity b /\ length ba = S (length ba') /\ length bb' = S (length bb).
Proof.
  intros S Hne Hroom. destruct (sep_pop n0 Hn0 statics w a ba _ _ S Hne) as (w1 & a' & e & ba' & E1 & S1 & (_ & _ & Hca) & Hla).
  apply sep_swap in S1. destruct (sep_push n0 Hn0 statics w1 b bb _ _ _ S1 Hroom) as (w2 & b' & bb' & E2 & S2 & (_ & _ & Hcb) & Hlb).
  replace (e + c_offset (C:=C) - c_offset (C:=C)) with e in E2 by lia. apply sep_swap in S2. by exists w1, a', e, w2, b', ba', bb'.
Qed.
Lemma none_false w c bs : rep w c bs -> c_none c = false -> bs <> [].
Proof. intros Hr E ->. rewrite (rep_none w c [] Hr) in E. by rewrite bool_decide_true in E. Qed.
Lemma size_nonempty w c bs : rep w c bs -> 0 < c_size c -> bs <> [].
Proof. intros Hr E ->. destruct (rep_size w c [] Hr) as [Es _]. simpl in Es. lia. Qed.

Lemma fill_loop w g l cg cl ks outs : both cg cl ks outs (w, g, l) -> returns (iter (S (Z.to_nat cl)) fill_step (w, g, l)) (both cg cl ks outs).
Proof.
  intros HI. apply (iter_total fill_step (both cg cl ks outs) (fun s => Z.to_nat (cl - c_size s.2))); [|done|].
  2: { destruct HI as (bg & bl & S & _). apply sep_swap in S. destruct (rep_size w l bl (sep_rep_head _ _ _ _ _ S)). simpl. lia. }
  clear w g l HI. intros [[w g] l] (bg & bl & S & Hg & Hl). unfold fill_step.
  pose proof (sep_rep_head _ _ _ _ _ S) as Hrg. pose proof (sep_rep_head _ _ _ _ _ (sep_swap _ _ _ _ _ S)) as Hrl. destruct (rep_size w l bl Hrl) as [Hsl Hcl].
  destruct (Z.ltb_spec (c_size l) (c_capacity l / 2)) as [Hlt|Hge]; [destruct (c_none g) eqn:En|]; simpl.
  1,3: eexists; split; [done|]; by exists bg, bl.
  destruct (move_entry_ok w g bg l bl ks outs S) as (w1 & g' & e & w2 & l' & bg' & bl' & -> & E2 & S2 & Hg' & Hl' & _ & Hlen);
    [by apply (none_false w g)|by apply (rep_below_half w l bl)|]. cbn [mbind outcome_bind]. rewrite E2. cbn [mbind outcome_bind].
  eexists. split; [done|]. split; [exists bg', bl'; by rewrite Hg', Hl'|]. simpl.
  destruct (rep_size w2 l' bl' (sep_rep_head _ _ _ _ _ (sep_swap _ _ _ _ _ S2))) as [Hsl' _]. lia.
Qed.
Lemma halve_loop w g l cg cl ks outs : both cg cl ks outs (w, g, l) -> returns (iter (S (Z.to_nat (c_size l))) halve_step (w, g, l)) (both cg cl ks outs).
Proof.
  intros HI. apply (iter_total halve_step (both cg cl ks outs) (fun s => Z.to_nat (c_size s.2))); [|done|simpl; lia].
  clear w g l HI. intros [[w g] l] (bg & bl & S & Hg & Hl). unfold halve_step.
  pose proof (sep_rep_head _ _ _ _ _ S) as Hrg. pose proof (sep_rep_head _ _ _ _ _ (sep_swap _ _ _ _ _ S)) as Hrl. destruct (rep_size w l bl Hrl) as [Hsl Hcl].
  rewrite Z.gtb_ltb. destruct (Z.ltb_spec (c_capacity l / 2) (c_size l)) as [Hlt|Hge]; [destruct (c_full g) eqn:En|]; simpl.
  1,3: eexists; split; [done|]; by exists bg, bl.
  apply sep_swap in S. destruct (move_entry_ok w l bl g bg ks outs S) as (w1 & l' & e & w2 & g' & bl' & bg' & -> & E2 & S2 & Hl' & Hg' & Hlen & _);
    [apply (size_nonempty w l); [done|lia]|by apply (rep_not_full w g bg)|]. cbn [mbind outcome_bind]. rewrite E2. cbn [mbind outcome_bind].
  eexists. split; [done|]. destruct (rep_size w2 l' bl' (sep_rep_head _ _ _ _ _ S2)) as [Hsl' _]. split; [exists bg', bl'; apply sep_swap in S2; by rewrite Hg', Hl'|]. simpl. lia.
Qed.

(** A cache after some of its entries were freed. *)
Definition only (cl : Z) (ks : list (C * list Z)) (outs : list (Z * Z)) (s : world * C) : Prop :=
  exists bl, sep s.1 ((s.2, bl) :: ks) outs /\ c_capacity s.2 = cl.
Lemma shrink_loop w l cl ks outs : only cl ks outs (w, l) ->
  returns (iter (S (Z.to_nat (c_size l))) shrink_step (w, l)) (fun s => only cl ks outs s /\ c_size s.2 <= cl / 2).
Proof.
  intros HI. apply (iter_total shrink_step (only cl ks outs) (fun s => Z.to_nat (c_size s.2))); [|done|simpl; lia].
  clear w l HI. intros [w l] (bl & S & Hl). simpl in S, Hl. unfold shrink_step. pose proof (sep_rep_head _ _ _ _ _ S) as Hrl. destruct (rep_size w l bl Hrl) as [Hsl Hcl].
  rewrite Z.gtb_ltb. destruct (Z.ltb_spec (c_capacity l / 2) (c_size l)) as [Hlt|Hge].
  2: { eexists. split; [done|]. split; [by exists bl|]. simpl. lia. }
  destruct (sep_pop n0 Hn0 statics w l bl ks outs S) as (w1 & l' & e & bl' & -> & S1 & (_ & _ & Hc) & Hlen); [apply (size_nonempty w l); [done|lia]|].
  cbn [mbind outcome_bind]. destruct (sep_free n0 statics w1 _ _ _ _ S1) as (w2 & -> & S2). cbn [mbind outcome_bind]. eexists. split; [done|].
  destruct (rep_size w2 l' bl' (sep_rep_head _ _ _ _ _ S2)) as [Hsl' _]. split; [exists bl'; simpl; by rewrite Hc|]. simpl. lia.
Qed.
Lemma drain_loop w c ks outs bs : sep w ((c, bs) :: ks) outs -> returns (cache_free w c) (fun w' => sep w' ks outs).
Proof.
  intros S. unfold cache_free. eapply (returns_bind _ _ (fun s => exists c, s.2 = c /\ sep s.1 ((c, []) :: ks) outs)).
  - apply (iter_total drain_step (fun s => exists bs, sep s.1 ((s.2, bs) :: ks) outs) (fun s => Z.to_nat (c_size s.2))); [|by exists bs|simpl; lia].
    clear w c bs S. intros [w c] (bs & S). simpl in S. unfold drain_step. pose proof (sep_rep_head _ _ _ _ _ S) as Hr.
    rewrite (drained_ok w c bs Hr). cbn [mbind outcome_bind]. case_bool_decide as Hb; [subst bs; eexists; split; [done|]; by exists c|].
    destruct (sep_drop n0 Hn0 statics w c bs ks outs S Hb) as (w1 & c' & e & bs' & -> & S1 & _ & Hlen). cbn [mbind outcome_bind].
    destruct (sep_free n0 statics w1 _ _ _ _ S1) as (w2 & -> & S2). cbn [mbind outcome_bind]. eexists. split; [done|]. split; [by exists bs'|]. simpl.
    destruct (rep_size w c bs Hr) as [E1 _]. destruct (rep_size w2 c' bs' (sep_rep_head _ _ _ _ _ S2)) as [E2 _]. lia.
  - intros [w' c'] (c'' & Ec & S'). simpl in Ec, S'. subst c''. destruct (sep_release n0 statics w' c' ks outs S') as (w2 & E & S2). by exists w2.
Qed.

(** ** The threads *)

(** The object of all threads is unlocked, and with the object [l] of one thread
    and the caches [ks] of the others the account is right. *)
Definition pair_ok (cg cl : Z) (ks : list (C * list Z)) (outs : list (Z * Z)) (w : world) (g : global_state C) (l : local_state C) : Prop :=
  both cg cl ks outs (w, g_cache g, l_cache l) /\ g_mtx g = false /\ g_native g = N /\ l_native l = N.

Lemma alloc_fill_ok cg cl ks outs w g l : pair_ok cg cl ks outs w g l ->
  returns (alloc_fill w g l) (fun r => pair_ok cg cl ks outs r.1.1 r.1.2 r.2).
Proof.
  intros (HB & Hm & Hg & Hl). unfold alloc_fill, lock_global. rewrite Hm. cbn [mbind outcome_bind g_cache].
  assert (c_capacity (l_cache l) = cl) as -> by (destruct HB as (? & ? & ? & ? & ?); done).
  eapply returns_bind; [by apply fill_loop|]. intros [[w' gc] lc] HB'. unfold unlock_global. cbn [g_mtx mbind outcome_bind].
  eexists. split; [done|]. done.
Qed.
Lemma alloc_halve_ok cg cl ks outs w g l : cap_ok cl -> pair_ok cg cl ks outs w g l ->
  returns (alloc_halve w g l) (fun r => pair_ok cg cl ks outs r.1.1 r.1.2 r.2 /\ room (l_cache r.2)).
Proof.
  intros Hcap (HB & Hm & Hg & Hl). unfold alloc_halve, lock_global. rewrite Hm. cbn [mbind outcome_bind g_cache].
  eapply returns_bind; [by apply halve_loop|]. intros [[w' gc] lc] (bg & bl & S & Hcg & Hcl). unfold unlock_global. cbn [g_mtx mbind outcome_bind].
  apply sep_swap in S. eapply returns_bind; [apply (shrink_loop w' lc cl ((gc, bg) :: ks) outs); by exists bl|].
  intros [w2 lc2] [(bl2 & S2 & Hc2) Hsz]. simpl in S2, Hc2, Hsz. eexists. split; [done|]. split.
  - split; [exists bg, bl2; split; [by apply sep_swap|done]|done].
  - simpl. apply (rep_half w2 lc2 bl2); [by eapply sep_rep_head|by rewrite Hc2|by rewrite Hc2].
Qed.

Lemma alloc_mt_ok cg cl ks outs w g l size : 0 <= size < 2 ^ 64 - 8 -> pair_ok cg cl ks outs w g l ->
  returns (alloc_mt choose w g l size) (fun r => let '(w', g', l', p) := r in
    (p = 0 /\ pair_ok cg cl ks outs w' g' l' /\ refuses choose) \/ (p <> 0 /\ exists s, size <= s /\ pair_ok cg cl ks ((p, s) :: outs) w' g' l')).
Proof.
  assert (Hfresh : forall w g l s, size <= s -> 0 <= s < 2 ^ 64 - 8 -> pair_ok cg cl ks outs w g l ->
    returns (r ← fresh_block choose w s; Ret (r.1, g, l, r.2)) (fun r => let '(w', g', l', p) := r in
      (p = 0 /\ pair_ok cg cl ks outs w' g' l' /\ refuses choose) \/ (p <> 0 /\ exists s, size <= s /\ pair_ok cg cl ks ((p, s) :: outs) w' g' l'))).
  { clear w g l. intros w g l s Hle Hs ((bg & bl & S & Hcg & Hcl) & Hrest). destruct (sep_fresh choose Hmalloc n0 Hn0 statics w _ _ s S Hs) as (w' & p & -> & Hp).
    cbn [mbind outcome_bind]. eexists. split; [done|]. simpl. destruct Hp as [(-> & S' & Hr)|[Hp S']]; [left|right].
    - split; [done|]. split; [split; [by exists bg, bl|done]|done].
    - split; [done|]. exists s. split; [done|]. split; [by exists bg, bl|done]. }
  intros Hsize HP. pose proof HP as (_ & _ & _ & Hl). unfold alloc_mt. rewrite Z.gtb_ltb. destruct (Z.ltb_spec (l_native l) size) as [Hlt|Hge]; [by apply Hfresh|].
  eapply (returns_bind _ _ (fun r => pair_ok cg cl ks outs r.1.1 r.1.2 r.2)).
  { destruct (c_none (l_cache l)); [by apply alloc_fill_ok|by eexists]. }
  intros [[w' g'] l'] HP'. simpl in HP'. pose proof HP' as ((bg & bl & S & Hcg & Hcl) & Hm' & Hg' & Hl'). rewrite Hl in Hge |- *.
  destruct (c_none (l_cache l')) eqn:En; [by apply Hfresh; [| |done]; [|apply Hn0]|]. cbn [negb]. apply sep_swap in S.
  destruct (sep_pop n0 Hn0 statics w' _ bl _ _ S) as (w2 & lc & e & bl' & -> & S2 & (_ & _ & Hc) & _).
  { by apply (none_false w' (l_cache l')); [eapply sep_rep_head|]. }
  cbn [mbind outcome_bind]. eexists. split; [done|]. right.
  pose proof (sep_outs _ _ _ _ _ S2 (e + c_offset (C:=C), N) ltac:(by left)) as Hb. destruct (sep_live _ _ _ _ _ S2 (e + c_offset (C:=C) - 8)) as [Hpos _]; [by eexists|].
  split; [lia|]. exists N. split; [done|]. split; [exists bg, bl'; split; [by apply sep_swap|]; simpl; split; [done|by rewrite Hc]|done].
Qed.

Lemma free_mt_ok cg cl ks outs w g l p s : cap_ok cl -> pair_ok cg cl ks ((p, s) :: outs) w g l ->
  returns (free_mt w g l p) (fun r => pair_ok cg cl ks outs r.1.1 r.1.2 r.2).
Proof.
  intros Hcap HP. pose proof HP as ((bg & bl & S & Hcg & Hcl) & Hm & Hg & Hl). unfold free_mt.
  pose proof (sep_outs _ _ _ _ _ S (p, s) ltac:(by left)) as Hb. unfold hdr in Hb. simpl in Hb. destruct (sep_live _ _ _ _ _ S (p - 8)) as [Hpos _]; [by eexists|].
  rewrite (proj2 (Z.eqb_neq p 0)) by lia. unfold get_size, alloc_allocated_block. rewrite Hb. cbn [of_option mbind outcome_bind b_hdr]. rewrite Hl.
  destruct (Z.eqb_spec s N) as [->|Hne]; cbn [negb].
  - eapply (returns_bind _ _ (fun r => pair_ok cg cl ks ((p, N) :: outs) r.1.1 r.1.2 r.2 /\ room (l_cache r.2))).
    { destruct (c_full (l_cache l)) eqn:Ef; [by apply alloc_halve_ok|]. eexists. split; [done|]. split; [done|]. simpl.
      apply (rep_not_full w _ bl); [|done]. by eapply sep_rep_head, sep_swap. }
    intros [[w' g'] l'] [((bg' & bl' & S' & Hcg' & Hcl') & Hm' & Hg' & Hl') Hroom]. cbn [fst snd] in *. apply sep_swap in S'.
    destruct (sep_push n0 Hn0 statics w' _ bl' _ _ p S' Hroom) as (w2 & lc & bl2 & -> & S2 & (_ & _ & Hc) & _). cbn [mbind outcome_bind].
    eexists. split; [done|]. split; [exists bg', bl2; split; [by apply sep_swap|]; simpl; split; [done|by rewrite Hc]|done].
  - destruct (sep_free n0 statics w _ _ _ _ S) as (w' & E & S'). unfold alloc_allocated_block in E. rewrite E. cbn [mbind outcome_bind].
    eexists. split; [done|]. split; [by exists bg, bl|done].
Qed.

(** ** One thread *)
Definition st_ok (outs : list (Z * Z)) (w : world) (st : st_state C) : Prop := (exists bs, sep w [(st_cache st, bs)] outs) /\ st_native st = N.

Lemma alloc_st_ok outs w st size : 0 <= size < 2 ^ 64 - 8 -> st_ok outs w st ->
  returns (alloc_st choose w st size) (fun r => let '(w', st', p) := r in
    (p = 0 /\ st_ok outs w' st' /\ refuses choose) \/ (p <> 0 /\ exists s, size <= s /\ st_ok ((p, s) :: outs) w' st')).
Proof.
  intros Hsize [(bs & S) Hn].
  assert (Hfresh : forall s, size <= s -> 0 <= s < 2 ^ 64 - 8 ->
    returns (r ← fresh_block choose w s; Ret (r.1, st, r.2)) (fun r => let '(w', st', p) := r in
      (p = 0 /\ st_ok outs w' st' /\ refuses choose) \/ (p <> 0 /\ exists s, size <= s /\ st_ok ((p, s) :: outs) w' st'))).
  { intros s Hle Hs. destruct (sep_fresh choose Hmalloc n0 Hn0 statics w _ _ s S Hs) as (w' & p & -> & Hp).
    cbn [mbind outcome_bind]. eexists. split; [done|]. simpl. destruct Hp as [(-> & S' & Hr)|[Hp S']]; [left|right].
    - split; [done|]. split; [split; [by exists bs|done]|done].
    - split; [done|]. exists s. split; [done|]. split; [by exists bs|done]. }
  unfold alloc_st. rewrite Z.gtb_ltb, Hn. destruct (Z.ltb_spec N size) as [Hlt|Hge]; [by apply Hfresh|].
  destruct (c_none (st_cache st)) eqn:En; [apply Hfresh; [done|apply Hn0]|]. cbn [negb].
  destruct (sep_pop n0 Hn0 statics w _ bs _ _ S) as (w2 & c & e & bs' & -> & S2 & _); [by eapply none_false; [eapply sep_rep_head|]|].
  cbn [mbind outcome_bind]. eexists. split; [done|]. right.
  pose proof (sep_outs _ _ _ _ _ S2 (e + c_offset (C:=C), N) ltac:(by left)) as Hb. destruct (sep_live _ _ _ _ _ S2 (e + c_offset (C:=C) - 8)) as [Hpos _]; [by eexists|].
  split; [lia|]. exists N. split; [done|]. split; [by exists bs'|done].
Qed.
Lemma free_st_ok outs w st p s : st_ok ((p, s) :: outs) w st -> returns (free_st w st p) (fun r => st_ok outs r.1 r.2).
Proof.
  intros [(bs & S) Hn]. unfold free_st. pose proof (sep_outs _ _ _ _ _ S (p, s) ltac:(by left)) as Hb. unfold hdr in Hb. simpl in Hb.
  destruct (sep_live _ _ _ _ _ S (p - 8)) as [Hpos _]; [by eexists|]. rewrite (proj2 (Z.eqb_neq p 0)) by lia.
  unfold get_size, alloc_allocated_block. rewrite Hb. cbn [of_option mbind outcome_bind b_hdr]. rewrite Hn.
  destruct (Z.eqb_spec s N) as [->|Hne]; [destruct (c_full (st_cache st)) eqn:Ef|]; cbn [negb orb].
  2: { destruct (sep_push n0 Hn0 statics w _ bs _ _ p S) as (w2 & c & bs2 & -> & S2 & _); [by apply (rep_not_full w _ bs); [eapply sep_rep_head|]|].
       cbn [mbind outcome_bind]. eexists. split; [done|]. split; [by exists bs2|done]. }
  all: destruct (sep_free n0 statics w _ _ _ _ S) as (w' & E & S'); unfold alloc_allocated_block in E; rewrite E; cbn [mbind outcome_bind];
    eexists; (split; [done|]); (split; [by exists bs|done]).
Qed.
End functions.

(** ** The objects of the threads *)

(** A caller that asks for at most this does not make [size + sizeof(size_t)] wrap. *)
Definition size_ok (n : Z) : Prop := 0 <= n < 2 ^ 64 - 8.
(** What the callers have after a call that returned [p]. *)
Definition got (out : gmap Z Z) (p n : Z) : gmap Z Z := if p =? 0 then out else <[p := n]> out.

Section objects.
Context {C : Type} `{Cache C}.

(** The end of all objects. *)
Fixpoint free_locals (w : world) (ls : list (local_state C)) : outcome world :=
  match ls with [] => Ret w | l :: ls => w ← alloc_local_free w l; free_locals w ls end.
Definition free_all (w : world) (g : global_state C) (ls : list (local_state C)) : outcome world :=
  w ← free_locals w ls; alloc_global_free w g.

(** The beginning. *)
Fixpoint init_locals (choose : chooser) (w : world) (g : global_state C) (args : list (Z * Z)) : outcome (world * (Z + list (local_state C))) :=
  match args with
  | [] => Ret (w, inr [])
  | (self, cap) :: args =>
      r ← alloc_local_init choose w g self cap;
      match r.2 with
      | inl e => Ret (r.1, inl e)
      | inr l =>
          q ← init_locals choose r.1 g args;
          Ret (q.1, match q.2 with inl e => inl e | inr ls => inr (l :: ls) end)
      end
  end.
Definition init_all (choose : chooser) (mutex_ok : bool) (w : world) (self cap native : Z) (args : list (Z * Z)) : outcome (world * (Z + global_state C * list (local_state C))) :=
  r ← alloc_global_init choose mutex_ok w self cap native;
  match r.2 with
  | inl e => Ret (r.1, inl e)
  | inr g => q ← init_locals choose r.1 g args; Ret (q.1, match q.2 with inl e => inl e | inr ls => inr (g, ls) end)
  end.

End objects.

(** What the callers have, as a map and as a list with the sizes of the blocks. *)
Definition granted (out : gmap Z Z) (outs : list (Z * Z)) : Prop :=
  (forall p, p ∈ outs.*1 <-> is_Some (out !! p)) /\ forall p n s, out !! p = Some n -> (p, s) ∈ outs -> n <= s.

Lemma granted_got out outs p n s : granted out outs -> p ∉ outs.*1 -> p <> 0 -> n <= s -> granted (got out p n) ((p, s) :: outs).
Proof.
  intros [Hk Hs] Hp Hp0 Hle. unfold got. rewrite (proj2 (Z.eqb_neq _ _)) by done. split.
  - intros q. rewrite fmap_cons, elem_of_cons, Hk. simpl. destruct (decide (q = p)) as [->|Hne]; [rewrite lookup_insert_eq; split; [by eexists|by left]|].
    rewrite lookup_insert_ne by done. tauto.
  - intros q m s'. rewrite elem_of_cons. destruct (decide (q = p)) as [->|Hne].
    + rewrite lookup_insert_eq. intros [= <-] [[= ->]|Hin]; [done|]. by apply (list_elem_of_fmap_2 fst) in Hin.
    + rewrite lookup_insert_ne by done. intros Hq [[= -> ->]|Hin]; [done|]. by eapply Hs.
Qed.
Lemma granted_drop out outs p : granted out outs -> is_Some (out !! p) -> NoDup outs.*1 -> exists s outs', outs ≡ₚ (p, s) :: outs' /\ granted (delete p out) outs'.
Proof.
  intros [Hk Hs] Hp Hnd. apply Hk in Hp as ([q s] & Eq & Hin)%list_elem_of_fmap. simpl in Eq. subst q.
  apply elem_of_Permutation in Hin as [outs' E]. exists s, outs'. split; [done|]. rewrite E, fmap_cons in Hnd. apply list.NoDup_cons in Hnd as [Hni _]. simpl in Hni. split.
  - intros q. specialize (Hk q). rewrite E, fmap_cons, elem_of_cons in Hk. simpl in Hk. destruct (decide (q = p)) as [->|Hne].
    + rewrite lookup_delete_eq. split; [done|]. by intros [].
    + rewrite lookup_delete_ne by done. tauto.
  - intros q m s' (_ & Hq)%lookup_delete_Some Hin. apply (Hs q m s' Hq). rewrite E. by right.
Qed.
Lemma insert_picks {A} (l : list A) i x : l !! i = Some x -> exists rest, l ≡ₚ x :: rest /\ forall y, <[i := y]> l ≡ₚ y :: rest.
Proof.
  revert i. induction l as [|z l IH]; intros [|i]; try done.
  - intros [= ->]. by exists l.
  - intros E. destruct (IH i E) as (rest & E1 & E2). exists (z :: rest). split; [rewrite E1; apply perm_swap|]. intros y. simpl. rewrite (E2 y). apply perm_swap.
Qed.

Section grants.
Context {C : Type} `{CacheLaws C} (n0 : Z) (statics : list Z).

(** The block of what a caller has. *)
Lemma granted_block w ks out outs p n : sep n0 statics w (ks : list (C * list Z)) outs -> granted out outs -> out !! p = Some n ->
  0 < p - 8 /\ exists b, blocks w !! (p - 8) = Some b /\ n + 8 <= b_bytes b.
Proof.
  intros S Hgr Hp. assert (p ∈ outs.*1) as ([q s] & Eq & Hin)%list_elem_of_fmap by (apply Hgr; by eexists). simpl in Eq. subst q.
  pose proof (sep_outs _ _ _ _ _ S (p, s) Hin) as Hb. unfold hdr in Hb. simpl in Hb. destruct (sep_live _ _ _ _ _ S (p - 8)) as [Hpos _]; [by eexists|].
  split; [done|]. exists (Block (s + 8) (Some s)). split; [done|]. simpl. pose proof (proj2 Hgr p n s Hp Hin). lia.
Qed.
(** Without caches only the blocks of the callers are live. *)
Lemma granted_live w out outs : sep n0 statics w ([] : list (C * list Z)) outs -> granted out outs -> forall b, is_Some (blocks w !! b) <-> is_Some (out !! (b + 8)).
Proof.
  intros S Hgr b. rewrite <- (proj1 Hgr). split.
  - intros Hb. by destruct (sep_live _ _ _ _ _ S b Hb) as [_ [?%elem_of_nil|Hin]].
  - intros ([q s] & Eq & Hin)%list_elem_of_fmap. simpl in Eq. subst q. pose proof (sep_outs _ _ _ _ _ S _ Hin) as Hh. unfold hdr in Hh. simpl in Hh.
    replace (b + 8 - 8) with b in Hh by lia. by eexists.
Qed.
Lemma granted_empty : granted ∅ [].
Proof. split; [intros p; rewrite lookup_empty; split; [by intros ?%elem_of_nil|by intros []]|by intros ? ? ? ?]. Qed.
End grants.

Section ends.
Context {C : Type} `{CacheLaws C} (choose : chooser) (Hmalloc : malloc_ok choose).
Context (n0 : Z) (Hn0 : 0 <= n0 /\ 0 <= c_native (C:=C) n0 < 2 ^ 64 - 8) (statics : list Z).
Abbreviation N := (c_native (C:=C) n0).
Abbreviation sep := (sep (C:=C) n0 statics).

Definition local_ok (l : local_state C) : Prop := l_native l = N /\ cap_ok (c_capacity (l_cache l)).
(** No call is under way. *)
Definition quiet (w : world) (g : global_state C) (ls : list (local_state C)) (out : gmap Z Z) : Prop :=
  exists outs bg kl, granted out outs /\ sep w ((g_cache g, bg) :: kl) outs /\
    kl.*1 = l_cache <$> ls /\ g_mtx g = false /\ g_native g = N /\ Forall local_ok ls.

(** ** The end and the beginning *)
Lemma free_locals_ok ls kl : forall w k outs, kl.*1 = l_cache <$> ls -> sep w (k :: kl) outs -> returns (free_locals w ls) (fun w' => sep w' [k] outs).
Proof.
  revert kl. induction ls as [|l ls IH]; intros kl w k outs Hkl S.
  - apply fmap_nil_inv in Hkl as ->. by exists w.
  - destruct kl as [|[c bs] kl]; [done|]. simpl in Hkl. injection Hkl as -> Hkl. apply sep_swap in S.
    cbn [free_locals]. eapply returns_bind; [by eapply drain_loop|]. intros w' S'. simpl in S'. by apply (IH kl).
Qed.
Lemma quiet_end w g ls out : quiet w g ls out ->
  exists w', free_all w g ls = Ret w' /\ forall b, is_Some (blocks w' !! b) <-> is_Some (out !! (b + 8)).
Proof.
  intros (outs & bg & kl & Hgr & S & Hkl & Hm & _). simpl in *. unfold free_all.
  destruct (free_locals_ok ls kl w (g_cache g, bg) outs Hkl S) as (w1 & -> & S1). cbn [mbind outcome_bind]. unfold alloc_global_free.
  destruct (drain_loop n0 Hn0 statics w1 (g_cache g) [] outs bg S1) as (w2 & -> & S2). cbn [mbind outcome_bind]. rewrite Hm. exists w2. split; [done|].
  by eapply granted_live.
Qed.

Lemma init_locals_ok args : forall w g ks, sep w ks [] -> g_native g = N ->
  (forall a, a ∈ args -> a.1 ∈ statics /\ a.1 ∉ all_heads ks /\ 0 <= a.2 < 2 ^ 60 /\ cap_ok a.2) -> NoDup args.*1 ->
  returns (init_locals choose w g args) (fun r =>
    match r.2 with
    | inl e => e = - ENOMEM /\ refuses choose
    | inr ls => exists kl, kl.*1 = l_cache <$> ls /\ sep r.1 (kl ++ ks) [] /\ Forall local_ok ls /\ length ls = length args
    end).
Proof.
  induction args as [|[self cap] args IH]; intros w g ks S Hg Ha Hnd; cbn [init_locals].
  - eexists. split; [done|]. simpl. by exists [].
  - destruct (Ha (self, cap)) as (Hs & Hni & Hc & Hok); [by left|]. simpl in Hs, Hni, Hc, Hok. unfold alloc_local_init.
    destruct (sep_init choose Hmalloc n0 Hn0 statics w ks [] self cap S Hs Hni Hc) as (w' & [c|] & -> & Hi); cbn [mbind outcome_bind snd fst].
    2: { eexists. split; [done|]. simpl. split; [done|apply Hi]. }
    destruct Hi as (S' & Hcap & Hhd). rewrite fmap_cons in Hnd. apply list.NoDup_cons in Hnd as [Hself Hnd]. simpl in Hself.
    destruct (IH w' g ((c, []) :: ks)) as ([w2 [e|ls]] & -> & Hr); [done|done| |done| |]; cbn [mbind outcome_bind].
    { intros a Hin. destruct (Ha a) as (? & ? & ? & ?); [by right|]. split; [done|]. split; [|done]. unfold all_heads. simpl. rewrite elem_of_app. intros [Hh|?]; [|done].
      apply Hself. rewrite <- (Hhd _ Hh). by apply list_elem_of_fmap_2. }
    + eexists. split; [done|]. done.
    + simpl in Hr. destruct Hr as (kl & Hkl & S2 & Hls & Hlen). eexists. split; [done|]. simpl. exists ((c, []) :: kl). split; [by rewrite !fmap_cons, Hkl|]. split; [|split; [|by rewrite Hlen]].
      * eapply sep_perm; [|done|exact S2]. simpl. symmetry. apply Permutation_middle.
      * apply list.Forall_cons. split; [|done]. split; [done|]. simpl. by rewrite Hcap.
Qed.

(** A process that starts without blocks: the objects are at the addresses of
    [statics], where there is room for the head of a list. *)
Definition clean (w : world) (selfs : list Z) : Prop := blocks w = ∅ /\ NoDup selfs /\ forall a, a ∈ selfs -> is_Some (nodes w !! a).

Lemma clean_sep w : clean w statics -> sep w [] [].
Proof.
  intros (Hb & _ & Hs). split; rewrite ?Hb; try (by intros ? ?%elem_of_nil).
  - apply list.NoDup_nil. done.
  - split; [by apply list.NoDup_nil|]. by intros ? ?%elem_of_nil.
  - intros h Hh. split; [auto|]. by rewrite lookup_empty.
  - split; [by apply list.NoDup_nil|]. by intros ? ?%elem_of_nil.
  - intros b. rewrite lookup_empty. by intros [].
  - intros b blk. by rewrite Hb, lookup_empty.
Qed.
Lemma init_all_ok mok w self cap args : clean w statics -> statics = self :: args.*1 -> 0 <= cap < 2 ^ 60 ->
  Forall (fun a => 0 <= a.2 < 2 ^ 60 /\ cap_ok a.2) args ->
  returns (init_all choose mok w self cap n0 args) (fun r =>
    match r.2 with
    | inl e => e = - ENOMEM /\ (mok = false \/ refuses choose)
    | inr (g, ls) => quiet r.1 g ls ∅ /\ length ls = length args
    end).
Proof.
  intros Hcl Hst Hcap Hargs. pose proof (clean_sep w Hcl) as S. destruct Hcl as (_ & Hnd & _). rewrite Hst in Hnd. apply list.NoDup_cons in Hnd as [Hni Hnd].
  unfold init_all, alloc_global_init.
  destruct (sep_init choose Hmalloc n0 Hn0 statics w [] [] self cap S) as (w' & [c|] & -> & Hi); [rewrite Hst; by left|by intros ?%elem_of_nil|done| |]; cbn [mbind outcome_bind].
  2: { eexists. split; [done|]. simpl. split; [done|]. right. apply Hi. }
  destruct Hi as (S' & Hc & Hhd). destruct mok; cbn [negb].
  2: { destruct (sep_release n0 statics w' c [] [] S') as (w2 & -> & _). cbn [mbind outcome_bind]. eexists. split; [done|]. simpl. split; [done|by left]. }
  cbn [mbind outcome_bind snd fst]. eapply returns_bind.
  { apply (init_locals_ok args w' _ [(c, [])] S'); [done| |done]. intros a Ha. rewrite Hst. rewrite list.Forall_forall in Hargs. destruct (Hargs a Ha) as [? ?].
    split; [right; by apply list_elem_of_fmap_2|]. split; [|done]. unfold all_heads. simpl. rewrite app_nil_r. intros Hin. apply Hni. rewrite <- (Hhd _ Hin). by apply list_elem_of_fmap_2. }
  intros [w2 [e|ls]] Hr; simpl in Hr; eexists; (split; [done|]); simpl; [naive_solver|]. destruct Hr as (kl & Hkl & S2 & Hls & Hlen). split; [|done].
  exists [], [], kl. simpl. split; [apply granted_empty|].
  split; [|done]. eapply sep_perm; [|done|exact S2]. apply Permutation_app_comm.
Qed.
End ends.

(** ** One thread on its own *)

Section single.
Context {C : Type} `{Cache C}.
Record st_sys := StSys { u_world : world; u_st : st_state C; u_out : gmap Z Z }.

Inductive st_step (choose : chooser) : st_sys -> st_sys -> Prop :=
  | st_step_alloc w st out n w' st' p : size_ok n -> alloc_st choose w st n = Ret (w', st', p) -> st_step choose (StSys w st out) (StSys w' st' (got out p n))
  | st_step_free w st out p w' st' : p = 0 \/ is_Some (out !! p) -> free_st w st p = Ret (w', st') -> st_step choose (StSys w st out) (StSys w' st' (delete p out)).

Definition st_promise (choose : chooser) (s : st_sys) : Prop :=
  (forall n, size_ok n -> exists w st p, alloc_st choose (u_world s) (u_st s) n = Ret (w, st, p) /\ (p = 0 -> refuses choose) /\ u_out s !! p = None) /\
  (forall p, p = 0 \/ is_Some (u_out s !! p) -> exists w st, free_st (u_world s) (u_st s) p = Ret (w, st)) /\
  (forall p n, u_out s !! p = Some n -> exists b, blocks (u_world s) !! (p - 8) = Some b /\ n + 8 <= b_bytes b) /\
  (exists w, alloc_st_free (u_world s) (u_st s) = Ret w /\ forall b, is_Some (blocks w !! b) <-> is_Some (u_out s !! (b + 8))).
End single.
Arguments st_sys C : clear implicits.

Section single_promise.
Context {C : Type} `{CacheLaws C} (choose : chooser) (Hmalloc : malloc_ok choose).
Context (n0 : Z) (Hn0 : 0 <= n0 /\ 0 <= c_native (C:=C) n0 < 2 ^ 64 - 8) (statics : list Z).
Abbreviation st_ok := (st_ok (C:=C) n0 statics).

Definition st_sys_ok (s : st_sys C) : Prop := exists outs, granted (u_out s) outs /\ st_ok outs (u_world s) (u_st s).

Lemma st_nodup outs w st : st_ok outs w st -> NoDup outs.*1.
Proof. intros [(bs & S) _]. pose proof (sep_bufs _ _ _ _ _ S) as Hnd. by apply list.NoDup_app in Hnd as (_ & _ & ?). Qed.

Lemma st_sys_alloc w st out n : st_sys_ok (StSys w st out) -> size_ok n ->
  exists w' st' p, alloc_st choose w st n = Ret (w', st', p) /\ (p = 0 -> refuses choose) /\ out !! p = None /\ st_sys_ok (StSys w' st' (got out p n)).
Proof.
  intros (outs & Hgr & HS) Hn. simpl in *. destruct (alloc_st_ok choose Hmalloc n0 Hn0 statics outs w st n Hn HS) as ([[w' st'] p] & E & Hp). exists w', st', p. split; [done|].
  destruct Hp as [(-> & HS' & Hr)|(Hp0 & s & Hle & HS')].
  - split; [done|]. split; [|by exists outs]. destruct (out !! 0) eqn:E0; [|done]. destruct HS as [(bs & S) _]. destruct (granted_block _ _ _ _ _ _ _ _ S Hgr E0). lia.
  - pose proof (st_nodup _ _ _ HS') as Hnd. rewrite fmap_cons in Hnd. apply list.NoDup_cons in Hnd as [Hni _]. simpl in Hni. split; [done|]. split.
    + apply eq_None_not_Some. by rewrite <- (proj1 Hgr).
    + exists ((p, s) :: outs). split; [by apply granted_got|done].
Qed.
Lemma st_sys_free w st out p : st_sys_ok (StSys w st out) -> p = 0 \/ is_Some (out !! p) ->
  exists w' st', free_st w st p = Ret (w', st') /\ st_sys_ok (StSys w' st' (delete p out)).
Proof.
  intros (outs & Hgr & HS) Hp. simpl in *. destruct (decide (is_Some (out !! p))) as [Hs|Hno].
  - destruct (granted_drop out outs p Hgr Hs (st_nodup _ _ _ HS)) as (s & outs' & E & Hgr').
    destruct (free_st_ok n0 Hn0 statics outs' w st p s) as ([w' st'] & Ef & HS').
    { destruct HS as [(bs & S) Hn]. split; [|done]. exists bs. eapply sep_perm; [done|exact E|exact S]. }
    exists w', st'. split; [done|]. by exists outs'.
  - destruct Hp as [->|]; [|done]. exists w, st. split; [done|]. rewrite delete_id by by apply eq_None_not_Some. by exists outs.
Qed.
Lemma st_steps_ok s s' : rtc (st_step choose) s s' -> st_sys_ok s -> st_sys_ok s'.
Proof.
  induction 1 as [|s1 s2 s3 Hst _ IH]; [done|]. intros HS. apply IH. destruct Hst as [w st out n w' st' p Hn E|w st out p w' st' Hp E].
  - destruct (st_sys_alloc _ _ _ _ HS Hn) as (? & ? & ? & E' & _ & _ & ?). rewrite E in E'. by injection E' as <- <- <-.
  - destruct (st_sys_free _ _ _ _ HS Hp) as (? & ? & E' & ?). rewrite E in E'. by injection E' as <- <-.
Qed.
Lemma st_sys_promise s : st_sys_ok s -> st_promise choose s.
Proof.
  destruct s as [w st out]. intros HS. split_and!; simpl.
  - intros n Hn. destruct (st_sys_alloc _ _ _ _ HS Hn) as (w' & st' & p & ? & ? & ? & _). by exists w', st', p.
  - intros p Hp. destruct (st_sys_free _ _ _ _ HS Hp) as (w' & st' & ? & _). by exists w', st'.
  - intros p n Hp. destruct HS as (outs & Hgr & (bs & S) & _). by destruct (granted_block _ _ _ _ _ _ _ _ S Hgr Hp).
  - destruct HS as (outs & Hgr & (bs & S) & _). simpl in *. unfold alloc_st_free. destruct (drain_loop n0 Hn0 statics w _ [] outs bs S) as (w2 & -> & S2). exists w2. split; [done|].
    by eapply granted_live.
Qed.
Lemma alloc_st_init_ok w self cap : clean w statics -> self ∈ statics -> 0 <= cap < 2 ^ 60 ->
  returns (alloc_st_init choose w self cap n0) (fun r =>
    match r.2 with inl e => e = - ENOMEM /\ refuses choose | inr st => st_sys_ok (StSys r.1 st ∅) end).
Proof.
  intros Hcl Hst Hcap. unfold alloc_st_init.
  destruct (sep_init choose Hmalloc n0 Hn0 statics w [] [] self cap) as (w' & [c|] & -> & Hi); [by apply clean_sep|done|by intros ?%elem_of_nil|done| |];
    cbn [mbind outcome_bind]; (eexists; split; [done|]); simpl; [|split; [done|apply Hi]].
  exists []. split; [apply granted_empty|]. split; [|done]. exists []. apply Hi.
Qed.
End single_promise.
