(* ===== verification/SlabAllocThreads.v ===== *)
(** The slab allocators with threads that run at the same time: the calls of
    [SlabAlloc] cut into steps, any interleaving of the steps of all threads, and
    what the mutex of the common cache is for. *)
From stdpp Require Import relations.
From S2P Require Import Prelude LinkedList SlabAlloc SlabAllocSpec SlabAllocRun.

(** ** A call in steps

    A thread is between two accesses to what it shares with others: the mutex and
    the common cache.  The test of the common cache in the loops of [fill] and
    [halve], the taking of an entry and the putting of it are steps of their own:
    without the mutex another thread could empty or fill the cache in between. *)
Inductive phase :=
  | Idle
  | AllocStart (n : Z) | FillLock (n : Z) | FillTest (n : Z) | FillTake (n : Z) | FillPut (n e : Z) | FillUnlock (n : Z)
  | AllocTake (n : Z) | AllocDone (n p : Z)
  | FreeStart (p : Z) | HalveLock (p : Z) | HalveTest (p : Z) | HalveTake (p : Z) | HalvePut (p e : Z) | HalveUnlock (p : Z)
  | Shrink (p : Z) | FreePush (p : Z) | FreeDone.

(** Between lock and unlock. *)
Definition critical (pc : phase) : bool :=
  match pc with
  | FillTest _ | FillTake _ | FillPut _ _ | FillUnlock _ | HalveTest _ | HalveTake _ | HalvePut _ _ | HalveUnlock _ => true
  | _ => false
  end.
(** A call is under way. *)
Definition active (pc : phase) : bool := match pc with Idle | AllocDone _ _ | FreeDone => false | _ => true end.

Section threads.
Context {C : Type} `{Cache C} (choose : chooser).

(** A step of a thread with its object [l]. *)
Definition advance (w : world) (g : global_state C) (l : local_state C) (pc : phase) : outcome (world * global_state C * local_state C * phase) :=
  match pc with
  | Idle | AllocDone _ _ | FreeDone => Undef
  | AllocStart n =>
      if n >? l_native l then r ← fresh_block choose w n; Ret (r.1, g, l, AllocDone n r.2) else
      Ret (w, g, l, if c_none (l_cache l) then FillLock n else AllocTake n)
  | FillLock n => g ← lock_global g; Ret (w, g, l, FillTest n)
  | FillTest n =>
      Ret (w, g, l, if (c_size (l_cache l) <? c_capacity (l_cache l) / 2) && negb (c_none (g_cache g)) then FillTake n else FillUnlock n)
  | FillTake n =>
      r ← c_pop w (g_cache g); let '(w, gc, e) := (r : world * C * Z) in
      Ret (w, Global (g_mtx g) gc (g_native g), l, FillPut n e)
  | FillPut n e => r ← c_push w (l_cache l) e; Ret (r.1, g, Local r.2 (l_native l), FillTest n)
  | FillUnlock n => g ← unlock_global g; Ret (w, g, l, AllocTake n)
  | AllocTake n =>
      if negb (c_none (l_cache l)) then
        r ← c_pop w (l_cache l); let '(w, lc, e) := (r : world * C * Z) in
        Ret (w, g, Local lc (l_native l), AllocDone n (e + c_offset (C:=C)))
      else r ← fresh_block choose w (l_native l); Ret (r.1, g, l, AllocDone n r.2)
  | FreeStart p =>
      if p =? 0 then Ret (w, g, l, FreeDone) else
      size ← get_size w (alloc_allocated_block p);
      if negb (size =? l_native l) then w ← free w (alloc_allocated_block p); Ret (w, g, l, FreeDone) else
      Ret (w, g, l, if c_full (l_cache l) then HalveLock p else FreePush p)
  | HalveLock p => g ← lock_global g; Ret (w, g, l, HalveTest p)
  | HalveTest p =>
      Ret (w, g, l, if (c_size (l_cache l) >? c_capacity (l_cache l) / 2) && negb (c_full (g_cache g)) then HalveTake p else HalveUnlock p)
  | HalveTake p =>
      r ← c_pop w (l_cache l); let '(w, lc, e) := (r : world * C * Z) in
      Ret (w, g, Local lc (l_native l), HalvePut p e)
  | HalvePut p e => r ← c_push w (g_cache g) e; Ret (r.1, Global (g_mtx g) r.2 (g_native g), l, HalveTest p)
  | HalveUnlock p => g ← unlock_global g; Ret (w, g, l, Shrink p)
  | Shrink p =>
      if c_size (l_cache l) >? c_capacity (l_cache l) / 2 then
        r ← c_pop w (l_cache l); let '(w, lc, e) := (r : world * C * Z) in
        w ← free w (alloc_allocated_block (e + c_offset (C:=C)));
        Ret (w, g, Local lc (l_native l), Shrink p)
      else Ret (w, g, l, FreePush p)
  | FreePush p => r ← c_push w (l_cache l) (p - c_offset (C:=C)); Ret (r.1, g, Local r.2 (l_native l), FreeDone)
  end.

(** A thread that waits for the mutex. *)
Definition blocked (g : global_state C) (pc : phase) : bool := match pc with FillLock _ | HalveLock _ => g_mtx g | _ => false end.

(** A call that runs on its own. *)
Definition solo (s s' : world * global_state C * local_state C * phase) : Prop := let '(w, g, l, pc) := s in advance w g l pc = Ret s'.

(** A bound on the steps that a thread still has to make. *)
Definition steps_left (l : local_state C) (pc : phase) : nat :=
  let sz := Z.to_nat (c_size (l_cache l)) in
  let gap := (Z.to_nat (c_capacity (l_cache l) / 2) - sz)%nat in
  (match pc with
   | Idle | AllocDone _ _ | FreeDone => 0
   | AllocStart _ => 3 * gap + 5 | FillLock _ => 3 * gap + 4 | FillTest _ => 3 * gap + 3 | FillTake _ => 3 * gap + 2 | FillPut _ _ => 3 * gap + 1
   | FillUnlock _ => 2 | AllocTake _ => 1
   | FreeStart _ => 4 * sz + 6 | HalveLock _ => 4 * sz + 5 | HalveTest _ => 4 * sz + 4 | HalveTake _ => 4 * sz + 3 | HalvePut _ _ => 4 * sz + 5
   | HalveUnlock _ => sz + 3 | Shrink _ => sz + 2 | FreePush _ => 1
   end)%nat.

(** ** Any number of threads

    The world, the object of all threads, the threads with theirs, and what the
    callers have: the size they asked for, by address. *)
Record sys := Sys { s_world : world; s_global : global_state C; s_threads : list (local_state C * phase); s_out : gmap Z Z }.

(** A thread begins a call, makes a step of it or returns from it, or a caller
    writes to the start of its block.  What a caller frees it has no more. *)
Inductive slab_step : sys -> sys -> Prop :=
  | step_alloc w g ts out t l n : ts !! t = Some (l, Idle) -> size_ok n ->
      slab_step (Sys w g ts out) (Sys w g (<[t := (l, AllocStart n)]> ts) out)
  | step_free w g ts out t l p : ts !! t = Some (l, Idle) -> p = 0 \/ is_Some (out !! p) ->
      slab_step (Sys w g ts out) (Sys w g (<[t := (l, FreeStart p)]> ts) (delete p out))
  | step_advance w g ts out t l pc w' g' l' pc' : ts !! t = Some (l, pc) -> advance w g l pc = Ret (w', g', l', pc') ->
      slab_step (Sys w g ts out) (Sys w' g' (<[t := (l', pc')]> ts) out)
  | step_alloc_return w g ts out t l n p : ts !! t = Some (l, AllocDone n p) ->
      slab_step (Sys w g ts out) (Sys w g (<[t := (l, Idle)]> ts) (got out p n))
  | step_free_return w g ts out t l : ts !! t = Some (l, FreeDone) ->
      slab_step (Sys w g ts out) (Sys w g (<[t := (l, Idle)]> ts) out)
  | step_write w g ts out p nd : is_Some (out !! p) -> is_Some (nodes w !! p) ->
      slab_step (Sys w g ts out) (Sys (World (blocks w) (<[p := nd]> (nodes w))) g ts out).

(** ** What a system promises *)

(** The block behind [p] has room for [n] bytes. *)
Definition roomy (w : world) (p n : Z) : Prop := exists b, blocks w !! (p - 8) = Some b /\ n + 8 <= b_bytes b.

Record promise (s : sys) : Prop := {
  (** A call that does not wait makes a step, which does not go wrong and brings
      it nearer to its end. *)
  pr_step t l pc : s_threads s !! t = Some (l, pc) -> active pc = true -> blocked (s_global s) pc = false ->
    exists w g l' pc', advance (s_world s) (s_global s) l pc = Ret (w, g, l', pc') /\ (steps_left l' pc' < steps_left l pc)%nat;
  (** A call waits only for a thread that has the mutex and can make a step. *)
  pr_wait t l pc : s_threads s !! t = Some (l, pc) -> blocked (s_global s) pc = true ->
    exists t' l' pc', s_threads s !! t' = Some (l', pc') /\ critical pc' = true /\ blocked (s_global s) pc' = false;
  (** No two threads are at the common cache. *)
  pr_mutex t t' l l' pc pc' : s_threads s !! t = Some (l, pc) -> s_threads s !! t' = Some (l', pc') ->
    critical pc = true -> critical pc' = true -> t = t';
  (** The result of an allocation. *)
  pr_result t l n p : s_threads s !! t = Some (l, AllocDone n p) ->
    (p = 0 -> refuses choose) /\
    (p <> 0 -> roomy (s_world s) p n /\ s_out s !! p = None /\ forall t' l' n', s_threads s !! t' = Some (l', AllocDone n' p) -> t' = t);
  (** What the callers have. *)
  pr_room p n : s_out s !! p = Some n -> roomy (s_world s) p n;
  (** The functions, when no other thread has the mutex: the steps to the end. *)
  pr_alloc_mt t l n : s_threads s !! t = Some (l, Idle) -> g_mtx (s_global s) = false -> size_ok n ->
    exists w g l' p, alloc_mt choose (s_world s) (s_global s) l n = Ret (w, g, l', p) /\
      rtc solo (s_world s, s_global s, l, AllocStart n) (w, g, l', AllocDone n p);
  pr_free_mt t l p : s_threads s !! t = Some (l, Idle) -> g_mtx (s_global s) = false -> p = 0 \/ is_Some (s_out s !! p) ->
    exists w g l', free_mt (s_world s) (s_global s) l p = Ret (w, g, l') /\
      rtc solo (s_world s, s_global s, l, FreeStart p) (w, g, l', FreeDone);
  (** The end of all objects, when no call is under way. *)
  pr_end : Forall (fun th => th.2 = Idle) (s_threads s) ->
    exists w, free_all (s_world s) (s_global s) (s_threads s).*1 = Ret w /\ forall b, is_Some (blocks w !! b) <-> is_Some (s_out s !! (b + 8))
}.

(** ** The functions are their steps *)

Lemma solo_step w g l pc w' g' l' pc' r : advance w g l pc = Ret (w', g', l', pc') -> rtc solo (w', g', l', pc') r -> rtc solo (w, g, l, pc) r.
Proof. intros E. by apply rtc_l. Qed.

Lemma fill_solo n fuel : forall w g l w' gc lc, iter fuel fill_step (w, g_cache g, l_cache l) = Ret (w', gc, lc) ->
  rtc solo (w, g, l, FillTest n) (w', Global (g_mtx g) gc (g_native g), Local lc (l_native l), FillUnlock n).
Proof.
  induction fuel as [|fuel IH]; intros w g l w' gc lc E; [done|]. cbn [iter] in E. apply bind_Ret_inv in E as (x & Ex & E). unfold fill_step in Ex.
  eapply solo_step; [reflexivity|]. destruct ((_ <? _) && _) eqn:Et; cbn [mbind outcome_bind] in Ex; [|injection Ex as <-; injection E as <- <- <-; by destruct g, l].
  apply bind_Ret_inv in Ex as ([[w1 g1] e] & E1 & Ex). apply bind_Ret_inv in Ex as ([w2 l2] & E2 & Ex). injection Ex as <-.
  eapply solo_step; [unfold advance; rewrite E1; reflexivity|]. eapply solo_step; [unfold advance; rewrite E2; reflexivity|].
  by apply (IH w2 (Global (g_mtx g) g1 (g_native g)) (Local l2 (l_native l))) in E.
Qed.
Lemma halve_solo p fuel : forall w g l w' gc lc, iter fuel halve_step (w, g_cache g, l_cache l) = Ret (w', gc, lc) ->
  rtc solo (w, g, l, HalveTest p) (w', Global (g_mtx g) gc (g_native g), Local lc (l_native l), HalveUnlock p).
Proof.
  induction fuel as [|fuel IH]; intros w g l w' gc lc E; [done|]. cbn [iter] in E. apply bind_Ret_inv in E as (x & Ex & E). unfold halve_step in Ex.
  eapply solo_step; [reflexivity|]. destruct ((_ >? _) && _) eqn:Et; cbn [mbind outcome_bind] in Ex; [|injection Ex as <-; injection E as <- <- <-; by destruct g, l].
  apply bind_Ret_inv in Ex as ([[w1 l1] e] & E1 & Ex). apply bind_Ret_inv in Ex as ([w2 g2] & E2 & Ex). injection Ex as <-.
  eapply solo_step; [unfold advance; rewrite E1; reflexivity|]. eapply solo_step; [unfold advance; rewrite E2; reflexivity|].
  by apply (IH w2 (Global (g_mtx g) g2 (g_native g)) (Local l1 (l_native l))) in E.
Qed.
Lemma shrink_solo p fuel : forall w g l w' lc, iter fuel shrink_step (w, l_cache l) = Ret (w', lc) ->
  rtc solo (w, g, l, Shrink p) (w', g, Local lc (l_native l), FreePush p).
Proof.
  induction fuel as [|fuel IH]; intros w g l w' lc E; [done|]. cbn [iter] in E. apply bind_Ret_inv in E as (x & Ex & E). unfold shrink_step in Ex.
  destruct (_ >? _) eqn:Et; cbn [mbind outcome_bind] in Ex.
  - apply bind_Ret_inv in Ex as ([[w1 l1] e] & E1 & Ex). apply bind_Ret_inv in Ex as (w2 & E2 & Ex). injection Ex as <-.
    eapply solo_step; [unfold advance; rewrite Et, E1; cbn [mbind outcome_bind]; rewrite E2; reflexivity|].
    by apply (IH w2 g (Local l1 (l_native l))) in E.
  - injection Ex as <-. injection E as <- <-. eapply solo_step; [unfold advance; rewrite Et; reflexivity|]. by destruct l.
Qed.

Lemma alloc_mt_solo w g l n w' g' l' p : alloc_mt choose w g l n = Ret (w', g', l', p) -> rtc solo (w, g, l, AllocStart n) (w', g', l', AllocDone n p).
Proof.
  unfold alloc_mt. destruct (n >? l_native l) eqn:En.
  { intros ([w1 q] & E1 & E)%bind_Ret_inv. injection E as <- <- <- <-. eapply solo_step; [unfold advance; rewrite En, E1; reflexivity|done]. }
  assert (Htake : forall w g l, (if negb (c_none (l_cache l)) then
      r ← c_pop w (l_cache l); let '(w, lc, e) := (r : world * C * Z) in Ret (w, g, Local lc (l_native l), e + c_offset (C:=C))
    else r ← fresh_block choose w (l_native l); Ret (r.1, g, l, r.2)) = Ret (w', g', l', p) -> rtc solo (w, g, l, AllocTake n) (w', g', l', AllocDone n p)).
  { clear. intros w g l E. destruct (negb (c_none (l_cache l))) eqn:Ec.
    - apply bind_Ret_inv in E as ([[w1 l1] e] & E1 & E). injection E as <- <- <- <-. eapply solo_step; [unfold advance; rewrite Ec, E1; reflexivity|done].
    - apply bind_Ret_inv in E as ([w1 q] & E1 & E). injection E as <- <- <- <-. eapply solo_step; [unfold advance; rewrite Ec, E1; reflexivity|done]. }
  intros ([[w1 g1] l1] & E1 & E)%bind_Ret_inv. eapply solo_step; [unfold advance; rewrite En; reflexivity|].
  destruct (c_none (l_cache l)) eqn:Ec; [|injection E1 as <- <- <-; by apply Htake].
  unfold alloc_fill in E1. apply bind_Ret_inv in E1 as (g2 & E2 & E1). apply bind_Ret_inv in E1 as ([[w3 gc] lc] & E3 & E1). apply bind_Ret_inv in E1 as (g4 & E4 & E1).
  injection E1 as <- <- <-. eapply solo_step; [unfold advance; rewrite E2; reflexivity|]. etransitivity; [by eapply fill_solo|].
  eapply solo_step; [unfold advance; rewrite E4; reflexivity|]. by apply Htake.
Qed.

Lemma free_mt_solo w g l p w' g' l' : free_mt w g l p = Ret (w', g', l') -> rtc solo (w, g, l, FreeStart p) (w', g', l', FreeDone).
Proof.
  unfold free_mt. destruct (p =? 0) eqn:Ep; [intros E; injection E as <- <- <-; eapply solo_step; [unfold advance; rewrite Ep; reflexivity|done]|].
  intros (size & E1 & E)%bind_Ret_inv. destruct (negb (size =? l_native l)) eqn:En.
  { apply bind_Ret_inv in E as (w1 & E2 & E). injection E as <- <- <-.
    eapply solo_step; [unfold advance; rewrite Ep, E1; cbn [mbind outcome_bind]; rewrite En, E2; reflexivity|done]. }
  eapply solo_step; [unfold advance; rewrite Ep, E1; cbn [mbind outcome_bind]; rewrite En; reflexivity|].
  assert (Hpush : forall w g l, (r ← c_push w (l_cache l) (p - c_offset (C:=C)); let '(w, lc) := (r : world * C) in Ret (w, g, Local lc (l_native l))) = Ret (w', g', l') ->
    rtc solo (w, g, l, FreePush p) (w', g', l', FreeDone)).
  { clear. intros w g l ([w1 l1] & E1 & E)%bind_Ret_inv. injection E as <- <- <-. eapply solo_step; [unfold advance; rewrite E1; reflexivity|done]. }
  apply bind_Ret_inv in E as ([[w1 g1] l1] & E2 & E). destruct (c_full (l_cache l)) eqn:Ef; [|injection E2 as <- <- <-; by apply Hpush].
  unfold alloc_halve in E2. apply bind_Ret_inv in E2 as (g2 & E3 & E2). apply bind_Ret_inv in E2 as ([[w3 gc] lc] & E4 & E2). apply bind_Ret_inv in E2 as (g5 & E5 & E2).
  apply bind_Ret_inv in E2 as ([w6 lc6] & E6 & E2). injection E2 as <- <- <-.
  eapply solo_step; [unfold advance; rewrite E3; reflexivity|]. etransitivity; [by eapply halve_solo|].
  eapply solo_step; [unfold advance; rewrite E5; reflexivity|]. etransitivity; [eapply (shrink_solo p _ w3 g5 (Local lc (l_native l))); exact E6|]. by apply Hpush.
Qed.
End threads.

(** ** One thread *)

Section one_thread.
Context {C : Type} `{CacheLaws C} (choose : chooser) (Hmalloc : malloc_ok choose).
Context (n0 : Z) (Hn0 : 0 <= n0 /\ 0 <= c_native (C:=C) n0 < 2 ^ 64 - 8) (statics : list Z).
Abbreviation N := (c_native (C:=C) n0).
Abbreviation sep := (sep (C:=C) n0 statics).

(** The blocks that are in no cache and with no caller: the thread has them. *)
Definition flight_ok (pc : phase) (F : list (Z * Z)) : Prop :=
  match pc with
  | FillPut _ e => F = [(e + c_offset (C:=C), N)]
  | AllocDone n p => (p = 0 /\ F = [] /\ refuses choose) \/ (p <> 0 /\ exists s, n <= s /\ F = [(p, s)])
  | FreeStart p => (p = 0 /\ F = []) \/ exists s, F = [(p, s)]
  | HalveLock p | HalveTest p | HalveTake p | HalveUnlock p | Shrink p | FreePush p => F = [(p, N)]
  | HalvePut p e => F = [(e + c_offset (C:=C), N); (p, N)]
  | _ => F = []
  end.
(** What the thread found out and relies on. *)
Definition phase_ok (gc lc : C) (pc : phase) : Prop :=
  match pc with
  | AllocStart n => size_ok n
  | FillLock n | FillTest n | FillUnlock n | AllocTake n => n <= N
  | FillTake n => n <= N /\ c_none gc = false /\ c_size lc < c_capacity lc / 2
  | FillPut n _ => n <= N /\ c_size lc < c_capacity lc / 2
  | HalveTake _ => c_full gc = false /\ c_capacity lc / 2 < c_size lc
  | HalvePut _ _ => room gc
  | FreePush _ => room lc
  | _ => True
  end.
Record thread_ok (gc : C) (l : local_state C) (pc : phase) (F : list (Z * Z)) : Prop := {
  th_local : local_ok n0 l; th_flight : flight_ok pc F; th_phase : phase_ok gc (l_cache l) pc }.

Lemma thread_ok_other gc gc' l pc F : critical pc = false -> thread_ok gc l pc F -> thread_ok gc' l pc F.
Proof. intros Hc [H1 H2 H3]. split; [done|done|]. by destruct pc. Qed.

(** What a step does: to the blocks, the caches and the mutex. *)
Definition stepped (g : global_state C) (l : local_state C) (pc : phase) (ks : list (C * list Z)) (O : list (Z * Z)) (r : world * global_state C * local_state C * phase) : Prop :=
  let '(w', g', l', pc') := r in
  (steps_left l' pc' < steps_left l pc)%nat /\
  (Nat.b2n (g_mtx g') + Nat.b2n (critical pc) = Nat.b2n (g_mtx g) + Nat.b2n (critical pc'))%nat /\
  (critical pc = false -> g_cache g' = g_cache g) /\ g_native g' = g_native g /\
  exists bg' bl' F', sep w' ((g_cache g', bg') :: (l_cache l', bl') :: ks) (F' ++ O) /\ thread_ok (g_cache g') l' pc' F'.

Lemma stay w g g' l pc pc' bg bl F ks O :
  sep w ((g_cache g, bg) :: (l_cache l, bl) :: ks) (F ++ O) -> thread_ok (g_cache g) l pc' F -> (steps_left l pc' < steps_left l pc)%nat ->
  g_cache g' = g_cache g -> g_native g' = g_native g -> (Nat.b2n (g_mtx g') + Nat.b2n (critical pc) = Nat.b2n (g_mtx g) + Nat.b2n (critical pc'))%nat ->
  stepped g l pc ks O (w, g', l, pc').
Proof. intros S Ht Hs Hg Hn Hm. unfold stepped. rewrite Hg. split; [done|]. split; [done|]. split; [done|]. split; [done|]. by exists bg, bl, F. Qed.

Lemma alloc_done w n p s bl k ks O : sep w (k :: bl :: ks) ((p, s) :: O) -> n <= s -> flight_ok (AllocDone n p) [(p, s)].
Proof.
  intros S Hle. right. pose proof (sep_outs _ _ _ _ _ S (p, s) ltac:(by left)) as Hb. destruct (sep_live _ _ _ _ _ S (p - 8)) as [Hpos _]; [by eexists|].
  split; [lia|]. by exists s.
Qed.

Lemma fresh_done w g l n size bg bl ks O pc :
  sep w ((g_cache g, bg) :: (l_cache l, bl) :: ks) O -> local_ok n0 l -> 0 <= size < 2 ^ 64 - 8 -> n <= size -> critical pc = false -> (0 < steps_left l pc)%nat ->
  returns (r ← fresh_block choose w size; Ret (r.1, g, l, AllocDone n r.2)) (stepped g l pc ks O).
Proof.
  intros S Hl Hs Hle Hc H0'. destruct (sep_fresh choose Hmalloc n0 Hn0 statics w _ _ size S Hs) as (w' & p & -> & Hp). cbn [mbind outcome_bind fst snd]. apply returns_ret.
  destruct Hp as [(-> & S' & Hr)|[Hp S']].
  - apply (stay w' g g l pc _ bg bl []); [done| |done|done|done|by rewrite Hc]. split; [done| |done]. by left.
  - apply (stay w' g g l pc _ bg bl [(p, size)]); [done| |done|done|done|by rewrite Hc]. split; [done| |done]. by eapply alloc_done.
Qed.

(** An entry of the thread's cache, and one to it. *)
Lemma pop_local w g l bg bl ks O : sep w ((g_cache g, bg) :: (l_cache l, bl) :: ks) O -> local_ok n0 l -> c_none (l_cache l) = false ->
  exists w' lc e bl', c_pop w (l_cache l) = Ret (w', lc, e) /\ sep w' ((g_cache g, bg) :: (lc, bl') :: ks) ((e + c_offset (C:=C), N) :: O) /\
    local_ok n0 (Local lc (l_native l)) /\ c_capacity lc = c_capacity (l_cache l) /\ c_size (l_cache l) = c_size lc + 1 /\ 0 <= c_size lc.
Proof.
  intros S [Hn Hcap] En. apply sep_swap in S. pose proof (sep_rep_head _ _ _ _ _ _ _ S) as Hr.
  destruct (sep_pop n0 Hn0 statics w (l_cache l) bl _ _ S) as (w' & lc & e & bl' & E & S' & (_ & _ & Hc) & Hlen); [by eapply none_false|].
  pose proof (rep_size w' lc bl' (sep_rep_head _ _ _ _ _ _ _ S')) as [Hs' _]. destruct (rep_size w (l_cache l) bl Hr) as [Hs _].
  exists w', lc, e, bl'. split; [done|]. split; [by apply sep_swap|]. split; [split; [done|]; simpl; by rewrite Hc|]. split; [done|]. lia.
Qed.
Lemma push_local w g l b bg bl ks O : sep w ((g_cache g, bg) :: (l_cache l, bl) :: ks) ((b, N) :: O) -> local_ok n0 l -> room (l_cache l) ->
  exists w' lc bl', c_push w (l_cache l) (b - c_offset (C:=C)) = Ret (w', lc) /\ sep w' ((g_cache g, bg) :: (lc, bl') :: ks) O /\
    local_ok n0 (Local lc (l_native l)) /\ c_capacity lc = c_capacity (l_cache l) /\ c_size lc = c_size (l_cache l) + 1 /\ 0 <= c_size (l_cache l).
Proof.
  intros S [Hn Hcap] Hroom. apply sep_swap in S. pose proof (sep_rep_head _ _ _ _ _ _ _ S) as Hr.
  destruct (sep_push n0 Hn0 statics w (l_cache l) bl _ _ b S Hroom) as (w' & lc & bl' & E & S' & (_ & _ & Hc) & Hlen).
  pose proof (rep_size w' lc bl' (sep_rep_head _ _ _ _ _ _ _ S')) as [Hs' _]. destruct (rep_size w (l_cache l) bl Hr) as [Hs _].
  exists w', lc, bl'. split; [done|]. split; [by apply sep_swap|]. split; [split; [done|]; simpl; by rewrite Hc|]. split; [done|]. lia.
Qed.
Lemma local_size w g l bg bl ks O : sep w ((g_cache g, bg) :: (l_cache l, bl) :: ks) O ->
  c_none (l_cache l) = bool_decide (c_size (l_cache l) = 0) /\ 0 <= c_size (l_cache l) /\ 0 <= c_capacity (l_cache l) /\
  (c_full (l_cache l) = false -> room (l_cache l)) /\ (c_size (l_cache l) < c_capacity (l_cache l) / 2 -> room (l_cache l)) /\
  (cap_ok (c_capacity (l_cache l)) -> c_size (l_cache l) <= c_capacity (l_cache l) / 2 -> room (l_cache l)).
Proof.
  intros S%sep_swap. apply sep_rep_head in S as Hr. destruct (rep_size w (l_cache l) bl Hr) as [Hs Hc]. rewrite (rep_none w (l_cache l) bl Hr).
  split; [apply bool_decide_ext; rewrite Hs; destruct bl; simpl; naive_solver lia|]. split; [lia|]. split; [done|].
  split; [by apply (rep_not_full w _ bl)|]. split; [by apply (rep_below_half w _ bl)|]. by intros; apply (rep_half w _ bl).
Qed.

Ltac finish_stay bg bl F := apply returns_ret, (stay _ _ _ _ _ _ bg bl F); [done|split; try done|simpl; lia|done|done|simpl; try lia].

Lemma advance_alloc w g l pc bg bl F ks O :
  sep w ((g_cache g, bg) :: (l_cache l, bl) :: ks) (F ++ O) -> thread_ok (g_cache g) l pc F -> (critical pc = true -> g_mtx g = true) -> blocked g pc = false ->
  match pc with AllocStart _ | FillLock _ | FillTest _ | FillTake _ | FillPut _ _ | FillUnlock _ | AllocTake _ => True | _ => False end ->
  returns (advance choose w g l pc) (stepped g l pc ks O).
Proof.
  intros S [Hl Hf Hph] Hm Hb Hpc. pose proof (local_size _ _ _ _ _ _ _ S) as (En & Hsz & Hcap & _ & Hbelow & _). pose proof (proj1 Hl) as HN.
  destruct pc as [|n|n|n|n|n e|n|n| | | | | | | | | | ]; try done; simpl in Hf; subst F; cbn [advance].
  - simpl in S. rewrite Z.gtb_ltb, HN. destruct (Z.ltb_spec N n) as [Hlt|Hge]; [apply (fresh_done w g l n n bg bl); [done|done|done|lia|done|simpl; lia]|].
    destruct (c_none (l_cache l)); finish_stay bg bl (@nil (Z * Z)); done.
  - simpl in Hb. unfold lock_global. rewrite Hb. cbn [mbind outcome_bind]. finish_stay bg bl (@nil (Z * Z)). by rewrite Hb.
  - destruct (Z.ltb_spec (c_size (l_cache l)) (c_capacity (l_cache l) / 2)) as [Hlt|]; [destruct (c_none (g_cache g)) eqn:Eg|]; finish_stay bg bl (@nil (Z * Z)); done.
  - simpl in S, Hph. destruct Hph as (Hn & Eg & Hlt). pose proof (sep_rep_head _ _ _ _ _ _ _ S) as Hr.
    destruct (sep_pop n0 Hn0 statics w (g_cache g) bg _ _ S) as (w' & gc & e & bg' & -> & S' & _); [by eapply none_false|]. cbn [mbind outcome_bind].
    apply returns_ret. split; [simpl; lia|]. split; [done|]. split; [done|]. split; [done|]. exists bg', bl, [(e + c_offset (C:=C), N)]. split; [done|]. by split.
  - simpl in S, Hph. destruct Hph as [Hn Hlt]. destruct (push_local w g l _ bg bl ks O S Hl (Hbelow Hlt)) as (w' & lc & bl' & E & S' & Hl' & Hc & Hs & _).
    replace (e + c_offset (C:=C) - c_offset (C:=C)) with e in E by lia. rewrite E. cbn [mbind outcome_bind fst snd].
    apply returns_ret. split; [simpl; rewrite Hc; lia|]. split; [done|]. split; [done|]. split; [done|]. exists bg, bl', []. split; [done|]. by split.
  - unfold unlock_global. rewrite Hm by done. cbn [mbind outcome_bind]. finish_stay bg bl (@nil (Z * Z)). by rewrite Hm.
  - simpl in S, Hph. destruct (c_none (l_cache l)) eqn:Ec; cbn [negb].
    + rewrite HN. apply (fresh_done w g l n N bg bl); [done|done|apply Hn0|done|done|simpl; lia].
    + destruct (pop_local w g l bg bl ks O S Hl Ec) as (w' & lc & e & bl' & -> & S' & Hl' & _). cbn [mbind outcome_bind].
      apply returns_ret. split; [simpl; lia|]. split; [done|]. split; [done|]. split; [done|]. exists bg, bl', [(e + c_offset (C:=C), N)]. split; [done|].
      split; [done| |done]. by eapply alloc_done.
Qed.

Lemma advance_free w g l pc bg bl F ks O :
  sep w ((g_cache g, bg) :: (l_cache l, bl) :: ks) (F ++ O) -> thread_ok (g_cache g) l pc F -> (critical pc = true -> g_mtx g = true) -> blocked g pc = false ->
  match pc with FreeStart _ | HalveLock _ | HalveTest _ | HalveTake _ | HalvePut _ _ | HalveUnlock _ | Shrink _ | FreePush _ => True | _ => False end ->
  returns (advance choose w g l pc) (stepped g l pc ks O).
Proof.
  intros S [Hl Hf Hph] Hm Hb Hpc. pose proof (local_size _ _ _ _ _ _ _ S) as (En & Hsz & Hcap & Hfull & _ & Hhalf). pose proof (proj1 Hl) as HN.
  destruct pc as [| | | | | | | | |p|p|p|p|p e|p|p|p| ]; try done; simpl in Hf; cbn [advance].
  - destruct Hf as [[-> ->]|[s ->]]; [finish_stay bg bl (@nil (Z * Z))|]. pose proof (sep_outs _ _ _ _ _ S (p, s) ltac:(by left)) as Hh. unfold hdr in Hh. simpl in Hh.
    destruct (sep_live _ _ _ _ _ S (p - 8)) as [Hpos _]; [by eexists|]. rewrite (proj2 (Z.eqb_neq p 0)) by lia. assert (get_size w (alloc_allocated_block p) = Ret s) as -> by (unfold get_size, alloc_allocated_block; by rewrite Hh). cbn [mbind outcome_bind]. rewrite HN. destruct (Z.eqb_spec s N) as [->|Hne]; cbn [negb].
    + destruct (c_full (l_cache l)) eqn:Ef; finish_stay bg bl [(p, N)]. simpl. auto.
    + destruct (sep_free n0 statics w _ _ p s S) as (w' & -> & S'). cbn [mbind outcome_bind]. finish_stay bg bl (@nil (Z * Z)).
  - subst F. simpl in Hb. unfold lock_global. rewrite Hb. cbn [mbind outcome_bind]. finish_stay bg bl [(p, N)]. by rewrite Hb.
  - subst F. rewrite Z.gtb_ltb. destruct (Z.ltb_spec (c_capacity (l_cache l) / 2) (c_size (l_cache l))) as [Hlt|]; [destruct (c_full (g_cache g)) eqn:Eg|]; finish_stay bg bl [(p, N)]; done.
  - subst F. simpl in Hph. destruct Hph as [Eg Hlt]. destruct (pop_local w g l bg bl ks _ S Hl) as (w' & lc & e & bl' & -> & S' & Hl' & Hc & Hs & Hp').
    { rewrite En. apply bool_decide_eq_false. lia. }
    cbn [mbind outcome_bind]. apply returns_ret. split; [simpl; lia|]. split; [done|]. split; [done|]. split; [done|].
    exists bg, bl', [(e + c_offset (C:=C), N); (p, N)]. split; [done|]. split; [done|done|]. simpl. apply (rep_not_full w _ bg); [|done]. by eapply sep_rep_head.
  - subst F. simpl in S, Hph. destruct (sep_push n0 Hn0 statics w (g_cache g) bg _ _ _ S Hph) as (w' & gc & bg' & E & S' & _).
    replace (e + c_offset (C:=C) - c_offset (C:=C)) with e in E by lia. rewrite E. cbn [mbind outcome_bind fst snd].
    apply returns_ret. split; [simpl; lia|]. split; [done|]. split; [done|]. split; [done|]. exists bg', bl, [(p, N)]. split; [done|]. by split.
  - subst F. unfold unlock_global. rewrite Hm by done. cbn [mbind outcome_bind]. finish_stay bg bl [(p, N)]. by rewrite Hm.
  - subst F. rewrite Z.gtb_ltb. destruct (Z.ltb_spec (c_capacity (l_cache l) / 2) (c_size (l_cache l))) as [Hlt|Hge].
    + destruct (pop_local w g l bg bl ks _ S Hl) as (w' & lc & e & bl' & -> & S' & Hl' & Hc & Hs & Hp'); [rewrite En; apply bool_decide_eq_false; lia|].
      cbn [mbind outcome_bind]. destruct (sep_free n0 statics w' _ _ _ _ S') as (w2 & -> & S2). cbn [mbind outcome_bind].
      apply returns_ret. split; [simpl; lia|]. split; [done|]. split; [done|]. split; [done|]. exists bg, bl', [(p, N)]. split; [done|]. by split.
    + finish_stay bg bl [(p, N)]. simpl. apply Hhalf; [apply Hl|done].
  - subst F. simpl in S, Hph. destruct (push_local w g l p bg bl ks O S Hl Hph) as (w' & lc & bl' & -> & S' & Hl' & _). cbn [mbind outcome_bind fst snd].
    apply returns_ret. split; [simpl; lia|]. split; [done|]. split; [done|]. split; [done|]. exists bg, bl', []. split; [done|]. by split.
Qed.

Lemma thread_advance_ok w g l pc bg bl F ks O :
  sep w ((g_cache g, bg) :: (l_cache l, bl) :: ks) (F ++ O) -> thread_ok (g_cache g) l pc F -> (critical pc = true -> g_mtx g = true) ->
  active pc = true -> blocked g pc = false -> returns (advance choose w g l pc) (stepped g l pc ks O).
Proof. intros S Ht Hm Ha Hb. destruct pc; try done; first [by eapply advance_alloc|by eapply advance_free]. Qed.
End one_thread.

(** ** All threads *)

Section all_threads.
Context {C : Type} `{CacheLaws C} (choose : chooser) (Hmalloc : malloc_ok choose).
Context (n0 : Z) (Hn0 : 0 <= n0 /\ 0 <= c_native (C:=C) n0 < 2 ^ 64 - 8) (statics : list Z).
Abbreviation N := (c_native (C:=C) n0).
Abbreviation sep := (sep (C:=C) n0 statics).
Abbreviation thread_ok := (thread_ok choose n0).

(** A thread with the blocks of its cache and those it has in its hands. *)
Abbreviation entry := ((local_state C * phase) * (list Z * list (Z * Z)))%type.
Definition caches (tl : list entry) : list (C * list Z) := (fun k => (l_cache k.1.1, k.2.1)) <$> tl.
Definition flights (tl : list entry) : list (Z * Z) := mjoin ((fun k => k.2.2) <$> tl).
Definition criticals (tl : list entry) : nat := sum_list_with (fun k => Nat.b2n (critical k.1.2)) tl.

#[local] Instance caches_perm : Proper ((≡ₚ) ==> (≡ₚ)) caches.
Proof. intros tl tl' E. unfold caches. by rewrite E. Qed.
#[local] Instance flights_perm : Proper ((≡ₚ) ==> (≡ₚ)) flights.
Proof. intros tl tl' E. unfold flights. by rewrite E. Qed.
#[local] Instance criticals_perm : Proper ((≡ₚ) ==> eq) criticals.
Proof. intros tl tl' E. unfold criticals. by rewrite E. Qed.

Lemma flights_cons k tl : flights (k :: tl) = k.2.2 ++ flights tl.
Proof. done. Qed.

Lemma caches_cons k tl : caches (k :: tl) = (l_cache k.1.1, k.2.1) :: caches tl.
Proof. done. Qed.
Lemma criticals_cons k tl : criticals (k :: tl) = (Nat.b2n (critical k.1.2) + criticals tl)%nat.
Proof. done. Qed.

(** The account with the threads in the middle of their calls. *)
Definition sys_ok (s : sys (C:=C)) : Prop := exists outs bg tl, granted (s_out s) outs /\ tl.*1 = s_threads s /\
  sep (s_world s) ((g_cache (s_global s), bg) :: caches tl) (flights tl ++ outs) /\ g_native (s_global s) = N /\
  Forall (fun k => thread_ok (g_cache (s_global s)) k.1.1 k.1.2 k.2.2) tl /\ criticals tl = Nat.b2n (g_mtx (s_global s)).

Lemma sys_thread w g ts out t l pc : sys_ok (Sys w g ts out) -> ts !! t = Some (l, pc) ->
  exists outs bg bl F rest, granted out outs /\ sep w ((g_cache g, bg) :: (l_cache l, bl) :: caches rest) (F ++ flights rest ++ outs) /\
    thread_ok (g_cache g) l pc F /\ g_native g = N /\ (critical pc = true -> g_mtx g = true) /\
    forall w' g' l' pc' bg' bl' F' out' outs', granted out' outs' -> sep w' ((g_cache g', bg') :: (l_cache l', bl') :: caches rest) (F' ++ flights rest ++ outs') ->
      thread_ok (g_cache g') l' pc' F' -> g_native g' = g_native g ->
      (Nat.b2n (g_mtx g') + Nat.b2n (critical pc) = Nat.b2n (g_mtx g) + Nat.b2n (critical pc'))%nat -> (critical pc = false -> g_cache g' = g_cache g) ->
      sys_ok (Sys w' g' (<[t := (l', pc')]> ts) out').
Proof.
  intros (outs & bg & tl & Hgr & Htl & S & Hg & Hths & Hcr) Ht. simpl in *. rewrite <- Htl, list_lookup_fmap in Ht.
  destruct (tl !! t) as [[lp [bl F]]|] eqn:Ek; [|done]. simpl in Ht. injection Ht as ->. destruct (insert_picks tl t _ Ek) as (rest & E1 & E2).
  pose proof (proj1 (list.Forall_forall _ _) Hths _ (list_elem_of_lookup_2 _ _ _ Ek)) as Hth. simpl in Hth.
  assert (forall x : entry, criticals (x :: rest) = Nat.b2n (critical x.1.2) + criticals rest)%nat as Ec by done. pose proof (Ec ((l, pc), (bl, F))) as Ec1. rewrite <- E1, Hcr in Ec1. simpl in Ec1.
  exists outs, bg, bl, F, rest. split; [done|]. split; [eapply sep_perm; [| |exact S]; [by rewrite E1|by rewrite E1, flights_cons, <- (assoc_L (++))]|].
  split; [done|]. split; [done|]. split; [intros Hc; rewrite Hc in Ec1; by destruct (g_mtx g)|].
  intros w' g' l' pc' bg' bl' F' out' outs' Hgr' S' Hth' Hg' Hm Hgc. exists outs', bg', (<[t := ((l', pc'), (bl', F'))]> tl). simpl. split; [done|].
  split; [by rewrite list_fmap_insert, Htl|]. split; [eapply sep_perm; [| |exact S']; [by rewrite E2|by rewrite E2, flights_cons, <- (assoc_L (++))]|].
  split; [congruence|]. split; [|rewrite E2, Ec; simpl; lia].
  rewrite E2. apply list.Forall_cons. split; [done|]. rewrite E1 in Hths. apply list.Forall_cons in Hths as [_ Hrest]. destruct (critical pc) eqn:Epc; [|by rewrite Hgc].
  apply list.Forall_forall. intros k Hk. rewrite list.Forall_forall in Hrest. eapply thread_ok_other; [|by apply Hrest].
  pose proof (sum_list_with_in k (fun k => Nat.b2n (critical k.1.2)) rest Hk) as Hle. fold (criticals rest) in Hle. cbv beta in Hle. simpl in Ec1.
  destruct (critical k.1.2), (g_mtx g); simpl in *; try done; lia.
Qed.

(** ** Every step keeps the account *)

Lemma sep_write w k ks O p nd : sep w (k :: ks) O -> p ∈ O.*1 -> sep (World (blocks w) (<[p := nd]> (nodes w))) (k :: ks) O.
Proof.
  destruct k as [c bs]. intros S Hout. assert (Ht : touches w (World (blocks w) (<[p := nd]> (nodes w))) (heads c ++ bs ++ O.*1)).
  { split; [done|]. split; simpl; [intros q Hq|intros q Hq]; rewrite ?elem_of_app in Hq; [apply lookup_insert_ne; intros <-; tauto|by apply lookup_insert_is_Some'; right]. }
  pose proof (sep_rep_head n0 statics _ _ _ _ _ S) as Hrep.
  apply (sep_update n0 Hn0 statics w _ c c bs bs ks O O S Ht); [|done|done|apply (sep_rep _ _ _ _ _ S (c, bs)); by left|apply list.Forall_forall, (sep_outs _ _ _ _ _ S)].
  apply (rep_frame w); [done|]. intros q Hq. simpl. apply lookup_insert_ne. intros <-.
  assert (p ∈ all_bufs ((c, bs) :: ks) O) as Hin by (apply elem_of_app; by right). apply elem_of_app in Hq as [Hq|Hq].
  - apply (sep_static_buf n0 statics _ _ _ p S); [|done]. apply (sep_head_static n0 statics _ _ _ (c, bs) p S); [by left|done].
  - pose proof (sep_bufs _ _ _ _ _ S) as Hn. rewrite all_bufs_cons in Hn. apply list.NoDup_app in Hn as (Hn & _). apply list.NoDup_app in Hn as (_ & Hn & _). by apply (Hn p).
Qed.
Lemma sep_nodup w ks O : sep w ks O -> NoDup O.*1.
Proof. intros S. pose proof (sep_bufs _ _ _ _ _ S) as Hnd. by apply list.NoDup_app in Hnd as (_ & _ & ?). Qed.
Lemma sep_nodup_outs w ks R outs : sep w ks (R ++ outs) -> NoDup outs.*1.
Proof. intros S%sep_nodup. rewrite fmap_app in S. by apply list.NoDup_app in S as (_ & _ & ?). Qed.

Lemma advance_inv w g l pc r : advance choose w g l pc = Ret r -> active pc = true /\ blocked g pc = false.
Proof. destruct pc; cbn; try done; unfold lock_global; by destruct (g_mtx g). Qed.

Lemma sys_advance w g ts out t l pc : sys_ok (Sys w g ts out) -> ts !! t = Some (l, pc) -> active pc = true -> blocked g pc = false ->
  returns (advance choose w g l pc) (fun '(w', g', l', pc') => (steps_left l' pc' < steps_left l pc)%nat /\ sys_ok (Sys w' g' (<[t := (l', pc')]> ts) out)).
Proof.
  intros HS Ht Ha Hb. destruct (sys_thread _ _ _ _ _ _ _ HS Ht) as (outs & bg & bl & F & rest & Hgr & S & Hth & Hg & Hm & Hback).
  eapply returns_impl; [by apply (thread_advance_ok choose Hmalloc n0 Hn0 statics w g l pc bg bl F _ _ S)|].
  intros [[[w' g'] l'] pc'] (Hs & Hmx & Hgc & Hgn & bg' & bl' & F' & S' & Hth'). split; [done|]. by apply (Hback w' g' l' pc' bg' bl' F' out outs).
Qed.
Lemma sys_free_start w g ts out t l p : sys_ok (Sys w g ts out) -> ts !! t = Some (l, Idle) -> p = 0 \/ is_Some (out !! p) ->
  sys_ok (Sys w g (<[t := (l, FreeStart p)]> ts) (delete p out)).
Proof.
  intros HS Ht Hp. destruct (sys_thread _ _ _ _ _ _ _ HS Ht) as (outs & bg & bl & F & rest & Hgr & S & [Hl Hf Hph] & Hg & Hm & Hback). simpl in Hf. subst F. simpl in S.
  destruct (decide (is_Some (out !! p))) as [Hs|Hno].
  - destruct (granted_drop out outs p Hgr Hs (sep_nodup_outs _ _ _ _ S)) as (s & outs' & E & Hgr').
    apply (Hback _ _ _ _ bg bl [(p, s)] _ outs'); try done; [|split; [done| |done]; right; by exists s].
    eapply sep_perm; [done| |exact S]. rewrite E. simpl. symmetry. apply Permutation_middle.
  - destruct Hp as [->|]; [|done]. rewrite delete_id by by apply eq_None_not_Some. apply (Hback _ _ _ _ bg bl [] _ outs); try done. split; [done| |done]. by left.
Qed.
Lemma sys_alloc_return w g ts out t l n p : sys_ok (Sys w g ts out) -> ts !! t = Some (l, AllocDone n p) -> sys_ok (Sys w g (<[t := (l, Idle)]> ts) (got out p n)).
Proof.
  intros HS Ht. destruct (sys_thread _ _ _ _ _ _ _ HS Ht) as (outs & bg & bl & F & rest & Hgr & S & [Hl Hf Hph] & Hg & Hm & Hback).
  destruct Hf as [(-> & -> & _)|(Hp & s & Hle & ->)]; [by apply (Hback _ _ _ _ bg bl [] _ outs)|]. simpl in S.
  pose proof (sep_nodup _ _ _ S) as Hnd. rewrite fmap_cons, fmap_app in Hnd. apply list.NoDup_cons in Hnd as [Hni _]. simpl in Hni.
  apply (Hback _ _ _ _ bg bl [] _ ((p, s) :: outs)); try done; [apply granted_got; [done| |done|done]; intros Hin; apply Hni; rewrite elem_of_app; by right|].
  eapply sep_perm; [done| |exact S]. simpl. apply Permutation_middle.
Qed.
Lemma slab_step_ok s s' : slab_step choose s s' -> sys_ok s -> sys_ok s'.
Proof.
  intros [w g ts out t l n Ht Hn|w g ts out t l p Ht Hp|w g ts out t l pc w' g' l' pc' Ht E|w g ts out t l n p Ht|w g ts out t l Ht|w g ts out p nd Hp Hnd] HS.
  - destruct (sys_thread _ _ _ _ _ _ _ HS Ht) as (outs & bg & bl & F & rest & Hgr & S & [Hl Hf Hph] & Hg & Hm & Hback). by apply (Hback _ _ _ _ bg bl F _ outs).
  - by apply sys_free_start.
  - destruct (advance_inv _ _ _ _ _ E) as [Ha Hb]. destruct (sys_advance _ _ _ _ _ _ _ HS Ht Ha Hb) as ([[[w2 g2] l2] pc2] & E2 & _ & HS'). rewrite E in E2. by injection E2 as <- <- <- <-.
  - by apply sys_alloc_return.
  - destruct (sys_thread _ _ _ _ _ _ _ HS Ht) as (outs & bg & bl & F & rest & Hgr & S & [Hl Hf Hph] & Hg & Hm & Hback). by apply (Hback _ _ _ _ bg bl F _ outs).
  - destruct HS as (outs & bg & tl & Hgr & Htl & S & Hrest). exists outs, bg, tl. split; [done|]. split; [done|]. split; [|done].
    apply sep_write; [done|]. rewrite fmap_app, elem_of_app. right. by apply Hgr.
Qed.
Lemma slab_steps_ok s s' : rtc (slab_step choose) s s' -> sys_ok s -> sys_ok s'.
Proof. induction 1 as [|s1 s2 s3 Hst _ IH]; [done|]. intros HS. by apply IH, (slab_step_ok s1). Qed.

(** ** The promise *)

Lemma two_picks {A} (l : list A) i j x y : i <> j -> l !! i = Some x -> l !! j = Some y -> exists rest, l ≡ₚ x :: y :: rest.
Proof.
  intros Hne Hi Hj. pose proof (delete_Permutation l i x Hi) as E. assert (y ∈ delete i l) as Hy.
  { destruct (decide (j < i)%nat); [apply (list_elem_of_lookup_2 _ j); by rewrite list_lookup_delete_lt|].
    apply (list_elem_of_lookup_2 _ (j - 1)). rewrite list_lookup_delete_ge by lia. by replace (S (j - 1)) with j by lia. }
  apply elem_of_Permutation in Hy as [rest E']. exists rest. by rewrite E, E'.
Qed.
Lemma sep_roomy w ks O p s n : sep w ks O -> (p, s) ∈ O -> n <= s -> roomy w p n /\ p <> 0.
Proof.
  intros S Hin Hle. pose proof (sep_outs _ _ _ _ _ S (p, s) Hin) as Hb. unfold hdr in Hb. simpl in Hb.
  destruct (sep_live _ _ _ _ _ S (p - 8)) as [Hpos _]; [by eexists|]. split; [|lia]. exists (Block (s + 8) (Some s)). split; [done|]. simpl. lia.
Qed.

(** Two threads, in the account. *)
Lemma sys_pair w g ts out t t' x y : sys_ok (Sys w g ts out) -> t <> t' -> ts !! t = Some x -> ts !! t' = Some y ->
  exists outs bg bl bl' F F' rest, sep w ((g_cache g, bg) :: (l_cache x.1, bl) :: (l_cache y.1, bl') :: caches rest) (F ++ F' ++ flights rest ++ outs) /\
    flight_ok choose n0 x.2 F /\ flight_ok choose n0 y.2 F' /\ (Nat.b2n (critical x.2) + Nat.b2n (critical y.2) <= 1)%nat.
Proof.
  intros (outs & bg & tl & Hgr & Htl & S & Hg & Hths & Hcr) Hne Hx Hy. simpl in *. rewrite <- Htl, list_lookup_fmap in Hx, Hy.
  destruct (tl !! t) as [[lp [bl F]]|] eqn:Ex; [|done]. destruct (tl !! t') as [[lp' [bl' F']]|] eqn:Ey; [|done]. simpl in Hx, Hy. injection Hx as ->. injection Hy as ->.
  destruct (two_picks tl t t' _ _ Hne Ex Ey) as [rest E]. exists outs, bg, bl, bl', F, F', rest. rewrite E in Hths, Hcr.
  apply list.Forall_cons in Hths as [[_ H1 _] Hths]. apply list.Forall_cons in Hths as [[_ H2 _] _].
  split; [eapply sep_perm; [| |exact S]; [by rewrite E|by rewrite E, !flights_cons, <- !(assoc_L (++))]|]. split; [done|]. split; [done|].
  unfold criticals in Hcr. simpl in Hcr. destruct (g_mtx g); simpl in Hcr; lia.
Qed.
Lemma sys_holder w g ts out : sys_ok (Sys w g ts out) -> g_mtx g = true -> exists t l pc, ts !! t = Some (l, pc) /\ critical pc = true.
Proof.
  intros (outs & bg & tl & Hgr & Htl & S & Hg & Hths & Hcr) Hm. simpl in *. rewrite Hm in Hcr. simpl in Hcr. rewrite <- Htl.
  clear - Hcr. induction tl as [|[[l pc] x] tl IH]; [done|]. destruct (critical pc) eqn:E; [by exists 0%nat, l, pc|].
  unfold criticals in *. simpl in Hcr. rewrite E in Hcr. destruct (IH Hcr) as (t & l' & pc' & ? & ?). by exists (S t), l', pc'.
Qed.

Lemma sys_alloc_mt w g ts out t l n : sys_ok (Sys w g ts out) -> ts !! t = Some (l, Idle) -> g_mtx g = false -> size_ok n ->
  exists w' g' l' p, alloc_mt choose w g l n = Ret (w', g', l', p) /\ rtc (solo choose) (w, g, l, AllocStart n) (w', g', l', AllocDone n p).
Proof.
  intros HS Ht Hm Hn. destruct (sys_thread _ _ _ _ _ _ _ HS Ht) as (outs & bg & bl & F & rest & Hgr & S & [Hl Hf Hph] & Hg & _ & _). simpl in Hf. subst F.
  destruct (alloc_mt_ok choose Hmalloc n0 Hn0 statics (c_capacity (g_cache g)) (c_capacity (l_cache l)) (caches rest) (flights rest ++ outs) w g l n Hn) as ([[[w' g'] l'] p] & E & _).
  { split; [by exists bg, bl|]. split; [done|]. split; [done|apply Hl]. }
  exists w', g', l', p. split; [done|]. by apply alloc_mt_solo.
Qed.
Lemma sys_free_mt w g ts out t l p : sys_ok (Sys w g ts out) -> ts !! t = Some (l, Idle) -> g_mtx g = false -> p = 0 \/ is_Some (out !! p) ->
  exists w' g' l', free_mt w g l p = Ret (w', g', l') /\ rtc (solo choose) (w, g, l, FreeStart p) (w', g', l', FreeDone).
Proof.
  intros HS Ht Hm Hp. destruct (decide (p = 0)) as [->|Hp0]; [exists w, g, l; split; [done|by apply free_mt_solo]|]. destruct Hp as [|Hp]; [done|].
  destruct (sys_thread _ _ _ _ _ _ _ HS Ht) as (outs & bg & bl & F & rest & Hgr & S & [Hl Hf Hph] & Hg & _ & _). simpl in Hf. subst F. simpl in S.
  destruct (granted_drop out outs p Hgr Hp (sep_nodup_outs _ _ _ _ S)) as (s & outs' & E & _).
  destruct (free_mt_ok n0 Hn0 statics (c_capacity (g_cache g)) (c_capacity (l_cache l)) (caches rest) (flights rest ++ outs') w g l p s) as ([[w' g'] l'] & Ef & _).
  { apply Hl. }
  { split; [exists bg, bl; split; [|done]|split; [done|split; [done|apply Hl]]]. eapply sep_perm; [done| |exact S]. rewrite E. symmetry. apply Permutation_middle. }
  exists w', g', l'. split; [done|]. by apply free_mt_solo.
Qed.

Lemma sys_quiet w g ts out : sys_ok (Sys w g ts out) -> Forall (fun th => th.2 = Idle) ts -> quiet n0 statics w g ts.*1 out.
Proof.
  intros (outs & bg & tl & Hgr & Htl & S & Hg & Hths & Hcr) Hidle. simpl in *. subst ts. assert (Forall (fun k : entry => k.1.2 = Idle) tl) as Hi by (by apply Forall_fmap in Hidle).
  assert (flights tl = [] /\ criticals tl = 0%nat) as [Ef Ec].
  { clear - Hths Hi. induction tl as [|k tl IH]; [done|]. apply list.Forall_cons in Hths as [[_ Hf _] Hths]. apply list.Forall_cons in Hi as [Hk Hi].
    rewrite Hk in Hf. simpl in Hf. destruct (IH Hths Hi) as [Ef Ec]. unfold criticals in *. rewrite flights_cons, Ef, Hf. simpl. by rewrite Hk, Ec. }
  rewrite Ef in S. rewrite Ec in Hcr. exists outs, bg, (caches tl). split; [done|]. split; [done|]. split; [unfold caches; by rewrite <- !list_fmap_compose|].
  split; [by destruct (g_mtx g)|]. split; [done|]. apply Forall_fmap, Forall_fmap. eapply list.Forall_impl; [exact Hths|]. by intros k [? _ _].
Qed.
Lemma quiet_sys w g ls out : quiet n0 statics w g ls out -> sys_ok (Sys w g ((fun l => (l, Idle)) <$> ls) out).
Proof.
  intros (outs & bg & kl & Hgr & S & Hkl & Hm & Hg & Hls). exists outs, bg, (zip_with (fun l k => ((l, Idle), (k.2, []))) ls kl). simpl.
  assert (forall kl : list (C * list Z), kl.*1 = l_cache <$> ls -> Forall (local_ok n0) ls ->
    (zip_with (fun l k => ((l, Idle), (k.2, []))) ls kl : list entry).*1 = (fun l => (l, Idle)) <$> ls /\ caches (zip_with (fun l k => ((l, Idle), (k.2, []))) ls kl) = kl /\
    flights (zip_with (fun l k => ((l, Idle), (k.2, []))) ls kl) = [] /\ criticals (zip_with (fun l k => ((l, Idle), (k.2, []))) ls kl) = 0%nat /\
    Forall (fun k : entry => thread_ok (g_cache g) k.1.1 k.1.2 k.2.2) (zip_with (fun l k => ((l, Idle), (k.2, []))) ls kl)) as Hz.
  { clear. induction ls as [|l ls IH]; intros [|[c bs] kl] E Hls; try done. simpl in E. injection E as -> E. apply list.Forall_cons in Hls as [Hl Hls].
    destruct (IH kl E Hls) as (H1 & H2 & H3 & H4 & H5). cbn [zip_with fst snd]. rewrite !fmap_cons, H1, flights_cons, caches_cons, criticals_cons, H2, H3, H4.
    split_and!; try done. apply list.Forall_cons. split; [|done]. by split. }
  destruct (Hz kl Hkl Hls) as (H1 & H2 & H3 & H4 & H5). rewrite H2, H3, H4, Hm. done.
Qed.

Lemma sys_promise s : sys_ok s -> promise choose s.
Proof.
  destruct s as [w g ts out]. intros HS. split; simpl.
  - intros t l pc Ht Ha Hb. destruct (sys_advance _ _ _ _ _ _ _ HS Ht Ha Hb) as ([[[w' g'] l'] pc'] & E & Hs & _). by exists w', g', l', pc'.
  - intros t l pc Ht Hb. assert (g_mtx g = true) as Hm by (by destruct pc). destruct (sys_holder _ _ _ _ HS Hm) as (t' & l' & pc' & Ht' & Hc).
    exists t', l', pc'. split; [done|]. split; [done|]. by destruct pc'.
  - intros t t' l l' pc pc' Ht Ht' Hc Hc'. destruct (decide (t = t')) as [|Hne]; [done|].
    destruct (sys_pair _ _ _ _ _ _ _ _ HS Hne Ht Ht') as (? & ? & ? & ? & ? & ? & ? & _ & _ & _ & Hle). simpl in Hle. rewrite Hc, Hc' in Hle. simpl in Hle. lia.
  - intros t l n p Ht. destruct (sys_thread _ _ _ _ _ _ _ HS Ht) as (outs & bg & bl & F & rest & Hgr & S & [Hl Hf Hph] & _).
    destruct Hf as [(-> & -> & Hr)|(Hp & s & Hle & ->)]; [done|]. split; [done|]. intros _. split; [by apply (sep_roomy _ _ _ _ s _ S); [left|]|]. split.
    + pose proof (sep_nodup _ _ _ S) as Hnd. simpl in Hnd. rewrite fmap_app in Hnd. apply list.NoDup_cons in Hnd as [Hni _]. apply eq_None_not_Some. rewrite <- (proj1 Hgr).
      intros Hin. apply Hni. rewrite elem_of_app. by right.
    + intros t' l' n' Ht'. destruct (decide (t' = t)) as [|Hne]; [done|]. destruct (sys_pair _ _ _ _ _ _ _ _ HS Hne Ht' Ht) as (outs' & bg' & b1 & b2 & F1 & F2 & rest' & S' & Hf1 & Hf2 & _).
      destruct Hf1 as [(-> & _)|(_ & s1 & _ & ->)]; [done|]. destruct Hf2 as [(-> & _)|(_ & s2 & _ & ->)]; [done|].
      pose proof (sep_nodup _ _ _ S') as Hnd. simpl in Hnd. apply list.NoDup_cons in Hnd as [Hni _]. destruct Hni. by left.
  - intros p n Hp. destruct HS as (outs & bg & tl & Hgr & Htl & S & _). simpl in *.
    assert (p ∈ outs.*1) as ([q s] & Eq & Hin)%list_elem_of_fmap by (apply Hgr; by eexists). simpl in Eq. subst q.
    apply (sep_roomy _ _ _ _ s _ S); [rewrite elem_of_app; by right|]. by eapply (proj2 Hgr).
  - intros t l n Ht Hm Hn. by eapply sys_alloc_mt.
  - intros t l p Ht Hm Hp. by eapply sys_free_mt.
  - intros Hi. by apply (quiet_end n0 Hn0 statics), sys_quiet.
Qed.
End all_threads.
