(* ===== verification/SlabAllocCaches.v ===== *)
(** The three caches keep the promise of a cache, and with it the slab allocators
    theirs. *)
From stdpp Require Import relations.
From S2P Require Import Prelude LinkedList SlabAlloc SlabAllocSpec SlabAllocRun SlabAllocThreads.

Lemma rd_cell_ok cells i e : 0 <= i -> cells !! Z.to_nat i = Some (Some e) -> rd_cell cells i = Ret e.
Proof. intros Hi E. unfold rd_cell. rewrite (proj2 (Z.ltb_ge _ _)) by done. by rewrite E. Qed.
Lemma wr_cell_ok cells i v : 0 <= i < Z.of_nat (length cells) -> wr_cell cells i v = Ret (<[Z.to_nat i := Some v]> cells).
Proof. intros Hi. unfold wr_cell. by rewrite (proj2 (Z.leb_le _ _)), (proj2 (Z.ltb_lt _ _)) by lia. Qed.
Lemma touches_refl w qs : touches w w qs.
Proof. split; [done|]. split; [by intros ? ?|done]. Qed.
(** The entries of the array caches are addresses of blocks. *)
Definition entry (b : Z) : option Z := Some (b - 8).

(** ** The stack *)
Definition as_rep (_ : world) (c : as_cache) (bs : list Z) : Prop :=
  Z.of_nat (length (as_cells c)) = as_capacity c /\ as_capacity c < 2 ^ 60 /\ as_size c = Z.of_nat (length bs) /\ as_size c <= as_capacity c /\
  forall i b, bs !! i = Some b -> as_cells c !! i = Some (entry b).

Lemma as_last w c bs : as_rep w c bs -> bs <> [] -> exists bs' b, bs = bs' ++ [b] /\ u64 (as_size c - 1) = Z.of_nat (length bs') /\
  rd_cell (as_cells c) (Z.of_nat (length bs')) = Ret (b - 8).
Proof.
  intros (Hlen & Hcap & Hsz & Hle & Hc) Hne. destruct (exists_last Hne) as (bs' & b & ->). exists bs', b. rewrite length_app in Hsz. simpl in Hsz. split; [done|].
  split; [rewrite u64_small; lia|]. apply rd_cell_ok; [lia|]. rewrite Nat2Z.id. apply (Hc _ b). by rewrite lookup_app_r, Nat.sub_diag.
Qed.

#[export, refine] Instance as_laws : CacheLaws as_cache := {|
  rep := as_rep; heads _ := []; array c := Some (as_array c); room c := as_size c < as_capacity c; cap_ok n := 1 <= n
|}.
Proof.
  - intros w c bs (Hlen & Hcap & Hsz & Hle & Hc). simpl. lia.
  - intros w c bs (Hlen & Hcap & Hsz & Hle & Hc). simpl. case_bool_decide as Hb; [subst; simpl in Hsz; lia|]. destruct bs; [done|]. simpl in Hsz. lia.
  - intros w c bs _. simpl. rewrite Z.geb_leb. lia.
  - intros w c bs _. simpl. lia.
  - intros w c bs (Hlen & Hcap & Hsz & Hle & Hc). simpl. lia.
  - done.
  - intros w c bs Hr Hne. destruct (as_last w c bs Hr Hne) as (bs' & b & -> & Es & Er). simpl. unfold as_pop. rewrite Es, Er. cbn [mbind outcome_bind].
    destruct Hr as (Hlen & Hcap & Hsz & Hle & Hc). rewrite length_app in Hsz. simpl in Hsz. rewrite wr_cell_ok by lia. cbn [mbind outcome_bind].
    eexists _, _, _, bs'. split; [done|]. split; [replace (b - 8 + 8) with b by lia; by rewrite Permutation_app_comm|]. split; [|split; [done|apply touches_refl]].
    split; simpl; [by rewrite length_insert|]. split; [done|]. split; [done|]. split; [lia|]. intros i x Hi. rewrite Nat2Z.id.
    pose proof (lookup_lt_Some _ _ _ Hi). rewrite list_lookup_insert_ne by lia. apply Hc. by rewrite lookup_app_l.
  - intros w c bs Hr Hne. destruct (as_last w c bs Hr Hne) as (bs' & b & -> & Es & Er). simpl. unfold as_drop. rewrite Es, Er. cbn [mbind outcome_bind].
    destruct Hr as (Hlen & Hcap & Hsz & Hle & Hc). rewrite length_app in Hsz. simpl in Hsz.
    eexists _, _, _, bs'. split; [done|]. split; [replace (b - 8 + 8) with b by lia; by rewrite Permutation_app_comm|]. split; [|split; [done|apply touches_refl]].
    split; simpl; [done|]. split; [done|]. split; [done|]. split; [lia|]. intros i x Hi. apply Hc. rewrite lookup_app_l; [done|]. by eapply lookup_lt_Some.
  - intros w c bs b n (Hlen & Hcap & Hsz & Hle & Hc) Hroom _ _ _ _. simpl in Hroom |- *. unfold as_push. rewrite wr_cell_ok by lia. cbn [mbind outcome_bind].
    eexists _, _. split; [done|]. split; [|split; [done|apply touches_refl]]. exists (bs ++ [b]). split; [by rewrite Permutation_app_comm|]. split; simpl; [by rewrite length_insert|].
    rewrite u64_small by lia. split; [done|]. rewrite length_app. simpl. split; [lia|]. split; [lia|]. intros i x Hi. rewrite Hsz, Nat2Z.id.
    apply lookup_snoc_Some in Hi as [[Hlt Hi]|[-> <-]]; [rewrite list_lookup_insert_ne by lia; auto|]. apply list_lookup_insert_eq. lia.
  - intros w c bs (Hlen & Hcap & Hsz & Hle & Hc). simpl. f_equal. rewrite Z.gtb_ltb. case_bool_decide as Hb; [subst; simpl in Hsz; lia|]. destruct bs; [done|]. simpl in Hsz. lia.
  - done.
  - intros choose w self cap Hm Hcap _. simpl. unfold as_init, malloc. rewrite u64_small by lia. destruct (choose w (8 * cap)) as [[p nd]|] eqn:E.
    + destruct (Hm _ _ _ _ E) as [Hp _]. rewrite (proj2 (Z.eqb_neq p 0)) by lia. eexists _, _. split; [done|]. simpl. split; [|split; [done|]; split; [by left|]].
      * split; simpl; [unfold new_cells; rewrite length_replicate; lia|]. split; [lia|]. split; [done|]. split; [lia|done].
      * exists (8 * cap), nd. split; [done|]. unfold malloc. by rewrite E.
    + eexists _, _. split; [done|]. simpl. split; [done|]. by exists w, (8 * cap).
Defined.

(** ** The list *)
Definition ll_rep (w : world) (c : ll_cache) (bs : list Z) : Prop :=
  dll (nodes w) (ll_head c) bs /\ ll_size c = Z.of_nat (length bs) /\ ll_size c <= ll_capacity c + 1 /\ 0 <= ll_capacity c < 2 ^ 60.

Lemma ll_pop_ok w c bs : ll_rep w c bs -> bs <> [] -> exists w' b bs', bs = b :: bs' /\
  ll_pop w c = Ret (w', LlCache (ll_head c) (ll_capacity c) (u64 (ll_size c - 1)), b) /\
  ll_rep w' (LlCache (ll_head c) (ll_capacity c) (u64 (ll_size c - 1))) bs' /\ touches w w' (ll_head c :: bs).
Proof.
  intros (Hd & Hsz & Hle & Hcap) Hne. destruct bs as [|b bs']; [done|]. simpl in Hsz. unfold ll_pop. destruct Hd as [Hnd [[Hn Hp] Hs]].
  destruct (nxt_node _ _ _ Hn) as (hd & -> & Eb). cbn [mbind outcome_bind]. rewrite Eb.
  destruct (delete_refines (nodes w) (ll_head c) [] bs' b) as (H' & E & Hd' & Hsame & Hdom); [done|]. simpl in *. rewrite E. cbn [mbind outcome_bind].
  eexists _, b, bs'. split; [done|]. split; [done|]. rewrite u64_small by lia. split; [split; [done|]; simpl; lia|]. split; [done|]. split; [|done].
  intros q Hq. apply Hsame. simpl. set_solver.
Qed.

#[export, refine] Instance ll_laws : CacheLaws ll_cache := {|
  rep := ll_rep; heads c := [ll_head c]; array _ := None; room c := ll_size c <= ll_capacity c; cap_ok n := True
|}.
Proof.
  - intros w c bs (Hd & Hsz & Hle & Hcap). simpl. lia.
  - intros w c bs (Hd & Hsz & Hle & Hcap). simpl. case_bool_decide as Hb; [subst; simpl in Hsz; lia|]. destruct bs; [done|]. simpl in Hsz. lia.
  - intros w c bs _. simpl. rewrite Z.geb_leb. lia.
  - intros w c bs (Hd & Hsz & Hle & Hcap). simpl. lia.
  - intros w c bs (Hd & Hsz & Hle & Hcap). simpl. lia.
  - intros w w' c bs (Hd & Hrest) Hq. split; [|done]. by apply (dll_frame (nodes w)).
  - intros w c bs Hr Hne. destruct (ll_pop_ok w c bs Hr Hne) as (w' & b & bs' & -> & E & Hr' & Ht). simpl. rewrite E.
    eexists w', _, b, bs'. split; [done|]. by rewrite Z.add_0_r.
  - intros w c bs Hr Hne. destruct (ll_pop_ok w c bs Hr Hne) as (w' & b & bs' & -> & E & Hr' & Ht). simpl. rewrite E.
    eexists w', _, b, bs'. split; [done|]. by rewrite Z.add_0_r.
  - intros w c bs b n (Hd & Hsz & Hle & Hcap) Hroom Hni Hok Hn Hh. simpl in *. rewrite Z.sub_0_r. unfold ll_push, sizeof_linked_list_node in *.
    assert (is_Some (nodes w !! b)) as Hb.
    { unfold hdr in Hh. specialize (Hok _ _ Hh). replace (b - 8 + 8) with b in Hok by lia. apply Hok. simpl. case_match; lia. }
    destruct (op_refines (nodes w) (ll_head c) bs (AddTail b) (bs ++ [b]) Hd Hb) as (H' & E & Hd' & Hsame & Hdom); [simpl; by rewrite decide_False|].
    simpl in E. rewrite E. cbn [mbind outcome_bind]. eexists _, _. split; [done|]. split; [|split; [done|split; [done|by split]]].
    exists (bs ++ [b]). split; [by rewrite Permutation_app_comm|]. split; [done|]. simpl. rewrite length_app, u64_small by lia. simpl. lia.
  - intros w c bs (Hd & _). simpl. by apply is_empty_ok.
  - done.
  - intros choose w self cap _ Hcap Hs. simpl. unfold ll_init. destruct (head_init_ok (nodes w) self Hs) as (H' & -> & Hd & Hsame & Hdom). cbn [mbind outcome_bind].
    eexists _, _. split; [done|]. simpl. split; [split; [done|]; simpl; lia|]. split; [done|]. split; [by right|]. by split.
Defined.

(** ** The ring *)

(** The index of the [i]-th entry. *)
Definition ring_pos (cap start i : Z) : Z := if cap <=? start + i then start + i - cap else start + i.
Definition rb_rep (_ : world) (c : rb_cache) (bs : list Z) : Prop :=
  let n := Z.of_nat (length bs) in
  Z.of_nat (length (rb_cells c)) = rb_capacity c /\ rb_capacity c < 2 ^ 60 /\ 0 <= rb_start c < Z.max 1 (rb_capacity c) /\
  n < Z.max 1 (rb_capacity c) /\ rb_end c = ring_pos (rb_capacity c) (rb_start c) n /\
  forall i b, bs !! i = Some b -> rb_cells c !! Z.to_nat (ring_pos (rb_capacity c) (rb_start c) (Z.of_nat i)) = Some (entry b).

Ltac leb_cases := repeat match goal with
  | |- context [?a <=? ?b] => destruct (Z.leb_spec a b)
  | H : context [?a <=? ?b] |- _ => destruct (Z.leb_spec a b)
  end.
Ltac ring_lia := unfold rb_alloc_empty, rb_alloc_full, rb_alloc_local_size, rb_next, ring_pos, u64 in *; cbn [rb_capacity] in *;
  rewrite ?Z.eqb_eq, ?Z.eqb_neq, ?Z.geb_leb in *; leb_cases; lia.

Lemma rb_size_ok w c bs : rb_rep w c bs -> rb_alloc_local_size c = Z.of_nat (length bs).
Proof. intros (Hlen & Hcap & Hst & Hn & He & _). ring_lia. Qed.
Lemma rb_empty_ok w c bs : rb_rep w c bs -> rb_alloc_empty c = bool_decide (bs = []).
Proof.
  intros (Hlen & Hcap & Hst & Hn & He & _). case_bool_decide as Hb; [subst bs; cbn [length] in *; ring_lia|].
  assert (0 < Z.of_nat (length bs)) by (destruct bs; [done|simpl; lia]). ring_lia.
Qed.
Lemma rb_full_ok w c bs : rb_rep w c bs -> rb_alloc_full c = false <-> Z.of_nat (length bs) + 1 < Z.max 1 (rb_capacity c).
Proof. intros (Hlen & Hcap & Hst & Hn & He & _). unfold rb_alloc_full. rewrite Z.eqb_neq. ring_lia. Qed.

(** The ring without its first entry. *)
Lemma rb_first w c b bs cells : rb_rep w c (b :: bs) -> length cells = length (rb_cells c) ->
  (forall i, i <> Z.to_nat (rb_start c) -> cells !! i = rb_cells c !! i) ->
  rd_cell (rb_cells c) (rb_start c) = Ret (b - 8) /\ rb_rep w (RbCache (rb_array c) cells (rb_capacity c) (rb_next c (rb_start c)) (rb_end c)) bs.
Proof.
  intros (Hlen & Hcap & Hst & Hn & He & Hc) El Ec. simpl in Hn, He. split.
  - apply rd_cell_ok; [lia|]. pose proof (Hc 0%nat b eq_refl) as H0. simpl in H0. by replace (ring_pos _ _ 0) with (rb_start c) in H0 by ring_lia.
  - split_and!; simpl; [by rewrite El|done|ring_lia|ring_lia|lia|ring_lia|]. intros i x Hi. pose proof (lookup_lt_Some _ _ _ Hi) as Hlt.
    pose proof (Hc (S i) x Hi) as Hx. rewrite Ec by ring_lia. rewrite <- Hx. f_equal. ring_lia.
Qed.

#[export, refine] Instance rb_laws : CacheLaws rb_cache := {|
  rep := rb_rep; heads _ := []; array c := Some (rb_array c); room c := rb_alloc_full c = false; cap_ok n := 3 <= n
|}.
Proof.
  - intros w c bs Hr. simpl. split; [by eapply rb_size_ok|]. destruct Hr as (Hlen & _). lia.
  - intros w c bs Hr. by eapply rb_empty_ok.
  - done.
  - intros w c bs Hr Hc Hle. simpl in *. rewrite (rb_size_ok w c bs Hr) in Hle. apply (rb_full_ok w c bs Hr). lia.
  - intros w c bs Hr Hle. simpl in *. rewrite (rb_size_ok w c bs Hr) in Hle. apply (rb_full_ok w c bs Hr). lia.
  - done.
  - intros w c [|b bs] Hr Hne; [done|]. simpl. unfold rb_pop. pose proof Hr as (Hlen & _ & Hst & Hn & _). simpl in Hn.
    destruct (rb_first w c b bs (<[Z.to_nat (rb_start c) := Some 0]> (rb_cells c)) Hr) as [-> Hr']; [by rewrite length_insert|by intros; apply list_lookup_insert_ne|].
    cbn [mbind outcome_bind]. rewrite wr_cell_ok by lia. cbn [mbind outcome_bind]. eexists _, _, _, bs. split; [done|]. split; [by replace (b - 8 + 8) with b by lia|].
    split; [done|]. split; [done|]. apply touches_refl.
  - intros w c [|b bs] Hr Hne; [done|]. simpl. unfold rb_drop. destruct (rb_first w c b bs (rb_cells c) Hr) as [-> Hr']; [done|done|].
    cbn [mbind outcome_bind]. eexists _, _, _, bs. split; [done|]. split; [by replace (b - 8 + 8) with b by lia|]. split; [done|]. split; [done|]. apply touches_refl.
  - intros w c bs b n Hr Hroom _ _ _ _. simpl in *. apply (rb_full_ok w c bs Hr) in Hroom. destruct Hr as (Hlen & Hcap & Hst & Hn & He & Hc). unfold rb_push.
    rewrite wr_cell_ok by (rewrite He; ring_lia). cbn [mbind outcome_bind]. eexists _, _. split; [done|]. split; [|split; [done|apply touches_refl]].
    exists (bs ++ [b]). split; [by rewrite Permutation_app_comm|]. split_and!; simpl; rewrite ?length_app, ?length_insert; simpl; [done|done|lia|lia|lia|ring_lia|].
    intros i x Hi. apply lookup_snoc_Some in Hi as [[Hlt Hi]|[-> <-]].
    + rewrite list_lookup_insert_ne by (rewrite He; ring_lia). auto.
    + rewrite <- He. apply list_lookup_insert_eq. ring_lia.
  - intros w c bs Hr. simpl. f_equal. by eapply rb_empty_ok.
  - done.
  - intros choose w self cap Hm Hcap _. simpl. unfold rb_init, malloc. rewrite u64_small by lia. destruct (choose w (8 * cap)) as [[p nd]|] eqn:E.
    + destruct (Hm _ _ _ _ E) as [Hp _]. rewrite (proj2 (Z.eqb_neq p 0)) by lia. eexists _, _. split; [done|]. simpl. split; [|split; [done|]; split; [by left|]].
      * split_and!; simpl; [unfold new_cells; rewrite length_replicate; lia|lia|lia|lia|lia|ring_lia|done].
      * exists (8 * cap), nd. split; [done|]. unfold malloc. by rewrite E.
    + eexists _, _. split; [done|]. simpl. split; [done|]. by exists w, (8 * cap).
Defined.

(** ** The allocators *)

(** An object for all threads with an object for each of them: [args] has the
    address and the capacity for each thread. *)
Definition mt_safe (C : Type) `{Cache C} (choose : chooser) (mutex_ok : bool) (w : world) (self cap native : Z) (args : list (Z * Z)) : Prop :=
  exists w' r, init_all (C:=C) choose mutex_ok w self cap native args = Ret (w', r) /\
    match r with
    | inl e => e = - ENOMEM /\ (mutex_ok = false \/ refuses choose)
    | inr (g, ls) => length ls = length args /\ forall s, rtc (slab_step choose) (Sys w' g ((fun l => (l, Idle)) <$> ls) ∅) s -> promise choose s
    end.
Definition st_safe (C : Type) `{Cache C} (choose : chooser) (w : world) (self cap native : Z) : Prop :=
  exists w' r, alloc_st_init (C:=C) choose w self cap native = Ret (w', r) /\
    match r with
    | inl e => e = - ENOMEM /\ refuses choose
    | inr st => forall s, rtc (st_step choose) (StSys w' st ∅) s -> st_promise choose s
    end.

Lemma mt_safe_ok (C : Type) `{CacheLaws C} choose mok w self cap native args :
  malloc_ok choose -> clean w (self :: args.*1) -> 0 <= cap < 2 ^ 60 -> 0 <= native /\ 0 <= c_native (C:=C) native < 2 ^ 64 - 8 ->
  Forall (fun a => 0 <= a.2 < 2 ^ 60) args -> Forall (fun a => cap_ok (C:=C) a.2) args -> mt_safe C choose mok w self cap native args.
Proof.
  intros Hm Hcl Hcap Hn Ha Hok. destruct (init_all_ok choose Hm native Hn (self :: args.*1) mok w self cap args Hcl eq_refl Hcap) as ([w' r] & E & Hr).
  { rewrite list.Forall_forall in Ha. rewrite list.Forall_forall in Hok. apply list.Forall_forall. auto. }
  exists w', r. split; [done|]. simpl in Hr. destruct r as [e|[g ls]]; [done|]. destruct Hr as [HS Hlen]. split; [done|]. intros s Hs.
  eapply (sys_promise choose Hm native Hn). eapply (slab_steps_ok choose Hm native Hn); [exact Hs|]. by apply quiet_sys.
Qed.
Lemma st_safe_ok (C : Type) `{CacheLaws C} choose w self cap native :
  malloc_ok choose -> clean w [self] -> 0 <= cap < 2 ^ 60 -> 0 <= native /\ 0 <= c_native (C:=C) native < 2 ^ 64 - 8 -> st_safe C choose w self cap native.
Proof.
  intros Hm Hcl Hcap Hn. destruct (alloc_st_init_ok choose Hm native Hn [self] w self cap Hcl ltac:(by left) Hcap) as ([w' r] & E & Hr).
  exists w', r. split; [done|]. simpl in Hr. destruct r as [e|st]; [done|]. intros s Hs.
  eapply (st_sys_promise choose Hm native Hn). by eapply (st_steps_ok choose Hm native Hn).
Qed.

(** C11: the slab allocators keep the account of every block.  Take any C library
    that hands out new blocks and may refuse, and any number of threads with a
    cache each and one in common (a cache on its own, too), where the stack of a
    thread has room for at least one block and the ring of a thread for three (the
    list needs none), capacities are below 2^60 and sizes, the native one too, at
    most 2^64 - 9.  The threads allocate, give back (also blocks of another thread)
    and write to their blocks, and the steps of their calls interleave in any way.
    Every step returns, without an access outside the arrays or to a freed block,
    and brings its call nearer to its end, unless it waits for the mutex; then
    another thread has it and can make a step; no two threads are at the common
    cache.  [NULL] is returned only when the library refused; a block that is
    returned has the room that was asked for and no other caller has it or gets it.
    When no call is under way and all objects end, exactly the blocks that the
    callers still have are left: nothing is leaked or freed twice.  And [alloc_mt]
    and [free_mt], called when the mutex is free, return and are those steps one
    after the other. *)
Theorem slab_allocators_account (choose : chooser) (mutex_ok : bool) (w : world) (self cap native : Z) (args : list (Z * Z)) :
  malloc_ok choose -> clean w (self :: args.*1) -> 0 <= cap < 2 ^ 60 -> 0 <= native < 2 ^ 64 - 8 -> Forall (fun a => 0 <= a.2 < 2 ^ 60) args ->
  (Forall (fun a => 1 <= a.2) args -> mt_safe as_cache choose mutex_ok w self cap native args) /\
  mt_safe ll_cache choose mutex_ok w self cap native args /\
  (Forall (fun a => 3 <= a.2) args -> mt_safe rb_cache choose mutex_ok w self cap native args) /\
  st_safe as_cache choose w self cap native /\ st_safe ll_cache choose w self cap native /\ st_safe rb_cache choose w self cap native.
Proof.
  intros Hm Hcl Hcap Hn Ha. assert (clean w [self]) as Hcl1.
  { destruct Hcl as (Hb & _ & Hs). split; [done|]. split; [apply NoDup_singleton|]. intros a ->%list_elem_of_singleton. apply Hs. by left. }
  assert (0 <= native /\ 0 <= c_native (C:=ll_cache) native < 2 ^ 64 - 8) as Hl.
  { split; [lia|]. simpl. unfold sizeof_linked_list_node. case_match; lia. }
  assert (Forall (fun a : Z * Z => cap_ok (C:=ll_cache) a.2) args) as Hll by (apply list.Forall_forall; by intros).
  assert (0 <= native /\ 0 <= native < 2 ^ 64 - 8) as Hn' by (split; [lia|done]).
  split; [intros Hargs; by apply (mt_safe_ok as_cache)|]. split; [by apply (mt_safe_ok ll_cache)|]. split; [intros Hargs; by apply (mt_safe_ok rb_cache)|].
  split; [by apply (st_safe_ok as_cache)|]. split; [by apply (st_safe_ok ll_cache)|]. by apply (st_safe_ok rb_cache).
Qed.

(** A C library with room for [limit] bytes per block. *)
Definition biggest {A} (m : gmap Z A) : Z := map_fold (fun k _ a => Z.max k a) 0 m.
Lemma biggest_ge {A} (m : gmap Z A) k : is_Some (m !! k) -> k <= biggest m.
Proof.
  unfold biggest. revert k. apply (map_fold_weak_ind (fun a m => forall k, is_Some (m !! k) -> k <= a)).
  - intros k. rewrite lookup_empty. by intros [].
  - intros i x m' r Hi IH k Hk. destruct (decide (k = i)) as [->|Hne]; [lia|]. rewrite lookup_insert_ne in Hk by done. specialize (IH k Hk). lia.
Qed.
Definition bump (limit : Z) : chooser := fun w n =>
  if n <=? limit then Some (1000 + Z.max 0 (Z.max (biggest (blocks w)) (biggest (nodes w))), {| prev := 5; next := 5 |}) else None.
Lemma bump_ok limit : malloc_ok (bump limit).
Proof.
  intros w n p nd. unfold bump. case_match; [|done]. intros [= <- _]. split; [lia|].
  split; apply eq_None_not_Some; intros Hs%biggest_ge; lia.
Qed.
Definition sample_world : world := World ∅ (list_to_map ((fun a => (a, {| prev := 0; next := 0 |})) <$> [10; 20; 30])).
Lemma slab_allocators_account_witness :
  mt_safe as_cache (bump 4096) true sample_world 10 4 64 [(20, 1); (30, 4)] /\ mt_safe ll_cache (bump 4096) true sample_world 10 4 64 [(20, 1); (30, 4)].
Proof.
  destruct (slab_allocators_account (bump 4096) true sample_world 10 4 64 [(20, 1); (30, 4)]) as (H1 & H2 & _).
  - apply bump_ok.
  - split; [reflexivity|]. split; [apply (bool_decide_unpack _); vm_compute; exact I|].
    intros a Ha. repeat (apply elem_of_cons in Ha as [->|Ha]; [by eexists|]). by apply elem_of_nil in Ha.
  - lia.
  - lia.
  - repeat constructor; simpl; lia.
  - split; [|exact H2]. apply H1. repeat constructor; simpl; lia.
Defined.

(** The ring of a thread with capacity 2 loses blocks: its test for a full ring
    holds with one entry, half of its capacity is one as well, so no room is made
    and the second entry makes the ring look empty.  Two blocks are allocated and
    given back; both are still live when all objects have ended. *)
Definition two_blocks (C : Type) `{Cache C} (cap : Z) : outcome nat :=
  r ← init_all (C:=C) (bump 4096) true sample_world 10 4 64 [(20, cap)];
  match r.2 with
  | inr (g, [l]) =>
      '(w, g, l, p) ← alloc_mt (bump 4096) r.1 g l 10;
      '(w, g, l, q) ← alloc_mt (bump 4096) w g l 10;
      '(w, g, l) ← free_mt w g l p;
      '(w, g, l) ← free_mt w g l q;
      w ← free_all w g [l];
      Ret (size (blocks w))
  | _ => Undef
  end.
Example small_ring_leaks : two_blocks rb_cache 2 = Ret 2%nat /\ two_blocks rb_cache 3 = Ret 0%nat /\ two_blocks as_cache 1 = Ret 0%nat.
Proof. split; [|split]; vm_compute; reflexivity. Qed.
(** A stack of a thread without room writes outside its array. *)
Example empty_stack_overflows : two_blocks as_cache 0 = Undef.
Proof. vm_compute. reflexivity. Qed.
(** [size + sizeof(size_t)] wraps: the header is written past a block of 7 bytes. *)
Example huge_request_overflows :
  (r ← alloc_st_init (C:=as_cache) (bump 4096) sample_world 10 4 64;
   match r.2 with inr st => alloc_st (bump 4096) r.1 st (2 ^ 64 - 1) | inl _ => Abort end) = Undef.
Proof. vm_compute. reflexivity. Qed.
(** What the mutex is for: two threads that have both seen the one entry of the
    common cache cannot both take it. *)
Example two_takers :
  (let l := Local (RbCache 20 [None; None; None] 3 0 0) 64 in
   '(w, g, _, _) ← advance (bump 4096) sample_world (Global true (RbCache 10 [Some 100; None; None] 3 0 1) 64) l (FillTake 1);
   advance (bump 4096) w g l (FillTake 1)) = Undef.
Proof. vm_compute. reflexivity. Qed.
