(* ===== verification/RandomMt.v ===== *)
(** Pseudorandom numbers: random/random_mt.h and random/random_mt.c, and the proof
    that they are those of the Mersenne Twister. *)
From S2P Require Import Prelude Bytes Packet.

(** ** The code *)

Record random_mt_ctx := RandomMt { mt_index : Z; mt_words : list Z }.

Definition mt_get (mt : list Z) (i : Z) : outcome Z := if i <? 0 then Undef else of_option (mt !! Z.to_nat i).
Definition mt_set (mt : list Z) (i v : Z) : outcome (list Z) :=
  if (0 <=? i) && (i <? Z.of_nat (length mt)) then Ret (<[Z.to_nat i := v]> mt) else Undef.

Definition init_word (i : Z) (mt : list Z) : outcome (list Z) :=
  prev ← mt_get mt (i - 1);
  mt_set mt i (u32 (1812433253 * Z.lxor prev (Z.shiftr prev 30) + i)).
(** The words of [ctx] hold anything before. *)
Definition random_mt_ctx_init (ctx : random_mt_ctx) (seed : Z) : outcome random_mt_ctx :=
  mt ← mt_set (mt_words ctx) 0 seed;
  mt ← for_range 1 624 init_word mt;
  Ret (RandomMt 624 mt).

Definition mag01 (b : Z) : Z := if b =? 0 then 0 else 0x9908b0df.
(** One word of the table, from the words at [i1] and [i397]. *)
Definition twist_word (i i1 i397 : Z) (mt : list Z) : outcome (list Z) :=
  a ← mt_get mt i;
  b ← mt_get mt i1;
  let y := u32 (Z.land a 0x80000000 + Z.land b 0x7fffffff) in
  c ← mt_get mt i397;
  mt_set mt i (Z.lxor (Z.lxor c (Z.shiftr y 1)) (mag01 (Z.land y 1))).
Definition random_mt_twist (ctx : random_mt_ctx) : outcome random_mt_ctx :=
  mt ← for_range 0 227 (fun i => twist_word i (i + 1) (i + 397)) (mt_words ctx);
  mt ← for_range 227 623 (fun i => twist_word i (i + 1) (i + 397 - 624)) mt;
  mt ← for_range 623 624 (fun i => twist_word i (i + 1 - 624) (i + 397 - 624)) mt;
  Ret (RandomMt 0 mt).

Definition temper (y : Z) : Z :=
  let y := Z.lxor y (Z.shiftr y 11) in
  let y := Z.lxor y (Z.land (u32 (Z.shiftl y 7)) 2636928640) in
  let y := Z.lxor y (Z.land (u32 (Z.shiftl y 15)) 4022730752) in
  Z.lxor y (Z.shiftr y 18).
Definition random_mt (ctx : random_mt_ctx) : outcome (Z * random_mt_ctx) :=
  ctx ← (if mt_index ctx >=? 624 then random_mt_twist ctx else Ret ctx);
  y ← mt_get (mt_words ctx) (mt_index ctx);
  Ret (temper y, RandomMt (mt_index ctx + 1) (mt_words ctx)).
Definition random_mt_signed_nonnegative (ctx : random_mt_ctx) : outcome (Z * random_mt_ctx) :=
  r ← random_mt ctx; Ret (Z.shiftr r.1 1, r.2).

Section bytes.
Context `{Host}.
(** [hdr_set32h(p, random_mt(ctx))] *)
Definition put_random (s : random_mt_ctx * mem) (p : Z) : outcome (random_mt_ctx * mem) :=
  r ← random_mt s.1; m ← hdr_set32h s.2 p r.1; Ret (r.2, m).
Definition bytes16_step (s : random_mt_ctx * mem * Z * Z) : outcome (random_mt_ctx * mem * Z * Z + random_mt_ctx * mem * Z * Z) :=
  let '(c, cbuf, bufsiz) := s in
  if bufsiz >=? 16 then
    c ← put_random c cbuf;
    c ← put_random c (cbuf + 4);
    c ← put_random c (cbuf + 8);
    c ← put_random c (cbuf + 12);
    Ret (inl (c, cbuf + 16, bufsiz - 16))
  else Ret (inr (c, cbuf, bufsiz)).
Definition bytes4_step (s : random_mt_ctx * mem * Z * Z) : outcome (random_mt_ctx * mem * Z * Z + random_mt_ctx * mem * Z * Z) :=
  let '(c, cbuf, bufsiz) := s in
  if bufsiz >=? 4 then c ← put_random c cbuf; Ret (inl (c, cbuf + 4, bufsiz - 4)) else Ret (inr (c, cbuf, bufsiz)).
Definition bytes1_step (s : random_mt_ctx * mem * Z * Z) : outcome (random_mt_ctx * mem * Z * Z + random_mt_ctx * mem * Z * Z) :=
  let '(c, cbuf, bufsiz) := s in
  if bufsiz >=? 1 then
    r ← random_mt c.1; m ← hdr_set8h c.2 cbuf (u8 r.1);
    Ret (inl ((r.2, m), cbuf + 1, bufsiz - 1))
  else Ret (inr (c, cbuf, bufsiz)).
Definition random_mt_bytes (ctx : random_mt_ctx) (m : mem) (buf bufsiz : Z) : outcome (random_mt_ctx * mem) :=
  let n := S (Z.to_nat bufsiz) in
  s ← iter n bytes16_step ((ctx, m), buf, bufsiz);
  s ← iter n bytes4_step s;
  s ← iter n bytes1_step s;
  Ret s.1.1.
End bytes.

(** ** The Mersenne Twister

    The definition of MT19937: 624 words from the seed, each word after them from
    the words 624, 623 and 227 places before it; the outputs are the tempered words
    from the 625th on. *)
Definition mt_recur (a b c : Z) : Z :=
  let y := Z.lor (Z.land a 0x80000000) (Z.land b 0x7fffffff) in
  Z.lxor (Z.lxor c (Z.shiftr y 1)) (if Z.odd y then 0x9908b0df else 0).
Fixpoint seeded (seed : Z) (n : nat) : Z :=
  match n with
  | O => seed
  | S n => let x := seeded seed n in (1812433253 * Z.lxor x (Z.shiftr x 30) + Z.of_nat (S n)) mod 2 ^ 32
  end.
(** The first [624 + n] words after the words [w]. *)
Fixpoint mt_grow (w : list Z) (n : nat) : list Z :=
  match n with
  | O => w
  | S n => let l := mt_grow w n in l ++ [mt_recur (l !!! n) (l !!! (n + 1)%nat) (l !!! (n + 397)%nat)]
  end.
Definition mt_word (w : list Z) (k : nat) : Z := mt_grow w k !!! k.

(** The tempering of the reference, as a product with a bit matrix: bit [i] of the
    output is the sum modulo 2 of the bits of the input at the places [tempered i].
    Each of the four factors adds to a bit the one [u] places above or below it,
    the latter two where the mask has a one. *)
Definition add_above (u : Z) (x : Z -> bool) (i : Z) : bool := xorb (x i) (if i + u <? 32 then x (i + u) else false).
Definition add_below (u mask : Z) (x : Z -> bool) (i : Z) : bool :=
  xorb (x i) (if u <=? i then if Z.testbit mask i then x (i - u) else false else false).
Definition tempered (x : Z -> bool) : Z -> bool :=
  add_above 18 (add_below 15 0xefc60000 (add_below 7 0x9d2c5680 (add_above 11 x))).
(** The number with the bits [x 0], ..., [x (n - 1)]. *)
Fixpoint of_bits (n : nat) (x : Z -> bool) : Z :=
  match n with O => 0 | S n => Z.lor (of_bits n x) (if x (Z.of_nat n) then 2 ^ Z.of_nat n else 0) end.
Definition mt_temper (y : Z) : Z := of_bits 32 (tempered (Z.testbit y)).

Definition mt19937 (seed : Z) (k : nat) : Z := mt_temper (mt_word (seeded seed <$> seq 0 624) (624 + k)).

Section words.
Context (w : list Z) (Hw : length w = 624%nat).
Lemma mt_grow_length n : length (mt_grow w n) = (624 + n)%nat.
Proof. induction n as [|n IH]; simpl; [lia|]. rewrite length_app, IH. simpl. lia. Qed.
Lemma mt_grow_mono n m k : (n <= m)%nat -> (k < 624 + n)%nat -> mt_grow w m !!! k = mt_grow w n !!! k.
Proof.
  intros Hle Hk. induction Hle as [|m Hle IH]; [done|]. cbn [mt_grow]. rewrite lookup_total_app_l; [done|]. rewrite mt_grow_length. lia.
Qed.
Lemma mt_word_grow n k : (k < 624 + n)%nat -> mt_grow w n !!! k = mt_word w k.
Proof. intros Hk. unfold mt_word. destruct (decide (n <= k)%nat); [symmetry|]; apply mt_grow_mono; lia. Qed.
Lemma mt_word_first k : (k < 624)%nat -> mt_word w k = w !!! k.
Proof. intros Hk. by rewrite <- (mt_word_grow 0 k) by lia. Qed.
Lemma mt_word_next k : mt_word w (624 + k) = mt_recur (mt_word w k) (mt_word w (k + 1)) (mt_word w (k + 397)).
Proof.
  rewrite <- (mt_word_grow (S k)) by lia. cbn [mt_grow]. rewrite lookup_total_app_r; rewrite mt_grow_length; [|lia].
  rewrite Nat.sub_diag. cbn [lookup_total list_lookup_total]. by rewrite !mt_word_grow by lia.
Qed.
End words.

(** ** Words of 32 bits *)
Definition word32 (x : Z) : Prop := 0 <= x < 2 ^ 32.
Lemma word32_bits x : word32 x <-> 0 <= x /\ Z.shiftr x 32 = 0.
Proof. unfold word32. rewrite Z.shiftr_div_pow2 by lia. split; intros; [split; [lia|apply Z.div_small; lia]|lia]. Qed.
Lemma word32_lxor x y : word32 x -> word32 y -> word32 (Z.lxor x y).
Proof.
  rewrite !word32_bits. intros [Hx Ex] [Hy Ey]. split; [rewrite Z.lxor_nonneg; lia|]. by rewrite Z.shiftr_lxor, Ex, Ey.
Qed.
Lemma word32_shiftr x n : 0 <= n -> word32 x -> word32 (Z.shiftr x n).
Proof.
  unfold word32. intros Hn Hx. rewrite Z.shiftr_div_pow2 by done. split; [apply Z.div_pos; lia|].
  apply Z.le_lt_trans with x; [|lia]. apply Z.div_le_upper_bound; [lia|]. assert (1 <= 2 ^ n) by lia. nia.
Qed.
Lemma word32_land x y : 0 <= x -> word32 y -> word32 (Z.land x y).
Proof.
  rewrite !word32_bits. intros Hx [Hy Ey]. split; [apply Z.land_nonneg; lia|]. by rewrite Z.shiftr_land, Ey, Z.land_0_r.
Qed.
Lemma word32_temper x : word32 x -> word32 (temper x).
Proof.
  intros Hx. unfold temper. assert (forall n, word32 (u32 n)) as Hu by (intros; apply u32_range).
  assert (Hstep : forall y n c, word32 y -> word32 c -> word32 (Z.lxor y (Z.land (u32 n) c))) by (intros; apply word32_lxor; [done|]; apply word32_land; [apply Hu|done]).
  apply word32_lxor; [|apply word32_shiftr; [lia|]]; apply Hstep; try (unfold word32; lia); apply Hstep; try (unfold word32; lia); apply word32_lxor; try done; by apply word32_shiftr.
Qed.

(** The sum in the code is a sum of disjoint bits. *)
Lemma halves_lor a b : 0 <= a -> 0 <= b ->
  u32 (Z.land a 0x80000000 + Z.land b 0x7fffffff) = Z.lor (Z.land a 0x80000000) (Z.land b 0x7fffffff).
Proof.
  intros Ha Hb. assert (Z.land (Z.land a 0x80000000) (Z.land b 0x7fffffff) = 0) as E.
  { rewrite Z.land_assoc, <- (Z.land_assoc a), (Z.land_comm 0x80000000 b), (Z.land_assoc a b), <- Z.land_assoc. simpl. by rewrite Z.land_0_r. }
  rewrite Z.add_nocarry_lxor, Z.lxor_lor by done. apply u32_small.
  assert (word32 (Z.lor (Z.land a 0x80000000) (Z.land b 0x7fffffff))) as H; [|exact H]. rewrite word32_bits. split; [rewrite Z.lor_nonneg; rewrite !Z.land_nonneg; lia|].
  by rewrite Z.shiftr_lor, !Z.shiftr_land, !Z.land_0_r.
Qed.
Lemma recur_code a b c y : 0 <= a -> 0 <= b -> y = u32 (Z.land a 0x80000000 + Z.land b 0x7fffffff) ->
  Z.lxor (Z.lxor c (Z.shiftr y 1)) (mag01 (Z.land y 1)) = mt_recur a b c.
Proof.
  intros Ha Hb ->. rewrite halves_lor by done. unfold mt_recur. f_equal. set (y := Z.lor _ _). unfold mag01. change 1 with (Z.ones 1). rewrite Z.land_ones by lia.
  rewrite Zodd_mod. change (2 ^ 1) with 2. assert (0 <= y mod 2 < 2) as Hy by (apply Z.mod_pos_bound; lia).
  destruct (Z.eqb_spec (y mod 2) 0) as [->|Hne]; [done|]. by replace (y mod 2) with 1 by lia.
Qed.
Lemma word32_recur a b c : word32 a -> word32 b -> word32 c -> word32 (mt_recur a b c).
Proof.
  intros Ha Hb Hc. unfold mt_recur. rewrite <- halves_lor by (unfold word32 in *; lia). apply word32_lxor; [apply word32_lxor; [done|]; apply word32_shiftr; [lia|apply u32_range]|].
  destruct (Z.odd _); unfold word32; lia.
Qed.
Lemma mt_word32 w k : length w = 624%nat -> Forall word32 w -> word32 (mt_word w k).
Proof.
  intros Hw Hf. induction k as [k IH] using lt_wf_ind. destruct (decide (k < 624)%nat) as [Hk|Hk].
  - rewrite mt_word_first by done. rewrite Forall_lookup in Hf. apply (Hf k). by apply list_lookup_lookup_total_lt; rewrite Hw.
  - replace k with (624 + (k - 624))%nat by lia. rewrite mt_word_next by done. apply word32_recur; apply IH; lia.
Qed.

(** ** The code computes the twister *)

Lemma mt_get_ok mt i x : 0 <= i -> mt !! Z.to_nat i = Some x -> mt_get mt i = Ret x.
Proof. intros Hi E. unfold mt_get. rewrite (proj2 (Z.ltb_ge _ _)) by done. by rewrite E. Qed.
Lemma mt_set_ok mt i x : 0 <= i < Z.of_nat (length mt) -> mt_set mt i x = Ret (<[Z.to_nat i := x]> mt).
Proof. intros Hi. unfold mt_set. by rewrite (proj2 (Z.leb_le _ _)), (proj2 (Z.ltb_lt _ _)) by lia. Qed.

Lemma init_loop seed mt : length mt = 624%nat -> mt !! 0%nat = Some seed ->
  for_range 1 624 init_word mt = Ret (seeded seed <$> seq 0 624).
Proof.
  intros Hlen H0. destruct (for_range_inv (fun i mt => length mt = 624%nat /\ forall j, (Z.of_nat j < i) -> mt !! j = Some (seeded seed j)) 1 624 init_word mt) as (mt' & -> & Hl & Hm).
  - lia.
  - split; [done|]. intros j Hj. by replace j with 0%nat by lia.
  - intros i m Hi [Hl Hm]. unfold init_word. rewrite (mt_get_ok m (i - 1) (seeded seed (Z.to_nat (i - 1)))); [|lia|apply Hm; lia].
    cbn [mbind outcome_bind]. rewrite mt_set_ok by lia. eexists. split; [done|]. split; [by rewrite length_insert|]. intros j Hj.
    destruct (decide (j = Z.to_nat i)) as [->|Hne]; [|rewrite list_lookup_insert_ne by done; apply Hm; lia]. rewrite list_lookup_insert_eq by lia. f_equal.
    replace (Z.to_nat i) with (S (Z.to_nat (i - 1))) by lia. cbn [seeded]. unfold u32. do 2 f_equal. lia.
  - f_equal. apply list_eq. intros j. destruct (decide (j < 624)%nat) as [Hj|Hj].
    + rewrite Hm by lia. rewrite list_lookup_fmap, lookup_seq_lt by done. done.
    + rewrite !lookup_ge_None_2; [done|rewrite length_fmap, length_seq; lia|lia].
Qed.

Ltac ltb_cases := repeat match goal with |- context [?a <? ?b] => destruct (Z.ltb_spec a b) end.

Section sequence.
Context (w : list Z) (Hw : length w = 624%nat) (Hf : Forall word32 w).

(** The table while its words from [B] on are replaced, [i] of them so far. *)
Definition twisting (B : nat) (i : Z) (mt : list Z) : Prop :=
  length mt = 624%nat /\ forall j, (j < 624)%nat -> mt !! j = Some (mt_word w (if Z.of_nat j <? i then B + 624 + j else B + j)).

Lemma twist_word_ok B i i1 i397 mt : 0 <= i < 624 -> twisting B i mt ->
  i1 = (if i <? 623 then i + 1 else i + 1 - 624) -> i397 = (if i <? 227 then i + 397 else i + 397 - 624) -> returns (twist_word i i1 i397 mt) (twisting B (i + 1)).
Proof.
  intros Hi [Hl Hm] E1 E397. unfold twist_word.
  assert (Hg : forall k j, 0 <= j < 624 -> k = (if j <? i then (B + 624 + Z.to_nat j)%nat else (B + Z.to_nat j)%nat) -> mt_get mt j = Ret (mt_word w k)).
  { intros k j Hj ->. apply mt_get_ok; [lia|]. rewrite Hm by lia. by rewrite Z2Nat.id by lia. }
  rewrite (Hg (B + Z.to_nat i)%nat i) by (ltb_cases; lia). cbn [mbind outcome_bind].
  rewrite (Hg (B + Z.to_nat i + 1)%nat i1); [|subst i1; ltb_cases; lia|subst i1; ltb_cases; lia]. cbn [mbind outcome_bind].
  rewrite (Hg (B + Z.to_nat i + 397)%nat i397); [|subst i397; ltb_cases; lia|subst i397; ltb_cases; lia]. cbn [mbind outcome_bind].
  rewrite mt_set_ok by lia. rewrite (recur_code _ _ _ _ (proj1 (mt_word32 w _ Hw Hf)) (proj1 (mt_word32 w _ Hw Hf)) eq_refl), <- mt_word_next by done.
  eexists. split; [done|]. split; [by rewrite length_insert|]. intros j Hj. destruct (decide (j = Z.to_nat i)) as [->|Hne].
  - rewrite list_lookup_insert_eq by lia. do 2 f_equal. destruct (Z.ltb_spec (Z.of_nat (Z.to_nat i)) (i + 1)); lia.
  - rewrite list_lookup_insert_ne by done. rewrite Hm by done. do 2 f_equal. destruct (Z.ltb_spec (Z.of_nat j) i), (Z.ltb_spec (Z.of_nat j) (i + 1)); lia.
Qed.

(** The context after [k] numbers. *)
Definition drawn (k : nat) (ctx : random_mt_ctx) : Prop :=
  exists B, 0 <= mt_index ctx <= 624 /\ (624 + k = B + Z.to_nat (mt_index ctx))%nat /\ twisting B 0 (mt_words ctx).

Lemma twist_ok B mt : twisting B 0 mt -> exists mt', random_mt_twist (RandomMt 624 mt) = Ret (RandomMt 0 mt') /\ twisting (B + 624) 0 mt'.
Proof.
  intros Ht. unfold random_mt_twist. cbn [mt_words].
  destruct (for_range_inv (twisting B) 0 227 (fun i => twist_word i (i + 1) (i + 397)) mt) as (m1 & -> & H1); [lia|done| |].
  { intros i m Hi Hm. apply (twist_word_ok B i); [lia|done| |]; case_match; lia. }
  cbn [mbind outcome_bind]. destruct (for_range_inv (twisting B) 227 623 (fun i => twist_word i (i + 1) (i + 397 - 624)) m1) as (m2 & -> & H2); [lia|done| |].
  { intros i m Hi Hm. apply (twist_word_ok B i); [lia|done| |]; case_match; lia. }
  cbn [mbind outcome_bind]. destruct (for_range_inv (twisting B) 623 624 (fun i => twist_word i (i + 1 - 624) (i + 397 - 624)) m2) as (m3 & -> & H3); [lia|done| |].
  { intros i m Hi Hm. apply (twist_word_ok B i); [lia|done| |]; case_match; lia. }
  cbn [mbind outcome_bind]. exists m3. split; [done|]. destruct H3 as [Hl Hm]. split; [done|]. intros j Hj. rewrite Hm by done. do 2 f_equal.
  destruct (Z.ltb_spec (Z.of_nat j) 624), (Z.ltb_spec (Z.of_nat j) 0); lia.
Qed.
Lemma random_mt_ok k ctx : drawn k ctx -> exists ctx', random_mt ctx = Ret (temper (mt_word w (624 + k)), ctx') /\ drawn (S k) ctx'.
Proof.
  assert (Hread : forall i mt B, 0 <= i < 624 -> (624 + k = B + Z.to_nat i)%nat -> twisting B 0 mt ->
    exists ctx', (y ← mt_get mt i; Ret (temper y, RandomMt (i + 1) mt)) = Ret (temper (mt_word w (624 + k)), ctx') /\ drawn (S k) ctx').
  { intros i mt B Hi HB Hm. rewrite (mt_get_ok mt i (mt_word w (624 + k))); [|lia|].
    - cbn [mbind outcome_bind]. eexists. split; [done|]. exists B. cbn [mt_index mt_words]. split; [lia|]. split; [lia|done].
    - destruct Hm as [_ Hm]. rewrite Hm by lia. do 2 f_equal. destruct (Z.ltb_spec (Z.of_nat (Z.to_nat i)) 0); lia. }
  destruct ctx as [i mt]. intros (B & Hi & HB & Hm). cbn [mt_index mt_words] in *. unfold random_mt. cbn [mt_index]. rewrite Z.geb_leb. destruct (Z.leb_spec 624 i) as [Hge|Hlt].
  - replace i with 624 in * by lia. destruct (twist_ok B mt Hm) as (mt' & -> & Hm'). cbn [mbind outcome_bind mt_words mt_index].
    apply (Hread 0 mt' (B + 624)%nat); [lia|lia|done].
  - cbn [mbind outcome_bind mt_words mt_index]. apply (Hread i mt B); [lia|lia|done].
Qed.
End sequence.

(** ** Filling a buffer *)

Section filling.
Context `{Host} (w : list Z) (Hw : length w = 624%nat) (Hf : Forall word32 w).
Context (m0 : mem) (buf bufsiz : Z) (Hsiz : 0 <= bufsiz) (Hv : valid m0 buf bufsiz).
Abbreviation out k := (temper (mt_word w (624 + k))).

(** The bytes of the first [q] numbers and the low bytes of the [r] after them. *)
Definition out_bytes (q r : nat) : list Z := mjoin ((fun k => host_encode 4 (out k)) <$> seq 0 q) ++ ((fun k => u8 (out k)) <$> seq q r).

Lemma out_bytes_length q r : Z.of_nat (length (out_bytes q r)) = 4 * Z.of_nat q + Z.of_nat r.
Proof.
  unfold out_bytes. rewrite length_app, length_fmap, length_seq. assert (Hq : forall a, length (mjoin ((fun k => host_encode 4 (out k)) <$> seq a q)) = (4 * q)%nat); [|rewrite Hq; lia].
  induction q as [|q IH]; intros a; [done|]. change (seq a (S q)) with (a :: seq (S a) q). rewrite fmap_cons. change (mjoin (?x :: ?l)) with (x ++ mjoin l).
  rewrite length_app, encode_length, IH. lia.
Qed.
Lemma out_bytes_ok q r : Forall (fun b => 0 <= b < 256) (out_bytes q r).
Proof.
  unfold out_bytes. apply list.Forall_app. split; [|apply Forall_fmap, list.Forall_forall; intros; simpl; apply u8_range].
  apply list.Forall_forall. intros b (l & Hb & (k & -> & _)%list_elem_of_fmap)%list_elem_of_join. pose proof (encode_byte_list _ 4 (out k)) as He. rewrite list.Forall_forall in He. auto.
Qed.
Lemma out_bytes_word q : out_bytes (S q) 0 = out_bytes q 0 ++ host_encode 4 (out q).
Proof. unfold out_bytes. simpl (seq _ 0). rewrite seq_S, fmap_app, !app_nil_r. simpl. rewrite join_app. simpl. by rewrite app_nil_r. Qed.
Lemma out_bytes_byte q r : out_bytes q (S r) = out_bytes q r ++ [u8 (out (q + r))].
Proof. unfold out_bytes. by rewrite seq_S, fmap_app, app_assoc. Qed.

(** The state after [q] numbers and [r] single bytes. *)
Definition filled (q r : nat) (s : random_mt_ctx * mem) : Prop := drawn w (q + r) s.1 /\ storen m0 buf (out_bytes q r) = Ret s.2.

Lemma put_random_ok q s : filled q 0 s -> 4 * Z.of_nat q + 4 <= bufsiz -> returns (put_random s (buf + 4 * Z.of_nat q)) (filled (S q) 0).
Proof.
  intros [Hd Hs] Hle. unfold put_random. rewrite Nat.add_0_r in Hd. destruct (random_mt_ok w Hw Hf q s.1 Hd) as (ctx' & -> & Hd'). cbn [mbind outcome_bind fst snd].
  destruct (storen_ok m0 buf (out_bytes (S q) 0)) as (m' & E & _); [|apply out_bytes_ok|].
  { eapply valid_sub; [exact Hv|lia|]. rewrite out_bytes_length. lia. }
  pose proof E as E'. rewrite out_bytes_word, storen_app, Hs in E'. cbn [mbind outcome_bind] in E'. rewrite out_bytes_length in E'.
  replace (buf + (4 * Z.of_nat q + Z.of_nat 0)) with (buf + 4 * Z.of_nat q) in E' by lia. unfold hdr_set32h. rewrite E'. cbn [mbind outcome_bind].
  eexists. split; [done|]. split; [by rewrite Nat.add_0_r|done].
Qed.
Definition words_left (n : Z) (s : random_mt_ctx * mem * Z * Z) : Prop :=
  exists q, filled q 0 s.1.1 /\ s.1.2 = buf + 4 * Z.of_nat q /\ s.2 = bufsiz - 4 * Z.of_nat q /\ 0 <= s.2 /\ (n = 0 \/ s.2 < n).

Lemma bytes16_ok s : words_left 0 s -> returns (iter (S (Z.to_nat s.2)) bytes16_step s) (words_left 16).
Proof.
  intros HI. apply (iter_total bytes16_step (words_left 0) (fun s => Z.to_nat s.2)); [|done|lia].
  clear s HI. intros [[c p] n] (q & Hq & Hp & Hn & Hpos & _). cbn [fst snd] in *. unfold bytes16_step. rewrite Z.geb_leb. destruct (Z.leb_spec 16 n) as [Hge|Hlt].
  2: { eexists. split; [done|]. exists q. cbn [fst snd]. split_and!; try done. by right. }
  subst p. destruct (put_random_ok q c Hq) as (c1 & -> & H1); [lia|]. cbn [mbind outcome_bind].
  destruct (put_random_ok (S q) c1 H1) as (c2 & E2 & H2); [lia|]. replace (buf + 4 * Z.of_nat (S q)) with (buf + 4 * Z.of_nat q + 4) in E2 by lia. rewrite E2. cbn [mbind outcome_bind].
  destruct (put_random_ok (S (S q)) c2 H2) as (c3 & E3 & H3); [lia|]. replace (buf + 4 * Z.of_nat (S (S q))) with (buf + 4 * Z.of_nat q + 8) in E3 by lia. rewrite E3. cbn [mbind outcome_bind].
  destruct (put_random_ok (S (S (S q))) c3 H3) as (c4 & E4 & H4); [lia|]. replace (buf + 4 * Z.of_nat (S (S (S q)))) with (buf + 4 * Z.of_nat q + 12) in E4 by lia. rewrite E4. cbn [mbind outcome_bind].
  eexists. split; [done|]. cbn [fst snd]. split; [|lia]. exists (S (S (S (S q)))). cbn [fst snd]. split_and!; try done; try lia.
Qed.
Lemma bytes4_ok s : words_left 16 s -> returns (iter (S (Z.to_nat bufsiz)) bytes4_step s) (words_left 4).
Proof.
  intros HI. apply (iter_total bytes4_step (words_left 0) (fun s => Z.to_nat s.2)); [| |].
  - clear s HI. intros [[c p] n] (q & Hq & Hp & Hn & Hpos & _). cbn [fst snd] in *. unfold bytes4_step. rewrite Z.geb_leb. destruct (Z.leb_spec 4 n) as [Hge|Hlt].
    2: { eexists. split; [done|]. exists q. cbn [fst snd]. split_and!; try done. by right. }
    subst p. destruct (put_random_ok q c Hq) as (c1 & -> & H1); [lia|]. cbn [mbind outcome_bind].
    eexists. split; [done|]. cbn [fst snd]. split; [|lia]. exists (S q). cbn [fst snd]. split_and!; try done; try lia.
  - destruct HI as (q & ? & ? & ? & ? & _). exists q. split_and!; try done. by left.
  - destruct HI as (q & _ & _ & -> & Hp & _). lia.
Qed.
Definition bytes_left (q : nat) (s : random_mt_ctx * mem * Z * Z) : Prop :=
  exists r, filled q r s.1.1 /\ s.1.2 = buf + 4 * Z.of_nat q + Z.of_nat r /\ s.2 = bufsiz - 4 * Z.of_nat q - Z.of_nat r /\ 0 <= s.2.
Lemma bytes1_ok s q : bytes_left q s -> returns (iter (S (Z.to_nat bufsiz)) bytes1_step s) (fun s => bytes_left q s /\ s.2 = 0).
Proof.
  intros HI. apply (iter_total bytes1_step (bytes_left q) (fun s => Z.to_nat s.2)); [|done|destruct HI as (r & _ & _ & -> & Hp); lia].
  clear s HI. intros [[[ctx m] p] n] (r & [Hd Hs] & Hp & Hn & Hpos). cbn [fst snd] in *. unfold bytes1_step. rewrite Z.geb_leb. destruct (Z.leb_spec 1 n) as [Hge|Hlt].
  2: { eexists. split; [done|]. cbn [fst snd]. split; [by exists r|lia]. }
  cbn [fst snd]. destruct (random_mt_ok w Hw Hf (q + r) ctx Hd) as (ctx' & -> & Hd'). cbn [mbind outcome_bind fst snd].
  destruct (storen_ok m0 buf (out_bytes q (S r))) as (m' & E & _); [|apply out_bytes_ok|].
  { eapply valid_sub; [exact Hv|lia|]. rewrite out_bytes_length. lia. }
  pose proof E as E'. rewrite out_bytes_byte, storen_app, Hs in E'. cbn [mbind outcome_bind] in E'. rewrite out_bytes_length in E'. cbn [storen] in E'.
  replace (buf + (4 * Z.of_nat q + Z.of_nat r)) with p in E' by lia. unfold hdr_set8h.
  destruct (store8 m p (u8 (out (q + r)))) as [m1| | |] eqn:E1; try done. cbn [mbind outcome_bind] in E' |- *. injection E' as ->.
  eexists. split; [done|]. cbn [fst snd]. split; [|lia]. exists (S r). cbn [fst snd]. split_and!; try lia. split; [by rewrite Nat.add_succ_r|done].
Qed.
Lemma random_mt_bytes_ok ctx : drawn w 0 ctx ->
  returns (random_mt_bytes ctx m0 buf bufsiz) (fun s => storen m0 buf (out_bytes (Z.to_nat (bufsiz / 4)) (Z.to_nat (bufsiz mod 4))) = Ret s.2).
Proof.
  intros Hd. unfold random_mt_bytes. eapply returns_bind.
  { apply (bytes16_ok ((ctx, m0), buf, bufsiz)). exists 0%nat. cbn [fst snd]. split_and!; try lia; done. }
  intros s1 H1. eapply returns_bind; [by apply bytes4_ok|]. intros s2 (q & Hq & Hp & Hn & Hpos & Hlt). destruct Hlt as [|Hlt]; [done|].
  eapply returns_bind; [apply (bytes1_ok s2 q); exists 0%nat; split_and!; try done; lia|]. intros s3 [(r & [_ Hs] & _ & Hn3 & _) Hz]. eexists. split; [done|].
  assert (bufsiz / 4 = Z.of_nat q /\ bufsiz mod 4 = Z.of_nat r) as [-> ->] by lia. by rewrite !Nat2Z.id.
Qed.
End filling.

(** The results of [n] calls. *)
Fixpoint draws (n : nat) (ctx : random_mt_ctx) : outcome (list Z * random_mt_ctx) :=
  match n with
  | O => Ret ([], ctx)
  | S n => r ← random_mt ctx; q ← draws n r.2; Ret (r.1 :: q.1, q.2)
  end.
Lemma draws_ok w n : length w = 624%nat -> Forall word32 w -> forall k ctx, drawn w k ctx ->
  exists ctx', draws n ctx = Ret ((fun i => temper (mt_word w (624 + i))) <$> seq k n, ctx') /\ drawn w (k + n) ctx'.
Proof.
  intros Hw Hf. induction n as [|n IH]; intros k ctx Hd; cbn [draws].
  - exists ctx. split; [done|]. by rewrite Nat.add_0_r.
  - destruct (random_mt_ok w Hw Hf k ctx Hd) as (c1 & -> & H1). cbn [mbind outcome_bind fst snd]. destruct (IH (S k) c1 H1) as (c2 & -> & H2). cbn [mbind outcome_bind fst snd].
    exists c2. split; [done|]. by rewrite Nat.add_succ_r.
Qed.
Lemma seeded_word32 seed k : word32 seed -> word32 (seeded seed k).
Proof. intros Hs. destruct k as [|k]; [done|]. cbn [seeded]. apply Z.mod_pos_bound. lia. Qed.

(** ** The tempering *)

Lemma of_bits_bit n x i : 0 <= i -> Z.testbit (of_bits n x) i = if i <? Z.of_nat n then x i else false.
Proof.
  intros Hi. induction n as [|n IH]; cbn [of_bits]; [rewrite Z.bits_0; destruct (Z.ltb_spec i (Z.of_nat 0)); [lia|done]|].
  rewrite Z.lor_spec, IH. destruct (decide (i = Z.of_nat n)) as [->|Hne].
  - rewrite Z.ltb_irrefl, (proj2 (Z.ltb_lt (Z.of_nat n) (Z.of_nat (S n)))) by lia. destruct (x (Z.of_nat n)); [by rewrite Z.pow2_bits_true by lia|by rewrite Z.bits_0].
  - assert (Z.testbit (if x (Z.of_nat n) then 2 ^ Z.of_nat n else 0) i = false) as -> by (destruct (x (Z.of_nat n)); [apply Z.pow2_bits_false; lia|apply Z.bits_0]).
    rewrite orb_false_r. destruct (Z.ltb_spec i (Z.of_nat n)), (Z.ltb_spec i (Z.of_nat (S n))); done || lia.
Qed.
Lemma word32_high y i : word32 y -> 32 <= i -> Z.testbit y i = false.
Proof. intros Hy Hi. unfold word32 in Hy. rewrite <- (Z.mod_small y (2 ^ 32)) by lia. apply Z.mod_pow2_bits_high. lia. Qed.
(** The factors of the tempering, bit by bit. *)
Lemma bit_above y u i : word32 y -> 0 <= i < 32 -> 0 <= u -> Z.testbit (Z.lxor y (Z.shiftr y u)) i = add_above u (Z.testbit y) i.
Proof.
  intros Hy Hi Hu. rewrite Z.lxor_spec, Z.shiftr_spec by lia. unfold add_above. destruct (Z.ltb_spec (i + u) 32); [done|]. by rewrite (word32_high y (i + u)).
Qed.
Lemma bit_below y u mask i : 0 <= i < 32 -> 0 <= u -> Z.testbit (Z.lxor y (Z.land (u32 (Z.shiftl y u)) mask)) i = add_below u mask (Z.testbit y) i.
Proof.
  intros Hi Hu. rewrite Z.lxor_spec, Z.land_spec. unfold u32. change 4294967296 with (2 ^ 32). rewrite Z.mod_pow2_bits_low, Z.shiftl_spec by lia. unfold add_below.
  destruct (Z.leb_spec u i); [|by rewrite (Z.testbit_neg_r y (i - u)) by lia]. f_equal. destruct (Z.testbit mask i); [by rewrite andb_true_r|by rewrite andb_false_r].
Qed.
Lemma add_above_ext u x x' i : (forall j, 0 <= j < 32 -> x j = x' j) -> 0 <= i < 32 -> 0 <= u -> add_above u x i = add_above u x' i.
Proof. intros E Hi Hu. unfold add_above. rewrite E by done. destruct (Z.ltb_spec (i + u) 32); [|done]. by rewrite E by lia. Qed.
Lemma add_below_ext u mask x x' i : (forall j, 0 <= j < 32 -> x j = x' j) -> 0 <= i < 32 -> 0 <= u -> add_below u mask x i = add_below u mask x' i.
Proof. intros E Hi Hu. unfold add_below. rewrite E by done. destruct (Z.leb_spec u i); [|done]. by rewrite E by lia. Qed.
Lemma temper_ok y : word32 y -> temper y = mt_temper y.
Proof.
  intros Hy. pose proof (word32_temper y Hy) as Ht. apply Z.bits_inj'. intros i Hi. unfold mt_temper. rewrite of_bits_bit by done. destruct (Z.ltb_spec i (Z.of_nat 32)) as [Hlt|]; [|apply word32_high; [done|lia]].
  assert (Hstep : forall y n c, word32 y -> word32 c -> word32 (Z.lxor y (Z.land (u32 n) c))) by (intros; apply word32_lxor; [done|]; apply word32_land; [apply u32_range|done]).
  unfold temper, tempered. set (y1 := Z.lxor y (Z.shiftr y 11)). set (y2 := Z.lxor y1 _). set (y3 := Z.lxor y2 _).
  assert (word32 y1) as H1 by (apply word32_lxor; [done|by apply word32_shiftr]). assert (word32 y2) as H2 by (apply Hstep; [done|unfold word32; lia]).
  assert (word32 y3) as H3 by (apply Hstep; [done|unfold word32; lia]).
  rewrite (bit_above y3) by (done || lia). apply add_above_ext; [|lia|lia]. intros j Hj. unfold y3. rewrite bit_below by lia. apply add_below_ext; [|lia|lia].
  clear j Hj. intros j Hj. unfold y2. rewrite bit_below by lia. apply add_below_ext; [|lia|lia]. clear j Hj. intros j Hj. unfold y1. by apply bit_above.
Qed.

#[local] Opaque mt_temper.
#[local] Opaque mt_word temper.
Lemma table_drawn w : length w = 624%nat -> drawn w 0 (RandomMt 624 w).
Proof.
  intros Hw. exists 0%nat. cbn [mt_index mt_words]. split; [lia|]. split; [lia|]. split; [done|]. intros j Hj. destruct (Z.ltb_spec (Z.of_nat j) 0); [lia|].
  rewrite mt_word_first by done. apply list_lookup_lookup_total_lt. by rewrite Hw.
Qed.
(** A context that is about to draw the first word after those of its table. *)
Lemma table_draws `{Host} w n m buf bufsiz : length w = 624%nat -> Forall word32 w -> 0 <= bufsiz -> valid m buf bufsiz ->
  (exists ctx', draws n (RandomMt 624 w) = Ret ((fun k => temper (mt_word w (624 + k))) <$> seq 0 n, ctx')) /\
  (exists ctx' m', random_mt_bytes (RandomMt 624 w) m buf bufsiz = Ret (ctx', m') /\
    storen m buf (mjoin ((fun k => host_encode 4 (temper (mt_word w (624 + k)))) <$> seq 0 (Z.to_nat (bufsiz / 4))) ++
      ((fun k => temper (mt_word w (624 + k)) mod 256) <$> seq (Z.to_nat (bufsiz / 4)) (Z.to_nat (bufsiz mod 4)))) = Ret m').
Proof.
  intros Hw Hf Hsiz Hv. pose proof (table_drawn w Hw) as Hd.
  split; [destruct (draws_ok w n Hw Hf 0 _ Hd) as (c & E & _); exists c; exact E|].
  destruct (random_mt_bytes_ok w Hw Hf m buf bufsiz Hsiz Hv _ Hd) as ([c m'] & E & Hs). unfold out_bytes, u8 in Hs. exists c, m'. split; [exact E|exact Hs].
Qed.

(** C12: the generator is MT19937.  Seeded with any 32-bit number, whatever was in
    its table, [random_mt] returns the words of the recurrence of the Mersenne
    Twister in order, tempered as the reference says (written bit by bit, with its
    own constants), and [random_mt_bytes] fills a buffer of any size and
    nothing else with them: four bytes of each number, and the low byte of a number
    for each of the last bytes. *)
Theorem random_mt_is_mt19937 (host : Host) (ctx : random_mt_ctx) (seed : Z) (n : nat) (m : mem) (buf bufsiz : Z) :
  length (mt_words ctx) = 624%nat -> 0 <= seed < 2 ^ 32 -> 0 <= bufsiz -> valid m buf bufsiz ->
  exists ctx0, random_mt_ctx_init ctx seed = Ret ctx0 /\
    (exists ctx', draws n ctx0 = Ret (mt19937 seed <$> seq 0 n, ctx')) /\
    (exists ctx' m', random_mt_bytes ctx0 m buf bufsiz = Ret (ctx', m') /\
      storen m buf (mjoin ((fun k => host_encode 4 (mt19937 seed k)) <$> seq 0 (Z.to_nat (bufsiz / 4))) ++
        ((fun k => mt19937 seed k mod 256) <$> seq (Z.to_nat (bufsiz / 4)) (Z.to_nat (bufsiz mod 4)))) = Ret m').
Proof.
  intros Hlen Hseed Hsiz Hv. exists (RandomMt 624 (seeded seed <$> seq 0 624)). split.
  - unfold random_mt_ctx_init. rewrite mt_set_ok by lia. cbn [mbind outcome_bind]. rewrite (init_loop seed); [reflexivity|by rewrite length_insert|].
    apply list_lookup_insert_eq. lia.
  - assert (length (seeded seed <$> seq 0 624) = 624%nat) as Hl by by rewrite length_fmap, length_seq.
    assert (Forall word32 (seeded seed <$> seq 0 624)) as Hw by (apply Forall_fmap, list.Forall_forall; intros k _; by apply seeded_word32).
    assert (Ho : forall B (F : Z -> B) (l : list nat), (fun k => F (temper (mt_word (seeded seed <$> seq 0 624) (624 + k)))) <$> l = (fun k => F (mt19937 seed k)) <$> l).
    { intros B F l. apply list_fmap_ext. intros i k _. unfold mt19937. by rewrite temper_ok by by apply mt_word32. }
    destruct (table_draws _ n m buf bufsiz Hl Hw Hsiz Hv) as [Hd Hby].
    rewrite (Ho _ (fun x => x)) in Hd. rewrite (Ho _ (host_encode 4)), (Ho _ (fun x => x mod 256)) in Hby. split; [exact Hd|exact Hby].
Qed.
Lemma random_mt_is_mt19937_witness :
  exists ctx0, random_mt_ctx_init (RandomMt 7 (replicate 624 9)) 5489 = Ret ctx0 /\ exists ctx', draws 3 ctx0 = Ret (mt19937 5489 <$> seq 0 3, ctx').
Proof.
  destruct (random_mt_is_mt19937 little_endian_host (RandomMt 7 (replicate 624 9)) 5489 3 (mem_fun 6 (fun _ => 0)) 0 6) as (ctx0 & E & Hd & _).
  - reflexivity.
  - lia.
  - lia.
  - apply mem_fun_valid.
  - exists ctx0. split; [exact E|exact Hd].
Defined.
(** The first numbers of the published generator for its default seed. *)
Example first_numbers : (c ← random_mt_ctx_init (RandomMt 0 (replicate 624 0)) 5489; r ← draws 3 c; Ret r.1) = Ret [3499211612; 581869302; 3890346734].
Proof. vm_compute. reflexivity. Qed.
