(* ===== verification/SkipList.v ===== *)
(** Timers in a skip list: timerskiplist/timerskiplist.h and
    timerskiplist/timerskiplist.c.

    A timer is a cell of the memory at its address, and so is the dummy timer at
    the head of the list; the other fields of [struct priv_timer] are a record.
    Of the status only the state is kept (nothing reads the owner).  There is one
    thread, so the state that another core could set between two accesses is the
    one that was read.  [RTE_ARCH_X86_64] is not defined. *)
From S2P Require Import Prelude Bytes Packet RandomMt.

Definition MAX_SKIPLIST_DEPTH : Z := 10.
Definition RTE_TIMER_STOP : Z := 0.
Definition RTE_TIMER_PENDING : Z := 1.
Definition RTE_TIMER_RUNNING : Z := 2.
Definition RTE_TIMER_CONFIG : Z := 3.
Definition TIMER_UINT64_MAX : Z := 18446744073709551615.

Record timer_skiplist := Tim {
  tim_time64 : Z; sl_next : list Z; tim_state : Z; tim_period : Z; tim_fn : Z; tim_userdata : Z }.
Record priv_timer := Priv {
  pending_head : Z; updated : Z; curr_skiplist_depth : Z; prev_lcore : Z; priv_ctx : random_mt_ctx; running_tim : Z }.
Inductive timer_skiplist_type := SINGLE | PERIODICAL.

Abbreviation timers := (gmap Z timer_skiplist).

(** ** Fields *)
Definition get_tim (H : timers) (p : Z) : outcome timer_skiplist := of_option (H !! p).
Definition upd_tim (H : timers) (p : Z) (f : timer_skiplist -> timer_skiplist) : outcome timers :=
  t ← get_tim H p; Ret (<[p := f t]> H).
Definition next_at (H : timers) (p : Z) (i : nat) : outcome Z := t ← get_tim H p; of_option (sl_next t !! i).
Definition with_next (i : nat) (v : Z) (t : timer_skiplist) : timer_skiplist :=
  Tim (tim_time64 t) (<[i := v]> (sl_next t)) (tim_state t) (tim_period t) (tim_fn t) (tim_userdata t).
Definition set_next_at (H : timers) (p : Z) (i : nat) (v : Z) : outcome timers :=
  _ ← next_at H p i; upd_tim H p (with_next i v).
Definition with_time (v : Z) (t : timer_skiplist) : timer_skiplist :=
  Tim v (sl_next t) (tim_state t) (tim_period t) (tim_fn t) (tim_userdata t).
Definition with_state (v : Z) (t : timer_skiplist) : timer_skiplist :=
  Tim (tim_time64 t) (sl_next t) v (tim_period t) (tim_fn t) (tim_userdata t).
Definition with_args (time period fn arg : Z) (t : timer_skiplist) : timer_skiplist :=
  Tim time (sl_next t) (tim_state t) period fn arg.
Definition time_at (H : timers) (p : Z) : outcome Z := t ← get_tim H p; Ret (tim_time64 t).

Definition with_depth (d : Z) (pv : priv_timer) : priv_timer :=
  Priv (pending_head pv) (updated pv) d (prev_lcore pv) (priv_ctx pv) (running_tim pv).
Definition with_ctx (c : random_mt_ctx) (pv : priv_timer) : priv_timer :=
  Priv (pending_head pv) (updated pv) (curr_skiplist_depth pv) (prev_lcore pv) c (running_tim pv).
Definition with_updated (u : Z) (pv : priv_timer) : priv_timer :=
  Priv (pending_head pv) u (curr_skiplist_depth pv) (prev_lcore pv) (priv_ctx pv) (running_tim pv).
Definition with_running (r : Z) (pv : priv_timer) : priv_timer :=
  Priv (pending_head pv) (updated pv) (curr_skiplist_depth pv) (prev_lcore pv) (priv_ctx pv) r.

(** A local array of 11 pointers; [None] was never written. *)
Abbreviation prev_array := (list (option Z)).
Definition new_prev : prev_array := replicate 11 None.
Definition prev_get (prev : prev_array) (i : nat) : outcome Z := of_option (mjoin (prev !! i)).
Definition prev_set (prev : prev_array) (i : nat) (v : Z) : outcome prev_array :=
  if (i <? length prev)%nat then Ret (<[i := Some v]> prev) else Undef.

(** A list has no more nodes than the memory. *)
Definition list_fuel (H : timers) : nat := S (size H).

(** ** Initialisation *)

(** [memset] clears the dummy timer as well; [mt] is what the table of the
    generator held. *)
Definition zero_tim : timer_skiplist := Tim 0 (replicate 10 0) 0 0 0 0.
Definition timer_skiplist_subsystem_init (H : timers) (head : Z) (mt : random_mt_ctx) : outcome (timers * priv_timer) :=
  H ← upd_tim H head (fun _ => zero_tim);
  ctx ← random_mt_ctx_init mt 0x12345678;
  Ret (H, Priv head 0 0 0 ctx 0).
Definition timer_skiplist_init (H : timers) (tim : Z) : outcome timers := upd_tim H tim (with_state RTE_TIMER_STOP).

(** ** States.  [None] is the return value -1. *)
Definition timer_set_config_state (H : timers) (pv : priv_timer) (tim : Z) : outcome (timers * option Z) :=
  t ← get_tim H tim;
  let prev_state := tim_state t in
  if (prev_state =? RTE_TIMER_RUNNING) && negb (tim =? running_tim pv) then Ret (H, None) else
  if prev_state =? RTE_TIMER_CONFIG then Ret (H, None) else
  H ← upd_tim H tim (with_state RTE_TIMER_CONFIG);
  Ret (H, Some prev_state).
Definition timer_set_running_state (H : timers) (tim : Z) : outcome (timers * bool) :=
  t ← get_tim H tim;
  if negb (tim_state t =? RTE_TIMER_PENDING) then Ret (H, false) else
  H ← upd_tim H tim (with_state RTE_TIMER_RUNNING);
  Ret (H, true).

(** ** Levels *)

(** [__builtin_ctz] *)
Definition rte_bsf32 (v : Z) : Z := Z.log2 (Z.land v (- v)).
Definition timer_get_skiplist_level (ctx : random_mt_ctx) (curr_depth : Z) : outcome (Z * random_mt_ctx) :=
  r ← random_mt ctx;
  let rand := Z.land r.1 (4294967295 - 1) in
  let level := if rand =? 0 then MAX_SKIPLIST_DEPTH else u32 (rte_bsf32 rand - 1) / 2 in
  let level := if level >? curr_depth then curr_depth else level in
  let level := if level >=? MAX_SKIPLIST_DEPTH then MAX_SKIPLIST_DEPTH - 1 else level in
  Ret (level, r.2).

(** ** The entries before a time or a timer, at every level *)

(** One step along level [lvl]; [skip] is a timer not to step on, 0 if there is
    none. *)
Definition advance_step (H : timers) (lvl : nat) (skip time_val : Z) (p : Z) : outcome (Z + Z) :=
  n ← next_at H p lvl;
  if n =? 0 then Ret (inr p) else
  if negb (skip =? 0) && (n =? skip) then Ret (inr p) else
  t ← time_at H n;
  if t <=? time_val then Ret (inl n) else Ret (inr p).
Fixpoint prev_levels (H : timers) (time_val : Z) (lvl : nat) (prev : prev_array) : outcome prev_array :=
  match lvl with
  | O => Ret prev
  | S lvl =>
      p ← prev_get prev (S lvl);
      p ← iter (list_fuel H) (advance_step H lvl 0 time_val) p;
      prev ← prev_set prev lvl p;
      prev_levels H time_val lvl prev
  end.
Definition timer_get_prev_entries (H : timers) (pv : priv_timer) (time_val : Z) : outcome prev_array :=
  let lvl := Z.to_nat (curr_skiplist_depth pv) in
  prev ← prev_set new_prev lvl (pending_head pv);
  prev_levels H time_val lvl prev.

Fixpoint prev_to_node (H : timers) (tim time_val : Z) (i : nat) (prev : prev_array) : outcome prev_array :=
  match i with
  | O => Ret prev
  | S i =>
      p ← prev_get prev i;
      p ← iter (list_fuel H) (advance_step H i tim time_val) p;
      prev ← prev_set prev i p;
      prev_to_node H tim time_val i prev
  end.
Definition timer_get_prev_entries_for_node (H : timers) (pv : priv_timer) (tim : Z) : outcome prev_array :=
  t ← time_at H tim;
  prev ← timer_get_prev_entries H pv (u64 (t - 1));
  prev_to_node H tim t (Z.to_nat (curr_skiplist_depth pv)) prev.

(** ** Adding and removing *)

(** The levels from [lvl] down to 0. *)
Fixpoint link_levels (H : timers) (tim : Z) (prev : prev_array) (lvl : nat) : outcome timers :=
  p ← prev_get prev lvl;
  n ← next_at H p lvl;
  H ← set_next_at H tim lvl n;
  H ← set_next_at H p lvl tim;
  match lvl with O => Ret H | S lvl => link_levels H tim prev lvl end.
(** [priv->pending_head.time64 = priv->pending_head.sl_next[0]->time64] *)
Definition timer_skiplist_add (H : timers) (pv : priv_timer) (tim : Z) : outcome (timers * priv_timer) :=
  t ← time_at H tim;
  prev ← timer_get_prev_entries H pv t;
  r ← timer_get_skiplist_level (priv_ctx pv) (curr_skiplist_depth pv);
  let '(tim_level, ctx) := (r : Z * random_mt_ctx) in
  let pv := with_ctx ctx pv in
  let pv := if tim_level =? curr_skiplist_depth pv then with_depth (curr_skiplist_depth pv + 1) pv else pv in
  H ← link_levels H tim prev (Z.to_nat tim_level);
  first ← next_at H (pending_head pv) 0;
  t ← time_at H first;
  H ← upd_tim H (pending_head pv) (with_time t);
  Ret (H, pv).

(** The levels from [i - 1] down to 0. *)
Fixpoint unlink_levels (H : timers) (tim : Z) (prev : prev_array) (i : nat) : outcome timers :=
  match i with
  | O => Ret H
  | S i =>
      p ← prev_get prev i;
      n ← next_at H p i;
      H ← (if n =? tim then m ← next_at H tim i; set_next_at H p i m else Ret H);
      unlink_levels H tim prev i
  end.
Fixpoint lower_depth (H : timers) (head : Z) (i : nat) (depth : Z) : outcome Z :=
  match i with
  | O => Ret depth
  | S i => n ← next_at H head i; if n =? 0 then lower_depth H head i (depth - 1) else Ret depth
  end.
Definition timer_skiplist_remove (H : timers) (pv : priv_timer) (tim : Z) : outcome (timers * priv_timer) :=
  let head := pending_head pv in
  first ← next_at H head 0;
  H ← (if tim =? first then
         n ← next_at H tim 0;
         t ← (if n =? 0 then Ret 0 else time_at H n);
         upd_tim H head (with_time t)
       else Ret H);
  prev ← timer_get_prev_entries_for_node H pv tim;
  H ← unlink_levels H tim prev (Z.to_nat (curr_skiplist_depth pv));
  depth ← lower_depth H head (Z.to_nat (curr_skiplist_depth pv)) (curr_skiplist_depth pv);
  Ret (H, with_depth depth pv).

(** ** Starting and stopping *)
Definition timer_skiplist_reset_impl (H : timers) (pv : priv_timer) (tim time64 period fct arg : Z) : outcome (timers * priv_timer * Z) :=
  r ← timer_set_config_state H pv tim; let '(H, prev_state) := (r : timers * option Z) in
  match prev_state with
  | None => Ret (H, pv, -1)
  | Some prev_state =>
      let pv := if prev_state =? RTE_TIMER_RUNNING then with_updated 1 pv else pv in
      r ← (if prev_state =? RTE_TIMER_PENDING then timer_skiplist_remove H pv tim else Ret (H, pv));
      let '(H, pv) := (r : timers * priv_timer) in
      H ← upd_tim H tim (with_args time64 period fct arg);
      r ← timer_skiplist_add H pv tim; let '(H, pv) := (r : timers * priv_timer) in
      H ← upd_tim H tim (with_state RTE_TIMER_PENDING);
      Ret (H, pv, 0)
  end.
(** [cur_time] is what [gettime64()] returns. *)
Definition timer_skiplist_reset (cur_time : Z) (H : timers) (pv : priv_timer) (tim ticks : Z) (type : timer_skiplist_type) (fct arg : Z)
    : outcome (timers * priv_timer * Z) :=
  let period := match type with PERIODICAL => ticks | SINGLE => 0 end in
  timer_skiplist_reset_impl H pv tim (u64 (cur_time + ticks)) period fct arg.
Definition timer_skiplist_stop (H : timers) (pv : priv_timer) (tim : Z) : outcome (timers * priv_timer * Z) :=
  r ← timer_set_config_state H pv tim; let '(H, prev_state) := (r : timers * option Z) in
  match prev_state with
  | None => Ret (H, pv, -1)
  | Some prev_state =>
      let pv := if prev_state =? RTE_TIMER_RUNNING then with_updated 1 pv else pv in
      r ← (if prev_state =? RTE_TIMER_PENDING then timer_skiplist_remove H pv tim else Ret (H, pv));
      let '(H, pv) := (r : timers * priv_timer) in
      H ← upd_tim H tim (with_state RTE_TIMER_STOP);
      Ret (H, pv, 0)
  end.
(** [fuel] bounds the calls. *)
Definition stop_sync_step (tim : Z) (s : timers * priv_timer) : outcome (timers * priv_timer + timers * priv_timer) :=
  r ← timer_skiplist_stop s.1 s.2 tim; let '(H, pv, ret) := (r : timers * priv_timer * Z) in
  if negb (ret =? 0) then Ret (inl (H, pv)) else Ret (inr (H, pv)).
Definition timer_skiplist_stop_sync (fuel : nat) (H : timers) (pv : priv_timer) (tim : Z) : outcome (timers * priv_timer) :=
  iter fuel (stop_sync_step tim) (H, pv).
Definition timer_skiplist_pending (H : timers) (tim : Z) : outcome bool :=
  t ← get_tim H tim; Ret (tim_state t =? RTE_TIMER_PENDING).

Definition timer_skiplist_next_expiry_time (H : timers) (pv : priv_timer) : outcome Z :=
  n ← next_at H (pending_head pv) 0; if n =? 0 then Ret TIMER_UINT64_MAX else time_at H n.
Definition timer_skiplist_next_expiry_timer (H : timers) (pv : priv_timer) : outcome Z := next_at H (pending_head pv) 0.

(** ** Running the timers that expired *)

(** The list is cut after the entries of [prev], at the levels from [i - 1] down. *)
Fixpoint cut_levels (H : timers) (head : Z) (prev : prev_array) (i : nat) (depth : Z) : outcome (timers * Z) :=
  match i with
  | O => Ret (H, depth)
  | S i =>
      p ← prev_get prev i;
      if p =? head then cut_levels H head prev i depth else
      n ← next_at H p i;
      H ← set_next_at H head i n;
      n ← next_at H p i;
      let depth := if n =? 0 then depth - 1 else depth in
      H ← set_next_at H p i 0;
      cut_levels H head prev i depth
  end.

(** [pprev] is [None] when it points to [run_first_tim] and otherwise the timer
    whose [sl_next[0]] it points to. *)
Definition running_step (s : timers * Z * Z * option Z) : outcome (timers * Z * Z * option Z + timers * Z) :=
  let '(H, tim, run_first, pprev) := s in
  if tim =? 0 then Ret (inr (H, run_first)) else
  next_tim ← next_at H tim 0;
  r ← timer_set_running_state H tim; let '(H, ok) := (r : timers * bool) in
  if ok then Ret (inl (H, next_tim, run_first, Some tim)) else
  match pprev with
  | None => Ret (inl (H, next_tim, next_tim, None))
  | Some q => H ← set_next_at H q 0 next_tim; Ret (inl (H, next_tim, run_first, Some q))
  end.

Section manage.
Context {S : Type}.
(** The function of a timer, with what it keeps in its userdata and in the
    thread's data. *)
Variable (call : Z -> timers * priv_timer -> S -> outcome (timers * priv_timer * S)).

(** The loop body after the call, and the loop body. *)
Definition called_step (tim next_tim : Z) (H : timers) (pv : priv_timer) (s : S) : outcome (timers * priv_timer * Z * S + timers * priv_timer * S) :=
  if updated pv =? 1 then Ret (inl (H, pv, next_tim, s)) else
  t ← get_tim H tim;
  if tim_period t =? 0 then
    H ← upd_tim H tim (with_state RTE_TIMER_STOP);
    Ret (inl (H, pv, next_tim, s))
  else
    H ← upd_tim H tim (with_state RTE_TIMER_PENDING);
    r ← timer_skiplist_reset_impl H pv tim (u64 (tim_time64 t + tim_period t)) (tim_period t) (tim_fn t) (tim_userdata t);
    Ret (inl (r.1.1, r.1.2, next_tim, s)).
Definition expired_step (x : timers * priv_timer * Z * S) : outcome (timers * priv_timer * Z * S + timers * priv_timer * S) :=
  let '(H, pv, tim, s) := x in
  if tim =? 0 then Ret (inr (H, pv, s)) else
  next_tim ← next_at H tim 0;
  let pv := with_running tim (with_updated 0 pv) in
  r ← call tim (H, pv) s; let '(H, pv, s) := (r : timers * priv_timer * S) in
  called_step tim next_tim H pv s.

Definition timer_skiplist_manage (cur_time : Z) (H : timers) (pv : priv_timer) (s : S) : outcome (timers * priv_timer * S) :=
  let head := pending_head pv in
  first ← next_at H head 0;
  if first =? 0 then Ret (H, pv, s) else
  t ← time_at H first;
  if t >? cur_time then Ret (H, pv, s) else
  prev ← timer_get_prev_entries H pv cur_time;
  r ← cut_levels H head prev (Z.to_nat (curr_skiplist_depth pv)) (curr_skiplist_depth pv);
  let '(H, depth) := (r : timers * Z) in
  let pv := with_depth depth pv in
  r ← iter (list_fuel H) running_step (H, first, first, None); let '(H, run_first) := (r : timers * Z) in
  n ← next_at H head 0;
  t ← (if n =? 0 then Ret 0 else time_at H n);
  H ← upd_tim H head (with_time t);
  r ← iter (list_fuel H) expired_step (H, pv, run_first, s); let '(H, pv, s) := (r : timers * priv_timer * S) in
  Ret (H, with_running 0 pv, s).
End manage.
