(* ===== verification/SkipListSpec.v ===== *)
(** Skip lists: the lists at the levels of a skip list and what the search for the
    entries before a time finds. *)
From Stdlib Require Import Sorted.
From S2P Require Import Prelude Bytes Packet RandomMt SkipList.

(** ** Lists at one level *)

Definition nxt_at (H : timers) (i : nat) (p : Z) : option Z := t ← H !! p; sl_next t !! i.
Fixpoint last_of (p : Z) (l : list Z) : Z := match l with [] => p | y :: l => last_of y l end.

(** The links from [p] through [l], and the same with the end of the list. *)
Fixpoint seg_at (H : timers) (i : nat) (p : Z) (l : list Z) : Prop :=
  match l with [] => True | y :: l => nxt_at H i p = Some y /\ seg_at H i y l end.
Fixpoint chain_at (H : timers) (i : nat) (p : Z) (l : list Z) : Prop :=
  match l with [] => nxt_at H i p = Some 0 | y :: l => nxt_at H i p = Some y /\ chain_at H i y l end.
Definition first_or_0 (l : list Z) : Z := match l with [] => 0 | y :: _ => y end.

Lemma walk_app p a b : last_of p (a ++ b) = last_of (last_of p a) b.
Proof. revert p. induction a as [|y a IH]; intros p; [done|]. simpl. by rewrite IH. Qed.
Lemma walk_snoc p a y : last_of p (a ++ [y]) = y.
Proof. by rewrite walk_app. Qed.
Lemma last_of_in p l : last_of p l ∈ p :: l.
Proof. revert p. induction l as [|y l IH]; intros p; [by left|]. right. apply IH. Qed.
Lemma last_of_nonempty p l : l <> [] -> last_of p l ∈ l.
Proof. destruct l as [|y l]; [done|]. intros _. apply (last_of_in y l). Qed.
Lemma chain_app H i p a b : chain_at H i p (a ++ b) <-> seg_at H i p a /\ chain_at H i (last_of p a) b.
Proof. revert p. induction a as [|y a IH]; intros p; simpl; [by split; [intros|intros []]|]. rewrite IH. tauto. Qed.
Lemma chain_first H i p l : chain_at H i p l -> nxt_at H i p = Some (first_or_0 l).
Proof. destruct l; simpl; [done|by intros []]. Qed.
Lemma chain_tail H i p y l : chain_at H i p (y :: l) -> chain_at H i y l.
Proof. by intros []. Qed.
Lemma seg_frame_at H H' i p l : NoDup (p :: l) -> (forall q, q ∈ p :: l -> q <> last_of p l -> nxt_at H' i q = nxt_at H i q) -> seg_at H i p l -> seg_at H' i p l.
Proof.
  revert p. induction l as [|y l IH]; intros p Hnd Hq; [done|]. intros [Hp Hs]. apply list.NoDup_cons in Hnd as [Hp' Hnd]. split.
  - rewrite Hq; [done|by left|]. intros E. apply Hp'. rewrite E. apply (last_of_in y l).
  - apply IH; [done| |done]. intros q Hin Hne. apply Hq; [by right|done].
Qed.
Lemma chain_frame_at H H' i p l : (forall q, q ∈ p :: l -> nxt_at H' i q = nxt_at H i q) -> chain_at H i p l -> chain_at H' i p l.
Proof.
  revert p. induction l as [|y l IH]; intros p Hq; simpl.
  - rewrite Hq; [done|by left].
  - intros [Hp Hc]. split; [rewrite Hq; [done|by left]|]. apply IH; [|done]. intros q Hin. apply Hq. by right.
Qed.

(** ** Changing a link *)

(** What a link does not change. *)
Definition info (t : timer_skiplist) : Z * Z * Z * Z * Z * nat :=
  (tim_time64 t, tim_state t, tim_period t, tim_fn t, tim_userdata t, length (sl_next t)).
Definition same_info (H H' : timers) : Prop := forall q, info <$> H' !! q = info <$> H !! q.
Definition relinked (i : nat) (p v : Z) (H H' : timers) : Prop :=
  (forall j q, nxt_at H' j q = if decide (j = i /\ q = p) then Some v else nxt_at H j q) /\ same_info H H' /\ (forall q, q <> p -> H' !! q = H !! q).

Lemma set_next_at_ok H p i v : is_Some (nxt_at H i p) -> exists H', set_next_at H p i v = Ret H' /\ relinked i p v H H'.
Proof.
  unfold nxt_at. intros [n Hn]. destruct (H !! p) as [t|] eqn:E; [|done]. simpl in Hn. pose proof (lookup_lt_Some _ _ _ Hn) as Hlt.
  unfold set_next_at, next_at, upd_tim, get_tim. rewrite E. cbn [of_option mbind outcome_bind]. rewrite Hn. cbn [of_option mbind outcome_bind]. eexists. split; [done|]. split_and!.
  - intros j q. unfold nxt_at. destruct (decide (q = p)) as [->|Hq].
    + rewrite lookup_insert_eq, E. cbn [mbind option_bind with_next sl_next]. destruct (decide (j = i)) as [->|Hj].
      * rewrite decide_True by done. by apply list_lookup_insert_eq.
      * rewrite decide_False by tauto. by apply list_lookup_insert_ne.
    + rewrite lookup_insert_ne by done. by rewrite decide_False by tauto.
  - intros q. destruct (decide (q = p)) as [->|Hq]; [|by rewrite lookup_insert_ne]. rewrite lookup_insert_eq, E. simpl. unfold info. simpl. by rewrite length_insert.
  - intros q Hq. by rewrite lookup_insert_ne.
Qed.
Lemma same_info_trans H1 H2 H3 : same_info H1 H2 -> same_info H2 H3 -> same_info H1 H3.
Proof. intros E1 E2 q. by rewrite E2, E1. Qed.
Lemma next_at_ok H p i v : nxt_at H i p = Some v -> next_at H p i = Ret v.
Proof. unfold nxt_at, next_at, get_tim. destruct (H !! p); [|done]. simpl. by intros ->. Qed.
Lemma relinked_other i p v H H' j q : relinked i p v H H' -> j <> i \/ q <> p -> nxt_at H' j q = nxt_at H j q.
Proof. intros [E _] Hne. rewrite E, decide_False; [done|]. tauto. Qed.
Lemma relinked_same i p v H H' : relinked i p v H H' -> nxt_at H' i p = Some v.
Proof. intros [E _]. by rewrite E, decide_True. Qed.

(** A node enters a level after [last_of h a], leaves it, or the front of the
    level is cut off. *)
Lemma chain_link H H1 H2 i h a b n : chain_at H i h (a ++ b) -> NoDup (h :: a ++ b) -> n ∉ h :: a ++ b ->
  relinked i n (first_or_0 b) H H1 -> relinked i (last_of h a) n H1 H2 -> chain_at H2 i h (a ++ n :: b).
Proof.
  intros Hc Hnd Hn R1 R2. apply chain_app in Hc as [Hs Hb]. assert (last_of h a <> n) as Hne by (intros E; apply Hn; rewrite <- E; pose proof (last_of_in h a); set_solver).
  apply chain_app. split.
  - apply (seg_frame_at H); [change (NoDup ([h] ++ a)); change (NoDup (([h] ++ a) ++ b)) in Hnd; by apply list.NoDup_app in Hnd as [? _]| |done].
    intros q Hq Hql. rewrite (relinked_other _ _ _ _ _ _ _ R2), (relinked_other _ _ _ _ _ _ _ R1); [done| |by right]. right. intros ->. apply Hn. set_solver.
  - split; [by eapply relinked_same|]. destruct b as [|y b]; simpl in *.
    + rewrite (relinked_other _ _ _ _ _ _ _ R2) by (right; congruence). by eapply relinked_same.
    + split; [rewrite (relinked_other _ _ _ _ _ _ _ R2) by (right; congruence); by eapply relinked_same|]. destruct Hb as [_ Hb]. apply (chain_frame_at H); [|done].
      intros q Hq. rewrite (relinked_other _ _ _ _ _ _ _ R2), (relinked_other _ _ _ _ _ _ _ R1); [done| |]; right.
      * intros ->. apply Hn. set_solver.
      * intros ->. change (NoDup (([h] ++ a) ++ y :: b)) in Hnd. apply list.NoDup_app in Hnd as (_ & Hd & _). apply (Hd (last_of h a)); [apply last_of_in|done].
Qed.
Lemma chain_unlink H H' i h a b n : chain_at H i h (a ++ n :: b) -> NoDup (h :: a ++ n :: b) -> relinked i (last_of h a) (first_or_0 b) H H' -> chain_at H' i h (a ++ b).
Proof.
  intros Hc Hnd R. apply chain_app in Hc as [Hs [_ Hb]]. change (NoDup (([h] ++ a) ++ n :: b)) in Hnd. apply list.NoDup_app in Hnd as (Hn1 & Hd & Hn2).
  apply chain_app. split.
  - apply (seg_frame_at H); [done| |done]. intros q _ Hq. apply (relinked_other _ _ _ _ _ _ _ R). by right.
  - destruct b as [|y b]; simpl in *; [by eapply relinked_same|]. split; [by eapply relinked_same|]. destruct Hb as [_ Hb]. apply (chain_frame_at H); [|done].
    intros q Hq. apply (relinked_other _ _ _ _ _ _ _ R). right. intros ->. apply (Hd (last_of h a)); [apply last_of_in|by right].
Qed.
Lemma chain_cut H H1 H2 i h x a b : chain_at H i h ((x :: a) ++ b) -> NoDup (h :: (x :: a) ++ b) ->
  relinked i h (first_or_0 b) H H1 -> relinked i (last_of h (x :: a)) 0 H1 H2 -> chain_at H2 i h b /\ chain_at H2 i x a.
Proof.
  intros Hc Hnd R1 R2. cbn [last_of] in R2. apply chain_app in Hc as [[Hx Hs] Hb]. cbn [last_of] in Hb.
  apply list.NoDup_cons in Hnd as [Hh Hnd]. apply list.NoDup_app in Hnd as (Hn1 & Hd & Hn2). assert (h <> last_of x a) as Hne by (intros E; apply Hh; rewrite E; pose proof (last_of_in x a); set_solver).
  split.
  - destruct b as [|y b]; simpl in *; [rewrite (relinked_other _ _ _ _ _ _ _ R2) by (right; congruence); by eapply relinked_same|].
    split; [rewrite (relinked_other _ _ _ _ _ _ _ R2) by (right; congruence); by eapply relinked_same|]. destruct Hb as [_ Hb]. apply (chain_frame_at H); [|done].
    intros q Hq. rewrite (relinked_other _ _ _ _ _ _ _ R2), (relinked_other _ _ _ _ _ _ _ R1); [done| |]; right.
    + intros ->. apply Hh. set_solver.
    + intros ->. by apply (Hd (last_of x a)); [apply last_of_in|].
  - rewrite <- (app_nil_r a) at 1. apply chain_app. split; [|by eapply relinked_same]. apply (seg_frame_at H); [done| |done].
    intros q Hq Hql. rewrite (relinked_other _ _ _ _ _ _ _ R2) by (right; congruence). apply (relinked_other _ _ _ _ _ _ _ R1). right. intros ->. apply Hh. set_solver.
Qed.

(** ** The levels of a skip list *)

Record ent := Ent { e_node : Z; e_time : Z; e_height : nat }.
Definition level (i : nat) (L : list ent) : list Z := e_node <$> filter (fun e => (i < e_height e)%nat) L.

Lemma level_app i a b : level i (a ++ b) = level i a ++ level i b.
Proof. unfold level. by rewrite list.filter_app, fmap_app. Qed.
Lemma level_in i e L : (i < e_height e)%nat -> level i (e :: L) = e_node e :: level i L.
Proof. intros Hi. unfold level. by rewrite filter_cons_True. Qed.
Lemma level_out i e L : (e_height e <= i)%nat -> level i (e :: L) = level i L.
Proof. intros Hi. unfold level. rewrite filter_cons_False by lia. done. Qed.
Lemma elem_of_level i x L : x ∈ level i L <-> exists e, e ∈ L /\ e_node e = x /\ (i < e_height e)%nat.
Proof.
  unfold level. rewrite list_elem_of_fmap. split.
  - intros (e & -> & [Hh He]%list_elem_of_filter). eauto.
  - intros (e & He & <- & Hh). exists e. split; [done|]. by apply list_elem_of_filter.
Qed.
Lemma level_sublist i L : level i L `sublist_of` (e_node <$> L).
Proof.
  induction L as [|e L IH]; [done|]. destruct (decide (i < e_height e)%nat); [rewrite level_in by done|rewrite level_out by lia]; by constructor.
Qed.
Lemma level_nodup i h L : NoDup (h :: (e_node <$> L)) -> NoDup (h :: level i L).
Proof. intros Hn. apply (sublist_NoDup _ (h :: (e_node <$> L))); [done|apply sublist_skip, level_sublist]. Qed.
Lemma level_nested i L : level (S i) L = [] -> forall j, (i < j)%nat -> level j L = [].
Proof.
  intros E j Hj. destruct (level j L) as [|x l] eqn:El; [done|]. assert (x ∈ level j L) as (e & He & <- & Hh)%elem_of_level by (rewrite El; left).
  assert (e_node e ∈ level (S i) L) as Hx by (apply elem_of_level; exists e; split_and!; [done|done|lia]). rewrite E in Hx. by apply elem_of_nil in Hx.
Qed.
(** The last entry of a level is an entry of the level below. *)
Lemma level_below i h L : exists a b, level i L = a ++ b /\ last_of h a = last_of h (level (S i) L).
Proof.
  destruct (decide (level (S i) L = [])) as [->|Hne]; [by exists [], (level i L)|]. pose proof (last_of_nonempty h _ Hne) as Hin. set (x := last_of h (level (S i) L)) in *.
  apply elem_of_level in Hin as (e & He & Hx & Hh). assert (x ∈ level i L) as (a & b & E)%list_elem_of_split by (apply elem_of_level; exists e; split_and!; [done|done|lia]).
  exists (a ++ [x]), b. split; [by rewrite E, <- app_assoc|]. apply walk_snoc.
Qed.

Definition upto (t : Z) (L : list ent) : list ent := filter (fun e => e_time e <= t) L.
Definition later (t : Z) (L : list ent) : list ent := filter (fun e => t < e_time e) L.
Abbreviation by_time := (StronglySorted (fun a b => e_time a <= e_time b)).
Lemma split_time t L : by_time L -> L = upto t L ++ later t L.
Proof.
  induction 1 as [|e L Hs IH Hf]; [done|]. unfold upto, later in *. destruct (decide (e_time e <= t)) as [Hle|Hgt].
  - rewrite filter_cons_True, (filter_cons_False _ _ L) by lia. simpl. by f_equal.
  - rewrite filter_cons_False, filter_cons_True by lia. assert (filter (fun e => e_time e <= t) L = []) as E.
    { destruct (filter (fun e => e_time e <= t) L) as [|x l] eqn:E; [done|]. assert (x ∈ filter (fun e => e_time e <= t) L) as [Hx Hin]%list_elem_of_filter by (rewrite E; left).
      rewrite list.Forall_forall in Hf. specialize (Hf x Hin). lia. }
    rewrite E. simpl. f_equal. rewrite E in IH. done.
Qed.

(** ** Searching *)

(** What the memory holds for the entries and the head. *)
Record sl_ok (H : timers) (h : Z) (L : list ent) : Prop := SlOk {
  ok_nodup : NoDup (h :: (e_node <$> L));
  ok_null : Forall (fun x => x <> 0) (h :: (e_node <$> L));
  ok_head : exists t, H !! h = Some t /\ length (sl_next t) = 10%nat;
  ok_cells : forall e, e ∈ L -> exists t, H !! e_node e = Some t /\ length (sl_next t) = 10%nat /\ tim_time64 t = e_time e /\ (1 <= e_height e <= 10)%nat;
  ok_sorted : by_time L;
  ok_chains : forall i, (i < 10)%nat -> chain_at H i h (level i L)
}.

Lemma ok_size H h L : sl_ok H h L -> (length L < size H)%nat.
Proof.
  intros S. assert (length (h :: (e_node <$> L)) <= size H)%nat as Hle; [|simpl in Hle; rewrite length_fmap in Hle; lia].
  rewrite <- (size_list_to_set (C := gset Z) _ (ok_nodup _ _ _ S)), <- (size_dom (D := gset Z)). apply subseteq_size. intros q Hq. apply elem_of_dom.
  apply elem_of_list_to_set, elem_of_cons in Hq as [->|(e & -> & He)%list_elem_of_fmap]; [destruct (ok_head _ _ _ S) as (t & -> & _)|destruct (ok_cells _ _ _ S e He) as (t & -> & _)]; by eexists.
Qed.
Lemma level_length i L : (length (level i L) <= length L)%nat.
Proof. unfold level. rewrite length_fmap. apply length_filter. Qed.
Lemma level_time H h L i x : sl_ok H h L -> x ∈ level i L -> exists e, e ∈ L /\ e_node e = x /\ time_at H x = Ret (e_time e) /\ x <> 0.
Proof.
  intros S (e & He & <- & _)%elem_of_level. exists e. split; [done|]. split; [done|]. destruct (ok_cells _ _ _ S e He) as (t & Et & _ & Ht & _).
  split; [unfold time_at, get_tim; rewrite Et; simpl; by rewrite Ht|]. pose proof (ok_null _ _ _ S) as Hn. rewrite list.Forall_forall in Hn. apply Hn. right. by apply list_elem_of_fmap_2.
Qed.

(** The walk along a level passes [a] and stops before [b]. *)
Lemma advance_ok H i skip t a : forall p b n, chain_at H i p (a ++ b) ->
  (forall x, x ∈ a -> x <> 0 /\ (skip <> 0 -> x <> skip) /\ exists s, time_at H x = Ret s /\ s <= t) ->
  match b with [] => True | z :: _ => z <> 0 /\ ((skip <> 0 /\ z = skip) \/ exists s, time_at H z = Ret s /\ t < s) end -> (length a < n)%nat ->
  iter n (advance_step H i skip t) p = Ret (last_of p a).
Proof.
  induction a as [|x a IH]; intros p b n Hc Ha Hb Hn; (destruct n as [|n]; [simpl in Hn; lia|]).
  - rewrite (iter_inr _ n p p); [done|]. unfold advance_step. rewrite (next_at_ok _ _ _ _ (chain_first _ _ _ _ Hc)). cbn [mbind outcome_bind].
    destruct b as [|z b]; [done|]. simpl. destruct Hb as [Hz Hb]. rewrite (proj2 (Z.eqb_neq _ _)) by done. destruct (negb (skip =? 0) && (z =? skip)) eqn:Es; [done|].
    destruct Hb as [[Hs ->]|(s & -> & Hlt)].
    + rewrite (proj2 (Z.eqb_neq _ _)), Z.eqb_refl in Es by done. done.
    + cbn [mbind outcome_bind]. by rewrite (proj2 (Z.leb_gt _ _)).
  - destruct (Ha x) as (Hx & Hsk & s & Es & Hle); [by left|]. destruct Hc as [Hp Hc]. cbn [last_of]. rewrite (iter_inl _ n p x).
    + apply (IH x b n Hc); [|done|simpl in Hn; lia]. intros y Hy. apply Ha. by right.
    + unfold advance_step. rewrite (next_at_ok _ _ _ _ Hp). cbn [mbind outcome_bind]. rewrite (proj2 (Z.eqb_neq _ _)) by done.
      assert (negb (skip =? 0) && (x =? skip) = false) as -> by (destruct (Z.eqb_spec skip 0); [done|]; simpl; apply Z.eqb_neq; auto).
      rewrite Es. cbn [mbind outcome_bind]. by rewrite (proj2 (Z.leb_le _ _)).
Qed.

Definition prev_is (prev : prev_array) (i : nat) (p : Z) : Prop := prev !! i = Some (Some p).
Lemma prev_get_ok prev i p : prev_is prev i p -> prev_get prev i = Ret p.
Proof. unfold prev_get. by intros ->. Qed.
Lemma prev_set_ok prev i p : (i < length prev)%nat -> prev_set prev i p = Ret (<[i := Some p]> prev).
Proof. intros Hi. unfold prev_set. by rewrite (proj2 (Nat.ltb_lt _ _)). Qed.

(** The entry before a time at level [i]. *)
Definition prev_at (h t : Z) (L : list ent) (i : nat) : Z := last_of h (level i (upto t L)).

Lemma level_search H h L t i p a b n : sl_ok H h L -> (i < 10)%nat -> level i (upto t L) = a ++ b -> p = last_of h a -> (size H < n)%nat ->
  iter n (advance_step H i 0 t) p = Ret (prev_at h t L i).
Proof.
  intros S Hi Ea -> Hn. pose proof (ok_chains _ _ _ S i Hi) as Hc. rewrite (split_time t L (ok_sorted _ _ _ S)), level_app, Ea, <- app_assoc in Hc.
  apply chain_app in Hc as [_ Hc]. unfold prev_at. rewrite Ea, walk_app. apply (advance_ok H i 0 t b _ (level i (later t L))); [done| | |].
  - intros x Hx. assert (x ∈ level i (upto t L)) as Hin by (rewrite Ea; apply elem_of_app; by right). apply elem_of_level in Hin as (e & [Ht He]%list_elem_of_filter & <- & Hh).
    destruct (level_time H h L i (e_node e) S) as (e' & He' & En & Et & Hz); [apply elem_of_level; eauto|]. split; [done|]. split; [done|]. exists (e_time e').
    split; [done|]. destruct (ok_cells _ _ _ S e He) as (c & Ec & _ & Tc & _), (ok_cells _ _ _ S e' He') as (c' & Ec' & _ & Tc' & _). rewrite En, Ec in Ec'. injection Ec' as <-. lia.
  - destruct (level i (later t L)) as [|z l] eqn:El; [done|]. assert (z ∈ level i (later t L)) as (e & [Ht He]%list_elem_of_filter & <- & Hh)%elem_of_level by (rewrite El; left).
    destruct (ok_cells _ _ _ S e He) as (c & Ec & _ & Tc & _). destruct (level_time H h L i (e_node e) S) as (e' & He' & En & Et & Hz); [apply elem_of_level; eauto|].
    split; [done|]. right. exists (e_time e). split; [|done]. unfold time_at, get_tim. rewrite Ec. simpl. by rewrite Tc.
  - assert (length (a ++ b) <= length L)%nat as Hl by (rewrite <- Ea; etransitivity; [apply level_length|apply length_filter]). rewrite length_app in Hl. pose proof (ok_size _ _ _ S). lia.
Qed.

Lemma by_time_app a b : by_time (a ++ b) -> by_time a /\ by_time b /\ forall x y, x ∈ a -> y ∈ b -> e_time x <= e_time y.
Proof.
  induction a as [|e a IH]; [intros Hs; split_and!; [constructor|done|by intros ? ? ?%elem_of_nil]|]. intros Hs. inversion_clear Hs as [|? ? Hs' Hf]. destruct (IH Hs') as (Ha & Hb & Hab).
  rewrite list.Forall_forall in Hf. split_and!; [constructor; [done|apply list.Forall_forall; intros; apply Hf, elem_of_app; by left]|done|].
  intros x y [->|Hx]%elem_of_cons Hy; [apply Hf, elem_of_app; by right|auto].
Qed.
Lemma by_time_filter P `{forall e, Decision (P e)} L : by_time L -> by_time (filter P L).
Proof.
  induction 1 as [|e L Hs IH Hf]; [constructor|]. rewrite list.Forall_forall in Hf. destruct (decide (P e)); [rewrite filter_cons_True by done|by rewrite filter_cons_False].
  constructor; [done|]. apply list.Forall_forall. intros x [_ Hx]%list_elem_of_filter. auto.
Qed.
Lemma upto_upto s t L : s <= t -> upto s (upto t L) = upto s L.
Proof.
  intros Hle. unfold upto. rewrite list_filter_filter. apply list_filter_iff. intros e. lia.
Qed.
Lemma upto_more s t L : by_time L -> s <= t -> exists mid, upto t L = upto s L ++ mid.
Proof.
  intros Hs Hle. exists (later s (upto t L)). rewrite <- (upto_upto s t) by done. apply split_time. by apply by_time_filter.
Qed.
Lemma upto_all t L : (forall e, e ∈ L -> e_time e <= t) -> upto t L = L.
Proof. intros Ha. unfold upto. induction L as [|e L IH]; [done|]. rewrite filter_cons_True by (apply Ha; left). f_equal. apply IH. intros. apply Ha. by right. Qed.
Lemma upto_none t L : (forall e, e ∈ L -> t < e_time e) -> upto t L = [].
Proof. intros Ha. unfold upto. induction L as [|e L IH]; [done|]. rewrite filter_cons_False by (pose proof (Ha e ltac:(left)); lia). apply IH. intros. apply Ha. by right. Qed.
Lemma upto_app t a b : upto t (a ++ b) = upto t a ++ upto t b.
Proof. apply list.filter_app. Qed.

(** ** The entries at all levels *)

Definition depth_ok (d : nat) (L : list ent) : Prop := (d <= 10)%nat /\ forall i, (i < d)%nat <-> level i L <> [].
Lemma depth_level d L i : depth_ok d L -> (d <= i)%nat -> level i L = [].
Proof. intros [_ Hd] Hi. destruct (level i L) eqn:E; [done|]. assert (i < d)%nat; [|lia]. apply Hd. by rewrite E. Qed.

Lemma prev_levels_ok H h L t d : sl_ok H h L -> (d <= 10)%nat -> forall lvl prev, (lvl <= d)%nat -> length prev = 11%nat ->
  (forall i, (lvl <= i <= d)%nat -> prev_is prev i (prev_at h t L i)) ->
  exists prev', prev_levels H t lvl prev = Ret prev' /\ length prev' = 11%nat /\ forall i, (i <= d)%nat -> prev_is prev' i (prev_at h t L i).
Proof.
  intros S Hd. induction lvl as [|lvl IH]; intros prev Hlvl Hlen Hp; cbn [prev_levels].
  - exists prev. split; [done|]. split; [done|]. intros i Hi. apply Hp. lia.
  - rewrite (prev_get_ok _ _ _ (Hp (Datatypes.S lvl) ltac:(lia))). cbn [mbind outcome_bind]. destruct (level_below lvl h (upto t L)) as (a & b & Ea & El).
    rewrite (level_search H h L t lvl _ a b) by (done || lia || (unfold list_fuel; lia)). cbn [mbind outcome_bind]. rewrite prev_set_ok by lia. cbn [mbind outcome_bind].
    apply IH; [lia|by rewrite length_insert|]. intros i Hi. unfold prev_is. destruct (decide (i = lvl)) as [->|Hne]; [apply list_lookup_insert_eq; lia|].
    rewrite list_lookup_insert_ne by done. apply Hp. lia.
Qed.
Lemma prev_entries_ok H pv L t d : sl_ok H (pending_head pv) L -> curr_skiplist_depth pv = Z.of_nat d -> depth_ok d L ->
  exists prev, timer_get_prev_entries H pv t = Ret prev /\ length prev = 11%nat /\ forall i, (i <= d)%nat -> prev_is prev i (prev_at (pending_head pv) t L i).
Proof.
  intros S Ed Hd. unfold timer_get_prev_entries. rewrite Ed, Nat2Z.id. pose proof Hd as [Hd10 _]. rewrite prev_set_ok by (unfold new_prev; rewrite length_replicate; lia). cbn [mbind outcome_bind].
  apply (prev_levels_ok H (pending_head pv) L t d S Hd10 d); [done|by rewrite length_insert|]. intros i Hi. assert (i = d) as -> by lia. unfold prev_is.
  rewrite list_lookup_insert_eq by (unfold new_prev; rewrite length_replicate; lia). do 2 f_equal. unfold prev_at.
  destruct (level d (upto t L)) as [|x l] eqn:E; [done|]. assert (x ∈ level d L) as Hx; [|rewrite (depth_level d L d Hd) in Hx by lia; by apply elem_of_nil in Hx].
  assert (x ∈ level d (upto t L)) as (e & [_ He]%list_elem_of_filter & <- & Hh)%elem_of_level by (rewrite E; left). apply elem_of_level. eauto.
Qed.

(** A second walk to a timer: it stops right before it at the levels of the timer. *)
Lemma entry_of H h L e e' : sl_ok H h L -> e ∈ L -> e' ∈ L -> e_node e = e_node e' -> e_time e = e_time e'.
Proof.
  intros S He He' En. destruct (ok_cells _ _ _ S e He) as (c & Ec & _ & Tc & _), (ok_cells _ _ _ S e' He') as (c' & Ec' & _ & Tc' & _). rewrite En, Ec' in Ec. injection Ec as <-. lia.
Qed.
Lemma node_walk H h L t i p a b tim : sl_ok H h L -> (i < 10)%nat -> level i L = p ++ a ++ b -> tim <> 0 ->
  (forall x e, x ∈ a -> e ∈ L -> e_node e = x -> x <> tim /\ e_time e <= t) ->
  match b with [] => True | z :: _ => z = tim \/ forall e, e ∈ L -> e_node e = z -> t < e_time e end ->
  iter (list_fuel H) (advance_step H i tim t) (last_of h p) = Ret (last_of h (p ++ a)).
Proof.
  intros S Hi El Htim Ha Hb. pose proof (ok_chains _ _ _ S i Hi) as Hc. rewrite El in Hc. apply chain_app in Hc as [_ Hc]. rewrite walk_app.
  apply (advance_ok H i tim t a _ b); [done| | |].
  - intros x Hx. destruct (level_time H h L i x S) as (e & He & En & Et & Hz); [rewrite El, !elem_of_app; tauto|]. destruct (Ha x e Hx He En). split; [done|]. split; [done|]. by exists (e_time e).
  - destruct b as [|z b]; [done|]. destruct (level_time H h L i z S) as (e & He & En & Et & Hz); [rewrite El, !elem_of_app, elem_of_cons; tauto|].
    split; [done|]. destruct Hb as [->|Hb]; [left; done|]. right. exists (e_time e). split; [done|]. by apply Hb.
  - pose proof (level_length i L) as Hl. rewrite El, !length_app in Hl. pose proof (ok_size _ _ _ S). unfold list_fuel. lia.
Qed.

(** Where the second walk ends: [A] are the entries before [tim] if it is in the
    list, all up to its time otherwise. *)
Lemma node_walk_in H h A e B i : sl_ok H h (A ++ e :: B) -> (i < 10)%nat -> (i < e_height e)%nat ->
  iter (list_fuel H) (advance_step H i (e_node e) (e_time e)) (prev_at h (e_time e - 1) (A ++ e :: B) i) = Ret (last_of h (level i A)).
Proof.
  intros S Hi Hh. destruct (by_time_app A (e :: B) (ok_sorted _ _ _ S)) as (HA & HB & HAB). inversion_clear HB as [|? ? HB' HeB]. rewrite list.Forall_forall in HeB.
  assert (upto (e_time e - 1) (A ++ e :: B) = upto (e_time e - 1) A) as Eu.
  { rewrite upto_app, (upto_none _ (e :: B)), app_nil_r; [done|]. intros x [->|Hx]%elem_of_cons; [lia|]. specialize (HeB x Hx). lia. }
  unfold prev_at. rewrite Eu. assert (level i A = level i (upto (e_time e - 1) A) ++ level i (later (e_time e - 1) A)) as EA by (rewrite <- level_app; f_equal; by apply split_time). rewrite EA.
  pose proof (ok_nodup _ _ _ S) as Hnd. apply list.NoDup_cons in Hnd as [_ Hnd]. rewrite fmap_app, fmap_cons in Hnd. apply list.NoDup_app in Hnd as (_ & Hd & _).
  apply (node_walk H h (A ++ e :: B) (e_time e) i (level i (upto (e_time e - 1) A)) (level i (later (e_time e - 1) A)) (e_node e :: level i B)); [done|done| | | |by left].
  - by rewrite level_app, level_in, EA, <- app_assoc by done.
  - pose proof (ok_null _ _ _ S) as Hn. rewrite list.Forall_forall in Hn. apply Hn. right. apply list_elem_of_fmap_2, elem_of_app. right. left.
  - intros x e' (e1 & [_ He1]%list_elem_of_filter & <- & _)%elem_of_level He' En. split; [intros E1; apply (Hd (e_node e1)); [by apply list_elem_of_fmap_2|rewrite E1; left]|].
    rewrite (entry_of H h _ e' e1 S He'); [apply HAB; [done|left]|apply elem_of_app; by left|done].
Qed.
Lemma node_walk_out H h L tim t i : sl_ok H h L -> (i < 10)%nat -> tim <> 0 -> tim ∉ level i L ->
  iter (list_fuel H) (advance_step H i tim t) (prev_at h (t - 1) L i) = Ret (prev_at h t L i).
Proof.
  intros S Hi Htim Hni. unfold prev_at. destruct (upto_more (t - 1) t L (ok_sorted _ _ _ S)) as [mid Em]; [lia|].
  assert (level i L = level i (upto (t - 1) L) ++ level i mid ++ level i (later t L)) as El by (rewrite (split_time t L (ok_sorted _ _ _ S)) at 1; rewrite Em, !level_app; by rewrite <- app_assoc).
  rewrite Em, level_app. apply (node_walk H h L t i _ _ (level i (later t L))); [done|done|done|done| |].
  - intros x e Hx He En. split; [intros ->; apply Hni; rewrite El, !elem_of_app; tauto|]. apply elem_of_level in Hx as (e1 & He1 & En1 & _).
    assert (e1 ∈ upto t L) as [Ht He1']%list_elem_of_filter by (rewrite Em; apply elem_of_app; by right). rewrite (entry_of H h L e e1 S He He1') by congruence. done.
  - destruct (level i (later t L)) as [|z l] eqn:Ez; [done|]. right. intros e He En. assert (z ∈ level i (later t L)) as (e1 & [Ht He1]%list_elem_of_filter & En1 & _)%elem_of_level by (rewrite Ez; left).
    rewrite (entry_of H h L e e1 S He He1) by congruence. done.
Qed.
