(* ===== verification/SkipListRun.v ===== *)
(** Skip lists: adding, removing and cutting off entries. *)
From Stdlib Require Import Sorted.
From S2P Require Import Prelude Bytes Packet RandomMt SkipList SkipListSpec.

(** ** What the list depends on *)

Definition links (t : timer_skiplist) : Z * list Z := (tim_time64 t, sl_next t).
Definition cell10 (H : timers) (q : Z) : Prop := exists t, H !! q = Some t /\ length (sl_next t) = 10%nat.

Lemma cell10_nxt H q i : cell10 H q -> (i < 10)%nat -> is_Some (nxt_at H i q).
Proof. intros (t & E & Hl) Hi. unfold nxt_at. rewrite E. simpl. apply lookup_lt_is_Some_2. lia. Qed.
Lemma cell10_info H H' q : same_info H H' -> cell10 H q -> cell10 H' q.
Proof. intros E (t & Et & Hl). specialize (E q). rewrite Et in E. destruct (H' !! q) as [t'|] eqn:Et'; [|done]. simpl in E. injection E as E1 E2 E3 E4 E5 E6. exists t'. split; [done|]. lia. Qed.
Lemma sl_cells H h L : sl_ok H h L -> forall q, q ∈ h :: (e_node <$> L) -> cell10 H q.
Proof.
  intros S q [->|(e & -> & He)%list_elem_of_fmap]%elem_of_cons; [apply (ok_head _ _ _ S)|]. destruct (ok_cells _ _ _ S e He) as (t & Et & Hl & _). by exists t.
Qed.
Lemma level_nodes i L x : x ∈ level i L -> x ∈ e_node <$> L.
Proof. intros (e & He & <- & _)%elem_of_level. by apply list_elem_of_fmap_2. Qed.

(** The list is the same when only other fields or other timers change. *)
Lemma sl_ok_frame H H' h L : sl_ok H h L -> (exists t t', H !! h = Some t /\ H' !! h = Some t' /\ sl_next t' = sl_next t) ->
  (forall q, q ∈ e_node <$> L -> links <$> H' !! q = links <$> H !! q) -> sl_ok H' h L.
Proof.
  intros [H1 H2 H3 H4 H5 H6] (t & t' & Eh & Eh' & En) Hq.
  assert (Hn : forall i q, q ∈ h :: (e_node <$> L) -> nxt_at H' i q = nxt_at H i q).
  { intros i q [->|Hin]%elem_of_cons; unfold nxt_at; [rewrite Eh, Eh'; simpl; by rewrite En|]. specialize (Hq q Hin).
    destruct (H !! q), (H' !! q); try done. simpl in *. unfold links in Hq. congruence. }
  split; try done.
  - exists t'. split; [done|]. rewrite En. destruct H3 as (t0 & E0 & Hl). congruence.
  - intros e He. destruct (H4 e He) as (c & Ec & Hl & Ht & Hh). specialize (Hq (e_node e) ltac:(by apply list_elem_of_fmap_2)). rewrite Ec in Hq.
    destruct (H' !! e_node e) as [c'|]; [|done]. simpl in Hq. unfold links in Hq. injection Hq as Et El. exists c'. rewrite El, Et. done.
  - intros i Hi. apply (chain_frame_at H); [|by apply H6]. intros q [->|Hin]%elem_of_cons; [apply Hn; by left|]. apply Hn. right. by eapply level_nodes.
Qed.
(** Setting the time of the head. *)
Lemma upd_head_time H h L t : sl_ok H h L -> exists H', upd_tim H h (with_time t) = Ret H' /\ sl_ok H' h L /\ (forall q, q <> h -> H' !! q = H !! q) /\ cell10 H' h.
Proof.
  intros S. destruct (ok_head _ _ _ S) as (c & Ec & Hl). unfold upd_tim, get_tim. rewrite Ec. cbn [of_option mbind outcome_bind]. eexists. split; [done|].
  assert (Hq : forall q, q <> h -> <[h := with_time t c]> H !! q = H !! q) by (intros; by rewrite lookup_insert_ne). split; [|split; [done|]].
  - apply (sl_ok_frame H); [done|exists c, (with_time t c); by rewrite lookup_insert_eq|]. intros q Hin. rewrite Hq; [done|]. intros ->.
    pose proof (ok_nodup _ _ _ S) as Hnd. by apply list.NoDup_cons in Hnd as [? _].
  - exists (with_time t c). by rewrite lookup_insert_eq.
Qed.

(** ** Adding *)
Section link.
Context (h tim : Z) (L1 L2 : list ent).
Context (Hnd : NoDup (h :: (e_node <$> (L1 ++ L2)))) (Hni : tim ∉ h :: (e_node <$> (L1 ++ L2))).

Lemma link_one H prev k : (k < 10)%nat -> (forall q, q ∈ tim :: h :: (e_node <$> (L1 ++ L2)) -> cell10 H q) ->
  prev_is prev k (last_of h (level k L1)) -> chain_at H k h (level k L1 ++ level k L2) ->
  exists n H1 H2, next_at H (last_of h (level k L1)) k = Ret n /\ set_next_at H tim k n = Ret H1 /\ set_next_at H1 (last_of h (level k L1)) k tim = Ret H2 /\
    same_info H H2 /\ (forall q, q ∉ tim :: h :: (e_node <$> (L1 ++ L2)) -> H2 !! q = H !! q) /\
    (forall i q, i <> k -> nxt_at H2 i q = nxt_at H i q) /\ chain_at H2 k h (level k L1 ++ tim :: level k L2).
Proof.
  intros Hk Hc Hp Hch. pose proof Hch as Hb. apply chain_app in Hb as [_ Hb].
  assert (last_of h (level k L1) ∈ h :: (e_node <$> (L1 ++ L2))) as Hpn.
  { pose proof (last_of_in h (level k L1)) as Hin. apply elem_of_cons in Hin as [->|Hin]; [left|right]. apply (level_nodes k). rewrite level_app, elem_of_app. tauto. }
  destruct (set_next_at_ok H tim k (first_or_0 (level k L2))) as (H1 & E1 & R1); [apply cell10_nxt; [apply Hc; left|done]|].
  destruct (set_next_at_ok H1 (last_of h (level k L1)) k tim) as (H2 & E2 & R2); [apply cell10_nxt; [apply (cell10_info H); [apply R1|]; apply Hc; right; exact Hpn|done]|].
  exists (first_or_0 (level k L2)), H1, H2. split; [apply next_at_ok; by apply chain_first|]. split; [done|]. split; [done|]. split; [eapply same_info_trans; [apply R1|apply R2]|]. split_and!.
  - intros q Hq. destruct R2 as (_ & _ & R2), R1 as (_ & _ & R1). rewrite R2, R1; [done|intros ->; apply Hq; left|intros ->; apply Hq; right; exact Hpn].
  - intros i q Hne. rewrite (relinked_other _ _ _ _ _ _ _ R2), (relinked_other _ _ _ _ _ _ _ R1); [done|by left|by left].
  - apply (chain_link H H1 H2); [done|rewrite <- level_app; by apply level_nodup| |done|done].
    rewrite <- level_app. intros [E|E%level_nodes]%elem_of_cons; apply Hni; [rewrite E; left|by right].
Qed.
Lemma link_levels_ok prev lvl : forall H, (lvl < 10)%nat -> (forall q, q ∈ tim :: h :: (e_node <$> (L1 ++ L2)) -> cell10 H q) ->
  (forall i, (i <= lvl)%nat -> prev_is prev i (last_of h (level i L1)) /\ chain_at H i h (level i L1 ++ level i L2)) ->
  exists H', link_levels H tim prev lvl = Ret H' /\ same_info H H' /\ (forall q, q ∉ tim :: h :: (e_node <$> (L1 ++ L2)) -> H' !! q = H !! q) /\
    (forall i q, (lvl < i)%nat -> nxt_at H' i q = nxt_at H i q) /\ forall i, (i <= lvl)%nat -> chain_at H' i h (level i L1 ++ tim :: level i L2).
Proof.
  induction lvl as [|lvl IH]; intros H Hlvl Hc Hi.
  - destruct (Hi 0%nat ltac:(lia)) as [Hp Hch]. destruct (link_one H prev 0 Hlvl Hc Hp Hch) as (n & H1 & H2 & En & E1 & E2 & HI & HF & HO & HC).
    cbn [link_levels]. rewrite (prev_get_ok _ _ _ Hp). cbn [mbind outcome_bind]. rewrite En. cbn [mbind outcome_bind]. rewrite E1. cbn [mbind outcome_bind]. rewrite E2. cbn [mbind outcome_bind].
    exists H2. split; [done|]. split; [done|]. split; [done|]. split; [intros i q Hlt; apply HO; lia|]. intros i Hle. by replace i with 0%nat by lia.
  - destruct (Hi (S lvl) ltac:(lia)) as [Hp Hch]. destruct (link_one H prev (S lvl) Hlvl Hc Hp Hch) as (n & H1 & H2 & En & E1 & E2 & HI & HF & HO & HC).
    cbn [link_levels]. rewrite (prev_get_ok _ _ _ Hp). cbn [mbind outcome_bind]. rewrite En. cbn [mbind outcome_bind]. rewrite E1. cbn [mbind outcome_bind]. rewrite E2. cbn [mbind outcome_bind].
    destruct (IH H2) as (H3 & -> & HI3 & HF3 & HO3 & HC3); [lia|intros q Hq; apply (cell10_info H); auto| |].
    { intros i Hle. destruct (Hi i) as [Hpi Hci]; [lia|]. split; [done|]. apply (chain_frame_at H); [|done]. intros q _. apply HO. lia. }
    exists H3. split; [done|]. split; [by eapply same_info_trans|]. split; [intros q Hq; rewrite HF3, HF; done|]. split.
    + intros i q Hlt. rewrite HO3, HO by lia. done.
    + intros i Hle. destruct (decide (i = S lvl)) as [->|Hne]; [|apply HC3; lia]. apply (chain_frame_at H2); [|done]. intros q _. apply HO3. lia.
Qed.
End link.

(** The level of a new entry. *)
Definition ctx_ok (ctx : random_mt_ctx) : Prop := exists w k, length w = 624%nat /\ Forall word32 w /\ drawn w k ctx.
Lemma level_ok ctx d : ctx_ok ctx -> 0 <= d <= 10 ->
  exists lvl ctx', timer_get_skiplist_level ctx d = Ret (Z.of_nat lvl, ctx') /\ ctx_ok ctx' /\ Z.of_nat lvl <= d /\ (lvl < 10)%nat.
Proof.
  intros (w & k & Hw & Hf & Hd) Hdd. destruct (random_mt_ok w Hw Hf k ctx Hd) as (ctx' & E & Hd'). unfold timer_get_skiplist_level. rewrite E. cbn [mbind outcome_bind fst snd].
  set (l0 := if _ =? 0 then _ else _). assert (0 <= l0) as Hl0 by (unfold l0; case_match; [unfold MAX_SKIPLIST_DEPTH; lia|]; apply Z.div_pos; [apply u32_range|lia]).
  clearbody l0. unfold MAX_SKIPLIST_DEPTH. rewrite Z.gtb_ltb, Z.geb_leb.
  set (l1 := if _ <=? _ then _ else _). assert (0 <= l1 <= d /\ l1 < 10) as Hl1.
  { unfold l1. destruct (Z.ltb_spec d l0); match goal with |- context [?a <=? ?b] => destruct (Z.leb_spec a b) end; lia. }
  exists (Z.to_nat l1), ctx'. rewrite Z2Nat.id by lia. split; [done|]. split; [by exists w, (S k)|]. lia.
Qed.

Lemma sorted_insert L e : by_time L -> by_time (upto (e_time e) L ++ e :: later (e_time e) L).
Proof.
  intros Hs. assert (Hu : forall x, x ∈ upto (e_time e) L -> e_time x <= e_time e) by (by intros x [Hx _]%list_elem_of_filter).
  assert (Hl : forall x, x ∈ later (e_time e) L -> e_time e < e_time x) by (by intros x [Hx _]%list_elem_of_filter).
  pose proof (by_time_filter (fun x => e_time x <= e_time e) L Hs) as H1. pose proof (by_time_filter (fun x => e_time e < e_time x) L Hs) as H2.
  fold (upto (e_time e) L) in H1. fold (later (e_time e) L) in H2. revert Hu H1. generalize (upto (e_time e) L). intros a Hu Ha. induction Ha as [|x a Ha IH Hf]; simpl.
  - constructor; [done|]. apply list.Forall_forall. intros x Hx. specialize (Hl x Hx). lia.
  - constructor; [apply IH; intros; apply Hu; by right|]. apply list.Forall_forall. rewrite list.Forall_forall in Hf. pose proof (Hu x ltac:(left)).
    intros y [Hy|[->|Hy]%elem_of_cons]%elem_of_app; [auto|done|]. specialize (Hl y Hy). lia.
Qed.
Lemma depth_insert d L1 L2 e : depth_ok d (L1 ++ L2) -> (1 <= e_height e <= 10)%nat -> (e_height e <= S d)%nat ->
  depth_ok (if decide (e_height e = S d) then S d else d) (L1 ++ e :: L2).
Proof.
  intros [Hd Hlev] Hh Hle. split; [case_decide; lia|]. intros i. rewrite level_app. destruct (decide (i < e_height e)%nat) as [Hi|Hi].
  - rewrite level_in by done. split; [|case_decide; lia]. intros _ E. by destruct (level i L1).
  - rewrite level_out, <- level_app, <- Hlev by lia. case_decide; lia.
Qed.

Lemma add_ok H pv L tim c d : let h := pending_head pv in let t := tim_time64 c in
  sl_ok H h L -> curr_skiplist_depth pv = Z.of_nat d -> depth_ok d L -> ctx_ok (priv_ctx pv) ->
  H !! tim = Some c -> length (sl_next c) = 10%nat -> tim ∉ h :: (e_node <$> L) -> tim <> 0 ->
  exists H' d' ctx' hgt, timer_skiplist_add H pv tim = Ret (H', with_depth (Z.of_nat d') (with_ctx ctx' pv)) /\ ctx_ok ctx' /\
    sl_ok H' h (upto t L ++ Ent tim t hgt :: later t L) /\ depth_ok d' (upto t L ++ Ent tim t hgt :: later t L) /\
    (forall q, q ∉ tim :: h :: (e_node <$> L) -> H' !! q = H !! q) /\ (forall q, q <> h -> info <$> H' !! q = info <$> H !! q).
Proof.
  intros h t S Ed Hd Hctx Ec Hlen Hni Hz. unfold timer_skiplist_add. assert (time_at H tim = Ret t) as -> by (unfold time_at, get_tim; by rewrite Ec). cbn [mbind outcome_bind].
  destruct (prev_entries_ok H pv L t d S Ed Hd) as (prev & -> & _ & Hprev). cbn [mbind outcome_bind]. destruct Hd as [Hd10 Hlev].
  destruct (level_ok (priv_ctx pv) (curr_skiplist_depth pv) Hctx) as (lvl & ctx' & -> & Hctx' & Hle & Hl10); [lia|]. cbn [mbind outcome_bind]. rewrite Nat2Z.id.
  pose proof (split_time t L (ok_sorted _ _ _ S)) as EL. set (L1 := upto t L) in *. set (L2 := later t L) in *.
  destruct (link_levels_ok h tim L1 L2) with (prev := prev) (lvl := lvl) (H := H) as (H1 & E1 & HI & HF & HO & HC).
  { rewrite <- EL. apply S. } { by rewrite <- EL. } { done. }
  { rewrite <- EL. intros q [->|Hq]%elem_of_cons; [by exists c|]. by apply (sl_cells H h L). }
  { intros i Hi. split; [apply Hprev; lia|]. rewrite <- level_app, <- EL. apply S. lia. }
  set (e := Ent tim t (Datatypes.S lvl)). set (L' := L1 ++ e :: L2).
  assert (forall i, (i < 10)%nat -> chain_at H1 i h (level i L')) as HC'.
  { intros i Hi. unfold L'. rewrite level_app. destruct (decide (i <= lvl)%nat) as [Hi'|Hi']; [rewrite level_in by (simpl; lia); by apply HC|].
    rewrite level_out by (simpl; lia). rewrite <- level_app, <- EL. apply (chain_frame_at H); [|by apply S]. intros q _. apply HO. lia. }
  assert (sl_ok H1 h L') as S1.
  { assert (e_node <$> L' ≡ₚ tim :: (e_node <$> L)) as EP by (unfold L'; rewrite EL, !fmap_app, fmap_cons; simpl; by rewrite Permutation_middle).
    split; [| | | | |done].
    - rewrite EP, perm_swap. apply list.NoDup_cons. split; [done|apply S].
    - rewrite EP, perm_swap. apply list.Forall_cons. split; [done|apply S].
    - apply (cell10_info H); [done|apply S].
    - intros x Hx. assert (x = e \/ x ∈ L) as [->|HxL] by (rewrite EL; unfold L' in Hx; rewrite elem_of_app, elem_of_cons in Hx; rewrite elem_of_app; tauto).
      + specialize (HI tim). rewrite Ec in HI. simpl. destruct (H1 !! tim) as [c'|]; [|done]. simpl in HI. injection HI as Et _ _ _ _ El. exists c'. split; [done|]. split; [lia|]. split; [done|lia].
      + destruct (ok_cells _ _ _ S x HxL) as (cx & Ex & Hlx & Htx & Hhx). specialize (HI (e_node x)). rewrite Ex in HI. destruct (H1 !! e_node x) as [c'|]; [|done].
        simpl in HI. injection HI as Et _ _ _ _ El. exists c'. split; [done|]. split; [lia|]. split; [lia|done].
    - apply (sorted_insert L e), S. }
  rewrite E1. cbn [mbind outcome_bind].
  assert (pending_head (if Z.of_nat lvl =? curr_skiplist_depth (with_ctx ctx' pv) then with_depth (curr_skiplist_depth (with_ctx ctx' pv) + 1) (with_ctx ctx' pv) else with_ctx ctx' pv) = h) as -> by (by case_match).
  pose proof (chain_first _ _ _ _ (HC' 0%nat ltac:(lia))) as Hf. rewrite (next_at_ok _ _ _ _ Hf). cbn [mbind outcome_bind].
  assert (exists x, x ∈ L' /\ first_or_0 (level 0 L') = e_node x) as (x & Hx & ->).
  { destruct (level 0 L') as [|y l] eqn:El; [|assert (y ∈ level 0 L') as (x & Hx & <- & _)%elem_of_level by (rewrite El; left); by exists x].
    unfold L' in El. rewrite level_app, level_in in El by (simpl; lia). by destruct (level 0 L1). }
  destruct (ok_cells _ _ _ S1 x Hx) as (cx & Ex & _). unfold time_at, get_tim. rewrite Ex. cbn [of_option mbind outcome_bind].
  destruct (upd_head_time H1 h L' (tim_time64 cx) S1) as (H2 & E2 & S2 & HF2 & _). rewrite E2. cbn [mbind outcome_bind].
  exists H2, (if decide (Datatypes.S lvl = Datatypes.S d) then Datatypes.S d else d), ctx', (Datatypes.S lvl). split.
  - do 2 f_equal. simpl. rewrite Ed. case_decide as Hdec; [rewrite (proj2 (Z.eqb_eq _ _)) by lia|rewrite (proj2 (Z.eqb_neq _ _)) by lia].
    + f_equal. lia.
    + unfold with_depth, with_ctx. simpl. by rewrite Ed.
  - split; [done|]. split; [done|]. split; [apply (depth_insert d L1 L2 e); [rewrite <- EL; by split|simpl; lia|simpl; lia]|]. split.
    + intros q Hq. rewrite HF2 by (intros ->; apply Hq; right; left). apply HF. by rewrite <- EL.
    + intros q Hq. rewrite HF2 by done. apply HI.
Qed.

(** ** Removing *)

Definition drop_first (tim : Z) (b : list Z) : list Z := match b with z :: b' => if decide (z = tim) then b' else b | [] => [] end.

Lemma prev_to_node_ok H tim t q d : forall i prev, (i <= d)%nat -> (d <= 10)%nat -> length prev = 11%nat ->
  (forall j, (j < i)%nat -> exists p, prev_is prev j p /\ iter (list_fuel H) (advance_step H j tim t) p = Ret (q j)) ->
  (forall j, (i <= j < d)%nat -> prev_is prev j (q j)) ->
  exists prev', prev_to_node H tim t i prev = Ret prev' /\ forall j, (j < d)%nat -> prev_is prev' j (q j).
Proof.
  induction i as [|i IH]; intros prev Hi Hd Hlen Hlow Hhigh; cbn [prev_to_node].
  - exists prev. split; [done|]. intros j Hj. apply Hhigh. lia.
  - destruct (Hlow i ltac:(lia)) as (p & Hp & Ep). rewrite (prev_get_ok _ _ _ Hp). cbn [mbind outcome_bind]. rewrite Ep. cbn [mbind outcome_bind].
    rewrite prev_set_ok by lia. cbn [mbind outcome_bind]. apply IH; [lia|done|by rewrite length_insert| |].
    + intros j Hj. destruct (Hlow j ltac:(lia)) as (p' & Hp' & Ep'). exists p'. split; [|done]. unfold prev_is. rewrite list_lookup_insert_ne by lia. done.
    + intros j Hj. unfold prev_is. destruct (decide (j = i)) as [->|Hne]; [apply list_lookup_insert_eq; lia|]. rewrite list_lookup_insert_ne by done. apply Hhigh. lia.
Qed.

Section unlink.
Context (h tim : Z) (a b : nat -> list Z) (Hz : tim <> 0).

Lemma unlink_levels_ok prev d : forall H, (d <= 10)%nat -> (forall i, (i < d)%nat -> prev_is prev i (last_of h (a i)) /\ chain_at H i h (a i ++ b i) /\ NoDup (h :: a i ++ b i)) ->
  exists H', unlink_levels H tim prev d = Ret H' /\ same_info H H' /\ (forall q, (forall i, (i < d)%nat -> q ∉ h :: a i) -> H' !! q = H !! q) /\
    (forall i q, (d <= i)%nat -> nxt_at H' i q = nxt_at H i q) /\ forall i, (i < d)%nat -> chain_at H' i h (a i ++ drop_first tim (b i)).
Proof.
  induction d as [|d IH]; intros H Hd Hi; cbn [unlink_levels].
  - exists H. split; [done|]. split; [done|]. split; [done|]. split; [done|]. intros; lia.
  - destruct (Hi d ltac:(lia)) as (Hp & Hch & Hnd). rewrite (prev_get_ok _ _ _ Hp). cbn [mbind outcome_bind]. pose proof Hch as Hb. apply chain_app in Hb as [Hs Hb].
    rewrite (next_at_ok _ _ _ _ (chain_first _ _ _ _ Hb)). cbn [mbind outcome_bind].
    assert (exists H1, (if first_or_0 (b d) =? tim then m ← next_at H tim d; set_next_at H (last_of h (a d)) d m else Ret H) = Ret H1 /\ same_info H H1 /\
      (forall q, q <> last_of h (a d) -> H1 !! q = H !! q) /\ (forall i q, i <> d -> nxt_at H1 i q = nxt_at H i q) /\ chain_at H1 d h (a d ++ drop_first tim (b d))) as (H1 & -> & HI & HF & HO & HC).
    { destruct (Z.eqb_spec (first_or_0 (b d)) tim) as [Ef|Ef].
      - destruct (b d) as [|z b'] eqn:Eb; simpl in Ef; [congruence|]. subst z. destruct Hb as [Hn Hb]. rewrite (next_at_ok _ _ _ _ (chain_first _ _ _ _ Hb)). cbn [mbind outcome_bind].
        destruct (set_next_at_ok H (last_of h (a d)) d (first_or_0 b')) as (H1 & -> & R); [by eexists|]. exists H1. split; [done|]. split; [apply R|]. split; [apply R|].
        split; [intros i q Hne; apply (relinked_other _ _ _ _ _ _ _ R); by left|]. cbn [drop_first]. rewrite decide_True by done. by apply (chain_unlink H H1 d h (a d) b' tim).
      - exists H. split; [done|]. split; [done|]. split; [done|]. split; [done|]. destruct (b d) as [|z b']; [done|]. cbn [drop_first]. simpl in Ef. by rewrite decide_False. }
    cbn [mbind outcome_bind]. destruct (IH H1) as (H2 & -> & HI2 & HF2 & HO2 & HC2); [lia| |].
    { intros i Hlt. destruct (Hi i ltac:(lia)) as (Hpi & Hci & Hni). split; [done|]. split; [|done]. apply (chain_frame_at H); [|done]. intros q _. apply HO. lia. }
    exists H2. split; [done|]. split; [by eapply same_info_trans|]. split_and!.
    + intros q Hq. rewrite HF2 by (intros i Hlt; apply Hq; lia). apply HF. intros ->. apply (Hq d ltac:(lia)), last_of_in.
    + intros i q Hle. rewrite HO2, HO by lia. done.
    + intros i Hlt. destruct (decide (i = d)) as [->|Hne]; [|apply HC2; lia]. apply (chain_frame_at H1); [|done]. intros q _. apply HO2. lia.
Qed.
End unlink.

Lemma lower_depth_ok H h L d : (d <= 10)%nat -> (forall i, (i < d)%nat -> nxt_at H i h = Some (first_or_0 (level i L))) -> Forall (fun x => x <> 0) (e_node <$> L) ->
  (forall i, (d <= i)%nat -> level i L = []) -> exists d', lower_depth H h d (Z.of_nat d) = Ret (Z.of_nat d') /\ depth_ok d' L.
Proof.
  intros Hd Hn Hz. induction d as [|d IH]; intros Hlev; cbn [lower_depth].
  - exists 0%nat. split; [done|]. split; [lia|]. intros i. split; [lia|]. intros Hne. by rewrite Hlev in Hne by lia.
  - rewrite (next_at_ok _ _ _ _ (Hn d ltac:(lia))). cbn [mbind outcome_bind]. destruct (level d L) as [|x l] eqn:El; simpl.
    + replace (Z.of_nat (S d) - 1) with (Z.of_nat d) by lia. apply IH; [lia|intros; apply Hn; lia|]. intros i Hi. destruct (decide (i = d)) as [->|]; [done|]. apply Hlev. lia.
    + assert (x ∈ level d L) as Hx by (rewrite El; left). rewrite list.Forall_forall in Hz. rewrite (proj2 (Z.eqb_neq _ _)) by by apply Hz, (level_nodes d). exists (S d). split; [done|].
      split; [done|]. intros i. split.
      * intros Hi E. apply elem_of_level in Hx as (e & He & <- & Hh). assert (e_node e ∈ level i L) as Hin by (apply elem_of_level; exists e; split_and!; [done|done|lia]). rewrite E in Hin. by apply elem_of_nil in Hin.
      * intros Hne. destruct (decide (i < S d)%nat); [done|]. by rewrite Hlev in Hne by lia.
Qed.

(** [L'] is [L] without [tim], at each level. *)
Lemma remove_ok H pv L L' tim c d : let h := pending_head pv in
  sl_ok H h L -> curr_skiplist_depth pv = Z.of_nat d -> depth_ok d L -> H !! tim = Some c -> length (sl_next c) = 10%nat -> tim <> 0 -> tim <> h -> 1 <= tim_time64 c < 2 ^ 64 ->
  (tim ∉ (e_node <$> L) /\ L' = L \/ exists A e B, L = A ++ e :: B /\ e_node e = tim /\ L' = A ++ B) ->
  exists H' d', timer_skiplist_remove H pv tim = Ret (H', with_depth (Z.of_nat d') pv) /\ sl_ok H' h L' /\ depth_ok d' L' /\
    (forall q, q ∉ h :: (e_node <$> L) -> H' !! q = H !! q) /\ (forall q, q <> h -> info <$> H' !! q = info <$> H !! q).
Proof.
  intros h S Ed Hd Ec Hlen Hz Hh Ht HL. pose proof Hd as [Hd10 Hlev]. unfold timer_skiplist_remove. fold h.
  pose proof (chain_first _ _ _ _ (ok_chains _ _ _ S 0%nat ltac:(lia))) as Hf0. rewrite (next_at_ok _ _ _ _ Hf0). cbn [mbind outcome_bind].
  assert (exists H1, (if tim =? first_or_0 (level 0 L) then n ← next_at H tim 0; t ← (if n =? 0 then Ret 0 else time_at H n); upd_tim H h (with_time t) else Ret H) = Ret H1 /\
    sl_ok H1 h L /\ (forall q, q <> h -> H1 !! q = H !! q)) as (H1 & -> & S1 & HF1).
  { destruct (Z.eqb_spec tim (first_or_0 (level 0 L))) as [Ef|]; [|by exists H]. pose proof (ok_chains _ _ _ S 0%nat ltac:(lia)) as Hc0. destruct (level 0 L) as [|z l] eqn:El; simpl in Ef; [done|]. subst z.
    apply chain_tail in Hc0. rewrite (next_at_ok _ _ _ _ (chain_first _ _ _ _ Hc0)). cbn [mbind outcome_bind].
    assert (exists t, (if first_or_0 l =? 0 then Ret 0 else time_at H (first_or_0 l)) = Ret t) as [t ->].
    { destruct l as [|y l']; [by exists 0|]. simpl. destruct (level_time H h L 0 y S) as (e & _ & _ & -> & _); [rewrite El; right; left|]. case_match; eauto. }
    cbn [mbind outcome_bind]. destruct (upd_head_time H h L t S) as (H1 & E1 & S1 & HF1 & _). by exists H1. }
  cbn [mbind outcome_bind]. assert (H1 !! tim = Some c) as Ec1 by (rewrite HF1; done).
  unfold timer_get_prev_entries_for_node. assert (time_at H1 tim = Ret (tim_time64 c)) as -> by (unfold time_at, get_tim; by rewrite Ec1). cbn [mbind outcome_bind].
  rewrite u64_small by lia. destruct (prev_entries_ok H1 pv L (tim_time64 c - 1) d S1 Ed Hd) as (prev & -> & Hpl & Hprev). cbn [mbind outcome_bind]. rewrite Ed, Nat2Z.id. fold h in Hprev.
  assert (exists a b, (forall i, (i < d)%nat -> level i L = a i ++ b i /\ level i L' = a i ++ drop_first tim (b i) /\
    iter (list_fuel H1) (advance_step H1 i tim (tim_time64 c)) (prev_at h (tim_time64 c - 1) L i) = Ret (last_of h (a i))) /\
    (forall e, e ∈ L' -> e ∈ L) /\ (forall i, level i L = [] -> level i L' = []) /\ (e_node <$> L') `sublist_of` (e_node <$> L) /\ by_time L') as (a & b & Hab & Hsub & Hnil & Hsl & Hsort).
  { set (t := tim_time64 c) in *. assert (Hout : forall i, (i < d)%nat -> tim ∉ level i L -> level i L = level i (upto t L) ++ level i (later t L) /\
      level i L = level i (upto t L) ++ drop_first tim (level i (later t L)) /\ iter (list_fuel H1) (advance_step H1 i tim t) (prev_at h (t - 1) L i) = Ret (last_of h (level i (upto t L)))).
    { intros i Hi Hni. assert (level i L = level i (upto t L) ++ level i (later t L)) as El by (rewrite <- level_app; f_equal; apply split_time, S).
      split; [done|]. split; [|apply (node_walk_out H1 h L tim t i S1); [lia|done|done]]. rewrite El at 1. f_equal. destruct (level i (later t L)) as [|z l] eqn:Ez; [done|].
      cbn [drop_first]. rewrite decide_False; [done|]. intros ->. apply Hni. rewrite El. apply elem_of_app. right. left. }
    destruct HL as [[Hni ->]|(A & e & B & EL & En & ->)].
    - exists (fun i => level i (upto t L)), (fun i => level i (later t L)). split; [|split_and!; try done; apply S].
      intros i Hi. apply Hout; [done|]. by intros ?%level_nodes.
    - subst tim. assert (t = e_time e) as Et by (destruct (ok_cells _ _ _ S e) as (c' & Ec' & _ & <- & _); [rewrite EL; apply elem_of_app; right; left|]; unfold t; congruence).
      exists (fun i => if decide (i < e_height e)%nat then level i A else level i (upto t L)), (fun i => if decide (i < e_height e)%nat then e_node e :: level i B else level i (later t L)).
      assert (Hdrop : forall i, (e_height e <= i)%nat -> level i (A ++ B) = level i L) by (intros i Hi; rewrite EL, !level_app, level_out; done). split; [|split_and!].
      + intros i Hi. case_decide as Hdec.
        * rewrite EL at 1. rewrite !level_app, level_in by done. cbn [drop_first]. rewrite decide_True by done. split; [done|]. split; [done|].
          rewrite Et. rewrite EL in S1 |- *. apply (node_walk_in H1 h A e B i S1); [lia|done].
        * rewrite Hdrop by lia. apply Hout; [done|]. intros (e' & He' & En' & Hh')%elem_of_level. rewrite EL in He'.
          pose proof (ok_nodup _ _ _ S) as Hnd. apply list.NoDup_cons in Hnd as [_ Hnd]. rewrite EL, fmap_app, fmap_cons in Hnd. apply list.NoDup_app in Hnd as (_ & Hd1 & [Hd2 _]%list.NoDup_cons).
          apply elem_of_app in He' as [He'|[->|He']%elem_of_cons]; [apply (Hd1 (e_node e')); [by apply list_elem_of_fmap_2|rewrite En'; left]|lia|apply Hd2; rewrite <- En'; by apply list_elem_of_fmap_2].
      + intros x. rewrite EL, !elem_of_app, elem_of_cons. tauto.
      + intros i E. rewrite EL, level_app in E. apply app_eq_nil in E as [E1 E2]. rewrite level_app, E1. destruct (decide (i < e_height e)%nat); [by rewrite level_in in E2|by rewrite level_out in E2 by lia].
      + rewrite EL, !fmap_app. apply sublist_app; [done|]. by constructor.
      + pose proof (ok_sorted _ _ _ S) as Hs. rewrite EL in Hs. apply by_time_app in Hs as (HA & HB & HAB). inversion_clear HB as [|? ? HB' _].
        clear -HA HB' HAB. induction HA as [|x A HA IH Hf]; [done|]. simpl. constructor; [apply IH; intros; apply HAB; [by right|done]|].
        apply list.Forall_app. split; [done|]. apply list.Forall_forall. intros y Hy. apply HAB; [left|by right]. }
  destruct (prev_to_node_ok H1 tim (tim_time64 c) (fun i => last_of h (a i)) d d prev) as (prev' & -> & Hp'); [lia|done|done| |intros; lia|].
  { intros j Hj. exists (prev_at h (tim_time64 c - 1) L j). split; [apply Hprev; lia|]. by apply Hab. }
  cbn [mbind outcome_bind].
  destruct (unlink_levels_ok h tim a b Hz prev' d H1) as (H2 & -> & HI2 & HF2 & HO2 & HC2); [done| |].
  { intros i Hi. destruct (Hab i Hi) as (El & _ & _). split; [by apply Hp'|]. rewrite <- El. split; [apply S1; lia|apply level_nodup, S]. }
  cbn [mbind outcome_bind].
  assert (forall i, (i < 10)%nat -> chain_at H2 i h (level i L')) as HC.
  { intros i Hi. destruct (decide (i < d)%nat) as [Hid|Hid]; [destruct (Hab i Hid) as (_ & -> & _); by apply HC2|].
    rewrite Hnil by (apply (depth_level d); [done|lia]). pose proof (ok_chains _ _ _ S1 i Hi) as Hc. rewrite (depth_level d L i Hd) in Hc by lia. simpl in *. rewrite HO2 by lia. done. }
  assert (Forall (fun x => x <> 0) (e_node <$> L')) as HnzL'.
  { apply list.Forall_forall. intros x (e & -> & He)%list_elem_of_fmap. pose proof (ok_null _ _ _ S) as Hn. rewrite list.Forall_forall in Hn. apply Hn. right. apply list_elem_of_fmap_2. auto. }
  destruct (lower_depth_ok H2 h L' d Hd10) as (d' & -> & Hd'); [intros i Hi; apply chain_first, HC; lia|done|intros i Hi; apply Hnil, (depth_level d); done|].
  cbn [mbind outcome_bind]. exists H2, d'. split; [done|]. split; [|split; [done|split]].
  - split; [|apply list.Forall_cons; split; [|done]| | |done|done].
    + apply (sublist_NoDup _ (h :: (e_node <$> L))); [apply S|]. by apply sublist_skip.
    + pose proof (ok_null _ _ _ S) as Hn. by apply list.Forall_cons in Hn as [? _].
    + apply (cell10_info H1); [done|]. apply (sl_cells H1 h L S1). left.
    + intros e He. destruct (ok_cells _ _ _ S1 e (Hsub e He)) as (cx & Ex & Hlx & Htx & Hhx). specialize (HI2 (e_node e)). rewrite Ex in HI2. destruct (H2 !! e_node e) as [c'|]; [|done].
      simpl in HI2. injection HI2 as Et _ _ _ _ El. exists c'. split; [done|]. split; [lia|]. split; [lia|done].
  - intros q Hq. rewrite HF2; [apply HF1; intros ->; apply Hq; left|]. intros i Hi Hin. apply Hq. apply elem_of_cons in Hin as [->|Hin]; [left|right]. apply (level_nodes i).
    destruct (Hab i Hi) as (-> & _). apply elem_of_app. by left.
  - intros q Hq. rewrite (HI2 q). by rewrite HF1.
Qed.

(** ** Cutting off the expired entries *)

Lemma depth_exists L : (forall e, e ∈ L -> (1 <= e_height e <= 10)%nat) -> exists d, depth_ok d L.
Proof.
  induction L as [|e L IH]; intros Hh.
  - exists 0%nat. split; [lia|]. intros i. by split; [lia|].
  - destruct IH as (d & Hd & Hlev); [intros; apply Hh; by right|]. pose proof (Hh e ltac:(left)). exists (Nat.max (e_height e) d). split; [lia|]. intros i.
    destruct (decide (i < e_height e)%nat); [rewrite level_in by done; split; [done|lia]|]. rewrite level_out, <- Hlev by lia. lia.
Qed.

Section cut.
Context (h : Z) (U V : list ent) (d d' : nat) (HdL : depth_ok d (U ++ V)) (HdV : depth_ok d' V) (HnzV : Forall (fun x => x <> 0) (e_node <$> V)).

Lemma cut_one H p i depth : (i < d)%nat -> depth = Z.of_nat (Nat.max (S i) d') -> NoDup (h :: level i U ++ level i V) -> p = last_of h (level i U) ->
  chain_at H i h (level i U ++ level i V) -> (forall q, q ∈ h :: level i U -> cell10 H q) ->
  exists H', (forall prev, prev_is prev i p -> cut_levels H h prev (S i) depth = cut_levels H' h prev i (Z.of_nat (Nat.max i d'))) /\
    same_info H H' /\ (forall q, q ∉ h :: level i U -> H' !! q = H !! q) /\ (forall j q, j <> i -> nxt_at H' j q = nxt_at H j q) /\
    chain_at H' i h (level i V) /\ match level i U with [] => True | x :: a => chain_at H' i x a end.
Proof.
  intros Hi -> Hnd -> Hc Hcell. pose proof HdL as [Hd10 HlevL]. pose proof HdV as [_ HlevV]. destruct (level i U) as [|x a] eqn:EU.
  - exists H. split; [|by split_and!]. intros prev Hp. cbn [cut_levels]. rewrite (prev_get_ok _ _ _ Hp). cbn [mbind outcome_bind last_of]. rewrite Z.eqb_refl. do 2 f_equal.
    specialize (HlevL i). rewrite level_app, EU in HlevL. specialize (HlevV i). assert (i < d')%nat; [|lia]. apply HlevV. by apply HlevL.
  - assert (last_of h (x :: a) ∈ x :: a) as Hin by (apply (last_of_nonempty h); done). assert (last_of h (x :: a) <> h) as Hph.
    { intros E. apply list.NoDup_cons in Hnd as [Hh _]. apply Hh. rewrite <- E. apply elem_of_app. by left. }
    pose proof Hc as Hb. apply chain_app in Hb as [_ Hb]. pose proof (chain_first _ _ _ _ Hb) as Hn.
    destruct (set_next_at_ok H h i (first_or_0 (level i V))) as (H1 & E1 & R1); [apply cell10_nxt; [apply Hcell; left|lia]|].
    assert (nxt_at H1 i (last_of h (x :: a)) = Some (first_or_0 (level i V))) as Hn1 by (rewrite (relinked_other _ _ _ _ _ _ _ R1) by tauto; done).
    destruct (set_next_at_ok H1 (last_of h (x :: a)) i 0) as (H2 & E2 & R2); [by eexists|]. exists H2. split; [|split_and!].
    + intros prev Hp. cbn [cut_levels]. rewrite (prev_get_ok _ _ _ Hp). cbn [mbind outcome_bind]. rewrite (proj2 (Z.eqb_neq _ _)) by done.
      rewrite (next_at_ok _ _ _ _ Hn). cbn [mbind outcome_bind]. rewrite E1. cbn [mbind outcome_bind]. rewrite (next_at_ok _ _ _ _ Hn1). cbn [mbind outcome_bind]. rewrite E2. cbn [mbind outcome_bind].
      f_equal. specialize (HlevV i). destruct (level i V) as [|y l] eqn:EV; simpl.
      * assert (~ (i < d')%nat) by (intros Hlt; by apply HlevV). lia.
      * assert (y <> 0) as Hy0; [|rewrite (proj2 (Z.eqb_neq _ _)) by done; assert (i < d')%nat by (by apply HlevV); lia].
        rewrite list.Forall_forall in HnzV. apply HnzV, (level_nodes i). rewrite EV. left.
    + eapply same_info_trans; [apply R1|apply R2].
    + intros q Hq. destruct R1 as (_ & _ & R1), R2 as (_ & _ & R2). rewrite R2, R1; [done|intros ->; apply Hq; left|intros ->; apply Hq; by right].
    + intros j q Hne. rewrite (relinked_other _ _ _ _ _ _ _ R2), (relinked_other _ _ _ _ _ _ _ R1); [done|by left|by left].
    + by apply (chain_cut H H1 H2 i h x a).
    + by apply (chain_cut H H1 H2 i h x a (level i V)).
Qed.

Lemma cut_levels_ok prev : forall i H, (i <= d)%nat -> NoDup (h :: (e_node <$> (U ++ V))) -> (forall j, (j < i)%nat -> prev_is prev j (last_of h (level j U))) ->
  (forall j, (j < i)%nat -> chain_at H j h (level j U ++ level j V)) -> (forall q, q ∈ h :: (e_node <$> U) -> cell10 H q) ->
  exists H', cut_levels H h prev i (Z.of_nat (Nat.max i d')) = Ret (H', Z.of_nat d') /\ same_info H H' /\ (forall q, q ∉ h :: (e_node <$> U) -> H' !! q = H !! q) /\
    (forall j q, (i <= j)%nat -> nxt_at H' j q = nxt_at H j q) /\
    forall j, (j < i)%nat -> chain_at H' j h (level j V) /\ match level j U with [] => True | x :: a => chain_at H' j x a end.
Proof.
  induction i as [|i IH]; intros H Hi Hnd Hp Hc Hcell.
  - exists H. split; [done|]. split; [done|]. split; [done|]. split; [done|]. intros; lia.
  - destruct (cut_one H (last_of h (level i U)) i (Z.of_nat (Nat.max (S i) d'))) as (H1 & E1 & HI & HF & HO & HC); [lia|done|rewrite <- level_app; by apply level_nodup|done|apply Hc; lia| |].
    { intros q [->|Hq%level_nodes]%elem_of_cons; apply Hcell; [left|by right]. }
    rewrite (E1 prev) by (apply Hp; lia). destruct (IH H1) as (H2 & -> & HI2 & HF2 & HO2 & HC2); [lia|done|intros; apply Hp; lia| |intros q Hq; apply (cell10_info H); auto|].
    { intros j Hj. apply (chain_frame_at H); [|apply Hc; lia]. intros q _. apply HO. lia. }
    exists H2. split; [done|]. split; [by eapply same_info_trans|]. split; [|split].
    + intros q Hq. rewrite HF2 by done. apply HF. intros [->|Hin%level_nodes]%elem_of_cons; apply Hq; [left|by right].
    + intros j q Hj. rewrite HO2, HO by lia. done.
    + intros j Hj. destruct (decide (j = i)) as [->|Hne]; [|apply HC2; lia]. split; [apply (chain_frame_at H1); [|apply HC]; intros q _; by apply HO2|].
      destruct (level i U) as [|x a]; [done|]. apply (chain_frame_at H1); [|apply HC]. intros q _. by apply HO2.
Qed.
End cut.

(** The entries up to a time leave the list; they are linked at level 0 as before. *)
Lemma level0 L : (forall e, e ∈ L -> (1 <= e_height e)%nat) -> level 0 L = e_node <$> L.
Proof. induction L as [|e L IH]; intros Hh; [done|]. rewrite level_in by (pose proof (Hh e ltac:(left)); lia). simpl. f_equal. apply IH. intros. apply Hh. by right. Qed.
Lemma cut_ok H pv L t d prev : let h := pending_head pv in sl_ok H h L -> curr_skiplist_depth pv = Z.of_nat d -> depth_ok d L ->
  (forall i, (i <= d)%nat -> prev_is prev i (prev_at h t L i)) ->
  exists H' d', cut_levels H h prev d (Z.of_nat d) = Ret (H', Z.of_nat d') /\ sl_ok H' h (later t L) /\ depth_ok d' (later t L) /\ same_info H H' /\
    (forall q, q ∉ h :: (e_node <$> upto t L) -> H' !! q = H !! q) /\ match e_node <$> upto t L with [] => True | x :: a => chain_at H' 0 x a end.
Proof.
  intros h S Ed Hd Hp. pose proof (split_time t L (ok_sorted _ _ _ S)) as EL. set (U := upto t L) in *. set (V := later t L) in *.
  assert (HV : forall e, e ∈ V -> e ∈ L) by (intros e He; rewrite EL; apply elem_of_app; by right). assert (HU : forall e, e ∈ U -> e ∈ L) by (intros e He; rewrite EL; apply elem_of_app; by left).
  assert (Hhgt : forall e, e ∈ L -> (1 <= e_height e <= 10)%nat) by (intros e He; by destruct (ok_cells _ _ _ S e He) as (_ & _ & _ & _ & ?)).
  destruct (depth_exists V) as [d' Hd']; [auto|]. assert (d' <= d)%nat as Hle.
  { destruct (decide (d' <= d)%nat) as [|Hgt]; [done|]. exfalso. destruct Hd' as [_ Hd']. apply (proj1 (Hd' d)); [lia|]. pose proof (depth_level d L d Hd) as E. rewrite EL, level_app in E.
    by apply app_eq_nil in E as [_ ?]. }
  pose proof (ok_null _ _ _ S) as Hz. rewrite list.Forall_forall in Hz.
  destruct (cut_levels_ok h U V d d') with (prev := prev) (i := d) (H := H) as (H' & E & HI & HF & HO & HC).
  { by rewrite <- EL. } { done. }
  { apply list.Forall_forall. intros x (e & -> & He)%list_elem_of_fmap. apply Hz. right. apply list_elem_of_fmap_2. auto. }
  { done. } { rewrite <- EL. apply S. } { intros j Hj. apply Hp. lia. } { intros j Hj. rewrite <- level_app, <- EL. apply S. destruct Hd. lia. }
  { intros q Hq. apply (sl_cells H h L S). rewrite EL, fmap_app. set_solver. }
  replace (Nat.max d d') with d in E by lia. exists H', d'. split; [done|]. split; [|split; [done|split; [done|split; [done|]]]].
  - split.
    + apply (sublist_NoDup _ (h :: (e_node <$> L))); [apply S|]. apply sublist_skip. rewrite EL, fmap_app. by apply sublist_inserts_l.
    + apply list.Forall_forall. intros x [->|(e & -> & He)%list_elem_of_fmap]%elem_of_cons; [apply Hz; left|apply Hz; right; apply list_elem_of_fmap_2; auto].
    + apply (cell10_info H); [done|]. apply S.
    + intros e He. destruct (ok_cells _ _ _ S e (HV e He)) as (cx & Ex & Hlx & Htx & Hhx). specialize (HI (e_node e)). rewrite Ex in HI. destruct (H' !! e_node e) as [c'|]; [|done].
      simpl in HI. injection HI as Et _ _ _ _ El. exists c'. split; [done|]. split; [lia|]. split; [lia|done].
    + by apply by_time_filter, S.
    + intros i Hi. destruct (decide (i < d)%nat) as [Hid|Hid]; [by apply HC|]. pose proof (ok_chains _ _ _ S i Hi) as Hc. pose proof (depth_level d L i Hd ltac:(lia)) as El. rewrite El in Hc.
      rewrite EL, level_app in El. apply app_eq_nil in El as [_ ->]. simpl in *. by rewrite HO by lia.
  - rewrite <- (level0 U) by (intros e He; apply Hhgt; auto). destruct (decide (0 < d)%nat) as [H0|H0]; [by apply HC|].
    pose proof (depth_level d L 0 Hd ltac:(lia)) as El. rewrite EL, level_app in El. by apply app_eq_nil in El as [-> _].
Qed.
