(* ===== verification/SkipListOps.v ===== *)
(** Skip lists: starting and stopping one timer. *)
From Stdlib Require Import Sorted.
From S2P Require Import Prelude Bytes Packet RandomMt SkipList SkipListSpec SkipListRun.

(** ** The list with the fields of [struct priv_timer] *)

Definition sl_state (H : timers) (pv : priv_timer) (L : list ent) : Prop :=
  exists d, sl_ok H (pending_head pv) L /\ curr_skiplist_depth pv = Z.of_nat d /\ depth_ok d L /\ ctx_ok (priv_ctx pv).
Definition without (tim : Z) (L : list ent) : list ent := filter (fun e => e_node e <> tim) L.

Lemma absent_without tim L : tim ∉ e_node <$> L -> without tim L = L.
Proof.
  induction L as [|e L IH]; intros Hn; [done|]. rewrite fmap_cons, not_elem_of_cons in Hn. unfold without. destruct Hn as [Hn1 Hn2]. rewrite filter_cons_True by congruence. f_equal. by apply IH.
Qed.
Lemma split_without tim L : NoDup (e_node <$> L) -> tim ∉ e_node <$> L /\ without tim L = L \/ exists A e B, L = A ++ e :: B /\ e_node e = tim /\ without tim L = A ++ B.
Proof.
  intros Hnd. destruct (decide (tim ∈ e_node <$> L)) as [(e & -> & He)%list_elem_of_fmap|Hn]; [right|left; by split; [|apply absent_without]].
  apply list_elem_of_split in He as (A & B & ->). exists A, e, B. split; [done|]. split; [done|]. rewrite fmap_app, fmap_cons in Hnd. apply list.NoDup_app in Hnd as (_ & Hd & [Hb _]%list.NoDup_cons).
  unfold without. rewrite list.filter_app, filter_cons_False by tauto. f_equal; [|by apply absent_without]. apply (absent_without (e_node e) A). intros Ha. apply (Hd _ Ha). left.
Qed.
Lemma without_in tim L x : x ∈ e_node <$> without tim L <-> x ∈ e_node <$> L /\ x <> tim.
Proof.
  rewrite !list_elem_of_fmap. split; [intros (e & -> & [Hn He]%list_elem_of_filter); eauto|]. intros ((e & -> & He) & Hn). exists e. split; [done|]. by apply list_elem_of_filter.
Qed.

Lemma sl_head H pv L : sl_state H pv L -> pending_head pv ∉ e_node <$> L.
Proof. intros (d & S & _). pose proof (ok_nodup _ _ _ S) as Hn. by apply list.NoDup_cons in Hn as [? _]. Qed.
Lemma sl_nodup H pv L : sl_state H pv L -> NoDup (e_node <$> L).
Proof. intros (d & S & _). pose proof (ok_nodup _ _ _ S) as Hn. by apply list.NoDup_cons in Hn as [_ ?]. Qed.
(** A field of a timer changes that is no link, or a timer changes that is not in
    the list. *)
Lemma sl_upd H pv L tim c c' : sl_state H pv L -> H !! tim = Some c -> tim <> pending_head pv -> tim ∉ e_node <$> L \/ links c' = links c -> sl_state (<[tim := c']> H) pv L.
Proof.
  intros (d & S & Ed & Hd & Hx) Ec Hh Hl. exists d. split; [|done]. destruct (ok_head _ _ _ S) as (t & Et & _).
  apply (sl_ok_frame H); [done|exists t, t; by rewrite lookup_insert_ne|]. intros q Hq. destruct (decide (q = tim)) as [->|Hne]; [|by rewrite lookup_insert_ne].
  destruct Hl as [Hl|Hl]; [done|]. rewrite lookup_insert_eq, Ec. simpl. by rewrite Hl.
Qed.
Lemma sl_pv H pv pv' L : sl_state H pv L -> pending_head pv' = pending_head pv -> curr_skiplist_depth pv' = curr_skiplist_depth pv -> priv_ctx pv' = priv_ctx pv -> sl_state H pv' L.
Proof. intros (d & S & Ed & Hd & Hx) E1 E2 E3. exists d. by rewrite E1, E2, E3. Qed.

(** The other fields. *)
Definition same_priv (pv pv' : priv_timer) : Prop :=
  pending_head pv' = pending_head pv /\ updated pv' = updated pv /\ running_tim pv' = running_tim pv.
(** [tim] and the list change, nothing else does; outside the list not even the
    links do. *)
Definition touched (h tim : Z) (L : list ent) (H H' : timers) : Prop :=
  (forall q, q ∉ tim :: h :: (e_node <$> L) -> H' !! q = H !! q) /\ (forall q, q <> h -> q <> tim -> info <$> H' !! q = info <$> H !! q).
Lemma touched_trans h tim L L' H1 H2 H3 : (forall x, x ∈ e_node <$> L' -> x ∈ e_node <$> L) -> touched h tim L H1 H2 -> touched h tim L' H2 H3 -> touched h tim L H1 H3.
Proof.
  intros HL [F1 I1] [F2 I2]. split; [|intros q Hh Ht; by rewrite I2, I1]. intros q Hq. rewrite F2, F1; [done|done|].
  intros [->|[->|Hin]%elem_of_cons]%elem_of_cons; apply Hq; [left|right; left|right; right; auto].
Qed.
Lemma touched_upd h tim L H c : touched h tim L H (<[tim := c]> H).
Proof. split; intros q Hq; [rewrite lookup_insert_ne; [done|intros ->; apply Hq; left]|]. intros Ht. by rewrite lookup_insert_ne. Qed.
Lemma info_len (H : timers) q c : info <$> H !! q = Some (info c) -> exists c', H !! q = Some c' /\ info c' = info c.
Proof. intros E. destruct (H !! q) as [c'|]; [|done]. exists c'. split; [done|]. exact (inj Some _ _ E). Qed.

Lemma upd_tim_ok H p c f : H !! p = Some c -> upd_tim H p f = Ret (<[p := f c]> H).
Proof. intros E. unfold upd_tim, get_tim. by rewrite E. Qed.

Section one_timer.
Context (H : timers) (pv : priv_timer) (L : list ent) (tim : Z) (c : timer_skiplist).
Let h := pending_head pv.
Context (HS : sl_state H pv L) (Ec : H !! tim = Some c) (Hlen : length (sl_next c) = 10%nat) (Hz : tim <> 0) (Hh : tim <> h).

Lemma remove_sl : 1 <= tim_time64 c < 2 ^ 64 -> exists H' pv', timer_skiplist_remove H pv tim = Ret (H', pv') /\ sl_state H' pv' (without tim L) /\
  same_priv pv pv' /\ touched h tim L H H' /\ info <$> H' !! tim = Some (info c).
Proof.
  intros Ht. destruct HS as (d & S & Ed & Hd & Hx). destruct (remove_ok H pv L (without tim L) tim c d S Ed Hd Ec Hlen Hz Hh Ht) as (H' & d' & -> & S' & Hd' & HF & HI).
  { apply split_without. by eapply sl_nodup. }
  exists H', (with_depth (Z.of_nat d') pv). split; [done|]. split; [by exists d'|]. split; [done|]. split; [|rewrite HI by done; by rewrite Ec].
  split; [intros q Hq; apply HF; intros Hin; apply Hq; by right|]. intros q Hq _. by apply HI.
Qed.
Lemma add_sl : tim ∉ e_node <$> L -> exists H' pv' hgt, timer_skiplist_add H pv tim = Ret (H', pv') /\
  sl_state H' pv' (upto (tim_time64 c) L ++ Ent tim (tim_time64 c) hgt :: later (tim_time64 c) L) /\
  same_priv pv pv' /\ touched h tim L H H' /\ info <$> H' !! tim = Some (info c).
Proof.
  intros Hni. destruct HS as (d & S & Ed & Hd & Hx). destruct (add_ok H pv L tim c d S Ed Hd Hx Ec Hlen) as (H' & d' & ctx' & hgt & -> & Hx' & S' & Hd' & HF & HI); [|done|].
  { by intros [?|?]%elem_of_cons. }
  exists H', (with_depth (Z.of_nat d') (with_ctx ctx' pv)), hgt. split; [done|]. split; [by exists d'|]. split; [done|]. split; [|rewrite HI by done; by rewrite Ec].
  split; [done|]. intros q Hq _. by apply HI.
Qed.

(** The timer leaves the list for its new configuration. *)
Definition startable : Prop :=
  tim_state c = RTE_TIMER_STOP \/ tim_state c = RTE_TIMER_PENDING \/ tim_state c = RTE_TIMER_RUNNING /\ tim = running_tim pv.
Definition listed : Prop := if decide (tim_state c = RTE_TIMER_PENDING) then 1 <= tim_time64 c < 2 ^ 64 else tim ∉ e_node <$> L.
Lemma config_ok : startable -> timer_set_config_state H pv tim = Ret (<[tim := with_state RTE_TIMER_CONFIG c]> H, Some (tim_state c)).
Proof.
  intros Hs. unfold timer_set_config_state, upd_tim, get_tim. rewrite Ec. cbn [of_option mbind outcome_bind].
  destruct Hs as [->|[->|[-> <-]]]; [done|done|]. simpl. by rewrite Z.eqb_refl.
Qed.
Lemma config_refused : tim_state c = RTE_TIMER_RUNNING -> tim <> running_tim pv -> timer_set_config_state H pv tim = Ret (H, None).
Proof. intros E Hne. unfold timer_set_config_state, get_tim. rewrite Ec. cbn [of_option mbind outcome_bind]. rewrite E. simpl. by rewrite (proj2 (Z.eqb_neq _ _)). Qed.
End one_timer.

Lemma detach_sl H pv L tim c : sl_state H pv L -> H !! tim = Some c -> length (sl_next c) = 10%nat -> tim <> 0 -> tim <> pending_head pv -> listed L tim c ->
  let pv1 := if tim_state c =? RTE_TIMER_RUNNING then with_updated 1 pv else pv in let H1 := <[tim := with_state RTE_TIMER_CONFIG c]> H in
  exists H2 pv2, (if tim_state c =? RTE_TIMER_PENDING then timer_skiplist_remove H1 pv1 tim else Ret (H1, pv1)) = Ret (H2, pv2) /\ sl_state H2 pv2 (without tim L) /\
    same_priv pv1 pv2 /\ touched (pending_head pv) tim L H H2 /\ exists c2, H2 !! tim = Some c2 /\ length (sl_next c2) = 10%nat.
Proof.
  intros HS Ec Hlen Hz Hh Hl pv1 H1. assert (pending_head pv1 = pending_head pv) as Eh by (unfold pv1; by case_match).
  assert (sl_state H1 pv1 L) as HS1.
  { apply (sl_pv _ pv); [|done|unfold pv1; by case_match|unfold pv1; by case_match]. apply (sl_upd H pv L tim c); [done|done|done|by right]. }
  assert (H1 !! tim = Some (with_state RTE_TIMER_CONFIG c)) as E1 by (unfold H1; by rewrite lookup_insert_eq). unfold listed in Hl. case_decide as Hst.
  - rewrite (proj2 (Z.eqb_eq _ _)) by done. destruct (remove_sl H1 pv1 L tim _ HS1 E1 Hlen Hz) as (H2 & pv2 & -> & HS2 & Hpv & HT & HI); [by rewrite Eh|done|].
    exists H2, pv2. split; [done|]. split; [done|]. split; [done|]. rewrite Eh in HT. split; [by apply (touched_trans _ _ _ _ _ H1 _ (fun x Hx => Hx)); [apply touched_upd|]|].
    destruct (info_len H2 tim _ HI) as (c2 & Ec2 & Ei). exists c2. split; [done|]. injection Ei as _ _ _ _ _ El. by rewrite El.
  - rewrite (proj2 (Z.eqb_neq _ _)) by done. exists H1, pv1. split; [done|]. rewrite absent_without by done. split; [done|]. split; [done|]. split; [apply touched_upd|].
    exists (with_state RTE_TIMER_CONFIG c). done.
Qed.

Section start_stop.
Context (H : timers) (pv : priv_timer) (L : list ent) (tim : Z) (c : timer_skiplist).
Let h := pending_head pv.
Context (HS : sl_state H pv L) (Ec : H !! tim = Some c) (Hlen : length (sl_next c) = 10%nat) (Hz : tim <> 0) (Hh : tim <> h).
Context (Hst : startable pv tim c) (Hl : listed L tim c).

(** The timer with its new fields, in its place or out of the list. *)
Lemma reset_sl t period fct arg : exists H' pv' hgt c', timer_skiplist_reset_impl H pv tim t period fct arg = Ret (H', pv', 0) /\
  sl_state H' pv' (upto t (without tim L) ++ Ent tim t hgt :: later t (without tim L)) /\ pending_head pv' = h /\ running_tim pv' = running_tim pv /\
  updated pv' = (if tim_state c =? RTE_TIMER_RUNNING then 1 else updated pv) /\ touched h tim L H H' /\
  H' !! tim = Some c' /\ info c' = (t, RTE_TIMER_PENDING, period, fct, arg, 10%nat).
Proof.
  unfold timer_skiplist_reset_impl. rewrite (config_ok H pv tim c Ec Hst). cbn [mbind outcome_bind].
  destruct (detach_sl H pv L tim c HS Ec Hlen Hz Hh Hl) as (H2 & pv2 & -> & HS2 & (Eh & Eu & Er) & HT & c2 & Ec2 & Hl2). cbn [mbind outcome_bind]. set (pv1 := if _ =? RTE_TIMER_RUNNING then _ else _) in *.
  assert (pending_head pv1 = h) as Eh1 by (unfold pv1; by case_match). assert (running_tim pv1 = running_tim pv) as Er1 by (unfold pv1; by case_match).
  assert (updated pv1 = if tim_state c =? RTE_TIMER_RUNNING then 1 else updated pv) as Eu1 by (unfold pv1; by case_match). clearbody pv1.
  rewrite (upd_tim_ok _ _ _ _ Ec2). cbn [mbind outcome_bind]. set (c3 := with_args _ _ _ _ c2). set (H3 := <[tim := c3]> H2).
  assert (tim ∉ e_node <$> without tim L) as Hni by (rewrite without_in; tauto).
  assert (sl_state H3 pv2 (without tim L)) as HS3 by (apply (sl_upd H2 pv2 _ tim c2); [done|done|congruence|by left]).
  destruct (add_sl H3 pv2 (without tim L) tim c3 HS3) as (H4 & pv4 & hgt & -> & HS4 & (Eh4 & Eu4 & Er4) & HT4 & HI4); [by apply lookup_insert_eq|done|done|congruence|done|].
  cbn [mbind outcome_bind]. destruct (info_len H4 tim _ HI4) as (c4 & Ec4 & Ei4). rewrite (upd_tim_ok _ _ _ _ Ec4). cbn [mbind outcome_bind].
  exists (<[tim := with_state RTE_TIMER_PENDING c4]> H4), pv4, hgt, (with_state RTE_TIMER_PENDING c4). split; [done|]. split.
  { apply (sl_upd H4 pv4 _ tim c4); [done|done|congruence|by right]. }
  split; [congruence|]. split; [congruence|]. split; [congruence|]. split; [|split; [by rewrite lookup_insert_eq|]].
  - replace (pending_head pv2) with h in HT4 by congruence. assert (Hw : forall x, x ∈ e_node <$> without tim L -> x ∈ e_node <$> L) by (by intros x [? _]%without_in).
    apply (touched_trans h tim L L _ H4 _ (fun x Hx => Hx)); [|apply touched_upd]. apply (touched_trans h tim L (without tim L) _ H3 _ Hw); [|done].
    apply (touched_trans h tim L L _ H2 _ (fun x Hx => Hx)); [done|apply touched_upd].
  - unfold info in *. simpl in *. injection Ei4 as -> _ -> -> -> ->. by rewrite Hl2.
Qed.
Lemma stop_sl : exists H' pv' c', timer_skiplist_stop H pv tim = Ret (H', pv', 0) /\ sl_state H' pv' (without tim L) /\ pending_head pv' = h /\ running_tim pv' = running_tim pv /\
  updated pv' = (if tim_state c =? RTE_TIMER_RUNNING then 1 else updated pv) /\ touched h tim L H H' /\
  H' !! tim = Some c' /\ tim_state c' = RTE_TIMER_STOP /\ length (sl_next c') = 10%nat.
Proof.
  unfold timer_skiplist_stop. rewrite (config_ok H pv tim c Ec Hst). cbn [mbind outcome_bind].
  destruct (detach_sl H pv L tim c HS Ec Hlen Hz Hh Hl) as (H2 & pv2 & -> & HS2 & (Eh & Eu & Er) & HT & c2 & Ec2 & Hl2). cbn [mbind outcome_bind]. set (pv1 := if _ =? RTE_TIMER_RUNNING then _ else _) in *.
  assert (pending_head pv1 = h) as Eh1 by (unfold pv1; by case_match). assert (running_tim pv1 = running_tim pv) as Er1 by (unfold pv1; by case_match).
  assert (updated pv1 = if tim_state c =? RTE_TIMER_RUNNING then 1 else updated pv) as Eu1 by (unfold pv1; by case_match). clearbody pv1.
  rewrite (upd_tim_ok _ _ _ _ Ec2). cbn [mbind outcome_bind]. exists (<[tim := with_state RTE_TIMER_STOP c2]> H2), pv2, (with_state RTE_TIMER_STOP c2). split; [done|]. split.
  { apply (sl_upd H2 pv2 _ tim c2); [done|done|congruence|by right]. }
  split; [congruence|]. split; [congruence|]. split; [congruence|]. split; [|by rewrite lookup_insert_eq].
  apply (touched_trans h tim L L _ H2 _ (fun x Hx => Hx)); [done|apply touched_upd].
Qed.
End start_stop.
