(* ===== verification/SkipListHistory.v ===== *)
(** Skip lists: histories of a list of timers against a list of jobs that is
    sorted by time, with functions that start and stop timers themselves. *)
From Stdlib Require Import Sorted.
From S2P Require Import Prelude Bytes Packet RandomMt SkipList SkipListSpec SkipListRun SkipListOps.

(** ** Jobs *)

Record job := Job { j_tim : Z; j_time : Z; j_period : Z; j_fn : Z; j_arg : Z }.
(** The jobs that wait, those that expired and whose functions were not called
    yet, and the one whose function is running unless it was stopped or started
    again. *)
Record jobs := Jobs { pend : list job; queue : list job; cur : option job }.
Definition busy (A : jobs) : list job := option_list (cur A) ++ queue A.

Definition due (t : Z) (P : list job) : list job := filter (fun j => j_time j <= t) P.
Definition wait (t : Z) (P : list job) : list job := filter (fun j => t < j_time j) P.
(** After those with the same time. *)
Definition insert_job (j : job) (P : list job) : list job := due (j_time j) P ++ j :: wait (j_time j) P.
Definition drop_job (tim : Z) (P : list job) : list job := filter (fun j => j_tim j <> tim) P.
Definition uncur (tim : Z) (c : option job) : option job := j ← c; if j_tim j =? tim then None else Some j.

(** What a program does with a timer, and what happens. *)
Inductive sop :=
| OReset (now tim ticks : Z) (type : timer_skiplist_type) (fct arg : Z)
| OStop (tim : Z).
Inductive event := Called (tim fct arg : Z) | Returned (v : Z).

(** A job that expired and is still in the queue can be neither started nor
    stopped.  [None]: the time of the job would be 0. *)
Definition j_put (j : job) (A : jobs) : option jobs :=
  if j_time j =? 0 then None else Some (Jobs (insert_job j (drop_job (j_tim j) (pend A))) (queue A) (uncur (j_tim j) (cur A))).
Definition j_op (o : sop) (A : jobs) : option (jobs * Z) :=
  match o with
  | OReset now tim ticks type fct arg =>
      if decide (tim ∈ j_tim <$> queue A) then Some (A, -1) else
      A ← j_put (Job tim (u64 (now + ticks)) (match type with PERIODICAL => ticks | SINGLE => 0 end) fct arg) A;
      Some (A, 0)
  | OStop tim =>
      if decide (tim ∈ j_tim <$> queue A) then Some (A, -1) else
      Some (Jobs (drop_job tim (pend A)) (queue A) (uncur tim (cur A)), 0)
  end.
Fixpoint j_ops (os : list sop) (A : jobs) (s : list event) : option (jobs * list event) :=
  match os with
  | [] => Some (A, s)
  | o :: os => r ← j_op o A; j_ops os r.1 (s ++ [Returned r.2])
  end.

Section prog.
(** What the functions do with their arguments. *)
Context (prog : Z -> Z -> list sop).

Fixpoint j_expired (q : list job) (P : list job) (s : list event) : option (list job * list event) :=
  match q with
  | [] => Some (P, s)
  | j :: q =>
      r ← j_ops (prog (j_fn j) (j_arg j)) (Jobs P q (Some j)) (s ++ [Called (j_tim j) (j_fn j) (j_arg j)]);
      match cur r.1 with
      | None => j_expired q (pend r.1) r.2
      | Some _ =>
          if j_period j =? 0 then j_expired q (pend r.1) r.2 else
          A ← j_put (Job (j_tim j) (u64 (j_time j + j_period j)) (j_period j) (j_fn j) (j_arg j)) r.1;
          j_expired q (pend A) r.2
      end
  end.
(** All that are due at [now] are called, in the order of their times. *)
Definition j_manage (now : Z) (P : list job) (s : list event) : option (list job * list event) := j_expired (due now P) (wait now P) s.

(** ** Histories *)

Inductive hop :=
| HOp (o : sop) | HStopSync (tim : Z) | HPending (tim : Z) | HNextTime | HNextTimer | HManage (now : Z).

Definition j_step (x : hop) (P : list job) (s : list event) : option (list job * list event) :=
  match x with
  | HOp o => r ← j_op o (Jobs P [] None); Some (pend r.1, s ++ [Returned r.2])
  | HStopSync tim => Some (drop_job tim P, s)
  | HPending tim => Some (P, s ++ [Returned (b2z (bool_decide (tim ∈ j_tim <$> P)))])
  | HNextTime => Some (P, s ++ [Returned (match P with [] => 18446744073709551615 | j :: _ => j_time j end)])
  | HNextTimer => Some (P, s ++ [Returned (match P with [] => 0 | j :: _ => j_tim j end)])
  | HManage now => j_manage now P s
  end.
Fixpoint j_history (xs : list hop) (P : list job) (s : list event) : option (list job * list event) :=
  match xs with [] => Some (P, s) | x :: xs => r ← j_step x P s; j_history xs r.1 r.2 end.

(** The same with the code. *)
Definition c_op (o : sop) (H : timers) (pv : priv_timer) : outcome (timers * priv_timer * Z) :=
  match o with
  | OReset now tim ticks type fct arg => timer_skiplist_reset now H pv tim ticks type fct arg
  | OStop tim => timer_skiplist_stop H pv tim
  end.
Fixpoint c_ops (os : list sop) (H : timers) (pv : priv_timer) (s : list event) : outcome (timers * priv_timer * list event) :=
  match os with
  | [] => Ret (H, pv, s)
  | o :: os => r ← c_op o H pv; c_ops os r.1.1 r.1.2 (s ++ [Returned r.2])
  end.
Definition c_call (tim : Z) (x : timers * priv_timer) (s : list event) : outcome (timers * priv_timer * list event) :=
  t ← get_tim x.1 tim; c_ops (prog (tim_fn t) (tim_userdata t)) x.1 x.2 (s ++ [Called tim (tim_fn t) (tim_userdata t)]).
Definition c_step (x : hop) (H : timers) (pv : priv_timer) (s : list event) : outcome (timers * priv_timer * list event) :=
  match x with
  | HOp o => r ← c_op o H pv; Ret (r.1.1, r.1.2, s ++ [Returned r.2])
  | HStopSync tim => r ← timer_skiplist_stop_sync 1 H pv tim; Ret (r.1, r.2, s)
  | HPending tim => b ← timer_skiplist_pending H tim; Ret (H, pv, s ++ [Returned (b2z b)])
  | HNextTime => t ← timer_skiplist_next_expiry_time H pv; Ret (H, pv, s ++ [Returned t])
  | HNextTimer => t ← timer_skiplist_next_expiry_timer H pv; Ret (H, pv, s ++ [Returned t])
  | HManage now => timer_skiplist_manage c_call now H pv s
  end.
Fixpoint c_history (xs : list hop) (H : timers) (pv : priv_timer) (s : list event) : outcome (timers * priv_timer * list event) :=
  match xs with [] => Ret (H, pv, s) | x :: xs => r ← c_step x H pv s; c_history xs r.1.1 r.1.2 r.2 end.
End prog.
Fixpoint c_inits (H : timers) (K : list Z) : outcome timers :=
  match K with [] => Ret H | tim :: K => H ← timer_skiplist_init H tim; c_inits H K end.

(** ** Lists of jobs *)

Definition same_ent (e : ent) (j : job) : Prop := e_node e = j_tim j /\ e_time e = j_time j.
Lemma same_nodes L P : Forall2 same_ent L P -> e_node <$> L = j_tim <$> P.
Proof. induction 1 as [|e j L P [E _] _ IH]; [done|]. rewrite !fmap_cons. congruence. Qed.
Lemma same_filter (F : ent -> Prop) (G : job -> Prop) `{forall e, Decision (F e)} `{forall j, Decision (G j)} L P :
  (forall e j, same_ent e j -> F e <-> G j) -> Forall2 same_ent L P -> Forall2 same_ent (filter F L) (filter G P).
Proof.
  intros HFG. induction 1 as [|e j L P E _ IH]; [constructor|]. destruct (decide (F e)) as [HF|HF].
  - rewrite !filter_cons_True by (done || by apply (HFG e j E)). by constructor.
  - rewrite !filter_cons_False by (done || by rewrite <- (HFG e j E)). done.
Qed.
Lemma same_due t L P : Forall2 same_ent L P -> Forall2 same_ent (upto t L) (due t P).
Proof. apply same_filter. intros e j [_ ->]. done. Qed.
Lemma same_wait t L P : Forall2 same_ent L P -> Forall2 same_ent (later t L) (wait t P).
Proof. apply same_filter. intros e j [_ ->]. done. Qed.
Lemma same_drop tim L P : Forall2 same_ent L P -> Forall2 same_ent (without tim L) (drop_job tim P).
Proof. apply same_filter. intros e j [-> _]. done. Qed.
Lemma same_insert L P tim hgt j : Forall2 same_ent L P -> j_tim j = tim ->
  Forall2 same_ent (upto (j_time j) L ++ Ent tim (j_time j) hgt :: later (j_time j) L) (insert_job j P).
Proof. intros HP <-. apply Forall2_app; [by apply same_due|]. constructor; [done|by apply same_wait]. Qed.

Lemma elem_of_drop tim P j : j ∈ drop_job tim P <-> j ∈ P /\ j_tim j <> tim.
Proof. unfold drop_job. rewrite list_elem_of_filter. tauto. Qed.
Lemma elem_of_due_wait t P j : j ∈ due t P \/ j ∈ wait t P <-> j ∈ P.
Proof. unfold due, wait. rewrite !list_elem_of_filter. assert (j_time j <= t \/ t < j_time j) by lia. tauto. Qed.
Lemma elem_of_insert j0 P j : j ∈ insert_job j0 P <-> j = j0 \/ j ∈ P.
Proof. unfold insert_job. rewrite elem_of_app, elem_of_cons, <- (elem_of_due_wait (j_time j0) P j). tauto. Qed.
Lemma uncur_in tim c j : j ∈ option_list (uncur tim c) <-> j ∈ option_list c /\ j_tim j <> tim.
Proof.
  destruct c as [j'|]; simpl; [|set_solver]. destruct (Z.eqb_spec (j_tim j') tim); simpl; rewrite ?list_elem_of_singleton; [|split; [by intros ->|tauto]].
  split; [by intros ?%elem_of_nil|]. by intros [-> ?].
Qed.

(** ** What the memory holds for the jobs *)

Section rep.
Context (K : list Z).

Definition holds (st : Z) (j : job) (c : timer_skiplist) : Prop :=
  exists n, info c = (j_time j, st, j_period j, j_fn j, j_arg j, n) /\ 1 <= j_time j < 2 ^ 64.
Definition cell_for (A : jobs) (q : Z) (c : timer_skiplist) : Prop :=
  length (sl_next c) = 10%nat /\ (forall j, j ∈ pend A -> j_tim j = q -> holds RTE_TIMER_PENDING j c) /\
  (forall j, j ∈ busy A -> j_tim j = q -> holds RTE_TIMER_RUNNING j c) /\ (q ∉ j_tim <$> pend A -> q ∉ j_tim <$> busy A -> tim_state c = RTE_TIMER_STOP).
Definition queued (H : timers) (q : list job) : Prop := match q with [] => True | j :: q => chain_at H 0 (j_tim j) (j_tim <$> q) end.

Record rep (H : timers) (pv : priv_timer) (A : jobs) (L : list ent) : Prop := Rep {
  r_list : sl_state H pv L;
  r_pend : Forall2 same_ent L (pend A);
  r_known : forall q, q ∈ K -> q <> 0 /\ q <> pending_head pv /\ exists c, H !! q = Some c /\ cell_for A q c;
  r_in : forall j, j ∈ pend A \/ j ∈ busy A -> j_tim j ∈ K;
  r_busy : NoDup (j_tim <$> busy A);
  r_apart : forall x, x ∈ j_tim <$> pend A -> x ∉ j_tim <$> busy A;
  r_queue : queued H (queue A);
  r_running : match cur A with Some j => running_tim pv = j_tim j | None => running_tim pv ∉ j_tim <$> queue A end
}.

Lemma holds_info st j c c' : info c = info c' -> holds st j c' -> holds st j c.
Proof. intros E (n & Ei & Ht). exists n. by rewrite E. Qed.
Lemma cell_info A q c c' : info c = info c' -> cell_for A q c' -> cell_for A q c.
Proof.
  intros E (Hl & Hp & Hb & Hi). pose proof E as E'. injection E' as _ Es _ _ _ El. split; [lia|]. split; [intros j Hj Hq; apply (holds_info _ _ _ c'); auto|].
  split; [intros j Hj Hq; apply (holds_info _ _ _ c'); auto|]. intros H1 H2. rewrite Es. auto.
Qed.
Lemma cell_jobs A A' q c : (forall j, j_tim j = q -> (j ∈ pend A' <-> j ∈ pend A) /\ (j ∈ busy A' <-> j ∈ busy A)) -> cell_for A q c -> cell_for A' q c.
Proof.
  intros HA (Hl & Hp & Hb & Hi). split; [done|]. split; [intros j Hj Hq; apply Hp; [by apply HA|done]|]. split; [intros j Hj Hq; apply Hb; [by apply HA|done]|].
  intros H1 H2. apply Hi; intros (j & -> & Hj)%list_elem_of_fmap; [apply H1|apply H2]; apply list_elem_of_fmap_2; by apply HA.
Qed.

Lemma busy_change A A' tim : queue A' = queue A -> cur A' = uncur tim (cur A) -> tim ∉ j_tim <$> queue A ->
  (forall j, j ∈ busy A' <-> j ∈ busy A /\ j_tim j <> tim) /\ tim ∉ j_tim <$> busy A'.
Proof.
  intros Eq Ec Hn. assert (Hb : forall j, j ∈ busy A' <-> j ∈ busy A /\ j_tim j <> tim).
  { intros j. unfold busy. rewrite Eq, Ec, !elem_of_app, uncur_in. split; [|tauto]. intros [?|Hj]; [tauto|]. split; [by right|]. intros <-. by apply Hn, list_elem_of_fmap_2. }
  split; [done|]. intros (j & Ej & Hj)%list_elem_of_fmap. apply Hb in Hj. by destruct Hj.
Qed.
Lemma rep_nodes H pv A L : rep H pv A L -> e_node <$> L = j_tim <$> pend A.
Proof. intros R. by apply same_nodes, R. Qed.
Lemma rep_change H pv A L H' pv' A' L' tim c' : rep H pv A L -> tim ∈ K -> tim ∉ j_tim <$> queue A ->
  sl_state H' pv' L' -> pending_head pv' = pending_head pv -> running_tim pv' = running_tim pv -> touched (pending_head pv) tim L H H' ->
  H' !! tim = Some c' -> cell_for A' tim c' -> Forall2 same_ent L' (pend A') -> (forall j, j_tim j <> tim -> j ∈ pend A' <-> j ∈ pend A) ->
  queue A' = queue A -> cur A' = uncur tim (cur A) -> rep H' pv' A' L'.
Proof.
  intros R Htim Hnq HS Eh Er [HF HI] Ec' Hcell HL Hpend Eq Ec. destruct (busy_change A A' tim Eq Ec Hnq) as [Hb Hnb]. split; [done|done| | | | | |].
  - intros q Hq. rewrite Eh. destruct (r_known _ _ _ _ R q Hq) as (Hq0 & Hqh & c & Eqc & Hc). split; [done|]. split; [done|]. destruct (decide (q = tim)) as [->|Hne]; [by exists c'|].
    specialize (HI q Hqh Hne). rewrite Eqc in HI. destruct (info_len _ _ _ HI) as (c2 & Ec2 & Ei2). exists c2. split; [done|]. apply (cell_info _ _ _ c); [done|].
    apply (cell_jobs A); [|done]. intros j Hj. split; [apply Hpend; congruence|]. rewrite Hb. split; [tauto|]. intros Hj'. split; [done|congruence].
  - intros j [Hj|[Hj _]%Hb]; [|apply (r_in _ _ _ _ R); by right]. destruct (decide (j_tim j = tim)) as [->|Hne]; [done|]. apply (r_in _ _ _ _ R). left. by apply Hpend.
  - apply (sublist_NoDup _ (j_tim <$> busy A)); [apply R|]. apply fmap_sublist. unfold busy. rewrite Eq, Ec. apply sublist_app; [|done].
    destruct (cur A) as [j|]; simpl; [|done]. destruct (_ =? _); simpl; [apply sublist_nil_l|done].
  - intros x (j & -> & Hj)%list_elem_of_fmap Hx. destruct (decide (j_tim j = tim)) as [E|Hne]; [by rewrite E in Hx|]. apply (r_apart _ _ _ _ R (j_tim j)).
    + apply list_elem_of_fmap_2. by apply Hpend.
    + apply list_elem_of_fmap in Hx as (j' & -> & Hj'). apply list_elem_of_fmap_2. by apply Hb.
  - rewrite Eq. pose proof (r_queue _ _ _ _ R) as Hqu. assert (Hsame : forall x, x ∈ j_tim <$> queue A -> H' !! x = H !! x).
    { intros x Hx. apply HF. assert (x ∈ j_tim <$> busy A) as Hxb by (unfold busy; rewrite fmap_app, elem_of_app; by right). rewrite (rep_nodes _ _ _ _ R).
      intros [->|[->|Hin]%elem_of_cons]%elem_of_cons; [done| |by apply (r_apart _ _ _ _ R x)]. apply list_elem_of_fmap in Hxb as (j & Ej & Hj).
      destruct (r_known _ _ _ _ R (j_tim j)) as (_ & Hh & _); [apply (r_in _ _ _ _ R); by right|]. congruence. }
    destruct (queue A) as [|j q]; [done|]. simpl in *. apply (chain_frame_at H); [|done]. intros x Hx. unfold nxt_at. by rewrite Hsame.
  - rewrite Ec, Eq, Er. pose proof (r_running _ _ _ _ R) as Hr. destruct (cur A) as [j|]; simpl; [|done]. destruct (Z.eqb_spec (j_tim j) tim) as [E|]; [|done]. by rewrite Hr, E.
Qed.

(** ** Starting and stopping *)

Lemma cell_cases H pv A L tim : rep H pv A L -> tim ∈ K -> tim ∉ j_tim <$> queue A -> tim <> 0 /\ tim <> pending_head pv /\
  exists c, H !! tim = Some c /\ length (sl_next c) = 10%nat /\ startable pv tim c /\ listed L tim c /\
    (tim_state c =? RTE_TIMER_RUNNING) = match cur A with Some j => j_tim j =? tim | None => false end.
Proof.
  intros R Hk Hnq. destruct (r_known _ _ _ _ R tim Hk) as (Hz & Hh & c & Ec & Hl & Hp & Hb & Hi). split; [done|]. split; [done|]. exists c. split; [done|]. split; [done|].
  unfold listed. rewrite (rep_nodes _ _ _ _ R). destruct (decide (tim ∈ j_tim <$> pend A)) as [Hin|Hnin].
  - pose proof (r_apart _ _ _ _ R tim Hin) as Hnb. apply list_elem_of_fmap in Hin as (j & Ej & Hj). destruct (Hp j Hj ltac:(done)) as (n & Ei & Ht). injection Ei as Et Es _ _ _ _.
    split; [right; by left|]. rewrite decide_True by done. split; [lia|]. rewrite Es. unfold busy in Hnb. destruct (cur A) as [j'|]; [|done]. simpl in Hnb. symmetry. apply Z.eqb_neq.
    intros E. apply Hnb. rewrite E. left.
  - assert (forall j, cur A = Some j -> j_tim j = tim -> tim_state c = RTE_TIMER_RUNNING /\ tim = running_tim pv) as Hcur.
    { intros j Ej Etj. destruct (Hb j) as (n & Ei & _); [unfold busy; rewrite Ej; left|done|]. injection Ei as _ Es _ _ _ _. split; [done|]. pose proof (r_running _ _ _ _ R) as Hr. rewrite Ej in Hr. congruence. }
    assert ((forall j, cur A = Some j -> j_tim j <> tim) -> tim_state c = RTE_TIMER_STOP) as Hidle.
    { intros Hne. apply Hi; [done|]. unfold busy. rewrite fmap_app, elem_of_app. intros [Hx|]; [|done]. destruct (cur A) as [j|]; simpl in Hx; [|by apply elem_of_nil in Hx].
      apply list_elem_of_singleton in Hx. by apply (Hne j). }
    destruct (cur A) as [j|]; [destruct (Z.eqb_spec (j_tim j) tim) as [E|Hne]|].
    + destruct (Hcur j eq_refl E) as [Es Er]. split; [right; by right|]. rewrite Es. rewrite decide_False by done. done.
    + assert (tim_state c = RTE_TIMER_STOP) as Es by (apply Hidle; congruence). split; [by left|]. rewrite Es, decide_False by done. done.
    + assert (tim_state c = RTE_TIMER_STOP) as Es by (by apply Hidle). split; [by left|]. rewrite Es, decide_False by done. done.
Qed.
Definition put_jobs (j : job) (A : jobs) : jobs := Jobs (insert_job j (drop_job (j_tim j) (pend A))) (queue A) (uncur (j_tim j) (cur A)).
Definition rest_jobs (tim : Z) (A : jobs) : jobs := Jobs (drop_job tim (pend A)) (queue A) (uncur tim (cur A)).

(** The cells of a timer that was started or stopped. *)
Lemma put_cell A j c : info c = (j_time j, RTE_TIMER_PENDING, j_period j, j_fn j, j_arg j, 10%nat) -> 1 <= j_time j < 2 ^ 64 -> j_tim j ∉ j_tim <$> queue A -> cell_for (put_jobs j A) (j_tim j) c.
Proof.
  intros Ei Ht Hnq. destruct (busy_change A (put_jobs j A) (j_tim j) eq_refl eq_refl Hnq) as [_ Hnb]. split; [by injection Ei|]. split; [|split].
  - intros j' [->|[_ Hne]%elem_of_drop]%elem_of_insert Hq; [by exists 10%nat|done].
  - intros j' Hj' Hq. exfalso. apply Hnb, list_elem_of_fmap. by exists j'.
  - intros Hnp. exfalso. apply Hnp. apply list_elem_of_fmap_2. apply elem_of_insert. by left.
Qed.
Lemma rest_cell A tim c : tim_state c = RTE_TIMER_STOP -> length (sl_next c) = 10%nat -> tim ∉ j_tim <$> queue A -> cell_for (rest_jobs tim A) tim c.
Proof.
  intros Es Hl Hnq. destruct (busy_change A (rest_jobs tim A) tim eq_refl eq_refl Hnq) as [_ Hnb]. split; [done|]. split; [|split; [|done]].
  - intros j' [_ Hne]%elem_of_drop Hq. done.
  - intros j' Hj' Hq. exfalso. apply Hnb, list_elem_of_fmap. by exists j'.
Qed.
Lemma put_pend A j j' : j_tim j' <> j_tim j -> j' ∈ pend (put_jobs j A) <-> j' ∈ pend A.
Proof. intros Hne. simpl. rewrite elem_of_insert, elem_of_drop. split; [|tauto]. intros [->|[? _]]; done. Qed.

(** [H1] differs from [H] in the state of the timer at most. *)
Lemma sl_put_ok H H1 pv A L j c : rep H pv A L -> j_tim j ∈ K -> j_tim j ∉ j_tim <$> queue A -> 1 <= j_time j < 2 ^ 64 ->
  sl_state H1 pv L -> touched (pending_head pv) (j_tim j) L H H1 -> H1 !! j_tim j = Some c -> length (sl_next c) = 10%nat -> startable pv (j_tim j) c -> listed L (j_tim j) c ->
  exists H' pv' L', timer_skiplist_reset_impl H1 pv (j_tim j) (j_time j) (j_period j) (j_fn j) (j_arg j) = Ret (H', pv', 0) /\ rep H' pv' (put_jobs j A) L' /\
    running_tim pv' = running_tim pv /\ updated pv' = (if tim_state c =? RTE_TIMER_RUNNING then 1 else updated pv).
Proof.
  intros R Hk Hnq Ht HS HT Ec Hl Hst Hls. destruct (r_known _ _ _ _ R _ Hk) as (Hz & Hh & _).
  destruct (reset_sl H1 pv L (j_tim j) c HS Ec Hl Hz Hh Hst Hls (j_time j) (j_period j) (j_fn j) (j_arg j)) as (H' & pv' & hgt & c' & -> & HS' & Eh & Er & Eu & HT' & Ec' & Ei).
  eexists H', pv', _. split; [done|]. split; [|by split]. apply (rep_change H pv A L H' pv' (put_jobs j A) _ (j_tim j) c' R Hk Hnq HS' Eh Er); [|done|by apply put_cell| | |done|done].
  - by apply (touched_trans _ _ _ L _ H1 _ (fun x Hx => Hx)).
  - apply same_insert; [|done]. apply same_drop, R.
  - intros j'. apply put_pend.
Qed.
Lemma rest_ok H pv A L tim : rep H pv A L -> tim ∈ K -> tim ∉ j_tim <$> queue A ->
  exists H' pv' L', timer_skiplist_stop H pv tim = Ret (H', pv', 0) /\ rep H' pv' (rest_jobs tim A) L' /\ running_tim pv' = running_tim pv /\
    updated pv' = (if match cur A with Some j => j_tim j =? tim | None => false end then 1 else updated pv).
Proof.
  intros R Hk Hnq. destruct (cell_cases H pv A L tim R Hk Hnq) as (Hz & Hh & c & Ec & Hl & Hst & Hls & Er).
  destruct (stop_sl H pv L tim c (r_list _ _ _ _ R) Ec Hl Hz Hh Hst Hls) as (H' & pv' & c' & -> & HS' & Eh & Er' & Eu & HT' & Ec' & Es & Hl'). rewrite Er in Eu.
  eexists H', pv', _. split; [done|]. split; [|by split]. apply (rep_change H pv A L H' pv' (rest_jobs tim A) _ tim c' R Hk Hnq HS' Eh Er' HT' Ec'); [by apply rest_cell|apply same_drop, R| |done|done].
  intros j' Hne. simpl. rewrite elem_of_drop. tauto.
Qed.
Lemma refused H pv A L tim : rep H pv A L -> tim ∈ j_tim <$> queue A -> timer_set_config_state H pv tim = Ret (H, None).
Proof.
  intros R (j & -> & Hj)%list_elem_of_fmap. assert (j ∈ busy A) as Hb by (unfold busy; apply elem_of_app; by right).
  destruct (r_known _ _ _ _ R (j_tim j)) as (_ & _ & c & Ec & _ & _ & Hc & _); [apply (r_in _ _ _ _ R); by right|]. destruct (Hc j Hb eq_refl) as (n & Ei & _). injection Ei as _ Es _ _ _ _.
  apply (config_refused _ _ _ c Ec Es). pose proof (r_running _ _ _ _ R) as Hr. pose proof (r_busy _ _ _ _ R) as Hnd. unfold busy in Hnd. destruct (cur A) as [j'|].
  - simpl in Hnd. apply list.NoDup_cons in Hnd as [Hnd _]. rewrite Hr. intros E. apply Hnd. rewrite <- E. by apply list_elem_of_fmap_2.
  - intros E. apply Hr. rewrite <- E. by apply list_elem_of_fmap_2.
Qed.

Definition op_tim (o : sop) : Z := match o with OReset _ tim _ _ _ _ => tim | OStop tim => tim end.
(** The mark that the running job was stopped or started again. *)
Definition live (pv : priv_timer) (A : jobs) : Prop := updated pv = match cur A with Some _ => 0 | None => 1 end.
Definition next_to (pv pv' : priv_timer) (A A' : jobs) : Prop :=
  running_tim pv' = running_tim pv /\ queue A' = queue A /\ (cur A' = cur A \/ cur A' = None) /\ (live pv A -> live pv' A').
Lemma next_to_uncur pv pv' A A' tim : running_tim pv' = running_tim pv -> queue A' = queue A -> cur A' = uncur tim (cur A) ->
  updated pv' = (if match cur A with Some j => j_tim j =? tim | None => false end then 1 else updated pv) -> next_to pv pv' A A'.
Proof.
  intros Er Eq Ec Eu. unfold next_to, live. rewrite Ec, Eu. split; [done|]. split; [done|]. destruct (cur A) as [j|]; simpl; [|auto]. destruct (_ =? _); auto.
Qed.
Lemma op_ok o H pv A L A' v : rep H pv A L -> op_tim o ∈ K -> j_op o A = Some (A', v) ->
  exists H' pv' L', c_op o H pv = Ret (H', pv', v) /\ rep H' pv' A' L' /\ next_to pv pv' A A'.
Proof.
  intros R Hk. assert (Hsame : next_to pv pv A A) by (split_and!; auto). destruct o as [now tim ticks type fct arg|tim]; cbn [j_op op_tim c_op] in *; case_decide as Hq.
  - intros [= <- <-]. exists H, pv, L. split; [|done]. unfold timer_skiplist_reset, timer_skiplist_reset_impl. by rewrite (refused H pv A L tim R Hq).
  - set (j := Job tim _ _ fct arg). unfold j_put. destruct (Z.eqb_spec (j_time j) 0) as [|Ht]; [done|]. intros [= <- <-].
    destruct (cell_cases H pv A L tim R Hk Hq) as (Hz & Hh & c & Ec & Hl & Hst & Hls & Er).
    destruct (sl_put_ok H H pv A L j c R Hk Hq) as (H' & pv' & L' & E & R' & Er' & Eu); [|apply R|done|done|done|done|done|].
    { pose proof (u64_range (now + ticks)) as Hu. unfold j in *. simpl in *. lia. }
    exists H', pv', L'. split; [done|]. split; [done|]. rewrite Er in Eu. by apply (next_to_uncur _ _ _ _ tim).
  - intros [= <- <-]. exists H, pv, L. split; [|done]. unfold timer_skiplist_stop. by rewrite (refused H pv A L tim R Hq).
  - intros [= <- <-]. destruct (rest_ok H pv A L tim R Hk Hq) as (H' & pv' & L' & -> & R' & Er & Eu). exists H', pv', L'. split; [done|]. split; [done|]. by apply (next_to_uncur _ _ _ _ tim).
Qed.
Lemma ops_ok os : forall H pv A L s A' s', rep H pv A L -> Forall (fun o => op_tim o ∈ K) os -> j_ops os A s = Some (A', s') ->
  exists H' pv' L', c_ops os H pv s = Ret (H', pv', s') /\ rep H' pv' A' L' /\ next_to pv pv' A A'.
Proof.
  induction os as [|o os IH]; intros H pv A L s A' s' R Hk E; cbn [j_ops c_ops] in *.
  - injection E as <- <-. exists H, pv, L. split; [done|]. split; [done|]. split_and!; auto.
  - apply list.Forall_cons in Hk as [Hk1 Hk2]. destruct (j_op o A) as [[A1 v]|] eqn:E1; [|done]. cbn [mbind option_bind fst snd] in E.
    destruct (op_ok o H pv A L A1 v R Hk1 E1) as (H1 & pv1 & L1 & -> & R1 & (N1 & N2 & N3 & N4)). cbn [mbind outcome_bind fst snd].
    destruct (IH H1 pv1 A1 L1 _ A' s' R1 Hk2 E) as (H2 & pv2 & L2 & -> & R2 & (M1 & M2 & M3 & M4)). exists H2, pv2, L2. split; [done|]. split; [done|].
    split; [congruence|]. split; [congruence|]. split; [|auto]. destruct M3 as [->|]; auto.
Qed.

(** ** Running *)

Context (prog : Z -> Z -> list sop) (Hprog : forall f a, Forall (fun o => op_tim o ∈ K) (prog f a)).

(** The first of the queue becomes the running job. *)
Lemma rep_next H pv P j q L : rep H pv (Jobs P (j :: q) None) L ->
  rep H (with_running (j_tim j) (with_updated 0 pv)) (Jobs P q (Some j)) L /\ j_tim j <> 0 /\ next_at H (j_tim j) 0 = Ret (first_or_0 (j_tim <$> q)) /\
  exists c, H !! j_tim j = Some c /\ tim_fn c = j_fn j /\ tim_userdata c = j_arg j.
Proof.
  intros [R1 R2 R3 R4 R5 R6 R7 R8]. simpl in *. assert (j_tim j ∈ K) as Hk by (apply R4; right; left). split; [|split; [|split]].
  - split; try done; simpl.
    destruct q as [|j' q]; [done|]. by apply R7.
  - by apply R3.
  - apply next_at_ok. by apply chain_first.
  - destruct (R3 _ Hk) as (_ & _ & c & Ec & _ & _ & Hb & _). exists c. split; [done|]. destruct (Hb j) as (n & Ei & _); [left|done|]. by injection Ei.
Qed.
(** The running job stays as it is. *)
Lemma cur_cell H pv P q j L : rep H pv (Jobs P q (Some j)) L -> exists c, H !! j_tim j = Some c /\ length (sl_next c) = 10%nat /\ tim_time64 c = j_time j /\ tim_period c = j_period j /\
  tim_fn c = j_fn j /\ tim_userdata c = j_arg j /\ 1 <= j_time j < 2 ^ 64 /\ j_tim j ∈ K /\ j_tim j ∉ j_tim <$> q /\ j_tim j ∉ j_tim <$> P /\ j_tim j <> pending_head pv.
Proof.
  intros [R1 R2 R3 R4 R5 R6 R7 R8]. simpl in *. assert (j_tim j ∈ K) as Hk by (apply R4; right; left). destruct (R3 _ Hk) as (_ & Hh & c & Ec & Hl & _ & Hb & _).
  destruct (Hb j) as (n & Ei & Ht); [left|done|]. injection Ei as Et _ Ep Ef Ea _. exists c. apply list.NoDup_cons in R5 as [R5 _]. split_and!; try done; try lia. intros Hin. apply (R6 _ Hin). left.
Qed.
Lemma finish_once H pv P q j L : rep H pv (Jobs P q (Some j)) L -> exists H', upd_tim H (j_tim j) (with_state RTE_TIMER_STOP) = Ret H' /\ rep H' pv (Jobs P q None) L.
Proof.
  intros R. destruct (cur_cell _ _ _ _ _ _ R) as (c & Ec & Hl & _ & _ & _ & _ & _ & Hk & Hnq & Hnp & Hh). rewrite (upd_tim_ok _ _ _ _ Ec). eexists. split; [done|].
  apply (rep_change H pv _ L _ pv _ L (j_tim j) (with_state RTE_TIMER_STOP c) R Hk Hnq); [|done|done|apply touched_upd|by rewrite lookup_insert_eq| |apply R|done|done|simpl; by rewrite Z.eqb_refl].
  - apply (sl_upd H pv L (j_tim j) c); [apply R|done|done|by right].
  - split; [done|]. split; [|split; [|done]]; simpl; intros j' Hj' E; exfalso; [apply Hnp|apply Hnq]; rewrite <- E; by apply list_elem_of_fmap_2.
Qed.
Lemma finish_again H pv P q j L t : rep H pv (Jobs P q (Some j)) L -> 1 <= t < 2 ^ 64 -> exists H1 H' pv' L', upd_tim H (j_tim j) (with_state RTE_TIMER_PENDING) = Ret H1 /\
  timer_skiplist_reset_impl H1 pv (j_tim j) t (j_period j) (j_fn j) (j_arg j) = Ret (H', pv', 0) /\
  rep H' pv' (put_jobs (Job (j_tim j) t (j_period j) (j_fn j) (j_arg j)) (Jobs P q (Some j))) L'.
Proof.
  intros R Ht. destruct (cur_cell _ _ _ _ _ _ R) as (c & Ec & Hl & Et & _ & _ & _ & Htj & Hk & Hnq & Hnp & Hh). set (j' := Job (j_tim j) t (j_period j) (j_fn j) (j_arg j)).
  exists (<[j_tim j := with_state RTE_TIMER_PENDING c]> H). destruct (sl_put_ok H (<[j_tim j := with_state RTE_TIMER_PENDING c]> H) pv _ L j' (with_state RTE_TIMER_PENDING c) R Hk Hnq Ht) as (H' & pv' & L' & E & R' & _).
  - apply (sl_upd H pv L (j_tim j) c); [apply R|done|done|by right].
  - apply touched_upd.
  - simpl. by rewrite lookup_insert_eq.
  - done.
  - right. by left.
  - unfold listed. simpl. lia.
  - exists H', pv', L'. split; [by apply upd_tim_ok|done].
Qed.

Lemma expired_ok q : forall H pv P L s P' s' fuel, rep H pv (Jobs P q None) L -> j_expired prog q P s = Some (P', s') -> (length q < fuel)%nat ->
  exists H' pv' L', iter fuel (expired_step (c_call prog)) (H, pv, first_or_0 (j_tim <$> q), s) = Ret (H', pv', s') /\ rep H' pv' (Jobs P' [] None) L'.
Proof.
  induction q as [|j q IH]; intros H pv P L s P' s' fuel R E Hf; (destruct fuel as [|fuel]; [simpl in Hf; lia|]).
  - simpl in E. injection E as <- <-. exists H, pv, L. split; [|done]. by apply iter_inr.
  - cbn [j_expired] in E. destruct (rep_next H pv P j q L R) as (R1 & Hz & En & c & Ec & Ef & Ea).
    destruct (j_ops _ _ _) as [[A1 s1]|] eqn:E1; [|done]. cbn [mbind option_bind fst snd] in E.
    destruct (ops_ok _ _ _ _ _ _ _ _ R1 (Hprog (j_fn j) (j_arg j)) E1) as (H1 & pv1 & L1 & Ec1 & R2 & (_ & Eq & Ecur & Hlive)). specialize (Hlive eq_refl). simpl in Eq, Ecur.
    assert (forall x, called_step (j_tim j) (first_or_0 (j_tim <$> q)) H1 pv1 s1 = Ret (inl x) ->
      iter (S fuel) (expired_step (c_call prog)) (H, pv, first_or_0 (j_tim <$> j :: q), s) = iter fuel (expired_step (c_call prog)) x) as Hstep.
    { intros x Hx. apply iter_inl. unfold expired_step. cbn [fmap list_fmap first_or_0]. rewrite (proj2 (Z.eqb_neq _ _)) by done. rewrite En. cbn [mbind outcome_bind].
      unfold c_call at 1, get_tim at 1. cbn [fst snd]. rewrite Ec. cbn [of_option mbind outcome_bind]. rewrite Ef, Ea, Ec1. cbn [mbind outcome_bind]. exact Hx. }
    simpl in Hf. unfold called_step in Hstep. unfold live in Hlive. destruct A1 as [P1 q1 c1]. simpl in Eq, Ecur, Hlive, E. subst q1. destruct Ecur as [->| ->].
    + rewrite Hlive in Hstep. cbn [Z.eqb Pos.eqb] in Hstep. destruct (cur_cell _ _ _ _ _ _ R2) as (c2 & Ec2 & _ & Et2 & Ep2 & Ef2 & Ea2 & _). unfold get_tim in Hstep. rewrite Ec2 in Hstep.
      cbn [of_option mbind outcome_bind] in Hstep. rewrite Ep2, Et2, Ef2, Ea2 in Hstep. destruct (j_period j =? 0).
      * destruct (finish_once _ _ _ _ _ _ R2) as (H2 & E2 & R3). rewrite E2 in Hstep. rewrite (Hstep _ eq_refl). apply (IH H2 pv1 P1 L1); [done|done|lia].
      * unfold j_put in E. cbn [j_time] in E. destruct (Z.eqb_spec (u64 (j_time j + j_period j)) 0) as [|Hu]; [done|]. cbn [mbind option_bind pend] in E.
        destruct (finish_again _ _ _ _ _ _ (u64 (j_time j + j_period j)) R2) as (H2 & H3 & pv3 & L3 & E2 & E3 & R3); [pose proof (u64_range (j_time j + j_period j)); lia|].
        rewrite E2 in Hstep. cbn [mbind outcome_bind] in Hstep. rewrite E3 in Hstep. rewrite (Hstep _ eq_refl). cbn [fst snd]. unfold put_jobs in R3. simpl in R3. rewrite Z.eqb_refl in R3.
        eapply (IH H3 pv3 _ L3); [exact R3|exact E|lia].
    + rewrite Hlive in Hstep. cbn [Z.eqb Pos.eqb] in Hstep. rewrite (Hstep _ eq_refl). apply (IH H1 pv1 P1 L1); [done|done|lia].
Qed.

(** The expired timers are marked as running. *)
Lemma running_ok l : forall H x0 pprev n, match l with [] => True | x :: a => chain_at H 0 x a end -> NoDup l -> Forall (fun x => x <> 0) l ->
  (forall x, x ∈ l -> exists c, H !! x = Some c /\ tim_state c = RTE_TIMER_PENDING) -> (length l < n)%nat ->
  exists H', iter n running_step (H, first_or_0 l, x0, pprev) = Ret (H', x0) /\ forall q, H' !! q = if decide (q ∈ l) then with_state RTE_TIMER_RUNNING <$> H !! q else H !! q.
Proof.
  induction l as [|x l IH]; intros H x0 pprev n Hc Hnd Hz Hp Hn; (destruct n as [|n]; [simpl in Hn; lia|]).
  - exists H. split; [by apply iter_inr|]. intros q. by rewrite decide_False by apply not_elem_of_nil.
  - apply list.NoDup_cons in Hnd as [Hx Hnd]. apply list.Forall_cons in Hz as [Hxz Hz]. destruct (Hp x ltac:(left)) as (c & Ec & Es). set (H1 := <[x := with_state RTE_TIMER_RUNNING c]> H).
    assert (Hn1 : forall q, nxt_at H1 0 q = nxt_at H 0 q) by (intros q; unfold nxt_at, H1; destruct (decide (q = x)) as [->|]; [by rewrite lookup_insert_eq, Ec|by rewrite lookup_insert_ne]).
    destruct (IH H1 x0 (Some x) n) as (H' & E & HH); [|done|done| |simpl in Hn; lia|].
    { destruct l as [|y l]; [done|]. destruct Hc as [_ Hc]. apply (chain_frame_at H); [|done]. intros q _. apply Hn1. }
    { intros q Hq. destruct (Hp q) as (c' & Ec' & Es'); [by right|]. exists c'. split; [|done]. unfold H1. rewrite lookup_insert_ne; [done|]. by intros ->. }
    exists H'. split.
    + rewrite <- E. apply iter_inl. unfold running_step. cbn [first_or_0]. rewrite (proj2 (Z.eqb_neq _ _)) by done. rewrite (next_at_ok _ _ _ _ (chain_first _ _ _ _ Hc)). cbn [mbind outcome_bind].
      unfold timer_set_running_state, get_tim. rewrite Ec. cbn [of_option mbind outcome_bind]. rewrite Es. simpl. by rewrite (upd_tim_ok _ _ _ _ Ec).
    + intros q. rewrite HH. unfold H1. destruct (decide (q = x)) as [->|Hne].
      * rewrite decide_False, decide_True by (done || left). by rewrite lookup_insert_eq, Ec.
      * rewrite lookup_insert_ne by done. destruct (decide (q ∈ l)); [by rewrite decide_True by (by right)|]. rewrite decide_False; [done|]. by intros [?|?]%elem_of_cons.
Qed.

(** The list without the expired timers, which are the queue. *)
Lemma rep_due H H1 H2 pv pv2 P L now : rep H pv (Jobs P [] None) L -> running_tim pv = 0 -> sl_state H1 pv2 (later now L) -> same_info H H1 -> same_priv pv pv2 ->
  queued H1 (due now P) -> (forall q, H2 !! q = if decide (q ∈ j_tim <$> due now P) then with_state RTE_TIMER_RUNNING <$> H1 !! q else H1 !! q) ->
  rep H2 pv2 (Jobs (wait now P) (due now P) None) (later now L).
Proof.
  intros R Er HS HI (Eh & _ & Er2) Hq HH. pose proof (sl_nodup _ _ _ (r_list _ _ _ _ R)) as Hnd. rewrite (rep_nodes _ _ _ _ R) in Hnd. simpl in Hnd.
  assert (Hdue : forall j, j ∈ due now P -> j ∈ P) by (by intros j [_ ?]%list_elem_of_filter). assert (Hwait : forall j, j ∈ wait now P -> j ∈ P) by (by intros j [_ ?]%list_elem_of_filter).
  assert (Hinj : forall j j', j ∈ P -> j' ∈ P -> j_tim j = j_tim j' -> j = j').
  { clear -Hnd. induction P as [|x P IH]; [by intros ? ? ?%elem_of_nil|]. rewrite fmap_cons in Hnd. apply list.NoDup_cons in Hnd as [Hx Hnd]. intros j j' [->|Hj]%elem_of_cons [->|Hj']%elem_of_cons E; [done| | |auto].
    - exfalso. apply Hx. rewrite E. by apply list_elem_of_fmap_2. - exfalso. apply Hx. rewrite <- E. by apply list_elem_of_fmap_2. }
  assert (Hapart : forall x, x ∈ j_tim <$> wait now P -> x ∉ j_tim <$> due now P).
  { intros x (j & -> & Hj)%list_elem_of_fmap (j' & E & Hj')%list_elem_of_fmap. assert (j = j') as <- by auto. apply list_elem_of_filter in Hj as [? _], Hj' as [? _]. lia. }
  assert (Hk : forall j, j ∈ P -> j_tim j ∈ K) by (intros j Hj; apply (r_in _ _ _ _ R); by left).
  assert (Hnx : forall i q, nxt_at H2 i q = nxt_at H1 i q) by (intros i q; unfold nxt_at; rewrite HH; case_decide; [|done]; by destruct (H1 !! q)).
  split; simpl.
  - destruct HS as (d & S & Ed & Hd & Hx). exists d. split; [|done]. destruct (ok_head _ _ _ S) as (t & Et & _).
    apply (sl_ok_frame H1); [done| |].
    + exists t. rewrite HH, Et. case_decide as Hin; [|by exists t]. exists (with_state RTE_TIMER_RUNNING t). done.
    + intros q _. rewrite HH. case_decide; [|done]. by destruct (H1 !! q).
  - by apply same_wait, R.
  - intros q Hqk. rewrite Eh. destruct (r_known _ _ _ _ R q Hqk) as (Hz & Hh & c & Ec & Hl & Hp & _ & Hi). simpl in *. split; [done|]. split; [done|].
    pose proof (HI q) as HIq. rewrite Ec in HIq. destruct (info_len _ _ _ HIq) as (c1 & Ec1 & Ei). pose proof Ei as Ei'. injection Ei' as E1 E2 E3 E4 E5 E6. specialize (HH q). rewrite Ec1 in HH. unfold cell_for, busy. simpl. case_decide as Hin.
    + exists (with_state RTE_TIMER_RUNNING c1). split; [done|]. split; [simpl; lia|]. split; [|split; [|done]].
      * intros j Hj <-. exfalso. apply (Hapart (j_tim j)); [by apply list_elem_of_fmap_2|done].
      * intros j Hj Hjq. destruct (Hp j) as (n & Ein & Ht); [auto|done|]. exists n. split; [|done]. rewrite Ein in Ei. unfold info in *. simpl. congruence.
    + exists c1. split; [done|]. split; [lia|]. split; [|split].
      * intros j Hj Hjq. apply (holds_info _ _ _ c); auto.
      * intros j Hj <-. exfalso. by apply Hin, list_elem_of_fmap_2.
      * intros Hnw _. rewrite E2. apply Hi; [|by apply not_elem_of_nil]. intros (j & -> & Hj)%list_elem_of_fmap. apply (elem_of_due_wait now) in Hj as [Hj|Hj]; [apply Hin|apply Hnw]; by apply list_elem_of_fmap_2.
  - intros j [Hj|Hj]; auto.
  - apply (sublist_NoDup _ (j_tim <$> P)); [done|]. apply fmap_sublist, sublist_filter.
  - done.
  - unfold queued in *. destruct (due now P) as [|j q]; [done|]. apply (chain_frame_at H1); [|done]. intros q' _. apply Hnx.
  - rewrite Er2, Er. intros (j & Ez & Hj)%list_elem_of_fmap. by destruct (r_known _ _ _ _ R (j_tim j)) as (Hz & _); [auto|].
Qed.

Lemma rep_head_time H pv A L t : rep H pv A L -> exists H', upd_tim H (pending_head pv) (with_time t) = Ret H' /\ rep H' pv A L.
Proof.
  intros [R1 R2 R3 R4 R5 R6 R7 R8]. destruct R1 as (d & S & Ed & Hd & Hx). destruct (upd_head_time H _ L t S) as (H' & E & S' & HF & _). exists H'. split; [done|].
  assert (Hk : forall j, j ∈ busy A -> j_tim j <> pending_head pv) by (intros j Hj; destruct (R3 (j_tim j)) as (_ & ? & _); [apply R4; by right|done]).
  split; try done; [by exists d| |].
  - intros q Hq. destruct (R3 q Hq) as (Hz & Hh & c & Ec & Hc). split; [done|]. split; [done|]. exists c. by rewrite HF.
  - unfold queued in *. destruct (queue A) as [|j q] eqn:Eq; [done|]. apply (chain_frame_at H); [|done]. intros x Hx'. unfold nxt_at. rewrite HF; [done|].
    change (j_tim j :: (j_tim <$> q)) with (j_tim <$> j :: q) in Hx'. apply list_elem_of_fmap in Hx' as (j' & -> & Hj'). apply Hk. unfold busy. rewrite Eq. apply elem_of_app. by right.
Qed.
Lemma rep_fuel H pv A L : rep H pv A L -> (length (busy A) < list_fuel H)%nat.
Proof.
  intros R. unfold list_fuel. rewrite <- (length_fmap j_tim), <- (size_list_to_set (C := gset Z) _ (r_busy _ _ _ _ R)), <- (size_dom (D := gset Z)).
  apply Nat.lt_succ_r, subseteq_size. intros q (j & -> & Hj)%elem_of_list_to_set%list_elem_of_fmap. apply elem_of_dom.
  destruct (r_known _ _ _ _ R (j_tim j)) as (_ & _ & c & -> & _); [apply (r_in _ _ _ _ R); by right|]. by eexists.
Qed.
(** The first timer of the list. *)
Lemma rep_first H pv A L : rep H pv A L -> next_at H (pending_head pv) 0 = Ret (first_or_0 (j_tim <$> pend A)) /\
  forall j P, pend A = j :: P -> j_tim j <> 0 /\ time_at H (j_tim j) = Ret (j_time j) /\ forall j', j' ∈ P -> j_time j <= j_time j'.
Proof.
  intros R. pose proof (r_list _ _ _ _ R) as (d & S & _). split.
  - rewrite <- (rep_nodes _ _ _ _ R), <- (level0 L); [|intros e He; destruct (ok_cells _ _ _ S e He) as (_ & _ & _ & _ & ?); lia]. apply next_at_ok, chain_first, S. lia.
  - intros j P E. destruct (r_known _ _ _ _ R (j_tim j)) as (Hz & _ & c & Ec & _ & Hp & _); [apply (r_in _ _ _ _ R); left; rewrite E; left|]. split; [done|].
    destruct (Hp j) as (n & Ei & _); [rewrite E; left|done|]. injection Ei as Et _ _ _ _ _. split; [unfold time_at, get_tim; rewrite Ec; simpl; by rewrite Et|].
    pose proof (r_pend _ _ _ _ R) as HP. rewrite E in HP. apply Forall2_cons_inv_r in HP as (e & L' & [_ Ee] & HP & ->). pose proof (ok_sorted _ _ _ S) as Hs. inversion_clear Hs as [|? ? _ Hf].
    rewrite list.Forall_forall in Hf. intros j' Hj'. apply list_elem_of_lookup in Hj' as [i Hi]. destruct (Forall2_lookup_r _ _ _ _ _ HP Hi) as (e' & He' & [_ <-]). rewrite <- Ee. apply Hf. by eapply list_elem_of_lookup_2.
Qed.
Lemma all_wait now P : (forall j, j ∈ P -> now < j_time j) -> due now P = [] /\ wait now P = P.
Proof.
  induction P as [|j P IH]; intros Hw; [done|]. pose proof (Hw j ltac:(left)). destruct IH as [E1 E2]; [intros; apply Hw; by right|]. unfold due, wait in *.
  rewrite filter_cons_False, filter_cons_True by lia. by rewrite E2.
Qed.

Lemma manage_ok H pv P L now s P' s' : rep H pv (Jobs P [] None) L -> running_tim pv = 0 -> j_manage prog now P s = Some (P', s') ->
  exists H' pv' L', timer_skiplist_manage (c_call prog) now H pv s = Ret (H', pv', s') /\ rep H' pv' (Jobs P' [] None) L' /\ running_tim pv' = 0.
Proof.
  intros R Er E. destruct (rep_first _ _ _ _ R) as [Hf Hft]. simpl in Hf, Hft. unfold timer_skiplist_manage, j_manage in *. rewrite Hf. cbn [mbind outcome_bind].
  destruct P as [|j P]; [injection E as <- <-; by exists H, pv, L|]. destruct (Hft j P eq_refl) as (Hz & Ht & Hmin). cbn [fmap list_fmap first_or_0]. rewrite (proj2 (Z.eqb_neq _ _)) by done.
  rewrite Ht. cbn [mbind outcome_bind]. rewrite Z.gtb_ltb. destruct (Z.ltb_spec now (j_time j)) as [Hlt|Hge].
  { destruct (all_wait now (j :: P)) as [E1 E2]; [intros j' [->|Hj']%elem_of_cons; [done|]; specialize (Hmin j' Hj'); lia|]. rewrite E1, E2 in E. injection E as <- <-. by exists H, pv, L. }
  pose proof (r_list _ _ _ _ R) as (d & S & Ed & Hd & Hx). destruct (prev_entries_ok H pv L now d S Ed Hd) as (prev & -> & _ & Hprev). cbn [mbind outcome_bind].
  destruct (cut_ok H pv L now d prev S Ed Hd Hprev) as (H1 & d1 & Ecut & S1 & Hd1 & HI & _ & Hch). rewrite Ed, Nat2Z.id, Ecut. cbn [mbind outcome_bind].
  pose proof (same_nodes _ _ (same_due now _ _ (r_pend _ _ _ _ R))) as Eu. simpl in Eu. rewrite Eu in Hch. set (pv1 := with_depth (Z.of_nat d1) pv).
  assert (sl_state H1 pv1 (later now L)) as HS1 by (by exists d1).
  assert (j_tim j = first_or_0 (j_tim <$> due now (j :: P))) as Ej by (unfold due; by rewrite filter_cons_True).
  assert (length (due now (j :: P)) < size H1)%nat as Hsz.
  { assert (dom H1 = dom H :> gset Z) as Edom by (apply set_eq; intros q; rewrite !elem_of_dom; specialize (HI q); destruct (H1 !! q), (H !! q); done || (split; intros; by eexists)).
    rewrite <- (size_dom (D := gset Z)), Edom, size_dom. pose proof (ok_size _ _ _ S) as Hs. pose proof (Forall2_length (r_pend _ _ _ _ R)) as El. simpl in El.
    pose proof (length_filter (fun j => j_time j <= now) (j :: P)) as Hl. unfold due. simpl in Hl |- *. lia. }
  assert (Hdk : forall x, x ∈ j_tim <$> due now (j :: P) -> exists j', x = j_tim j' /\ j' ∈ j :: P /\ x ∈ K).
  { intros x (j' & -> & [_ Hj']%list_elem_of_filter)%list_elem_of_fmap. exists j'. split; [done|]. split; [done|]. apply (r_in _ _ _ _ R). by left. }
  destruct (running_ok (j_tim <$> due now (j :: P)) H1 (j_tim j) None (list_fuel H1)) as (H2 & E2 & HH).
  { exact Hch. }
  { rewrite <- Eu. apply (sublist_NoDup _ (e_node <$> L)); [by eapply sl_nodup, R|]. apply fmap_sublist, sublist_filter. }
  { apply list.Forall_forall. intros x (j' & -> & _ & Hk)%Hdk. by apply (r_known _ _ _ _ R). }
  { intros x (j' & -> & Hj' & Hk)%Hdk. destruct (r_known _ _ _ _ R _ Hk) as (_ & _ & c & Ec & _ & Hp & _). destruct (Hp j' Hj' eq_refl) as (n & Ei & _). injection Ei as _ Es _ _ _ _.
    pose proof (HI (j_tim j')) as HIj. rewrite Ec in HIj. destruct (info_len _ _ _ HIj) as (c1 & Ec1 & Ei1). injection Ei1 as _ Es1 _ _ _ _. exists c1. split; [done|]. congruence. }
  { unfold list_fuel. rewrite length_fmap. lia. }
  rewrite <- Ej in E2. rewrite E2. cbn [mbind outcome_bind].
  pose proof (rep_due H H1 H2 pv pv1 (j :: P) L now R Er HS1 HI ltac:(done)) as R2. specialize (R2 ltac:(unfold queued; destruct (due now (j :: P)); exact Hch) HH).
  destruct (rep_first _ _ _ _ R2) as [Hf2 Hft2]. simpl in Hf2, Hft2. rewrite Hf2. cbn [mbind outcome_bind].
  assert (exists t, (if first_or_0 (j_tim <$> wait now (j :: P)) =? 0 then Ret 0 else time_at H2 (first_or_0 (j_tim <$> wait now (j :: P)))) = Ret t) as [t ->].
  { destruct (wait now (j :: P)) as [|w W] eqn:Ew; [by exists 0|]. simpl. destruct (Hft2 w W eq_refl) as (_ & -> & _). destruct (j_tim w =? 0); eauto. }
  cbn [mbind outcome_bind]. destruct (rep_head_time H2 pv1 _ _ t R2) as (H3 & E3 & R3). change (pending_head pv) with (pending_head pv1). rewrite E3. cbn [mbind outcome_bind].
  destruct (expired_ok (due now (j :: P)) H3 pv1 (wait now (j :: P)) _ s P' s' (list_fuel H3) R3 E) as (H4 & pv4 & L4 & E4 & R4).
  { pose proof (rep_fuel _ _ _ _ R3) as Hb. done. }
  rewrite <- Ej in E4. rewrite E4. cbn [mbind outcome_bind]. exists H4, (with_running 0 pv4), L4. split; [done|]. split; [|done].
  destruct R4 as [Q1 Q2 Q3 Q4 Q5 Q6 Q7 Q8]. split; try done. simpl. apply not_elem_of_nil.
Qed.

Definition hop_in (x : hop) : Prop := match x with HOp o => op_tim o ∈ K | HStopSync tim | HPending tim => tim ∈ K | _ => True end.
Lemma no_cur o P A v : j_op o (Jobs P [] None) = Some (A, v) -> A = Jobs (pend A) [] None.
Proof.
  destruct o as [now tim ticks type fct arg|tim]; cbn [j_op queue]; rewrite decide_False by apply not_elem_of_nil; [|by intros [= <- <-]].
  unfold j_put. destruct (_ =? _); [done|]. by intros [= <- <-].
Qed.
Lemma step_ok x H pv P L s P' s' : rep H pv (Jobs P [] None) L -> running_tim pv = 0 -> hop_in x -> j_step prog x P s = Some (P', s') ->
  exists H' pv' L', c_step prog x H pv s = Ret (H', pv', s') /\ rep H' pv' (Jobs P' [] None) L' /\ running_tim pv' = 0.
Proof.
  intros R Er Hx E. destruct (rep_first _ _ _ _ R) as [Hf Hft]. simpl in Hf, Hft. destruct x as [o|tim|tim| | |now]; cbn [hop_in j_step c_step] in *.
  - destruct (j_op o _) as [[A v]|] eqn:Eo; [|done]. simpl in E. injection E as <- <-. destruct (op_ok o H pv _ L A v R Hx Eo) as (H' & pv' & L' & -> & R' & Er' & _).
    rewrite (no_cur _ _ _ _ Eo) in R'. exists H', pv', L'. split; [done|]. split; [done|]. congruence.
  - injection E as <- <-. destruct (rest_ok H pv _ L tim R Hx) as (H' & pv' & L' & E & R' & Er' & _); [apply not_elem_of_nil|]. exists H', pv', L'. split; [|split; [exact R'|congruence]].
    unfold timer_skiplist_stop_sync, stop_sync_step. simpl. by rewrite E.
  - injection E as <- <-. exists H, pv, L. split; [|done]. destruct (r_known _ _ _ _ R tim Hx) as (_ & _ & c & Ec & _ & Hp & _ & Hi). unfold timer_skiplist_pending, get_tim. rewrite Ec. cbn [of_option mbind outcome_bind].
    do 5 f_equal. simpl in *. case_bool_decide as Hin.
    + apply list_elem_of_fmap in Hin as (j & -> & Hj). destruct (Hp j Hj eq_refl) as (n & Ei & _). injection Ei as _ -> _ _ _ _. done.
    + rewrite Hi; [done|done|apply not_elem_of_nil].
  - injection E as <- <-. exists H, pv, L. split; [|done]. unfold timer_skiplist_next_expiry_time. rewrite Hf. cbn [mbind outcome_bind]. destruct P as [|j P]; [done|].
    destruct (Hft j P eq_refl) as (Hz & Ht & _). simpl. rewrite (proj2 (Z.eqb_neq _ _)) by done. by rewrite Ht.
  - injection E as <- <-. exists H, pv, L. split; [|done]. unfold timer_skiplist_next_expiry_timer. rewrite Hf. by destruct P.
  - by apply (manage_ok H pv P L now s).
Qed.
Lemma history_ok xs : forall H pv P L s P' s', rep H pv (Jobs P [] None) L -> running_tim pv = 0 -> Forall hop_in xs -> j_history prog xs P s = Some (P', s') ->
  exists H' pv' L', c_history prog xs H pv s = Ret (H', pv', s') /\ rep H' pv' (Jobs P' [] None) L'.
Proof.
  induction xs as [|x xs IH]; intros H pv P L s P' s' R Er Hx E; cbn [j_history c_history] in *; [injection E as <- <-; by exists H, pv, L|].
  apply list.Forall_cons in Hx as [Hx Hxs]. destruct (j_step prog x P s) as [[P1 s1]|] eqn:E1; [|done]. cbn [mbind option_bind fst snd] in E.
  destruct (step_ok x H pv P L s P1 s1 R Er Hx E1) as (H1 & pv1 & L1 & -> & R1 & Er1). cbn [mbind outcome_bind fst snd]. by apply (IH H1 pv1 P1 L1).
Qed.
Lemma jobs_sorted H pv A L : rep H pv A L -> StronglySorted (fun a b => j_time a <= j_time b) (pend A).
Proof.
  intros R. destruct (r_list _ _ _ _ R) as (d & S & _). pose proof (ok_sorted _ _ _ S) as Hs. pose proof (r_pend _ _ _ _ R) as HP. revert Hs. clear -HP.
  induction HP as [|e j L P [_ Ee] HP IH]; [constructor|]. intros Hs. inversion_clear Hs as [|? ? Hs' Hf]. constructor; [auto|]. rewrite list.Forall_forall in Hf. apply list.Forall_forall.
  intros j' Hj'. apply list_elem_of_lookup in Hj' as [i Hi]. destruct (Forall2_lookup_r _ _ _ _ _ HP Hi) as (e' & He' & [_ <-]). rewrite <- Ee. apply Hf. by eapply list_elem_of_lookup_2.
Qed.
End rep.

(** ** Initialisation *)

Lemma inits_ok K : forall H, (forall q, q ∈ K -> cell10 H q) -> exists H', c_inits H K = Ret H' /\ (forall q, q ∉ K -> H' !! q = H !! q) /\
  forall q, q ∈ K -> exists c, H' !! q = Some c /\ length (sl_next c) = 10%nat /\ tim_state c = RTE_TIMER_STOP.
Proof.
  induction K as [|k K IH]; intros H Hc; cbn [c_inits]; [exists H; split; [done|]; split; [done|]; by intros ? ?%elem_of_nil|].
  destruct (Hc k ltac:(left)) as (c & Ec & Hl). unfold timer_skiplist_init. rewrite (upd_tim_ok _ _ _ _ Ec). cbn [mbind outcome_bind]. set (H1 := <[k := with_state RTE_TIMER_STOP c]> H).
  destruct (IH H1) as (H2 & -> & HF & HK).
  { intros q Hq. unfold cell10, H1. destruct (decide (q = k)) as [->|Hne]; [rewrite lookup_insert_eq; by eexists|]. rewrite lookup_insert_ne by done. apply Hc. by right. }
  exists H2. split; [done|]. split.
  - intros q [Hne Hn]%not_elem_of_cons. rewrite HF by done. unfold H1. by rewrite lookup_insert_ne.
  - intros q Hq. destruct (decide (q ∈ K)) as [Hin|Hnin]; [auto|]. apply elem_of_cons in Hq as [->|]; [|done]. rewrite HF by done. unfold H1. rewrite lookup_insert_eq. by eexists.
Qed.
Lemma seed_ok mt : length (mt_words mt) = 624%nat -> exists ctx, random_mt_ctx_init mt 0x12345678 = Ret ctx /\ ctx_ok ctx.
Proof.
  intros Hl. unfold random_mt_ctx_init. rewrite mt_set_ok by lia. cbn [mbind outcome_bind].
  rewrite (init_loop 0x12345678); [|by rewrite length_insert|apply list_lookup_insert_eq; lia]. cbn [mbind outcome_bind]. eexists. split; [done|]. exists (seeded 0x12345678 <$> seq 0 624), 0%nat.
  assert (length (seeded 0x12345678 <$> seq 0 624) = 624%nat) as Hl' by (by rewrite length_fmap, length_seq). split; [done|]. split; [|by apply table_drawn].
  apply Forall_fmap, list.Forall_forall. intros k _. by apply seeded_word32.
Qed.
Lemma sl_init_ok K H0 h mt : is_Some (H0 !! h) -> length (mt_words mt) = 624%nat -> h <> 0 -> (forall q, q ∈ K -> q <> 0 /\ q <> h /\ cell10 H0 q) ->
  exists H1 pv H2, timer_skiplist_subsystem_init H0 h mt = Ret (H1, pv) /\ c_inits H1 K = Ret H2 /\ rep K H2 pv (Jobs [] [] None) [] /\ running_tim pv = 0.
Proof.
  intros [c0 Eh] Hmt Hz HK. destruct (seed_ok mt Hmt) as (ctx & E & Hctx). unfold timer_skiplist_subsystem_init. rewrite (upd_tim_ok _ _ _ _ Eh). cbn [mbind outcome_bind]. rewrite E. cbn [mbind outcome_bind].
  set (H1 := <[h := zero_tim]> H0). destruct (inits_ok K H1) as (H2 & E2 & HF & HC).
  { intros q Hq. destruct (HK q Hq) as (_ & Hne & Hc). unfold cell10, H1. by rewrite lookup_insert_ne. }
  exists H1, (Priv h 0 0 0 ctx 0), H2. split; [done|]. split; [done|]. split; [|done]. assert (H2 !! h = Some zero_tim) as Eh2.
  { rewrite HF; [unfold H1; by rewrite lookup_insert_eq|]. intros Hin. by destruct (HK h Hin) as (_ & ? & _). }
  split; simpl.
  - exists 0%nat. split; [|split; [done|split; [|done]]].
    + split; simpl; [apply NoDup_singleton|by repeat constructor|exists zero_tim; by split|by intros ? ?%elem_of_nil|constructor|].
      intros i Hi. unfold nxt_at. rewrite Eh2. apply (lookup_replicate_2 10 0 i Hi).
    + split; [lia|]. intros i. by split; [lia|].
  - constructor.
  - intros q Hq. destruct (HK q Hq) as (Hq0 & Hqh & _). destruct (HC q Hq) as (c & Ec & Hl & Es). split; [done|]. split; [done|]. exists c. split; [done|].
    split; [done|]. split; [by intros ? ?%elem_of_nil|]. split; [by intros ? ?%elem_of_nil|done].
  - by intros j [?%elem_of_nil|?%elem_of_nil].
  - constructor.
  - by intros x ?%elem_of_nil.
  - done.
  - apply not_elem_of_nil.
Qed.

(** C13: A skip list of timers is a list of jobs sorted by time, first come first served among equal times.  After the initialisation of the list at [h] and of the timers [K], any history of starting timers (once or periodically), stopping them (also with the loop until it succeeds), asking for a pending timer, for the next time or the next timer, and running what expired returns what the list of jobs returns, without a null or wild pointer and with all loops ending.  The functions that are called when timers expire do what [prog] says, and may start and stop any timers, their own included: running calls exactly the functions of the jobs that are due, in the order of their times, a timer that expired but was not called yet cannot be started or stopped, one whose function stops or starts it again is left as it is, and a periodic one otherwise waits again for its time plus its period.  The history is one in which no timer is started for the time 0 after the 64-bit addition. *)
Theorem skiplist_refines (K : list Z) (H0 : timers) (h : Z) (mt : random_mt_ctx) (prog : Z -> Z -> list sop) (xs : list hop) (P : list job) (s : list event) :
  is_Some (H0 !! h) -> length (mt_words mt) = 624%nat -> h <> 0 -> (forall q, q ∈ K -> q <> 0 /\ q <> h /\ cell10 H0 q) ->
  (forall f a, Forall (fun o => op_tim o ∈ K) (prog f a)) -> Forall (hop_in K) xs -> j_history prog xs [] [] = Some (P, s) ->
  exists H1 pv H2 H3 pv3, timer_skiplist_subsystem_init H0 h mt = Ret (H1, pv) /\ c_inits H1 K = Ret H2 /\
    c_history prog xs H2 pv [] = Ret (H3, pv3, s) /\ StronglySorted (fun a b => j_time a <= j_time b) P.
Proof.
  intros Hh Hmt Hz HK Hprog Hxs E. destruct (sl_init_ok K H0 h mt Hh Hmt Hz HK) as (H1 & pv & H2 & E1 & E2 & R & Er).
  destruct (history_ok K prog Hprog xs H2 pv [] [] [] P s R Er Hxs E) as (H3 & pv3 & L3 & E3 & R3). exists H1, pv, H2, H3, pv3.
  split; [done|]. split; [done|]. split; [done|]. exact (jobs_sorted K H3 pv3 _ L3 R3).
Qed.

(** Three timers; function 2 tries to stop two that expired with its own timer,
    which it starts twice. *)
Definition memory3 : timers := list_to_map ((fun q => (q, zero_tim)) <$> [4; 8; 16; 24]).
Definition prog2 (f a : Z) : list sop := if f =? 2 then [OStop 8; OReset 100 16 50 SINGLE 1 a; OReset 100 16 20 SINGLE 1 a; OStop 24] else [].
Definition history3 : list hop :=
  [HOp (OReset 10 8 10 PERIODICAL 1 5); HOp (OReset 10 16 20 SINGLE 2 6); HOp (OReset 10 24 20 SINGLE 3 7); HNextTime; HManage 15; HManage 25; HNextTimer;
   HManage 40; HPending 8; HPending 16; HPending 24; HNextTime; HOp (OReset 100 8 20 SINGLE 1 9); HManage 120; HNextTime; HStopSync 8].
Definition events3 : list event :=
  [Returned 0; Returned 0; Returned 0; Returned 20; Called 8 1 5; Returned 16; Called 16 2 6; Returned (-1); Returned 0; Returned 0; Returned (-1); Called 24 3 7; Called 8 1 5;
   Returned 1; Returned 1; Returned 0; Returned 40; Returned 0; Called 16 1 6; Called 8 1 9; Returned 18446744073709551615].
Lemma skiplist_refines_witness : j_history prog2 history3 [] [] = Some ([], events3) /\
  exists H1 pv H2 H3 pv3, timer_skiplist_subsystem_init memory3 4 (RandomMt 3 (replicate 624 7)) = Ret (H1, pv) /\ c_inits H1 [8; 16; 24] = Ret H2 /\
    c_history prog2 history3 H2 pv [] = Ret (H3, pv3, events3).
Proof.
  split; [vm_compute; reflexivity|].
  destruct (skiplist_refines [8; 16; 24] memory3 4 (RandomMt 3 (replicate 624 7)) prog2 history3 [] events3) as (H1 & pv & H2 & H3 & pv3 & E1 & E2 & E3 & _).
  - vm_compute. eexists. reflexivity.
  - vm_compute. reflexivity.
  - discriminate.
  - apply list.Forall_forall. repeat (apply list.Forall_cons; split; [split; [discriminate|split; [discriminate|eexists; split; reflexivity]]|]). constructor.
  - intros f a. unfold prog2. destruct (f =? 2); [|constructor]. repeat (apply list.Forall_cons; split; [simpl; set_solver|]). constructor.
  - repeat (apply list.Forall_cons; split; [simpl; done || set_solver|]). constructor.
  - vm_compute. reflexivity.
  - exists H1, pv, H2, H3, pv3. split; [exact E1|]. split; [exact E2|exact E3].
Defined.

(** A timer for the time 0 is not found again: the search for the entries before
    it is for the time [time64 - 1], the largest time.  It is stopped and still the
    next timer of the list. *)
Example time_zero_stays :
  (r ← timer_skiplist_subsystem_init memory3 4 (RandomMt 3 (replicate 624 7)); H ← c_inits r.1 [8];
   r ← c_history prog2 [HOp (OReset (2 ^ 64 - 5) 8 5 SINGLE 1 0); HOp (OStop 8); HPending 8; HNextTimer] H r.2 []; Ret r.2)
  = Ret [Returned 0; Returned 0; Returned 0; Returned 8].
Proof. vm_compute. reflexivity. Qed.
